(* ===== verification/_CoqProject ===== *)
-Q . S2P
Prelude.v
StreamTypes.v
MetaState.v
MetaApply.v
MetaInv.v
MetaHistory.v
MetaEffects.v
MetaPolicy.v
MetaCodec.v
MetaSnapshot.v
MetaQuery.v
RecordCodec.v
ObjectIndex.v
ObjectStore.v
ObjectIO.v
Composite.v
MetaService.v
WalFormat.v
WalWriter.v
WalReader.v
WalLog.v
WalRecover.v
LogCache.v
Upload.v
EngineMeta.v
Recovery.v
Storage.v
StorageInv.v
StreamFacade.v
ServerTypes.v
Server.v
ServerFaults.v
ServerInv.v
ServerRead.v
Compact.v
CompactExec.v
CompactRun.v
CompactStream.v
SqlStore.v
SqlSink.v
SqlAgree.v
