(* ===== verification/Prelude.v ===== *)
(** * streamstack: verification development

    The repository holds two layers. [s3stream] is a storage engine that
    keeps append-only streams in an object store: appends go to a write-ahead
    log (WAL) made of objects, are cached in memory, and are uploaded in the
    background as data objects whose place is recorded by a metadata service.
    [picomq] builds a message queue on it: a replicated metadata state
    machine, a server that maps named streams onto engine streams, and
    clients. This library translates the parts below into Rocq definitions,
    function by function, and proves what makes them correct.

    ** How the files follow the program

    - [Prelude] (this file): machine integers as [Z] with their wrap-around
      written out, the [result] type, byte-level decoders with their contract
      ([Codec]), record update notation, ordered traversal of finite maps.
    - Metadata plane, [picomq/pico-metadata/src]: [MetaState] (state.rs,
      command.rs, error.rs), [MetaApply] (apply.rs, a state and error monad in
      which a failed command also returns the state it leaves), [MetaCodec]
      (codec.rs), [MetaSnapshot] (snapshot.rs), [MetaQuery] (query.rs),
      [MetaService] (view.rs, sink.rs, manager.rs, lifecycle.rs). Theory:
      [MetaInv] (indexes agree with the rows), [MetaHistory] (what any
      sequence of commands preserves: epochs, ids), [MetaEffects] and
      [MetaPolicy] (frames, retries, placement, destroyed objects).
    - Records and objects, [s3stream-codec] and [s3stream-object]:
      [RecordCodec] (record.rs, wal_record.rs), [ObjectIndex] (index.rs,
      metadata.rs), [ObjectStore] (the storage trait as a class with its
      contract, the in-memory store as an instance), [ObjectIO] (writer.rs,
      reader.rs), [Composite] (composite.rs).
    - WAL, [s3stream-wal/src/object]: [WalFormat] (header.rs, keys.rs,
      reservation.rs), [WalWriter] (writer.rs as steps of its tasks),
      [WalReader] (service.rs), [WalRecover] (recover.rs). Theory: [WalLog].
    - Engine, [s3stream-core/src]: [LogCache] (cache/log_cache.rs), [Upload]
      (storage/upload.rs), [EngineMeta] (the managers as the engine's
      interface), [Recovery] (storage/recovery.rs and [S3Storage::recover]),
      [Storage] (storage/s3_storage.rs as actions of its tasks) with the
      theory [StorageInv], [StreamFacade] (stream.rs).
    - Server, [picomq/pico-server/src]: [ServerTypes] (types.rs, error.rs,
      framing.rs, registry.rs), [Server] (service.rs, waiter.rs,
      ownership.rs, transfer.rs and [PicoNode::transfer_stream]): a request
      is a program of a free monad whose events are the awaits and the
      accesses to shared state of the code, and a run interleaves the events
      of all requests. Theory: [ServerInv] (a program logic for these
      programs), [ServerRead] (reads, listings, redirects), [ServerFaults]
      (runs that break a promise).
    - Compaction, [s3stream-core/src/compact]: [Compact] (plan.rs, the
      analyzer), [CompactExec] (executor.rs and mod.rs, a round as a program
      over the object store and the metadata managers, with the theory of
      block reads and writes), [CompactRun] (what a whole round does),
      [CompactStream] (stream_compactor.rs, objects of one stream).
    - Metadata log in SQL, [picomq/pico-sql/src]: [SqlStore] (store.rs and
      lease.rs: statements on the three tables, the lease keeper and its
      contests), [SqlSink] (sink.rs: opening, tailer and flusher as actions
      of nodes over one database), [SqlAgree] (what a cluster of them
      promises, and the append that breaks it).
    Concurrency is modelled by actions: a definition for what a task does
    between two suspension points, whose argument carries the answers of the
    components it called; a run is any list of actions, so that a theorem
    about all runs covers every interleaving. Interfaces between components
    are classes with contracts ([ObjectStorageContract],
    [CommandSinkContract], [EngineMetadataContract]); clients are proved
    against the contract and the implementations discharge it.

    ** What the theorems show

    - The metadata state keeps its indexes consistent under every command;
      stale nodes and stale stream epochs are fenced; a stream has one writer
      per epoch; commits extend streams without gaps; objects to delete are
      never live; retries are idempotent; snapshots and the wire codec are
      inverse to their readers and accept nothing else.
    - An object that was written reads back exactly; the index search is the
      linear scan.
    - A record the WAL acknowledged can be read until it is trimmed, when the
      writer started on a log that ends on a file boundary; after another
      start its first bulk cannot be read by position. Recovery
      yields exactly the durable records past the trim offset and terminates;
      a fenced writer acknowledges nothing.
    - The log cache answers reads exactly while its puts leave no gaps; a read
      stitched from it and any block cache has no gap between its records,
      though it may begin late when the block cache finds nothing; confirmed records stay readable
      until committed; appends keep their order through backpressure; the WAL
      is trimmed only behind committed data, under two conditions the code
      does not ensure, each with a run that violates it; recovery at startup
      commits the tail of every open stream; reservations of a stream tile it
      and the confirm offset covers durable records only.
    - The server's registry deduplicates producers over every interleaving,
      under conditions that its theorem names and several runs violate; reads
      over a truthful tail cache and a truthful engine return the next records
      of the log; listings page completely; redirects end at the owner.
    - Compaction, on blocks that are not empty and fit its cache, moves every
      block it plans exactly once, within its cache,
      and a round that commits keeps every block of the objects it replaces
      readable, bytes and offsets unchanged; the sanity check before the
      commit accepts exactly such requests.
      Merging or linking the objects of one stream keeps its live blocks;
      two kinds of request the compactor sends are always refused by the
      metadata, which the theorems on [CompactStream.compact] state.
    - Nodes over one SQL log hold prefixes of one history and acknowledge
      what is in it, provided that appends stay above the stored snapshot,
      which the code does not check, and an append below it is lost; the lease
      has one leader at a time up to the skew of the clocks.
    ** Bounds and fuel

    Integers are unbounded [Z]s in the range of their Rust type; where the
    code computes, the wrap is written out ([wrap_u64] and the like), and
    where a debug build would panic the definition returns [None]. Loops that
    are not structural take fuel that their callers compute from the input
    and that the theorems show to suffice: the binary searches get the length
    of the searched list, [GET0_CALLS] is the two levels of [LogCache::get0],
    [recovery_fuel] bounds the objects and bytes of a WAL listing, [loop_fuel]
    the records left to recover. Offsets are assumed below [2^63] where the
    code converts them to [i64].
    [all_pages] gets one more than the number of stored names.
    [stage_fuel] is the number of blocks still to place in a compaction
    stage, which every stage lowers because no block exceeds the cache; the
    chunks of one oversized block are bounded by its size.
    ** Not modelled

    - Time, timers and rate limits: a timer is an action that may happen at
      any moment. Metrics, logging and tracing have no effect on the model.
    - CRC32 and MD5 (external crates) are parameters.
    - Weak memory: the atomics of the code are read and written in one order.
    - JSON (serde_json) is a parameter of the server's programs: the parser
      that splits a body into its elements.
    - The block cache below a read ([S3BlockCache]) is a parameter of
      [Storage.read0], and its theorems hold for every block cache.
    - The iteration order of hash maps is a parameter ([values]); theorems
      assume only that it lists the entries. *)

From Stdlib Require Import ZArith Lia Strings.Byte Ascii.
From Stdlib Require String.
From stdpp Require Import base numbers list sorting gmap strings.

Open Scope Z_scope.

(** ** Machine integers

    Rust integers are modelled by [Z]; a value of type [u64], [i64], [u32],
    [i32], [u16], [i16] or [u8] is a [Z] in the range below, and arithmetic that may
    leave the range is followed by the explicit wrap-around of the release
    build. *)
Definition two64 : Z := 18446744073709551616.
Definition two63 : Z := 9223372036854775808.
Definition two32 : Z := 4294967296.
Definition two31 : Z := 2147483648.
Definition u64_max : Z := 18446744073709551615.

Definition is_u8 (z : Z) : Prop := 0 <= z < 256.
Definition is_u16 (z : Z) : Prop := 0 <= z < 65536.
Definition is_i16 (z : Z) : Prop := -32768 <= z < 32768.
Definition is_u32 (z : Z) : Prop := 0 <= z < two32.
Definition is_i32 (z : Z) : Prop := - two31 <= z < two31.
Definition is_u64 (z : Z) : Prop := 0 <= z < two64.
Definition is_i64 (z : Z) : Prop := - two63 <= z < two63.

Definition wrap_u32 (z : Z) : Z := z mod two32.
Definition wrap_u64 (z : Z) : Z := z mod two64.
Definition wrap_i16 (z : Z) : Z := (z + 32768) mod 65536 - 32768.
Definition wrap_i32 (z : Z) : Z := (z + two31) mod two32 - two31.
Definition wrap_i64 (z : Z) : Z := (z + two63) mod two64 - two63.

(** Unsigned subtraction that stops at zero. *)
Definition saturating_sub (a b : Z) : Z := if a <? b then 0 else a - b.

Ltac unfold_ints :=
  unfold is_u8, is_u16, is_i16, is_u32, is_i32, is_u64, is_i64, wrap_u32, wrap_u64, wrap_i16,
    wrap_i32, wrap_i64, saturating_sub, u64_max, two64, two63, two32, two31 in *.

(** [lia] on goals about machine integers. *)
Ltac int_lia := unfold_ints; lia.

Create HintDb ints discriminated.

Lemma wrap_u64_id z : is_u64 z → wrap_u64 z = z.
Proof. intros. unfold wrap_u64. apply Z.mod_small. int_lia. Qed.

Lemma wrap_u64_is_u64 z : is_u64 (wrap_u64 z).
Proof. unfold_ints. apply Z.mod_pos_bound. lia. Qed.

Lemma wrap_u32_id z : is_u32 z → wrap_u32 z = z.
Proof. intros. unfold wrap_u32. apply Z.mod_small. int_lia. Qed.

Lemma wrap_u32_is_u32 z : is_u32 (wrap_u32 z).
Proof. unfold_ints. apply Z.mod_pos_bound. lia. Qed.

Lemma wrap_i64_id z : is_i64 z → wrap_i64 z = z.
Proof.
  intros. unfold wrap_i64. rewrite Z.mod_small; [lia|]. int_lia.
Qed.

Lemma wrap_i64_is_i64 z : is_i64 (wrap_i64 z).
Proof.
  unfold_ints. pose proof (Z.mod_pos_bound (z + 9223372036854775808) 18446744073709551616).
  lia.
Qed.

Lemma wrap_i32_id z : is_i32 z → wrap_i32 z = z.
Proof.
  intros. unfold wrap_i32. rewrite Z.mod_small; [lia|]. int_lia.
Qed.

Lemma wrap_i64_unsigned z : is_i64 z → wrap_i64 (z mod two64) = z.
Proof.
  intros. unfold wrap_i64. rewrite Zplus_mod_idemp_l.
  rewrite Z.mod_small; [lia|]. int_lia.
Qed.

Lemma wrap_i32_unsigned z : is_i32 z → wrap_i32 (z mod two32) = z.
Proof.
  intros. unfold wrap_i32. rewrite Zplus_mod_idemp_l.
  rewrite Z.mod_small; [lia|]. int_lia.
Qed.

Lemma wrap_i16_unsigned z : is_i16 z → wrap_i16 (z mod 65536) = z.
Proof.
  intros. unfold wrap_i16. rewrite Zplus_mod_idemp_l.
  rewrite Z.mod_small; [lia|]. int_lia.
Qed.

(** Wrapping to a signed width keeps the two's complement bits. *)
Lemma wrap_i64_mod z : wrap_i64 z mod two64 = z mod two64.
Proof. unfold wrap_i64. rewrite Zminus_mod_idemp_l. f_equal. lia. Qed.
Lemma wrap_i32_mod z : wrap_i32 z mod two32 = z mod two32.
Proof. unfold wrap_i32. rewrite Zminus_mod_idemp_l. f_equal. lia. Qed.
Lemma wrap_i16_mod z : wrap_i16 z mod 65536 = z mod 65536.
Proof. unfold wrap_i16. rewrite Zminus_mod_idemp_l. f_equal. lia. Qed.

Lemma wrap_i32_is_i32 z : is_i32 (wrap_i32 z).
Proof. unfold_ints. pose proof (Z.mod_pos_bound (z + 2147483648) 4294967296). lia. Qed.
Lemma wrap_i16_is_i16 z : is_i16 (wrap_i16 z).
Proof. unfold_ints. pose proof (Z.mod_pos_bound (z + 32768) 65536). lia. Qed.

#[export] Hint Resolve wrap_u64_is_u64 wrap_u32_is_u32 wrap_i64_is_i64 : ints.

(** ** Results

    Rust's [Result<A, E>]. *)
Inductive result (A E : Type) : Type :=
| Ok (a : A)
| Err (e : E).
Arguments Ok {A E} a.
Arguments Err {A E} e.

Definition rbind {A B E} (r : result A E) (k : A → result B E) : result B E :=
  match r with Ok a => k a | Err e => Err e end.

Definition map_err {A E E'} (f : E → E') (r : result A E) : result A E' :=
  match r with Ok a => Ok a | Err e => Err (f e) end.

Definition is_ok {A E} (r : result A E) : bool :=
  match r with Ok _ => true | Err _ => false end.

Declare Scope rust_scope.
Delimit Scope rust_scope with rust.
Notation "'let?' x ':=' r 'in' k" := (rbind r (λ x, k))
  (at level 200, x pattern, r at level 100, k at level 200) : rust_scope.
Open Scope rust_scope.

Lemma rbind_Ok_inv {A B E} (r : result A E) (k : A → result B E) b :
  rbind r k = Ok b → ∃ a, r = Ok a ∧ k a = Ok b.
Proof. destruct r; simpl; naive_solver. Qed.

(** Case analysis on the scrutinee of a monadic bind in a hypothesis. *)
Ltac inv_rbind H :=
  let a := fresh "a" in let H1 := fresh "Hr" in
  apply rbind_Ok_inv in H; destruct H as (a & H1 & H).

(** ** Bytes and fixed-width integers on the wire *)
Notation byte := Byte.byte.

Definition byte_val (b : byte) : Z := Z.of_N (Byte.to_N b).
Definition byte_of (z : Z) : byte :=
  match Byte.of_N (Z.to_N (z mod 256)) with Some b => b | None => x00 end.

Global Instance byte_eq_dec : EqDecision byte := Byte.byte_eq_dec.

Lemma byte_val_range b : 0 <= byte_val b < 256.
Proof. unfold byte_val. pose proof (Byte.to_N_bounded b). lia. Qed.

Lemma byte_val_of z : byte_val (byte_of z) = z mod 256.
Proof.
  pose proof (Z.mod_pos_bound z 256). unfold byte_val, byte_of.
  destruct (Byte.of_N (Z.to_N (z mod 256))) as [b|] eqn:Hb.
  - apply Byte.to_of_N in Hb. rewrite Hb. lia.
  - apply Byte.of_N_None_iff in Hb. lia.
Qed.

Lemma byte_of_val b : byte_of (byte_val b) = b.
Proof.
  unfold byte_of. rewrite Z.mod_small by apply byte_val_range.
  unfold byte_val. by rewrite N2Z.id, Byte.of_to_N.
Qed.

(** Little-endian: the low byte first. *)
Fixpoint le_bytes (n : nat) (z : Z) : list byte :=
  match n with
  | O => []
  | S n => byte_of z :: le_bytes n (z / 256)
  end.

Fixpoint le_val (bs : list byte) : Z :=
  match bs with
  | [] => 0
  | b :: bs => byte_val b + 256 * le_val bs
  end.

(** Big-endian: the high byte first. *)
Definition be_bytes (n : nat) (z : Z) : list byte := reverse (le_bytes n z).
Definition be_val (bs : list byte) : Z := le_val (reverse bs).

Lemma length_le_bytes n z : length (le_bytes n z) = n.
Proof. revert z; induction n; simpl; auto. Qed.

Lemma length_be_bytes n z : length (be_bytes n z) = n.
Proof. unfold be_bytes. by rewrite length_reverse, length_le_bytes. Qed.

Lemma le_val_bytes n z : le_val (le_bytes n z) = z mod 256 ^ Z.of_nat n.
Proof.
  revert z; induction n as [|n IH]; intros z; cbn [le_bytes le_val].
  - by rewrite Z.mod_1_r.
  - rewrite IH, byte_val_of, Nat2Z.inj_succ, Z.pow_succ_r by lia.
    rewrite Z.rem_mul_r by lia. lia.
Qed.

Lemma be_val_bytes n z : be_val (be_bytes n z) = z mod 256 ^ Z.of_nat n.
Proof. unfold be_val, be_bytes. by rewrite reverse_involutive, le_val_bytes. Qed.

Lemma le_val_range bs : 0 <= le_val bs < 256 ^ Z.of_nat (length bs).
Proof.
  induction bs as [|b bs IH]; cbn [le_val length]; [lia|].
  rewrite Nat2Z.inj_succ, Z.pow_succ_r by lia.
  pose proof (byte_val_range b). nia.
Qed.

Lemma be_val_range bs : 0 <= be_val bs < 256 ^ Z.of_nat (length bs).
Proof. unfold be_val. rewrite <-(length_reverse bs). apply le_val_range. Qed.

Lemma le_bytes_val bs : le_bytes (length bs) (le_val bs) = bs.
Proof.
  induction bs as [|b bs IH]; cbn [le_val length le_bytes]; [done|].
  pose proof (byte_val_range b).
  replace ((byte_val b + 256 * le_val bs) / 256) with (le_val bs)
    by (rewrite (Z.mul_comm 256), Z.div_add by lia; rewrite Z.div_small; lia).
  rewrite IH. f_equal.
  rewrite <-(byte_of_val b) at 2. unfold byte_of.
  by rewrite (Z.mul_comm 256), Z_mod_plus_full.
Qed.

Lemma be_bytes_val bs : be_bytes (length bs) (be_val bs) = bs.
Proof.
  unfold be_bytes, be_val. rewrite <-(length_reverse bs), le_bytes_val.
  apply reverse_involutive.
Qed.

(** [le_bytes] only looks at its argument modulo the width. *)
Lemma le_bytes_mod n z : le_bytes n (z mod 256 ^ Z.of_nat n) = le_bytes n z.
Proof.
  rewrite <-le_val_bytes. rewrite <-(length_le_bytes n z) at 1.
  apply le_bytes_val.
Qed.

(** ** Decoders

    A Rust reader [fn get(buf: &mut &[u8]) -> Result<A, E>]: it returns the
    value and the unread suffix of the buffer. *)
Definition Dec (E A : Type) : Type := list byte → result (A * list byte) E.

Definition dret {E A} (a : A) : Dec E A := λ bs, Ok (a, bs).
Definition dfail {E A} (e : E) : Dec E A := λ _, Err e.
Definition dbind {E A B} (d : Dec E A) (k : A → Dec E B) : Dec E B := λ bs,
  match d bs with
  | Ok (a, rest) => k a rest
  | Err e => Err e
  end.
Notation "x '<~' d ';;' k" := (dbind d (λ x, k))
  (at level 100, d at next level, right associativity) : rust_scope.

(** Reads [n] bytes, or fails with [e] when fewer remain. *)
Definition get_slice {E} (e : E) (n : nat) : Dec E (list byte) := λ bs,
  if (length bs <? n)%nat then Err e else Ok (take n bs, drop n bs).

Definition dmap {E A B} (f : A → B) (d : Dec E A) : Dec E B :=
  a <~ d ;; dret (f a).

(** [for _ in 0..count { v.push(get(buf)?) }] *)
Fixpoint get_many {E A} (n : nat) (d : Dec E A) : Dec E (list A) :=
  match n with
  | O => dret []
  | S n => a <~ d ;; l <~ get_many n d ;; dret (a :: l)
  end.

(** [decodes d a bs]: the decoder reads exactly [bs], whatever follows. *)
Definition decodes {E A} (d : Dec E A) (a : A) (bs : list byte) : Prop :=
  ∀ rest, d (bs ++ rest) = Ok (a, rest).

Lemma decodes_ret {E A} (a : A) : decodes (E:=E) (dret a) a [].
Proof. by intros rest. Qed.

Lemma decodes_bind {E A B} (d : Dec E A) (k : A → Dec E B) a b bs1 bs2 :
  decodes d a bs1 → decodes (k a) b bs2 → decodes (dbind d k) b (bs1 ++ bs2).
Proof. intros H1 H2 rest. unfold dbind. by rewrite <-app_assoc, H1, H2. Qed.

(** Variant that leaves nothing to write after the last field. *)
Lemma decodes_bind_nil {E A B} (d : Dec E A) (k : A → Dec E B) a b bs :
  decodes d a bs → decodes (k a) b [] → decodes (dbind d k) b bs.
Proof. intros H1 H2. rewrite <-(app_nil_r bs). by eapply decodes_bind. Qed.

Lemma decodes_map {E A B} (f : A → B) (d : Dec E A) a bs :
  decodes d a bs → decodes (dmap f d) (f a) bs.
Proof. intros H. eapply decodes_bind_nil; [exact H|apply decodes_ret]. Qed.

Lemma decodes_slice {E} (e : E) n (bs : list byte) :
  length bs = n → decodes (get_slice e n) bs bs.
Proof.
  intros <- rest. unfold get_slice.
  destruct (Nat.ltb_spec (length (bs ++ rest)) (length bs)) as [Hlt|].
  - rewrite length_app in Hlt. lia.
  - by rewrite take_app_length, drop_app_length.
Qed.

Lemma decodes_many {E A} (d : Dec E A) (enc : A → list byte) (l : list A) :
  (∀ a, a ∈ l → decodes d a (enc a)) →
  decodes (get_many (length l) d) l (concat (enc <$> l)).
Proof.
  induction l as [|a l IH]; intros Hl; [apply decodes_ret|].
  cbn [get_many length fmap list_fmap concat].
  eapply decodes_bind; [apply Hl; set_solver|].
  eapply decodes_bind_nil; [apply IH; intros; apply Hl; set_solver|].
  apply decodes_ret.
Qed.

Lemma get_slice_inv {E} (e : E) n bs x rest :
  get_slice e n bs = Ok (x, rest) → bs = x ++ rest ∧ length x = n.
Proof.
  unfold get_slice. destruct (Nat.ltb_spec (length bs) n); [done|].
  intros [= <- <-]. rewrite take_drop, length_take. split; [done|lia].
Qed.

Lemma dbind_Ok_inv {E A B} (d : Dec E A) (k : A → Dec E B) bs b rest :
  dbind d k bs = Ok (b, rest) →
  ∃ a mid, d bs = Ok (a, mid) ∧ k a mid = Ok (b, rest).
Proof. unfold dbind. destruct (d bs) as [[a mid]|]; naive_solver. Qed.

(** The contract of a wire format: the decoder reads back every encoded value
    that satisfies [P], and whatever it accepts satisfies [P] and is the
    encoding of what it returns, so the encoding is unique. *)
Class Codec {E A} (d : Dec E A) (P : A → Prop) (enc : A → list byte) : Prop := {
  codec_enc a : P a → decodes d a (enc a);
  codec_dec bs a rest : d bs = Ok (a, rest) → P a ∧ bs = enc a ++ rest;
}.

(** Runs a decoder forwards along an encoding, field by field. *)
Ltac dec_run :=
  repeat lazymatch goal with
  | |- decodes (dbind _ _) _ (_ ++ _) => eapply decodes_bind; [apply codec_enc; auto|]; cbn beta
  | |- decodes (dbind _ _) _ _ => eapply decodes_bind_nil; [apply codec_enc; auto|]; cbn beta
  | |- decodes (dret _) _ [] => apply decodes_ret
  end.

(** Inverts a successful decoder run into the fields it read. *)
Ltac dec_inv H :=
  lazymatch type of H with
  | dbind _ _ _ = Ok _ =>
    let a := fresh "a" in let mid := fresh "mid" in let H1 := fresh "Hd" in
    let Hp := fresh "Hp" in
    apply dbind_Ok_inv in H; destruct H as (a & mid & H1 & H);
    apply codec_dec in H1; destruct H1 as [Hp ->]; dec_inv H
  | dret _ _ = Ok _ => unfold dret in H; injection H as <- <-
  | _ => idtac
  end.

(** ** The integer readers and writers of the [bytes] crate

    [put_*_le] / [get_*_le] are little-endian, [put_*] big-endian; a signed
    integer is written in two's complement. *)
Definition put_u8 (z : Z) : list byte := le_bytes 1 z.
Definition put_u32_le (z : Z) : list byte := le_bytes 4 z.
Definition put_i32_le (z : Z) : list byte := le_bytes 4 z.
Definition put_u64_le (z : Z) : list byte := le_bytes 8 z.
Definition put_i64_le (z : Z) : list byte := le_bytes 8 z.
Definition put_i16 (z : Z) : list byte := be_bytes 2 z.
Definition put_u32 (z : Z) : list byte := be_bytes 4 z.
Definition put_i32 (z : Z) : list byte := be_bytes 4 z.
Definition put_u64 (z : Z) : list byte := be_bytes 8 z.
Definition put_i64 (z : Z) : list byte := be_bytes 8 z.

#[global] Arguments put_u8 : simpl never.
#[global] Arguments put_u32_le : simpl never.
#[global] Arguments put_i32_le : simpl never.
#[global] Arguments put_u64_le : simpl never.
#[global] Arguments put_i64_le : simpl never.
#[global] Arguments put_i16 : simpl never.
#[global] Arguments put_u32 : simpl never.
#[global] Arguments put_i32 : simpl never.
#[global] Arguments put_u64 : simpl never.
#[global] Arguments put_i64 : simpl never.

Lemma length_put_u8 z : length (put_u8 z) = 1%nat.
Proof. done. Qed.
Lemma length_put_i16 z : length (put_i16 z) = 2%nat.
Proof. done. Qed.
Lemma length_put_u32 z : length (put_u32 z) = 4%nat.
Proof. done. Qed.
Lemma length_put_u64 z : length (put_u64 z) = 8%nat.
Proof. done. Qed.

Create HintDb put_len.
#[export] Hint Rewrite @length_app length_put_u8 length_put_i16 length_put_u32 length_put_u64
  @length_replicate : put_len.
Ltac put_lia := autorewrite with put_len in *; cbn [length] in *; lia.

Definition get_uint_le {E} (e : E) (n : nat) : Dec E Z := dmap le_val (get_slice e n).

Lemma decodes_uint_le {E} (e : E) n z :
  0 <= z < 256 ^ Z.of_nat n → decodes (get_uint_le e n) z (le_bytes n z).
Proof.
  intros Hz. unfold get_uint_le.
  rewrite <-(Z.mod_small z (256 ^ Z.of_nat n) Hz) at 1. rewrite <-le_val_bytes.
  apply decodes_map, decodes_slice, length_le_bytes.
Qed.

Lemma get_uint_le_inv {E} (e : E) n bs z rest :
  get_uint_le e n bs = Ok (z, rest) →
  0 <= z < 256 ^ Z.of_nat n ∧ bs = le_bytes n z ++ rest.
Proof.
  unfold get_uint_le, dmap. intros (x & mid & H1 & H)%dbind_Ok_inv. injection H as <- <-.
  apply get_slice_inv in H1 as [-> <-]. split; [apply le_val_range|].
  by rewrite le_bytes_val.
Qed.

#[export] Instance codec_u8_le {E} (e : E) : Codec (get_uint_le e 1) is_u8 put_u8.
Proof. split; [intros; by apply (decodes_uint_le e 1)|intros *; apply get_uint_le_inv]. Qed.
#[export] Instance codec_u32_le {E} (e : E) : Codec (get_uint_le e 4) is_u32 put_u32_le.
Proof. split; [intros; by apply (decodes_uint_le e 4)|intros *; apply get_uint_le_inv]. Qed.
#[export] Instance codec_u64_le {E} (e : E) : Codec (get_uint_le e 8) is_u64 put_u64_le.
Proof. split; [intros; by apply (decodes_uint_le e 8)|intros *; apply get_uint_le_inv]. Qed.

#[export] Instance codec_i64_le {E} (e : E) :
  Codec (dmap wrap_i64 (get_uint_le e 8)) is_i64 put_i64_le.
Proof.
  split.
  - intros z Hz. rewrite <-(wrap_i64_unsigned z Hz) at 1. unfold put_i64_le.
    rewrite <-(le_bytes_mod 8 z). apply decodes_map, (decodes_uint_le e 8).
    apply Z.mod_pos_bound. lia.
  - unfold dmap. intros bs z rest (x & mid & H1 & H)%dbind_Ok_inv. injection H as <- <-.
    apply get_uint_le_inv in H1 as [Hx ->]. split; [apply wrap_i64_is_i64|].
    unfold put_i64_le. rewrite <-(le_bytes_mod 8 x), <-(le_bytes_mod 8 (wrap_i64 x)).
    change (256 ^ Z.of_nat 8) with two64. by rewrite wrap_i64_mod.
Qed.

#[export] Instance codec_i32_le {E} (e : E) :
  Codec (dmap wrap_i32 (get_uint_le e 4)) is_i32 put_i32_le.
Proof.
  split.
  - intros z Hz. rewrite <-(wrap_i32_unsigned z Hz) at 1. unfold put_i32_le.
    rewrite <-(le_bytes_mod 4 z). apply decodes_map, (decodes_uint_le e 4).
    apply Z.mod_pos_bound. lia.
  - unfold dmap. intros bs z rest (x & mid & H1 & H)%dbind_Ok_inv. injection H as <- <-.
    apply get_uint_le_inv in H1 as [Hx ->]. split; [apply wrap_i32_is_i32|].
    unfold put_i32_le. rewrite <-(le_bytes_mod 4 x), <-(le_bytes_mod 4 (wrap_i32 x)).
    change (256 ^ Z.of_nat 4) with two32. by rewrite wrap_i32_mod.
Qed.

(** ** UTF-8

    Rust strings are byte strings that pass [str::from_utf8]; the check below
    follows the well-formed sequences of the Unicode standard (no overlong
    forms, no surrogates, nothing above U+10FFFF). *)
Definition is_cont (b : Z) : bool := (128 <=? b) && (b <=? 191).

Fixpoint utf8_valid_aux (fuel : nat) (bs : list Z) : bool :=
  match fuel with
  | O => false
  | S fuel =>
    match bs with
    | [] => true
    | b0 :: bs1 =>
      if b0 <=? 127 then utf8_valid_aux fuel bs1
      else if (194 <=? b0) && (b0 <=? 223) then
        match bs1 with
        | b1 :: bs2 => is_cont b1 && utf8_valid_aux fuel bs2
        | _ => false
        end
      else if (224 <=? b0) && (b0 <=? 239) then
        match bs1 with
        | b1 :: b2 :: bs3 =>
          is_cont b1 && is_cont b2
          && (if b0 =? 224 then 160 <=? b1 else true)
          && (if b0 =? 237 then b1 <=? 159 else true)
          && utf8_valid_aux fuel bs3
        | _ => false
        end
      else if (240 <=? b0) && (b0 <=? 244) then
        match bs1 with
        | b1 :: b2 :: b3 :: bs4 =>
          is_cont b1 && is_cont b2 && is_cont b3
          && (if b0 =? 240 then 144 <=? b1 else true)
          && (if b0 =? 244 then b1 <=? 143 else true)
          && utf8_valid_aux fuel bs4
        | _ => false
        end
      else false
    end
  end.

Definition utf8_valid (bs : list byte) : bool :=
  utf8_valid_aux (S (length bs)) (byte_val <$> bs).

(** [s.as_bytes()] and [String::from_utf8] of an already checked slice. *)
Definition as_bytes (s : string) : list byte := String.list_byte_of_string s.
Definition of_bytes (bs : list byte) : string := String.string_of_list_byte bs.

Lemma of_as_bytes s : of_bytes (as_bytes s) = s.
Proof. apply String.string_of_list_byte_of_string. Qed.

Lemma as_of_bytes bs : as_bytes (of_bytes bs) = bs.
Proof. apply String.list_byte_of_string_of_list_byte. Qed.

(** ** Length-prefixed values

    A [u32] count followed by the items: strings, blobs and vectors of the
    metadata codec and of the snapshot. *)
Definition fits_u32 {A} (l : list A) : Prop := Z.of_nat (length l) < two32.

Definition string_ok (s : string) : Prop :=
  utf8_valid (as_bytes s) = true ∧ fits_u32 (as_bytes s).

Definition put_blob (bs : list byte) : list byte := put_u32_le (Z.of_nat (length bs)) ++ bs.
Definition put_string (s : string) : list byte := put_blob (as_bytes s).
Definition put_list {A} (enc : A → list byte) (l : list A) : list byte :=
  put_u32_le (Z.of_nat (length l)) ++ concat (enc <$> l).

#[global] Arguments put_blob : simpl never.
#[global] Arguments put_string : simpl never.
#[global] Arguments put_list : simpl never.

Definition get_prefixed {E} (short truncated : E) : Dec E (list byte) :=
  n <~ get_uint_le short 4 ;; get_slice truncated (Z.to_nat n).

(** The bytes are checked before they become a string. *)
Definition get_string {E} (short truncated invalid : E) : Dec E string :=
  bs <~ get_prefixed short truncated ;;
  if utf8_valid bs then dret (of_bytes bs) else dfail invalid.

Definition get_list {E A} (short : E) (d : Dec E A) : Dec E (list A) :=
  n <~ get_uint_le short 4 ;; get_many (Z.to_nat n) d.

Lemma fits_u32_is_u32 {A} (l : list A) : fits_u32 l → is_u32 (Z.of_nat (length l)).
Proof. unfold fits_u32. int_lia. Qed.

#[export] Instance codec_blob {E} (short truncated : E) :
  Codec (get_prefixed short truncated) fits_u32 put_blob.
Proof.
  split.
  - intros bs Hbs. unfold get_prefixed, put_blob.
    eapply decodes_bind; [apply codec_enc, fits_u32_is_u32, Hbs|].
    apply decodes_slice. by rewrite Nat2Z.id.
  - unfold get_prefixed. intros bs x rest (n & mid & H1 & H)%dbind_Ok_inv.
    apply codec_dec in H1 as [Hn ->]. apply get_slice_inv in H as [-> Hx].
    assert (Hlen : Z.of_nat (length x) = n) by (rewrite Hx; int_lia).
    split; [unfold fits_u32; int_lia|]. unfold put_blob. by rewrite Hlen, <-app_assoc.
Qed.

#[export] Instance codec_string {E} (short truncated invalid : E) :
  Codec (get_string short truncated invalid) string_ok put_string.
Proof.
  split.
  - intros s [Hv Hs]. unfold get_string.
    eapply decodes_bind_nil; [by apply (codec_enc (as_bytes s))|]. rewrite Hv, of_as_bytes. apply decodes_ret.
  - unfold get_string. intros bs s rest (x & mid & H1 & H)%dbind_Ok_inv.
    apply codec_dec in H1 as [Hx ->]. destruct (utf8_valid x) eqn:E1; [|done].
    injection H as <- <-. unfold string_ok, put_string. by rewrite as_of_bytes.
Qed.

Lemma get_many_inv {E A} (d : Dec E A) (P : A → Prop) enc `{!Codec d P enc} n bs l rest :
  get_many n d bs = Ok (l, rest) →
  Forall P l ∧ length l = n ∧ bs = concat (enc <$> l) ++ rest.
Proof.
  revert bs l rest. induction n as [|n IH]; intros bs l rest H; cbn [get_many] in H.
  - by injection H as <- <-.
  - apply dbind_Ok_inv in H as (a & mid & H1 & H). apply codec_dec in H1 as [Ha ->].
    apply dbind_Ok_inv in H as (l' & mid' & H1 & H). apply IH in H1 as (Hl & <- & ->).
    injection H as <- <-. cbn. rewrite <-app_assoc. auto.
Qed.

#[export] Instance codec_list {E A} (short : E) (d : Dec E A) P enc `{!Codec d P enc} :
  Codec (get_list short d) (λ l, Forall P l ∧ fits_u32 l) (put_list enc).
Proof.
  split.
  - intros l [Hl Hs]. unfold get_list, put_list.
    eapply decodes_bind; [apply codec_enc, fits_u32_is_u32, Hs|]. rewrite Nat2Z.id.
    apply decodes_many. intros a Ha. apply codec_enc. rewrite Forall_forall in Hl. auto.
  - unfold get_list. intros bs l rest (n & mid & H1 & H)%dbind_Ok_inv.
    apply codec_dec in H1 as [Hn ->]. eapply get_many_inv in H as (Hl & Hlen & ->); [|done].
    assert (Hz : Z.of_nat (length l) = n) by (rewrite Hlen; int_lia).
    split; [split; [done|unfold fits_u32; int_lia]|]. unfold put_list. by rewrite Hz, <-app_assoc.
Qed.

(** ** Ordered maps

    [im::OrdMap] and [BTreeMap]: finite maps traversed in key order. A map is
    a [gmap], a map to [()] a [gset]; the order of traversal comes from the
    key type's [OrdKey] instance. *)
Class OrdKey (K : Type) := {
  key_le : relation K;
  key_le_dec :: RelDecision key_le;
  key_le_trans :: Transitive key_le;
  key_le_antisymm :: AntiSymm (=) key_le;
  key_le_total :: Total key_le;
}.

Global Instance Z_OrdKey : OrdKey Z := {| key_le := Z.le |}.

Global Instance string_OrdKey : OrdKey string.
Proof. refine {| key_le := String.le |}; apply _. Defined.

Definition pair_le {A B} `{OrdKey A, OrdKey B} (p q : A * B) : Prop :=
  (p.1 ≠ q.1 ∧ key_le p.1 q.1) ∨ (p.1 = q.1 ∧ key_le p.2 q.2).

Section PairKey.
Context {A B : Type} `{EqDecision A} `{OrdKey A, OrdKey B}.

Lemma key_le_refl (k : A) : key_le k k.
Proof using. destruct (key_le_total k k); done. Qed.

Global Instance pair_le_dec : RelDecision (pair_le (A:=A) (B:=B)).
Proof. intros p q. unfold pair_le. apply _. Defined.

Lemma pair_le_trans : Transitive (pair_le (A:=A) (B:=B)).
Proof using.
  intros [a1 b1] [a2 b2] [a3 b3] [[Hn H12]|[He H12]] [[Hn' H23]|[He' H23]];
    unfold pair_le; simpl in *; subst.
  - left. split; [|by etrans]. intros ->. by apply Hn, (anti_symm key_le).
  - by left.
  - by left.
  - right. split; [done|by etrans].
Qed.

Lemma pair_le_antisymm : AntiSymm (=) (pair_le (A:=A) (B:=B)).
Proof using.
  intros [a1 b1] [a2 b2] [[Hn H12]|[He H12]] [[Hn' H21]|[He' H21]]; simpl in *; subst; try done.
  - exfalso. by apply Hn, (anti_symm key_le).
  - f_equal. by apply (anti_symm key_le).
Qed.

Lemma pair_le_total : Total (pair_le (A:=A) (B:=B)).
Proof using EqDecision0.
  intros [a1 b1] [a2 b2]. unfold pair_le; simpl.
  destruct (decide (a1 = a2)) as [->|Hne].
  - destruct (key_le_total b1 b2); [left|right]; by right.
  - destruct (key_le_total a1 a2); [left|right]; left; split; auto.
Qed.

Global Instance pair_OrdKey : OrdKey (A * B) := {|
  key_le := pair_le;
  key_le_trans := pair_le_trans;
  key_le_antisymm := pair_le_antisymm;
  key_le_total := pair_le_total;
|}.
End PairKey.

Section OrdMap.
Context {K : Type} `{Countable K} `{OrdKey K}.

Definition entry_le {V} (p q : K * V) : Prop := key_le p.1 q.1.
Global Instance entry_le_dec {V} : RelDecision (entry_le (V:=V)).
Proof. intros p q. unfold entry_le. apply _. Defined.
Global Instance entry_le_trans {V} : Transitive (entry_le (V:=V)).
Proof. intros p q r Hpq Hqr. unfold entry_le in *. by etrans. Qed.
Global Instance entry_le_total {V} : Total (entry_le (V:=V)).
Proof. intros p q. apply key_le_total. Qed.

(** [map.iter()]: the entries in key order. *)
Definition ord_list {V} (m : gmap K V) : list (K * V) :=
  merge_sort entry_le (map_to_list m).

(** [set.keys()] of a map to [()]. *)
Definition ord_elems (s : gset K) : list K := merge_sort key_le (elements s).

Definition in_range (lo hi k : K) : Prop := key_le lo k ∧ key_le k hi.
Global Instance in_range_dec lo hi k : Decision (in_range lo hi k).
Proof. unfold in_range. apply _. Defined.

(** [map.range(lo..=hi)] *)
Definition ord_range {V} (lo hi : K) (m : gmap K V) : list (K * V) :=
  filter (λ p : K * V, in_range lo hi p.1) (ord_list m).
Definition ord_range_set (lo hi : K) (s : gset K) : list K :=
  filter (in_range lo hi) (ord_elems s).

Lemma elem_of_ord_list {V} (m : gmap K V) k v : (k, v) ∈ ord_list m ↔ m !! k = Some v.
Proof.
  unfold ord_list. rewrite merge_sort_Permutation. apply elem_of_map_to_list.
Qed.

Lemma NoDup_ord_list {V} (m : gmap K V) : NoDup (ord_list m).*1.
Proof. unfold ord_list. rewrite merge_sort_Permutation. apply NoDup_fst_map_to_list. Qed.

Lemma length_ord_list {V} (m : gmap K V) : length (ord_list m) = size m.
Proof. unfold ord_list. rewrite merge_sort_Permutation. apply length_map_to_list. Qed.

Lemma ord_list_sorted {V} (m : gmap K V) :
  StronglySorted entry_le (ord_list m).
Proof. apply StronglySorted_merge_sort; apply _. Qed.

Lemma list_to_map_ord_list {V} (m : gmap K V) : list_to_map (ord_list m) = m.
Proof.
  apply map_eq; intros k. apply option_eq; intros v.
  rewrite <-elem_of_list_to_map by apply NoDup_ord_list. apply elem_of_ord_list.
Qed.

Lemma elem_of_ord_elems s k : k ∈ ord_elems s ↔ k ∈ s.
Proof. unfold ord_elems. rewrite merge_sort_Permutation. apply elem_of_elements. Qed.

Lemma NoDup_ord_elems s : NoDup (ord_elems s).
Proof. unfold ord_elems. rewrite merge_sort_Permutation. apply NoDup_elements. Qed.

Lemma ord_elems_sorted s : StronglySorted key_le (ord_elems s).
Proof. apply StronglySorted_merge_sort; apply _. Qed.

Lemma elem_of_ord_range {V} lo hi (m : gmap K V) k v :
  (k, v) ∈ ord_range lo hi m ↔ in_range lo hi k ∧ m !! k = Some v.
Proof. unfold ord_range. by rewrite list_elem_of_filter, elem_of_ord_list. Qed.

Lemma NoDup_ord_range {V} lo hi (m : gmap K V) : NoDup (ord_range lo hi m).*1.
Proof.
  unfold ord_range. pose proof (NoDup_ord_list m) as Hnd.
  induction (ord_list m) as [|p l IH]; [constructor|]. rewrite filter_cons.
  apply NoDup_cons in Hnd as [Hp Hnd]. specialize (IH Hnd). case_decide; [|done].
  apply NoDup_cons. split; [|done]. intros (q & Hq & [_ Hin]%list_elem_of_filter)%list_elem_of_fmap.
  apply Hp. rewrite Hq. by apply list_elem_of_fmap_2.
Qed.

Lemma length_ord_range {V} lo hi (m : gmap K V) : (length (ord_range lo hi m) <= size m)%nat.
Proof. unfold ord_range. rewrite <-length_ord_list. apply length_filter. Qed.

Lemma elem_of_ord_range_set lo hi s k :
  k ∈ ord_range_set lo hi s ↔ in_range lo hi k ∧ k ∈ s.
Proof. unfold ord_range_set. by rewrite list_elem_of_filter, elem_of_ord_elems. Qed.

(** Re-inserting the entries of a map in traversal order rebuilds it. *)
Lemma foldl_insert_list {V} (l : list (K * V)) (m0 : gmap K V) k :
  NoDup l.*1 →
  foldl (λ m p, <[p.1 := p.2]> m) m0 l !! k =
  match (list_to_map l : gmap K V) !! k with Some v => Some v | None => m0 !! k end.
Proof.
  revert m0. induction l as [|[k' v'] l IH]; intros m0 Hnd.
  { cbn [foldl]. by rewrite list_to_map_nil, lookup_empty. }
  cbn [fmap list_fmap fst] in Hnd. apply NoDup_cons in Hnd as [Hk' Hnd].
  cbn [foldl list_to_map foldr fst snd]. rewrite IH by done.
  change (list_to_map ((k', v') :: l) : gmap K V) with (<[k':=v']> (list_to_map l : gmap K V)).
  destruct (decide (k' = k)) as [->|Hne].
  - by rewrite !lookup_insert_eq, not_elem_of_list_to_map_1 by done.
  - by rewrite !lookup_insert_ne.
Qed.

Lemma foldl_insert_ord_list {V} (m : gmap K V) :
  foldl (λ m p, <[p.1 := p.2]> m) ∅ (ord_list m) = m.
Proof.
  apply map_eq; intros k.
  rewrite foldl_insert_list by apply NoDup_ord_list.
  rewrite list_to_map_ord_list, lookup_empty. by destruct (m !! k).
Qed.
End OrdMap.

(** [a..b] over [u64]. *)
Definition range_u64 (a b : Z) : list Z := seqZ a (b - a).

Lemma elem_of_range_u64 a b x : x ∈ range_u64 a b ↔ a <= x < b.
Proof. unfold range_u64. rewrite elem_of_seqZ. lia. Qed.

(** ** Iterators *)
Fixpoint take_while {A} (p : A → bool) (l : list A) : list A :=
  match l with
  | [] => []
  | x :: l => if p x then x :: take_while p l else []
  end.

(** On a list where [p] never becomes true again, [take_while] filters. *)
Lemma take_while_filter {A} (p : A → bool) (l : list A) :
  StronglySorted (λ x y, p y = true → p x = true) l →
  take_while p l = filter (λ x, p x = true) l.
Proof.
  induction 1 as [|x l Hl IH Hx]; [done|]. cbn [take_while]. rewrite filter_cons.
  destruct (p x) eqn:E.
  - rewrite decide_True by done. by f_equal.
  - rewrite decide_False by done. symmetry. clear IH Hl.
    induction Hx as [|y l Hy _ IH]; [done|]. rewrite filter_cons, decide_False; [done|].
    intros Hp. specialize (Hy Hp). congruence.
Qed.

Lemma StronglySorted_weaken {A} (R R' : relation A) l :
  (∀ x y, x ∈ l → y ∈ l → R x y → R' x y) → StronglySorted R l → StronglySorted R' l.
Proof.
  intros HR. induction 1 as [|x l Hl IH Hx]; constructor.
  - apply IH. intros. apply HR; [by right|by right|done].
  - rewrite Forall_forall in *. intros y Hy. apply HR; [by left|by right|auto].
Qed.

Lemma StronglySorted_filter {A} (R : relation A) (P : A → Prop) `{∀ x, Decision (P x)} l :
  StronglySorted R l → StronglySorted R (filter P l).
Proof.
  induction 1 as [|x l Hl IH Hx]; [constructor|]. rewrite filter_cons. case_decide; [|done].
  constructor; [done|]. rewrite Forall_forall in *. intros y [_ Hy]%list_elem_of_filter. auto.
Qed.

Lemma ascii_compare_eq a b : Ascii.compare a b = Eq → a = b.
Proof.
  unfold Ascii.compare. intros H%N.compare_eq_iff.
  by rewrite <-(Ascii.ascii_N_embedding a), <-(Ascii.ascii_N_embedding b), H.
Qed.

Lemma ascii_compare_refl a : Ascii.compare a a = Eq.
Proof. apply N.compare_refl. Qed.

(** Between a prefix and a string with that prefix there are only strings
    with that prefix. *)
Lemma prefix_convex p k k' :
  String.le p k → String.le k k' → String.prefix p k' = true → String.prefix p k = true.
Proof.
  unfold String.le, String.leb. revert k k'.
  induction p as [|c p IH]; intros k k' H1 H2 Hp; [by destruct k|].
  destruct k as [|d k]; [done|]. destruct k' as [|d' k']; [done|]. cbn in *.
  destruct (Ascii.ascii_dec c d') as [<-|]; [|done].
  destruct (Ascii.compare c d) eqn:E1; [|clear IH|done].
  - apply ascii_compare_eq in E1 as <-. destruct (Ascii.ascii_dec c c); [|done].
    rewrite ascii_compare_refl in H2. by eapply IH.
  - unfold Ascii.compare in *. rewrite N.compare_lt_iff in E1.
    destruct (N.compare_spec (Ascii.N_of_ascii d) (Ascii.N_of_ascii c)); try lia; done.
Qed.

Lemma prefix_le p k : String.prefix p k = true → String.le p k.
Proof.
  unfold String.le, String.leb. revert k. induction p as [|c p IH]; intros k Hp; [by destruct k|].
  destruct k as [|d k]; [done|]. cbn in *. destruct (Ascii.ascii_dec c d) as [<-|]; [|done].
  rewrite ascii_compare_refl. auto.
Qed.

(** [map.range(prefix..).take_while(|(k, _)| k.starts_with(prefix))] *)
Definition prefix_scan {V} (m : gmap string V) (pre : string) : list (string * V) :=
  take_while (λ e : string * V, String.prefix pre e.1)
    (filter (λ e : string * V, key_le pre e.1) (ord_list m)).

Lemma prefix_scan_exact {V} (m : gmap string V) pre :
  prefix_scan m pre = filter (λ e : string * V, String.prefix pre e.1 = true) (ord_list m).
Proof.
  unfold prefix_scan. rewrite take_while_filter.
  - rewrite list_filter_filter. apply list_filter_iff. intros [k v]. cbn.
    split; [tauto|]. intros Hp. split; [done|by apply prefix_le].
  - eapply StronglySorted_weaken; [|apply StronglySorted_filter, ord_list_sorted].
    intros [k v] [k' v'] [Hk _]%list_elem_of_filter _ Hle Hp.
    exact (prefix_convex pre k k' Hk Hle Hp).
Qed.

(** ** Sorting

    [slice::sort_by] is stable; so is insertion sort, which puts an element
    before the later elements it does not exceed. *)
Section StableSort.
Context {A : Type} (leb : A → A → bool).

Fixpoint insert_sorted (x : A) (l : list A) : list A :=
  match l with
  | [] => [x]
  | y :: l => if leb x y then x :: y :: l else y :: insert_sorted x l
  end.

Fixpoint stable_sort (l : list A) : list A :=
  match l with
  | [] => []
  | x :: l => insert_sorted x (stable_sort l)
  end.

Lemma insert_sorted_perm x l : insert_sorted x l ≡ₚ x :: l.
Proof.
  induction l as [|y l IH]; [done|]. cbn. destruct (leb x y); [done|].
  rewrite IH. apply Permutation_swap.
Qed.

Lemma stable_sort_perm l : stable_sort l ≡ₚ l.
Proof. induction l as [|x l IH]; [done|]. cbn. by rewrite insert_sorted_perm, IH. Qed.

Context (leb_trans : ∀ x y z, leb x y = true → leb y z = true → leb x z = true)
  (leb_total : ∀ x y, leb x y = false → leb y x = true).

Lemma insert_sorted_sorted x l :
  StronglySorted (λ a b, leb a b = true) l →
  StronglySorted (λ a b, leb a b = true) (insert_sorted x l).
Proof using leb_trans leb_total.
  induction 1 as [|y l Hs IH Hall]; [repeat constructor|]. cbn. destruct (leb x y) eqn:E.
  - constructor; [by constructor|]. constructor; [done|]. rewrite Forall_forall in *. eauto.
  - constructor; [done|]. rewrite Forall_forall in *. intros z.
    rewrite insert_sorted_perm, elem_of_cons. intros [->|Hz]; auto.
Qed.

Lemma stable_sort_sorted l : StronglySorted (λ a b, leb a b = true) (stable_sort l).
Proof using leb_trans leb_total.
  induction l as [|x l IH]; [constructor|]. by apply insert_sorted_sorted.
Qed.

(** A sorted list is left as it is. *)
Lemma stable_sort_id l : StronglySorted (λ a b, leb a b = true) l → stable_sort l = l.
Proof using.
  induction 1 as [|x l Hs IH Hall]; [done|]. cbn. rewrite IH. destruct Hall as [|y l Hxy]; [done|].
  cbn. by rewrite Hxy.
Qed.
End StableSort.

(** ** Record updates

    [r <| f := v |>] is [r] with the field [f] replaced by [v], the struct
    update of the source. A record type gives its eta-expansion once; the
    setter of a field is found by abstracting the projection out of it. *)
Class RecordEta (R : Type) := record_eta : R → R.
Class FieldSet {R T : Type} (proj : R → T) := field_set : T → R → R.
#[global] Arguments field_set {R T} proj {_} _ _ : simpl nomatch.

Ltac solve_field_set :=
  match goal with
  | |- @FieldSet ?R ?T ?proj =>
      let inst := constr:(_ : RecordEta R) in
      let eta := eval cbv beta delta [record_eta] in (@record_eta R inst) in
      let eta := eval hnf in eta in
      match eval pattern proj in eta with
      | ?rebuild _ => exact (λ v r, rebuild (λ r' : R, v) r)
      end
  end.
#[export] Hint Extern 1 (FieldSet _) => solve_field_set : typeclass_instances.

Notation "r <| f := v |>" := (field_set f v r)
  (at level 12, left associativity, format "r  <| f  :=  v |>") : rust_scope.

(** [map.range(..=k).next_back()]: the entry with the greatest key up to [k]. *)
Definition ord_floor {K V} `{Countable K, OrdKey K} (k : K) (m : gmap K V) : option (K * V) :=
  last (filter (λ p : K * V, key_le p.1 k) (ord_list m)).

Lemma StronglySorted_app_iff {A} (R : relation A) l1 l2 :
  StronglySorted R (l1 ++ l2) ↔
  StronglySorted R l1 ∧ StronglySorted R l2 ∧ ∀ x y, x ∈ l1 → y ∈ l2 → R x y.
Proof.
  induction l1 as [|a l1 IH]; cbn.
  - split; [intros; split_and!; [constructor|done|set_solver]|tauto].
  - split.
    + intros [Hs Hf]%StronglySorted_inv. apply IH in Hs as (H1 & H2 & H3).
      apply Forall_app in Hf as [F1 F2]. rewrite Forall_forall in F2.
      split_and!; [by constructor|done|]. intros x y [->|Hx]%elem_of_cons Hy; auto.
    + intros ([H1 F]%StronglySorted_inv & H2 & H3). constructor; [apply IH; split_and!; [done|done|]|].
      * intros x y Hx Hy. apply H3; [by right|done].
      * apply Forall_app. split; [done|]. apply Forall_forall. intros y Hy. apply H3; [left|done].
Qed.

Lemma StronglySorted_last {A} (R : relation A) l x y :
  StronglySorted R l → last l = Some x → y ∈ l → y = x ∨ R y x.
Proof.
  induction 1 as [|z l Hs IH Hz]; [done|]. intros Hl Hy. rewrite last_cons in Hl.
  apply elem_of_cons in Hy as [->|Hy].
  - destruct (last l) as [w|] eqn:E; [|left; congruence]. assert (w = x) as -> by congruence. right.
    rewrite Forall_forall in Hz. apply Hz. by apply last_Some_elem_of.
  - destruct (last l) as [w|] eqn:E; [|by apply last_None in E as ->; apply not_elem_of_nil in Hy].
    assert (w = x) as -> by congruence. auto.
Qed.

Lemma ord_floor_Some {K V} `{Countable K, OrdKey K} (k : K) (m : gmap K V) k' v :
  ord_floor k m = Some (k', v) →
  m !! k' = Some v ∧ key_le k' k ∧ ∀ j, is_Some (m !! j) → key_le j k → key_le j k'.
Proof.
  unfold ord_floor. intros Hl. pose proof (last_Some_elem_of _ _ Hl) as [Hle Hin]%list_elem_of_filter.
  apply elem_of_ord_list in Hin. split_and!; [done..|]. intros j [w Hj] Hjk.
  assert (Hm : (j, w) ∈ filter (λ p : K * V, key_le p.1 k) (ord_list m)).
  { apply list_elem_of_filter. split; [done|]. by apply elem_of_ord_list. }
  pose proof (StronglySorted_filter entry_le (λ p : K * V, key_le p.1 k) _ (ord_list_sorted m)) as Hs.
  destruct (StronglySorted_last _ _ _ _ Hs Hl Hm) as [E|Hr]; [|done].
  assert (j = k') as -> by congruence. apply key_le_refl.
Qed.

Lemma ord_floor_None {K V} `{Countable K, OrdKey K} (k : K) (m : gmap K V) j :
  ord_floor k m = None → is_Some (m !! j) → ¬ key_le j k.
Proof.
  unfold ord_floor. intros Hl%last_None [w Hw] Hle.
  assert (Hin : (j, w) ∈ filter (λ p : K * V, key_le p.1 k) (ord_list m)).
  { apply list_elem_of_filter. split; [done|]. by apply elem_of_ord_list. }
  rewrite Hl in Hin. by apply not_elem_of_nil in Hin.
Qed.

(** ** More on lists *)
Lemma NoDup_fmap_inj {A B} (f : A → B) l x y : NoDup (f <$> l) → x ∈ l → y ∈ l → f x = f y → x = y.
Proof.
  intros Hnd Hx Hy Hf. apply list_elem_of_lookup in Hx as [n Hx]. apply list_elem_of_lookup in Hy as [m Hy].
  assert (n = m) as ->; [|congruence].
  eapply (NoDup_lookup _ n m (f x) Hnd); rewrite list_lookup_fmap, ?Hx, ?Hy; cbn; congruence.
Qed.

Lemma StronglySorted_lt_NoDup (l : list Z) : StronglySorted Z.lt l → NoDup l.
Proof.
  induction 1 as [|x l Hs IH Hx]; constructor; [|done]. intros Hin. rewrite Forall_forall in Hx.
  apply Hx in Hin. lia.
Qed.

Lemma elem_of_take_while {A} (p : A → bool) l x : x ∈ take_while p l → x ∈ l ∧ p x = true.
Proof.
  induction l as [|y l IH]; [by intros ?%not_elem_of_nil|]. cbn. destruct (p y) eqn:E; [|by intros ?%not_elem_of_nil].
  intros [->|Hin]%elem_of_cons; [split; [by left|done]|]. destruct (IH Hin). split; [by right|done].
Qed.

Lemma elem_of_drop_inv {A} n (l : list A) x : x ∈ drop n l → x ∈ l.
Proof. intros Hx. rewrite <-(take_drop n l), elem_of_app. by right. Qed.

Lemma elem_of_take_inv {A} n (l : list A) x : x ∈ take n l → x ∈ l.
Proof. intros Hx. rewrite <-(take_drop n l), elem_of_app. by left. Qed.

Lemma sublist_elem {A} (l k : list A) x : l `sublist_of` k → x ∈ l → x ∈ k.
Proof. intros Hs Hx. eapply elem_of_submseteq; [done|]. by apply sublist_submseteq. Qed.

Lemma StronglySorted_sublist {A} (R : relation A) l k : l `sublist_of` k → StronglySorted R k → StronglySorted R l.
Proof.
  induction 1 as [|x l k Hs IH|x l k Hs IH]; intros Hk; [done|..]; inversion Hk; subst; [|auto].
  constructor; [auto|]. rewrite Forall_forall in *. intros y Hy.
  match goal with Hf : ∀ _, _ |- _ => apply Hf end. by eapply sublist_elem.
Qed.

Lemma filter_none {A} (P : A → Prop) `{∀ x, Decision (P x)} l : (∀ x, x ∈ l → ¬ P x) → filter P l = [].
Proof.
  induction l as [|x l IH]; intros Hn; [done|]. rewrite filter_cons, decide_False by (apply Hn; by left).
  apply IH. intros y Hy. apply Hn. by right.
Qed.

Lemma elem_of_concat_map {A B} (f : A → list B) (l : list A) x : x ∈ concat (f <$> l) ↔ ∃ a, a ∈ l ∧ x ∈ f a.
Proof.
  rewrite list_elem_of_In, in_concat. split.
  - intros (y & Hy & Hx). apply list_elem_of_In, list_elem_of_fmap in Hy as (a & -> & Ha).
    exists a. split; [done|by apply list_elem_of_In].
  - intros (a & Ha & Hx). exists (f a). split; apply list_elem_of_In; [by apply list_elem_of_fmap_2|done].
Qed.
Lemma elem_of_concat_list {B} (l : list (list B)) x : x ∈ concat l ↔ ∃ y, y ∈ l ∧ x ∈ y.
Proof. rewrite <-(list_fmap_id l) at 1. apply elem_of_concat_map. Qed.

Lemma filter_all {A} (P : A → Prop) `{∀ x, Decision (P x)} (l : list A) : (∀ x, x ∈ l → P x) → filter P l = l.
Proof.
  induction l as [|x l IH]; intros Hl; [done|]. rewrite filter_cons, decide_True by (apply Hl; by left).
  f_equal. apply IH. intros y Hy. apply Hl. by right.
Qed.

Lemma filter_join {A B} (P : B → Prop) `{∀ x, Decision (P x)} (f : A → list B) l :
  filter P (mjoin (f <$> l)) = mjoin ((λ x, filter P (f x)) <$> l).
Proof.
  induction l as [|x l IH]; [done|].
  change (filter P (f x ++ mjoin (f <$> l)) = filter P (f x) ++ mjoin ((λ x, filter P (f x)) <$> l)).
  by rewrite filter_app, IH.
Qed.

Lemma fmap_join {A B C} (g : B → C) (f : A → list B) l : g <$> mjoin (f <$> l) = mjoin ((λ x, g <$> f x) <$> l).
Proof.
  induction l as [|x l IH]; [done|].
  change (g <$> (f x ++ mjoin (f <$> l)) = (g <$> f x) ++ mjoin ((λ x, g <$> f x) <$> l)).
  by rewrite fmap_app, IH.
Qed.

Lemma ord_list_ids_strict {V} (m : gmap Z V) : StronglySorted (λ p q, p.1 < q.1) (ord_list m).
Proof.
  pose proof (ord_list_sorted m) as Hs. pose proof (NoDup_ord_list m) as Hn.
  induction Hs as [|p l Hs IH Hall]; [constructor|]. apply NoDup_cons in Hn as [Hp Hn].
  constructor; [by apply IH|]. rewrite Forall_forall in *. intros q Hq. specialize (Hall q Hq).
  assert (p.1 ≠ q.1). { intros E. apply Hp. rewrite E. by apply list_elem_of_fmap_2. }
  cbv [entry_le key_le Z_OrdKey] in Hall. lia.
Qed.
