(* ===== verification/StreamTypes.v ===== *)
(** * Data shared by the stream engine and the metadata plane

    The plain data types of [s3stream-object/src/metadata.rs],
    [s3stream-core/src/manager.rs], [s3stream-core/src/compact/plan.rs] and
    [s3stream-object/src/writer.rs] that cross the engine / metadata
    boundary. *)

From S2P Require Import Prelude.
From Stdlib Require Import ZArith Lia.
From stdpp Require Import base numbers list strings.

Open Scope Z_scope.

(** Sentinel object id and offset. *)
Definition NOOP_OBJECT_ID : Z := u64_max.
Definition NOOP_OFFSET : Z := u64_max.

Inductive S3ObjectType := StreamSet | StreamObj.
Global Instance S3ObjectType_eq_dec : EqDecision S3ObjectType.
Proof. solve_decision. Defined.

Inductive StreamState := Closed | Opened.
Global Instance StreamState_eq_dec : EqDecision StreamState.
Proof. solve_decision. Defined.

(** [#[repr(u8)] enum CompactOperations]. *)
Inductive CompactOperations := OpDelete | OpKeepData | OpDeepDelete.
Global Instance CompactOperations_eq_dec : EqDecision CompactOperations.
Proof. solve_decision. Defined.

Definition compact_operation_code (op : CompactOperations) : Z :=
  match op with OpDelete => 0 | OpKeepData => 1 | OpDeepDelete => 2 end.

Record StreamOffsetRange := {
  sor_stream_id : Z;
  sor_start_offset : Z;
  sor_end_offset : Z;
}.
Global Instance StreamOffsetRange_eq_dec : EqDecision StreamOffsetRange.
Proof. solve_decision. Defined.

(** Metadata of one committed object; the attributes are the packed [u32]. *)
Record S3ObjectMetadata := {
  om_object_id : Z;
  om_object_type : S3ObjectType;
  om_offset_ranges : list StreamOffsetRange;
  om_object_size : Z;
  om_attributes : Z;
  om_committed_timestamp_ms : Z;
  om_data_timestamp_ms : Z;
}.
Global Instance S3ObjectMetadata_eq_dec : EqDecision S3ObjectMetadata.
Proof. solve_decision. Defined.

(** A stream's contiguous range in an object being committed. *)
Record ObjectStreamRange := {
  osr_stream_id : Z;
  osr_epoch : Z;
  osr_start_offset : Z;
  osr_end_offset : Z;
  osr_size : Z;
}.

Record StreamObject := {
  so_object_id : Z;
  so_object_size : Z;
  so_stream_id : Z;
  so_start_offset : Z;
  so_end_offset : Z;
  so_attributes : Z;
}.

Record CommitStreamSetObjectRequest := {
  cr_object_id : Z;
  cr_object_size : Z;
  cr_attributes : Z;
  cr_stream_ranges : list ObjectStreamRange;
  cr_stream_objects : list StreamObject;
  cr_compacted_object_ids : list Z;
}.

Record CompactStreamObjectRequest := {
  cq_object_id : Z;
  cq_object_size : Z;
  cq_stream_id : Z;
  cq_stream_epoch : Z;
  cq_start_offset : Z;
  cq_end_offset : Z;
  cq_source_object_ids : list Z;
  cq_operations : list CompactOperations;
  cq_attributes : Z;
}.

(** Stream metadata as the engine sees it: the epoch is unsigned here. *)
Record StreamMetadata := {
  sm_stream_id : Z;
  sm_epoch : Z;
  sm_start_offset : Z;
  sm_end_offset : Z;
  sm_state : StreamState;
  sm_node_id : Z;
}.

(** ** Field widths

    A vector, blob or string whose length is written as a [u32] prefix must
    fit it; a Rust [String] is valid UTF-8. *)
Definition osr_typed (r : ObjectStreamRange) : Prop :=
  is_u64 (osr_stream_id r) ∧ is_u64 (osr_epoch r) ∧ is_u64 (osr_start_offset r) ∧
  is_u64 (osr_end_offset r) ∧ is_u64 (osr_size r).

Definition so_typed (o : StreamObject) : Prop :=
  is_u64 (so_object_id o) ∧ is_u64 (so_object_size o) ∧ is_u64 (so_stream_id o) ∧
  is_u64 (so_start_offset o) ∧ is_u64 (so_end_offset o) ∧ is_u32 (so_attributes o).

Definition commit_request_typed (r : CommitStreamSetObjectRequest) : Prop :=
  is_u64 (cr_object_id r) ∧ is_u64 (cr_object_size r) ∧ is_u32 (cr_attributes r) ∧
  Forall osr_typed (cr_stream_ranges r) ∧ Forall so_typed (cr_stream_objects r) ∧
  Forall is_u64 (cr_compacted_object_ids r) ∧
  fits_u32 (cr_stream_ranges r) ∧ fits_u32 (cr_stream_objects r) ∧
  fits_u32 (cr_compacted_object_ids r).

Definition compact_request_typed (r : CompactStreamObjectRequest) : Prop :=
  is_u64 (cq_object_id r) ∧ is_u64 (cq_object_size r) ∧ is_u64 (cq_stream_id r) ∧
  is_u64 (cq_stream_epoch r) ∧ is_u64 (cq_start_offset r) ∧ is_u64 (cq_end_offset r) ∧
  is_u32 (cq_attributes r) ∧ Forall is_u64 (cq_source_object_ids r) ∧
  fits_u32 (cq_source_object_ids r) ∧ fits_u32 (cq_operations r).

Definition sor_typed (r : StreamOffsetRange) : Prop :=
  is_u64 (sor_stream_id r) ∧ is_u64 (sor_start_offset r) ∧ is_u64 (sor_end_offset r).

Definition object_typed (o : S3ObjectMetadata) : Prop :=
  is_u64 (om_object_id o) ∧ Forall sor_typed (om_offset_ranges o) ∧
  is_u64 (om_object_size o) ∧ is_u32 (om_attributes o) ∧
  is_i64 (om_committed_timestamp_ms o) ∧ is_i64 (om_data_timestamp_ms o) ∧
  fits_u32 (om_offset_ranges o).
