(* ===== verification/MetaState.v ===== *)
(** * The metadata state, its commands, results and errors

    [picomq/pico-metadata/src/state.rs], [command.rs] and [error.rs]: the rows
    and indexes of the replicated control plane, the closed set of commands
    that may change it and the errors they answer with. *)

From S2P Require Import Prelude StreamTypes.
From Stdlib Require Import ZArith Lia.
From stdpp Require Import base numbers list gmap strings.

Open Scope Z_scope.

(** ** Rows *)
Record StreamRow := {
  sr_stream_id : Z;
  sr_epoch : Z;
  sr_start_offset : Z;
  sr_end_offset : Z;
  sr_state : StreamState;
  sr_node_id : Z;
}.
Global Instance StreamRow_eq_dec : EqDecision StreamRow.
Proof. solve_decision. Defined.

Definition to_stream_metadata (row : StreamRow) : StreamMetadata := {|
  sm_stream_id := sr_stream_id row;
  sm_epoch := Z.max (sr_epoch row) 0;
  sm_start_offset := sr_start_offset row;
  sm_end_offset := sr_end_offset row;
  sm_state := sr_state row;
  sm_node_id := sr_node_id row;
|}.

Record NodeRow := {
  nr_node_id : Z;
  nr_epoch : Z;
  nr_http_address : string;
  nr_slots : Z;
}.
Global Instance NodeRow_eq_dec : EqDecision NodeRow.
Proof. solve_decision. Defined.

Record PendingTransfer := {
  pt_from_node : Z;
  pt_to_node : Z;
}.
Global Instance PendingTransfer_eq_dec : EqDecision PendingTransfer.
Proof. solve_decision. Defined.

Record StreamSetObjectRow := {
  ssr_node_id : Z;
  ssr_object : S3ObjectMetadata;
}.

Record StreamObjectRow := {
  sjr_object : S3ObjectMetadata;
}.

(** [(stream_id, start_offset, object_id)]; compared lexicographically. *)
Notation StreamOffsetKey := (Z * Z * Z)%type.

(** ** The state

    Maps to [()] are sets. *)
Record MetadataState := {
  ms_next_stream_id : Z;
  ms_streams : gmap Z StreamRow;
  ms_nodes : gmap Z NodeRow;
  ms_opening_by_node : gset (Z * Z);
  ms_placed_by_node : gset (Z * Z);
  ms_pending_transfers : gmap Z PendingTransfer;
  ms_next_object_id : Z;
  ms_prepared : gmap Z Z;
  ms_prepared_by_deadline : gset (Z * Z);
  ms_stream_set_objects : gmap Z StreamSetObjectRow;
  ms_sso_ranges : gmap StreamOffsetKey Z;
  ms_sso_by_node : gset (Z * Z);
  ms_stream_objects : gmap StreamOffsetKey StreamObjectRow;
  ms_stream_object_ids : gmap Z StreamOffsetKey;
  ms_mark_destroyed : gmap Z (Z * CompactOperations);
  ms_destroyed_by_id : gmap Z Z;
  ms_next_destroyed_seq : Z;
  ms_kv : gmap string (list byte);
}.

(** [MetadataState::default()] *)
Definition new_state : MetadataState := {|
  ms_next_stream_id := 0;
  ms_streams := ∅;
  ms_nodes := ∅;
  ms_opening_by_node := ∅;
  ms_placed_by_node := ∅;
  ms_pending_transfers := ∅;
  ms_next_object_id := 0;
  ms_prepared := ∅;
  ms_prepared_by_deadline := ∅;
  ms_stream_set_objects := ∅;
  ms_sso_ranges := ∅;
  ms_sso_by_node := ∅;
  ms_stream_objects := ∅;
  ms_stream_object_ids := ∅;
  ms_mark_destroyed := ∅;
  ms_destroyed_by_id := ∅;
  ms_next_destroyed_seq := 0;
  ms_kv := ∅;
|}.

(** Field assignments [state.field = v]. *)
Definition set_next_stream_id (v : Z) (st : MetadataState) : MetadataState :=
  Build_MetadataState v (ms_streams st) (ms_nodes st) (ms_opening_by_node st)
    (ms_placed_by_node st) (ms_pending_transfers st) (ms_next_object_id st) (ms_prepared st)
    (ms_prepared_by_deadline st) (ms_stream_set_objects st) (ms_sso_ranges st)
    (ms_sso_by_node st) (ms_stream_objects st) (ms_stream_object_ids st) (ms_mark_destroyed st)
    (ms_destroyed_by_id st) (ms_next_destroyed_seq st) (ms_kv st).
Definition set_streams (v : gmap Z StreamRow) (st : MetadataState) : MetadataState :=
  Build_MetadataState (ms_next_stream_id st) v (ms_nodes st) (ms_opening_by_node st)
    (ms_placed_by_node st) (ms_pending_transfers st) (ms_next_object_id st) (ms_prepared st)
    (ms_prepared_by_deadline st) (ms_stream_set_objects st) (ms_sso_ranges st)
    (ms_sso_by_node st) (ms_stream_objects st) (ms_stream_object_ids st) (ms_mark_destroyed st)
    (ms_destroyed_by_id st) (ms_next_destroyed_seq st) (ms_kv st).
Definition set_nodes (v : gmap Z NodeRow) (st : MetadataState) : MetadataState :=
  Build_MetadataState (ms_next_stream_id st) (ms_streams st) v (ms_opening_by_node st)
    (ms_placed_by_node st) (ms_pending_transfers st) (ms_next_object_id st) (ms_prepared st)
    (ms_prepared_by_deadline st) (ms_stream_set_objects st) (ms_sso_ranges st)
    (ms_sso_by_node st) (ms_stream_objects st) (ms_stream_object_ids st) (ms_mark_destroyed st)
    (ms_destroyed_by_id st) (ms_next_destroyed_seq st) (ms_kv st).
Definition set_opening_by_node (v : gset (Z * Z)) (st : MetadataState) : MetadataState :=
  Build_MetadataState (ms_next_stream_id st) (ms_streams st) (ms_nodes st) v
    (ms_placed_by_node st) (ms_pending_transfers st) (ms_next_object_id st) (ms_prepared st)
    (ms_prepared_by_deadline st) (ms_stream_set_objects st) (ms_sso_ranges st)
    (ms_sso_by_node st) (ms_stream_objects st) (ms_stream_object_ids st) (ms_mark_destroyed st)
    (ms_destroyed_by_id st) (ms_next_destroyed_seq st) (ms_kv st).
Definition set_placed_by_node (v : gset (Z * Z)) (st : MetadataState) : MetadataState :=
  Build_MetadataState (ms_next_stream_id st) (ms_streams st) (ms_nodes st)
    (ms_opening_by_node st) v (ms_pending_transfers st) (ms_next_object_id st) (ms_prepared st)
    (ms_prepared_by_deadline st) (ms_stream_set_objects st) (ms_sso_ranges st)
    (ms_sso_by_node st) (ms_stream_objects st) (ms_stream_object_ids st) (ms_mark_destroyed st)
    (ms_destroyed_by_id st) (ms_next_destroyed_seq st) (ms_kv st).
Definition set_pending_transfers (v : gmap Z PendingTransfer) (st : MetadataState) : MetadataState :=
  Build_MetadataState (ms_next_stream_id st) (ms_streams st) (ms_nodes st)
    (ms_opening_by_node st) (ms_placed_by_node st) v (ms_next_object_id st) (ms_prepared st)
    (ms_prepared_by_deadline st) (ms_stream_set_objects st) (ms_sso_ranges st)
    (ms_sso_by_node st) (ms_stream_objects st) (ms_stream_object_ids st) (ms_mark_destroyed st)
    (ms_destroyed_by_id st) (ms_next_destroyed_seq st) (ms_kv st).
Definition set_next_object_id (v : Z) (st : MetadataState) : MetadataState :=
  Build_MetadataState (ms_next_stream_id st) (ms_streams st) (ms_nodes st)
    (ms_opening_by_node st) (ms_placed_by_node st) (ms_pending_transfers st) v (ms_prepared st)
    (ms_prepared_by_deadline st) (ms_stream_set_objects st) (ms_sso_ranges st)
    (ms_sso_by_node st) (ms_stream_objects st) (ms_stream_object_ids st) (ms_mark_destroyed st)
    (ms_destroyed_by_id st) (ms_next_destroyed_seq st) (ms_kv st).
Definition set_prepared (v : gmap Z Z) (st : MetadataState) : MetadataState :=
  Build_MetadataState (ms_next_stream_id st) (ms_streams st) (ms_nodes st)
    (ms_opening_by_node st) (ms_placed_by_node st) (ms_pending_transfers st)
    (ms_next_object_id st) v (ms_prepared_by_deadline st) (ms_stream_set_objects st)
    (ms_sso_ranges st) (ms_sso_by_node st) (ms_stream_objects st) (ms_stream_object_ids st)
    (ms_mark_destroyed st) (ms_destroyed_by_id st) (ms_next_destroyed_seq st) (ms_kv st).
Definition set_prepared_by_deadline (v : gset (Z * Z)) (st : MetadataState) : MetadataState :=
  Build_MetadataState (ms_next_stream_id st) (ms_streams st) (ms_nodes st)
    (ms_opening_by_node st) (ms_placed_by_node st) (ms_pending_transfers st)
    (ms_next_object_id st) (ms_prepared st) v (ms_stream_set_objects st) (ms_sso_ranges st)
    (ms_sso_by_node st) (ms_stream_objects st) (ms_stream_object_ids st) (ms_mark_destroyed st)
    (ms_destroyed_by_id st) (ms_next_destroyed_seq st) (ms_kv st).
Definition set_stream_set_objects (v : gmap Z StreamSetObjectRow) (st : MetadataState) : MetadataState :=
  Build_MetadataState (ms_next_stream_id st) (ms_streams st) (ms_nodes st)
    (ms_opening_by_node st) (ms_placed_by_node st) (ms_pending_transfers st)
    (ms_next_object_id st) (ms_prepared st) (ms_prepared_by_deadline st) v (ms_sso_ranges st)
    (ms_sso_by_node st) (ms_stream_objects st) (ms_stream_object_ids st) (ms_mark_destroyed st)
    (ms_destroyed_by_id st) (ms_next_destroyed_seq st) (ms_kv st).
Definition set_sso_ranges (v : gmap StreamOffsetKey Z) (st : MetadataState) : MetadataState :=
  Build_MetadataState (ms_next_stream_id st) (ms_streams st) (ms_nodes st)
    (ms_opening_by_node st) (ms_placed_by_node st) (ms_pending_transfers st)
    (ms_next_object_id st) (ms_prepared st) (ms_prepared_by_deadline st)
    (ms_stream_set_objects st) v (ms_sso_by_node st) (ms_stream_objects st)
    (ms_stream_object_ids st) (ms_mark_destroyed st) (ms_destroyed_by_id st)
    (ms_next_destroyed_seq st) (ms_kv st).
Definition set_sso_by_node (v : gset (Z * Z)) (st : MetadataState) : MetadataState :=
  Build_MetadataState (ms_next_stream_id st) (ms_streams st) (ms_nodes st)
    (ms_opening_by_node st) (ms_placed_by_node st) (ms_pending_transfers st)
    (ms_next_object_id st) (ms_prepared st) (ms_prepared_by_deadline st)
    (ms_stream_set_objects st) (ms_sso_ranges st) v (ms_stream_objects st)
    (ms_stream_object_ids st) (ms_mark_destroyed st) (ms_destroyed_by_id st)
    (ms_next_destroyed_seq st) (ms_kv st).
Definition set_stream_objects (v : gmap StreamOffsetKey StreamObjectRow) (st : MetadataState) : MetadataState :=
  Build_MetadataState (ms_next_stream_id st) (ms_streams st) (ms_nodes st)
    (ms_opening_by_node st) (ms_placed_by_node st) (ms_pending_transfers st)
    (ms_next_object_id st) (ms_prepared st) (ms_prepared_by_deadline st)
    (ms_stream_set_objects st) (ms_sso_ranges st) (ms_sso_by_node st) v
    (ms_stream_object_ids st) (ms_mark_destroyed st) (ms_destroyed_by_id st)
    (ms_next_destroyed_seq st) (ms_kv st).
Definition set_stream_object_ids (v : gmap Z StreamOffsetKey) (st : MetadataState) : MetadataState :=
  Build_MetadataState (ms_next_stream_id st) (ms_streams st) (ms_nodes st)
    (ms_opening_by_node st) (ms_placed_by_node st) (ms_pending_transfers st)
    (ms_next_object_id st) (ms_prepared st) (ms_prepared_by_deadline st)
    (ms_stream_set_objects st) (ms_sso_ranges st) (ms_sso_by_node st) (ms_stream_objects st) v
    (ms_mark_destroyed st) (ms_destroyed_by_id st) (ms_next_destroyed_seq st) (ms_kv st).
Definition set_mark_destroyed (v : gmap Z (Z * CompactOperations)) (st : MetadataState) : MetadataState :=
  Build_MetadataState (ms_next_stream_id st) (ms_streams st) (ms_nodes st)
    (ms_opening_by_node st) (ms_placed_by_node st) (ms_pending_transfers st)
    (ms_next_object_id st) (ms_prepared st) (ms_prepared_by_deadline st)
    (ms_stream_set_objects st) (ms_sso_ranges st) (ms_sso_by_node st) (ms_stream_objects st)
    (ms_stream_object_ids st) v (ms_destroyed_by_id st) (ms_next_destroyed_seq st) (ms_kv st).
Definition set_destroyed_by_id (v : gmap Z Z) (st : MetadataState) : MetadataState :=
  Build_MetadataState (ms_next_stream_id st) (ms_streams st) (ms_nodes st)
    (ms_opening_by_node st) (ms_placed_by_node st) (ms_pending_transfers st)
    (ms_next_object_id st) (ms_prepared st) (ms_prepared_by_deadline st)
    (ms_stream_set_objects st) (ms_sso_ranges st) (ms_sso_by_node st) (ms_stream_objects st)
    (ms_stream_object_ids st) (ms_mark_destroyed st) v (ms_next_destroyed_seq st) (ms_kv st).
Definition set_next_destroyed_seq (v : Z) (st : MetadataState) : MetadataState :=
  Build_MetadataState (ms_next_stream_id st) (ms_streams st) (ms_nodes st)
    (ms_opening_by_node st) (ms_placed_by_node st) (ms_pending_transfers st)
    (ms_next_object_id st) (ms_prepared st) (ms_prepared_by_deadline st)
    (ms_stream_set_objects st) (ms_sso_ranges st) (ms_sso_by_node st) (ms_stream_objects st)
    (ms_stream_object_ids st) (ms_mark_destroyed st) (ms_destroyed_by_id st) v (ms_kv st).
Definition set_kv (v : gmap string (list byte)) (st : MetadataState) : MetadataState :=
  Build_MetadataState (ms_next_stream_id st) (ms_streams st) (ms_nodes st)
    (ms_opening_by_node st) (ms_placed_by_node st) (ms_pending_transfers st)
    (ms_next_object_id st) (ms_prepared st) (ms_prepared_by_deadline st)
    (ms_stream_set_objects st) (ms_sso_ranges st) (ms_sso_by_node st) (ms_stream_objects st)
    (ms_stream_object_ids st) (ms_mark_destroyed st) (ms_destroyed_by_id st)
    (ms_next_destroyed_seq st) v.

(** Computes field reads through field assignments, and nothing else. *)
Ltac ms_simpl := cbn [
    ms_next_stream_id set_next_stream_id ms_streams set_streams ms_nodes set_nodes
    ms_opening_by_node set_opening_by_node ms_placed_by_node set_placed_by_node
    ms_pending_transfers set_pending_transfers ms_next_object_id set_next_object_id
    ms_prepared set_prepared ms_prepared_by_deadline set_prepared_by_deadline
    ms_stream_set_objects set_stream_set_objects ms_sso_ranges set_sso_ranges
    ms_sso_by_node set_sso_by_node ms_stream_objects set_stream_objects
    ms_stream_object_ids set_stream_object_ids ms_mark_destroyed set_mark_destroyed
    ms_destroyed_by_id set_destroyed_by_id ms_next_destroyed_seq set_next_destroyed_seq
    ms_kv set_kv ].
Tactic Notation "ms_simpl" "in" hyp(H) := cbn [
    ms_next_stream_id set_next_stream_id ms_streams set_streams ms_nodes set_nodes
    ms_opening_by_node set_opening_by_node ms_placed_by_node set_placed_by_node
    ms_pending_transfers set_pending_transfers ms_next_object_id set_next_object_id
    ms_prepared set_prepared ms_prepared_by_deadline set_prepared_by_deadline
    ms_stream_set_objects set_stream_set_objects ms_sso_ranges set_sso_ranges
    ms_sso_by_node set_sso_by_node ms_stream_objects set_stream_objects
    ms_stream_object_ids set_stream_object_ids ms_mark_destroyed set_mark_destroyed
    ms_destroyed_by_id set_destroyed_by_id ms_next_destroyed_seq set_next_destroyed_seq
    ms_kv set_kv ] in H.

(** ** Commands, results, errors *)
Inductive MetadataCommand :=
| RegisterNode (node_id node_epoch : Z) (http_address : string) (slots : Z)
| PlaceStream (stream_id : Z)
| CreateStream (node_id node_epoch : Z)
| OpenStream (node_id node_epoch stream_id epoch : Z)
| TrimStream (node_id node_epoch stream_id epoch new_start_offset : Z)
| CloseStream (node_id node_epoch stream_id epoch : Z)
| DeleteStream (node_id node_epoch stream_id epoch : Z)
| PrepareObject (node_id node_epoch count ttl_ms now_ms : Z)
| CommitStreamSetObject (node_id node_epoch : Z) (request : CommitStreamSetObjectRequest)
    (now_ms : Z)
| CompactStreamObject (node_id node_epoch : Z) (request : CompactStreamObjectRequest)
    (now_ms : Z)
| ExpirePreparedObjects (now_ms : Z)
| CleanDestroyedObjects (object_ids : list Z)
| PutKv (key : string) (value : list byte)
| PutKvIfAbsent (key : string) (value : list byte)
| DeleteKv (key : string)
| TransferStream (stream_id from_node to_node : Z)
| CompleteTransfer (stream_id epoch : Z)
| CreateStreams (node_id node_epoch count : Z).

Definition type_code (command : MetadataCommand) : Z :=
  match command with
  | CreateStream _ _ => 1
  | OpenStream _ _ _ _ => 2
  | TrimStream _ _ _ _ _ => 3
  | CloseStream _ _ _ _ => 4
  | DeleteStream _ _ _ _ => 5
  | PrepareObject _ _ _ _ _ => 6
  | CommitStreamSetObject _ _ _ _ => 7
  | CompactStreamObject _ _ _ _ => 8
  | ExpirePreparedObjects _ => 9
  | RegisterNode _ _ _ _ => 10
  | CleanDestroyedObjects _ => 11
  | PutKv _ _ => 12
  | PutKvIfAbsent _ _ => 13
  | DeleteKv _ => 14
  | TransferStream _ _ _ => 15
  | CompleteTransfer _ _ => 16
  | CreateStreams _ _ _ => 17
  | PlaceStream _ => 18
  end.

Inductive MetadataResult :=
| RUnit
| RId (id : Z)
| RCount (count : Z)
| RStream (metadata : StreamMetadata)
| RValue (value : option (list byte)).

(** A [format!] message: the template with its arguments, unrendered. *)
Inductive fmt_arg :=
| FInt (z : Z)
| FState (s : StreamState)
| FKey (k : StreamOffsetKey).
Record message := fmt { template : string; fmt_args : list fmt_arg }.

Inductive MetadataError :=
| StreamNotExist (stream_id : Z)
| StreamNotClosed (stream_id : Z)
| StreamFenced (stream_id epoch : Z) (msg : message)
| ExpiredEpoch (stream_id epoch : Z) (msg : message)
| NodeEpochMismatch (node_id : Z) (msg : message)
| Redundant (msg : message)
| Unexpected (msg : message).

Definition error_code (e : MetadataError) : Z :=
  match e with
  | StreamNotExist _ => 1
  | StreamNotClosed _ => 2
  | StreamFenced _ _ _ => 3
  | ExpiredEpoch _ _ _ => 4
  | NodeEpochMismatch _ _ => 5
  | Redundant _ => 6
  | Unexpected _ => 99
  end.

Definition is_redundant (e : MetadataError) : bool :=
  match e with Redundant _ => true | _ => false end.

(** The engine's [StreamError], as far as the metadata plane produces it;
    [Unexpected] carries a text, which here is the error or the result it
    renders. *)
Inductive StreamError :=
| SE_NotExist (stream_id : Z)
| SE_Fenced (stream_id epoch : Z)
| SE_Unexpected (source : MetadataError)
| SE_UnexpectedResult (result : MetadataResult).

Definition to_stream_error (e : MetadataError) : StreamError :=
  match e with
  | StreamNotExist stream_id => SE_NotExist stream_id
  | StreamFenced stream_id epoch _ | ExpiredEpoch stream_id epoch _ =>
    SE_Fenced stream_id (Z.max epoch 0)
  | other => SE_Unexpected other
  end.

(** Every field of a command lies in the range of its Rust type, and every
    length fits the [u32] prefix of the log encoding. *)
Definition command_wf (c : MetadataCommand) : Prop :=
  match c with
  | RegisterNode n e addr slots => is_i32 n ∧ is_i64 e ∧ string_ok addr ∧ is_u32 slots
  | PlaceStream s => is_u64 s
  | CreateStream n e => is_i32 n ∧ is_i64 e
  | OpenStream n e s ep | CloseStream n e s ep | DeleteStream n e s ep =>
    is_i32 n ∧ is_i64 e ∧ is_u64 s ∧ is_i64 ep
  | TrimStream n e s ep off => is_i32 n ∧ is_i64 e ∧ is_u64 s ∧ is_i64 ep ∧ is_u64 off
  | PrepareObject n e count ttl now =>
    is_i32 n ∧ is_i64 e ∧ is_u32 count ∧ is_i64 ttl ∧ is_i64 now
  | CommitStreamSetObject n e r now =>
    is_i32 n ∧ is_i64 e ∧ commit_request_typed r ∧ is_i64 now
  | CompactStreamObject n e r now =>
    is_i32 n ∧ is_i64 e ∧ compact_request_typed r ∧ is_i64 now
  | ExpirePreparedObjects now => is_i64 now
  | CleanDestroyedObjects ids => Forall is_u64 ids ∧ fits_u32 ids
  | PutKv k v | PutKvIfAbsent k v => string_ok k ∧ fits_u32 v
  | DeleteKv k => string_ok k
  | TransferStream s f t => is_u64 s ∧ is_i32 f ∧ is_i32 t
  | CompleteTransfer s ep => is_u64 s ∧ is_i64 ep
  | CreateStreams n e count => is_i32 n ∧ is_i64 e ∧ is_u32 count
  end.
