(* ===== verification/MetaApply.v ===== *)
(** * The metadata state transition

    [picomq/pico-metadata/src/apply.rs], function by function. A Rust function
    [fn f(state: &mut MetadataState, ..) -> Result<A, MetadataError>] is a
    computation of the monad [M]: it returns the state it leaves behind also
    when it fails, because the source mutates in place; [apply] is what throws
    a failed attempt away. *)

From S2P Require Import Prelude StreamTypes MetaState.
From Stdlib Require Import ZArith Lia.
From stdpp Require Import base numbers list sorting gmap strings.

Open Scope Z_scope.

(** ** The state-and-error monad *)
Definition M (A : Type) : Type := MetadataState → MetadataState * result A MetadataError.

Definition retM {A} (a : A) : M A := λ st, (st, Ok a).
Definition failM {A} (e : MetadataError) : M A := λ st, (st, Err e).
Definition bindM {A B} (m : M A) (k : A → M B) : M B := λ st,
  match m st with
  | (st', Ok a) => k a st'
  | (st', Err e) => (st', Err e)
  end.
(** Read the state; a helper that only borrows [&MetadataState] and fails. *)
Definition getM {A} (f : MetadataState → A) : M A := λ st, (st, Ok (f st)).
Definition tryM {A} (f : MetadataState → result A MetadataError) : M A := λ st, (st, f st).
(** Assign to the state. *)
Definition updM (f : MetadataState → MetadataState) : M unit := λ st, (f st, Ok tt).

Declare Scope apply_scope.
Notation "x <- m ;; k" := (bindM m (λ x, k))
  (at level 100, m at next level, right associativity) : apply_scope.
Notation "m ;;; k" := (bindM m (λ _ : unit, k))
  (at level 100, right associativity) : apply_scope.
Open Scope apply_scope.

(** [for x in xs { body(x)? }] *)
Fixpoint forM {A} (xs : list A) (body : A → M unit) : M unit :=
  match xs with
  | [] => retM tt
  | x :: xs => body x ;;; forM xs body
  end.

(** [if b { return Err(e) }] *)
Definition ensureM (b : bool) (e : MetadataError) : M unit :=
  if b then retM tt else failM e.

(** ** Node lifecycle *)
Definition register_node (node_id node_epoch : Z) (http_address : string) (slots : Z) :
    M MetadataResult :=
  node <- getM (λ st, ms_nodes st !! node_id) ;;
  match node with
  | Some n =>
    ensureM (negb (node_epoch <? nr_epoch n))
      (NodeEpochMismatch node_id
        (fmt "node {} epoch {} fences register with epoch {}"
           [FInt node_id; FInt (nr_epoch n); FInt node_epoch]))
  | None => retM tt
  end ;;;
  let http_address :=
    match http_address with
    | EmptyString => match node with Some n => nr_http_address n | None => EmptyString end
    | _ => http_address
    end in
  updM (λ st, set_nodes (<[node_id := {|
    nr_node_id := node_id;
    nr_epoch := node_epoch;
    nr_http_address := http_address;
    nr_slots := slots |}]> (ms_nodes st)) st) ;;;
  retM RUnit.

Definition node_epoch_check (st : MetadataState) (node_id node_epoch : Z) :
    result unit MetadataError :=
  match ms_nodes st !! node_id with
  | None => Err (NodeEpochMismatch node_id (fmt "node {} is not registered" [FInt node_id]))
  | Some node =>
    if nr_epoch node =? node_epoch then Ok tt
    else Err (NodeEpochMismatch node_id
      (fmt "node {} epoch mismatch current={} request={}"
         [FInt node_id; FInt (nr_epoch node); FInt node_epoch]))
  end.

Definition check_node (node_id node_epoch : Z) : M unit :=
  tryM (λ st, node_epoch_check st node_id node_epoch).

Definition fresh_row (stream_id : Z) : StreamRow := {|
  sr_stream_id := stream_id;
  sr_epoch := -1;
  sr_start_offset := 0;
  sr_end_offset := 0;
  sr_state := Closed;
  sr_node_id := -1;
|}.

Definition put_stream (row_id : Z) (row : StreamRow) : M unit :=
  updM (λ st, set_streams (<[row_id := row]> (ms_streams st)) st).

Definition create_stream (node_id node_epoch : Z) : M MetadataResult :=
  check_node node_id node_epoch ;;;
  stream_id <- getM ms_next_stream_id ;;
  updM (λ st, set_next_stream_id (wrap_u64 (ms_next_stream_id st + 1)) st) ;;;
  put_stream stream_id (fresh_row stream_id) ;;;
  retM (RId stream_id).

Definition MAX_CREATE_STREAMS : Z := 4096.

Definition create_streams (node_id node_epoch count : Z) : M MetadataResult :=
  check_node node_id node_epoch ;;;
  ensureM (negb (count =? 0)) (Unexpected (fmt "create count must be positive" [])) ;;;
  ensureM (count <=? MAX_CREATE_STREAMS)
    (Unexpected (fmt "create count {} exceeds {}" [FInt count; FInt MAX_CREATE_STREAMS])) ;;;
  first <- getM ms_next_stream_id ;;
  forM (range_u64 first (wrap_u64 (first + count)))
    (λ stream_id, put_stream stream_id (fresh_row stream_id)) ;;;
  updM (set_next_stream_id (wrap_u64 (first + count))) ;;;
  retM (RId first).

Definition require_stream (st : MetadataState) (stream_id : Z) : result StreamRow MetadataError :=
  match ms_streams st !! stream_id with
  | Some row => Ok row
  | None => Err (StreamNotExist stream_id)
  end.

(** The placement score of one node: open and placed streams per slot, x1000. *)
Definition node_score (st : MetadataState) (node_id slots : Z) : Z :=
  let opening_count :=
    Z.of_nat (length (ord_range_set (node_id, 0) (node_id, u64_max) (ms_opening_by_node st))) in
  let placed_count :=
    Z.of_nat (length (ord_range_set (node_id, 0) (node_id, u64_max) (ms_placed_by_node st))) in
  wrap_u64 (wrap_u64 (opening_count + placed_count) * 1000) / slots.

(** One iteration of the winner loop of [place_stream]. *)
Definition place_step (st : MetadataState) (winner : option (Z * Z)) (entry : Z * NodeRow) :
    option (Z * Z) :=
  let '(node_id, node) := entry in
  if nr_slots node <? 1 then winner
  else
    let score := node_score st node_id (nr_slots node) in
    match winner with
    | None => Some (node_id, score)
    | Some (best_id, best_score) =>
      if (score <? best_score) || ((score =? best_score) && (node_id <? best_id))
      then Some (node_id, score) else winner
    end.

Definition place_winner (st : MetadataState) : option (Z * Z) :=
  foldl (place_step st) None (ord_list (ms_nodes st)).

Definition with_node_id (row : StreamRow) (node_id : Z) : StreamRow := {|
  sr_stream_id := sr_stream_id row; sr_epoch := sr_epoch row;
  sr_start_offset := sr_start_offset row; sr_end_offset := sr_end_offset row;
  sr_state := sr_state row; sr_node_id := node_id |}.

Definition place_stream (stream_id : Z) : M MetadataResult :=
  stream <- tryM (λ st, require_stream st stream_id) ;;
  if negb (sr_node_id stream =? -1) then retM (RId (wrap_u64 (sr_node_id stream)))
  else
    ensureM (bool_decide (sr_state stream = Closed) && (sr_epoch stream =? -1))
      (Unexpected (fmt "stream {} cannot be placed in state {:?} epoch {}"
         [FInt stream_id; FState (sr_state stream); FInt (sr_epoch stream)])) ;;;
    winner <- getM place_winner ;;
    match winner with
    | None =>
      failM (NodeEpochMismatch (-1)
        (fmt "no registered nodes with slots >= 1 for stream placement" []))
    | Some (winner, _) =>
      put_stream stream_id (with_node_id stream winner) ;;;
      updM (λ st, set_placed_by_node ({[(winner, stream_id)]} ∪ ms_placed_by_node st) st) ;;;
      retM (RId (wrap_u64 winner))
    end.

(** ** Stream lifecycle *)
Definition opened_row (row : StreamRow) (epoch node_id : Z) : StreamRow := {|
  sr_stream_id := sr_stream_id row; sr_epoch := epoch;
  sr_start_offset := sr_start_offset row; sr_end_offset := sr_end_offset row;
  sr_state := Opened; sr_node_id := node_id |}.

Definition open_stream (node_id node_epoch stream_id epoch : Z) : M MetadataResult :=
  check_node node_id node_epoch ;;;
  stream <- tryM (λ st, require_stream st stream_id) ;;
  if epoch <? sr_epoch stream then
    failM (StreamFenced stream_id epoch
      (fmt "stream {} epoch {} fences request epoch {}"
         [FInt stream_id; FInt (sr_epoch stream); FInt epoch]))
  else if sr_epoch stream =? epoch then
    if bool_decide (sr_state stream = Opened) && (sr_node_id stream =? node_id)
    then retM (RStream (to_stream_metadata stream))
    else failM (StreamFenced stream_id epoch
      (fmt "stream {} epoch {} already used" [FInt stream_id; FInt epoch]))
  else if bool_decide (sr_state stream = Opened) then failM (StreamNotClosed stream_id)
  else
    let opened := opened_row stream epoch node_id in
    put_stream stream_id opened ;;;
    updM (λ st, set_placed_by_node
      (ms_placed_by_node st ∖ {[(sr_node_id stream, stream_id)]}) st) ;;;
    updM (λ st, set_opening_by_node
      ({[(node_id, stream_id)]} ∪ ms_opening_by_node st) st) ;;;
    retM (RStream (to_stream_metadata opened)).

Definition epoch_not_current (stream_id epoch current : Z) : MetadataError :=
  ExpiredEpoch stream_id epoch
    (fmt "stream {} epoch {} is not equal to current epoch {}"
       [FInt stream_id; FInt epoch; FInt current]).

Definition not_opened (stream_id : Z) : MetadataError :=
  Unexpected (fmt "stream {} is not opened" [FInt stream_id]).

Definition require_opened_stream (st : MetadataState) (stream_id epoch : Z) :
    result StreamRow MetadataError :=
  let? stream := require_stream st stream_id in
  if bool_decide (sr_state stream ≠ Opened) then Err (not_opened stream_id)
  else if negb (sr_epoch stream =? epoch)
  then Err (epoch_not_current stream_id epoch (sr_epoch stream))
  else Ok stream.

Definition with_start_offset (row : StreamRow) (off : Z) : StreamRow := {|
  sr_stream_id := sr_stream_id row; sr_epoch := sr_epoch row;
  sr_start_offset := off; sr_end_offset := sr_end_offset row;
  sr_state := sr_state row; sr_node_id := sr_node_id row |}.

Definition trim_stream (node_id node_epoch stream_id epoch new_start_offset : Z) :
    M MetadataResult :=
  check_node node_id node_epoch ;;;
  stream <- tryM (λ st, require_opened_stream st stream_id epoch) ;;
  ensureM (negb (new_start_offset <? sr_start_offset stream))
    (Unexpected (fmt "stream {} new start offset {} is less than current start offset {}"
       [FInt stream_id; FInt new_start_offset; FInt (sr_start_offset stream)])) ;;;
  ensureM (negb (sr_end_offset stream <? new_start_offset))
    (Unexpected (fmt "stream {} new start offset {} is greater than current end offset {}"
       [FInt stream_id; FInt new_start_offset; FInt (sr_end_offset stream)])) ;;;
  put_stream stream_id (with_start_offset stream new_start_offset) ;;;
  retM RUnit.

Definition closed_row (row : StreamRow) : StreamRow := {|
  sr_stream_id := sr_stream_id row; sr_epoch := sr_epoch row;
  sr_start_offset := sr_start_offset row; sr_end_offset := sr_end_offset row;
  sr_state := Closed; sr_node_id := sr_node_id row |}.

Definition close_stream (node_id node_epoch stream_id epoch : Z) : M MetadataResult :=
  check_node node_id node_epoch ;;;
  stream <- tryM (λ st, require_stream st stream_id) ;;
  if bool_decide (sr_state stream = Closed) && (sr_epoch stream =? epoch) then retM RUnit
  else if bool_decide (sr_state stream ≠ Opened) then failM (not_opened stream_id)
  else if negb (sr_epoch stream =? epoch)
  then failM (epoch_not_current stream_id epoch (sr_epoch stream))
  else
    put_stream stream_id (closed_row stream) ;;;
    updM (λ st, set_opening_by_node
      (ms_opening_by_node st ∖ {[(sr_node_id stream, stream_id)]}) st) ;;;
    retM RUnit.

Definition transfer_target_ok (st : MetadataState) (to_node : Z) : bool :=
  match ms_nodes st !! to_node with
  | Some node => 1 <=? nr_slots node
  | None => false
  end.

Definition transfer_stream (stream_id from_node to_node : Z) : M MetadataResult :=
  stream <- tryM (λ st, require_stream st stream_id) ;;
  pending <- getM (λ st, ms_pending_transfers st !! stream_id) ;;
  match pending with
  | Some pending =>
    if (pt_from_node pending =? from_node) && (pt_to_node pending =? to_node)
    then retM RUnit
    else failM (Unexpected (fmt "stream {} already transferring from {} to {}"
      [FInt stream_id; FInt (pt_from_node pending); FInt (pt_to_node pending)]))
  | None =>
    ensureM (negb (from_node =? to_node))
      (Unexpected (fmt "stream {} transfer target equals source {}"
         [FInt stream_id; FInt from_node])) ;;;
    target_ok <- getM (λ st, transfer_target_ok st to_node) ;;
    ensureM target_ok (NodeEpochMismatch to_node
      (fmt "transfer target {} is not a registered node with slots" [FInt to_node])) ;;;
    ensureM (bool_decide (sr_state stream = Opened) && (sr_node_id stream =? from_node))
      (Unexpected (fmt "stream {} is not opened on node {}, state {:?} node {}"
         [FInt stream_id; FInt from_node; FState (sr_state stream);
          FInt (sr_node_id stream)])) ;;;
    updM (λ st, set_pending_transfers
      (<[stream_id := {| pt_from_node := from_node; pt_to_node := to_node |}]>
         (ms_pending_transfers st)) st) ;;;
    retM RUnit
  end.

Definition complete_transfer (stream_id epoch : Z) : M MetadataResult :=
  pending <- getM (λ st, ms_pending_transfers st !! stream_id) ;;
  match pending with
  | None => failM (Redundant (fmt "no pending transfer for stream {}" [FInt stream_id]))
  | Some pending =>
    stream <- tryM (λ st, require_stream st stream_id) ;;
    ensureM (bool_decide (sr_state stream = Closed)) (StreamNotClosed stream_id) ;;;
    ensureM (sr_epoch stream =? epoch)
      (epoch_not_current stream_id epoch (sr_epoch stream)) ;;;
    put_stream stream_id (with_node_id stream (pt_to_node pending)) ;;;
    updM (λ st, set_pending_transfers (delete stream_id (ms_pending_transfers st)) st) ;;;
    retM RUnit
  end.

(** ** Destroyed-object queue *)
Definition mark_destroyed (object_id : Z) (op : CompactOperations) : M unit :=
  seq <- getM (λ st, ms_destroyed_by_id st !! object_id) ;;
  match seq with
  | Some seq =>
    updM (λ st, set_mark_destroyed (<[seq := (object_id, op)]> (ms_mark_destroyed st)) st)
  | None =>
    seq <- getM ms_next_destroyed_seq ;;
    updM (λ st, set_next_destroyed_seq (wrap_u64 (ms_next_destroyed_seq st + 1)) st) ;;;
    updM (λ st, set_mark_destroyed (<[seq := (object_id, op)]> (ms_mark_destroyed st)) st) ;;;
    updM (λ st, set_destroyed_by_id (<[object_id := seq]> (ms_destroyed_by_id st)) st)
  end.

Definition mark_destroy_objects (ids : list Z) (ops : list CompactOperations) : M unit :=
  match ids, ops with
  | [], _ => retM tt
  | _, [] => forM ids (λ id, mark_destroyed id OpDelete)
  | _, _ =>
    ensureM (Nat.eqb (length ops) (length ids))
      (Unexpected (fmt "mark destroy ids size {} does not match operations size {}"
         [FInt (Z.of_nat (length ids)); FInt (Z.of_nat (length ops))])) ;;;
    forM (zip ids ops) (λ p, mark_destroyed p.1 p.2)
  end.

Definition remove_placed_stream (stream_id : Z) : M unit :=
  keys <- getM (λ st, filter (λ k : Z * Z, k.2 = stream_id)
    (ord_elems (ms_placed_by_node st))) ;;
  forM keys (λ k, updM (λ st, set_placed_by_node (ms_placed_by_node st ∖ {[k]}) st)).

Definition delete_stream (node_id node_epoch stream_id epoch : Z) : M MetadataResult :=
  check_node node_id node_epoch ;;;
  stream <- getM (λ st, ms_streams st !! stream_id) ;;
  match stream with
  | None => retM RUnit
  | Some stream =>
    ensureM (bool_decide (sr_state stream = Closed)) (StreamNotClosed stream_id) ;;;
    ensureM (sr_epoch stream =? epoch)
      (epoch_not_current stream_id epoch (sr_epoch stream)) ;;;
    updM (λ st, set_streams (delete stream_id (ms_streams st)) st) ;;;
    remove_placed_stream stream_id ;;;
    updM (λ st, set_pending_transfers (delete stream_id (ms_pending_transfers st)) st) ;;;
    keys <- getM (λ st, (ord_range (stream_id, 0, 0) (stream_id, u64_max, u64_max)
      (ms_stream_objects st)).*1) ;;
    forM keys (λ key,
      updM (λ st, set_stream_objects (delete key (ms_stream_objects st)) st) ;;;
      updM (λ st, set_stream_object_ids (delete key.2 (ms_stream_object_ids st)) st) ;;;
      mark_destroyed key.2 OpDelete) ;;;
    retM RUnit
  end.

(** ** Object lifecycle *)
Definition prepare_object (node_id node_epoch count ttl_ms now_ms : Z) : M MetadataResult :=
  check_node node_id node_epoch ;;;
  ensureM (negb (count =? 0)) (Unexpected (fmt "prepare count must be positive" [])) ;;;
  first <- getM ms_next_object_id ;;
  updM (λ st, set_next_object_id (wrap_u64 (ms_next_object_id st + count)) st) ;;;
  let deadline := wrap_i64 (now_ms + Z.max ttl_ms 0) in
  forM (range_u64 first (wrap_u64 (first + count))) (λ id,
    updM (λ st, set_prepared (<[id := deadline]> (ms_prepared st)) st) ;;;
    updM (λ st, set_prepared_by_deadline
      ({[(deadline, id)]} ∪ ms_prepared_by_deadline st) st)) ;;;
  retM (RId first).

Definition commit_prepared (object_id : Z) : M unit :=
  deadline <- getM (λ st, ms_prepared st !! object_id) ;;
  match deadline with
  | Some deadline =>
    updM (λ st, set_prepared (delete object_id (ms_prepared st)) st) ;;;
    updM (λ st, set_prepared_by_deadline
      (ms_prepared_by_deadline st ∖ {[(deadline, object_id)]}) st)
  | None => retM tt
  end.

Definition with_end_offset (row : StreamRow) (off : Z) : StreamRow := {|
  sr_stream_id := sr_stream_id row; sr_epoch := sr_epoch row;
  sr_start_offset := sr_start_offset row; sr_end_offset := off;
  sr_state := sr_state row; sr_node_id := sr_node_id row |}.

(** The offset checks shared by both compaction paths. *)
Definition end_offset_lesser (stream_id current requested : Z) : MetadataError :=
  Unexpected (fmt "stream {} end offset {} is lesser than request {}"
    [FInt stream_id; FInt current; FInt requested]).
Definition start_offset_greater (stream_id current requested : Z) : MetadataError :=
  Unexpected (fmt "stream {} start offset {} is greater than request {}"
    [FInt stream_id; FInt current; FInt requested]).

Definition advance_end_offset (stream_id start_offset end_offset : Z) (compact : bool) : M unit :=
  stream <- tryM (λ st, require_stream st stream_id) ;;
  if compact then
    ensureM (negb (sr_end_offset stream <? end_offset))
      (end_offset_lesser stream_id (sr_end_offset stream) end_offset) ;;;
    ensureM (negb (start_offset <? sr_start_offset stream))
      (start_offset_greater stream_id (sr_start_offset stream) start_offset)
  else
    ensureM (sr_end_offset stream =? start_offset)
      (Unexpected (fmt "stream {} end offset {} is not equal to start offset of request {}"
         [FInt stream_id; FInt (sr_end_offset stream); FInt start_offset])) ;;;
    put_stream stream_id (with_end_offset stream end_offset).

Definition stream_object_committed (st : MetadataState) (stream_id object_id : Z) : bool :=
  match ms_stream_object_ids st !! object_id with
  | Some key => key.1.1 =? stream_id
  | None => false
  end.

Definition check_object_id_free (st : MetadataState) (object_id : Z)
    (new_key : option StreamOffsetKey) : result unit MetadataError :=
  if bool_decide (is_Some (ms_stream_set_objects st !! object_id)) then
    Err (Unexpected (fmt "object {} is already a committed stream-set object"
      [FInt object_id]))
  else match ms_stream_object_ids st !! object_id with
  | Some existing =>
    if bool_decide (new_key ≠ Some existing) then
      Err (Unexpected (fmt "object {} is already committed as stream object {:?}"
        [FInt object_id; FKey existing]))
    else Ok tt
  | None => Ok tt
  end.

Definition redundant_commit_check (st : MetadataState) (request : CommitStreamSetObjectRequest) :
    result unit MetadataError :=
  if negb (cr_object_id request =? NOOP_OBJECT_ID) then
    if bool_decide (is_Some (ms_stream_set_objects st !! cr_object_id request)) then
      Err (Redundant (fmt "object {} already committed" [FInt (cr_object_id request)]))
    else Ok tt
  else match cr_stream_objects request with
  | [] => Ok tt
  | _ =>
    if forallb (λ so, stream_object_committed st (so_stream_id so) (so_object_id so))
         (cr_stream_objects request)
    then Err (Redundant (fmt "all stream objects in commit already committed" []))
    else Ok tt
  end.

Definition insert_stream_object (stream_id object_id start_offset end_offset object_size
    attributes data_time_ms now_ms : Z) : M unit :=
  let key := (stream_id, start_offset, object_id) in
  updM (λ st, set_stream_objects (<[key := {| sjr_object := {|
    om_object_id := object_id;
    om_object_type := StreamObj;
    om_offset_ranges := [{| sor_stream_id := stream_id; sor_start_offset := start_offset;
                            sor_end_offset := end_offset |}];
    om_object_size := object_size;
    om_attributes := attributes;
    om_committed_timestamp_ms := now_ms;
    om_data_timestamp_ms := data_time_ms |} |}]> (ms_stream_objects st)) st) ;;;
  updM (λ st, set_stream_object_ids (<[object_id := key]> (ms_stream_object_ids st)) st).

Definition range_key (object_id : Z) (r : StreamOffsetRange) : StreamOffsetKey :=
  (sor_stream_id r, sor_start_offset r, object_id).

Definition remove_stream_set_object (object_id : Z) : M unit :=
  row <- getM (λ st, ms_stream_set_objects st !! object_id) ;;
  match row with
  | Some row =>
    updM (λ st, set_stream_set_objects (delete object_id (ms_stream_set_objects st)) st) ;;;
    forM (om_offset_ranges (ssr_object row)) (λ range,
      updM (λ st, set_sso_ranges
        (delete (range_key object_id range) (ms_sso_ranges st)) st)) ;;;
    updM (λ st, set_sso_by_node
      (ms_sso_by_node st ∖ {[(ssr_node_id row, object_id)]}) st)
  | None => retM tt
  end.

(** The first loop over [compacted_object_ids]: every id must be a committed
    stream-set object; the data timestamp is the minimum over them. *)
Fixpoint compacted_data_time (st : MetadataState) (ids : list Z) (data_time_ms : Z) :
    result Z MetadataError :=
  match ids with
  | [] => Ok data_time_ms
  | id :: ids =>
    match ms_stream_set_objects st !! id with
    | None => Err (Unexpected (fmt "compacted stream-set object {} not found" [FInt id]))
    | Some owned =>
      compacted_data_time st ids
        (Z.min data_time_ms (om_data_timestamp_ms (ssr_object owned)))
    end
  end.

Definition to_offset_range (r : ObjectStreamRange) : StreamOffsetRange := {|
  sor_stream_id := osr_stream_id r;
  sor_start_offset := osr_start_offset r;
  sor_end_offset := osr_end_offset r;
|}.

(** The stream-set half of a commit ([object_id != NOOP_OBJECT_ID]). *)
Definition commit_set_part (node_id : Z) (request : CommitStreamSetObjectRequest)
    (compact : bool) (data_time_ms now_ms : Z) : M unit :=
  let object_id := cr_object_id request in
  tryM (λ st, check_object_id_free st object_id None) ;;;
  commit_prepared object_id ;;;
  forM (cr_stream_ranges request) (λ range,
    advance_end_offset (osr_stream_id range) (osr_start_offset range)
      (osr_end_offset range) compact) ;;;
  let object := {|
    om_object_id := object_id;
    om_object_type := StreamSet;
    om_offset_ranges := to_offset_range <$> cr_stream_ranges request;
    om_object_size := cr_object_size request;
    om_attributes := cr_attributes request;
    om_committed_timestamp_ms := now_ms;
    om_data_timestamp_ms := data_time_ms |} in
  forM (cr_stream_ranges request) (λ range,
    updM (λ st, set_sso_ranges
      (<[(osr_stream_id range, osr_start_offset range, object_id) := osr_end_offset range]>
         (ms_sso_ranges st)) st)) ;;;
  updM (λ st, set_sso_by_node ({[(node_id, object_id)]} ∪ ms_sso_by_node st) st) ;;;
  updM (λ st, set_stream_set_objects
    (<[object_id := {| ssr_node_id := node_id; ssr_object := object |}]>
       (ms_stream_set_objects st)) st).

(** One iteration of the loop over the split stream objects. *)
Definition commit_stream_object (compact : bool) (data_time_ms now_ms : Z) (so : StreamObject) :
    M unit :=
  tryM (λ st, check_object_id_free st (so_object_id so)
    (Some (so_stream_id so, so_start_offset so, so_object_id so))) ;;;
  commit_prepared (so_object_id so) ;;;
  advance_end_offset (so_stream_id so) (so_start_offset so) (so_end_offset so) compact ;;;
  insert_stream_object (so_stream_id so) (so_object_id so) (so_start_offset so)
    (so_end_offset so) (so_object_size so) (so_attributes so) data_time_ms now_ms.

Definition commit_stream_set_object (node_id node_epoch : Z)
    (request : CommitStreamSetObjectRequest) (now_ms : Z) : M MetadataResult :=
  check_node node_id node_epoch ;;;
  tryM (λ st, redundant_commit_check st request) ;;;
  let compact := negb (bool_decide (cr_compacted_object_ids request = [])) in
  data_time_ms <- (if compact then
      data_time_ms <- tryM (λ st,
        compacted_data_time st (cr_compacted_object_ids request) now_ms) ;;
      forM (cr_compacted_object_ids request) (λ id,
        remove_stream_set_object id ;;; mark_destroyed id OpDelete) ;;;
      retM data_time_ms
    else retM now_ms) ;;
  (if negb (cr_object_id request =? NOOP_OBJECT_ID)
   then commit_set_part node_id request compact data_time_ms now_ms
   else retM tt) ;;;
  forM (cr_stream_objects request) (commit_stream_object compact data_time_ms now_ms) ;;;
  retM RUnit.

(** [if let Some(key) = ids.get(&source_id) ..] of [compact_stream_object]. *)
Definition drop_source_object (stream_id source_id : Z) : M unit :=
  key <- getM (λ st, ms_stream_object_ids st !! source_id) ;;
  match key with
  | Some key =>
    if key.1.1 =? stream_id then
      updM (λ st, set_stream_objects (delete key (ms_stream_objects st)) st) ;;;
      updM (λ st, set_stream_object_ids (delete source_id (ms_stream_object_ids st)) st)
    else retM tt
  | None => retM tt
  end.

Definition compact_stream_object (node_id node_epoch : Z)
    (request : CompactStreamObjectRequest) (now_ms : Z) : M MetadataResult :=
  check_node node_id node_epoch ;;;
  let stream_id := cq_stream_id request in
  let object_id := cq_object_id request in
  let real := negb (object_id =? NOOP_OBJECT_ID) in
  committed <- getM (λ st, stream_object_committed st stream_id object_id) ;;
  ensureM (negb (real && committed))
    (Redundant (fmt "compact object {} already committed for stream {}"
       [FInt object_id; FInt stream_id])) ;;;
  stream <- tryM (λ st, require_stream st stream_id) ;;
  let stream_epoch := wrap_i64 (cq_stream_epoch request) in
  ensureM (sr_epoch stream =? stream_epoch)
    (ExpiredEpoch stream_id stream_epoch
       (fmt "stream {} epoch {} is not equal to request {}"
          [FInt stream_id; FInt (sr_epoch stream); FInt (cq_stream_epoch request)])) ;;;
  ensureM (negb (sr_end_offset stream <? cq_end_offset request))
    (end_offset_lesser stream_id (sr_end_offset stream) (cq_end_offset request)) ;;;
  ensureM (negb (cq_start_offset request <? sr_start_offset stream))
    (start_offset_greater stream_id (sr_start_offset stream) (cq_start_offset request)) ;;;
  (if real then tryM (λ st, check_object_id_free st object_id
      (Some (stream_id, cq_start_offset request, object_id)))
   else retM tt) ;;;
  commit_prepared object_id ;;;
  (if real then
     insert_stream_object stream_id object_id (cq_start_offset request)
       (cq_end_offset request) (cq_object_size request) (cq_attributes request) now_ms now_ms
   else retM tt) ;;;
  forM (cq_source_object_ids request) (drop_source_object stream_id) ;;;
  mark_destroy_objects (cq_source_object_ids request) (cq_operations request) ;;;
  retM RUnit.

(** [prepared_by_deadline.range(..=(now_ms, u64::MAX))] has no lower bound. *)
Definition expire_prepared_objects (now_ms : Z) : M MetadataResult :=
  expired <- getM (λ st, filter (λ k : Z * Z, key_le k (now_ms, u64_max))
    (ord_elems (ms_prepared_by_deadline st))) ;;
  forM expired (λ k,
    updM (λ st, set_prepared_by_deadline (ms_prepared_by_deadline st ∖ {[k]}) st) ;;;
    updM (λ st, set_prepared (delete k.2 (ms_prepared st)) st)) ;;;
  retM (RCount (Z.of_nat (length expired))).

Definition clean_destroyed_objects (object_ids : list Z) : M MetadataResult :=
  forM object_ids (λ id,
    seq <- getM (λ st, ms_destroyed_by_id st !! id) ;;
    match seq with
    | Some seq =>
      updM (λ st, set_destroyed_by_id (delete id (ms_destroyed_by_id st)) st) ;;;
      updM (λ st, set_mark_destroyed (delete seq (ms_mark_destroyed st)) st)
    | None => retM tt
    end) ;;;
  retM RUnit.

(** ** Key-value entries *)
Definition put_kv (key : string) (value : list byte) : M MetadataResult :=
  updM (λ st, set_kv (<[key := value]> (ms_kv st)) st) ;;;
  retM (RValue (Some value)).

Definition put_kv_if_absent (key : string) (value : list byte) : M MetadataResult :=
  existing <- getM (λ st, ms_kv st !! key) ;;
  match existing with
  | Some existing => retM (RValue (Some existing))
  | None =>
    updM (λ st, set_kv (<[key := value]> (ms_kv st)) st) ;;;
    retM (RValue (Some value))
  end.

Definition delete_kv (key : string) : M MetadataResult :=
  removed <- getM (λ st, ms_kv st !! key) ;;
  updM (λ st, set_kv (delete key (ms_kv st)) st) ;;;
  retM (RValue removed).

(** ** The transition function *)
Definition apply_inner (command : MetadataCommand) : M MetadataResult :=
  match command with
  | RegisterNode node_id node_epoch http_address slots =>
    register_node node_id node_epoch http_address slots
  | PlaceStream stream_id => place_stream stream_id
  | CreateStream node_id node_epoch => create_stream node_id node_epoch
  | OpenStream node_id node_epoch stream_id epoch =>
    open_stream node_id node_epoch stream_id epoch
  | TrimStream node_id node_epoch stream_id epoch new_start_offset =>
    trim_stream node_id node_epoch stream_id epoch new_start_offset
  | CloseStream node_id node_epoch stream_id epoch =>
    close_stream node_id node_epoch stream_id epoch
  | DeleteStream node_id node_epoch stream_id epoch =>
    delete_stream node_id node_epoch stream_id epoch
  | PrepareObject node_id node_epoch count ttl_ms now_ms =>
    prepare_object node_id node_epoch count ttl_ms now_ms
  | CommitStreamSetObject node_id node_epoch request now_ms =>
    commit_stream_set_object node_id node_epoch request now_ms
  | CompactStreamObject node_id node_epoch request now_ms =>
    compact_stream_object node_id node_epoch request now_ms
  | ExpirePreparedObjects now_ms => expire_prepared_objects now_ms
  | CleanDestroyedObjects object_ids => clean_destroyed_objects object_ids
  | PutKv key value => put_kv key value
  | PutKvIfAbsent key value => put_kv_if_absent key value
  | DeleteKv key => delete_kv key
  | TransferStream stream_id from_node to_node => transfer_stream stream_id from_node to_node
  | CompleteTransfer stream_id epoch => complete_transfer stream_id epoch
  | CreateStreams node_id node_epoch count => create_streams node_id node_epoch count
  end.

(** Works on a clone; a failed command leaves the state as it was. *)
Definition apply (st : MetadataState) (command : MetadataCommand) :
    MetadataState * result MetadataResult MetadataError :=
  match apply_inner command st with
  | (next, Ok result) => (next, Ok result)
  | (_, Err e) => (st, Err e)
  end.

(** Replaying a log: the commands in order, failures skipped. *)
Definition replay (st : MetadataState) (log : list MetadataCommand) : MetadataState :=
  foldl (λ st c, (apply st c).1) st log.
