(* ===== verification/MetaInv.v ===== *)
(** * The invariant of the metadata state

    Every secondary index of [MetadataState] is determined by the primary
    rows, ids are allocated below their counters, and one object id has one
    identity. The invariant is stated field by field, each conjunct over the
    maps it relates, and every operation of [MetaApply] preserves it. *)

From Stdlib Require Import ZArith Lia.
From stdpp Require Import base numbers list sorting gmap strings.
From S2P Require Import Prelude StreamTypes MetaState MetaApply.

Open Scope Z_scope.

(** ** Inverting a successful computation *)
Lemma bindM_Ok_inv {A B} (m : M A) (k : A → M B) st st' b :
  bindM m k st = (st', Ok b) → ∃ a st1, m st = (st1, Ok a) ∧ k a st1 = (st', Ok b).
Proof. unfold bindM. destruct (m st) as [st1 [a|e]]; naive_solver. Qed.

Lemma tryM_Ok_inv {A} (f : MetadataState → result A MetadataError) st st' a :
  tryM f st = (st', Ok a) → st' = st ∧ f st = Ok a.
Proof. unfold tryM. naive_solver. Qed.

Lemma ensureM_Ok_inv b e st st' u :
  ensureM b e st = (st', Ok u) → st' = st ∧ b = true.
Proof. unfold ensureM, retM, failM. destruct b; naive_solver. Qed.

Lemma retM_Ok_inv {A} (b : A) st st' a : retM b st = (st', Ok a) → st' = st ∧ a = b.
Proof. unfold retM. naive_solver. Qed.

Lemma getM_Ok_inv {A} (f : MetadataState → A) st st' a :
  getM f st = (st', Ok a) → st' = st ∧ a = f st.
Proof. unfold getM. naive_solver. Qed.

Lemma updM_Ok_inv f st st' u : updM f st = (st', Ok u) → st' = f st ∧ u = tt.
Proof. unfold updM. naive_solver. Qed.

(** Turns the boolean guards of the source into propositions. *)
Ltac bsimp :=
  repeat match goal with
  | H : andb _ _ = true |- _ => apply andb_true_iff in H as [? ?]
  | H : andb _ _ = false |- _ => apply andb_false_iff in H
  | H : negb _ = true |- _ => apply negb_true_iff in H
  | H : negb _ = false |- _ => apply negb_false_iff in H
  | H : orb _ _ = false |- _ => apply orb_false_iff in H as [? ?]
  | H : bool_decide _ = true |- _ => apply bool_decide_eq_true in H
  | H : bool_decide _ = false |- _ => apply bool_decide_eq_false in H
  | H : (_ =? _) = true |- _ => apply Z.eqb_eq in H
  | H : (_ =? _) = false |- _ => apply Z.eqb_neq in H
  | H : (_ <? _) = true |- _ => apply Z.ltb_lt in H
  | H : (_ <? _) = false |- _ => apply Z.ltb_ge in H
  | H : (_ <=? _) = true |- _ => apply Z.leb_le in H
  | H : (_ <=? _) = false |- _ => apply Z.leb_gt in H
  end.

(** Eliminates the fresh state (and result) named by an inversion lemma. *)
Ltac msubst H :=
  let H1 := fresh "Hst" in
  destruct H as [H1 H];
  lazymatch type of H1 with ?x = _ => subst x end;
  try (lazymatch type of H with ?x = _ => is_var x; subst x end).

(** Runs a hypothesis [m st = (st', Ok r)] through the monad, leaving the
    guards it passed and the final state as a nest of field assignments. *)
Ltac minv H :=
  lazymatch type of H with
  | bindM _ _ _ = (_, Ok _) =>
    let a := fresh "a" in let st1 := fresh "st1" in let H1 := fresh "Hm" in
    apply bindM_Ok_inv in H; destruct H as (a & st1 & H1 & H); minv H1; try minv H
  | retM _ _ = (_, Ok _) => apply retM_Ok_inv in H; msubst H
  | getM _ _ = (_, Ok _) => apply getM_Ok_inv in H; msubst H
  | updM _ _ = (_, Ok _) => apply updM_Ok_inv in H; msubst H
  | failM _ _ = (_, Ok _) => discriminate H
  | tryM _ _ = (_, Ok _) => apply tryM_Ok_inv in H; msubst H
  | ensureM _ _ _ = (_, Ok _) => apply ensureM_Ok_inv in H; msubst H
  | check_node _ _ _ = (_, Ok _) => unfold check_node in H; minv H
  | put_stream _ _ _ = (_, Ok _) => unfold put_stream in H; minv H
  | context [match ?x with _ => _ end] => destruct x eqn:?; try discriminate H; try minv H
  | _ => idtac
  end.

(** ** Loops *)
Lemma forM_ind {A} (I : list A → MetadataState → Prop) (body : A → M unit) xs st st' u :
  (∀ x xs st st' u, I (x :: xs) st → body x st = (st', Ok u) → I xs st') →
  I xs st → forM xs body st = (st', Ok u) → I [] st'.
Proof.
  intros Hstep. revert st. induction xs as [|x xs IH]; intros st HI H; cbn [forM] in H.
  - by minv H.
  - apply bindM_Ok_inv in H as (a & st1 & H1 & H). eapply IH; [|exact H]. eapply Hstep; eauto.
Qed.

(** The same with the membership of the element, for a fixed invariant. *)
Lemma forM_inv {A} (I : MetadataState → Prop) (body : A → M unit) xs st st' u :
  (∀ x st st' u, x ∈ xs → I st → body x st = (st', Ok u) → I st') →
  I st → forM xs body st = (st', Ok u) → I st'.
Proof.
  intros Hstep HI H.
  pose proof (forM_ind (λ l st, (∀ x, x ∈ l → x ∈ xs) ∧ I st) body xs st st' u) as Hind.
  apply Hind; [|done|exact H].
  intros x l s s' u' [Hsub HI'] Hb. split.
  - intros y Hy. apply Hsub. by right.
  - eapply Hstep; [|exact HI'|exact Hb]. apply Hsub. by left.
Qed.

(** A loop that only assigns always succeeds, with a closed form. *)
Lemma forM_updM {A} (f : A → MetadataState → MetadataState) xs st :
  forM xs (λ x, updM (f x)) st = (foldl (λ st x, f x st) st xs, Ok tt).
Proof. revert st. induction xs as [|x xs IH]; intros st; [done|]. apply IH. Qed.

Lemma foldl_set_sso_ranges {A} (g : A → gmap StreamOffsetKey Z → gmap StreamOffsetKey Z) xs st :
  foldl (λ st x, set_sso_ranges (g x (ms_sso_ranges st)) st) st xs =
  set_sso_ranges (foldl (λ m x, g x m) (ms_sso_ranges st) xs) st.
Proof. revert st. induction xs as [|x xs IH]; intros []; [done|]. cbn [foldl]. by rewrite IH. Qed.

Lemma foldl_set_placed {A} (g : A → gset (Z * Z) → gset (Z * Z)) xs st :
  foldl (λ st x, set_placed_by_node (g x (ms_placed_by_node st)) st) st xs =
  set_placed_by_node (foldl (λ m x, g x m) (ms_placed_by_node st) xs) st.
Proof. revert st. induction xs as [|x xs IH]; intros []; [done|]. cbn [foldl]. by rewrite IH. Qed.

Lemma foldl_set_streams {A} (g : A → gmap Z StreamRow → gmap Z StreamRow) xs st :
  foldl (λ st x, set_streams (g x (ms_streams st)) st) st xs =
  set_streams (foldl (λ m x, g x m) (ms_streams st) xs) st.
Proof. revert st. induction xs as [|x xs IH]; intros []; [done|]. cbn [foldl]. by rewrite IH. Qed.

(** ** The conjuncts of the invariant *)
Definition row_typed (id : Z) (row : StreamRow) : Prop :=
  sr_stream_id row = id ∧ is_i64 (sr_epoch row) ∧ is_u64 (sr_start_offset row) ∧
  is_u64 (sr_end_offset row) ∧ is_i32 (sr_node_id row).

Definition streams_ok (next : Z) (streams : gmap Z StreamRow) : Prop :=
  is_u64 next ∧
  ∀ id row, streams !! id = Some row →
    row_typed id row ∧ 0 <= id < next ∧ -1 <= sr_epoch row ∧
    (sr_state row = Opened → 0 <= sr_epoch row).

Definition nodes_ok (nodes : gmap Z NodeRow) : Prop :=
  ∀ n row, nodes !! n = Some row →
    nr_node_id row = n ∧ n ≠ -1 ∧ is_i32 n ∧ is_i64 (nr_epoch row) ∧
    string_ok (nr_http_address row) ∧ is_u32 (nr_slots row).

(** [(n, s)] is in the index iff stream [s] is opened on node [n]. *)
Definition opening_ok (streams : gmap Z StreamRow) (opening : gset (Z * Z)) : Prop :=
  ∀ n s, (n, s) ∈ opening ↔
    ∃ row, streams !! s = Some row ∧ sr_state row = Opened ∧ sr_node_id row = n.

(** A stream that was assigned to a node and never opened. *)
Definition is_placed (row : StreamRow) : Prop :=
  sr_state row = Closed ∧ sr_epoch row = -1 ∧ sr_node_id row ≠ -1.

Definition placed_ok (streams : gmap Z StreamRow) (placed : gset (Z * Z)) : Prop :=
  ∀ n s, (n, s) ∈ placed ↔
    ∃ row, streams !! s = Some row ∧ is_placed row ∧ sr_node_id row = n.

Definition pending_ok (streams : gmap Z StreamRow) (pending : gmap Z PendingTransfer) : Prop :=
  ∀ s p, pending !! s = Some p →
    is_i32 (pt_from_node p) ∧ is_i32 (pt_to_node p) ∧ pt_from_node p ≠ pt_to_node p ∧
    ∃ row, streams !! s = Some row ∧ 0 <= sr_epoch row.

Definition prepared_ok (next : Z) (prepared : gmap Z Z) (by_deadline : gset (Z * Z)) : Prop :=
  is_u64 next ∧
  (∀ d id, (d, id) ∈ by_deadline ↔ prepared !! id = Some d) ∧
  ∀ id d, prepared !! id = Some d → 0 <= id < next ∧ is_i64 d.

(** The end offset recorded for [(s, a)]: the last matching range wins. *)
Definition range_end_step (s a : Z) (acc : option Z) (r : StreamOffsetRange) : option Z :=
  if (sor_stream_id r =? s) && (sor_start_offset r =? a) then Some (sor_end_offset r) else acc.
Definition range_end (s a : Z) (ranges : list StreamOffsetRange) : option Z :=
  foldl (range_end_step s a) None ranges.

Definition sso_ok (sso : gmap Z StreamSetObjectRow) (ranges : gmap StreamOffsetKey Z)
    (by_node : gset (Z * Z)) : Prop :=
  (∀ o row, sso !! o = Some row →
     om_object_id (ssr_object row) = o ∧ om_object_type (ssr_object row) = StreamSet ∧
     object_typed (ssr_object row) ∧ is_i32 (ssr_node_id row)) ∧
  (∀ s a o, ranges !! (s, a, o) =
     row ← sso !! o; range_end s a (om_offset_ranges (ssr_object row))) ∧
  (∀ n o, (n, o) ∈ by_node ↔ ∃ row, sso !! o = Some row ∧ ssr_node_id row = n).

Definition stream_object_row_ok (key : StreamOffsetKey) (row : StreamObjectRow) : Prop :=
  let '(s, a, o) := key in
  om_object_id (sjr_object row) = o ∧ om_object_type (sjr_object row) = StreamObj ∧
  object_typed (sjr_object row) ∧
  ∃ e, om_offset_ranges (sjr_object row) =
    [{| sor_stream_id := s; sor_start_offset := a; sor_end_offset := e |}].

Definition so_ok (objects : gmap StreamOffsetKey StreamObjectRow)
    (ids : gmap Z StreamOffsetKey) : Prop :=
  (∀ key row, objects !! key = Some row →
     stream_object_row_ok key row ∧ ids !! key.2 = Some key) ∧
  (∀ o key, ids !! o = Some key → key.2 = o ∧ is_Some (objects !! key)).

Definition disjoint_ok (sso : gmap Z StreamSetObjectRow) (ids : gmap Z StreamOffsetKey) : Prop :=
  ∀ o, is_Some (ids !! o) → sso !! o = None.

Definition destroyed_ok (next : Z) (mark : gmap Z (Z * CompactOperations))
    (by_id : gmap Z Z) : Prop :=
  is_u64 next ∧
  (∀ o seq, by_id !! o = Some seq ↔ ∃ op, mark !! seq = Some (o, op)) ∧
  ∀ seq o op, mark !! seq = Some (o, op) → 0 <= seq < next ∧ is_u64 o.

Definition kv_ok (kv : gmap string (list byte)) : Prop :=
  ∀ k v, kv !! k = Some v → string_ok k ∧ fits_u32 v.

Record Inv (st : MetadataState) : Prop := {
  inv_streams : streams_ok (ms_next_stream_id st) (ms_streams st);
  inv_nodes : nodes_ok (ms_nodes st);
  inv_opening : opening_ok (ms_streams st) (ms_opening_by_node st);
  inv_placed : placed_ok (ms_streams st) (ms_placed_by_node st);
  inv_pending : pending_ok (ms_streams st) (ms_pending_transfers st);
  inv_prepared : prepared_ok (ms_next_object_id st) (ms_prepared st) (ms_prepared_by_deadline st);
  inv_sso : sso_ok (ms_stream_set_objects st) (ms_sso_ranges st) (ms_sso_by_node st);
  inv_so : so_ok (ms_stream_objects st) (ms_stream_object_ids st);
  inv_disjoint : disjoint_ok (ms_stream_set_objects st) (ms_stream_object_ids st);
  inv_destroyed : destroyed_ok (ms_next_destroyed_seq st) (ms_mark_destroyed st)
    (ms_destroyed_by_id st);
  inv_kv : kv_ok (ms_kv st);
}.

(** Names the conjuncts of an invariant hypothesis. *)
Ltac dinv H := destruct H as [Ist Ino Iop Ipl Ipe Ipr Iss Iso Idi Ide Ikv].

(** The initial state satisfies it. *)
Lemma Inv_new_state : Inv new_state.
Proof.
  split; cbn; unfold streams_ok, nodes_ok, opening_ok, placed_ok, pending_ok, prepared_ok,
    sso_ok, so_ok, disjoint_ok, destroyed_ok, kv_ok;
    repeat split; intros; try int_lia; try set_solver;
    try (rewrite lookup_empty in *; naive_solver);
    try (setoid_rewrite lookup_empty in H; naive_solver).
Qed.

(** ** Rows that keep their owner

    The indexes over streams only look at the state, epoch and owner of a
    row. *)
Definition row_view (row : StreamRow) : StreamState * Z * Z :=
  (sr_state row, sr_epoch row, sr_node_id row).

Definition same_view (streams streams' : gmap Z StreamRow) : Prop :=
  ∀ s, row_view <$> streams !! s = row_view <$> streams' !! s.

Lemma same_view_refl streams : same_view streams streams.
Proof. by intros s. Qed.

Lemma same_view_trans s1 s2 s3 : same_view s1 s2 → same_view s2 s3 → same_view s1 s3.
Proof. intros H1 H2 s. by rewrite H1. Qed.

Lemma same_view_insert streams s row row' :
  streams !! s = Some row → row_view row = row_view row' →
  same_view streams (<[s := row']> streams).
Proof.
  intros Hs Hv s'. destruct (decide (s = s')) as [<-|].
  - rewrite lookup_insert_eq, Hs. cbn. by rewrite Hv.
  - by rewrite lookup_insert_ne.
Qed.

Lemma same_view_Some streams streams' s row' :
  same_view streams streams' → streams' !! s = Some row' →
  ∃ row, streams !! s = Some row ∧ sr_state row = sr_state row' ∧
    sr_epoch row = sr_epoch row' ∧ sr_node_id row = sr_node_id row'.
Proof.
  intros Hv Hs. specialize (Hv s). rewrite Hs in Hv. cbn in Hv.
  destruct (streams !! s) as [row|]; [|done]. unfold row_view in Hv. cbn in Hv.
  exists row. naive_solver.
Qed.

Lemma same_view_sym streams streams' : same_view streams streams' → same_view streams' streams.
Proof. intros H s. by rewrite H. Qed.

Lemma opening_ok_view streams streams' o :
  same_view streams streams' → opening_ok streams o → opening_ok streams' o.
Proof.
  intros Hv Ho n s. rewrite (Ho n s). split; intros (row & Hr & H1 & H2);
    [apply same_view_sym in Hv|]; eapply same_view_Some in Hr as (r & ? & ? & ? & ?); eauto;
    exists r; naive_solver congruence.
Qed.

Lemma placed_ok_view streams streams' p :
  same_view streams streams' → placed_ok streams p → placed_ok streams' p.
Proof.
  intros Hv Ho n s. rewrite (Ho n s). unfold is_placed.
  split; intros (row & Hr & H1 & H2);
    [apply same_view_sym in Hv|]; eapply same_view_Some in Hr as (r & ? & Hs & He & Hn); eauto;
    exists r; rewrite Hs, He, Hn; naive_solver.
Qed.

Lemma pending_ok_view streams streams' p :
  same_view streams streams' → pending_ok streams p → pending_ok streams' p.
Proof.
  intros Hv Hp s q Hq. destruct (Hp s q Hq) as (? & ? & ? & row & Hr & ?).
  apply same_view_sym in Hv. eapply same_view_Some in Hr as (r & ? & ? & ? & ?); eauto.
  split_and!; auto. exists r. split; [done|lia].
Qed.

Lemma streams_ok_insert next streams id row :
  streams_ok next streams → row_typed id row → 0 <= id < next → -1 <= sr_epoch row →
  (sr_state row = Opened → 0 <= sr_epoch row) →
  streams_ok next (<[id := row]> streams).
Proof.
  intros [Hn Hs] ????. split; [done|]. intros id' row' [[<- <-]|[? ?]]%lookup_insert_Some; auto.
Qed.

(** Replaces a row by one with the same owner, epoch and state. *)
Lemma Inv_update_row st s row row' :
  Inv st → ms_streams st !! s = Some row → row_view row = row_view row' → row_typed s row' →
  Inv (set_streams (<[s := row']> (ms_streams st)) st).
Proof.
  intros HI Hs Hv Ht. dinv HI.
  assert (same_view (ms_streams st) (<[s := row']> (ms_streams st))) by by eapply same_view_insert.
  pose proof (proj2 Ist s row Hs) as (? & ? & ? & ?).
  unfold row_view in Hv. injection Hv as Hst Hep Hnd.
  split; ms_simpl; eauto using opening_ok_view, placed_ok_view, pending_ok_view.
  apply streams_ok_insert; auto; rewrite <-?Hst, <-?Hep; auto.
Qed.

(** ** Node operations *)
Lemma require_stream_inv st s row :
  require_stream st s = Ok row → ms_streams st !! s = Some row.
Proof. unfold require_stream. destruct (ms_streams st !! s); naive_solver. Qed.

Lemma require_opened_stream_inv st s ep row :
  require_opened_stream st s ep = Ok row →
  ms_streams st !! s = Some row ∧ sr_state row = Opened ∧ sr_epoch row = ep.
Proof.
  unfold require_opened_stream. intros H. inv_rbind H. apply require_stream_inv in Hr.
  repeat case_match; simplify_eq. bsimp. destruct (decide (sr_state row = Opened)); naive_solver.
Qed.

Lemma register_node_Inv n e addr slots st st' r :
  is_i32 n → is_i64 e → string_ok addr → is_u32 slots → n ≠ -1 →
  Inv st → register_node n e addr slots st = (st', Ok r) → Inv st'.
Proof.
  intros ????? HI H. dinv HI. unfold register_node in H. minv H; split; ms_simpl; auto;
    intros n' row [[<- <-]|[? ?]]%lookup_insert_Some; auto; cbn; split_and!; auto;
    destruct addr; auto; by apply (Ino n).
Qed.

(** ** Stream operations *)
Lemma opening_ok_insert streams o o' s new :
  opening_ok streams o →
  (∀ n s', s' ≠ s → (n, s') ∈ o' ↔ (n, s') ∈ o) →
  (∀ n, (n, s) ∈ o' ↔ sr_state new = Opened ∧ sr_node_id new = n) →
  opening_ok (<[s := new]> streams) o'.
Proof.
  intros Ho Hne Hs n s'. destruct (decide (s' = s)) as [->|Hn].
  - rewrite Hs. rewrite lookup_insert_eq. naive_solver.
  - rewrite Hne, (Ho n s') by done. by rewrite lookup_insert_ne.
Qed.

Lemma placed_ok_insert streams p p' s new :
  placed_ok streams p →
  (∀ n s', s' ≠ s → (n, s') ∈ p' ↔ (n, s') ∈ p) →
  (∀ n, (n, s) ∈ p' ↔ is_placed new ∧ sr_node_id new = n) →
  placed_ok (<[s := new]> streams) p'.
Proof.
  intros Ho Hne Hs n s'. destruct (decide (s' = s)) as [->|Hn].
  - rewrite Hs. rewrite lookup_insert_eq. naive_solver.
  - rewrite Hne, (Ho n s') by done. by rewrite lookup_insert_ne.
Qed.

Lemma pending_ok_insert streams p s new :
  pending_ok streams p → (is_Some (p !! s) → 0 <= sr_epoch new) →
  pending_ok (<[s := new]> streams) p.
Proof.
  intros Hp Hs s' q Hq. destruct (Hp s' q Hq) as (? & ? & ? & row & Hr & ?).
  split_and!; auto. destruct (decide (s = s')) as [<-|].
  - exists new. rewrite lookup_insert_eq. eauto.
  - exists row. by rewrite lookup_insert_ne.
Qed.

(** What the indexes say about the row of one stream. *)
Lemma opening_at st s row n :
  Inv st → ms_streams st !! s = Some row →
  (n, s) ∈ ms_opening_by_node st ↔ sr_state row = Opened ∧ sr_node_id row = n.
Proof. intros HI Hs. dinv HI. rewrite (Iop n s), Hs. naive_solver. Qed.

Lemma placed_at st s row n :
  Inv st → ms_streams st !! s = Some row →
  (n, s) ∈ ms_placed_by_node st ↔ is_placed row ∧ sr_node_id row = n.
Proof. intros HI Hs. dinv HI. rewrite (Ipl n s), Hs. naive_solver. Qed.

Lemma opening_fresh st s n :
  Inv st → ms_streams st !! s = None → (n, s) ∉ ms_opening_by_node st.
Proof. intros HI Hs. dinv HI. rewrite (Iop n s), Hs. naive_solver. Qed.

Lemma placed_fresh st s n :
  Inv st → ms_streams st !! s = None → (n, s) ∉ ms_placed_by_node st.
Proof. intros HI Hs. dinv HI. rewrite (Ipl n s), Hs. naive_solver. Qed.

Lemma row_facts st s row :
  Inv st → ms_streams st !! s = Some row →
  row_typed s row ∧ 0 <= s < ms_next_stream_id st ∧ -1 <= sr_epoch row ∧
  (sr_state row = Opened → 0 <= sr_epoch row).
Proof. intros [[_ H]] Hs. by apply H. Qed.

Lemma streams_ok_next next next' streams :
  streams_ok next streams → next <= next' → is_u64 next' → streams_ok next' streams.
Proof.
  intros [_ H] ??. split; [done|]. intros id row Hr. destruct (H id row Hr) as (? & ? & ? & ?).
  split_and!; auto; lia.
Qed.

Lemma fresh_row_typed id : row_typed id (fresh_row id).
Proof. unfold row_typed, fresh_row. cbn. split_and!; auto; int_lia. Qed.

(** Adds the next stream. *)
Lemma Inv_fresh_stream st :
  Inv st → ms_next_stream_id st + 1 < two64 →
  Inv (set_streams (<[ms_next_stream_id st := fresh_row (ms_next_stream_id st)]> (ms_streams st))
        (set_next_stream_id (ms_next_stream_id st + 1) st)).
Proof.
  intros HI Hroom. set (s := ms_next_stream_id st).
  assert (Hnone : ms_streams st !! s = None).
  { destruct (ms_streams st !! s) as [row|] eqn:Hr; [|done].
    destruct (row_facts _ _ _ HI Hr) as (_ & ? & _). subst s. lia. }
  pose proof (λ n, opening_fresh st s n HI Hnone) as Hof.
  pose proof (λ n, placed_fresh st s n HI Hnone) as Hpf.
  dinv HI. destruct (Ist) as [Hu64 _].
  split; ms_simpl; auto.
  - apply streams_ok_insert; [|apply fresh_row_typed|int_lia|cbn; lia|by cbn].
    eapply streams_ok_next; eauto; int_lia.
  - eapply opening_ok_insert; [done|done|]. intros n. cbn. specialize (Hof n). naive_solver.
  - eapply placed_ok_insert; [done|done|]. intros n. cbn. specialize (Hpf n).
    unfold is_placed; cbn. naive_solver.
  - apply pending_ok_insert; [done|]. intros [q Hq].
    destruct (Ipe s q Hq) as (_ & _ & _ & row & Hr & _). congruence.
Qed.

Lemma create_stream_Inv n e st st' r :
  Inv st → ms_next_stream_id st + 1 < two64 →
  create_stream n e st = (st', Ok r) → Inv st'.
Proof.
  intros HI Hroom H. unfold create_stream in H. minv H.
  destruct (inv_streams _ HI) as [[] _].
  rewrite wrap_u64_id by int_lia. by apply (Inv_fresh_stream st).
Qed.

(** The batched create is the single one repeated. *)
Lemma create_loop_Inv (count : nat) st :
  Inv st → ms_next_stream_id st + Z.of_nat count < two64 →
  Inv (set_next_stream_id (ms_next_stream_id st + Z.of_nat count)
    (set_streams (foldl (λ m s, <[s := fresh_row s]> m) (ms_streams st)
      (seqZ (ms_next_stream_id st) (Z.of_nat count))) st)).
Proof.
  revert st. induction count as [|count IH]; intros st HI Hroom.
  - rewrite Z.add_0_r. by destruct st.
  - rewrite seqZ_cons by lia. cbn [foldl].
    pose proof (Inv_fresh_stream st HI ltac:(lia)) as HI'.
    specialize (IH _ HI' ltac:(cbn; lia)). cbn in IH.
    replace (Z.pred (Z.of_nat (S count))) with (Z.of_nat count) by lia.
    replace (Z.succ (ms_next_stream_id st)) with (ms_next_stream_id st + 1) by lia.
    replace (ms_next_stream_id st + Z.of_nat (S count))
      with (ms_next_stream_id st + 1 + Z.of_nat count) by lia.
    exact IH.
Qed.

Lemma create_streams_Inv n e count st st' r :
  Inv st → is_u32 count → ms_next_stream_id st + count < two64 →
  create_streams n e count st = (st', Ok r) → Inv st'.
Proof.
  intros HI Hc Hroom H. unfold create_streams, put_stream in H. minv H.
  match goal with Hf : forM _ _ _ = _ |- _ =>
    rewrite forM_updM, (foldl_set_streams (λ s m, <[s := fresh_row s]> m)) in Hf;
    injection Hf as <- end.
  destruct (inv_streams _ HI) as [[] _].
  assert (Hw : wrap_u64 (ms_next_stream_id st + count) = ms_next_stream_id st + count)
    by (apply wrap_u64_id; int_lia).
  rewrite Hw in *. unfold range_u64.
  replace (ms_next_stream_id st + count - ms_next_stream_id st) with (Z.of_nat (Z.to_nat count))
    by int_lia.
  pose proof (create_loop_Inv (Z.to_nat count) st HI ltac:(int_lia)) as HI'.
  by replace (Z.of_nat (Z.to_nat count)) with count in * by int_lia.
Qed.

(** Turns the row a helper returned into a lookup, and names it. *)
Ltac use_row :=
  match goal with Hr : require_stream _ _ = Ok ?r |- _ =>
    apply require_stream_inv in Hr as Hs; rename r into row end.
Ltac use_opened_row :=
  match goal with Hr : require_opened_stream _ _ _ = Ok ?r |- _ =>
    apply require_opened_stream_inv in Hr as (Hs & Hopened & Hepoch); rename r into row end.

(** The winner of the placement loop is a registered node with slots. *)
Lemma place_foldl_elem st l acc w sc :
  foldl (place_step st) acc l = Some (w, sc) →
  acc = Some (w, sc) ∨
  ∃ node, (w, node) ∈ l ∧ 1 <= nr_slots node ∧ sc = node_score st w (nr_slots node).
Proof.
  revert acc. induction l as [|[n node] l IH]; intros acc H; [by left|].
  cbn [foldl] in H. apply IH in H as [H|(node' & ? & ? & ?)].
  - unfold place_step in H. repeat case_match; simplify_eq; bsimp; auto;
      right; exists node; (split_and!; [set_solver|lia|done]).
  - right. exists node'. split_and!; auto. set_solver.
Qed.

Lemma place_winner_elem st w sc :
  place_winner st = Some (w, sc) →
  ∃ node, ms_nodes st !! w = Some node ∧ 1 <= nr_slots node ∧
    sc = node_score st w (nr_slots node).
Proof.
  unfold place_winner. intros H.
  apply place_foldl_elem in H as [H|(node & Hin & ? & ?)]; [discriminate|].
  exists node. by rewrite <-elem_of_ord_list.
Qed.

Lemma place_stream_Inv s st st' r :
  Inv st → place_stream s st = (st', Ok r) → Inv st'.
Proof.
  intros HI H. unfold place_stream in H. minv H; [done|].
  use_row.
  bsimp.
  match goal with Hw : place_winner _ = _ |- _ =>
    apply place_winner_elem in Hw as (node & Hnode & _ & _) end.
  pose proof (row_facts _ _ _ HI Hs) as ((? & ? & ? & ? & ?) & ? & ? & ?).
  pose proof (λ n, opening_at st s row n HI Hs) as Hop.
  pose proof (λ n, placed_at st s row n HI Hs) as Hpl.
  dinv HI. destruct (Ino _ _ Hnode) as (? & ? & ? & ? & ? & ?).
  split; ms_simpl; auto.
  - apply streams_ok_insert; unfold row_typed, with_node_id; cbn; auto.
  - eapply opening_ok_insert; [done|done|]. intros n. cbn. rewrite Hop.
    split; intros [? _]; congruence.
  - eapply placed_ok_insert; [done|clear; set_solver|]. intros n. unfold is_placed in *; cbn.
    rewrite elem_of_union, elem_of_singleton, Hpl. split.
    + intros [[= ->]|[(_ & _ & ?) _]]; [auto|congruence].
    + intros [_ ->]. by left.
  - apply pending_ok_insert; [done|]. intros [q Hq].
    destruct (Ipe s q Hq) as (_ & _ & _ & row' & Hr & ?). simplify_eq. lia.
Qed.

Lemma open_stream_Inv n e s ep st st' r :
  is_i32 n → is_i64 ep → Inv st → open_stream n e s ep st = (st', Ok r) → Inv st'.
Proof.
  intros Hn Hep HI H. unfold open_stream in H. minv H; [done|].
  use_row.
  bsimp.
  pose proof (row_facts _ _ _ HI Hs) as ((? & ? & ? & ? & ?) & ? & ? & ?).
  pose proof (λ n, opening_at st s row n HI Hs) as Hop.
  pose proof (λ n, placed_at st s row n HI Hs) as Hpl.
  dinv HI. split; ms_simpl; auto.
  - apply streams_ok_insert; unfold row_typed, opened_row; cbn; auto; lia.
  - eapply opening_ok_insert; [done|clear; set_solver|]. intros n'. cbn.
    rewrite elem_of_union, elem_of_singleton, Hop. split.
    + intros [[= ->]|[? _]]; [auto|congruence].
    + intros [_ ->]. by left.
  - eapply placed_ok_insert; [done|clear; set_solver|]. intros n'. unfold is_placed in *; cbn.
    rewrite elem_of_difference, elem_of_singleton, Hpl. split.
    + intros [[_ <-] []]. done.
    + intros [[? _] _]. congruence.
  - apply pending_ok_insert; [done|]. intros _. cbn. lia.
Qed.

Lemma trim_stream_Inv n e s ep off st st' r :
  is_u64 off → Inv st → trim_stream n e s ep off st = (st', Ok r) → Inv st'.
Proof.
  intros Hoff HI H. unfold trim_stream in H. minv H.
  use_opened_row.
  pose proof (row_facts _ _ _ HI Hs) as ((? & ? & ? & ? & ?) & _).
  eapply Inv_update_row; eauto. unfold row_typed; cbn; auto.
Qed.

Lemma close_stream_Inv n e s ep st st' r :
  Inv st → close_stream n e s ep st = (st', Ok r) → Inv st'.
Proof.
  intros HI H. unfold close_stream in H. minv H; [done|].
  use_row.
  bsimp. destruct (decide (sr_state row = Opened)) as [Ho|]; [|done].
  pose proof (row_facts _ _ _ HI Hs) as ((? & ? & ? & ? & ?) & ? & ? & Hge). specialize (Hge Ho).
  pose proof (λ n, opening_at st s row n HI Hs) as Hop.
  pose proof (λ n, placed_at st s row n HI Hs) as Hpl.
  dinv HI. split; ms_simpl; auto.
  - apply streams_ok_insert; unfold row_typed, closed_row; cbn; auto.
  - eapply opening_ok_insert; [done|clear; set_solver|]. intros n'. cbn.
    rewrite elem_of_difference, elem_of_singleton, Hop. split.
    + intros [[_ <-] []]. done.
    + intros [? _]. congruence.
  - eapply placed_ok_insert; [done|done|]. intros n'. rewrite Hpl.
    unfold is_placed; cbn. split; intros ((? & ? & _) & _); [congruence|lia].
  - apply pending_ok_insert; [done|]. intros _. cbn. auto.
Qed.

Lemma transfer_stream_Inv s f t st st' r :
  is_i32 f → is_i32 t → Inv st → transfer_stream s f t st = (st', Ok r) → Inv st'.
Proof.
  intros Hf Ht HI H. unfold transfer_stream in H. minv H; [done|].
  use_row.
  bsimp. pose proof (row_facts _ _ _ HI Hs) as (_ & _ & _ & ?).
  dinv HI. split; ms_simpl; auto.
  intros s' q [[<- <-]|[? ?]]%lookup_insert_Some; auto. cbn. split_and!; auto. eauto.
Qed.

Lemma complete_transfer_Inv s ep st st' r :
  Inv st → complete_transfer s ep st = (st', Ok r) → Inv st'.
Proof.
  intros HI H. unfold complete_transfer in H. minv H.
  use_row.
  bsimp.
  pose proof (row_facts _ _ _ HI Hs) as ((? & ? & ? & ? & ?) & ? & ? & ?).
  pose proof (λ n, opening_at st s row n HI Hs) as Hop.
  pose proof (λ n, placed_at st s row n HI Hs) as Hpl.
  dinv HI. destruct (Ipe _ _ Heqo) as (? & ? & ? & row' & Hr & Hge). simplify_eq.
  split; ms_simpl; auto.
  - apply streams_ok_insert; unfold row_typed, with_node_id; cbn; auto.
  - eapply opening_ok_insert; [done|done|]. intros n. cbn. rewrite Hop.
    split; intros [? _]; congruence.
  - eapply placed_ok_insert; [done|done|]. intros n. rewrite Hpl. unfold is_placed; cbn.
    split; intros ((_ & ? & _) & _); lia.
  - apply pending_ok_insert; [|intros _; cbn; lia].
    intros s' q Hq. apply Ipe. by apply lookup_delete_Some in Hq as [_ ?].
Qed.

(** ** The destroyed-object queue *)
Lemma destroyed_ok_remark next mark by_id o seq op :
  destroyed_ok next mark by_id → by_id !! o = Some seq →
  destroyed_ok next (<[seq := (o, op)]> mark) by_id.
Proof.
  intros (Hn & Hiff & Hm) Hseq. destruct (proj1 (Hiff o seq) Hseq) as [op0 Hop0].
  destruct (Hm _ _ _ Hop0) as [Hs Ho].
  split_and!; [done| |].
  - intros o' seq'. destruct (decide (seq = seq')) as [<-|Hne].
    + rewrite lookup_insert_eq. rewrite Hiff, Hop0. naive_solver.
    + by rewrite lookup_insert_ne.
  - intros seq' o' op' [[<- [= <- <-]]|[_ ?]]%lookup_insert_Some; eauto.
Qed.

Lemma destroyed_ok_push next mark by_id o op :
  destroyed_ok next mark by_id → by_id !! o = None → is_u64 o → next + 1 < two64 →
  destroyed_ok (next + 1) (<[next := (o, op)]> mark) (<[o := next]> by_id).
Proof.
  intros (Hn & Hiff & Hm) Hnone Ho Hroom.
  assert (Hfresh : mark !! next = None).
  { destruct (mark !! next) as [[o' op']|] eqn:E; [|done].
    destruct (Hm _ _ _ E) as [? _]. lia. }
  split_and!; [int_lia| |].
  - intros o' seq'. destruct (decide (o = o')) as [<-|Hne].
    + rewrite lookup_insert_eq. destruct (decide (next = seq')) as [<-|].
      * rewrite lookup_insert_eq. naive_solver.
      * rewrite lookup_insert_ne by done. rewrite <-Hiff, Hnone. naive_solver.
    + rewrite lookup_insert_ne by done. rewrite Hiff. destruct (decide (next = seq')) as [<-|].
      * rewrite lookup_insert_eq, Hfresh. naive_solver.
      * by rewrite lookup_insert_ne.
  - intros seq' o' op' [[<- [= <- <-]]|[_ Hs]]%lookup_insert_Some.
    + destruct Hn. split; [lia|done].
    + destruct (Hm _ _ _ Hs). split; [lia|done].
Qed.

(** Marking touches the queue only, and marks exactly [o]. *)
Lemma mark_destroyed_spec o op st st' u :
  mark_destroyed o op st = (st', Ok u) →
  ∃ mark by_id next,
    st' = set_next_destroyed_seq next (set_destroyed_by_id by_id (set_mark_destroyed mark st)) ∧
    (∀ o', is_Some (by_id !! o') ↔ o' = o ∨ is_Some (ms_destroyed_by_id st !! o')) ∧
    (destroyed_ok (ms_next_destroyed_seq st) (ms_mark_destroyed st) (ms_destroyed_by_id st) →
     is_u64 o → ms_next_destroyed_seq st + 1 < two64 →
     destroyed_ok next mark by_id ∧ next <= ms_next_destroyed_seq st + 1).
Proof.
  intros H. unfold mark_destroyed in H. minv H.
  - exists (<[z := (o, op)]> (ms_mark_destroyed st)), (ms_destroyed_by_id st),
      (ms_next_destroyed_seq st).
    split_and!; [reflexivity| |].
    + intros o'. split; [auto|]. intros [->|?]; eauto.
    + intros ???. split; [by apply destroyed_ok_remark|lia].
  - exists (<[ms_next_destroyed_seq st := (o, op)]> (ms_mark_destroyed st)),
      (<[o := ms_next_destroyed_seq st]> (ms_destroyed_by_id st)),
      (wrap_u64 (ms_next_destroyed_seq st + 1)).
    split_and!; [reflexivity| |].
    + intros o'. ms_simpl. destruct (decide (o = o')) as [<-|].
      * rewrite lookup_insert_eq. naive_solver.
      * rewrite lookup_insert_ne by done. naive_solver.
    + intros Hd Ho Hroom. ms_simpl. rewrite wrap_u64_id by (destruct Hd as [[] _]; int_lia).
      split; [by apply destroyed_ok_push|lia].
Qed.

Lemma mark_destroyed_Inv o op st st' u :
  Inv st → is_u64 o → ms_next_destroyed_seq st + 1 < two64 →
  mark_destroyed o op st = (st', Ok u) →
  Inv st' ∧ ms_next_destroyed_seq st' <= ms_next_destroyed_seq st + 1.
Proof.
  intros HI Ho Hroom (mk & bi & nx & -> & _ & Hd)%mark_destroyed_spec. dinv HI.
  destruct (Hd Ide Ho Hroom). split; [|done]. split; ms_simpl; auto.
Qed.

(** Marking a list: one slot of the sequence space per element. *)
Lemma mark_loop_Inv {A} (f : A → Z) (g : A → CompactOperations) l st st' u :
  Inv st → Forall is_u64 (f <$> l) →
  ms_next_destroyed_seq st + Z.of_nat (length l) < two64 →
  forM l (λ x, mark_destroyed (f x) (g x)) st = (st', Ok u) → Inv st'.
Proof.
  intros HI Hl Hroom H.
  apply (forM_ind (λ l st, Inv st ∧ Forall is_u64 (f <$> l) ∧
    ms_next_destroyed_seq st + Z.of_nat (length l) < two64)) in H; [by destruct H| |done].
  intros x xs s s' u' (HIs & Hf & Hr) Hb. cbn [fmap list_fmap length] in *.
  apply Forall_cons in Hf as [Hx Hf].
  apply mark_destroyed_Inv in Hb as [? ?]; auto; [|lia]. split_and!; auto. lia.
Qed.

Lemma mark_destroy_objects_Inv ids ops st st' u :
  Inv st → Forall is_u64 ids → ms_next_destroyed_seq st + Z.of_nat (length ids) < two64 →
  mark_destroy_objects ids ops st = (st', Ok u) → Inv st'.
Proof.
  intros HI Hids Hroom H. unfold mark_destroy_objects in H.
  destruct ids as [|i ids]; [by minv H|]. destruct ops as [|op ops].
  - eapply (mark_loop_Inv id (λ _, OpDelete)); eauto. by rewrite list_fmap_id.
  - apply bindM_Ok_inv in H as (a & st1 & H1 & H). minv H1.
    apply Nat.eqb_eq in H1. eapply (mark_loop_Inv fst snd); eauto.
    + rewrite fst_zip by lia. done.
    + rewrite length_zip_with_l_eq; [done|congruence].
Qed.

(** ** Leases *)
Lemma commit_prepared_spec o st st' u :
  commit_prepared o st = (st', Ok u) →
  ∃ by_deadline,
    st' = set_prepared_by_deadline by_deadline (set_prepared (delete o (ms_prepared st)) st) ∧
    (prepared_ok (ms_next_object_id st) (ms_prepared st) (ms_prepared_by_deadline st) →
     prepared_ok (ms_next_object_id st) (delete o (ms_prepared st)) by_deadline).
Proof.
  intros H. unfold commit_prepared in H. minv H.
  - exists (ms_prepared_by_deadline st ∖ {[(z, o)]}). split; [reflexivity|]. intros (Hn & Hiff & Hp). split_and!; [done| |].
    + intros d id. rewrite elem_of_difference, elem_of_singleton, Hiff, lookup_delete_Some.
      split; [|naive_solver]. intros [Hid Hne]. split; [|done]. intros <-.
      apply Hne. congruence.
    + intros id d [_ ?]%lookup_delete_Some. eauto.
  - eexists (ms_prepared_by_deadline st). rewrite delete_id by done.
    split; [by destruct st|done].
Qed.

Lemma commit_prepared_Inv o st st' u :
  Inv st → commit_prepared o st = (st', Ok u) → Inv st'.
Proof.
  intros HI (d & -> & Hp)%commit_prepared_spec. dinv HI. split; ms_simpl; auto.
Qed.

(** Leasing [id..] one by one. *)
Lemma prepare_loop_ok deadline l next st st' u :
  is_i64 deadline → is_u64 next → Forall (λ id, 0 <= id < next) l →
  prepared_ok next (ms_prepared st) (ms_prepared_by_deadline st) → NoDup l →
  (∀ id, id ∈ l → ms_prepared st !! id = None) →
  forM l (λ id,
    updM (λ st, set_prepared (<[id := deadline]> (ms_prepared st)) st) ;;;
    updM (λ st, set_prepared_by_deadline
      ({[(deadline, id)]} ∪ ms_prepared_by_deadline st) st)) st = (st', Ok u) →
  ∃ p d, st' = set_prepared_by_deadline d (set_prepared p st) ∧ prepared_ok next p d ∧
    ∀ id, is_Some (p !! id) ↔ id ∈ l ∨ is_Some (ms_prepared st !! id).
Proof.
  intros Hd Hn. revert st. induction l as [|id l IH]; intros st Hl Hp Hnd Hfree H;
    cbn [forM] in H.
  - minv H. exists (ms_prepared st), (ms_prepared_by_deadline st).
    split_and!; [by destruct st|done|]. set_solver.
  - apply bindM_Ok_inv in H as (a & st1 & H1 & H). minv H1.
    apply Forall_cons in Hl as [Hid Hl]. apply NoDup_cons in Hnd as [Hnin Hnd].
    pose proof (Hfree id ltac:(set_solver)) as Hnone.
    apply IH in H as (p & d & -> & Hok & Hdom); [| done | | done |].
    + exists p, d. split_and!; [reflexivity|done|]. intros id'. rewrite Hdom. ms_simpl.
      destruct (decide (id = id')) as [<-|].
      * rewrite lookup_insert_eq. set_solver.
      * rewrite lookup_insert_ne by done. set_solver.
    + destruct Hp as (_ & Hiff & Hb). split_and!; [done| |]; ms_simpl.
      * intros d' id'. rewrite elem_of_union, elem_of_singleton, Hiff, lookup_insert_Some.
        destruct (decide (id = id')) as [<-|]; naive_solver.
      * intros id' d' [[<- <-]|[_ ?]]%lookup_insert_Some; [done|]. eauto.
    + intros id' Hin. ms_simpl. rewrite lookup_insert_ne by set_solver. apply Hfree. set_solver.
Qed.

Lemma prepared_ok_next next next' p d :
  prepared_ok next p d → next <= next' → is_u64 next' → prepared_ok next' p d.
Proof.
  intros (_ & Hiff & Hp) ??. split_and!; [done|done|]. intros id d' Hid.
  destruct (Hp _ _ Hid). split; [lia|done].
Qed.

Lemma prepare_object_Inv n e count ttl now st st' r :
  is_u32 count → Inv st → ms_next_object_id st + count < two64 →
  prepare_object n e count ttl now st = (st', Ok r) → Inv st'.
Proof.
  intros Hc HI Hroom H. unfold prepare_object in H. minv H. dinv HI.
  destruct (Ipr) as ([] & Hiff & Hb).
  assert (Hw : wrap_u64 (ms_next_object_id st + count) = ms_next_object_id st + count)
    by (apply wrap_u64_id; int_lia).
  rewrite Hw in *.
  match goal with Hf : forM _ _ _ = _ |- _ =>
    apply (prepare_loop_ok _ _ (ms_next_object_id st + count)) in Hf
      as (p & d & -> & Hok & _) end.
  - split; ms_simpl; auto.
  - apply wrap_i64_is_i64.
  - int_lia.
  - apply Forall_forall. intros id [? ?]%elem_of_range_u64. lia.
  - eapply prepared_ok_next; [exact Ipr|int_lia..].
  - apply NoDup_seqZ.
  - intros id [? ?]%elem_of_range_u64. ms_simpl.
    destruct (ms_prepared st !! id) eqn:E; [|done]. apply Hb in E. lia.
Qed.

(** ** Committing objects *)
Lemma advance_end_offset_spec s a b compact st st' u :
  advance_end_offset s a b compact st = (st', Ok u) →
  ∃ row, ms_streams st !! s = Some row ∧
    (if compact then st' = st ∧ b <= sr_end_offset row ∧ sr_start_offset row <= a
     else sr_end_offset row = a ∧
       st' = set_streams (<[s := with_end_offset row b]> (ms_streams st)) st).
Proof.
  intros H. unfold advance_end_offset in H.
  apply bindM_Ok_inv in H as (row & st1 & H1 & H). minv H1. use_row.
  exists row. split; [done|]. destruct compact; minv H; bsimp; auto.
Qed.

Lemma advance_end_offset_Inv s a b compact st st' u :
  is_u64 b → Inv st → advance_end_offset s a b compact st = (st', Ok u) → Inv st'.
Proof.
  intros Hb HI (row & Hs & H)%advance_end_offset_spec. destruct compact.
  - by destruct H as [-> _].
  - destruct H as [_ ->]. pose proof (row_facts _ _ _ HI Hs) as ((? & ? & ? & ? & ?) & _).
    eapply Inv_update_row; eauto. unfold row_typed; cbn; auto.
Qed.

(** Advancing touches the stream rows only. *)
Lemma advance_end_offset_frame s a b compact st st' u :
  advance_end_offset s a b compact st = (st', Ok u) →
  st' = set_streams (ms_streams st') st.
Proof.
  intros (row & Hs & H)%advance_end_offset_spec. destruct compact.
  - destruct H as [-> _]. by destruct st.
  - by destruct H as [_ ->].
Qed.

Lemma advance_loop_Inv compact l st st' u :
  Forall osr_typed l → Inv st →
  forM l (λ range, advance_end_offset (osr_stream_id range) (osr_start_offset range)
    (osr_end_offset range) compact) st = (st', Ok u) →
  Inv st' ∧ st' = set_streams (ms_streams st') st.
Proof.
  intros Hl HI H.
  apply (forM_ind (λ l s, Forall osr_typed l ∧ Inv s ∧ s = set_streams (ms_streams s) st)) in H;
    [by destruct H as (_ & ? & ?)| |split_and!; auto; by destruct st].
  intros x xs s s' u' (Hx & HIs & Heq) Hb. apply Forall_cons in Hx as [Hx ?].
  split_and!; [done| |].
  - eapply advance_end_offset_Inv; eauto. by destruct Hx as (? & ? & ? & ? & ?).
  - apply advance_end_offset_frame in Hb. rewrite Hb at 1. rewrite Heq at 1. done.
Qed.

Lemma check_object_id_free_inv st o k u :
  check_object_id_free st o k = Ok u →
  ms_stream_set_objects st !! o = None ∧
  (ms_stream_object_ids st !! o = None ∨ ms_stream_object_ids st !! o = k).
Proof.
  unfold check_object_id_free. intros H. repeat case_match; simplify_eq; bsimp.
  - split; [by apply eq_None_not_Some|]. right.
    match goal with Hne : ¬ (_ ≠ _) |- _ => apply dec_stable in Hne; congruence end.
  - split; [by apply eq_None_not_Some|auto].
Qed.

Lemma insert_stream_object_Inv s o a b size attr data now st st' u :
  Inv st → is_u64 s → is_u64 o → is_u64 a → is_u64 b → is_u64 size → is_u32 attr →
  is_i64 data → is_i64 now →
  ms_stream_set_objects st !! o = None →
  (ms_stream_object_ids st !! o = None ∨ ms_stream_object_ids st !! o = Some (s, a, o)) →
  insert_stream_object s o a b size attr data now st = (st', Ok u) → Inv st'.
Proof.
  intros HI ???????? Hset Hfree H. unfold insert_stream_object in H. minv H. dinv HI.
  destruct Iso as [Hobj Hids]. split; ms_simpl; auto.
  - split.
    + intros key row [[<- <-]|[Hne Hk]]%lookup_insert_Some.
      * split; [|by rewrite lookup_insert_eq]. cbn. split_and!; auto; [|by eexists].
        unfold object_typed; cbn. split_and!; auto; [|done].
        apply Forall_singleton. by unfold sor_typed.
      * destruct (Hobj key row Hk) as [? Hid]. split; [done|].
        rewrite lookup_insert_ne; [done|]. intros Heq. destruct key as [[s' a'] o'].
        cbn in *; subst. destruct Hfree; congruence.
    + intros o' key [[<- <-]|[Hne Hk]]%lookup_insert_Some.
      * rewrite lookup_insert_eq. cbn. eauto.
      * destruct (Hids o' key Hk) as [? Hs]. split; [done|].
        rewrite lookup_insert_ne; [done|]. intros <-. cbn in *. congruence.
  - intros o' [k Hk]. apply lookup_insert_Some in Hk as [[<- _]|[_ Hk]]; [done|]. eauto.
Qed.

Lemma commit_stream_object_Inv compact data now so st st' u :
  so_typed so → is_i64 data → is_i64 now → Inv st →
  commit_stream_object compact data now so st = (st', Ok u) → Inv st'.
Proof.
  intros (T1 & T2 & T3 & T4 & T5 & T6) Td Tn HI H. unfold commit_stream_object in H.
  apply bindM_Ok_inv in H as (a & st1 & H1 & H). minv H1.
  apply check_object_id_free_inv in H1 as [Hset Hids].
  apply bindM_Ok_inv in H as (a1 & st1 & H1 & H).
  pose proof (commit_prepared_Inv _ _ _ _ HI H1) as HI1.
  apply commit_prepared_spec in H1 as (d & -> & _).
  apply bindM_Ok_inv in H as (a2 & st2 & H1 & H).
  pose proof (advance_end_offset_Inv _ _ _ _ _ _ _ ltac:(eassumption) HI1 H1) as HI2.
  apply advance_end_offset_frame in H1. rewrite H1 in HI2, H.
  eapply insert_stream_object_Inv; [exact HI2|..|exact H]; auto.
Qed.

(** ** Stream-set objects and their range index *)
Lemma range_end_step_foldl s a acc ranges :
  foldl (range_end_step s a) acc ranges =
  match range_end s a ranges with Some e => Some e | None => acc end.
Proof.
  unfold range_end. revert acc. induction ranges as [|r ranges IH]; intros acc; [done|].
  cbn [foldl]. rewrite IH. rewrite (IH (range_end_step s a None r)).
  unfold range_end_step at 2 4. destruct (foldl _ None ranges); [done|].
  by destruct (_ && _).
Qed.

Lemma range_end_cons s a r ranges :
  range_end s a (r :: ranges) =
  match range_end s a ranges with
  | Some e => Some e
  | None =>
    if (sor_stream_id r =? s) && (sor_start_offset r =? a) then Some (sor_end_offset r) else None
  end.
Proof. unfold range_end at 1. cbn [foldl]. by rewrite range_end_step_foldl. Qed.

Lemma range_end_None s a ranges :
  range_end s a ranges = None ↔
  ∀ r, r ∈ ranges → ¬ (sor_stream_id r = s ∧ sor_start_offset r = a).
Proof.
  induction ranges as [|r ranges IH]; [set_solver|].
  rewrite range_end_cons. destruct (range_end s a ranges) eqn:E.
  - split; [done|]. intros Hall. exfalso.
    assert (Some z = None) as [=]. apply IH. set_solver.
  - destruct (_ && _) eqn:Eb; bsimp; [split; [done|set_solver]|].
    split; [|done]. intros _ r' [->|Hin]%elem_of_cons; [lia|]. by apply IH.
Qed.

Lemma delete_ranges_lookup (o : Z) (ranges : list StreamOffsetRange) (m : gmap StreamOffsetKey Z)
    (s a o' : Z) :
  foldl (λ m r, delete (range_key o r) m) m ranges !! (s, a, o') =
  if decide (o = o' ∧ range_end s a ranges ≠ None) then None else m !! (s, a, o').
Proof.
  revert m. induction ranges as [|r ranges IH]; intros m; cbn [foldl].
  - rewrite decide_False; [done|]. by intros [_ []].
  - rewrite IH, range_end_cons. unfold range_key. destruct (range_end s a ranges) as [e|] eqn:E.
    + destruct (decide (o = o')) as [<-|Hne].
      * rewrite !decide_True by naive_solver. done.
      * rewrite !decide_False by naive_solver. rewrite lookup_delete_ne; [done|congruence].
    + rewrite (decide_False (P := o = o' ∧ _)) by naive_solver.
      destruct (_ && _) eqn:Eb; bsimp.
      * subst. destruct (decide (o = o')) as [<-|Hne].
        -- rewrite decide_True by naive_solver. by rewrite lookup_delete_eq.
        -- rewrite decide_False by naive_solver. rewrite lookup_delete_ne; [done|congruence].
      * rewrite decide_False by naive_solver. rewrite lookup_delete_ne; [done|].
        intros [=]. lia.
Qed.

Lemma insert_ranges_lookup (o : Z) (ranges : list StreamOffsetRange) (m : gmap StreamOffsetKey Z)
    (s a o' : Z) :
  foldl (λ m r, <[range_key o r := sor_end_offset r]> m) m ranges !! (s, a, o') =
  if decide (o = o') then foldl (range_end_step s a) (m !! (s, a, o')) ranges
  else m !! (s, a, o').
Proof.
  revert m. induction ranges as [|r ranges IH]; intros m; cbn [foldl].
  - by destruct (decide (o = o')).
  - rewrite IH. unfold range_key.
    destruct (decide (o = o')) as [<-|Hne]; [|rewrite lookup_insert_ne; [done|congruence]].
    f_equal. unfold range_end_step. destruct (_ && _) eqn:Eb; bsimp.
    + subst. by rewrite lookup_insert_eq.
    + rewrite lookup_insert_ne; [done|]. intros [=]. lia.
Qed.

Lemma remove_stream_set_object_spec o st st' u :
  remove_stream_set_object o st = (st', Ok u) →
  ∃ ranges by_node,
    st' = set_sso_by_node by_node (set_sso_ranges ranges
      (set_stream_set_objects (delete o (ms_stream_set_objects st)) st)) ∧
    (sso_ok (ms_stream_set_objects st) (ms_sso_ranges st) (ms_sso_by_node st) →
     sso_ok (delete o (ms_stream_set_objects st)) ranges by_node).
Proof.
  intros H. unfold remove_stream_set_object in H. minv H.
  - match goal with Hf : forM _ _ _ = _ |- _ =>
      rewrite forM_updM, (foldl_set_sso_ranges (λ r m, delete (range_key o r) m)) in Hf;
      injection Hf as <- end.
    match goal with Hs : _ !! o = Some ?r |- _ => rename r into row; rename Hs into Hrow end.
    exists (foldl (λ m r, delete (range_key o r) m) (ms_sso_ranges st)
      (om_offset_ranges (ssr_object row))), (ms_sso_by_node st ∖ {[(ssr_node_id row, o)]}).
    split; [reflexivity|]. intros (Hr & Hidx & Hnode). split_and!.
    + intros o' row' [_ ?]%lookup_delete_Some. eauto.
    + intros s' a' o'. rewrite delete_ranges_lookup.
      destruct (decide (o = o')) as [<-|Hne].
      * rewrite lookup_delete_eq. cbn. case_decide as Hd; [done|].
        rewrite Hidx, Hrow. cbn. destruct (range_end s' a' _) eqn:E; [|done].
        exfalso. by apply Hd.
      * rewrite decide_False by naive_solver. by rewrite lookup_delete_ne, Hidx.
    + intros n o'. rewrite elem_of_difference, elem_of_singleton, Hnode.
      setoid_rewrite lookup_delete_Some. split.
      * intros [(row' & Hr' & <-) Hne]. exists row'. split_and!; auto. intros <-.
        apply Hne. congruence.
      * intros (row' & [Hne Hr'] & <-). split; [eauto|]. congruence.
  - exists (ms_sso_ranges st), (ms_sso_by_node st). rewrite delete_id by done.
    split; [by destruct st|done].
Qed.

Lemma remove_stream_set_object_Inv o st st' u :
  Inv st → remove_stream_set_object o st = (st', Ok u) → Inv st'.
Proof.
  intros HI (rg & bn & -> & Hs)%remove_stream_set_object_spec. dinv HI.
  split; ms_simpl; auto. intros o' Ho'. destruct (decide (o = o')) as [<-|].
  - by rewrite lookup_delete_eq.
  - rewrite lookup_delete_ne by done. auto.
Qed.

(** Runs the first statement of a sequence. *)
Ltac mstep H :=
  let H1 := fresh "Hm" in
  apply bindM_Ok_inv in H; destruct H as (? & ? & H1 & H); minv H1.

Lemma foldl_over_fmap {A B C} (f : A → B) (g : C → B → C) (l : list A) (c : C) :
  foldl g c (f <$> l) = foldl (λ c x, g c (f x)) c l.
Proof. revert c. induction l as [|x l IH]; intros c; [done|]. apply IH. Qed.

Lemma sso_ok_insert sso ranges by_node o n obj :
  sso_ok sso ranges by_node → sso !! o = None → om_object_id obj = o →
  om_object_type obj = StreamSet → object_typed obj → is_i32 n →
  sso_ok (<[o := {| ssr_node_id := n; ssr_object := obj |}]> sso)
    (foldl (λ m r, <[range_key o r := sor_end_offset r]> m) ranges (om_offset_ranges obj))
    ({[(n, o)]} ∪ by_node).
Proof.
  intros (Hr & Hidx & Hnode) Hnone ????. split_and!.
  - intros o' row [[<- <-]|[_ ?]]%lookup_insert_Some; eauto.
  - intros s a o'. rewrite insert_ranges_lookup. destruct (decide (o = o')) as [<-|].
    + rewrite lookup_insert_eq, Hidx, Hnone. done.
    + by rewrite lookup_insert_ne, Hidx.
  - intros n' o'. rewrite elem_of_union, elem_of_singleton, Hnode.
    setoid_rewrite lookup_insert_Some. split.
    + intros [[= -> ->]|(row & Hrow & Hn)]; [eauto|]. exists row. split; [|done].
      right. split; [|done]. intros <-. congruence.
    + intros (row & [[<- <-]|[_ ?]] & <-); [by left|eauto].
Qed.

Lemma commit_set_part_Inv n req compact data now st st' u :
  is_i32 n → commit_request_typed req → is_i64 data → is_i64 now → Inv st →
  commit_set_part n req compact data now st = (st', Ok u) → Inv st'.
Proof.
  intros Tn (T1 & T2 & T3 & T4 & T5 & T6 & T7 & _) Td Tnow HI H. unfold commit_set_part in H.
  apply bindM_Ok_inv in H as (a & st1 & H1 & H). minv H1.
  apply check_object_id_free_inv in H1 as [Hset Hids].
  apply bindM_Ok_inv in H as (a1 & st1 & H1 & H).
  pose proof (commit_prepared_Inv _ _ _ _ HI H1) as HI1.
  apply commit_prepared_spec in H1 as (d & -> & _).
  apply bindM_Ok_inv in H as (a2 & st2 & H1 & H).
  apply advance_loop_Inv in H1 as [HI2 Heq]; [|done..]. rewrite Heq in HI2, H.
  apply bindM_Ok_inv in H as (a3 & st3 & H1 & H).
  rewrite forM_updM, (foldl_set_sso_ranges (λ r m,
    <[range_key (cr_object_id req) (to_offset_range r)
      := sor_end_offset (to_offset_range r)]> m)) in H1.
  injection H1 as <- _. minv H. dinv HI2. ms_simpl in Iss. ms_simpl in Iso. ms_simpl in Idi.
  split; ms_simpl; auto.
  - rewrite <-(foldl_over_fmap to_offset_range
      (λ m r, <[range_key (cr_object_id req) r := sor_end_offset r]> m)).
    apply (sso_ok_insert _ _ _ _ _ {| om_object_id := cr_object_id req |}); auto.
    unfold object_typed; cbn. split_and!; auto.
    + apply Forall_fmap. eapply Forall_impl; [exact T4|]. intros r (? & ? & ? & ? & ?).
      by unfold compose, sor_typed.
    + unfold fits_u32. by rewrite length_fmap.
  - intros o' Ho'. rewrite lookup_insert_ne; [by apply Idi|]. intros <-.
    destruct Hids as [E|E]; rewrite E in Ho'; by destruct Ho'.
Qed.

Lemma compacted_data_time_typed st ids now data :
  Inv st → is_i64 now → compacted_data_time st ids now = Ok data →
  is_i64 data ∧ (∀ id, id ∈ ids → is_Some (ms_stream_set_objects st !! id)).
Proof.
  intros HI. revert now. induction ids as [|id ids IH]; intros now Hn H; cbn in H.
  - simplify_eq. split; [done|set_solver].
  - destruct (ms_stream_set_objects st !! id) as [row|] eqn:Hrow; [|done].
    apply IH in H as [? Hall].
    + split; [done|]. intros id' [->|?]%elem_of_cons; eauto.
    + dinv HI. destruct Iss as [Hr _].
      destruct (Hr _ _ Hrow) as (_ & _ & (_ & _ & _ & _ & _ & ? & _) & _). int_lia.
Qed.

(** Dropping the compacted stream-set objects. *)
Lemma compacted_loop_Inv ids st st' u :
  Inv st → Forall is_u64 ids → ms_next_destroyed_seq st + Z.of_nat (length ids) < two64 →
  forM ids (λ id, remove_stream_set_object id ;;; mark_destroyed id OpDelete) st = (st', Ok u) →
  Inv st'.
Proof.
  intros HI Hl Hroom H.
  apply (forM_ind (λ l st, Inv st ∧ Forall is_u64 l ∧
    ms_next_destroyed_seq st + Z.of_nat (length l) < two64)) in H; [by destruct H| |done].
  intros x xs s s' u' (HIs & Hf & Hr) Hb. cbn [length] in *. apply Forall_cons in Hf as [Hx Hf].
  apply bindM_Ok_inv in Hb as (a & s1 & H1 & Hb).
  pose proof (remove_stream_set_object_Inv _ _ _ _ HIs H1) as HI1.
  apply remove_stream_set_object_spec in H1 as (rg & bn & -> & _).
  apply mark_destroyed_Inv in Hb as [? Hle]; auto; ms_simpl; [|lia].
  split_and!; auto. ms_simpl in Hle. lia.
Qed.

Lemma commit_stream_set_object_Inv n e req now st st' r :
  is_i32 n → commit_request_typed req → is_i64 now → Inv st →
  ms_next_destroyed_seq st + Z.of_nat (length (cr_compacted_object_ids req)) < two64 →
  commit_stream_set_object n e req now st = (st', Ok r) → Inv st'.
Proof.
  intros Tn Tr Tnow HI Hroom H. unfold commit_stream_set_object in H.
  apply bindM_Ok_inv in H as (a & st1 & H1 & H). minv H1. clear H1.
  apply bindM_Ok_inv in H as (a1 & st1 & H1 & H). minv H1. clear H1.
  apply bindM_Ok_inv in H as (data & st1 & H1 & H).
  assert (HI1 : Inv st1 ∧ is_i64 data).
  { destruct (negb _).
    - apply bindM_Ok_inv in H1 as (data' & st2 & H2 & H1). minv H2.
      apply compacted_data_time_typed in H2 as [? _]; [|done..].
      apply bindM_Ok_inv in H1 as (a2 & st2 & H2 & H1). minv H1. split; [|done].
      eapply compacted_loop_Inv; [exact HI|apply Tr|exact Hroom|exact H2].
    - by minv H1. }
  destruct HI1 as [HI1 Td]. apply bindM_Ok_inv in H as (a2 & st2 & H2 & H).
  assert (HI2 : Inv st2).
  { destruct (negb (cr_object_id req =? NOOP_OBJECT_ID)); [|by minv H2].
    by eapply commit_set_part_Inv in H2. }
  apply bindM_Ok_inv in H as (a3 & st3 & H3 & H). minv H.
  eapply (forM_inv Inv) in H3; [exact H3| |done].
  intros so s s' u Hin HIs Hb. eapply commit_stream_object_Inv in Hb; eauto.
  destruct Tr as (_ & _ & _ & _ & Tso & _). rewrite Forall_forall in Tso. auto.
Qed.

(** ** Stream-object compaction *)
Lemma so_ok_delete objects ids key o :
  so_ok objects ids → ids !! o = Some key → so_ok (delete key objects) (delete o ids).
Proof.
  intros [Hobj Hids] Hk. destruct (Hids o key Hk) as [<- _]. split.
  - intros key' row [Hne Hk']%lookup_delete_Some. destruct (Hobj _ _ Hk') as [? Hid].
    split; [done|]. rewrite lookup_delete_ne; [done|]. congruence.
  - intros o' key' [Hne Hk']%lookup_delete_Some. destruct (Hids _ _ Hk') as [<- ?].
    split; [done|]. rewrite lookup_delete_ne; [done|]. congruence.
Qed.

Lemma Inv_drop_stream_object st key o :
  Inv st → ms_stream_object_ids st !! o = Some key →
  Inv (set_stream_object_ids (delete o (ms_stream_object_ids st))
    (set_stream_objects (delete key (ms_stream_objects st)) st)).
Proof.
  intros HI Hk. dinv HI. split; ms_simpl; auto.
  - by apply so_ok_delete.
  - intros o' [k [_ ?]%lookup_delete_Some]. eauto.
Qed.

Lemma drop_source_object_Inv s o st st' u :
  Inv st → drop_source_object s o st = (st', Ok u) → Inv st'.
Proof.
  intros HI H. unfold drop_source_object in H. minv H; try done. by apply (Inv_drop_stream_object st).
Qed.

Lemma drop_source_object_frame s o st st' u :
  drop_source_object s o st = (st', Ok u) →
  st' = set_stream_object_ids (ms_stream_object_ids st')
    (set_stream_objects (ms_stream_objects st') st).
Proof. intros H. unfold drop_source_object in H. minv H; try reflexivity; by destruct st. Qed.

Lemma drop_source_loop_Inv s ids st st' u :
  Inv st → forM ids (drop_source_object s) st = (st', Ok u) →
  Inv st' ∧ ms_next_destroyed_seq st' = ms_next_destroyed_seq st.
Proof.
  intros HI H. eapply (forM_inv (λ x, Inv x ∧ ms_next_destroyed_seq x = ms_next_destroyed_seq st))
    in H; [exact H| |done].
  intros x s1 s2 u1 _ [HI1 Hd] Hb. split; [by eapply drop_source_object_Inv|].
  apply drop_source_object_frame in Hb. rewrite Hb. by ms_simpl.
Qed.

Lemma compact_stream_object_Inv n e req now st st' r :
  compact_request_typed req → is_i64 now → Inv st →
  ms_next_destroyed_seq st + Z.of_nat (length (cq_source_object_ids req)) < two64 →
  compact_stream_object n e req now st = (st', Ok r) → Inv st'.
Proof.
  intros (T1 & T2 & T3 & T4 & T5 & T6 & T7 & T8 & _) Tn HI Hroom H.
  unfold compact_stream_object in H.
  do 7 mstep H.
  apply bindM_Ok_inv in H as (a2 & st2 & H2 & H).
  assert (Hfree : (cq_object_id req =? NOOP_OBJECT_ID) = false →
    ms_stream_set_objects st !! cq_object_id req = None ∧
    (ms_stream_object_ids st !! cq_object_id req = None ∨ ms_stream_object_ids st !! cq_object_id req
      = Some (cq_stream_id req, cq_start_offset req, cq_object_id req))).
  { intros E. rewrite E in H2. cbn [negb] in H2. minv H2. by apply check_object_id_free_inv in H2. }
  assert (st2 = st) as -> by (by minv H2). clear H2.
  apply bindM_Ok_inv in H as (a3 & st3 & H3 & H).
  pose proof (commit_prepared_Inv _ _ _ _ HI H3) as HI3.
  apply commit_prepared_spec in H3 as (d & -> & _).
  apply bindM_Ok_inv in H as (a4 & st4 & H4 & H).
  assert (Inv st4 ∧ ms_next_destroyed_seq st4 = ms_next_destroyed_seq st) as [HI4 Hseq].
  { destruct (cq_object_id req =? NOOP_OBJECT_ID) eqn:E; cbn [negb] in H4; [by minv H4|].
    destruct (Hfree eq_refl). split.
    - by eapply insert_stream_object_Inv in H4.
    - unfold insert_stream_object in H4. by minv H4. }
  apply bindM_Ok_inv in H as (a5 & st5 & H5 & H).
  apply drop_source_loop_Inv in H5 as [HI5 Hseq5]; [|done].
  apply bindM_Ok_inv in H as (a6 & st6 & H6 & H). minv H.
  eapply mark_destroy_objects_Inv in H6; eauto. by rewrite Hseq5, Hseq.
Qed.

(** ** Deleting a stream *)
Lemma elem_of_foldl_remove `{Countable K} (l : list K) (X : gset K) (k : K) :
  k ∈ foldl (λ X x, X ∖ {[x]}) X l ↔ k ∈ X ∧ k ∉ l.
Proof.
  revert X. induction l as [|x l IH]; intros X; cbn; [set_solver|].
  rewrite IH, elem_of_cons. set_solver.
Qed.

Lemma remove_placed_stream_spec s st st' u :
  remove_placed_stream s st = (st', Ok u) →
  ∃ P, st' = set_placed_by_node P st ∧ ∀ n s', (n, s') ∈ P ↔ (n, s') ∈ ms_placed_by_node st ∧ s' ≠ s.
Proof.
  intros H. unfold remove_placed_stream in H. apply bindM_Ok_inv in H as (keys & st1 & H1 & H).
  minv H1. rewrite forM_updM, (foldl_set_placed (λ k P, P ∖ {[k]})) in H. injection H as <- _.
  eexists. split; [reflexivity|]. intros n s'. rewrite elem_of_foldl_remove, list_elem_of_filter,
    elem_of_ord_elems. cbn. tauto.
Qed.

Lemma Inv_drop_stream st s P :
  Inv st → (∀ row, ms_streams st !! s = Some row → sr_state row = Closed) →
  (∀ n s', (n, s') ∈ P ↔ (n, s') ∈ ms_placed_by_node st ∧ s' ≠ s) →
  Inv (set_pending_transfers (delete s (ms_pending_transfers st))
    (set_placed_by_node P (set_streams (delete s (ms_streams st)) st))).
Proof.
  intros HI Hclosed HP. dinv HI. split; ms_simpl; auto.
  - destruct Ist as [? Hr]. split; [done|]. intros id row [_ ?]%lookup_delete_Some. auto.
  - intros n s'. rewrite (Iop n s'). setoid_rewrite lookup_delete_Some. split.
    + intros (row & Hs & Ho & Hn). exists row. split_and!; auto. intros ->.
      rewrite (Hclosed _ Hs) in Ho. done.
    + intros (row & [_ ?] & ?). eauto.
  - intros n s'. rewrite HP, (Ipl n s'). setoid_rewrite lookup_delete_Some. split.
    + intros [(row & ? & ?) ?]. eauto.
    + intros (row & [? ?] & ?). split; eauto.
  - intros s' p [Hne Hp]%lookup_delete_Some. destruct (Ipe _ _ Hp) as (? & ? & ? & row & ? & ?).
    split_and!; auto. exists row. by rewrite lookup_delete_ne.
Qed.

Lemma delete_objects_loop_Inv keys st st' u :
  Inv st → NoDup keys → (∀ key, key ∈ keys → is_Some (ms_stream_objects st !! key)) →
  ms_next_destroyed_seq st + Z.of_nat (length keys) < two64 →
  forM keys (λ key,
      updM (λ st, set_stream_objects (delete key (ms_stream_objects st)) st) ;;;
      updM (λ st, set_stream_object_ids (delete key.2 (ms_stream_object_ids st)) st) ;;;
      mark_destroyed key.2 OpDelete) st = (st', Ok u) → Inv st'.
Proof.
  intros HI Hnd Hin Hroom H.
  apply (forM_ind (λ l st, Inv st ∧ NoDup l ∧
    (∀ key, key ∈ l → is_Some (ms_stream_objects st !! key)) ∧
    ms_next_destroyed_seq st + Z.of_nat (length l) < two64)) in H; [by destruct H| |done].
  clear. intros key keys st st' u (HI & [Hnin Hnd]%NoDup_cons & Hin & Hroom) H. cbn [length] in *.
  do 2 mstep H.
  destruct (Hin key) as [row Hrow]; [by left|].
  assert (Hid : ms_stream_object_ids st !! key.2 = Some key ∧ is_u64 key.2).
  { dinv HI. destruct (proj1 Iso _ _ Hrow) as [Hok ?]. split; [done|].
    destruct key as [[s a] o]. destruct Hok as (<- & _ & [? _] & _). done. }
  destruct Hid as [Hid Ho]. pose proof (mark_destroyed_spec _ _ _ _ _ H) as (mk & bi & nx & Est & _).
  eapply mark_destroyed_Inv in H as [HI' Hle]; [|by apply (Inv_drop_stream_object st)|done|ms_simpl; lia].
  ms_simpl in Hle. split_and!; [done|done| |lia].
  intros k Hk. rewrite Est. ms_simpl. rewrite lookup_delete_ne; [apply Hin; by right|].
  intros <-. done.
Qed.

Lemma delete_stream_Inv n e s ep st st' r :
  Inv st → ms_next_destroyed_seq st + Z.of_nat (size (ms_stream_objects st)) < two64 →
  delete_stream n e s ep st = (st', Ok r) → Inv st'.
Proof.
  intros HI Hroom H. unfold delete_stream in H.
  do 2 mstep H.
  destruct (ms_streams st !! s) as [row|] eqn:Hrow; [|by minv H].
  do 3 mstep H. bsimp.
  apply bindM_Ok_inv in H as (? & st1 & H1 & H).
  apply remove_placed_stream_spec in H1 as (P & -> & HP). ms_simpl in HP.
  do 2 mstep H.
  apply bindM_Ok_inv in H as (? & st2 & H2 & H). minv H.
  eapply delete_objects_loop_Inv in H2; [exact H2| | | |].
  - apply (Inv_drop_stream st); [done| |done]. intros row' Hr'. congruence.
  - apply NoDup_ord_range.
  - intros key ((k, v) & -> & Hk)%list_elem_of_fmap. apply elem_of_ord_range in Hk as [_ Hk].
    by exists v.
  - ms_simpl. rewrite length_fmap. 
    pose proof (length_ord_range (s, 0, 0) (s, u64_max, u64_max) (ms_stream_objects st)). lia.
Qed.

(** ** Leases, the destroyed queue and key-value entries *)
Lemma expire_prepared_objects_Inv now st st' r :
  Inv st → expire_prepared_objects now st = (st', Ok r) → Inv st'.
Proof.
  intros HI H. unfold expire_prepared_objects in H.
  apply bindM_Ok_inv in H as (l & st1 & H1 & H). minv H1.
  apply bindM_Ok_inv in H as (? & st2 & H2 & H). minv H.
  apply (forM_ind (λ l s, Inv s ∧ NoDup l ∧ ∀ k, k ∈ l → k ∈ ms_prepared_by_deadline s)) in H2.
  - by destruct H2.
  - clear. intros [d o] l st st' u (HI & [Hnin Hnd]%NoDup_cons & Hl) H.
    assert (Ho : (d, o) ∈ ms_prepared_by_deadline st) by (apply Hl; by left).
    minv H. dinv HI. destruct Ipr as (Hn & Hiff & Hp).
    assert (Hother : ∀ k, k ∈ l → k.2 ≠ o).
    { intros [d' o'] Hk. cbn. intros ->. assert (Hk' : (d', o) ∈ ms_prepared_by_deadline st)
        by (apply Hl; by right). apply Hiff in Hk', Ho. congruence. }
    split_and!; [|done|].
    + split; ms_simpl; auto. split_and!; [done| |].
      * intros d' o'. rewrite elem_of_difference, elem_of_singleton, lookup_delete_Some, Hiff. cbn.
        apply Hiff in Ho. split; [intros [? Hne]; split; [intros <-; congruence|done]|].
        intros [? ?]. split; [done|congruence].
      * intros o' d' [_ ?]%lookup_delete_Some. auto.
    + intros [d' o'] Hk. ms_simpl. rewrite elem_of_difference, elem_of_singleton.
      split; [apply Hl; by right|]. intros [= -> ->]. by apply (Hother (d, o)).
  - split_and!; [done|apply NoDup_filter, NoDup_ord_elems|].
    intros k [_ ?]%list_elem_of_filter. by apply elem_of_ord_elems.
Qed.

Lemma destroyed_ok_delete next mark by_id o seq :
  destroyed_ok next mark by_id → by_id !! o = Some seq →
  destroyed_ok next (delete seq mark) (delete o by_id).
Proof.
  intros (Hn & Hiff & Hb) Ho. split_and!; [done| |].
  - intros o' seq'. setoid_rewrite lookup_delete_Some. rewrite Hiff.
    destruct (proj1 (Hiff o seq) Ho) as [op Hop]. split.
    + intros [Hne [op' Hop']]. exists op'. split; [|done]. intros <-. congruence.
    + intros (op' & Hne & Hop'). split; [|eauto]. intros <-. apply Hne.
      assert (by_id !! o = Some seq') by (apply Hiff; eauto). congruence.
  - intros seq' o' op [_ ?]%lookup_delete_Some. eauto.
Qed.

Lemma clean_destroyed_objects_Inv ids st st' r :
  Inv st → clean_destroyed_objects ids st = (st', Ok r) → Inv st'.
Proof.
  intros HI H. unfold clean_destroyed_objects in H.
  apply bindM_Ok_inv in H as (? & st2 & H2 & H). minv H.
  eapply (forM_inv Inv) in H2; [exact H2| |done].
  clear. intros o s s' u _ HI H. minv H; [|done]. dinv HI. split; ms_simpl; auto.
  by apply destroyed_ok_delete.
Qed.

Lemma kv_ok_insert kv k v : kv_ok kv → string_ok k → fits_u32 v → kv_ok (<[k := v]> kv).
Proof. intros Hkv ?? k' v' [[<- <-]|[_ ?]]%lookup_insert_Some; eauto. Qed.

Lemma put_kv_Inv k v st st' r :
  string_ok k → fits_u32 v → Inv st → put_kv k v st = (st', Ok r) → Inv st'.
Proof.
  intros ?? HI H. unfold put_kv in H. minv H. dinv HI. split; ms_simpl; auto.
  by apply kv_ok_insert.
Qed.

Lemma put_kv_if_absent_Inv k v st st' r :
  string_ok k → fits_u32 v → Inv st → put_kv_if_absent k v st = (st', Ok r) → Inv st'.
Proof.
  intros ?? HI H. unfold put_kv_if_absent in H. minv H; [done|].
  dinv HI. split; ms_simpl; auto. by apply kv_ok_insert.
Qed.

Lemma delete_kv_Inv k st st' r : Inv st → delete_kv k st = (st', Ok r) → Inv st'.
Proof.
  intros HI H. unfold delete_kv in H. minv H. dinv HI. split; ms_simpl; auto.
  intros k' v' [_ ?]%lookup_delete_Some. eauto.
Qed.

(** ** Every command *)

(** Ids, leases and queue positions a command can allocate. *)
Definition streams_used (c : MetadataCommand) : Z :=
  match c with CreateStream _ _ => 1 | CreateStreams _ _ count => count | _ => 0 end.
Definition objects_used (c : MetadataCommand) : Z :=
  match c with PrepareObject _ _ count _ _ => count | _ => 0 end.
Definition marks_used (st : MetadataState) (c : MetadataCommand) : Z :=
  match c with
  | DeleteStream _ _ _ _ => Z.of_nat (size (ms_stream_objects st))
  | CommitStreamSetObject _ _ r _ => Z.of_nat (length (cr_compacted_object_ids r))
  | CompactStreamObject _ _ r _ => Z.of_nat (length (cq_source_object_ids r))
  | _ => 0
  end.

(** No 64-bit counter runs out. *)
Definition room (st : MetadataState) (c : MetadataCommand) : Prop :=
  ms_next_stream_id st + streams_used c < two64 ∧
  ms_next_object_id st + objects_used c < two64 ∧
  ms_next_destroyed_seq st + marks_used st c < two64.

(** What the callers promise: field ranges of the wire types, and no node
    takes the id [-1] that marks an unassigned stream. *)
Definition command_ok (c : MetadataCommand) : Prop :=
  command_wf c ∧ match c with RegisterNode n _ _ _ => n ≠ -1 | _ => True end.

Lemma apply_Ok_inv st c st' r : apply st c = (st', Ok r) → apply_inner c st = (st', Ok r).
Proof. unfold apply. destruct (apply_inner c st) as [s [x|e]]; naive_solver. Qed.

Lemma apply_inner_Inv st c st' r :
  Inv st → command_ok c → room st c → apply_inner c st = (st', Ok r) → Inv st'.
Proof.
  intros HI [Hwf Hn] (R1 & R2 & R3) H. destruct c; cbn [apply_inner] in H;
    cbn [command_wf streams_used objects_used marks_used] in *; destruct_and?;
    [ eapply register_node_Inv in H | eapply place_stream_Inv in H
    | eapply create_stream_Inv in H | eapply open_stream_Inv in H
    | eapply trim_stream_Inv in H | eapply close_stream_Inv in H
    | eapply delete_stream_Inv in H | eapply prepare_object_Inv in H
    | eapply commit_stream_set_object_Inv in H | eapply compact_stream_object_Inv in H
    | eapply expire_prepared_objects_Inv in H | eapply clean_destroyed_objects_Inv in H
    | eapply put_kv_Inv in H | eapply put_kv_if_absent_Inv in H | eapply delete_kv_Inv in H
    | eapply transfer_stream_Inv in H | eapply complete_transfer_Inv in H
    | eapply create_streams_Inv in H ]; eassumption.
Qed.

(** The states of a replica: the empty state, and what a command makes of
    a reachable one, whether it succeeds or fails. *)
Inductive reachable : MetadataState → Prop :=
| reach_new : reachable new_state
| reach_apply st c : reachable st → command_ok c → room st c → reachable (apply st c).1.

Lemma apply_Inv st c : Inv st → command_ok c → room st c → Inv (apply st c).1.
Proof.
  intros HI Hc Hr. unfold apply. destruct (apply_inner c st) as [st' [r|e]] eqn:H; [|done].
  by eapply apply_inner_Inv.
Qed.
