(* ===== verification/MetaHistory.v ===== *)
(** * Histories of the metadata state

    What any sequence of commands preserves: counters and epochs only grow,
    a stream keeps one writer per epoch, and ids are not handed out twice.
    The order [evolves] collects these facts; every command respects it, and
    the fencing guarantees of the metadata service follow. *)

From Stdlib Require Import ZArith Lia.
From stdpp Require Import base numbers list sorting gmap strings.
From S2P Require Import Prelude StreamTypes MetaState MetaApply MetaInv.

Open Scope Z_scope.

(** ** The order on states *)

(** What a stream row can become: its epoch and start offset grow, and within
    one epoch it can be closed but neither reopened nor moved while open. *)
Definition row_le (r r' : StreamRow) : Prop :=
  sr_epoch r <= sr_epoch r' ∧ sr_start_offset r <= sr_start_offset r' ∧
  (sr_epoch r = sr_epoch r' → sr_state r' = Opened →
     sr_state r = Opened ∧ sr_node_id r = sr_node_id r').

Record evolves (st st' : MetadataState) : Prop := {
  ev_next : ms_next_stream_id st <= ms_next_stream_id st';
  ev_leases : ms_next_object_id st <= ms_next_object_id st';
  ev_nodes : ∀ n node, ms_nodes st !! n = Some node →
    ∃ node', ms_nodes st' !! n = Some node' ∧ nr_epoch node <= nr_epoch node';
  ev_streams : ∀ s row', ms_streams st' !! s = Some row' → s < ms_next_stream_id st →
    ∃ row, ms_streams st !! s = Some row ∧ row_le row row';
}.

#[export] Instance row_le_preorder : PreOrder row_le.
Proof.
  split; [by intros r|]. intros r1 r2 r3 (? & ? & H12) (? & ? & H23). split_and!; [lia|lia|].
  intros Heq Hopen. destruct H23; [lia|done|]. destruct H12; [lia|done|]. split; congruence.
Qed.

#[export] Instance evolves_preorder : PreOrder evolves.
Proof.
  split; [intros st; split; try done; eauto with lia; intros; eexists; split; [done|reflexivity]|].
  intros st1 st2 st3 [N1 L1 H1 S1] [N2 L2 H2 S2]. split; [lia|lia| |].
  - intros n node Hn. destruct (H1 _ _ Hn) as (node' & Hn' & ?).
    destruct (H2 _ _ Hn') as (node'' & ? & ?). exists node''. split; [done|lia].
  - intros s row' Hs Hlt. destruct (S2 _ _ Hs) as (row & Hs2 & ?); [lia|].
    destruct (S1 _ _ Hs2) as (row0 & ? & ?); [done|]. exists row0. split; [done|by etrans].
Qed.

(** A step that leaves the counters, nodes and streams alone. *)
Lemma evolves_frame st st' :
  ms_next_stream_id st' = ms_next_stream_id st → ms_next_object_id st' = ms_next_object_id st →
  ms_nodes st' = ms_nodes st → ms_streams st' = ms_streams st → evolves st st'.
Proof.
  intros E1 E2 E3 E4. split; rewrite ?E1, ?E2, ?E3, ?E4; eauto with lia.
  intros s row Hs _. exists row. split; [done|reflexivity].
Qed.

(** A step that replaces one row. *)
Lemma evolves_put st st' s row row' :
  ms_streams st !! s = Some row → row_le row row' →
  ms_next_stream_id st' = ms_next_stream_id st → ms_next_object_id st' = ms_next_object_id st →
  ms_nodes st' = ms_nodes st → ms_streams st' = <[s := row']> (ms_streams st) → evolves st st'.
Proof.
  intros Hs Hle E1 E2 E3 E4. split; rewrite ?E1, ?E2, ?E3, ?E4; eauto with lia.
  intros s' row'' Hs' _. destruct (decide (s = s')) as [<-|].
  - rewrite lookup_insert_eq in Hs'. simplify_eq. eauto.
  - rewrite lookup_insert_ne in Hs' by done. exists row''. split; [done|reflexivity].
Qed.

(** ** Computations that respect the order *)
Definition evolving {A} (m : M A) : Prop :=
  ∀ st st' a, m st = (st', Ok a) → evolves st st'.

Create HintDb hist.

Lemma evolving_ret {A} (a : A) : evolving (retM a).
Proof. intros st st' b H. minv H. reflexivity. Qed.
Lemma evolving_get {A} (f : MetadataState → A) : evolving (getM f).
Proof. intros st st' b H. minv H. reflexivity. Qed.
Lemma evolving_try {A} (f : MetadataState → result A MetadataError) : evolving (tryM f).
Proof. intros st st' b H. minv H. reflexivity. Qed.
Lemma evolving_fail {A} e : evolving (failM (A := A) e).
Proof. intros st st' b H. minv H. Qed.
Lemma evolving_ensure b e : evolving (ensureM b e).
Proof. intros st st' a H. minv H. reflexivity. Qed.
Lemma evolving_bind {A B} (m : M A) (k : A → M B) :
  evolving m → (∀ a, evolving (k a)) → evolving (bindM m k).
Proof. intros Hm Hk st st' b (a & st1 & H1 & H2)%bindM_Ok_inv. etrans; [by eapply Hm|by eapply Hk]. Qed.
Lemma evolving_for {A} (l : list A) (body : A → M unit) :
  (∀ x, evolving (body x)) → evolving (forM l body).
Proof.
  intros Hb st st' u H. eapply (forM_inv (evolves st)) in H; [exact H| |reflexivity].
  intros x s s' v _ Hs Hx. etrans; [exact Hs|by eapply Hb].
Qed.
Lemma evolving_upd f :
  (∀ st, ms_next_stream_id (f st) = ms_next_stream_id st ∧
         ms_next_object_id (f st) = ms_next_object_id st ∧
         ms_nodes (f st) = ms_nodes st ∧ ms_streams (f st) = ms_streams st) → evolving (updM f).
Proof. intros Hf st st' u H. minv H. destruct (Hf st) as (? & ? & ? & ?). by apply evolves_frame. Qed.

#[export] Hint Resolve evolving_ret evolving_get evolving_try evolving_fail evolving_ensure : hist.

(** Decomposes a computation into its statements; assignments outside the
    tracked fields are closed by computation. *)
Ltac evolve :=
  repeat first
    [ progress auto with hist
    | match goal with
      | |- evolving (bindM _ _) => apply evolving_bind; [|intros ?]
      | |- evolving (forM _ _) => apply evolving_for; intros ?
      | |- evolving (updM _) => apply evolving_upd; intros ?; ms_simpl; done
      | |- context [match ?x with _ => _ end] => destruct x
      end ].

Lemma mark_destroyed_evolves o op : evolving (mark_destroyed o op).
Proof. unfold mark_destroyed. evolve. Qed.
Lemma commit_prepared_evolves o : evolving (commit_prepared o).
Proof. unfold commit_prepared. evolve. Qed.
Lemma remove_stream_set_object_evolves o : evolving (remove_stream_set_object o).
Proof. unfold remove_stream_set_object. evolve. Qed.
Lemma insert_stream_object_evolves s o a b size attr data now :
  evolving (insert_stream_object s o a b size attr data now).
Proof. unfold insert_stream_object. evolve. Qed.
Lemma drop_source_object_evolves s o : evolving (drop_source_object s o).
Proof. unfold drop_source_object. evolve. Qed.
Lemma remove_placed_stream_evolves s : evolving (remove_placed_stream s).
Proof. unfold remove_placed_stream. evolve. Qed.
#[export] Hint Resolve mark_destroyed_evolves commit_prepared_evolves
  remove_stream_set_object_evolves insert_stream_object_evolves drop_source_object_evolves
  remove_placed_stream_evolves : hist.

Lemma mark_destroy_objects_evolves ids ops : evolving (mark_destroy_objects ids ops).
Proof. unfold mark_destroy_objects. evolve. Qed.

Lemma advance_end_offset_evolves s a b compact : evolving (advance_end_offset s a b compact).
Proof.
  intros st st' u H. unfold advance_end_offset in H. minv H; [reflexivity|]. use_row.
  eapply evolves_put; [exact Hs| |by ms_simpl..]. by unfold row_le, with_end_offset.
Qed.
#[export] Hint Resolve mark_destroy_objects_evolves advance_end_offset_evolves : hist.

Lemma check_node_evolves n e : evolving (check_node n e).
Proof. unfold check_node. evolve. Qed.
#[export] Hint Resolve check_node_evolves : hist.

Lemma commit_stream_object_evolves compact data now so :
  evolving (commit_stream_object compact data now so).
Proof. unfold commit_stream_object. evolve. Qed.
Lemma commit_set_part_evolves n req compact data now :
  evolving (commit_set_part n req compact data now).
Proof. unfold commit_set_part. evolve. Qed.
#[export] Hint Resolve commit_stream_object_evolves commit_set_part_evolves : hist.

Lemma commit_stream_set_object_evolves n e req now :
  evolving (commit_stream_set_object n e req now).
Proof. unfold commit_stream_set_object. evolve. Qed.
Lemma compact_stream_object_evolves n e req now : evolving (compact_stream_object n e req now).
Proof. unfold compact_stream_object. evolve. Qed.
Lemma expire_prepared_objects_evolves now : evolving (expire_prepared_objects now).
Proof. unfold expire_prepared_objects. evolve. Qed.
Lemma clean_destroyed_objects_evolves ids : evolving (clean_destroyed_objects ids).
Proof. unfold clean_destroyed_objects. evolve. Qed.
Lemma kv_evolves k v :
  evolving (put_kv k v) ∧ evolving (put_kv_if_absent k v) ∧ evolving (delete_kv k).
Proof. unfold put_kv, put_kv_if_absent, delete_kv. split_and!; evolve. Qed.

Lemma register_node_evolves n e addr slots : evolving (register_node n e addr slots).
Proof.
  intros st st' r H. unfold register_node in H.
  apply bindM_Ok_inv in H as (nd & st1 & H1 & H). minv H1.
  assert (Hle : ∀ node, ms_nodes st !! n = Some node → nr_epoch node <= e).
  { intros node Hn. rewrite Hn in H. minv H. bsimp. lia. }
  assert (Hst : ∃ row, st' = set_nodes (<[n := row]> (ms_nodes st)) st ∧ nr_epoch row = e).
  { minv H; eexists; (split; [reflexivity|done]). }
  destruct Hst as (row & -> & He). split; ms_simpl; try lia.
  - intros m node Hm. destruct (decide (n = m)) as [<-|].
    + exists row. rewrite lookup_insert_eq. split; [done|]. rewrite He. auto.
    + exists node. rewrite lookup_insert_ne by done. split; [done|lia].
  - intros s row' Hs _. exists row'. split; [done|reflexivity].
Qed.

Lemma place_stream_evolves s : evolving (place_stream s).
Proof.
  intros st st' r H. unfold place_stream in H. minv H; [reflexivity|]. use_row. bsimp.
  eapply evolves_put; [exact Hs| |by ms_simpl..]. unfold row_le, with_node_id. cbn.
  split_and!; [lia|lia|]. congruence.
Qed.

Lemma open_stream_evolves n e s ep : evolving (open_stream n e s ep).
Proof.
  intros st st' r H. unfold open_stream in H. minv H; [reflexivity|]. use_row. bsimp.
  eapply evolves_put; [exact Hs| |by ms_simpl..]. unfold row_le, opened_row. cbn.
  split_and!; lia.
Qed.

Lemma trim_stream_evolves n e s ep off : evolving (trim_stream n e s ep off).
Proof.
  intros st st' r H. unfold trim_stream in H. minv H. use_opened_row. bsimp.
  eapply evolves_put; [exact Hs| |by ms_simpl..]. unfold row_le, with_start_offset. cbn.
  split_and!; auto; lia.
Qed.

Lemma close_stream_evolves n e s ep : evolving (close_stream n e s ep).
Proof.
  intros st st' r H. unfold close_stream in H. minv H; [reflexivity|]. use_row.
  eapply evolves_put; [exact Hs| |by ms_simpl..]. by unfold row_le, closed_row.
Qed.

Lemma transfer_stream_evolves s f t : evolving (transfer_stream s f t).
Proof. unfold transfer_stream. evolve. Qed.

Lemma complete_transfer_evolves s ep : evolving (complete_transfer s ep).
Proof.
  intros st st' r H. unfold complete_transfer in H. minv H. use_row. bsimp.
  eapply evolves_put; [exact Hs| |by ms_simpl..]. unfold row_le, with_node_id. cbn.
  split_and!; [lia|lia|]. congruence.
Qed.

Lemma delete_stream_evolves n e s ep : evolving (delete_stream n e s ep).
Proof.
  unfold delete_stream.
  assert (Hdel : evolving (updM (λ st, set_streams (delete s (ms_streams st)) st))).
  { intros st st' u H. minv H. split; ms_simpl; eauto with lia.
    intros s' row' [_ Hs]%lookup_delete_Some _. exists row'. split; [done|reflexivity]. }
  evolve.
Qed.

(** New rows only appear at ids the counter had not reached. *)
Lemma evolves_create st st' :
  ms_next_stream_id st <= ms_next_stream_id st' → ms_next_object_id st' = ms_next_object_id st →
  ms_nodes st' = ms_nodes st →
  (∀ s, s < ms_next_stream_id st → ms_streams st' !! s = ms_streams st !! s) → evolves st st'.
Proof.
  intros Hn E1 E2 Hs. split; rewrite ?E1, ?E2; eauto with lia.
  intros s row' Hr Hlt. rewrite Hs in Hr by done. exists row'. split; [done|reflexivity].
Qed.

Lemma create_stream_evolves n e st st' r :
  Inv st → ms_next_stream_id st + 1 < two64 → create_stream n e st = (st', Ok r) →
  evolves st st' ∧ r = RId (ms_next_stream_id st) ∧
  ms_next_stream_id st' = ms_next_stream_id st + 1.
Proof.
  intros HI Hroom H. unfold create_stream in H. minv H. dinv HI. destruct Ist as [Hn _].
  split; [apply evolves_create; ms_simpl; try done|].
  - rewrite wrap_u64_id; [lia|int_lia].
  - intros s Hs. by rewrite lookup_insert_ne by lia.
  - split; [done|]. ms_simpl. apply wrap_u64_id. int_lia.
Qed.

Lemma foldl_fresh_lookup (l : list Z) (m : gmap Z StreamRow) (s : Z) :
  s ∉ l → foldl (λ m s, <[s := fresh_row s]> m) m l !! s = m !! s.
Proof.
  revert m. induction l as [|x l IH]; intros m Hs; [done|]. cbn.
  apply not_elem_of_cons in Hs as [Hne Hs]. rewrite (IH _ Hs). by rewrite lookup_insert_ne.
Qed.

Lemma create_streams_evolves n e count st st' r :
  Inv st → is_u32 count → ms_next_stream_id st + count < two64 →
  create_streams n e count st = (st', Ok r) →
  evolves st st' ∧ r = RId (ms_next_stream_id st) ∧
  ms_next_stream_id st' = ms_next_stream_id st + count.
Proof.
  intros HI Hc Hroom H. unfold create_streams in H. dinv HI. destruct Ist as [Hn _].
  do 4 mstep H. apply bindM_Ok_inv in H as (u & st1 & H1 & H). minv H.
  unfold put_stream in H1.
  rewrite forM_updM, (foldl_set_streams (λ s m, <[s := fresh_row s]> m)) in H1.
  injection H1 as <- _. rewrite !wrap_u64_id by int_lia.
  split; [apply evolves_create; ms_simpl; try done; try int_lia|done].
  intros s Hs. apply foldl_fresh_lookup. rewrite elem_of_range_u64. lia.
Qed.

Lemma prepare_object_evolves n e count ttl now st st' r :
  Inv st → is_u32 count → ms_next_object_id st + count < two64 →
  prepare_object n e count ttl now st = (st', Ok r) →
  evolves st st' ∧ r = RId (ms_next_object_id st) ∧ 1 <= count ∧
  ms_next_object_id st' = ms_next_object_id st + count.
Proof.
  intros HI Hc Hroom H. unfold prepare_object in H. dinv HI. destruct Ipr as [Hn _].
  do 4 mstep H. apply bindM_Ok_inv in H as (u & st1 & H1 & H). minv H. bsimp.
  rewrite wrap_u64_id in H1 by int_lia.
  eapply (forM_inv (λ s, ms_next_stream_id s = ms_next_stream_id st ∧ ms_nodes s = ms_nodes st ∧
    ms_streams s = ms_streams st ∧ ms_next_object_id s = ms_next_object_id st + count))
    in H1; [| |by ms_simpl].
  - destruct H1 as (E1 & E2 & E3 & E4). split_and!; [|done|int_lia|done].
    split; rewrite ?E1, ?E2, ?E3, ?E4; eauto with lia; [int_lia|].
    intros s row' Hr _. exists row'. split; [done|reflexivity].
  - intros id s s' u' _ Hs Hb. minv Hb. by ms_simpl.
Qed.

(** ** Commands and logs *)
Lemma apply_inner_evolves c st st' r :
  Inv st → command_ok c → room st c → apply_inner c st = (st', Ok r) → evolves st st'.
Proof.
  intros HI [Hwf _] (R1 & R2 & _) H. destruct c; cbn [apply_inner] in H;
    cbn [command_wf streams_used objects_used] in *; destruct_and?;
    [ exact (register_node_evolves _ _ _ _ _ _ _ H) | exact (place_stream_evolves _ _ _ _ H)
    | by eapply create_stream_evolves in H as [? _] | exact (open_stream_evolves _ _ _ _ _ _ _ H)
    | exact (trim_stream_evolves _ _ _ _ _ _ _ _ H) | exact (close_stream_evolves _ _ _ _ _ _ _ H)
    | exact (delete_stream_evolves _ _ _ _ _ _ _ H) | by eapply prepare_object_evolves in H as [? _]
    | exact (commit_stream_set_object_evolves _ _ _ _ _ _ _ H) | exact (compact_stream_object_evolves _ _ _ _ _ _ _ H)
    | exact (expire_prepared_objects_evolves _ _ _ _ H) | exact (clean_destroyed_objects_evolves _ _ _ _ H)
    | exact (proj1 (kv_evolves key value) _ _ _ H)
    | exact (proj1 (proj2 (kv_evolves key value)) _ _ _ H)
    | exact (proj2 (proj2 (kv_evolves key [])) _ _ _ H) | exact (transfer_stream_evolves _ _ _ _ _ _ H)
    | exact (complete_transfer_evolves _ _ _ _ _ H) | by eapply create_streams_evolves in H as [? _] ].
Qed.

Lemma apply_evolves c st : Inv st → command_ok c → room st c → evolves st (apply st c).1.
Proof.
  intros HI Hc Hr. unfold apply. destruct (apply_inner c st) as [st' [r|e]] eqn:H; [|reflexivity].
  by eapply apply_inner_evolves.
Qed.

(** A log a replica can be given in state [st]. *)
Fixpoint log_ok (st : MetadataState) (log : list MetadataCommand) : Prop :=
  match log with
  | [] => True
  | c :: log => command_ok c ∧ room st c ∧ log_ok (apply st c).1 log
  end.

Lemma replay_evolves log st :
  Inv st → log_ok st log → Inv (replay st log) ∧ evolves st (replay st log).
Proof.
  revert st. induction log as [|c log IH]; intros st HI Hlog; [split; [done|reflexivity]|].
  destruct Hlog as (Hc & Hr & Hlog). destruct (IH (apply st c).1) as [HI' Hev];
    [by apply apply_Inv|done|]. split; [done|]. etrans; [by apply apply_evolves|exact Hev].
Qed.

(** ** A concrete history used to instantiate the theorems *)
Definition demo_commit : CommitStreamSetObjectRequest := {|
  cr_object_id := 0; cr_object_size := 100;
  cr_stream_ranges := [{| osr_stream_id := 0; osr_epoch := 1; osr_start_offset := 0;
    osr_end_offset := 10; osr_size := 100 |}];
  cr_stream_objects := []; cr_compacted_object_ids := []; cr_attributes := 0 |}.

Definition demo_log : list MetadataCommand := [
  RegisterNode 1 5 "http://a" 4; RegisterNode 2 1 "http://b" 2;
  CreateStream 1 5; PlaceStream 0; OpenStream 1 5 0 1; PrepareObject 1 5 2 1000 0;
  CommitStreamSetObject 1 5 demo_commit 7; PutKv "k" [] ].

Definition demo_state : MetadataState := replay new_state demo_log.

(** Closes typing and counter side conditions on concrete commands. *)
Ltac by_eval :=
  repeat lazymatch goal with
  | |- _ ∧ _ => split
  | |- True => exact I
  | |- Forall _ ?l => let l' := eval hnf in l in change l with l'; constructor
  | |- _ < _ => vm_compute; reflexivity
  | |- _ <= _ => vm_compute; discriminate
  | |- _ = _ => vm_compute; reflexivity
  | |- _ ≠ _ => vm_compute; discriminate
  | |- _ => progress hnf
  end.

Lemma demo_log_ok : log_ok new_state demo_log.
Proof. by_eval. Qed.

Lemma demo_Inv : Inv demo_state.
Proof. apply (replay_evolves demo_log); [apply Inv_new_state|apply demo_log_ok]. Qed.

(** ** Fencing *)

(** The node id and epoch a command is issued under. *)
Definition issuer (c : MetadataCommand) : option (Z * Z) :=
  match c with
  | RegisterNode n e _ _ | CreateStream n e | OpenStream n e _ _ | TrimStream n e _ _ _
  | CloseStream n e _ _ | DeleteStream n e _ _ | PrepareObject n e _ _ _
  | CommitStreamSetObject n e _ _ | CompactStreamObject n e _ _ | CreateStreams n e _ =>
    Some (n, e)
  | _ => None
  end.

(** The stream and stream epoch a command acts under. *)
Definition stream_request (c : MetadataCommand) : option (Z * Z) :=
  match c with
  | OpenStream _ _ s ep | TrimStream _ _ s ep _ | CloseStream _ _ s ep
  | DeleteStream _ _ s ep | CompleteTransfer s ep => Some (s, ep)
  | CompactStreamObject _ _ r _ => Some (cq_stream_id r, wrap_i64 (cq_stream_epoch r))
  | _ => None
  end.

Lemma apply_Err_inv st c st' e : apply st c = (st', Err e) → st' = st.
Proof. unfold apply. destruct (apply_inner c st) as [s [x|y]]; naive_solver. Qed.

Lemma check_node_stale {A} (k : unit → M A) st n node e :
  ms_nodes st !! n = Some node → e < nr_epoch node →
  ∃ m, bindM (check_node n e) k st = (st, Err (NodeEpochMismatch n m)).
Proof.
  intros Hn He. unfold bindM, check_node, tryM, node_epoch_check. rewrite Hn.
  rewrite (proj2 (Z.eqb_neq _ _)) by lia. eauto.
Qed.

(** C9: Once a node is registered under a newer epoch, every later request of
    the old incarnation, register included, fails with a node-epoch error and
    changes nothing, whatever commands ran in between. *)
Theorem stale_node_is_fenced st log n node e c :
  Inv st → log_ok st log → ms_nodes st !! n = Some node → e < nr_epoch node →
  issuer c = Some (n, e) →
  ∃ m, apply (replay st log) c = (replay st log, Err (NodeEpochMismatch n m)).
Proof.
  intros HI Hlog Hn He Hc. destruct (replay_evolves _ _ HI Hlog) as [_ [_ _ Hev _]].
  destruct (Hev _ _ Hn) as (node' & Hn' & Hle). generalize dependent (replay st log).
  intros st' _ Hn'. assert (Hlt : e < nr_epoch node') by lia. unfold apply.
  assert (∃ m, apply_inner c st' = (st', Err (NodeEpochMismatch n m))) as [m ->]; [|eauto].
  destruct c; simplify_eq/=; try by eapply check_node_stale.
  unfold register_node, bindM, getM, ensureM, failM. rewrite Hn'.
  rewrite (proj2 (Z.ltb_lt _ _)) by done. eauto.
Qed.

Lemma stale_node_is_fenced_witness :
  let st := (apply demo_state (RegisterNode 1 6 EmptyString 4)).1 in
  ∃ m, apply (replay st [CreateStream 1 6]) (CreateStream 1 5) =
       (replay st [CreateStream 1 6], Err (NodeEpochMismatch 1 m)).
Proof.
  intros st. apply (stale_node_is_fenced st [CreateStream 1 6] 1
    {| nr_node_id := 1; nr_epoch := 6; nr_http_address := "http://a"; nr_slots := 4 |} 5).
  - apply apply_Inv; [exact demo_Inv|by_eval|by_eval].
  - by_eval.
  - by_eval.
  - by_eval.
  - reflexivity.
Defined.

(** C11: Once a stream reached an epoch, every later request under an older
    stream epoch (open, trim, close, delete, complete-transfer or compaction)
    leaves the state unchanged, whatever commands ran in between; it can
    only be answered with success when the stream was deleted meanwhile. *)
Theorem stale_stream_epoch_is_fenced st log s row ep c :
  Inv st → log_ok st log → ms_streams st !! s = Some row → ep < sr_epoch row →
  stream_request c = Some (s, ep) →
  (apply (replay st log) c).1 = replay st log ∧
  (is_ok (apply (replay st log) c).2 = true → ms_streams (replay st log) !! s = None).
Proof.
  intros HI Hlog Hs Hep Hc. destruct (replay_evolves _ _ HI Hlog) as [_ [_ _ _ Hev]].
  destruct (row_facts _ _ _ HI Hs) as (_ & [_ Hlt] & _). specialize (Hev s).
  generalize dependent (replay st log). intros st' Hev.
  assert (Hnew : ∀ row', ms_streams st' !! s = Some row' → ep < sr_epoch row').
  { intros row' Hr. destruct (Hev _ Hr Hlt) as (row0 & Hs0 & ? & _). simplify_eq. lia. }
  clear dependent row.
  destruct (apply st' c) as [st2 [r|e]] eqn:Ha; [|by apply apply_Err_inv in Ha].
  apply apply_Ok_inv in Ha. cbn [fst snd]. destruct (ms_streams st' !! s) as [row'|] eqn:Hr.
  - exfalso. specialize (Hnew _ eq_refl). destruct c; simplify_eq/=.
    + unfold open_stream in Ha. minv Ha; use_row; bsimp; simplify_eq; lia.
    + unfold trim_stream in Ha. minv Ha. use_opened_row. simplify_eq. lia.
    + unfold close_stream in Ha. minv Ha; use_row; bsimp; simplify_eq; lia.
    + unfold delete_stream in Ha. do 2 mstep Ha. rewrite Hr in Ha. do 2 mstep Ha. bsimp. lia.
    + unfold compact_stream_object in Ha. do 5 mstep Ha. use_row. bsimp. simplify_eq. lia.
    + unfold complete_transfer in Ha. minv Ha. use_row. bsimp. simplify_eq. lia.
  - split; [|done]. destruct c; simplify_eq/=.
    + unfold open_stream in Ha. do 2 mstep Ha. use_row. congruence.
    + unfold trim_stream in Ha. do 2 mstep Ha. use_opened_row. congruence.
    + unfold close_stream in Ha. do 2 mstep Ha. use_row. congruence.
    + unfold delete_stream in Ha. do 2 mstep Ha. rewrite Hr in Ha. by minv Ha.
    + unfold compact_stream_object in Ha. do 4 mstep Ha. use_row. congruence.
    + unfold complete_transfer in Ha. minv Ha. use_row. congruence.
Qed.

Lemma stale_stream_epoch_is_fenced_witness :
  (apply (replay demo_state [CloseStream 1 5 0 1]) (OpenStream 1 5 0 0)).1 =
  replay demo_state [CloseStream 1 5 0 1].
Proof.
  apply (stale_stream_epoch_is_fenced demo_state [CloseStream 1 5 0 1] 0
    {| sr_stream_id := 0; sr_epoch := 1; sr_start_offset := 0; sr_end_offset := 10;
       sr_state := Opened; sr_node_id := 1 |} 0); [exact demo_Inv|by_eval..].
Defined.

(** ** The invariant along every history *)

(** C1: Every state a replica can reach from the empty state satisfies the
    invariant: the secondary indexes agree with the rows, ids lie below
    their counters, and no object id is both a stream-set object and a
    stream object. *)
Theorem reachable_invariant st : reachable st → Inv st.
Proof. induction 1; [apply Inv_new_state|by apply apply_Inv]. Qed.

Lemma reachable_invariant_witness :
  Inv (apply (apply new_state (RegisterNode 1 5 "http://a" 4)).1 (CreateStream 1 5)).1.
Proof.
  apply reachable_invariant. repeat (apply reach_apply; [|by_eval|by_eval]). apply reach_new.
Defined.

(** A granted open leaves the stream open on the caller with the requested
    epoch; the row was there already, or its epoch was lower. *)
Lemma open_stream_grants n e s ep st st' r :
  apply st (OpenStream n e s ep) = (st', Ok r) →
  ∃ row row', ms_streams st !! s = Some row ∧ ms_streams st' !! s = Some row' ∧
    sr_state row' = Opened ∧ sr_epoch row' = ep ∧ sr_node_id row' = n ∧
    (row = row' ∨ sr_epoch row < ep).
Proof.
  unfold apply. destruct (apply_inner _ _) as [st1 [r1|]] eqn:Ha; [|by intros [=]].
  intros [= <- _]. cbn in Ha. unfold open_stream in Ha. minv Ha; use_row; bsimp.
  - eauto 10.
  - eexists _, _. split; [eassumption|]. ms_simpl. rewrite lookup_insert_eq. cbn. eauto 8 with lia.
Qed.

(** C12: A stream has one writer per epoch: when two opens of a stream with
    the same epoch are granted, whatever commands are applied between them,
    the same node asked for both. *)
Theorem one_writer_per_epoch st log s ep n1 e1 n2 e2 r1 r2 :
  Inv st → log_ok st (OpenStream n1 e1 s ep :: log) →
  (apply st (OpenStream n1 e1 s ep)).2 = Ok r1 →
  (apply (replay st (OpenStream n1 e1 s ep :: log)) (OpenStream n2 e2 s ep)).2 = Ok r2 →
  n1 = n2.
Proof.
  intros HI (Hc & Hr & Hlog) H1 H2. pose proof (apply_Inv _ _ HI Hc Hr) as HI1.
  change (replay st (_ :: log)) with (replay (apply st (OpenStream n1 e1 s ep)).1 log) in H2.
  destruct (apply st (OpenStream n1 e1 s ep)) as [st1 ?] eqn:Ha1. cbn in *. subst.
  destruct (apply (replay st1 log) _) as [st2 ?] eqn:Ha. cbn in H2. subst.
  apply open_stream_grants in Ha1 as (_ & row1 & _ & Hs1 & Ho1 & <- & <- & _).
  apply open_stream_grants in Ha as (row & row2 & Hs & _ & Ho2 & He2 & <- & Hrow).
  destruct (row_facts _ _ _ HI1 Hs1) as (_ & [_ Hlt] & _).
  destruct (replay_evolves _ _ HI1 Hlog) as [_ [_ _ _ Hev]].
  destruct (Hev _ _ Hs Hlt) as (row0 & Hs0 & Hle & _ & Hnode). simplify_eq.
  destruct Hrow as [->|]; [|lia]. by destruct Hnode.
Qed.

Definition demo_row (end_offset : Z) : StreamRow := {|
  sr_stream_id := 0; sr_epoch := 1; sr_start_offset := 0; sr_end_offset := end_offset;
  sr_state := Opened; sr_node_id := 1 |}.

Lemma one_writer_per_epoch_witness :
  (apply (replay demo_state [OpenStream 1 5 0 1; OpenStream 2 1 0 1]) (OpenStream 1 5 0 1)).2
    = Ok (RStream (to_stream_metadata (demo_row 10))) ∧ 1 = 1.
Proof.
  split; [by_eval|].
  apply (one_writer_per_epoch demo_state [OpenStream 2 1 0 1] 0 1 1 5 1 5
    (RStream (to_stream_metadata (demo_row 10))) (RStream (to_stream_metadata (demo_row 10))));
    [exact demo_Inv|by_eval..].
Defined.

Lemma apply_step st c st' r :
  Inv st → command_ok c → room st c → apply st c = (st', r) → Inv st' ∧ evolves st st'.
Proof.
  intros HI Hc Hr Ha. replace st' with (apply st c).1 by (by rewrite Ha).
  split; [by apply apply_Inv|by apply apply_evolves].
Qed.

Lemma mark_destroyed_streams o op st st' u :
  mark_destroyed o op st = (st', Ok u) → ms_streams st' = ms_streams st.
Proof. intros (? & ? & ? & -> & _)%mark_destroyed_spec. by ms_simpl. Qed.

Lemma delete_stream_gone n e s ep st st' r :
  delete_stream n e s ep st = (st', Ok r) → ms_streams st' !! s = None.
Proof.
  intros H. unfold delete_stream in H. do 2 mstep H.
  destruct (ms_streams st !! s) as [row|] eqn:Hrow; [|by minv H]. do 3 mstep H.
  apply bindM_Ok_inv in H as (? & st1 & H1 & H).
  apply remove_placed_stream_spec in H1 as (P & -> & _). do 2 mstep H.
  apply bindM_Ok_inv in H as (? & st2 & H2 & H). minv H.
  eapply (forM_inv (λ x, ms_streams x !! s = None)) in H2; [exact H2| |].
  - intros key s1 s2 v _ Hs1 Hb. do 2 mstep Hb. apply mark_destroyed_streams in Hb.
    by rewrite Hb.
  - ms_simpl. apply lookup_delete_eq.
Qed.

(** A deleted stream never comes back: once [DeleteStream] succeeded on an
    existing stream, no later history has a row for that id. *)
Theorem deleted_stream_never_returns st n e s ep row st' r log :
  Inv st → room st (DeleteStream n e s ep) → command_ok (DeleteStream n e s ep) →
  ms_streams st !! s = Some row → apply st (DeleteStream n e s ep) = (st', Ok r) →
  log_ok st' log → ms_streams (replay st' log) !! s = None.
Proof.
  intros HI Hroom Hc Hs Ha Hlog.
  destruct (apply_step _ _ _ _ HI Hc Hroom Ha) as [HI' Hev].
  destruct (row_facts _ _ _ HI Hs) as (_ & [_ Hlt] & _).
  assert (Hgone : ms_streams st' !! s = None).
  { apply apply_Ok_inv in Ha. cbn [apply_inner] in Ha. by apply delete_stream_gone in Ha. }
  destruct (replay_evolves _ _ HI' Hlog) as [_ [_ _ _ Hr]].
  destruct (ms_streams (replay st' log) !! s) eqn:E; [|done].
  destruct (Hr _ _ E) as (? & ? & _); [destruct Hev; lia|congruence].
Qed.

Lemma deleted_stream_never_returns_witness :
  let st := replay demo_state [CloseStream 1 5 0 1] in
  let st' := (apply st (DeleteStream 1 5 0 1)).1 in
  ms_streams (replay st' [CreateStream 1 5; CreateStreams 1 5 3]) !! 0 = None.
Proof.
  intros st st'. apply (deleted_stream_never_returns st 1 5 0 1
    {| sr_stream_id := 0; sr_epoch := 1; sr_start_offset := 0; sr_end_offset := 10;
       sr_state := Closed; sr_node_id := 1 |} st' RUnit); [|by_eval..].
  apply replay_evolves; [exact demo_Inv|by_eval].
Defined.

(** ** Id allocation *)
Lemma apply_create_spec st c st' i :
  Inv st → command_ok c → room st c → 0 < streams_used c → apply st c = (st', Ok (RId i)) →
  i = ms_next_stream_id st ∧ ms_next_stream_id st' = i + streams_used c.
Proof.
  intros HI [Hwf _] [Hr _] Hc Ha. apply apply_Ok_inv in Ha.
  destruct c; cbn in Hr, Hc, Hwf; try lia; cbn [apply_inner streams_used] in *; destruct_and?.
  - apply create_stream_evolves in Ha as (_ & [= ->] & ?); auto.
  - apply create_streams_evolves in Ha as (_ & [= ->] & ?); auto.
Qed.

(** Stream ids are never handed out twice: the ids of a create come after
    all ids of every earlier successful create, single or batched, and no
    row existed for any of them before. *)
Theorem stream_ids_are_fresh st c st1 i log c' st2 i' :
  Inv st → command_ok c → room st c → 0 < streams_used c → apply st c = (st1, Ok (RId i)) →
  log_ok st1 log → command_ok c' → room (replay st1 log) c' → 0 < streams_used c' →
  apply (replay st1 log) c' = (st2, Ok (RId i')) →
  i + streams_used c <= i' ∧ ∀ s, i' <= s → ms_streams (replay st1 log) !! s = None.
Proof.
  intros HI Hc Hr Hu Ha Hlog Hc' Hr' Hu' Ha'.
  destruct (apply_create_spec _ _ _ _ HI Hc Hr Hu Ha) as [-> Hnext].
  destruct (apply_step _ _ _ _ HI Hc Hr Ha) as [HI1 _].
  destruct (replay_evolves _ _ HI1 Hlog) as [HI2 [Hle _ _ _]].
  destruct (apply_create_spec _ _ _ _ HI2 Hc' Hr' Hu' Ha') as [-> _]. split; [lia|].
  intros s Hs. destruct (ms_streams (replay st1 log) !! s) eqn:E; [|done].
  apply row_facts in E as (_ & ? & _); [lia|done].
Qed.

Lemma stream_ids_are_fresh_witness :
  let st1 := (apply demo_state (CreateStreams 1 5 3)).1 in
  let st2 := (apply (replay st1 [CreateStream 1 5]) (CreateStream 2 1)).1 in
  1 + 3 <= 5.
Proof.
  intros st1 st2. apply (stream_ids_are_fresh demo_state (CreateStreams 1 5 3) st1 1
    [CreateStream 1 5] (CreateStream 2 1) st2 5); [exact demo_Inv|by_eval..].
Defined.

(** Object-id leases never overlap: a [PrepareObject] returns a block that
    starts at or after the end of every earlier block, and none of its ids is
    leased at that point. *)
Theorem object_leases_are_disjoint st n e k ttl now st1 i log n' e' k' ttl' now' st2 i' :
  Inv st → command_ok (PrepareObject n e k ttl now) → room st (PrepareObject n e k ttl now) →
  apply st (PrepareObject n e k ttl now) = (st1, Ok (RId i)) → log_ok st1 log →
  command_ok (PrepareObject n' e' k' ttl' now') →
  room (replay st1 log) (PrepareObject n' e' k' ttl' now') →
  apply (replay st1 log) (PrepareObject n' e' k' ttl' now') = (st2, Ok (RId i')) →
  1 <= k ∧ i + k <= i' ∧ ∀ id, i' <= id → ms_prepared (replay st1 log) !! id = None.
Proof.
  intros HI Hc Hr Ha Hlog Hc' Hr' Ha'. pose proof Ha as Ha0.
  apply apply_Ok_inv, prepare_object_evolves in Ha as (_ & [= ->] & Hk & Hnext);
    [|done|apply Hc|apply Hr].
  destruct (apply_step _ _ _ _ HI Hc Hr Ha0) as [HI1 _].
  destruct (replay_evolves _ _ HI1 Hlog) as [HI2 [_ Hle _ _]].
  apply apply_Ok_inv, prepare_object_evolves in Ha' as (_ & [= ->] & _);
    [|done|apply Hc'|apply Hr']. split_and!; [done|lia|].
  intros id Hid. destruct (ms_prepared (replay st1 log) !! id) eqn:E; [|done].
  dinv HI2. destruct Ipr as (_ & _ & Hp). destruct (Hp _ _ E). lia.
Qed.

Lemma object_leases_are_disjoint_witness :
  let st1 := (apply demo_state (PrepareObject 1 5 4 1000 10)).1 in
  let st2 := (apply (replay st1 [ExpirePreparedObjects 2000]) (PrepareObject 2 1 1 5 20)).1 in
  2 + 4 <= 6.
Proof.
  intros st1 st2. apply (object_leases_are_disjoint demo_state 1 5 4 1000 10 st1 2
    [ExpirePreparedObjects 2000] 2 1 1 5 20 st2 6); [exact demo_Inv|by_eval..].
Defined.
