(* ===== verification/MetaEffects.v ===== *)
(** * Effects of single commands

    Frame rules (which fields a command cannot touch), the idempotence that
    makes client retries safe, the exact effect of a commit on the streams,
    and the key-value store as a refinement of a plain map. *)

From Stdlib Require Import ZArith Lia.
From stdpp Require Import base numbers list sorting gmap strings.
From S2P Require Import Prelude StreamTypes MetaState MetaApply MetaInv MetaHistory.

Open Scope Z_scope.

(** ** Frame rules *)
Section Keeps.
Context {T : Type} (f : MetadataState → T).

(** A successful run leaves the field [f] alone. *)
Definition keeps {A} (m : M A) : Prop := ∀ st st' a, m st = (st', Ok a) → f st' = f st.

Lemma keeps_ret {A} (a : A) : keeps (retM a).
Proof. intros st st' b H. by minv H. Qed.
Lemma keeps_get {A} (g : MetadataState → A) : keeps (getM g).
Proof. intros st st' b H. by minv H. Qed.
Lemma keeps_try {A} (g : MetadataState → result A MetadataError) : keeps (tryM g).
Proof. intros st st' b H. by minv H. Qed.
Lemma keeps_fail {A} e : keeps (failM (A := A) e).
Proof. intros st st' b H. minv H. Qed.
Lemma keeps_ensure b e : keeps (ensureM b e).
Proof. intros st st' a H. by minv H. Qed.
Lemma keeps_bind {A B} (m : M A) (k : A → M B) :
  keeps m → (∀ a, keeps (k a)) → keeps (bindM m k).
Proof. intros Hm Hk st st' b (a & st1 & H1 & H2)%bindM_Ok_inv. etrans; [by eapply Hk|by eapply Hm]. Qed.
Lemma keeps_for {A} (l : list A) (body : A → M unit) :
  (∀ x, keeps (body x)) → keeps (forM l body).
Proof.
  intros Hb st st' u H. eapply (forM_inv (λ s, f s = f st)) in H; [exact H| |done].
  intros x s s' v _ Hs Hx. rewrite <-Hs. by eapply Hb.
Qed.
Lemma keeps_use {A} (m : M A) st st' a : keeps m → m st = (st', Ok a) → f st' = f st.
Proof. intros Hk H. by eapply Hk. Qed.
Lemma keeps_upd g : (∀ st, f (g st) = f st) → keeps (updM g).
Proof. intros Hg st st' u H. minv H. apply Hg. Qed.
End Keeps.

Create HintDb frame.
#[export] Hint Resolve keeps_ret keeps_get keeps_try keeps_fail keeps_ensure : frame.

(** Decomposes a computation into statements; [ms_simpl] closes each
    assignment to another field. *)
Ltac frame :=
  repeat first
    [ progress auto with frame
    | match goal with
      | |- keeps _ (bindM _ _) => apply keeps_bind; [|intros ?]
      | |- keeps _ (forM _ _) => apply keeps_for; intros ?
      | |- keeps _ (updM _) => apply keeps_upd; intros ?; ms_simpl; done
      | |- keeps _ (match ?x with _ => _ end) => destruct x
      end ].

(** The fields the object bookkeeping helpers write. *)
Lemma mark_destroyed_keeps {T} (f : MetadataState → T) o op :
  (∀ v st, f (set_mark_destroyed v st) = f st) → (∀ v st, f (set_destroyed_by_id v st) = f st) →
  (∀ v st, f (set_next_destroyed_seq v st) = f st) → keeps f (mark_destroyed o op).
Proof.
  intros H1 H2 H3. unfold mark_destroyed. apply keeps_bind; [auto with frame|].
  intros [seq|]; [apply keeps_upd; intros; apply H1|].
  repeat (apply keeps_bind; [first [apply keeps_get | apply keeps_upd; intros; auto]|intros ?]).
  apply keeps_upd; auto.
Qed.

#[export] Hint Extern 2 (keeps _ (mark_destroyed _ _)) =>
  apply mark_destroyed_keeps; intros; ms_simpl; reflexivity : frame.
#[export] Hint Extern 2 (keeps _ (mark_destroy_objects _ _)) =>
  unfold mark_destroy_objects; frame : frame.
#[export] Hint Extern 2 (keeps _ (check_node _ _)) => apply keeps_try : frame.
#[export] Hint Extern 2 (keeps _ (put_stream _ _)) => unfold put_stream; frame : frame.
#[export] Hint Extern 2 (keeps _ (commit_prepared _)) => unfold commit_prepared; frame : frame.
#[export] Hint Extern 2 (keeps _ (remove_placed_stream _)) =>
  unfold remove_placed_stream; frame : frame.
#[export] Hint Extern 2 (keeps _ (remove_stream_set_object _)) =>
  unfold remove_stream_set_object; frame : frame.
#[export] Hint Extern 2 (keeps _ (insert_stream_object _ _ _ _ _ _ _ _)) =>
  unfold insert_stream_object; frame : frame.
#[export] Hint Extern 2 (keeps _ (advance_end_offset _ _ _ _)) =>
  unfold advance_end_offset; frame : frame.
#[export] Hint Extern 2 (keeps _ (drop_source_object _ _)) =>
  unfold drop_source_object; frame : frame.
#[export] Hint Extern 3 (keeps _ (commit_set_part _ _ _ _ _)) =>
  unfold commit_set_part; frame : frame.
#[export] Hint Extern 3 (keeps _ (commit_stream_object _ _ _ _)) =>
  unfold commit_stream_object; frame : frame.

(** Only [RegisterNode] writes the node table. *)
Lemma apply_inner_keeps_nodes c :
  match c with RegisterNode _ _ _ _ => False | _ => True end → keeps ms_nodes (apply_inner c).
Proof.
  destruct c; intros []; cbn [apply_inner];
    unfold place_stream, create_stream, open_stream, trim_stream, close_stream, delete_stream,
      prepare_object, commit_stream_set_object, compact_stream_object, expire_prepared_objects,
      clean_destroyed_objects, put_kv, put_kv_if_absent, delete_kv, transfer_stream,
      complete_transfer, create_streams; frame.
Qed.

(** ** Running a command *)
Lemma bindM_run {A B} (m : M A) (k : A → M B) st st1 a :
  m st = (st1, Ok a) → bindM m k st = k a st1.
Proof. unfold bindM. by intros ->. Qed.

Lemma check_node_ok st n e st' u :
  check_node n e st = (st', Ok u) →
  st' = st ∧ ∃ node, ms_nodes st !! n = Some node ∧ nr_epoch node = e.
Proof.
  unfold check_node. intros H. minv H. split; [done|]. unfold node_epoch_check in H.
  destruct (ms_nodes st !! n) as [node|]; [|done]. destruct (_ =? e) eqn:E; [|done].
  bsimp. eauto.
Qed.

Lemma check_node_run {A} (k : unit → M A) st n e node :
  ms_nodes st !! n = Some node → nr_epoch node = e → bindM (check_node n e) k st = k tt st.
Proof.
  intros Hn <-. unfold bindM, check_node, tryM, node_epoch_check. by rewrite Hn, Z.eqb_refl.
Qed.

(** Commands whose retry, after a success whose reply was lost, must be
    answered the same way. *)
Definition retry_same (c : MetadataCommand) : bool :=
  match c with
  | RegisterNode _ _ _ _ | PlaceStream _ | OpenStream _ _ _ _ | TrimStream _ _ _ _ _
  | CloseStream _ _ _ _ | DeleteStream _ _ _ _ | CleanDestroyedObjects _ | PutKv _ _
  | PutKvIfAbsent _ _ | TransferStream _ _ _ => true
  | _ => false
  end.

Lemma register_node_retry n e addr slots st st' r :
  register_node n e addr slots st = (st', Ok r) →
  register_node n e addr slots st' = (st', Ok r).
Proof.
  intros H. unfold register_node in *.
  apply bindM_Ok_inv in H as (nd & st1 & H1 & H). minv H1.
  apply bindM_Ok_inv in H as (u & st1 & H1 & H).
  assert (st1 = st) as -> by (by minv H1). minv H.
  unfold bindM at 1. unfold getM. ms_simpl. rewrite lookup_insert_eq. cbn [nr_epoch nr_http_address].
  rewrite Z.ltb_irrefl. cbn [negb]. unfold ensureM, bindM, retM, updM. ms_simpl.
  destruct addr; unfold set_nodes; ms_simpl; by rewrite insert_insert_eq.
Qed.

Lemma place_stream_retry s st st' r :
  Inv st → place_stream s st = (st', Ok r) → place_stream s st' = (st', Ok r).
Proof.
  intros HI H. pose proof H as H0. unfold place_stream in H0. minv H0; [done|].
  use_row. bsimp. unfold place_stream, bindM at 1, tryM, require_stream. ms_simpl.
  rewrite lookup_insert_eq. cbn [sr_node_id with_node_id].
  match goal with Hw : place_winner st = Some (?w, _) |- _ =>
    apply place_winner_elem in Hw as (node & Hn & _);
    dinv HI; apply Ino in Hn as (_ & Hne & _); rewrite (proj2 (Z.eqb_neq w (-1))) by done end.
  done.
Qed.

Lemma open_stream_retry n e s ep st st' r :
  open_stream n e s ep st = (st', Ok r) → open_stream n e s ep st' = (st', Ok r).
Proof.
  intros H. pose proof H as H0. unfold open_stream in H0.
  apply bindM_Ok_inv in H0 as (u & st1 & Hc & H0).
  apply check_node_ok in Hc as (-> & node & Hn & He). minv H0; [done|].
  use_row. unfold open_stream.
  rewrite (check_node_run _ _ n e node) by done.
  unfold bindM at 1, tryM, require_stream. ms_simpl. rewrite lookup_insert_eq.
  cbn [sr_epoch sr_state sr_node_id opened_row].
  by rewrite Z.ltb_irrefl, !Z.eqb_refl.
Qed.

Lemma trim_stream_retry n e s ep off st st' r :
  trim_stream n e s ep off st = (st', Ok r) → trim_stream n e s ep off st' = (st', Ok r).
Proof.
  intros H. unfold trim_stream in H.
  apply bindM_Ok_inv in H as (u & st1 & Hc & H).
  apply check_node_ok in Hc as (-> & node & Hn & He). minv H. use_opened_row. bsimp.
  unfold trim_stream. rewrite (check_node_run _ _ n e node) by done.
  unfold bindM at 1, tryM, require_opened_stream, require_stream. ms_simpl.
  rewrite lookup_insert_eq. cbn [rbind sr_epoch sr_state with_start_offset].
  rewrite bool_decide_eq_false_2 by (rewrite Hopened; auto). rewrite Hepoch, Z.eqb_refl.
  cbn [negb]. unfold bindM, ensureM, put_stream, updM, retM. cbn [sr_start_offset sr_end_offset with_start_offset].
  rewrite Z.ltb_irrefl, (proj2 (Z.ltb_ge (sr_end_offset row) off)) by lia. cbn [negb].
  unfold set_streams; ms_simpl. by rewrite insert_insert_eq.
Qed.

Lemma close_stream_retry n e s ep st st' r :
  close_stream n e s ep st = (st', Ok r) → close_stream n e s ep st' = (st', Ok r).
Proof.
  intros H. pose proof H as H0. unfold close_stream in H0.
  apply bindM_Ok_inv in H0 as (u & st1 & Hc & H0).
  apply check_node_ok in Hc as (-> & node & Hn & He). minv H0; [done|]. bsimp.
  unfold close_stream. rewrite (check_node_run _ _ n e node) by done.
  unfold bindM at 1, tryM, require_stream. ms_simpl. rewrite lookup_insert_eq.
  cbn [sr_epoch sr_state closed_row]. subst ep. by rewrite Z.eqb_refl.
Qed.

Lemma transfer_stream_retry s f t st st' r :
  transfer_stream s f t st = (st', Ok r) → transfer_stream s f t st' = (st', Ok r).
Proof.
  intros H. pose proof H as H0. unfold transfer_stream in H0. minv H0; [done|]. use_row.
  unfold transfer_stream, bindM at 1, tryM, require_stream. ms_simpl. rewrite Hs.
  unfold bindM, getM. ms_simpl. rewrite lookup_insert_eq. cbn. by rewrite !Z.eqb_refl.
Qed.

Lemma clean_destroyed_objects_retry ids st st' r :
  clean_destroyed_objects ids st = (st', Ok r) → clean_destroyed_objects ids st' = (st', Ok r).
Proof.
  intros H. unfold clean_destroyed_objects in *. apply bindM_Ok_inv in H as (u & st1 & H & Hr).
  minv Hr. rename st1 into st'. set (body := λ id : Z, _) in *.
  assert (Hgone : ∀ id, id ∈ ids → ms_destroyed_by_id st' !! id = None).
  { clear -H. revert st H. induction ids as [|i ids IH]; intros st H id Hid; [by apply not_elem_of_nil in Hid|].
    apply bindM_Ok_inv in H as (a & st1 & H1 & H). apply elem_of_cons in Hid as [->|Hid]; [|eauto].
    apply (forM_inv (λ s, ms_destroyed_by_id s !! i = None) body ids st1 st' u); [| |exact H].
    - intros x s s' v _ Hs Hb. unfold body in Hb. minv Hb; [|done]. ms_simpl.
      apply lookup_delete_None. auto.
    - unfold body in H1. minv H1; [|done]. ms_simpl. apply lookup_delete_eq. }
  assert (Hrun : ∀ l, (∀ id, id ∈ l → id ∈ ids) → forM l body st' = (st', Ok tt)).
  { induction l as [|i l IH]; intros Hl; [done|]. cbn [forM].
    rewrite (bindM_run _ _ st' st' tt); [apply IH; intros; apply Hl; by right|].
    unfold body, bindM, getM. by rewrite Hgone by (apply Hl; by left). }
  by rewrite (bindM_run _ _ _ _ _ (Hrun ids (λ _ Hi, Hi))).
Qed.

Lemma delete_stream_retry n e s ep st st' r :
  delete_stream n e s ep st = (st', Ok r) → delete_stream n e s ep st' = (st', Ok r).
Proof.
  intros H. pose proof (delete_stream_gone _ _ _ _ _ _ _ H) as Hgone.
  pose proof (apply_inner_keeps_nodes (DeleteStream n e s ep) I _ _ _ H) as Hnodes.
  assert (r = RUnit) as ->.
  { unfold delete_stream in H. do 2 mstep H. destruct (ms_streams st !! s); [|by minv H].
    do 3 mstep H. apply bindM_Ok_inv in H as (? & ? & _ & H). mstep H.
    apply bindM_Ok_inv in H as (? & ? & _ & H). apply bindM_Ok_inv in H as (? & ? & _ & H).
    by minv H. }
  unfold delete_stream in H. apply bindM_Ok_inv in H as (u & st1 & Hc & _).
  apply check_node_ok in Hc as (_ & node & Hn & He).
  unfold delete_stream. rewrite (check_node_run _ _ n e node) by (by rewrite ?Hnodes).
  unfold bindM, getM. by rewrite Hgone.
Qed.

Lemma put_kv_retry k v st st' r : put_kv k v st = (st', Ok r) → put_kv k v st' = (st', Ok r).
Proof.
  intros H. unfold put_kv in *. minv H. unfold bindM, updM, retM, set_kv. ms_simpl.
  by rewrite insert_insert_eq.
Qed.

Lemma put_kv_if_absent_retry k v st st' r :
  put_kv_if_absent k v st = (st', Ok r) → put_kv_if_absent k v st' = (st', Ok r).
Proof.
  intros H. pose proof H as H0. unfold put_kv_if_absent in H0. minv H0; [done|].
  unfold put_kv_if_absent, bindM, getM. ms_simpl. by rewrite lookup_insert_eq.
Qed.

(** Retrying a command that already succeeded is harmless: registration,
    placement, open, trim, close, delete, transfer, queue cleaning and puts
    give the same reply again and leave the state exactly as it is. *)
Theorem retry_is_idempotent st c st' r :
  Inv st → retry_same c = true → apply st c = (st', Ok r) → apply st' c = (st', Ok r).
Proof.
  intros HI Hc Ha%apply_Ok_inv. unfold apply.
  replace (apply_inner c st') with (st', Ok (E := MetadataError) r); [done|]. symmetry.
  destruct c; try discriminate Hc; cbn [apply_inner] in *;
    eauto using register_node_retry, place_stream_retry, open_stream_retry, trim_stream_retry,
      close_stream_retry, delete_stream_retry, clean_destroyed_objects_retry, put_kv_retry,
      put_kv_if_absent_retry, transfer_stream_retry.
Qed.

Lemma retry_is_idempotent_witness :
  let st' := (apply demo_state (CloseStream 1 5 0 1)).1 in
  apply st' (CloseStream 1 5 0 1) = (st', Ok RUnit).
Proof.
  intros st'. apply (retry_is_idempotent demo_state); [exact demo_Inv|by_eval|by_eval].
Defined.

(** ** Retried commits *)

(** A stream object stays committed while further ones are added. *)
Lemma commit_stream_object_ids compact data now so st st' u :
  commit_stream_object compact data now so st = (st', Ok u) →
  ms_stream_object_ids st' !! so_object_id so =
    Some (so_stream_id so, so_start_offset so, so_object_id so) ∧
  ∀ o key, ms_stream_object_ids st !! o = Some key → ms_stream_object_ids st' !! o = Some key.
Proof.
  intros H. unfold commit_stream_object in H. do 1 mstep H.
  apply check_object_id_free_inv in Hm as [_ Hfree].
  apply bindM_Ok_inv in H as (? & st1 & H1 & H).
  assert (E1 : ms_stream_object_ids st1 = ms_stream_object_ids st)
    by (eapply keeps_use; [|exact H1]; auto with frame).
  apply bindM_Ok_inv in H as (? & st2 & H2 & H).
  assert (E2 : ms_stream_object_ids st2 = ms_stream_object_ids st1)
    by (eapply keeps_use; [|exact H2]; auto with frame).
  unfold insert_stream_object in H. minv H. ms_simpl. rewrite E2, E1. split; [apply lookup_insert_eq|].
  intros o key Ho. destruct (decide (so_object_id so = o)) as [<-|].
  - rewrite lookup_insert_eq. destruct Hfree; congruence.
  - by rewrite lookup_insert_ne.
Qed.

Lemma commit_loop_ids compact data now l st st' u :
  forM l (commit_stream_object compact data now) st = (st', Ok u) →
  (∀ so, so ∈ l → ms_stream_object_ids st' !! so_object_id so =
     Some (so_stream_id so, so_start_offset so, so_object_id so)) ∧
  (∀ o key, ms_stream_object_ids st !! o = Some key → ms_stream_object_ids st' !! o = Some key).
Proof.
  revert st. induction l as [|so l IH]; intros st H; cbn [forM] in H.
  - minv H. split; [|done]. intros so Hso. by apply not_elem_of_nil in Hso.
  - apply bindM_Ok_inv in H as (? & st1 & H1 & H).
    apply commit_stream_object_ids in H1 as [Hnew Hkeep]. apply IH in H as [Hl Hk].
    split; [|by auto]. intros so' [->|?]%elem_of_cons; auto.
Qed.

(** The phases of a successful commit. *)
Record commit_phases (n e : Z) (req : CommitStreamSetObjectRequest) (now : Z)
    (st st1 st2 st' : MetadataState) (compact : bool) (data : Z) : Prop := {
  cp_node : ∃ node, ms_nodes st !! n = Some node ∧ nr_epoch node = e;
  cp_new : redundant_commit_check st req = Ok tt;
  cp_compact : compact = negb (bool_decide (cr_compacted_object_ids req = []));
  cp_drop : if compact then
      compacted_data_time st (cr_compacted_object_ids req) now = Ok data ∧
      forM (cr_compacted_object_ids req)
        (λ id, remove_stream_set_object id ;;; mark_destroyed id OpDelete) st = (st1, Ok tt)
    else st1 = st ∧ data = now;
  cp_set : if cr_object_id req =? NOOP_OBJECT_ID then st2 = st1
    else commit_set_part n req compact data now st1 = (st2, Ok tt);
  cp_split : forM (cr_stream_objects req) (commit_stream_object compact data now) st2 =
    (st', Ok tt);
}.

Lemma commit_inv n e req now st st' r :
  commit_stream_set_object n e req now st = (st', Ok r) →
  r = RUnit ∧ ∃ st1 st2 compact data, commit_phases n e req now st st1 st2 st' compact data.
Proof.
  intros H. unfold commit_stream_set_object in H.
  apply bindM_Ok_inv in H as (? & st0 & Hc & H). apply check_node_ok in Hc as (-> & Hnode).
  apply bindM_Ok_inv in H as (u & st0 & Hr & H). minv Hr. apply bindM_Ok_inv in H as (data & st1 & H1 & H).
  apply bindM_Ok_inv in H as ([] & st2 & H2 & H). apply bindM_Ok_inv in H as ([] & st3 & H3 & H).
  minv H. split; [done|]. exists st1, st2, (negb (bool_decide (cr_compacted_object_ids req = []))), data.
  split; auto.
  - by destruct u.
  - destruct (negb _); [|by minv H1].
    apply bindM_Ok_inv in H1 as (d & s1 & H4 & H1). minv H4.
    apply bindM_Ok_inv in H1 as ([] & s2 & H5 & H1). by minv H1.
  - destruct (cr_object_id req =? NOOP_OBJECT_ID); cbn [negb] in H2; [by minv H2|done].
Qed.

Lemma commit_set_part_present n req compact data now st st' u :
  commit_set_part n req compact data now st = (st', Ok u) →
  is_Some (ms_stream_set_objects st' !! cr_object_id req).
Proof.
  intros H. unfold commit_set_part in H.
  do 4 (apply bindM_Ok_inv in H as (? & ? & _ & H)). minv H. ms_simpl.
  rewrite lookup_insert_eq. eauto.
Qed.

Lemma stream_object_committed_at st s a o :
  ms_stream_object_ids st !! o = Some (s, a, o) → stream_object_committed st s o = true.
Proof. unfold stream_object_committed. intros ->. apply Z.eqb_refl. Qed.

Lemma commit_retry st n e req now st' r now' :
  apply st (CommitStreamSetObject n e req now) = (st', Ok r) →
  cr_object_id req ≠ NOOP_OBJECT_ID ∨ cr_stream_objects req ≠ [] →
  ∃ m, apply st' (CommitStreamSetObject n e req now') = (st', Err (Redundant m)).
Proof.
  intros Ha%apply_Ok_inv Hobj. cbn [apply_inner] in Ha.
  pose proof (apply_inner_keeps_nodes (CommitStreamSetObject n e req now) I _ _ _ Ha) as Hnodes.
  apply commit_inv in Ha as (-> & st1 & st2 & compact & data & [(node & Hn & He) _ _ _ Hset Hl]).
  assert (Hred : ∃ m, redundant_commit_check st' req = Err (Redundant m)).
  { unfold redundant_commit_check. destruct (cr_object_id req =? NOOP_OBJECT_ID) eqn:E; cbn [negb].
    - destruct Hobj as [Hobj|Hobj]; [by bsimp|].
      destruct (cr_stream_objects req) as [|so l] eqn:Eso; [done|]. rewrite <-Eso in *.
      apply commit_loop_ids in Hl as [Hl _].
      replace (forallb _ _) with true; [eauto|]. symmetry. apply forallb_forall.
      intros so' Hso'%list_elem_of_In. by eapply stream_object_committed_at, Hl.
    - apply commit_set_part_present in Hset.
      apply (keeps_use ms_stream_set_objects) in Hl; [|frame]. rewrite Hl.
      rewrite bool_decide_eq_true_2 by done. eauto. }
  destruct Hred as [m Hm]. exists m. unfold apply. cbn [apply_inner].
  unfold commit_stream_set_object. rewrite (check_node_run _ _ n e node) by (by rewrite ?Hnodes).
  unfold bindM at 1, tryM. by rewrite Hm.
Qed.

(** A commit that is retried after it succeeded is recognised: as long as
    it named an object, the retry reports [Redundant] and changes nothing, so
    neither end offsets nor objects are applied twice. *)
Theorem retried_commit_is_redundant st n e req now st' r now' :
  apply st (CommitStreamSetObject n e req now) = (st', Ok r) →
  cr_object_id req ≠ NOOP_OBJECT_ID ∨ cr_stream_objects req ≠ [] →
  ∃ m, apply st' (CommitStreamSetObject n e req now') = (st', Err (Redundant m)).
Proof. apply commit_retry. Qed.

Lemma retried_commit_is_redundant_witness :
  let st := replay new_state (take 6 demo_log) in
  ∃ m, apply (apply st (CommitStreamSetObject 1 5 demo_commit 7)).1
         (CommitStreamSetObject 1 5 demo_commit 9) =
       ((apply st (CommitStreamSetObject 1 5 demo_commit 7)).1, Err (Redundant m)).
Proof.
  intros st. apply (retried_commit_is_redundant st 1 5 demo_commit 7 _ RUnit 9); [by_eval|].
  left. by_eval.
Defined.

(** ** Retried compactions *)
Lemma drop_loop_ids s l st st' u o :
  forM l (drop_source_object s) st = (st', Ok u) → o ∉ l →
  ms_stream_object_ids st' !! o = ms_stream_object_ids st !! o.
Proof.
  intros H Ho. eapply (forM_inv (λ x, ms_stream_object_ids x !! o = ms_stream_object_ids st !! o))
    in H; [exact H| |done].
  intros x s1 s2 v Hx Hs Hb. unfold drop_source_object in Hb. minv Hb; try done. ms_simpl.
  rewrite lookup_delete_ne; [done|]. intros ->. done.
Qed.

Lemma compaction_retry st n e req now st' r now' :
  apply st (CompactStreamObject n e req now) = (st', Ok r) →
  cq_object_id req ≠ NOOP_OBJECT_ID → cq_object_id req ∉ cq_source_object_ids req →
  ∃ m, apply st' (CompactStreamObject n e req now') = (st', Err (Redundant m)).
Proof.
  intros Ha%apply_Ok_inv Hobj Hsrc. cbn [apply_inner] in Ha.
  pose proof (apply_inner_keeps_nodes (CompactStreamObject n e req now) I _ _ _ Ha) as Hnodes.
  apply Z.eqb_neq in Hobj. unfold compact_stream_object in Ha. rewrite Hobj in Ha. cbn [negb] in Ha.
  apply bindM_Ok_inv in Ha as (? & st0 & Hc & H). apply check_node_ok in Hc as (-> & node & Hn & He).
  do 7 mstep H. apply bindM_Ok_inv in H as (? & st1 & _ & H).
  apply bindM_Ok_inv in H as (? & st2 & Hins & H). unfold insert_stream_object in Hins. minv Hins.
  apply bindM_Ok_inv in H as (? & st3 & Hdrop & H).
  apply (drop_loop_ids _ _ _ _ _ (cq_object_id req)) in Hdrop; [|done]. ms_simpl in Hdrop.
  rewrite lookup_insert_eq in Hdrop. apply bindM_Ok_inv in H as (? & st4 & Hmark & H). minv H.
  unfold apply. cbn [apply_inner]. unfold compact_stream_object.
  apply (keeps_use ms_stream_object_ids) in Hmark; [|frame].
  rewrite (check_node_run _ _ n e node) by (by rewrite ?Hnodes). rewrite Hobj. cbn [negb].
  unfold bindM at 1, getM.
  erewrite stream_object_committed_at by (rewrite Hmark; exact Hdrop). cbn. eauto.
Qed.

(** A stream-object compaction that is retried after it succeeded reports
    [Redundant] and changes nothing, provided the object it wrote is not one
    of its own sources. *)
Theorem retried_compaction_is_redundant st n e req now st' r now' :
  apply st (CompactStreamObject n e req now) = (st', Ok r) →
  cq_object_id req ≠ NOOP_OBJECT_ID → cq_object_id req ∉ cq_source_object_ids req →
  ∃ m, apply st' (CompactStreamObject n e req now') = (st', Err (Redundant m)).
Proof. apply compaction_retry. Qed.

Definition demo_split : CommitStreamSetObjectRequest := {|
  cr_object_id := NOOP_OBJECT_ID; cr_object_size := 0; cr_attributes := 0;
  cr_stream_ranges := [];
  cr_stream_objects := [{| so_object_id := 1; so_object_size := 50; so_stream_id := 0;
    so_start_offset := 10; so_end_offset := 20; so_attributes := 0 |}];
  cr_compacted_object_ids := [] |}.

Definition demo_compact : CompactStreamObjectRequest := {|
  cq_object_id := 2; cq_object_size := 50; cq_stream_id := 0; cq_stream_epoch := 1;
  cq_start_offset := 10; cq_end_offset := 20; cq_source_object_ids := [1];
  cq_operations := []; cq_attributes := 0 |}.

Definition demo_split_state : MetadataState :=
  replay demo_state [CommitStreamSetObject 1 5 demo_split 8; PrepareObject 1 5 1 1000 9].

Lemma demo_split_Inv : Inv demo_split_state.
Proof. apply replay_evolves; [exact demo_Inv|by_eval]. Qed.

Lemma retried_compaction_is_redundant_witness :
  ∃ m, apply (apply demo_split_state (CompactStreamObject 1 5 demo_compact 10)).1
         (CompactStreamObject 1 5 demo_compact 11) =
       ((apply demo_split_state (CompactStreamObject 1 5 demo_compact 10)).1, Err (Redundant m)).
Proof.
  apply (retried_compaction_is_redundant demo_split_state 1 5 demo_compact 10 _ RUnit 11);
    [by_eval..|]. cbn. rewrite list_elem_of_singleton. discriminate.
Defined.

(** ** The effect of a commit on the streams *)

(** The ranges a commit appends, in the order it processes them. *)
Definition commit_ranges (req : CommitStreamSetObjectRequest) : list (Z * Z * Z) :=
  (if cr_object_id req =? NOOP_OBJECT_ID then []
   else (λ r, (osr_stream_id r, osr_start_offset r, osr_end_offset r)) <$> cr_stream_ranges req) ++
  ((λ so, (so_stream_id so, so_start_offset so, so_end_offset so)) <$> cr_stream_objects req).

(** Follows the ranges of stream [s] from offset [from]: each must start
    where the previous one ended. *)
Fixpoint chain (s from : Z) (ranges : list (Z * Z * Z)) : option Z :=
  match ranges with
  | [] => Some from
  | (s', a, b) :: ranges =>
    if s' =? s then if a =? from then chain s b ranges else None else chain s from ranges
  end.

(** The row of [s] only moved its end offset, along [ranges]. *)
Definition appended (ranges : list (Z * Z * Z)) (st st' : MetadataState) : Prop :=
  ∀ s row, ms_streams st !! s = Some row →
    ∃ b, chain s (sr_end_offset row) ranges = Some b ∧
      ms_streams st' !! s = Some (with_end_offset row b).

Lemma chain_app s from l1 l2 :
  chain s from (l1 ++ l2) = b ← chain s from l1; chain s b l2.
Proof.
  revert from. induction l1 as [|[[s' a] b] l1 IH]; intros from; [done|]. cbn.
  by repeat case_match.
Qed.

Lemma appended_trans l1 l2 st1 st2 st3 :
  appended l1 st1 st2 → appended l2 st2 st3 → appended (l1 ++ l2) st1 st3.
Proof.
  intros H1 H2 s row Hs. destruct (H1 s row Hs) as (b & Hc & Hs').
  destruct (H2 s _ Hs') as (b' & Hc' & Hs''). exists b'. rewrite chain_app, Hc. done.
Qed.

Lemma appended_nil st st' : ms_streams st' = ms_streams st → appended [] st st'.
Proof.
  intros E s row Hs. exists (sr_end_offset row). split; [done|]. rewrite E, Hs. by destruct row.
Qed.

Lemma advance_appends s a b st st' u :
  advance_end_offset s a b false st = (st', Ok u) → appended [(s, a, b)] st st'.
Proof.
  intros H. unfold advance_end_offset in H. minv H. use_row. bsimp. intros s' row' Hs'. cbn.
  ms_simpl. destruct (s =? s') eqn:E; bsimp; subst.
  - simplify_eq. rewrite Z.eqb_refl, lookup_insert_eq. eauto.
  - rewrite lookup_insert_ne by done. exists (sr_end_offset row'). split; [done|].
    rewrite Hs'. by destruct row'.
Qed.

Lemma appended_keeps l st st1 st2 :
  appended l st st1 → ms_streams st2 = ms_streams st1 → appended l st st2.
Proof. intros H E s row Hs. rewrite E. eauto. Qed.

Lemma appended_loop {A} (f : A → Z * Z * Z) (body : A → M unit) l st st' u :
  (∀ x st st' u, body x st = (st', Ok u) → appended [f x] st st') →
  forM l body st = (st', Ok u) → appended (f <$> l) st st'.
Proof.
  intros Hb. revert st. induction l as [|x l IH]; intros st H; cbn [forM] in H.
  - minv H. by apply appended_nil.
  - apply bindM_Ok_inv in H as (? & st1 & H1 & H).
    change (appended ([f x] ++ (f <$> l)) st st'). eapply appended_trans; eauto.
Qed.

Lemma commit_stream_object_appends data now so st st' u :
  commit_stream_object false data now so st = (st', Ok u) →
  appended [(so_stream_id so, so_start_offset so, so_end_offset so)] st st'.
Proof.
  intros H. unfold commit_stream_object in H. do 1 mstep H.
  apply bindM_Ok_inv in H as (? & st1 & H1 & H). apply (keeps_use ms_streams) in H1; [|frame].
  apply bindM_Ok_inv in H as (? & st2 & H2 & H). apply (keeps_use ms_streams) in H; [|frame].
  apply advance_appends in H2. eapply appended_keeps; [|exact H].
  intros s row. rewrite <-H1. apply H2.
Qed.

Lemma commit_set_part_appends n req data now st st' u :
  commit_set_part n req false data now st = (st', Ok u) →
  appended ((λ r, (osr_stream_id r, osr_start_offset r, osr_end_offset r))
    <$> cr_stream_ranges req) st st'.
Proof.
  intros H. unfold commit_set_part in H. do 1 mstep H.
  apply bindM_Ok_inv in H as (? & st1 & H1 & H). apply (keeps_use ms_streams) in H1; [|frame].
  apply bindM_Ok_inv in H as (? & st2 & H2 & H). apply (keeps_use ms_streams) in H; [|frame].
  apply (appended_loop (λ r, (osr_stream_id r, osr_start_offset r, osr_end_offset r))) in H2;
    [|intros; by eapply advance_appends].
  eapply appended_keeps; [|exact H]. intros s row. rewrite <-H1. apply H2.
Qed.

(** C16: A successful upload commit (nothing compacted) extends every stream
    contiguously: the committed ranges of a stream form a chain starting at
    its old end offset, the new end offset is where the chain ends, and
    nothing else of any stream row changes. *)
Theorem commit_extends_contiguously st n e req now st' r :
  apply st (CommitStreamSetObject n e req now) = (st', Ok r) →
  cr_compacted_object_ids req = [] →
  ∀ s row, ms_streams st !! s = Some row →
    ∃ b, chain s (sr_end_offset row) (commit_ranges req) = Some b ∧
      ms_streams st' !! s = Some (with_end_offset row b).
Proof.
  intros Ha%apply_Ok_inv Hnc. cbn [apply_inner] in Ha.
  apply commit_inv in Ha as (_ & st1 & st2 & compact & data & [_ _ Hcomp Hdrop Hset Hl]).
  rewrite Hnc, bool_decide_eq_true_2 in Hcomp by done. cbn in Hcomp. subst compact.
  destruct Hdrop as [-> ->]. change (appended (commit_ranges req) st st').
  eapply (appended_trans _ _ st st2).
  - destruct (cr_object_id req =? NOOP_OBJECT_ID); [subst; by apply appended_nil|].
    by eapply commit_set_part_appends.
  - eapply appended_loop; [|exact Hl]. intros. by eapply commit_stream_object_appends.
Qed.

Lemma commit_extends_contiguously_witness :
  ∃ b, chain 0 10 (commit_ranges demo_split) = Some b ∧
    ms_streams (apply demo_state (CommitStreamSetObject 1 5 demo_split 8)).1 !! 0 =
    Some (with_end_offset (demo_row 10) b).
Proof.
  apply (commit_extends_contiguously demo_state 1 5 demo_split 8
    (apply demo_state (CommitStreamSetObject 1 5 demo_split 8)).1 RUnit
    ltac:(by_eval) eq_refl 0 (demo_row 10)). by_eval.
Defined.
