(* ===== verification/MetaPolicy.v ===== *)
(** * What the metadata commands guarantee to their users

    The key-value entries as a refinement of a map, the optimality of stream
    placement (index scans against a count over the rows), and the safety of
    the queue of destroyed objects. *)

From Stdlib Require Import ZArith Lia.
From stdpp Require Import base numbers list sorting gmap strings.
From S2P Require Import Prelude StreamTypes MetaState MetaApply MetaInv MetaHistory MetaEffects.

Open Scope Z_scope.

(** ** The key-value entries refine a map *)

(** The abstract store: a map and the three operations on it. *)
Definition kv_step (m : gmap string (list byte)) (c : MetadataCommand) : gmap string (list byte) :=
  match c with
  | PutKv k v => <[k := v]> m
  | PutKvIfAbsent k v => if decide (is_Some (m !! k)) then m else <[k := v]> m
  | DeleteKv k => delete k m
  | _ => m
  end.

Definition kv_reply (m : gmap string (list byte)) (c : MetadataCommand) :
    option (option (list byte)) :=
  match c with
  | PutKv k v => Some (Some v)
  | PutKvIfAbsent k v => Some (Some (default v (m !! k)))
  | DeleteKv k => Some (m !! k)
  | _ => None
  end.

Lemma apply_inner_keeps_kv c :
  match c with PutKv _ _ | PutKvIfAbsent _ _ | DeleteKv _ => False | _ => True end →
  keeps ms_kv (apply_inner c).
Proof.
  destruct c; intros []; cbn [apply_inner];
    unfold register_node, place_stream, create_stream, open_stream, trim_stream, close_stream,
      delete_stream, prepare_object, commit_stream_set_object, compact_stream_object,
      expire_prepared_objects, clean_destroyed_objects, transfer_stream,
      complete_transfer, create_streams; frame.
Qed.

Lemma apply_kv st c : ms_kv (apply st c).1 = kv_step (ms_kv st) c.
Proof.
  destruct c; cbn [kv_step]; try (unfold apply;
    match goal with |- context [apply_inner ?c st] =>
      destruct (apply_inner c st) as [st' [r|e]] eqn:H; [|done];
      exact (apply_inner_keeps_kv c I _ _ _ H) end); try done.
  unfold apply. cbn [apply_inner]. unfold put_kv_if_absent, bindM, getM.
  destruct (ms_kv st !! key) eqn:E; cbn.
  - by rewrite decide_True by eauto.
  - rewrite decide_False; [done|]. intros [? ?]. congruence.
Qed.

(** The key-value entries behave as a map: after any log, whatever other
    commands it mixes in and whether they fail or not, the entries are those
    of the abstract map, and every put, put-if-absent and delete is answered
    as the map answers it. *)
Theorem kv_refines_map log st c :
  ms_kv (replay st log) = foldl kv_step (ms_kv st) log ∧
  ∀ v, kv_reply (foldl kv_step (ms_kv st) log) c = Some v →
    (apply (replay st log) c).2 = Ok (RValue v).
Proof.
  assert (Hkv : ms_kv (replay st log) = foldl kv_step (ms_kv st) log).
  { revert st. induction log as [|c' log IH]; intros st; [done|]. cbn. by rewrite IH, apply_kv. }
  split; [done|]. rewrite <-Hkv. generalize (replay st log). intros st' v Hv.
  destruct c; simplify_eq/=; try done. unfold apply. cbn [apply_inner].
  unfold put_kv_if_absent, bindM, getM. by destruct (ms_kv st' !! key).
Qed.

(** ** Placement *)

(** Streams a node serves or is about to serve, counted on the rows. *)
Definition serves (n : Z) (row : StreamRow) : Prop :=
  sr_node_id row = n ∧ (sr_state row = Opened ∨ is_placed row).
#[export] Instance serves_dec n row : Decision (serves n row).
Proof. unfold serves, is_placed. apply _. Defined.

Definition node_load (st : MetadataState) (n : Z) : Z :=
  Z.of_nat (size (filter (λ p : Z * StreamRow, serves n p.2) (ms_streams st))).

(** The reference score: load per slot, in thousandths. *)
Definition placement_score (st : MetadataState) (n : Z) (node : NodeRow) : Z :=
  node_load st n * 1000 / nr_slots node.

Lemma in_node_range (n n' s : Z) :
  0 <= s <= u64_max → in_range (n, 0) (n, u64_max) (n', s) ↔ n' = n.
Proof.
  intros Hs. unfold in_range, key_le; cbn; unfold pair_le; cbn. split; [|intros ->; lia].
  intros [[[? ?]|[? ?]] [[? ?]|[? ?]]]; lia.
Qed.

Lemma elem_of_node_range (st : MetadataState) (X : gset (Z * Z)) (n : Z) (p : Z * Z) :
  (∀ n s : Z, (n, s) ∈ X → ∃ row, ms_streams st !! s = Some row) → Inv st →
  p ∈ ord_range_set (n, 0) (n, u64_max) X ↔ p.1 = n ∧ p ∈ X.
Proof.
  intros HX HI. destruct p as [n' s]. rewrite elem_of_ord_range_set. cbn.
  split; intros [H1 H2]; (split; [|done]); destruct (HX _ _ H2) as [row Hr];
    destruct (row_facts _ _ _ HI Hr) as (_ & ? & _); dinv HI; destruct Ist as [Hn _];
    revert H1; rewrite in_node_range by int_lia; done.
Qed.

(** The two index scans of [place_stream] count exactly the served rows. *)
Lemma node_scan_counts (st : MetadataState) (n : Z) :
  Inv st →
  Z.of_nat (length (ord_range_set (n, 0) (n, u64_max) (ms_opening_by_node st))) +
  Z.of_nat (length (ord_range_set (n, 0) (n, u64_max) (ms_placed_by_node st))) = node_load st n.
Proof.
  intros HI. pose proof HI as HI'. dinv HI'.
  assert (Ho : ∀ p, p ∈ ord_range_set (n, 0) (n, u64_max) (ms_opening_by_node st) ↔
    p.1 = n ∧ p ∈ ms_opening_by_node st).
  { intros p. apply (elem_of_node_range st); [|done]. intros n' s (row & ? & _)%Iop. eauto. }
  assert (Hp : ∀ p, p ∈ ord_range_set (n, 0) (n, u64_max) (ms_placed_by_node st) ↔
    p.1 = n ∧ p ∈ ms_placed_by_node st).
  { intros p. apply (elem_of_node_range st); [|done]. intros n' s (row & ? & _)%Ipl. eauto. }
  unfold node_load. rewrite <-Nat2Z.inj_add, <-length_app, <-length_map_to_list. f_equal.
  rewrite <-(length_fmap fst (map_to_list _)), <-(length_fmap snd (_ ++ _)).
  apply Permutation_length, NoDup_Permutation.
  - rewrite fmap_app. apply NoDup_app. split_and!.
    + apply NoDup_fmap_2_strong; [|apply NoDup_filter, NoDup_ord_elems].
      intros [] [] [? _]%Ho [? _]%Ho ?. cbn in *. congruence.
    + intros s ([n1 s1] & -> & [? (row & Hr & Hst & _)%Iop]%Ho)%list_elem_of_fmap
        ([n2 s2] & E & [? (row2 & Hr2 & [Hst2 _] & _)%Ipl]%Hp)%list_elem_of_fmap.
      cbn in *. congruence.
    + apply NoDup_fmap_2_strong; [|apply NoDup_filter, NoDup_ord_elems].
      intros [] [] [? _]%Hp [? _]%Hp ?. cbn in *. congruence.
  - apply NoDup_fst_map_to_list.
  - intros s. rewrite fmap_app, elem_of_app, !list_elem_of_fmap. split.
    + intros [([n1 s1] & -> & [Hn (row & Hr & ? & ?)%Iop]%Ho)|
        ([n1 s1] & -> & [Hn (row & Hr & ? & ?)%Ipl]%Hp)]; cbn in *; exists (s1, row);
        (split; [done|]); apply elem_of_map_to_list, map_lookup_filter_Some; cbn;
        unfold serves; (split; [done|split; [congruence|auto]]).
    + intros ([s1 row] & -> & Hr). apply elem_of_map_to_list, map_lookup_filter_Some in Hr
        as [Hr [Hn [Hs|Hs]]]; cbn in *; [left|right]; exists (n, s1); (split; [done|]);
        [apply Ho|apply Hp]; (split; [done|]); [apply Iop|apply Ipl]; eauto.
Qed.

Lemma node_load_bound st n : 0 <= node_load st n <= Z.of_nat (size (ms_streams st)).
Proof.
  unfold node_load. split; [lia|]. apply inj_le. rewrite <-!size_dom.
  apply subseteq_size, dom_filter_subseteq.
Qed.

Lemma node_score_spec st n node :
  Inv st → Z.of_nat (size (ms_streams st)) * 1000 < two64 →
  node_score st n (nr_slots node) = placement_score st n node.
Proof.
  intros HI Hsz. unfold node_score, placement_score. rewrite node_scan_counts by done.
  pose proof (node_load_bound st n). rewrite !wrap_u64_id; [done|int_lia..|].
  rewrite wrap_u64_id; int_lia.
Qed.

(** [(sc, w)] beats [(sc', w')]: a smaller score, or the same and a smaller id. *)
Definition beats (a b : Z * Z) : Prop := a.2 < b.2 ∨ (a.2 = b.2 ∧ a.1 <= b.1).

Lemma place_foldl_best st l acc w sc :
  foldl (place_step st) acc l = Some (w, sc) →
  (∀ p, acc = Some p → beats (w, sc) p) ∧
  ∀ n node, (n, node) ∈ l → 1 <= nr_slots node → beats (w, sc) (n, node_score st n (nr_slots node)).
Proof.
  revert acc. induction l as [|[n node] l IH]; intros acc H.
  - cbn in H. subst. split; [intros p [= <-]; right; cbn; lia|].
    intros n node Hin. by apply not_elem_of_nil in Hin.
  - cbn [foldl] in H. apply IH in H as [Hacc Hl].
    assert (Hstep : (∀ p, acc = Some p → beats (w, sc) p) ∧
      (1 <= nr_slots node → beats (w, sc) (n, node_score st n (nr_slots node)))).
    { unfold place_step in Hacc. destruct (nr_slots node <? 1) eqn:E; bsimp.
      { split; [done|]. lia. }
      destruct acc as [[b bs]|].
      - destruct ((_ <? bs) || _) eqn:E2.
        + specialize (Hacc _ eq_refl). split; [|done]. intros p [= <-].
          apply orb_true_iff in E2 as [?|[? ?]%andb_true_iff]; bsimp;
            destruct Hacc as [?|[? ?]]; cbn in *; unfold beats; cbn; lia.
        + specialize (Hacc _ eq_refl). split; [by intros p [= <-]|]. intros _.
          apply orb_false_iff in E2 as [? [?|?]%andb_false_iff]; bsimp;
            destruct Hacc as [?|[? ?]]; cbn in *; unfold beats; cbn; lia.
      - split; [done|]. intros _. by apply Hacc. }
    split; [apply Hstep|]. intros m node' [[= -> ->]|?]%elem_of_cons; [apply Hstep|by apply Hl].
Qed.

(** Placing an unassigned stream chooses a registered node with slots
    whose load per slot (streams open on it or placed on it, counted on the
    stream rows) is minimal, ties going to the smallest node id; the stream
    row then names that node. *)
Theorem placement_is_least_loaded st s row st' r :
  Inv st → Z.of_nat (size (ms_streams st)) * 1000 < two64 →
  ms_streams st !! s = Some row → sr_node_id row = -1 →
  apply st (PlaceStream s) = (st', Ok r) →
  ∃ w node, r = RId (wrap_u64 w) ∧ ms_nodes st !! w = Some node ∧ 1 <= nr_slots node ∧
    ms_streams st' !! s = Some (with_node_id row w) ∧
    ∀ m other, ms_nodes st !! m = Some other → 1 <= nr_slots other →
      placement_score st w node < placement_score st m other ∨
      (placement_score st w node = placement_score st m other ∧ w <= m).
Proof.
  intros HI Hsz Hs Hun Ha%apply_Ok_inv. cbn [apply_inner] in Ha. unfold place_stream in Ha.
  minv Ha; match goal with Hr : require_stream _ _ = Ok ?x |- _ =>
    apply require_stream_inv in Hr; assert (x = row) by congruence; subst x end; bsimp; [done|].
  match goal with Hw : place_winner st = Some (?w, ?sc) |- _ =>
    destruct (place_winner_elem _ _ _ Hw) as (node & Hn & Hslots & Hsc);
    unfold place_winner in Hw; apply place_foldl_best in Hw as [_ Hbest]; exists w, node end.
  split_and!; [done..|ms_simpl; apply lookup_insert_eq|].
  intros m other Hother Hs2. specialize (Hbest m other ltac:(by apply elem_of_ord_list) Hs2).
  unfold beats in Hbest. cbn in Hbest. rewrite Hsc, !node_score_spec in Hbest by done. done.
Qed.

Lemma placement_is_least_loaded_witness :
  let st := (apply demo_state (CreateStream 1 5)).1 in
  ∃ w node, RId 2 = RId (wrap_u64 w) ∧ ms_nodes st !! w = Some node ∧ 1 <= nr_slots node ∧
    ms_streams (apply st (PlaceStream 1)).1 !! 1 = Some (with_node_id (fresh_row 1) w) ∧
    ∀ m other, ms_nodes st !! m = Some other → 1 <= nr_slots other →
      placement_score st w node < placement_score st m other ∨
      (placement_score st w node = placement_score st m other ∧ w <= m).
Proof.
  intros st. apply (placement_is_least_loaded st 1 (fresh_row 1)); [|by_eval..].
  apply apply_Inv; [exact demo_Inv|by_eval|by_eval].
Defined.

(** ** Garbage collection *)

Definition live (st : MetadataState) (o : Z) : Prop :=
  is_Some (ms_stream_set_objects st !! o) ∨ is_Some (ms_stream_object_ids st !! o).

(** No object waiting for physical deletion is still referenced. *)
Definition gc_safe (st : MetadataState) : Prop :=
  ∀ o, is_Some (ms_destroyed_by_id st !! o) → ¬ live st o.

(** What a committing node promises: the objects it writes are new (never
    queued, and not among those it replaces), and the sources of a
    stream-object compaction are objects of that stream. *)
Definition gc_discipline (st : MetadataState) (c : MetadataCommand) : Prop :=
  match c with
  | CommitStreamSetObject _ _ r _ =>
    (∀ o, (o = cr_object_id r ∧ o ≠ NOOP_OBJECT_ID) ∨ o ∈ (so_object_id <$> cr_stream_objects r) →
       ms_destroyed_by_id st !! o = None ∧ o ∉ cr_compacted_object_ids r)
  | CompactStreamObject _ _ r _ =>
    (cq_object_id r ≠ NOOP_OBJECT_ID →
       ms_destroyed_by_id st !! cq_object_id r = None ∧ cq_object_id r ∉ cq_source_object_ids r) ∧
    (∀ o, o ∈ cq_source_object_ids r → ∃ a, ms_stream_object_ids st !! o = Some (cq_stream_id r, a, o))
  | _ => True
  end.

Lemma mark_destroyed_queue o op st st' u :
  mark_destroyed o op st = (st', Ok u) →
  ms_stream_set_objects st' = ms_stream_set_objects st ∧
  ms_stream_object_ids st' = ms_stream_object_ids st ∧
  ∀ o', is_Some (ms_destroyed_by_id st' !! o') ↔ o' = o ∨ is_Some (ms_destroyed_by_id st !! o').
Proof.
  intros H. split_and!; [eapply keeps_use; [|exact H]; auto with frame..|].
  intros o'. unfold mark_destroyed in H. minv H; ms_simpl.
  - split; [auto|]. intros [->|?]; eauto.
  - destruct (decide (o = o')) as [<-|]; [rewrite lookup_insert_eq; split; eauto|].
    rewrite lookup_insert_ne by done. naive_solver.
Qed.

(** Queueing objects that nothing references keeps the queue safe. *)
Lemma mark_loop_gc {A} (f : A → Z) (g : A → CompactOperations) l st st' u :
  gc_safe st → (∀ x, x ∈ l → ¬ live st (f x)) →
  forM l (λ x, mark_destroyed (f x) (g x)) st = (st', Ok u) → gc_safe st'.
Proof.
  revert st. induction l as [|x l IH]; intros st Hgc Hl H; cbn [forM] in H; [by minv H|].
  apply bindM_Ok_inv in H as (? & st1 & H1 & H).
  apply mark_destroyed_queue in H1 as (E1 & E2 & Hq).
  assert (Hlive : ∀ o, live st1 o ↔ live st o) by (intros o; unfold live; by rewrite E1, E2).
  eapply IH; [| |exact H].
  - intros o [->|?]%Hq; rewrite Hlive; [apply Hl; by left|by apply Hgc].
  - intros y Hy. rewrite Hlive. apply Hl. by right.
Qed.

Lemma mark_destroy_objects_gc ids ops st st' u :
  gc_safe st → (∀ o, o ∈ ids → ¬ live st o) →
  mark_destroy_objects ids ops st = (st', Ok u) → gc_safe st'.
Proof.
  intros Hgc Hids H. unfold mark_destroy_objects in H. destruct ids as [|i ids]; [by minv H|].
  destruct ops as [|op ops]; [by eapply (mark_loop_gc id (λ _, OpDelete))|].
  mstep H. eapply (mark_loop_gc fst snd); [exact Hgc| |exact H].
  intros [o op'] Hin%elem_of_zip_l. by apply Hids.
Qed.

Lemma delete_objects_gc keys st st' u :
  gc_safe st → (∀ key, key ∈ keys → ms_stream_set_objects st !! key.2 = None) →
  forM keys (λ key : StreamOffsetKey,
      updM (λ st, set_stream_objects (delete key (ms_stream_objects st)) st) ;;;
      updM (λ st, set_stream_object_ids (delete key.2 (ms_stream_object_ids st)) st) ;;;
      mark_destroyed key.2 OpDelete) st = (st', Ok u) → gc_safe st'.
Proof.
  revert st. induction keys as [|k keys IH]; intros st Hgc Hk H; cbn [forM] in H; [by minv H|].
  apply bindM_Ok_inv in H as (? & st1 & H1 & H). do 2 mstep H1.
  apply mark_destroyed_queue in H1 as (E1 & E2 & Hq). ms_simpl in E1. ms_simpl in E2.
  eapply IH; [| |exact H].
  - intros o Ho [Hl|Hl]; [rewrite E1 in Hl|rewrite E2 in Hl]; apply Hq in Ho as [->|Ho].
    + rewrite Hk in Hl by (by left). by destruct Hl.
    + ms_simpl in Ho. apply (Hgc o Ho). by left.
    + rewrite lookup_delete_eq in Hl. by destruct Hl.
    + ms_simpl in Ho. destruct Hl as [? [_ Hl]%lookup_delete_Some]. apply (Hgc o Ho). right. eauto.
  - intros key Hin. rewrite E1. apply Hk. by right.
Qed.

Lemma gc_safe_keeps st st' :
  ms_stream_set_objects st' = ms_stream_set_objects st →
  ms_stream_object_ids st' = ms_stream_object_ids st →
  ms_destroyed_by_id st' = ms_destroyed_by_id st → gc_safe st → gc_safe st'.
Proof. intros E1 E2 E3 H o. unfold live. rewrite E1, E2, E3. apply H. Qed.

Lemma delete_stream_gc n e s ep st st' r :
  Inv st → gc_safe st → delete_stream n e s ep st = (st', Ok r) → gc_safe st'.
Proof.
  intros HI Hgc H. unfold delete_stream in H. do 2 mstep H.
  destruct (ms_streams st !! s) as [row|]; [|by minv H]. do 3 mstep H.
  apply bindM_Ok_inv in H as (? & st1 & H1 & H).
  apply remove_placed_stream_spec in H1 as (P & -> & _). do 2 mstep H.
  apply bindM_Ok_inv in H as (? & st2 & H2 & H). minv H.
  eapply delete_objects_gc; [| |exact H2].
  - by eapply gc_safe_keeps; [..|exact Hgc].
  - intros key ([k v] & -> & [_ Hk]%elem_of_ord_range)%list_elem_of_fmap. ms_simpl in Hk. ms_simpl.
    dinv HI. apply Idi. destruct (proj1 Iso _ _ Hk). eauto.
Qed.

(** Dropping compacted stream-set objects queues only what it drops. *)
Lemma compacted_loop_gc ids st st' u :
  gc_safe st → (∀ o, o ∈ ids → ms_stream_object_ids st !! o = None) →
  forM ids (λ id, remove_stream_set_object id ;;; mark_destroyed id OpDelete) st = (st', Ok u) →
  gc_safe st' ∧
  ∀ o, is_Some (ms_destroyed_by_id st' !! o) → o ∈ ids ∨ is_Some (ms_destroyed_by_id st !! o).
Proof.
  revert st. induction ids as [|i ids IH]; intros st Hgc Hids H; cbn [forM] in H; [minv H; auto|].
  apply bindM_Ok_inv in H as (? & st2 & H1 & H). apply bindM_Ok_inv in H1 as (? & st1 & H1 & H2).
  apply remove_stream_set_object_spec in H1 as (rg & bn & -> & _).
  apply mark_destroyed_queue in H2 as (E1 & E2 & Hq). ms_simpl in E1. ms_simpl in E2.
  destruct (IH st2) as [Hgc' Hsub]; [| |exact H|].
  - intros o Ho [Hl|Hl]; [rewrite E1 in Hl|rewrite E2 in Hl]; apply Hq in Ho as [->|Ho].
    + rewrite lookup_delete_eq in Hl. by destruct Hl.
    + destruct Hl as [? [_ Hl]%lookup_delete_Some]. apply (Hgc o Ho). left. eauto.
    + rewrite Hids in Hl by (by left). by destruct Hl.
    + apply (Hgc o Ho). by right.
  - intros o Ho. rewrite E2. apply Hids. by right.
  - split; [done|]. intros o [?|Ho]%Hsub; [left; by right|]. apply Hq in Ho as [->|?]; [left; by left|auto].
Qed.

Lemma commit_set_part_sso n req compact data now st st' u :
  commit_set_part n req compact data now st = (st', Ok u) →
  ∃ row, ms_stream_set_objects st' = <[cr_object_id req := row]> (ms_stream_set_objects st).
Proof.
  intros H. unfold commit_set_part in H. do 1 mstep H.
  apply bindM_Ok_inv in H as (? & s1 & H1 & H). apply bindM_Ok_inv in H as (? & s2 & H2 & H).
  apply bindM_Ok_inv in H as (? & s3 & H3 & H). minv H. ms_simpl.
  apply (keeps_use ms_stream_set_objects) in H1, H2, H3; [|frame..].
  rewrite H3, H2, H1. eauto.
Qed.

Lemma commit_stream_object_effect compact data now so st st' u :
  commit_stream_object compact data now so st = (st', Ok u) →
  ms_stream_set_objects st' = ms_stream_set_objects st ∧
  ms_destroyed_by_id st' = ms_destroyed_by_id st ∧
  ms_stream_object_ids st' =
    <[so_object_id so := (so_stream_id so, so_start_offset so, so_object_id so)]>
      (ms_stream_object_ids st).
Proof.
  intros H. split_and!; [eapply keeps_use; [|exact H]; auto with frame..|].
  unfold commit_stream_object in H. do 1 mstep H.
  apply bindM_Ok_inv in H as (? & s1 & H1 & H). apply bindM_Ok_inv in H as (? & s2 & H2 & H).
  unfold insert_stream_object in H. minv H. ms_simpl.
  apply (keeps_use ms_stream_object_ids) in H1, H2; [|frame..]. by rewrite H2, H1.
Qed.

(** Registering objects the queue does not hold keeps it safe. *)
Lemma gc_safe_add_set st st' o row :
  gc_safe st → ms_destroyed_by_id st !! o = None →
  ms_stream_set_objects st' = <[o := row]> (ms_stream_set_objects st) →
  ms_stream_object_ids st' = ms_stream_object_ids st →
  ms_destroyed_by_id st' = ms_destroyed_by_id st → gc_safe st'.
Proof.
  intros Hgc Hnew E1 E2 E3 o' Ho'. unfold live. rewrite E1, E2. rewrite E3 in Ho'.
  rewrite lookup_insert_ne; [by apply Hgc|]. intros <-. rewrite Hnew in Ho'. by destruct Ho'.
Qed.

Lemma gc_safe_add_object st st' o key :
  gc_safe st → ms_destroyed_by_id st !! o = None →
  ms_stream_set_objects st' = ms_stream_set_objects st →
  ms_stream_object_ids st' = <[o := key]> (ms_stream_object_ids st) →
  ms_destroyed_by_id st' = ms_destroyed_by_id st → gc_safe st'.
Proof.
  intros Hgc Hnew E1 E2 E3 o' Ho'. unfold live. rewrite E1, E2. rewrite E3 in Ho'.
  rewrite lookup_insert_ne; [by apply Hgc|]. intros <-. rewrite Hnew in Ho'. by destruct Ho'.
Qed.

Lemma split_loop_gc compact data now l st st' u :
  gc_safe st → (∀ so, so ∈ l → ms_destroyed_by_id st !! so_object_id so = None) →
  forM l (commit_stream_object compact data now) st = (st', Ok u) → gc_safe st'.
Proof.
  revert st. induction l as [|so l IH]; intros st Hgc Hl H; cbn [forM] in H; [by minv H|].
  apply bindM_Ok_inv in H as (? & st1 & H1 & H).
  apply commit_stream_object_effect in H1 as (E1 & E2 & E3). eapply IH; [| |exact H].
  - eapply gc_safe_add_object; [exact Hgc| |done..]. apply Hl. by left.
  - intros so' Hso'. rewrite E2. apply Hl. by right.
Qed.

Lemma compacted_data_time_live st ids now data :
  compacted_data_time st ids now = Ok data →
  ∀ o, o ∈ ids → is_Some (ms_stream_set_objects st !! o).
Proof.
  revert now. induction ids as [|id ids IH]; intros now H o Ho; [by apply not_elem_of_nil in Ho|].
  cbn in H. destruct (ms_stream_set_objects st !! id) eqn:E; [|done].
  apply elem_of_cons in Ho as [->|Ho]; eauto.
Qed.

Lemma commit_gc n e req now st st' r :
  Inv st → gc_safe st → gc_discipline st (CommitStreamSetObject n e req now) →
  commit_stream_set_object n e req now st = (st', Ok r) → gc_safe st'.
Proof.
  intros HI Hgc Hd H. cbn in Hd.
  apply commit_inv in H as (_ & st1 & st2 & compact & data & [_ _ _ Hdrop Hset Hl]).
  assert (H1 : gc_safe st1 ∧ ∀ o, ms_destroyed_by_id st !! o = None →
    o ∉ cr_compacted_object_ids req → ms_destroyed_by_id st1 !! o = None).
  { destruct compact; [|by destruct Hdrop as [-> _]]. destruct Hdrop as [Hc Hdrop].
    apply compacted_loop_gc in Hdrop as [Hgc1 Hsub]; [|done|].
    - split; [done|]. intros o Ho Hnin. apply eq_None_not_Some. intros [?|[? ?]]%Hsub; congruence.
    - intros o Ho. dinv HI. apply eq_None_not_Some. intros Hs%Idi.
      destruct (compacted_data_time_live st _ now data Hc o Ho). congruence. }
  destruct H1 as [Hgc1 Hnew].
  assert (H2 : gc_safe st2 ∧ ms_destroyed_by_id st2 = ms_destroyed_by_id st1).
  { destruct (cr_object_id req =? NOOP_OBJECT_ID) eqn:E; [by subst|]. bsimp.
    pose proof Hset as Hq. apply (keeps_use ms_destroyed_by_id) in Hq; [|auto with frame].
    pose proof Hset as Hi. apply (keeps_use ms_stream_object_ids) in Hi; [|auto with frame].
    apply commit_set_part_sso in Hset as [row Hset]. split; [|done].
    eapply gc_safe_add_set; [exact Hgc1| |done..]. destruct (Hd (cr_object_id req)); [by left|].
    by apply Hnew. }
  destruct H2 as [Hgc2 Hq]. eapply split_loop_gc; [exact Hgc2| |exact Hl].
  intros so Hso. rewrite Hq. destruct (Hd (so_object_id so)); [|by apply Hnew].
  right. by apply list_elem_of_fmap_2.
Qed.

(** After the drop loop none of the sources is registered. *)
Lemma drop_loop_gone s l st st' u :
  (∀ o, o ∈ l → ms_stream_object_ids st !! o = None ∨
     ∃ a, ms_stream_object_ids st !! o = Some (s, a, o)) →
  forM l (drop_source_object s) st = (st', Ok u) →
  (∀ o, o ∈ l → ms_stream_object_ids st' !! o = None) ∧
  (∀ o, is_Some (ms_stream_object_ids st' !! o) → is_Some (ms_stream_object_ids st !! o)).
Proof.
  revert st. induction l as [|x l IH]; intros st Hl H; cbn [forM] in H.
  - minv H. split; [|done]. intros o Ho. by apply not_elem_of_nil in Ho.
  - apply bindM_Ok_inv in H as (? & st1 & H1 & H).
    assert (E : ms_stream_object_ids st1 = delete x (ms_stream_object_ids st)).
    { unfold drop_source_object in H1. destruct (Hl x) as [Hx|[a Hx]]; [by left|..].
      - mstep H1. rewrite Hx in H1. minv H1. by rewrite delete_id.
      - mstep H1. rewrite Hx in H1. cbn in H1. rewrite Z.eqb_refl in H1. minv H1. by ms_simpl. }
    destruct (IH st1) as [Hgone Hsub]; [|exact H|].
    { intros o Ho. rewrite E. destruct (decide (x = o)) as [<-|]; [left; apply lookup_delete_eq|].
      rewrite lookup_delete_ne by done. apply Hl. by right. }
    split.
    + intros o [->|Ho]%elem_of_cons; [|auto]. apply eq_None_not_Some. intros Hs%Hsub.
      rewrite E, lookup_delete_eq in Hs. by destruct Hs.
    + intros o Ho%Hsub. rewrite E in Ho. destruct Ho as [k [_ ?]%lookup_delete_Some]. eauto.
Qed.

Lemma compact_gc n e req now st st' r :
  Inv st → gc_safe st → gc_discipline st (CompactStreamObject n e req now) →
  compact_stream_object n e req now st = (st', Ok r) → gc_safe st'.
Proof.
  intros HI Hgc [Hnew Hsrc] H. unfold compact_stream_object in H.
  do 7 mstep H. apply bindM_Ok_inv in H as (? & s0 & H0 & H).
  assert (s0 = st) as -> by (by minv H0). clear H0.
  apply bindM_Ok_inv in H as (? & s1 & H1 & H). apply commit_prepared_spec in H1 as (d & -> & _).
  apply bindM_Ok_inv in H as (? & s2 & H2 & H).
  assert (Hs2 : gc_safe s2 ∧ ms_stream_set_objects s2 = ms_stream_set_objects st ∧
    ∀ o, o ∈ cq_source_object_ids req →
      ms_stream_object_ids s2 !! o = ms_stream_object_ids st !! o).
  { destruct (cq_object_id req =? NOOP_OBJECT_ID) eqn:E; cbn [negb] in H2.
    { minv H2. split_and!; [|done..]. by eapply gc_safe_keeps; [..|exact Hgc]. }
    bsimp. destruct (Hnew E) as [Hq Hnin]. unfold insert_stream_object in H2. minv H2. split_and!.
    - by eapply gc_safe_add_object; [exact Hgc|exact Hq|ms_simpl..].
    - done.
    - intros o Ho. ms_simpl. rewrite lookup_insert_ne; [done|]. by intros <-. }
  destruct Hs2 as (Hgc2 & Esso & Eids). apply bindM_Ok_inv in H as (? & s3 & H3 & H).
  assert (E1 : ms_stream_set_objects s3 = ms_stream_set_objects s2)
    by (eapply keeps_use; [|exact H3]; frame).
  assert (E2 : ms_destroyed_by_id s3 = ms_destroyed_by_id s2)
    by (eapply keeps_use; [|exact H3]; frame).
  apply drop_loop_gone in H3 as [Hgone Hsub]; [|intros o Ho; rewrite Eids by done; auto].
  apply bindM_Ok_inv in H as (? & s4 & H4 & H). minv H.
  eapply mark_destroy_objects_gc; [| |exact H4].
  - intros o Ho [Hl|Hl]; rewrite E2 in Ho; apply (Hgc2 o Ho).
    + left. by rewrite <-E1.
    + right. by apply Hsub.
  - intros o Ho [Hl|Hl]; [|rewrite Hgone in Hl by done; by destruct Hl].
    rewrite E1, Esso in Hl. destruct (Hsrc o Ho) as [a Ha]. dinv HI.
    rewrite (Idi o) in Hl by eauto. by destruct Hl.
Qed.

Lemma clean_gc ids st st' r :
  gc_safe st → clean_destroyed_objects ids st = (st', Ok r) → gc_safe st'.
Proof.
  intros Hgc H. unfold clean_destroyed_objects in H. mstep H.
  minv H. eapply (forM_inv gc_safe) in Hm; [exact Hm| |done]. clear.
  intros o s s' u _ Hgc H. minv H; [|done]. intros o' Ho'. ms_simpl in Ho'.
  destruct Ho' as [seq [_ Ho']%lookup_delete_Some]. apply (Hgc o'). eauto.
Qed.

(** The three maps garbage collection reads, as one field. *)
Definition gc_view (st : MetadataState) :=
  (ms_stream_set_objects st, ms_stream_object_ids st, ms_destroyed_by_id st).

Lemma apply_inner_keeps_gc_view c :
  match c with
  | DeleteStream _ _ _ _ | CommitStreamSetObject _ _ _ _ | CompactStreamObject _ _ _ _
  | CleanDestroyedObjects _ => False
  | _ => True
  end → keeps gc_view (apply_inner c).
Proof.
  destruct c; intros []; cbn [apply_inner];
    unfold register_node, place_stream, create_stream, open_stream, trim_stream, close_stream,
      prepare_object, expire_prepared_objects, transfer_stream, complete_transfer, create_streams,
      put_kv, put_kv_if_absent, delete_kv, gc_view; frame.
Qed.

(** Garbage collection never targets a live object: if the committing
    nodes write fresh object ids and compact only objects of the stream they
    name, every command keeps the queue of destroyed objects disjoint from
    the objects that streams still reference. *)
Theorem gc_never_targets_live_objects st c :
  Inv st → gc_safe st → gc_discipline st c → gc_safe (apply st c).1.
Proof.
  intros HI Hgc Hd. unfold apply. destruct (apply_inner c st) as [st' [r|e]] eqn:H; [|done].
  cbn [fst]. destruct c; try (match type of H with apply_inner ?c _ = _ =>
    pose proof (apply_inner_keeps_gc_view c I _ _ _ H) as E; unfold gc_view in E;
    injection E as E1 E2 E3; by eapply gc_safe_keeps; [..|exact Hgc] end);
    cbn [apply_inner] in H.
  - by eapply delete_stream_gc.
  - by eapply commit_gc.
  - by eapply compact_gc.
  - by eapply clean_gc.
Qed.

(** Every command of a log follows the discipline where it is applied. *)
Fixpoint disciplined (st : MetadataState) (log : list MetadataCommand) : Prop :=
  match log with
  | [] => True
  | c :: log => gc_discipline st c ∧ disciplined (apply st c).1 log
  end.

Lemma disciplined_gc log st : Inv st → gc_safe st → log_ok st log → disciplined st log → gc_safe (replay st log).
Proof.
  revert st. induction log as [|c log IH]; intros st HI Hgc Hlog Hd; [done|].
  destruct Hlog as (Hc & Hr & Hlog), Hd as [Hd1 Hd2]. cbn. apply IH; [by apply apply_Inv| |done|done].
  by apply gc_never_targets_live_objects.
Qed.

Lemma gc_never_targets_live_objects_witness :
  gc_safe (apply demo_split_state (CompactStreamObject 1 5 demo_compact 10)).1.
Proof.
  apply gc_never_targets_live_objects; [exact demo_split_Inv| |split].
  - intros o Ho. assert (E : ms_destroyed_by_id demo_split_state = ∅) by (vm_compute; reflexivity).
    rewrite E, lookup_empty in Ho. destruct Ho as [? Ho]. discriminate Ho.
  - intros _. split; [by_eval|]. cbn. rewrite list_elem_of_singleton. discriminate.
  - intros o ->%list_elem_of_singleton. exists 10. by_eval.
Defined.
