(* ===== verification/MetaCodec.v ===== *)
(** * Command wire codec

    [pico-metadata/src/codec.rs]: commands, command batches (one replicated
    log entry) and results as bytes. Each reader comes with its [Codec]
    contract; the theorems say that decoding inverts encoding on well-formed
    values and accepts nothing else. *)

From Stdlib Require Import ZArith Lia.
From Stdlib Require Import Strings.Byte.
From stdpp Require Import base numbers list strings.
From S2P Require Import Prelude StreamTypes MetaState.

Open Scope Z_scope.
Open Scope rust_scope.

Definition CODEC_VERSION : Z := 0.

Inductive CodecError :=
| UnsupportedVersion (version : Z)
| UnknownCommand (code : Z)
| UnknownResult (tag : Z)
| Corrupt (m : message).

Definition truncated (ty : string) : CodecError :=
  Corrupt (fmt ("truncated reading " +:+ ty) []).

(** ** Primitive readers and writers *)
Definition get_u8 : Dec CodecError Z := get_uint_le (truncated "u8") 1.
Definition get_u32 : Dec CodecError Z := get_uint_le (truncated "u32") 4.
Definition get_i32 : Dec CodecError Z := dmap wrap_i32 (get_uint_le (truncated "i32") 4).
Definition get_u64 : Dec CodecError Z := get_uint_le (truncated "u64") 8.
Definition get_i64 : Dec CodecError Z := dmap wrap_i64 (get_uint_le (truncated "i64") 8).

Definition put_str (s : string) : list byte := put_string s.

Definition get_str : Dec CodecError string :=
  get_string (truncated "u32") (Corrupt (fmt "string truncated" []))
    (Corrupt (fmt "invalid utf-8: {}" [])).

Definition get_blob : Dec CodecError (list byte) :=
  get_prefixed (truncated "u32") (Corrupt (fmt "blob truncated" [])).

(** [let n = get_u32(buf)?; for _ in 0..n { v.push(item(buf)?) }] *)
Definition get_vec {A} (item : Dec CodecError A) : Dec CodecError (list A) :=
  get_list (truncated "u32") item.

Definition check_version : Dec CodecError unit :=
  version <~ get_u8 ;;
  if negb (version =? CODEC_VERSION) then dfail (UnsupportedVersion version) else dret tt.

Definition ensure_drained (buf : list byte) : result unit CodecError :=
  match buf with
  | [] => Ok tt
  | _ => Err (Corrupt (fmt "{} trailing bytes" [FInt (Z.of_nat (length buf))]))
  end.

(** ** Requests *)
Definition put_range (range : ObjectStreamRange) : list byte :=
  put_u64_le (osr_stream_id range) ++ put_u64_le (osr_epoch range) ++
  put_u64_le (osr_start_offset range) ++ put_u64_le (osr_end_offset range) ++
  put_u64_le (osr_size range).

Definition get_range : Dec CodecError ObjectStreamRange :=
  stream_id <~ get_u64 ;; epoch <~ get_u64 ;; start_offset <~ get_u64 ;;
  end_offset <~ get_u64 ;; size <~ get_u64 ;;
  dret {| osr_stream_id := stream_id; osr_epoch := epoch; osr_start_offset := start_offset;
          osr_end_offset := end_offset; osr_size := size |}.

Definition put_stream_object (object : StreamObject) : list byte :=
  put_u64_le (so_object_id object) ++ put_u64_le (so_object_size object) ++
  put_u64_le (so_stream_id object) ++ put_u64_le (so_start_offset object) ++
  put_u64_le (so_end_offset object) ++ put_u32_le (so_attributes object).

Definition get_stream_object : Dec CodecError StreamObject :=
  object_id <~ get_u64 ;; object_size <~ get_u64 ;; stream_id <~ get_u64 ;;
  start_offset <~ get_u64 ;; end_offset <~ get_u64 ;; attributes <~ get_u32 ;;
  dret {| so_object_id := object_id; so_object_size := object_size; so_stream_id := stream_id;
          so_start_offset := start_offset; so_end_offset := end_offset;
          so_attributes := attributes |}.

Definition put_commit_request (request : CommitStreamSetObjectRequest) : list byte :=
  put_u64_le (cr_object_id request) ++ put_u64_le (cr_object_size request) ++
  put_u32_le (cr_attributes request) ++ put_list put_range (cr_stream_ranges request) ++
  put_list put_stream_object (cr_stream_objects request) ++
  put_list put_u64_le (cr_compacted_object_ids request).

Definition get_commit_request : Dec CodecError CommitStreamSetObjectRequest :=
  object_id <~ get_u64 ;; object_size <~ get_u64 ;; attributes <~ get_u32 ;;
  stream_ranges <~ get_vec get_range ;;
  stream_objects <~ get_vec get_stream_object ;;
  compacted_object_ids <~ get_vec get_u64 ;;
  dret {| cr_object_id := object_id; cr_object_size := object_size; cr_attributes := attributes;
          cr_stream_ranges := stream_ranges; cr_stream_objects := stream_objects;
          cr_compacted_object_ids := compacted_object_ids |}.

Definition put_operation (op : CompactOperations) : list byte :=
  put_u8 (compact_operation_code op).

Definition get_operation : Dec CodecError CompactOperations :=
  code <~ get_u8 ;;
  match code with
  | 0 => dret OpDelete
  | 1 => dret OpKeepData
  | 2 => dret OpDeepDelete
  | other => dfail (Corrupt (fmt "compact operation {}" [FInt other]))
  end.

Definition put_compact_request (request : CompactStreamObjectRequest) : list byte :=
  put_u64_le (cq_object_id request) ++ put_u64_le (cq_object_size request) ++
  put_u64_le (cq_stream_id request) ++ put_u64_le (cq_stream_epoch request) ++
  put_u64_le (cq_start_offset request) ++ put_u64_le (cq_end_offset request) ++
  put_u32_le (cq_attributes request) ++ put_list put_u64_le (cq_source_object_ids request) ++
  put_list put_operation (cq_operations request).

Definition get_compact_request : Dec CodecError CompactStreamObjectRequest :=
  object_id <~ get_u64 ;; object_size <~ get_u64 ;; stream_id <~ get_u64 ;;
  stream_epoch <~ get_u64 ;; start_offset <~ get_u64 ;; end_offset <~ get_u64 ;;
  attributes <~ get_u32 ;; source_object_ids <~ get_vec get_u64 ;;
  operations <~ get_vec get_operation ;;
  dret {| cq_object_id := object_id; cq_object_size := object_size; cq_stream_id := stream_id;
          cq_stream_epoch := stream_epoch; cq_start_offset := start_offset;
          cq_end_offset := end_offset; cq_source_object_ids := source_object_ids;
          cq_operations := operations; cq_attributes := attributes |}.

(** ** Command bodies: the type byte, then the fields in declaration order *)
Definition put_fields (command : MetadataCommand) : list byte :=
  match command with
  | RegisterNode node_id node_epoch http_address slots =>
    put_i32_le node_id ++ put_i64_le node_epoch ++ put_str http_address ++ put_u32_le slots
  | CreateStream node_id node_epoch => put_i32_le node_id ++ put_i64_le node_epoch
  | OpenStream node_id node_epoch stream_id epoch
  | CloseStream node_id node_epoch stream_id epoch
  | DeleteStream node_id node_epoch stream_id epoch =>
    put_i32_le node_id ++ put_i64_le node_epoch ++ put_u64_le stream_id ++ put_i64_le epoch
  | TrimStream node_id node_epoch stream_id epoch new_start_offset =>
    put_i32_le node_id ++ put_i64_le node_epoch ++ put_u64_le stream_id ++ put_i64_le epoch ++
    put_u64_le new_start_offset
  | PrepareObject node_id node_epoch count ttl_ms now_ms =>
    put_i32_le node_id ++ put_i64_le node_epoch ++ put_u32_le count ++ put_i64_le ttl_ms ++
    put_i64_le now_ms
  | CommitStreamSetObject node_id node_epoch request now_ms =>
    put_i32_le node_id ++ put_i64_le node_epoch ++ put_i64_le now_ms ++
    put_commit_request request
  | CompactStreamObject node_id node_epoch request now_ms =>
    put_i32_le node_id ++ put_i64_le node_epoch ++ put_i64_le now_ms ++
    put_compact_request request
  | ExpirePreparedObjects now_ms => put_i64_le now_ms
  | CleanDestroyedObjects object_ids => put_list put_u64_le object_ids
  | PutKv key value | PutKvIfAbsent key value => put_str key ++ put_blob value
  | DeleteKv key => put_str key
  | TransferStream stream_id from_node to_node =>
    put_u64_le stream_id ++ put_i32_le from_node ++ put_i32_le to_node
  | CompleteTransfer stream_id epoch => put_u64_le stream_id ++ put_i64_le epoch
  | CreateStreams node_id node_epoch count =>
    put_i32_le node_id ++ put_i64_le node_epoch ++ put_u32_le count
  | PlaceStream stream_id => put_u64_le stream_id
  end.

Definition put_command_body (command : MetadataCommand) : list byte :=
  put_u8 (type_code command) ++ put_fields command.

Definition get_command_body : Dec CodecError MetadataCommand :=
  type_code <~ get_u8 ;;
  match type_code with
  | 1 => node_id <~ get_i32 ;; node_epoch <~ get_i64 ;; dret (CreateStream node_id node_epoch)
  | 2 => node_id <~ get_i32 ;; node_epoch <~ get_i64 ;; stream_id <~ get_u64 ;;
         epoch <~ get_i64 ;; dret (OpenStream node_id node_epoch stream_id epoch)
  | 3 => node_id <~ get_i32 ;; node_epoch <~ get_i64 ;; stream_id <~ get_u64 ;;
         epoch <~ get_i64 ;; new_start_offset <~ get_u64 ;;
         dret (TrimStream node_id node_epoch stream_id epoch new_start_offset)
  | 4 => node_id <~ get_i32 ;; node_epoch <~ get_i64 ;; stream_id <~ get_u64 ;;
         epoch <~ get_i64 ;; dret (CloseStream node_id node_epoch stream_id epoch)
  | 5 => node_id <~ get_i32 ;; node_epoch <~ get_i64 ;; stream_id <~ get_u64 ;;
         epoch <~ get_i64 ;; dret (DeleteStream node_id node_epoch stream_id epoch)
  | 6 => node_id <~ get_i32 ;; node_epoch <~ get_i64 ;; count <~ get_u32 ;;
         ttl_ms <~ get_i64 ;; now_ms <~ get_i64 ;;
         dret (PrepareObject node_id node_epoch count ttl_ms now_ms)
  | 7 => node_id <~ get_i32 ;; node_epoch <~ get_i64 ;; now_ms <~ get_i64 ;;
         request <~ get_commit_request ;;
         dret (CommitStreamSetObject node_id node_epoch request now_ms)
  | 8 => node_id <~ get_i32 ;; node_epoch <~ get_i64 ;; now_ms <~ get_i64 ;;
         request <~ get_compact_request ;;
         dret (CompactStreamObject node_id node_epoch request now_ms)
  | 9 => now_ms <~ get_i64 ;; dret (ExpirePreparedObjects now_ms)
  | 10 => node_id <~ get_i32 ;; node_epoch <~ get_i64 ;; http_address <~ get_str ;;
          slots <~ get_u32 ;; dret (RegisterNode node_id node_epoch http_address slots)
  | 11 => object_ids <~ get_vec get_u64 ;; dret (CleanDestroyedObjects object_ids)
  | 12 => key <~ get_str ;; value <~ get_blob ;; dret (PutKv key value)
  | 13 => key <~ get_str ;; value <~ get_blob ;; dret (PutKvIfAbsent key value)
  | 14 => key <~ get_str ;; dret (DeleteKv key)
  | 15 => stream_id <~ get_u64 ;; from_node <~ get_i32 ;; to_node <~ get_i32 ;;
          dret (TransferStream stream_id from_node to_node)
  | 16 => stream_id <~ get_u64 ;; epoch <~ get_i64 ;; dret (CompleteTransfer stream_id epoch)
  | 17 => node_id <~ get_i32 ;; node_epoch <~ get_i64 ;; count <~ get_u32 ;;
          dret (CreateStreams node_id node_epoch count)
  | 18 => stream_id <~ get_u64 ;; dret (PlaceStream stream_id)
  | other => dfail (UnknownCommand other)
  end.

(** ** Whole entries *)
Definition encode_command (command : MetadataCommand) : list byte :=
  put_u8 CODEC_VERSION ++ put_command_body command.

(** [body] between the version byte and the end of the buffer. *)
Definition decode_entry {A} (body : Dec CodecError A) (bytes : list byte) : result A CodecError :=
  let? read := (_ <~ check_version ;; body) bytes in
  let? _ := ensure_drained read.2 in
  Ok read.1.

Definition decode_command (bytes : list byte) : result MetadataCommand CodecError :=
  decode_entry get_command_body bytes.

Definition encode_batch (commands : list MetadataCommand) : list byte :=
  put_u8 CODEC_VERSION ++ put_list put_command_body commands.

Definition decode_batch (bytes : list byte) : result (list MetadataCommand) CodecError :=
  decode_entry (get_vec get_command_body) bytes.

(** ** Results: tag 4 is reserved *)
Definition stream_state_code (state : StreamState) : Z :=
  match state with Closed => 0 | Opened => 1 end.

Definition put_state (state : StreamState) : list byte := put_u8 (stream_state_code state).

Definition get_state : Dec CodecError StreamState :=
  code <~ get_u8 ;;
  match code with
  | 0 => dret Closed
  | 1 => dret Opened
  | other => dfail (Corrupt (fmt "stream state {}" [FInt other]))
  end.

Definition put_stream_metadata (metadata : StreamMetadata) : list byte :=
  put_u64_le (sm_stream_id metadata) ++ put_u64_le (sm_epoch metadata) ++
  put_u64_le (sm_start_offset metadata) ++ put_u64_le (sm_end_offset metadata) ++
  put_state (sm_state metadata) ++ put_i32_le (sm_node_id metadata).

Definition get_stream_metadata : Dec CodecError StreamMetadata :=
  stream_id <~ get_u64 ;; epoch <~ get_u64 ;; start_offset <~ get_u64 ;;
  end_offset <~ get_u64 ;; state <~ get_state ;; node_id <~ get_i32 ;;
  dret {| sm_stream_id := stream_id; sm_epoch := epoch; sm_start_offset := start_offset;
          sm_end_offset := end_offset; sm_state := state; sm_node_id := node_id |}.

Definition put_result_body (r : MetadataResult) : list byte :=
  match r with
  | RUnit => put_u8 0
  | RId id => put_u8 1 ++ put_u64_le id
  | RCount count => put_u8 2 ++ put_u64_le count
  | RStream metadata => put_u8 3 ++ put_stream_metadata metadata
  | RValue (Some value) => put_u8 5 ++ put_blob value
  | RValue None => put_u8 6
  end.

Definition encode_result (r : MetadataResult) : list byte :=
  put_u8 CODEC_VERSION ++ put_result_body r.

Definition get_value : Dec CodecError (list byte) :=
  get_prefixed (truncated "u32") (Corrupt (fmt "value truncated" [])).

Definition get_result_body : Dec CodecError MetadataResult :=
  tag <~ get_u8 ;;
  match tag with
  | 0 => dret RUnit
  | 1 => id <~ get_u64 ;; dret (RId id)
  | 2 => count <~ get_u64 ;; dret (RCount count)
  | 3 => metadata <~ get_stream_metadata ;; dret (RStream metadata)
  | 5 => value <~ get_value ;; dret (RValue (Some value))
  | 6 => dret (RValue None)
  | other => dfail (UnknownResult other)
  end.

Definition decode_result (bytes : list byte) : result MetadataResult CodecError :=
  decode_entry get_result_body bytes.

(** ** Contracts of the readers *)
#[export] Instance codec_get_u8 : Codec get_u8 is_u8 put_u8 := codec_u8_le _.
#[export] Instance codec_get_u32 : Codec get_u32 is_u32 put_u32_le := codec_u32_le _.
#[export] Instance codec_get_i32 : Codec get_i32 is_i32 put_i32_le := codec_i32_le _.
#[export] Instance codec_get_u64 : Codec get_u64 is_u64 put_u64_le := codec_u64_le _.
#[export] Instance codec_get_i64 : Codec get_i64 is_i64 put_i64_le := codec_i64_le _.
#[export] Instance codec_get_str : Codec get_str string_ok put_str := codec_string _ _ _.
#[export] Instance codec_get_blob : Codec get_blob fits_u32 put_blob := codec_blob _ _.
#[export] Instance codec_get_value : Codec get_value fits_u32 put_blob := codec_blob _ _.
#[export] Instance codec_get_vec {A} (item : Dec CodecError A) P enc `{!Codec item P enc} :
  Codec (get_vec item) (λ l, Forall P l ∧ fits_u32 l) (put_list enc) := codec_list _ item P enc.

#[export] Instance codec_range : Codec get_range osr_typed put_range.
Proof.
  split.
  - intros [] (? & ? & ? & ? & ?). unfold get_range, put_range. cbn in *. dec_run.
  - intros bs a rest H. unfold get_range in H. dec_inv H.
    split; [done|]. unfold put_range. cbn. by rewrite <-!app_assoc.
Qed.

#[export] Instance codec_stream_object : Codec get_stream_object so_typed put_stream_object.
Proof.
  split.
  - intros [] (? & ? & ? & ? & ? & ?). unfold get_stream_object, put_stream_object. cbn in *.
    dec_run.
  - intros bs a rest H. unfold get_stream_object in H. dec_inv H.
    split; [done|]. unfold put_stream_object. cbn. by rewrite <-!app_assoc.
Qed.

#[export] Instance codec_commit_request :
  Codec get_commit_request commit_request_typed put_commit_request.
Proof.
  split.
  - intros [] (? & ? & ? & ? & ? & ? & ? & ? & ?).
    unfold get_commit_request, put_commit_request. cbn in *. dec_run.
  - intros bs a rest H. unfold get_commit_request in H. dec_inv H. destruct_and!.
    split; [by unfold commit_request_typed; split_and!|]. unfold put_commit_request. cbn. by rewrite <-!app_assoc.
Qed.

#[export] Instance codec_operation : Codec get_operation (λ _, True) put_operation.
Proof.
  split.
  - intros op _. unfold get_operation, put_operation.
    eapply decodes_bind_nil; [apply codec_enc; destruct op; cbn; int_lia|].
    destruct op; apply decodes_ret.
  - intros bs op rest H. unfold get_operation in H.
    apply dbind_Ok_inv in H as (code & mid & H1 & H). apply codec_dec in H1 as [_ ->].
    split; [done|]. destruct code as [|[[]|[]|]|]; try discriminate H; by injection H as <- <-.
Qed.

#[export] Instance codec_compact_request :
  Codec get_compact_request compact_request_typed put_compact_request.
Proof.
  split.
  - intros [] (? & ? & ? & ? & ? & ? & ? & ? & ? & ?).
    unfold get_compact_request, put_compact_request. cbn in *. dec_run.
    split; [by apply Forall_true|done].
  - intros bs a rest H. unfold get_compact_request in H. dec_inv H. destruct_and!.
    split; [by unfold compact_request_typed; split_and!|]. unfold put_compact_request. cbn. by rewrite <-!app_assoc.
Qed.

Lemma type_code_u8 c : is_u8 (type_code c).
Proof. destruct c; cbn; int_lia. Qed.

Lemma get_command_body_dec bs c rest :
  get_command_body bs = Ok (c, rest) → command_wf c ∧ bs = put_command_body c ++ rest.
Proof.
  intros H. unfold get_command_body in H.
  apply dbind_Ok_inv in H as (code & mid & H1 & H). apply codec_dec in H1 as [Hc ->].
  destruct code as [|p|p]; try discriminate H.
  do 5 (try (destruct p as [p|p|])); try discriminate H; dec_inv H; destruct_and?;
    (split; [by unfold command_wf; split_and?|]); unfold put_command_body; cbn; by rewrite <-!app_assoc.
Qed.

#[export] Instance codec_command_body : Codec get_command_body command_wf put_command_body.
Proof.
  split; [|apply get_command_body_dec]. intros c Hc. unfold get_command_body, put_command_body.
  eapply decodes_bind; [apply codec_enc, type_code_u8|].
  destruct c; cbn in *; destruct_and?; dec_run.
Qed.

#[export] Instance codec_state :
  Codec get_state (λ _, True) put_state.
Proof.
  split.
  - intros s _. unfold get_state, put_state.
    eapply decodes_bind_nil; [apply codec_enc; destruct s; cbn; int_lia|].
    destruct s; apply decodes_ret.
  - intros bs s rest H. unfold get_state in H.
    apply dbind_Ok_inv in H as (code & mid & H1 & H). apply codec_dec in H1 as [_ ->].
    split; [done|]. destruct code as [|[[]|[]|]|]; try discriminate H; by injection H as <- <-.
Qed.

Definition stream_metadata_typed (m : StreamMetadata) : Prop :=
  is_u64 (sm_stream_id m) ∧ is_u64 (sm_epoch m) ∧ is_u64 (sm_start_offset m) ∧
  is_u64 (sm_end_offset m) ∧ is_i32 (sm_node_id m).

#[export] Instance codec_stream_metadata :
  Codec get_stream_metadata stream_metadata_typed put_stream_metadata.
Proof.
  split.
  - intros [] (? & ? & ? & ? & ?). unfold get_stream_metadata, put_stream_metadata. cbn in *.
    dec_run.
  - intros bs a rest H. unfold get_stream_metadata in H. dec_inv H.
    split; [done|]. unfold put_stream_metadata. cbn. by rewrite <-!app_assoc.
Qed.

Definition result_typed (r : MetadataResult) : Prop :=
  match r with
  | RUnit | RValue None => True
  | RId z | RCount z => is_u64 z
  | RStream m => stream_metadata_typed m
  | RValue (Some v) => fits_u32 v
  end.

Lemma is_u8_lit z : (0 <=? z) && (z <? 256) = true → is_u8 z.
Proof. unfold is_u8. intros [? ?]%andb_true_iff. lia. Qed.

#[export] Instance codec_result_body : Codec get_result_body result_typed put_result_body.
Proof.
  split.
  - intros r Hr. unfold get_result_body, put_result_body.
    destruct r as [| | | |[v|]]; cbn in Hr;
      first [eapply decodes_bind; [apply codec_enc, is_u8_lit; reflexivity|]
            |eapply decodes_bind_nil; [apply codec_enc, is_u8_lit; reflexivity|]];
      cbn beta iota; dec_run.
  - intros bs r rest H. unfold get_result_body in H.
    apply dbind_Ok_inv in H as (code & mid & H1 & H). apply codec_dec in H1 as [_ ->].
    destruct code as [|p|p]; [|do 3 (try (destruct p as [p|p|]))|]; try discriminate H;
      dec_inv H; (split; [done|]); cbn; by rewrite <-?app_assoc.
Qed.

(** ** Whole entries *)
Lemma decode_entry_iff {A} (body : Dec CodecError A) P enc `{!Codec body P enc} bytes a :
  decode_entry body bytes = Ok a ↔ P a ∧ bytes = put_u8 CODEC_VERSION ++ enc a.
Proof.
  unfold decode_entry. split.
  - intros H. inv_rbind H. destruct a0 as [x buf].
    apply dbind_Ok_inv in Hr as (u & mid & Hv & Hb).
    unfold check_version in Hv. apply dbind_Ok_inv in Hv as (v & mid' & Hv & Hb').
    apply codec_dec in Hv as [_ ->]. destruct (v =? CODEC_VERSION) eqn:E; [|done].
    apply Z.eqb_eq in E as ->. injection Hb' as <- <-. cbn in H.
    apply codec_dec in Hb as [Hp ->]. destruct buf; [|done]. injection H as <-.
    by rewrite app_nil_r.
  - intros [Hp ->].
    assert (Hd : decodes (_ <~ check_version ;; body) a (put_u8 CODEC_VERSION ++ enc a)).
    { eapply decodes_bind; [|by apply codec_enc]. unfold check_version.
      eapply decodes_bind_nil; [apply codec_enc, is_u8_lit; reflexivity|]. apply decodes_ret. }
    specialize (Hd []). rewrite app_nil_r in Hd. by rewrite Hd.
Qed.

(** The command codec is exact: a byte string decodes to a command iff it
    is the encoding of that command and the command's fields are in range.
    In particular every command round-trips, and two different byte strings
    never decode to the same command. *)
Theorem decode_command_exact bytes c :
  decode_command bytes = Ok c ↔ command_wf c ∧ bytes = encode_command c.
Proof. exact (decode_entry_iff get_command_body _ _ bytes c). Qed.

(** A log entry is exact: a byte string decodes to a command batch iff it
    is the encoding of that batch, its commands are well formed and their
    number fits the [u32] prefix. *)
Theorem decode_batch_exact bytes commands :
  decode_batch bytes = Ok commands ↔
  (Forall command_wf commands ∧ fits_u32 commands) ∧ bytes = encode_batch commands.
Proof. exact (decode_entry_iff (get_vec get_command_body) _ _ bytes commands). Qed.

(** Results round-trip through the forwarding RPC encoding, and only
    encodings of well-formed results are accepted. *)
Theorem decode_result_exact bytes r :
  decode_result bytes = Ok r ↔ result_typed r ∧ bytes = encode_result r.
Proof. exact (decode_entry_iff get_result_body _ _ bytes r). Qed.
