(* ===== verification/MetaSnapshot.v ===== *)
(** * Snapshots of the metadata state

    [pico-metadata/src/snapshot.rs]: the state is written as its primary rows
    in key order; decoding inserts the rows one by one and rebuilds every
    secondary index on the way. *)

From Stdlib Require Import ZArith Lia.
From Stdlib Require Import Strings.Byte.
From stdpp Require Import base numbers list sorting gmap strings.
From S2P Require Import Prelude StreamTypes MetaState MetaApply MetaInv MetaHistory.

Open Scope Z_scope.
Open Scope rust_scope.

Definition SNAPSHOT_VERSION : Z := 0.

Inductive SnapshotError :=
| SnapUnsupportedVersion (version : Z)
| SnapCorrupt (m : message).

Definition snap_truncated (ty : string) : SnapshotError :=
  SnapCorrupt (fmt ("truncated reading " +:+ ty) []).

Module Snap.
Definition get_u8 : Dec SnapshotError Z := get_uint_le (snap_truncated "u8") 1.
Definition get_u32 : Dec SnapshotError Z := get_uint_le (snap_truncated "u32") 4.
Definition get_i32 : Dec SnapshotError Z := dmap wrap_i32 (get_uint_le (snap_truncated "i32") 4).
Definition get_u64 : Dec SnapshotError Z := get_uint_le (snap_truncated "u64") 8.
Definition get_i64 : Dec SnapshotError Z := dmap wrap_i64 (get_uint_le (snap_truncated "i64") 8).

Definition get_str : Dec SnapshotError string :=
  get_string (snap_truncated "u32") (SnapCorrupt (fmt "string truncated" []))
    (SnapCorrupt (fmt "invalid utf-8: {}" [])).

Definition get_kv_value : Dec SnapshotError (list byte) :=
  get_prefixed (snap_truncated "u32") (SnapCorrupt (fmt "kv value truncated" [])).

(** ** Rows *)
Definition put_state (state : StreamState) : list byte :=
  put_u8 (match state with Closed => 0 | Opened => 1 end).
Definition get_state : Dec SnapshotError StreamState :=
  code <~ get_u8 ;;
  match code with
  | 0 => dret Closed
  | 1 => dret Opened
  | other => dfail (SnapCorrupt (fmt "stream state {}" [FInt other]))
  end.

Definition put_stream_row (row : StreamRow) : list byte :=
  put_u64_le (sr_stream_id row) ++ put_i64_le (sr_epoch row) ++
  put_u64_le (sr_start_offset row) ++ put_u64_le (sr_end_offset row) ++
  put_state (sr_state row) ++ put_i32_le (sr_node_id row).
Definition get_stream_row : Dec SnapshotError StreamRow :=
  stream_id <~ get_u64 ;; epoch <~ get_i64 ;; start_offset <~ get_u64 ;;
  end_offset <~ get_u64 ;; state <~ get_state ;; node_id <~ get_i32 ;;
  dret {| sr_stream_id := stream_id; sr_epoch := epoch; sr_start_offset := start_offset;
          sr_end_offset := end_offset; sr_state := state; sr_node_id := node_id |}.

Definition put_node (node : NodeRow) : list byte :=
  put_i32_le (nr_node_id node) ++ put_i64_le (nr_epoch node) ++
  put_string (nr_http_address node) ++ put_u32_le (nr_slots node).
Definition get_node : Dec SnapshotError NodeRow :=
  node_id <~ get_i32 ;; epoch <~ get_i64 ;; http_address <~ get_str ;; slots <~ get_u32 ;;
  dret {| nr_node_id := node_id; nr_epoch := epoch; nr_http_address := http_address;
          nr_slots := slots |}.

Definition put_lease (lease : Z * Z) : list byte := put_u64_le lease.1 ++ put_i64_le lease.2.
Definition get_lease : Dec SnapshotError (Z * Z) :=
  id <~ get_u64 ;; deadline <~ get_i64 ;; dret (id, deadline).

Definition put_object_type (t : S3ObjectType) : list byte :=
  put_u8 (match t with StreamSet => 0 | StreamObj => 1 end).
Definition get_object_type : Dec SnapshotError S3ObjectType :=
  code <~ get_u8 ;;
  match code with
  | 0 => dret StreamSet
  | 1 => dret StreamObj
  | other => dfail (SnapCorrupt (fmt "object type {}" [FInt other]))
  end.

Definition put_range (range : StreamOffsetRange) : list byte :=
  put_u64_le (sor_stream_id range) ++ put_u64_le (sor_start_offset range) ++
  put_u64_le (sor_end_offset range).
Definition get_range : Dec SnapshotError StreamOffsetRange :=
  stream_id <~ get_u64 ;; start_offset <~ get_u64 ;; end_offset <~ get_u64 ;;
  dret {| sor_stream_id := stream_id; sor_start_offset := start_offset;
          sor_end_offset := end_offset |}.

Definition put_object (object : S3ObjectMetadata) : list byte :=
  put_u64_le (om_object_id object) ++ put_object_type (om_object_type object) ++
  put_u64_le (om_object_size object) ++ put_u32_le (om_attributes object) ++
  put_i64_le (om_committed_timestamp_ms object) ++ put_i64_le (om_data_timestamp_ms object) ++
  put_list put_range (om_offset_ranges object).
Definition get_object : Dec SnapshotError S3ObjectMetadata :=
  object_id <~ get_u64 ;; object_type <~ get_object_type ;; object_size <~ get_u64 ;;
  attributes <~ get_u32 ;; committed_timestamp_ms <~ get_i64 ;;
  data_timestamp_ms <~ get_i64 ;;
  offset_ranges <~ get_list (snap_truncated "u32") get_range ;;
  dret {| om_object_id := object_id; om_object_type := object_type;
          om_offset_ranges := offset_ranges; om_object_size := object_size;
          om_attributes := attributes; om_committed_timestamp_ms := committed_timestamp_ms;
          om_data_timestamp_ms := data_timestamp_ms |}.

Definition put_set_object (row : StreamSetObjectRow) : list byte :=
  put_i32_le (ssr_node_id row) ++ put_object (ssr_object row).
Definition get_set_object : Dec SnapshotError StreamSetObjectRow :=
  node_id <~ get_i32 ;; object <~ get_object ;;
  dret {| ssr_node_id := node_id; ssr_object := object |}.

Definition put_operation (op : CompactOperations) : list byte :=
  put_u8 (compact_operation_code op).
Definition get_operation : Dec SnapshotError CompactOperations :=
  code <~ get_u8 ;;
  match code with
  | 0 => dret OpDelete
  | 1 => dret OpKeepData
  | 2 => dret OpDeepDelete
  | other => dfail (SnapCorrupt (fmt "compact operation {}" [FInt other]))
  end.

Definition put_destroyed (entry : Z * (Z * CompactOperations)) : list byte :=
  put_u64_le entry.1 ++ put_u64_le entry.2.1 ++ put_operation entry.2.2.
Definition get_destroyed : Dec SnapshotError (Z * (Z * CompactOperations)) :=
  seq <~ get_u64 ;; object_id <~ get_u64 ;; op <~ get_operation ;; dret (seq, (object_id, op)).

Definition put_kv_entry (entry : string * list byte) : list byte :=
  put_string entry.1 ++ put_blob entry.2.
Definition get_kv_entry : Dec SnapshotError (string * list byte) :=
  key <~ get_str ;; value <~ get_kv_value ;; dret (key, value).

Definition put_transfer (entry : Z * PendingTransfer) : list byte :=
  put_u64_le entry.1 ++ put_i32_le (pt_from_node entry.2) ++ put_i32_le (pt_to_node entry.2).
Definition get_transfer : Dec SnapshotError (Z * PendingTransfer) :=
  stream_id <~ get_u64 ;; from_node <~ get_i32 ;; to_node <~ get_i32 ;;
  dret (stream_id, {| pt_from_node := from_node; pt_to_node := to_node |}).

(** ** Encoding: counts as [u64], rows in key order *)
Definition put_rows {A} (enc : A → list byte) (rows : list A) : list byte :=
  put_u64_le (Z.of_nat (length rows)) ++ concat (enc <$> rows).
#[global] Arguments put_rows : simpl never.

Definition encode (st : MetadataState) : list byte :=
  put_u8 SNAPSHOT_VERSION ++
  put_u64_le (ms_next_stream_id st) ++
  put_rows put_stream_row (ord_list (ms_streams st)).*2 ++
  put_rows put_node (ord_list (ms_nodes st)).*2 ++
  put_u64_le (ms_next_object_id st) ++
  put_rows put_lease (ord_list (ms_prepared st)) ++
  put_rows put_set_object (ord_list (ms_stream_set_objects st)).*2 ++
  put_rows (λ row, put_object (sjr_object row)) (ord_list (ms_stream_objects st)).*2 ++
  put_rows put_destroyed (ord_list (ms_mark_destroyed st)) ++
  put_u64_le (ms_next_destroyed_seq st) ++
  put_rows put_kv_entry (ord_list (ms_kv st)) ++
  put_rows put_transfer (ord_list (ms_pending_transfers st)).

(** ** Decoding: each row is inserted as it is read, with its index entries *)
Definition insert_stream_row (row : StreamRow) (st : MetadataState) : MetadataState :=
  let st := set_streams (<[sr_stream_id row := row]> (ms_streams st)) st in
  if bool_decide (sr_state row = Opened) then
    set_opening_by_node ({[(sr_node_id row, sr_stream_id row)]} ∪ ms_opening_by_node st) st
  else if bool_decide (sr_state row = Closed) && (sr_epoch row =? -1)
          && negb (sr_node_id row =? -1) then
    set_placed_by_node ({[(sr_node_id row, sr_stream_id row)]} ∪ ms_placed_by_node st) st
  else st.

Definition insert_node (node : NodeRow) (st : MetadataState) : MetadataState :=
  set_nodes (<[nr_node_id node := node]> (ms_nodes st)) st.

Definition insert_lease (lease : Z * Z) (st : MetadataState) : MetadataState :=
  set_prepared_by_deadline ({[(lease.2, lease.1)]} ∪ ms_prepared_by_deadline st)
    (set_prepared (<[lease.1 := lease.2]> (ms_prepared st)) st).

Definition insert_set_object (row : StreamSetObjectRow) (st : MetadataState) : MetadataState :=
  let object := ssr_object row in
  let id := om_object_id object in
  let st := foldl (λ st range,
    set_sso_ranges (<[range_key id range := sor_end_offset range]> (ms_sso_ranges st)) st)
    st (om_offset_ranges object) in
  let st := set_sso_by_node ({[(ssr_node_id row, id)]} ∪ ms_sso_by_node st) st in
  set_stream_set_objects (<[id := row]> (ms_stream_set_objects st)) st.

Definition insert_object_at (key : StreamOffsetKey) (object : S3ObjectMetadata)
    (st : MetadataState) : MetadataState :=
  let st := set_stream_object_ids
    (<[om_object_id object := key]> (ms_stream_object_ids st)) st in
  set_stream_objects (<[key := {| sjr_object := object |}]> (ms_stream_objects st)) st.

Definition insert_destroyed (entry : Z * (Z * CompactOperations)) (st : MetadataState) :
    MetadataState :=
  let st := set_mark_destroyed (<[entry.1 := entry.2]> (ms_mark_destroyed st)) st in
  set_destroyed_by_id (<[entry.2.1 := entry.1]> (ms_destroyed_by_id st)) st.

Definition insert_kv (entry : string * list byte) (st : MetadataState) : MetadataState :=
  set_kv (<[entry.1 := entry.2]> (ms_kv st)) st.

Definition insert_transfer (entry : Z * PendingTransfer) (st : MetadataState) : MetadataState :=
  set_pending_transfers (<[entry.1 := entry.2]> (ms_pending_transfers st)) st.

(** [let [range] = object.offset_ranges.as_slice() else { return Err(..) }] *)
Definition read_stream_object (st : MetadataState) : Dec SnapshotError MetadataState :=
  object <~ get_object ;;
  match om_offset_ranges object with
  | [range] => dret (insert_object_at (range_key (om_object_id object) range) object st)
  | _ => dfail (SnapCorrupt (fmt "stream object must have exactly one range" []))
  end.

Definition read_row {A} (d : Dec SnapshotError A) (ins : A → MetadataState → MetadataState)
    (st : MetadataState) : Dec SnapshotError MetadataState :=
  row <~ d ;; dret (ins row st).

(** [for _ in 0..get_u64(buf)? { .. }] *)
Fixpoint for_count (n : nat) (body : MetadataState → Dec SnapshotError MetadataState)
    (st : MetadataState) : Dec SnapshotError MetadataState :=
  match n with
  | O => dret st
  | S n => st' <~ body st ;; for_count n body st'
  end.

Definition for_rows (body : MetadataState → Dec SnapshotError MetadataState)
    (st : MetadataState) : Dec SnapshotError MetadataState :=
  n <~ get_u64 ;; for_count (Z.to_nat n) body st.

Definition decode_body : Dec SnapshotError MetadataState :=
  version <~ get_u8 ;;
  if negb (version =? SNAPSHOT_VERSION) then dfail (SnapUnsupportedVersion version)
  else
    next_stream_id <~ get_u64 ;;
    st <~ for_rows (read_row get_stream_row insert_stream_row)
      (set_next_stream_id next_stream_id new_state) ;;
    st <~ for_rows (read_row get_node insert_node) st ;;
    next_object_id <~ get_u64 ;;
    st <~ for_rows (read_row get_lease insert_lease) (set_next_object_id next_object_id st) ;;
    st <~ for_rows (read_row get_set_object insert_set_object) st ;;
    st <~ for_rows read_stream_object st ;;
    st <~ for_rows (read_row get_destroyed insert_destroyed) st ;;
    next_destroyed_seq <~ get_u64 ;;
    st <~ for_rows (read_row get_kv_entry insert_kv)
      (set_next_destroyed_seq next_destroyed_seq st) ;;
    for_rows (read_row get_transfer insert_transfer) st.

Definition decode (bytes : list byte) : result MetadataState SnapshotError :=
  let? read := decode_body bytes in
  match read.2 with
  | [] => Ok read.1
  | rest => Err (SnapCorrupt (fmt "{} trailing bytes" [FInt (Z.of_nat (length rest))]))
  end.
End Snap.
Import Snap.

(** ** Contracts of the row readers *)
#[export] Instance snap_codec_u8 : Codec Snap.get_u8 is_u8 put_u8 := codec_u8_le _.
#[export] Instance snap_codec_u32 : Codec Snap.get_u32 is_u32 put_u32_le := codec_u32_le _.
#[export] Instance snap_codec_i32 : Codec Snap.get_i32 is_i32 put_i32_le := codec_i32_le _.
#[export] Instance snap_codec_u64 : Codec Snap.get_u64 is_u64 put_u64_le := codec_u64_le _.
#[export] Instance snap_codec_i64 : Codec Snap.get_i64 is_i64 put_i64_le := codec_i64_le _.
#[export] Instance snap_codec_str : Codec Snap.get_str string_ok put_string := codec_string _ _ _.
#[export] Instance snap_codec_kv_value : Codec Snap.get_kv_value fits_u32 put_blob :=
  codec_blob _ _.

(** Runs an encoder and decoder pair for one row. *)
Lemma decodes_code {A} (enc : A → Z) (dec : Z → Dec SnapshotError A) a :
  is_u8 (enc a) → dec (enc a) = dret a → decodes (dbind Snap.get_u8 dec) a (put_u8 (enc a)).
Proof.
  intros Ha Hd. eapply decodes_bind_nil; [by apply codec_enc|]. rewrite Hd. apply decodes_ret.
Qed.

Lemma decodes_state s : decodes Snap.get_state s (Snap.put_state s).
Proof. apply (decodes_code (λ s, match s with Closed => 0 | Opened => 1 end)); destruct s; done. Qed.
Lemma decodes_object_type t : decodes Snap.get_object_type t (Snap.put_object_type t).
Proof. apply (decodes_code (λ t, match t with StreamSet => 0 | StreamObj => 1 end)); destruct t; done. Qed.
Lemma decodes_operation op : decodes Snap.get_operation op (Snap.put_operation op).
Proof. apply (decodes_code compact_operation_code); destruct op; done. Qed.

(** Reads the next field with a contract or with one of the lemmas above. *)
Ltac row_run :=
  repeat first
    [ eapply decodes_bind;
      [first [apply decodes_state|apply decodes_object_type|apply decodes_operation
             |by apply codec_enc; auto]|]; cbn beta
    | eapply decodes_bind_nil;
      [first [apply decodes_state|apply decodes_object_type|apply decodes_operation
             |by apply codec_enc; auto]|]; cbn beta
    | apply decodes_ret ].

Lemma decodes_stream_row id row :
  row_typed id row → is_u64 id → decodes Snap.get_stream_row row (Snap.put_stream_row row).
Proof.
  intros (<- & ? & ? & ? & ?) ?. unfold Snap.get_stream_row, Snap.put_stream_row.
  row_run. by destruct row.
Qed.

Lemma decodes_node n row :
  nr_node_id row = n ∧ n ≠ -1 ∧ is_i32 n ∧ is_i64 (nr_epoch row) ∧
  string_ok (nr_http_address row) ∧ is_u32 (nr_slots row) →
  decodes Snap.get_node row (Snap.put_node row).
Proof.
  intros (<- & _ & ? & ? & ? & ?). unfold Snap.get_node, Snap.put_node. row_run. by destruct row.
Qed.

Lemma decodes_lease l : is_u64 l.1 → is_i64 l.2 → decodes Snap.get_lease l (Snap.put_lease l).
Proof. destruct l. intros. unfold Snap.get_lease, Snap.put_lease. row_run. Qed.

#[export] Instance snap_codec_range : Codec Snap.get_range sor_typed Snap.put_range.
Proof.
  split.
  - intros [] (? & ? & ?). unfold Snap.get_range, Snap.put_range. cbn in *. dec_run.
  - intros bs a rest H. unfold Snap.get_range in H. dec_inv H.
    split; [done|]. unfold Snap.put_range. cbn. by rewrite <-!app_assoc.
Qed.

Lemma decodes_object o : object_typed o → decodes Snap.get_object o (Snap.put_object o).
Proof.
  intros (? & ? & ? & ? & ? & ? & ?). unfold Snap.get_object, Snap.put_object.
  row_run. by destruct o.
Qed.

Lemma decodes_set_object row :
  is_i32 (ssr_node_id row) → object_typed (ssr_object row) →
  decodes Snap.get_set_object row (Snap.put_set_object row).
Proof.
  intros. unfold Snap.get_set_object, Snap.put_set_object. row_run.
  eapply decodes_bind_nil; [by apply decodes_object|]. destruct row. apply decodes_ret.
Qed.

Lemma decodes_destroyed e :
  is_u64 e.1 → is_u64 e.2.1 → decodes Snap.get_destroyed e (Snap.put_destroyed e).
Proof. destruct e as [? [? ?]]. intros. unfold Snap.get_destroyed, Snap.put_destroyed. row_run. Qed.

Lemma decodes_kv_entry e :
  string_ok e.1 → fits_u32 e.2 → decodes Snap.get_kv_entry e (Snap.put_kv_entry e).
Proof. destruct e. intros. unfold Snap.get_kv_entry, Snap.put_kv_entry. row_run. Qed.

Lemma decodes_transfer e :
  is_u64 e.1 → is_i32 (pt_from_node e.2) → is_i32 (pt_to_node e.2) →
  decodes Snap.get_transfer e (Snap.put_transfer e).
Proof. destruct e as [? []]. intros. unfold Snap.get_transfer, Snap.put_transfer. row_run. Qed.

(** ** Loops *)
Lemma decodes_rows {A} body (ins : A → MetadataState → MetadataState) enc l st :
  Z.of_nat (length l) < two64 → (∀ a st, a ∈ l → decodes (body st) (ins a st) (enc a)) →
  decodes (Snap.for_rows body st) (foldl (λ st a, ins a st) st l) (Snap.put_rows enc l).
Proof.
  intros Hlen Hl. unfold Snap.for_rows, Snap.put_rows.
  eapply decodes_bind; [apply codec_enc; int_lia|]. rewrite Nat2Z.id. clear Hlen.
  revert st. induction l as [|a l IH]; intros st; [apply decodes_ret|].
  cbn [length Snap.for_count foldl fmap list_fmap concat].
  eapply decodes_bind; [apply Hl; by left|]. apply IH. intros. apply Hl. by right.
Qed.

Lemma decodes_read_row {A} (d : Dec SnapshotError A) ins a bs st :
  decodes d a bs → decodes (Snap.read_row d ins st) (ins a st) bs.
Proof. intros H. eapply decodes_bind_nil; [exact H|apply decodes_ret]. Qed.

(** ** What the loops rebuild *)
Lemma foldl_rows_insert `{Countable K, !OrdKey K} {V} (key : V → K) (m : gmap K V) :
  (∀ k v, m !! k = Some v → key v = k) →
  foldl (λ m v, <[key v := v]> m) ∅ (ord_list m).*2 = m.
Proof.
  intros Hk. rewrite foldl_over_fmap. rewrite <-(foldl_insert_ord_list m) at 2.
  assert (Hl : ∀ p, p ∈ ord_list m → key p.2 = p.1)
    by (intros [k v] Hp%elem_of_ord_list; by apply Hk).
  generalize (∅ : gmap K V). induction (ord_list m) as [|p l IH]; intros m0; [done|].
  cbn. rewrite Hl by (by left). apply IH. intros q Hq. apply Hl. by right.
Qed.

Lemma snap_streams_loop rows st :
  ∃ O P, foldl (λ st r, Snap.insert_stream_row r st) st rows =
    set_placed_by_node P (set_opening_by_node O
      (set_streams (foldl (λ m r, <[sr_stream_id r := r]> m) (ms_streams st) rows) st)) ∧
    (∀ p, p ∈ O ↔ p ∈ ms_opening_by_node st ∨
       ∃ r, r ∈ rows ∧ sr_state r = Opened ∧ p = (sr_node_id r, sr_stream_id r)) ∧
    (∀ p, p ∈ P ↔ p ∈ ms_placed_by_node st ∨
       ∃ r, r ∈ rows ∧ is_placed r ∧ p = (sr_node_id r, sr_stream_id r)).
Proof.
  revert st. induction rows as [|r rows IH]; intros st.
  - exists (ms_opening_by_node st), (ms_placed_by_node st). split; [by destruct st|].
    split; intros p; (split; [auto|]); intros [?|(r & Hr & _)]; auto;
      by apply not_elem_of_nil in Hr.
  - cbn [foldl]. destruct (IH (Snap.insert_stream_row r st)) as (O & P & -> & HO & HP).
    exists O, P. unfold Snap.insert_stream_row in *.
    assert (Hcase : (bool_decide (sr_state r = Closed) && (sr_epoch r =? -1)
      && negb (sr_node_id r =? -1)) = true ↔ is_placed r).
    { unfold is_placed. rewrite !andb_true_iff, bool_decide_eq_true, negb_true_iff, Z.eqb_eq,
        Z.eqb_neq. tauto. }
    setoid_rewrite elem_of_cons.
    destruct (bool_decide (sr_state r = Opened)) eqn:Eo; bsimp;
      [|destruct (bool_decide (sr_state r = Closed) && _ && _) eqn:Ep];
      (split; [by destruct st|]); ms_simpl in HO; ms_simpl in HP;
      (split; intros p; [rewrite HO|rewrite HP]); rewrite ?elem_of_union, ?elem_of_singleton;
      unfold is_placed in *; clear -Eo Hcase; naive_solver congruence.
Qed.

Lemma snap_nodes_loop rows st :
  foldl (λ st r, Snap.insert_node r st) st rows =
  set_nodes (foldl (λ m r, <[nr_node_id r := r]> m) (ms_nodes st) rows) st.
Proof. revert st. induction rows as [|r rows IH]; intros st; [by destruct st|]. cbn [foldl]. by rewrite IH. Qed.

Lemma snap_leases_loop rows st :
  ∃ D, foldl (λ st l, Snap.insert_lease l st) st rows =
    set_prepared_by_deadline D
      (set_prepared (foldl (λ m p, <[p.1 := p.2]> m) (ms_prepared st) rows) st) ∧
    ∀ p, p ∈ D ↔ p ∈ ms_prepared_by_deadline st ∨ (p.2, p.1) ∈ rows.
Proof.
  revert st. induction rows as [|r rows IH]; intros st.
  - exists (ms_prepared_by_deadline st). split; [by destruct st|]. intros p.
    split; [auto|]. intros [?|Hp]; [done|by apply not_elem_of_nil in Hp].
  - cbn [foldl]. destruct (IH (Snap.insert_lease r st)) as (D & -> & HD). exists D.
    unfold Snap.insert_lease in *.
    split; [by destruct st|]. intros p. rewrite HD. ms_simpl.
    rewrite elem_of_union, elem_of_singleton, elem_of_cons. destruct p, r. cbn. naive_solver.
Qed.

(** The entries of one object under [sso_ranges], and those of others. *)
Lemma snap_set_objects_loop rows st :
  ∃ R N, foldl (λ st r, Snap.insert_set_object r st) st rows =
    set_stream_set_objects
      (foldl (λ m r, <[om_object_id (ssr_object r) := r]> m) (ms_stream_set_objects st) rows)
      (set_sso_by_node N (set_sso_ranges R st)) ∧
    (∀ p, p ∈ N ↔ p ∈ ms_sso_by_node st ∨
       ∃ r, r ∈ rows ∧ p = (ssr_node_id r, om_object_id (ssr_object r))) ∧
    R = foldl (λ m r, foldl (λ m range, <[range_key (om_object_id (ssr_object r)) range :=
          sor_end_offset range]> m) m (om_offset_ranges (ssr_object r))) (ms_sso_ranges st) rows.
Proof.
  revert st. induction rows as [|r rows IH]; intros st.
  - exists (ms_sso_ranges st), (ms_sso_by_node st). split; [by destruct st|]. split; [|done].
    intros p. split; [auto|]. intros [?|(r & Hr & _)]; [done|by apply not_elem_of_nil in Hr].
  - cbn [foldl]. destruct (IH (Snap.insert_set_object r st)) as (R & N & -> & HN & HR).
    exists R, N. unfold Snap.insert_set_object in *.
    rewrite (foldl_set_sso_ranges (λ range m, <[range_key (om_object_id (ssr_object r)) range :=
      sor_end_offset range]> m)) in *.
    split; [by destruct st|]. split; [|exact HR]. intros p. rewrite HN. ms_simpl.
    setoid_rewrite elem_of_cons. rewrite elem_of_union, elem_of_singleton. naive_solver.
Qed.

Definition object_key (o : S3ObjectMetadata) : StreamOffsetKey :=
  match om_offset_ranges o with r :: _ => range_key (om_object_id o) r | [] => (0, 0, 0) end.

Lemma snap_objects_loop rows st :
  foldl (λ st r, Snap.insert_object_at (object_key (sjr_object r)) (sjr_object r) st) st rows =
  set_stream_objects
    (foldl (λ m r, <[object_key (sjr_object r) := r]> m) (ms_stream_objects st) rows)
    (set_stream_object_ids (foldl (λ m r, <[om_object_id (sjr_object r) :=
       object_key (sjr_object r)]> m) (ms_stream_object_ids st) rows) st).
Proof.
  revert st. induction rows as [|[r] rows IH]; intros st; [by destruct st|]. cbn [foldl].
  by rewrite IH.
Qed.

Lemma snap_destroyed_loop rows st :
  foldl (λ st r, Snap.insert_destroyed r st) st rows =
  set_destroyed_by_id (foldl (λ m e, <[e.2.1 := e.1]> m) (ms_destroyed_by_id st) rows)
    (set_mark_destroyed (foldl (λ m p, <[p.1 := p.2]> m) (ms_mark_destroyed st) rows) st).
Proof. revert st. induction rows as [|r rows IH]; intros st; [by destruct st|]. cbn [foldl]. by rewrite IH. Qed.

Lemma snap_kv_loop rows st :
  foldl (λ st r, Snap.insert_kv r st) st rows =
  set_kv (foldl (λ m p, <[p.1 := p.2]> m) (ms_kv st) rows) st.
Proof. revert st. induction rows as [|r rows IH]; intros st; [by destruct st|]. cbn [foldl]. by rewrite IH. Qed.

Lemma snap_transfers_loop rows st :
  foldl (λ st r, Snap.insert_transfer r st) st rows =
  set_pending_transfers (foldl (λ m p, <[p.1 := p.2]> m) (ms_pending_transfers st) rows) st.
Proof. revert st. induction rows as [|r rows IH]; intros st; [by destruct st|]. cbn [foldl]. by rewrite IH. Qed.

(** ** The rebuilt indexes agree with the originals *)
Lemma elem_of_values `{Countable K, !OrdKey K} {V} (m : gmap K V) v :
  v ∈ (ord_list m).*2 ↔ ∃ k, m !! k = Some v.
Proof.
  rewrite list_elem_of_fmap. split.
  - intros ([k v'] & -> & Hk%elem_of_ord_list). eauto.
  - intros [k Hk]. exists (k, v). split; [done|]. by apply elem_of_ord_list.
Qed.

(** An index rebuilt from rows whose index keys are distinct. *)
Lemma foldl_index_lookup {A} `{Countable K} {V} (key : A → K) (val : A → V) (l : list A)
    (m : gmap K V) (k : K) (v : V) :
  (∀ a b, a ∈ l → b ∈ l → key a = key b → val a = val b) →
  foldl (λ m a, <[key a := val a]> m) m l !! k = Some v ↔
  (∃ a, a ∈ l ∧ key a = k ∧ val a = v) ∨ ((∀ a, a ∈ l → key a ≠ k) ∧ m !! k = Some v).
Proof.
  revert m. induction l as [|a l IH]; intros m Hinj.
  - cbn. split; [intros ?; right; split; [|done]|].
    + intros a Ha. by apply not_elem_of_nil in Ha.
    + intros [(a & Ha & _)|[_ ?]]; [by apply not_elem_of_nil in Ha|done].
  - cbn. rewrite IH by (intros; apply Hinj; [by right|by right|done]).
    setoid_rewrite elem_of_cons. rewrite lookup_insert_Some. split.
    + intros [(b & Hb & <- & <-)|[Hnone [[<- <-]|[Hne Hm]]]].
      * left. exists b. auto.
      * left. exists a. auto.
      * right. split; [|done]. intros b [->|Hb]; auto.
    + intros [(b & [->|Hb] & <- & <-)|[Hall Hm]].
      * destruct (decide (Exists (λ b, key b = key a) l)) as [Hex|Hn].
        -- left. apply Exists_exists in Hex as (b & Hb & Hk). exists b. split_and!; auto.
           apply Hinj; [by right|by left|done].
        -- right. split; [|by left]. intros b Hb Hk. apply Hn, Exists_exists. eauto.
      * left. exists b. auto.
      * right. split; [intros b Hb; apply Hall; by right|]. right. split; [|done].
        apply Hall. by left.
Qed.

Lemma snap_ranges_lookup (l : list (Z * StreamSetObjectRow)) (m : gmap StreamOffsetKey Z)
    (s a o : Z) :
  NoDup l.*1 → (∀ p, p ∈ l → om_object_id (ssr_object p.2) = p.1) →
  foldl (λ m r, foldl (λ m range, <[range_key (om_object_id (ssr_object r)) range :=
    sor_end_offset range]> m) m (om_offset_ranges (ssr_object r))) m l.*2 !! (s, a, o) =
  match (list_to_map l : gmap Z StreamSetObjectRow) !! o with
  | Some row =>
    match range_end s a (om_offset_ranges (ssr_object row)) with
    | Some e => Some e
    | None => m !! (s, a, o)
    end
  | None => m !! (s, a, o)
  end.
Proof.
  revert m. induction l as [|[o1 row] l IH]; intros m Hnd Hid; [done|].
  cbn [fmap list_fmap foldl] in *. apply NoDup_cons in Hnd as [Hnin Hnd].
  rewrite IH; [|done|intros; apply Hid; by right].
  assert (Ho1 : om_object_id (ssr_object row) = o1) by (apply (Hid (o1, row)); by left).
  cbn [snd]. rewrite Ho1, insert_ranges_lookup, list_to_map_cons. cbn [fst]. destruct (decide (o1 = o)) as [->|Hne].
  - by rewrite lookup_insert_eq, (not_elem_of_list_to_map_1 _ _ Hnin), range_end_step_foldl.
  - by rewrite lookup_insert_ne.
Qed.

Section Restored.
Context (st : MetadataState) (HI : Inv st).

Lemma restored_streams :
  foldl (λ m r, <[sr_stream_id r := r]> m) ∅ (ord_list (ms_streams st)).*2 = ms_streams st.
Proof. apply foldl_rows_insert. intros k v Hk. by destruct (row_facts _ _ _ HI Hk) as [[? _] _]. Qed.

Lemma restored_row_id k v : ms_streams st !! k = Some v → sr_stream_id v = k.
Proof. intros Hk. by destruct (row_facts _ _ _ HI Hk) as [[? _] _]. Qed.

Lemma restored_opening (O : gset (Z * Z)) :
  (∀ p, p ∈ O ↔ p ∈ (∅ : gset (Z * Z)) ∨ ∃ r, r ∈ (ord_list (ms_streams st)).*2 ∧
     sr_state r = Opened ∧ p = (sr_node_id r, sr_stream_id r)) → O = ms_opening_by_node st.
Proof.
  intros HO. apply set_eq. intros [n s]. rewrite HO, (inv_opening _ HI n s).
  setoid_rewrite elem_of_values. split.
  - intros [?|(r & [k Hk] & Hs & [= -> ->])]; [set_solver|].
    rewrite (restored_row_id _ _ Hk). eauto.
  - intros (row & Hr & ? & <-). right. exists row. rewrite (restored_row_id _ _ Hr). eauto.
Qed.

Lemma restored_placed (P : gset (Z * Z)) :
  (∀ p, p ∈ P ↔ p ∈ (∅ : gset (Z * Z)) ∨ ∃ r, r ∈ (ord_list (ms_streams st)).*2 ∧
     is_placed r ∧ p = (sr_node_id r, sr_stream_id r)) → P = ms_placed_by_node st.
Proof.
  intros HP. apply set_eq. intros [n s]. rewrite HP, (inv_placed _ HI n s).
  setoid_rewrite elem_of_values. split.
  - intros [?|(r & [k Hk] & Hs & [= -> ->])]; [set_solver|].
    rewrite (restored_row_id _ _ Hk). eauto.
  - intros (row & Hr & ? & <-). right. exists row. rewrite (restored_row_id _ _ Hr). eauto.
Qed.

Lemma restored_nodes :
  foldl (λ m r, <[nr_node_id r := r]> m) ∅ (ord_list (ms_nodes st)).*2 = ms_nodes st.
Proof. apply foldl_rows_insert. intros k v Hk. by destruct (inv_nodes _ HI k v Hk). Qed.

Lemma restored_deadlines (D : gset (Z * Z)) :
  (∀ p, p ∈ D ↔ p ∈ (∅ : gset (Z * Z)) ∨ (p.2, p.1) ∈ ord_list (ms_prepared st)) →
  D = ms_prepared_by_deadline st.
Proof.
  intros HD. apply set_eq. intros [d o]. rewrite HD. cbn. rewrite elem_of_ord_list.
  destruct (inv_prepared _ HI) as (_ & -> & _). set_solver.
Qed.

Lemma restored_set_objects :
  foldl (λ m r, <[om_object_id (ssr_object r) := r]> m) ∅
    (ord_list (ms_stream_set_objects st)).*2 = ms_stream_set_objects st.
Proof.
  apply foldl_rows_insert. intros k v Hk. destruct (inv_sso _ HI) as [Hr _].
  by destruct (Hr k v Hk).
Qed.

Lemma restored_ranges :
  foldl (λ m r, foldl (λ m range, <[range_key (om_object_id (ssr_object r)) range :=
    sor_end_offset range]> m) m (om_offset_ranges (ssr_object r))) ∅
    (ord_list (ms_stream_set_objects st)).*2 = ms_sso_ranges st.
Proof.
  destruct (inv_sso _ HI) as (Hr & Hidx & _). apply map_eq. intros [[s a] o].
  rewrite snap_ranges_lookup; [|apply NoDup_ord_list|].
  - rewrite list_to_map_ord_list, Hidx, lookup_empty.
    destruct (ms_stream_set_objects st !! o) as [row|]; [|done]. cbn.
    by destruct (range_end s a _).
  - intros [o' row] Hp%elem_of_ord_list. by destruct (Hr _ _ Hp).
Qed.

Lemma restored_by_node (N : gset (Z * Z)) :
  (∀ p, p ∈ N ↔ p ∈ (∅ : gset (Z * Z)) ∨ ∃ r, r ∈ (ord_list (ms_stream_set_objects st)).*2 ∧
     p = (ssr_node_id r, om_object_id (ssr_object r))) → N = ms_sso_by_node st.
Proof.
  intros HN. destruct (inv_sso _ HI) as (Hr & _ & Hnode). apply set_eq. intros [n o].
  rewrite HN, Hnode. setoid_rewrite elem_of_values. split.
  - intros [?|(r & [k Hk] & [= -> ->])]; [set_solver|]. destruct (Hr _ _ Hk) as [-> _]. eauto.
  - intros (row & Hk & <-). right. exists row. destruct (Hr _ _ Hk) as [-> _]. eauto.
Qed.

Lemma restored_object_key k v : ms_stream_objects st !! k = Some v →
  object_key (sjr_object v) = k ∧ om_object_id (sjr_object v) = k.2 ∧
  ms_stream_object_ids st !! k.2 = Some k.
Proof.
  intros Hk. destruct (inv_so _ HI) as [Hobj _]. destruct (Hobj k v Hk) as [Hok Hid].
  destruct k as [[s a] o], Hok as (Ho & _ & _ & e & He). unfold object_key. rewrite He.
  unfold range_key. cbn in *. by rewrite Ho.
Qed.

Lemma restored_objects :
  foldl (λ m r, <[object_key (sjr_object r) := r]> m) ∅ (ord_list (ms_stream_objects st)).*2 =
  ms_stream_objects st.
Proof. apply foldl_rows_insert. intros k v Hk. by destruct (restored_object_key k v Hk). Qed.

Lemma restored_object_ids :
  foldl (λ m r, <[om_object_id (sjr_object r) := object_key (sjr_object r)]> m) ∅
    (ord_list (ms_stream_objects st)).*2 = ms_stream_object_ids st.
Proof.
  destruct (inv_so _ HI) as [_ Hids]. apply map_eq. intros o. apply option_eq. intros key.
  rewrite foldl_index_lookup.
  - setoid_rewrite elem_of_values. rewrite lookup_empty. split.
    + intros [(r & [k Hk] & <- & <-)|[_ ?]]; [|done].
      destruct (restored_object_key k r Hk) as (-> & -> & ?). done.
    + intros Ho. destruct (Hids o key Ho) as [<- [r Hr]]. left. exists r.
      destruct (restored_object_key key r Hr) as (-> & -> & ?). eauto.
  - intros a b [ka Ha]%elem_of_values [kb Hb]%elem_of_values Hab.
    destruct (restored_object_key ka a Ha) as (-> & Ea & Hia).
    destruct (restored_object_key kb b Hb) as (-> & Eb & Hib). congruence.
Qed.

Lemma restored_destroyed_ids :
  foldl (λ m e, <[e.2.1 := e.1]> m) ∅ (ord_list (ms_mark_destroyed st)) = ms_destroyed_by_id st.
Proof.
  destruct (inv_destroyed _ HI) as (_ & Hiff & _). apply map_eq. intros o. apply option_eq.
  intros seq. rewrite (foldl_index_lookup (λ e : Z * (Z * CompactOperations), e.2.1) fst).
  - rewrite Hiff, lookup_empty. split.
    + intros [([q [o' op]] & Hk%elem_of_ord_list & <- & <-)|[_ ?]]; [cbn; eauto|done].
    + intros [op Hop]. left. exists (seq, (o, op)). by rewrite elem_of_ord_list.
  - intros [q [o1 op1]] [q2 [o2 op2]] H1%elem_of_ord_list H2%elem_of_ord_list ?. cbn in *. subst.
    assert (ms_destroyed_by_id st !! o2 = Some q) by (apply Hiff; eauto).
    assert (ms_destroyed_by_id st !! o2 = Some q2) by (apply Hiff; eauto). congruence.
Qed.
End Restored.

(** ** The round trip *)

(** Row counts are written as [u64]. *)
Definition snapshot_fits (st : MetadataState) : Prop :=
  Z.of_nat (size (ms_streams st)) < two64 ∧ Z.of_nat (size (ms_nodes st)) < two64 ∧
  Z.of_nat (size (ms_prepared st)) < two64 ∧ Z.of_nat (size (ms_stream_set_objects st)) < two64 ∧
  Z.of_nat (size (ms_stream_objects st)) < two64 ∧
  Z.of_nat (size (ms_mark_destroyed st)) < two64 ∧ Z.of_nat (size (ms_kv st)) < two64 ∧
  Z.of_nat (size (ms_pending_transfers st)) < two64.

Lemma decodes_read_object st row k :
  stream_object_row_ok k row →
  decodes (Snap.read_stream_object st)
    (Snap.insert_object_at (object_key (sjr_object row)) (sjr_object row) st)
    (Snap.put_object (sjr_object row)).
Proof.
  destruct k as [[s a] o]. intros (_ & _ & Ht & e & He). unfold Snap.read_stream_object, object_key.
  eapply decodes_bind_nil; [by apply decodes_object|]. rewrite He. apply decodes_ret.
Qed.

Lemma length_values `{Countable K, !OrdKey K} {V} (m : gmap K V) :
  length (ord_list m).*2 = size m.
Proof. by rewrite length_fmap, length_ord_list. Qed.

(** The state the decoder builds, as nested loops over the rows. *)
Definition rebuilt (st : MetadataState) : MetadataState :=
  let rows {A} (ins : A → MetadataState → MetadataState) l st := foldl (λ st a, ins a st) st l in
  rows Snap.insert_transfer (ord_list (ms_pending_transfers st))
  (rows Snap.insert_kv (ord_list (ms_kv st))
  (set_next_destroyed_seq (ms_next_destroyed_seq st)
  (rows Snap.insert_destroyed (ord_list (ms_mark_destroyed st))
  (rows (λ r, Snap.insert_object_at (object_key (sjr_object r)) (sjr_object r))
    (ord_list (ms_stream_objects st)).*2
  (rows Snap.insert_set_object (ord_list (ms_stream_set_objects st)).*2
  (rows Snap.insert_lease (ord_list (ms_prepared st))
  (set_next_object_id (ms_next_object_id st)
  (rows Snap.insert_node (ord_list (ms_nodes st)).*2
  (rows Snap.insert_stream_row (ord_list (ms_streams st)).*2
  (set_next_stream_id (ms_next_stream_id st) new_state)))))))))).

Lemma rebuilt_id st : Inv st → rebuilt st = st.
Proof.
  intros HI. unfold rebuilt.
  destruct (snap_streams_loop (ord_list (ms_streams st)).*2
    (set_next_stream_id (ms_next_stream_id st) new_state)) as (O & P & -> & HO & HP).
  rewrite snap_nodes_loop. ms_simpl. ms_simpl in HO. ms_simpl in HP.
  apply (restored_opening st HI) in HO as ->. apply (restored_placed st HI) in HP as ->.
  match goal with |- context [foldl _ ?s (ord_list (ms_prepared st))] =>
    destruct (snap_leases_loop (ord_list (ms_prepared st)) s) as (D & -> & HD) end.
  ms_simpl in HD. apply (restored_deadlines st HI) in HD as ->.
  match goal with |- context [foldl _ ?s (ord_list (ms_stream_set_objects st)).*2] =>
    destruct (snap_set_objects_loop (ord_list (ms_stream_set_objects st)).*2 s)
      as (R & N & -> & HN & ->) end.
  ms_simpl in HN. apply (restored_by_node st HI) in HN as ->.
  rewrite snap_objects_loop, snap_destroyed_loop, snap_kv_loop, snap_transfers_loop. ms_simpl.
  cbn [new_state ms_streams ms_nodes ms_prepared ms_stream_set_objects ms_sso_ranges
    ms_stream_objects ms_stream_object_ids ms_mark_destroyed ms_destroyed_by_id ms_kv
    ms_pending_transfers].
  rewrite (restored_streams st HI), (restored_nodes st HI), (restored_set_objects st HI),
    (restored_ranges st HI), (restored_objects st HI), (restored_object_ids st HI),
    (restored_destroyed_ids st HI), !foldl_insert_ord_list. by destruct st.
Qed.

Lemma decodes_rebuilt st :
  Inv st → snapshot_fits st → decodes Snap.decode_body (rebuilt st) (Snap.encode st).
Proof.
  intros HI (F1 & F2 & F3 & F4 & F5 & F6 & F7 & F8).
  destruct (inv_streams _ HI) as [Hsn Hst], (inv_prepared _ HI) as (Hpn & _ & Hp),
    (inv_destroyed _ HI) as (Hdn & _ & Hd), (inv_sso _ HI) as [Hs _], (inv_so _ HI) as [Ho _].
  unfold Snap.decode_body, Snap.encode.
  eapply decodes_bind; [apply codec_enc; unfold SNAPSHOT_VERSION; int_lia|]. cbn [negb Z.eqb SNAPSHOT_VERSION].
  eapply decodes_bind; [by apply codec_enc|].
  eapply decodes_bind; [apply (decodes_rows _ Snap.insert_stream_row); [by rewrite length_values|]|].
  { intros r s [k Hk]%elem_of_values. destruct (Hst _ _ Hk) as (Ht & Hb & _).
    apply decodes_read_row, (decodes_stream_row k); [done|]. int_lia. }
  eapply decodes_bind; [apply (decodes_rows _ Snap.insert_node); [by rewrite length_values|]|].
  { intros r s [k Hk]%elem_of_values. apply decodes_read_row, (decodes_node k).
    by apply (inv_nodes _ HI). }
  eapply decodes_bind; [by apply codec_enc|].
  eapply decodes_bind; [apply (decodes_rows _ Snap.insert_lease); [by rewrite length_ord_list|]|].
  { intros [k d] s Hk%elem_of_ord_list. destruct (Hp _ _ Hk).
    apply decodes_read_row, decodes_lease; [cbn; int_lia|done]. }
  eapply decodes_bind; [apply (decodes_rows _ Snap.insert_set_object); [by rewrite length_values|]|].
  { intros r s [k Hk]%elem_of_values. destruct (Hs _ _ Hk) as (_ & _ & ? & ?).
    by apply decodes_read_row, decodes_set_object. }
  eapply decodes_bind; [apply (decodes_rows _ (λ r, Snap.insert_object_at
    (object_key (sjr_object r)) (sjr_object r))); [by rewrite length_values|]|].
  { intros r s [k Hk]%elem_of_values. by eapply decodes_read_object, Ho. }
  eapply decodes_bind; [apply (decodes_rows _ Snap.insert_destroyed); [by rewrite length_ord_list|]|].
  { intros [q [o op]] s Hk%elem_of_ord_list. destruct (Hd _ _ _ Hk).
    apply decodes_read_row, decodes_destroyed; [cbn; int_lia|done]. }
  eapply decodes_bind; [by apply codec_enc|].
  eapply decodes_bind; [apply (decodes_rows _ Snap.insert_kv); [by rewrite length_ord_list|]|].
  { intros [k v] s Hk%elem_of_ord_list. destruct (inv_kv _ HI _ _ Hk).
    by apply decodes_read_row, decodes_kv_entry. }
  apply (decodes_rows _ Snap.insert_transfer); [by rewrite length_ord_list|].
  intros [k p] s Hk%elem_of_ord_list. destruct (inv_pending _ HI _ _ Hk) as (? & ? & _ & row & Hr & _).
  destruct (Hst _ _ Hr) as (_ & Hb & _). apply decodes_read_row, decodes_transfer; cbn; [int_lia|done..].
Qed.

Lemma snapshot_roundtrip st : Inv st → snapshot_fits st → Snap.decode (Snap.encode st) = Ok st.
Proof.
  intros HI Hf. pose proof (decodes_rebuilt st HI Hf []) as H.
  rewrite app_nil_r, rebuilt_id in H by done. unfold Snap.decode. by rewrite H.
Qed.

(** C19: A snapshot restores the state exactly, every secondary index
    included: for every reachable state (the invariant holds) whose row
    counts fit in 64 bits, decoding its encoding yields that very state. *)
Theorem snapshot_restores_state st :
  Inv st → snapshot_fits st → Snap.decode (Snap.encode st) = Ok st.
Proof. apply snapshot_roundtrip. Qed.

Lemma snapshot_restores_state_witness : Snap.decode (Snap.encode demo_state) = Ok demo_state.
Proof. apply snapshot_restores_state; [exact demo_Inv|by_eval]. Defined.

(** Snapshot bytes identify the state: two replicas whose snapshots are
    equal byte for byte are in the same state, so comparing snapshot hashes
    compares states. *)
Theorem equal_snapshots_equal_states st1 st2 :
  Inv st1 → snapshot_fits st1 → Inv st2 → snapshot_fits st2 →
  Snap.encode st1 = Snap.encode st2 → st1 = st2.
Proof.
  intros HI1 Hf1 HI2 Hf2 E. pose proof (decodes_rebuilt st1 HI1 Hf1 []) as H1.
  pose proof (decodes_rebuilt st2 HI2 Hf2 []) as H2.
  rewrite rebuilt_id in H1, H2 by done. rewrite E in H1. congruence.
Qed.

Lemma equal_snapshots_equal_states_witness :
  demo_state = replay demo_state [ExpirePreparedObjects 0].
Proof.
  apply equal_snapshots_equal_states; [exact demo_Inv|by_eval| |by_eval|by_eval].
  apply replay_evolves; [exact demo_Inv|by_eval].
Defined.
