(* ===== verification/MetaQuery.v ===== *)
(** * Read-side queries

    [pico-metadata/src/query.rs]: lookups and bounded scans over a published
    state. Indexing a map with a missing key ([map[&k]]) and slicing an empty
    vector ([v[0]]) panic in the source; here they give [None], and the
    theorems show it does not happen on a state that satisfies the
    invariant. *)

From Stdlib Require Import ZArith Lia.
From Stdlib Require Import Strings.Byte.
From stdpp Require Import base numbers list sorting gmap strings.
From S2P Require Import Prelude StreamTypes MetaState MetaApply MetaInv MetaHistory MetaEffects MetaPolicy.

Open Scope Z_scope.

(** ** Queries *)
Definition get_stream (st : MetadataState) (stream_id : Z) : option StreamMetadata :=
  to_stream_metadata <$> ms_streams st !! stream_id.

Definition get_streams (st : MetadataState) (stream_ids : list Z) : list StreamMetadata :=
  omap (get_stream st) stream_ids.

Definition get_opening_streams (st : MetadataState) (node_id : Z) : list StreamMetadata :=
  omap (λ k : Z * Z, get_stream st k.2)
    (ord_range_set (node_id, 0) (node_id, u64_max) (ms_opening_by_node st)).

Definition placed_count (st : MetadataState) (node_id : Z) : Z :=
  Z.of_nat (length (ord_range_set (node_id, 0) (node_id, u64_max) (ms_placed_by_node st))).

Definition get_node_address (st : MetadataState) (node_id : Z) : option string :=
  match nr_http_address <$> ms_nodes st !! node_id with
  | Some EmptyString => None
  | other => other
  end.

Definition overlaps (start_offset end_offset range_start range_end : Z) : bool :=
  (start_offset <? range_end) && (range_start <? end_offset).

(** One stream's slice of an index keyed by (stream, start, object), cut at
    the first entry that starts at or after [end_offset]. *)
Definition stream_slice {V} (m : gmap StreamOffsetKey V) (stream_id end_offset : Z) :
    list (StreamOffsetKey * V) :=
  take_while (λ e : StreamOffsetKey * V, e.1.1.2 <? end_offset)
    (ord_range (stream_id, 0, 0) (stream_id, u64_max, u64_max) m).

(** The stream-set half of the scan: (range start, object id). *)
Definition sso_slice (st : MetadataState) (stream_id start_offset end_offset : Z) :
    list (Z * Z) :=
  (λ e : StreamOffsetKey * Z, (e.1.1.2, e.1.2)) <$>
  filter (λ e : StreamOffsetKey * Z, overlaps start_offset end_offset e.1.1.2 e.2 = true)
    (stream_slice (ms_sso_ranges st) stream_id end_offset).

(** [row.object.offset_ranges[0]] overlaps; [None] when there is no range. *)
Definition row_overlaps (start_offset end_offset : Z) (row : StreamObjectRow) : option bool :=
  match om_offset_ranges (sjr_object row) with
  | range :: _ =>
    Some (overlaps start_offset end_offset (sor_start_offset range) (sor_end_offset range))
  | [] => None
  end.

Fixpoint filter_rows (start_offset end_offset : Z) (l : list (StreamOffsetKey * StreamObjectRow)) :
    option (list (StreamOffsetKey * StreamObjectRow)) :=
  match l with
  | [] => Some []
  | e :: l =>
    keep ← row_overlaps start_offset end_offset e.2;
    rest ← filter_rows start_offset end_offset l;
    Some (if keep : bool then e :: rest else rest)
  end.

Definition object_slice (st : MetadataState) (stream_id start_offset end_offset : Z) :
    option (list (StreamOffsetKey * StreamObjectRow)) :=
  filter_rows start_offset end_offset (stream_slice (ms_stream_objects st) stream_id end_offset).

(** [while result.len() < limit]: [n] is what is left of the limit. *)
Fixpoint merge_objects (st : MetadataState) (n : nat) (sso : list (Z * Z))
    (stream_objs : list (StreamOffsetKey * StreamObjectRow)) : option (list S3ObjectMetadata) :=
  match n with
  | O => Some []
  | S n =>
    match sso, stream_objs with
    | (sso_start, object_id) :: sso', (key, row) :: objs' =>
      if negb (key.1.2 <? sso_start) then
        set ← ms_stream_set_objects st !! object_id;
        rest ← merge_objects st n sso' stream_objs;
        Some (ssr_object set :: rest)
      else
        rest ← merge_objects st n sso objs';
        Some (sjr_object row :: rest)
    | (sso_start, object_id) :: sso', [] =>
      set ← ms_stream_set_objects st !! object_id;
      rest ← merge_objects st n sso' [];
      Some (ssr_object set :: rest)
    | [], (key, row) :: objs' =>
      rest ← merge_objects st n [] objs';
      Some (sjr_object row :: rest)
    | [], [] => Some []
    end
  end.

Definition get_objects (st : MetadataState) (stream_id start_offset end_offset limit : Z) :
    option (list S3ObjectMetadata) :=
  stream_objs ← object_slice st stream_id start_offset end_offset;
  merge_objects st (Z.to_nat limit) (sso_slice st stream_id start_offset end_offset) stream_objs.

Definition get_stream_objects (st : MetadataState) (stream_id start_offset end_offset limit : Z) :
    option (list S3ObjectMetadata) :=
  rows ← object_slice st stream_id start_offset end_offset;
  Some ((λ e : StreamOffsetKey * StreamObjectRow, sjr_object e.2) <$> take (Z.to_nat (Z.min limit (Z.of_nat (length rows)))) rows).

Definition get_server_objects (st : MetadataState) (node_id : Z) :
    option (list S3ObjectMetadata) :=
  mapM (λ k : Z * Z, ssr_object <$> ms_stream_set_objects st !! k.2)
    (ord_range_set (node_id, 0) (node_id, u64_max) (ms_sso_by_node st)).

Definition is_object_exist (st : MetadataState) (object_id : Z) : bool :=
  bool_decide (is_Some (ms_stream_set_objects st !! object_id)) ||
  bool_decide (is_Some (ms_prepared st !! object_id)) ||
  bool_decide (is_Some (ms_stream_object_ids st !! object_id)).

Definition objects_count (st : MetadataState) : Z :=
  Z.of_nat (size (ms_stream_set_objects st) + size (ms_stream_objects st)).

Definition prepared_objects_count (st : MetadataState) : Z := Z.of_nat (size (ms_prepared st)).

Definition peek_destroyed_objects (st : MetadataState) (limit : Z) :
    list (Z * CompactOperations) :=
  take (Z.to_nat limit) (ord_list (ms_mark_destroyed st)).*2.

Definition get_kv (st : MetadataState) (key : string) : option (list byte) := ms_kv st !! key.

Definition list_kv (st : MetadataState) (pre : string) : list (string * list byte) :=
  prefix_scan (ms_kv st) pre.

(** ** One stream's slice of an index *)
Lemma triple_le (s a o s' a' o' : Z) :
  key_le (s, a, o) (s', a', o') ↔
  s < s' ∨ (s = s' ∧ (a < a' ∨ (a = a' ∧ o <= o'))).
Proof.
  unfold key_le; cbn; unfold pair_le, key_le; cbn; unfold pair_le, key_le; cbn. split.
  - intros [[Hne [[? ?]|[-> ?]]]|[[= -> ->] ?]]; [lia| |lia].
    destruct (decide (a = a')); [congruence|lia].
  - intros [?|[-> [?|[-> ?]]]].
    + left. split; [intros [= ? ?]; lia|]. left. lia.
    + left. split; [intros [= ?]; lia|]. right. lia.
    + right. done.
Qed.

Lemma in_stream_range (s s' a o : Z) :
  0 <= a <= u64_max → 0 <= o <= u64_max →
  in_range (s, 0, 0) (s, u64_max, u64_max) (s', a, o) ↔ s' = s.
Proof. intros Ha Ho. unfold in_range. rewrite !triple_le. lia. Qed.

(** All keys of an index are in the range of the wire types. *)
Definition keys_typed {V} (m : gmap StreamOffsetKey V) : Prop :=
  ∀ s a o v, m !! (s, a, o) = Some v → is_u64 a ∧ is_u64 o.

Lemma stream_range_sorted {V} (m : gmap StreamOffsetKey V) (s : Z) :
  StronglySorted (λ x y : StreamOffsetKey * V, key_le x.1 y.1)
    (ord_range (s, 0, 0) (s, u64_max, u64_max) m).
Proof.
  apply StronglySorted_filter. eapply StronglySorted_weaken; [|apply ord_list_sorted].
  by intros [k v] [k' v'].
Qed.

Lemma stream_range_starts {V} (m : gmap StreamOffsetKey V) (s : Z) :
  keys_typed m → StronglySorted (λ x y : StreamOffsetKey * V, x.1.1.2 <= y.1.1.2)
    (ord_range (s, 0, 0) (s, u64_max, u64_max) m).
Proof.
  intros Hm. eapply StronglySorted_weaken; [|apply (stream_range_sorted m s)].
  intros [[[s1 a1] o1] v1] [[[s2 a2] o2] v2] H1 H2 Hle. cbn in *.
  apply elem_of_ord_range in H1 as [H1 Hv1], H2 as [H2 Hv2].
  destruct (Hm _ _ _ _ Hv1), (Hm _ _ _ _ Hv2).
  apply in_stream_range in H1 as ->, H2 as ->; [|int_lia..]. apply triple_le in Hle. lia.
Qed.

(** Cutting the scan at [b] loses nothing that starts before [b]. *)
Lemma stream_slice_filter {V} (m : gmap StreamOffsetKey V) (s b : Z) :
  keys_typed m → stream_slice m s b = filter (λ e, (e.1.1.2 <? b) = true)
    (ord_range (s, 0, 0) (s, u64_max, u64_max) m).
Proof.
  intros Hm. apply take_while_filter.
  eapply StronglySorted_weaken; [|by apply stream_range_starts].
  intros x y _ _ Hxy Hy. cbn in Hxy. rewrite Z.ltb_lt in *. lia.
Qed.

Lemma elem_of_stream_slice {V} (m : gmap StreamOffsetKey V) (s b s' a o : Z) (v : V) :
  keys_typed m →
  (s', a, o, v) ∈ stream_slice m s b ↔ s' = s ∧ a < b ∧ m !! (s', a, o) = Some v.
Proof.
  intros Hm. rewrite stream_slice_filter by done.
  rewrite list_elem_of_filter, elem_of_ord_range. cbn. rewrite Z.ltb_lt. split.
  - intros (? & Hr & Hv). destruct (Hm _ _ _ _ Hv). split_and!; [|done..].
    eapply (in_stream_range s s' a o); [int_lia|int_lia|done].
  - intros (-> & ? & Hv). destruct (Hm _ _ _ _ Hv). split_and!; [done| |done].
    apply in_stream_range; [int_lia|int_lia|done].
Qed.

Lemma NoDup_stream_slice {V} (m : gmap StreamOffsetKey V) (s b : Z) :
  keys_typed m → NoDup (stream_slice m s b).
Proof.
  intros Hm. rewrite stream_slice_filter by done.
  apply NoDup_filter, (NoDup_fmap_1 fst), NoDup_ord_range.
Qed.

Lemma stream_slice_starts {V} (m : gmap StreamOffsetKey V) (s b : Z) :
  keys_typed m →
  StronglySorted (λ x y : StreamOffsetKey * V, x.1.1.2 <= y.1.1.2) (stream_slice m s b).
Proof.
  intros Hm. rewrite stream_slice_filter by done. by apply StronglySorted_filter, stream_range_starts.
Qed.

(** ** The merge *)

(** What the merge loop would return without a limit: the start offset and
    object of every entry, stream-set objects first on equal starts. *)
Fixpoint merged (fuel : nat) (sso sos : list (Z * S3ObjectMetadata)) :
    list (Z * S3ObjectMetadata) :=
  match fuel with
  | O => []
  | S fuel =>
    match sso, sos with
    | x :: sso', y :: sos' =>
      if y.1 <? x.1 then y :: merged fuel sso sos' else x :: merged fuel sso' sos
    | x :: sso', [] => x :: merged fuel sso' []
    | [], y :: sos' => y :: merged fuel [] sos'
    | [], [] => []
    end
  end.

Lemma merged_perm fuel sso sos :
  (length sso + length sos <= fuel)%nat → merged fuel sso sos ≡ₚ sso ++ sos.
Proof.
  revert sso sos. induction fuel as [|fuel IH]; intros [|x sso] [|y sos] Hf; cbn in *; try lia; try done.
  - rewrite IH by (cbn; lia). done.
  - rewrite IH by (cbn; lia). done.
  - destruct (y.1 <? x.1).
    + rewrite IH by (cbn; lia). cbn. by rewrite <-Permutation_middle, Permutation_swap.
    + rewrite IH by (cbn; lia). done.
Qed.

Definition by_start (x y : Z * S3ObjectMetadata) : Prop := x.1 <= y.1.

Lemma merged_sorted fuel sso sos :
  (length sso + length sos <= fuel)%nat →
  StronglySorted by_start sso → StronglySorted by_start sos →
  StronglySorted by_start (merged fuel sso sos).
Proof.
  revert sso sos. induction fuel as [|fuel IH]; intros [|x sso] [|y sos] Hf Hx Hy; cbn in *;
    try lia; try constructor.
  - apply IH; [cbn; lia|done|by apply StronglySorted_inv in Hy as [? _]].
  - rewrite merged_perm by (cbn; lia). by apply StronglySorted_inv in Hy as [_ ?].
  - apply IH; [cbn; lia|by apply StronglySorted_inv in Hx as [? _]|done].
  - rewrite merged_perm by (cbn; lia). rewrite app_nil_r. by apply StronglySorted_inv in Hx as [_ ?].
  - pose proof Hx as [Hx1 Hx2]%StronglySorted_inv. pose proof Hy as [Hy1 Hy2]%StronglySorted_inv.
    destruct (Z.ltb_spec (y.1) (x.1)).
    + constructor; [apply IH; [cbn; lia|done|done]|]. rewrite merged_perm by (cbn; lia).
      apply Forall_app. split; [|done]. constructor; [unfold by_start; lia|].
      eapply Forall_impl; [exact Hx2|]. unfold by_start. lia.
    + constructor; [apply IH; [cbn; lia|done|done]|]. rewrite merged_perm by (cbn; lia).
      apply Forall_app. split; [done|]. constructor; [unfold by_start; lia|].
      eapply Forall_impl; [exact Hy2|]. unfold by_start. lia.
Qed.

(** The loop with a limit returns a prefix of the full merge. *)
Definition resolved (st : MetadataState) (p : Z * Z) (x : Z * S3ObjectMetadata) : Prop :=
  x.1 = p.1 ∧ ∃ row, ms_stream_set_objects st !! p.2 = Some row ∧ x.2 = ssr_object row.

Definition object_entry (e : StreamOffsetKey * StreamObjectRow) : Z * S3ObjectMetadata :=
  (e.1.1.2, sjr_object e.2).

Lemma merge_objects_take st n sso l1 sos fuel :
  Forall2 (resolved st) sso l1 → (length sso + length sos <= fuel)%nat →
  merge_objects st n sso sos = Some (take n (merged fuel l1 (object_entry <$> sos)).*2).
Proof.
  revert sso l1 sos fuel. induction n as [|n IH]; intros sso l1 sos fuel Hr Hf; [done|].
  destruct Hr as [|[start o] [start' obj] sso l1 [E (row & Hrow & Hobj)] Hr],
    sos as [|[[[s a] k] r] sos], fuel as [|fuel]; cbn in *; try lia; try done; subst.
  - by rewrite (IH [] [] sos fuel) by (constructor || (cbn; lia)).
  - rewrite Hrow. cbn. by rewrite (IH sso l1 [] fuel) by (done || (cbn; lia)).
  - rewrite Hrow. destruct (a <? start); cbn.
    + rewrite (IH ((start, o) :: sso) ((start, ssr_object row) :: l1) sos fuel); [done| |cbn; lia].
      constructor; [|done]. split; [done|]. eauto.
    + by rewrite (IH sso l1 ((s, a, k, r) :: sos) fuel) by (done || (cbn; lia)).
Qed.

Lemma range_end_Some s a ranges e :
  range_end s a ranges = Some e →
  {| sor_stream_id := s; sor_start_offset := a; sor_end_offset := e |} ∈ ranges.
Proof.
  induction ranges as [|r ranges IH]; [done|]. rewrite range_end_cons.
  destruct (range_end s a ranges) as [e'|].
  - intros [= ->]. right. auto.
  - destruct (_ && _) eqn:E; [|done]. bsimp. intros [= <-].
    destruct r; cbn in *; subst. by left.
Qed.

(** Index entries point at existing objects that have that range. *)
Lemma sso_range_inv st s a o e :
  Inv st → ms_sso_ranges st !! (s, a, o) = Some e →
  ∃ row, ms_stream_set_objects st !! o = Some row ∧ om_object_id (ssr_object row) = o ∧
    range_end s a (om_offset_ranges (ssr_object row)) = Some e ∧ is_u64 a ∧ is_u64 o.
Proof.
  intros HI Hk. destruct (inv_sso _ HI) as (Hr & Hidx & _). rewrite Hidx in Hk.
  destruct (ms_stream_set_objects st !! o) as [row|] eqn:Ho; [|done]. cbn in Hk.
  destruct (Hr _ _ Ho) as (Hid & _ & (Hou & Hranges & _) & _). exists row.
  apply range_end_Some in Hk as Hin. rewrite Forall_forall in Hranges.
  destruct (Hranges _ Hin) as (_ & ? & _). split_and!; auto. by rewrite <-Hid.
Qed.

Lemma sso_keys_typed st : Inv st → keys_typed (ms_sso_ranges st).
Proof. intros HI s a o e Hk. destruct (sso_range_inv _ _ _ _ _ HI Hk) as (? & ? & ? & ? & ? & ?). done. Qed.

Lemma so_row_inv st s a o row :
  Inv st → ms_stream_objects st !! (s, a, o) = Some row →
  is_u64 a ∧ is_u64 o ∧ om_object_id (sjr_object row) = o ∧
  ∃ e, om_offset_ranges (sjr_object row) =
    [{| sor_stream_id := s; sor_start_offset := a; sor_end_offset := e |}].
Proof.
  intros HI Hk. destruct (inv_so _ HI) as [Hr _]. destruct (Hr _ _ Hk) as [Hok _].
  destruct Hok as (Hid & _ & (Hou & Hranges & _) & e & He). rewrite He in Hranges.
  apply Forall_cons in Hranges as [(_ & ? & _) _]. split_and!; eauto. by rewrite <-Hid.
Qed.

Lemma so_keys_typed st : Inv st → keys_typed (ms_stream_objects st).
Proof. intros HI s a o row Hk. by destruct (so_row_inv _ _ _ _ _ HI Hk) as (? & ? & _). Qed.

(** The row filter never meets an object without a range. *)
Lemma filter_rows_ok a b l :
  (∀ e, e ∈ l → is_Some (row_overlaps a b e.2)) →
  filter_rows a b l = Some (filter (λ e, row_overlaps a b e.2 = Some true) l).
Proof.
  induction l as [|e l IH]; intros Hl; [done|]. cbn [filter_rows]. rewrite filter_cons.
  destruct (Hl e) as [keep Hk]; [by left|]. rewrite Hk, IH by (intros; apply Hl; by right). cbn.
  destruct keep; [by rewrite decide_True|by rewrite decide_False].
Qed.

Lemma object_slice_ok st s a b :
  Inv st → object_slice st s a b =
    Some (filter (λ e, row_overlaps a b e.2 = Some true) (stream_slice (ms_stream_objects st) s b)).
Proof.
  intros HI. apply filter_rows_ok. intros [[[s' a'] o] row] Hin.
  apply elem_of_stream_slice in Hin as (-> & _ & Hk); [|by apply so_keys_typed].
  destruct (so_row_inv _ _ _ _ _ HI Hk) as (_ & _ & _ & e & He). unfold row_overlaps. cbn.
  rewrite He. eauto.
Qed.

(** ** The metadata query of the fetch path *)

(** [obj] holds data of stream [s] from [start] on, overlapping [a, b). *)
Definition holds_range (st : MetadataState) (s a b start : Z) (obj : S3ObjectMetadata) : Prop :=
  ∃ e, overlaps a b start e = true ∧
    ((∃ row, ms_stream_set_objects st !! om_object_id obj = Some row ∧ obj = ssr_object row ∧
        range_end s start (om_offset_ranges obj) = Some e) ∨
     (∃ row, ms_stream_objects st !! (s, start, om_object_id obj) = Some row ∧
        obj = sjr_object row ∧ range_end s start (om_offset_ranges obj) = Some e)).

(** The object an index entry refers to. *)
Definition set_entry (st : MetadataState) (p : StreamOffsetKey * Z) : Z * S3ObjectMetadata :=
  (p.1.1.2, from_option ssr_object
    {| om_object_id := 0; om_object_type := StreamSet; om_offset_ranges := [];
       om_object_size := 0; om_attributes := 0; om_committed_timestamp_ms := 0;
       om_data_timestamp_ms := 0 |} (ms_stream_set_objects st !! p.1.2)).

(** The resolved stream-set entries of the scan. *)
Lemma sso_entries st s a b :
  Inv st → ∃ l1, Forall2 (resolved st) (sso_slice st s a b) l1 ∧
    StronglySorted by_start l1 ∧ NoDup l1 ∧
    ∀ start obj, (start, obj) ∈ l1 ↔ ∃ row e, overlaps a b start e = true ∧
      ms_stream_set_objects st !! om_object_id obj = Some row ∧ obj = ssr_object row ∧
      range_end s start (om_offset_ranges obj) = Some e.
Proof.
  intros HI. unfold sso_slice.
  set (l := filter _ (stream_slice (ms_sso_ranges st) s b)).
  assert (Hl : ∀ k e, (k, e) ∈ l ↔ overlaps a b k.1.2 e = true ∧
    k.1.1 = s ∧ k.1.2 < b ∧ ms_sso_ranges st !! k = Some e).
  { intros [[s' a'] o] e. unfold l. rewrite list_elem_of_filter.
    rewrite elem_of_stream_slice by (by apply sso_keys_typed). done. }
  assert (Hres : ∀ p : StreamOffsetKey * Z, p ∈ l → ∃ row,
    ms_stream_set_objects st !! p.1.2 = Some row ∧ om_object_id (ssr_object row) = p.1.2 ∧
    range_end s p.1.1.2 (om_offset_ranges (ssr_object row)) = Some p.2).
  { intros [[[s' a'] o] e] (_ & Hs & _ & Hk)%Hl. cbn in Hs. subst s'.
    destruct (sso_range_inv _ _ _ _ _ HI Hk) as (row & ? & ? & ? & _). eauto. }
  set (f := set_entry st).
  assert (Hnd : NoDup l) by (by apply NoDup_filter, NoDup_stream_slice, sso_keys_typed).
  exists (f <$> l). split_and!.
  - apply Forall2_fmap_l, Forall2_fmap_r, Forall_Forall2_diag, Forall_forall.
    intros p Hp. split; [done|]. destruct (Hres p Hp) as (row & Hrow & _). exists row.
    unfold f, set_entry. cbn. by rewrite Hrow.
  - eapply StronglySorted_fmap;
      [|apply StronglySorted_filter, stream_slice_starts; by apply sso_keys_typed]. done.
  - apply NoDup_fmap_2_strong; [|done]. intros [[[s1 a1] o1] e1] [[[s2 a2] o2] e2] H1 H2 E.
    destruct (Hres _ H1) as (r1 & Hr1 & Hi1 & He1), (Hres _ H2) as (r2 & Hr2 & Hi2 & He2).
    apply Hl in H1 as (_ & Hs1 & _), H2 as (_ & Hs2 & _). unfold f, set_entry in E. cbn in *.
    rewrite Hr1, Hr2 in E. cbn in E. injection E as Ea Eb. subst. rewrite Eb in *. congruence.
  - intros start obj. rewrite list_elem_of_fmap. split.
    + intros ([[[s' a'] o] e] & E & Hin). destruct (Hres _ Hin) as (row & Hrow & Hid & He).
      unfold f, set_entry in E. cbn in *. rewrite Hrow in E. injection E as -> ->.
      apply Hl in Hin as (Hov & _). cbn in *. exists row, e. rewrite Hid. auto.
    + intros (row & e & Hov & Hrow & -> & He). exists (s, start, om_object_id (ssr_object row), e).
      split; [unfold f, set_entry; cbn; by rewrite Hrow|]. apply Hl. cbn. split_and!; [done..| |].
      * unfold overlaps in Hov. bsimp. lia.
      * destruct (inv_sso _ HI) as (_ & -> & _). by rewrite Hrow.
Qed.

Lemma object_entries st s a b :
  Inv st → ∃ rows, object_slice st s a b = Some rows ∧
    StronglySorted by_start (object_entry <$> rows) ∧ NoDup (object_entry <$> rows) ∧
    ∀ start obj, (start, obj) ∈ object_entry <$> rows ↔ ∃ row e, overlaps a b start e = true ∧
      ms_stream_objects st !! (s, start, om_object_id obj) = Some row ∧ obj = sjr_object row ∧
      range_end s start (om_offset_ranges obj) = Some e.
Proof.
  intros HI. eexists. split; [by apply object_slice_ok|].
  set (l := filter _ (stream_slice (ms_stream_objects st) s b)).
  assert (Hl : ∀ k row, (k, row) ∈ l ↔ row_overlaps a b row = Some true ∧
    k.1.1 = s ∧ k.1.2 < b ∧ ms_stream_objects st !! k = Some row).
  { intros [[s' a'] o] row. unfold l. rewrite list_elem_of_filter.
    rewrite elem_of_stream_slice by (by apply so_keys_typed). done. }
  split_and!.
  - eapply StronglySorted_fmap;
      [|apply StronglySorted_filter, stream_slice_starts; by apply so_keys_typed]. done.
  - apply NoDup_fmap_2_strong; [|by apply NoDup_filter, NoDup_stream_slice, so_keys_typed].
    intros [[[s1 a1] o1] r1] [[[s2 a2] o2] r2] (_ & Hs1 & _ & H1)%Hl (_ & Hs2 & _ & H2)%Hl E.
    cbn in Hs1, Hs2. subst s1 s2. injection E as -> E.
    destruct (so_row_inv _ _ _ _ _ HI H1) as (_ & _ & Hi1 & _),
      (so_row_inv _ _ _ _ _ HI H2) as (_ & _ & Hi2 & _). rewrite E in Hi1. congruence.
  - intros start obj. rewrite list_elem_of_fmap. split.
    + intros ([[[s' a'] o] row] & [= -> ->] & (Hov & Hs & _ & Hk)%Hl). cbn in *. subst s'.
      destruct (so_row_inv _ _ _ _ _ HI Hk) as (_ & _ & Hid & e & He).
      exists row, e. unfold row_overlaps in Hov. rewrite He in Hov. injection Hov as Hov.
      rewrite Hid, He. split_and!; auto. unfold range_end, range_end_step. cbn.
      by rewrite !Z.eqb_refl.
    + intros (row & e & Hov & Hk & -> & Hre). exists (s, start, om_object_id (sjr_object row), row).
      split; [done|]. apply Hl. cbn.
      destruct (so_row_inv _ _ _ _ _ HI Hk) as (_ & _ & _ & e' & He). rewrite He in Hre.
      unfold range_end, range_end_step in Hre. cbn in Hre. rewrite !Z.eqb_refl in Hre.
      injection Hre as ->. unfold row_overlaps. rewrite He. cbn. rewrite Hov.
      split_and!; auto. unfold overlaps in Hov. bsimp. lia.
Qed.

Lemma object_ids_disjoint st s start obj :
  Inv st → is_Some (ms_stream_set_objects st !! om_object_id obj) →
  ms_stream_objects st !! (s, start, om_object_id obj) = None.
Proof.
  intros HI Hs. apply eq_None_not_Some. intros [row Hk].
  destruct (inv_so _ HI) as [Hr _]. destruct (Hr _ _ Hk) as [_ Hid]. cbn in Hid.
  rewrite (inv_disjoint _ HI) in Hs by eauto. by destruct Hs.
Qed.

(** C28: The fetch path's metadata query never panics, and returns the first
    [limit] entries of a list that has one entry for every object and every
    range of the stream in it that overlaps [start, end), ordered by where
    the ranges start. An object committed with several ranges of the stream
    has one entry for each of them. *)
Theorem get_objects_complete st s a b limit :
  Inv st →
  ∃ l, get_objects st s a b limit = Some (take (Z.to_nat limit) l.*2) ∧
    StronglySorted by_start l ∧ NoDup l ∧
    ∀ start obj, (start, obj) ∈ l ↔ holds_range st s a b start obj.
Proof.
  intros HI. destruct (sso_entries st s a b HI) as (l1 & Hres & Hs1 & Hn1 & H1).
  destruct (object_entries st s a b HI) as (rows & Hrows & Hs2 & Hn2 & H2).
  unfold get_objects. rewrite Hrows. cbn.
  pose proof (Forall2_length _ _ _ Hres) as Hlen.
  assert (Hf : (length l1 + length (object_entry <$> rows) <=
    length (sso_slice st s a b) + length rows)%nat) by (rewrite length_fmap; lia).
  exists (merged (length (sso_slice st s a b) + length rows) l1 (object_entry <$> rows)).
  split_and!; [by apply merge_objects_take|by apply merged_sorted| |].
  - rewrite merged_perm by done. apply NoDup_app. split_and!; [done| |done].
    intros [start obj] (row & e & _ & Hr & _)%H1 (row' & e' & _ & Hr' & _)%H2.
    rewrite (object_ids_disjoint st s start obj HI) in Hr' by eauto. done.
  - intros start obj. rewrite merged_perm by done. rewrite elem_of_app, H1, H2.
    unfold holds_range. split.
    + intros [(row & e & ? & ? & ? & ?)|(row & e & ? & ? & ? & ?)]; exists e; (split; [done|]);
        [left|right]; exists row; done.
    + intros (e & ? & [(row & ? & ? & ?)|(row & ? & ? & ?)]); [left|right]; exists row, e; done.
Qed.

Lemma get_objects_complete_witness :
  ∃ l, get_objects demo_state 0 5 7 10 = Some (take (Z.to_nat 10) l.*2) ∧
    StronglySorted by_start l ∧ NoDup l ∧
    ∀ start obj, (start, obj) ∈ l ↔ holds_range demo_state 0 5 7 start obj.
Proof. apply get_objects_complete. exact demo_Inv. Defined.

(** ** Prefix listing *)
(** Prefix listing, implemented as a bounded scan from the prefix itself,
    returns exactly the entries whose key starts with the prefix, in key
    order. *)
Theorem list_kv_exact st pre :
  list_kv st pre =
  filter (λ e : string * list byte, String.prefix pre e.1 = true) (ord_list (ms_kv st)).
Proof.
  exact (prefix_scan_exact (ms_kv st) pre).
Qed.

(** ** Failover inputs *)
Lemma node_range_elem (X : gset (Z * Z)) (n n' o : Z) :
  (∀ n o, (n, o) ∈ X → is_u64 o) →
  (n', o) ∈ ord_range_set (n, 0) (n, u64_max) X ↔ n' = n ∧ (n, o) ∈ X.
Proof.
  intros HX. rewrite elem_of_ord_range_set. split.
  - intros [Hr Hin]. specialize (HX _ _ Hin). apply in_node_range in Hr as ->; [done|int_lia].
  - intros [-> Hin]. specialize (HX _ _ Hin). split; [|done]. apply in_node_range; [int_lia|done].
Qed.

Lemma server_objects_exact st n :
  Inv st → ∃ objs, get_server_objects st n = Some objs ∧
    ∀ obj, obj ∈ objs ↔ ∃ row, ms_stream_set_objects st !! om_object_id obj = Some row ∧
      ssr_node_id row = n ∧ obj = ssr_object row.
Proof.
  intros HI. destruct (inv_sso _ HI) as (Hr & _ & Hn). unfold get_server_objects.
  set (l := ord_range_set (n, 0) (n, u64_max) (ms_sso_by_node st)).
  assert (Hl : ∀ p, p ∈ l ↔ ∃ row, p.1 = n ∧ ms_stream_set_objects st !! p.2 = Some row ∧
    ssr_node_id row = n).
  { intros [n' o]. unfold l. rewrite node_range_elem.
    - rewrite Hn. cbn. naive_solver.
    - intros n1 o1 (row & Ho & _)%Hn. destruct (Hr _ _ Ho) as (<- & _ & [? _] & _). done. }
  destruct (mapM (λ k : Z * Z, ssr_object <$> ms_stream_set_objects st !! k.2) l) as [objs|] eqn:Ho.
  - exists objs. split; [done|]. apply mapM_Some in Ho. intros obj. rewrite list_elem_of_lookup. split.
    + intros [i Hi]. destruct (Forall2_lookup_r _ _ _ _ _ Ho Hi) as (p & Hp & Hpo).
      apply list_elem_of_lookup_2, Hl in Hp as (row & _ & Hrow & Hnode). rewrite Hrow in Hpo.
      injection Hpo as <-. destruct (Hr _ _ Hrow) as [-> _]. eauto.
    + intros (row & Hrow & Hnode & ->).
      assert (Hin : (n, om_object_id (ssr_object row)) ∈ l) by (apply Hl; cbn; eauto).
      apply list_elem_of_lookup in Hin as [i Hi].
      destruct (Forall2_lookup_l _ _ _ _ _ Ho Hi) as (obj & Hi' & E). cbn in E.
      rewrite Hrow in E. injection E as <-. eauto.
  - exfalso. apply mapM_None, Exists_exists in Ho as (p & (row & _ & Hrow & _)%Hl & Hp).
    by rewrite Hrow in Hp.
Qed.

Lemma opening_keys_typed st n s : Inv st → (n, s) ∈ ms_opening_by_node st → is_u64 s.
Proof.
  intros HI (row & Hs & _)%(inv_opening _ HI).
  destruct (row_facts _ _ _ HI Hs) as (_ & ? & _). destruct (inv_streams _ HI). int_lia.
Qed.

Lemma opening_streams_exact st n m :
  Inv st → m ∈ get_opening_streams st n ↔ ∃ s row, ms_streams st !! s = Some row ∧
    sr_state row = Opened ∧ sr_node_id row = n ∧ m = to_stream_metadata row.
Proof.
  intros HI. assert (Ht : ∀ n s, (n, s) ∈ ms_opening_by_node st → is_u64 s)
    by (intros; by eapply opening_keys_typed).
  unfold get_opening_streams. rewrite list_elem_of_omap. unfold get_stream. split.
  - intros ([n' s] & Hin & Hm). apply node_range_elem in Hin as [-> Hin]; [|done].
    apply (inv_opening _ HI) in Hin as (row & Hs & Ho & Hnode). cbn in Hm. rewrite Hs in Hm.
    injection Hm as <-. exists s, row. auto.
  - intros (s & row & Hs & Ho & Hnode & ->). exists (n, s). split; [|cbn; by rewrite Hs].
    apply node_range_elem; [done|]. split; [done|]. apply (inv_opening _ HI). eauto.
Qed.

(** Failover reads exact inputs: the objects of a node are all the
    stream-set objects it committed (the lookup never panics), and its
    opening streams are all the streams open on it. *)
Theorem failover_inputs_exact st n :
  Inv st →
  (∃ objs, get_server_objects st n = Some objs ∧
     ∀ obj, obj ∈ objs ↔ ∃ row, ms_stream_set_objects st !! om_object_id obj = Some row ∧
       ssr_node_id row = n ∧ obj = ssr_object row) ∧
  (∀ m, m ∈ get_opening_streams st n ↔ ∃ s row, ms_streams st !! s = Some row ∧
     sr_state row = Opened ∧ sr_node_id row = n ∧ m = to_stream_metadata row).
Proof.
  intros HI. split; [by apply server_objects_exact|]. intros m. by apply opening_streams_exact.
Qed.

Lemma failover_inputs_exact_witness :
  (∃ objs, get_server_objects demo_state 1 = Some objs ∧
     ∀ obj, obj ∈ objs ↔ ∃ row, ms_stream_set_objects demo_state !! om_object_id obj = Some row ∧
       ssr_node_id row = 1 ∧ obj = ssr_object row) ∧
  (∀ m, m ∈ get_opening_streams demo_state 1 ↔ ∃ s row, ms_streams demo_state !! s = Some row ∧
     sr_state row = Opened ∧ sr_node_id row = 1 ∧ m = to_stream_metadata row).
Proof. apply failover_inputs_exact. exact demo_Inv. Defined.
