(* ===== verification/RecordCodec.v ===== *)
(** * Record batches and WAL record frames

    [s3stream-codec]: the encoded [StreamRecordBatch] (record.rs, codec.rs)
    and the 24-byte frame around each record of the write-ahead log
    (wal_record.rs, crc.rs). All integers are big-endian and the fields are
    read by position. The CRC itself comes from the [crc32fast] crate and is
    a parameter of the model. *)

From Stdlib Require Import ZArith Lia.
From Stdlib Require Import Strings.Byte.
From stdpp Require Import base numbers list strings.
From S2P Require Import Prelude.

Open Scope Z_scope.
Open Scope rust_scope.

Inductive CodecError :=
| InvalidMagic (expected actual : Z)
| BufferTooShort (need have : Z)
| CrcMismatch (expected computed : Z).

(** ** Positional reads *)

(** [buf[pos..pos + n]] and the integers stored there. *)
Definition slice (buf : list byte) (pos n : nat) : list byte := take n (drop pos buf).
Definition read_u32 (buf : list byte) (pos : nat) : Z := be_val (slice buf pos 4).
Definition read_u64 (buf : list byte) (pos : nat) : Z := be_val (slice buf pos 8).
Definition read_i32 (buf : list byte) (pos : nat) : Z := wrap_i32 (be_val (slice buf pos 4)).

Lemma slice_mid pre x post pos n :
  length pre = pos → length x = n → slice (pre ++ x ++ post) pos n = x.
Proof. intros <- <-. unfold slice. by rewrite drop_app_length, take_app_length. Qed.

Lemma slice_be pre z post pos n :
  length pre = pos → 0 <= z < 256 ^ Z.of_nat n →
  be_val (slice (pre ++ be_bytes n z ++ post) pos n) = z.
Proof.
  intros Hpos Hz. rewrite slice_mid by (done || apply length_be_bytes).
  rewrite be_val_bytes. by apply Z.mod_small.
Qed.

Lemma slice_length buf pos n : (pos + n <= length buf)%nat → length (slice buf pos n) = n.
Proof. intros. unfold slice. rewrite length_take, length_drop. lia. Qed.

(** Writing back what was read reproduces the bytes. *)
Lemma slice_write_back buf pos n :
  (pos + n <= length buf)%nat → be_bytes n (be_val (slice buf pos n)) = slice buf pos n.
Proof. intros H. rewrite <-(slice_length buf pos n H) at 1. apply be_bytes_val. Qed.

Lemma slice_range buf pos n :
  (pos + n <= length buf)%nat → 0 <= be_val (slice buf pos n) < 256 ^ Z.of_nat n.
Proof. intros H. pose proof (be_val_range (slice buf pos n)). by rewrite slice_length in H0. Qed.

Lemma drop_slice buf pos n : drop pos buf = slice buf pos n ++ drop (pos + n) buf.
Proof. unfold slice. rewrite <-drop_drop. by rewrite take_drop. Qed.

(** ** Record batches *)
Definition MAGIC_V0 : Z := 34.
Definition MAGIC_POS : nat := 0.
Definition STREAM_ID_POS : nat := 1.
Definition EPOCH_POS : nat := STREAM_ID_POS + 8.
Definition BASE_OFFSET_POS : nat := EPOCH_POS + 8.
Definition LAST_OFFSET_DELTA_POS : nat := BASE_OFFSET_POS + 8.
Definition PAYLOAD_LENGTH_POS : nat := LAST_OFFSET_DELTA_POS + 4.
Definition PAYLOAD_POS : nat := PAYLOAD_LENGTH_POS + 4.
Definition HEADER_SIZE : nat := PAYLOAD_POS.

Definition OBJECT_OVERHEAD : Z := 48.

Record StreamRecordBatch := { encoded : list byte }.

Definition new_batch (stream_id epoch base_offset count : Z) (payload : list byte) :
    StreamRecordBatch := {|
  encoded := put_u8 MAGIC_V0 ++ put_u64 stream_id ++ put_u64 epoch ++ put_u64 base_offset ++
    put_i32 count ++ put_u32 (Z.of_nat (length payload)) ++ payload |}.

Definition parse (buf : list byte) : result (StreamRecordBatch * list byte) CodecError :=
  if (length buf <? HEADER_SIZE)%nat then
    Err (BufferTooShort (Z.of_nat HEADER_SIZE) (Z.of_nat (length buf)))
  else
    let magic := be_val (slice buf MAGIC_POS 1) in
    if negb (magic =? MAGIC_V0) then Err (InvalidMagic MAGIC_V0 magic)
    else
      let payload_len := read_i32 buf PAYLOAD_LENGTH_POS in
      if payload_len <? 0 then
        Err (BufferTooShort (Z.of_nat HEADER_SIZE) (Z.of_nat (length buf)))
      else
        let encoded_size := (PAYLOAD_POS + Z.to_nat payload_len)%nat in
        if (length buf <? encoded_size)%nat then
          Err (BufferTooShort (Z.of_nat encoded_size) (Z.of_nat (length buf)))
        else Ok ({| encoded := take encoded_size buf |}, drop encoded_size buf).

Definition from_encoded_unchecked (bytes : list byte) : StreamRecordBatch := {| encoded := bytes |}.

Definition stream_id (b : StreamRecordBatch) : Z := read_u64 (encoded b) STREAM_ID_POS.
Definition epoch (b : StreamRecordBatch) : Z := read_u64 (encoded b) EPOCH_POS.
Definition base_offset (b : StreamRecordBatch) : Z := read_u64 (encoded b) BASE_OFFSET_POS.
Definition count (b : StreamRecordBatch) : Z := read_i32 (encoded b) LAST_OFFSET_DELTA_POS.

Definition last_offset (b : StreamRecordBatch) : Z :=
  let c := count b in
  let base := wrap_i64 (base_offset b) in
  if 0 <? c then wrap_u64 (wrap_i64 (base + c)) else wrap_u64 (wrap_i64 (base - c)).

Definition payload (b : StreamRecordBatch) : list byte := drop PAYLOAD_POS (encoded b).
Definition batch_size (b : StreamRecordBatch) : Z :=
  wrap_u64 (read_i32 (encoded b) PAYLOAD_LENGTH_POS).
Definition occupied_size (b : StreamRecordBatch) : Z := wrap_u64 (batch_size b + OBJECT_OVERHEAD).

(** The parts a batch can be built from; a payload of 2 GiB or more has a
    length that reads back negative. *)
Definition parts_ok (sid ep base cnt : Z) (body : list byte) : Prop :=
  is_u64 sid ∧ is_u64 ep ∧ is_u64 base ∧ is_i32 cnt ∧ Z.of_nat (length body) < two31.

Definition well_formed (b : StreamRecordBatch) : Prop :=
  ∃ sid ep base cnt body, parts_ok sid ep base cnt body ∧ b = new_batch sid ep base cnt body.

Lemma length_new_batch sid ep base cnt body :
  length (encoded (new_batch sid ep base cnt body)) = (HEADER_SIZE + length body)%nat.
Proof. unfold new_batch. cbn [encoded]. rewrite !length_app. done. Qed.

Lemma wrap_i32_small z : 0 <= z < two31 → wrap_i32 z = z.
Proof. intros. apply wrap_i32_id. int_lia. Qed.

Lemma put_i32_unsigned z : put_i32 z = be_bytes 4 (z mod two32).
Proof. unfold put_i32, be_bytes. change two32 with (256 ^ Z.of_nat 4). by rewrite le_bytes_mod. Qed.

Section Fields.
Context (sid ep base cnt : Z) (body rest : list byte) (Hok : parts_ok sid ep base cnt body).
Let buf : list byte := encoded (new_batch sid ep base cnt body) ++ rest.

Lemma field_magic : be_val (slice buf MAGIC_POS 1) = MAGIC_V0.
Proof. reflexivity. Qed.

Lemma field_stream_id : read_u64 buf STREAM_ID_POS = sid.
Proof.
  unfold buf, read_u64. cbn [encoded new_batch]. rewrite <-!app_assoc.
  apply (slice_be (put_u8 MAGIC_V0)); [done|]. apply Hok.
Qed.

Lemma field_epoch : read_u64 buf EPOCH_POS = ep.
Proof.
  unfold buf, read_u64. cbn [encoded new_batch]. rewrite <-!app_assoc.
  rewrite (app_assoc (put_u8 _)). apply slice_be; [done|]. apply Hok.
Qed.

Lemma field_base_offset : read_u64 buf BASE_OFFSET_POS = base.
Proof.
  unfold buf, read_u64. cbn [encoded new_batch]. rewrite <-!app_assoc.
  rewrite (app_assoc (put_u8 _)), (app_assoc (put_u8 _ ++ _)). apply slice_be; [done|]. apply Hok.
Qed.

Lemma field_count : read_i32 buf LAST_OFFSET_DELTA_POS = cnt.
Proof.
  unfold buf, read_i32. cbn [encoded new_batch]. rewrite <-!app_assoc.
  rewrite (app_assoc (put_u8 _)), (app_assoc (put_u8 _ ++ _)), (app_assoc ((put_u8 _ ++ _) ++ _)),
    put_i32_unsigned. rewrite slice_be; [|done|apply Z.mod_pos_bound; done].
  apply wrap_i32_unsigned. apply Hok.
Qed.

Lemma field_payload_length : read_i32 buf PAYLOAD_LENGTH_POS = Z.of_nat (length body).
Proof.
  destruct Hok as (_ & _ & _ & _ & Hl). unfold buf, read_i32. cbn [encoded new_batch].
  rewrite <-!app_assoc.
  rewrite (app_assoc (put_u8 _)), (app_assoc (put_u8 _ ++ _)), (app_assoc ((put_u8 _ ++ _) ++ _)),
    (app_assoc (((put_u8 _ ++ _) ++ _) ++ _)).
  unfold put_u32. rewrite slice_be; [|done|change (256 ^ Z.of_nat 4) with two32; int_lia].
  apply wrap_i32_small. int_lia.
Qed.
End Fields.

(** Parsing what was built gives it back and leaves the rest. *)
Lemma parse_new sid ep base cnt body rest :
  parts_ok sid ep base cnt body →
  parse (encoded (new_batch sid ep base cnt body) ++ rest) =
  Ok (new_batch sid ep base cnt body, rest).
Proof.
  intros Hok. unfold parse. set (b := new_batch sid ep base cnt body).
  assert (Hlen : length (encoded b ++ rest) = (HEADER_SIZE + length body + length rest)%nat)
    by (unfold b; rewrite length_app, length_new_batch; lia).
  destruct (Nat.ltb_spec (length (encoded b ++ rest)) HEADER_SIZE); [lia|].
  unfold b. rewrite field_magic, field_payload_length by done. fold b.
  rewrite Z.eqb_refl. cbn [negb]. rewrite (proj2 (Z.ltb_ge _ _)) by lia. rewrite Nat2Z.id.
  destruct (Nat.ltb_spec (length (encoded b ++ rest)) (PAYLOAD_POS + length body));
    [unfold HEADER_SIZE in Hlen; lia|].
  rewrite take_app_length', drop_app_length'; [done|..]; symmetry; apply length_new_batch.
Qed.

Lemma slice_add buf p a b : slice buf p (a + b) = slice buf p a ++ slice buf (p + a) b.
Proof. unfold slice. by rewrite <-drop_drop, take_take_drop. Qed.

(** The header and payload of any buffer that is long enough, reassembled. *)
Lemma reassemble buf n :
  (HEADER_SIZE + n <= length buf)%nat → be_val (slice buf MAGIC_POS 1) = MAGIC_V0 →
  read_i32 buf PAYLOAD_LENGTH_POS = Z.of_nat n →
  take (HEADER_SIZE + n) buf =
  encoded (new_batch (read_u64 buf STREAM_ID_POS) (read_u64 buf EPOCH_POS)
    (read_u64 buf BASE_OFFSET_POS) (read_i32 buf LAST_OFFSET_DELTA_POS) (slice buf PAYLOAD_POS n)).
Proof.
  intros Hlen Hmagic Hpl. unfold HEADER_SIZE, PAYLOAD_POS, PAYLOAD_LENGTH_POS,
    LAST_OFFSET_DELTA_POS, BASE_OFFSET_POS, EPOCH_POS, STREAM_ID_POS, MAGIC_POS in *.
  cbn [Nat.add] in *. cbn [encoded new_batch]. rewrite slice_length by lia.
  assert (E1 : put_u8 MAGIC_V0 = slice buf 0 1).
  { rewrite <-Hmagic. pose proof (slice_write_back buf 0 1 ltac:(lia)) as E. rewrite <-E at 2. done. }
  assert (E2 : ∀ pos, (pos + 8 <= length buf)%nat → put_u64 (read_u64 buf pos) = slice buf pos 8)
    by (intros; by apply slice_write_back).
  assert (E3 : ∀ pos, (pos + 4 <= length buf)%nat → put_i32 (read_i32 buf pos) = slice buf pos 4).
  { intros pos Hp. rewrite put_i32_unsigned. unfold read_i32. rewrite wrap_i32_mod, Z.mod_small;
      [by apply slice_write_back|]. by apply (slice_range buf pos 4). }
  rewrite E1, !E2 by lia. rewrite <-Hpl.
  change (put_u32 (read_i32 buf 29)) with (put_i32 (read_i32 buf 29)). rewrite !E3 by lia.
  change (take (33 + n) buf) with (slice buf 0 (33 + n)).
  rewrite <-!slice_add. done.
Qed.

Lemma parse_inv buf b rest :
  parse buf = Ok (b, rest) → buf = encoded b ++ rest ∧ well_formed b.
Proof.
  unfold parse. destruct (Nat.ltb_spec (length buf) HEADER_SIZE) as [|H1]; [done|].
  destruct (_ =? MAGIC_V0) eqn:Hmagic; [|done]. apply Z.eqb_eq in Hmagic. cbn [negb].
  destruct (Z.ltb_spec (read_i32 buf PAYLOAD_LENGTH_POS) 0) as [|H2]; [done|].
  set (n := Z.to_nat (read_i32 buf PAYLOAD_LENGTH_POS)).
  destruct (Nat.ltb_spec (length buf) (PAYLOAD_POS + n)) as [|H3]; [done|].
  intros H. assert (b = {| encoded := take (PAYLOAD_POS + n) buf |} ∧
    rest = drop (PAYLOAD_POS + n) buf) as [-> ->] by (split; congruence).
  split; [cbn [encoded]; by rewrite take_drop|]. unfold well_formed.
  assert (Hn : read_i32 buf PAYLOAD_LENGTH_POS = Z.of_nat n) by (unfold n; lia).
  rewrite (reassemble buf n H3 Hmagic Hn : take (PAYLOAD_POS + n) buf = _).
  eexists _, _, _, _, _. split; [|reflexivity].
  assert (Hi : is_i32 (read_i32 buf PAYLOAD_LENGTH_POS)) by apply wrap_i32_is_i32.
  unfold HEADER_SIZE, PAYLOAD_POS, PAYLOAD_LENGTH_POS, LAST_OFFSET_DELTA_POS, BASE_OFFSET_POS,
    EPOCH_POS, STREAM_ID_POS in *. cbn [Nat.add] in *.
  split_and!; [by apply (slice_range buf _ 8); lia..|apply wrap_i32_is_i32|].
  rewrite slice_length by lia. int_lia.
Qed.

(** Record batches are exact on the wire: parsing accepts a buffer iff it
    starts with the encoding of a batch built from in-range parts, consumes
    exactly that encoding, and returns that batch. *)
Theorem parse_exact buf b rest :
  parse buf = Ok (b, rest) ↔ well_formed b ∧ buf = encoded b ++ rest.
Proof.
  split; [intros H%parse_inv; tauto|]. intros [(sid & ep & base & cnt & body & Hok & ->) ->].
  by apply parse_new.
Qed.

(** The accessors of a built batch return its parts, and the exclusive
    last offset is the base offset plus the record count, or minus it for a
    link record (a count of zero or less), as long as it fits in 64 bits. *)
Theorem batch_accessors sid ep base cnt body :
  parts_ok sid ep base cnt body → is_u64 (base + Z.abs cnt) →
  let b := new_batch sid ep base cnt body in
  stream_id b = sid ∧ epoch b = ep ∧ base_offset b = base ∧ count b = cnt ∧ payload b = body ∧
  batch_size b = Z.of_nat (length body) ∧ last_offset b = base + Z.abs cnt.
Proof.
  intros Hok Hlast b.
  pose proof (field_stream_id _ _ _ _ _ [] Hok) as F1. pose proof (field_epoch _ _ _ _ _ [] Hok) as F2.
  pose proof (field_base_offset _ _ _ _ _ [] Hok) as F3. pose proof (field_count _ _ _ _ _ [] Hok) as F4.
  pose proof (field_payload_length _ _ _ _ _ [] Hok) as F5.
  rewrite !app_nil_r in F1, F2, F3, F4, F5. fold b in F1, F2, F3, F4, F5.
  destruct Hok as (H1 & H2 & H3 & H4 & H5). split_and!; [done..| | |].
  - unfold payload, b. cbn [encoded new_batch]. rewrite !app_assoc. by apply drop_app_length'.
  - unfold batch_size. rewrite F5. apply wrap_u64_id. int_lia.
  - unfold last_offset, count, base_offset. rewrite F3, F4.
    assert (Hw : ∀ z, wrap_u64 (wrap_i64 z) = wrap_u64 z)
      by (intros; unfold wrap_u64; apply wrap_i64_mod).
    destruct (Z.ltb_spec 0 cnt); rewrite Hw; unfold wrap_u64;
      [rewrite <-Zplus_mod_idemp_l|rewrite <-Zminus_mod_idemp_l]; rewrite wrap_i64_mod;
      [rewrite Zplus_mod_idemp_l|rewrite Zminus_mod_idemp_l]; rewrite Z.mod_small; int_lia.
Qed.

Lemma batch_accessors_witness :
  let b := new_batch 1 1 500 (-5) [] in
  stream_id b = 1 ∧ epoch b = 1 ∧ base_offset b = 500 ∧ count b = -5 ∧ payload b = [] ∧
  batch_size b = Z.of_nat (length (@nil byte)) ∧ last_offset b = 500 + Z.abs (-5).
Proof. apply batch_accessors; [unfold parts_ok; cbn; int_lia|int_lia]. Defined.

(** ** WAL record frames *)
Definition WAL_RECORD_HEADER_SIZE : nat := 24.
Definition WAL_RECORD_HEADER_WITHOUT_CRC_SIZE : nat := WAL_RECORD_HEADER_SIZE - 4.
Definition RECORD_DATA_MAGIC : Z := 2271560481.
Definition RECORD_EMPTY_MAGIC : Z := 1985229328.

Record WalRecordHeader := {
  wr_magic : Z;
  wr_body_length : Z;
  wr_body_offset : Z;
  wr_body_crc : Z;
  wr_header_crc : Z;
}.

Definition header_data (offset body_length body_crc : Z) : WalRecordHeader := {|
  wr_magic := RECORD_DATA_MAGIC; wr_body_length := body_length;
  wr_body_offset := wrap_u64 (offset + Z.of_nat WAL_RECORD_HEADER_SIZE);
  wr_body_crc := body_crc; wr_header_crc := 0 |}.

Definition header_padding (offset body_length : Z) : WalRecordHeader := {|
  wr_magic := RECORD_EMPTY_MAGIC; wr_body_length := body_length;
  wr_body_offset := wrap_u64 (offset + Z.of_nat WAL_RECORD_HEADER_SIZE);
  wr_body_crc := 0; wr_header_crc := 0 |}.

Definition is_padding (h : WalRecordHeader) : bool := wr_magic h =? RECORD_EMPTY_MAGIC.

(** The 20 bytes the header CRC covers. *)
Definition header_prefix (h : WalRecordHeader) : list byte :=
  put_u32 (wr_magic h) ++ put_u32 (wr_body_length h) ++ put_u64 (wr_body_offset h) ++
  put_u32 (wr_body_crc h).

Section Frames.
(** [crc32fast::hash]: some function from bytes to integers. *)
Context (crc32 : list byte → Z).

Definition wal_crc32 (data : list byte) : Z := Z.land (crc32 data) 2147483647.

Definition marshal (h : WalRecordHeader) : list byte :=
  header_prefix h ++ put_u32 (wal_crc32 (header_prefix h)).

Definition unmarshal (buf : list byte) : result WalRecordHeader CodecError :=
  if (length buf <? WAL_RECORD_HEADER_SIZE)%nat then
    Err (BufferTooShort (Z.of_nat WAL_RECORD_HEADER_SIZE) (Z.of_nat (length buf)))
  else
    let stored_crc := read_u32 buf 20 in
    let computed_crc := wal_crc32 (take WAL_RECORD_HEADER_WITHOUT_CRC_SIZE buf) in
    if negb (stored_crc =? computed_crc) then Err (CrcMismatch stored_crc computed_crc)
    else
      let magic := read_u32 buf 0 in
      if negb (magic =? RECORD_DATA_MAGIC) && negb (magic =? RECORD_EMPTY_MAGIC) then
        Err (InvalidMagic RECORD_DATA_MAGIC magic)
      else Ok {| wr_magic := magic; wr_body_length := read_u32 buf 4;
                 wr_body_offset := read_u64 buf 8; wr_body_crc := read_u32 buf 16;
                 wr_header_crc := stored_crc |}.

Definition frame_record (offset : Z) (body : list byte) : list byte :=
  marshal (header_data offset (wrap_u32 (Z.of_nat (length body))) (wal_crc32 body)) ++ body.

(** [assert!(total_length >= WAL_RECORD_HEADER_SIZE)] panics otherwise. *)
Definition frame_padding_record (offset : Z) (total_length : nat) : option (list byte) :=
  if (total_length <? WAL_RECORD_HEADER_SIZE)%nat then None
  else
    let body_length := (total_length - WAL_RECORD_HEADER_SIZE)%nat in
    Some (marshal (header_padding offset (wrap_u32 (Z.of_nat body_length))) ++
          replicate body_length x00).

Definition decode_record (buf : list byte) :
    result (StreamRecordBatch * list byte) CodecError :=
  let? header := unmarshal buf in
  if negb (wr_magic header =? RECORD_DATA_MAGIC) then
    Err (InvalidMagic RECORD_DATA_MAGIC (wr_magic header))
  else
    let total := (WAL_RECORD_HEADER_SIZE + Z.to_nat (wr_body_length header))%nat in
    if (length buf <? total)%nat then
      Err (BufferTooShort (Z.of_nat total) (Z.of_nat (length buf)))
    else
      let body := slice buf WAL_RECORD_HEADER_SIZE (Z.to_nat (wr_body_length header)) in
      let computed := wal_crc32 body in
      if negb (computed =? wr_body_crc header) then
        Err (CrcMismatch (wr_body_crc header) computed)
      else
        let? record := parse body in
        match record.2 with
        | [] => Ok (record.1, drop total buf)
        | rest => Err (BufferTooShort (wr_body_length header)
            (wr_body_length header - Z.of_nat (length rest)))
        end.

Lemma wal_crc32_range data : 0 <= wal_crc32 data < two31.
Proof.
  unfold wal_crc32. change 2147483647 with (Z.ones 31). rewrite Z.land_ones by lia.
  apply Z.mod_pos_bound. done.
Qed.

Lemma length_header_prefix h : length (header_prefix h) = WAL_RECORD_HEADER_WITHOUT_CRC_SIZE.
Proof. done. Qed.

Lemma length_marshal h : length (marshal h) = WAL_RECORD_HEADER_SIZE.
Proof. done. Qed.

(** Fields that fit their wire widths; the magic is one of the two. *)
Definition header_typed (h : WalRecordHeader) : Prop :=
  (wr_magic h = RECORD_DATA_MAGIC ∨ wr_magic h = RECORD_EMPTY_MAGIC) ∧
  is_u32 (wr_body_length h) ∧ is_u64 (wr_body_offset h) ∧ is_u32 (wr_body_crc h).

Definition with_crc (h : WalRecordHeader) : WalRecordHeader := {|
  wr_magic := wr_magic h; wr_body_length := wr_body_length h;
  wr_body_offset := wr_body_offset h; wr_body_crc := wr_body_crc h;
  wr_header_crc := wal_crc32 (header_prefix h) |}.

Lemma unmarshal_marshal h rest : header_typed h → unmarshal (marshal h ++ rest) = Ok (with_crc h).
Proof.
  intros (Hm & Hl & Ho & Hc). unfold unmarshal.
  destruct (Nat.ltb_spec (length (marshal h ++ rest)) WAL_RECORD_HEADER_SIZE);
    [rewrite length_app, length_marshal in *; lia|].
  pose proof (wal_crc32_range (header_prefix h)) as Hcrc.
  assert (Hmu : is_u32 (wr_magic h)) 
    by (unfold RECORD_DATA_MAGIC, RECORD_EMPTY_MAGIC in Hm; int_lia).
  assert (E20 : read_u32 (marshal h ++ rest) 20 = wal_crc32 (header_prefix h)).
  { unfold read_u32, marshal. rewrite <-app_assoc. apply slice_be; [done|].
    change (256 ^ Z.of_nat 4) with two32. int_lia. }
  assert (Et : take WAL_RECORD_HEADER_WITHOUT_CRC_SIZE (marshal h ++ rest) = header_prefix h).
  { unfold marshal. rewrite <-app_assoc. by apply take_app_length'. }
  assert (E0 : read_u32 (marshal h ++ rest) 0 = wr_magic h).
  { unfold read_u32, marshal, header_prefix. rewrite <-!app_assoc.
    exact (slice_be [] (wr_magic h) _ 0 4 eq_refl Hmu). }
  assert (E4 : read_u32 (marshal h ++ rest) 4 = wr_body_length h).
  { unfold read_u32, marshal, header_prefix. rewrite <-!app_assoc.
    exact (slice_be (put_u32 (wr_magic h)) (wr_body_length h) _ 4 4 eq_refl Hl). }
  assert (E8 : read_u64 (marshal h ++ rest) 8 = wr_body_offset h).
  { unfold read_u64, marshal, header_prefix. rewrite <-!app_assoc.
    rewrite (app_assoc (put_u32 (wr_magic h))).
    exact (slice_be (put_u32 (wr_magic h) ++ put_u32 (wr_body_length h)) (wr_body_offset h) _ 8 8 eq_refl Ho). }
  assert (E16 : read_u32 (marshal h ++ rest) 16 = wr_body_crc h).
  { unfold read_u32, marshal, header_prefix. rewrite <-!app_assoc.
    rewrite (app_assoc (put_u32 (wr_magic h))), (app_assoc (_ ++ _)).
    exact (slice_be ((put_u32 (wr_magic h) ++ put_u32 (wr_body_length h)) ++
      put_u64 (wr_body_offset h)) (wr_body_crc h) _ 16 4 eq_refl Hc). }
  rewrite E20, Et, E0, E4, E8, E16, Z.eqb_refl. cbn [negb].
  destruct Hm as [Em|Em]; rewrite Em; unfold with_crc; by rewrite Em.
Qed.

Lemma unmarshal_inv buf h :
  unmarshal buf = Ok h →
  header_typed h ∧ h = with_crc h ∧ take WAL_RECORD_HEADER_SIZE buf = marshal h ∧
  (WAL_RECORD_HEADER_SIZE <= length buf)%nat.
Proof.
  unfold unmarshal. destruct (Nat.ltb_spec (length buf) WAL_RECORD_HEADER_SIZE) as [|Hlen]; [done|].
  destruct (read_u32 buf 20 =? _) eqn:Ec; [|done]. apply Z.eqb_eq in Ec. cbn [negb].
  destruct (negb (read_u32 buf 0 =? RECORD_DATA_MAGIC) && _) eqn:Em; [done|]. intros [= <-].
  change WAL_RECORD_HEADER_WITHOUT_CRC_SIZE with 20%nat in Ec.
  change WAL_RECORD_HEADER_SIZE with 24%nat in *.
  assert (E4 : ∀ pos, (pos + 4 <= length buf)%nat → put_u32 (read_u32 buf pos) = slice buf pos 4)
    by (intros; by apply slice_write_back).
  assert (E8 : put_u64 (read_u64 buf 8) = slice buf 8 8) by (apply slice_write_back; lia).
  set (h := Build_WalRecordHeader _ _ _ _ _).
  assert (Hp : header_prefix h = take 20 buf).
  { unfold header_prefix. cbn. rewrite !E4, E8 by lia.
    change (take 20 buf) with (slice buf 0 (4 + (4 + (8 + 4)))). by rewrite !slice_add. }
  split_and!; [| | |done].
  - split; [|split_and!; [apply (slice_range buf _ 4)|apply (slice_range buf _ 8)|
      apply (slice_range buf _ 4)]; lia].
    apply andb_false_iff in Em as [Em|Em]; apply negb_false_iff, Z.eqb_eq in Em; auto.
  - unfold with_crc. rewrite Hp, <-Ec. done.
  - unfold marshal. rewrite Hp, <-Ec, E4 by lia. apply (slice_add buf 0 20 4).
Qed.

Definition record_header (body_offset : Z) (b : StreamRecordBatch) : WalRecordHeader := {|
  wr_magic := RECORD_DATA_MAGIC; wr_body_length := Z.of_nat (length (encoded b));
  wr_body_offset := body_offset; wr_body_crc := wal_crc32 (encoded b); wr_header_crc := 0 |}.

Lemma well_formed_length b : well_formed b → Z.of_nat (length (encoded b)) < two32.
Proof.
  intros (sid & ep & base & cnt & body & (_ & _ & _ & _ & Hl) & ->). rewrite length_new_batch.
  change HEADER_SIZE with 33%nat. int_lia.
Qed.

Lemma record_header_typed bo b : is_u64 bo → well_formed b → header_typed (record_header bo b).
Proof.
  intros Hbo Hb. pose proof (wal_crc32_range (encoded b)). apply well_formed_length in Hb.
  unfold header_typed, record_header; cbn. split_and!; auto; int_lia.
Qed.

Lemma decode_marshalled bo b rest :
  is_u64 bo → well_formed b →
  decode_record (marshal (record_header bo b) ++ encoded b ++ rest) = Ok (b, rest).
Proof.
  intros Hbo Hb. unfold decode_record.
  rewrite unmarshal_marshal by (by apply record_header_typed). cbn [rbind].
  cbn [wr_magic wr_body_length wr_body_crc with_crc record_header]. rewrite Z.eqb_refl, Nat2Z.id.
  cbn [negb]. set (m := marshal (record_header bo b)).
  assert (Hm : length m = WAL_RECORD_HEADER_SIZE) by apply length_marshal.
  destruct (Nat.ltb_spec (length (m ++ encoded b ++ rest)) (WAL_RECORD_HEADER_SIZE + length (encoded b)));
    [rewrite !length_app in *; lia|].
  rewrite slice_mid by done. rewrite Z.eqb_refl. cbn [negb].
  destruct Hb as (sid & ep & base & cnt & body & Hok & ->).
  pose proof (parse_new sid ep base cnt body [] Hok) as Hparse. rewrite app_nil_r in Hparse.
  rewrite Hparse. cbn [rbind fst snd]. f_equal. f_equal.
  rewrite app_assoc. apply drop_app_length'. rewrite length_app, Hm. done.
Qed.

(** WAL framing is exact, whatever the checksum function: a buffer decodes
    to a record iff it starts with a frame of that record (a data header with
    its length, its body CRC, a valid header CRC and some body offset,
    followed by the encoded batch), and decoding consumes exactly the
    frame. *)
Theorem decode_record_exact buf b rest :
  decode_record buf = Ok (b, rest) ↔
  well_formed b ∧ ∃ bo, is_u64 bo ∧ buf = marshal (record_header bo b) ++ encoded b ++ rest.
Proof.
  split; [|intros (Hb & bo & Hbo & ->); by apply decode_marshalled].
  unfold decode_record. intros H. inv_rbind H. rename a into h.
  apply unmarshal_inv in Hr as (Ht & _ & Hh & Hlen).
  destruct (wr_magic h =? RECORD_DATA_MAGIC) eqn:Em; [|done]. apply Z.eqb_eq in Em. cbn [negb] in H.
  set (n := Z.to_nat (wr_body_length h)) in *.
  destruct (Nat.ltb_spec (length buf) (WAL_RECORD_HEADER_SIZE + n)) as [|Hn]; [done|].
  destruct (_ =? wr_body_crc h) eqn:Ec; [|done]. apply Z.eqb_eq in Ec. cbn [negb] in H.
  inv_rbind H. destruct a as [b' [|x l]]; [|done]. cbn [fst snd] in H.
  assert (b' = b ∧ rest = drop (WAL_RECORD_HEADER_SIZE + n) buf) as [-> ->] by (split; congruence).
  apply parse_inv in Hr as [Hbody Hb]. rewrite app_nil_r in Hbody. split; [done|].
  destruct Ht as (_ & Hlu & Hou & _). exists (wr_body_offset h). split; [done|].
  assert (Hbl : length (encoded b) = n) by (rewrite <-Hbody; by apply slice_length).
  replace (marshal (record_header (wr_body_offset h) b)) with (marshal h).
  - rewrite <-Hh, <-Hbody. rewrite <-(take_drop WAL_RECORD_HEADER_SIZE buf) at 1. f_equal.
    apply (drop_slice buf WAL_RECORD_HEADER_SIZE n).
  - assert (E : header_prefix h = header_prefix (record_header (wr_body_offset h) b)).
    { unfold header_prefix, record_header. cbn. rewrite Em, Hbl, <-Ec, Hbody.
      replace (Z.of_nat n) with (wr_body_length h) by (unfold n; int_lia). done. }
    unfold marshal. by rewrite E.
Qed.

(** Framing a record and decoding it returns the record and consumes the
    frame; a padding frame is recognised by its header and is never decoded
    as a record. *)
Theorem frame_roundtrip offset b rest total padding :
  well_formed b → Z.of_nat total < two32 → frame_padding_record offset total = Some padding →
  decode_record (frame_record offset (encoded b) ++ rest) = Ok (b, rest) ∧
  length padding = total ∧
  (∃ h, unmarshal padding = Ok h ∧ is_padding h = true) ∧
  decode_record padding = Err (InvalidMagic RECORD_DATA_MAGIC RECORD_EMPTY_MAGIC).
Proof.
  intros Hb Ht Hp. pose proof (well_formed_length b Hb) as Hl. split.
  - unfold frame_record. rewrite <-app_assoc, wrap_u32_id by int_lia.
    change (header_data offset (Z.of_nat (length (encoded b))) (wal_crc32 (encoded b)))
      with (record_header (wrap_u64 (offset + Z.of_nat WAL_RECORD_HEADER_SIZE)) b).
    apply decode_marshalled; auto with ints.
  - unfold frame_padding_record in Hp.
    destruct (Nat.ltb_spec total WAL_RECORD_HEADER_SIZE) as [|Hge]; [done|].
    assert (padding = marshal (header_padding offset (wrap_u32 (Z.of_nat (total -
      WAL_RECORD_HEADER_SIZE)))) ++ replicate (total - WAL_RECORD_HEADER_SIZE) x00)
      as -> by congruence.
    assert (Hu : ∀ r, unmarshal (marshal (header_padding offset (wrap_u32 (Z.of_nat (total -
      WAL_RECORD_HEADER_SIZE)))) ++ r) = Ok (with_crc (header_padding offset (wrap_u32 (Z.of_nat
      (total - WAL_RECORD_HEADER_SIZE)))))).
    { intros r. apply unmarshal_marshal. unfold header_typed. cbn.
      split_and!; auto with ints. int_lia. }
    split_and!; [rewrite length_app, length_marshal, length_replicate; lia| |].
    + eexists. split; [apply Hu|reflexivity].
    + unfold decode_record. rewrite Hu. reflexivity.
Qed.
End Frames.

Lemma frame_roundtrip_witness :
  let crc := λ data : list byte, be_val data in
  let b := new_batch 3 1 77 2 [x01; x02] in
  decode_record crc (frame_record crc 512 (encoded b) ++ [xff]) = Ok (b, [xff]) ∧
  length (marshal crc (header_padding 9 6) ++ replicate 6 x00) = 30%nat ∧
  (∃ h, unmarshal crc (marshal crc (header_padding 9 6) ++ replicate 6 x00) = Ok h ∧
     is_padding h = true) ∧
  decode_record crc (marshal crc (header_padding 9 6) ++ replicate 6 x00) =
    Err (InvalidMagic RECORD_DATA_MAGIC RECORD_EMPTY_MAGIC).
Proof.
  intros crc b. split.
  - apply (frame_roundtrip crc 512 b [xff] 24 (marshal crc (header_padding 512 0)));
      [|int_lia|reflexivity].
    exists 3, 1, 77, 2, [x01; x02]. split; [|reflexivity]. unfold parts_ok. cbn. int_lia.
  - apply (frame_roundtrip crc 9 b [] 30); [|int_lia|reflexivity].
    exists 3, 1, 77, 2, [x01; x02]. split; [|reflexivity]. unfold parts_ok. cbn. int_lia.
Defined.
