(* ===== verification/ObjectIndex.v ===== *)
(** * Object metadata and the index block

    [s3stream-object]: object attributes and storage keys (metadata.rs), the
    errors of the crate (error.rs), and the index block of an object
    (index.rs): one 36-byte entry per data block, searched by stream and
    offset. *)

From Stdlib Require Import ZArith Lia.
From Stdlib Require Import Strings.Byte.
From Stdlib Require Import DecimalString HexadecimalString DecimalN DecimalFacts.
From stdpp Require Import base numbers list strings sets gmap sorting.
From S2P Require Import Prelude StreamTypes RecordCodec.

Open Scope Z_scope.
Open Scope rust_scope.

(** ** Errors *)

(** The reason texts of [InvalidFormat] and [OrderingViolation], one
    constructor per message with the values it prints. *)
Inductive Reason :=
| IndexEntryShort (have : Z)
| IndexBlockLength (len : Z)
| ObjectSmallerThanFooter (size : Z)
| FooterReadShort (len : Z)
| FooterMagicMismatch (magic : Z)
| FooterGeometry (index_position index_size size : Z)
| BlockHeaderShort (have : Z)
| BlockMagicMismatch (magic : Z)
| BlockTruncated (need have : Z)
| BlockTrailingBytes (count : Z)
| StreamIdBackwards (stream_id last_stream_id : Z)
| OffsetBackwards (stream_id start_offset last_end_offset : Z)
| InvalidComponentIndex (stream_id start_offset expect_stream_id expect_offset : Z)
| CompositeTooSmall (len : Z)
| CompositeMagicMismatch (magic : Z)
| CompositeGeometry (index_position index_size size : Z)
| ObjectsMagicMismatch (magic : Z)
| ObjectsSizeMismatch (count : Z)
| NoComponent (block_id : Z).

(** [Backend] and [Io] wrap errors of other crates; they are told apart only
    by whether they mean "not found". *)
Inductive ObjectError :=
| Codec (e : CodecError)
| NotFound (key : string)
| InvalidFormat (reason : Reason)
| OrderingViolation (reason : Reason)
| Backend (not_found : bool)
| TimedOut (key last : string)
| Io.

Definition is_not_found (e : ObjectError) : bool :=
  match e with
  | NotFound _ => true
  | Backend not_found => not_found
  | _ => false
  end.

(** ** Metadata *)
Definition DEEP_DELETE_MASK : Z := Z.shiftl 1 18.

(** [ObjectAttributes::new]; [bucket_id as u16] is the low 16 bits. *)
Definition attributes_new (bucket_id : Z) (composite deep_delete : bool) : Z :=
  let attributes := if composite then Z.lor 0 1 else 0 in
  let attributes := Z.lor attributes (Z.shiftl (bucket_id mod 65536) 2) in
  if deep_delete then Z.lor attributes DEEP_DELETE_MASK else attributes.

Definition attr_bucket_id (attributes : Z) : Z :=
  wrap_i16 (Z.land (Z.shiftr attributes 2) 65535).
Definition attr_is_composite (attributes : Z) : bool := Z.land attributes 3 =? 1.
Definition attr_deep_delete (attributes : Z) : bool := negb (Z.land attributes DEEP_DELETE_MASK =? 0).

Definition DEFAULT_NAMESPACE : string := "DEFAULT".

(** Decimal and lower-case hexadecimal text of an unsigned integer. *)
Definition show_dec (z : Z) : string := DecimalString.NilZero.string_of_uint (N.to_uint (Z.to_N z)).
Definition show_hex (z : Z) : string :=
  HexadecimalString.NilZero.string_of_uint (N.to_hex_uint (Z.to_N z)).

(** [{:08x}]: padded with zeros to eight digits. *)
Definition pad8 (s : string) : string :=
  String.append (String.string_of_list_byte (replicate (8 - String.length s) x30)) s.

Definition rev_string (s : string) : string := of_bytes (reverse (as_bytes s)).

(** [gen_object_key_in], under its assertion that the version is 0. *)
Definition gen_object_key_in (namespace : string) (object_id : Z) : string :=
  rev_string (pad8 (show_hex object_id)) +:+ "/" +:+ namespace +:+ "/" +:+ show_dec object_id.
Definition gen_object_key (object_id : Z) : string := gen_object_key_in DEFAULT_NAMESPACE object_id.

(** [java_string_hash], on text whose UTF-16 units are its bytes (the keys
    hashed are ASCII). *)
Definition java_string_hash (s : string) : Z :=
  foldl (λ h c, wrap_i32 (wrap_i32 (h * 31) + byte_val c)) 0 (as_bytes s).

Definition gen_index_key_in (namespace : string) (node_id : Z) : string :=
  let hash := java_string_hash ("sparse-index" +:+ show_dec node_id) in
  pad8 (show_hex (wrap_u32 hash)) +:+ "/" +:+ namespace +:+ "/node-" +:+ show_dec node_id.
Definition gen_index_key (node_id : Z) : string := gen_index_key_in DEFAULT_NAMESPACE node_id.

Definition om_key (m : S3ObjectMetadata) : string := gen_object_key (om_object_id m).

(** ** Storage keys are unique *)
Lemma as_bytes_append (a b : string) : as_bytes (a +:+ b) = as_bytes a ++ as_bytes b.
Proof.
  induction a as [|c a IH]; [done|]. change (String c a +:+ b) with (String c (a +:+ b)).
  change (as_bytes (String c ?s)) with (Ascii.byte_of_ascii c :: as_bytes s).
  cbn [app]. by rewrite <-IH.
Qed.

Lemma as_bytes_inj (a b : string) : as_bytes a = as_bytes b → a = b.
Proof. intros H. by rewrite <-(of_as_bytes a), <-(of_as_bytes b), H. Qed.

Lemma show_dec_no_slash z : x2f ∉ as_bytes (show_dec z).
Proof.
  unfold show_dec. assert (H : ∀ d, x2f ∉ as_bytes (DecimalString.NilEmpty.string_of_uint d)).
  { induction d as [|d IH|d IH|d IH|d IH|d IH|d IH|d IH|d IH|d IH|d IH];
      [by apply not_elem_of_nil|..]; apply not_elem_of_cons; done. }
  unfold DecimalString.NilZero.string_of_uint. destruct (N.to_uint _) eqn:E; [|apply H..].
  unfold as_bytes. cbn. rewrite list_elem_of_singleton. done.
Qed.

Lemma show_dec_inj a b : 0 <= a → 0 <= b → show_dec a = show_dec b → a = b.
Proof.
  unfold show_dec. intros Ha Hb H.
  assert (Hn : ∀ n, N.to_uint n ≠ Decimal.Nil).
  { intros n E. pose proof (DecimalN.Unsigned.of_to n) as Ho. rewrite E in Ho. cbn in Ho.
    subst n. discriminate E. }
  apply (f_equal DecimalString.NilZero.uint_of_string) in H.
  rewrite !DecimalString.NilZero.usu in H by apply Hn.
  assert (Hu : N.to_uint (Z.to_N a) = N.to_uint (Z.to_N b)) by congruence.
  apply DecimalN.Unsigned.to_uint_inj in Hu. lia.
Qed.

(** Two texts with the same separator agree after their last separators. *)
Lemma split_last_slash {A} (s : A) (p1 p2 q1 q2 : list A) :
  s ∉ q1 → s ∉ q2 → p1 ++ s :: q1 = p2 ++ s :: q2 → p1 = p2 ∧ q1 = q2.
Proof.
  revert p2. induction p1 as [|x p1 IH]; intros [|y p2] H1 H2 E; cbn in E.
  - split; congruence.
  - exfalso. apply H1. assert (q1 = p2 ++ s :: q2) as -> by congruence. set_solver.
  - exfalso. apply H2. assert (q2 = p1 ++ s :: q1) as -> by congruence. set_solver.
  - assert (x = y ∧ p1 ++ s :: q1 = p2 ++ s :: q2) as [-> E'] by (split; congruence).
    destruct (IH p2 H1 H2 E') as [-> ->]. done.
Qed.

Lemma object_key_inj ns1 ns2 id1 id2 :
  is_u64 id1 → is_u64 id2 →
  gen_object_key_in ns1 id1 = gen_object_key_in ns2 id2 → ns1 = ns2 ∧ id1 = id2.
Proof.
  intros H1 H2 H. apply (f_equal as_bytes) in H. unfold gen_object_key_in in H.
  rewrite !as_bytes_append in H.
  change (as_bytes "/") with [x2f] in H. rewrite !(app_assoc (_ : list byte) [x2f]) in H.
  rewrite !app_assoc in H. rewrite <-!(app_assoc _ [x2f] (as_bytes (show_dec _))) in H.
  apply split_last_slash in H as [Hp Hd]; [|apply show_dec_no_slash..].
  apply as_bytes_inj, show_dec_inj in Hd; [|int_lia..]. subst id2. split; [|done].
  rewrite <-!app_assoc in Hp. apply app_inv_head in Hp. by apply app_inv_head, as_bytes_inj in Hp.
Qed.

(** Object keys never collide: objects of any namespaces with equal storage
    keys have the same namespace and the same id, so no upload overwrites
    and no physical delete hits another object's key. *)
Theorem object_keys_injective ns1 ns2 id1 id2 :
  is_u64 id1 → is_u64 id2 →
  gen_object_key_in ns1 id1 = gen_object_key_in ns2 id2 → ns1 = ns2 ∧ id1 = id2.
Proof. apply object_key_inj. Qed.

Lemma object_keys_injective_witness : "ns" = "ns" ∧ 255 = 255.
Proof. apply (object_keys_injective "ns" "ns" 255 255); [int_lia|int_lia|reflexivity]. Defined.

(** The conformance fixtures of [keys/object_keys.json]. *)
Example object_key_fixture_small : gen_object_key 255 = "ff000000/DEFAULT/255".
Proof. reflexivity. Qed.

Example object_key_fixture_large :
  gen_object_key 9223372036854775807 = "fffffffffffffff7/DEFAULT/9223372036854775807".
Proof. reflexivity. Qed.

(** Bits below and above a position add without carry. *)
Lemma lor_shiftl_add a b n : 0 <= n → 0 <= a < 2 ^ n → Z.lor a (Z.shiftl b n) = a + b * 2 ^ n.
Proof.
  intros Hn Ha. rewrite <-Z.shiftl_mul_pow2 by lia.
  rewrite <-(Z.add_lor_land a (Z.shiftl b n)).
  replace (Z.land a (Z.shiftl b n)) with 0; [lia|]. symmetry. apply Z.bits_inj'. intros m Hm.
  rewrite Z.land_spec, Z.bits_0. destruct (Z.lt_ge_cases m n).
  - rewrite Z.shiftl_spec_low by lia. apply andb_false_r.
  - rewrite <-(Z.mod_small a (2 ^ n)) by lia. by rewrite Z.mod_pow2_bits_high by lia.
Qed.

Lemma land_pow2_add a b n : 0 <= n → 0 <= a < 2 ^ n → Z.land (a + b * 2 ^ n) (2 ^ n) =
  Z.shiftl (b mod 2) n.
Proof.
  intros Hn Ha. rewrite <-lor_shiftl_add by done. replace (2 ^ n) with (Z.shiftl 1 n) by
    (rewrite Z.shiftl_mul_pow2 by lia; lia).
  rewrite Z.land_lor_distr_l, <-Z.shiftl_land. change 1 with (Z.ones 1) at 2.
  rewrite Z.land_ones by lia. replace (Z.land a (Z.shiftl 1 n)) with 0; [done|].
  symmetry. apply Z.bits_inj'. intros m Hm. rewrite Z.land_spec, Z.bits_0.
  destruct (Z.lt_ge_cases m n); [rewrite Z.shiftl_spec_low by lia; apply andb_false_r|].
  rewrite <-(Z.mod_small a (2 ^ n)) by lia. by rewrite Z.mod_pow2_bits_high by lia.
Qed.

(** The packed attributes round-trip: the bucket id, the composite flag and
    the deep-delete mark occupy disjoint bits, so each accessor returns what
    was packed, and the packed word fits in 19 bits. *)
Theorem attributes_roundtrip bucket composite deep :
  is_i16 bucket →
  let a := attributes_new bucket composite deep in
  attr_bucket_id a = bucket ∧ attr_is_composite a = composite ∧ attr_deep_delete a = deep ∧
  0 <= a < 2 ^ 19.
Proof.
  intros Hb a. set (u := bucket mod 65536). set (c := if composite then 1 else 0).
  set (d := if deep then 1 else 0).
  assert (Hu : 0 <= u < 65536) by (apply Z.mod_pos_bound; lia).
  assert (Hc : 0 <= c <= 1) by (unfold c; destruct composite; lia).
  assert (Hd : 0 <= d <= 1) by (unfold d; destruct deep; lia).
  assert (Ha : a = (c + u * 2 ^ 2) + d * 2 ^ 18).
  { unfold a, attributes_new, DEEP_DELETE_MASK. fold u. replace (if composite then _ else 0) with c
      by (unfold c; by destruct composite). rewrite (lor_shiftl_add c) by lia. unfold d.
    destruct deep; [|lia]. rewrite lor_shiftl_add by lia. done. }
  split_and!.
  - unfold attr_bucket_id. rewrite Z.shiftr_div_pow2 by lia. change 65535 with (Z.ones 16).
    rewrite Z.land_ones by lia. replace (a / 2 ^ 2) with (u + d * 65536) by
      (rewrite Ha; apply Z.div_unique with c; lia).
    change (2 ^ 16) with 65536. rewrite Z.mod_add, Z.mod_small by lia. by apply wrap_i16_unsigned.
  - unfold attr_is_composite. change 3 with (Z.ones 2). rewrite Z.land_ones by lia.
    replace (a mod 2 ^ 2) with c by (rewrite Ha; apply Z.mod_unique with (u + d * 65536); lia).
    unfold c. by destruct composite.
  - unfold attr_deep_delete, DEEP_DELETE_MASK. change (Z.shiftl 1 18) with (2 ^ 18).
    rewrite Ha, land_pow2_add by lia. unfold d. by destruct deep.
  - lia.
  - lia.
Qed.

Lemma attributes_roundtrip_witness :
  let a := attributes_new (-5) true false in
  attr_bucket_id a = -5 ∧ attr_is_composite a = true ∧ attr_deep_delete a = false ∧ 0 <= a < 2 ^ 19.
Proof. apply attributes_roundtrip. int_lia. Defined.

(** ** The index block *)
Definition BLOCK_INDEX_SIZE : nat := 36.

Record DataBlockIndex := {
  bi_block_id : Z;
  bi_stream_id : Z;
  bi_start_offset : Z;
  bi_end_offset_delta : Z;
  bi_record_count : Z;
  bi_start_position : Z;
  bi_size : Z;
}.

#[export] Instance DataBlockIndex_eq_dec : EqDecision DataBlockIndex.
Proof. solve_decision. Defined.

Definition bi_end_offset (e : DataBlockIndex) : Z :=
  wrap_u64 (bi_start_offset e + bi_end_offset_delta e).
Definition bi_end_position (e : DataBlockIndex) : Z :=
  wrap_u64 (bi_start_position e + bi_size e).

Definition bi_encode (e : DataBlockIndex) : list byte :=
  put_u64 (bi_stream_id e) ++ put_u64 (bi_start_offset e) ++ put_u32 (bi_end_offset_delta e) ++
  put_u32 (bi_record_count e) ++ put_u64 (bi_start_position e) ++ put_u32 (bi_size e).

Definition bi_decode (block_id : Z) (buf : list byte) : result DataBlockIndex ObjectError :=
  if (length buf <? BLOCK_INDEX_SIZE)%nat then
    Err (InvalidFormat (IndexEntryShort (Z.of_nat (length buf))))
  else Ok {| bi_block_id := block_id; bi_stream_id := read_u64 buf 0;
             bi_start_offset := read_u64 buf 8; bi_end_offset_delta := read_u32 buf 16;
             bi_record_count := read_u32 buf 20; bi_start_position := read_u64 buf 24;
             bi_size := read_u32 buf 32 |}.

Record FindIndexResult := {
  fulfilled : bool;
  next_start_offset : Z;
  next_max_bytes : Z;
  blocks : list DataBlockIndex;
}.

Notation IndexBlock := (list DataBlockIndex).

(** The loop of [IndexBlock::parse] from entry [i] on; [i as i32] wraps. *)
Fixpoint index_parse_from (i : Z) (count : nat) (data : list byte) :
    result IndexBlock ObjectError :=
  match count with
  | O => Ok []
  | S count =>
      let? entry := bi_decode (wrap_i32 i) data in
      let? entries := index_parse_from (i + 1) count (drop BLOCK_INDEX_SIZE data) in
      Ok (entry :: entries)
  end.

Definition index_parse (data : list byte) : result IndexBlock ObjectError :=
  if negb (length data `mod` BLOCK_INDEX_SIZE =? 0)%nat then
    Err (InvalidFormat (IndexBlockLength (Z.of_nat (length data))))
  else index_parse_from 0 (length data `div` BLOCK_INDEX_SIZE) data.

Definition index_encode (entries : IndexBlock) : list byte := concat (bi_encode <$> entries).

Definition is_less (e : DataBlockIndex) (stream_id offset : Z) : bool :=
  (bi_stream_id e <? stream_id) || ((bi_stream_id e =? stream_id) && (bi_end_offset e <=? offset)).
Definition is_greater (e : DataBlockIndex) (stream_id offset : Z) : bool :=
  (stream_id <? bi_stream_id e) || ((bi_stream_id e =? stream_id) && (offset <? bi_start_offset e)).

(** The binary search over [lo..=hi]; [Ok] is a hit, [Err] the insertion
    point. Each round shrinks the interval, so the number of entries plus one
    is enough fuel. *)
Fixpoint search_loop (fuel : nat) (entries : IndexBlock) (stream_id offset lo hi : Z) :
    result Z Z :=
  match fuel with
  | O => Err lo
  | S fuel =>
      if lo <=? hi then
        let mid := (lo + hi) / 2 in
        match entries !! Z.to_nat mid with
        | None => Err lo
        | Some e =>
            if is_less e stream_id offset then
              search_loop fuel entries stream_id offset (mid + 1) hi
            else if is_greater e stream_id offset then
              search_loop fuel entries stream_id offset lo (mid - 1)
            else Ok mid
        end
      else Err lo
  end.

Definition search (entries : IndexBlock) (stream_id offset : Z) : result Z Z :=
  search_loop (S (length entries)) entries stream_id offset 0 (Z.of_nat (length entries) - 1).

Definition record_payload_size (e : DataBlockIndex) : Z :=
  saturating_sub (saturating_sub (bi_size e) (bi_record_count e * 33)) 10.

(** The loop of [find] over the entries from the hit on. *)
Fixpoint find_loop (entries : IndexBlock) (stream_id end_offset : Z) (matched : bool)
    (r : FindIndexResult) : FindIndexResult :=
  match entries with
  | [] => r
  | e :: entries =>
      if bi_stream_id e =? stream_id then
        if next_start_offset r <? bi_start_offset e then r
        else if bi_end_offset e <=? next_start_offset r then
          find_loop entries stream_id end_offset matched r
        else
          let matched := next_start_offset r =? bi_start_offset e in
          let max_bytes :=
            if matched
            then next_max_bytes r - Z.min (next_max_bytes r) (record_payload_size e)
            else next_max_bytes r in
          let next := bi_end_offset e in
          let done := (negb (end_offset =? NOOP_OFFSET) && (end_offset <=? next)) ||
            (max_bytes =? 0) in
          let r := {| fulfilled := done; next_start_offset := next; next_max_bytes := max_bytes;
                      blocks := blocks r ++ [e] |} in
          if done then r else find_loop entries stream_id end_offset matched r
      else if matched then r
      else find_loop entries stream_id end_offset matched r
  end.

Definition find (entries : IndexBlock) (stream_id start_offset end_offset max_bytes : Z) :
    FindIndexResult :=
  let r := {| fulfilled := false; next_start_offset := start_offset;
              next_max_bytes := max_bytes; blocks := [] |} in
  match search entries stream_id start_offset with
  | Err _ => r
  | Ok start_index =>
      find_loop (drop (Z.to_nat start_index) entries) stream_id end_offset false r
  end.

(** ** The index block round-trips *)
Definition bi_typed (e : DataBlockIndex) : Prop :=
  is_u64 (bi_stream_id e) ∧ is_u64 (bi_start_offset e) ∧ is_u32 (bi_end_offset_delta e) ∧
  is_u32 (bi_record_count e) ∧ is_u64 (bi_start_position e) ∧ is_u32 (bi_size e).

Definition with_block_id (id : Z) (e : DataBlockIndex) : DataBlockIndex := {|
  bi_block_id := id; bi_stream_id := bi_stream_id e; bi_start_offset := bi_start_offset e;
  bi_end_offset_delta := bi_end_offset_delta e; bi_record_count := bi_record_count e;
  bi_start_position := bi_start_position e; bi_size := bi_size e |}.

(** Entries numbered from [i], as a reader numbers them. *)
Fixpoint numbered (i : Z) (entries : list DataBlockIndex) : Prop :=
  match entries with
  | [] => True
  | e :: entries => bi_block_id e = wrap_i32 i ∧ numbered (i + 1) entries
  end.

Lemma length_bi_encode e : length (bi_encode e) = BLOCK_INDEX_SIZE.
Proof. done. Qed.

(** Field [k] of an encoding that is a concatenation of fields. *)
Lemma read_at_8 pre z post buf pos :
  buf = pre ++ put_u64 z ++ post → length pre = pos → is_u64 z → read_u64 buf pos = z.
Proof. intros -> Hl Hz. unfold read_u64, put_u64. by apply slice_be. Qed.

Lemma read_at_4 pre z post buf pos :
  buf = pre ++ put_u32 z ++ post → length pre = pos → is_u32 z → read_u32 buf pos = z.
Proof. intros -> Hl Hz. unfold read_u32, put_u32. by apply slice_be. Qed.

Lemma bi_decode_encode id e rest :
  bi_typed e → bi_decode id (bi_encode e ++ rest) = Ok (with_block_id id e).
Proof.
  intros (H1 & H2 & H3 & H4 & H5 & H6). unfold bi_decode.
  destruct (Nat.ltb_spec (length (bi_encode e ++ rest)) BLOCK_INDEX_SIZE) as [Hlt|_];
    [rewrite length_app, length_bi_encode in Hlt; lia|].
  unfold with_block_id. f_equal. unfold bi_encode. f_equal.
  - eapply (read_at_8 []); by rewrite ?length_app, <-?app_assoc.
  - eapply (read_at_8 (put_u64 _)); by rewrite ?length_app, <-?app_assoc.
  - eapply (read_at_4 (put_u64 _ ++ put_u64 _)); by rewrite ?length_app, <-?app_assoc.
  - eapply (read_at_4 (put_u64 _ ++ put_u64 _ ++ put_u32 _)); by rewrite ?length_app, <-?app_assoc.
  - eapply (read_at_8 (put_u64 _ ++ put_u64 _ ++ put_u32 _ ++ put_u32 _));
      by rewrite ?length_app, <-?app_assoc.
  - eapply (read_at_4 (put_u64 _ ++ put_u64 _ ++ put_u32 _ ++ put_u32 _ ++ put_u64 _));
      by rewrite ?length_app, <-?app_assoc.
Qed.

Lemma bi_decode_inv id buf e :
  bi_decode id buf = Ok e →
  bi_typed e ∧ bi_block_id e = id ∧ buf = bi_encode e ++ drop BLOCK_INDEX_SIZE buf ∧
  (BLOCK_INDEX_SIZE <= length buf)%nat.
Proof.
  unfold bi_decode. destruct (Nat.ltb_spec (length buf) BLOCK_INDEX_SIZE) as [|Hl]; [done|].
  intros [= <-]. change BLOCK_INDEX_SIZE with 36%nat in *. split_and!; [|done| |done].
  - unfold bi_typed. cbn. split_and!; first
      [apply (slice_range buf _ 8); lia|apply (slice_range buf _ 4); lia].
  - assert (E4 : ∀ pos, (pos + 4 <= length buf)%nat → put_u32 (read_u32 buf pos) = slice buf pos 4)
      by (intros; by apply slice_write_back).
    assert (E8 : ∀ pos, (pos + 8 <= length buf)%nat → put_u64 (read_u64 buf pos) = slice buf pos 8)
      by (intros; by apply slice_write_back).
    unfold bi_encode. cbn [bi_stream_id bi_start_offset bi_end_offset_delta bi_record_count
      bi_start_position bi_size]. rewrite !E8, !E4 by lia.
    rewrite <-(take_drop 36 buf) at 1. f_equal.
    change (take 36 buf) with (slice buf 0 (8 + (8 + (4 + (4 + (8 + 4)))))).
    by rewrite !slice_add.
Qed.

Lemma length_index_encode entries :
  length (index_encode entries) = (BLOCK_INDEX_SIZE * length entries)%nat.
Proof.
  induction entries as [|e entries IH]; [done|]. unfold index_encode in *.
  rewrite fmap_cons. cbn [concat]. rewrite length_app, IH, length_bi_encode. cbn [length]. lia.
Qed.

Lemma index_parse_from_exact entries i count data :
  index_parse_from i count data = Ok entries ↔
  length entries = count ∧ Forall bi_typed entries ∧ numbered i entries ∧
  take (BLOCK_INDEX_SIZE * count) data = index_encode entries.
Proof.
  revert i entries data. induction count as [|count IH]; intros i entries data.
  { rewrite Nat.mul_0_r. cbn. split; [intros [= <-]; by repeat constructor|].
    intros (Hl & _). by destruct entries. }
  cbn [index_parse_from]. replace (BLOCK_INDEX_SIZE * S count)%nat
    with (BLOCK_INDEX_SIZE + BLOCK_INDEX_SIZE * count)%nat by lia. split.
  - intros H. inv_rbind H. inv_rbind H. apply bi_decode_inv in Hr as (Ht & Hid & Hbuf & Hlen).
    apply IH in Hr0 as (Hl & Hts & Hn & Htake).
    assert (entries = a :: a0) as -> by congruence. split_and!; [cbn; lia|by constructor|done|].
    rewrite Hbuf, take_app_add' by done. unfold index_encode. rewrite fmap_cons. cbn [concat].
    by rewrite Htake.
  - intros (Hl & Ht & Hn & Htake). destruct entries as [|e entries]; [done|].
    apply Forall_cons in Ht as [He Hes]. destruct Hn as [Hid Hn].
    unfold index_encode in Htake. rewrite fmap_cons in Htake. cbn [concat] in Htake.
    assert (Hdata : data = bi_encode e ++ drop BLOCK_INDEX_SIZE data).
    { rewrite <-(take_drop BLOCK_INDEX_SIZE data) at 1. f_equal.
      apply (f_equal (take BLOCK_INDEX_SIZE)) in Htake.
      rewrite take_take, take_app_length' in Htake by done. by rewrite <-Htake. }
    rewrite Hdata at 1. rewrite bi_decode_encode by done. cbn [rbind].
    assert (Hr : index_parse_from (i + 1) count (drop BLOCK_INDEX_SIZE data) = Ok entries).
    { apply IH. split_and!; [cbn in Hl; lia|done|done|].
      rewrite Hdata, take_app_add' in Htake by done. by apply app_inv_head in Htake. }
    rewrite Hr. cbn [rbind]. do 2 f_equal. rewrite <-Hid. by destruct e.
Qed.

Lemma index_parse_iff data entries :
  index_parse data = Ok entries ↔
  Forall bi_typed entries ∧ numbered 0 entries ∧ data = index_encode entries.
Proof.
  unfold index_parse. split.
  - destruct (Nat.eqb_spec (length data `mod` BLOCK_INDEX_SIZE)%nat 0) as [Hm|]; [|done].
    cbn [negb]. rewrite index_parse_from_exact. intros (_ & Ht & Hn & Hd). split_and!; [done..|].
    rewrite <-Hd, take_ge; [done|].
    pose proof (Nat.div_mod (length data) BLOCK_INDEX_SIZE ltac:(done)). lia.
  - intros (Ht & Hn & ->). rewrite length_index_encode.
    rewrite (Nat.mul_comm BLOCK_INDEX_SIZE), Nat.Div0.mod_mul, Nat.div_mul by done. cbn [negb Nat.eqb].
    apply index_parse_from_exact. split_and!; [done..|]. apply take_ge.
    rewrite length_index_encode. lia.
Qed.

(** Index blocks are exact on the wire: parsing accepts a byte string iff it
    is the encoding of entries whose fields fit their widths, and returns
    those entries numbered from zero; every other length or content is
    rejected. *)
Theorem index_parse_exact data entries :
  index_parse data = Ok entries ↔
  Forall bi_typed entries ∧ numbered 0 entries ∧ data = index_encode entries.
Proof. apply index_parse_iff. Qed.

(** ** Searching a sorted index *)

(** Entry [a] precedes entry [b]: a lower stream, or the same stream with no
    overlap. *)
Definition bi_before (a b : DataBlockIndex) : Prop :=
  bi_stream_id a < bi_stream_id b ∨
  bi_stream_id a = bi_stream_id b ∧ bi_end_offset a <= bi_start_offset b.

(** An index as a writer leaves it: sorted, and no entry runs backwards. *)
Definition index_sorted (entries : IndexBlock) : Prop :=
  StronglySorted bi_before entries ∧ Forall (λ e, bi_start_offset e <= bi_end_offset e) entries.

(** The entry holds offset [o] of stream [sid]. *)
Definition holds (e : DataBlockIndex) (sid o : Z) : Prop :=
  bi_stream_id e = sid ∧ bi_start_offset e <= o < bi_end_offset e.

(** Blocks that follow one another without a gap from [o] to [next]. *)
Fixpoint contiguous_run (sid o : Z) (bs : list DataBlockIndex) (next : Z) : Prop :=
  match bs with
  | [] => next = o
  | b :: bs => bi_stream_id b = sid ∧ bi_start_offset b = o ∧ o < bi_end_offset b ∧
      contiguous_run sid (bi_end_offset b) bs next
  end.

Lemma not_less_not_greater e sid o :
  is_less e sid o = false → is_greater e sid o = false → holds e sid o.
Proof.
  unfold is_less, is_greater, holds. intros [H1 H2]%orb_false_iff [H3 H4]%orb_false_iff.
  apply Z.ltb_ge in H1, H3. assert (bi_stream_id e = sid) as <- by lia.
  rewrite Z.eqb_refl in H2, H4. cbn in H2, H4. apply Z.leb_gt in H2. apply Z.ltb_ge in H4. lia.
Qed.

Lemma is_less_holds e sid o : is_less e sid o = true → ¬ holds e sid o.
Proof.
  unfold is_less, holds. intros [H|[H1 H2]%andb_prop]%orb_prop [? ?];
    [apply Z.ltb_lt in H|apply Z.leb_le in H2]; lia.
Qed.

Lemma is_greater_holds e sid o : is_greater e sid o = true → ¬ holds e sid o.
Proof.
  unfold is_greater, holds. intros [H|[H1 H2]%andb_prop]%orb_prop [? ?];
    [apply Z.ltb_lt in H|apply Z.ltb_lt in H2]; lia.
Qed.

Lemma sorted_lookup (entries : IndexBlock) i j a b :
  StronglySorted bi_before entries → (i < j)%nat → entries !! i = Some a → entries !! j = Some b →
  bi_before a b.
Proof.
  intros Hs. revert i j. induction Hs as [|e entries Hs IH Hall]; intros i j Hij Ha Hb; [done|].
  destruct j as [|j]; [lia|]. destruct i as [|i]; cbn in Ha, Hb.
  - assert (e = a) as <- by congruence. rewrite Forall_forall in Hall.
    apply Hall. by eapply list_elem_of_lookup_2.
  - apply (IH i j); [lia|done..].
Qed.

(** The comparison is monotone along a sorted index. *)
Lemma is_less_before a b sid o :
  bi_before a b → bi_start_offset b <= bi_end_offset b → is_less b sid o = true →
  is_less a sid o = true.
Proof.
  unfold is_less. intros [H|[H1 H2]] Hb [Hl|[Hs Hl]%andb_prop]%orb_prop; apply orb_true_iff;
    rewrite ?Z.ltb_lt, ?Z.eqb_eq, ?Z.leb_le in *; [left; lia..|left; lia|right].
  apply andb_true_iff. rewrite Z.eqb_eq, Z.leb_le. lia.
Qed.

Lemma is_greater_before a b sid o :
  bi_before a b → bi_start_offset a <= bi_end_offset a → is_greater a sid o = true →
  is_greater b sid o = true.
Proof.
  unfold is_greater. intros [H|[H1 H2]] Ha [Hl|[Hs Hl]%andb_prop]%orb_prop; apply orb_true_iff;
    rewrite ?Z.ltb_lt, ?Z.eqb_eq in *; [left; lia|left; lia|left; lia|right].
  apply andb_true_iff. rewrite Z.eqb_eq, Z.ltb_lt. lia.
Qed.

(** What the binary search promises. *)
Definition search_spec (entries : IndexBlock) (sid o : Z) (r : result Z Z) : Prop :=
  match r with
  | Ok i => ∃ e, 0 <= i ∧ entries !! Z.to_nat i = Some e ∧ holds e sid o
  | Err _ => ∀ e, e ∈ entries → ¬ holds e sid o
  end.

Lemma search_loop_ok entries sid o fuel lo hi :
  index_sorted entries → 0 <= lo → hi < Z.of_nat (length entries) → hi - lo + 1 < Z.of_nat fuel →
  (∀ k e, Z.of_nat k < lo → entries !! k = Some e → is_less e sid o = true) →
  (∀ k e, hi < Z.of_nat k → entries !! k = Some e → is_greater e sid o = true) →
  search_spec entries sid o (search_loop fuel entries sid o lo hi).
Proof.
  intros [Hs Hf]. revert lo hi.
  induction fuel as [|fuel IH]; intros lo hi Hlo Hhi Hfuel Hless Hgreater; cbn [search_loop].
  { intros e [k Hk]%list_elem_of_lookup. destruct (Z.lt_ge_cases (Z.of_nat k) lo).
    - apply is_less_holds. by eapply Hless.
    - apply is_greater_holds. eapply (Hgreater k); [lia|done]. }
  destruct (Z.leb_spec lo hi) as [Hle|Hgt].
  - assert (Hmid : lo <= (lo + hi) / 2 <= hi)
      by (split; [apply Z.div_le_lower_bound|apply Z.div_le_upper_bound]; lia).
    set (mid := (lo + hi) / 2) in *.
    destruct (lookup_lt_is_Some_2 entries (Z.to_nat mid)) as [e He]; [lia|]. rewrite He.
    pose proof Hf as Hf'. rewrite Forall_forall in Hf'.
    destruct (is_less e sid o) eqn:El; [|destruct (is_greater e sid o) eqn:Eg].
    + apply IH; [lia..| |done]. intros k e' Hk He'.
      destruct (decide (k = Z.to_nat mid)) as [->|]; [congruence|].
      apply (is_less_before e' e); [|apply Hf'; by eapply list_elem_of_lookup_2|done].
      apply (sorted_lookup entries k (Z.to_nat mid)); [done|lia|done..].
    + apply IH; [lia..|done|]. intros k e' Hk He'.
      destruct (decide (k = Z.to_nat mid)) as [->|]; [congruence|].
      apply (is_greater_before e e'); [|apply Hf'; by eapply list_elem_of_lookup_2|done].
      apply (sorted_lookup entries (Z.to_nat mid) k); [done|lia|done..].
    + exists e. split_and!; [lia|done|by apply not_less_not_greater].
  - intros e [k Hk]%list_elem_of_lookup. destruct (Z.lt_ge_cases (Z.of_nat k) lo).
    + apply is_less_holds. by eapply Hless.
    + apply is_greater_holds. eapply (Hgreater k); [lia|done].
Qed.

Lemma search_ok entries sid o :
  index_sorted entries → search_spec entries sid o (search entries sid o).
Proof.
  intros Hs. apply search_loop_ok; [done|lia|lia|lia|intros; lia|].
  intros k e Hk He. apply lookup_lt_Some in He. lia.
Qed.

(** The request is satisfied: the end offset is reached or the byte budget
    is used up. *)
Definition request_met (end_offset : Z) (r : FindIndexResult) : Prop :=
  end_offset ≠ NOOP_OFFSET ∧ end_offset <= next_start_offset r ∨ next_max_bytes r = 0.

Lemma done_iff end_offset next max_bytes b bs :
  let done := (negb (end_offset =? NOOP_OFFSET) && (end_offset <=? next)) || (max_bytes =? 0) in
  done = true ↔ request_met end_offset
    {| fulfilled := b; next_start_offset := next; next_max_bytes := max_bytes; blocks := bs |}.
Proof.
  cbn. unfold request_met. cbn. rewrite orb_true_iff, andb_true_iff, negb_true_iff, Z.eqb_neq,
    Z.leb_le, Z.eqb_eq. done.
Qed.

(** What the loop adds to the blocks already found. *)
Definition loop_spec (entries : IndexBlock) (sid end_offset : Z) (r r' : FindIndexResult) : Prop :=
  ∃ new, blocks r' = blocks r ++ new ∧
    contiguous_run sid (next_start_offset r) new (next_start_offset r') ∧
    next_start_offset r <= next_start_offset r' ∧ (∀ e, e ∈ new → e ∈ entries) ∧
    (fulfilled r' = true ↔ request_met end_offset r') ∧
    (fulfilled r' = false → ∀ e, e ∈ entries → ¬ holds e sid (next_start_offset r')).

Lemma loop_spec_stop entries sid end_offset r :
  fulfilled r = false → ¬ request_met end_offset r →
  (∀ e, e ∈ entries → ¬ holds e sid (next_start_offset r)) →
  loop_spec entries sid end_offset r r.
Proof.
  intros Hf Hm Hh. exists []. rewrite app_nil_r. split_and!; [done|done|lia|set_solver|split|done].
  - by rewrite Hf.
  - done.
Qed.

Lemma find_loop_ok entries sid end_offset matched r :
  index_sorted entries → Forall (λ e, sid <= bi_stream_id e) entries →
  (∀ e, e ∈ entries → bi_stream_id e = sid → next_start_offset r <= bi_start_offset e) →
  fulfilled r = false → ¬ request_met end_offset r →
  loop_spec entries sid end_offset r (find_loop entries sid end_offset matched r).
Proof.
  intros [Hs Hf] Hge. revert matched r.
  induction Hs as [|e entries Hs IH Hb]; intros matched r Hstart Hr Hm; cbn [find_loop].
  { apply loop_spec_stop; [done|done|set_solver]. }
  apply Forall_cons in Hf as [He Hf], Hge as [Hg Hge]. specialize (IH Hf Hge).
  assert (Hstop : (bi_stream_id e ≠ sid ∨ next_start_offset r < bi_start_offset e) →
    ∀ e', e' ∈ e :: entries → ¬ holds e' sid (next_start_offset r)).
  { intros Hne e' [->|He']%elem_of_cons; [unfold holds; lia|]. rewrite Forall_forall in Hb.
    specialize (Hb e' He'). unfold bi_before, holds in *. lia. }
  assert (Hskip : (bi_stream_id e ≠ sid ∨ bi_end_offset e <= next_start_offset r) →
    loop_spec (e :: entries) sid end_offset r (find_loop entries sid end_offset matched r)).
  { intros Hne. destruct (IH matched r) as (new & ? & ? & ? & ? & ? & Hno); [set_solver|done|done|].
    exists new. split_and!; [done..|set_solver|done|].
    intros Hf' e' [->|He']%elem_of_cons; [unfold holds; lia|by apply Hno]. }
  destruct (Z.eqb_spec (bi_stream_id e) sid) as [Es|Es].
  2: { destruct matched; [|apply Hskip; by left]. apply loop_spec_stop; [done..|].
       apply Hstop. by left. }
  destruct (Z.ltb_spec (next_start_offset r) (bi_start_offset e)) as [Hlt|Hnl].
  { apply loop_spec_stop; [done..|]. apply Hstop. by right. }
  destruct (Z.leb_spec (bi_end_offset e) (next_start_offset r)) as [Hle|Hgt].
  { apply Hskip. by right. }
  assert (Hn : next_start_offset r = bi_start_offset e)
    by (specialize (Hstart e ltac:(set_solver) Es); lia).
  rewrite (proj2 (Z.eqb_eq _ _) Hn). cbv zeta.
  set (mb := next_max_bytes r - _). set (bs := blocks r ++ [e]).
  pose proof (done_iff end_offset (bi_end_offset e) mb true bs) as Hd. cbv zeta in Hd.
  destruct (negb _ && _ || _) eqn:Ed.
  - exists [e]. cbn. split_and!; [done|lia|lia|lia|lia|lia|set_solver|tauto|done].
  - destruct (IH true {| fulfilled := false; next_start_offset := bi_end_offset e;
      next_max_bytes := mb; blocks := bs |}) as (new & Hbl & Hrun & Hle & Hin & Hiff & Hno).
    + cbn. intros e' He' Hs'. rewrite Forall_forall in Hb. specialize (Hb e' He').
      unfold bi_before in Hb. lia.
    + done.
    + rewrite <-done_iff. cbn. intros Hc. congruence.
    + cbn in Hbl, Hrun, Hle. exists (e :: new). cbn. split_and!; [|done|lia|lia|done|lia| |done|].
      * rewrite Hbl. unfold bs. by rewrite <-app_assoc.
      * set_solver.
      * intros Hf' e' [->|He']%elem_of_cons; [unfold holds; lia|by apply Hno].
Qed.

Lemma sorted_drop entries n : index_sorted entries → index_sorted (drop n entries).
Proof.
  intros [Hs Hf]. split; [|by apply Forall_drop]. clear Hf. revert n.
  induction Hs as [|e entries Hs IH Hb]; intros [|n]; cbn; first [apply IH|by constructor].
Qed.

(** C18: Looking up a range in a sorted index is exact. If no block holds the
    start offset, nothing is returned and the caller must go on elsewhere.
    Otherwise the result is a run of index blocks without gaps whose first
    block holds the start offset and which ends at the reported next offset;
    it is marked fulfilled exactly when the end offset is reached or the byte
    budget is used up, and otherwise this object holds nothing at the next
    offset. *)
Theorem find_exact entries sid start_offset end_offset max_bytes :
  index_sorted entries →
  let r := find entries sid start_offset end_offset max_bytes in
  match blocks r with
  | [] => (∀ e, e ∈ entries → ¬ holds e sid start_offset) ∧
      fulfilled r = false ∧ next_start_offset r = start_offset ∧ next_max_bytes r = max_bytes
  | b :: bs => holds b sid start_offset ∧
      contiguous_run sid (bi_end_offset b) bs (next_start_offset r) ∧
      (∀ e, e ∈ blocks r → e ∈ entries) ∧
      (fulfilled r = true ↔ request_met end_offset r) ∧
      (fulfilled r = false → ∀ e, e ∈ entries → ¬ holds e sid (next_start_offset r))
  end.
Proof.
  intros Hs r. unfold r, find. pose proof (search_ok entries sid start_offset Hs) as Hsearch.
  destruct (search entries sid start_offset) as [i|i]; [|done].
  destruct Hsearch as (b & Hi & Hb & Hh). pose proof Hh as [Es Hin].
  set (n := Z.to_nat i) in *. pose proof (sorted_drop _ n Hs) as Hd.
  rewrite (drop_S entries b n Hb) in *. destruct Hd as [Hsd Hfd].
  apply StronglySorted_inv in Hsd as [Hsd Hall]. apply Forall_cons in Hfd as [Hfb Hfd].
  rewrite Forall_forall in Hall.
  cbn [find_loop next_start_offset next_max_bytes blocks app]. rewrite (proj2 (Z.eqb_eq _ _) Es).
  rewrite (proj2 (Z.ltb_ge start_offset (bi_start_offset b))) by lia.
  rewrite (proj2 (Z.leb_gt (bi_end_offset b) start_offset)) by lia. cbv zeta.
  set (mb := if start_offset =? bi_start_offset b then _ else _).
  assert (Hpre : ∀ o e, e ∈ entries → e ∉ drop (S n) entries → bi_end_offset b <= o →
    ¬ holds e sid o).
  { intros o e [k Hk]%list_elem_of_lookup Hnin Ho [Hse He].
    destruct (decide (k = n)) as [->|]; [assert (e = b) as -> by congruence; lia|].
    destruct (decide (k < n)%nat).
    - pose proof (sorted_lookup entries k n e b (proj1 Hs) ltac:(lia) Hk Hb) as Hbef.
      unfold bi_before in Hbef. destruct Hs as [_ Hf]. rewrite Forall_forall in Hf. lia.
    - apply Hnin, list_elem_of_lookup. exists (k - S n)%nat. rewrite lookup_drop.
      rewrite <-Hk. f_equal. lia. }
  pose proof (done_iff end_offset (bi_end_offset b) mb true [b]) as Hdone. cbv zeta in Hdone.
  destruct (negb _ && _ || _) eqn:Ed.
  - cbn [blocks next_start_offset fulfilled]. split_and!; [done|done| |tauto|done].
    intros e ->%list_elem_of_singleton. by eapply list_elem_of_lookup_2.
  - set (r0 := Build_FindIndexResult false _ _ _).
    destruct (find_loop_ok (drop (S n) entries) sid end_offset (start_offset =? bi_start_offset b) r0)
      as (new & Hbl & Hrun & Hle & Hin' & Hiff & Hno).
    + done.
    + rewrite Forall_forall. intros e He. specialize (Hall e He). unfold bi_before in Hall. lia.
    + intros e He Hse. specialize (Hall e He). unfold bi_before in Hall. cbn. lia.
    + done.
    + unfold r0. rewrite <-done_iff. cbv zeta. rewrite Ed. done.
    + rewrite Hbl. cbn [blocks r0 app]. split_and!; [done|done| |done|].
      * intros e [->|He]%elem_of_cons; [by eapply list_elem_of_lookup_2|].
        apply Hin' in He. apply list_elem_of_lookup in He as [k Hk].
        rewrite lookup_drop in Hk. by eapply list_elem_of_lookup_2.
      * intros Hf e He. destruct (decide (e ∈ drop (S n) entries)); [by apply Hno|].
        apply Hpre; done.
Qed.

Lemma find_exact_witness :
  let e sid start delta := {| bi_block_id := 0; bi_stream_id := sid; bi_start_offset := start;
    bi_end_offset_delta := delta; bi_record_count := 1; bi_start_position := 0; bi_size := 100 |} in
  let entries := [e 1 0 10; e 2 5 5; e 2 10 10; e 2 30 1] in
  blocks (find entries 2 7 NOOP_OFFSET 1000) = [e 2 5 5; e 2 10 10] ∧
  (fulfilled (find entries 2 7 NOOP_OFFSET 1000) = false →
   ∀ e, e ∈ entries → ¬ holds e 2 (next_start_offset (find entries 2 7 NOOP_OFFSET 1000))).
Proof.
  intros e entries. split; [reflexivity|].
  refine (proj2 (proj2 (proj2 (proj2 (find_exact entries 2 7 NOOP_OFFSET 1000 _))))).
  split; [|repeat constructor; done].
  repeat first [apply SSorted_nil|apply SSorted_cons|apply Forall_nil_2|apply Forall_cons_2];
    first [by left|right; by split].
Defined.
