(* ===== verification/ObjectStore.v ===== *)
(** * Object storage

    The [ObjectStorage] trait of [s3stream-object/src/storage.rs] as a class
    of operations with the contract its documentation states, and the
    in-memory implementation (memory.rs) as an instance that meets it. The
    writers and readers of objects are verified against the contract. *)

From Stdlib Require Import ZArith Lia.
From Stdlib Require Import Strings.Byte.
From stdpp Require Import base numbers list strings sets gmap sorting.
From S2P Require Import Prelude StreamTypes RecordCodec ObjectIndex.

Open Scope Z_scope.
Open Scope rust_scope.

Inductive ThrottleStrategy := Bypass | Compaction | Tail | CatchUp | IcebergWrite.

Definition throttle_priority (t : ThrottleStrategy) : Z :=
  match t with Bypass => 0 | Compaction => 1 | Tail => 2 | CatchUp => 3 | IcebergWrite => 4 end.

Record ObjectPath := { op_bucket_id : Z; op_key : string }.
Record ObjectInfo := { oi_path : ObjectPath; oi_timestamp_ms : Z; oi_size : Z }.

(** The timeout and retry hints of [WriteOptions] steer the retry layer
    only. *)
Record WriteOptions := { wo_throttle : ThrottleStrategy; wo_bucket_id : option Z }.
Record ReadOptions := { ro_throttle : ThrottleStrategy; ro_bucket_id : option Z }.
Definition default_write_options : WriteOptions := {| wo_throttle := Bypass; wo_bucket_id := None |}.
Definition default_read_options : ReadOptions := {| ro_throttle := Bypass; ro_bucket_id := None |}.

(** Bytes [start..end] of an object. *)
Definition byte_range (data : list byte) (start stop : Z) : list byte :=
  slice data (Z.to_nat start) (Z.to_nat (stop - start)).

(** The trait: a storage in state [S], with multipart writers [W]. Every
    operation returns the next state and its [Result]. *)
Class ObjectStorage (S W : Type) := {
  range_read : S → ReadOptions → string → Z → option Z → result (list byte) ObjectError;
  os_write : S → WriteOptions → string → list byte → S * result Z ObjectError;
  os_writer : S → WriteOptions → string → S * result W ObjectError;
  os_list : S → string → result (list ObjectInfo) ObjectError;
  os_delete : S → list ObjectPath → S * result unit ObjectError;
  os_bucket_id : S → Z;
  mw_write : S → W → list byte → S * W * result unit ObjectError;
  mw_finish : S → W → S * W * result Z ObjectError;
}.

(** The contract. [object] is what is stored under a key, [available] says
    reads are answered, [written] is what a multipart writer has queued. *)
Class ObjectStorageContract (S W : Type) `{ObjectStorage S W} := {
  object : S → string → option (list byte);
  available : S → Prop;
  writer_key : W → string;
  written : W → list byte;
  range_read_missing s o k a b : object s k = None → available s → range_read s o k a b = Err (NotFound k);
  range_read_present s o k a b data :
    object s k = Some data → available s → 0 <= a <= b → b <= Z.of_nat (length data) →
    range_read s o k a (Some b) = Ok (byte_range data a b);
  range_read_to_end s o k a data :
    object s k = Some data → available s → 0 <= a <= Z.of_nat (length data) →
    range_read s o k a None = Ok (byte_range data a (Z.of_nat (length data)));
  write_durable s o k data s' b :
    os_write s o k data = (s', Ok b) →
    object s' k = Some data ∧ (∀ k', k' ≠ k → object s' k' = object s k');
  write_only s o k data s' r :
    os_write s o k data = (s', r) → ∀ k', k' ≠ k → object s' k' = object s k';
  writer_opened s o k s' w :
    os_writer s o k = (s', Ok w) →
    writer_key w = k ∧ written w = [] ∧ (∀ k', object s' k' = object s k');
  part_queued s w part s' w' :
    mw_write s w part = (s', w', Ok tt) →
    writer_key w' = writer_key w ∧ written w' = written w ++ part ∧
    (∀ k', object s' k' = object s k');
  finish_durable s w s' w' b :
    mw_finish s w = (s', w', Ok b) →
    object s' (writer_key w) = Some (written w) ∧
    (∀ k', k' ≠ writer_key w → object s' k' = object s k');
  list_exact s pre infos :
    os_list s pre = Ok infos →
    ∀ k, k ∈ (op_key ∘ oi_path) <$> infos ↔ String.prefix pre k = true ∧ is_Some (object s k);
  delete_removes s paths s' :
    os_delete s paths = (s', Ok tt) →
    ∀ k, object s' k = if decide (k ∈ op_key <$> paths) then None else object s k;
  delete_only s paths s' r :
    os_delete s paths = (s', r) →
    ∀ k, k ∉ op_key <$> paths → object s' k = object s k;
}.

(** ** The in-memory storage *)

(** [store.objects] and the bucket; [mo_now_ms] is the wall clock that
    stamps writes. *)
Record MemoryObjectStorage := {
  mo_objects : gmap string (list byte * Z);
  mo_bucket_id : Z;
  mo_now_ms : Z;
}.

Record MemoryMultipartWriter := {
  mm_key : string;
  mm_buf : list byte;
}.

Definition mem_new (bucket_id now_ms : Z) : MemoryObjectStorage :=
  {| mo_objects := ∅; mo_bucket_id := bucket_id; mo_now_ms := now_ms |}.

Definition mem_range_read (s : MemoryObjectStorage) (_ : ReadOptions) (key : string) (start : Z)
    (stop : option Z) : result (list byte) ObjectError :=
  match mo_objects s !! key with
  | None => Err (NotFound key)
  | Some (data, _) =>
      let len := Z.of_nat (length data) in
      let start := Z.min start len in
      let stop := Z.min (default len stop) len in
      Ok (byte_range data start (Z.max stop start))
  end.

Definition mem_write (s : MemoryObjectStorage) (_ : WriteOptions) (key : string)
    (data : list byte) : MemoryObjectStorage * result Z ObjectError :=
  ({| mo_objects := <[key := (data, mo_now_ms s)]> (mo_objects s);
      mo_bucket_id := mo_bucket_id s; mo_now_ms := mo_now_ms s |}, Ok (mo_bucket_id s)).

Definition mem_writer (s : MemoryObjectStorage) (_ : WriteOptions) (key : string) :
    MemoryObjectStorage * result MemoryMultipartWriter ObjectError :=
  (s, Ok {| mm_key := key; mm_buf := [] |}).

Definition mem_list (s : MemoryObjectStorage) (pre : string) :
    result (list ObjectInfo) ObjectError :=
  Ok ((λ e : string * (list byte * Z),
         {| oi_path := {| op_bucket_id := mo_bucket_id s; op_key := e.1 |};
            oi_timestamp_ms := e.2.2; oi_size := Z.of_nat (length e.2.1) |}) <$>
      prefix_scan (mo_objects s) pre).

Definition mem_delete (s : MemoryObjectStorage) (paths : list ObjectPath) :
    MemoryObjectStorage * result unit ObjectError :=
  ({| mo_objects := foldl (λ m path, delete (op_key path) m) (mo_objects s) paths;
      mo_bucket_id := mo_bucket_id s; mo_now_ms := mo_now_ms s |}, Ok tt).

Definition mem_part (s : MemoryObjectStorage) (w : MemoryMultipartWriter) (part : list byte) :
    MemoryObjectStorage * MemoryMultipartWriter * result unit ObjectError :=
  (s, {| mm_key := mm_key w; mm_buf := mm_buf w ++ part |}, Ok tt).

(** [buf.split()] leaves the writer's buffer empty. *)
Definition mem_finish (s : MemoryObjectStorage) (w : MemoryMultipartWriter) :
    MemoryObjectStorage * MemoryMultipartWriter * result Z ObjectError :=
  let data := mm_buf w in
  let '(s', r) := mem_write s default_write_options (mm_key w) data in
  (s', {| mm_key := mm_key w; mm_buf := [] |}, r).

#[export] Instance memory_storage : ObjectStorage MemoryObjectStorage MemoryMultipartWriter := {|
  range_read := mem_range_read; os_write := mem_write; os_writer := mem_writer;
  os_list := mem_list; os_delete := mem_delete; os_bucket_id := mo_bucket_id;
  mw_write := mem_part; mw_finish := mem_finish;
|}.

Lemma lookup_foldl_delete (m : gmap string (list byte * Z)) (paths : list ObjectPath) k :
  foldl (λ m path, delete (op_key path) m) m paths !! k =
  if decide (k ∈ op_key <$> paths) then None else m !! k.
Proof.
  revert m. induction paths as [|p paths IH]; intros m; [done|]. cbn [foldl]. rewrite IH.
  rewrite fmap_cons. destruct (decide (k ∈ op_key <$> paths)) as [Hin|Hnin].
  - rewrite decide_True; [done|by right].
  - destruct (decide (k = op_key p)) as [->|Hne].
    + rewrite lookup_delete_eq, decide_True; [done|left].
    + rewrite lookup_delete_ne, decide_False; [done| |done]. by intros [?|?]%elem_of_cons.
Qed.

Definition mem_object (s : MemoryObjectStorage) (k : string) : option (list byte) :=
  fst <$> mo_objects s !! k.

Lemma elem_of_prefix_scan {V} (m : gmap string V) pre k :
  k ∈ (prefix_scan m pre).*1 ↔ String.prefix pre k = true ∧ is_Some (m !! k).
Proof.
  rewrite prefix_scan_exact, list_elem_of_fmap. split.
  - intros ([k' v] & -> & [Hp Hin]%list_elem_of_filter). apply elem_of_ord_list in Hin. eauto.
  - intros [Hp [v Hv]]. exists (k, v). split; [done|]. apply list_elem_of_filter.
    split; [done|]. by apply elem_of_ord_list.
Qed.

Lemma mem_range_read_in s o k a b data :
  mem_object s k = Some data → 0 <= a <= b → b <= Z.of_nat (length data) →
  mem_range_read s o k a (Some b) = Ok (byte_range data a b).
Proof.
  unfold mem_object, mem_range_read. intros Hk Ha Hb.
  destruct (mo_objects s !! k) as [[d t]|]; [|done]. assert (d = data) as -> by (cbn in Hk; congruence).
  change (default _ (Some b)) with b. rewrite !Z.min_l, Z.max_l by lia. done.
Qed.

Lemma mem_range_read_end s o k a data :
  mem_object s k = Some data → 0 <= a <= Z.of_nat (length data) →
  mem_range_read s o k a None = Ok (byte_range data a (Z.of_nat (length data))).
Proof.
  unfold mem_object, mem_range_read. intros Hk Ha.
  destruct (mo_objects s !! k) as [[d t]|]; [|done]. assert (d = data) as -> by (cbn in Hk; congruence).
  change (default ?x None) with x. rewrite Z.min_id, (Z.min_l a), Z.max_l by lia. done.
Qed.

Lemma mem_write_object s o k data k' :
  mem_object (mem_write s o k data).1 k' = if decide (k' = k) then Some data else mem_object s k'.
Proof.
  unfold mem_object, mem_write. cbn. destruct (decide (k' = k)) as [->|].
  - by rewrite lookup_insert_eq.
  - by rewrite lookup_insert_ne.
Qed.

Lemma mem_list_exact s pre infos k :
  mem_list s pre = Ok infos →
  k ∈ (op_key ∘ oi_path) <$> infos ↔ String.prefix pre k = true ∧ is_Some (mem_object s k).
Proof.
  unfold mem_list. intros [= <-]. rewrite <-list_fmap_compose. unfold compose. cbn [op_key oi_path].
  unfold mem_object. rewrite fmap_is_Some. apply (elem_of_prefix_scan (mo_objects s)).
Qed.

Lemma mem_delete_object s paths k :
  mem_object (mem_delete s paths).1 k =
  if decide (k ∈ op_key <$> paths) then None else mem_object s k.
Proof.
  unfold mem_object, mem_delete. cbn. rewrite lookup_foldl_delete. by case_decide.
Qed.

(** The in-memory storage meets the contract. *)
#[export] Instance memory_contract :
  ObjectStorageContract MemoryObjectStorage MemoryMultipartWriter.
Proof.
  refine {| object := mem_object; available := λ _, True; writer_key := mm_key; written := mm_buf |};
    cbn [range_read os_write os_writer os_list os_delete mw_write mw_finish memory_storage].
  - intros s o k a b Hk _. unfold mem_object, mem_range_read in *. by destruct (mo_objects s !! k).
  - intros. by apply mem_range_read_in.
  - intros. by apply mem_range_read_end.
  - intros s o k data s' b H. pose proof (mem_write_object s o k data) as Hw. rewrite H in Hw.
    cbn in Hw. split; [by rewrite Hw, decide_True|]. intros k' Hk. by rewrite Hw, decide_False.
  - intros s o k data s' r H k' Hk. pose proof (mem_write_object s o k data) as Hw. rewrite H in Hw.
    cbn in Hw. by rewrite Hw, decide_False.
  - intros s o k s' w [= <- <-]. done.
  - intros s w part s' w' [= <- <-]. done.
  - intros s w s' w' b [= <- <- <-].
    pose proof (mem_write_object s default_write_options (mm_key w) (mm_buf w)) as Hw. cbn in Hw.
    split; [by rewrite Hw, decide_True|]. intros k' Hk. by rewrite Hw, decide_False.
  - intros s pre infos H k. by apply mem_list_exact.
  - intros s paths s' [= <-] k. apply (mem_delete_object s paths k).
  - intros s paths s' r [= <- <-] k Hk. pose proof (mem_delete_object s paths k) as Hd.
    cbn in Hd. by rewrite Hd, decide_False.
Defined.
