(* ===== verification/ObjectIO.v ===== *)
(** * Writing and reading objects

    [s3stream-object]: the [ObjectWriter] that lays records of several
    streams out in one object (writer.rs) and the [ObjectReader] that finds
    and decodes them again (reader.rs), over any storage that meets the
    contract of [ObjectStore]. An operation on [&mut self] returns the
    storage, the changed writer and its [Result]. *)

From Stdlib Require Import ZArith Lia.
From Stdlib Require Import Strings.Byte.
From stdpp Require Import base numbers list strings sets gmap sorting.
From S2P Require Import Prelude StreamTypes RecordCodec ObjectIndex ObjectStore.

Open Scope Z_scope.
Open Scope rust_scope.

Definition DATA_BLOCK_MAGIC : Z := 0x5A.
Definition DATA_BLOCK_DEFAULT_FLAG : Z := 2.
Definition BLOCK_HEADER_SIZE : nat := 10.
Definition FOOTER_SIZE : nat := 48.
Definition FOOTER_MAGIC : Z := 0x88E241B785F4CFF7.
Definition MIN_PART_SIZE : Z := 5 * 1024 * 1024.

(** ** Data blocks *)

(** [encode_data_block]; callers pass at least one record. *)
Definition encode_data_block (records : list StreamRecordBatch) : list byte :=
  let data := concat (encoded <$> records) in
  put_u8 DATA_BLOCK_MAGIC ++ put_u8 DATA_BLOCK_DEFAULT_FLAG ++
  put_u32 (Z.of_nat (length records)) ++ put_u32 (Z.of_nat (length data)) ++ data.

Record DataBlock := {
  db_encoded : list byte;
  db_stream_id : Z;
  db_epoch : Z;
  db_start_offset : Z;
  db_end_offset : Z;
  db_record_count : Z;
}.

(** [DataBlock::new]; indexing an empty slice panics. *)
Definition data_block_new (sid : Z) (records : list StreamRecordBatch) : option DataBlock :=
  match records with
  | [] => None
  | first :: _ =>
      Some {| db_encoded := encode_data_block records;
              db_stream_id := sid; db_epoch := epoch first;
              db_start_offset := base_offset first;
              db_end_offset := last_offset (List.last records first);
              db_record_count := wrap_u32 (Z.of_nat (length records)) |}
  end.

Definition db_size (b : DataBlock) : Z := Z.of_nat (length (db_encoded b)).

(** ** The writer *)
Record ObjectWriter (W : Type) := {
  ow_writer : W;
  ow_block_size_threshold : Z;
  ow_part_size_threshold : Z;
  ow_waiting_upload_blocks : list DataBlock;
  ow_waiting_upload_size : Z;
  ow_completed_blocks : list DataBlock;
  ow_group_acc : Z;
  ow_object_size : Z;
  ow_last : option (Z * Z);
}.
#[global] Arguments Build_ObjectWriter {W}.
#[global] Arguments ow_writer {W}.
#[global] Arguments ow_block_size_threshold {W}.
#[global] Arguments ow_part_size_threshold {W}.
#[global] Arguments ow_waiting_upload_blocks {W}.
#[global] Arguments ow_waiting_upload_size {W}.
#[global] Arguments ow_completed_blocks {W}.
#[global] Arguments ow_group_acc {W}.
#[global] Arguments ow_object_size {W}.
#[global] Arguments ow_last {W}.

(** The [for] loop of [group_by_block]: the accumulator, the open group and
    the sealed groups; returns the accumulator that persists and the
    groups. *)
Fixpoint group_records (threshold acc : Z) (open : list StreamRecordBatch)
    (records : list StreamRecordBatch) : Z * list (list StreamRecordBatch) :=
  match records with
  | [] => (acc, match open with [] => [] | _ => [open] end)
  | r :: records =>
      let acc := acc + batch_size r in
      let open := open ++ [r] in
      if threshold <=? acc then
        let '(acc', groups) := group_records threshold 0 [] records in (acc', open :: groups)
      else group_records threshold acc open records
  end.

(** The prefix of the waiting blocks that makes one part, and its size. *)
Fixpoint part_prefix (threshold part_size : Z) (blocks : list DataBlock) : Z * nat :=
  match blocks with
  | [] => (part_size, O)
  | b :: blocks =>
      let part_size := part_size + db_size b in
      if threshold <=? part_size then (part_size, 1%nat)
      else let '(size, taken) := part_prefix threshold part_size blocks in (size, S taken)
  end.

Definition blocks_bytes (blocks : list DataBlock) : list byte := concat (db_encoded <$> blocks).
Definition blocks_size (blocks : list DataBlock) : Z := foldr (λ b n, db_size b + n) 0 blocks.

(** Index entries of blocks laid out from [position]; [close] numbers them
    -1, [block_indexes] by ordinal. *)
Definition index_of_block (id position : Z) (b : DataBlock) : DataBlockIndex := {|
  bi_block_id := id; bi_stream_id := db_stream_id b; bi_start_offset := db_start_offset b;
  bi_end_offset_delta := wrap_u32 (wrap_u64 (db_end_offset b - db_start_offset b));
  bi_record_count := db_record_count b; bi_start_position := position;
  bi_size := wrap_u32 (db_size b) |}.

Fixpoint close_indexes (position : Z) (blocks : list DataBlock) : list DataBlockIndex * Z :=
  match blocks with
  | [] => ([], position)
  | b :: blocks =>
      let '(entries, stop) := close_indexes (wrap_u64 (position + db_size b)) blocks in
      (index_of_block (-1) position b :: entries, stop)
  end.

Fixpoint block_indexes_from (i position : Z) (blocks : list DataBlock) : list DataBlockIndex :=
  match blocks with
  | [] => []
  | b :: blocks =>
      index_of_block (wrap_i32 i) position b ::
      block_indexes_from (i + 1) (wrap_u64 (position + db_size b)) blocks
  end.

Definition footer (index_position index_size : Z) : list byte :=
  put_u64 index_position ++ put_u32 index_size ++ replicate 28 x00 ++ put_u64 FOOTER_MAGIC.

Section Writer.
Context {S W : Type} `{ObjectStorage S W}.
Implicit Types (s : S) (w : ObjectWriter W).

Definition ow_open (s : S) (object_id block_size_threshold part_size_threshold : Z)
    (options : WriteOptions) : S * result (ObjectWriter W) ObjectError :=
  let key := gen_object_key object_id in
  let '(s, r) := os_writer s options key in
  (s, let? writer := r in
      Ok {| ow_writer := writer; ow_block_size_threshold := block_size_threshold;
            ow_part_size_threshold := Z.max part_size_threshold MIN_PART_SIZE;
            ow_waiting_upload_blocks := []; ow_waiting_upload_size := 0;
            ow_completed_blocks := []; ow_group_acc := 0; ow_object_size := 0; ow_last := None |}).

Definition set_last (w : ObjectWriter W) (last : option (Z * Z)) : ObjectWriter W := {|
  ow_writer := ow_writer w; ow_block_size_threshold := ow_block_size_threshold w;
  ow_part_size_threshold := ow_part_size_threshold w;
  ow_waiting_upload_blocks := ow_waiting_upload_blocks w;
  ow_waiting_upload_size := ow_waiting_upload_size w;
  ow_completed_blocks := ow_completed_blocks w; ow_group_acc := ow_group_acc w;
  ow_object_size := ow_object_size w; ow_last := last |}.

(** The ordering check; it moves the cursor only when it accepts. *)
Definition check (w : ObjectWriter W) (sid : Z) (records : list StreamRecordBatch) :
    result (ObjectWriter W) ObjectError :=
  match records with
  | [] => Ok w
  | first :: _ =>
      let records_end := last_offset (List.last records first) in
      match ow_last w with
      | None => Ok (set_last w (Some (sid, records_end)))
      | Some (last_stream_id, last_end_offset) =>
          if sid <? last_stream_id then
            Err (OrderingViolation (StreamIdBackwards sid last_stream_id))
          else if (last_stream_id =? sid) && (base_offset first <? last_end_offset) then
            Err (OrderingViolation (OffsetBackwards sid (base_offset first) last_end_offset))
          else Ok (set_last w (Some (sid, records_end)))
      end
  end.

(** Sealing the groups of one call into waiting blocks. [data_block_new] is
    given non-empty groups only ([group_records_nonempty]). *)
Fixpoint push_groups (w : ObjectWriter W) (sid : Z) (groups : list (list StreamRecordBatch)) :
    ObjectWriter W :=
  match groups with
  | [] => w
  | g :: groups =>
      match data_block_new sid g with
      | None => push_groups w sid groups
      | Some b =>
          push_groups {| ow_writer := ow_writer w;
            ow_block_size_threshold := ow_block_size_threshold w;
            ow_part_size_threshold := ow_part_size_threshold w;
            ow_waiting_upload_blocks := ow_waiting_upload_blocks w ++ [b];
            ow_waiting_upload_size := ow_waiting_upload_size w + db_size b;
            ow_completed_blocks := ow_completed_blocks w; ow_group_acc := ow_group_acc w;
            ow_object_size := ow_object_size w; ow_last := ow_last w |} sid groups
      end
  end.

Definition group_by_block (w : ObjectWriter W) (records : list StreamRecordBatch) :
    ObjectWriter W * list (list StreamRecordBatch) :=
  let '(acc, groups) := group_records (ow_block_size_threshold w) (ow_group_acc w) [] records in
  ({| ow_writer := ow_writer w; ow_block_size_threshold := ow_block_size_threshold w;
      ow_part_size_threshold := ow_part_size_threshold w;
      ow_waiting_upload_blocks := ow_waiting_upload_blocks w;
      ow_waiting_upload_size := ow_waiting_upload_size w;
      ow_completed_blocks := ow_completed_blocks w; ow_group_acc := acc;
      ow_object_size := ow_object_size w; ow_last := ow_last w |}, groups).

(** The loop of [try_upload_part]. Every round drains a block, so one more
    round than there are waiting blocks is enough. *)
Fixpoint upload_parts (fuel : nat) (s : S) (w : ObjectWriter W) :
    S * ObjectWriter W * result unit ObjectError :=
  match fuel with
  | O => (s, w, Ok tt)
  | Datatypes.S fuel =>
      let '(part_size, taken) :=
        part_prefix (ow_part_size_threshold w) 0 (ow_waiting_upload_blocks w) in
      if part_size <? ow_part_size_threshold w then (s, w, Ok tt)
      else
        let drained := take taken (ow_waiting_upload_blocks w) in
        let '(s, writer, r) := mw_write s (ow_writer w) (blocks_bytes drained) in
        let w := {| ow_writer := writer; ow_block_size_threshold := ow_block_size_threshold w;
          ow_part_size_threshold := ow_part_size_threshold w;
          ow_waiting_upload_blocks := drop taken (ow_waiting_upload_blocks w);
          ow_waiting_upload_size := ow_waiting_upload_size w - blocks_size drained;
          ow_completed_blocks := ow_completed_blocks w ++ drained;
          ow_group_acc := ow_group_acc w; ow_object_size := ow_object_size w;
          ow_last := ow_last w |} in
        match r with
        | Err e => (s, w, Err e)
        | Ok _ => upload_parts fuel s w
        end
  end.

Definition try_upload_part (s : S) (w : ObjectWriter W) :
    S * ObjectWriter W * result unit ObjectError :=
  upload_parts (Datatypes.S (length (ow_waiting_upload_blocks w))) s w.

Definition ow_write (s : S) (w : ObjectWriter W) (sid : Z) (records : list StreamRecordBatch) :
    S * ObjectWriter W * result unit ObjectError :=
  match check w sid records with
  | Err e => (s, w, Err e)
  | Ok w =>
      let '(w, groups) := group_by_block w records in
      let w := push_groups w sid groups in
      if ow_part_size_threshold w <=? ow_waiting_upload_size w then try_upload_part s w
      else (s, w, Ok tt)
  end.

(** What [close] appends after the parts already written: the waiting
    blocks, the index block and the footer. *)
Definition close_tail (w : ObjectWriter W) : list byte * Z * Z :=
  let completed := ow_completed_blocks w ++ ow_waiting_upload_blocks w in
  let '(entries, index_position) := close_indexes 0 completed in
  let index_buf := index_encode entries in
  let index_size := Z.of_nat (length index_buf) in
  (blocks_bytes (ow_waiting_upload_blocks w) ++ index_buf ++ footer index_position index_size,
   index_position, index_size).

Definition ow_close (s : S) (w : ObjectWriter W) : S * ObjectWriter W * result Z ObjectError :=
  let '(tail, index_position, index_size) := close_tail w in
  let flushed size writer := {| ow_writer := writer;
    ow_block_size_threshold := ow_block_size_threshold w;
    ow_part_size_threshold := ow_part_size_threshold w;
    ow_waiting_upload_blocks := []; ow_waiting_upload_size := 0;
    ow_completed_blocks := ow_completed_blocks w ++ ow_waiting_upload_blocks w;
    ow_group_acc := ow_group_acc w; ow_object_size := size; ow_last := ow_last w |} in
  let '(s, writer, r) := mw_write s (ow_writer w) tail in
  match r with
  | Err e => (s, flushed (ow_object_size w) writer, Err e)
  | Ok _ =>
      let size := wrap_u64 (index_position + index_size + Z.of_nat FOOTER_SIZE) in
      let '(s, writer, r) := mw_finish s writer in
      match r with
      | Err e => (s, flushed size writer, Err e)
      | Ok _ => (s, flushed size writer, Ok size)
      end
  end.

(** [stream_ranges]: consecutive blocks of one stream merge; [ranges] is
    built newest first here and reversed at the end. *)
Definition merge_range (ranges : list ObjectStreamRange) (b : DataBlock) : list ObjectStreamRange :=
  match ranges with
  | last :: older =>
      if osr_stream_id last =? db_stream_id b then
        {| osr_stream_id := osr_stream_id last; osr_epoch := osr_epoch last;
           osr_start_offset := osr_start_offset last; osr_end_offset := db_end_offset b;
           osr_size := wrap_u64 (osr_size last + db_size b) |} :: older
      else {| osr_stream_id := db_stream_id b; osr_epoch := db_epoch b;
              osr_start_offset := db_start_offset b; osr_end_offset := db_end_offset b;
              osr_size := db_size b |} :: ranges
  | [] => [{| osr_stream_id := db_stream_id b; osr_epoch := db_epoch b;
              osr_start_offset := db_start_offset b; osr_end_offset := db_end_offset b;
              osr_size := db_size b |}]
  end.

Definition stream_ranges (w : ObjectWriter W) : list ObjectStreamRange :=
  reverse (foldl merge_range [] (ow_completed_blocks w)).

Definition block_indexes (w : ObjectWriter W) : list DataBlockIndex :=
  block_indexes_from 0 0 (ow_completed_blocks w).
End Writer.

(** ** The reader *)
Record BasicObjectInfo := {
  data_block_size : Z;
  index_block : list DataBlockIndex;
}.

(** [or_info] is the [OnceCell]. *)
Record ObjectReader := {
  or_metadata : S3ObjectMetadata;
  or_read_options : ReadOptions;
  or_info : option BasicObjectInfo;
}.

Definition reader_new (metadata : S3ObjectMetadata) : ObjectReader := {|
  or_metadata := metadata;
  or_read_options := {| ro_throttle := Bypass;
    ro_bucket_id := Some (attr_bucket_id (om_attributes metadata)) |};
  or_info := None |}.

Definition cached_index_bytes (r : ObjectReader) : Z :=
  match or_info r with
  | Some info => Z.of_nat (length (index_block info) * BLOCK_INDEX_SIZE)
  | None => 0
  end.

(** [record_count] batches from the bytes of one block. *)
Fixpoint parse_records (count : nat) (data : list byte) :
    result (list StreamRecordBatch * list byte) ObjectError :=
  match count with
  | O => Ok ([], data)
  | S count =>
      let? p := map_err Codec (parse data) in
      let? q := parse_records count p.2 in
      Ok (p.1 :: q.1, q.2)
  end.

(** The [while] loop of [decode_data_block]. Every round consumes a header,
    so the length of the buffer is enough fuel. *)
Fixpoint decode_blocks (fuel : nat) (buf : list byte) :
    result (list StreamRecordBatch) ObjectError :=
  match fuel, buf with
  | _, [] => Ok []
  | O, _ => Ok []
  | S fuel, _ =>
      if (length buf <? BLOCK_HEADER_SIZE)%nat then
        Err (InvalidFormat (BlockHeaderShort (Z.of_nat (length buf))))
      else
        let magic := be_val (slice buf 0 1) in
        if negb (magic =? DATA_BLOCK_MAGIC) then Err (InvalidFormat (BlockMagicMismatch magic))
        else
          let record_count := Z.to_nat (read_u32 buf 2) in
          let data_length := Z.to_nat (read_u32 buf 6) in
          if (length buf <? BLOCK_HEADER_SIZE + data_length)%nat then
            Err (InvalidFormat (BlockTruncated (Z.of_nat (BLOCK_HEADER_SIZE + data_length))
              (Z.of_nat (length buf))))
          else
            let data := slice buf BLOCK_HEADER_SIZE data_length in
            let? p := parse_records record_count data in
            match p.2 with
            | _ :: _ => Err (InvalidFormat (BlockTrailingBytes (Z.of_nat (length p.2))))
            | [] =>
                let? records := decode_blocks fuel (drop (BLOCK_HEADER_SIZE + data_length) buf) in
                Ok (p.1 ++ records)
            end
  end.

Definition decode_data_block (block : list byte) : result (list StreamRecordBatch) ObjectError :=
  decode_blocks (length block) block.

Section Reader.
Context {S W : Type} `{ObjectStorage S W}.
Implicit Types s : S.

(** The initialiser of the cell: two ranged reads, the footer and then the
    index block. *)
Definition load_object_info (s : S) (r : ObjectReader) : result BasicObjectInfo ObjectError :=
  let object_size := om_object_size (or_metadata r) in
  if object_size <? Z.of_nat FOOTER_SIZE then
    Err (InvalidFormat (ObjectSmallerThanFooter object_size))
  else
    let key := om_key (or_metadata r) in
    let? foot := range_read s (or_read_options r) key (object_size - Z.of_nat FOOTER_SIZE)
      (Some object_size) in
    if negb (length foot =? FOOTER_SIZE)%nat then
      Err (InvalidFormat (FooterReadShort (Z.of_nat (length foot))))
    else
      let magic := read_u64 foot 40 in
      if negb (magic =? FOOTER_MAGIC) then Err (InvalidFormat (FooterMagicMismatch magic))
      else
        let index_position := read_u64 foot 0 in
        let index_size := read_u32 foot 8 in
        if negb (wrap_u64 (index_position + index_size + Z.of_nat FOOTER_SIZE) =? object_size) then
          Err (InvalidFormat (FooterGeometry index_position index_size object_size))
        else
          let? index_bytes := range_read s (or_read_options r) key index_position
            (Some (wrap_u64 (index_position + index_size))) in
          let? entries := index_parse index_bytes in
          Ok {| data_block_size := index_position; index_block := entries |}.

(** [get_or_try_init]: an error leaves the cell empty. *)
Definition basic_object_info (s : S) (r : ObjectReader) :
    ObjectReader * result BasicObjectInfo ObjectError :=
  match or_info r with
  | Some info => (r, Ok info)
  | None =>
      match load_object_info s r with
      | Ok info => ({| or_metadata := or_metadata r; or_read_options := or_read_options r;
                       or_info := Some info |}, Ok info)
      | Err e => (r, Err e)
      end
  end.

Definition reader_find (s : S) (r : ObjectReader) (sid start_offset end_offset max_bytes : Z) :
    ObjectReader * result FindIndexResult ObjectError :=
  let '(r, res) := basic_object_info s r in
  (r, let? info := res in Ok (find (index_block info) sid start_offset end_offset max_bytes)).

Definition read_block_throttled (s : S) (r : ObjectReader) (index : DataBlockIndex)
    (throttle : ThrottleStrategy) : result (list byte) ObjectError :=
  let options := {| ro_throttle := throttle; ro_bucket_id := ro_bucket_id (or_read_options r) |} in
  range_read s options (om_key (or_metadata r)) (bi_start_position index)
    (Some (bi_end_position index)).

Definition read_block (s : S) (r : ObjectReader) (index : DataBlockIndex) :
    result (list byte) ObjectError :=
  read_block_throttled s r index Bypass.
End Reader.

(** ** Data blocks decode exactly *)

(** A block of the records with any flag byte. *)
Definition block_bytes (flag : byte) (records : list StreamRecordBatch) : list byte :=
  let data := concat (encoded <$> records) in
  put_u8 DATA_BLOCK_MAGIC ++ [flag] ++
  put_u32 (Z.of_nat (length records)) ++ put_u32 (Z.of_nat (length data)) ++ data.

Definition block_ok (records : list StreamRecordBatch) : Prop :=
  Forall well_formed records ∧ fits_u32 records ∧ fits_u32 (concat (encoded <$> records)).

Lemma encode_data_block_bytes records : encode_data_block records = block_bytes x02 records.
Proof. done. Qed.

Lemma parse_records_exact count data rs rest :
  parse_records count data = Ok (rs, rest) ↔
  length rs = count ∧ Forall well_formed rs ∧ data = concat (encoded <$> rs) ++ rest.
Proof.
  revert data rs rest. induction count as [|count IH]; intros data rs rest; cbn [parse_records].
  { split; [intros [= <- <-]; done|]. intros (Hl & _ & ->). by destruct rs. }
  split.
  - intros H. inv_rbind H. inv_rbind H. destruct a as [b data'], a0 as [bs rest']. cbn in *.
    assert (rs = b :: bs ∧ rest = rest') as [-> ->] by (split; congruence).
    apply IH in Hr0 as (Hl & Hw & ->). destruct (parse data) as [[b1 d1]|e] eqn:Hp; [|done].
    cbn in Hr. assert (b1 = b ∧ d1 = concat (encoded <$> bs) ++ rest') as [-> ->] by (split; congruence).
    apply parse_inv in Hp as [-> Hb]. split_and!; [cbn; lia|by constructor|].
    rewrite fmap_cons. cbn [concat]. by rewrite <-app_assoc.
  - intros (Hl & Hw & ->). destruct rs as [|b rs]; [done|]. apply Forall_cons in Hw as [Hb Hw].
    rewrite fmap_cons. cbn [concat]. rewrite <-app_assoc.
    destruct Hb as (sid & ep & base & cnt & body & Hok & ->). rewrite parse_new by done. cbn.
    rewrite (proj2 (IH _ rs rest)); [done|]. split_and!; [cbn in Hl; lia|done..].
Qed.

Lemma length_block_bytes flag records :
  length (block_bytes flag records) =
  (BLOCK_HEADER_SIZE + length (concat (encoded <$> records)))%nat.
Proof. unfold block_bytes. rewrite !length_app. done. Qed.

Lemma decode_one_block fuel flag records rest :
  block_ok records →
  decode_blocks (S fuel) (block_bytes flag records ++ rest) =
  let? more := decode_blocks fuel rest in Ok (records ++ more).
Proof.
  intros (Hw & Hn & Hd). set (data := concat (encoded <$> records)) in *.
  set (buf := block_bytes flag records ++ rest).
  assert (Hlen : length buf = (BLOCK_HEADER_SIZE + length data + length rest)%nat)
    by (unfold buf; by rewrite length_app, length_block_bytes).
  assert (Hbuf : buf = put_u8 DATA_BLOCK_MAGIC ++ [flag] ++ put_u32 (Z.of_nat (length records)) ++
    put_u32 (Z.of_nat (length data)) ++ data ++ rest)
    by (unfold buf, block_bytes; fold data; by rewrite <-!app_assoc).
  assert (E2 : read_u32 buf 2 = Z.of_nat (length records)).
  { eapply (read_at_4 (put_u8 DATA_BLOCK_MAGIC ++ [flag])); [by rewrite Hbuf, <-!app_assoc|done|].
    by apply fits_u32_is_u32. }
  assert (E6 : read_u32 buf 6 = Z.of_nat (length data)).
  { eapply (read_at_4 (put_u8 DATA_BLOCK_MAGIC ++ [flag] ++ put_u32 (Z.of_nat (length records))));
      [by rewrite Hbuf, <-!app_assoc|done|]. by apply fits_u32_is_u32. }
  assert (Ed : slice buf BLOCK_HEADER_SIZE (length data) = data).
  { rewrite Hbuf, (app_assoc (put_u8 _)), (app_assoc (_ ++ _)), (app_assoc (_ ++ _)).
    by apply slice_mid. }
  assert (Er : drop (BLOCK_HEADER_SIZE + length data) buf = rest)
    by (unfold buf; apply drop_app_length'; by rewrite length_block_bytes).
  cbn [decode_blocks]. destruct buf as [|x buf'] eqn:Eb; [cbn in Hlen; lia|]. rewrite <-Eb in *.
  rewrite (proj2 (Nat.ltb_ge (length buf) BLOCK_HEADER_SIZE)) by (rewrite Hlen; lia).
  replace (be_val (slice buf 0 1)) with DATA_BLOCK_MAGIC by (by rewrite Hbuf).
  rewrite Z.eqb_refl, E2, E6, !Nat2Z.id, Ed, Er. cbn [negb].
  rewrite (proj2 (Nat.ltb_ge (length buf) (BLOCK_HEADER_SIZE + length data))) by (rewrite Hlen; lia).
  rewrite (proj2 (parse_records_exact _ data records [])); [done|].
  split_and!; [done|done|by rewrite app_nil_r].
Qed.

Lemma decode_blocks_concat fuel (groups : list (byte * list StreamRecordBatch)) :
  Forall (λ g, block_ok g.2) groups → (length groups <= fuel)%nat →
  decode_blocks fuel (concat ((λ g, block_bytes g.1 g.2) <$> groups)) = Ok (concat groups.*2).
Proof.
  intros Hg. revert fuel. induction Hg as [|[flag rs] groups Hok Hg IH]; intros fuel Hf.
  { by destruct fuel. }
  destruct fuel as [|fuel]; [cbn in Hf; lia|]. rewrite fmap_cons. cbn [concat fst snd].
  rewrite decode_one_block by done. rewrite IH by (cbn in Hf; lia). done.
Qed.

Lemma decode_blocks_inv fuel buf rs :
  (length buf <= fuel)%nat → decode_blocks fuel buf = Ok rs →
  ∃ groups : list (byte * list StreamRecordBatch), Forall (λ g, block_ok g.2) groups ∧
    buf = concat ((λ g, block_bytes g.1 g.2) <$> groups) ∧ rs = concat groups.*2.
Proof.
  revert buf rs. induction fuel as [|fuel IH]; intros buf rs Hf H.
  { destruct buf; [|cbn in Hf; lia]. exists []. cbn in H. split_and!; [done|done|cbn; congruence]. }
  destruct buf as [|x buf'] eqn:Eb.
  { exists []. cbn in H. split_and!; [done|done|cbn; congruence]. }
  cbn [decode_blocks] in H. rewrite <-Eb in *. clear Eb x buf'.
  destruct (Nat.ltb_spec (length buf) BLOCK_HEADER_SIZE) as [|Hh]; [done|].
  destruct (be_val (slice buf 0 1) =? DATA_BLOCK_MAGIC) eqn:Em; [|done]. cbn [negb] in H.
  apply Z.eqb_eq in Em. set (dl := Z.to_nat (read_u32 buf 6)) in *.
  destruct (Nat.ltb_spec (length buf) (BLOCK_HEADER_SIZE + dl)) as [|Hd]; [done|].
  inv_rbind H. destruct a as [rs1 [|y l]]; [|done]. cbn [fst snd] in H. inv_rbind H.
  assert (rs = rs1 ++ a) as -> by congruence. clear H.
  apply parse_records_exact in Hr as (Hl & Hw & Hdata). rewrite app_nil_r in Hdata.
  change BLOCK_HEADER_SIZE with 10%nat in *.
  assert (R2 : is_u32 (read_u32 buf 2)) by (apply (slice_range buf _ 4); lia).
  assert (R6 : is_u32 (read_u32 buf 6)) by (apply (slice_range buf _ 4); lia).
  assert (Hdl : length (concat (encoded <$> rs1)) = dl) by (rewrite <-Hdata; by apply slice_length).
  apply IH in Hr0 as (groups & Hok & Hbuf & ->); [|rewrite length_drop; lia].
  assert (∃ flag, slice buf 1 1 = [flag]) as [flag Eflag].
  { pose proof (slice_length buf 1 1 ltac:(lia)) as E.
    destruct (slice buf 1 1) as [|flag [|]]; [done|eauto|done]. }
  exists ((flag, rs1) :: groups). rewrite !fmap_cons. cbn [concat fst snd]. split_and!; [|  |done].
  - constructor; [|done]. cbn. split_and!; [done|unfold fits_u32; int_lia|].
    unfold fits_u32. rewrite Hdl. unfold dl. int_lia.
  - rewrite <-Hbuf. rewrite <-(take_drop (10 + dl) buf) at 1. f_equal.
    change (take (10 + dl) buf) with (slice buf 0 (1 + (1 + (4 + (4 + dl))))).
    rewrite !slice_add. unfold block_bytes. rewrite <-Hdata, slice_length by lia. cbn [Nat.add].
    rewrite Hl. unfold dl. rewrite !Z2Nat.id by int_lia. f_equal; [|f_equal; [|f_equal; [|f_equal]]].
    + rewrite <-Em. symmetry. apply (slice_write_back buf 0 1). lia.
    + done.
    + symmetry. apply (slice_write_back buf 2 4). lia.
    + symmetry. apply (slice_write_back buf 6 4). lia.
Qed.

(** Data blocks are exact on the wire: a fetched region decodes iff it is a
    concatenation of data blocks (magic, any flag, record count, byte length,
    then that many well-formed record batches), and the result is their
    records in order; truncated, mis-tagged or over-long regions are
    rejected. *)
Theorem decode_data_block_exact buf rs :
  decode_data_block buf = Ok rs ↔
  ∃ groups : list (byte * list StreamRecordBatch), Forall (λ g, block_ok g.2) groups ∧
    buf = concat ((λ g, block_bytes g.1 g.2) <$> groups) ∧ rs = concat groups.*2.
Proof.
  split; [by apply decode_blocks_inv|]. intros (groups & Hg & -> & ->).
  apply decode_blocks_concat; [done|]. clear Hg. induction groups as [|[f r] groups IH]; [cbn; lia|].
  rewrite fmap_cons. cbn [concat length fst snd]. rewrite length_app, length_block_bytes.
  change BLOCK_HEADER_SIZE with 10%nat. lia.
Qed.

(** ** What a writer holds *)

(** Groups of records tagged with their stream, and the records in order. *)
Definition tagged (groups : list (Z * list StreamRecordBatch)) : list (Z * StreamRecordBatch) :=
  concat ((λ g : Z * list StreamRecordBatch, pair g.1 <$> g.2) <$> groups).

Lemma tagged_app g1 g2 : tagged (g1 ++ g2) = tagged g1 ++ tagged g2.
Proof. unfold tagged. by rewrite fmap_app, concat_app. Qed.

Lemma tagged_same sid gs : tagged (pair sid <$> gs) = pair sid <$> concat gs.
Proof.
  unfold tagged. induction gs as [|g gs IH]; [done|]. rewrite !fmap_cons. cbn [concat fst snd].
  by rewrite IH, fmap_app.
Qed.

(** Grouping keeps the records, in order, in non-empty groups. *)
Lemma group_records_nonempty threshold acc opened records :
  Forall (λ g, g ≠ []) (group_records threshold acc opened records).2 ∧
  concat (group_records threshold acc opened records).2 = opened ++ records.
Proof.
  revert acc opened. induction records as [|r records IH]; intros acc opened; cbn [group_records].
  { destruct opened; cbn; split; rewrite ?app_nil_r; auto. }
  destruct (threshold <=? acc + batch_size r).
  - specialize (IH 0 []). destruct (group_records threshold 0 [] records) as [a gs].
    destruct IH as [IH1 IH2]. cbn in *. split.
    + constructor; [by destruct opened|done].
    + rewrite IH2. by rewrite <-app_assoc.
  - specialize (IH (acc + batch_size r) (opened ++ [r])). rewrite <-app_assoc in IH. done.
Qed.

Definition block_of (b : DataBlock) (g : Z * list StreamRecordBatch) : Prop :=
  data_block_new g.1 g.2 = Some b.

Lemma data_block_some sid g : g ≠ [] → ∃ b, data_block_new sid g = Some b.
Proof. destruct g; [done|]. intros _. by eexists. Qed.

Section WriterProofs.
Context {S W : Type} `{ObjectStorageContract S W}.
Implicit Types (s : S) (w : ObjectWriter W).

Lemma check_inv w sid records w' :
  check w sid records = Ok w' → w' = w ∨ ∃ l, w' = set_last w (Some l).
Proof.
  unfold check. destruct records as [|r records]; [intros [= <-]; by left|].
  destruct (ow_last w) as [[ls le]|].
  - destruct (sid <? ls); [done|]. destruct (_ && _); [done|]. intros [= <-]. right. by eexists.
  - intros [= <-]. right. by eexists.
Qed.

Lemma push_groups_ok w sid groups :
  Forall (λ g, g ≠ []) groups →
  ∃ bs, ow_waiting_upload_blocks (push_groups w sid groups) = ow_waiting_upload_blocks w ++ bs ∧
    Forall2 block_of bs (pair sid <$> groups) ∧
    ow_completed_blocks (push_groups w sid groups) = ow_completed_blocks w ∧
    ow_writer (push_groups w sid groups) = ow_writer w ∧
    ow_last (push_groups w sid groups) = ow_last w.
Proof.
  intros Hg. revert w. induction Hg as [|g groups Hne Hg IH]; intros w; cbn [push_groups].
  { exists []. rewrite app_nil_r. split_and!; done || constructor. }
  destruct (data_block_some sid g Hne) as [b Hb]. rewrite Hb.
  match goal with |- context [push_groups ?w' sid groups] => destruct (IH w') as (bs & E1 & E2 & E3 & E4 & E5) end.
  cbn in E1, E3, E4, E5. exists (b :: bs). rewrite E1, E3, E4, E5, <-app_assoc.
  split_and!; [done|by constructor|done..].
Qed.

(** The writer holds these groups for the object stored at [key]: its blocks
    are their encodings, and what was uploaded is the completed blocks. *)
Definition writer_holds (w : ObjectWriter W) (key : string)
    (groups : list (Z * list StreamRecordBatch)) : Prop :=
  Forall2 block_of (ow_completed_blocks w ++ ow_waiting_upload_blocks w) groups ∧
  written (ow_writer w) = blocks_bytes (ow_completed_blocks w) ∧ writer_key (ow_writer w) = key.

Lemma blocks_bytes_app b1 b2 : blocks_bytes (b1 ++ b2) = blocks_bytes b1 ++ blocks_bytes b2.
Proof. unfold blocks_bytes. by rewrite fmap_app, concat_app. Qed.

Lemma upload_parts_holds fuel s w s' w' key groups :
  writer_holds w key groups → upload_parts fuel s w = (s', w', Ok tt) →
  writer_holds w' key groups.
Proof.
  revert s w. induction fuel as [|fuel IH]; intros s w Hh Hu; cbn [upload_parts] in Hu.
  { assert (w' = w) as -> by congruence. done. }
  destruct (part_prefix _ _ _) as [size taken]. destruct (size <? _).
  { assert (w' = w) as -> by congruence. done. }
  destruct (mw_write s (ow_writer w) _) as [[s1 wr] [[]|e]] eqn:Hmw; [|congruence].
  apply part_queued in Hmw as (Hk & Hwr & _). destruct Hh as (H1 & H2 & H3).
  apply IH in Hu; [done|]. split_and!; cbn [ow_completed_blocks ow_waiting_upload_blocks ow_writer];
    [|by rewrite Hwr, H2, blocks_bytes_app|congruence].
  rewrite <-app_assoc. by rewrite take_drop.
Qed.

Lemma ow_write_holds s w sid records s' w' key groups :
  writer_holds w key groups → ow_write s w sid records = (s', w', Ok tt) →
  ∃ new, writer_holds w' key (groups ++ new) ∧ tagged new = pair sid <$> records ∧
    Forall (λ g, g.1 = sid ∧ g.2 ≠ []) new.
Proof.
  intros Hh Hw. unfold ow_write in Hw. destruct (check w sid records) as [w1|e] eqn:Hc; [|congruence].
  assert (Hh1 : writer_holds w1 key groups)
    by (apply check_inv in Hc as [->|[l ->]]; done). clear Hh Hc.
  unfold group_by_block in Hw.
  pose proof (group_records_nonempty (ow_block_size_threshold w1) (ow_group_acc w1) [] records) as [Hne Hcat].
  destruct (group_records _ _ _ _) as [acc gs]. cbn in Hne, Hcat.
  match type of Hw with context [push_groups ?x sid gs] => set (w2 := x) in Hw end.
  destruct (push_groups_ok w2 sid gs Hne) as (bs & E1 & E2 & E3 & E4 & _).
  set (w3 := push_groups w2 sid gs) in *. exists (pair sid <$> gs). 
  assert (Hh3 : writer_holds w3 key (groups ++ (pair sid <$> gs))).
  { destruct Hh1 as (F1 & F2 & F3). split_and!; [|by rewrite E3, E4|by rewrite E4].
    rewrite E1, E3, app_assoc. by apply Forall2_app. }
  split_and!; [|by rewrite tagged_same, Hcat|].
  - destruct (_ <=? _); [|assert (w' = w3) as -> by congruence; done].
    by apply upload_parts_holds with (2 := Hw).
  - apply Forall_fmap. eapply Forall_impl; [exact Hne|]. intros g Hg. done.
Qed.
End WriterProofs.

(** ** A whole object *)

(** A writing session: open, a sequence of writes, close. *)
Section Session.
Context {S W : Type} `{ObjectStorage S W}.

Fixpoint write_all (s : S) (w : ObjectWriter W) (writes : list (Z * list StreamRecordBatch)) :
    S * ObjectWriter W * result unit ObjectError :=
  match writes with
  | [] => (s, w, Ok tt)
  | (sid, records) :: writes =>
      let '(s, w, r) := ow_write s w sid records in
      match r with
      | Err e => (s, w, Err e)
      | Ok _ => write_all s w writes
      end
  end.

Definition write_object (s : S) (object_id block_threshold part_threshold : Z)
    (options : WriteOptions) (writes : list (Z * list StreamRecordBatch)) :
    S * result (ObjectWriter W * Z) ObjectError :=
  let '(s, r) := ow_open s object_id block_threshold part_threshold options in
  match r with
  | Err e => (s, Err e)
  | Ok w =>
      let '(s, w, r) := write_all s w writes in
      match r with
      | Err e => (s, Err e)
      | Ok _ =>
          let '(s, w, r) := ow_close s w in
          (s, let? size := r in Ok (w, size))
      end
  end.
End Session.

(** The bytes of a closed object with these blocks. *)
Definition object_layout (bs : list DataBlock) : list byte :=
  let index := index_encode (close_indexes 0 bs).1 in
  blocks_bytes bs ++ index ++ footer (close_indexes 0 bs).2 (Z.of_nat (length index)).

Section SessionProofs.
Context {S W : Type} `{ObjectStorageContract S W}.
Implicit Types (s : S) (w : ObjectWriter W).

Lemma write_all_holds s w writes s' w' key groups :
  writer_holds w key groups → write_all s w writes = (s', w', Ok tt) →
  ∃ new, writer_holds w' key (groups ++ new) ∧ tagged new = tagged writes ∧
    Forall (λ g, g.2 ≠ [] ∧ ∃ r, (g.1, r) ∈ writes) new.
Proof.
  revert s w groups. induction writes as [|[sid records] writes IH]; intros s w groups Hh Hw.
  { cbn in Hw. assert (w' = w) as -> by congruence. exists []. by rewrite app_nil_r. }
  cbn [write_all] in Hw. destruct (ow_write s w sid records) as [[s1 w1] [[]|e]] eqn:E; [|congruence].
  destruct (ow_write_holds _ _ _ _ _ _ _ _ Hh E) as (new1 & Hh1 & Ht1 & Hn1).
  destruct (IH _ _ _ Hh1 Hw) as (new2 & Hh2 & Ht2 & Hn2). exists (new1 ++ new2).
  rewrite app_assoc. split_and!; [done| |].
  - rewrite tagged_app, Ht1, Ht2. done.
  - apply Forall_app. split.
    + eapply Forall_impl; [exact Hn1|]. intros g [<- Hg]. split; [done|]. exists records. left.
    + eapply Forall_impl; [exact Hn2|]. intros g [Hg [r Hr]]. split; [done|]. exists r. by right.
Qed.

Lemma ow_close_ok s w s' w' size key groups :
  writer_holds w key groups → ow_close s w = (s', w', Ok size) →
  Forall2 block_of (ow_completed_blocks w') groups ∧
  object s' key = Some (object_layout (ow_completed_blocks w')) ∧
  size = wrap_u64 ((close_indexes 0 (ow_completed_blocks w')).2 +
    Z.of_nat (length (index_encode (close_indexes 0 (ow_completed_blocks w')).1)) +
    Z.of_nat FOOTER_SIZE) ∧
  (∀ k, k ≠ key → object s' k = object s k).
Proof.
  intros (F1 & F2 & F3) Hc. unfold ow_close, close_tail in Hc.
  set (bs := ow_completed_blocks w ++ ow_waiting_upload_blocks w) in *.
  destruct (close_indexes 0 bs) as [entries pos] eqn:Ei.
  destruct (mw_write s (ow_writer w) _) as [[s1 wr] [[]|e]] eqn:Hmw; [|congruence].
  destruct (mw_finish s1 wr) as [[s2 wr'] [b|e]] eqn:Hfin; [|congruence].
  assert (Hs : s' = s2) by congruence.
  assert (Hb : ow_completed_blocks w' = bs) by (injection Hc as _ <- _; done).
  assert (Hz : size = wrap_u64 (pos + Z.of_nat (length (index_encode entries)) + Z.of_nat FOOTER_SIZE))
    by (injection Hc as _ _ <-; done). clear Hc. subst s'. rewrite Hb, Ei.
  apply part_queued in Hmw as (K1 & K2 & K3). apply finish_durable in Hfin as [K4 K5].
  rewrite K1, F3 in K4, K5. rewrite K2, F2 in K4. split_and!; [done| |done|].
  - rewrite K4. f_equal. unfold object_layout. rewrite Ei. cbn [fst snd].
    rewrite app_assoc. f_equal. unfold bs. by rewrite blocks_bytes_app.
  - intros k Hk. rewrite K5 by done. apply K3.
Qed.

Lemma write_object_ok s id bt pt options writes s' w size :
  write_object s id bt pt options writes = (s', Ok (w, size)) →
  ∃ groups, Forall2 block_of (ow_completed_blocks w) groups ∧ tagged groups = tagged writes ∧
    Forall (λ g, g.2 ≠ [] ∧ ∃ r, (g.1, r) ∈ writes) groups ∧
    object s' (gen_object_key id) = Some (object_layout (ow_completed_blocks w)) ∧
    size = wrap_u64 ((close_indexes 0 (ow_completed_blocks w)).2 +
      Z.of_nat (length (index_encode (close_indexes 0 (ow_completed_blocks w)).1)) +
      Z.of_nat FOOTER_SIZE).
Proof.
  unfold write_object, ow_open. destruct (os_writer s options _) as [s1 [wr|e]] eqn:Ho; [|cbn; congruence].
  cbn [rbind]. match goal with |- context [write_all s1 ?x writes] => set (w0 := x) end.
  destruct (write_all s1 w0 writes) as [[s2 w2] [[]|e]] eqn:Hall; [|congruence].
  destruct (ow_close s2 w2) as [[s3 w3] [size'|e]] eqn:Hc; [|cbn; congruence].
  cbn [rbind]. intros Heq. assert (s' = s3 ∧ w = w3 ∧ size = size') as (-> & -> & ->)
    by (split_and!; congruence). clear Heq.
  apply writer_opened in Ho as (Hk & Hwr & _).
  assert (Hh0 : writer_holds w0 (gen_object_key id) [])
    by (split_and!; cbn; [constructor|done|done]).
  destruct (write_all_holds _ _ _ _ _ _ _ Hh0 Hall) as (groups & Hh & Ht & Hn).
  destruct (ow_close_ok _ _ _ _ _ _ _ Hh Hc) as (G1 & G2 & G3 & _). eauto 10.
Qed.
End SessionProofs.

(** ** Layout *)

(** What one record can add to an object: its encoding, and at most one block
    header and one index entry. *)
Definition record_cost (r : StreamRecordBatch) : Z := 46 + Z.of_nat (length (encoded r)).
Definition records_cost (rs : list StreamRecordBatch) : Z := foldr (λ r n, record_cost r + n) 0 rs.
Definition object_cost (writes : list (Z * list StreamRecordBatch)) : Z :=
  Z.of_nat FOOTER_SIZE + records_cost (tagged writes).*2.

Lemma records_cost_app a b : records_cost (a ++ b) = records_cost a + records_cost b.
Proof. unfold records_cost. induction a as [|r a IH]; [done|]. cbn [app foldr]. rewrite IH. lia. Qed.

Lemma records_cost_nonneg rs : 0 <= records_cost rs.
Proof. unfold records_cost, record_cost. induction rs as [|r rs IH]; [done|]. cbn [foldr]. lia. Qed.

Lemma records_cost_data rs :
  Z.of_nat (length (concat (encoded <$> rs))) + 46 * Z.of_nat (length rs) = records_cost rs.
Proof.
  induction rs as [|r rs IH]; [done|]. rewrite fmap_cons. cbn [concat records_cost foldr length].
  fold (records_cost rs). rewrite length_app. unfold record_cost. lia.
Qed.

Lemma tagged_cons sid rs groups : (tagged ((sid, rs) :: groups)).*2 = rs ++ (tagged groups).*2.
Proof.
  unfold tagged. rewrite fmap_cons. cbn [concat fst snd]. rewrite fmap_app. f_equal.
  rewrite <-list_fmap_compose. unfold compose. cbn. apply list_fmap_id.
Qed.

Lemma length_blocks_bytes bs : Z.of_nat (length (blocks_bytes bs)) = blocks_size bs.
Proof.
  unfold blocks_bytes. induction bs as [|b bs IH]; [done|]. rewrite fmap_cons.
  cbn [concat blocks_size foldr]. fold (blocks_size bs). rewrite length_app, Nat2Z.inj_add, IH. done.
Qed.

Lemma blocks_size_app b1 b2 : blocks_size (b1 ++ b2) = blocks_size b1 + blocks_size b2.
Proof. rewrite <-!length_blocks_bytes, blocks_bytes_app, length_app. lia. Qed.

Lemma block_of_size b sid rs : block_of b (sid, rs) →
  db_encoded b = block_bytes x02 rs ∧ db_stream_id b = sid ∧ rs ≠ [] ∧
  db_size b = 10 + Z.of_nat (length (concat (encoded <$> rs))).
Proof.
  unfold block_of, data_block_new. cbn [fst snd]. destruct rs as [|r rs]; [done|].
  intros Hb. assert (db_encoded b = block_bytes x02 (r :: rs) ∧ db_stream_id b = sid) as [E1 E2]
    by (injection Hb as <-; done).
  split_and!; [done|done|done|]. unfold db_size. rewrite E1, length_block_bytes. 
  change BLOCK_HEADER_SIZE with 10%nat. lia.
Qed.

Lemma blocks_cost bs groups :
  Forall2 block_of bs groups →
  blocks_size bs + 36 * Z.of_nat (length bs) <= records_cost (tagged groups).*2.
Proof.
  induction 1 as [|b [sid rs] bs groups Hb _ IH]; [done|].
  apply block_of_size in Hb as (_ & _ & Hne & Hsz). rewrite tagged_cons, records_cost_app.
  rewrite <-records_cost_data. cbn [blocks_size foldr length]. fold (blocks_size bs).
  destruct rs; [done|]. cbn [length]. lia.
Qed.

Lemma blocks_size_nonneg bs : 0 <= blocks_size bs.
Proof. rewrite <-length_blocks_bytes. lia. Qed.

(** The index [close] writes is the one [block_indexes] reports. *)
Lemma close_indexes_eq i p bs :
  0 <= p → p + blocks_size bs < two64 →
  index_encode (close_indexes p bs).1 = index_encode (block_indexes_from i p bs) ∧
  (close_indexes p bs).2 = p + blocks_size bs.
Proof.
  revert i p. induction bs as [|b bs IH]; intros i p Hp Hlt; [split; [done|cbn; lia]|].
  cbn [close_indexes block_indexes_from blocks_size foldr] in *. fold (blocks_size bs) in *.
  pose proof (blocks_size_nonneg bs). assert (0 <= db_size b) by (unfold db_size; lia).
  rewrite wrap_u64_id by int_lia. destruct (IH (i + 1) (p + db_size b)) as [E1 E2]; [lia|lia|].
  destruct (close_indexes (p + db_size b) bs) as [entries stop]. cbn [fst snd] in *. split; [|lia].
  unfold index_encode in *. rewrite !fmap_cons. cbn [concat]. by rewrite E1.
Qed.

Lemma block_indexes_numbered i p bs : numbered i (block_indexes_from i p bs).
Proof. revert i p. induction bs as [|b bs IH]; intros i p; [done|]. split; [done|apply IH]. Qed.

Lemma well_formed_offsets r : well_formed r → is_u64 (base_offset r).
Proof.
  intros (sid & ep & base & cnt & body & Hok & ->). unfold base_offset.
  apply (slice_range _ _ 8). rewrite length_new_batch. cbn. lia.
Qed.

Lemma block_indexes_typed i p bs groups :
  Forall2 block_of bs groups → Forall (λ g, is_u64 g.1 ∧ Forall well_formed g.2) groups →
  is_u64 p → Forall bi_typed (block_indexes_from i p bs).
Proof.
  intros Hb. revert i p. induction Hb as [|b [sid rs] bs groups Hb _ IH]; intros i p Hg Hp;
    cbn [block_indexes_from]; constructor.
  - apply Forall_cons in Hg as [[Hs Hw] _]. unfold block_of, data_block_new in Hb. cbn in *.
    destruct rs as [|r rs]; [done|]. apply Forall_cons in Hw as [Hr _].
    apply well_formed_offsets in Hr. injection Hb as <-.
    unfold bi_typed, index_of_block; cbn. split_and!; auto with ints.
  - apply Forall_cons in Hg as [_ Hg]. apply IH; auto with ints.
Qed.

Lemma byte_range_mid pre x post a b :
  a = Z.of_nat (length pre) → b = a + Z.of_nat (length x) → byte_range (pre ++ x ++ post) a b = x.
Proof.
  intros -> ->. unfold byte_range. apply slice_mid; [lia|]. lia.
Qed.

Lemma length_footer p i : length (footer p i) = FOOTER_SIZE.
Proof. done. Qed.

Lemma length_object_layout bs :
  Z.of_nat (length (object_layout bs)) =
  blocks_size bs + Z.of_nat (length (index_encode (close_indexes 0 bs).1)) + Z.of_nat FOOTER_SIZE.
Proof.
  unfold object_layout. rewrite !length_app, !Nat2Z.inj_add, length_blocks_bytes, length_footer. lia.
Qed.

Section ReadBack.
Context {S W : Type} `{ObjectStorageContract S W}.
Context (s : S) (md : S3ObjectMetadata) (bs : list DataBlock)
  (groups : list (Z * list StreamRecordBatch)).
Context (Hav : available s) (Hobj : object s (om_key md) = Some (object_layout bs)).
Context (Hbs : Forall2 block_of bs groups)
  (Hg : Forall (λ g, is_u64 g.1 ∧ Forall well_formed g.2) groups)
  (Hcost : Z.of_nat FOOTER_SIZE + records_cost (tagged groups).*2 < two32)
  (Hsize : om_object_size md = Z.of_nat (length (object_layout bs))).
Let isz : Z := Z.of_nat (length (index_encode (close_indexes 0 bs).1)).

Lemma layout_small :
  blocks_size bs + isz + Z.of_nat FOOTER_SIZE < two32 ∧ 0 <= blocks_size bs ∧
  index_encode (close_indexes 0 bs).1 = index_encode (block_indexes_from 0 0 bs) ∧
  (close_indexes 0 bs).2 = blocks_size bs.
Proof using Hbs Hcost.
  pose proof (blocks_cost bs groups Hbs) as Hc. pose proof (blocks_size_nonneg bs) as Hn.
  destruct (close_indexes_eq 0 0 bs) as [E1 E2]; [lia|int_lia|]. split_and!; [|done|done|lia].
  unfold isz. rewrite E1, length_index_encode. change BLOCK_INDEX_SIZE with 36%nat.
  assert (El : ∀ i p, length (block_indexes_from i p bs) = length bs).
  { clear. induction bs as [|b l IH]; intros i p; [done|]. cbn. by rewrite IH. }
  rewrite El. lia.
Qed.

Lemma load_layout r :
  or_metadata r = md →
  load_object_info s r =
  Ok {| data_block_size := blocks_size bs; index_block := block_indexes_from 0 0 bs |}.
Proof using Hav Hobj Hbs Hg Hcost Hsize.
  intros Hr. destruct layout_small as (Hsm & Hn & Ei & Ep). pose proof (length_object_layout bs) as Hlen.
  fold isz in Hlen. unfold load_object_info. rewrite Hr, Hsize, Hlen.
  change (Z.of_nat FOOTER_SIZE) with 48 in *. assert (0 <= isz) by (unfold isz; lia).
  rewrite (proj2 (Z.ltb_ge (blocks_size bs + isz + 48) 48)) by lia.
  assert (Hf : byte_range (object_layout bs) (blocks_size bs + isz) (blocks_size bs + isz + 48) =
    footer (blocks_size bs) isz).
  { unfold object_layout. rewrite Ep. fold isz. rewrite <-(app_nil_r (footer _ _)).
    rewrite (app_assoc (blocks_bytes bs)). apply byte_range_mid; [|done].
    rewrite length_app, Nat2Z.inj_add, length_blocks_bytes. done. }
  rewrite (range_read_present _ _ _ _ _ (object_layout bs)); [|done|done|lia|lia].
  replace (blocks_size bs + isz + 48 - 48) with (blocks_size bs + isz) by lia. rewrite Hf. cbn [rbind].
  change (length (footer (blocks_size bs) isz) =? FOOTER_SIZE)%nat with true. cbn [negb].
  assert (F40 : read_u64 (footer (blocks_size bs) isz) 40 = FOOTER_MAGIC).
  { eapply (read_at_8 (put_u64 (blocks_size bs) ++ put_u32 isz ++ replicate 28 x00) _ []);
      [unfold footer; by rewrite app_nil_r, <-!app_assoc|done|done]. }
  assert (F0 : read_u64 (footer (blocks_size bs) isz) 0 = blocks_size bs)
    by (eapply (read_at_8 []); [done|done|int_lia]).
  assert (F8 : read_u32 (footer (blocks_size bs) isz) 8 = isz)
    by (eapply (read_at_4 (put_u64 (blocks_size bs))); [done|done|int_lia]).
  rewrite F40, F0, F8, Z.eqb_refl. cbn [negb]. rewrite !wrap_u64_id by int_lia.
  rewrite Z.eqb_refl. cbn [negb].
  rewrite (range_read_present _ _ _ _ _ (object_layout bs)); [|done|done|lia|lia].
  cbn [rbind]. unfold object_layout.
  rewrite byte_range_mid; [|by rewrite length_blocks_bytes|unfold isz; lia]. rewrite Ei.
  rewrite (proj2 (index_parse_iff _ (block_indexes_from 0 0 bs))); [done|].
  split_and!; [by eapply block_indexes_typed|apply block_indexes_numbered|done].
Qed.

Lemma group_block_ok g : g ∈ groups → block_ok g.2.
Proof using Hg Hcost isz.
  intros Hin. rewrite Forall_forall in Hg. destruct (Hg g Hin) as [_ Hw]. 
  assert (Hc : records_cost g.2 <= records_cost (tagged groups).*2).
  { clear -Hin. apply list_elem_of_split in Hin as (l1 & l2 & ->). rewrite tagged_app, fmap_app.
    destruct g as [sid rs]. rewrite tagged_cons, !records_cost_app. cbn [snd].
    pose proof (records_cost_nonneg (tagged l1).*2). pose proof (records_cost_nonneg (tagged l2).*2). lia. }
  pose proof (records_cost_data g.2). unfold block_ok, fits_u32. split_and!; [done|int_lia|int_lia].
Qed.

Lemma read_one r pre b sid rs suf i :
  or_metadata r = md → bs = pre ++ b :: suf → block_of b (sid, rs) → (sid, rs) ∈ groups →
  let e := index_of_block i (blocks_size pre) b in
  bi_stream_id e = sid ∧ ∃ bytes, read_block s r e = Ok bytes ∧ decode_data_block bytes = Ok rs.
Proof using Hav Hobj Hbs Hg Hcost Hsize.
  intros Hr Hsplit Hb Hin e. destruct layout_small as (Hsm & Hn & _ & _).
  pose proof (length_object_layout bs) as Hlen. fold isz in Hlen. assert (0 <= isz) by (unfold isz; lia).
  pose proof (block_of_size _ _ _ Hb) as (Henc & Hsid & _ & _).
  pose proof (blocks_size_nonneg pre). pose proof (blocks_size_nonneg suf).
  assert (Hsz : blocks_size bs = blocks_size pre + (db_size b + blocks_size suf))
    by (rewrite Hsplit, blocks_size_app; done).
  assert (0 <= db_size b) by (unfold db_size; lia). split; [done|]. exists (db_encoded b). split.
  - unfold read_block, read_block_throttled, bi_end_position. rewrite Hr. cbn [e bi_start_position bi_size index_of_block].
    rewrite (wrap_u32_id (db_size b)), wrap_u64_id by int_lia.
    rewrite (range_read_present _ _ _ _ _ (object_layout bs)); [|done|done|lia|lia]. f_equal.
    unfold object_layout. rewrite Hsplit at 1. rewrite blocks_bytes_app.
    change (blocks_bytes (b :: suf)) with (db_encoded b ++ blocks_bytes suf). rewrite <-!app_assoc.
    apply byte_range_mid; [by rewrite length_blocks_bytes|done].
  - rewrite Henc. pose proof (decode_blocks_concat (length (block_bytes x02 rs)) [(x02, rs)]) as Hd.
    cbn in Hd. rewrite !app_nil_r in Hd. apply Hd.
    + repeat constructor; by apply (group_block_ok (sid, rs)).
    + rewrite length_block_bytes. change BLOCK_HEADER_SIZE with 10%nat. lia.
Qed.

Lemma read_all r :
  or_metadata r = md →
  Forall2 (λ e g, bi_stream_id e = g.1 ∧ ∃ bytes, read_block s r e = Ok bytes ∧
    decode_data_block bytes = Ok g.2) (block_indexes_from 0 0 bs) groups.
Proof using Hav Hobj Hbs Hg Hcost Hsize.
  intros Hr. destruct layout_small as (Hsm & _).
  assert (Hgen : ∀ suf gsuf pre gpre i, bs = pre ++ suf → groups = gpre ++ gsuf →
    Forall2 block_of suf gsuf → Forall2 (λ e g, bi_stream_id e = g.1 ∧ ∃ bytes,
      read_block s r e = Ok bytes ∧ decode_data_block bytes = Ok g.2)
      (block_indexes_from i (blocks_size pre) suf) gsuf).
  { intros suf gsuf pre gpre i Hs Hgs Hf. revert pre gpre i Hs Hgs.
    induction Hf as [|b [sid rs] suf gsuf Hb Hf IH]; intros pre gpre i Hs Hgs; [constructor|].
    cbn [block_indexes_from]. constructor.
    - apply (read_one r pre b sid rs suf); [done|done|done|]. rewrite Hgs. set_solver.
    - assert (Hp : wrap_u64 (blocks_size pre + db_size b) = blocks_size (pre ++ [b])).
      { pose proof (blocks_size_nonneg pre). pose proof (blocks_size_nonneg suf).
        assert (0 <= db_size b) by (unfold db_size; lia). rewrite blocks_size_app. cbn.
        rewrite Hs, blocks_size_app in Hsm. cbn in Hsm. fold (blocks_size suf) in Hsm.
        rewrite wrap_u64_id; unfold isz in Hsm; int_lia. }
      rewrite Hp. apply (IH (pre ++ [b]) (gpre ++ [(sid, rs)])); by rewrite <-app_assoc. }
  by apply (Hgen bs groups [] []).
Qed.
End ReadBack.

Definition writes_ok (writes : list (Z * list StreamRecordBatch)) : Prop :=
  Forall (λ p, is_u64 p.1 ∧ Forall well_formed p.2) writes.

Lemma tagged_elem (groups : list (Z * list StreamRecordBatch)) sid r :
  (sid, r) ∈ tagged groups ↔ ∃ rs, (sid, rs) ∈ groups ∧ r ∈ rs.
Proof.
  induction groups as [|[sid' rs] groups IH].
  { split; [by intros ?%not_elem_of_nil|]. by intros (? & ?%not_elem_of_nil & _). }
  unfold tagged in *. rewrite fmap_cons. cbn [concat fst snd]. rewrite elem_of_app, IH. split.
  - intros [(r' & [= -> ->] & Hr)%list_elem_of_fmap|(rs' & Hg & Hr)]; [exists rs|exists rs'];
      (split; [set_solver|done]).
  - intros (rs' & [[= -> ->]|Hg]%elem_of_cons & Hr); [left|right; eauto].
    by apply list_elem_of_fmap_2.
Qed.

Lemma groups_ok writes groups :
  writes_ok writes → tagged groups = tagged writes → Forall (λ g, g.2 ≠ []) groups →
  Forall (λ g, is_u64 g.1 ∧ Forall well_formed g.2) groups.
Proof.
  intros Hw Ht Hne. unfold writes_ok in Hw. rewrite !Forall_forall in *. intros [sid rs] Hg.
  assert (Hr : ∀ r, r ∈ rs → is_u64 sid ∧ well_formed r).
  { intros r Hr. assert (Hin : (sid, r) ∈ tagged writes) by (rewrite <-Ht; apply tagged_elem; eauto).
    apply tagged_elem in Hin as (rs' & Hin & Hr'). destruct (Hw _ Hin) as [? Hall].
    rewrite Forall_forall in Hall. cbn in *. auto. }
  specialize (Hne _ Hg). cbn in Hne. split.
  - destruct rs as [|r rs]; [done|]. by apply (Hr r); left.
  - apply Forall_forall. intros r Hin. by apply Hr.
Qed.

(** The object [id] is stored with [size] bytes and holds these writes. *)
Definition stored {S W} `{ObjectStorageContract S W} (s : S) (id size : Z)
    (writes : list (Z * list StreamRecordBatch)) (bs : list DataBlock) : Prop :=
  ∃ groups, Forall2 block_of bs groups ∧ tagged groups = tagged writes ∧
    Forall (λ g, g.2 ≠ [] ∧ ∃ r, (g.1, r) ∈ writes) groups ∧
    object s (gen_object_key id) = Some (object_layout bs) ∧
    size = wrap_u64 ((close_indexes 0 bs).2 +
      Z.of_nat (length (index_encode (close_indexes 0 bs).1)) + Z.of_nat FOOTER_SIZE).

(** A reader of the object parses the index of the blocks [bs]; every entry
    reads back and decodes, and the decoded groups are the writes. *)
Definition object_reads {S W} `{ObjectStorage S W} (s : S) (md : S3ObjectMetadata)
    (writes : list (Z * list StreamRecordBatch)) (bs : list DataBlock) : Prop :=
  ∃ r info groups, basic_object_info s (reader_new md) = (r, Ok info) ∧
    index_block info = block_indexes_from 0 0 bs ∧ tagged groups = tagged writes ∧
    Forall2 (λ e g, bi_stream_id e = g.1 ∧ ∃ bytes, read_block s r e = Ok bytes ∧
      decode_data_block bytes = Ok g.2) (index_block info) groups.

Lemma stored_reads {S W} `{ObjectStorageContract S W} (s : S) id size writes bs md :
  stored s id size writes bs → available s → writes_ok writes → object_cost writes < two32 →
  om_object_id md = id → om_object_size md = size → object_reads s md writes bs.
Proof.
  intros (groups & Hbs & Ht & Hne & Hobj & Hsz) Hav Hok Hcost Hid Hsize.
  assert (Hg : Forall (λ g, is_u64 g.1 ∧ Forall well_formed g.2) groups).
  { apply (groups_ok writes); [done|done|]. eapply Forall_impl; [exact Hne|]. by intros g [? _]. }
  assert (Hc : Z.of_nat FOOTER_SIZE + records_cost (tagged groups).*2 < two32) by (by rewrite Ht).
  destruct (layout_small bs groups Hbs Hc) as (Hsm & Hn & _ & Ep).
  assert (Hs : om_object_size md = Z.of_nat (length (object_layout bs))).
  { rewrite Hsize, Hsz, Ep, length_object_layout. apply wrap_u64_id. int_lia. }
  assert (Hobj' : object s (om_key md) = Some (object_layout bs)) by (unfold om_key; by rewrite Hid).
  pose proof (load_layout s md bs groups Hav Hobj' Hbs Hg Hc Hs (reader_new md) eq_refl) as Hload.
  unfold object_reads, basic_object_info. cbn [or_info reader_new]. rewrite Hload. eexists _, _, groups.
  split_and!; [reflexivity|done|done|]. cbn [index_block]. by apply (read_all s md bs groups).
Qed.

(** C13: What is written is what is read. After any sequence of accepted writes
    and a successful close, with any block and part thresholds and any
    storage that meets the contract, a reader of the object parses exactly
    the index the writer reports; every index entry reads back and decodes,
    and the decoded groups, taken in index order, are exactly the records
    written, in order and under their streams. *)
Theorem object_roundtrip {S W} `{ObjectStorageContract S W} (s s' : S) id bt pt options writes
    (w : ObjectWriter W) size md :
  write_object s id bt pt options writes = (s', Ok (w, size)) → available s' →
  writes_ok writes → object_cost writes < two32 →
  om_object_id md = id → om_object_size md = size →
  ∃ r info groups, basic_object_info s' (reader_new md) = (r, Ok info) ∧
    index_block info = block_indexes w ∧ tagged groups = tagged writes ∧
    Forall2 (λ e g, bi_stream_id e = g.1 ∧ ∃ bytes, read_block s' r e = Ok bytes ∧
      decode_data_block bytes = Ok g.2) (index_block info) groups.
Proof.
  intros Hw Hav Hok Hcost Hid Hsize. apply (stored_reads s' id size writes); try done.
  by eapply write_object_ok.
Qed.

Definition demo_writes : list (Z * list StreamRecordBatch) :=
  [(1, [new_batch 1 1 0 2 [x01]; new_batch 1 1 2 3 [x02; x03]]); (4, [new_batch 4 1 10 1 []])].
Definition demo_store : MemoryObjectStorage := mem_new 0 1700000000000.
Definition demo_session :
    MemoryObjectStorage * result (ObjectWriter MemoryMultipartWriter * Z) ObjectError :=
  write_object demo_store 255 1 0 default_write_options demo_writes.
Definition demo_writer : ObjectWriter MemoryMultipartWriter :=
  match demo_session.2 with
  | Ok (w, _) => w
  | Err _ => Build_ObjectWriter {| mm_key := EmptyString; mm_buf := [] |} 0 0 [] 0 [] 0 0 None
  end.
Definition demo_size : Z := match demo_session.2 with Ok (_, n) => n | Err _ => 0 end.
Definition demo_metadata : S3ObjectMetadata := {|
  om_object_id := 255; om_object_type := StreamSet; om_offset_ranges := [];
  om_object_size := demo_size; om_attributes := 0; om_committed_timestamp_ms := 0;
  om_data_timestamp_ms := 0 |}.

Lemma demo_session_ok :
  write_object demo_store 255 1 0 default_write_options demo_writes =
  (demo_session.1, Ok (demo_writer, demo_size)).
Proof. vm_compute. reflexivity. Qed.

Lemma demo_writes_ok : writes_ok demo_writes.
Proof.
  repeat constructor; try (cbn; int_lia); eexists _, _, _, _, _; (split; [|reflexivity]);
    unfold parts_ok; cbn; int_lia.
Qed.

Lemma object_roundtrip_witness :
  ∃ r info groups, basic_object_info demo_session.1 (reader_new demo_metadata) = (r, Ok info) ∧
    index_block info = block_indexes demo_writer ∧ tagged groups = tagged demo_writes ∧
    Forall2 (λ e g, bi_stream_id e = g.1 ∧ ∃ bytes, read_block demo_session.1 r e = Ok bytes ∧
      decode_data_block bytes = Ok g.2) (index_block info) groups.
Proof.
  apply (object_roundtrip demo_store demo_session.1 255 1 0 default_write_options demo_writes
    demo_writer demo_size demo_metadata demo_session_ok); [done|exact demo_writes_ok| |done|done].
  vm_compute. reflexivity.
Defined.

(** ** The index a writer leaves is sorted *)

(** Records of one call in order: no overlap, none running backwards, and a
    span that fits the 32-bit delta of an index entry. *)
Definition records_ordered (rs : list StreamRecordBatch) : Prop :=
  StronglySorted (λ a b, last_offset a <= base_offset b) rs ∧
  Forall (λ r, base_offset r <= last_offset r) rs.

Definition write_ordered (rs : list StreamRecordBatch) : Prop :=
  records_ordered rs ∧
  ∀ first, head rs = Some first → last_offset (List.last rs first) - base_offset first < two32.

Definition db_before (a b : DataBlock) : Prop :=
  db_stream_id a < db_stream_id b ∨
  db_stream_id a = db_stream_id b ∧ db_end_offset a <= db_start_offset b.

(** Blocks in order, each with a span that fits its index entry. *)
Definition blocks_sorted (bs : list DataBlock) : Prop :=
  StronglySorted db_before bs ∧
  Forall (λ b, is_u64 (db_start_offset b) ∧ is_u64 (db_end_offset b) ∧
    0 <= db_end_offset b - db_start_offset b < two32) bs.

Lemma last_elem {A} (l : list A) d : l ≠ [] → List.last l d ∈ l.
Proof.
  intros Hne. destruct (exists_last Hne) as (l' & x & ->). rewrite last_last. set_solver.
Qed.

(** The first record starts lowest and the last one ends highest. *)
Lemma ordered_bounds first rs r :
  records_ordered (first :: rs) → r ∈ first :: rs →
  base_offset first <= base_offset r ∧ last_offset r <= last_offset (List.last (first :: rs) first).
Proof.
  intros [Hs Hf] Hr. pose proof Hf as Hf'. rewrite Forall_forall in Hf'. split.
  - apply StronglySorted_inv in Hs as [_ Hall]. rewrite Forall_forall in Hall.
    pose proof (Hf' first ltac:(left)). apply elem_of_cons in Hr as [->|Hr]; [lia|].
    specialize (Hall r Hr). lia.
  - destruct (exists_last (l := first :: rs) ltac:(done)) as (l' & x & E). rewrite E in *.
    rewrite last_last. apply StronglySorted_app_iff in Hs as (_ & _ & Hx).
    apply elem_of_app in Hr as [Hr|Hr]; [|by apply list_elem_of_singleton in Hr as ->].
    specialize (Hx r x Hr ltac:(by left)). pose proof (Hf' x ltac:(set_solver)) as Hx2. cbn in Hx, Hx2. lia.
Qed.

Lemma records_ordered_app a b :
  records_ordered (a ++ b) → records_ordered a ∧ records_ordered b ∧
  ∀ x y, x ∈ a → y ∈ b → last_offset x <= base_offset y.
Proof.
  intros [(H1 & H2 & H3)%StronglySorted_app_iff [F1 F2]%Forall_app]. done.
Qed.

Lemma last_offset_u64 r : is_u64 (last_offset r).
Proof. unfold last_offset. destruct (0 <? _); apply wrap_u64_is_u64. Qed.

(** A block's offsets are those of a first and a last record of its group. *)
Lemma block_of_offsets b sid rs :
  block_of b (sid, rs) → records_ordered rs → Forall well_formed rs →
  ∃ first last, first ∈ rs ∧ last ∈ rs ∧ db_stream_id b = sid ∧
    db_start_offset b = base_offset first ∧ db_end_offset b = last_offset last ∧
    is_u64 (db_start_offset b) ∧ is_u64 (db_end_offset b) ∧ db_start_offset b <= db_end_offset b.
Proof.
  unfold block_of, data_block_new. cbn [fst snd]. destruct rs as [|first rs]; [done|].
  intros Hb Ho Hw. apply Forall_cons in Hw as [Hw _]. exists first, (List.last (first :: rs) first).
  pose proof (ordered_bounds first rs first Ho ltac:(left)) as [_ Hle].
  pose proof (last_elem (first :: rs) first ltac:(done)) as Hl.
  destruct Ho as [_ Hf]. rewrite Forall_forall in Hf. 
  assert (Hff : base_offset first <= last_offset first) by (apply Hf; left).
  assert (db_stream_id b = sid ∧ db_start_offset b = base_offset first ∧
    db_end_offset b = last_offset (List.last (first :: rs) first)) as (E1 & E2 & E3)
    by (injection Hb as <-; done).
  rewrite E2, E3. split_and!; [left|done|done|done|done| | |lia];
    [by apply well_formed_offsets|apply last_offset_u64].
Qed.

(** Blocks cut from one ordered call are sorted and stay inside its range. *)
Lemma group_blocks_sorted sid gs bs lo hi :
  Forall2 block_of bs (pair sid <$> gs) → records_ordered (concat gs) →
  Forall well_formed (concat gs) → hi - lo < two32 →
  (∀ r, r ∈ concat gs → lo <= base_offset r ∧ last_offset r <= hi) →
  blocks_sorted bs ∧
  Forall (λ b, db_stream_id b = sid ∧ lo <= db_start_offset b ∧ db_end_offset b <= hi) bs.
Proof.
  intros Hb. revert bs lo Hb. induction gs as [|g gs IH]; intros bs lo Hb Ho Hw Hspan Hr.
  { apply Forall2_nil_inv_r in Hb as ->. repeat constructor. }
  rewrite fmap_cons in Hb. apply Forall2_cons_inv_r in Hb as (b & bs' & Hb & Hbs & ->).
  cbn [concat] in *. apply records_ordered_app in Ho as (Hg & Hgs & Hx).
  apply Forall_app in Hw as [Hwg Hwgs].
  destruct (block_of_offsets b sid g Hb Hg Hwg) as (f & l & Hf & Hl & Es & Est & Een & U1 & U2 & Hle).
  pose proof (Hr f ltac:(set_solver)) as [? _]. pose proof (Hr l ltac:(set_solver)) as [_ ?].
  destruct (IH bs' (db_end_offset b) Hbs Hgs Hwgs) as [[Ss Sf] Hall]; [lia| |].
  { intros r Hin. split; [|by apply Hr, elem_of_app; right]. rewrite Een. by apply Hx. }
  split; [split|].
  - constructor; [done|]. eapply Forall_impl; [exact Hall|]. intros b' (? & ? & ?). right. lia.
  - constructor; [split_and!; [done|done|lia|lia]|done].
  - constructor; [split_and!; [done|lia|lia]|]. eapply Forall_impl; [exact Hall|].
    intros b' (? & ? & ?). split_and!; [done|lia|lia].
Qed.

Section SortedProofs.
Context {S W : Type} `{ObjectStorageContract S W}.
Implicit Types (s : S) (w : ObjectWriter W).

(** The cursor bounds every block written so far. *)
Definition below_cursor (last : option (Z * Z)) (bs : list DataBlock) : Prop :=
  match last with
  | None => bs = []
  | Some (ls, le) => Forall (λ b, db_stream_id b < ls ∨ db_stream_id b = ls ∧ db_end_offset b <= le) bs
  end.

Definition writer_sorted (w : ObjectWriter W) : Prop :=
  blocks_sorted (ow_completed_blocks w ++ ow_waiting_upload_blocks w) ∧
  below_cursor (ow_last w) (ow_completed_blocks w ++ ow_waiting_upload_blocks w).

(** An accepted check moves the cursor past every block so far. *)
Lemma check_ok w sid first rs w' :
  check w sid (first :: rs) = Ok w' →
  w' = set_last w (Some (sid, last_offset (List.last (first :: rs) first))) ∧
  ∀ bs, below_cursor (ow_last w) bs →
    Forall (λ b, db_stream_id b < sid ∨ db_stream_id b = sid ∧ db_end_offset b <= base_offset first) bs.
Proof.
  unfold check. destruct (ow_last w) as [[ls le]|].
  - destruct (Z.ltb_spec sid ls) as [|Hs]; [done|]. destruct (_ && _) eqn:E; [done|].
    intros [= <-]. split; [done|]. cbn [below_cursor]. intros bs Hb. eapply Forall_impl; [exact Hb|].
    intros b Hbb. cbn in Hbb. apply andb_false_iff in E as [E|E];
      [apply Z.eqb_neq in E|apply Z.ltb_ge in E]; lia.
  - intros [= <-]. split; [done|]. intros bs ->. constructor.
Qed.

Lemma blocks_sorted_app bs new :
  blocks_sorted bs → blocks_sorted new → (∀ a b, a ∈ bs → b ∈ new → db_before a b) →
  blocks_sorted (bs ++ new).
Proof.
  intros [S1 F1] [S2 F2] Hx. split; [by apply StronglySorted_app_iff|]. by apply Forall_app.
Qed.

Lemma upload_parts_blocks fuel s w s' w' :
  upload_parts fuel s w = (s', w', Ok tt) →
  ow_last w' = ow_last w ∧
  ow_completed_blocks w' ++ ow_waiting_upload_blocks w' =
    ow_completed_blocks w ++ ow_waiting_upload_blocks w.
Proof.
  revert s w. induction fuel as [|fuel IH]; intros s w Hu; cbn [upload_parts] in Hu.
  { assert (w' = w) as -> by congruence. done. }
  destruct (part_prefix _ _ _) as [size taken]. destruct (size <? _).
  { assert (w' = w) as -> by congruence. done. }
  destruct (mw_write s (ow_writer w) _) as [[s1 wr] [[]|e]]; [|congruence].
  apply IH in Hu as (Hl & Hc); cbn in *. split; [done|].
  rewrite Hc, <-app_assoc. by rewrite take_drop.
Qed.

Lemma ow_write_sorted s w sid records s' w' :
  writer_sorted w → write_ordered records → Forall well_formed records →
  ow_write s w sid records = (s', w', Ok tt) → writer_sorted w'.
Proof.
  intros [Hs Hc] [Ho Hspan] Hwf Hw. unfold ow_write in Hw.
  destruct (check w sid records) as [w1|e] eqn:Hchk; [|congruence]. unfold group_by_block in Hw.
  pose proof (group_records_nonempty (ow_block_size_threshold w1) (ow_group_acc w1) [] records) as [Hne Hcat].
  destruct (group_records _ _ _ _) as [acc gs]. cbn in Hne, Hcat.
  match type of Hw with context [push_groups ?x sid gs] => set (w2 := x) in Hw end.
  destruct (push_groups_ok w2 sid gs Hne) as (bs & E1 & E2 & E3 & _ & E5).
  set (w3 := push_groups w2 sid gs) in *.
  assert (Hw3 : writer_sorted w3).
  { unfold writer_sorted. rewrite E1, E3, E5, app_assoc. cbn [w2 ow_completed_blocks
      ow_waiting_upload_blocks ow_last]. destruct records as [|first rs].
    - assert (w1 = w) as -> by (cbn in Hchk; congruence). destruct gs as [|g gs].
      + apply Forall2_nil_inv_r in E2 as ->. by rewrite app_nil_r.
      + apply Forall_cons in Hne as [Hne _]. by destruct g.
    - apply check_ok in Hchk as [-> Hcur]. specialize (Hcur _ Hc). cbn [set_last ow_completed_blocks
        ow_waiting_upload_blocks ow_last]. set (le := last_offset (List.last (first :: rs) first)) in *.
      rewrite <-Hcat in Hwf, Ho.
      destruct (group_blocks_sorted sid gs bs (base_offset first) le E2 Ho Hwf) as [Hsort Hin];
        [by apply Hspan| |].
      { rewrite Hcat in *. intros r Hr. by apply (ordered_bounds first rs r). }
      rewrite Hcat in Ho. pose proof (ordered_bounds first rs first Ho ltac:(left)) as [_ Hfl].
      destruct Ho as [_ Hf]. apply Forall_cons in Hf as [Hf _].
      rewrite Forall_forall in Hcur, Hin. split.
      + apply blocks_sorted_app; [done|done|]. intros a b Ha Hb. specialize (Hcur a Ha).
        specialize (Hin b Hb). unfold db_before. lia.
      + cbn [below_cursor]. apply Forall_app. split; apply Forall_forall; intros b Hb;
          [specialize (Hcur b Hb); unfold le in *; lia|specialize (Hin b Hb); lia]. }
  destruct (_ <=? _); [|assert (w' = w3) as -> by congruence; done].
  apply upload_parts_blocks in Hw as [Hl Hb]. unfold writer_sorted. rewrite Hl, Hb. done.
Qed.
End SortedProofs.

Section SessionSorted.
Context {S W : Type} `{ObjectStorageContract S W}.
Implicit Types (s : S) (w : ObjectWriter W).

Definition writes_ordered (writes : list (Z * list StreamRecordBatch)) : Prop :=
  Forall (λ p, write_ordered p.2) writes.

Lemma write_all_sorted s w writes s' w' :
  writer_sorted w → writes_ok writes → writes_ordered writes →
  write_all s w writes = (s', w', Ok tt) → writer_sorted w'.
Proof.
  intros Hs Hok Hord. revert s w Hs. induction writes as [|[sid rs] writes IH]; intros s w Hs Hw.
  { cbn in Hw. assert (w' = w) as -> by congruence. done. }
  apply Forall_cons in Hok as [[_ Hwf] Hok], Hord as [Ho Hord]. cbn in Hwf, Ho.
  cbn [write_all] in Hw. destruct (ow_write s w sid rs) as [[s1 w1] [[]|e]] eqn:E; [|congruence].
  eapply IH; [done|done| |exact Hw]. by eapply ow_write_sorted.
Qed.

Lemma write_object_sorted s id bt pt options writes s' w size :
  writes_ok writes → writes_ordered writes →
  write_object s id bt pt options writes = (s', Ok (w, size)) →
  blocks_sorted (ow_completed_blocks w).
Proof.
  intros Hok Hord. unfold write_object, ow_open.
  destruct (os_writer s options _) as [s1 [wr|e]]; [|cbn; congruence].
  cbn [rbind]. match goal with |- context [write_all s1 ?x writes] => set (w0 := x) end.
  destruct (write_all s1 w0 writes) as [[s2 w2] [[]|e]] eqn:Hall; [|congruence].
  assert (Hs : writer_sorted w2).
  { eapply write_all_sorted; [|exact Hok|exact Hord|exact Hall]. repeat constructor. }
  unfold ow_close. destruct (close_tail w2) as [[tail pos] isz].
  destruct (mw_write s2 _ _) as [[s3 wr3] [[]|e]]; [|cbn; congruence].
  destruct (mw_finish s3 _) as [[s4 wr4] [b|e]]; [|cbn; congruence].
  cbn [rbind]. intros Heq. assert (E : ow_completed_blocks w = ow_completed_blocks w2 ++
    ow_waiting_upload_blocks w2) by (injection Heq as _ <- _; done). rewrite E. apply Hs.
Qed.
End SessionSorted.

Lemma bi_end_of_block id p b :
  is_u64 (db_start_offset b) → is_u64 (db_end_offset b) →
  0 <= db_end_offset b - db_start_offset b < two32 →
  bi_end_offset (index_of_block id p b) = db_end_offset b.
Proof.
  intros H1 H2 H3. unfold bi_end_offset. cbn.
  rewrite (wrap_u64_id (db_end_offset b - _)), wrap_u32_id by int_lia.
  rewrite wrap_u64_id; int_lia.
Qed.

Lemma block_indexes_elem i p bs e :
  e ∈ block_indexes_from i p bs → ∃ id q b, b ∈ bs ∧ e = index_of_block id q b.
Proof.
  revert i p. induction bs as [|b bs IH]; intros i p; [by intros ?%not_elem_of_nil|].
  cbn [block_indexes_from]. intros [->|He]%elem_of_cons.
  - eexists _, _, b. split; [left|done].
  - destruct (IH _ _ He) as (id & q & b' & Hb & ->). eexists _, _, b'. split; [by right|done].
Qed.

Lemma block_indexes_sorted i p bs : blocks_sorted bs → index_sorted (block_indexes_from i p bs).
Proof.
  intros [Hs Hf]. revert i p. induction Hs as [|b bs Hs IH Hall]; intros i p.
  { repeat constructor. }
  apply Forall_cons in Hf as [(U1 & U2 & U3) Hf]. cbn [block_indexes_from].
  destruct (IH Hf (i + 1) (wrap_u64 (p + db_size b))) as [IH1 IH2].
  split; [constructor; [done|]|constructor; [|done]].
  - apply Forall_forall. intros e (id & q & b' & Hb & ->)%block_indexes_elem.
    rewrite Forall_forall in Hall. unfold bi_before. rewrite bi_end_of_block by done.
    exact (Hall b' Hb).
  - rewrite bi_end_of_block by done. cbn. lia.
Qed.

(** The index of a written object is sorted by stream and offset, without
    overlaps, whenever each accepted call brings its own records in order:
    the ordering check between calls and the grouping inside a call are
    enough for the binary search of the reader. *)
Theorem writer_index_sorted {S W} `{ObjectStorageContract S W} (s s' : S) id bt pt options writes
    (w : ObjectWriter W) size :
  writes_ok writes → writes_ordered writes →
  write_object s id bt pt options writes = (s', Ok (w, size)) → index_sorted (block_indexes w).
Proof.
  intros Hok Hord Hw. apply block_indexes_sorted. by eapply write_object_sorted.
Qed.

Lemma demo_writes_ordered : writes_ordered demo_writes.
Proof.
  repeat first [apply Forall_cons_2|apply Forall_nil_2]; split;
    [split; repeat first [apply SSorted_nil|apply SSorted_cons|apply Forall_cons_2|apply Forall_nil_2];
       vm_compute; congruence|intros ? [= <-]; vm_compute; reflexivity| |].
  - split; repeat first [apply SSorted_nil|apply SSorted_cons|apply Forall_cons_2|apply Forall_nil_2];
      vm_compute; congruence.
  - intros ? [= <-]; vm_compute; reflexivity.
Qed.

Lemma writer_index_sorted_witness : index_sorted (block_indexes demo_writer).
Proof.
  exact (writer_index_sorted demo_store demo_session.1 255 1 0 default_write_options demo_writes
    demo_writer demo_size demo_writes_ok demo_writes_ordered demo_session_ok).
Defined.

(** ** Stream ranges *)
Definition ranges_size (ranges : list ObjectStreamRange) : Z := foldr (λ r n, osr_size r + n) 0 ranges.

Definition range_covers (r : ObjectStreamRange) (b : DataBlock) : Prop :=
  osr_stream_id r = db_stream_id b ∧ osr_start_offset r <= db_start_offset b ∧
  db_end_offset b <= osr_end_offset r.

(** The range runs from the start of one block to the end of another. *)
Definition range_tight (bs : list DataBlock) (r : ObjectStreamRange) : Prop :=
  ∃ b1 b2, b1 ∈ bs ∧ b2 ∈ bs ∧ db_stream_id b1 = osr_stream_id r ∧ db_stream_id b2 = osr_stream_id r ∧
    osr_start_offset r = db_start_offset b1 ∧ osr_end_offset r = db_end_offset b2.

(** [ranges], newest first, summarises the blocks [bs]. *)
Definition summarises (bs : list DataBlock) (ranges : list ObjectStreamRange) : Prop :=
  StronglySorted (λ a b, osr_stream_id b < osr_stream_id a) ranges ∧
  (∀ b, b ∈ bs → ∃ r, r ∈ ranges ∧ range_covers r b) ∧
  (∀ r, r ∈ ranges → range_tight bs r ∧ 0 <= osr_size r) ∧ ranges_size ranges = blocks_size bs.

Lemma range_tight_app bs b r : range_tight bs r → range_tight (bs ++ [b]) r.
Proof.
  intros (b1 & b2 & H1 & H2 & H3). exists b1, b2. split_and!; [set_solver..|apply H3|apply H3|apply H3|apply H3].
Qed.

Lemma ranges_size_nonneg ranges : (∀ r, r ∈ ranges → 0 <= osr_size r) → 0 <= ranges_size ranges.
Proof.
  unfold ranges_size. induction ranges as [|r ranges IH]; intros H; [done|]. cbn [foldr].
  pose proof (H r ltac:(left)). specialize (IH ltac:(intros; apply H; by right)). lia.
Qed.

Lemma summarises_new bs b ranges :
  summarises bs ranges → (∀ r, r ∈ ranges → osr_stream_id r < db_stream_id b) →
  summarises (bs ++ [b]) ({| osr_stream_id := db_stream_id b; osr_epoch := db_epoch b;
    osr_start_offset := db_start_offset b; osr_end_offset := db_end_offset b;
    osr_size := db_size b |} :: ranges).
Proof.
  intros (H1 & H2 & H3 & H4) Hlt. split_and!.
  - constructor; [done|]. apply Forall_forall. intros r Hr. by apply Hlt.
  - intros b' [Hb| ->%list_elem_of_singleton]%elem_of_app.
    + destruct (H2 b' Hb) as (r & Hr & Hc). exists r. split; [by right|done].
    + eexists. split; [left|]. unfold range_covers. cbn. lia.
  - intros r [->|Hr]%elem_of_cons; [|split; [by apply range_tight_app, H3|by apply H3]].
    split; [exists b, b; cbn; set_solver|cbn; unfold db_size; lia].
  - cbn [ranges_size foldr osr_size]. fold (ranges_size ranges). rewrite H4, blocks_size_app. cbn. lia.
Qed.

Lemma summarises_extend bs b last older :
  blocks_sorted (bs ++ [b]) → blocks_size (bs ++ [b]) < two64 → summarises bs (last :: older) →
  osr_stream_id last = db_stream_id b →
  summarises (bs ++ [b]) ({| osr_stream_id := osr_stream_id last; osr_epoch := osr_epoch last;
    osr_start_offset := osr_start_offset last; osr_end_offset := db_end_offset b;
    osr_size := wrap_u64 (osr_size last + db_size b) |} :: older).
Proof.
  intros [[_ [_ Hx]]%StronglySorted_app_iff Hf] Hfit (H1 & H2 & H3 & H4) Es.
  rewrite Forall_forall in Hf. destruct (Hf b ltac:(set_solver)) as (_ & _ & Hbb & _).
  destruct (H3 last ltac:(left)) as [(b1 & b2 & T1 & T2 & T3 & T4 & T5 & T6) Hsz].
  assert (Hn : 0 <= ranges_size older) by (apply ranges_size_nonneg; intros r Hr; apply H3; by right).
  assert (0 <= db_size b) by (unfold db_size; lia).
  assert (Hw : wrap_u64 (osr_size last + db_size b) = osr_size last + db_size b).
  { rewrite blocks_size_app, <-H4 in Hfit. cbn [ranges_size blocks_size foldr] in Hfit.
    fold (ranges_size older) in Hfit. apply wrap_u64_id. int_lia. }
  pose proof (Hx b1 b T1 ltac:(by left)) as X1. pose proof (Hx b2 b T2 ltac:(by left)) as X2.
  destruct (Hf b1 ltac:(set_solver)) as (_ & _ & Hb1 & _). unfold db_before in X1, X2.
  apply StronglySorted_inv in H1 as [Hso Hall]. split_and!.
  - by constructor.
  - intros b' [Hb| ->%list_elem_of_singleton]%elem_of_app.
    + destruct (H2 b' Hb) as (r & [->|Hr]%elem_of_cons & Hc); [|exists r; split; [by right|done]].
      eexists. split; [left|]. unfold range_covers in *. cbn. lia.
    + eexists. split; [left|]. unfold range_covers. cbn. lia.
  - intros r [->|Hr]%elem_of_cons;
      [|split; [by apply range_tight_app, H3; right|by apply H3; right]].
    split; [exists b1, b; cbn; set_solver|cbn; rewrite Hw; lia].
  - rewrite blocks_size_app, <-H4. cbn [ranges_size blocks_size foldr osr_size].
    fold (ranges_size older). rewrite Hw. lia.
Qed.

Lemma blocks_sorted_prefix bs1 bs2 : blocks_sorted (bs1 ++ bs2) → blocks_sorted bs1.
Proof. intros [[S1 _]%StronglySorted_app_iff [F1 _]%Forall_app]. by split. Qed.

Lemma merge_ranges bs1 bs2 ranges :
  blocks_sorted (bs1 ++ bs2) → blocks_size (bs1 ++ bs2) < two64 → summarises bs1 ranges →
  summarises (bs1 ++ bs2) (foldl merge_range ranges bs2).
Proof.
  revert bs1 ranges. induction bs2 as [|b bs2 IH]; intros bs1 ranges Hs Hfit Hsum.
  { by rewrite app_nil_r. }
  cbn [foldl]. rewrite (app_assoc bs1 [b] bs2 : bs1 ++ b :: bs2 = _) in *.
  apply IH; [done|done|]. pose proof (blocks_sorted_prefix _ _ Hs) as Hs'.
  assert (Hfit' : blocks_size (bs1 ++ [b]) < two64).
  { rewrite (blocks_size_app _ bs2) in Hfit. pose proof (blocks_size_nonneg bs2). lia. }
  assert (Hle : ∀ r, r ∈ ranges → osr_stream_id r <= db_stream_id b).
  { intros r Hr. destruct Hsum as (_ & _ & Ht & _). destruct (Ht r Hr) as [(b1 & b2 & Hb1 & _ & E & _) _].
    destruct Hs' as [(_ & _ & Hx)%StronglySorted_app_iff _].
    specialize (Hx b1 b Hb1 ltac:(by left)). unfold db_before in Hx. lia. }
  destruct ranges as [|last older].
  { apply (summarises_new bs1 b []); [done|]. intros r ?%not_elem_of_nil. done. }
  cbn [merge_range]. destruct (Z.eqb_spec (osr_stream_id last) (db_stream_id b)) as [E|E].
  - by apply summarises_extend.
  - apply summarises_new; [done|]. intros r Hr. destruct Hsum as (H1 & _).
    apply StronglySorted_inv in H1 as [_ Hall]. rewrite Forall_forall in Hall.
    pose proof (Hle last ltac:(left)). apply elem_of_cons in Hr as [->|Hr]; [lia|].
    specialize (Hall r Hr). cbn in Hall. lia.
Qed.

Lemma StronglySorted_reverse {A} (R : relation A) l :
  StronglySorted R l → StronglySorted (λ a b, R b a) (reverse l).
Proof.
  induction 1 as [|a l Hs IH Hall]; [constructor|]. rewrite reverse_cons.
  apply StronglySorted_app_iff. split_and!; [done|repeat constructor|].
  intros x y Hx ->%list_elem_of_singleton. rewrite elem_of_reverse in Hx. rewrite Forall_forall in Hall.
  by apply Hall.
Qed.

Lemma ranges_size_reverse l : ranges_size (reverse l) = ranges_size l.
Proof.
  assert (Happ : ∀ a b, ranges_size (a ++ b) = ranges_size a + ranges_size b).
  { intros a b. unfold ranges_size. induction a as [|r a IH]; [done|]. cbn [app foldr]. rewrite IH. lia. }
  induction l as [|r l IH]; [done|]. rewrite reverse_cons, Happ, IH. cbn. fold (ranges_size l). lia.
Qed.

(** The stream ranges reported for a commit are exact: one range per stream
    in increasing stream order, each running from the start of a block of
    that stream to the end of one, covering every block of the stream, and
    the sizes add up to the data section of the object. *)
Theorem stream_ranges_exact {S W} `{ObjectStorageContract S W} (s s' : S) id bt pt options writes
    (w : ObjectWriter W) size :
  writes_ok writes → writes_ordered writes → object_cost writes < two32 →
  write_object s id bt pt options writes = (s', Ok (w, size)) →
  let ranges := stream_ranges w in
  StronglySorted (λ a b, osr_stream_id a < osr_stream_id b) ranges ∧
  (∀ b, b ∈ ow_completed_blocks w → ∃ r, r ∈ ranges ∧ range_covers r b) ∧
  (∀ r, r ∈ ranges → range_tight (ow_completed_blocks w) r) ∧
  ranges_size ranges = blocks_size (ow_completed_blocks w).
Proof.
  intros Hok Hord Hcost Hw ranges. pose proof (write_object_sorted _ _ _ _ _ _ _ _ _ Hok Hord Hw) as Hs.
  destruct (write_object_ok _ _ _ _ _ _ _ _ _ Hw) as (groups & Hbs & Ht & _).
  pose proof (blocks_cost _ _ Hbs) as Hc. unfold object_cost in Hcost. rewrite <-Ht in Hcost.
  destruct (merge_ranges [] (ow_completed_blocks w) [] Hs) as (H1 & H2 & H3 & H4).
  { cbn [app]. int_lia. }
  { split_and!; [constructor|intros b ?%not_elem_of_nil; done|intros r ?%not_elem_of_nil; done|done]. }
  cbn [app] in *. unfold ranges, stream_ranges. split_and!.
  - by apply StronglySorted_reverse.
  - intros b Hb. destruct (H2 b Hb) as (r & Hr & Hcov). exists r. by rewrite elem_of_reverse.
  - intros r. rewrite elem_of_reverse. intros Hr. by apply H3.
  - by rewrite ranges_size_reverse.
Qed.

Lemma stream_ranges_exact_witness :
  let ranges := stream_ranges demo_writer in
  StronglySorted (λ a b, osr_stream_id a < osr_stream_id b) ranges ∧
  (∀ b, b ∈ ow_completed_blocks demo_writer → ∃ r, r ∈ ranges ∧ range_covers r b) ∧
  (∀ r, r ∈ ranges → range_tight (ow_completed_blocks demo_writer) r) ∧
  ranges_size ranges = blocks_size (ow_completed_blocks demo_writer).
Proof.
  apply (stream_ranges_exact demo_store demo_session.1 255 1 0 default_write_options demo_writes
    demo_writer demo_size demo_writes_ok demo_writes_ordered); [|exact demo_session_ok].
  vm_compute. reflexivity.
Defined.
