(* ===== verification/Composite.v ===== *)
(** * Composite objects

    [s3stream-object/src/composite.rs]: one logical object that links the
    data blocks of component objects. It holds which component owns which
    block ordinals, the components' index entries, and a footer. *)

From Stdlib Require Import ZArith Lia.
From Stdlib Require Import Strings.Byte.
From stdpp Require Import base numbers list strings sets gmap sorting.
From S2P Require Import Prelude StreamTypes RecordCodec ObjectIndex ObjectStore ObjectIO.

Open Scope Z_scope.
Open Scope rust_scope.

Definition OBJECTS_BLOCK_MAGIC : Z := 0x52.
Definition OBJECT_BLOCK_HEADER_SIZE : nat := 5.
Definition OBJECT_UNIT_SIZE : nat := 14.
Definition COMPOSITE_FOOTER_MAGIC : Z := 0x88E241B785F4CFF8.

Record ObjectIndex := {
  ox_object_id : Z;
  ox_block_start_index : Z;
  ox_block_end_index : Z;
  ox_bucket_id : Z;
}.

(** ** The writer *)
Record CompositeObjectWriter := {
  cw_storage_key : string;
  cw_options : WriteOptions;
  cw_components : list (S3ObjectMetadata * list DataBlockIndex);
  cw_next_block_start_index : Z;
  cw_retained_size : Z;
  cw_cursor : option (Z * Z * Z);
}.

Definition composite_new (object_id : Z) (options : WriteOptions) : CompositeObjectWriter := {|
  cw_storage_key := gen_object_key object_id; cw_options := options; cw_components := [];
  cw_next_block_start_index := 0; cw_retained_size := 0; cw_cursor := None |}.

(** The continuity loop of [add_component]. The cursor it reaches is kept
    even when a later entry is refused. *)
Fixpoint advance_cursor (cursor : option (Z * Z * Z)) (entries : list DataBlockIndex) :
    option (Z * Z * Z) * result unit ObjectError :=
  match entries with
  | [] => (cursor, Ok tt)
  | e :: entries =>
      match cursor with
      | None =>
          advance_cursor (Some (bi_stream_id e, bi_end_offset e, bi_start_offset e)) entries
      | Some (sid, expect, first) =>
          if negb (sid =? bi_stream_id e) || negb (expect =? bi_start_offset e) then
            (cursor, Err (OrderingViolation
              (InvalidComponentIndex (bi_stream_id e) (bi_start_offset e) sid expect)))
          else advance_cursor (Some (sid, bi_end_offset e, first)) entries
      end
  end.

Definition entries_size (entries : list DataBlockIndex) : Z :=
  foldr (λ e n, bi_size e + n) 0 entries.

Definition add_component (c : CompositeObjectWriter) (component : S3ObjectMetadata)
    (entries : list DataBlockIndex) : CompositeObjectWriter * result unit ObjectError :=
  let '(cursor, r) := advance_cursor (cw_cursor c) entries in
  match r with
  | Err e =>
      ({| cw_storage_key := cw_storage_key c; cw_options := cw_options c;
          cw_components := cw_components c;
          cw_next_block_start_index := cw_next_block_start_index c;
          cw_retained_size := cw_retained_size c; cw_cursor := cursor |}, Err e)
  | Ok _ =>
      ({| cw_storage_key := cw_storage_key c; cw_options := cw_options c;
          cw_components := cw_components c ++ [(component, entries)];
          cw_next_block_start_index :=
            wrap_u32 (cw_next_block_start_index c + Z.of_nat (length entries));
          cw_retained_size := wrap_u64 (cw_retained_size c + entries_size entries);
          cw_cursor := cursor |}, Ok tt)
  end.

(** The objects block: one unit per component, with the ordinal of its first
    block. *)
Fixpoint object_units (block_start_index : Z)
    (components : list (S3ObjectMetadata * list DataBlockIndex)) : list byte :=
  match components with
  | [] => []
  | (metadata, entries) :: components =>
      put_u64 (om_object_id metadata) ++ put_u32 block_start_index ++
      put_i16 (attr_bucket_id (om_attributes metadata)) ++
      object_units (wrap_u32 (block_start_index + Z.of_nat (length entries))) components
  end.

Definition composite_bytes (components : list (S3ObjectMetadata * list DataBlockIndex)) :
    list byte :=
  let objects_block_size := (OBJECT_BLOCK_HEADER_SIZE + OBJECT_UNIT_SIZE * length components)%nat in
  let entries := concat components.*2 in
  let indexes_block_size := (BLOCK_INDEX_SIZE * length entries)%nat in
  put_u8 OBJECTS_BLOCK_MAGIC ++ put_u32 (Z.of_nat (length components)) ++
  object_units 0 components ++ index_encode entries ++
  put_u64 (Z.of_nat objects_block_size) ++ put_u32 (Z.of_nat indexes_block_size) ++
  replicate 28 x00 ++ put_u64 COMPOSITE_FOOTER_MAGIC.

Definition composite_close {S W} `{ObjectStorage S W} (s : S) (c : CompositeObjectWriter) :
    S * result Z ObjectError :=
  let buf := composite_bytes (cw_components c) in
  let '(s, r) := os_write s (cw_options c) (cw_storage_key c) buf in
  (s, let? _ := r in Ok (Z.of_nat (length buf))).

Definition stream_range (c : CompositeObjectWriter) : option (Z * Z * Z) :=
  match cw_cursor c with
  | Some (sid, next, first) => Some (sid, first, next)
  | None => None
  end.

(** ** The reader *)
Record CompositeObjectInfo := {
  ci_objects : list ObjectIndex;
  ci_index_block : list DataBlockIndex;
}.

Definition component_of (info : CompositeObjectInfo) (block_id : Z) :
    result ObjectIndex ObjectError :=
  match List.find (λ o, (ox_block_start_index o <=? block_id) && (block_id <? ox_block_end_index o))
          (ci_objects info) with
  | Some o => Ok o
  | None => Err (InvalidFormat (NoComponent block_id))
  end.

(** Units [i..count] of the objects block; a unit's end is the next unit's
    start, the last one's the number of entries. *)
Fixpoint parse_units (buf : list byte) (total_blocks : Z) (i remaining : nat) : list ObjectIndex :=
  match remaining with
  | O => []
  | S remaining =>
      let base := (OBJECT_BLOCK_HEADER_SIZE + i * OBJECT_UNIT_SIZE)%nat in
      {| ox_object_id := read_u64 buf base;
         ox_block_start_index := read_u32 buf (base + 8);
         ox_block_end_index :=
           match remaining with
           | O => total_blocks
           | S _ => read_u32 buf (base + OBJECT_UNIT_SIZE + 8)
           end;
         ox_bucket_id := wrap_i16 (be_val (slice buf (base + 12) 2)) |}
      :: parse_units buf total_blocks (S i) remaining
  end.

Definition parse_composite (buf : list byte) : result CompositeObjectInfo ObjectError :=
  let n := length buf in
  if (n <? FOOTER_SIZE + OBJECT_BLOCK_HEADER_SIZE)%nat then
    Err (InvalidFormat (CompositeTooSmall (Z.of_nat n)))
  else
    let magic := read_u64 buf (n - 8) in
    if negb (magic =? COMPOSITE_FOOTER_MAGIC) then
      Err (InvalidFormat (CompositeMagicMismatch magic))
    else
      let index_position := read_u64 buf (n - FOOTER_SIZE) in
      let index_size := read_u32 buf (n - 40) in
      if negb (wrap_u64 (index_position + index_size + Z.of_nat FOOTER_SIZE) =? Z.of_nat n) then
        Err (InvalidFormat (CompositeGeometry index_position index_size (Z.of_nat n)))
      else
        let? entries := index_parse (slice buf (Z.to_nat index_position) (Z.to_nat index_size)) in
        let total_blocks := wrap_u32 (Z.of_nat (length entries)) in
        let first := be_val (slice buf 0 1) in
        if negb (first =? OBJECTS_BLOCK_MAGIC) then
          Err (InvalidFormat (ObjectsMagicMismatch first))
        else
          let count := read_u32 buf 1 in
          if negb (Z.of_nat OBJECT_BLOCK_HEADER_SIZE + count * Z.of_nat OBJECT_UNIT_SIZE
                   =? index_position) then
            Err (InvalidFormat (ObjectsSizeMismatch count))
          else Ok {| ci_objects := parse_units buf total_blocks 0 (Z.to_nat count);
                     ci_index_block := entries |}.

Record CompositeObjectReader := {
  cr_metadata : S3ObjectMetadata;
  cr_read_options : ReadOptions;
  cr_info : option CompositeObjectInfo;
}.

Definition composite_reader_new (metadata : S3ObjectMetadata) : CompositeObjectReader := {|
  cr_metadata := metadata;
  cr_read_options := {| ro_throttle := Bypass;
    ro_bucket_id := Some (attr_bucket_id (om_attributes metadata)) |};
  cr_info := None |}.

Section CompositeReader.
Context {S W : Type} `{ObjectStorage S W}.

Definition composite_info (s : S) (r : CompositeObjectReader) :
    CompositeObjectReader * result CompositeObjectInfo ObjectError :=
  match cr_info r with
  | Some info => (r, Ok info)
  | None =>
      match (let? buf := range_read s (cr_read_options r) (om_key (cr_metadata r)) 0 None in
             parse_composite buf) with
      | Ok info => ({| cr_metadata := cr_metadata r; cr_read_options := cr_read_options r;
                       cr_info := Some info |}, Ok info)
      | Err e => (r, Err e)
      end
  end.

Definition composite_find (s : S) (r : CompositeObjectReader)
    (sid start_offset end_offset max_bytes : Z) :
    CompositeObjectReader * result FindIndexResult ObjectError :=
  let '(r, res) := composite_info s r in
  (r, let? info := res in Ok (find (ci_index_block info) sid start_offset end_offset max_bytes)).

(** [index.block_id as u32] *)
Definition composite_read_block (s : S) (r : CompositeObjectReader) (index : DataBlockIndex) :
    CompositeObjectReader * result (list byte) ObjectError :=
  let '(r, res) := composite_info s r in
  (r, let? info := res in
      let? component := component_of info (wrap_u32 (bi_block_id index)) in
      range_read s {| ro_throttle := Bypass; ro_bucket_id := Some (ox_bucket_id component) |}
        (gen_object_key (ox_object_id component)) (bi_start_position index)
        (Some (bi_end_position index))).

Definition delete_composite (s : S) (metadata : S3ObjectMetadata) : S * result unit ObjectError :=
  match (composite_info s (composite_reader_new metadata)).2 with
  | Err e => (s, Err e)
  | Ok info =>
      let component_paths := (λ o, {| op_bucket_id := ox_bucket_id o;
        op_key := gen_object_key (ox_object_id o) |}) <$> ci_objects info in
      let '(s, r) := os_delete s component_paths in
      match r with
      | Err e => (s, Err e)
      | Ok _ => os_delete s [{| op_bucket_id := attr_bucket_id (om_attributes metadata);
                                op_key := om_key metadata |}]
      end
  end.
End CompositeReader.

(** ** Composites read back *)
Definition Components : Type := list (S3ObjectMetadata * list DataBlockIndex).

Definition all_entries (cs : Components) : list DataBlockIndex := concat cs.*2.

Definition composite_ok (cs : Components) : Prop :=
  Forall (λ c, is_u64 (om_object_id c.1) ∧ Forall bi_typed c.2) cs ∧
  53 + 14 * Z.of_nat (length cs) + 36 * Z.of_nat (length (all_entries cs)) < two32.

(** The owners of block ordinals, counted from [start]. *)
Fixpoint owners (start : Z) (cs : Components) : list ObjectIndex :=
  match cs with
  | [] => []
  | (m, es) :: cs =>
      {| ox_object_id := om_object_id m; ox_block_start_index := start;
         ox_block_end_index := start + Z.of_nat (length es);
         ox_bucket_id := attr_bucket_id (om_attributes m) |}
      :: owners (start + Z.of_nat (length es)) cs
  end.

(** Entries as the reader numbers them. *)
Fixpoint renumber (i : Z) (es : list DataBlockIndex) : list DataBlockIndex :=
  match es with
  | [] => []
  | e :: es => with_block_id (wrap_i32 i) e :: renumber (i + 1) es
  end.

Lemma renumber_facts i es :
  numbered i (renumber i es) ∧ index_encode (renumber i es) = index_encode es ∧
  length (renumber i es) = length es ∧ (Forall bi_typed es → Forall bi_typed (renumber i es)).
Proof.
  revert i. induction es as [|e es IH]; intros i; [done|]. cbn [renumber numbered].
  destruct (IH (i + 1)) as (H1 & H2 & H3 & H4). split_and!; [done|done| |by cbn; rewrite H3|].
  - unfold index_encode in *. rewrite !fmap_cons. cbn [concat]. by rewrite H2.
  - intros [He Hes]%Forall_cons. constructor; auto.
Qed.

Lemma renumber_lookup i es k e :
  es !! k = Some e → renumber i es !! k = Some (with_block_id (wrap_i32 (i + Z.of_nat k)) e).
Proof.
  revert i k. induction es as [|e' es IH]; intros i [|k] He; [done|done| |]; cbn in He.
  - assert (e' = e) as -> by congruence. cbn. by rewrite Z.add_0_r.
  - cbn [renumber]. cbn. rewrite (IH (i + 1)) by done. do 3 f_equal. lia.
Qed.

Lemma length_object_units start cs : length (object_units start cs) = (14 * length cs)%nat.
Proof.
  revert start. induction cs as [|[m es] cs IH]; intros start; [done|]. cbn [object_units].
  rewrite !length_app, IH. put_lia.
Qed.

Lemma read_i16_at pre z post buf pos :
  buf = pre ++ put_i16 z ++ post → length pre = pos → is_i16 z →
  wrap_i16 (be_val (slice buf pos 2)) = z.
Proof.
  intros -> Hl Hz. rewrite slice_mid; [|done|done]. unfold put_i16.
  rewrite be_val_bytes. change (256 ^ Z.of_nat 2) with 65536. by apply wrap_i16_unsigned.
Qed.

Lemma bucket_i16 a : is_i16 (attr_bucket_id a).
Proof. apply wrap_i16_is_i16. Qed.

Lemma parse_units_ok buf pre post start i cs :
  buf = pre ++ object_units start cs ++ post → length pre = (5 + i * 14)%nat → 0 <= start →
  start + Z.of_nat (length (all_entries cs)) < two32 → Forall (λ c, is_u64 (om_object_id c.1)) cs →
  parse_units buf (start + Z.of_nat (length (all_entries cs))) i (length cs) = owners start cs.
Proof.
  revert pre start i. induction cs as [|[m es] cs IH]; intros pre start i Hbuf Hpre Hs Hlt Hid; [done|].
  apply Forall_cons in Hid as [Hm Hid]. cbn in Hm.
  assert (Hall : all_entries ((m, es) :: cs) = es ++ all_entries cs) by done.
  rewrite Hall in *. rewrite length_app in *. cbn [length parse_units owners].
  cbn [object_units] in Hbuf. rewrite wrap_u32_id in Hbuf by int_lia.
  change OBJECT_BLOCK_HEADER_SIZE with 5%nat. change OBJECT_UNIT_SIZE with 14%nat. f_equal.
  - assert (E1 : read_u64 buf (5 + i * 14) = om_object_id m)
      by (eapply (read_at_8 pre); [by rewrite Hbuf, <-!app_assoc|done|done]).
    assert (E2 : read_u32 buf (5 + i * 14 + 8) = start).
    { eapply (read_at_4 (pre ++ put_u64 (om_object_id m))); [by rewrite Hbuf, <-!app_assoc| |int_lia].
      put_lia. }
    assert (E3 : wrap_i16 (be_val (slice buf (5 + i * 14 + 12) 2)) = attr_bucket_id (om_attributes m)).
    { eapply (read_i16_at (pre ++ put_u64 (om_object_id m) ++ put_u32 start));
        [by rewrite Hbuf, <-!app_assoc| |apply bucket_i16]. put_lia. }
    rewrite E1, E2, E3. f_equal. destruct cs as [|[m2 es2] cs]; [cbn; lia|]. cbn [length].
    cbn [object_units] in Hbuf. eapply (read_at_4 (pre ++ put_u64 (om_object_id m) ++ put_u32 start ++
      put_i16 (attr_bucket_id (om_attributes m)) ++ put_u64 (om_object_id m2)));
      [by rewrite Hbuf, <-!app_assoc| |int_lia]. put_lia.
  - replace (start + Z.of_nat (length es + length (all_entries cs))) with
      (start + Z.of_nat (length es) + Z.of_nat (length (all_entries cs))) by lia.
    eapply (IH (pre ++ put_u64 (om_object_id m) ++ put_u32 start ++
      put_i16 (attr_bucket_id (om_attributes m)))); [by rewrite Hbuf, <-!app_assoc| |lia|lia|done].
    put_lia.
Qed.

Lemma parse_composite_bytes cs :
  composite_ok cs →
  parse_composite (composite_bytes cs) =
  Ok {| ci_objects := owners 0 cs; ci_index_block := renumber 0 (all_entries cs) |}.
Proof.
  intros [Hok Hsize]. set (es := all_entries cs) in *.
  set (osz := Z.of_nat (5 + 14 * length cs)). set (isz := Z.of_nat (36 * length es)).
  set (head := put_u8 OBJECTS_BLOCK_MAGIC ++ put_u32 (Z.of_nat (length cs)) ++ object_units 0 cs).
  set (foot := put_u64 osz ++ put_u32 isz ++ replicate 28 x00 ++ put_u64 COMPOSITE_FOOTER_MAGIC).
  assert (Hbuf : composite_bytes cs = head ++ index_encode es ++ foot)
    by (unfold composite_bytes, head, foot; by rewrite <-!app_assoc).
  assert (Hh : length head = (5 + 14 * length cs)%nat)
    by (unfold head; rewrite !length_app, length_object_units; put_lia).
  assert (Hi : length (index_encode es) = (36 * length es)%nat) by apply length_index_encode.
  assert (Hf : length foot = 48%nat) by done.
  set (buf := composite_bytes cs) in *. assert (Hn : length buf = (length head + 36 * length es + 48)%nat)
    by (rewrite Hbuf, !length_app; lia).
  unfold parse_composite. change FOOTER_SIZE with 48%nat. change OBJECT_BLOCK_HEADER_SIZE with 5%nat.
  change OBJECT_UNIT_SIZE with 14%nat. rewrite (proj2 (Nat.ltb_ge (length buf) (48 + 5))) by lia.
  assert (Hm : read_u64 buf (length buf - 8) = COMPOSITE_FOOTER_MAGIC).
  { eapply (read_at_8 (head ++ index_encode es ++ put_u64 osz ++ put_u32 isz ++ replicate 28 x00) _ []);
      [rewrite Hbuf; unfold foot; by rewrite app_nil_r, <-!app_assoc|put_lia|done]. }
  assert (Hp : read_u64 buf (length buf - 48) = osz).
  { eapply (read_at_8 (head ++ index_encode es));
      [rewrite Hbuf; unfold foot; by rewrite <-!app_assoc|put_lia|unfold osz; int_lia]. }
  assert (Hz : read_u32 buf (length buf - 40) = isz).
  { eapply (read_at_4 (head ++ index_encode es ++ put_u64 osz));
      [rewrite Hbuf; unfold foot; by rewrite <-!app_assoc|put_lia|unfold isz; int_lia]. }
  assert (Hc : read_u32 buf 1 = Z.of_nat (length cs)).
  { eapply (read_at_4 (put_u8 OBJECTS_BLOCK_MAGIC));
      [rewrite Hbuf; unfold head; by rewrite <-!app_assoc|done|int_lia]. }
  rewrite Hm, Hp, Hz, Hc, Z.eqb_refl. cbn [negb].
  rewrite wrap_u64_id by (unfold osz, isz; int_lia).
  rewrite (proj2 (Z.eqb_eq _ (Z.of_nat (length buf)))) by (unfold osz, isz; lia). cbn [negb].
  replace (slice buf (Z.to_nat osz) (Z.to_nat isz)) with (index_encode es)
    by (rewrite Hbuf; symmetry; apply slice_mid; unfold osz, isz; lia).
  destruct (renumber_facts 0 es) as (R1 & R2 & R3 & R4).
  assert (Ht : Forall bi_typed es).
  { unfold es, all_entries. clear -Hok. induction Hok as [|[m e] cs [_ He] _ IH]; [done|].
    rewrite fmap_cons. cbn [concat]. by apply Forall_app. }
  rewrite (proj2 (index_parse_iff (index_encode es) (renumber 0 es))) by auto. cbn [rbind].
  replace (be_val (slice buf 0 1)) with OBJECTS_BLOCK_MAGIC by (by rewrite Hbuf).
  rewrite Z.eqb_refl. cbn [negb]. rewrite (proj2 (Z.eqb_eq _ osz)) by (unfold osz; lia). cbn [negb].
  rewrite R3, Nat2Z.id, wrap_u32_id by int_lia. do 2 f_equal.
  apply (parse_units_ok buf (put_u8 OBJECTS_BLOCK_MAGIC ++ put_u32 (Z.of_nat (length cs)))
    (index_encode es ++ foot) 0 0 cs); [|done|done|unfold es in *; lia|].
  - rewrite Hbuf. unfold head. by rewrite <-!app_assoc.
  - eapply Forall_impl; [exact Hok|]. by intros c [? _].
Qed.

(** The first owner whose interval holds the ordinal is the right one. *)
Lemma owners_find start pre m es suf k :
  start + Z.of_nat (length (all_entries pre)) <= k <
    start + Z.of_nat (length (all_entries pre)) + Z.of_nat (length es) →
  List.find (λ o, (ox_block_start_index o <=? k) && (k <? ox_block_end_index o))
    (owners start (pre ++ (m, es) :: suf)) =
  Some {| ox_object_id := om_object_id m;
          ox_block_start_index := start + Z.of_nat (length (all_entries pre));
          ox_block_end_index := start + Z.of_nat (length (all_entries pre)) + Z.of_nat (length es);
          ox_bucket_id := attr_bucket_id (om_attributes m) |}.
Proof.
  revert start. induction pre as [|[m' es'] pre IH]; intros start Hk.
  - cbn [app owners List.find ox_block_start_index ox_block_end_index]. unfold all_entries in *.
    cbn [fmap list_fmap concat length] in *. rewrite Z.add_0_r in *.
    rewrite (proj2 (Z.leb_le start k)), (proj2 (Z.ltb_lt k _)) by lia. done.
  - assert (Hall : all_entries ((m', es') :: pre) = es' ++ all_entries pre) by done.
    rewrite Hall, length_app, Nat2Z.inj_add in *. rewrite Z.add_assoc in *.
    cbn [app owners List.find ox_block_start_index ox_block_end_index].
    rewrite (proj2 (Z.ltb_ge k (start + Z.of_nat (length es')))), andb_false_r by lia.
    apply (IH (start + Z.of_nat (length es'))). lia.
Qed.

(** A composite object resolves every linked block to its owner: after a
    successful close, a reader parses the components' entries numbered in
    order, and reading the entry that came from a component issues exactly
    the ranged read of that component's object, in its bucket, at the
    entry's own position. *)
Theorem composite_reads_components {S W} `{ObjectStorageContract S W} (s s' : S) c size md :
  composite_close s c = (s', Ok size) → available s' → composite_ok (cw_components c) →
  om_key md = cw_storage_key c →
  ∃ r info, composite_info s' (composite_reader_new md) = (r, Ok info) ∧
    ci_index_block info = renumber 0 (all_entries (cw_components c)) ∧
    ∀ pre m es suf j e, cw_components c = pre ++ (m, es) :: suf → es !! j = Some e →
      ∃ e', ci_index_block info !! (length (all_entries pre) + j)%nat = Some e' ∧
        (composite_read_block s' r e').2 =
        range_read s' {| ro_throttle := Bypass; ro_bucket_id := Some (attr_bucket_id (om_attributes m)) |}
          (gen_object_key (om_object_id m)) (bi_start_position e) (Some (bi_end_position e)).
Proof.
  intros Hc Hav Hok Hkey. unfold composite_close in Hc.
  destruct (os_write s _ _ _) as [s1 [b|e]] eqn:Hw; [|cbn in Hc; congruence].
  assert (s' = s1) as -> by (cbn in Hc; congruence). apply write_durable in Hw as [Hobj _].
  rewrite <-Hkey in Hobj. set (buf := composite_bytes (cw_components c)) in *.
  assert (Hbr : byte_range buf 0 (Z.of_nat (length buf)) = buf).
  { unfold byte_range, slice. rewrite Z.sub_0_r, Nat2Z.id. by apply take_ge. }
  unfold composite_info at 1. cbn [cr_info composite_reader_new cr_metadata].
  rewrite (range_read_to_end _ _ _ _ buf) by (done || lia). rewrite Hbr. cbn [rbind].
  unfold buf. rewrite parse_composite_bytes by done. eexists _, _. split; [reflexivity|].
  cbn [ci_index_block]. split; [done|]. intros pre m es suf j e Hcs He.
  assert (Hl : (length (all_entries pre) + j < length (all_entries (cw_components c)))%nat).
  { apply lookup_lt_Some in He. rewrite Hcs. unfold all_entries. rewrite fmap_app, concat_app, length_app.
    rewrite fmap_cons. cbn [concat]. rewrite length_app. cbn. lia. }
  destruct Hok as [_ Hsize]. eexists. split.
  - apply renumber_lookup. rewrite Hcs. unfold all_entries. rewrite fmap_app, concat_app.
    rewrite lookup_app_r by lia. rewrite fmap_cons. cbn [concat snd].
    replace (length (concat pre.*2) + j - length (concat pre.*2))%nat with j by lia.
    apply lookup_app_l_Some. exact He.
  - unfold composite_read_block, composite_info, component_of. cbn [cr_info ci_objects rbind snd with_block_id bi_block_id].
    unfold wrap_u32. rewrite wrap_i32_mod, Z.mod_small by int_lia. rewrite Hcs, owners_find; [done|].
    apply lookup_lt_Some in He. lia.
Qed.

Definition demo_entry (start delta : Z) : DataBlockIndex := {|
  bi_block_id := -1; bi_stream_id := 7; bi_start_offset := start; bi_end_offset_delta := delta;
  bi_record_count := 1; bi_start_position := 0; bi_size := 44 |}.
Definition demo_component (id : Z) : S3ObjectMetadata := {|
  om_object_id := id; om_object_type := StreamObj; om_offset_ranges := [];
  om_object_size := 128; om_attributes := attributes_new 3 false false;
  om_committed_timestamp_ms := 0; om_data_timestamp_ms := 0 |}.
Definition demo_links : list (S3ObjectMetadata * list DataBlockIndex) :=
  [(demo_component 10, [demo_entry 0 5; demo_entry 5 5]); (demo_component 11, [demo_entry 10 2])].

(** Adding components one after another. *)
Fixpoint add_all (c : CompositeObjectWriter) (cs : list (S3ObjectMetadata * list DataBlockIndex)) :
    CompositeObjectWriter * result unit ObjectError :=
  match cs with
  | [] => (c, Ok tt)
  | (m, es) :: cs =>
      let '(c, r) := add_component c m es in
      match r with
      | Err e => (c, Err e)
      | Ok _ => add_all c cs
      end
  end.

Definition demo_composite : CompositeObjectWriter :=
  (add_all (composite_new 20 default_write_options) demo_links).1.

Lemma composite_reads_components_witness :
  let s' := (composite_close demo_store demo_composite).1 in
  ∃ r info, composite_info s' (composite_reader_new (demo_component 20)) = (r, Ok info) ∧
    ci_index_block info = renumber 0 (all_entries (cw_components demo_composite)) ∧
    ∀ pre m es suf j e, cw_components demo_composite = pre ++ (m, es) :: suf → es !! j = Some e →
      ∃ e', ci_index_block info !! (length (all_entries pre) + j)%nat = Some e' ∧
        (composite_read_block s' r e').2 =
        range_read s' {| ro_throttle := Bypass; ro_bucket_id := Some (attr_bucket_id (om_attributes m)) |}
          (gen_object_key (om_object_id m)) (bi_start_position e) (Some (bi_end_position e)).
Proof.
  intros s'. apply (composite_reads_components demo_store s' demo_composite 189 (demo_component 20));
    [reflexivity|done| |reflexivity].
  split; [|reflexivity]. repeat constructor; cbn; int_lia.
Defined.

(** ** Components are contiguous *)

(** The cursor after a run of entries. *)
Definition cursor_run (cursor : option (Z * Z * Z)) (es : list DataBlockIndex) : Prop :=
  match cursor with
  | None => es = []
  | Some (sid, next, first) => es ≠ [] ∧ contiguous_run sid first es next
  end.

Lemma contiguous_run_snoc sid o es next e :
  contiguous_run sid o es next → bi_stream_id e = sid → bi_start_offset e = next →
  next < bi_end_offset e → contiguous_run sid o (es ++ [e]) (bi_end_offset e).
Proof.
  revert o. induction es as [|e' es IH]; intros o; cbn [app contiguous_run].
  - intros -> ? ? ?. done.
  - intros (? & ? & ? & Hr) ? ? ?. split_and!; auto.
Qed.

Lemma advance_cursor_run cursor done es cursor' :
  cursor_run cursor done → Forall (λ e, bi_start_offset e < bi_end_offset e) es →
  advance_cursor cursor es = (cursor', Ok tt) → cursor_run cursor' (done ++ es).
Proof.
  intros Hc Hf. revert cursor done Hc. induction Hf as [|e es He Hf IH]; intros cursor done Hc Ha.
  { cbn in Ha. rewrite app_nil_r. congruence. }
  rewrite (app_assoc done [e] es : done ++ e :: es = _). cbn [advance_cursor] in Ha.
  destruct cursor as [[[sid next] first]|].
  - destruct (negb _ || negb _) eqn:E; [congruence|]. apply orb_false_iff in E as [E1 E2].
    apply negb_false_iff, Z.eqb_eq in E1. apply negb_false_iff, Z.eqb_eq in E2.
    eapply IH; [|exact Ha]. destruct Hc as [Hne Hr]. split; [by destruct done|].
    apply (contiguous_run_snoc sid first done next); [done|done|done|lia].
  - cbn in Hc. subst done. eapply IH; [|exact Ha]. cbn. done.
Qed.

Lemma add_all_run cs c c' done :
  cursor_run (cw_cursor c) done → all_entries (cw_components c) = done →
  Forall (λ e, bi_start_offset e < bi_end_offset e) (all_entries cs) →
  add_all c cs = (c', Ok tt) →
  cursor_run (cw_cursor c') (done ++ all_entries cs) ∧
  cw_components c' = cw_components c ++ cs.
Proof.
  revert c done. induction cs as [|[m es] cs IH]; intros c done Hr Hd Hf Ha.
  { cbn in Ha. assert (c' = c) as -> by congruence. unfold all_entries. cbn. by rewrite !app_nil_r. }
  cbn [add_all] in Ha. unfold add_component in Ha.
  assert (Hall : all_entries ((m, es) :: cs) = es ++ all_entries cs) by done. rewrite Hall in *.
  apply Forall_app in Hf as [Hf1 Hf2].
  destruct (advance_cursor (cw_cursor c) es) as [cursor [[]|e]] eqn:E; [|congruence].
  pose proof (advance_cursor_run _ _ _ _ Hr Hf1 E) as Hr'.
  eapply IH in Ha as [H1 H2]; [|exact Hr'| |done].
  - rewrite app_assoc. split; [done|]. rewrite H2. cbn. by rewrite <-app_assoc.
  - cbn [cw_components]. unfold all_entries in *. rewrite fmap_app, concat_app, Hd. cbn. by rewrite app_nil_r.
Qed.

Lemma contiguous_sorted sid o es next :
  contiguous_run sid o es next → index_sorted es ∧ o <= next ∧
  Forall (λ e, bi_stream_id e = sid ∧ o <= bi_start_offset e) es.
Proof.
  revert o. induction es as [|e es IH]; intros o Hr; cbn [contiguous_run] in Hr.
  { subst. split_and!; [by repeat constructor|lia|constructor]. }
  destruct Hr as (H1 & H2 & H3 & Hr). destruct (IH _ Hr) as ([S1 S2] & H4 & H5). split_and!.
  - split; constructor; [done| |lia|done]. eapply Forall_impl; [exact H5|].
    intros e' [? ?]. unfold bi_before. lia.
  - lia.
  - constructor; [split; [done|lia]|]. eapply Forall_impl; [exact H5|]. cbn. intros e' [? ?]. lia.
Qed.

(** Components accepted by a composite writer form one run of one stream
    without gaps: the reported stream range is exactly what they cover, and
    the linked index is sorted, so lookups in it are exact. A component that
    leaves a gap, overlaps or belongs to another stream is refused. *)
Theorem composite_is_contiguous object_id options cs c :
  Forall (λ e, bi_start_offset e < bi_end_offset e) (all_entries cs) →
  add_all (composite_new object_id options) cs = (c, Ok tt) →
  cw_components c = cs ∧ index_sorted (all_entries cs) ∧
  match stream_range c with
  | None => all_entries cs = []
  | Some (sid, first, next) => all_entries cs ≠ [] ∧ contiguous_run sid first (all_entries cs) next
  end.
Proof.
  intros Hf Ha. destruct (add_all_run cs (composite_new object_id options) c [] eq_refl eq_refl Hf Ha) as [Hr Hc]. cbn in Hr, Hc.
  split; [done|]. unfold stream_range. destruct (cw_cursor c) as [[[sid next] first]|]; cbn in Hr.
  - destruct Hr as [Hne Hr]. split; [by eapply contiguous_sorted|done].
  - rewrite Hr. split; [by repeat constructor|done].
Qed.

Lemma composite_is_contiguous_witness :
  cw_components demo_composite = demo_links ∧ index_sorted (all_entries demo_links) ∧
  match stream_range demo_composite with
  | None => all_entries demo_links = []
  | Some (sid, first, next) =>
      all_entries demo_links ≠ [] ∧ contiguous_run sid first (all_entries demo_links) next
  end.
Proof.
  apply (composite_is_contiguous 20 default_write_options); [|reflexivity].
  repeat constructor; reflexivity.
Defined.
