(* ===== verification/MetaService.v ===== *)
(** * The metadata service: views, sinks, managers and the cleaner

    [pico-metadata]: the published read views (view.rs), the write boundary
    where commands enter the log (sink.rs), the engine-facing managers
    (manager.rs) and the background cleaner of destroyed objects
    (lifecycle.rs). A sink is an interface with a contract; the in-process
    sink is an instance, and the managers and the cleaner are verified
    against the contract, with commands of other nodes interleaved. *)

From Stdlib Require Import ZArith Lia.
From Stdlib Require Import Strings.Byte.
From stdpp Require Import base numbers list sorting gmap strings.
From S2P Require Import Prelude StreamTypes RecordCodec ObjectIndex ObjectStore.
From S2P Require Import MetaState MetaApply MetaInv MetaHistory MetaEffects MetaPolicy MetaQuery.

Open Scope Z_scope.
Open Scope rust_scope.

(** ** Views *)
Record MetadataView := {
  mv_applied_index : Z;
  mv_state : MetadataState;
}.

(** [vp_current] is the swapped pointer, [vp_notify] the watch channel. *)
Record ViewPublisher := {
  vp_current : MetadataView;
  vp_notify : Z;
}.

Definition with_view (view : MetadataView) : ViewPublisher :=
  {| vp_current := view; vp_notify := mv_applied_index view |}.
Definition publisher_new : ViewPublisher :=
  with_view {| mv_applied_index := 0; mv_state := new_state |}.

Definition load (p : ViewPublisher) : MetadataView := vp_current p.

(** The two statements of [publish]: the view is stored, then waiters are
    woken. A reader may run between them. *)
Definition store_view (p : ViewPublisher) (view : MetadataView) : ViewPublisher :=
  {| vp_current := view; vp_notify := vp_notify p |}.
Definition send_replace (p : ViewPublisher) (index : Z) : ViewPublisher :=
  {| vp_current := vp_current p; vp_notify := index |}.
Definition publish (p : ViewPublisher) (view : MetadataView) : ViewPublisher :=
  send_replace (store_view p view) (mv_applied_index view).

(** [wait_applied]: pending until the announced index reaches [index]. *)
Definition wait_applied (p : ViewPublisher) (index : Z) : option MetadataView :=
  if index <=? vp_notify p then Some (load p) else None.

(** ** Sinks *)
Record Proposed := {
  pr_applied_index : Z;
  pr_result : MetadataResult;
}.

Class CommandSink (S : Type) := {
  propose : S → MetadataCommand → S * result Proposed MetadataError;
  sink_views : S → ViewPublisher;
}.

Definition sink_state {S} `{CommandSink S} (s : S) : MetadataState := mv_state (load (sink_views s)).

(** The contract of the trait. A proposal that succeeds was applied, after
    and before commands of others, and its effect is in the published view; a
    proposal that fails leaves a view produced by commands, and it reports
    [Redundant] only if the command was found already applied. *)
Class CommandSinkContract (S : Type) `{CommandSink S} := {
  sink_ok : S → Prop;
  propose_keeps s c : sink_ok s → sink_ok (propose s c).1;
  propose_applied s c s' p :
    sink_ok s → propose s c = (s', Ok p) →
    ∃ before st after, apply (replay (sink_state s) before) c = (st, Ok (pr_result p)) ∧
      sink_state s' = replay st after ∧
      pr_applied_index p <= mv_applied_index (load (sink_views s'));
  propose_failed s c s' e :
    sink_ok s → propose s c = (s', Err e) →
    ∃ log, sink_state s' = replay (sink_state s) log;
  propose_redundant s c s' e :
    sink_ok s → propose s c = (s', Err e) → is_redundant e = true →
    ∃ before, (apply (replay (sink_state s) before) c).2 = Err e;
}.

(** The in-process sink. *)
Record LocalSink := {
  ls_state : MetadataState;
  ls_applied_index : Z;
  ls_views : ViewPublisher;
}.

Definition local_with_state (st : MetadataState) (applied_index : Z) : LocalSink := {|
  ls_state := st; ls_applied_index := applied_index;
  ls_views := with_view {| mv_applied_index := applied_index; mv_state := st |} |}.
Definition local_new : LocalSink := local_with_state new_state 0.

Definition local_propose (s : LocalSink) (command : MetadataCommand) :
    LocalSink * result Proposed MetadataError :=
  match apply (ls_state s) command with
  | (st, Err e) => ({| ls_state := st; ls_applied_index := ls_applied_index s;
                       ls_views := ls_views s |}, Err e)
  | (st, Ok r) =>
      let index := wrap_u64 (ls_applied_index s + 1) in
      ({| ls_state := st; ls_applied_index := index;
          ls_views := publish (ls_views s) {| mv_applied_index := index; mv_state := st |} |},
       Ok {| pr_applied_index := index; pr_result := r |})
  end.

#[export] Instance local_sink : CommandSink LocalSink := {|
  propose := local_propose; sink_views := ls_views |}.

(** ** Managers *)
Record MetadataNodeHandle := {
  nh_node_id : Z;
  nh_node_epoch : Z;
}.

Section Managers.
Context {S : Type} `{CommandSink S}.
Implicit Types (s : S) (h : MetadataNodeHandle).

(** [self.sink.propose(..).await?; Ok(())] *)
Definition propose_unit (s : S) (c : MetadataCommand) : S * result unit MetadataError :=
  let '(s, r) := propose s c in (s, let? _ := r in Ok tt).

(** [Ok(_) => Ok(()), Err(e) if e.is_redundant() => Ok(()), Err(e) => Err(e)] *)
Definition redundant_is_success {A} (r : result A MetadataError) : result unit MetadataError :=
  match r with
  | Ok _ => Ok tt
  | Err e => if is_redundant e then Ok tt else Err e
  end.

Definition handle_register (s : S) (h : MetadataNodeHandle) (http_address : string) :=
  propose_unit s (RegisterNode (nh_node_id h) (nh_node_epoch h) http_address 1).
Definition register_with_slots (s : S) (h : MetadataNodeHandle) (http_address : string) (slots : Z) :=
  propose_unit s (RegisterNode (nh_node_id h) (nh_node_epoch h) http_address slots).
Definition update_node_slots (s : S) (node_id node_epoch slots : Z) :=
  propose_unit s (RegisterNode node_id node_epoch EmptyString slots).
Definition propose_transfer (s : S) (stream_id from_node to_node : Z) :=
  propose_unit s (TransferStream stream_id from_node to_node).
Definition handle_complete_transfer (s : S) (stream_id epoch : Z) : S * result unit MetadataError :=
  let '(s, r) := propose s (CompleteTransfer stream_id epoch) in (s, redundant_is_success r).
Definition handle_close_stream (s : S) (h : MetadataNodeHandle) (stream_id epoch : Z) :=
  propose_unit s (CloseStream (nh_node_id h) (nh_node_epoch h) stream_id epoch).

(** [MetadataNodeHandle::propose] *)
Definition handle_propose (s : S) (c : MetadataCommand) : S * result MetadataResult StreamError :=
  let '(s, r) := propose s c in
  (s, let? p := map_err to_stream_error r in Ok (pr_result p)).

Definition unexpected_result (r : MetadataResult) : StreamError := SE_UnexpectedResult r.

Definition expect_id (r : MetadataResult) : result Z StreamError :=
  match r with RId id => Ok id | other => Err (unexpected_result other) end.

Definition then_result {A} (p : S * result MetadataResult StreamError)
    (k : MetadataResult → result A StreamError) : S * result A StreamError :=
  (p.1, let? r := p.2 in k r).

(** [StreamManagerTrait] *)
Definition sm_get_opening_streams (s : S) (h : MetadataNodeHandle) : list StreamMetadata :=
  get_opening_streams (sink_state s) (nh_node_id h).
Definition sm_get_streams (s : S) (stream_ids : list Z) : list StreamMetadata :=
  get_streams (sink_state s) stream_ids.
Definition sm_create_stream (s : S) (h : MetadataNodeHandle) : S * result Z StreamError :=
  then_result (handle_propose s (CreateStream (nh_node_id h) (nh_node_epoch h))) expect_id.
Definition sm_open_stream (s : S) (h : MetadataNodeHandle) (stream_id epoch : Z) :
    S * result StreamMetadata StreamError :=
  then_result (handle_propose s
    (OpenStream (nh_node_id h) (nh_node_epoch h) stream_id (wrap_i64 epoch)))
    (λ r, match r with RStream m => Ok m | other => Err (unexpected_result other) end).
Definition sm_trim_stream (s : S) (h : MetadataNodeHandle) (stream_id epoch new_start_offset : Z) :
    S * result unit StreamError :=
  then_result (handle_propose s (TrimStream (nh_node_id h) (nh_node_epoch h) stream_id
    (wrap_i64 epoch) new_start_offset)) (λ _, Ok tt).
Definition sm_close_stream (s : S) (h : MetadataNodeHandle) (stream_id epoch : Z) :
    S * result unit StreamError :=
  then_result (handle_propose s (CloseStream (nh_node_id h) (nh_node_epoch h) stream_id
    (wrap_i64 epoch))) (λ _, Ok tt).
Definition sm_delete_stream (s : S) (h : MetadataNodeHandle) (stream_id epoch : Z) :
    S * result unit StreamError :=
  then_result (handle_propose s (DeleteStream (nh_node_id h) (nh_node_epoch h) stream_id
    (wrap_i64 epoch))) (λ _, Ok tt).

(** [ObjectManagerTrait]; [now_ms] is the wall clock read at the call. *)
Definition obj_prepare_object (s : S) (h : MetadataNodeHandle) (now_ms count ttl_ms : Z) :
    S * result Z StreamError :=
  then_result (handle_propose s (PrepareObject (nh_node_id h) (nh_node_epoch h) (wrap_u32 count)
    (wrap_i64 ttl_ms) now_ms)) expect_id.
Definition obj_commit_stream_set_object (s : S) (h : MetadataNodeHandle) (now_ms : Z)
    (request : CommitStreamSetObjectRequest) : S * result unit StreamError :=
  let '(s, r) := propose s (CommitStreamSetObject (nh_node_id h) (nh_node_epoch h) request now_ms) in
  (s, map_err to_stream_error (redundant_is_success r)).
Definition obj_compact_stream_object (s : S) (h : MetadataNodeHandle) (now_ms : Z)
    (request : CompactStreamObjectRequest) : S * result unit StreamError :=
  let '(s, r) := propose s (CompactStreamObject (nh_node_id h) (nh_node_epoch h) request now_ms) in
  (s, map_err to_stream_error (redundant_is_success r)).
Definition obj_get_objects (s : S) (stream_id start_offset end_offset limit : Z) :=
  get_objects (sink_state s) stream_id start_offset end_offset limit.
Definition obj_get_server_objects (s : S) (h : MetadataNodeHandle) :=
  get_server_objects (sink_state s) (nh_node_id h).
Definition obj_get_stream_objects (s : S) (stream_id start_offset end_offset limit : Z) :=
  get_stream_objects (sink_state s) stream_id start_offset end_offset limit.
Definition obj_is_object_exist (s : S) (object_id : Z) : bool :=
  is_object_exist (sink_state s) object_id.

(** [KVClient] *)
Definition expect_value (r : MetadataResult) : result (list byte) StreamError :=
  match r with RValue (Some v) => Ok v | other => Err (unexpected_result other) end.
Definition kv_put_if_absent (s : S) (key : string) (value : list byte) :
    S * result (list byte) StreamError :=
  then_result (handle_propose s (PutKvIfAbsent key value)) expect_value.
Definition kv_put (s : S) (key : string) (value : list byte) : S * result (list byte) StreamError :=
  then_result (handle_propose s (PutKv key value)) expect_value.
Definition kv_get (s : S) (key : string) : option (list byte) := get_kv (sink_state s) key.
Definition kv_del (s : S) (key : string) : S * result (option (list byte)) StreamError :=
  then_result (handle_propose s (DeleteKv key))
    (λ r, match r with RValue v => Ok v | other => Err (unexpected_result other) end).
Definition kv_list (s : S) (pre : string) : list (string * list byte) :=
  list_kv (sink_state s) pre.
End Managers.

(** ** The cleaner *)
Definition MAX_DELETE_BATCH_COUNT : Z := 2000.

Inductive CleanError :=
| CleanStorage (e : ObjectError)
| CleanMetadata (e : MetadataError)
| CleanTimeout.

Definition is_keep_data (op : CompactOperations) : bool := bool_decide (op = OpKeepData).

(** [self.sink.propose(CleanDestroyedObjects { .. })] under its timeout. *)
Definition propose_clean {S} `{CommandSink S} (timer : option bool) (s : S) (cleaned : list Z) :
    S * result (list Z) CleanError :=
  let c := CleanDestroyedObjects cleaned in
  match timer with
  | Some committed => (if committed then (propose s c).1 else s, Err CleanTimeout)
  | None =>
      let '(s, r) := propose s c in (s, let? _ := map_err CleanMetadata r in Ok cleaned)
  end.

(** [ObjectCleaner::clean] with an optional storage. A timer that fires first
    abandons its step half-way: [delete_timer = Some k] after [k] objects
    were deleted, [propose_timer = Some b] with the command committed or
    not. *)
Definition clean {S T W} `{CommandSink S, ObjectStorage T W}
    (delete_timer : option nat) (propose_timer : option bool)
    (s : S) (storage : option T) (limit : Z) : S * option T * result (list Z) CleanError :=
  let batch := Z.min limit MAX_DELETE_BATCH_COUNT in
  let marked := peek_destroyed_objects (sink_state s) batch in
  match marked with
  | [] => (s, storage, Ok [])
  | _ =>
      let deletable := (filter (λ e : Z * CompactOperations, is_keep_data e.2 = false) marked).*1 in
      let catalog_only := (filter (λ e : Z * CompactOperations, is_keep_data e.2 = true) marked).*1 in
      let finish storage cleaned :=
        match cleaned with
        | [] => (s, storage, Ok [])
        | _ => let '(s, r) := propose_clean propose_timer s cleaned in (s, storage, r)
        end in
      match deletable, storage with
      | [], _ | _, None => finish storage catalog_only
      | _, Some store =>
          let paths := (λ id, {| op_bucket_id := os_bucket_id store;
                                 op_key := gen_object_key id |}) <$> deletable in
          match delete_timer with
          | Some k => (s, Some (os_delete store (take k paths)).1, Err CleanTimeout)
          | None =>
              let '(store, r) := os_delete store paths in
              match r with
              | Err e => (s, Some store, Err (CleanStorage e))
              | Ok _ => finish (Some store) (catalog_only ++ deletable)
              end
          end
      end
  end.

(** ** Leadership *)

(** The spawned loops and the leader flag of [MetadataLifecycle]. *)
Inductive LoopTask := ExpireLoop | CleanLoop.
Record MetadataLifecycle := {
  lc_leader : bool;
  lc_loops : list LoopTask;
}.

Definition lifecycle_new : MetadataLifecycle := {| lc_leader := false; lc_loops := [] |}.
Definition on_leader_start (l : MetadataLifecycle) : MetadataLifecycle :=
  if lc_leader l then l
  else {| lc_leader := true; lc_loops := lc_loops l ++ [ExpireLoop; CleanLoop] |}.
Definition on_leader_stop (l : MetadataLifecycle) : MetadataLifecycle :=
  if negb (lc_leader l) then l else {| lc_leader := false; lc_loops := [] |}.
(** One round of [drive]: the watched value. *)
Definition drive_step (l : MetadataLifecycle) (leading : bool) : MetadataLifecycle :=
  if leading then on_leader_start l else on_leader_stop l.

(** One iteration of each loop after its sleep; a loop that is no longer
    leader returns. *)
Definition expire_tick {S} `{CommandSink S} (leader : bool) (now_ms : Z) (s : S) : S * bool :=
  if negb leader then (s, false) else ((propose s (ExpirePreparedObjects now_ms)).1, true).
Definition clean_tick {S T W} `{CommandSink S, ObjectStorage T W} (leader : bool)
    (delete_timer : option nat) (propose_timer : option bool) (s : S) (storage : option T) :
    S * option T * bool :=
  if negb leader then (s, storage, false)
  else ((clean delete_timer propose_timer s storage MAX_DELETE_BATCH_COUNT).1, true).

(** ** Views never go stale *)

(** The single writer publishes increasing indexes; between its two
    statements the announcement is pending. *)
Inductive publisher_step : ViewPublisher * option Z → ViewPublisher * option Z → Prop :=
| step_store p view :
    mv_applied_index (load p) <= mv_applied_index view →
    publisher_step (p, None) (store_view p view, Some (mv_applied_index view))
| step_announce p index : publisher_step (p, Some index) (send_replace p index, None).

Definition publisher_ok (c : ViewPublisher * option Z) : Prop :=
  vp_notify c.1 <= mv_applied_index (load c.1) ∧
  ∀ i, c.2 = Some i → i = mv_applied_index (load c.1).

Lemma publisher_step_ok c c' :
  publisher_step c c' → publisher_ok c →
  publisher_ok c' ∧ mv_applied_index (load c.1) <= mv_applied_index (load c'.1).
Proof.
  intros Hs [H1 H2]. destruct Hs as [p view Hle|p index]; cbn in *.
  - split; [|done]. split; cbn; [lia|]. intros i [= <-]. done.
  - specialize (H2 index eq_refl). split; [|done]. split; cbn; [|done]. unfold load in *. lia.
Qed.

(** Readers never see the past: whatever the interleaving with the
    publisher's two statements, a caller that waited for an index gets a view
    at least that new, and the view a reader loads never goes backwards. *)
Theorem views_are_monotone view c c' index v :
  rtc publisher_step (with_view view, None) c → rtc publisher_step c c' →
  mv_applied_index (load c.1) <= mv_applied_index (load c'.1) ∧
  (wait_applied c.1 index = Some v → index <= mv_applied_index v).
Proof.
  assert (Hrun : ∀ a b, rtc publisher_step a b → publisher_ok a →
    publisher_ok b ∧ mv_applied_index (load a.1) <= mv_applied_index (load b.1)).
  { intros a b. induction 1 as [|a b d Hs _ IH]; intros Ha; [split; [done|lia]|].
    destruct (publisher_step_ok _ _ Hs Ha) as [Hb ?]. destruct (IH Hb). split; [done|lia]. }
  intros H1 H2. destruct (Hrun _ _ H1) as [Hc _]; [split; cbn; [unfold load; cbn; lia|done]|].
  split; [by apply Hrun|]. unfold wait_applied. destruct (Z.leb_spec index (vp_notify c.1)); [|done].
  intros [= <-]. destruct Hc. lia.
Qed.

Lemma views_are_monotone_witness :
  let v i := {| mv_applied_index := i; mv_state := new_state |} in
  let mid := (store_view (with_view (v 3)) (v 4), Some 4) in
  mv_applied_index (load mid.1) <= mv_applied_index (load (send_replace mid.1 4)) ∧
  (wait_applied mid.1 3 = Some (v 4) → 3 <= mv_applied_index (v 4)).
Proof.
  intros v mid. apply (views_are_monotone (v 3) mid (send_replace mid.1 4, None) 3 (v 4)).
  - eapply rtc_once. apply (step_store (with_view (v 3)) (v 4)). cbn. lia.
  - eapply rtc_once. apply step_announce.
Defined.

(** ** The in-process sink *)

(** The published view is the sink's state. *)
Definition local_ok (s : LocalSink) : Prop :=
  load (ls_views s) = {| mv_applied_index := ls_applied_index s; mv_state := ls_state s |}.

Lemma apply_failed st c st' e : apply st c = (st', Err e) → st' = st.
Proof. unfold apply. destruct (apply_inner c st) as [st1 [r|e1]]; congruence. Qed.

Lemma local_propose_ok s c : local_ok s → local_ok (local_propose s c).1.
Proof.
  intros Hs. unfold local_propose. destruct (apply (ls_state s) c) as [st [r|e]] eqn:E; [done|].
  apply apply_failed in E as ->. exact Hs.
Qed.

Lemma local_sink_state s : local_ok s → sink_state s = ls_state s.
Proof. intros Hs. unfold sink_state. cbn. by rewrite Hs. Qed.

#[export] Instance local_sink_contract : CommandSinkContract LocalSink.
Proof.
  refine {| sink_ok := local_ok |}; cbn [propose local_sink].
  - apply local_propose_ok.
  - intros s c s' p Hs H. pose proof (local_propose_ok s c Hs) as Hs'. rewrite H in Hs'. cbn in Hs'.
    unfold local_propose in H. destruct (apply (ls_state s) c) as [st [r|e]] eqn:E; [|congruence].
    injection H as <- <-. exists [], st, []. cbn [replay foldl]. rewrite local_sink_state by done.
    split_and!; [done|done|cbn; lia].
  - intros s c s' e Hs H. unfold local_propose in H.
    destruct (apply (ls_state s) c) as [st [r|e']] eqn:E; [congruence|]. injection H as <- <-.
    apply apply_failed in E as ->. exists []. done.
  - intros s c s' e Hs H _. unfold local_propose in H.
    destruct (apply (ls_state s) c) as [st [r|e']] eqn:E; [congruence|]. injection H as <- <-.
    exists []. cbn [replay foldl]. rewrite local_sink_state by done. by rewrite E.
Defined.

(** Proposing a list of commands one after another. *)
Fixpoint propose_all (s : LocalSink) (log : list MetadataCommand) :
    LocalSink * list (result MetadataResult MetadataError) :=
  match log with
  | [] => (s, [])
  | c :: log =>
      let '(s, r) := local_propose s c in
      let '(s, rs) := propose_all s log in (s, (let? p := r in Ok (pr_result p)) :: rs)
  end.

Fixpoint replies (st : MetadataState) (log : list MetadataCommand) :
    list (result MetadataResult MetadataError) :=
  match log with
  | [] => []
  | c :: log => (apply st c).2 :: replies (apply st c).1 log
  end.

Definition successes (rs : list (result MetadataResult MetadataError)) : Z :=
  Z.of_nat (length (filter (λ r, is_ok r = true) rs)).

(** The in-process sink refines the replayed log: for any commands proposed
    to it, every reply is the state machine's, the published view is the
    replayed state, and the applied index counts exactly the commands that
    succeeded. *)
Theorem local_sink_refines_log st index log :
  0 <= index → index + Z.of_nat (length log) < two64 →
  let '(s, rs) := propose_all (local_with_state st index) log in
  rs = replies st log ∧
  load (ls_views s) = {| mv_applied_index := index + successes rs; mv_state := replay st log |}.
Proof.
  intros Hi Hfit.
  assert (Hgen : ∀ s, local_ok s → ls_state s = st → ls_applied_index s = index →
    let '(s', rs) := propose_all s log in rs = replies st log ∧
    load (ls_views s') = {| mv_applied_index := index + successes rs; mv_state := replay st log |}).
  { revert st index Hi Hfit. induction log as [|c log IH]; intros st index Hi Hfit s Hs Hst Hix.
    { cbn. rewrite Hs, Hst, Hix. unfold successes. cbn. by rewrite Z.add_0_r. }
    pose proof (local_propose_ok s c Hs) as Hs1. cbn [propose_all replies]. unfold local_propose in *.
    cbn [length] in Hfit. rewrite Hst, Hix in *.
    destruct (apply st c) as [st1 [r|e]] eqn:E; cbn [fst snd] in *.
    - rewrite wrap_u64_id in * by int_lia. specialize (IH st1 (index + 1) ltac:(lia) ltac:(lia) _ Hs1).
      destruct (propose_all _ log) as [s' rs]. destruct IH as [-> Hv]; [done|done|].
      split; [done|]. rewrite Hv. unfold replay. cbn [foldl]. rewrite E. cbn [fst]. f_equal.
      unfold successes. rewrite filter_cons_True by done. cbn [length]. lia.
    - apply apply_failed in E as E'. subst st1. specialize (IH st index ltac:(lia) ltac:(lia) _ Hs1).
      destruct (propose_all _ log) as [s' rs]. destruct IH as [-> Hv]; [done|done|].
      split; [done|]. rewrite Hv. unfold replay. cbn [foldl]. rewrite E. done. }
  by apply Hgen.
Qed.

Lemma local_sink_refines_log_witness :
  let '(s, rs) := propose_all (local_with_state new_state 0) demo_log in
  rs = replies new_state demo_log ∧
  load (ls_views s) =
    {| mv_applied_index := 0 + successes rs; mv_state := replay new_state demo_log |}.
Proof. apply (local_sink_refines_log new_state 0 demo_log); [lia|vm_compute; reflexivity]. Defined.

(** ** The cleaner deletes garbage only *)

Lemma live_typed st o : Inv st → live st o → is_u64 o.
Proof.
  intros HI Hl. dinv HI. destruct Hl as [[row Hr]|[[[s a] o'] Hk]].
  - destruct (proj1 Iss _ _ Hr) as (<- & _ & [? _] & _). done.
  - destruct (proj2 Iso _ _ Hk) as [E [row Hr]]. cbn in E. subst o'.
    destruct (proj1 Iso _ _ Hr) as [(<- & _ & [? _] & _) _]. done.
Qed.

Lemma peek_queued st limit o op :
  Inv st → (o, op) ∈ peek_destroyed_objects st limit →
  is_Some (ms_destroyed_by_id st !! o) ∧ is_u64 o.
Proof.
  intros HI Hin. unfold peek_destroyed_objects in Hin.
  apply elem_of_take in Hin as (i & Hi & _). apply list_elem_of_lookup_2 in Hi.
  apply list_elem_of_fmap in Hi as ([seq e] & [= <-] & Hi). apply elem_of_ord_list in Hi. dinv HI.
  destruct Ide as (_ & Hmark & Hty). split; [|by eapply Hty]. exists seq. apply Hmark. eauto.
Qed.

Lemma elem_of_deletable (marked : list (Z * CompactOperations)) b o :
  o ∈ (filter (λ e : Z * CompactOperations, is_keep_data e.2 = b) marked).*1 ↔
  ∃ op, (o, op) ∈ marked ∧ is_keep_data op = b.
Proof.
  rewrite list_elem_of_fmap. split.
  - intros ([o' op] & -> & [Hk Hin]%list_elem_of_filter). eauto.
  - intros (op & Hin & Hk). exists (o, op). split; [done|]. by apply list_elem_of_filter.
Qed.

(** Whether an object is queued for physical deletion. *)
Definition deletable (st : MetadataState) (o : Z) : Prop :=
  ∃ seq op, ms_mark_destroyed st !! seq = Some (o, op) ∧ op ≠ OpKeepData.

Lemma peek_deletable st limit o :
  o ∈ (filter (λ e : Z * CompactOperations, is_keep_data e.2 = false)
        (peek_destroyed_objects st limit)).*1 → deletable st o.
Proof.
  intros (op & Hin & Hk)%elem_of_deletable. unfold peek_destroyed_objects in Hin.
  apply elem_of_take in Hin as (i & Hi & _). apply list_elem_of_lookup_2 in Hi.
  apply list_elem_of_fmap in Hi as ([seq e] & [= <-] & Hi). apply elem_of_ord_list in Hi.
  exists seq, op. split; [done|]. intros ->. done.
Qed.

Section Cleaner.
Context {S T W : Type} `{CommandSinkContract S} `{ObjectStorageContract T W}.

(** Whatever happens, only keys of queued, deletable objects change. *)
Lemma clean_touches dt pt (s s' : S) (store : T) storage' limit r k :
  clean dt pt s (Some store) limit = (s', storage', r) →
  ∃ store', storage' = Some store' ∧
    (object store' k = object store k ∨ ∃ o, deletable (sink_state s) o ∧ k = gen_object_key o).
Proof.
  unfold clean. set (marked := peek_destroyed_objects _ _). intros Hc.
  set (del := (filter (λ e : Z * CompactOperations, is_keep_data e.2 = false) marked).*1) in *.
  assert (Hkey : ∀ paths : list ObjectPath,
    (∀ q, q ∈ paths → ∃ o, deletable (sink_state s) o ∧ op_key q = gen_object_key o) →
    ∀ st' r', os_delete store paths = (st', r') →
    object st' k = object store k ∨ ∃ o, deletable (sink_state s) o ∧ k = gen_object_key o).
  { intros paths Hp st' r' Hd. destruct (decide (k ∈ op_key <$> paths)) as [Hin|Hnin].
    - right. apply list_elem_of_fmap in Hin as (q & -> & Hq). by apply Hp.
    - left. by eapply delete_only. }
  assert (Hpaths : ∀ q, q ∈ ((λ id, {| op_bucket_id := os_bucket_id store;
      op_key := gen_object_key id |}) <$> del) →
    ∃ o, deletable (sink_state s) o ∧ op_key q = gen_object_key o).
  { intros q (o & -> & Ho)%list_elem_of_fmap. exists o. split; [by eapply peek_deletable|done]. }
  set (paths := _ <$> del) in *.
  assert (Hfin : ∀ (st : T) cleaned, match cleaned with
      | [] => (s, Some st, Ok []) | _ => let '(s, r) := propose_clean pt s cleaned in (s, Some st, r) end
      = (s', storage', r) → storage' = Some st).
  { intros st [|c cs] E; [congruence|]. cbv iota in E.
    destruct (propose_clean pt s (c :: cs)) as [s1 r1]. congruence. }
  destruct marked as [|x marked']; [exists store; split; [congruence|by left]|].
  destruct del as [|d del'] eqn:Ed.
  { apply Hfin in Hc as ->. eauto. }
  destruct dt as [n|].
  { destruct (os_delete store (take n paths)) as [st' r'] eqn:E.
    exists st'. split; [cbn in Hc; congruence|]. eapply Hkey; [|exact E].
    intros q (i & Hi & _)%elem_of_take. apply Hpaths. by eapply list_elem_of_lookup_2. }
  destruct (os_delete store paths) as [st' [u|e]] eqn:E.
  - apply Hfin in Hc as ->. exists st'. split; [done|]. by eapply Hkey.
  - exists st'. split; [congruence|]. by eapply Hkey.
Qed.

(** What a pass that reports success has done. *)
Lemma clean_reports dt pt (s s' : S) (store : T) storage' limit ids :
  sink_ok s → clean dt pt s (Some store) limit = (s', storage', Ok ids) →
  (∀ o, o ∈ ids → ∃ op, (o, op) ∈ peek_destroyed_objects (sink_state s) (Z.min limit MAX_DELETE_BATCH_COUNT) ∧
     (op ≠ OpKeepData → ∃ store', storage' = Some store' ∧ object store' (gen_object_key o) = None)) ∧
  (ids ≠ [] → ∃ before st r after,
     apply (replay (sink_state s) before) (CleanDestroyedObjects ids) = (st, Ok r) ∧
     sink_state s' = replay st after).
Proof.
  intros Hok. unfold clean. set (marked := peek_destroyed_objects _ _). intros Hc.
  set (del := (filter (λ e : Z * CompactOperations, is_keep_data e.2 = false) marked).*1) in *.
  set (cat := (filter (λ e : Z * CompactOperations, is_keep_data e.2 = true) marked).*1) in *.
  assert (Hfin : ∀ st cleaned, match cleaned with
      | [] => (s, Some st, Ok []) | _ => let '(s, r) := propose_clean pt s cleaned in (s, Some st, r) end
      = (s', storage', Ok ids) → storage' = Some st ∧ ids = cleaned ∧ (ids ≠ [] → ∃ before st r after,
        apply (replay (sink_state s) before) (CleanDestroyedObjects ids) = (st, Ok r) ∧
        sink_state s' = replay st after)).
  { intros st [|c cs] E; [split_and!; [congruence..|intros Hne; congruence]|]. cbv iota in E.
    unfold propose_clean in E. destruct pt as [b|]; [congruence|].
    destruct (propose s (CleanDestroyedObjects (c :: cs))) as [s1 [p|e]] eqn:Hp; cbn in E; [|congruence].
    assert (s' = s1 ∧ ids = c :: cs) as [-> ->] by (split; congruence).
    destruct (propose_applied _ _ _ _ Hok Hp) as (before & st1 & after & Ha & Hs & _).
    split_and!; [congruence|done|]. intros _. eauto 10. }
  assert (Hcat : ∀ o, o ∈ cat → (o, OpKeepData) ∈ marked).
  { intros o (op & Hin & Hk)%elem_of_deletable. unfold is_keep_data in Hk.
    by apply bool_decide_eq_true in Hk as ->. }
  destruct marked as [|x marked'].
  { assert (ids = []) as -> by congruence. split; [by intros o ?%not_elem_of_nil|done]. }
  set (marked := x :: marked') in *.
  destruct del as [|d del'] eqn:Ed.
  { apply Hfin in Hc as (_ & -> & Hap). split; [|exact Hap]. intros o Ho. exists OpKeepData.
    split; [by apply Hcat|done]. }
  rewrite <-Ed in *. destruct dt as [n|]; [congruence|].
  destruct (os_delete store _) as [st' [[]|e]] eqn:E; [|congruence].
  apply Hfin in Hc as (-> & -> & Hap). split; [|exact Hap]. intros o [Ho|Ho]%elem_of_app.
  - exists OpKeepData. split; [by apply Hcat|done].
  - pose proof Ho as (op & Hin & _)%elem_of_deletable. exists op. split; [done|]. intros _.
    exists st'. split; [done|]. rewrite (delete_removes _ _ _ E), decide_True; [done|].
    rewrite <-list_fmap_compose. apply list_elem_of_fmap. by exists o.
Qed.

(** C17: The cleaner never destroys data in use. Let the metadata be what a
    log of well-formed commands led to in which committed objects are new,
    that is neither queued for deletion nor among those they replace, and the
    sources of a stream-object compaction are objects of its stream. Then over
    any sink and any storage that meet their contracts, whether a pass
    succeeds, fails or times out half-way, every object that a stream still
    references keeps its stored bytes. When a pass reports ids, each was
    queued, those queued for deletion are gone from the storage (those queued
    with [KeepData] are only dropped from the catalog), and the command that
    drops their marks was applied. *)
Theorem cleaner_spares_live_objects log dt pt (s s' : S) (store : T) storage' limit r :
  sink_ok s → log_ok new_state log → disciplined new_state log → sink_state s = replay new_state log →
  clean dt pt s (Some store) limit = (s', storage', r) →
  ∃ store', storage' = Some store' ∧
    (∀ o, live (sink_state s) o → object store' (gen_object_key o) = object store (gen_object_key o)) ∧
    (∀ ids, r = Ok ids → ids ≠ [] →
       (∀ o, o ∈ ids → is_Some (ms_destroyed_by_id (sink_state s) !! o) ∧
          (deletable (sink_state s) o → object store' (gen_object_key o) = None)) ∧
       ∃ before st res after,
         apply (replay (sink_state s) before) (CleanDestroyedObjects ids) = (st, Ok res) ∧
         sink_state s' = replay st after).
Proof.
  intros Hok Hlog Hd Es Hc.
  assert (HI : Inv (sink_state s)) by (rewrite Es; by apply replay_evolves; [apply Inv_new_state|]).
  assert (Hgc : gc_safe (sink_state s)).
  { rewrite Es. apply disciplined_gc; [apply Inv_new_state| |done|done]. intros o [seq Ho]. discriminate Ho. }
  destruct (clean_touches dt pt s s' store storage' limit r EmptyString Hc) as (store' & -> & _).
  exists store'. split_and!; [done| |].
  - intros o Hl. destruct (clean_touches _ _ _ _ _ _ _ _ (gen_object_key o) Hc)
      as (st' & [= <-] & [?|(o' & (seq & op & Hm & _) & Hk)]); [done|]. exfalso.
    destruct (inv_destroyed _ HI) as (_ & Hmark & Hty). destruct (Hty _ _ _ Hm) as [_ Ho'].
    destruct (object_key_inj _ _ o o' (live_typed _ _ HI Hl) Ho' Hk) as [_ <-].
    apply (Hgc o); [|done]. exists seq. apply Hmark. eauto.
  - intros ids -> Hne. destruct (clean_reports _ _ _ _ _ _ _ _ Hok Hc) as [Hids Hap].
    split; [|by apply Hap]. intros o Ho. destruct (Hids o Ho) as (op & Hin & Hgone).
    split; [by eapply peek_queued|]. intros (seq & op' & Hm & Hne').
    destruct (inv_destroyed _ HI) as (_ & Hmark & _). unfold peek_destroyed_objects in Hin.
    apply elem_of_take in Hin as (i & Hi & _). apply list_elem_of_lookup_2 in Hi.
    apply list_elem_of_fmap in Hi as ([seq' e] & [= <-] & Hi). apply elem_of_ord_list in Hi.
    assert (E1 : ms_destroyed_by_id (sink_state s) !! o = Some seq) by (apply Hmark; eauto).
    assert (E2 : ms_destroyed_by_id (sink_state s) !! o = Some seq') by (apply Hmark; eauto).
    assert (op' = op) as -> by congruence.
    destruct (Hgone Hne') as (st' & [= <-] & ?). done.
Qed.
End Cleaner.

Definition demo_gc_log : list MetadataCommand :=
  demo_log ++ [CommitStreamSetObject 1 5 demo_split 8; PrepareObject 1 5 1 1000 9; CompactStreamObject 1 5 demo_compact 10].
Definition demo_gc_state : MetadataState := replay new_state demo_gc_log.
Definition demo_gc_sink : LocalSink := local_with_state demo_gc_state 9.
Definition demo_gc_store : MemoryObjectStorage :=
  foldl (λ m id, (mem_write m default_write_options (gen_object_key id) [x01]).1) (mem_new 0 0) [0; 1; 2].

Lemma demo_gc_log_ok : log_ok new_state demo_gc_log.
Proof. by_eval. Qed.

Lemma demo_gc_disciplined : disciplined new_state demo_gc_log.
Proof.
  unfold demo_gc_log. cbn [app demo_log disciplined]. repeat lazymatch goal with |- gc_discipline _ _ ∧ _ => split; [try exact I|] end; try exact I.
  - intros o [[-> _]|Ho]; [split; [by_eval|apply not_elem_of_nil]|by apply not_elem_of_nil in Ho].
  - intros o [[-> Hne]|Ho]; [by destruct Hne|]. apply list_elem_of_singleton in Ho as ->. split; [by_eval|apply not_elem_of_nil].
  - split.
    + intros _. split; [by_eval|]. cbn. rewrite list_elem_of_singleton. discriminate.
    + intros o ->%list_elem_of_singleton. exists 10. by_eval.
Qed.

Lemma cleaner_spares_live_objects_witness :
  let pass := clean None None demo_gc_sink (Some demo_gc_store) 10 in
  pass.2 = Ok [1] ∧
  ∃ store', pass.1.2 = Some store' ∧
    (∀ o, live (sink_state demo_gc_sink) o →
       object store' (gen_object_key o) = object demo_gc_store (gen_object_key o)) ∧
    (∀ ids, pass.2 = Ok ids → ids ≠ [] →
       (∀ o, o ∈ ids → is_Some (ms_destroyed_by_id (sink_state demo_gc_sink) !! o) ∧
          (deletable (sink_state demo_gc_sink) o → object store' (gen_object_key o) = None)) ∧
       ∃ before st res after,
         apply (replay (sink_state demo_gc_sink) before) (CleanDestroyedObjects ids) = (st, Ok res) ∧
         sink_state pass.1.1 = replay st after).
Proof.
  intros pass. split; [vm_compute; reflexivity|].
  apply (cleaner_spares_live_objects demo_gc_log None None demo_gc_sink pass.1.1 demo_gc_store pass.1.2 10 pass.2).
  - reflexivity.
  - exact demo_gc_log_ok.
  - exact demo_gc_disciplined.
  - reflexivity.
  - fold pass. by destruct pass as [[s' t'] r].
Defined.
