(* ===== verification/WalFormat.v ===== *)
(** * WAL objects: header, keys and reservation

    [s3stream-wal/src/object]: the header in front of every WAL object
    (header.rs), the key scheme and the parsing of a listing (keys.rs), and
    the reservation object that fences a superseded writer (reservation.rs).
    MD5 comes from the [md5] crate and is a parameter of the key scheme. *)

From Stdlib Require Import ZArith Lia.
From Stdlib Require Import Strings.Byte.
From stdpp Require Import base numbers list strings sets gmap sorting.
From S2P Require Import Prelude StreamTypes RecordCodec ObjectIndex ObjectStore.

Open Scope Z_scope.
Open Scope rust_scope.

(** ** Errors *)

(** The texts of [WalError::Recovery], one constructor per message. *)
Inductive RecoveryReason :=
| MagicTooShort (have : Z)
| WalMagicMismatch (magic : Z)
| WalHeaderTooShort (have expect : Z)
| NoPrefetchedBuffer
| RecordHeaderTruncated
| RecordMagicInvalid
| RecordPartWithoutData
| RecordBodyCrc
| NoEpochForOffset.

Inductive WalError :=
| OverCapacity (unconfirmed_bytes cap_bytes : Z)
| Fenced (node_id our_epoch : Z)
| NotInitialized
| RecordTooLarge (size max : Z)
| Recovery (reason : RecoveryReason)
| Shutdown
| Unmarshal (e : CodecError)
| Storage (e : ObjectError).

(** ** The object header *)
Definition WAL_HEADER_MAGIC_V0 : Z := 0x12345678.
Definition WAL_HEADER_SIZE_V0 : nat := 40.
Definition WAL_HEADER_MAGIC_V1 : Z := 0xEDCBA987.
Definition WAL_HEADER_SIZE_V1 : nat := WAL_HEADER_SIZE_V0 + 8.
Definition MAX_WAL_HEADER_SIZE : nat := WAL_HEADER_SIZE_V1.
Definition TRIM_OFFSET_NONE : Z := -1.

Record WalObjectHeader := {
  wh_magic : Z;
  wh_start_offset : Z;
  wh_body_length : Z;
  wh_sticky_record_length : Z;
  wh_node_id : Z;
  wh_epoch : Z;
  wh_trim_offset : Z;
}.

Definition header_v1 (start_offset body_length node_id epoch trim_offset : Z) : WalObjectHeader := {|
  wh_magic := WAL_HEADER_MAGIC_V1; wh_start_offset := start_offset;
  wh_body_length := body_length; wh_sticky_record_length := 0; wh_node_id := node_id;
  wh_epoch := epoch; wh_trim_offset := trim_offset |}.

Definition wh_size (h : WalObjectHeader) : nat :=
  if wh_magic h =? WAL_HEADER_MAGIC_V1 then WAL_HEADER_SIZE_V1 else WAL_HEADER_SIZE_V0.

Definition wh_marshal (h : WalObjectHeader) : list byte :=
  put_u32 (wh_magic h) ++ put_u64 (wh_start_offset h) ++ put_u64 (wh_body_length h) ++
  put_u64 (wh_sticky_record_length h) ++ put_u32 (wh_node_id h) ++ put_u64 (wh_epoch h) ++
  (if wh_magic h =? WAL_HEADER_MAGIC_V1 then put_i64 (wh_trim_offset h) else []).

Definition read_i64 (buf : list byte) (pos : nat) : Z := wrap_i64 (be_val (slice buf pos 8)).

Definition wh_unmarshal (buf : list byte) : result WalObjectHeader WalError :=
  if (length buf <? 4)%nat then Err (Recovery (MagicTooShort (Z.of_nat (length buf))))
  else
    let magic := read_u32 buf 0 in
    let? size :=
      (if magic =? WAL_HEADER_MAGIC_V0 then Ok WAL_HEADER_SIZE_V0
       else if magic =? WAL_HEADER_MAGIC_V1 then Ok WAL_HEADER_SIZE_V1
       else Err (Recovery (WalMagicMismatch magic))) in
    if (length buf <? size)%nat then
      Err (Recovery (WalHeaderTooShort (Z.of_nat (length buf)) (Z.of_nat size)))
    else Ok {| wh_magic := magic; wh_start_offset := read_u64 buf 4;
               wh_body_length := read_u64 buf 12; wh_sticky_record_length := read_u64 buf 20;
               wh_node_id := read_u32 buf 28; wh_epoch := read_u64 buf 32;
               wh_trim_offset :=
                 if magic =? WAL_HEADER_MAGIC_V1 then read_i64 buf 40 else TRIM_OFFSET_NONE |}.

Definition calculate_end_offset_v0 (start_offset object_size : Z) : Z :=
  wrap_u64 (start_offset + object_size - Z.of_nat WAL_HEADER_SIZE_V0).

(** ** Text *)

(** [u64::from_str]: an optional plus sign, then digits; [None] on anything
    else and on overflow. *)
Definition digit_val (b : byte) : option Z :=
  let v := byte_val b - 48 in if (0 <=? v) && (v <=? 9) then Some v else None.

Fixpoint parse_digits (acc : Z) (bs : list byte) : option Z :=
  match bs with
  | [] => Some acc
  | b :: bs =>
      match digit_val b with
      | None => None
      | Some d =>
          let acc := acc * 10 + d in if acc <? two64 then parse_digits acc bs else None
      end
  end.

Definition parse_u64 (s : list byte) : option Z :=
  match s with
  | [] => None
  | b :: rest =>
      if bool_decide (b = x2b) then match rest with [] => None | _ => parse_digits 0 rest end
      else parse_digits 0 s
  end.

(** [str::split(c)]: always at least one part. *)
Fixpoint split_on (c : byte) (s : list byte) : list (list byte) :=
  match s with
  | [] => [[]]
  | b :: s =>
      if bool_decide (b = c) then [] :: split_on c s
      else match split_on c s with
           | part :: parts => (b :: part) :: parts
           | [] => [[b]]
           end
  end.

(** [str::split_once(c)] *)
Fixpoint split_once (c : byte) (s : list byte) : option (list byte * list byte) :=
  match s with
  | [] => None
  | b :: s =>
      if bool_decide (b = c) then Some ([], s)
      else match split_once c s with
           | Some (before, after) => Some (b :: before, after)
           | None => None
           end
  end.

(** ** Keys *)
Definition DATA_FILE_ALIGN_SIZE : Z := 64 * 1024 * 1024.
Definition WAL_NAMESPACE : string := "_kafka_".
Definition TRIM_RECORD_SENTINEL : Z := u64_max.

Record WalObject := {
  wl_bucket_id : Z;
  wl_key : string;
  wl_epoch : Z;
  wl_start_offset : Z;
  wl_end_offset : Z;
  wl_size : Z;
}.
#[export] Instance WalObject_eq_dec : EqDecision WalObject.
Proof. solve_decision. Defined.

(** [t.trim().is_empty()]: only characters of the Unicode white-space class,
    in their UTF-8 encodings. *)
Fixpoint is_blank (t : list byte) : bool :=
  match t with
  | [] => true
  | (x09 | x0a | x0b | x0c | x0d | x20) :: t => is_blank t
  | xc2 :: (x85 | xa0) :: t => is_blank t
  | xe1 :: x9a :: x80 :: t => is_blank t
  | xe2 :: x80 :: c :: t =>
      ((byte_val c <=? 0x8a) || (byte_val c =? 0xa8) || (byte_val c =? 0xa9) || (byte_val c =? 0xaf))
      && is_blank t
  | xe2 :: x81 :: x9f :: t => is_blank t
  | xe3 :: x80 :: x80 :: t => is_blank t
  | _ => false
  end.

(** [md5_hex_upper] is [hex::encode_upper(Md5::digest(bytes))]. *)
Definition node_prefix (md5_hex_upper : list byte → string) (cluster_id : string) (node_id : Z)
    (wal_type : option string) : string :=
  md5_hex_upper (as_bytes (show_dec node_id)) +:+ "/" +:+ WAL_NAMESPACE +:+ cluster_id +:+ "/" +:+
  show_dec node_id +:+
  match wal_type with
  | Some t => if is_blank (as_bytes t) then EmptyString else "_" +:+ t
  | None => EmptyString
  end +:+ "/".

Definition gen_object_path_v1 (prefix : string) (epoch start_offset end_offset : Z) : string :=
  prefix +:+ show_dec epoch +:+ "/wal/" +:+ show_dec start_offset +:+ "-" +:+ show_dec end_offset.

Definition gen_object_path_v1_aligned (prefix : string) (epoch start_offset : Z) : string :=
  gen_object_path_v1 prefix epoch start_offset (wrap_u64 (start_offset + DATA_FILE_ALIGN_SIZE)).

(** One listing entry; foreign keys give [None]. *)
Definition parse_wal_object (info : ObjectInfo) : option WalObject :=
  let parts := split_on x2f (as_bytes (op_key (oi_path info))) in
  let n := length parts in
  if (n <? 3)%nat then None
  else
    epoch ← parts !! (n - 3)%nat ≫= parse_u64;
    raw_offset ← parts !! (n - 1)%nat;
    '(start_offset, end_offset) ←
      match split_once x2d raw_offset with
      | Some (start, stop) =>
          start_offset ← parse_u64 start; end_offset ← parse_u64 stop;
          Some (start_offset, end_offset)
      | None =>
          start_offset ← parse_u64 raw_offset;
          Some (start_offset, calculate_end_offset_v0 start_offset (oi_size info))
      end;
    Some {| wl_bucket_id := op_bucket_id (oi_path info); wl_key := op_key (oi_path info);
            wl_epoch := epoch; wl_start_offset := start_offset; wl_end_offset := end_offset;
            wl_size := oi_size info |}.

Definition wal_object_leb (a b : WalObject) : bool :=
  (wl_epoch a <? wl_epoch b) ||
  ((wl_epoch a =? wl_epoch b) && (wl_start_offset a <=? wl_start_offset b)).

Definition parse_wal_objects (objects : list ObjectInfo) : list WalObject :=
  stable_sort wal_object_leb (omap parse_wal_object objects).

(** The first object is compared with every later one; [last_object] is
    never advanced. *)
Definition overlap_of (objects : list WalObject) : list WalObject :=
  match objects with
  | [] => []
  | first :: rest =>
      (λ _, first) <$> filter (λ o, wl_epoch first ≠ wl_epoch o ∧ wl_start_offset o < wl_end_offset first) rest
  end.

(** [if let Some(pos) = position(..) { remove(pos) }] *)
Fixpoint remove_first (x : WalObject) (objects : list WalObject) : list WalObject :=
  match objects with
  | [] => []
  | o :: objects => if bool_decide (o = x) then objects else o :: remove_first x objects
  end.

(** The objects kept and the objects dropped. *)
Definition skip_overlap_objects (objects : list WalObject) : list WalObject * list WalObject :=
  let overlap := overlap_of objects in
  (foldl (λ objects o, remove_first o objects) objects overlap, overlap).

Definition floor_align_offset (offset : Z) : Z := offset / DATA_FILE_ALIGN_SIZE * DATA_FILE_ALIGN_SIZE.
(** [offset.div_ceil(ALIGN) * ALIGN] *)
Definition ceil_align_offset (offset : Z) : Z :=
  wrap_u64 ((offset + DATA_FILE_ALIGN_SIZE - 1) / DATA_FILE_ALIGN_SIZE * DATA_FILE_ALIGN_SIZE).

(** ** Reservation *)
Definition S3_RESERVATION_OBJECT_MAGIC_CODE : Z := 0x12345678.
Definition S3_RESERVATION_OBJECT_LENGTH : Z := 21.

Record ObjectReservationService := {
  rs_cluster_id : string;
  rs_bucket_id : Z;
}.

Definition reservation_path (rs : ObjectReservationService) (node_id : Z) : string :=
  "reservation/" +:+ WAL_NAMESPACE +:+ rs_cluster_id rs +:+ "/" +:+ show_dec node_id.

Definition target_bytes (node_id epoch : Z) (failover : bool) : list byte :=
  put_u32 S3_RESERVATION_OBJECT_MAGIC_CODE ++ put_i64 node_id ++ put_i64 (wrap_i64 epoch) ++
  put_u8 (if failover then 1 else 0).

Section Reservation.
Context {S W : Type} `{ObjectStorageContract S W}.

Definition rs_acquire (rs : ObjectReservationService) (s : S) (node_id epoch : Z)
    (failover : bool) : S * result unit WalError :=
  let options := {| wo_throttle := Bypass; wo_bucket_id := Some (rs_bucket_id rs) |} in
  match os_write s options (reservation_path rs node_id) (target_bytes node_id epoch failover) with
  | (s, Ok _) => (s, Ok tt)
  | (s, Err e) => (s, Err (Storage e))
  end.

(** A failed read counts as a reservation that is not held. *)
Definition rs_verify (rs : ObjectReservationService) (s : S) (node_id epoch : Z)
    (failover : bool) : result bool WalError :=
  let options := {| ro_throttle := Bypass; ro_bucket_id := Some (rs_bucket_id rs) |} in
  match range_read s options (reservation_path rs node_id) 0 (Some S3_RESERVATION_OBJECT_LENGTH) with
  | Ok bytes =>
      if negb (Z.of_nat (length bytes) =? S3_RESERVATION_OBJECT_LENGTH) then Ok false
      else Ok (bool_decide (bytes = target_bytes node_id epoch failover))
  | Err _ => Ok false
  end.
End Reservation.

(** ** The header round trip *)

(** Headers the code builds: fields in range, and a v0 header carries no trim
    offset. *)
Definition wal_header_typed (h : WalObjectHeader) : Prop :=
  (wh_magic h = WAL_HEADER_MAGIC_V1 ∧ is_i64 (wh_trim_offset h) ∨
   wh_magic h = WAL_HEADER_MAGIC_V0 ∧ wh_trim_offset h = TRIM_OFFSET_NONE) ∧
  is_u64 (wh_start_offset h) ∧ is_u64 (wh_body_length h) ∧
  is_u64 (wh_sticky_record_length h) ∧ is_u32 (wh_node_id h) ∧ is_u64 (wh_epoch h).

Lemma length_put_i64 z : length (put_i64 z) = 8%nat.
Proof. done. Qed.
#[export] Hint Rewrite length_put_i64 : put_len.

Lemma length_wh_marshal h : length (wh_marshal h) = wh_size h.
Proof.
  unfold wh_marshal, wh_size, WAL_HEADER_SIZE_V1, WAL_HEADER_SIZE_V0. destruct (_ =? _); put_lia.
Qed.

Lemma read_i64_at pre z post buf pos :
  buf = pre ++ put_i64 z ++ post → length pre = pos → is_i64 z → read_i64 buf pos = z.
Proof.
  intros -> Hp Hz. unfold read_i64. rewrite slice_mid by done. unfold put_i64.
  rewrite be_val_bytes. by apply wrap_i64_unsigned.
Qed.

(** The field after the bytes [pre] of a buffer given as a concatenation. *)
Ltac field_at Eb lem pre :=
  eapply (lem pre); [rewrite Eb, <-?app_assoc; reflexivity|put_lia|assumption].

(** The six fields both versions share, in front of [tl]. *)
Lemma wh_fields magic start body sticky node epoch tl buf :
  buf = put_u32 magic ++ put_u64 start ++ put_u64 body ++ put_u64 sticky ++ put_u32 node ++
    put_u64 epoch ++ tl →
  is_u32 magic → is_u64 start → is_u64 body → is_u64 sticky → is_u32 node → is_u64 epoch →
  read_u32 buf 0 = magic ∧ read_u64 buf 4 = start ∧ read_u64 buf 12 = body ∧
  read_u64 buf 20 = sticky ∧ read_u32 buf 28 = node ∧ read_u64 buf 32 = epoch.
Proof.
  intros Eb ??????. split_and!.
  - field_at Eb read_at_4 (@nil byte).
  - field_at Eb read_at_8 (put_u32 magic).
  - field_at Eb read_at_8 (put_u32 magic ++ put_u64 start).
  - field_at Eb read_at_8 (put_u32 magic ++ put_u64 start ++ put_u64 body).
  - field_at Eb read_at_4 (put_u32 magic ++ put_u64 start ++ put_u64 body ++ put_u64 sticky).
  - field_at Eb read_at_8 (put_u32 magic ++ put_u64 start ++ put_u64 body ++ put_u64 sticky ++ put_u32 node).
Qed.

Lemma wh_unmarshal_marshal h rest :
  wal_header_typed h → wh_unmarshal (wh_marshal h ++ rest) = Ok h.
Proof.
  intros (Hm & Hs & Hb & Hst & Hn & He). destruct h as [magic start body sticky node epoch trim].
  cbn [wh_magic wh_start_offset wh_body_length wh_sticky_record_length wh_node_id wh_epoch wh_trim_offset] in *.
  set (tl := (if magic =? WAL_HEADER_MAGIC_V1 then put_i64 trim else []) ++ rest).
  set (buf := wh_marshal _ ++ rest).
  assert (Eb : buf = put_u32 magic ++ put_u64 start ++ put_u64 body ++ put_u64 sticky ++
    put_u32 node ++ put_u64 epoch ++ tl) by (unfold buf, wh_marshal, tl; cbn; by rewrite <-!app_assoc).
  assert (Hl : length buf = (40 + length tl)%nat) by (rewrite Eb; put_lia).
  assert (Hmu : is_u32 magic) by (unfold WAL_HEADER_MAGIC_V0, WAL_HEADER_MAGIC_V1 in Hm; int_lia).
  destruct (wh_fields magic start body sticky node epoch tl buf Eb) as (E0 & E4 & E12 & E20 & E28 & E32);
    [done..|]. clearbody buf.
  unfold wh_unmarshal. rewrite E0, E4, E12, E20, E28, E32.
  destruct (Nat.ltb_spec (length buf) 4); [lia|]. destruct Hm as [[-> Ht]|[-> ->]].
  - change (WAL_HEADER_MAGIC_V1 =? WAL_HEADER_MAGIC_V0) with false.
    change (WAL_HEADER_MAGIC_V1 =? WAL_HEADER_MAGIC_V1) with true in *. cbn [rbind].
    assert (E40 : read_i64 buf 40 = trim).
    { eapply (read_i64_at (put_u32 WAL_HEADER_MAGIC_V1 ++ put_u64 start ++ put_u64 body ++ put_u64 sticky ++
        put_u32 node ++ put_u64 epoch) trim rest); [rewrite Eb; unfold tl; by rewrite <-!app_assoc|put_lia|done]. }
    destruct (Nat.ltb_spec (length buf) WAL_HEADER_SIZE_V1) as [Hlt|]; [|by rewrite E40].
    rewrite Hl in Hlt. unfold tl in Hlt. change WAL_HEADER_SIZE_V1 with 48%nat in Hlt. put_lia.
  - change (WAL_HEADER_MAGIC_V0 =? WAL_HEADER_MAGIC_V0) with true.
    change (WAL_HEADER_MAGIC_V0 =? WAL_HEADER_MAGIC_V1) with false. cbn [rbind].
    destruct (Nat.ltb_spec (length buf) WAL_HEADER_SIZE_V0) as [Hlt|]; [|done].
    change WAL_HEADER_SIZE_V0 with 40%nat in Hlt. lia.
Qed.

(** ** Printing and parsing integers and keys *)

(** The digits of [d] after the accumulated value. *)
Fixpoint uint_val (acc : Z) (d : Decimal.uint) : Z :=
  match d with
  | Decimal.Nil => acc
  | Decimal.D0 d => uint_val (acc * 10 + 0) d
  | Decimal.D1 d => uint_val (acc * 10 + 1) d
  | Decimal.D2 d => uint_val (acc * 10 + 2) d
  | Decimal.D3 d => uint_val (acc * 10 + 3) d
  | Decimal.D4 d => uint_val (acc * 10 + 4) d
  | Decimal.D5 d => uint_val (acc * 10 + 5) d
  | Decimal.D6 d => uint_val (acc * 10 + 6) d
  | Decimal.D7 d => uint_val (acc * 10 + 7) d
  | Decimal.D8 d => uint_val (acc * 10 + 8) d
  | Decimal.D9 d => uint_val (acc * 10 + 9) d
  end.

Lemma uint_val_ge d : ∀ acc, 0 <= acc → acc <= uint_val acc d.
Proof.
  induction d as [|d IH|d IH|d IH|d IH|d IH|d IH|d IH|d IH|d IH|d IH]; intros acc Ha; cbn [uint_val]; [lia|..];
    (etrans; [|apply IH; lia]; lia).
Qed.

Lemma uint_val_pos d : ∀ acc, uint_val (Zpos acc) d = Zpos (Pos.of_uint_acc d acc).
Proof.
  induction d as [|d IH|d IH|d IH|d IH|d IH|d IH|d IH|d IH|d IH|d IH]; intros acc;
    cbn [uint_val Pos.of_uint_acc]; [done|..]; rewrite <-IH; f_equal; lia.
Qed.

Lemma uint_val_N d : uint_val 0 d = Z.of_N (N.of_uint d).
Proof.
  induction d; cbn [uint_val]; unfold N.of_uint; cbn [Pos.of_uint]; [done|exact IHd|..];
    apply (uint_val_pos _ _).
Qed.

Lemma parse_digits_uint d : ∀ acc,
  0 <= acc → uint_val acc d < two64 →
  parse_digits acc (as_bytes (DecimalString.NilEmpty.string_of_uint d)) = Some (uint_val acc d).
Proof.
  induction d as [|d IH|d IH|d IH|d IH|d IH|d IH|d IH|d IH|d IH|d IH]; intros acc Ha Hlt;
    [done|..]; cbn [uint_val] in *;
    (match goal with |- parse_digits _ (as_bytes ?s) = _ =>
       let s' := eval cbn [DecimalString.NilEmpty.string_of_uint] in s in
       change s with s';
       match s' with String ?c ?r => change (as_bytes s') with (Ascii.byte_of_ascii c :: as_bytes r) end
     end; cbn [Ascii.byte_of_ascii parse_digits];
     match goal with |- context [digit_val ?b] =>
       let v := eval vm_compute in (digit_val b) in change (digit_val b) with v end;
     cbv iota zeta; match goal with |- context [?a <? two64] => destruct (Z.ltb_spec a two64) as [Hl|Hge] end;
     [apply IH; [lia|done]|];
     match type of Hge with _ <= ?a => pose proof (uint_val_ge d a ltac:(lia)); lia end).
Qed.

Lemma parse_u64_show z : is_u64 z → parse_u64 (as_bytes (show_dec z)) = Some z.
Proof.
  intros Hz. unfold show_dec. set (d := N.to_uint (Z.to_N z)).
  assert (Hv : uint_val 0 d = z).
  { rewrite uint_val_N. unfold d. rewrite DecimalN.Unsigned.of_to. int_lia. }
  assert (Hne : d ≠ Decimal.Nil).
  { unfold d. destruct (Z.to_N z); [done|apply DecimalPos.Unsigned.to_uint_nonnil]. }
  pose proof (parse_digits_uint d 0 ltac:(lia) ltac:(rewrite Hv; int_lia)) as Hp. rewrite Hv in Hp.
  clearbody d. destruct d; [done|..]; rewrite <-Hp; reflexivity.
Qed.

Lemma split_on_no_sep c s : c ∉ s → split_on c s = [s].
Proof.
  induction s as [|b s IH]; [done|]. intros [Hb Hs]%not_elem_of_cons. cbn [split_on].
  rewrite bool_decide_eq_false_2 by congruence. by rewrite IH.
Qed.

Lemma split_on_app c a b : split_on c (a ++ c :: b) = split_on c a ++ split_on c b.
Proof.
  induction a as [|x a IH]; cbn [split_on app].
  - by rewrite bool_decide_eq_true_2.
  - destruct (bool_decide (x = c)); [by rewrite IH|]. rewrite IH.
    destruct (split_on c a) eqn:E; [|done]. destruct a; cbn [split_on] in E; [done|].
    case_bool_decide; [done|]. by destruct (split_on c a).
Qed.

Lemma split_once_sep c a b : c ∉ a → split_once c (a ++ c :: b) = Some (a, b).
Proof.
  induction a as [|x a IH]; cbn [split_once app]; [by rewrite bool_decide_eq_true_2|].
  intros [Hb Hs]%not_elem_of_cons. rewrite bool_decide_eq_false_2 by congruence. by rewrite IH.
Qed.

Lemma digits_only c z : digit_val c = None → c ∉ as_bytes (show_dec z).
Proof.
  intros Hc. unfold show_dec.
  assert (H : ∀ d, c ∉ as_bytes (DecimalString.NilEmpty.string_of_uint d)).
  { induction d; [apply not_elem_of_nil|..]; cbn [DecimalString.NilEmpty.string_of_uint];
      change (as_bytes (String ?x ?s)) with (Ascii.byte_of_ascii x :: as_bytes s);
      apply not_elem_of_cons; (split; [|done]); intros ->; done. }
  destruct (N.to_uint (Z.to_N z)) eqn:E; try (rewrite <-E; rewrite E; apply H).
  unfold as_bytes. cbn. intros ->%list_elem_of_singleton. done.
Qed.

(** A key the writer generates parses back to its epoch and its range. *)
Lemma parse_generated_key dir epoch start_offset end_offset bucket_id timestamp_ms size :
  is_u64 epoch → is_u64 start_offset → is_u64 end_offset →
  let key := gen_object_path_v1 (dir +:+ "/") epoch start_offset end_offset in
  parse_wal_object {| oi_path := {| op_bucket_id := bucket_id; op_key := key |};
                      oi_timestamp_ms := timestamp_ms; oi_size := size |} =
  Some {| wl_bucket_id := bucket_id; wl_key := key; wl_epoch := epoch;
          wl_start_offset := start_offset; wl_end_offset := end_offset; wl_size := size |}.
Proof.
  intros He Hs Hd key.
  assert (Ek : split_on x2f (as_bytes key) = split_on x2f (as_bytes dir) ++
    [as_bytes (show_dec epoch); as_bytes "wal"; as_bytes (show_dec start_offset) ++ x2d :: as_bytes (show_dec end_offset)]).
  { unfold key, gen_object_path_v1. rewrite !as_bytes_append.
    change (as_bytes "/") with [x2f]. change (as_bytes "/wal/") with (x2f :: as_bytes "wal" ++ [x2f]).
    change (as_bytes "-") with [x2d]. rewrite <-!app_assoc. cbn [app]. rewrite split_on_app. f_equal.
    rewrite split_on_app, split_on_no_sep by (by apply digits_only). cbn [app]. f_equal.
    rewrite <-app_assoc. cbn [app]. rewrite split_on_app. f_equal. apply split_on_no_sep.
    rewrite elem_of_app, elem_of_cons. intros [Hin|[?|Hin]]; [|done|]; by eapply digits_only in Hin. }
  unfold parse_wal_object. cbn [oi_path op_key op_bucket_id oi_size]. rewrite Ek, length_app. cbn [length].
  set (n := length (split_on x2f (as_bytes dir))).
  destruct (Nat.ltb_spec (n + 3) 3); [lia|].
  rewrite !lookup_app_r by (fold n; lia). fold n.
  replace (n + 3 - 3 - n)%nat with 0%nat by lia. replace (n + 3 - 1 - n)%nat with 2%nat by lia.
  cbn [lookup list_lookup]. cbn [mbind option_bind]. rewrite parse_u64_show by done. cbn [mbind option_bind].
  rewrite split_once_sep by (by apply digits_only). by rewrite !parse_u64_show.
Qed.

(** ** Alignment *)
Lemma floor_align_le z : floor_align_offset z <= z < floor_align_offset z + DATA_FILE_ALIGN_SIZE.
Proof.
  unfold floor_align_offset. pose proof (Z.div_mod z DATA_FILE_ALIGN_SIZE ltac:(done)).
  pose proof (Z.mod_pos_bound z DATA_FILE_ALIGN_SIZE ltac:(done)). lia.
Qed.

Lemma floor_align_in base z :
  base mod DATA_FILE_ALIGN_SIZE = 0 → base <= z < base + DATA_FILE_ALIGN_SIZE → floor_align_offset z = base.
Proof.
  unfold floor_align_offset. intros Hm Hz. apply Z.mod_divide in Hm as [k ->]; [|done].
  f_equal. symmetry. apply Z.div_unique with (z - k * DATA_FILE_ALIGN_SIZE); lia.
Qed.

(** A window that is not empty and fits one file ends at the next boundary. *)
Lemma ceil_align_in base z :
  0 <= base → base mod DATA_FILE_ALIGN_SIZE = 0 → base < z <= base + DATA_FILE_ALIGN_SIZE →
  base + DATA_FILE_ALIGN_SIZE < two64 → ceil_align_offset z = base + DATA_FILE_ALIGN_SIZE.
Proof.
  unfold ceil_align_offset. intros Hb Hm Hz Hlt. apply Z.mod_divide in Hm as [k ->]; [|done].
  replace ((z + DATA_FILE_ALIGN_SIZE - 1) / DATA_FILE_ALIGN_SIZE) with (k + 1).
  - unfold wrap_u64. rewrite Z.mod_small by lia. lia.
  - apply Z.div_unique with (z - 1 - k * DATA_FILE_ALIGN_SIZE); lia.
Qed.

Lemma ceil_align_mod z : ceil_align_offset z mod DATA_FILE_ALIGN_SIZE = 0.
Proof.
  unfold ceil_align_offset, wrap_u64. set (k := (z + _ - 1) / _).
  change two64 with (2 ^ 38 * DATA_FILE_ALIGN_SIZE).
  rewrite Zmult_mod_distr_r. apply Z.mod_mul. done.
Qed.

(** ** The reservation fences the previous holder *)
Lemma put_i64_inj a b : is_i64 a → is_i64 b → put_i64 a = put_i64 b → a = b.
Proof.
  intros Ha Hb H. apply (f_equal be_val) in H. unfold put_i64 in H. rewrite !be_val_bytes in H.
  change (256 ^ Z.of_nat 8) with two64 in H.
  rewrite <-(wrap_i64_unsigned a Ha), <-(wrap_i64_unsigned b Hb). by rewrite H.
Qed.

Lemma wrap_i64_inj a b : is_u64 a → is_u64 b → wrap_i64 a = wrap_i64 b → a = b.
Proof.
  intros Ha Hb H. apply (f_equal (λ z, z mod two64)) in H. rewrite !wrap_i64_mod in H.
  rewrite !Z.mod_small in H; [done|int_lia..].
Qed.

Lemma target_bytes_inj n1 e1 f1 n2 e2 f2 :
  is_u32 n1 → is_u32 n2 → is_u64 e1 → is_u64 e2 →
  target_bytes n1 e1 f1 = target_bytes n2 e2 f2 → n1 = n2 ∧ e1 = e2 ∧ f1 = f2.
Proof.
  unfold target_bytes. intros ???? H. apply app_inj_1 in H as [_ H]; [|done].
  apply app_inj_1 in H as [Hn H]; [|done]. apply app_inj_1 in H as [He H]; [|done].
  apply put_i64_inj in Hn; [|int_lia..]. apply put_i64_inj in He; [|auto with ints..].
  apply wrap_i64_inj in He; [|done..]. split_and!; [done..|]. by destruct f1, f2.
Qed.

Section ReservationFacts.
Context {S W : Type} `{ObjectStorageContract S W}.

Lemma verify_stored rs s node_id epoch failover epoch' failover' :
  object s (reservation_path rs node_id) = Some (target_bytes node_id epoch' failover') → available s →
  rs_verify rs s node_id epoch failover =
    Ok (bool_decide (target_bytes node_id epoch' failover' = target_bytes node_id epoch failover)).
Proof.
  intros Ho Ha. unfold rs_verify.
  rewrite (range_read_present _ _ _ _ _ _ Ho Ha); [reflexivity|unfold S3_RESERVATION_OBJECT_LENGTH; lia|].
  unfold target_bytes, S3_RESERVATION_OBJECT_LENGTH. put_lia.
Qed.

(** Acquiring the reservation fences every other holder. Once
    [(epoch', failover')] has been acquired for a node, verification on a
    reachable storage succeeds for exactly that identity: it succeeds for a
    node, epoch and failover flag iff they are the ones stored, so the
    writer of an older epoch, or the same epoch opened without the failover
    flag, is told it no longer holds the WAL. *)
Theorem reservation_fences rs s s' node_id epoch failover epoch' failover' :
  is_u32 node_id → is_u64 epoch → is_u64 epoch' →
  rs_acquire rs s node_id epoch' failover' = (s', Ok tt) → available s' →
  (rs_verify rs s' node_id epoch failover = Ok true ↔ epoch = epoch' ∧ failover = failover') ∧
  (rs_verify rs s' node_id epoch failover = Ok false ↔ ¬ (epoch = epoch' ∧ failover = failover')) ∧
  (∀ key, key ≠ reservation_path rs node_id → object s' key = object s key).
Proof.
  intros Hn He He' Hacq Ha. unfold rs_acquire in Hacq.
  destruct (os_write _ _ _ _) as [s1 [b|e]] eqn:Hw; [|done].
  assert (s1 = s') as -> by congruence. apply write_durable in Hw as [Ho Hother].
  rewrite (verify_stored _ _ _ epoch failover _ _ Ho Ha). split_and!; [| |done].
  - split; [|by intros [-> ->]; rewrite bool_decide_eq_true_2].
    intros [= Hb%bool_decide_eq_true]. apply target_bytes_inj in Hb as (_ & -> & ->); done.
  - split.
    + intros [= Hb%bool_decide_eq_false] [-> ->]. done.
    + intros Hne. rewrite bool_decide_eq_false_2; [done|]. intros Hb. apply Hne.
      apply target_bytes_inj in Hb as (_ & -> & ->); done.
Qed.
End ReservationFacts.

Definition demo_reservation : ObjectReservationService := {| rs_cluster_id := "c"; rs_bucket_id := 0 |}.

Lemma reservation_fences_witness :
  let acquired := rs_acquire demo_reservation (mem_new 0 0) 7 5 true in
  acquired.2 = Ok tt ∧ rs_verify demo_reservation acquired.1 7 4 false = Ok false ∧
  rs_verify demo_reservation acquired.1 7 5 true = Ok true.
Proof.
  intros acquired. assert (Ha : acquired = (acquired.1, Ok tt)) by reflexivity.
  split; [reflexivity|]. split.
  - apply (reservation_fences demo_reservation (mem_new 0 0) acquired.1 7 4 false 5 true);
      [int_lia..|exact Ha|done|]. intros [? _]. lia.
  - apply (reservation_fences demo_reservation (mem_new 0 0) acquired.1 7 5 true 5 true);
      [int_lia..|exact Ha|done|done].
Defined.
