(* ===== verification/WalWriter.v ===== *)
(** * The object WAL writer

    [s3stream-wal/src/object/writer.rs]: records accumulate in an active
    bulk; a sealed bulk waits for an upload slot, is sorted, framed and
    written as one object, and completes in submission order after the
    reservation has been verified again. The writer's mutex makes every
    critical section one step; tasks the code spawns (timers, uploads, the
    callback loop, trims) are work items that later steps pick up in any
    order. Time is not modelled: a timer may fire at any moment. *)

From Stdlib Require Import ZArith Lia.
From Stdlib Require Import Strings.Byte.
From stdpp Require Import base numbers list strings sets gmap sorting.
From S2P Require Import Prelude StreamTypes RecordCodec ObjectIndex ObjectStore WalFormat.

Open Scope Z_scope.
Open Scope rust_scope.

(** ** Data *)
Record RecordOffset := { rof_epoch : Z; rof_offset : Z; rof_size : Z }.
#[export] Instance RecordOffset_eq_dec : EqDecision RecordOffset.
Proof. solve_decision. Defined.

Definition rof_end_offset (r : RecordOffset) : Z := wrap_u64 (rof_offset r + rof_size r).

Record AppendResult := { ar_record_offset : RecordOffset; ar_next_offset : RecordOffset }.

Inductive OpenMode := ReadWrite | RecoveryMode.
#[export] Instance OpenMode_eq_dec : EqDecision OpenMode.
Proof. solve_decision. Defined.

(** The fields of [ObjectWalConfig] the writer reads; intervals only matter
    to timers. *)
Record ObjectWalConfig := {
  wc_cluster_id : string;
  wc_node_id : Z;
  wc_epoch : Z;
  wc_open_mode : OpenMode;
  wc_wal_type : string;
  wc_max_bytes_in_batch : Z;
  wc_max_unflushed_bytes : Z;
  wc_max_inflight_upload_count : nat;
}.

(** [pr_ack] names the oneshot channel. *)
Record PendingRecord := {
  pr_record : StreamRecordBatch;
  pr_size : Z;
  pr_offset : Z;
  pr_ack : nat;
}.

Record Bulk := {
  bk_seq : Z;
  bk_base_offset : Z;
  bk_size : Z;
  bk_records : list PendingRecord;
}.

Definition bk_end_offset (b : Bulk) : Z := wrap_u64 (bk_base_offset b + bk_size b).

Record UploadingBulk := {
  ub_seq : Z;
  ub_end_offset_aligned : Z;
  ub_records : option (list PendingRecord);
  ub_done : option (result unit WalError);
}.

Record WriterState := {
  ws_previous_objects : list WalObject;
  ws_last_record_offset_to_object : gmap Z WalObject;
  ws_active : option Bulk;
  ws_bulk_seq : Z;
  ws_last_inactive_complete : option Z;
  ws_waiting : list Bulk;
  ws_uploading : list UploadingBulk;
}.

(** A spawned [upload_bulk] that has not started, and one whose PUT is in
    flight. *)
Record UploadJob := { uj_seq : Z; uj_base_offset : Z; uj_records : list PendingRecord }.
Record UploadPut := {
  up_seq : Z;
  up_base_offset : Z;
  up_end_offset : Z;
  up_last_record_offset : Z;
  up_records : list PendingRecord;
  up_path : string;
  up_payload : list byte;
}.

(** Objects a trim has released: their paths, their bytes and the trim. *)
Record PendingDelete := { pd_paths : list ObjectPath; pd_size : Z; pd_trim : Z }.

(** [Inner] with the tasks in flight and what the callers have observed: the
    acknowledgements and the listener calls, in order. [in_completing] is
    the batch the callback loop has popped, [in_complete] the bulks whose
    [complete_tx] was sent, [in_futures] the append futures not yet resolved
    with the bytes each accounts for, [in_trims] the trims that wait for
    the append of their record. *)
Record Inner := {
  in_state : WriterState;
  in_buffered_data_bytes : Z;
  in_object_data_bytes : Z;
  in_next_offset : Z;
  in_flushed_offset : Z;
  in_trim_offset : Z;
  in_closed : bool;
  in_fenced : bool;
  in_completed_trim : Z;
  in_jobs : list UploadJob;
  in_puts : list UploadPut;
  in_completing : option (list UploadingBulk);
  in_deletes : list PendingDelete;
  in_redeletes : list (list ObjectPath);
  in_complete : gset Z;
  in_tickets : nat;
  in_futures : list (nat * Z);
  in_trims : list (nat * Z);
  in_acks : list (PendingRecord * result AppendResult WalError);
  in_listened : list (StreamRecordBatch * RecordOffset * RecordOffset);
}.

#[export] Instance WriterState_eta : RecordEta WriterState := λ st,
  Build_WriterState (ws_previous_objects st) (ws_last_record_offset_to_object st) (ws_active st)
    (ws_bulk_seq st) (ws_last_inactive_complete st) (ws_waiting st) (ws_uploading st).
#[export] Instance Inner_eta : RecordEta Inner := λ i,
  Build_Inner (in_state i) (in_buffered_data_bytes i) (in_object_data_bytes i) (in_next_offset i)
    (in_flushed_offset i) (in_trim_offset i) (in_closed i) (in_fenced i) (in_completed_trim i)
    (in_jobs i) (in_puts i) (in_completing i) (in_deletes i) (in_redeletes i) (in_complete i)
    (in_tickets i) (in_futures i) (in_trims i) (in_acks i) (in_listened i).
#[export] Instance Bulk_eta : RecordEta Bulk := λ b,
  Build_Bulk (bk_seq b) (bk_base_offset b) (bk_size b) (bk_records b).
#[export] Instance UploadingBulk_eta : RecordEta UploadingBulk := λ u,
  Build_UploadingBulk (ub_seq u) (ub_end_offset_aligned u) (ub_records u) (ub_done u).
#[export] Instance PendingRecord_eta : RecordEta PendingRecord := λ p,
  Build_PendingRecord (pr_record p) (pr_size p) (pr_offset p) (pr_ack p).

(** [ObjectWalWriter::new]: closed until [start] succeeds. *)
Definition inner_new : Inner := {|
  in_state := {| ws_previous_objects := []; ws_last_record_offset_to_object := ∅; ws_active := None;
                 ws_bulk_seq := 0; ws_last_inactive_complete := None; ws_waiting := [];
                 ws_uploading := [] |};
  in_buffered_data_bytes := 0; in_object_data_bytes := 0; in_next_offset := 0;
  in_flushed_offset := 0; in_trim_offset := TRIM_OFFSET_NONE; in_closed := true;
  in_fenced := false; in_completed_trim := TRIM_OFFSET_NONE; in_jobs := []; in_puts := [];
  in_completing := None; in_deletes := []; in_redeletes := []; in_complete := ∅;
  in_tickets := 0; in_futures := []; in_trims := []; in_acks := []; in_listened := [] |}.

(** ** The payload of a bulk *)
Definition pending_leb (a b : PendingRecord) : bool :=
  let sa := stream_id (pr_record a) in
  let sb := stream_id (pr_record b) in
  (sa <? sb) || ((sa =? sb) && (base_offset (pr_record a) <=? base_offset (pr_record b))).

(** [record.offset = next_offset; next_offset += record.size] *)
Fixpoint place (next_offset : Z) (records : list PendingRecord) : list PendingRecord :=
  match records with
  | [] => []
  | r :: records =>
      r <| pr_offset := next_offset |> :: place (wrap_u64 (next_offset + pr_size r)) records
  end.

Definition data_length (records : list PendingRecord) : Z :=
  foldr (λ r len, wrap_u64 (pr_size r + len)) 0 records.

Definition last_record_offset (base_offset : Z) (placed : list PendingRecord) : Z :=
  match last placed with Some r => pr_offset r | None => base_offset end.

Section Writer.
(** CRC32 and MD5 come from crates. *)
Context (crc32 : list byte → Z) (md5_hex_upper : list byte → string) (config : ObjectWalConfig).

Definition writer_node_prefix : string :=
  node_prefix md5_hex_upper (wc_cluster_id config) (wc_node_id config) (Some (wc_wal_type config)).
Definition object_prefix : string := writer_node_prefix +:+ show_dec (wc_epoch config) +:+ "/wal/".
Definition object_path (start_offset end_offset : Z) : string :=
  object_prefix +:+ show_dec start_offset +:+ "-" +:+ show_dec end_offset.

Definition frames (placed : list PendingRecord) : list byte :=
  mjoin ((λ r, frame_record crc32 (pr_offset r) (encoded (pr_record r))) <$> placed).

Definition bulk_payload (trim_offset base_offset : Z) (placed : list PendingRecord) : list byte :=
  wh_marshal (header_v1 base_offset (data_length placed) (wc_node_id config) (wc_epoch config) trim_offset)
    ++ frames placed.

(** [upload_bulk] up to its PUT. *)
Definition upload_build (trim_offset : Z) (job : UploadJob) : UploadPut :=
  let base_offset := uj_base_offset job in
  let records := stable_sort pending_leb (uj_records job) in
  let placed := place base_offset records in
  let next_offset :=
    match last placed with Some r => wrap_u64 (pr_offset r + pr_size r) | None => base_offset end in
  let end_offset := ceil_align_offset next_offset in
  {| up_seq := uj_seq job; up_base_offset := base_offset; up_end_offset := end_offset;
     up_last_record_offset := last_record_offset base_offset placed; up_records := placed;
     up_path := object_path base_offset end_offset;
     up_payload := bulk_payload trim_offset base_offset placed |}.

(** ** Bulks *)
Definition new_active_bulk (i : Inner) : Inner :=
  let st := in_state i in
  let seq := ws_bulk_seq st + 1 in
  i <| in_state := st <| ws_bulk_seq := seq |> <| ws_active := Some
    {| bk_seq := seq; bk_base_offset := in_next_offset i; bk_size := 0; bk_records := [] |} |> |>.

Definition seal_active (i : Inner) : Inner :=
  let st := in_state i in
  match ws_active st with
  | None => i
  | Some bulk =>
      i <| in_next_offset := ceil_align_offset (wrap_u64 (in_next_offset i + bk_size bulk)) |>
        <| in_state := st <| ws_active := None |> <| ws_last_inactive_complete := Some (bk_seq bulk) |>
             <| ws_waiting := ws_waiting st ++ [bulk] |> |>
  end.

Definition start_upload (b : Bulk) : UploadingBulk := {|
  ub_seq := bk_seq b; ub_end_offset_aligned := ceil_align_offset (bk_end_offset b);
  ub_records := None; ub_done := None |}.
Definition upload_job (b : Bulk) : UploadJob := {|
  uj_seq := bk_seq b; uj_base_offset := bk_base_offset b; uj_records := bk_records b |}.

(** Bulks move to [uploading] while there are slots; each gets a task. *)
Definition try_upload_waiting (i : Inner) : Inner :=
  let st := in_state i in
  let slots := (wc_max_inflight_upload_count config - length (ws_uploading st))%nat in
  let admitted := take slots (ws_waiting st) in
  i <| in_state := st <| ws_waiting := drop slots (ws_waiting st) |>
         <| ws_uploading := ws_uploading st ++ (start_upload <$> admitted) |> |>
    <| in_jobs := in_jobs i ++ (upload_job <$> admitted) |>.

Definition fenced_error : WalError := Fenced (wc_node_id config) (wc_epoch config).

Definition check_status (i : Inner) : result unit WalError :=
  if in_closed i then Err NotInitialized
  else if in_fenced i then Err fenced_error
  else Ok tt.

(** ** Appending *)

(** The part of [submit] under the lock: the record joins the active bulk. *)
Definition push_record (record : StreamRecordBatch) (data_size : Z) (i : Inner) : Inner :=
  let i := match ws_active (in_state i) with None => new_active_bulk i | Some _ => i end in
  let i :=
    match ws_active (in_state i) with
    | Some active =>
        if DATA_FILE_ALIGN_SIZE <? wrap_u64 (data_size + bk_size active)
        then new_active_bulk (seal_active i) else i
    | None => i
    end in
  let i := i <| in_buffered_data_bytes := wrap_u64 (in_buffered_data_bytes i + data_size) |> in
  match ws_active (in_state i) with
  | None => i
  | Some active =>
      let active := active
        <| bk_records := bk_records active ++ [{| pr_record := record; pr_size := data_size;
             pr_offset := 0; pr_ack := in_tickets i |}] |>
        <| bk_size := wrap_u64 (bk_size active + data_size) |> in
      i <| in_state := in_state i <| ws_active := Some active |> |>
        <| in_futures := in_futures i ++ [(in_tickets i, data_size)] |>
        <| in_tickets := S (in_tickets i) |>
  end.

Definition active_full (i : Inner) : bool :=
  match ws_active (in_state i) with
  | Some active => (wc_max_bytes_in_batch config <? bk_size active)
                   || bool_decide (wc_open_mode config = RecoveryMode)
  | None => false
  end.

(** The result is the ticket of the append future. *)
Definition submit (record : StreamRecordBatch) (i : Inner) : Inner * result nat WalError :=
  match check_status i with
  | Err e => (i, Err e)
  | Ok _ =>
      let buffered := in_buffered_data_bytes i in
      if wc_max_unflushed_bytes config <? buffered then
        (i, Err (OverCapacity buffered (wc_max_unflushed_bytes config)))
      else
        let data_size := Z.of_nat (length (encoded record)) + Z.of_nat WAL_RECORD_HEADER_SIZE in
        if DATA_FILE_ALIGN_SIZE <? data_size then
          (i, Err (RecordTooLarge data_size DATA_FILE_ALIGN_SIZE))
        else
          let ticket := in_tickets i in
          let i := push_record record data_size i in
          if active_full i then (try_upload_waiting (seal_active i), Ok ticket) else (i, Ok ticket)
  end.

(** The append future resolves once its ack arrived and gives its bytes back. *)
Definition resolve (ticket : nat) (i : Inner) : Inner :=
  match list_find (λ f : nat * Z, f.1 = ticket) (in_futures i) with
  | Some (n, (_, data_size)) =>
      i <| in_buffered_data_bytes := wrap_u64 (in_buffered_data_bytes i - data_size) |>
        <| in_futures := delete n (in_futures i) |>
  | None => i
  end.

Definition ack_of (ticket : nat) (i : Inner) : option (result AppendResult WalError) :=
  snd <$> (snd <$> list_find (λ a : PendingRecord * result AppendResult WalError, pr_ack a.1 = ticket)
    (in_acks i)).

(** The timer of bulk [seq]. *)
Definition timer (seq : Z) (i : Inner) : Inner :=
  match ws_active (in_state i) with
  | Some b => if bk_seq b =? seq then try_upload_waiting (seal_active i) else i
  | None => i
  end.

(** [flush] up to its wait; [close] also stops further appends. *)
Definition flush (i : Inner) : Inner := try_upload_waiting (seal_active i).
Definition close (i : Inner) : Inner := flush (i <| in_closed := true |>).
(** What both then wait for. *)
Definition flushed (i : Inner) : bool :=
  match ws_last_inactive_complete (in_state i) with
  | Some seq => bool_decide (seq ∈ in_complete i)
  | None => true
  end.

Definition confirm_offset (i : Inner) : RecordOffset :=
  {| rof_epoch := wc_epoch config; rof_offset := in_flushed_offset i; rof_size := 0 |}.

(** ** Uploading and completing *)

(** A spawned upload takes the trim offset of the moment it builds. *)
Definition begin_upload (n : nat) (i : Inner) : Inner :=
  match in_jobs i !! n with
  | None => i
  | Some job =>
      i <| in_jobs := delete n (in_jobs i) |>
        <| in_puts := in_puts i ++ [upload_build (in_trim_offset i) job] |>
  end.

(** The entry of bulk [seq] gets its records back and its outcome. *)
Fixpoint set_done (seq : Z) (records : list PendingRecord) (done : result unit WalError)
    (uploading : list UploadingBulk) : list UploadingBulk :=
  match uploading with
  | [] => []
  | u :: uploading =>
      if ub_seq u =? seq then u <| ub_records := Some records |> <| ub_done := Some done |> :: uploading
      else u :: set_done seq records done uploading
  end.

(** [upload_bulk] after its PUT answered. *)
Definition end_upload (n : nat) (answer : result Z ObjectError) (i : Inner) : Inner :=
  match in_puts i !! n with
  | None => i
  | Some put =>
      let st := in_state i in
      let i := i <| in_puts := delete n (in_puts i) |> in
      match answer with
      | Ok bucket_id =>
          let object_length := Z.of_nat (length (up_payload put)) in
          i <| in_state := st
                 <| ws_uploading := set_done (up_seq put) (up_records put) (Ok tt) (ws_uploading st) |>
                 <| ws_last_record_offset_to_object :=
                      <[up_last_record_offset put :=
                          {| wl_bucket_id := bucket_id; wl_key := up_path put; wl_epoch := wc_epoch config;
                             wl_start_offset := up_base_offset put; wl_end_offset := up_end_offset put;
                             wl_size := object_length |}]> (ws_last_record_offset_to_object st) |> |>
            <| in_object_data_bytes := wrap_u64 (in_object_data_bytes i + object_length) |>
      | Err e =>
          i <| in_state := st
                 <| ws_uploading := set_done (up_seq put) (up_records put) (Err (Storage e)) (ws_uploading st) |> |>
            <| in_fenced := true |>
      end
  end.

(** The finished bulks at the front of the queue, and the rest. *)
Fixpoint pop_done (uploading : list UploadingBulk) : list UploadingBulk * list UploadingBulk :=
  match uploading with
  | [] => ([], [])
  | u :: rest =>
      match ub_done u with
      | Some _ => let '(completed, rest) := pop_done rest in (u :: completed, rest)
      | None => ([], uploading)
      end
  end.

(** The callback loop: pop, admit more bulks, then verify the reservation. *)
Definition callback_pop (i : Inner) : Inner :=
  match in_completing i with
  | Some _ => i
  | None =>
      let st := in_state i in
      let '(completed, rest) := pop_done (ws_uploading st) in
      match completed with
      | [] => i
      | _ => try_upload_waiting
               (i <| in_state := st <| ws_uploading := rest |> |> <| in_completing := Some completed |>)
      end
  end.

Definition append_result (r : PendingRecord) (is_last : bool) : AppendResult :=
  let next_offset := wrap_u64 (pr_offset r + pr_size r) in
  {| ar_record_offset := {| rof_epoch := wc_epoch config; rof_offset := pr_offset r;
                            rof_size := wrap_u32 (pr_size r) |};
     ar_next_offset := {| rof_epoch := wc_epoch config;
                          rof_offset := if is_last then ceil_align_offset next_offset else next_offset;
                          rof_size := 0 |} |}.

Fixpoint append_results (records : list PendingRecord) : list (PendingRecord * AppendResult) :=
  match records with
  | [] => []
  | r :: rest => (r, append_result r (match rest with [] => true | _ => false end)) :: append_results rest
  end.

(** The listener runs before the ack and skips the trim's own record. *)
Definition listener_calls (results : list (PendingRecord * AppendResult)) :
    list (StreamRecordBatch * RecordOffset * RecordOffset) :=
  (λ p : PendingRecord * AppendResult, (pr_record p.1, ar_record_offset p.2, ar_next_offset p.2)) <$>
  filter (λ p : PendingRecord * AppendResult, stream_id (pr_record p.1) ≠ TRIM_RECORD_SENTINEL) results.

Definition complete_bulk (fenced : bool) (i : Inner) (u : UploadingBulk) : Inner :=
  let records := default [] (ub_records u) in
  let i := i <| in_complete := {[ub_seq u]} ∪ in_complete i |> in
  if fenced then i <| in_acks := in_acks i ++ ((λ r, (r, Err fenced_error)) <$> records) |>
  else
    let results := append_results records in
    i <| in_acks := in_acks i ++ ((λ p : PendingRecord * AppendResult, (p.1, Ok p.2)) <$> results) |>
      <| in_listened := in_listened i ++ listener_calls results |>.

Definition callback_verify (verified : result bool WalError) (i : Inner) : Inner :=
  match in_completing i with
  | None => i
  | Some completed =>
      let fenced := match verified with Ok true => in_fenced i | _ => true end in
      let i := i <| in_fenced := fenced |> <| in_completing := None |> in
      foldl (λ i u, complete_bulk fenced
               (if fenced then i else i <| in_flushed_offset := ub_end_offset_aligned u |>) u) i completed
  end.

(** ** Trimming *)
Definition trim_record : StreamRecordBatch :=
  new_batch TRIM_RECORD_SENTINEL TRIM_RECORD_SENTINEL 0 0 [].

Inductive TrimStarted :=
| TrimWaiting
| TrimAppended (ticket : nat).

(** [trim0] up to its first wait: either an earlier trim covers the offset,
    or the offset is stored and a record is appended to carry it. *)
Definition trim_begin (inclusive_trim_record_offset : Z) (i : Inner) :
    Inner * result TrimStarted WalError :=
  match check_status i with
  | Err e => (i, Err e)
  | Ok _ =>
      if inclusive_trim_record_offset <=? in_trim_offset i then (i, Ok TrimWaiting)
      else
        let '(i, r) := submit trim_record (i <| in_trim_offset := inclusive_trim_record_offset |>) in
        match r with
        | Ok ticket =>
            (i <| in_trims := in_trims i ++ [(ticket, inclusive_trim_record_offset)] |>,
             Ok (TrimAppended ticket))
        | Err e => (i, Err e)
        end
  end.

Definition trim_waited (inclusive_trim_record_offset : Z) (i : Inner) : bool :=
  inclusive_trim_record_offset <=? in_completed_trim i.

Definition wl_path (o : WalObject) : ObjectPath :=
  {| op_bucket_id := wl_bucket_id o; op_key := wl_key o |}.
Definition sum_sizes (objects : list WalObject) : Z := foldr (λ o n, wrap_u64 (wl_size o + n)) 0 objects.

(** This epoch's objects the trim covers; the newest is kept. *)
Definition covered_objects (trim : Z) (m : gmap Z WalObject) : list (Z * WalObject) :=
  match last (ord_list m) with
  | None => []
  | Some (last_flushed, _) =>
      filter (λ p : Z * WalObject, p.1 ≠ last_flushed) (ord_range 0 (Z.max trim 0) m)
  end.

(** Earlier epochs' objects that end at or before the trim offset. *)
Definition covered_previous (trim : Z) (skip_the_last : bool) (previous : list WalObject) : list WalObject :=
  take_while (λ o, negb (trim <? wrap_i64 (wl_end_offset o)))
    (take (length previous - (if skip_the_last then 1 else 0)) previous).

(** [trim0] after its record was acknowledged, up to the delete; a failed
    append ends the trim. *)
Definition trim_release (n : nat) (inclusive_trim_record_offset : Z) (i : Inner) : Inner :=
  let st := in_state i in
  let i := i <| in_trims := delete n (in_trims i) |> in
  let covered := covered_objects inclusive_trim_record_offset (ws_last_record_offset_to_object st) in
  let previous := covered_previous inclusive_trim_record_offset
    (match covered with [] => true | _ => false end) (ws_previous_objects st) in
  let released := (snd <$> covered) ++ previous in
  i <| in_state := st
         <| ws_last_record_offset_to_object :=
              foldl (λ m p, delete p.1 m) (ws_last_record_offset_to_object st) covered |>
         <| ws_previous_objects := drop (length previous) (ws_previous_objects st) |> |>
    <| in_deletes := in_deletes i ++ [{| pd_paths := wl_path <$> released; pd_size := sum_sizes released;
                                         pd_trim := inclusive_trim_record_offset |}] |>.

Definition trim_failed (n : nat) (i : Inner) : Inner := i <| in_trims := delete n (in_trims i) |>.

(** [trim0] after the delete answered (either way); the delete is repeated
    once more later. *)
Definition trim_end (n : nat) (i : Inner) : Inner :=
  match in_deletes i !! n with
  | None => i
  | Some d =>
      let i := i <| in_deletes := delete n (in_deletes i) |>
                 <| in_completed_trim := Z.max (in_completed_trim i) (pd_trim d) |> in
      match pd_paths d with
      | [] => i
      | _ => i <| in_object_data_bytes := wrap_u64 (in_object_data_bytes i - pd_size d) |>
               <| in_redeletes := in_redeletes i ++ [pd_paths d] |>
      end
  end.

Definition trim (offset : RecordOffset) (i : Inner) : Inner * result TrimStarted WalError :=
  trim_begin (wrap_i64 (rof_offset offset)) i.

(** [None]: nothing was ever written, so there is nothing to trim. *)
Definition reset (i : Inner) : option (Inner * result TrimStarted WalError) :=
  let next_offset := in_next_offset i in
  if next_offset =? 0 then None else Some (trim_begin (wrap_i64 next_offset - 1) i).

Definition object_list (i : Inner) : result (list WalObject) WalError :=
  let? _ := check_status i in
  Ok (ws_previous_objects (in_state i) ++ (ord_list (ws_last_record_offset_to_object (in_state i))).*2).

(** ** Starting *)

(** [start]: the new state, the overlapping objects to delete, the result. *)
Definition start (verified : result bool WalError) (listed : result (list ObjectInfo) ObjectError)
    (i : Inner) : Inner * list ObjectPath * result unit WalError :=
  match verified with
  | Err e => (i, [], Err e)
  | Ok false => (i <| in_fenced := true |>, [], Err fenced_error)
  | Ok true =>
      match listed with
      | Err e => (i, [], Err (Storage e))
      | Ok listed =>
          let '(objects, overlap) := skip_overlap_objects (parse_wal_objects listed) in
          let paths := wl_path <$> overlap in
          if match last objects with Some o => wc_epoch config <? wl_epoch o | None => false end
          then (i <| in_fenced := true |>, paths, Ok tt)
          else
            let flushed := match last objects with Some o => wl_end_offset o | None => 0 end in
            (i <| in_object_data_bytes := wrap_u64 (in_object_data_bytes i + sum_sizes objects) |>
               <| in_state := in_state i <| ws_previous_objects :=
                    ws_previous_objects (in_state i) ++ objects |> |>
               <| in_flushed_offset := flushed |> <| in_next_offset := flushed |>
               <| in_closed := false |>, paths, Ok tt)
      end
  end.
End Writer.
