(* ===== verification/WalReader.v ===== *)
(** * The read side of the object WAL

    [WalReader] of [s3stream-wal/src/object/service.rs]: one record by its
    position, or the records of a range of positions, found through the
    64 MiB alignment of WAL objects and an index from start offsets to
    epochs. *)

From Stdlib Require Import ZArith Lia.
From Stdlib Require Import Strings.Byte.
From stdpp Require Import base numbers list strings sets gmap sorting.
From S2P Require Import Prelude StreamTypes RecordCodec ObjectIndex ObjectStore WalFormat WalWriter.

Open Scope Z_scope.
Open Scope rust_scope.

(** [ReaderIndex]; the storage and the prefix are arguments. *)
Record ReaderIndex := {
  ri_map : gmap Z Z;
  ri_largest_epoch : option Z;
}.

Section Reader.
Context (crc32 : list byte → Z) (node_prefix : string).
Context {St W : Type} `{HS : ObjectStorage St W}.

Definition read_options (s : St) : ReadOptions :=
  {| ro_throttle := Bypass; ro_bucket_id := Some (os_bucket_id s) |}.

Definition wal_get (s : St) (offset : RecordOffset) : result StreamRecordBatch WalError :=
  let object_start := floor_align_offset (rof_offset offset) in
  let object_path := gen_object_path_v1_aligned node_prefix (rof_epoch offset) object_start in
  let relative_start := wrap_u64 (rof_offset offset - object_start + Z.of_nat WAL_HEADER_SIZE_V1) in
  match range_read s (read_options s) object_path relative_start
          (Some (wrap_u64 (relative_start + rof_size offset))) with
  | Err e => Err (Storage e)
  | Ok buf =>
      match decode_record crc32 buf with
      | Ok (record, _) => Ok record
      | Err e => Err (Unmarshal e)
      end
  end.

(** The first object of each run of one epoch, in listing order. *)
Fixpoint epoch_starts (last_epoch : option Z) (objects : list WalObject) : list (Z * Z) :=
  match objects with
  | [] => []
  | o :: objects =>
      if bool_decide (last_epoch = Some (wl_epoch o)) then epoch_starts last_epoch objects
      else (wl_start_offset o, wl_epoch o) :: epoch_starts (Some (wl_epoch o)) objects
  end.

Definition epoch_map (objects : list WalObject) : gmap Z Z :=
  foldl (λ m p, <[p.1 := p.2]> m) ∅ (epoch_starts None objects).

(** The index is rebuilt unless it covers [epoch]. *)
Definition ensure_index (s : St) (index : ReaderIndex) (epoch : Z) : result ReaderIndex WalError :=
  if match ri_largest_epoch index with Some largest => epoch <=? largest | None => false end
  then Ok index
  else
    match os_list s node_prefix with
    | Err e => Err (Storage e)
    | Ok listed =>
        let objects := parse_wal_objects listed in
        Ok {| ri_map := epoch_map objects; ri_largest_epoch := snd <$> last (epoch_starts None objects) |}
    end.

(** The files to read from [next_get_offset] on, up to the end of an epoch
    and of the range; one file per round. *)
Fixpoint range_files (fuel : nat) (epoch epoch_end_offset end_offset next_get_offset : Z) :
    list (Z * Z * string) * Z :=
  match fuel with
  | O => ([], next_get_offset)
  | S fuel =>
      if (next_get_offset <? epoch_end_offset) && (next_get_offset <? end_offset) then
        let object_start := floor_align_offset next_get_offset in
        let relative_start := wrap_u64 (next_get_offset - object_start + Z.of_nat WAL_HEADER_SIZE_V1) in
        let '(files, next) := range_files fuel epoch epoch_end_offset end_offset
          (wrap_u64 (object_start + DATA_FILE_ALIGN_SIZE)) in
        ((next_get_offset, relative_start, gen_object_path_v1_aligned node_prefix epoch object_start) :: files, next)
      else ([], next_get_offset)
  end.

(** All epochs of the range; the last one has no end of its own. *)
Fixpoint range_reads (fuel : nat) (entries : list (Z * Z)) (end_offset next_get_offset : Z) :
    list (Z * Z * string) :=
  match entries with
  | [] => []
  | (_, epoch) :: entries =>
      let epoch_end_offset := match entries with (start, _) :: _ => start | [] => u64_max end in
      let '(files, next) := range_files fuel epoch epoch_end_offset end_offset next_get_offset in
      files ++ range_reads fuel entries end_offset next
  end.

Definition is_trim_record (batch : StreamRecordBatch) : bool :=
  (count batch =? 0) && (stream_id batch =? TRIM_RECORD_SENTINEL) && (epoch batch =? TRIM_RECORD_SENTINEL).

(** The records of one file up to [end_offset]; a frame consumes bytes, so
    one round per byte is enough. *)
Fixpoint decode_until (fuel : nat) (end_offset next_record_offset : Z) (buf : list byte) :
    result (list StreamRecordBatch) WalError :=
  match fuel with
  | O => Ok []
  | S fuel =>
      match buf with
      | [] => Ok []
      | _ =>
          if next_record_offset <? end_offset then
            match decode_record crc32 buf with
            | Err e => Err (Unmarshal e)
            | Ok (batch, rest) =>
                let consumed := Z.of_nat (length buf) - Z.of_nat (length rest) in
                let? batches := decode_until fuel end_offset (wrap_u64 (next_record_offset + consumed)) rest in
                Ok (if is_trim_record batch then batches else batch :: batches)
            end
          else Ok []
      end
  end.

Fixpoint decode_files (s : St) (end_offset : Z) (reads : list (Z * Z * string)) :
    result (list StreamRecordBatch) WalError :=
  match reads with
  | [] => Ok []
  | (read_from, relative_start, path) :: reads =>
      match range_read s (read_options s) path relative_start None with
      | Err e => Err (Storage e)
      | Ok buf =>
          let? batches := decode_until (length buf) end_offset read_from buf in
          let? rest := decode_files s end_offset reads in
          Ok (batches ++ rest)
      end
  end.

Definition get_range (s : St) (index : ReaderIndex) (start stop : RecordOffset) :
    result (ReaderIndex * list StreamRecordBatch) WalError :=
  if rof_offset start =? rof_offset stop then Ok (index, [])
  else
    let? index := ensure_index s index (rof_epoch stop) in
    match ord_floor (rof_offset start) (ri_map index) with
    | None => Err (Recovery NoEpochForOffset)
    | Some (floor_key, _) =>
        let entries := filter (λ p : Z * Z, floor_key <= p.1 < rof_offset stop) (ord_list (ri_map index)) in
        match entries with
        | [] => Err (Recovery NoEpochForOffset)
        | _ =>
            let fuel := Z.to_nat ((rof_offset stop - rof_offset start) / DATA_FILE_ALIGN_SIZE + 2) in
            let? batches := decode_files s (rof_offset stop)
              (range_reads fuel entries (rof_offset stop) (rof_offset start)) in
            Ok (index, batches)
        end
    end.
End Reader.
