(* ===== verification/WalLog.v ===== *)
(** * The WAL writer keeps its contract

    The writer of [WalWriter] as a transition system over a storage that
    meets the [ObjectStorageContract], with the invariants of every reachable
    state: the bulks are laid out back to back on 64 MiB boundaries, an
    acknowledged record is durable until it is trimmed, and acknowledgements
    follow the log. *)

From Stdlib Require Import ZArith Lia.
From Stdlib Require Import Strings.Byte.
From stdpp Require Import base numbers list strings sets gmap sorting.
From S2P Require Import Prelude StreamTypes RecordCodec ObjectIndex ObjectStore WalFormat WalWriter WalReader.

Open Scope Z_scope.
Open Scope rust_scope.

Notation ALIGN := DATA_FILE_ALIGN_SIZE.

Section Log.
Context (crc32 : list byte → Z) (md5_hex_upper : list byte → string) (config : ObjectWalConfig).
Context {S W : Type} `{HS : ObjectStorage S W} `{HC : !ObjectStorageContract S W}.

Notation path := (object_path md5_hex_upper config).
Notation payload := (bulk_payload crc32 config).

(** ** The transition system *)

(** One step of the node or of its environment. Other writers and the
    reservation do not touch this epoch's objects; the verdict of the
    reservation is arbitrary. *)
Inductive wal_step : S * Inner → S * Inner → Prop :=
| StepSubmit s i record i' r :
    well_formed record → submit config record i = (i', r) → wal_step (s, i) (s, i')
| StepResolve s i ticket : is_Some (ack_of ticket i) → wal_step (s, i) (s, resolve ticket i)
| StepTimer s i seq : wal_step (s, i) (s, timer config seq i)
| StepFlush s i : wal_step (s, i) (s, flush config i)
| StepClose s i : wal_step (s, i) (s, close config i)
| StepBeginUpload s i n : wal_step (s, i) (s, begin_upload crc32 md5_hex_upper config n i)
| StepEndUpload s i n put s' answer :
    in_puts i !! n = Some put →
    os_write s default_write_options (up_path put) (up_payload put) = (s', answer) →
    wal_step (s, i) (s', end_upload config n answer i)
| StepPop s i : wal_step (s, i) (s, callback_pop config i)
| StepVerify s i verified : wal_step (s, i) (s, callback_verify config verified i)
| StepTrim s i offset i' r : trim_begin config offset i = (i', r) → wal_step (s, i) (s, i')
| StepTrimRelease s i n ticket offset r :
    in_trims i !! n = Some (ticket, offset) → ack_of ticket i = Some (Ok r) →
    wal_step (s, i) (s, trim_release n offset i)
| StepTrimFailed s i n ticket offset e :
    in_trims i !! n = Some (ticket, offset) → ack_of ticket i = Some (Err e) →
    wal_step (s, i) (s, trim_failed n i)
| StepTrimEnd s i n d s' r :
    in_deletes i !! n = Some d → os_delete s (pd_paths d) = (s', r) →
    wal_step (s, i) (s', trim_end n i)
| StepTrimEndNone s i n d :
    in_deletes i !! n = Some d → pd_paths d = [] → wal_step (s, i) (s, trim_end n i)
| StepRedelete s i paths s' r :
    paths ∈ in_redeletes i → os_delete s paths = (s', r) → wal_step (s, i) (s', i)
| StepEnvironment s i s' :
    (∀ a b, object s' (path a b) = object s (path a b)) → wal_step (s, i) (s', i).

(** Offsets are [u64] and compared as [i64]; 2^63 bytes of log are never
    written, and a step moves the end of the log by at most two files. *)
Definition offsets_fit (i : Inner) : Prop := in_next_offset i + 2 * ALIGN < two63.

(** States reachable from a writer that has started. *)
Inductive wal_reach (s0 : S) (i0 : Inner) : S → Inner → Prop :=
| ReachStart : wal_reach s0 i0 s0 i0
| ReachStep s i s' i' :
    wal_reach s0 i0 s i → offsets_fit i → wal_step (s, i) (s', i') → wal_reach s0 i0 s' i'.

(** ** Layout *)
Fixpoint total_size (records : list PendingRecord) : Z :=
  match records with
  | [] => 0
  | r :: records => pr_size r + total_size records
  end.

(** A record as [submit] builds it. *)
Definition pending_ok (r : PendingRecord) : Prop :=
  well_formed (pr_record r) ∧
  pr_size r = Z.of_nat (length (encoded (pr_record r))) + Z.of_nat WAL_RECORD_HEADER_SIZE.

(** The records of one object: some, and they fit one file. *)
Definition records_ok (records : list PendingRecord) : Prop :=
  records ≠ [] ∧ Forall pending_ok records ∧ total_size records <= ALIGN.

Definition bulk_ok (b : Bulk) : Prop := records_ok (bk_records b) ∧ bk_size b = total_size (bk_records b).

(** Sealed bulks from [lo] to [hi], one file each. *)
Fixpoint bulk_chain (lo : Z) (bulks : list Bulk) (hi : Z) : Prop :=
  match bulks with
  | [] => lo = hi
  | b :: bulks => bk_base_offset b = lo ∧ bulk_ok b ∧ bulk_chain (lo + ALIGN) bulks hi
  end.

Fixpoint entry_chain (lo : Z) (entries : list UploadingBulk) (hi : Z) : Prop :=
  match entries with
  | [] => lo = hi
  | u :: entries => ub_end_offset_aligned u = lo + ALIGN ∧ entry_chain (lo + ALIGN) entries hi
  end.

(** Popped and uploading bulks, in log order. *)
Definition entries (i : Inner) : list UploadingBulk :=
  default [] (in_completing i) ++ ws_uploading (in_state i).

Definition seqs (i : Inner) : list Z :=
  (ub_seq <$> ws_uploading (in_state i)) ++ (bk_seq <$> ws_waiting (in_state i)) ++
  match ws_active (in_state i) with Some b => [bk_seq b] | None => [] end.

(** The upload tasks: the bulk and where it starts. *)
Definition tasks (i : Inner) : list (Z * Z) :=
  ((λ j, (uj_seq j, uj_base_offset j)) <$> in_jobs i) ++
  ((λ p, (up_seq p, up_base_offset p)) <$> in_puts i).

(** Records at consecutive offsets from the file boundary [base]. *)
Definition laid (base : Z) (records : list PendingRecord) : Prop :=
  records_ok records ∧ records = place base records ∧ base mod ALIGN = 0.

Definition put_ok (p : UploadPut) : Prop :=
  laid (up_base_offset p) (up_records p) ∧
  up_path p = path (up_base_offset p) (up_base_offset p + ALIGN) ∧
  up_last_record_offset p = last_record_offset (up_base_offset p) (up_records p) ∧
  ∃ trim_offset, up_payload p = payload trim_offset (up_base_offset p) (up_records p).

Record Layout (base : Z) (i : Inner) (lo mid : Z) : Prop := {
  lay_base : 0 <= base <= lo ∧ lo mod ALIGN = 0;
  lay_entries : entry_chain lo (entries i) mid;
  lay_waiting : bulk_chain mid (ws_waiting (in_state i)) (in_next_offset i);
  lay_active b : ws_active (in_state i) = Some b → bulk_ok b ∧ bk_base_offset b = in_next_offset i;
  lay_flushed : base <= in_flushed_offset i <= lo ∧ (in_fenced i = false → in_flushed_offset i = lo);
  lay_seqs : StronglySorted Z.lt (seqs i) ∧ Forall (λ q, q <= ws_bulk_seq (in_state i)) (seqs i);
  lay_tasks : NoDup (tasks i).*1;
  lay_task t : t ∈ tasks i → ∃ u, u ∈ ws_uploading (in_state i) ∧ ub_seq u = t.1 ∧
    ub_end_offset_aligned u = t.2 + ALIGN ∧ ub_done u = None;
  lay_undone u : u ∈ ws_uploading (in_state i) → ub_done u = None → ub_seq u ∈ (tasks i).*1;
  lay_popped u : u ∈ default [] (in_completing i) → is_Some (ub_done u);
  lay_jobs : Forall (λ j, records_ok (uj_records j)) (in_jobs i);
  lay_puts : Forall put_ok (in_puts i);
}.

(** ** Chains *)
Lemma bulk_chain_app lo bs1 bs2 hi :
  bulk_chain lo (bs1 ++ bs2) hi ↔ ∃ mid, bulk_chain lo bs1 mid ∧ bulk_chain mid bs2 hi.
Proof.
  revert lo. induction bs1 as [|b bs1 IH]; intros lo; cbn [app bulk_chain].
  - split; [eauto|]. by intros (? & -> & ?).
  - rewrite IH. split; [intros (? & ? & ? & ? & ?)|intros (? & (? & ? & ?) & ?)]; eauto 10.
Qed.

Lemma bulk_chain_length lo bs hi : bulk_chain lo bs hi → hi = lo + Z.of_nat (length bs) * ALIGN.
Proof.
  revert lo. induction bs as [|b bs IH]; intros lo; cbn [bulk_chain length]; [lia|].
  intros (_ & _ & Hc). apply IH in Hc. lia.
Qed.

Lemma entry_chain_app lo us1 us2 hi :
  entry_chain lo (us1 ++ us2) hi ↔ ∃ mid, entry_chain lo us1 mid ∧ entry_chain mid us2 hi.
Proof.
  revert lo. induction us1 as [|b us1 IH]; intros lo; cbn [app entry_chain].
  - split; [eauto|]. by intros (? & -> & ?).
  - rewrite IH. split; [intros (? & ? & ? & ?)|intros (? & (? & ?) & ?)]; eauto 10.
Qed.

Lemma entry_chain_length lo us hi : entry_chain lo us hi → hi = lo + Z.of_nat (length us) * ALIGN.
Proof.
  revert lo. induction us as [|b us IH]; intros lo; cbn [entry_chain length]; [lia|].
  intros (_ & Hc). apply IH in Hc. lia.
Qed.

Lemma aligned_step lo n : lo mod ALIGN = 0 → (lo + n * ALIGN) mod ALIGN = 0.
Proof. intros. rewrite Z.mod_add; done. Qed.

(** Every entry of a chain ends inside it, and no two end together. *)
Lemma entry_chain_elem lo us hi u :
  entry_chain lo us hi → u ∈ us →
  lo + ALIGN <= ub_end_offset_aligned u <= hi ∧ (lo mod ALIGN = 0 → ub_end_offset_aligned u mod ALIGN = 0).
Proof.
  revert lo. induction us as [|v us IH]; intros lo Hc; [by intros ?%not_elem_of_nil|].
  destruct Hc as [Hv Hc]. pose proof (entry_chain_length _ _ _ Hc) as Hl.
  assert (0 < ALIGN) by done. pose proof (λ Hlo, aligned_step lo 1 Hlo) as Hm.
  rewrite Z.mul_1_l in Hm. intros [->|Hu]%elem_of_cons; [rewrite Hv; split; [lia|done]|].
  destruct (IH _ Hc Hu) as [? ?]. split; [lia|auto].
Qed.

Lemma entry_chain_inj lo us hi : entry_chain lo us hi → NoDup (ub_end_offset_aligned <$> us).
Proof.
  revert lo. induction us as [|v us IH]; intros lo; [constructor|]. intros [Hv Hc].
  rewrite fmap_cons. apply NoDup_cons. split; [|eauto].
  intros (u & Hu & Hin)%list_elem_of_fmap. apply (entry_chain_elem _ _ _ _ Hc) in Hin as [Hin _].
  assert (0 < ALIGN) by done. lia.
Qed.

Lemma total_size_app l1 l2 : total_size (l1 ++ l2) = total_size l1 + total_size l2.
Proof. induction l1 as [|r l1 IH]; cbn [app total_size]; lia. Qed.

Lemma pending_ok_pos r : pending_ok r → 0 < pr_size r.
Proof. intros [_ ->]. change (Z.of_nat WAL_RECORD_HEADER_SIZE) with 24. lia. Qed.

Lemma total_size_pos l : Forall pending_ok l → 0 <= total_size l ∧ (l ≠ [] → 0 < total_size l).
Proof.
  induction 1 as [|r l Hr Hl IH]; cbn; [done|]. apply pending_ok_pos in Hr. split; [|intros _]; lia.
Qed.

Lemma bulk_ok_size b : bulk_ok b → 0 < bk_size b <= ALIGN.
Proof. intros [(Hne & Hf & Hl) ->]. apply total_size_pos in Hf as [_ Hp]. specialize (Hp Hne). lia. Qed.

Lemma ALIGN_pos : 0 < ALIGN.
Proof. done. Qed.

(** ** The bulk operations keep the layout *)
Lemma layout_end base i lo mid :
  Layout base i lo mid → 0 <= in_next_offset i ∧ in_next_offset i mod ALIGN = 0 ∧
    lo <= mid ∧ mid <= in_next_offset i ∧ mid mod ALIGN = 0.
Proof.
  intros L. pose proof (lay_base _ _ _ _ L) as [Hb Hm].
  pose proof (entry_chain_length _ _ _ (lay_entries _ _ _ _ L)) as He.
  pose proof (bulk_chain_length _ _ _ (lay_waiting _ _ _ _ L)) as Hw. pose proof ALIGN_pos.
  assert (mid mod ALIGN = 0) by (rewrite He; by apply aligned_step).
  assert (in_next_offset i mod ALIGN = 0) by (rewrite Hw; by apply aligned_step).
  split_and!; (done || nia).
Qed.

(** Sealing closes the active bulk at the next file boundary. *)
Lemma seal_next base i lo mid b :
  Layout base i lo mid → in_next_offset i + ALIGN < two63 → ws_active (in_state i) = Some b →
  in_next_offset (seal_active i) = in_next_offset i + ALIGN.
Proof.
  intros L Hfit Hb. unfold seal_active. rewrite Hb. cbn.
  destruct (layout_end _ _ _ _ L) as (H0 & Hm & _). destruct (lay_active _ _ _ _ L b Hb) as [Hok _].
  apply bulk_ok_size in Hok. pose proof ALIGN_pos.
  rewrite wrap_u64_id by int_lia. apply ceil_align_in; int_lia.
Qed.

Lemma seal_layout base i lo mid :
  Layout base i lo mid → in_next_offset i + ALIGN < two63 → Layout base (seal_active i) lo mid.
Proof.
  intros L Hfit. destruct (ws_active (in_state i)) as [b|] eqn:Hb; [|unfold seal_active; by rewrite Hb].
  pose proof (seal_next _ _ _ _ _ L Hfit Hb) as Hn. destruct (lay_active _ _ _ _ L b Hb) as [Hok Hbase].
  destruct L. unfold seal_active in *. rewrite Hb in *. cbn in Hn. rewrite Hn.
  unfold seqs in *. rewrite Hb in *.
  split; unfold entries, seqs, tasks in *; cbn in *; try done.
  - apply bulk_chain_app. eexists. split; [done|]. cbn. done.
  - by rewrite fmap_app, app_nil_r.
Qed.

Lemma seal_active_none i : ws_active (in_state (seal_active i)) = None.
Proof. unfold seal_active. destruct (ws_active (in_state i)) eqn:E; [done|by rewrite E]. Qed.

(** A record opens a new bulk when there is none. *)
Lemma push_record_none record data_size i :
  ws_active (in_state i) = None → 0 <= data_size <= ALIGN →
  push_record record data_size i =
  let seq := ws_bulk_seq (in_state i) + 1 in
  i <| in_state := in_state i <| ws_bulk_seq := seq |> <| ws_active := Some
         {| bk_seq := seq; bk_base_offset := in_next_offset i; bk_size := data_size;
            bk_records := [{| pr_record := record; pr_size := data_size; pr_offset := 0;
                              pr_ack := in_tickets i |}] |} |> |>
    <| in_buffered_data_bytes := wrap_u64 (in_buffered_data_bytes i + data_size) |>
    <| in_futures := in_futures i ++ [(in_tickets i, data_size)] |>
    <| in_tickets := Datatypes.S (in_tickets i) |>.
Proof.
  intros Ha Hd. assert (Hw : wrap_u64 data_size = data_size) by (apply wrap_u64_id; unfold DATA_FILE_ALIGN_SIZE in *; int_lia).
  unfold push_record. rewrite Ha. cbn [new_active_bulk in_state ws_active field_set].
  rewrite Z.add_0_r, Hw. destruct (Z.ltb_spec ALIGN data_size); [lia|]. cbn. by rewrite Z.add_0_l, Hw.
Qed.

(** It joins the active bulk when it fits. *)
Lemma push_record_fits record data_size i b :
  ws_active (in_state i) = Some b → 0 <= data_size → 0 <= bk_size b → data_size + bk_size b <= ALIGN →
  push_record record data_size i =
  i <| in_state := in_state i <| ws_active := Some (b
         <| bk_records := bk_records b ++ [{| pr_record := record; pr_size := data_size;
              pr_offset := 0; pr_ack := in_tickets i |}] |>
         <| bk_size := bk_size b + data_size |>) |> |>
    <| in_buffered_data_bytes := wrap_u64 (in_buffered_data_bytes i + data_size) |>
    <| in_futures := in_futures i ++ [(in_tickets i, data_size)] |>
    <| in_tickets := Datatypes.S (in_tickets i) |>.
Proof.
  intros Ha Hd Hb Hle. unfold push_record. rewrite Ha. cbn. rewrite Ha. cbn.
  rewrite wrap_u64_id by (unfold DATA_FILE_ALIGN_SIZE in *; int_lia).
  destruct (Z.ltb_spec ALIGN (data_size + bk_size b)); [lia|]. cbn. rewrite Ha. cbn.
  by rewrite wrap_u64_id by (unfold DATA_FILE_ALIGN_SIZE in *; int_lia).
Qed.

(** Otherwise the active bulk is sealed first. *)
Lemma push_record_seals record data_size i b :
  ws_active (in_state i) = Some b → 0 <= data_size <= ALIGN → 0 <= bk_size b <= ALIGN →
  ALIGN < data_size + bk_size b →
  push_record record data_size i = push_record record data_size (seal_active i).
Proof.
  intros Ha Hd Hb Hlt. rewrite (push_record_none _ _ (seal_active i)) by (done || apply seal_active_none).
  unfold push_record. rewrite Ha. cbn. rewrite Ha. cbn.
  rewrite wrap_u64_id by (unfold DATA_FILE_ALIGN_SIZE in *; int_lia).
  destruct (Z.ltb_spec ALIGN (data_size + bk_size b)); [|lia]. cbn.
  by rewrite Z.add_0_l, (wrap_u64_id data_size) by (unfold DATA_FILE_ALIGN_SIZE in *; int_lia).
Qed.

Lemma push_layout base i lo mid record data_size :
  Layout base i lo mid → in_next_offset i + ALIGN < two63 → well_formed record →
  data_size = Z.of_nat (length (encoded record)) + Z.of_nat WAL_RECORD_HEADER_SIZE → data_size <= ALIGN →
  Layout base (push_record record data_size i) lo mid ∧
  in_next_offset (push_record record data_size i) <= in_next_offset i + ALIGN.
Proof.
  intros L Hfit Hw Hd Hle. assert (Hpos : 0 < data_size) by (change (Z.of_nat WAL_RECORD_HEADER_SIZE) with 24 in Hd; lia).
  assert (Hfresh : ∀ j, Layout base j lo mid → ws_active (in_state j) = None →
    Layout base (push_record record data_size j) lo mid ∧ in_next_offset (push_record record data_size j) = in_next_offset j).
  { intros j Lj Ha. rewrite push_record_none by (done || lia). destruct Lj. unfold seqs in *. rewrite Ha in *.
    split; [|done]. split; unfold entries, seqs, tasks in *; cbn in *; try done.
    - intros b [= <-]. split; [|done]. split; cbn; [|lia]. split_and!; [done| |cbn; lia].
      constructor; [|done]. by split.
    - rewrite app_nil_r in lay_seqs0. destruct lay_seqs0 as [Hs Hf]. rewrite app_assoc. split.
      + apply StronglySorted_app_iff. split_and!; [done|repeat constructor|].
        intros x y Hx ->%list_elem_of_singleton. rewrite Forall_forall in Hf. apply Hf in Hx. lia.
      + apply Forall_app. split; [|repeat constructor; lia]. eapply Forall_impl; [exact Hf|]. cbn. lia. }
  destruct (ws_active (in_state i)) as [b|] eqn:Ha;
    [|destruct (Hfresh i L Ha) as [? ->]; split; [done|pose proof ALIGN_pos; lia]].
  destruct (lay_active _ _ _ _ L b Ha) as [Hok Hbase]. pose proof (bulk_ok_size b Hok) as Hbs.
  destruct (decide (data_size + bk_size b <= ALIGN)) as [Hsm|Hbig].
  - rewrite (push_record_fits _ _ _ b) by (done || lia). split; [|cbn; pose proof ALIGN_pos; lia].
    destruct L. unfold seqs in *. rewrite Ha in *. split; unfold entries, seqs, tasks in *; cbn in *; try done.
    intros b' [= <-]. split; [|done]. destruct Hok as [(Hne & Hf & Ht) Hsz].
    split; cbn; rewrite ?total_size_app; cbn; [|lia]. split_and!; [by destruct (bk_records b)| |rewrite total_size_app; cbn; lia].
    apply Forall_app. split; [done|]. constructor; [|done]. by split.
  - rewrite (push_record_seals _ _ _ b) by (done || lia).
    destruct (Hfresh (seal_active i)) as [? ->]; [by apply seal_layout|apply seal_active_none|].
    rewrite (seal_next _ _ _ _ _ L Hfit Ha). split; [done|lia].
Qed.

(** Uploading bulks end where their files end. *)
Lemma start_uploads lo bs hi :
  0 <= lo → lo mod ALIGN = 0 → hi < two63 → bulk_chain lo bs hi →
  entry_chain lo (start_upload <$> bs) hi ∧
  Forall (λ b, bulk_ok b ∧ ub_end_offset_aligned (start_upload b) = bk_base_offset b + ALIGN) bs.
Proof.
  revert lo. induction bs as [|b bs IH]; intros lo Hlo Hm Hhi; [done|].
  intros (Hb & Hok & Hc). pose proof (bulk_chain_length _ _ _ Hc) as Hl. pose proof ALIGN_pos.
  assert (Hend : ub_end_offset_aligned (start_upload b) = lo + ALIGN).
  { pose proof (bulk_ok_size _ Hok). cbn. unfold bk_end_offset. rewrite Hb, wrap_u64_id by int_lia.
    apply ceil_align_in; int_lia. }
  destruct (IH (lo + ALIGN)) as [IH1 IH2]; [lia| |done|done|].
  { replace (lo + ALIGN) with (lo + 1 * ALIGN) by lia. by apply aligned_step. }
  split; [done|]. constructor; [|done]. by rewrite Hb.
Qed.

Definition bulk_task (b : Bulk) : Z * Z := (bk_seq b, bk_base_offset b).

Lemma tasks_try_upload i :
  let slots := (wc_max_inflight_upload_count config - length (ws_uploading (in_state i)))%nat in
  tasks (try_upload_waiting config i) ≡ₚ tasks i ++ (bulk_task <$> take slots (ws_waiting (in_state i))).
Proof.
  intros slots. unfold tasks, try_upload_waiting. cbn. fold slots.
  rewrite fmap_app, <-list_fmap_compose. change (_ ∘ upload_job) with bulk_task. solve_Permutation.
Qed.

Lemma try_upload_layout base i lo mid :
  Layout base i lo mid → in_next_offset i < two63 →
  ∃ mid', mid <= mid' ∧ Layout base (try_upload_waiting config i) lo mid'.
Proof.
  intros L Hn. destruct (layout_end _ _ _ _ L) as (H0 & Hm0 & Hlm & Hmn & Hm).
  pose proof (lay_base _ _ _ _ L) as [Hbase _]. destruct L. pose proof (tasks_try_upload i) as Ht. cbn in Ht.
  unfold try_upload_waiting in *. set (slots := (_ - _)%nat) in *. set (ws := ws_waiting (in_state i)) in *.
  pose proof (take_drop slots ws) as Hsplit. set (adm := take slots ws) in *. set (rest := drop slots ws) in *.
  rewrite <-Hsplit in lay_waiting0. apply bulk_chain_app in lay_waiting0 as (mid' & Ha & Hr).
  pose proof (bulk_chain_length _ _ _ Ha) as HlA. pose proof (bulk_chain_length _ _ _ Hr) as HlR.
  pose proof ALIGN_pos. exists mid'. split; [nia|].
  destruct (start_uploads mid adm mid') as [Hup Hends]; [lia|done|nia|done|].
  assert (Hseq : seqs i = (ub_seq <$> ws_uploading (in_state i)) ++ (bk_seq <$> adm) ++ (bk_seq <$> rest) ++
    match ws_active (in_state i) with Some b => [bk_seq b] | None => [] end).
  { unfold seqs. fold ws. rewrite <-Hsplit at 1. rewrite fmap_app. by rewrite <-!app_assoc. }
  assert (Hss : (ub_seq <$> (start_upload <$> adm)) = bk_seq <$> adm) by (rewrite <-list_fmap_compose; done).
  rewrite Hseq in lay_seqs0.
  split; try done.
  - unfold entries. cbn. rewrite app_assoc. apply entry_chain_app. eauto.
  - unfold seqs. cbn. rewrite fmap_app, Hss, <-app_assoc. done.
  - rewrite Ht, fmap_app, <-list_fmap_compose. change (fst ∘ bulk_task) with bk_seq.
    destruct lay_seqs0 as [(_ & (Hsa & _)%StronglySorted_app_iff & Hx)%StronglySorted_app_iff _].
    apply NoDup_app. split_and!; [done| |by apply StronglySorted_lt_NoDup].
    intros q (t & -> & Hin)%list_elem_of_fmap Hq. destruct (lay_task0 t Hin) as (u & Hu & Hus & _).
    specialize (Hx (ub_seq u) t.1 (list_elem_of_fmap_2 _ _ _ Hu)). rewrite elem_of_app in Hx.
    specialize (Hx (or_introl Hq)). lia.
  - intros t. rewrite Ht, elem_of_app. cbn. intros [Hin|(b & -> & Hb)%list_elem_of_fmap].
    + destruct (lay_task0 t Hin) as (u & Hu & ?). exists u. rewrite elem_of_app. auto.
    + exists (start_upload b). rewrite Forall_forall in Hends. destruct (Hends b Hb) as [_ He].
      split_and!; [|done..]. rewrite elem_of_app. right. by apply list_elem_of_fmap_2.
  - intros u. cbn. rewrite Ht, fmap_app, !elem_of_app. intros [Hu|(b & -> & Hb)%list_elem_of_fmap] Hd; [auto|].
    right. cbn. apply list_elem_of_fmap. exists (bulk_task b). split; [done|]. by apply list_elem_of_fmap_2.
  - cbn. apply Forall_app. split; [done|]. apply Forall_fmap. eapply Forall_impl; [exact Hends|].
    intros b [[Hok _] _]. exact Hok.
Qed.

(** ** Placing records *)
Lemma place_idem b l : place b (place b l) = place b l.
Proof. revert b. induction l as [|r l IH]; intros b; [done|]. cbn. f_equal. apply IH. Qed.

Lemma place_records b l : pr_record <$> place b l = pr_record <$> l.
Proof. revert b. induction l as [|r l IH]; intros b; [done|]. cbn. f_equal. apply IH. Qed.

Lemma place_acks b l : pr_ack <$> place b l = pr_ack <$> l.
Proof. revert b. induction l as [|r l IH]; intros b; [done|]. cbn. f_equal. apply IH. Qed.

Lemma place_ok b l : records_ok l → records_ok (place b l).
Proof.
  intros (Hne & Hf & Ht). split_and!.
  - by destruct l.
  - clear Hne Ht. revert b. induction Hf as [|r l Hr Hl IH]; intros b; constructor; [exact Hr|apply IH].
  - clear Hne Hf. assert (Heq : total_size (place b l) = total_size l); [|lia]. clear Ht. revert b.
    induction l as [|r l IH]; intros b; [done|]. cbn. by rewrite IH.
Qed.

Lemma sort_ok l : records_ok l → records_ok (stable_sort pending_leb l).
Proof.
  intros (Hne & Hf & Ht). pose proof (stable_sort_perm pending_leb l) as Hp. split_and!.
  - intros He. rewrite He in Hp. by apply Permutation_nil_l in Hp.
  - by rewrite Hp.
  - assert (Heq : total_size (stable_sort pending_leb l) = total_size l); [|lia]. clear -Hp.
    induction Hp; cbn; lia.
Qed.

(** Offsets lie in the file, and the last record ends at the end of the data. *)
Lemma laid_offsets b l :
  laid b l → 0 <= b → b + ALIGN < two63 →
  (∀ r, r ∈ l → b <= pr_offset r ∧ pr_offset r + pr_size r <= b + total_size l) ∧
  StronglySorted (λ r1 r2, pr_offset r1 + pr_size r1 <= pr_offset r2) l ∧
  ∃ r, last l = Some r ∧ r ∈ l ∧ pr_offset r + pr_size r = b + total_size l.
Proof.
  intros [(Hne & Hf & Ht) [Hl _]] Hb Hlt.
  assert (Hgen : ∀ l b, Forall pending_ok l → 0 <= b → b + total_size l < two63 → l = place b l →
    (∀ r, r ∈ l → b <= pr_offset r ∧ pr_offset r + pr_size r <= b + total_size l) ∧
    StronglySorted (λ r1 r2, pr_offset r1 + pr_size r1 <= pr_offset r2) l ∧
    (l ≠ [] → ∃ r, last l = Some r ∧ r ∈ l ∧ pr_offset r + pr_size r = b + total_size l)).
  { clear. induction l as [|r l IH]; intros b Hf Hb Hlt Hl.
    { split_and!; [by intros ? ?%not_elem_of_nil|constructor|done]. }
    apply Forall_cons in Hf as [Hr Hf]. pose proof (pending_ok_pos _ Hr). pose proof (total_size_pos _ Hf) as [Ht _].
    cbn [place total_size] in *. injection Hl as Hr' Hl. assert (Ho : pr_offset r = b) by (by rewrite Hr').
    rewrite wrap_u64_id in Hl by int_lia. destruct (IH (b + pr_size r) Hf ltac:(lia) ltac:(lia) Hl) as (I1 & I2 & I3).
    split_and!.
    - intros x [->|Hx]%elem_of_cons; [lia|]. apply I1 in Hx. lia.
    - constructor; [done|]. apply Forall_forall. intros x Hx. apply I1 in Hx. lia.
    - intros _. destruct l as [|r2 l]; [exists r; split_and!; [done|by left|cbn; lia]|].
      destruct (I3 ltac:(done)) as (x & Hx & Hin & He). exists x. rewrite last_cons, Hx.
      split_and!; [done|by right|lia]. }
  pose proof (total_size_pos _ Hf) as [Hp _].
  destruct (Hgen l b Hf Hb ltac:(lia) Hl) as (I1 & I2 & I3). auto.
Qed.

Lemma upload_build_ok trim_offset job :
  records_ok (uj_records job) → 0 <= uj_base_offset job → uj_base_offset job mod ALIGN = 0 →
  uj_base_offset job + ALIGN < two63 →
  put_ok (upload_build crc32 md5_hex_upper config trim_offset job) ∧
  up_end_offset (upload_build crc32 md5_hex_upper config trim_offset job) = uj_base_offset job + ALIGN.
Proof.
  intros Hok Hb Hm Hlt. set (b := uj_base_offset job) in *.
  set (l := place b (stable_sort pending_leb (uj_records job))).
  assert (Hl : laid b l) by (split_and!; [apply place_ok, sort_ok, Hok|symmetry; apply place_idem|done]).
  destruct (laid_offsets b l Hl Hb Hlt) as (I1 & I2 & r & Hr & Hin & He).
  pose proof Hl as Hlaid. destruct Hl as [(Hne & Hf & Ht) _]. pose proof (total_size_pos _ Hf) as [_ Hp]. specialize (Hp Hne).
  assert (Hend : ceil_align_offset (wrap_u64 (pr_offset r + pr_size r)) = b + ALIGN).
  { rewrite wrap_u64_id, He by int_lia. apply ceil_align_in; int_lia. }
  unfold upload_build. fold b. fold l. rewrite Hr, Hend. split; [|done]. unfold put_ok. cbn.
  split_and!; [done|done|done|eauto].
Qed.

(** ** The upload and completion steps keep the layout *)
Lemma entry_bounds base i lo mid u :
  Layout base i lo mid → u ∈ entries i →
  lo <= ub_end_offset_aligned u - ALIGN ∧ ub_end_offset_aligned u <= mid ∧
  (ub_end_offset_aligned u - ALIGN) mod ALIGN = 0.
Proof.
  intros L Hu. destruct (entry_chain_elem _ _ _ _ (lay_entries _ _ _ _ L) Hu) as [Hb Hm].
  specialize (Hm (proj2 (lay_base _ _ _ _ L))). split_and!; [lia..|].
  replace (ub_end_offset_aligned u - ALIGN) with (ub_end_offset_aligned u + (-1) * ALIGN) by lia.
  by apply aligned_step.
Qed.

Lemma task_bounds base i lo mid t :
  Layout base i lo mid → t ∈ tasks i → lo <= t.2 ∧ t.2 + ALIGN <= mid ∧ t.2 mod ALIGN = 0.
Proof.
  intros L Ht. destruct (lay_task _ _ _ _ L t Ht) as (u & Hu & _ & He & _).
  destruct (entry_bounds _ _ _ _ u L) as (H1 & H2 & H3); [unfold entries; rewrite elem_of_app; by right|].
  rewrite He in *. replace (t.2 + ALIGN - ALIGN) with t.2 in * by lia. done.
Qed.

Lemma begin_upload_layout base i lo mid n :
  Layout base i lo mid → in_next_offset i < two63 →
  Layout base (begin_upload crc32 md5_hex_upper config n i) lo mid.
Proof.
  intros L Hn. unfold begin_upload. destruct (in_jobs i !! n) as [job|] eqn:Hj; [|done].
  pose proof (delete_Permutation _ _ _ Hj) as Hp.
  assert (Htask : (uj_seq job, uj_base_offset job) ∈ tasks i).
  { unfold tasks. rewrite Hp. by left. }
  destruct (task_bounds _ _ _ _ _ L Htask) as (B1 & B2 & B3). cbn in B1, B2, B3.
  destruct (layout_end _ _ _ _ L) as (_ & _ & _ & Hmn & _). pose proof (lay_base _ _ _ _ L) as [Hb _].
  assert (Hok : records_ok (uj_records job)).
  { pose proof (lay_jobs _ _ _ _ L) as Hf. rewrite Forall_forall in Hf. apply Hf. rewrite Hp. by left. }
  destruct (upload_build_ok (in_trim_offset i) job Hok) as [Hput _]; [lia|done|lia|].
  set (put := upload_build _ _ _ _ _) in *.
  set (i' := i <| in_jobs := _ |> <| in_puts := _ |>).
  assert (Ht : tasks i' ≡ₚ tasks i).
  { unfold tasks. cbn. rewrite Hp at 2. rewrite fmap_app. cbn.
    change (up_seq put, up_base_offset put) with (uj_seq job, uj_base_offset job). solve_Permutation. }
  destruct L. split; try done.
  - by rewrite Ht.
  - intros t. rewrite Ht. auto.
  - intros u. rewrite Ht. auto.
  - cbn. rewrite Hp in lay_jobs0. by apply Forall_cons in lay_jobs0 as [_ ?].
  - cbn. apply Forall_app. split; [done|]. by constructor.
Qed.

(** [set_done] changes the outcome of one bulk. *)
Lemma set_done_map seq records d us :
  NoDup (ub_seq <$> us) →
  set_done seq records d us =
  (λ u, if decide (ub_seq u = seq) then u <| ub_records := Some records |> <| ub_done := Some d |> else u) <$> us.
Proof.
  induction us as [|u us IH]; [done|]. rewrite fmap_cons. intros [Hu Hnd]%NoDup_cons. cbn.
  destruct (Z.eqb_spec (ub_seq u) seq) as [Hq|Hne].
  - rewrite decide_True by done. f_equal. symmetry. rewrite <-(list_fmap_id us) at 2.
    apply list_fmap_ext. intros k v Hv. rewrite decide_False; [done|]. intros Hs. apply Hu. rewrite Hq, <-Hs.
    apply list_elem_of_fmap_2. by eapply list_elem_of_lookup_2.
  - rewrite decide_False by done. f_equal. by apply IH.
Qed.

Lemma set_done_chain seq records d us lo hi :
  entry_chain lo us hi → entry_chain lo (set_done seq records d us) hi.
Proof.
  revert lo. induction us as [|u us IH]; intros lo; [done|]. intros [Hu Hc]. cbn.
  destruct (ub_seq u =? seq); split; auto.
Qed.

Lemma set_done_seqs seq records d us : ub_seq <$> set_done seq records d us = ub_seq <$> us.
Proof. induction us as [|u us IH]; [done|]. cbn. destruct (ub_seq u =? seq); cbn; [done|]. by f_equal. Qed.

Lemma uploading_seqs_NoDup base i lo mid : Layout base i lo mid → NoDup (ub_seq <$> ws_uploading (in_state i)).
Proof.
  intros L. destruct (lay_seqs _ _ _ _ L) as [(Hs & _)%StronglySorted_app_iff _].
  by apply StronglySorted_lt_NoDup.
Qed.

Lemma end_upload_layout base i lo mid n answer :
  Layout base i lo mid → Layout base (end_upload config n answer i) lo mid.
Proof.
  intros L. unfold end_upload. destruct (in_puts i !! n) as [put|] eqn:Hj; [|done].
  pose proof (delete_Permutation _ _ _ Hj) as Hp. pose proof (uploading_seqs_NoDup _ _ _ _ L) as Hnd.
  set (d := match answer with Ok _ => Ok tt | Err e => Err (Storage e) end : result unit WalError).
  assert (Ht : tasks i ≡ₚ (up_seq put, up_base_offset put) ::
    (((λ j, (uj_seq j, uj_base_offset j)) <$> in_jobs i) ++
     ((λ p, (up_seq p, up_base_offset p)) <$> delete n (in_puts i)))).
  { unfold tasks. rewrite Hp at 1. cbn. solve_Permutation. }
  cut (Layout base (i <| in_puts := delete n (in_puts i) |> <| in_state := in_state i
    <| ws_uploading := set_done (up_seq put) (up_records put) d (ws_uploading (in_state i)) |> |>) lo mid).
  { intros [[] ? ? ? [? ?] ? ? ? ? ? ? ?]. destruct answer as [b|e]; split; try done; cbn in *; try done. }
  destruct L. rewrite Ht in lay_tasks0. cbn in lay_tasks0. apply NoDup_cons in lay_tasks0 as [Hfresh Hnt].
  split; unfold entries, seqs, tasks in *; cbn; try done.
  - apply entry_chain_app in lay_entries0 as (m & ? & ?). apply entry_chain_app. exists m.
    split; [done|]. by apply set_done_chain.
  - by rewrite set_done_seqs.
  - intros t Hin. destruct (lay_task0 t) as (u & Hu & Hs & He & Hd); [rewrite Ht; by right|].
    exists u. split_and!; try done. rewrite set_done_map by done. apply list_elem_of_fmap. exists u.
    split; [|done]. rewrite decide_False; [done|]. rewrite Hs. intros Hq. apply Hfresh. rewrite <-Hq.
    by apply list_elem_of_fmap_2.
  - intros u. rewrite set_done_map by done. intros (v & -> & Hv)%list_elem_of_fmap.
    case_decide as Hq; [done|]. intros Hd. specialize (lay_undone0 v Hv Hd). rewrite Ht in lay_undone0.
    by apply elem_of_cons in lay_undone0 as [?|?].
  - rewrite Hp in lay_puts0. by apply Forall_cons in lay_puts0 as [_ ?].
Qed.

Lemma pop_done_split us completed rest :
  pop_done us = (completed, rest) → us = completed ++ rest ∧ Forall (λ u, is_Some (ub_done u)) completed.
Proof.
  revert completed rest. induction us as [|u us IH]; intros c r; cbn; [intros [= <- <-]; done|].
  destruct (ub_done u) as [d|] eqn:Hd; [|intros [= <- <-]; done].
  destruct (pop_done us) as [c' r'] eqn:Hp. intros [= <- <-].
  destruct (IH c' r' eq_refl) as [-> Hf]. split; [done|]. constructor; [by rewrite Hd|done].
Qed.

(** Popping hands the finished bulks to the callback loop. *)
Lemma pop_layout base i lo mid completed rest :
  Layout base i lo mid → in_completing i = None → pop_done (ws_uploading (in_state i)) = (completed, rest) →
  Layout base (i <| in_state := in_state i <| ws_uploading := rest |> |> <| in_completing := Some completed |>) lo mid.
Proof.
  intros L Hc Hp. apply pop_done_split in Hp as [Hu Hdone]. destruct L.
  unfold entries, seqs in *. rewrite Hc, Hu in *. cbn in lay_entries0.
  rewrite fmap_app, <-app_assoc in lay_seqs0. destruct lay_seqs0 as [(_ & Hs & _)%StronglySorted_app_iff [_ Hle]%Forall_app].
  rewrite Forall_forall in Hdone. split; cbn; try done.
  - intros t Ht. destruct (lay_task0 t Ht) as (u & [Hin|Hin]%elem_of_app & Hs' & He & Hd); [|eauto].
    apply Hdone in Hin. rewrite Hd in Hin. by destruct Hin.
  - intros u Hin. apply lay_undone0. rewrite elem_of_app. by right.
Qed.

(** The fields completion leaves alone. *)
Definition same_bulks (i i' : Inner) : Prop :=
  in_state i' = in_state i ∧ in_next_offset i' = in_next_offset i ∧ in_fenced i' = in_fenced i ∧
  in_jobs i' = in_jobs i ∧ in_puts i' = in_puts i ∧ in_completing i' = in_completing i.

Lemma same_bulks_layout base i i' lo mid :
  same_bulks i i' → in_flushed_offset i' = in_flushed_offset i → Layout base i lo mid → Layout base i' lo mid.
Proof.
  intros (E1 & E2 & E3 & E4 & E5 & E6) E7 [].
  split; unfold entries, seqs, tasks in *; rewrite ?E1, ?E2, ?E3, ?E4, ?E5, ?E6, ?E7; done.
Qed.

(** Completing a batch: what it writes to the log of acknowledgements, and
    where the confirmed offset ends up. *)
Definition bulk_acks (fenced : bool) (u : UploadingBulk) : list (PendingRecord * result AppendResult WalError) :=
  let records := default [] (ub_records u) in
  if fenced then (λ r, (r, Err (fenced_error config))) <$> records
  else (λ p : PendingRecord * AppendResult, (p.1, Ok p.2)) <$> append_results config records.

Lemma complete_bulks fenced completed i :
  let i' := foldl (λ i u, complete_bulk config fenced
    (if fenced then i else i <| in_flushed_offset := ub_end_offset_aligned u |>) u) i completed in
  same_bulks i i' ∧
  in_acks i' = in_acks i ++ mjoin (bulk_acks fenced <$> completed) ∧
  in_flushed_offset i' = (if fenced then in_flushed_offset i
    else match last completed with Some u => ub_end_offset_aligned u | None => in_flushed_offset i end) ∧
  in_trim_offset i' = in_trim_offset i ∧ in_deletes i' = in_deletes i ∧
  in_redeletes i' = in_redeletes i ∧ in_trims i' = in_trims i ∧ in_tickets i' = in_tickets i ∧
  in_complete i' = list_to_set (ub_seq <$> completed) ∪ in_complete i.
Proof.
  revert i. induction completed as [|u us IH]; intros i; cbn [foldl].
  { cbn. rewrite app_nil_r. split_and!; try done; [by destruct fenced|set_solver]. }
  specialize (IH (complete_bulk config fenced (if fenced then i else i <| in_flushed_offset := ub_end_offset_aligned u |>) u)).
  destruct IH as ((E1 & E2 & E3 & E4 & E5 & E6) & E7 & E8 & E9 & E10 & E11 & E12 & E13 & E14).
  set (i' := foldl _ _ us) in *. unfold same_bulks.
  rewrite E1, E2, E3, E4, E5, E6, E7, E8, E9, E10, E11, E12, E13, E14, last_cons.
  destruct fenced; cbn; rewrite <-?app_assoc; split_and!; try done; try set_solver.
  destruct (last us); done.
Qed.

Lemma entry_chain_last lo us hi u : entry_chain lo us hi → last us = Some u → ub_end_offset_aligned u = hi.
Proof.
  revert lo. induction us as [|v us IH]; intros lo; [done|]. intros [Hv Hc] Hl. rewrite last_cons in Hl.
  destruct (last us) as [w|] eqn:E; [assert (w = u) as -> by congruence; eauto|].
  apply last_None in E as ->. assert (v = u) as -> by congruence. cbn in Hc. congruence.
Qed.

Lemma verify_layout base i lo mid completed verified :
  Layout base i lo mid → in_completing i = Some completed →
  ∃ lo', lo <= lo' <= mid ∧ entry_chain lo completed lo' ∧
    Layout base (callback_verify config verified i) lo' mid ∧
    ∀ fenced, fenced = match verified with Ok true => in_fenced i | _ => true end →
    in_fenced (callback_verify config verified i) = fenced ∧
    in_acks (callback_verify config verified i) = in_acks i ++ mjoin (bulk_acks fenced <$> completed) ∧
    in_flushed_offset (callback_verify config verified i) = (if fenced then in_flushed_offset i else lo').
Proof.
  intros L Hc. pose proof L as L0. destruct L. unfold entries in *. rewrite Hc in *. cbn in lay_entries0.
  apply entry_chain_app in lay_entries0 as (lo' & He1 & He2).
  pose proof (entry_chain_length _ _ _ He1) as Hl1. pose proof (entry_chain_length _ _ _ He2) as Hl2.
  pose proof ALIGN_pos. exists lo'. split; [nia|]. split; [done|].
  unfold callback_verify. rewrite Hc. set (fenced := match verified with Ok true => _ | _ => _ end).
  set (i0 := i <| in_fenced := fenced |> <| in_completing := None |>).
  destruct (complete_bulks fenced completed i0) as (Hsame & Hacks & Hfl & _). set (i' := foldl _ _ _) in *.
  assert (Hfl' : in_flushed_offset i' = if fenced then in_flushed_offset i else lo').
  { rewrite Hfl. destruct fenced eqn:Ef; [done|]. destruct (last completed) as [u|] eqn:El.
    - by eapply entry_chain_last.
    - apply last_None in El as ->. cbn in He1. rewrite <-He1. cbn. apply (proj2 lay_flushed0).
      destruct verified as [[]|]; done. }
  destruct Hsame as (E1 & E2 & E3 & E4 & E5 & E6).
  split; [|intros f ->; fold fenced; split_and!; [done|rewrite Hacks; done|done]].
  split; unfold entries, seqs, tasks in *; rewrite ?E1, ?E2, ?E3, ?E4, ?E5, ?E6, ?Hfl'; cbn; try done.
  - destruct lay_base0 as [? Hm]. split; [lia|]. rewrite Hl1. by apply aligned_step.
  - destruct fenced; [split; [lia|done]|]. split; [lia|done].
  - intros u Hu. by apply not_elem_of_nil in Hu.
Qed.

(** ** Durability

    [log] is the history of the bulks written so far: where each starts and
    its records in place. *)
Definition stored (s : S) (b : Z) (records : list PendingRecord) : Prop :=
  ∃ trim_offset, object s (path b (b + ALIGN)) = Some (payload trim_offset b records).

(** The keys released by trims and not known to be deleted. *)
Definition released (i : Inner) : list string :=
  op_key <$> (mjoin (pd_paths <$> in_deletes i) ++ mjoin (in_redeletes i)).

(** A key that is none of this epoch's objects. *)
Definition foreign (base : Z) (key : string) : Prop :=
  ∀ b, base <= b → b + ALIGN < two63 → key ≠ path b (b + ALIGN).

Record Durable (base : Z) (log : gmap Z (list PendingRecord)) (s : S) (i : Inner) (mid : Z) : Prop := {
  dur_log b l : log !! b = Some l → base <= b ∧ b + ALIGN <= mid ∧ laid b l ∧
    (stored s b l ∨ last_record_offset b l <= in_trim_offset i);
  dur_undone u : u ∈ entries i → ub_done u = None → log !! (ub_end_offset_aligned u - ALIGN) = None;
  dur_done u : u ∈ entries i → ub_done u = Some (Ok tt) →
    ∃ l, ub_records u = Some l ∧ log !! (ub_end_offset_aligned u - ALIGN) = Some l;
  dur_failed u e : u ∈ entries i → ub_done u = Some (Err e) → in_fenced i = true;
  dur_acks r a : (r, Ok a) ∈ in_acks i → ∃ b l, log !! b = Some l ∧ r ∈ l ∧
    b + ALIGN <= in_flushed_offset i ∧ ar_record_offset a =
      {| rof_epoch := wc_epoch config; rof_offset := pr_offset r; rof_size := wrap_u32 (pr_size r) |};
  dur_confirmed b : base <= b < in_flushed_offset i → b mod ALIGN = 0 → is_Some (log !! b);
  dur_objects k o : ws_last_record_offset_to_object (in_state i) !! k = Some o →
    ∃ b l, log !! b = Some l ∧ k = last_record_offset b l ∧ wl_key o = path b (b + ALIGN);
  dur_previous o : o ∈ ws_previous_objects (in_state i) → foreign base (wl_key o);
  dur_released key : key ∈ released i → foreign base key ∨
    ∃ b l, log !! b = Some l ∧ key = path b (b + ALIGN) ∧ last_record_offset b l <= in_trim_offset i;
  dur_trims t : t ∈ in_trims i → 0 <= t.2 <= in_trim_offset i;
  dur_trim : TRIM_OFFSET_NONE <= in_trim_offset i;
}.

Lemma path_start_inj a b c d : 0 <= a → 0 <= c → path a b = path c d → a = c.
Proof.
  intros Ha Hc Hp. apply (f_equal as_bytes) in Hp. unfold object_path in Hp.
  rewrite !as_bytes_append in Hp. apply app_inv_head in Hp. change (as_bytes "-") with [x2d] in Hp.
  cbn [app] in Hp. apply (f_equal (split_once x2d)) in Hp.
  rewrite !split_once_sep in Hp by (by apply digits_only).
  assert (He : as_bytes (show_dec a) = as_bytes (show_dec c)) by congruence.
  by apply as_bytes_inj, show_dec_inj in He.
Qed.

Lemma path_inj a b : 0 <= a → 0 <= b → path a (a + ALIGN) = path b (b + ALIGN) → a = b.
Proof. apply path_start_inj. Qed.

(** Steps that only move bulks towards their upload. *)
Definition same_log (i i' : Inner) : Prop :=
  ws_uploading (in_state i') = ws_uploading (in_state i) ∧ in_completing i' = in_completing i ∧
  in_fenced i' = in_fenced i ∧ in_acks i' = in_acks i ∧ in_flushed_offset i' = in_flushed_offset i ∧
  ws_last_record_offset_to_object (in_state i') = ws_last_record_offset_to_object (in_state i) ∧
  ws_previous_objects (in_state i') = ws_previous_objects (in_state i) ∧
  in_deletes i' = in_deletes i ∧ in_redeletes i' = in_redeletes i ∧
  in_trims i' = in_trims i ∧ in_trim_offset i' = in_trim_offset i.

Lemma same_log_durable base log s i i' mid :
  same_log i i' → Durable base log s i mid → Durable base log s i' mid.
Proof.
  intros (E1 & E2 & E3 & E4 & E5 & E6 & E7 & E8 & E9 & E10 & E11) [].
  split; unfold entries, released in *; rewrite ?E1, ?E2, ?E3, ?E4, ?E5, ?E6, ?E7, ?E8, ?E9, ?E10, ?E11; done.
Qed.

Lemma seal_same_log i : same_log i (seal_active i).
Proof. unfold seal_active. by destruct (ws_active (in_state i)). Qed.

Lemma push_same_log record data_size i : same_log i (push_record record data_size i).
Proof.
  unfold push_record. destruct (ws_active (in_state i)) as [b|] eqn:E; cbn; rewrite ?E; cbn.
  - unfold seal_active. rewrite E. destruct (ALIGN <? _); cbn; rewrite ?E; done.
  - destruct (ALIGN <? _); cbn; done.
Qed.

Lemma try_upload_durable base log s i lo mid :
  Layout base i lo mid → in_next_offset i < two63 → Durable base log s i mid →
  ∃ mid', Layout base (try_upload_waiting config i) lo mid' ∧
    Durable base log s (try_upload_waiting config i) mid'.
Proof.
  intros L Hn D. destruct (try_upload_layout _ _ _ _ L Hn) as (mid' & Hmid & L'). exists mid'. split; [done|].
  assert (Hnew : ∀ u, u ∈ entries (try_upload_waiting config i) →
    u ∈ entries i ∨ ub_done u = None ∧ mid <= ub_end_offset_aligned u - ALIGN).
  { intros u. unfold entries. cbn. rewrite app_assoc, elem_of_app. intros [?|Hu]; [by left|]. right.
    pose proof (lay_entries _ _ _ _ L') as Hc. unfold entries in Hc. cbn in Hc.
    rewrite app_assoc in Hc. apply entry_chain_app in Hc as (m & Hc1 & Hc2).
    assert (m = mid) as ->.
    { pose proof (entry_chain_length _ _ _ Hc1). pose proof (entry_chain_length _ _ _ (lay_entries _ _ _ _ L)) as Hx.
      unfold entries in Hx. lia. }
    destruct (entry_chain_elem _ _ _ _ Hc2 Hu) as [? _]. apply list_elem_of_fmap in Hu as (b & -> & _). split; [done|lia]. }
  destruct D. split; try done.
  - intros b l Hb. destruct (dur_log0 b l Hb) as (? & ? & ? & ?). split_and!; (done || lia).
  - intros u [Hu|[_ Hm]]%Hnew Hd; [auto|]. destruct (log !! _) as [l|] eqn:El; [|done].
    apply dur_log0 in El as (_ & ? & _). pose proof ALIGN_pos. lia.
  - intros u [Hu|[Hd' _]]%Hnew Hd; [auto|congruence].
  - intros u e [Hu|[Hd' _]]%Hnew Hd; [eauto|congruence].
Qed.

(** ** The invariant *)
Definition WalInv (base : Z) (s : S) (i : Inner) : Prop :=
  ∃ log lo mid, Layout base i lo mid ∧ Durable base log s i mid.

Lemma same_inv base s i i' :
  same_bulks i i' → same_log i i' → WalInv base s i → WalInv base s i'.
Proof.
  intros Hb Hl (log & lo & mid & L & D). exists log, lo, mid. split.
  - eapply same_bulks_layout; [done| |done]. apply Hl.
  - by eapply same_log_durable.
Qed.

Lemma seal_fit i base lo mid :
  Layout base i lo mid → in_next_offset i + ALIGN < two63 →
  in_next_offset (seal_active i) <= in_next_offset i + ALIGN.
Proof.
  intros L Hf. destruct (ws_active (in_state i)) as [b|] eqn:E.
  - rewrite (seal_next _ _ _ _ _ L Hf E). lia.
  - unfold seal_active. rewrite E. pose proof ALIGN_pos. lia.
Qed.

Lemma flush_inv base s i :
  in_next_offset i + ALIGN < two63 → WalInv base s i → WalInv base s (flush config i).
Proof.
  intros Hfit (log & lo & mid & L & D). pose proof (seal_fit _ _ _ _ L Hfit) as Hn.
  destruct (try_upload_durable base log s (seal_active i) lo mid) as (mid' & L' & D').
  - by apply seal_layout.
  - lia.
  - eapply same_log_durable; [apply seal_same_log|done].
  - exists log, lo, mid'. done.
Qed.

Lemma submit_inv base s i record i' r :
  offsets_fit i → well_formed record → submit config record i = (i', r) → WalInv base s i → WalInv base s i'.
Proof.
  intros Hfit Hw Hs HI. unfold submit in Hs. unfold offsets_fit in Hfit. pose proof ALIGN_pos.
  destruct (check_status config i) as [_|e]; [|by injection Hs as <- <-].
  destruct (wc_max_unflushed_bytes config <? _); [by injection Hs as <- <-|].
  set (data_size := Z.of_nat (length (encoded record)) + Z.of_nat WAL_RECORD_HEADER_SIZE) in *.
  destruct (Z.ltb_spec ALIGN data_size) as [|Hle]; [by injection Hs as <- <-|].
  destruct HI as (log & lo & mid & L & D).
  destruct (push_layout _ _ _ _ record data_size L ltac:(lia) Hw eq_refl Hle) as [L1 Hn].
  assert (HI : WalInv base s (push_record record data_size i)).
  { exists log, lo, mid. split; [done|]. eapply same_log_durable; [apply push_same_log|done]. }
  destruct (active_full config _); injection Hs as <- _; [|done]. apply flush_inv; [lia|done].
Qed.

(** Raising the trim offset only weakens what must stay stored. *)
Lemma trim_mono_durable base log s i mid t :
  in_trim_offset i <= t → Durable base log s i mid → Durable base log s (i <| in_trim_offset := t |>) mid.
Proof.
  intros Ht []. split; try done; cbn.
  - intros b l Hb. destruct (dur_log0 b l Hb) as (? & ? & ? & [?|?]); split_and!; auto. right. lia.
  - intros k Hk. destruct (dur_released0 k Hk) as [?|(b & l & ? & ? & ?)]; [by left|]. right.
    exists b, l. split_and!; (done || lia).
  - intros x Hx. apply dur_trims0 in Hx. lia.
  - lia.
Qed.

Lemma submit_trim_offset record i i' r : submit config record i = (i', r) → in_trim_offset i' = in_trim_offset i.
Proof.
  unfold submit. destruct (check_status config i); [|by intros [= <- <-]].
  destruct (_ <? _); [by intros [= <- <-]|]. destruct (_ <? _); [by intros [= <- <-]|].
  pose proof (push_same_log record (Z.of_nat (length (encoded record)) + Z.of_nat WAL_RECORD_HEADER_SIZE) i)
    as (_ & _ & _ & _ & _ & _ & _ & _ & _ & _ & E).
  destruct (active_full config _); intros [= <- _]; [|done]. cbn.
  destruct (seal_same_log (push_record record (Z.of_nat (length (encoded record)) + Z.of_nat WAL_RECORD_HEADER_SIZE) i))
    as (_ & _ & _ & _ & _ & _ & _ & _ & _ & _ & E'). by rewrite E', E.
Qed.

Lemma trim_record_ok : well_formed trim_record.
Proof.
  exists TRIM_RECORD_SENTINEL, TRIM_RECORD_SENTINEL, 0, 0, []. split; [|done].
  unfold parts_ok, TRIM_RECORD_SENTINEL. cbn. split_and!; int_lia.
Qed.

Lemma trim_begin_inv base s i offset i' r :
  offsets_fit i → trim_begin config offset i = (i', r) → WalInv base s i → WalInv base s i'.
Proof.
  intros Hfit Ht HI. unfold trim_begin in Ht. destruct (check_status config i); [|by injection Ht as <- <-].
  destruct (Z.leb_spec offset (in_trim_offset i)) as [|Hlt]; [by injection Ht as <- <-|].
  destruct (submit config trim_record _) as [i1 r1] eqn:Hs.
  assert (Hpos : 0 <= offset).
  { destruct HI as (log & lo & mid & _ & D). pose proof (dur_trim _ _ _ _ _ D). unfold TRIM_OFFSET_NONE in *. lia. }
  assert (HI1 : WalInv base s i1).
  { eapply (submit_inv base s (i <| in_trim_offset := offset |>)); [exact Hfit|apply trim_record_ok|exact Hs|].
    destruct HI as (log & lo & mid & L & D). exists log, lo, mid. split.
    - by apply (same_bulks_layout base i).
    - apply trim_mono_durable; [lia|done]. }
  apply submit_trim_offset in Hs. cbn in Hs. destruct r1 as [ticket|e]; injection Ht as <- <-; [|done].
  destruct HI1 as (log & lo & mid & L & D). exists log, lo, mid. split.
  - by apply (same_bulks_layout base i1).
  - destruct D. split; try done. cbn. intros t [Hin|Ht]%elem_of_app; [auto|]. apply list_elem_of_singleton in Ht as ->. cbn. lia.
Qed.

(** A storage change that leaves the objects of the log alone. *)
Lemma storage_durable base log s s' i mid :
  (∀ b l, log !! b = Some l → last_record_offset b l <= in_trim_offset i ∨
     object s' (path b (b + ALIGN)) = object s (path b (b + ALIGN))) →
  Durable base log s i mid → Durable base log s' i mid.
Proof.
  intros Hs []. split; try done. intros b l Hb. destruct (dur_log0 b l Hb) as (? & ? & ? & Hor).
  split_and!; [done..|]. destruct (Hs b l Hb) as [?|He]; [by right|].
  unfold stored. rewrite He. exact Hor.
Qed.

Lemma elem_of_entries_put base i lo mid n put u :
  Layout base i lo mid → in_puts i !! n = Some put → u ∈ entries i →
  ub_end_offset_aligned u = up_base_offset put + ALIGN → ub_done u = None ∧ ub_seq u = up_seq put ∧
  u ∈ ws_uploading (in_state i).
Proof.
  intros L Hn Hu He.
  destruct (lay_task _ _ _ _ L (up_seq put, up_base_offset put)) as (v & Hv & Hs & Hve & Hd).
  { unfold tasks. rewrite elem_of_app. right. apply list_elem_of_fmap. exists put. split; [done|].
    by eapply list_elem_of_lookup_2. }
  assert (u = v) as ->; [|done].
  eapply (NoDup_fmap_inj ub_end_offset_aligned); [eapply entry_chain_inj, (lay_entries _ _ _ _ L)|done| |cbn in Hve; congruence].
  unfold entries. rewrite elem_of_app. by right.
Qed.

(** A bulk in flight is not in the log yet. *)
Lemma put_fresh base log s i lo mid n put :
  Layout base i lo mid → Durable base log s i mid → in_puts i !! n = Some put →
  log !! up_base_offset put = None ∧ base <= up_base_offset put ∧ up_base_offset put + ALIGN <= mid ∧ put_ok put.
Proof.
  intros L D Hn.
  assert (Ht : (up_seq put, up_base_offset put) ∈ tasks i).
  { unfold tasks. rewrite elem_of_app. right. apply list_elem_of_fmap. exists put. split; [done|].
    by eapply list_elem_of_lookup_2. }
  destruct (lay_task _ _ _ _ L _ Ht) as (u & Hu & _ & He & Hd). destruct (task_bounds _ _ _ _ _ L Ht) as (B1 & B2 & _).
  cbn in *. pose proof (lay_base _ _ _ _ L) as [Hb _]. split_and!; [|lia|lia|].
  - replace (up_base_offset put) with (ub_end_offset_aligned u - ALIGN) by lia.
    apply (dur_undone _ _ _ _ _ D); [|done]. unfold entries. rewrite elem_of_app. by right.
  - eapply Forall_lookup_1; [exact (lay_puts _ _ _ _ L)|done].
Qed.

(** After the answer, the entry of the bulk carries the outcome. *)
Lemma end_upload_entries base i lo mid n put answer u :
  Layout base i lo mid → in_puts i !! n = Some put → u ∈ entries (end_upload config n answer i) →
  u ∈ entries i ∧ ub_end_offset_aligned u ≠ up_base_offset put + ALIGN ∨
  ub_end_offset_aligned u = up_base_offset put + ALIGN ∧ ub_records u = Some (up_records put) ∧
  ub_done u = Some (match answer with Ok _ => Ok tt | Err e => Err (Storage e) end).
Proof.
  intros L Hn. pose proof (uploading_seqs_NoDup _ _ _ _ L) as Hnd.
  pose proof (λ u, elem_of_entries_put _ _ _ _ _ _ u L Hn) as Hput.
  assert (Hst : ws_uploading (in_state (end_upload config n answer i)) =
    set_done (up_seq put) (up_records put) (match answer with Ok _ => Ok tt | Err e => Err (Storage e) end)
      (ws_uploading (in_state i)) ∧ in_completing (end_upload config n answer i) = in_completing i)
    by (unfold end_upload; rewrite Hn; by destruct answer).
  destruct Hst as [E1 E2]. unfold entries. rewrite E1, E2, set_done_map by done.
  intros [Hu|(v & -> & Hv)%list_elem_of_fmap]%elem_of_app.
  - left. split; [rewrite elem_of_app; by left|]. intros He.
    destruct (Hput u) as (Hd & _); [unfold entries; rewrite elem_of_app; by left|done|].
    apply (lay_popped _ _ _ _ L) in Hu. rewrite Hd in Hu. by destruct Hu.
  - assert (Hvin : v ∈ entries i) by (unfold entries; rewrite elem_of_app; by right).
    case_decide as Hq.
    + right. split; [|done]. cbn.
      destruct (lay_task _ _ _ _ L (up_seq put, up_base_offset put)) as (w & Hwin & Hs & He & _).
      { unfold tasks. rewrite elem_of_app. right. apply list_elem_of_fmap. exists put. split; [done|].
        by eapply list_elem_of_lookup_2. }
      replace v with w; [done|]. eapply (NoDup_fmap_inj ub_seq); [exact Hnd|done|done|]. cbn in Hs. congruence.
    + left. split; [exact Hvin|]. intros He. destruct (Hput v Hvin He) as (_ & ? & _). done.
Qed.

(** Recording a successful upload. *)
Lemma upload_ok_durable base log s s' i lo mid n put bucket_id :
  Layout base i lo mid → Durable base log s i mid → in_puts i !! n = Some put →
  os_write s default_write_options (up_path put) (up_payload put) = (s', Ok bucket_id) →
  Durable base (<[up_base_offset put := up_records put]> log) s' (end_upload config n (Ok bucket_id) i) mid.
Proof.
  intros L D Hn Hw. destruct (put_fresh _ _ _ _ _ _ _ _ L D Hn) as (Hfresh & Hge & Hle & Hok).
  destruct Hok as (Hlaid & Hpath & Hlast & t & Hpay). apply write_durable in Hw as [Hw Hother].
  pose proof (λ u, end_upload_entries _ _ _ _ _ _ (Ok bucket_id) u L Hn) as Hent.
  set (b0 := up_base_offset put) in *. pose proof (lay_base _ _ _ _ L) as [Hbase _].
  destruct D. set (log' := <[b0:=_]> log).
  assert (Hkeep : ∀ b l, log !! b = Some l → log' !! b = Some l).
  { intros b l Hb. unfold log'. rewrite lookup_insert_ne; [done|]. intros ->. congruence. }
  unfold end_upload in *. rewrite Hn in *. cbn in Hent. split; cbn; try done.
  - intros b l [[<- <-]|[Hne Hb]]%lookup_insert_Some.
    + split_and!; try done. left. exists t. rewrite <-Hpay, <-Hpath. done.
    + destruct (dur_log0 b l Hb) as (? & ? & ? & Hor). split_and!; try done.
      assert (He : object s' (path b (b + ALIGN)) = object s (path b (b + ALIGN))).
      { apply Hother. rewrite Hpath. intros Hp. apply path_inj in Hp; [done|lia|lia]. }
      unfold stored. rewrite He. exact Hor.
  - intros u [[Hu Hne]|(_ & _ & Hd)]%Hent Hd'; [|congruence].
    unfold log'. rewrite lookup_insert_ne by lia. auto.
  - intros u [[Hu Hne]|(He & Hr & _)]%Hent Hd'.
    + destruct (dur_done0 u Hu Hd') as (l & ? & ?). eauto.
    + exists (up_records put). split; [done|]. rewrite He.
      replace (b0 + ALIGN - ALIGN) with b0 by lia. apply lookup_insert_eq.
  - intros u e [[Hu Hne]|(_ & _ & Hd)]%Hent Hd'; [eauto|congruence].
  - intros r a Hin. destruct (dur_acks0 r a Hin) as (b & l & Hb & ?). exists b, l. auto.
  - intros b Hb Hm. destruct (dur_confirmed0 b Hb Hm) as [l Hl]. exists l. auto.
  - intros k o [[<- <-]|[Hne Hk]]%lookup_insert_Some.
    + exists b0, (up_records put). unfold log'. rewrite lookup_insert_eq. done.
    + destruct (dur_objects0 k o Hk) as (b & l & Hb & ?). exists b, l. auto.
  - intros k Hk. destruct (dur_released0 k Hk) as [?|(b & l & Hb & ?)]; [by left|]. right. exists b, l. auto.
Qed.

(** A failed upload fences the writer; its object is unknown. *)
Lemma upload_err_durable base log s s' i lo mid n put e :
  Layout base i lo mid → Durable base log s i mid → in_puts i !! n = Some put →
  os_write s default_write_options (up_path put) (up_payload put) = (s', Err e) →
  Durable base log s' (end_upload config n (Err e) i) mid.
Proof.
  intros L D Hn Hw. destruct (put_fresh _ _ _ _ _ _ _ _ L D Hn) as (Hfresh & Hge & Hle & Hok).
  destruct Hok as (Hlaid & Hpath & _). pose proof (write_only _ _ _ _ _ _ Hw) as Hother.
  pose proof (λ u, end_upload_entries _ _ _ _ _ _ (Err e) u L Hn) as Hent.
  pose proof (lay_base _ _ _ _ L) as [Hbase _].
  apply (storage_durable _ _ _ s') in D.
  2:{ intros b l Hb. right. apply Hother. rewrite Hpath. intros Hp.
      destruct (dur_log _ _ _ _ _ D b l Hb) as (? & _). apply path_inj in Hp; [|lia..]. congruence. }
  destruct D. unfold end_upload in *. rewrite Hn in *. cbn in Hent. split; cbn; try done.
  - intros u [[Hu Hne]|(_ & _ & Hd)]%Hent Hd'; [auto|congruence].
  - intros u [[Hu Hne]|(_ & _ & Hd)]%Hent Hd'; [auto|congruence].
Qed.

Lemma end_upload_inv base s s' i n put answer :
  in_puts i !! n = Some put →
  os_write s default_write_options (up_path put) (up_payload put) = (s', answer) →
  WalInv base s i → WalInv base s' (end_upload config n answer i).
Proof.
  intros Hn Hw (log & lo & mid & L & D). destruct answer as [bucket_id|e].
  - exists (<[up_base_offset put := up_records put]> log), lo, mid.
    split; [by apply end_upload_layout|by eapply upload_ok_durable].
  - exists log, lo, mid. split; [by apply end_upload_layout|by eapply upload_err_durable].
Qed.

Lemma pop_inv base s i :
  in_next_offset i < two63 → WalInv base s i → WalInv base s (callback_pop config i).
Proof.
  intros Hn HI. unfold callback_pop. destruct (in_completing i) eqn:Hc; [done|].
  destruct (pop_done (ws_uploading (in_state i))) as [completed rest] eqn:Hp.
  destruct completed as [|u us]; [done|]. destruct HI as (log & lo & mid & L & D).
  pose proof (pop_layout _ _ _ _ _ _ L Hc Hp) as L1. apply pop_done_split in Hp as [Hu _].
  assert (D1 : Durable base log s (i <| in_state := in_state i <| ws_uploading := rest |> |>
    <| in_completing := Some (u :: us) |>) mid).
  { destruct D. unfold entries in *. rewrite Hc, Hu in *. split; done. }
  destruct (try_upload_durable _ _ _ _ _ _ L1 Hn D1) as (mid' & L2 & D2). by exists log, lo, mid'.
Qed.

Lemma elem_of_append_results r a l :
  (r, a) ∈ append_results config l → r ∈ l ∧ ar_record_offset a =
    {| rof_epoch := wc_epoch config; rof_offset := pr_offset r; rof_size := wrap_u32 (pr_size r) |}.
Proof.
  induction l as [|x l IH]; cbn; [by intros ?%not_elem_of_nil|].
  intros [[= -> ->]|Hin]%elem_of_cons; [split; [by left|done]|]. destruct (IH Hin). split; [by right|done].
Qed.

(** An acknowledgement that says [Ok] comes from a stored bulk that is now
    confirmed. *)
Lemma ok_acks_stored base log s i lo mid lo' completed r a :
  Layout base i lo mid → Durable base log s i mid → in_completing i = Some completed →
  in_fenced i = false → entry_chain lo completed lo' →
  (r, Ok a) ∈ mjoin (bulk_acks false <$> completed) →
  ∃ b l, log !! b = Some l ∧ r ∈ l ∧ b + ALIGN <= lo' ∧ ar_record_offset a =
    {| rof_epoch := wc_epoch config; rof_offset := pr_offset r; rof_size := wrap_u32 (pr_size r) |}.
Proof.
  intros L D Hc Hf Hch (acks & Hin & (u & -> & Hu)%list_elem_of_fmap)%list_elem_of_join.
  assert (Hent : u ∈ entries i) by (unfold entries; rewrite Hc, elem_of_app; by left).
  destruct (lay_popped _ _ _ _ L u) as [[[]|e] Hd]; [by rewrite Hc| |].
  - destruct (dur_done _ _ _ _ _ D u Hent Hd) as (l & Hr & Hl). unfold bulk_acks in Hin. rewrite Hr in Hin. cbn in Hin.
    apply list_elem_of_fmap in Hin as ([r' a'] & [= -> ->] & Hin). apply elem_of_append_results in Hin as [? ?].
    exists (ub_end_offset_aligned u - ALIGN), l. split_and!; try done.
    destruct (entry_chain_elem _ _ _ _ Hch Hu) as [? _]. lia.
  - pose proof (dur_failed _ _ _ _ _ D u e Hent Hd). congruence.
Qed.

(** Every file between the old and the new confirmed offset is stored. *)
Lemma confirmed_stored base log s i lo mid lo' completed b :
  Layout base i lo mid → Durable base log s i mid → in_completing i = Some completed →
  in_fenced i = false → entry_chain lo completed lo' → lo <= b < lo' → b mod ALIGN = 0 → is_Some (log !! b).
Proof.
  intros L D Hc Hf Hch Hb Hm.
  assert (Hin : ∃ u, u ∈ completed ∧ ub_end_offset_aligned u = b + ALIGN).
  { pose proof (proj2 (lay_base _ _ _ _ L)) as Hlo. clear -Hch Hb Hm Hlo. revert lo Hch Hb Hlo.
    induction completed as [|u us IH]; intros lo; cbn; [lia|]. intros [He Hch] Hb Hlo.
    apply Z.mod_divide in Hm as [k ->]; [|done]. apply Z.mod_divide in Hlo as [j ->]; [|done].
    destruct (decide (k = j)) as [->|Hne]; [exists u; split; [by left|lia]|].
    destruct (IH (j * ALIGN + ALIGN)) as (v & ? & ?); [done| | |].
    - pose proof ALIGN_pos. assert (j + 1 <= k) by nia. nia.
    - replace (j * ALIGN + ALIGN) with ((j + 1) * ALIGN) by lia. by apply Z.mod_mul.
    - exists v. split; [by right|done]. }
  destruct Hin as (u & Hu & He).
  assert (Hent : u ∈ entries i) by (unfold entries; rewrite Hc, elem_of_app; by left).
  destruct (lay_popped _ _ _ _ L u) as [[[]|e] Hd]; [by rewrite Hc| |].
  - destruct (dur_done _ _ _ _ _ D u Hent Hd) as (l & _ & Hl). rewrite He in Hl.
    replace (b + ALIGN - ALIGN) with b in Hl by lia. eauto.
  - pose proof (dur_failed _ _ _ _ _ D u e Hent Hd). congruence.
Qed.

(** What completion leaves alone. *)
Lemma verify_frame verified i :
  let i' := callback_verify config verified i in
  in_state i' = in_state i ∧ in_trim_offset i' = in_trim_offset i ∧ in_deletes i' = in_deletes i ∧
  in_redeletes i' = in_redeletes i ∧ in_trims i' = in_trims i ∧ in_tickets i' = in_tickets i ∧
  in_jobs i' = in_jobs i ∧ in_puts i' = in_puts i ∧ in_completing i' = None ∧ in_next_offset i' = in_next_offset i.
Proof.
  unfold callback_verify. destruct (in_completing i) as [completed|] eqn:Hc; [|split_and!; done].
  set (fenced := match verified with Ok true => _ | _ => _ end).
  destruct (complete_bulks fenced completed (i <| in_fenced := fenced |> <| in_completing := None |>))
    as ((E1 & E2 & E3 & E4 & E5 & E6) & _ & _ & E9 & E10 & E11 & E12 & E13 & _). cbn in *.
  split_and!; done.
Qed.

Lemma verify_inv base s i verified : WalInv base s i → WalInv base s (callback_verify config verified i).
Proof.
  intros HI. destruct (in_completing i) as [completed|] eqn:Hc; [|unfold callback_verify; by rewrite Hc].
  destruct HI as (log & lo & mid & L & D).
  destruct (verify_layout _ _ _ _ _ verified L Hc) as (lo' & Hlo & Hch & L' & Heq).
  destruct (Heq _ eq_refl) as (Hf & Ha & Hfl). clear Heq.
  pose proof (verify_frame verified i) as (E1 & E2 & E3 & E4 & E5 & _ & _ & _ & E6 & _).
  exists log, lo', mid. split; [done|]. set (i' := callback_verify config verified i) in *.
  set (fenced := match verified with Ok true => _ | _ => _ end) in *.
  assert (Hff : fenced = false → in_fenced i = false) by (unfold fenced; destruct verified as [[]|]; done).
  assert (Hsub : ∀ u, u ∈ entries i' → u ∈ entries i).
  { intros u. unfold entries. rewrite E1, E6, Hc. cbn. rewrite elem_of_app. auto. }
  assert (Hgrow : in_flushed_offset i <= in_flushed_offset i').
  { rewrite Hfl. destruct fenced; [lia|]. pose proof (lay_flushed _ _ _ _ L) as [? _]. lia. }
  pose proof D as D0. destruct D.
  split; unfold released in *; rewrite ?E1, ?E2, ?E3, ?E4, ?E5; try done; auto.
  - intros u e Hu Hd. pose proof (dur_failed0 u e (Hsub u Hu) Hd) as Hx. rewrite Hf.
    destruct fenced eqn:Ef; [done|]. rewrite Hff in Hx by done. done.
  - intros r a. rewrite Ha, elem_of_app. intros [Hin|Hin].
    + destruct (dur_acks0 r a Hin) as (b & l & ? & ? & ? & ?). exists b, l. split_and!; (done || lia).
    + destruct fenced eqn:Ef.
      * apply list_elem_of_join in Hin as (acks & Hin & (u & -> & Hu)%list_elem_of_fmap).
        unfold bulk_acks in Hin. by apply list_elem_of_fmap in Hin as (? & ? & _).
      * rewrite Hfl. by apply (ok_acks_stored base log s i lo mid lo' completed r a L D0 Hc (Hff eq_refl) Hch).
  - intros b Hb Hm. destruct (decide (b < in_flushed_offset i)) as [Hlt|Hge]; [apply dur_confirmed0; [lia|done]|].
    rewrite Hfl in Hb. destruct fenced eqn:Ef; [lia|].
    pose proof (proj2 (lay_flushed _ _ _ _ L) (Hff eq_refl)).
    apply (confirmed_stored base log s i lo mid lo' completed b L D0 Hc (Hff eq_refl) Hch); [lia|done].
Qed.

Lemma elem_of_foldl_delete (m : gmap Z WalObject) (l : list (Z * WalObject)) k o :
  foldl (λ m p, delete p.1 m) m l !! k = Some o → m !! k = Some o.
Proof.
  revert m. induction l as [|p l IH]; intros m; [done|]. cbn. intros Hk%IH.
  by apply lookup_delete_Some in Hk as [_ ?].
Qed.

(** A trim releases objects whose records it covers, and older epochs'. *)
Lemma trim_release_inv base s i n ticket offset :
  in_trims i !! n = Some (ticket, offset) → WalInv base s i → WalInv base s (trim_release n offset i).
Proof.
  intros Hn (log & lo & mid & L & D). exists log, lo, mid. split; [by destruct L; split|].
  pose proof (dur_trims _ _ _ _ _ D (ticket, offset)) as Ht. cbn in Ht.
  specialize (Ht ltac:(by eapply list_elem_of_lookup_2)).
  pose proof (delete_Permutation _ _ _ Hn) as Hp. destruct D. split; cbn; try done.
  - intros k o Hk%elem_of_foldl_delete. auto.
  - intros o Hin. apply dur_previous0. by eapply elem_of_drop_inv.
  - intros key (pth & -> & Hin)%list_elem_of_fmap. cbn in Hin.
    rewrite (fmap_app pd_paths), join_app, !elem_of_app in Hin. destruct Hin as [[Hin|Hin]|Hin].
    + apply dur_released0, list_elem_of_fmap_2, elem_of_app. by left.
    + cbn in Hin. rewrite app_nil_r in Hin. apply list_elem_of_fmap in Hin as (o & -> & [Ho|Ho]%elem_of_app).
      * right. apply list_elem_of_fmap in Ho as ([k o'] & -> & Hin). unfold covered_objects in Hin.
        destruct (last _) as [[lf ?]|]; [|by apply not_elem_of_nil in Hin].
        apply list_elem_of_filter in Hin as [_ [[H1 H2] Hk]%elem_of_ord_range]. cbn in H1, H2.
        destruct (dur_objects0 k o' Hk) as (b & l & Hb & Hkl & Hkey). exists b, l. split_and!; [done|done|].
        rewrite <-Hkl. lia.
      * left. apply elem_of_take_while in Ho as [Ho _]. apply dur_previous0. by eapply elem_of_take_inv.
    + apply dur_released0, list_elem_of_fmap_2, elem_of_app. by right.
  - intros t Hin. apply dur_trims0. rewrite Hp. by right.
Qed.

(** Deleting released keys only removes what was trimmed. *)
Lemma delete_durable base log s s' i lo mid paths r :
  Layout base i lo mid → in_next_offset i < two63 → Durable base log s i mid →
  (∀ p, p ∈ paths → op_key p ∈ released i) → os_delete s paths = (s', r) → Durable base log s' i mid.
Proof.
  intros L Hn D Hrel Hdel. apply (storage_durable _ _ s); [|done]. intros b l Hb.
  destruct (dur_log _ _ _ _ _ D b l Hb) as (Hge & Hle & _). pose proof (lay_base _ _ _ _ L) as [? _].
  destruct (layout_end _ _ _ _ L) as (_ & _ & _ & ? & _).
  destruct (decide (path b (b + ALIGN) ∈ op_key <$> paths)) as [Hin|Hnin];
    [|right; by eapply delete_only].
  left. apply list_elem_of_fmap in Hin as (p & Hp & Hin). apply Hrel in Hin. rewrite <-Hp in Hin.
  destruct (dur_released _ _ _ _ _ D _ Hin) as [Hf|(b' & l' & Hb' & Hpp & Hl)].
  - exfalso. apply (Hf b); [done|lia|done].
  - destruct (dur_log _ _ _ _ _ D b' l' Hb') as (? & _). apply path_inj in Hpp as ->; [|lia..].
    assert (l = l') as -> by congruence. done.
Qed.

Lemma released_deletes i n d p : in_deletes i !! n = Some d → p ∈ pd_paths d → op_key p ∈ released i.
Proof.
  intros Hn Hp. apply list_elem_of_fmap_2, elem_of_app. left. apply list_elem_of_join. exists (pd_paths d).
  split; [done|]. apply list_elem_of_fmap_2. by eapply list_elem_of_lookup_2.
Qed.

(** Ending a trim keeps its paths for the repeated delete. *)
Lemma trim_end_inv base s i n : WalInv base s i → WalInv base s (trim_end n i).
Proof.
  intros (log & lo & mid & L & D). exists log, lo, mid. unfold trim_end.
  destruct (in_deletes i !! n) as [d|] eqn:Hn; [|done]. pose proof (delete_Permutation _ _ _ Hn) as Hp.
  assert (Hrel : ∀ key, key ∈ released (i <| in_deletes := delete n (in_deletes i) |>
      <| in_redeletes := in_redeletes i ++ [pd_paths d] |>) → key ∈ released i).
  { intros key (pth & -> & Hin)%list_elem_of_fmap. cbn in Hin. rewrite join_app, !elem_of_app in Hin.
    destruct Hin as [Hin|[Hin|Hin]].
    - apply list_elem_of_fmap_2, elem_of_app. left. rewrite Hp. cbn. rewrite elem_of_app. by right.
    - apply list_elem_of_fmap_2, elem_of_app. by right.
    - cbn in Hin. rewrite app_nil_r in Hin. by eapply released_deletes. }
  split; [destruct (pd_paths d); by destruct L; split|].
  destruct D. destruct (pd_paths d) as [|p ps] eqn:Hd; split; cbn; try done.
  - intros key Hk. apply dur_released0. apply Hrel. unfold released in *. cbn in *.
    rewrite join_app. cbn. by rewrite app_nil_r.
  - intros key Hk. by apply dur_released0, Hrel.
Qed.

(** Every step keeps the invariant. *)
Lemma wal_step_inv base s i s' i' :
  offsets_fit i → wal_step (s, i) (s', i') → WalInv base s i → WalInv base s' i'.
Proof.
  intros Hfit Hstep HI. pose proof ALIGN_pos. assert (Hn1 : in_next_offset i + ALIGN < two63) by (unfold offsets_fit in Hfit; lia).
  assert (Hn : in_next_offset i < two63) by lia. inversion Hstep; subst.
  - by eapply submit_inv.
  - unfold resolve. destruct (list_find _ _) as [[? []]|]; [|done]. by apply (same_inv base s' i).
  - unfold timer. destruct (ws_active (in_state i)); [|done]. destruct (_ =? _); [|done]. by apply flush_inv.
  - by apply flush_inv.
  - apply flush_inv; [done|]. by apply (same_inv base s' i).
  - destruct HI as (log & lo & mid & L & D). exists log, lo, mid. split; [by apply begin_upload_layout|].
    unfold begin_upload. destruct (in_jobs i !! n); [|done]. by apply (same_log_durable base log s' i).
  - by eapply end_upload_inv.
  - by apply pop_inv.
  - by apply verify_inv.
  - by eapply trim_begin_inv.
  - by eapply trim_release_inv.
  - destruct HI as (log & lo & mid & L & D). exists log, lo, mid. split; [by apply (same_bulks_layout base i)|].
    destruct D. split; try done. cbn. intros t Ht. apply dur_trims0.
    match goal with Hm : in_trims _ !! _ = Some _ |- _ => rewrite (delete_Permutation _ _ _ Hm) end. by right.
  - apply trim_end_inv. destruct HI as (log & lo & mid & L & D). exists log, lo, mid. split; [done|].
    eapply delete_durable; [done|done|done| |done]. intros p Hp. by eapply released_deletes.
  - by apply trim_end_inv.
  - destruct HI as (log & lo & mid & L & D). exists log, lo, mid. split; [done|].
    eapply delete_durable; [done|done|done| |done]. intros p Hp. apply list_elem_of_fmap_2, elem_of_app. right.
    apply list_elem_of_join. eauto.
  - destruct HI as (log & lo & mid & L & D). exists log, lo, mid. split; [done|].
    eapply storage_durable; [|done]. intros b l _. right. auto.
Qed.

Lemma wal_reach_inv base s0 i0 s i : WalInv base s0 i0 → wal_reach s0 i0 s i → WalInv base s i.
Proof. intros HI. induction 1; [done|]. by eapply wal_step_inv. Qed.

(** ** Reading back *)

(** The frame of a record inside its object. *)
Lemma frames_split b l r :
  laid b l → 0 <= b → b + ALIGN < two63 → r ∈ l →
  ∃ pre post, frames crc32 l = pre ++ frame_record crc32 (pr_offset r) (encoded (pr_record r)) ++ post ∧
    Z.of_nat (length pre) = pr_offset r - b.
Proof.
  intros [(_ & Hf & Ht) [Hl _]] Hb Hlt.
  assert (Hb2 : b + total_size l < two63) by lia. clear Ht Hlt. revert b Hl Hb Hb2.
  induction l as [|x l IH]; intros b Hl Hb Hlt Hr; [by apply not_elem_of_nil in Hr|].
  apply Forall_cons in Hf as [Hx Hf]. pose proof (pending_ok_pos _ Hx). pose proof (total_size_pos _ Hf) as [Hp _].
  cbn [place total_size] in *. injection Hl as Hx' Hl. rewrite wrap_u64_id in Hl by int_lia.
  assert (Ho : pr_offset x = b) by (by rewrite Hx').
  change (frames crc32 (x :: l)) with
    (frame_record crc32 (pr_offset x) (encoded (pr_record x)) ++ frames crc32 l).
  apply elem_of_cons in Hr as [->|Hr].
  - exists [], (frames crc32 l). split; [done|]. cbn. lia.
  - destruct (IH Hf (b + pr_size x) Hl ltac:(lia) ltac:(lia) Hr) as (pre & post & He & Hlen).
    exists (frame_record crc32 (pr_offset x) (encoded (pr_record x)) ++ pre), post.
    rewrite He, <-app_assoc. split; [done|]. unfold frame_record. rewrite !length_app, length_marshal.
    destruct Hx as [_ Hsz]. rewrite Hsz in Hlen. lia.
Qed.

(** An object of the log answers reads of its records. *)
Lemma stored_reads_back s b l r :
  stored s b l → available s → laid b l → 0 <= b → b mod ALIGN = 0 → b + ALIGN < two63 → r ∈ l →
  wal_get crc32 (writer_node_prefix md5_hex_upper config) s
    {| rof_epoch := wc_epoch config; rof_offset := pr_offset r; rof_size := wrap_u32 (pr_size r) |} =
  Ok (pr_record r).
Proof.
  intros [t Hobj] Hav Hlaid Hb Hm Hlt Hr.
  destruct (frames_split b l r Hlaid Hb Hlt Hr) as (pre & post & Hfr & Hpre).
  destruct (laid_offsets b l Hlaid Hb Hlt) as (I1 & _). specialize (I1 r Hr).
  destruct Hlaid as [(_ & Hf & Ht) _]. rewrite Forall_forall in Hf. specialize (Hf r Hr). pose proof (pending_ok_pos r Hf).
  destruct Hf as [Hwf Hsz]. change (Z.of_nat WAL_RECORD_HEADER_SIZE) with 24 in Hsz.
  unfold wal_get. cbn [rof_epoch rof_offset rof_size]. rewrite (floor_align_in b) by (done || lia).
  change (Z.of_nat WAL_HEADER_SIZE_V1) with 48. assert (HA : ALIGN = 67108864) by done.
  rewrite (wrap_u64_id (pr_offset r - b + 48)), wrap_u32_id by int_lia. rewrite wrap_u64_id by int_lia.
  assert (Hpath : gen_object_path_v1_aligned (writer_node_prefix md5_hex_upper config) (wc_epoch config) b = path b (b + ALIGN)).
  { unfold gen_object_path_v1_aligned, gen_object_path_v1, object_path, object_prefix.
    rewrite wrap_u64_id by int_lia. apply as_bytes_inj. rewrite !as_bytes_append. by rewrite <-!app_assoc. }
  rewrite Hpath. set (fr := frame_record crc32 (pr_offset r) (encoded (pr_record r))) in *.
  assert (Hlfr : Z.of_nat (length fr) = pr_size r).
  { unfold fr, frame_record. rewrite length_app, length_marshal. change WAL_RECORD_HEADER_SIZE with 24%nat. lia. }
  set (hd := wh_marshal (header_v1 b (data_length l) (wc_node_id config) (wc_epoch config) t)).
  assert (Hhd : length hd = 48%nat) by (unfold hd; by rewrite length_wh_marshal).
  assert (Hobj' : object s (path b (b + ALIGN)) = Some ((hd ++ pre) ++ fr ++ post)).
  { rewrite Hobj. unfold bulk_payload. rewrite Hfr. by rewrite <-app_assoc. }
  rewrite (range_read_present _ _ _ _ _ _ Hobj' Hav); [|lia|rewrite !length_app; lia].
  unfold byte_range. rewrite slice_mid; [|rewrite length_app; lia|lia].
  pose proof (decode_marshalled crc32 (wrap_u64 (pr_offset r + 24)) (pr_record r) [] ltac:(auto with ints) Hwf) as Hdec.
  rewrite app_nil_r in Hdec. unfold fr, frame_record.
  rewrite (wrap_u32_id (Z.of_nat _)) by (apply well_formed_length in Hwf; int_lia).
  change (header_data (pr_offset r) (Z.of_nat (length (encoded (pr_record r)))) (wal_crc32 crc32 (encoded (pr_record r))))
    with (record_header crc32 (wrap_u64 (pr_offset r + 24)) (pr_record r)).
  by rewrite Hdec.
Qed.

(** ** Starting *)

(** Keys of this epoch's objects parse to this epoch and their range. *)
Lemma parse_own_path info b :
  op_key (oi_path info) = path b (b + ALIGN) → is_u64 (wc_epoch config) → 0 <= b → b + ALIGN < two63 →
  ∃ o, parse_wal_object info = Some o ∧ wl_epoch o = wc_epoch config ∧ wl_start_offset o = b.
Proof.
  intros Hk He Hb Hlt. pose proof ALIGN_pos.
  set (dir := md5_hex_upper (as_bytes (show_dec (wc_node_id config))) +:+ "/" +:+ WAL_NAMESPACE +:+
    wc_cluster_id config +:+ "/" +:+ show_dec (wc_node_id config) +:+
    (if is_blank (as_bytes (wc_wal_type config)) then EmptyString else "_" +:+ wc_wal_type config)).
  assert (Hp : path b (b + ALIGN) = gen_object_path_v1 (dir +:+ "/") (wc_epoch config) b (b + ALIGN)).
  { apply as_bytes_inj. unfold object_path, object_prefix, writer_node_prefix, node_prefix, gen_object_path_v1, dir.
    rewrite !as_bytes_append. by rewrite <-!app_assoc. }
  destruct info as [[bucket key] ts size]. cbn in Hk. rewrite Hk, Hp.
  rewrite parse_generated_key by (done || int_lia). eauto.
Qed.

(** Listed objects end after they start. *)
Definition listing_ok (listed : list ObjectInfo) : Prop :=
  ∀ o, o ∈ parse_wal_objects listed → wl_start_offset o < wl_end_offset o.

Lemma wal_object_leb_sorted l : StronglySorted (λ a b, wal_object_leb a b = true) (stable_sort wal_object_leb l).
Proof.
  apply stable_sort_sorted; unfold wal_object_leb.
  - intros x y z. rewrite !orb_true_iff, !andb_true_iff, !Z.ltb_lt, !Z.eqb_eq, !Z.leb_le. lia.
  - intros x y. rewrite !orb_false_iff, !orb_true_iff, !andb_false_iff, !andb_true_iff, !Z.ltb_ge, !Z.ltb_lt,
      !Z.eqb_neq, !Z.eqb_eq, !Z.leb_gt, !Z.leb_le. lia.
Qed.

Lemma remove_first_sublist x l : remove_first x l `sublist_of` l.
Proof. induction l as [|y l IH]; cbn; [done|]. case_bool_decide; [by constructor|by constructor]. Qed.

Lemma skip_overlap_sublist objects : (skip_overlap_objects objects).1 `sublist_of` objects.
Proof.
  unfold skip_overlap_objects. cbn. generalize (overlap_of objects) as ov. intros ov. revert objects.
  induction ov as [|x ov IH]; intros objects; [done|]. cbn. etrans; [apply IH|]. apply remove_first_sublist.
Qed.

(** No object found at the start is one the new writer will write. *)
Lemma previous_foreign listed objects o last_object :
  objects = (skip_overlap_objects (parse_wal_objects listed)).1 → listing_ok listed →
  is_u64 (wc_epoch config) → last objects = Some last_object → wl_epoch last_object <= wc_epoch config →
  0 <= wl_end_offset last_object → o ∈ objects →
  foreign (wl_end_offset last_object) (wl_key o).
Proof.
  intros Hobj Hlist He Hlast Hle Hpos Ho b Hb Hlt Hkey.
  pose proof (skip_overlap_sublist (parse_wal_objects listed)) as Hsub. rewrite <-Hobj in Hsub.
  assert (Hsorted : StronglySorted (λ a b, wal_object_leb a b = true) objects).
  { eapply StronglySorted_sublist; [exact Hsub|]. apply wal_object_leb_sorted. }
  pose proof (sublist_elem _ _ _ Hsub Ho) as Hin. unfold parse_wal_objects in Hin.
  rewrite stable_sort_perm in Hin. apply list_elem_of_omap in Hin as (info & _ & Hparse).
  assert (Hk : op_key (oi_path info) = wl_key o).
  { unfold parse_wal_object in Hparse. destruct (_ <? _)%nat; [done|].
    repeat match type of Hparse with context [mbind _ ?x] => destruct x; cbn in Hparse; [|done] end.
    destruct p. by injection Hparse as <-. }
  destruct (parse_own_path info b) as (o' & Hp & Hep & Hst); [by rewrite Hk, Hkey|done|lia|lia|].
  assert (o' = o) as -> by congruence.
  assert (Hll : wl_start_offset last_object < wl_end_offset last_object).
  { apply Hlist. eapply sublist_elem; [exact Hsub|]. by apply last_Some_elem_of. }
  destruct (StronglySorted_last _ _ _ _ Hsorted Hlast Ho) as [->|Hleb]; [lia|].
  unfold wal_object_leb in Hleb. rewrite orb_true_iff, andb_true_iff, Z.ltb_lt, Z.eqb_eq, Z.leb_le in Hleb. lia.
Qed.

(** A writer that started on an aligned log satisfies the invariant. *)
Lemma start_inv s listed i paths :
  start config (Ok true) (Ok listed) inner_new = (i, paths, Ok tt) → in_closed i = false →
  listing_ok listed → is_u64 (wc_epoch config) → 0 <= in_flushed_offset i →
  in_flushed_offset i mod ALIGN = 0 → WalInv (in_flushed_offset i) s i.
Proof.
  unfold start. destruct (skip_overlap_objects (parse_wal_objects listed)) as [objects overlap] eqn:Hsk.
  intros Hst Hcl Hlist He Hpos Hm.
  assert (Hobj : objects = (skip_overlap_objects (parse_wal_objects listed)).1) by (by rewrite Hsk).
  destruct (match last objects with Some o => _ | None => _ end) eqn:Hep; injection Hst as <- _; [done|].
  cbn in *. exists ∅, (match last objects with Some o => wl_end_offset o | None => 0 end),
    (match last objects with Some o => wl_end_offset o | None => 0 end).
  split; split; unfold entries, seqs, tasks, released; cbn; try done; try (intros; by set_solver);
    try (split; [lia|done]); try constructor; try lia.
  - constructor.
  - constructor.
  - intros o Ho. destruct (last objects) as [lo|] eqn:Hlast.
    + apply Z.ltb_ge in Hep. exact (previous_foreign listed objects o lo Hobj Hlist He Hlast Hep Hpos Ho).
    + apply last_None in Hlast as ->. by apply not_elem_of_nil in Ho.
Qed.

(** A writer whose [start] succeeded on a log that ends on a file boundary.
    The logs this writer leaves do, and the empty log does; a log whose last
    object has a version 0 key may not, which is treated below. *)
Definition started (i : Inner) : Prop :=
  ∃ listed paths, start config (Ok true) (Ok listed) inner_new = (i, paths, Ok tt) ∧ in_closed i = false ∧
    listing_ok listed ∧ is_u64 (wc_epoch config) ∧ 0 <= in_flushed_offset i ∧ in_flushed_offset i mod ALIGN = 0.

Lemma reach_inv s0 i0 s i : started i0 → wal_reach s0 i0 s i → WalInv (in_flushed_offset i0) s i.
Proof.
  intros (listed & paths & Hs & Hc & Hl & He & Hp & Hm) Hr. eapply wal_reach_inv; [|done]. by eapply start_inv.
Qed.

Lemma dur_log_aligned base log s i lo mid b l :
  Layout base i lo mid → Durable base log s i mid → log !! b = Some l → 0 <= b ∧ b + ALIGN <= in_next_offset i.
Proof.
  intros L D Hb. destruct (dur_log _ _ _ _ _ D b l Hb) as (? & ? & _).
  pose proof (lay_base _ _ _ _ L) as [? _]. destruct (layout_end _ _ _ _ L) as (_ & _ & _ & ? & _). lia.
Qed.

(** C2: An acknowledged append is durable. In every state that a writer can
    reach after starting on a log that ends on a 64 MiB file boundary, under
    any interleaving of appends, timers, uploads that succeed or fail,
    reservation verdicts, trims, deletes and changes by other writers, a
    record whose append future resolved with [Ok] is read back by [get] at
    the position the append reported, until a trim covers it. Offsets stay
    below 2^63. *)
Theorem acknowledged_records_read_back s0 i0 s i r a :
  started i0 → wal_reach s0 i0 s i → offsets_fit i → available s →
  (r, Ok a) ∈ in_acks i → in_trim_offset i < pr_offset r →
  wal_get crc32 (writer_node_prefix md5_hex_upper config) s (ar_record_offset a) = Ok (pr_record r).
Proof.
  intros Hst Hr Hfit Hav Hack Htrim. destruct (reach_inv _ _ _ _ Hst Hr) as (log & lo & mid & L & D).
  destruct (dur_acks _ _ _ _ _ D r a Hack) as (b & l & Hb & Hin & _ & ->).
  destruct (dur_log _ _ _ _ _ D b l Hb) as (Hge & Hle & Hlaid & Hdur).
  destruct (dur_log_aligned _ _ _ _ _ _ _ _ L D Hb) as [Hb0 Hbn]. unfold offsets_fit in Hfit. pose proof ALIGN_pos.
  destruct (laid_offsets b l Hlaid Hb0 ltac:(lia)) as (_ & Hs & x & Hx & Hxin & _).
  destruct Hdur as [Hdur|Hdur].
  - apply (stored_reads_back s b l r); try done; [apply Hlaid|lia].
  - exfalso. unfold last_record_offset in Hdur. rewrite Hx in Hdur.
    destruct (StronglySorted_last _ _ _ _ Hs Hx Hin) as [->|Hlt]; [lia|].
    destruct Hlaid as [(_ & Hf & _) _]. rewrite Forall_forall in Hf. apply Hf, pending_ok_pos in Hin. lia.
Qed.

(** C27: What a writer has confirmed has no holes: when it started on a log
    that ends on a file boundary, every file of the log from where it started
    up to its confirmed offset holds a bulk, its
    records one after the other from the file's first byte, and the object
    with exactly those frames is in the storage unless the trim offset
    covers the whole bulk. *)
Theorem confirmed_log_has_no_holes s0 i0 s i offset :
  started i0 → wal_reach s0 i0 s i →
  in_flushed_offset i0 <= offset < rof_offset (confirm_offset config i) →
  ∃ records, laid (floor_align_offset offset) records ∧
    (stored s (floor_align_offset offset) records ∨
     last_record_offset (floor_align_offset offset) records <= in_trim_offset i).
Proof.
  intros Hst Hr Hoff. destruct (reach_inv _ _ _ _ Hst Hr) as (log & lo & mid & L & D). cbn in Hoff.
  pose proof (floor_align_le offset) as Hfl. destruct Hst as (? & ? & _ & _ & _ & _ & Hpos & Hm).
  set (b := floor_align_offset offset) in *.
  assert (Hb : b mod ALIGN = 0) by (apply Z.mod_mul; done).
  destruct (dur_confirmed _ _ _ _ _ D b) as [l Hl].
  - split; [|lia]. apply Z.mod_divide in Hb as [k Hk]; [|done]. apply Z.mod_divide in Hm as [j Hj]; [|done].
    pose proof ALIGN_pos. assert (j < k + 1) by nia. nia.
  - done.
  - destruct (dur_log _ _ _ _ _ D b l Hl) as (_ & _ & ? & ?). eauto.
Qed.

(** ** Acknowledgements *)
Lemma flush_acks i :
  in_acks (flush config i) = in_acks i ∧ in_flushed_offset (flush config i) = in_flushed_offset i ∧
  in_fenced (flush config i) = in_fenced i.
Proof. unfold flush. cbn. by destruct (seal_same_log i) as (_ & _ & -> & -> & -> & _). Qed.

Lemma submit_acks record i i' r :
  submit config record i = (i', r) →
  in_acks i' = in_acks i ∧ in_flushed_offset i' = in_flushed_offset i ∧ in_fenced i' = in_fenced i.
Proof.
  unfold submit. destruct (check_status config i); [|by intros [= <- <-]].
  destruct (_ <? _); [by intros [= <- <-]|]. destruct (_ <? _); [by intros [= <- <-]|].
  destruct (push_same_log record (Z.of_nat (length (encoded record)) + Z.of_nat WAL_RECORD_HEADER_SIZE) i)
    as (_ & _ & E1 & E2 & E3 & _).
  destruct (active_full config _); intros [= <- _]; [|by rewrite E1, E2, E3].
  pose proof (flush_acks (push_record record (Z.of_nat (length (encoded record)) + Z.of_nat WAL_RECORD_HEADER_SIZE) i))
    as (F1 & F2 & F3). by rewrite <-E1, <-E2, <-E3, <-F1, <-F2, <-F3.
Qed.

(** Only completion acknowledges, and nothing clears the fence. *)
Lemma step_acks s i s' i' :
  wal_step (s, i) (s', i') →
  (in_acks i' = in_acks i ∧ in_flushed_offset i' = in_flushed_offset i ∧
   (in_fenced i = true → in_fenced i' = true)) ∨
  ∃ verified, i' = callback_verify config verified i.
Proof.
  inversion 1; subst; try (left; by split); try (right; by eexists); left.
  - match goal with Hs : submit _ _ _ = _ |- _ => by destruct (submit_acks _ _ _ _ Hs) as (-> & -> & ->) end.
  - unfold resolve. by destruct (list_find _ _) as [[? []]|].
  - unfold timer. destruct (ws_active (in_state i)); [|done]. destruct (_ =? _); [|done].
    change (try_upload_waiting config (seal_active i)) with (flush config i).
    by destruct (flush_acks i) as (-> & -> & ->).
  - by destruct (flush_acks i) as (-> & -> & ->).
  - unfold close. by destruct (flush_acks (i <| in_closed := true |>)) as (-> & -> & ->).
  - unfold begin_upload. by destruct (in_jobs i !! n).
  - unfold end_upload. destruct (in_puts i !! n); [|done]. by destruct answer.
  - unfold callback_pop. destruct (in_completing i); [done|]. destruct (pop_done _) as [[] ?]; done.
  - match goal with Ht : trim_begin _ _ _ = _ |- _ => unfold trim_begin in Ht; revert Ht end.
    destruct (check_status config i); [|by intros [= <- <-]]. destruct (_ <=? _); [by intros [= <- <-]|].
    destruct (submit config trim_record _) as [i1 r1] eqn:Hs. destruct (submit_acks _ _ _ _ Hs) as (E1 & E2 & E3).
    cbn in E1, E2, E3. destruct r1; intros [= <- _]; cbn; by rewrite E1, E2, E3.
  - unfold trim_end. destruct (in_deletes i !! n) as [d0|]; [|done]. by destruct (pd_paths d0).
  - unfold trim_end. destruct (in_deletes i !! n) as [d0|]; [|done]. by destruct (pd_paths d0).
Qed.

(** The records acknowledged with [Ok], in the order of their acks. *)
Definition ok_acks (acks : list (PendingRecord * result AppendResult WalError)) : list PendingRecord :=
  omap (λ a : PendingRecord * result AppendResult WalError,
          match a.2 with Ok _ => Some a.1 | Err _ => None end) acks.

Definition before (r1 r2 : PendingRecord) : Prop := pr_offset r1 + pr_size r1 <= pr_offset r2.

Lemma ok_acks_app l1 l2 : ok_acks (l1 ++ l2) = ok_acks l1 ++ ok_acks l2.
Proof. apply omap_app. Qed.

Lemma ok_acks_fenced us : ok_acks (mjoin (bulk_acks true <$> us)) = [].
Proof.
  induction us as [|u us IH]; [done|].
  change (mjoin (bulk_acks true <$> u :: us)) with (bulk_acks true u ++ mjoin (bulk_acks true <$> us)).
  rewrite ok_acks_app, IH, app_nil_r. unfold bulk_acks. by induction (default [] (ub_records u)).
Qed.

Lemma ok_acks_records us :
  ok_acks (mjoin (bulk_acks false <$> us)) = mjoin ((λ u, default [] (ub_records u)) <$> us).
Proof.
  induction us as [|u us IH]; [done|].
  change (mjoin (bulk_acks false <$> u :: us)) with (bulk_acks false u ++ mjoin (bulk_acks false <$> us)).
  rewrite ok_acks_app, IH. rewrite fmap_cons. cbn [mjoin list_join]. f_equal. unfold bulk_acks.
  induction (default [] (ub_records u)) as [|r l IHl]; [done|]. cbn. f_equal. apply IHl.
Qed.

(** The records of completed bulks lie in their chain, in order. *)
Lemma completed_records_sorted base log s i lo mid lo' completed :
  Layout base i lo mid → Durable base log s i mid → in_next_offset i < two63 →
  in_completing i = Some completed → in_fenced i = false → entry_chain lo completed lo' →
  let l := mjoin ((λ u, default [] (ub_records u)) <$> completed) in
  StronglySorted before l ∧ ∀ r, r ∈ l → lo <= pr_offset r ∧ pr_offset r + pr_size r <= lo'.
Proof.
  intros L D Hn Hc Hf. 
  assert (Hdone : ∀ u, u ∈ completed → ∃ l, ub_records u = Some l ∧ laid (ub_end_offset_aligned u - ALIGN) l ∧
    0 <= ub_end_offset_aligned u - ALIGN ∧ ub_end_offset_aligned u < two63).
  { intros u Hu. assert (Hent : u ∈ entries i) by (unfold entries; rewrite Hc, elem_of_app; by left).
    destruct (lay_popped _ _ _ _ L u) as [[[]|e] Hd]; [by rewrite Hc| |].
    - destruct (dur_done _ _ _ _ _ D u Hent Hd) as (l & Hr & Hl). exists l.
      destruct (dur_log _ _ _ _ _ D _ _ Hl) as (? & ? & ? & _).
      destruct (dur_log_aligned _ _ _ _ _ _ _ _ L D Hl). split_and!; (done || lia).
    - pose proof (dur_failed _ _ _ _ _ D u e Hent Hd). congruence. }
  clear -Hdone. revert lo. induction completed as [|u us IH]; intros lo Hch; cbn.
  { split; [constructor|]. intros r Hr. by apply not_elem_of_nil in Hr. }
  destruct Hch as [He Hch]. destruct (Hdone u ltac:(by left)) as (l & Hr & Hlaid & Hb & Hlt). rewrite Hr. cbn.
  rewrite He in Hlaid, Hb, Hlt. replace (lo + ALIGN - ALIGN) with lo in * by lia.
  destruct (laid_offsets lo l Hlaid Hb Hlt) as (I1 & I2 & _). destruct Hlaid as [(_ & _ & Ht) _].
  destruct (IH ltac:(intros v Hv; apply Hdone; by right) _ Hch) as [S2 B2]. pose proof (entry_chain_length _ _ _ Hch) as Hl.
  pose proof ALIGN_pos. split.
  - apply StronglySorted_app_iff. split_and!; [done|done|]. intros x y Hx Hy. apply I1 in Hx. apply B2 in Hy.
    unfold before. lia.
  - intros r [Hx|Hx]%elem_of_app; [apply I1 in Hx; nia|apply B2 in Hx; lia].
Qed.

(** Appends are acknowledged in log order: however uploads finish, the
    records acknowledged with [Ok] appear in the order of their positions,
    without overlap, and all of them below the confirmed offset. *)
Theorem acks_follow_the_log s0 i0 s i :
  started i0 → wal_reach s0 i0 s i →
  StronglySorted before (ok_acks (in_acks i)) ∧
  ∀ r, r ∈ ok_acks (in_acks i) → pr_offset r + pr_size r <= rof_offset (confirm_offset config i).
Proof.
  intros Hst. cbn. induction 1 as [|s i s' i' Hr [IHs IHb] Hfit Hstep].
  { destruct Hst as (listed & paths & Hs & Hc & _). unfold start in Hs.
    destruct (skip_overlap_objects _) as [objects overlap]. destruct (match last objects with Some _ => _ | None => _ end);
      injection Hs as <- _; cbn; (split; [constructor|]); intros r Hr; by apply not_elem_of_nil in Hr. }
  destruct (reach_inv _ _ _ _ Hst Hr) as (log & lo & mid & L & D).
  destruct (step_acks _ _ _ _ Hstep) as [(Ha & Hfl & _)|[verified ->]]; [by rewrite Ha, Hfl|].
  destruct (in_completing i) as [completed|] eqn:Hc; [|unfold callback_verify; by rewrite Hc].
  destruct (verify_layout _ _ _ _ _ verified L Hc) as (lo' & Hlo & Hch & _ & Heq).
  destruct (Heq _ eq_refl) as (_ & Ha & Hfl'). set (fenced := match verified with Ok true => _ | _ => _ end) in *.
  rewrite Ha, Hfl', ok_acks_app. destruct fenced eqn:Ef; [by rewrite ok_acks_fenced, app_nil_r|].
  assert (Hf : in_fenced i = false) by (unfold fenced in Ef; destruct verified as [[]|]; done).
  pose proof ALIGN_pos. unfold offsets_fit in Hfit.
  destruct (completed_records_sorted _ _ _ _ _ _ _ _ L D ltac:(lia) Hc Hf Hch) as [S2 B2].
  rewrite ok_acks_records. pose proof (proj2 (lay_flushed _ _ _ _ L) Hf) as Hfl.
  split.
  - apply StronglySorted_app_iff. split_and!; [done|done|]. intros x y Hx Hy. apply IHb in Hx. apply B2 in Hy.
    unfold before. lia.
  - intros r [Hx|Hx]%elem_of_app; [apply IHb in Hx; lia|apply B2 in Hx; lia].
Qed.

(** A fenced writer is silent: once the fence is up, whatever happens
    next no append is acknowledged with [Ok], the confirmed offset stays,
    and every new append is refused without touching the state. *)
Theorem fenced_writer_is_silent s i s' i' record :
  in_fenced i = true → wal_reach s i s' i' →
  ok_acks (in_acks i') = ok_acks (in_acks i) ∧ confirm_offset config i' = confirm_offset config i ∧
  submit config record i' = (i', Err (if in_closed i' then NotInitialized else fenced_error config)).
Proof.
  intros Hf Hr.
  assert (Hkeep : in_fenced i' = true ∧ ok_acks (in_acks i') = ok_acks (in_acks i) ∧
    in_flushed_offset i' = in_flushed_offset i).
  { induction Hr as [|s1 i1 s2 i2 Hr (IH1 & IH2 & IH3) _ Hstep]; [done|].
    destruct (step_acks _ _ _ _ Hstep) as [(-> & -> & Hk)|[verified ->]]; [auto|].
    unfold callback_verify. destruct (in_completing i1) as [completed|]; [|done].
    assert (match verified with Ok true => in_fenced i1 | _ => true end = true) as ->
      by (rewrite IH1; by destruct verified as [[]|]).
    destruct (complete_bulks true completed (i1 <| in_fenced := true |> <| in_completing := None |>))
      as ((_ & _ & E1 & _) & E2 & E3 & _).
    rewrite E1, E2, E3, ok_acks_app, ok_acks_fenced, app_nil_r. by cbn. }
  destruct Hkeep as (K1 & K2 & K3). split_and!; [done|unfold confirm_offset; by rewrite K3|].
  unfold submit, check_status. rewrite K1. by destruct (in_closed i').
Qed.

(** ** No append is lost or answered twice *)
Definition tickets (l : list PendingRecord) : list nat := pr_ack <$> l.
Definition entry_tickets (u : UploadingBulk) : list nat := tickets (default [] (ub_records u)).

(** Where the tickets handed out so far are: acknowledged, or in a bulk. *)
Definition flight (i : Inner) : list nat :=
  ((λ a, pr_ack a.1) <$> in_acks i) ++ mjoin (entry_tickets <$> entries i) ++
  mjoin ((λ j, tickets (uj_records j)) <$> in_jobs i) ++ mjoin ((λ p, tickets (up_records p)) <$> in_puts i) ++
  mjoin ((λ b, tickets (bk_records b)) <$> ws_waiting (in_state i)) ++
  match ws_active (in_state i) with Some b => tickets (bk_records b) | None => [] end.

Record Tickets (i : Inner) : Prop := {
  tk_flight : flight i ≡ₚ seq 0 (in_tickets i);
  tk_records : Forall (λ u, ub_done u = None → ub_records u = None) (ws_uploading (in_state i));
  tk_progress : ws_waiting (in_state i) ≠ [] → is_Some (ws_active (in_state i)) ∨
    (wc_max_inflight_upload_count config <= length (ws_uploading (in_state i)))%nat;
}.

Lemma seal_flight i : flight (seal_active i) = flight i ∧ in_tickets (seal_active i) = in_tickets i.
Proof.
  unfold seal_active, flight, entries. destruct (ws_active (in_state i)) as [b|] eqn:E; [|by rewrite E]. cbn.
  rewrite !fmap_app, !join_app. cbn. by rewrite !app_nil_r, <-?app_assoc.
Qed.

(** Admitting bulks moves their tickets to upload tasks and fills the slots. *)
Lemma try_upload_tickets i :
  flight i ≡ₚ seq 0 (in_tickets i) →
  Forall (λ u, ub_done u = None → ub_records u = None) (ws_uploading (in_state i)) →
  Tickets (try_upload_waiting config i).
Proof.
  intros Hf Hr. unfold try_upload_waiting. set (slots := (_ - _)%nat). split; cbn.
  - rewrite <-Hf. unfold flight, entries. cbn.
    pose proof (take_drop slots (ws_waiting (in_state i))) as Hw.
    set (adm := take slots _) in *. set (rest := drop slots _) in *. rewrite <-Hw. clearbody adm rest.
    rewrite !fmap_app, !join_app, <-!list_fmap_compose.
    replace (mjoin (entry_tickets ∘ start_upload <$> adm)) with (@nil nat)
      by (clear; induction adm as [|? ? IH]; [done|exact IH]).
    change ((λ j, tickets (uj_records j)) ∘ upload_job) with (λ b, tickets (bk_records b)). solve_Permutation.
  - apply Forall_app. split; [done|]. apply Forall_fmap, Forall_true. done.
  - intros Hne. right. rewrite length_app, length_fmap, length_take.
    assert (slots < length (ws_waiting (in_state i)))%nat; [|lia].
    destruct (decide (slots < length (ws_waiting (in_state i)))%nat); [done|]. rewrite drop_ge in Hne by lia. done.
Qed.

Lemma flush_tickets i :
  flight i ≡ₚ seq 0 (in_tickets i) →
  Forall (λ u, ub_done u = None → ub_records u = None) (ws_uploading (in_state i)) → Tickets (flush config i).
Proof.
  intros Hf Hr. destruct (seal_flight i) as [E1 E2]. apply try_upload_tickets; [by rewrite E1, E2|].
  by destruct (seal_same_log i) as [-> _].
Qed.

Lemma push_tickets i record data_size :
  0 <= data_size <= ALIGN → (∀ b, ws_active (in_state i) = Some b → 0 <= bk_size b <= ALIGN) →
  Tickets i → flight (push_record record data_size i) ≡ₚ seq 0 (in_tickets (push_record record data_size i)) ∧
    Forall (λ u, ub_done u = None → ub_records u = None) (ws_uploading (in_state (push_record record data_size i))) ∧
    is_Some (ws_active (in_state (push_record record data_size i))).
Proof.
  intros Hd Hb [T1 T2 T3].
  assert (Hfresh : ∀ j, flight j ≡ₚ seq 0 (in_tickets j) → ws_active (in_state j) = None →
    flight (push_record record data_size j) ≡ₚ seq 0 (in_tickets (push_record record data_size j)) ∧
    is_Some (ws_active (in_state (push_record record data_size j)))).
  { intros j Hj Ha. rewrite push_record_none by done. cbn [in_tickets field_set]. split; [|done].
    rewrite seq_S. cbn. rewrite <-Hj. unfold flight, entries. rewrite Ha. cbn. solve_Permutation. }
  assert (Hu : ws_uploading (in_state (push_record record data_size i)) = ws_uploading (in_state i)) by apply push_same_log.
  rewrite Hu. cut (flight (push_record record data_size i) ≡ₚ seq 0 (in_tickets (push_record record data_size i)) ∧
    is_Some (ws_active (in_state (push_record record data_size i)))); [tauto|].
  destruct (ws_active (in_state i)) as [b|] eqn:Ha; [|by apply Hfresh].
  specialize (Hb b eq_refl). destruct (decide (data_size + bk_size b <= ALIGN)).
  - rewrite (push_record_fits _ _ _ b) by (done || lia). cbn [in_tickets field_set]. split; [|done].
    rewrite seq_S. cbn. rewrite <-T1. unfold flight, entries. rewrite Ha. cbn. unfold tickets.
    rewrite !fmap_app. cbn. solve_Permutation.
  - rewrite (push_record_seals _ _ _ b) by (done || lia). apply Hfresh; [|apply seal_active_none].
    by destruct (seal_flight i) as [-> ->].
Qed.

Lemma submit_tickets base i lo mid record i' r :
  Layout base i lo mid → submit config record i = (i', r) → Tickets i → Tickets i'.
Proof.
  intros L Hs HT. unfold submit in Hs.
  destruct (check_status config i) as [_|e]; [|by injection Hs as <- <-].
  destruct (wc_max_unflushed_bytes config <? _); [by injection Hs as <- <-|].
  set (data_size := Z.of_nat (length (encoded record)) + Z.of_nat WAL_RECORD_HEADER_SIZE) in *.
  destruct (Z.ltb_spec ALIGN data_size) as [|Hle]; [by injection Hs as <- <-|].
  destruct (push_tickets i record data_size) as (T1 & T2 & T3); [lia| |done|].
  { intros b Hb. destruct (lay_active _ _ _ _ L b Hb) as [Hok _]. apply bulk_ok_size in Hok. lia. }
  destruct (active_full config _); injection Hs as <- _; [by apply flush_tickets|]. split; auto.
Qed.

Lemma begin_upload_tickets n i : Tickets i → Tickets (begin_upload crc32 md5_hex_upper config n i).
Proof.
  intros [T1 T2 T3]. unfold begin_upload. destruct (in_jobs i !! n) as [job|] eqn:Hj; [|done].
  pose proof (delete_Permutation _ _ _ Hj) as Hp. split; [|done..]. cbn. rewrite <-T1. unfold flight, entries. cbn.
  rewrite Hp at 2. rewrite (fmap_app (λ p, tickets (up_records p))), (join_app (_ <$> in_puts i)). cbn.
  unfold tickets at 3. rewrite place_acks, (stable_sort_perm pending_leb). fold (tickets (uj_records job)).
  solve_Permutation.
Qed.

Lemma set_done_tickets seq records d us :
  seq ∈ ub_seq <$> us → (∀ u, u ∈ us → ub_seq u = seq → ub_records u = None) →
  mjoin (entry_tickets <$> set_done seq records d us) ≡ₚ tickets records ++ mjoin (entry_tickets <$> us).
Proof.
  induction us as [|u us IH]; [by intros ?%not_elem_of_nil|]. intros Hin Hn. rewrite fmap_cons in Hin. cbn [set_done].
  destruct (Z.eqb_spec (ub_seq u) seq) as [Hs|Hs].
  - rewrite !fmap_cons. cbn [mjoin list_join]. replace (entry_tickets u) with (@nil nat); [done|].
    unfold entry_tickets. rewrite (Hn u ltac:(by left) Hs). done.
  - apply elem_of_cons in Hin as [?|Hin]; [congruence|]. rewrite !fmap_cons. cbn [mjoin list_join].
    rewrite IH; [solve_Permutation|done|]. intros v Hv. apply Hn. by right.
Qed.

Lemma end_upload_tickets base i lo mid n answer :
  Layout base i lo mid → Tickets i → Tickets (end_upload config n answer i).
Proof.
  intros L [T1 T2 T3]. unfold end_upload. destruct (in_puts i !! n) as [put|] eqn:Hj; [|done].
  pose proof (delete_Permutation _ _ _ Hj) as Hp. pose proof (uploading_seqs_NoDup _ _ _ _ L) as Hnd.
  destruct (lay_task _ _ _ _ L (up_seq put, up_base_offset put)) as (v & Hv & Hs & _ & Hd).
  { unfold tasks. rewrite elem_of_app. right. apply list_elem_of_fmap. exists put. split; [done|].
    by eapply list_elem_of_lookup_2. }
  cbn in Hs. rewrite Forall_forall in T2.
  assert (Hset : ∀ d, mjoin (entry_tickets <$> set_done (up_seq put) (up_records put) d (ws_uploading (in_state i))) ≡ₚ
    tickets (up_records put) ++ mjoin (entry_tickets <$> ws_uploading (in_state i))).
  { intros d. apply set_done_tickets; [rewrite <-Hs; by apply list_elem_of_fmap_2|]. intros u Hu Hq.
    assert (u = v) as -> by (eapply (NoDup_fmap_inj ub_seq); [exact Hnd|done|done|congruence]). auto. }
  assert (Hlen : ∀ d, length (set_done (up_seq put) (up_records put) d (ws_uploading (in_state i))) =
    length (ws_uploading (in_state i))).
  { intros d. rewrite <-!(length_fmap ub_seq). by rewrite set_done_seqs. }
  assert (Hrec : ∀ d, Forall (λ u, ub_done u = None → ub_records u = None)
    (set_done (up_seq put) (up_records put) d (ws_uploading (in_state i)))).
  { intros d. rewrite set_done_map by done. apply Forall_fmap, Forall_forall. intros u Hu. cbn. case_decide; [done|auto]. }
  destruct answer; split; cbn; rewrite ?Hlen; auto.
  - rewrite <-T1. unfold flight, entries. cbn. rewrite Hp at 2.
    rewrite !(fmap_app entry_tickets), !join_app, Hset, fmap_cons. cbn. solve_Permutation.
  - rewrite <-T1. unfold flight, entries. cbn. rewrite Hp at 2.
    rewrite !(fmap_app entry_tickets), !join_app, Hset, fmap_cons. cbn. solve_Permutation.
Qed.

Lemma pop_tickets i : Tickets i → Tickets (callback_pop config i).
Proof.
  intros [T1 T2 T3]. unfold callback_pop. destruct (in_completing i) eqn:Hc; [done|].
  destruct (pop_done (ws_uploading (in_state i))) as [completed rest] eqn:Hp.
  destruct completed as [|u us]; [done|]. apply pop_done_split in Hp as [Hu _].
  apply try_upload_tickets; cbn [in_tickets in_state ws_uploading field_set].
  - rewrite <-T1. unfold flight, entries. cbn. rewrite Hc, Hu. done.
  - rewrite Hu in T2. by apply Forall_app in T2 as [_ ?].
Qed.

Lemma bulk_acks_tickets fenced us :
  (λ a, pr_ack a.1) <$> mjoin (bulk_acks fenced <$> us) = mjoin (entry_tickets <$> us).
Proof.
  induction us as [|u us IH]; [done|].
  change (mjoin (bulk_acks fenced <$> u :: us)) with (bulk_acks fenced u ++ mjoin (bulk_acks fenced <$> us)).
  change (mjoin (entry_tickets <$> u :: us)) with (entry_tickets u ++ mjoin (entry_tickets <$> us)).
  rewrite fmap_app, IH. f_equal.
  unfold bulk_acks, entry_tickets, tickets. induction (default [] (ub_records u)) as [|r l IHl]; [by destruct fenced|].
  destruct fenced; cbn; f_equal; apply IHl.
Qed.

Lemma verify_tickets verified i : Tickets i → Tickets (callback_verify config verified i).
Proof.
  intros [T1 T2 T3]. pose proof (verify_frame verified i) as (E1 & _ & _ & _ & _ & E2 & E3 & E4 & E5 & _).
  split; [|by rewrite E1..]. rewrite E2, <-T1. unfold flight, entries. rewrite E1, E3, E4, E5.
  unfold callback_verify. destruct (in_completing i) as [completed|] eqn:Hc; [|done].
  set (fenced := match verified with Ok true => _ | _ => _ end).
  destruct (complete_bulks fenced completed (i <| in_fenced := fenced |> <| in_completing := None |>)) as (_ & -> & _).
  cbn [in_acks field_set]. rewrite fmap_app, bulk_acks_tickets. cbn.
  rewrite !(fmap_app entry_tickets), !join_app. solve_Permutation.
Qed.

Lemma step_tickets base s i s' i' :
  WalInv base s i → wal_step (s, i) (s', i') → Tickets i → Tickets i'.
Proof.
  intros (log & lo & mid & L & _) Hstep HT. inversion Hstep; subst; try done.
  - by eapply submit_tickets.
  - unfold resolve. destruct (list_find _ _) as [[? []]|]; by destruct HT.
  - unfold timer. destruct (ws_active (in_state i)); [|done]. destruct (_ =? _); [|done].
    apply flush_tickets; by destruct HT.
  - apply flush_tickets; by destruct HT.
  - apply flush_tickets; by destruct HT.
  - by apply begin_upload_tickets.
  - by eapply end_upload_tickets.
  - by apply pop_tickets.
  - by apply verify_tickets.
  - match goal with Ht : trim_begin _ _ _ = _ |- _ => unfold trim_begin in Ht; revert Ht end.
    destruct (check_status config i); [|by intros [= <- <-]]. destruct (_ <=? _); [by intros [= <- <-]|].
    destruct (submit config trim_record _) as [i1 r1] eqn:Hs.
    assert (HT1 : Tickets i1).
    { eapply (submit_tickets base (i <| in_trim_offset := offset |>)); [|exact Hs|by destruct HT].
      by apply (same_bulks_layout base i). }
    destruct r1; intros [= <- _]; by destruct HT1.
  - by destruct HT.
  - by destruct HT.
  - unfold trim_end. destruct (in_deletes i !! n) as [d0|]; [|done]. destruct (pd_paths d0); by destruct HT.
  - unfold trim_end. destruct (in_deletes i !! n) as [d0|]; [|done]. destruct (pd_paths d0); by destruct HT.
Qed.

Lemma reach_tickets s0 i0 s i : started i0 → wal_reach s0 i0 s i → Tickets i.
Proof.
  intros Hst. induction 1 as [|s i s' i' Hr IH Hfit Hstep].
  - destruct Hst as (listed & paths & Hs & _). unfold start in Hs. destruct (skip_overlap_objects _) as [objects overlap].
    destruct (match last objects with Some _ => _ | None => _ end); injection Hs as <- _; by split.
  - eapply step_tickets; [by eapply reach_inv|done|done].
Qed.

(** Nothing is left to do for the upload tasks and the callback loop. *)
Definition quiescent (i : Inner) : Prop :=
  in_jobs i = [] ∧ in_puts i = [] ∧ in_completing i = None ∧ (pop_done (ws_uploading (in_state i))).1 = [].

Lemma quiescent_drained base i lo mid :
  Layout base i lo mid → Tickets i → quiescent i → ws_active (in_state i) = None →
  (0 < wc_max_inflight_upload_count config)%nat →
  ws_uploading (in_state i) = [] ∧ ws_waiting (in_state i) = [].
Proof.
  intros L [_ _ T3] (Q1 & Q2 & Q3 & Q4) Ha Hmax.
  assert (Hu : ws_uploading (in_state i) = []).
  { destruct (ws_uploading (in_state i)) as [|u us] eqn:Hu; [done|]. cbn in Q4.
    destruct (ub_done u) eqn:Hd; [by destruct (pop_done us)|].
    pose proof (lay_undone _ _ _ _ L u) as Ht. rewrite Hu in Ht. specialize (Ht ltac:(by left) Hd).
    unfold tasks in Ht. rewrite Q1, Q2 in Ht. by apply not_elem_of_nil in Ht. }
  split; [done|]. destruct (ws_waiting (in_state i)) as [|b bs] eqn:Hw; [done|].
  destruct T3 as [T3|T3]; [done|rewrite Ha in T3; by destruct T3|]. rewrite Hu in T3. cbn in T3. lia.
Qed.

(** C38: No append is lost and none is answered twice. Every append future
    handed out is answered at most once, and only futures handed out are
    answered; when the tasks have nothing left to do and the active bulk has
    been sealed (by its timer, by [flush] or by [close]), every append has
    been answered. *)
Theorem every_append_is_answered_once s0 i0 s i :
  started i0 → wal_reach s0 i0 s i → (0 < wc_max_inflight_upload_count config)%nat →
  NoDup ((λ a, pr_ack a.1) <$> in_acks i) ∧
  (∀ a, a ∈ in_acks i → (pr_ack a.1 < in_tickets i)%nat) ∧
  (quiescent i → ws_active (in_state i) = None → ∀ ticket, (ticket < in_tickets i)%nat → is_Some (ack_of ticket i)).
Proof.
  intros Hst Hr Hmax. pose proof (reach_tickets _ _ _ _ Hst Hr) as HT.
  destruct (reach_inv _ _ _ _ Hst Hr) as (log & lo & mid & L & _).
  pose proof (tk_flight _ HT) as Hf. unfold flight in Hf.
  set (answered := (λ a, pr_ack a.1) <$> in_acks i) in *.
  assert (Hnd : NoDup (seq 0 (in_tickets i))) by apply NoDup_seq. rewrite <-Hf in Hnd.
  split_and!.
  - by apply NoDup_app in Hnd as [? _].
  - intros a Ha. assert (Hin : pr_ack a.1 ∈ seq 0 (in_tickets i)).
    { rewrite <-Hf, elem_of_app. left. unfold answered. by apply (list_elem_of_fmap_2 (λ a, pr_ack a.1)). }
    apply elem_of_seq in Hin. lia.
  - intros Hq Ha ticket Hlt. destruct (quiescent_drained _ _ _ _ L HT Hq Ha Hmax) as [Hu Hw].
    destruct Hq as (Q1 & Q2 & Q3 & _).
    assert (Hin : ticket ∈ seq 0 (in_tickets i)) by (apply elem_of_seq; lia).
    rewrite <-Hf in Hin. unfold entries in Hin. rewrite Q1, Q2, Q3, Hu, Hw, Ha in Hin. cbn in Hin. rewrite app_nil_r in Hin.
    unfold answered in Hin. apply list_elem_of_fmap in Hin as (a & -> & Hin).
    unfold ack_of. destruct (list_find _ _) as [[k x]|] eqn:E; [cbn; eauto|].
    apply list_find_None in E. rewrite Forall_forall in E. by apply E in Hin.
Qed.

(** A trim whose record cannot be appended is not undone: the trim offset
    stays raised although nothing will complete it, so the same trim tried
    again does no work and waits for a completion that is not under way. *)
Theorem refused_trim_parks_its_retry offset i i' e :
  check_status config i = Ok tt → in_completed_trim i <= in_trim_offset i →
  trim_begin config offset i = (i', Err e) →
  trim_begin config offset i' = (i', Ok TrimWaiting) ∧ trim_waited offset i' = false ∧
  in_trims i' = in_trims i ∧ in_deletes i' = in_deletes i.
Proof.
  intros Hc Hle Ht. unfold trim_begin in Ht. rewrite Hc in Ht.
  destruct (Z.leb_spec offset (in_trim_offset i)) as [|Hlt]; [done|].
  destruct (submit config trim_record _) as [i1 r1] eqn:Hs. destruct r1 as [t|e1]; [done|].
  assert (i1 = i') as -> by congruence.
  unfold submit in Hs. change (check_status config (i <| in_trim_offset := offset |>)) with (check_status config i) in Hs.
  rewrite Hc in Hs. cbn [in_buffered_data_bytes field_set] in Hs.
  destruct (wc_max_unflushed_bytes config <? in_buffered_data_bytes i).
  2:{ destruct (ALIGN <? _) eqn:E; [by vm_compute in E|]. by destruct (active_full config _). }
  injection Hs as <- <-. split_and!; [|cbn; unfold trim_waited; cbn; apply Z.leb_gt; lia|done|done].
  unfold trim_begin. change (check_status config (i <| in_trim_offset := offset |>)) with (check_status config i).
  rewrite Hc. cbn. by rewrite Z.leb_refl.
Qed.







End Log.

(** ** A run of the writer on the in-memory storage *)
Definition demo_crc (_ : list byte) : Z := 0.
Definition demo_md5 (_ : list byte) : string := "M".
Definition demo_wal_config : ObjectWalConfig := {|
  wc_cluster_id := "c"; wc_node_id := 7; wc_epoch := 3; wc_open_mode := ReadWrite; wc_wal_type := EmptyString;
  wc_max_bytes_in_batch := 8 * 1024 * 1024; wc_max_unflushed_bytes := 1024 * 1024 * 1024;
  wc_max_inflight_upload_count := 50 |}.
Definition demo_batch (sid base : Z) : StreamRecordBatch := new_batch sid 3 base 1 [x61; x62].

Definition demo_wal_0 : Inner := (start demo_wal_config (Ok true) (Ok []) inner_new).1.1.
Definition demo_wal_1 : Inner := (submit demo_wal_config (demo_batch 5 0) demo_wal_0).1.
Definition demo_wal_2 : Inner := flush demo_wal_config demo_wal_1.
Definition demo_wal_3 : Inner := begin_upload demo_crc demo_md5 demo_wal_config 0 demo_wal_2.
Definition demo_put : UploadPut :=
  upload_build demo_crc demo_md5 demo_wal_config (-1) (upload_job (Build_Bulk 1 0 59
    [{| pr_record := demo_batch 5 0; pr_size := 59; pr_offset := 0; pr_ack := 0 |}])).
Definition demo_storage : MemoryObjectStorage :=
  (mem_write (mem_new 0 0) default_write_options (up_path demo_put) (up_payload demo_put)).1.
Definition demo_wal_4 : Inner := end_upload demo_wal_config 0 (Ok 0) demo_wal_3.
Definition demo_wal_5 : Inner := callback_pop demo_wal_config demo_wal_4.
Definition demo_wal_6 : Inner := callback_verify demo_wal_config (Ok true) demo_wal_5.

Lemma demo_started : started demo_wal_config demo_wal_0.
Proof.
  exists [], []. split_and!; [reflexivity|reflexivity| |split; done|vm_compute; done|reflexivity].
  intros o Ho. by apply not_elem_of_nil in Ho.
Qed.

Ltac demo_step H := eapply ReachStep; [exact H|vm_compute; reflexivity|].

Lemma demo_reach : wal_reach demo_crc demo_md5 demo_wal_config (mem_new 0 0) demo_wal_0 demo_storage demo_wal_6.
Proof.
  pose proof (ReachStart demo_crc demo_md5 demo_wal_config (mem_new 0 0) demo_wal_0) as R0.
  assert (R1 : wal_reach demo_crc demo_md5 demo_wal_config (mem_new 0 0) demo_wal_0 (mem_new 0 0) demo_wal_1).
  { demo_step R0. eapply (StepSubmit _ _ _ _ _ (demo_batch 5 0)); [|apply surjective_pairing].
    exists 5, 3, 0, 1, [x61; x62]. split; [|done]. unfold parts_ok. cbn. split_and!; int_lia. }
  assert (R2 : wal_reach demo_crc demo_md5 demo_wal_config (mem_new 0 0) demo_wal_0 (mem_new 0 0) demo_wal_2).
  { demo_step R1. apply StepFlush. }
  assert (R3 : wal_reach demo_crc demo_md5 demo_wal_config (mem_new 0 0) demo_wal_0 (mem_new 0 0) demo_wal_3).
  { demo_step R2. apply StepBeginUpload. }
  assert (R4 : wal_reach demo_crc demo_md5 demo_wal_config (mem_new 0 0) demo_wal_0 demo_storage demo_wal_4).
  { demo_step R3. eapply (StepEndUpload _ _ _ _ _ 0 demo_put); [vm_compute; reflexivity|reflexivity]. }
  assert (R5 : wal_reach demo_crc demo_md5 demo_wal_config (mem_new 0 0) demo_wal_0 demo_storage demo_wal_5).
  { demo_step R4. apply StepPop. }
  demo_step R5. apply StepVerify.
Qed.

Definition demo_pending : PendingRecord :=
  {| pr_record := demo_batch 5 0; pr_size := 59; pr_offset := 0; pr_ack := 0 |}.

Lemma demo_acks : in_acks demo_wal_6 = [(demo_pending, Ok (append_result demo_wal_config demo_pending true))].
Proof. vm_compute. reflexivity. Qed.

Lemma demo_fit : offsets_fit demo_wal_6.
Proof. vm_compute. reflexivity. Qed.

Lemma acknowledged_records_read_back_witness :
  wal_get demo_crc (writer_node_prefix demo_md5 demo_wal_config) demo_storage
    (ar_record_offset (append_result demo_wal_config demo_pending true)) = Ok (demo_batch 5 0).
Proof.
  apply (acknowledged_records_read_back demo_crc demo_md5 demo_wal_config (mem_new 0 0) demo_wal_0 demo_storage
    demo_wal_6 demo_pending (append_result demo_wal_config demo_pending true));
    [apply demo_started|apply demo_reach|apply demo_fit|exact I| |vm_compute; reflexivity].
  rewrite demo_acks. left.
Defined.

Lemma confirmed_log_has_no_holes_witness :
  ∃ records, laid (floor_align_offset 10) records ∧
    (stored demo_crc demo_md5 demo_wal_config demo_storage (floor_align_offset 10) records ∨
     last_record_offset (floor_align_offset 10) records <= in_trim_offset demo_wal_6).
Proof.
  apply (confirmed_log_has_no_holes demo_crc demo_md5 demo_wal_config (mem_new 0 0) demo_wal_0 demo_storage demo_wal_6);
    [apply demo_started|apply demo_reach|]. vm_compute. split; [discriminate|reflexivity].
Defined.

Lemma acks_follow_the_log_witness :
  StronglySorted before (ok_acks (in_acks demo_wal_6)) ∧ ok_acks (in_acks demo_wal_6) = [demo_pending].
Proof.
  split; [|by rewrite demo_acks].
  apply (acks_follow_the_log demo_crc demo_md5 demo_wal_config (mem_new 0 0) demo_wal_0 demo_storage demo_wal_6);
    [apply demo_started|apply demo_reach].
Defined.

Lemma fenced_writer_is_silent_witness :
  let i := demo_wal_6 <| in_fenced := true |> in
  submit demo_wal_config (demo_batch 5 1) i = (i, Err (Fenced 7 3)).
Proof.
  intros i. apply (fenced_writer_is_silent demo_crc demo_md5 demo_wal_config demo_storage i demo_storage i (demo_batch 5 1));
    [reflexivity|apply ReachStart].
Defined.

Lemma every_append_is_answered_once_witness : is_Some (ack_of 0 demo_wal_6).
Proof.
  apply (every_append_is_answered_once demo_crc demo_md5 demo_wal_config (mem_new 0 0) demo_wal_0 demo_storage demo_wal_6);
    [apply demo_started|apply demo_reach|vm_compute; lia| |reflexivity|vm_compute; lia].
  vm_compute. done.
Defined.

Lemma refused_trim_parks_its_retry_witness :
  let config := {| wc_cluster_id := "c"; wc_node_id := 7; wc_epoch := 3; wc_open_mode := ReadWrite;
    wc_wal_type := EmptyString; wc_max_bytes_in_batch := 1024; wc_max_unflushed_bytes := 50;
    wc_max_inflight_upload_count := 50 |} in
  let refused := trim_begin config 5 demo_wal_1 in
  refused.2 = Err (OverCapacity 59 50) ∧ trim_begin config 5 refused.1 = (refused.1, Ok TrimWaiting).
Proof.
  intros config refused. split; [vm_compute; reflexivity|].
  apply (refused_trim_parks_its_retry config 5 demo_wal_1 refused.1 (OverCapacity 59 50));
    [reflexivity|vm_compute; discriminate|vm_compute; reflexivity].
Defined.


