(* ===== verification/WalRecover.v ===== *)
(** * WAL recovery

    [s3stream-wal/src/object/recover.rs]: the objects of a log are listed,
    the trim offset is read from the newest one, and the records of the
    continuous run past it are streamed through a readahead queue. The
    storage does not change while a recovery reads it. *)

From Stdlib Require Import ZArith Lia.
From Stdlib Require Import Strings.Byte.
From stdpp Require Import base numbers list strings sets gmap sorting.
From S2P Require Import Prelude StreamTypes RecordCodec ObjectIndex ObjectStore WalFormat WalWriter WalReader WalLog.

Open Scope Z_scope.
Open Scope rust_scope.

Record RecoverResult := {
  rr_record : StreamRecordBatch;
  rr_record_offset : RecordOffset;
}.

(** The objects from the first one that ends past the trim offset. *)
Fixpoint skip_trimmed (trim_offset : Z) (objects : list WalObject) : list WalObject :=
  match objects with
  | [] => []
  | o :: rest => if trim_offset <? wrap_i64 (wl_end_offset o) then objects else skip_trimmed trim_offset rest
  end.

(** The objects that each start where the one before ends. *)
Fixpoint continuous (end_offset : Z) (objects : list WalObject) : list WalObject :=
  match objects with
  | [] => []
  | o :: rest => if wl_start_offset o =? end_offset then o :: continuous (wl_end_offset o) rest else []
  end.

Definition get_continuous_from_trim_offset (objects : list WalObject) (trim_offset : Z) : list WalObject :=
  match skip_trimmed trim_offset objects with
  | [] => []
  | o :: rest => o :: continuous (wl_end_offset o) rest
  end.

(** [rc_readahead] holds what the spawned reads answer. *)
Record RecoverIterator := {
  rc_max_readahead_data_size : Z;
  rc_trim_offset : Z;
  rc_objects : list WalObject;
  rc_next_index : nat;
  rc_readahead : list (result (list byte) ObjectError);
  rc_readahead_data_size : Z;
  rc_data : list byte;
  rc_start_offset_to_epoch : gmap Z Z;
}.
#[export] Instance RecoverIterator_eta : RecordEta RecoverIterator := λ it,
  Build_RecoverIterator (rc_max_readahead_data_size it) (rc_trim_offset it) (rc_objects it) (rc_next_index it)
    (rc_readahead it) (rc_readahead_data_size it) (rc_data it) (rc_start_offset_to_epoch it).

Section Recover.
Context (crc32 : list byte → Z).
Context {St W : Type} `{HS : ObjectStorage St W} (s : St).

Definition discover_wal_objects (node_prefix : string) : result (list WalObject) WalError :=
  match os_list s node_prefix with
  | Err e => Err (Storage e)
  | Ok listed => Ok (skip_overlap_objects (parse_wal_objects listed)).1
  end.

Definition object_options (o : WalObject) : ReadOptions :=
  {| ro_throttle := Bypass; ro_bucket_id := Some (wl_bucket_id o) |}.

Definition get_trim_offset (objects : list WalObject) : result Z WalError :=
  match last objects with
  | None => Ok TRIM_OFFSET_NONE
  | Some o =>
      let stop := Z.min (Z.of_nat MAX_WAL_HEADER_SIZE) (wl_size o) in
      match range_read s (object_options o) (wl_key o) 0 (Some stop) with
      | Err e => Err (Storage e)
      | Ok buffer => let? header := wh_unmarshal buffer in Ok (wh_trim_offset header)
      end
  end.

Definition read_object (o : WalObject) : result (list byte) ObjectError :=
  range_read s (object_options o) (wl_key o) 0 (Some (wl_size o)).

(** How many of the coming objects the window admits, and the window then. *)
Fixpoint readahead_admits (max size : Z) (objects : list WalObject) : nat * Z :=
  match objects with
  | [] => (0%nat, size)
  | o :: objects =>
      if size <? max then
        let '(n, size) := readahead_admits max (wrap_u64 (size + wl_size o)) objects in (S n, size)
      else (0%nat, size)
  end.

Definition try_read_ahead (it : RecoverIterator) : RecoverIterator :=
  let coming := drop (rc_next_index it) (rc_objects it) in
  let '(n, size) := readahead_admits (rc_max_readahead_data_size it) (rc_readahead_data_size it) coming in
  it <| rc_next_index := (rc_next_index it + n)%nat |>
     <| rc_readahead := rc_readahead it ++ (read_object <$> take n coming) |>
     <| rc_readahead_data_size := size |>.

(** [RecoverIterator::new] *)
Definition recover_new (all_objects : list WalObject) (max_readahead_data_size : Z) :
    result RecoverIterator WalError :=
  let? trim_offset := get_trim_offset all_objects in
  Ok (try_read_ahead {|
    rc_max_readahead_data_size := max_readahead_data_size; rc_trim_offset := trim_offset;
    rc_objects := get_continuous_from_trim_offset all_objects trim_offset; rc_next_index := 0;
    rc_readahead := []; rc_readahead_data_size := 0; rc_data := [];
    rc_start_offset_to_epoch := epoch_map all_objects |}).

Definition has_next0 (it : RecoverIterator) : bool :=
  match rc_data it with [] => false | _ => true end ||
  match rc_readahead it with [] => false | _ => true end ||
  (rc_next_index it <? length (rc_objects it))%nat.

Definition load_next_buffer (it : RecoverIterator) : RecoverIterator * result unit WalError :=
  match rc_readahead it with
  | [] => (it, Err (Recovery NoPrefetchedBuffer))
  | answer :: readahead =>
      let it := it <| rc_readahead := readahead |> in
      match answer with
      | Err e => (it, Err (Storage e))
      | Ok buffer =>
          let it := it <| rc_readahead_data_size :=
            saturating_sub (rc_readahead_data_size it) (Z.of_nat (length buffer)) |> in
          match wh_unmarshal buffer with
          | Err e => (it, Err e)
          | Ok header => (it <| rc_data := drop (wh_size header) buffer |>, Ok tt)
          end
      end
  end.

(** The body of the record whose header was just split off; it may continue
    in the next object. *)
Definition take_body (size : nat) (it : RecoverIterator) : RecoverIterator * result (list byte) WalError :=
  if (length (rc_data it) <? size)%nat then
    let assembled := rc_data it in
    let it := it <| rc_data := [] |> in
    if match rc_readahead it with [] => (length (rc_objects it) <=? rc_next_index it)%nat | _ => false end
    then (it, Err (Recovery RecordPartWithoutData))
    else
      match load_next_buffer it with
      | (it, Err e) => (it, Err e)
      | (it, Ok _) =>
          let need := (size - length assembled)%nat in
          if (length (rc_data it) <? need)%nat then (it, Err (Recovery RecordPartWithoutData))
          else (it <| rc_data := drop need (rc_data it) |>, Ok (assembled ++ take need (rc_data it)))
      end
  else (it <| rc_data := drop size (rc_data it) |>, Ok (take size (rc_data it))).

(** The checks and lookups after the body is complete. *)
Definition finish_record (it : RecoverIterator) (header : WalRecordHeader) (body : list byte) :
    result RecoverResult WalError :=
  if negb (wr_body_crc header =? wal_crc32 crc32 body) then Err (Recovery RecordBodyCrc)
  else
    let offset := wrap_u64 (wr_body_offset header - Z.of_nat WAL_RECORD_HEADER_SIZE) in
    let size := wrap_u32 (wr_body_length header + Z.of_nat WAL_RECORD_HEADER_SIZE) in
    match parse body with
    | Err e => Err (Unmarshal e)
    | Ok (record, _) =>
        match ord_floor offset (rc_start_offset_to_epoch it) with
        | None => Err (Recovery NoEpochForOffset)
        | Some (_, epoch) =>
            Ok {| rr_record := record;
                  rr_record_offset := {| rof_epoch := epoch; rof_offset := offset; rof_size := size |} |}
        end
    end.

Definition read_record (it : RecoverIterator) : RecoverIterator * result RecoverResult WalError :=
  let it := try_read_ahead it in
  if (length (rc_data it) <? WAL_RECORD_HEADER_SIZE)%nat then (it, Err (Recovery RecordHeaderTruncated))
  else
    let header_bytes := take WAL_RECORD_HEADER_SIZE (rc_data it) in
    let it := it <| rc_data := drop WAL_RECORD_HEADER_SIZE (rc_data it) |> in
    match unmarshal crc32 header_bytes with
    | Err e => (it, Err (Unmarshal e))
    | Ok header =>
        if negb (wr_magic header =? RECORD_DATA_MAGIC) then (it, Err (Recovery RecordMagicInvalid))
        else
          match take_body (Z.to_nat (wr_body_length header)) it with
          | (it, Err e) => (it, Err e)
          | (it, Ok body) => (it, finish_record it header body)
          end
    end.

Definition next0 (it : RecoverIterator) : RecoverIterator * result RecoverResult WalError :=
  match rc_data it with
  | [] =>
      match load_next_buffer it with
      | (it, Err e) => (it, Err e)
      | (it, Ok _) => read_record it
      end
  | _ => read_record it
  end.

Definition skipped (trim_offset : Z) (result : RecoverResult) : bool :=
  (wrap_i64 (rof_offset (rr_record_offset result)) <=? trim_offset) ||
  ((stream_id (rr_record result) =? TRIM_RECORD_SENTINEL) && (epoch (rr_record result) =? TRIM_RECORD_SENTINEL)).

(** [next]: [None] when the fuel runs out, [Some (it, None)] at the end. *)
Fixpoint recover_next (fuel : nat) (it : RecoverIterator) :
    option (RecoverIterator * option (result RecoverResult WalError)) :=
  match fuel with
  | O => None
  | S fuel =>
      if negb (has_next0 it) then Some (it, None)
      else
        match next0 it with
        | (it, Err e) => Some (it, Some (Err e))
        | (it, Ok result) =>
            if skipped (rc_trim_offset it) result then recover_next fuel it else Some (it, Some (Ok result))
        end
  end.

(** The items of the stream from a running iterator. *)
Fixpoint drain (fuel : nat) (it : RecoverIterator) : option (list (result RecoverResult WalError)) :=
  match fuel with
  | O => None
  | S fuel' =>
      match recover_next fuel it with
      | None => None
      | Some (_, None) => Some []
      | Some (_, Some (Err e)) => Some [Err e]
      | Some (it, Some (Ok r)) => (λ items, Ok r :: items) <$> drain fuel' it
      end
  end.

(** [recover_stream]: every item of the stream. *)
Definition recover_stream (fuel : nat) (objects : list WalObject) (max_readahead_data_size : Z) :
    option (list (result RecoverResult WalError)) :=
  match recover_new objects max_readahead_data_size with
  | Err e => Some [Err e]
  | Ok it => drain fuel it
  end.

(** ** Termination *)
Definition answer_bytes (answer : result (list byte) ObjectError) : nat :=
  match answer with Ok buffer => length buffer | Err _ => 0 end.
Fixpoint total_bytes (answers : list (result (list byte) ObjectError)) : nat :=
  match answers with
  | [] => 0
  | a :: answers => answer_bytes a + total_bytes answers
  end.

(** The bytes a recovery still has in front of it. *)
Definition bytes_left (it : RecoverIterator) : nat :=
  length (rc_data it) + total_bytes (rc_readahead it) +
  total_bytes (read_object <$> drop (rc_next_index it) (rc_objects it)).

Lemma total_bytes_app l1 l2 : total_bytes (l1 ++ l2) = (total_bytes l1 + total_bytes l2)%nat.
Proof. induction l1 as [|a l1 IH]; cbn; lia. Qed.

Lemma try_read_ahead_bytes it : bytes_left (try_read_ahead it) = bytes_left it.
Proof.
  unfold try_read_ahead, bytes_left. set (coming := drop (rc_next_index it) (rc_objects it)).
  destruct (readahead_admits _ _ _) as [n size]. cbn. rewrite total_bytes_app, <-drop_drop. fold coming.
  rewrite <-(take_drop n coming) at 3. rewrite fmap_app, total_bytes_app. lia.
Qed.

Lemma load_next_buffer_bytes it it' r :
  load_next_buffer it = (it', r) → rc_data it = [] → (bytes_left it' <= bytes_left it)%nat.
Proof.
  unfold load_next_buffer, bytes_left. intros Hl Hd. rewrite Hd.
  destruct (rc_readahead it) as [|[buffer|e] rest] eqn:Hr; [injection Hl as <- <-; rewrite Hr, Hd; cbn; lia| |].
  - destruct (wh_unmarshal buffer); injection Hl as <- <-; cbn; [rewrite length_drop|rewrite Hd]; cbn; lia.
  - injection Hl as <- <-. cbn. rewrite Hd. cbn. lia.
Qed.

Lemma take_body_bytes size it it' r : take_body size it = (it', r) → (bytes_left it' <= bytes_left it)%nat.
Proof.
  unfold take_body. intros Ht.
  assert (Hempty : (bytes_left (it <| rc_data := [] |>) <= bytes_left it)%nat) by (unfold bytes_left; cbn; lia).
  destruct (_ <? size)%nat.
  - destruct (match rc_readahead _ with [] => _ | _ => _ end); [by injection Ht as <- _|].
    destruct (load_next_buffer _) as [it1 [[]|e]] eqn:Hl; apply load_next_buffer_bytes in Hl; [|done|injection Ht as <- _; lia|done].
    destruct (_ <? _)%nat; injection Ht as <- _; [lia|]. unfold bytes_left in *. cbn. rewrite length_drop. cbn in *. lia.
  - injection Ht as <- _. unfold bytes_left. cbn. rewrite length_drop. lia.
Qed.

(** A record that was read consumed at least its header. *)
Lemma next0_bytes it it' r : next0 it = (it', Ok r) → (bytes_left it' < bytes_left it)%nat.
Proof.
  assert (Hread : ∀ it it' r, read_record it = (it', Ok r) → (bytes_left it' < bytes_left it)%nat).
  { clear. intros it it' r. unfold read_record. rewrite <-(try_read_ahead_bytes it). set (it1 := try_read_ahead it).
    destruct (Nat.ltb_spec (length (rc_data it1)) WAL_RECORD_HEADER_SIZE) as [|Hge]; [done|].
    destruct (unmarshal _ _) as [header|e]; [|done]. destruct (negb _); [done|].
    destruct (take_body _ _) as [it2 [body|e]] eqn:Hb; [|done]. apply take_body_bytes in Hb.
    intros [= <- _]. unfold bytes_left in *. cbn in *. rewrite length_drop in Hb.
    change WAL_RECORD_HEADER_SIZE with 24%nat in *. lia. }
  unfold next0. destruct (rc_data it) eqn:Hd; [|apply Hread].
  destruct (load_next_buffer it) as [it1 [[]|e]] eqn:Hl; [|done]. apply load_next_buffer_bytes in Hl; [|done].
  intros Hr%Hread. lia.
Qed.

Lemma recover_next_total fuel it :
  (bytes_left it < fuel)%nat → ∃ it' item, recover_next fuel it = Some (it', item) ∧
    (∀ r, item = Some (Ok r) → (bytes_left it' < bytes_left it)%nat).
Proof.
  revert it. induction fuel as [|fuel IH]; intros it Hf; [lia|]. cbn [recover_next].
  destruct (negb (has_next0 it)); [by exists it, None|].
  destruct (next0 it) as [it1 [r|e]] eqn:Hn; [|by exists it1, (Some (Err e))].
  apply next0_bytes in Hn. destruct (skipped _ r); [|by exists it1, (Some (Ok r))].
  destruct (IH it1 ltac:(lia)) as (it2 & item & Hr & Hlt). exists it2, item. split; [done|].
  intros r' Hi. specialize (Hlt r' Hi). lia.
Qed.

Lemma drain_total fuel it :
  (bytes_left it < fuel)%nat → ∃ rs stop, drain fuel it = Some ((Ok <$> rs) ++ stop) ∧
    (stop = [] ∨ ∃ e, stop = [Err e]).
Proof.
  revert it. induction fuel as [|fuel IH]; intros it Hf; [lia|]. cbn [drain].
  destruct (recover_next_total (S fuel) it Hf) as (it' & item & Hr & Hlt). rewrite Hr.
  destruct item as [[r|e]|].
  - specialize (Hlt r eq_refl). destruct (IH it' ltac:(lia)) as (rs & stop & -> & Hs). exists (r :: rs), stop. done.
  - exists [], [Err e]. eauto.
  - exists [], []. eauto.
Qed.

Lemma continuous_sublist e objects : continuous e objects `sublist_of` objects.
Proof.
  revert e. induction objects as [|o l IH]; intros e; cbn; [done|].
  destruct (_ =? _); [by constructor|apply sublist_nil_l].
Qed.

Lemma get_continuous_sublist objects trim_offset :
  get_continuous_from_trim_offset objects trim_offset `sublist_of` objects.
Proof.
  unfold get_continuous_from_trim_offset.
  assert (Hs : skip_trimmed trim_offset objects `sublist_of` objects).
  { induction objects as [|o l IH]; cbn; [done|]. destruct (_ <? _); [done|]. by constructor. }
  destruct (skip_trimmed trim_offset objects) as [|o l]; [apply sublist_nil_l|].
  etrans; [|exact Hs]. constructor. apply continuous_sublist.
Qed.

(** One step per byte of the log, and one to see its end. *)
Definition recovery_fuel (objects : list WalObject) : nat := S (total_bytes (read_object <$> objects)).

(** C26: Recovery always ends, whatever the storage holds: on any objects,
    with damaged, truncated or missing contents, and any readahead window,
    the stream is finite; it yields records and then either ends or reports
    one error and ends. *)
Theorem recovery_terminates objects max_readahead_data_size :
  ∃ rs stop, recover_stream (recovery_fuel objects) objects max_readahead_data_size = Some ((Ok <$> rs) ++ stop) ∧
    (stop = [] ∨ ∃ e, stop = [Err e]).
Proof.
  unfold recover_stream, recover_new. destruct (get_trim_offset objects) as [trim_offset|e]; [|exists [], [Err e]; eauto].
  cbn [rbind]. apply drain_total. rewrite try_read_ahead_bytes. unfold bytes_left, recovery_fuel. cbn.
  pose proof (get_continuous_sublist objects trim_offset) as Hs. rewrite drop_0.
  assert (Hle : ∀ l k, l `sublist_of` k → (total_bytes (read_object <$> l) <= total_bytes (read_object <$> k))%nat).
  { induction 1; cbn; lia. }
  apply Hle in Hs. lia.
Qed.

(** ** What recovery yields *)
Context `{HC : !ObjectStorageContract St W} (Hav : available s).

(** An object as the writer stores it: a header and the frames of records
    laid out from the object's start. *)
Record image := { im_object : WalObject; im_header : WalObjectHeader; im_records : list PendingRecord }.
Definition im_bytes (m : image) : list byte := wh_marshal (im_header m) ++ frames crc32 (im_records m).

Definition image_ok (m : image) : Prop :=
  object s (wl_key (im_object m)) = Some (im_bytes m) ∧ wal_header_typed (im_header m) ∧
  wl_size (im_object m) = Z.of_nat (length (im_bytes m)) ∧
  laid (wl_start_offset (im_object m)) (im_records m) ∧ 0 <= wl_start_offset (im_object m) ∧
  wl_end_offset (im_object m) = wl_start_offset (im_object m) + ALIGN ∧ wl_end_offset (im_object m) < two63.

Lemma length_frames l : Forall pending_ok l → Z.of_nat (length (frames crc32 l)) = total_size l.
Proof.
  induction 1 as [|r l [_ Hr] Hl IH]; [done|].
  change (frames crc32 (r :: l)) with (frame_record crc32 (pr_offset r) (encoded (pr_record r)) ++ frames crc32 l).
  cbn [total_size]. rewrite length_app, Nat2Z.inj_add, IH, Hr. unfold frame_record.
  rewrite length_app, length_marshal. lia.
Qed.

Lemma image_size m : image_ok m → 0 <= wl_size (im_object m) < two32.
Proof.
  intros (_ & _ & -> & [(_ & Hf & Ht) _] & _). unfold im_bytes. rewrite length_app, Nat2Z.inj_add, length_frames by done.
  rewrite length_wh_marshal. unfold DATA_FILE_ALIGN_SIZE in *. pose proof (total_size_pos _ Hf) as [? _].
  assert (0 <= Z.of_nat (wh_size (im_header m)) <= 48) by (unfold wh_size; destruct (_ =? _); done). int_lia.
Qed.

Lemma read_image m : image_ok m → read_object (im_object m) = Ok (im_bytes m).
Proof.
  intros Hm. pose proof (image_size m Hm). destruct Hm as (Ho & _ & Hs & _). unfold read_object.
  rewrite (range_read_present _ _ _ _ _ _ Ho Hav) by lia. f_equal. unfold byte_range, slice.
  rewrite Hs, Z.sub_0_r, Nat2Z.id. cbn. apply firstn_all.
Qed.

(** The window admits objects while it is not full. *)
Fixpoint sizes (ms : list image) : Z :=
  match ms with
  | [] => 0
  | m :: ms => wl_size (im_object m) + sizes ms
  end.

Lemma sizes_app a b : sizes (a ++ b) = sizes a + sizes b.
Proof. induction a as [|x a IH]; cbn in *; lia. Qed.

Lemma readahead_admits_spec max size ms n size' :
  0 <= size → max < two63 → Forall image_ok ms →
  readahead_admits max size (im_object <$> ms) = (n, size') →
  size' = size + sizes (take n ms) ∧ (n <= length ms)%nat ∧ (n = length ms ∨ max <= size').
Proof.
  revert size n. induction ms as [|m ms IH]; intros size n Hs Hmax Hok; cbn.
  { intros [= <- <-]. split_and!; [cbn; lia|done|by left]. }
  apply Forall_cons in Hok as [Hm Hok]. destruct (Z.ltb_spec size max) as [Hlt|Hge].
  - destruct (readahead_admits max _ _) as [n1 s1] eqn:Hr. intros [= <- <-].
    pose proof (image_size m Hm). rewrite wrap_u64_id in Hr by int_lia.
    destruct (IH (size + wl_size (im_object m)) n1 ltac:(lia) Hmax Hok Hr) as (-> & ? & ?).
    split_and!; [cbn; lia|cbn; lia|cbn; lia].
  - intros [= <- <-]. split_and!; [cbn; lia|lia|by right].
Qed.

(** The iterator in front of the records [cur] of the object it is in and
    the objects [rest]. *)
Definition positioned (it : RecoverIterator) (cur : list PendingRecord) (rest : list image) : Prop :=
  rc_data it = frames crc32 cur ∧ Forall pending_ok cur ∧ Forall image_ok rest ∧
  0 < rc_max_readahead_data_size it < two63 ∧
  ∃ q coming, rest = q ++ coming ∧ rc_readahead it = (λ m, Ok (im_bytes m)) <$> q ∧
    drop (rc_next_index it) (rc_objects it) = im_object <$> coming ∧ rc_readahead_data_size it = sizes q.

(** ... and the next object, if there is one, is being read. *)
Definition prefetched (it : RecoverIterator) (rest : list image) : Prop := rest ≠ [] → rc_readahead it ≠ [].

Lemma sizes_nonneg ms : Forall image_ok ms → 0 <= sizes ms.
Proof. induction 1 as [|m ms Hm Hms IH]; cbn; [done|]. apply image_size in Hm. lia. Qed.

Lemma try_read_ahead_positioned it cur rest :
  positioned it cur rest → positioned (try_read_ahead it) cur rest ∧ prefetched (try_read_ahead it) rest ∧
    rc_data (try_read_ahead it) = rc_data it ∧ rc_trim_offset (try_read_ahead it) = rc_trim_offset it ∧
    rc_start_offset_to_epoch (try_read_ahead it) = rc_start_offset_to_epoch it.
Proof.
  intros (Hd & Hc & Hr & Hmax & q & coming & -> & Hq & Hdrop & Hsz). unfold try_read_ahead. rewrite Hdrop.
  apply Forall_app in Hr as [Hrq Hrc]. pose proof (sizes_nonneg q Hrq).
  destruct (readahead_admits _ _ _) as [n size] eqn:Ha.
  apply readahead_admits_spec in Ha as (-> & Hn & Hfull); [|lia|lia|done].
  assert (Hread : read_object <$> take n (im_object <$> coming) = (λ m, Ok (im_bytes m)) <$> take n coming).
  { rewrite <-fmap_take, <-list_fmap_compose. apply list_fmap_ext. intros k m Hm. cbn. apply read_image.
    rewrite Forall_forall in Hrc. apply Hrc. eapply elem_of_take_inv. by eapply list_elem_of_lookup_2. }
  split_and!; try done.
  - unfold positioned. cbn. split_and!; try done; [by apply Forall_app|lia|lia|].
    exists (q ++ take n coming), (drop n coming). rewrite Hread, Hq, fmap_app, Hsz, sizes_app.
    split_and!; try done; [by rewrite <-app_assoc, take_drop|]. by rewrite <-drop_drop, Hdrop, fmap_drop.
  - intros Hne. cbn. rewrite Hread, Hq. intros Hnil. apply app_eq_nil in Hnil as [H1 H2].
    apply fmap_nil_inv in H1, H2. subst q. cbn in Hne, Hsz. rewrite Hsz, H2 in Hfull. cbn in Hfull.
    destruct Hfull as [->|?]; [|lia]. rewrite take_ge in H2 by lia. done.
Qed.

(** The item for a record written in an epoch. *)
Definition recovered (epoch : Z) (r : PendingRecord) : RecoverResult := {|
  rr_record := pr_record r;
  rr_record_offset := {| rof_epoch := epoch; rof_offset := pr_offset r; rof_size := pr_size r |} |}.

(** [m] maps the offset of every record of [l] to its epoch. *)
Definition epochs_known (m : gmap Z Z) (epoch_of : Z → Z) (l : list PendingRecord) : Prop :=
  ∀ r, r ∈ l → 0 <= pr_offset r ∧ pr_offset r + pr_size r < two63 ∧ pr_size r <= ALIGN ∧
    ∃ k, ord_floor (pr_offset r) m = Some (k, epoch_of (pr_offset r)).

Definition same_source (it it' : RecoverIterator) : Prop :=
  rc_trim_offset it' = rc_trim_offset it ∧ rc_start_offset_to_epoch it' = rc_start_offset_to_epoch it.

Lemma read_record_spec it x cur rest epoch_of :
  positioned it (x :: cur) rest → epochs_known (rc_start_offset_to_epoch it) epoch_of [x] →
  ∃ it', read_record it = (it', Ok (recovered (epoch_of (pr_offset x)) x)) ∧
    positioned it' cur rest ∧ prefetched it' rest ∧ same_source it it'.
Proof.
  intros Hp He. destruct (try_read_ahead_positioned _ _ _ Hp) as (Hp1 & Hpre & Hd & Ht & Hm).
  unfold read_record. set (it1 := try_read_ahead it) in *. clearbody it1.
  destruct (He x ltac:(by left)) as (Ho & Hlt & HA & k & Hk). unfold DATA_FILE_ALIGN_SIZE in HA.
  destruct Hp1 as (Hdata & Hok & Hrest & Hmax & Hq). apply Forall_cons in Hok as [Hx Hok].
  pose proof (pending_ok_pos x Hx) as Hpos. destruct Hx as [Hwf Hsz]. pose proof (well_formed_length _ Hwf) as Hl32.
  set (body := encoded (pr_record x)) in *. set (hd := record_header crc32 (pr_offset x + 24) (pr_record x)).
  change (Z.of_nat WAL_RECORD_HEADER_SIZE) with 24 in *.
  assert (Hfr : rc_data it1 = marshal crc32 hd ++ body ++ frames crc32 cur).
  { rewrite Hdata. change (frames crc32 (x :: cur)) with (frame_record crc32 (pr_offset x) body ++ frames crc32 cur).
    unfold frame_record. rewrite wrap_u32_id by int_lia.
    change (header_data (pr_offset x) (Z.of_nat (length body)) (wal_crc32 crc32 body))
      with (record_header crc32 (wrap_u64 (pr_offset x + 24)) (pr_record x)).
    rewrite wrap_u64_id by int_lia. by rewrite <-app_assoc. }
  assert (Hmlen : length (marshal crc32 hd) = WAL_RECORD_HEADER_SIZE) by apply length_marshal.
  rewrite Hfr. destruct (Nat.ltb_spec (length (marshal crc32 hd ++ body ++ frames crc32 cur)) WAL_RECORD_HEADER_SIZE);
    [rewrite length_app in *; lia|].
  rewrite take_app_length', drop_app_length' by done.
  rewrite <-(app_nil_r (marshal crc32 hd)), unmarshal_marshal by (apply record_header_typed; [int_lia|done]).
  cbn [with_crc wr_magic wr_body_length hd record_header]. rewrite Z.eqb_refl. cbn [negb].
  fold body. rewrite Nat2Z.id. unfold take_body. cbn [rc_data field_set].
  destruct (Nat.ltb_spec (length (body ++ frames crc32 cur)) (length body)); [rewrite length_app in *; lia|].
  rewrite take_app_length, drop_app_length. eexists. split; [|split_and!].
  - f_equal. unfold finish_record. change (wr_body_crc (with_crc crc32 hd)) with (wal_crc32 crc32 body).
    rewrite Z.eqb_refl. cbn [negb]. change (wr_body_offset (with_crc crc32 hd)) with (pr_offset x + 24).
    change (wr_body_length (with_crc crc32 hd)) with (Z.of_nat (length body)).
    change (Z.of_nat WAL_RECORD_HEADER_SIZE) with 24. rewrite (wrap_u64_id (_ - 24)), wrap_u32_id by int_lia.
    pose proof Hwf as (sid & ep & base & cnt & pl & Hparts & Hx). subst body. rewrite Hx.
    pose proof (parse_new sid ep base cnt pl [] Hparts) as Hparse. rewrite app_nil_r in Hparse. rewrite Hparse.
    cbn [rc_start_offset_to_epoch field_set]. rewrite Hm. replace (pr_offset x + 24 - 24) with (pr_offset x) by lia.
    rewrite Hk. unfold recovered. rewrite Hx, Hsz, Hx. done.
  - unfold positioned. cbn. destruct Hmax. done.
  - exact Hpre.
  - split; cbn; [by rewrite Ht|by rewrite Hm].
Qed.

Lemma load_next_buffer_spec it m rest :
  positioned it [] (m :: rest) → prefetched it (m :: rest) →
  ∃ it', load_next_buffer it = (it', Ok tt) ∧ positioned it' (im_records m) rest ∧ same_source it it'.
Proof.
  intros (Hd & _ & Hr & Hmax & q & coming & Hq & Hra & Hdrop & Hsz) Hpre. specialize (Hpre ltac:(done)).
  destruct q as [|m' q]; [by rewrite Hra in Hpre|]. injection Hq as <- ->.
  apply Forall_cons in Hr as [Hm Hr]. unfold load_next_buffer. rewrite Hra. cbn [fmap list_fmap].
  pose proof Hm as (_ & Hty & Hsize & [(_ & Hf & _) _] & _).
  unfold im_bytes. rewrite wh_unmarshal_marshal by done. eexists. split; [done|]. split; [|done].
  unfold positioned. cbn. rewrite <-length_wh_marshal, drop_app_length.
  split_and!; try done; [lia|lia|]. exists q, coming. split_and!; try done.
  rewrite Hsz. cbn. rewrite Hsize. unfold im_bytes, saturating_sub. pose proof (sizes_nonneg q). apply Forall_app in Hr as [Hrq _].
  specialize (H Hrq). match goal with |- context [?a <? ?b] => destruct (Z.ltb_spec a b) end; lia.
Qed.

(** The records still to come. *)
Definition to_come (cur : list PendingRecord) (rest : list image) : list PendingRecord :=
  cur ++ mjoin (im_records <$> rest).

Lemma next0_spec it cur rest epoch_of x l :
  positioned it cur rest → prefetched it rest → to_come cur rest = x :: l →
  epochs_known (rc_start_offset_to_epoch it) epoch_of (to_come cur rest) →
  ∃ it' cur' rest', next0 it = (it', Ok (recovered (epoch_of (pr_offset x)) x)) ∧ to_come cur' rest' = l ∧
    positioned it' cur' rest' ∧ prefetched it' rest' ∧ same_source it it'.
Proof.
  intros Hp Hpre Hcome He. unfold next0. destruct cur as [|y cur].
  - destruct rest as [|m rest]; [done|]. destruct (load_next_buffer_spec it m rest Hp Hpre) as (it1 & Hl & Hp1 & Hsame).
    destruct Hp as (-> & _ & Hr & _). cbn. rewrite Hl. apply Forall_cons in Hr as [(_ & _ & _ & [(Hne & _) _] & _) _].
    destruct (im_records m) as [|y cur] eqn:Hm; [done|].
    assert (Hxy : y = x ∧ cur ++ mjoin (im_records <$> rest) = l).
    { unfold to_come in Hcome. cbn in Hcome. rewrite Hm in Hcome. injection Hcome as -> <-. done. }
    destruct Hxy as [-> <-]. destruct (read_record_spec it1 x cur rest epoch_of Hp1) as (it' & Hr & Hp' & Hpre' & Hsame').
    { destruct Hsame as [_ ->]. intros r ->%list_elem_of_singleton. apply He. rewrite Hcome. by left. }
    exists it', cur, rest. split_and!; try done.
    destruct Hsame as [E1 E2], Hsame' as [E3 E4]. split; congruence.
  - assert (Hxy : y = x ∧ cur ++ mjoin (im_records <$> rest) = l) by (unfold to_come in Hcome; injection Hcome as -> <-; done).
    destruct Hxy as [-> <-]. destruct (read_record_spec it x cur rest epoch_of Hp) as (it' & Hr & Hp' & Hpre' & Hsame').
    { intros r ->%list_elem_of_singleton. apply He. by left. }
    destruct (rc_data it) eqn:Hd.
    + destruct Hp as (Hd' & _). rewrite Hd in Hd'.
      change (frames crc32 (x :: cur)) with (frame_record crc32 (pr_offset x) (encoded (pr_record x)) ++ frames crc32 cur) in Hd'.
      apply (f_equal length) in Hd'. unfold frame_record in Hd'. rewrite !length_app, length_marshal in Hd'. cbn in Hd'. lia.
    + rewrite Hr. exists it', cur, rest. done.
Qed.

Lemma has_next0_spec it cur rest :
  positioned it cur rest → prefetched it rest → has_next0 it = negb (match to_come cur rest with [] => true | _ => false end).
Proof.
  intros (Hd & Hc & Hr & _ & q & coming & -> & Hq & Hdrop & _) Hpre. unfold has_next0, to_come. rewrite Hd, Hq.
  destruct cur as [|x cur]; [cbn|done].
  destruct q as [|m q]; cbn.
  - destruct coming as [|m coming]; [|by destruct (Hpre ltac:(done)); rewrite Hq]. cbn.
    apply Nat.ltb_ge. apply (f_equal length) in Hdrop. rewrite length_drop in Hdrop. cbn in Hdrop. lia.
  - apply Forall_cons in Hr as [(_ & _ & _ & [(Hne & _) _] & _) _]. by destruct (im_records m).
Qed.

(** Whether the stream passes a record on. *)
Definition kept (trim_offset : Z) (r : PendingRecord) : bool := negb (skipped trim_offset (recovered 0 r)).

Lemma recover_next_spec fuel it cur rest epoch_of :
  positioned it cur rest → prefetched it rest → epochs_known (rc_start_offset_to_epoch it) epoch_of (to_come cur rest) →
  (length (to_come cur rest) < fuel)%nat →
  ∃ it' item, recover_next fuel it = Some (it', item) ∧
    match filter (λ r, kept (rc_trim_offset it) r = true) (to_come cur rest) with
    | [] => item = None
    | r :: more => item = Some (Ok (recovered (epoch_of (pr_offset r)) r)) ∧
        ∃ cur' rest', positioned it' cur' rest' ∧ prefetched it' rest' ∧ same_source it it' ∧
          (length (to_come cur' rest') < length (to_come cur rest))%nat ∧ to_come cur' rest' ⊆ to_come cur rest ∧
          filter (λ r, kept (rc_trim_offset it) r = true) (to_come cur' rest') = more
    end.
Proof.
  revert it cur rest. induction fuel as [|fuel IH]; intros it cur rest Hp Hpre He Hf; [lia|]. cbn [recover_next].
  rewrite (has_next0_spec it cur rest Hp Hpre). destruct (to_come cur rest) as [|x l] eqn:Hcome; [cbn; eauto|].
  cbn [negb].
  destruct (next0_spec it cur rest epoch_of x l Hp Hpre Hcome ltac:(by rewrite Hcome))
    as (it1 & cur1 & rest1 & Hn & Hc1 & Hp1 & Hpre1 & Hsame). rewrite Hn, filter_cons.
  assert (Hk : skipped (rc_trim_offset it1) (recovered (epoch_of (pr_offset x)) x) = negb (kept (rc_trim_offset it) x)).
  { unfold kept. rewrite negb_involutive. by destruct Hsame as [-> _]. }
  rewrite Hk. destruct (kept (rc_trim_offset it) x) eqn:Ek; cbn [negb].
  - rewrite decide_True by done. eexists _, _. split; [done|]. split; [done|].
    exists cur1, rest1. rewrite Hc1. split_and!; try done; [cbn; lia|set_solver].
  - rewrite decide_False by done. destruct Hsame as [E1 E2].
    destruct (IH it1 cur1 rest1 Hp1 Hpre1) as (it' & item & Hr & Hitem).
    { rewrite E2, Hc1. intros r Hr. apply He. by right. }
    { rewrite Hc1. cbn in Hf. lia. }
    exists it', item. split; [done|]. rewrite Hc1, E1 in Hitem. destruct (filter _ l) as [|r more]; [done|].
    destruct Hitem as (-> & cur' & rest' & ? & ? & [E3 E4] & ? & ? & ?). split; [done|]. exists cur', rest'.
    split_and!; try done; [split; congruence|cbn; lia|set_solver].
Qed.

Lemma drain_spec fuel it cur rest epoch_of :
  positioned it cur rest → prefetched it rest → epochs_known (rc_start_offset_to_epoch it) epoch_of (to_come cur rest) →
  (length (to_come cur rest) < fuel)%nat →
  drain fuel it = Some ((λ r, Ok (recovered (epoch_of (pr_offset r)) r)) <$>
    filter (λ r, kept (rc_trim_offset it) r = true) (to_come cur rest)).
Proof.
  revert it cur rest. induction fuel as [|fuel IH]; intros it cur rest Hp Hpre He Hf; [lia|]. cbn [drain].
  destruct (recover_next_spec (S fuel) it cur rest epoch_of Hp Hpre He Hf) as (it' & item & Hr & Hitem). rewrite Hr.
  destruct (filter _ (to_come cur rest)) as [|r more] eqn:Hfil; [by rewrite Hitem|].
  destruct Hitem as (-> & cur' & rest' & Hp' & Hpre' & [E1 E2] & Hlen & Hsub & Hmore).
  rewrite (IH it' cur' rest' Hp' Hpre'); [|rewrite E2; intros x Hx; apply He, Hsub, Hx|lia].
  cbn. by rewrite E1, Hmore.
Qed.

(** ** The run that is read *)

(** Objects one after the other, one file each, from [lo] to [hi]. *)
Fixpoint image_chain (lo : Z) (ms : list image) (hi : Z) : Prop :=
  match ms with
  | [] => lo = hi
  | m :: ms => wl_start_offset (im_object m) = lo ∧ image_chain (lo + ALIGN) ms hi
  end.

Lemma image_chain_bounds lo ms hi m :
  image_chain lo ms hi → m ∈ ms → lo <= wl_start_offset (im_object m) ∧ wl_start_offset (im_object m) + ALIGN <= hi.
Proof.
  revert lo. induction ms as [|x ms IH]; intros lo Hc Hm; [by apply not_elem_of_nil in Hm|].
  destruct Hc as [Hx Hc]. assert (Hle : lo + ALIGN <= hi).
  { clear -Hc. revert lo Hc. induction ms as [|y ms IH]; intros lo; cbn; [lia|]. intros [_ Hc%IH]. pose proof ALIGN_pos. lia. }
  apply elem_of_cons in Hm as [->|Hm]; [lia|]. destruct (IH _ Hc Hm). pose proof ALIGN_pos. lia.
Qed.

Lemma continuous_chain lo ms hi tail :
  Forall image_ok (ms ++ tail) → image_chain lo ms hi →
  (∀ m, m ∈ tail → hi < wl_start_offset (im_object m)) →
  continuous lo (im_object <$> (ms ++ tail)) = im_object <$> ms.
Proof.
  revert lo. induction ms as [|m ms IH]; intros lo Hok Hc Ht; cbn in *.
  - subst hi. destruct tail as [|m tail]; [done|]. cbn. specialize (Ht m ltac:(by left)).
    destruct (Z.eqb_spec (wl_start_offset (im_object m)) lo); [lia|done].
  - destruct Hc as [Hm Hc]. apply Forall_cons in Hok as [(_ & _ & _ & _ & _ & He & _) Hok].
    rewrite Hm, Z.eqb_refl. f_equal. rewrite He, Hm. by apply IH.
Qed.

(** Recovery reads the run without the objects the trim covers. *)
Lemma get_continuous_run lo run hi tail trim_offset :
  Forall image_ok (run ++ tail) → image_chain lo run hi →
  (tail = [] ∨ run ≠ [] ∧ trim_offset < hi ∧ ∀ m, m ∈ tail → hi < wl_start_offset (im_object m)) →
  ∃ pre suf, run = pre ++ suf ∧ (∀ m, m ∈ pre → wl_end_offset (im_object m) <= trim_offset) ∧
    get_continuous_from_trim_offset (im_object <$> (run ++ tail)) trim_offset = im_object <$> suf.
Proof.
  revert lo. induction run as [|m run IH]; intros lo Hok Hc Htail.
  - exists [], []. split_and!; [done|by intros ? ?%not_elem_of_nil|]. by destruct Htail as [->|[? _]].
  - pose proof Hok as Hok'. cbn in Hok. apply Forall_cons in Hok as [(_ & _ & _ & _ & Hs & He & Hlt) Hok].
    destruct Hc as [Hm Hc]. pose proof ALIGN_pos. unfold get_continuous_from_trim_offset. cbn. rewrite wrap_i64_id by int_lia.
    destruct (Z.ltb_spec trim_offset (wl_end_offset (im_object m))) as [Hk|Hk].
    + exists [], (m :: run). split_and!; [done|by intros ? ?%not_elem_of_nil|]. cbn. f_equal. rewrite He, Hm.
      eapply continuous_chain; [done|done|]. destruct Htail as [->|(_ & _ & Ht)]; [by intros ? ?%not_elem_of_nil|done].
    + destruct (IH _ Hok Hc) as (pre & suf & -> & Hpre & Hget).
      { destruct Htail as [->|(_ & Hh & Ht)]; [by left|right]. split; [|done]. intros ->. cbn in Hc. lia. }
      exists (m :: pre), suf.
      split_and!; [done| |exact Hget]. intros x [->|Hx]%elem_of_cons; [lia|auto].
Qed.

(** ** Epochs *)
Lemma epoch_starts_app e l1 l2 :
  epoch_starts e (l1 ++ l2) = epoch_starts e l1 ++
    epoch_starts (match last l1 with Some o => Some (wl_epoch o) | None => e end) l2.
Proof.
  revert e. induction l1 as [|o l1 IH]; intros e; [done|]. cbn [app epoch_starts]. rewrite last_cons.
  case_bool_decide as He; rewrite IH; [|cbn; f_equal; f_equal; by destruct (last l1)].
  f_equal. f_equal. destruct (last l1); [done|]. done.
Qed.

Lemma epoch_starts_last e l o : 
  last l = Some o → (e = Some (wl_epoch o) ∧ epoch_starts e l = []) ∨ ∃ k, last (epoch_starts e l) = Some (k, wl_epoch o).
Proof.
  revert e. induction l as [|x l IH]; intros e; [done|]. rewrite last_cons. cbn [epoch_starts].
  destruct (last l) as [y|] eqn:Hl; intros [= ->].
  - case_bool_decide as He; [by apply IH|]. right. rewrite last_cons.
    destruct (IH (Some (wl_epoch x)) eq_refl) as [[[= Hx] Hn]|[k Hk]]; [rewrite Hn, Hx; eauto|rewrite Hk; eauto].
  - apply last_None in Hl as ->. case_bool_decide as He; [by left|]. right. eauto.
Qed.

Lemma epoch_starts_sublist e l :
  epoch_starts e l `sublist_of` ((λ o, (wl_start_offset o, wl_epoch o)) <$> l).
Proof. revert e. induction l as [|o l IH]; intros e; cbn; [done|]. case_bool_decide; constructor; apply IH. Qed.

Lemma fmap_sublist_of {A B} (f : A → B) l k : l `sublist_of` k → f <$> l `sublist_of` f <$> k.
Proof. induction 1; cbn; by constructor. Qed.

Lemma ord_floor_intro {V} (m : gmap Z V) off k v :
  m !! k = Some v → k <= off → (∀ j, is_Some (m !! j) → j <= off → j <= k) → ord_floor off m = Some (k, v).
Proof.
  intros Hk Hle Hmax. destruct (ord_floor off m) as [[k' v']|] eqn:Hf.
  - apply ord_floor_Some in Hf as (Hk' & Hle' & Hmax'). cbn in *.
    assert (k = k') as ->; [|congruence]. specialize (Hmax k' ltac:(eauto) Hle'). specialize (Hmax' k ltac:(eauto) Hle). lia.
  - exfalso. by eapply (ord_floor_None off m k Hf); [eauto|].
Qed.

(** An offset inside an object is given that object's epoch. *)
Lemma epoch_map_floor pre o post off :
  StronglySorted (λ a b, wl_start_offset a < wl_start_offset b) (pre ++ o :: post) →
  wl_start_offset o <= off → (∀ p, p ∈ post → off < wl_start_offset p) →
  ∃ k, ord_floor off (epoch_map (pre ++ o :: post)) = Some (k, wl_epoch o).
Proof.
  intros Hs Ho Hpost.
  assert (Hsplit : pre ++ o :: post = (pre ++ [o]) ++ post) by (by rewrite <-app_assoc).
  set (es := epoch_starts None (pre ++ o :: post)).
  assert (Hkeys : StronglySorted Z.lt es.*1).
  { pose proof (epoch_starts_sublist None (pre ++ o :: post)) as Hsub.
    apply (fmap_sublist_of fst) in Hsub. rewrite <-list_fmap_compose in Hsub.
    eapply StronglySorted_sublist; [exact Hsub|]. clear -Hs.
    induction Hs as [|x l Hl IH Hx]; constructor; [done|]. apply Forall_fmap. done. }
  assert (Hes : es = epoch_starts None (pre ++ [o]) ++ epoch_starts (Some (wl_epoch o)) post).
  { unfold es. by rewrite Hsplit, epoch_starts_app, last_snoc. }
  destruct (epoch_starts_last None (pre ++ [o]) o (last_snoc _ _)) as [[? _]|[k Hk]]; [done|].
  assert (Hlook : ∀ j v, epoch_map (pre ++ o :: post) !! j = Some v ↔ (j, v) ∈ es).
  { intros j v. unfold epoch_map. fold es. apply StronglySorted_lt_NoDup in Hkeys.
    rewrite foldl_insert_list by done. rewrite lookup_empty. 
    rewrite (elem_of_list_to_map (M := gmap Z)) by done. by destruct (list_to_map es !! j). }
  exists k. apply ord_floor_intro.
  - apply Hlook. rewrite Hes, elem_of_app. left. by apply last_Some_elem_of.
  - apply last_Some_elem_of, (sublist_elem _ _ _ (epoch_starts_sublist _ _)), list_elem_of_fmap in Hk as (p & [= -> _] & Hp).
    apply elem_of_app in Hp as [Hp|Hp]; [|by apply list_elem_of_singleton in Hp as ->].
    apply StronglySorted_app_iff in Hs as (_ & _ & Hx). specialize (Hx p o Hp ltac:(by left)). cbn in Hx. lia.
  - intros j [v Hj] Hle. apply Hlook in Hj. rewrite Hes, elem_of_app in Hj. destruct Hj as [Hj|Hj].
    + rewrite Hes, fmap_app in Hkeys. apply StronglySorted_app_iff in Hkeys as (Hs1 & _ & _).
      assert (Hl : last (epoch_starts None (pre ++ [o])).*1 = Some k) by (by rewrite fmap_last, Hk).
      destruct (StronglySorted_last _ _ _ j Hs1 Hl) as [->|?]; [|done|lia].
      apply list_elem_of_fmap. by exists (j, v).
    + exfalso. apply (sublist_elem _ _ _ (epoch_starts_sublist _ _)), list_elem_of_fmap in Hj as (p & [= -> _] & Hp).
      specialize (Hpost p Hp). lia.
Qed.

(** ** The theorem *)

(** A record recovery passes on: past the trim offset, and not the record a
    trim wrote. *)
Definition recoverable (trim_offset : Z) (r : PendingRecord) : Prop :=
  trim_offset < pr_offset r ∧
  ¬ (stream_id (pr_record r) = TRIM_RECORD_SENTINEL ∧ epoch (pr_record r) = TRIM_RECORD_SENTINEL).
#[local] Instance recoverable_dec trim_offset r : Decision (recoverable trim_offset r).
Proof. unfold recoverable. apply _. Defined.

Definition recovered_object (trim_offset : Z) (m : image) : list (result RecoverResult WalError) :=
  (λ r, Ok (recovered (wl_epoch (im_object m)) r)) <$> filter (recoverable trim_offset) (im_records m).

Lemma kept_iff trim_offset r : is_i64 (pr_offset r) → kept trim_offset r = true ↔ recoverable trim_offset r.
Proof.
  intros Hi. unfold kept, skipped, recoverable. cbn. rewrite wrap_i64_id by done.
  rewrite negb_true_iff, orb_false_iff, andb_false_iff, Z.leb_gt, !Z.eqb_neq.
  destruct (decide (stream_id (pr_record r) = TRIM_RECORD_SENTINEL)), (decide (epoch (pr_record r) = TRIM_RECORD_SENTINEL)); tauto.
Qed.

Lemma image_records_bounds m r :
  image_ok m → r ∈ im_records m →
  0 <= wl_start_offset (im_object m) <= pr_offset r ∧ 0 < pr_size r <= ALIGN ∧
  pr_offset r + pr_size r <= wl_end_offset (im_object m) < two63.
Proof.
  intros (_ & _ & _ & Hlaid & H0 & He & Hlt) Hr. destruct (laid_offsets _ _ Hlaid H0 ltac:(lia)) as (I1 & _).
  specialize (I1 r Hr). destruct Hlaid as [(_ & Hf & Ht) _]. rewrite Forall_forall in Hf. apply Hf, pending_ok_pos in Hr.
  lia.
Qed.

Lemma get_trim_offset_image ms m :
  image_ok m → last ms = Some m → get_trim_offset (im_object <$> ms) = Ok (wh_trim_offset (im_header m)).
Proof.
  intros Hm Hl. unfold get_trim_offset. rewrite fmap_last, Hl. cbn [fmap option_fmap option_map].
  pose proof (image_size m Hm) as Hsz. destruct Hm as (Ho & Hty & Hs & _).
  change (Z.of_nat MAX_WAL_HEADER_SIZE) with 48.
  rewrite (range_read_present _ _ _ _ _ _ Ho Hav) by lia. unfold byte_range, slice. rewrite Z.sub_0_r.
  change (Z.to_nat 0) with 0%nat. rewrite drop_0.
  assert (Hle : (length (wh_marshal (im_header m)) <= Z.to_nat (Z.min 48 (wl_size (im_object m))))%nat).
  { rewrite Hs. unfold im_bytes. rewrite length_app, length_wh_marshal.
    assert (wh_size (im_header m) <= 48)%nat by (unfold wh_size, WAL_HEADER_SIZE_V1, WAL_HEADER_SIZE_V0; destruct (_ =? _); lia). lia. }
  unfold im_bytes at 1. rewrite take_app_ge by done. rewrite wh_unmarshal_marshal by done. done.
Qed.

(** Objects the trim covers contribute nothing. *)
Lemma trimmed_contribute_nothing trim_offset pre :
  Forall image_ok pre → (∀ m, m ∈ pre → wl_end_offset (im_object m) <= trim_offset) →
  mjoin (recovered_object trim_offset <$> pre) = [].
Proof.
  induction 1 as [|m pre Hm Hpre IH]; [done|]. intros Ht.
  change (mjoin (recovered_object trim_offset <$> m :: pre)) with
    (recovered_object trim_offset m ++ mjoin (recovered_object trim_offset <$> pre)).
  rewrite IH by (intros x Hx; apply Ht; by right). rewrite app_nil_r. unfold recovered_object.
  assert (filter (recoverable trim_offset) (im_records m) = []) as ->; [|done].
  apply filter_none. intros r Hr [Hlt _].
  destruct (image_records_bounds m r Hm Hr) as (_ & ? & ? & _). specialize (Ht m ltac:(by left)). lia.
Qed.

Lemma images_bytes ms :
  Forall image_ok ms →
  (length (mjoin (im_records <$> ms)) <= total_bytes (read_object <$> (im_object <$> ms)))%nat.
Proof.
  induction 1 as [|m ms Hm Hms IH]; [done|].
  change (mjoin (im_records <$> m :: ms)) with (im_records m ++ mjoin (im_records <$> ms)).
  change (read_object <$> (im_object <$> m :: ms)) with (read_object (im_object m) :: (read_object <$> (im_object <$> ms))).
  rewrite length_app. cbn [total_bytes]. rewrite read_image by done. cbn [answer_bytes].
  assert (Hl : ∀ l, Forall pending_ok l → (length l <= length (frames crc32 l))%nat).
  { induction 1 as [|r l Hr Hl IHl]; [done|].
    change (frames crc32 (r :: l)) with (frame_record crc32 (pr_offset r) (encoded (pr_record r)) ++ frames crc32 l).
    unfold frame_record. rewrite !length_app, length_marshal. change WAL_RECORD_HEADER_SIZE with 24%nat. cbn. lia. }
  destruct Hm as (_ & _ & _ & [(_ & Hf & _) _] & _). specialize (Hl _ Hf). unfold im_bytes. rewrite length_app. lia.
Qed.

Lemma filter_ext_in {A} (P Q : A → Prop) `{∀ x, Decision (P x)} `{∀ x, Decision (Q x)} (l : list A) :
  (∀ x, x ∈ l → P x ↔ Q x) → filter P l = filter Q l.
Proof.
  induction l as [|x l IH]; intros Hpq; [done|]. rewrite !filter_cons, IH by (intros y Hy; apply Hpq; by right).
  specialize (Hpq x ltac:(by left)). by case_decide; case_decide; try tauto.
Qed.

Lemma image_chain_app lo a b hi :
  image_chain lo (a ++ b) hi → ∃ mid, image_chain lo a mid ∧ image_chain mid b hi.
Proof.
  revert lo. induction a as [|m a IH]; intros lo; cbn; [eauto|]. intros [Hm Hc]. destruct (IH _ Hc) as (mid & ? & ?). eauto.
Qed.

(** Inside the run, the epoch map knows every record's epoch. *)
Lemma run_epochs lo run hi tail m r :
  Forall image_ok (run ++ tail) → image_chain lo run hi →
  StronglySorted (λ a b, wl_start_offset a < wl_start_offset b) (im_object <$> (run ++ tail)) →
  (∀ t, t ∈ tail → hi < wl_start_offset (im_object t)) → m ∈ run → r ∈ im_records m →
  ∃ k, ord_floor (pr_offset r) (epoch_map (im_object <$> (run ++ tail))) = Some (k, wl_epoch (im_object m)).
Proof.
  intros Hok Hc Hs Ht Hm Hr.
  assert (Hmok : image_ok m) by (rewrite Forall_forall in Hok; apply Hok, elem_of_app; by left).
  pose proof (image_records_bounds m r Hmok Hr) as (B1 & B2 & B3). destruct Hmok as (_ & _ & _ & _ & _ & Hend & _).
  pose proof (image_chain_bounds _ _ _ _ Hc Hm) as [_ Hhi].
  apply list_elem_of_split in Hm as (s1 & s2 & ->). apply image_chain_app in Hc as (mid & _ & Hc). destruct Hc as [Hst Hc].
  assert (Heq : im_object <$> ((s1 ++ m :: s2) ++ tail) = (im_object <$> s1) ++ im_object m :: (im_object <$> (s2 ++ tail)))
    by (by rewrite <-app_assoc, fmap_app).
  rewrite Heq in *. apply epoch_map_floor; [done|lia|].
  intros p (x & -> & [Hx|Hx]%elem_of_app)%list_elem_of_fmap.
  - destruct (image_chain_bounds _ _ _ _ Hc Hx). lia.
  - specialize (Ht x Hx). lia.
Qed.

(** C8: [recover] yields exactly the durable suffix, in order: on objects the
    writer stored, one after the other, it streams every record past the trim
    offset found in the newest header, in log order, with the position and
    the epoch it was written at; trimmed records and the records trims write
    are left out, and so is everything behind the first gap. It ends without
    an error. *)
Theorem recovery_yields_the_durable_suffix lo run hi tail newest max_readahead_data_size :
  let objects := im_object <$> (run ++ tail) in
  let trim_offset := wh_trim_offset (im_header newest) in
  Forall image_ok (run ++ tail) → image_chain lo run hi →
  StronglySorted (λ a b, wl_start_offset a < wl_start_offset b) objects →
  last (run ++ tail) = Some newest →
  (tail = [] ∨ run ≠ [] ∧ trim_offset < hi ∧ ∀ m, m ∈ tail → hi < wl_start_offset (im_object m)) →
  0 < max_readahead_data_size < two63 →
  recover_stream (recovery_fuel objects) objects max_readahead_data_size =
    Some (mjoin (recovered_object trim_offset <$> run)).
Proof.
  intros objects trim_offset Hok Hc Hs Hnew Htail Hmax. unfold recover_stream, recover_new, objects.
  rewrite (get_trim_offset_image _ newest);
    [|rewrite Forall_forall in Hok; apply Hok; by apply last_Some_elem_of|done]. cbn [rbind].
  destruct (get_continuous_run lo run hi tail trim_offset Hok Hc Htail) as (pre & suf & -> & Hpre & Hget).
  pose proof Hok as Hok0. rewrite <-app_assoc in Hok. apply Forall_app in Hok as [Hokp Hok]. apply Forall_app in Hok as [Hoks _].
  rewrite (fmap_app (recovered_object trim_offset)), join_app, trimmed_contribute_nothing by done. cbn [app].
  fold trim_offset. rewrite Hget. set (epochs := epoch_map (im_object <$> (pre ++ suf) ++ tail)).
  set (it0 := Build_RecoverIterator _ _ _ _ _ _ _ _).
  assert (Hp : positioned it0 [] suf).
  { unfold positioned. cbn. split_and!; try done; [lia|lia|]. by exists [], suf. }
  destruct (try_read_ahead_positioned it0 [] suf Hp) as (Hp1 & Hpre1 & _ & Ht & He).
  set (epoch_of := λ off, match ord_floor off epochs with Some (_, e) => e | None => 0 end).
  assert (Hep : ∀ m, m ∈ suf → ∀ r, r ∈ im_records m → 
    ∃ k, ord_floor (pr_offset r) epochs = Some (k, wl_epoch (im_object m))).
  { intros m Hm r Hr. apply (run_epochs lo (pre ++ suf) hi tail); try done; [|rewrite elem_of_app; by right].
    destruct Htail as [->|(_ & _ & ?)]; [by intros ? ?%not_elem_of_nil|done]. }
  rewrite Forall_forall in Hoks.
  rewrite (drain_spec _ _ [] suf epoch_of Hp1 Hpre1).
  - f_equal. rewrite Ht. unfold to_come. cbn [app]. rewrite filter_join, fmap_join. f_equal.
    apply list_fmap_ext. intros n m Hm%list_elem_of_lookup_2. unfold recovered_object.
    rewrite (filter_ext_in _ (recoverable trim_offset)).
    + apply list_fmap_ext. intros n' r [_ Hr]%list_elem_of_lookup_2%list_elem_of_filter. unfold epoch_of.
      destruct (Hep m Hm r Hr) as [k ->]. done.
    + intros r Hr. apply kept_iff. destruct (image_records_bounds m r (Hoks m Hm) Hr) as (? & ? & ?). int_lia.
  - rewrite He. intros r (l & Hr & (m & -> & Hm)%list_elem_of_fmap)%list_elem_of_join.
    destruct (image_records_bounds m r (Hoks m Hm) Hr) as (? & ? & ?). destruct (Hep m Hm r Hr) as [k Hk].
    split_and!; [lia|lia|lia|]. exists k. unfold epoch_of. by rewrite Hk.
  - unfold recovery_fuel, to_come. cbn [app]. rewrite <-app_assoc, !fmap_app, !total_bytes_app.
    pose proof (images_bytes suf ltac:(by apply Forall_forall)). lia.
Qed.
End Recover.

Definition demo_image : image := {|
  im_object := {| wl_bucket_id := 0; wl_key := up_path demo_put; wl_epoch := 3; wl_start_offset := 0;
                  wl_end_offset := DATA_FILE_ALIGN_SIZE; wl_size := 107 |};
  im_header := header_v1 0 59 7 3 (-1);
  im_records := [demo_pending] |}.

Lemma demo_batch_ok sid base : is_u64 sid → is_u64 base → well_formed (demo_batch sid base).
Proof. intros. exists sid, 3, base, 1, [x61; x62]. split; [|done]. unfold parts_ok. cbn. split_and!; int_lia. Qed.

Lemma demo_image_ok : image_ok demo_crc demo_storage demo_image.
Proof.
  unfold image_ok. split; [vm_compute; reflexivity|]. split.
  { unfold wal_header_typed. cbn. split_and!; int_lia. }
  split; [vm_compute; reflexivity|]. split; [|split_and!; [reflexivity|reflexivity|reflexivity]].
  split_and!; [|reflexivity|reflexivity]. split_and!; [done| |vm_compute; discriminate].
  constructor; [|done]. split; [apply demo_batch_ok; int_lia|vm_compute; reflexivity].
Qed.

Lemma recovery_yields_the_durable_suffix_witness :
  recover_stream demo_crc demo_storage (recovery_fuel demo_storage [im_object demo_image]) [im_object demo_image] 1024 =
  Some [Ok (recovered 3 demo_pending)].
Proof.
  etrans; [apply (recovery_yields_the_durable_suffix demo_crc demo_storage ltac:(exact I) 0 [demo_image] DATA_FILE_ALIGN_SIZE []
    demo_image 1024)|].
  - constructor; [apply demo_image_ok|done].
  - done.
  - repeat constructor.
  - done.
  - by left.
  - int_lia.
  - vm_compute. reflexivity.
Defined.
