(* ===== verification/LogCache.v ===== *)
(** * The log cache

    [s3stream-core/src/cache/log_cache.rs]: the readable in-memory twin of
    the WAL. Puts land in the active block; sealed blocks wait for their
    upload, are marked free once it committed, merged with free neighbours
    and released when the cache is over its limits. Reads walk the blocks
    and memoise where the next sequential read starts.

    A block is shared through an [Arc]; its [block_id] is the handle here.
    The byte counters are the source's wrapping [u64] atomics. Calls of the
    free listeners are recorded in [lc_notified] and [lc_released]. [None]
    is a slice panic. *)

From Stdlib Require Import ZArith Lia.
From Stdlib Require Import Strings.Byte.
From stdpp Require Import base numbers list gmap.
From S2P Require Import Prelude RecordCodec WalWriter.

Open Scope Z_scope.
Open Scope rust_scope.

#[local] Arguments base_offset : simpl never.
#[local] Arguments last_offset : simpl never.
#[local] Arguments batch_size : simpl never.
#[local] Arguments occupied_size : simpl never.
#[local] Arguments stream_id : simpl never.

Definition MATCH_ALL_STREAMS : Z := u64_max.
Definition MAX_BLOCKS_COUNT : nat := 64.
Definition MERGE_BLOCK_THRESHOLD : nat := 8.
Definition DEFAULT_MAX_BLOCK_STREAM_COUNT : nat := Z.to_nat 10000.

(** ** One stream of one block *)
Record StreamCache := {
  sc_records : list StreamRecordBatch;
  sc_start_offset : option Z;
  sc_end_offset : option Z;
  sc_offset_index_map : gmap Z (nat * Z);
}.
#[export] Instance StreamCache_eta : RecordEta StreamCache := λ c,
  Build_StreamCache (sc_records c) (sc_start_offset c) (sc_end_offset c) (sc_offset_index_map c).

Definition sc_new : StreamCache := {|
  sc_records := []; sc_start_offset := None; sc_end_offset := None; sc_offset_index_map := ∅ |}.

(** A gap before the record is only logged. *)
Definition sc_add (r : StreamRecordBatch) (c : StreamCache) : option StreamCache :=
  let effective_start := default (base_offset r) (sc_start_offset c) in
  if two31 - 1 <? wrap_u64 (last_offset r - effective_start) then None
  else Some {|
    sc_records := sc_records c ++ [r];
    sc_start_offset := Some (default (base_offset r) (sc_start_offset c));
    sc_end_offset := Some (last_offset r);
    sc_offset_index_map := sc_offset_index_map c |}.

(** The binary search over [records[lo..hi]]; the fuel bounds [hi - lo]. *)
Fixpoint search_loop (fuel : nat) (rs : list StreamRecordBatch) (start_offset : Z)
    (lo hi : nat) : option nat :=
  match fuel with
  | O => None
  | S fuel =>
      if (lo <? hi)%nat then
        let mid := ((lo + hi) / 2)%nat in
        match rs !! mid with
        | None => None
        | Some record =>
            if start_offset <? base_offset record then search_loop fuel rs start_offset lo mid
            else if last_offset record <=? start_offset then
              search_loop fuel rs start_offset (S mid) hi
            else if start_offset =? base_offset record then Some mid
            else None
        end
      else None
  end.

Definition search_start_index (start_offset : Z) (c : StreamCache) :
    option nat * StreamCache :=
  match sc_offset_index_map c !! start_offset with
  | Some (index, count) =>
      (Some index, c <| sc_offset_index_map :=
         if count <=? 1 then delete start_offset (sc_offset_index_map c)
         else <[start_offset := (index, count - 1)]> (sc_offset_index_map c) |>)
  | None =>
      (search_loop (S (length (sc_records c))) (sc_records c) start_offset 0
         (length (sc_records c)), c)
  end.

(** Taking records until the end offset or the byte budget is reached, at
    least one if there is one. *)
Fixpoint take_until (end_offset remaining : Z) (rs : list StreamRecordBatch) :
    list StreamRecordBatch :=
  match rs with
  | [] => []
  | r :: rest =>
      let remaining' := remaining - Z.min remaining (batch_size r) in
      r :: (if (end_offset <=? last_offset r) || (remaining' =? 0) then []
            else take_until end_offset remaining' rest)
  end.

(** [&records[a..b]] panics when the bounds are out of order or range. *)
Definition slice_range_checked {A} (l : list A) (a b : nat) : option (list A) :=
  if (a <=? b)%nat && (b <=? length l)%nat then Some (take (b - a) (drop a l)) else None.

Definition sc_get (start_offset end_offset max_bytes : Z) (c : StreamCache) :
    option (list StreamRecordBatch * StreamCache) :=
  match sc_start_offset c, sc_end_offset c with
  | Some cache_start, Some cache_end =>
      if (start_offset <? cache_start) || (cache_end <=? start_offset) then Some ([], c)
      else
        match search_start_index start_offset c with
        | (None, c) => Some ([], c)
        | (Some start_index, c) =>
            let taken := take_until end_offset max_bytes (drop start_index (sc_records c)) in
            let end_index := (start_index + length taken)%nat in
            let c := match last taken with
                     | None => c
                     | Some r =>
                         let count := default (end_index, 0)
                           (sc_offset_index_map c !! last_offset r) in
                         c <| sc_offset_index_map :=
                           <[last_offset r := (end_index, wrap_u32 (count.2 + 1))]>
                             (sc_offset_index_map c) |>
                     end in
            rs ← slice_range_checked (sc_records c) start_index end_index;
            Some (rs, c)
        end
  | _, _ => Some ([], c)
  end.

Definition sc_range (c : StreamCache) : option (Z * Z) :=
  match sc_start_offset c, sc_end_offset c with
  | Some s, Some e => Some (s, e)
  | _, _ => None
  end.

(** ** Blocks *)
Record StreamRangeBound := {
  srb_stream_id : Z;
  srb_start_offset : Z;
  srb_end_offset : Z;
}.

Record LogCacheBlock := {
  lb_id : nat;
  lb_max_size : Z;
  lb_max_stream_count : nat;
  lb_map : gmap Z StreamCache;
  lb_last_record_offset : option RecordOffset;
  lb_free_listeners : list nat;
  lb_size : Z;
  lb_overflow : bool;
  lb_free : bool;
}.
#[export] Instance LogCacheBlock_eta : RecordEta LogCacheBlock := λ b,
  Build_LogCacheBlock (lb_id b) (lb_max_size b) (lb_max_stream_count b) (lb_map b)
    (lb_last_record_offset b) (lb_free_listeners b) (lb_size b) (lb_overflow b) (lb_free b).

Definition block_new (id : nat) (max_size : Z) (max_stream_count : nat) : LogCacheBlock := {|
  lb_id := id; lb_max_size := max_size; lb_max_stream_count := max_stream_count; lb_map := ∅;
  lb_last_record_offset := None; lb_free_listeners := []; lb_size := 0; lb_overflow := false;
  lb_free := false |}.

Definition is_full (b : LogCacheBlock) : bool :=
  lb_overflow b || (lb_max_size b <=? lb_size b) || (lb_max_stream_count b <=? size (lb_map b))%nat.

(** A refused record leaves an entry for its stream behind. *)
Definition block_put (r : StreamRecordBatch) (b : LogCacheBlock) : bool * LogCacheBlock :=
  if is_full b then (false, b)
  else
    let cache := default sc_new (lb_map b !! stream_id r) in
    match sc_add r cache with
    | None => (false, b <| lb_map := <[stream_id r := cache]> (lb_map b) |> <| lb_overflow := true |>)
    | Some cache =>
        (true, b <| lb_map := <[stream_id r := cache]> (lb_map b) |>
                 <| lb_size := wrap_u64 (lb_size b + occupied_size r) |>)
    end.

Definition block_get (sid start_offset end_offset max_bytes : Z) (b : LogCacheBlock) :
    option (list StreamRecordBatch * LogCacheBlock) :=
  match lb_map b !! sid with
  | Some cache =>
      out ← sc_get start_offset end_offset max_bytes cache;
      Some (out.1, b <| lb_map := <[sid := out.2]> (lb_map b) |>)
  | None => Some ([], b)
  end.

Definition stream_range (b : LogCacheBlock) (sid : Z) : option (Z * Z) :=
  c ← lb_map b !! sid; sc_range c.

Definition block_records (b : LogCacheBlock) : gmap Z (list StreamRecordBatch) :=
  sc_records <$> lb_map b.

Definition block_set_last_record_offset (o : RecordOffset) (b : LogCacheBlock) : LogCacheBlock :=
  b <| lb_last_record_offset := Some o |>.

(** The first record at the base offset is swapped. *)
Fixpoint replace_first (base : Z) (decoded : StreamRecordBatch) (rs : list StreamRecordBatch) :
    list StreamRecordBatch :=
  match rs with
  | [] => []
  | r :: rest => if base_offset r =? base then decoded :: rest else r :: replace_first base decoded rest
  end.

Definition replace_record (sid base : Z) (decoded : StreamRecordBatch) (b : LogCacheBlock) :
    LogCacheBlock :=
  b <| lb_map := alter (λ c, c <| sc_records := replace_first base decoded (sc_records c) |>) sid
                   (lb_map b) |>.

Definition contains_stream (b : LogCacheBlock) (sid : Z) : bool :=
  if sid =? MATCH_ALL_STREAMS then true else bool_decide (is_Some (lb_map b !! sid)).

Definition add_free_listener (l : nat) (b : LogCacheBlock) : LogCacheBlock :=
  b <| lb_free_listeners := lb_free_listeners b ++ [l] |>.

Definition block_bounds (b : LogCacheBlock) : list StreamRangeBound :=
  omap (λ p : Z * StreamCache,
    range ← sc_range p.2;
    Some {| srb_stream_id := p.1; srb_start_offset := range.1; srb_end_offset := range.2 |})
    (map_to_list (lb_map b)).

(** The calls of the block's listeners; the block itself is dropped. *)
Definition free_and_notify (b : LogCacheBlock) : list (nat * list StreamRangeBound) :=
  (λ l, (l, block_bounds b)) <$> lb_free_listeners b.

Fixpoint sum_Z (l : list Z) : Z :=
  match l with
  | [] => 0
  | x :: rest => x + sum_Z rest
  end.

Definition free_stream (sid : Z) (b : LogCacheBlock) : Z * LogCacheBlock :=
  match lb_map b !! sid with
  | Some cache =>
      (sum_Z (occupied_size <$> sc_records cache), b <| lb_map := delete sid (lb_map b) |>)
  | None => (0, b)
  end.

(** ** The cache *)
Record LogCache := {
  lc_capacity : Z;
  lc_block_max_size : Z;
  lc_max_stream_count : nat;
  lc_size : Z;
  lc_blocks : list LogCacheBlock;
  lc_last_record_offset : option RecordOffset;
  lc_has_listener : bool;
  lc_next_block_id : nat;
  lc_released : list nat;
  lc_notified : list (nat * list StreamRangeBound);
}.
#[export] Instance LogCache_eta : RecordEta LogCache := λ c,
  Build_LogCache (lc_capacity c) (lc_block_max_size c) (lc_max_stream_count c) (lc_size c)
    (lc_blocks c) (lc_last_record_offset c) (lc_has_listener c) (lc_next_block_id c)
    (lc_released c) (lc_notified c).

Definition lc_with_listener (capacity block_max_size : Z) (max_stream_count : nat)
    (listener : bool) : LogCache := {|
  lc_capacity := capacity; lc_block_max_size := block_max_size;
  lc_max_stream_count := max_stream_count; lc_size := 0;
  lc_blocks := [block_new 0 block_max_size max_stream_count];
  lc_last_record_offset := None; lc_has_listener := listener; lc_next_block_id := 1;
  lc_released := []; lc_notified := [] |}.

Definition lc_new (capacity block_max_size : Z) (max_stream_count : nat) : LogCache :=
  lc_with_listener capacity block_max_size max_stream_count false.

Definition over (c : LogCache) (total : Z) (blocks : nat) : bool :=
  (lc_capacity c / 10 * 9 <? total) || (MAX_BLOCKS_COUNT <? blocks)%nat.

(** The [while let] of [try_real_free]: released blocks, their bytes, the
    blocks that stay. *)
Fixpoint release_loop (c : LogCache) (current free_size : Z) (blocks : list LogCacheBlock) :
    list LogCacheBlock * Z * list LogCacheBlock :=
  match blocks with
  | [] => ([], free_size, [])
  | block :: rest =>
      if negb (over c (wrap_u64 (current - free_size)) (length blocks)) then ([], free_size, blocks)
      else if negb (lb_free block) then ([], free_size, blocks)
      else
        let '(removed, total, stay) :=
          release_loop c current (wrap_u64 (free_size + lb_size block)) rest in
        (block :: removed, total, stay)
  end.

Definition try_real_free (c : LogCache) : LogCache :=
  if negb (over c (lc_size c) (length (lc_blocks c))) then c
  else
    let '(removed, free_size, stay) := release_loop c (lc_size c) 0 (lc_blocks c) in
    c <| lc_blocks := stay |> <| lc_size := wrap_u64 (lc_size c - free_size) |>
      <| lc_released := lc_released c ++ (if lc_has_listener c then lb_id <$> removed else []) |>
      <| lc_notified := lc_notified c ++ mjoin (free_and_notify <$> removed) |>.

(** [blocks] always has an active block; without one the source panics. *)
Definition lc_put (r : StreamRecordBatch) (c : LogCache) : option (bool * LogCache) :=
  let c := try_real_free c in
  active ← last (lc_blocks c);
  let '(added, active') := block_put r active in
  Some (added,
    c <| lc_blocks := removelast (lc_blocks c) ++ [active'] |>
      <| lc_size := if added then wrap_u64 (lc_size c + occupied_size r) else lc_size c |>).

(** The first pass of [get0] over the blocks: the records, whether the
    request is fulfilled, and the blocks with their memoised positions. *)
Fixpoint get_blocks (sid end_offset next_start next_max : Z) (blocks : list LogCacheBlock) :
    option (list StreamRecordBatch * bool * list LogCacheBlock) :=
  match blocks with
  | [] => Some ([], false, [])
  | block :: rest =>
      got ← block_get sid next_start end_offset next_max block;
      let '(records, block) := (got : list StreamRecordBatch * LogCacheBlock) in
      match last records with
      | None =>
          out ← get_blocks sid end_offset next_start next_max rest;
          let '(rst, fulfill, rest) := out in
          Some (rst, fulfill, block :: rest)
      | Some l =>
          let next_start := last_offset l in
          let next_max := next_max - Z.min next_max (sum_Z (batch_size <$> records)) in
          if (end_offset <=? next_start) || (next_max =? 0) then Some (records, true, block :: rest)
          else
            out ← get_blocks sid end_offset next_start next_max rest;
            let '(rst, fulfill, rest) := out in
            Some (records ++ rst, fulfill, block :: rest)
      end
  end.

(** The start of the longest continuous tail, over the reversed blocks. *)
Fixpoint tail_start (sid : Z) (current : option Z) (blocks : list LogCacheBlock) : option Z :=
  match blocks with
  | [] => current
  | block :: rest =>
      match stream_range block sid with
      | None => tail_start sid current rest
      | Some (range_start, range_end) =>
          match current with
          | None => tail_start sid (Some range_start) rest
          | Some cur => if cur =? range_end then tail_start sid (Some range_start) rest else current
          end
      end
  end.

(** [get0] calls itself at most once: the second call starts at the tail,
    where the tail test stops it. *)
Fixpoint get0 (fuel : nat) (blocks : list LogCacheBlock) (sid start_offset end_offset max_bytes : Z) :
    option (list StreamRecordBatch * list LogCacheBlock) :=
  match fuel with
  | O => None
  | S fuel =>
      got ← get_blocks sid end_offset start_offset max_bytes blocks;
      let '(rst, fulfill, blocks) := (got : list StreamRecordBatch * bool * list LogCacheBlock) in
      if fulfill then Some (rst, blocks)
      else
        match tail_start sid None (reverse blocks) with
        | None => Some ([], blocks)
        | Some tail =>
            if end_offset <=? tail then Some ([], blocks)
            else if tail <=? start_offset then Some ([], blocks)
            else get0 fuel blocks sid tail end_offset max_bytes
        end
  end.

Definition GET0_CALLS : nat := 2.

Definition lc_get (sid start_offset end_offset max_bytes : Z) (c : LogCache) :
    option (list StreamRecordBatch * LogCache) :=
  out ← get0 GET0_CALLS (lc_blocks c) sid start_offset end_offset max_bytes;
  Some (out.1, c <| lc_blocks := out.2 |>).

Definition archive_current_block (c : LogCache) : option (LogCacheBlock * LogCache) :=
  active ← last (lc_blocks c);
  let block := match lc_last_record_offset c with
               | Some o => block_set_last_record_offset o active
               | None => active
               end in
  Some (block,
    c <| lc_blocks := removelast (lc_blocks c) ++
           [block; block_new (lc_next_block_id c) (lc_block_max_size c) (lc_max_stream_count c)] |>
      <| lc_next_block_id := S (lc_next_block_id c) |>).

Definition archive_current_block_if_contains (sid : Z) (c : LogCache) :
    option (option LogCacheBlock * LogCache) :=
  active ← last (lc_blocks c);
  let should_archive :=
    if sid =? MATCH_ALL_STREAMS then 0 <? lb_size active else contains_stream active sid in
  if should_archive then
    out ← archive_current_block c;
    Some (Some out.1, out.2)
  else Some (None, c).

Definition is_discontinuous (l r : LogCacheBlock) : bool :=
  existsb (λ p : Z * StreamCache,
    match lb_map r !! p.1 with
    | None => false
    | Some right_cache => negb (bool_decide (sc_end_offset p.2 = sc_start_offset right_cache))
    end) (map_to_list (lb_map l)).

Definition merge_stream (merged source : option StreamCache) : option StreamCache :=
  match merged, source with
  | m, None => m
  | None, Some s => Some {|
      sc_records := sc_records s; sc_start_offset := sc_start_offset s;
      sc_end_offset := sc_end_offset s; sc_offset_index_map := ∅ |}
  | Some m, Some s => Some {|
      sc_records := sc_records m ++ sc_records s; sc_start_offset := sc_start_offset m;
      sc_end_offset := sc_end_offset s; sc_offset_index_map := ∅ |}
  end.

Definition merge_block (merged source : LogCacheBlock) : LogCacheBlock :=
  merged <| lb_size := wrap_u64 (lb_size merged + lb_size source) |>
         <| lb_last_record_offset := match lb_last_record_offset source with
                                     | Some o => Some o
                                     | None => lb_last_record_offset merged
                                     end |>
         <| lb_map := merge merge_stream (lb_map merged) (lb_map source) |>.

Definition merged_block (id : nat) (l r : LogCacheBlock) : LogCacheBlock :=
  merge_block (merge_block (block_new id u64_max DEFAULT_MAX_BLOCK_STREAM_COUNT) l) r
    <| lb_free := true |>.

(** Every round moves the index or removes a block. *)
Fixpoint merge_loop (fuel : nat) (index : nat) (c : LogCache) : LogCache :=
  match fuel with
  | O => c
  | S fuel =>
      if (length (lc_blocks c) <=? MERGE_BLOCK_THRESHOLD)%nat ||
         (length (lc_blocks c) <=? index + 1)%nat then c
      else
        match lc_blocks c !! index, lc_blocks c !! (index + 1)%nat with
        | Some l, Some r =>
            if negb (lb_free l) || negb (lb_free r) then c
            else if lc_block_max_size c <=? wrap_u64 (lb_size l + lb_size r) then
              merge_loop fuel (index + 1) c
            else if is_discontinuous l r then merge_loop fuel (index + 1) c
            else
              merge_loop fuel index
                (c <| lc_blocks := take index (lc_blocks c) ++
                        merged_block (lc_next_block_id c) l r :: drop (index + 2) (lc_blocks c) |>
                   <| lc_next_block_id := S (lc_next_block_id c) |>)
        | _, _ => c
        end
  end.

Definition try_merge (c : LogCache) : LogCache := merge_loop (S (length (lc_blocks c))) 0 c.

Definition set_free (id : nat) (b : LogCacheBlock) : LogCacheBlock :=
  if decide (lb_id b = id) then b <| lb_free := true |> else b.

Definition mark_free (id : nat) (c : LogCache) : LogCache :=
  try_merge (try_real_free (c <| lc_blocks := set_free id <$> lc_blocks c |>)).

Definition lc_set_last_record_offset (o : RecordOffset) (c : LogCache) : LogCache :=
  c <| lc_last_record_offset := Some o |>.

Definition clear_stream_records (sid : Z) (c : LogCache) : LogCache :=
  let freed := sum_Z ((λ b, (free_stream sid b).1) <$> lc_blocks c) in
  c <| lc_blocks := (λ b, (free_stream sid b).2) <$> lc_blocks c |>
    <| lc_size := wrap_u64 (lc_size c - freed) |>.

Definition lc_add_free_listener (id l : nat) (c : LogCache) : LogCache :=
  c <| lc_blocks := (λ b, if decide (lb_id b = id) then add_free_listener l b else b) <$> lc_blocks c |>.

(** ** Contiguous runs of records *)

(** [rs] covers [s, e) without a gap, every record at least one offset. *)
Fixpoint contig (s : Z) (rs : list StreamRecordBatch) (e : Z) : Prop :=
  match rs with
  | [] => s = e
  | r :: rest => base_offset r = s ∧ s < last_offset r ∧ contig (last_offset r) rest e
  end.

(** The records from the one that starts at [x]. *)
Fixpoint suffix_from (x : Z) (rs : list StreamRecordBatch) : list StreamRecordBatch :=
  match rs with
  | [] => []
  | r :: rest => if base_offset r =? x then rs else suffix_from x rest
  end.

(** Whether [take_until] stopped at its end offset or byte budget. *)
Fixpoint fulfilled (end_offset remaining : Z) (rs : list StreamRecordBatch) : bool :=
  match rs with
  | [] => false
  | r :: rest =>
      let remaining' := remaining - Z.min remaining (batch_size r) in
      (end_offset <=? last_offset r) || (remaining' =? 0) || fulfilled end_offset remaining' rest
  end.

Lemma contig_app s a b e : contig s (a ++ b) e ↔ ∃ m, contig s a m ∧ contig m b e.
Proof.
  revert s. induction a as [|r a IH]; intros s; cbn [app contig].
  - split; [intros; by exists s|by intros (? & -> & ?)].
  - rewrite IH. naive_solver.
Qed.

Lemma contig_le s rs e : contig s rs e → s <= e.
Proof. revert s. induction rs as [|r rs IH]; cbn; [lia|]. intros s (? & ? & ?%IH). lia. Qed.

Lemma contig_fun s rs e e' : contig s rs e → contig s rs e' → e = e'.
Proof. revert s. induction rs as [|r rs IH]; cbn; [congruence|]. naive_solver. Qed.

Lemma contig_snoc s rs e r :
  contig s rs e → base_offset r = e → e < last_offset r → contig s (rs ++ [r]) (last_offset r).
Proof. intros. apply contig_app. exists e. by cbn. Qed.

Lemma contig_last s rs e r : contig s rs e → last rs = Some r → last_offset r = e.
Proof.
  revert s. induction rs as [|r' rs IH]; [done|]. intros s (? & ? & Hc) Hl.
  destruct rs; [cbn in *; by simplify_eq|]. by eapply IH.
Qed.

Lemma contig_lookup s rs e i r :
  contig s rs e → rs !! i = Some r → contig s (take i rs) (base_offset r) ∧
    base_offset r < last_offset r ∧ contig (last_offset r) (drop (S i) rs) e.
Proof.
  intros Hc Hi. rewrite <-(take_drop_middle _ _ _ Hi) in Hc.
  apply contig_app in Hc as (m & Hpre & Hr). cbn in Hr. destruct Hr as (<- & ? & ?). auto.
Qed.

Lemma contig_bounds s rs e i r :
  contig s rs e → rs !! i = Some r → s <= base_offset r ∧ base_offset r < last_offset r <= e.
Proof.
  intros Hc Hi. destruct (contig_lookup _ _ _ _ _ Hc Hi) as (H1%contig_le & ? & H2%contig_le). lia.
Qed.

(** Later records start where earlier ones ended or after. *)
Lemma contig_order s rs e i j ri rj :
  contig s rs e → rs !! i = Some ri → rs !! j = Some rj → (i < j)%nat →
  last_offset ri <= base_offset rj.
Proof.
  intros Hc Hi Hj Hij. destruct (contig_lookup _ _ _ _ _ Hc Hi) as (_ & _ & Hrest).
  eapply (contig_bounds _ _ _ (j - S i)%nat rj) in Hrest; [lia|].
  rewrite lookup_drop. by replace (S i + (j - S i))%nat with j by lia.
Qed.

Lemma suffix_from_head s rs e : contig s rs e → suffix_from s rs = rs.
Proof. destruct rs; cbn; [done|]. intros [-> _]. by rewrite Z.eqb_refl. Qed.

Lemma suffix_from_out x s rs e : contig s rs e → x < s ∨ e <= x → suffix_from x rs = [].
Proof.
  revert s. induction rs as [|r rs IH]; [done|]. intros s (Hb & Hlt & Hc) Hx. cbn.
  pose proof (contig_le _ _ _ Hc).
  destruct (Z.eqb_spec (base_offset r) x); [lia|]. eapply IH; [done|lia].
Qed.

Lemma suffix_from_drop x s rs e i r :
  contig s rs e → rs !! i = Some r → base_offset r = x → suffix_from x rs = drop i rs.
Proof.
  revert s i. induction rs as [|r' rs IH]; intros s i Hc Hi Hx; [done|].
  destruct i as [|i].
  - cbn in *. simplify_eq. by rewrite Z.eqb_refl.
  - destruct Hc as (Hb & Hlt & Hc). cbn in Hi. cbn [suffix_from].
    pose proof (contig_bounds _ _ _ _ _ Hc Hi).
    destruct (Z.eqb_spec (base_offset r') x); [lia|]. by eapply IH.
Qed.

Lemma suffix_from_split x a b :
  suffix_from x (a ++ b) = match suffix_from x a with [] => suffix_from x b | sfx => sfx ++ b end.
Proof.
  induction a as [|r a IH]; [done|]. cbn.
  destruct (base_offset r =? x); [done|]. apply IH.
Qed.

Lemma suffix_from_Some x rs :
  suffix_from x rs ≠ [] → ∃ i r, rs !! i = Some r ∧ base_offset r = x.
Proof.
  induction rs as [|r rs IH]; [done|]. cbn. destruct (Z.eqb_spec (base_offset r) x).
  - intros _. by exists O, r.
  - intros (i & r' & ? & ?)%IH. by exists (S i), r'.
Qed.

(** ** Budgeted prefixes *)
Lemma batch_size_nonneg r : 0 <= batch_size r.
Proof. unfold batch_size. pose proof (wrap_u64_is_u64 (read_i32 (encoded r) PAYLOAD_LENGTH_POS)). int_lia. Qed.

Lemma sum_sizes_nonneg rs : 0 <= sum_Z (batch_size <$> rs).
Proof. induction rs as [|r rs IH]; cbn; [lia|]. pose proof (batch_size_nonneg r). lia. Qed.

Lemma sum_Z_app a b : sum_Z (a ++ b) = sum_Z a + sum_Z b.
Proof. induction a as [|x a IH]; cbn; [lia|]. lia. Qed.

Lemma take_until_prefix en m rs : take (length (take_until en m rs)) rs = take_until en m rs.
Proof.
  revert m. induction rs as [|r rs IH]; intros m; [done|]. cbn [take_until].
  destruct (_ || _); [done|]. cbn. by rewrite IH.
Qed.

Lemma take_until_fulfilled en m a b :
  fulfilled en m a = true →
  take_until en m (a ++ b) = take_until en m a ∧ fulfilled en m (a ++ b) = true.
Proof.
  revert m. induction a as [|r a IH]; intros m; [done|].
  cbn [app take_until fulfilled]. destruct ((en <=? last_offset r) || (_ =? 0)) eqn:E; cbn; [done|].
  intros [-> ->]%IH. done.
Qed.

Lemma take_until_all en m rs : fulfilled en m rs = false → take_until en m rs = rs.
Proof.
  revert m. induction rs as [|r rs IH]; intros m; [done|].
  cbn [take_until fulfilled]. destruct ((en <=? last_offset r) || (_ =? 0)) eqn:E; cbn; [done|]. by intros ->%IH.
Qed.

Lemma take_until_app en m a b :
  0 <= m → fulfilled en m a = false →
  let m' := m - Z.min m (sum_Z (batch_size <$> a)) in
  take_until en m (a ++ b) = a ++ take_until en m' b ∧
  fulfilled en m (a ++ b) = fulfilled en m' b.
Proof.
  revert m. induction a as [|r a IH]; intros m Hm Hf m'.
  - subst m'. cbn. by replace (m - Z.min m 0) with m by lia.
  - cbn [app take_until fulfilled] in *. destruct ((en <=? last_offset r) || (_ =? 0)) eqn:E; cbn in Hf; [done|].
    pose proof (batch_size_nonneg r). pose proof (sum_sizes_nonneg a).
    destruct (IH (m - Z.min m (batch_size r)) ltac:(lia) Hf) as [-> ->].
    subst m'. cbn [fmap list_fmap sum_Z].
    replace (m - Z.min m (batch_size r + sum_Z (batch_size <$> a))) with
      (m - Z.min m (batch_size r) -
       Z.min (m - Z.min m (batch_size r)) (sum_Z (batch_size <$> a))) by lia.
    done.
Qed.

(** The test after a block's records is whether they fulfil the request. *)
Lemma take_until_check en m rs l :
  0 <= m → last (take_until en m rs) = Some l →
  ((en <=? last_offset l) ||
   (m - Z.min m (sum_Z (batch_size <$> take_until en m rs)) =? 0)) = fulfilled en m rs.
Proof.
  revert m. induction rs as [|r rs IH]; intros m Hm; [done|].
  pose proof (batch_size_nonneg r).
  cbn [take_until fulfilled]. destruct ((en <=? last_offset r) || (_ =? 0)) eqn:E; cbn.
  - intros [= <-]. by replace (batch_size r + 0) with (batch_size r) by lia.
  - intros Hl. destruct (take_until en (m - Z.min m (batch_size r)) rs) as [|r' t] eqn:Et.
    + cbn in Hl. simplify_eq. destruct rs; [|by cbn in Et; destruct (_ || _)].
      cbn. rewrite <-E. f_equal. f_equal. lia.
    + rewrite <-Et in *. rewrite <-(IH (m - Z.min m (batch_size r))); [|lia|].
      * f_equal. f_equal.
        pose proof (sum_sizes_nonneg (take_until en (m - Z.min m (batch_size r)) rs)). lia.
      * rewrite Et in *. done.
Qed.

Lemma take_until_nonempty en m rs : rs ≠ [] → take_until en m rs ≠ [].
Proof. by destruct rs. Qed.

(** ** Reads of one stream of one block *)

(** A memoised position is reached after that many records. *)
Definition index_ok (s : Z) (rs : list StreamRecordBatch) (m : gmap Z (nat * Z)) : Prop :=
  ∀ x i n, m !! x = Some (i, n) → (i <= length rs)%nat ∧ contig s (take i rs) x.

Definition sc_ok (c : StreamCache) : Prop :=
  match sc_records c with
  | [] => sc_start_offset c = None ∧ sc_end_offset c = None ∧ sc_offset_index_map c = ∅
  | rs => ∃ s e, sc_start_offset c = Some s ∧ sc_end_offset c = Some e ∧ contig s rs e ∧
      index_ok s rs (sc_offset_index_map c)
  end.

Lemma sc_ok_inv c : sc_ok c →
  (sc_records c = [] ∧ sc_start_offset c = None ∧ sc_end_offset c = None ∧
   sc_offset_index_map c = ∅) ∨
  (∃ s e, sc_records c ≠ [] ∧ sc_start_offset c = Some s ∧ sc_end_offset c = Some e ∧
   contig s (sc_records c) e ∧ index_ok s (sc_records c) (sc_offset_index_map c)).
Proof.
  unfold sc_ok. destruct (sc_records c) as [|r rs]; [naive_solver|]. intros (s & e & ?). right.
  exists s, e. naive_solver.
Qed.

Lemma sc_ok_intro c s e :
  sc_records c ≠ [] → sc_start_offset c = Some s → sc_end_offset c = Some e →
  contig s (sc_records c) e → index_ok s (sc_records c) (sc_offset_index_map c) → sc_ok c.
Proof. unfold sc_ok. destruct (sc_records c) as [|r rs]; [done|]. intros. exists s, e. auto. Qed.

Lemma contig_take_lookup s rs e i x :
  contig s rs e → contig s (take i rs) x → x < e → (i <= length rs)%nat →
  ∃ r, rs !! i = Some r ∧ base_offset r = x.
Proof.
  intros Hc Ht Hx Hi. destruct (rs !! i) as [r|] eqn:E.
  - exists r. split; [done|]. destruct (contig_lookup _ _ _ _ _ Hc E) as (Hb & _).
    by eapply contig_fun.
  - apply lookup_ge_None in E. rewrite take_ge in Ht by done.
    pose proof (contig_fun _ _ _ _ Hc Ht). lia.
Qed.

Lemma search_loop_sound fuel rs x lo hi i :
  search_loop fuel rs x lo hi = Some i → ∃ r, rs !! i = Some r ∧ base_offset r = x.
Proof.
  revert lo hi. induction fuel as [|fuel IH]; intros lo hi; [done|]. cbn [search_loop].
  destruct (lo <? hi)%nat; [|done]. destruct (rs !! ((lo + hi) / 2)%nat) as [r|] eqn:E; [|done].
  destruct (x <? base_offset r); [apply IH|].
  destruct (last_offset r <=? x); [apply IH|].
  destruct (Z.eqb_spec x (base_offset r)); [|done]. intros [= <-]. by exists r.
Qed.

Lemma search_loop_complete fuel rs s e i r lo hi :
  contig s rs e → rs !! i = Some r → (lo <= i < hi)%nat → (hi <= length rs)%nat →
  (hi - lo < fuel)%nat → search_loop fuel rs (base_offset r) lo hi = Some i.
Proof.
  intros Hc Hi. revert lo hi. induction fuel as [|fuel IH]; intros lo hi Hb Hlen Hf; [lia|].
  cbn [search_loop]. destruct (Nat.ltb_spec lo hi); [|lia].
  pose proof (Nat.div_mod_eq (lo + hi) 2). pose proof (Nat.mod_upper_bound (lo + hi) 2).
  set (mid := ((lo + hi) / 2)%nat) in *.
  destruct (lookup_lt_is_Some_2 rs mid ltac:(lia)) as [rm Hm]. rewrite Hm.
  pose proof (contig_bounds _ _ _ _ _ Hc Hi). pose proof (contig_bounds _ _ _ _ _ Hc Hm).
  destruct (Nat.lt_trichotomy mid i) as [Hlt|[<-|Hlt]].
  - pose proof (contig_order _ _ _ _ _ _ _ Hc Hm Hi Hlt).
    destruct (Z.ltb_spec (base_offset r) (base_offset rm)); [lia|].
    destruct (Z.leb_spec (last_offset rm) (base_offset r)); [|lia]. apply IH; lia.
  - simplify_eq. destruct (Z.ltb_spec (base_offset r) (base_offset r)); [lia|].
    destruct (Z.leb_spec (last_offset r) (base_offset r)); [lia|]. by rewrite Z.eqb_refl.
  - pose proof (contig_order _ _ _ _ _ _ _ Hc Hi Hm Hlt).
    destruct (Z.ltb_spec (base_offset r) (base_offset rm)); [|lia]. apply IH; lia.
Qed.

(** The start index, memoised or searched, is that of the record at [x]. *)
Lemma search_start_index_spec s e x c :
  contig s (sc_records c) e → index_ok s (sc_records c) (sc_offset_index_map c) → x < e →
  ∃ oi m, search_start_index x c = (oi, c <| sc_offset_index_map := m |>) ∧
    index_ok s (sc_records c) m ∧
    match oi with
    | Some i => (i < length (sc_records c))%nat ∧ suffix_from x (sc_records c) = drop i (sc_records c)
    | None => suffix_from x (sc_records c) = []
    end.
Proof.
  intros Hc Hidx Hx. unfold search_start_index.
  destruct (sc_offset_index_map c !! x) as [[i n]|] eqn:E.
  - destruct (Hidx _ _ _ E) as [Hi Hi'].
    destruct (contig_take_lookup _ _ _ _ _ Hc Hi' Hx Hi) as (r & Hr & Hbase).
    eexists _, _. split; [done|]. split.
    + intros y j k. destruct (n <=? 1).
      * intros [_ ?]%lookup_delete_Some. by eapply Hidx.
      * intros [[<- [= <- <-]]|[_ ?]]%lookup_insert_Some; [done|by eapply Hidx].
    + split; [by apply lookup_lt_Some in Hr|]. by eapply suffix_from_drop.
  - eexists _, (sc_offset_index_map c). split; [by destruct c|]. split; [done|].
    destruct (search_loop _ _ _ _ _) as [i|] eqn:Es.
    + apply search_loop_sound in Es as (r & Hr & Hb).
      split; [by apply lookup_lt_Some in Hr|]. by eapply suffix_from_drop.
    + destruct (suffix_from x (sc_records c)) eqn:Ef; [done|]. exfalso.
      destruct (suffix_from_Some x (sc_records c)) as (i & r & Hr & <-); [by rewrite Ef|].
      pose proof (lookup_lt_Some _ _ _ Hr).
      erewrite search_loop_complete in Es; [done|done|done|lia|lia|lia].
Qed.

(** Reading a stream cache takes the budgeted prefix from the record at the
    start offset, and changes only the memoised positions. *)
Lemma sc_get_spec x en m c :
  sc_ok c →
  ∃ idx, sc_get x en m c =
    Some (take_until en m (suffix_from x (sc_records c)), c <| sc_offset_index_map := idx |>) ∧
    sc_ok (c <| sc_offset_index_map := idx |>).
Proof.
  intros Hok. destruct (sc_ok_inv c Hok) as [(Hr & Hs & He & Hm)|(s & e & Hne & Hs & He & Hc & Hidx)];
    unfold sc_get; rewrite Hs, ?He.
  { rewrite Hr. exists (sc_offset_index_map c). cbn. destruct c; cbn in *. by subst. }
  assert (Hsame : c <| sc_offset_index_map := sc_offset_index_map c |> = c) by by destruct c.
  assert (Hkeep : ∀ idx, index_ok s (sc_records c) idx → sc_ok (c <| sc_offset_index_map := idx |>)).
  { intros. by eapply sc_ok_intro. }
  destruct ((x <? s) || (e <=? x)) eqn:Eout.
  { exists (sc_offset_index_map c). rewrite Hsame. split; [|done].
    erewrite suffix_from_out; [done|done|]. apply orb_true_iff in Eout. lia. }
  apply orb_false_iff in Eout as [? ?].
  destruct (search_start_index_spec s e x c Hc Hidx ltac:(lia)) as (oi & m' & -> & Hm' & Hoi).
  destruct oi as [i|]; [|rewrite Hoi; exists m'; split; [done|by apply Hkeep]].
  destruct Hoi as [Hi Hsfx]. rewrite Hsfx. cbn [sc_records sc_offset_index_map field_set].
  set (t := take_until en m (drop i (sc_records c))).
  assert (Ht : take (length t) (drop i (sc_records c)) = t) by apply take_until_prefix.
  assert (Hlen : (i + length t <= length (sc_records c))%nat).
  { rewrite <-Ht, length_take, length_drop. lia. }
  destruct (last t) as [r|] eqn:El.
  2:{ apply last_None in El. unfold t in El.
      exfalso. apply (take_until_nonempty en m (drop i (sc_records c))); [|done].
      intros E. apply (f_equal length) in E. rewrite length_drop in E. cbn in E. lia. }
  unfold slice_range_checked. cbn [sc_records field_set].
  destruct (Nat.leb_spec i (i + length t)); [|lia].
  destruct (Nat.leb_spec (i + length t) (length (sc_records c))); [|lia]. cbn [andb mbind option_bind].
  replace (i + length t - i)%nat with (length t) by lia. rewrite Ht.
  eexists. split; [done|]. apply Hkeep.
  intros y j k [[<- [= <- <-]]|[_ ?]]%lookup_insert_Some; [|by eapply Hm'].
  split; [done|]. rewrite <-(take_drop i (sc_records c)) in Hc.
  assert (Hsplit : take (i + length t) (sc_records c) = take i (sc_records c) ++ t).
  { rewrite <-Ht at 2. by rewrite take_take_drop. }
  rewrite Hsplit. rewrite <-(take_drop (length t) (drop i (sc_records c))), Ht in Hc.
  apply contig_app in Hc as (mid & Hc1 & Hc). apply contig_app in Hc as (mid' & Hc2 & _).
  apply contig_app. exists mid. split; [done|].
  by rewrite (contig_last _ _ _ _ Hc2 El).
Qed.

(** ** Reads across blocks *)
Definition block_log (sid : Z) (b : LogCacheBlock) : list StreamRecordBatch :=
  from_option sc_records [] (lb_map b !! sid).

Definition blocks_log (sid : Z) (bs : list LogCacheBlock) : list StreamRecordBatch :=
  mjoin (block_log sid <$> bs).

#[global] Arguments block_log : simpl never.
#[global] Arguments blocks_log : simpl never.

(** What the cache holds of a stream, oldest first. *)
Definition cached_log (c : LogCache) (sid : Z) : list StreamRecordBatch :=
  blocks_log sid (lc_blocks c).

Definition lb_ok (b : LogCacheBlock) : Prop :=
  ∀ sid c, lb_map b !! sid = Some c → sc_ok c.

(** Two blocks that differ in memoised positions only. *)
Definition sc_view (c : StreamCache) : list StreamRecordBatch * option Z * option Z :=
  (sc_records c, sc_start_offset c, sc_end_offset c).

Definition same_block (b b' : LogCacheBlock) : Prop :=
  ∃ m, b' = b <| lb_map := m |> ∧ sc_view <$> lb_map b = sc_view <$> m.

#[export] Instance same_block_equiv : Equivalence same_block.
Proof.
  split.
  - intros b. exists (lb_map b). split; [by destruct b|done].
  - intros b b' (m & -> & H). exists (lb_map b). split; [by destruct b|done].
  - intros b b' b'' (m & -> & H) (m' & -> & H'). exists m'. split; [by destruct b|].
    etransitivity; [exact H|exact H'].
Qed.

Lemma same_block_lookup b b' sid :
  same_block b b' → sc_view <$> lb_map b !! sid = sc_view <$> lb_map b' !! sid.
Proof. intros (m & -> & H). apply (f_equal (lookup sid)) in H. by rewrite !lookup_fmap in H. Qed.

#[export] Instance block_log_proper sid : Proper (same_block ==> (=)) (block_log sid).
Proof.
  intros b b' H%(same_block_lookup _ _ sid). unfold block_log.
  destruct (lb_map b !! sid), (lb_map b' !! sid); naive_solver.
Qed.

#[export] Instance stream_range_proper : Proper (same_block ==> (=) ==> (=)) stream_range.
Proof.
  intros b b' H sid ? <-. apply (same_block_lookup _ _ sid) in H. unfold stream_range, sc_range.
  destruct (lb_map b !! sid) as [c|], (lb_map b' !! sid) as [c'|]; cbn in *; try done.
  injection H as _ -> ->. done.
Qed.

Lemma blocks_log_proper sid bs bs' : Forall2 same_block bs bs' → blocks_log sid bs = blocks_log sid bs'.
Proof.
  induction 1 as [|b b' bs bs' Hb _ IH]; [done|].
  change (block_log sid b ++ blocks_log sid bs = block_log sid b' ++ blocks_log sid bs').
  by rewrite IH, Hb.
Qed.

Lemma blocks_log_app sid a b : blocks_log sid (a ++ b) = blocks_log sid a ++ blocks_log sid b.
Proof. unfold blocks_log. by rewrite fmap_app, join_app. Qed.

Lemma blocks_log_cons sid b bs : blocks_log sid (b :: bs) = block_log sid b ++ blocks_log sid bs.
Proof. done. Qed.

Lemma block_get_spec sid x en m b :
  lb_ok b →
  ∃ b', block_get sid x en m b = Some (take_until en m (suffix_from x (block_log sid b)), b') ∧
    same_block b b' ∧ lb_ok b'.
Proof.
  intros Hok. unfold block_get, block_log. destruct (lb_map b !! sid) as [c|] eqn:E; cbn.
  2:{ exists b. split; [done|]. split; [reflexivity|done]. }
  destruct (sc_get_spec x en m c (Hok _ _ E)) as (idx & -> & Hc). cbn.
  eexists. split; [done|]. split.
  - eexists. split; [done|]. rewrite fmap_insert. symmetry. apply insert_id.
    by rewrite lookup_fmap, E.
  - intros sid' c'. cbn. intros [[<- <-]|[_ ?]]%lookup_insert_Some; [done|by eapply Hok].
Qed.

Lemma get_blocks_spec sid en x m bs s e :
  Forall lb_ok bs → contig s (blocks_log sid bs) e → 0 <= m →
  ∃ bs', get_blocks sid en x m bs =
      Some (take_until en m (suffix_from x (blocks_log sid bs)),
            fulfilled en m (suffix_from x (blocks_log sid bs)), bs') ∧
    Forall2 same_block bs bs' ∧ Forall lb_ok bs'.
Proof.
  intros Hok. revert x m s. induction Hok as [|b bs Hb Hbs IH]; intros x m s Hc Hm.
  { by exists []. }
  cbn [get_blocks]. destruct (block_get_spec sid x en m b Hb) as (b' & -> & Hbb & Hb').
  cbn [mbind option_bind]. rewrite blocks_log_cons in *. rewrite suffix_from_split.
  apply contig_app in Hc as (mid & Ha & Hc).
  destruct (suffix_from x (block_log sid b)) as [|r0 rs0] eqn:Es.
  - cbn [take_until last]. destruct (IH x m mid Hc Hm) as (bs' & -> & ? & ?). cbn.
    exists (b' :: bs'). auto.
  - destruct (last (take_until en m (r0 :: rs0))) as [l|] eqn:El.
    2:{ by apply last_None in El. }
    rewrite (take_until_check _ _ _ _ Hm El).
    destruct (fulfilled en m (r0 :: rs0)) eqn:Ef.
    + destruct (take_until_fulfilled _ _ _ (blocks_log sid bs) Ef) as [-> ->].
      exists (b' :: bs). split; [done|]. split; [constructor; [done|]|by constructor].
      clear. induction bs; constructor; [reflexivity|done].
    + rewrite (take_until_all _ _ _ Ef) in *.
      destruct (take_until_app en m (r0 :: rs0) (blocks_log sid bs) Hm Ef) as [-> ->].
      pose proof (sum_sizes_nonneg (r0 :: rs0)).
      assert (Hmid : last_offset l = mid).
      { destruct (suffix_from_Some x (block_log sid b)) as (i & r & Hi & Hx); [by rewrite Es|].
        rewrite (suffix_from_drop x s _ mid i r) in Es by done.
        eapply contig_last; [exact Ha|].
        rewrite <-(take_drop i (block_log sid b)), Es, last_app, El. done. }
      rewrite Hmid.
      destruct (IH mid (m - Z.min m (sum_Z (batch_size <$> r0 :: rs0))) mid Hc ltac:(lia))
        as (bs' & -> & ? & ?).
      cbn [mbind option_bind]. rewrite (suffix_from_head _ _ _ Hc).
      exists (b' :: bs'). auto.
Qed.

(** A well-formed entry reports the ends of its run. *)
Lemma stream_range_spec sid b s e :
  lb_ok b → contig s (block_log sid b) e →
  stream_range b sid = if decide (block_log sid b = []) then None else Some (s, e).
Proof.
  unfold stream_range, block_log. intros Hok. destruct (lb_map b !! sid) as [c|] eqn:E; cbn; [|done].
  intros Hc. unfold sc_range.
  destruct (sc_ok_inv c (Hok _ _ E)) as [(Hr & Hs & He & _)|(s' & e' & Hne & Hs & He & Hc' & _)].
  - by rewrite Hs, Hr.
  - rewrite Hs, He. rewrite decide_False by done.
    assert (s' = s) as ->.
    { destruct (sc_records c); [done|]. cbn in *. destruct Hc as (? & _), Hc' as (? & _). congruence. }
    by rewrite (contig_fun _ _ _ _ Hc Hc').
Qed.

Lemma tail_start_spec sid bs s m cur :
  Forall lb_ok bs → contig s (blocks_log sid bs) m → (cur = None ∨ cur = Some m) →
  tail_start sid cur (reverse bs) = if decide (blocks_log sid bs = []) then cur else Some s.
Proof.
  revert m cur. induction bs as [|b bs IH] using rev_ind; intros m cur Hok Hc Hcur; [done|].
  rewrite reverse_snoc. cbn [tail_start]. rewrite blocks_log_app in *.
  apply Forall_app in Hok as [Hok Hb]. rewrite Forall_singleton in Hb.
  replace (blocks_log sid [b]) with (block_log sid b) in * by by rewrite blocks_log_cons, app_nil_r.
  apply contig_app in Hc as (mid & Hc & Hcb). rewrite (stream_range_spec _ _ _ _ Hb Hcb).
  destruct (decide (block_log sid b = [])) as [E|E].
  - rewrite E in *. cbn in Hcb. subst mid. rewrite app_nil_r. by apply (IH m).
  - assert (Hmid : tail_start sid (Some mid) (reverse bs) = Some s).
    { rewrite (IH mid) by auto. destruct (decide (blocks_log sid bs = [])) as [E'|]; [|done].
      rewrite E' in Hc. cbn in Hc. by rewrite Hc. }
    rewrite decide_False by (intros [_ ?]%app_eq_nil; done).
    destruct Hcur as [->| ->]; [done|]. by rewrite Z.eqb_refl.
Qed.

(** The documented lookup: the whole request when it is cached from its
    start, else the cached tail when it begins inside the request and
    reaches its end. *)
Definition lookup_spec (L : list StreamRecordBatch) (x en m : Z) : list StreamRecordBatch :=
  if fulfilled en m (suffix_from x L) then take_until en m (suffix_from x L)
  else
    match L with
    | [] => []
    | r :: _ => if (x <? base_offset r) && (base_offset r <? en) && fulfilled en m L
                then take_until en m L else []
    end.

Lemma get0_spec bs sid x en m s e :
  Forall lb_ok bs → contig s (blocks_log sid bs) e → 0 <= m →
  ∃ bs', get0 GET0_CALLS bs sid x en m = Some (lookup_spec (blocks_log sid bs) x en m, bs') ∧
    Forall2 same_block bs bs' ∧ Forall lb_ok bs'.
Proof.
  intros Hok Hc Hm. unfold GET0_CALLS, lookup_spec. cbn [get0].
  destruct (get_blocks_spec sid en x m bs s e Hok Hc Hm) as (bs1 & -> & Hsame & Hok1).
  cbn [mbind option_bind]. destruct (fulfilled en m (suffix_from x _)); [by exists bs1|].
  pose proof (blocks_log_proper sid _ _ Hsame) as Hlog. rewrite Hlog in *.
  rewrite (tail_start_spec sid bs1 s e None) by auto.
  destruct (blocks_log sid bs1) as [|r rs] eqn:Er; [rewrite decide_True by done; by exists bs1|].
  rewrite decide_False by done. rewrite <-Er in *.
  assert (Hs : base_offset r = s) by (rewrite Er in Hc; apply Hc). rewrite Hs.
  destruct (Z.leb_spec en s); destruct (Z.ltb_spec s en); try lia.
  { rewrite andb_false_r. by exists bs1. }
  destruct (Z.leb_spec s x); destruct (Z.ltb_spec x s); try lia; [by exists bs1|]. cbn [andb].
  destruct (get_blocks_spec sid en s m bs1 s e Hok1 Hc Hm) as (bs2 & -> & Hsame2 & Hok2).
  cbn [mbind option_bind]. rewrite (suffix_from_head _ _ _ Hc).
  exists bs2. assert (Forall2 same_block bs bs2) by by etransitivity.
  destruct (fulfilled en m (blocks_log sid bs1)); [done|].
  pose proof (blocks_log_proper sid _ _ Hsame2) as Hlog2. rewrite Hlog2 in *.
  rewrite (tail_start_spec sid bs2 s e None) by auto. rewrite Er, decide_False by done.
  destruct (Z.leb_spec en s); [lia|]. by rewrite Z.leb_refl.
Qed.

(** ** Invariant *)
Record lc_ok (c : LogCache) : Prop := {
  ok_active : ∃ pre a, lc_blocks c = pre ++ [a] ∧ lb_free a = false;
  ok_ids : NoDup (lb_id <$> lc_blocks c);
  ok_fresh : Forall (λ b, (lb_id b < lc_next_block_id c)%nat) (lc_blocks c);
  ok_blocks : Forall lb_ok (lc_blocks c);
  ok_contig : ∀ sid, ∃ s e, contig s (cached_log c sid) e;
}.

(** The blocks whose upload has not committed, the active one last. *)
Definition pending_blocks (c : LogCache) : list LogCacheBlock :=
  filter (λ b, lb_free b = false) (lc_blocks c).

Definition ends_at (rs : list StreamRecordBatch) (x : Z) : Prop :=
  ∀ s e, rs ≠ [] → contig s rs e → e = x.

(** What the cache expects of a record: its stream continues where the
    cached records of it end. *)
Definition put_ok (c : LogCache) (r : StreamRecordBatch) : Prop :=
  base_offset r < last_offset r ∧ ends_at (cached_log c (stream_id r)) (base_offset r).

(** A cache with some leading free blocks released. *)
Definition released (c c' : LogCache) : Prop :=
  ∃ gone n rel notes,
    c' = c <| lc_blocks := drop (length gone) (lc_blocks c) |> <| lc_size := n |>
           <| lc_released := rel |> <| lc_notified := notes |> ∧
    take (length gone) (lc_blocks c) = gone ∧ Forall (λ b, lb_free b = true) gone.

Lemma release_loop_spec c cur freed bs removed total stay :
  release_loop c cur freed bs = (removed, total, stay) →
  bs = removed ++ stay ∧ Forall (λ b, lb_free b = true) removed ∧
  wrap_u64 total = wrap_u64 (freed + sum_Z (lb_size <$> removed)).
Proof.
  revert freed removed total stay.
  induction bs as [|b bs IH]; intros freed removed total stay; cbn [release_loop].
  { intros [= <- <- <-]. cbn. by rewrite Z.add_0_r. }
  destruct (negb (over _ _ _)); [intros [= <- <- <-]; cbn; by rewrite Z.add_0_r|].
  destruct (lb_free b) eqn:Eb; cbn [negb]; [|intros [= <- <- <-]; cbn; by rewrite Z.add_0_r].
  destruct (release_loop _ _ _ bs) as [[rem tot] st] eqn:E. intros [= <- <- <-].
  apply IH in E as (-> & ? & Htot). split; [done|]. split; [by constructor|].
  rewrite Htot. cbn. unfold wrap_u64. rewrite Zplus_mod_idemp_l. f_equal. lia.
Qed.

Lemma try_real_free_released c : released c (try_real_free c).
Proof.
  unfold try_real_free. destruct (negb _).
  { exists [], (lc_size c), (lc_released c), (lc_notified c). by destruct c. }
  destruct (release_loop _ _ _ _) as [[gone n] stay] eqn:E.
  apply release_loop_spec in E as (Hb & Hfree & _).
  exists gone. eexists _, _, _. rewrite Hb at 1 2. rewrite drop_app_length, take_app_length. auto.
Qed.

Lemma released_parts c c' :
  released c c' → ∃ gone, lc_blocks c = gone ++ lc_blocks c' ∧ Forall (λ b, lb_free b = true) gone ∧
    lc_next_block_id c' = lc_next_block_id c.
Proof.
  intros (gone & n & rel & notes & -> & Ht & Hf). exists gone. cbn. split; [|done].
  rewrite <-Ht at 1. by rewrite take_drop.
Qed.

Lemma released_ok c c' : released c c' → lc_ok c → lc_ok c'.
Proof.
  intros (gone & Hb & Hfree & Hid)%released_parts [Hact Hnd Hfr Hok Hc]. split.
  - destruct Hact as (pre & a & Ha & Hna). rewrite Ha in Hb.
    destruct (lc_blocks c') as [|b bs _] eqn:E using rev_ind.
    { rewrite app_nil_r in Hb. subst gone. apply Forall_app in Hfree as [_ Hfa].
      rewrite Forall_singleton in Hfa. congruence. }
    rewrite app_assoc in Hb. apply app_inj_tail in Hb as [_ <-]. by exists bs, a.
  - rewrite Hb, fmap_app in Hnd. by apply NoDup_app in Hnd as (_ & _ & ?).
  - rewrite Hid. rewrite Hb in Hfr. by apply Forall_app in Hfr as [_ ?].
  - rewrite Hb in Hok. by apply Forall_app in Hok as [_ ?].
  - intros sid. destruct (Hc sid) as (s & e & H). unfold cached_log in *.
    rewrite Hb, blocks_log_app in H. apply contig_app in H as (m & _ & ?). eauto.
Qed.

Lemma released_pending c c' : released c c' → pending_blocks c' = pending_blocks c.
Proof.
  intros (gone & Hb & Hfree & _)%released_parts. unfold pending_blocks. rewrite Hb, filter_app.
  rewrite (filter_none _ gone); [done|]. intros b Hin. rewrite Forall_forall in Hfree.
  rewrite (Hfree b Hin). done.
Qed.

(** A stream's log loses at most its oldest records. *)
Lemma released_log c c' sid :
  released c c' → ∃ gone, cached_log c sid = gone ++ cached_log c' sid.
Proof.
  intros (gone & Hb & _)%released_parts. exists (blocks_log sid gone).
  unfold cached_log. by rewrite Hb, blocks_log_app.
Qed.

Lemma ends_at_suffix a b x s e : contig s (a ++ b) e → ends_at (a ++ b) x → ends_at b x.
Proof.
  intros Hc H s' e' Hne Hb. apply (H s e'); [by intros [_ ?]%app_eq_nil|].
  apply contig_app in Hc as (m & Ha & Hb'). apply contig_app. exists m. split; [done|].
  destruct b; [done|]. destruct Hb as (_ & _ & Hb), Hb' as (Hm & Hlt & _). by split_and!.
Qed.

(** *** Puts *)
Lemma sc_new_ok : sc_ok sc_new.
Proof. done. Qed.

Lemma sc_add_ok r c c' :
  sc_ok c → sc_add r c = Some c' → base_offset r < last_offset r →
  ends_at (sc_records c) (base_offset r) → sc_ok c' ∧ sc_records c' = sc_records c ++ [r].
Proof.
  intros Hok Hadd Hlt Hend. unfold sc_add in Hadd.
  destruct (_ <? _) in Hadd; [done|]. injection Hadd as <-. split; [|done].
  destruct (sc_ok_inv c Hok) as [(Hr & Hs & He & Hm)|(s & e & Hne & Hs & He & Hc & Hidx)].
  - rewrite Hr, Hs, Hm. eapply sc_ok_intro; cbn; [done|done|done|by split_and!|].
    intros x i n H. by rewrite lookup_empty in H.
  - rewrite Hs. pose proof (Hend s e Hne Hc) as ->.
    eapply (sc_ok_intro _ s (last_offset r)); cbn; [by destruct (sc_records c)|done|done|by eapply contig_snoc|].
    intros x i n [Hi Hx]%Hidx. rewrite length_app, take_app_le by done. split; [lia|done].
Qed.

Lemma block_put_ok r b added b' :
  lb_ok b → block_put r b = (added, b') → base_offset r < last_offset r →
  ends_at (block_log (stream_id r) b) (base_offset r) →
  lb_ok b' ∧ lb_id b' = lb_id b ∧ lb_free b' = lb_free b ∧
  (∀ sid, block_log sid b' =
     block_log sid b ++ (if added && (sid =? stream_id r) then [r] else [])) ∧
  wrap_u64 (lb_size b') = wrap_u64 (lb_size b + (if added then occupied_size r else 0)).
Proof.
  intros Hok Hput Hlt Hend. unfold block_put in Hput. unfold block_log in *.
  destruct (is_full b).
  { injection Hput as <- <-. split_and!; [done..|intros; by rewrite app_nil_r|by rewrite Z.add_0_r]. }
  set (cache := default sc_new (lb_map b !! stream_id r)) in *.
  assert (Hcache : sc_ok cache).
  { unfold cache. destruct (lb_map b !! stream_id r) eqn:E; [by eapply Hok|apply sc_new_ok]. }
  assert (Hrec : from_option sc_records [] (lb_map b !! stream_id r) = sc_records cache).
  { unfold cache. by destruct (lb_map b !! stream_id r). }
  destruct (sc_add r cache) as [cache'|] eqn:Ea; injection Hput as <- <-; cbn.
  - rewrite Hrec in Hend. destruct (sc_add_ok _ _ _ Hcache Ea Hlt Hend) as [Hok' Hr'].
    split_and!; [|done|done| |by rewrite wrap_u64_id by auto with ints].
    + intros sid c. cbn. intros [[<- <-]|[_ ?]]%lookup_insert_Some; [done|by eapply Hok].
    + intros sid. destruct (Z.eqb_spec sid (stream_id r)) as [->|].
      * by rewrite lookup_insert_eq, Hrec.
      * by rewrite lookup_insert_ne, app_nil_r by done.
  - split_and!; [|done|done| |by rewrite Z.add_0_r].
    + intros sid c. cbn. intros [[<- <-]|[_ ?]]%lookup_insert_Some; [done|by eapply Hok].
    + intros sid. rewrite app_nil_r. destruct (decide (sid = stream_id r)) as [->|].
      * by rewrite lookup_insert_eq, Hrec.
      * by rewrite lookup_insert_ne by done.
Qed.

Lemma last_snoc_inv {A} (pre : list A) a : last (pre ++ [a]) = Some a ∧ removelast (pre ++ [a]) = pre.
Proof. by rewrite last_snoc, removelast_last. Qed.

(** Replacing the active block by one with the same identity. *)
Lemma lc_ok_active c pre a a' n :
  lc_ok c → lc_blocks c = pre ++ [a] → lb_ok a' → lb_id a' = lb_id a → lb_free a' = false →
  (∀ sid, ∃ s e, contig s (blocks_log sid pre ++ block_log sid a') e) →
  lc_ok (c <| lc_blocks := pre ++ [a'] |> <| lc_size := n |>).
Proof.
  intros [Hact Hnd Hfr Hok Hc] Hb Hok' Hid Hfree Hlog. rewrite Hb in *.
  apply Forall_app in Hok as [Hok _]. apply Forall_app in Hfr as [Hfr Ha]. rewrite Forall_singleton in Ha.
  split; cbn.
  - by exists pre, a'.
  - rewrite fmap_app in *. cbn in *. by rewrite Hid.
  - apply Forall_app. split; [done|]. rewrite Forall_singleton. by rewrite Hid.
  - apply Forall_app. by rewrite Forall_singleton.
  - intros sid. unfold cached_log. cbn. rewrite blocks_log_app, blocks_log_cons, app_nil_r. apply Hlog.
Qed.

Lemma lc_put_spec r c :
  lc_ok c → put_ok c r →
  ∃ c1 pre a added a' n, released c c1 ∧ lc_blocks c1 = pre ++ [a] ∧ lb_free a = false ∧
    block_put r a = (added, a') ∧ lb_ok a' ∧ lb_id a' = lb_id a ∧ lb_free a' = false ∧
    lc_put r c = Some (added, c1 <| lc_blocks := pre ++ [a'] |> <| lc_size := n |>) ∧
    lc_ok (c1 <| lc_blocks := pre ++ [a'] |> <| lc_size := n |>) ∧
    n = (if added then wrap_u64 (lc_size c1 + occupied_size r) else lc_size c1) ∧
    c1 = try_real_free c ∧
    (∀ sid, block_log sid a' = block_log sid a ++ (if added && (sid =? stream_id r) then [r] else [])).
Proof.
  intros Hok [Hlt Hend]. pose proof (try_real_free_released c) as Hrel.
  unfold lc_put. set (c1 := try_real_free c) in *. clearbody c1.
  pose proof (released_ok _ _ Hrel Hok) as Hok1. destruct (ok_active _ Hok1) as (pre & a & Hb & Hfree).
  rewrite Hb. destruct (last_snoc_inv pre a) as [-> ->]. cbn [mbind option_bind].
  destruct (block_put r a) as [added a'] eqn:Ep.
  assert (Hlog : ∀ sid, cached_log c1 sid = blocks_log sid pre ++ block_log sid a).
  { intros. unfold cached_log. by rewrite Hb, blocks_log_app, blocks_log_cons, app_nil_r. }
  assert (Hend1 : ends_at (cached_log c1 (stream_id r)) (base_offset r)).
  { destruct (released_log _ _ (stream_id r) Hrel) as [gone Hg].
    destruct (ok_contig _ Hok (stream_id r)) as (s & e & Hc). rewrite Hg in *. by eapply ends_at_suffix. }
  destruct (ok_contig _ Hok1 (stream_id r)) as (s & e & Hc). rewrite Hlog in Hc, Hend1.
  pose proof (ok_blocks _ Hok1) as Hblk. rewrite Hb in Hblk. apply Forall_app in Hblk as [_ Ha].
  rewrite Forall_singleton in Ha.
  destruct (block_put_ok _ _ _ _ Ha Ep Hlt (ends_at_suffix _ _ _ _ _ Hc Hend1))
    as (Ha' & Hid & Hfr & Hlog' & _). rewrite Hfree in Hfr.
  eexists c1, pre, a, added, a', _. split_and!; try done.
  eapply lc_ok_active; try done. intros sid. rewrite Hlog'.
  destruct added; cbn [andb]; [|rewrite app_nil_r, <-Hlog; apply (ok_contig _ Hok1)].
  destruct (Z.eqb_spec sid (stream_id r)) as [->|]; [|rewrite app_nil_r, <-Hlog; apply (ok_contig _ Hok1)].
  rewrite app_assoc. destruct (decide (blocks_log (stream_id r) pre ++ block_log (stream_id r) a = [])) as [->|Hne].
  - exists (base_offset r), (last_offset r). by cbn.
  - exists s, (last_offset r). apply contig_snoc with e; [done| |]; pose proof (Hend1 s e Hne Hc); lia.
Qed.

(** *** Sealing *)
Lemma archive_spec c :
  lc_ok c →
  ∃ pre a block, lc_blocks c = pre ++ [a] ∧ lb_free a = false ∧
    block = a <| lb_last_record_offset := match lc_last_record_offset c with
                                          | Some o => Some o | None => lb_last_record_offset a end |> ∧
    archive_current_block c = Some (block,
      c <| lc_blocks := pre ++ [block; block_new (lc_next_block_id c) (lc_block_max_size c)
                                         (lc_max_stream_count c)] |>
        <| lc_next_block_id := S (lc_next_block_id c) |>).
Proof.
  intros Hok. destruct (ok_active _ Hok) as (pre & a & Hb & Hfree).
  unfold archive_current_block. rewrite Hb. destruct (last_snoc_inv pre a) as [-> ->].
  cbn [mbind option_bind]. eexists pre, a, _. split_and!; [done..|].
  destruct (lc_last_record_offset c); [done|]. by destruct a.
Qed.

Lemma block_new_ok id m n : lb_ok (block_new id m n).
Proof. intros sid c. cbn. by rewrite lookup_empty. Qed.

Lemma block_log_new sid id m n : block_log sid (block_new id m n) = [].
Proof. unfold block_log. cbn. by rewrite lookup_empty. Qed.

Lemma block_log_ext sid b b' : lb_map b = lb_map b' → block_log sid b = block_log sid b'.
Proof. unfold block_log. by intros ->. Qed.

Lemma archive_ok c block c' : lc_ok c → archive_current_block c = Some (block, c') → lc_ok c'.
Proof.
  intros Hok Ha. destruct (archive_spec c Hok) as (pre & a & block' & Hb & Hfree & Hbl & Ha').
  rewrite Ha' in Ha. injection Ha as -> <-. destruct Hok as [_ Hnd Hfr Hok Hc]. rewrite Hb in *.
  assert (Hsame : lb_id block = lb_id a ∧ lb_map block = lb_map a) by by rewrite Hbl.
  destruct Hsame as [Hid Hmap]. apply Forall_app in Hok as [Hok Ha]. rewrite Forall_singleton in Ha.
  apply Forall_app in Hfr as [Hfr Hfa]. rewrite Forall_singleton in Hfa.
  split; cbn.
  - eexists (pre ++ [block]), _. by rewrite <-app_assoc.
  - rewrite fmap_app in *. cbn in *. rewrite Hid.
    change [lb_id a; lc_next_block_id c] with ([lb_id a] ++ [lc_next_block_id c]).
    rewrite app_assoc. apply NoDup_app. split; [done|]. split; [|apply NoDup_singleton].
    intros x Hx ->%list_elem_of_singleton. apply elem_of_app in Hx as [Hx|Hx].
    + apply list_elem_of_fmap in Hx as (b & Hid' & Hin). rewrite Forall_forall in Hfr. specialize (Hfr b Hin). lia.
    + apply list_elem_of_singleton in Hx. lia.
  - apply Forall_app. split; [eapply Forall_impl; [exact Hfr|cbn; lia]|].
    repeat constructor; cbn; lia.
  - apply Forall_app. split; [done|]. constructor; [by intros sid x; rewrite Hmap; apply Ha|].
    constructor; [apply block_new_ok|done].
  - intros sid. destruct (Hc sid) as (s & e & H). exists s, e. unfold cached_log in *. cbn.
    rewrite Hb in H. rewrite !blocks_log_app, !blocks_log_cons in *. cbn.
    by rewrite block_log_new, (block_log_ext _ _ _ Hmap).
Qed.

Lemma wrap_add_l a b : wrap_u64 (wrap_u64 a + b) = wrap_u64 (a + b).
Proof. apply Zplus_mod_idemp_l. Qed.
Lemma wrap_add_r a b : wrap_u64 (a + wrap_u64 b) = wrap_u64 (a + b).
Proof. apply Zplus_mod_idemp_r. Qed.
Lemma wrap_sub_r a b : wrap_u64 (a - wrap_u64 b) = wrap_u64 (a - b).
Proof. apply Zminus_mod_idemp_r. Qed.

(** *** Merging *)
Lemma merged_lookup id l r sid :
  lb_map (merged_block id l r) !! sid =
  merge_stream (merge_stream None (lb_map l !! sid)) (lb_map r !! sid).
Proof.
  unfold merged_block, merge_block. cbn. rewrite !lookup_merge, lookup_empty.
  by destruct (lb_map l !! sid), (lb_map r !! sid).
Qed.

Lemma merged_log id l r sid : block_log sid (merged_block id l r) = block_log sid l ++ block_log sid r.
Proof.
  unfold block_log. rewrite merged_lookup.
  destruct (lb_map l !! sid), (lb_map r !! sid); cbn; by rewrite ?app_nil_r.
Qed.

(** Entries of both blocks meet: the streams continue, or both are empty. *)
Lemma continuous_ends l r sid cl cr :
  is_discontinuous l r = false → lb_map l !! sid = Some cl → lb_map r !! sid = Some cr →
  sc_end_offset cl = sc_start_offset cr.
Proof.
  intros Hd Hl Hr. apply elem_of_map_to_list in Hl.
  destruct (decide (sc_end_offset cl = sc_start_offset cr)) as [|Hne]; [done|]. exfalso.
  apply not_true_iff_false in Hd. apply Hd, existsb_exists. exists (sid, cl).
  split; [by apply list_elem_of_In|]. cbn. rewrite Hr. by rewrite bool_decide_eq_false_2.
Qed.

Lemma sc_ok_no_index c : sc_ok c → sc_ok (c <| sc_offset_index_map := ∅ |>).
Proof.
  intros [(?&?&?&?)|(s & e & ? & ? & ? & ? & ?)]%sc_ok_inv.
  - destruct c; cbn in *. by subst.
  - by eapply (sc_ok_intro _ s e).
Qed.

Lemma merged_ok id l r :
  lb_ok l → lb_ok r → is_discontinuous l r = false →
  (∀ sid, ∃ s e, contig s (block_log sid l ++ block_log sid r) e) →
  lb_ok (merged_block id l r).
Proof.
  intros Hl Hr Hd Hc sid c. rewrite merged_lookup. specialize (Hc sid). unfold block_log in Hc.
  destruct (lb_map l !! sid) as [cl|] eqn:El, (lb_map r !! sid) as [cr|] eqn:Er; cbn in *; try done.
  - intros [= <-]. pose proof (continuous_ends _ _ _ _ _ Hd El Er) as Hmeet.
    destruct (sc_ok_inv _ (Hl _ _ El)) as [(Hlr & Hls & Hle & _)|(s & e & Hlne & Hls & Hle & Hlc & _)],
      (sc_ok_inv _ (Hr _ _ Er)) as [(Hrr & Hrs & Hre & _)|(s' & e' & Hrne & Hrs & Hre & Hrc & _)];
      try congruence.
    + unfold sc_ok. cbn. by rewrite Hlr, Hrr.
    + assert (e = s') as -> by congruence.
      eapply (sc_ok_intro _ s e'); cbn; [by destruct (sc_records cl)|done|done| |done].
      apply contig_app. eauto.
  - intros [= <-]. apply (sc_ok_no_index cl), (Hl _ _ El).
  - intros [= <-]. apply (sc_ok_no_index cr), (Hr _ _ Er).
Qed.

(** A cache after a number of merges of neighbouring free blocks. *)
Inductive merges : LogCache → LogCache → Prop :=
| merges_refl c : merges c c
| merges_step c c' pre l r post :
    lc_blocks c = pre ++ l :: r :: post → lb_free l = true → lb_free r = true →
    is_discontinuous l r = false →
    merges (c <| lc_blocks := pre ++ merged_block (lc_next_block_id c) l r :: post |>
              <| lc_next_block_id := S (lc_next_block_id c) |>) c' →
    merges c c'.

Lemma merge_loop_merges fuel i c : merges c (merge_loop fuel i c).
Proof.
  revert i c. induction fuel as [|fuel IH]; intros i c; [constructor|]. cbn [merge_loop].
  destruct (_ || _); [constructor|].
  destruct (lc_blocks c !! i) as [l|] eqn:El; [|constructor].
  destruct (lc_blocks c !! (i + 1)%nat) as [r|] eqn:Er; [|constructor].
  destruct (negb _ || negb _) eqn:Ef; [constructor|].
  apply orb_false_iff in Ef as [Hl%negb_false_iff Hr%negb_false_iff].
  destruct (_ <=? _); [apply IH|]. destruct (is_discontinuous l r) eqn:Ed; [apply IH|].
  eapply (merges_step _ _ (take i (lc_blocks c)) l r (drop (i + 2) (lc_blocks c))); [|done..|apply IH].
  rewrite <-(take_drop_middle _ _ _ El) at 1. f_equal. f_equal.
  replace (S i) with (i + 1)%nat by lia. rewrite (drop_S _ _ _ Er). f_equal. f_equal. lia.
Qed.

Lemma merge_step_ok c pre l r post :
  lc_ok c → lc_blocks c = pre ++ l :: r :: post → lb_free l = true → lb_free r = true →
  is_discontinuous l r = false →
  lc_ok (c <| lc_blocks := pre ++ merged_block (lc_next_block_id c) l r :: post |>
           <| lc_next_block_id := S (lc_next_block_id c) |>).
Proof.
  intros [Hact Hnd Hfr Hok Hc] Hb Hl Hr Hd.
  assert (Hlog : ∀ sid, blocks_log sid (lc_blocks c) =
    blocks_log sid (pre ++ merged_block (lc_next_block_id c) l r :: post)).
  { intros sid. rewrite Hb, !blocks_log_app, !blocks_log_cons, merged_log. by rewrite <-app_assoc. }
  rewrite Hb in Hnd, Hfr, Hok. apply Forall_app in Hok as [Hpre Hrest]. apply Forall_cons in Hrest as [Hbl Hrest]. apply Forall_cons in Hrest as [Hbr Hpost].
  split; cbn.
  - destruct Hact as (pre' & a & Ha & Hna). rewrite Hb in Ha.
    destruct post as [|p post' _] using rev_ind.
    { change (pre ++ [l; r]) with (pre ++ [l] ++ [r]) in Ha. rewrite app_assoc in Ha.
      apply app_inj_tail in Ha as [_ <-]. congruence. }
    exists (pre ++ merged_block (lc_next_block_id c) l r :: post'), p. split.
    + by rewrite <-app_assoc.
    + rewrite !app_comm_cons, app_assoc in Ha. by apply app_inj_tail in Ha as [_ <-].
  - rewrite fmap_app in *. cbn in *. apply NoDup_app in Hnd as (H1 & H2 & H3).
    apply NoDup_cons in H3 as [Hnl [Hnr H3]%NoDup_cons]. apply Forall_app in Hfr as [Hf1 Hf2].
    apply NoDup_app. split; [done|]. split.
    + intros x Hx [->|Hin]%elem_of_cons; [|apply (H2 x Hx); set_solver].
      apply list_elem_of_fmap in Hx as (b & Hid & Hin). rewrite Forall_forall in Hf1. specialize (Hf1 b Hin). lia.
    + apply NoDup_cons. split; [|done]. intros Hx. apply list_elem_of_fmap in Hx as (b & Hid & Hin).
      rewrite Forall_forall in Hf2. specialize (Hf2 b ltac:(set_solver)). lia.
  - apply Forall_app in Hfr as [Hf1 Hf2]. apply Forall_cons in Hf2 as [_ Hf2]. apply Forall_cons in Hf2 as [_ Hf2].
    apply Forall_app. split; [eapply Forall_impl; [exact Hf1|cbn; lia]|].
    constructor; [cbn; lia|]. eapply Forall_impl; [exact Hf2|cbn; lia].
  - apply Forall_app. split; [done|]. constructor; [|done]. apply merged_ok; try done.
    intros sid. destruct (Hc sid) as (s & e & H). unfold cached_log in H.
    rewrite Hb, blocks_log_app, !blocks_log_cons in H.
    apply contig_app in H as (m & _ & H). rewrite app_assoc in H. apply contig_app in H as (m' & H & _). eauto.
  - intros sid. destruct (Hc sid) as (s & e & H). exists s, e. unfold cached_log in *. cbn. by rewrite <-Hlog.
Qed.

Lemma merges_ok c c' : merges c c' → lc_ok c → lc_ok c'.
Proof. induction 1; [done|]. intros. apply IHmerges. by apply merge_step_ok. Qed.

Lemma merges_keep c c' :
  merges c c' → pending_blocks c' = pending_blocks c ∧ (∀ sid, cached_log c' sid = cached_log c sid) ∧
  lc_size c' = lc_size c ∧ lc_capacity c' = lc_capacity c ∧
  lc_last_record_offset c' = lc_last_record_offset c ∧
  wrap_u64 (sum_Z (lb_size <$> lc_blocks c')) = wrap_u64 (sum_Z (lb_size <$> lc_blocks c)).
Proof.
  induction 1 as [|c c' pre l r post Hb Hl Hr Hd _ IH]; [done|].
  destruct IH as (-> & Hlog & -> & -> & -> & ->). unfold pending_blocks. cbn. rewrite Hb.
  split_and!; [|intros sid; rewrite Hlog|done..|].
  - rewrite !filter_app. f_equal. rewrite !filter_cons. cbn. by rewrite Hl, Hr.
  - unfold cached_log. cbn. rewrite Hb, !blocks_log_app, !blocks_log_cons, merged_log.
    by rewrite <-app_assoc.
  - rewrite !fmap_app, !sum_Z_app. cbn. rewrite Z.add_shuffle3, wrap_add_l, <-Z.add_assoc, wrap_add_l.
    f_equal. lia.
Qed.

(** *** Every operation keeps the invariant *)
Lemma last_fmap_Some {A B} (f : A → B) l y : last (f <$> l) = Some y → ∃ x, last l = Some x ∧ y = f x.
Proof. rewrite fmap_last. destruct (last l); [|done]. cbn. intros [= <-]. eauto. Qed.

Lemma blocks_log_fmap sid (f : LogCacheBlock → LogCacheBlock) bs :
  (∀ b, block_log sid (f b) = block_log sid b) → blocks_log sid (f <$> bs) = blocks_log sid bs.
Proof. intros Hf. induction bs as [|b bs IH]; [done|]. cbn. by rewrite !blocks_log_cons, Hf, IH. Qed.

Lemma blocks_log_fmap_nil sid (f : LogCacheBlock → LogCacheBlock) bs : (∀ b, block_log sid (f b) = []) → blocks_log sid (f <$> bs) = [].
Proof. intros Hf. induction bs as [|b bs IH]; [done|]. cbn. by rewrite blocks_log_cons, Hf, IH. Qed.

Lemma lc_ok_map (f : LogCacheBlock → LogCacheBlock) c n :
  lc_ok c → (∀ b, lb_id (f b) = lb_id b) → (∀ b, lb_ok b → lb_ok (f b)) →
  (∀ a, last (lc_blocks c) = Some a → lb_free (f a) = lb_free a) →
  (∀ sid, (∀ b, block_log sid (f b) = block_log sid b) ∨ (∀ b, block_log sid (f b) = [])) →
  lc_ok (c <| lc_blocks := f <$> lc_blocks c |> <| lc_size := n |>).
Proof.
  intros [(pre & a & Hb & Ha) Hnd Hfr Hok Hc] Hid Hfok Hfree Hlog. split; cbn.
  - exists (f <$> pre), (f a). rewrite Hb, fmap_app. split; [done|].
    rewrite <-Ha. apply Hfree. by rewrite Hb, last_snoc.
  - rewrite <-list_fmap_compose. rewrite (list_fmap_ext _ lb_id); [done|]. intros ? b _. apply Hid.
  - apply Forall_fmap. eapply Forall_impl; [exact Hfr|]. intros b. cbn. by rewrite Hid.
  - apply Forall_fmap. eapply Forall_impl; [exact Hok|apply Hfok].
  - intros sid. unfold cached_log in *. cbn. destruct (Hlog sid).
    + by rewrite blocks_log_fmap.
    + rewrite blocks_log_fmap_nil by done. by exists 0, 0.
Qed.

Lemma lc_ok_map' (f : LogCacheBlock → LogCacheBlock) c :
  lc_ok c → (∀ b, lb_id (f b) = lb_id b) → (∀ b, lb_map (f b) = lb_map b) →
  (∀ a, last (lc_blocks c) = Some a → lb_free (f a) = lb_free a) →
  lc_ok (c <| lc_blocks := f <$> lc_blocks c |>).
Proof.
  intros Hok Hid Hmap Hfree.
  apply (lc_ok_map f c (lc_size c)) in Hok; [by destruct c|done| |done|].
  - intros b Hb sid x. rewrite Hmap. apply Hb.
  - intros sid. left. intros b. by apply block_log_ext.
Qed.

(** The operations; [clr] says whether streams may be cleared. *)
Definition sealed (c : LogCache) (id : nat) : Prop :=
  ∀ a, last (lc_blocks c) = Some a → lb_id a ≠ id.

Inductive lc_step (clr : bool) : LogCache → LogCache → Prop :=
| st_put c r added c' : put_ok c r → lc_put r c = Some (added, c') → lc_step clr c c'
| st_get c sid x en m rs c' :
    0 <= m → lc_get sid x en m c = Some (rs, c') → lc_step clr c c'
| st_archive c b c' : archive_current_block c = Some (b, c') → lc_step clr c c'
| st_archive_if c sid ob c' :
    archive_current_block_if_contains sid c = Some (ob, c') → lc_step clr c c'
| st_mark_free c id : sealed c id → lc_step clr c (mark_free id c)
| st_set_last c o : lc_step clr c (lc_set_last_record_offset o c)
| st_clear c sid : clr = true → lc_step clr c (clear_stream_records sid c)
| st_listener c id l : lc_step clr c (lc_add_free_listener id l c).

Definition lc_reach (clr : bool) (capacity block_max : Z) (streams : nat) (c : LogCache) : Prop :=
  ∃ listener, rtc (lc_step clr) (lc_with_listener capacity block_max streams listener) c.

Lemma lc_new_ok capacity block_max streams listener :
  lc_ok (lc_with_listener capacity block_max streams listener).
Proof.
  split; cbn.
  - by eexists [], _.
  - apply NoDup_singleton.
  - repeat constructor.
  - repeat constructor. apply block_new_ok.
  - intros sid. exists 0, 0. unfold cached_log. cbn. by rewrite blocks_log_cons, block_log_new.
Qed.

Lemma lc_get_spec sid x en m c :
  lc_ok c → 0 <= m →
  ∃ bs, lc_get sid x en m c = Some (lookup_spec (cached_log c sid) x en m, c <| lc_blocks := bs |>) ∧
    Forall2 same_block (lc_blocks c) bs ∧ Forall lb_ok bs.
Proof.
  intros Hok Hm. destruct (ok_contig _ Hok sid) as (s & e & Hc).
  destruct (get0_spec _ sid x en m s e (ok_blocks _ Hok) Hc Hm) as (bs & Hget & Hs & Hb).
  exists bs. unfold lc_get. by rewrite Hget.
Qed.

Lemma same_blocks_ok c bs :
  lc_ok c → Forall2 same_block (lc_blocks c) bs → Forall lb_ok bs → lc_ok (c <| lc_blocks := bs |>).
Proof.
  intros [(pre & a & Hb & Ha) Hnd Hfr _ Hc] Hs Hok.
  assert (Hid : lb_id <$> bs = lb_id <$> lc_blocks c).
  { clear -Hs. induction Hs as [|b b' bs bs' (m & -> & _) _ IH]; [done|]. cbn. by rewrite IH. }
  split; cbn.
  - rewrite Hb in Hs. apply Forall2_app_inv_l in Hs as (bs1 & bs2 & _ & H2 & ->).
    apply Forall2_cons_inv_l in H2 as (a' & ? & (m & -> & _) & ->%Forall2_nil_inv_l & ->).
    eexists bs1, _. done.
  - by rewrite Hid.
  - rewrite Forall_forall in *. intros b Hin.
    assert (Hx : lb_id b ∈ lb_id <$> lc_blocks c) by (rewrite <-Hid; by apply list_elem_of_fmap_2).
    apply list_elem_of_fmap in Hx as (b' & -> & Hin'). by apply Hfr.
  - done.
  - intros sid. unfold cached_log in *. cbn. rewrite <-(blocks_log_proper sid _ _ Hs). apply Hc.
Qed.

Lemma set_free_ok id c : sealed c id → lc_ok c → lc_ok (c <| lc_blocks := set_free id <$> lc_blocks c |>).
Proof.
  intros Hs Hok. apply lc_ok_map'; try done; unfold set_free; intros b; case_decide; try done.
  intros Hl. by destruct (Hs b Hl).
Qed.

Lemma free_stream_log sid b sid' :
  block_log sid' (free_stream sid b).2 = if decide (sid = sid') then [] else block_log sid' b.
Proof.
  unfold free_stream, block_log. destruct (lb_map b !! sid) eqn:E; cbn; case_decide; subst.
  - by rewrite lookup_delete_eq.
  - by rewrite lookup_delete_ne.
  - by rewrite E.
  - done.
Qed.

Lemma lc_step_ok clr c c' : lc_step clr c c' → lc_ok c → lc_ok c'.
Proof.
  intros [c0 r added c0' Hput Hp|c0 sid x en m rs c0' Hm Hg|c0 b c0' Ha|c0 sid ob c0' Ha|c0 id Hs|c0 o
         |c0 sid _|c0 id l] Hok.
  - destruct (lc_put_spec r c0 Hok Hput) as (c1 & pre & a & ad & a' & n & ? & ? & ? & ? & ? & ? & ? & He & Hk & _).
    rewrite He in Hp. by injection Hp as _ <-.
  - destruct (lc_get_spec sid x en m c0 Hok Hm) as (bs & He & Hs & Hb). rewrite He in Hg.
    injection Hg as _ <-. by apply same_blocks_ok.
  - by eapply archive_ok.
  - unfold archive_current_block_if_contains in Ha. destruct (last (lc_blocks c0)); [|done]. cbn in Ha.
    destruct (if sid =? _ then _ else _); [|by injection Ha as _ <-].
    destruct (archive_current_block c0) as [[b c1]|] eqn:E; [|done]. cbn in Ha. injection Ha as _ <-.
    by eapply archive_ok.
  - unfold mark_free. apply (merges_ok _ _ (merge_loop_merges _ _ _)).
    apply (released_ok _ _ (try_real_free_released _)). by apply set_free_ok.
  - destruct Hok. by split.
  - apply lc_ok_map; [done|..].
    + intros b. unfold free_stream. by destruct (lb_map b !! sid).
    + intros b Hb sid' x. unfold free_stream. destruct (lb_map b !! sid); cbn; [|apply Hb].
      intros [_ ?]%lookup_delete_Some. by eapply Hb.
    + intros b _. unfold free_stream. by destruct (lb_map b !! sid).
    + intros sid'. destruct (decide (sid = sid')) as [<-|Hne]; [right|left]; intros b.
      * by rewrite free_stream_log, decide_True.
      * by rewrite free_stream_log, decide_False.
  - apply lc_ok_map'; try done; intros b; case_decide; done.
Qed.

Lemma lc_reach_ok clr capacity block_max streams c :
  lc_reach clr capacity block_max streams c → lc_ok c.
Proof.
  intros [listener H]. remember (lc_with_listener capacity block_max streams listener) as c0 eqn:E.
  assert (Hok : lc_ok c0) by (subst; apply lc_new_ok). clear E.
  induction H as [|c0 c1 c2 Hs _ IH]; [done|]. by eapply IH, lc_step_ok.
Qed.

(** C15: Reads of a cache without gaps are exact. Let every put continue what
    is cached of its stream, as the appends of a stream do (the source logs
    any other put as fatal and goes on, and gaps are not covered here). Then
    in every state the cache can reach, however its blocks were filled,
    sealed, marked free, merged, released or cleared and whatever earlier
    reads memoised, a read returns what the documented lookup gives on the
    stream's cached records taken as one list: the whole request when it is
    cached from its start, otherwise the cached tail when that begins inside
    the request and reaches its end, otherwise nothing. It never panics and
    changes no cached record. *)
Theorem log_cache_read_exact clr capacity block_max streams c sid start_offset end_offset max_bytes :
  lc_reach clr capacity block_max streams c → 0 <= max_bytes →
  ∃ c', lc_get sid start_offset end_offset max_bytes c =
      Some (lookup_spec (cached_log c sid) start_offset end_offset max_bytes, c') ∧
    ∀ sid', cached_log c' sid' = cached_log c sid'.
Proof.
  intros Hok%lc_reach_ok Hm.
  destruct (lc_get_spec sid start_offset end_offset max_bytes c Hok Hm) as (bs & -> & Hs & _).
  eexists. split; [done|]. intros sid'. unfold cached_log. cbn. symmetry. by apply blocks_log_proper.
Qed.

(** ** The byte counter *)
Definition log_bytes (rs : list StreamRecordBatch) : Z := sum_Z (occupied_size <$> rs).

(** The bytes of the records of the streams [D]. *)
Definition lb_bytes (D : gset Z) (b : LogCacheBlock) : Z :=
  sum_Z ((λ sid, log_bytes (block_log sid b)) <$> elements D).

Definition resident_bytes (D : gset Z) (c : LogCache) : Z :=
  sum_Z ((λ sid, log_bytes (cached_log c sid)) <$> elements D).

Definition block_sized (b : LogCacheBlock) : Prop :=
  ∀ D, dom (lb_map b) ⊆ D → wrap_u64 (lb_size b) = wrap_u64 (lb_bytes D b).

Record lc_sized (c : LogCache) : Prop := {
  sized_blocks : Forall block_sized (lc_blocks c);
  sized_total : lc_size c = wrap_u64 (sum_Z (lb_size <$> lc_blocks c));
}.

Lemma sum_Z_plus {A} (f g : A → Z) l :
  sum_Z ((λ x, f x + g x) <$> l) = sum_Z (f <$> l) + sum_Z (g <$> l).
Proof. induction l as [|x l IH]; cbn; lia. Qed.

Lemma sum_Z_ext {A} (f g : A → Z) l : (∀ x, x ∈ l → f x = g x) → sum_Z (f <$> l) = sum_Z (g <$> l).
Proof. induction l as [|x l IH]; intros H; cbn; [done|]. rewrite IH, H by set_solver. done. Qed.

Lemma sum_Z_zero {A} (l : list A) : sum_Z ((λ _, 0) <$> l) = 0.
Proof. induction l; cbn; lia. Qed.

Lemma sum_Z_at (l : list Z) k v :
  NoDup l → k ∈ l → sum_Z ((λ x, if x =? k then v else 0) <$> l) = v.
Proof.
  induction 1 as [|x l Hx Hnd IH]; intros Hk; [by apply not_elem_of_nil in Hk|]. cbn.
  destruct (Z.eqb_spec x k) as [->|Hne].
  - rewrite (sum_Z_ext _ (λ _, 0)); [rewrite sum_Z_zero; lia|]. intros y Hy.
    destruct (Z.eqb_spec y k); [congruence|done].
  - rewrite IH by set_solver. lia.
Qed.

Lemma log_bytes_app a b : log_bytes (a ++ b) = log_bytes a + log_bytes b.
Proof. unfold log_bytes. by rewrite fmap_app, sum_Z_app. Qed.

Lemma resident_bytes_blocks D c :
  resident_bytes D c = sum_Z (lb_bytes D <$> lc_blocks c).
Proof.
  unfold resident_bytes, cached_log. induction (lc_blocks c) as [|b bs IH]; cbn.
  { apply sum_Z_zero. }
  rewrite <-IH. unfold lb_bytes. rewrite <-sum_Z_plus. apply sum_Z_ext. intros sid _.
  by rewrite blocks_log_cons, log_bytes_app.
Qed.

Lemma block_new_sized id m n : block_sized (block_new id m n).
Proof.
  intros D _. unfold lb_bytes. rewrite (sum_Z_ext _ (λ _, 0)), sum_Z_zero; [done|].
  intros sid _. by rewrite block_log_new.
Qed.

Lemma block_put_sized r b added b' :
  block_sized b → lb_ok b → block_put r b = (added, b') → base_offset r < last_offset r →
  ends_at (block_log (stream_id r) b) (base_offset r) → block_sized b'.
Proof.
  intros Hsz Hok Hput Hlt Hend D HD.
  destruct (block_put_ok _ _ _ _ Hok Hput Hlt Hend) as (_ & _ & _ & Hlog & ->).
  assert (Hdom : dom (lb_map b) ⊆ D ∧ (added = true → stream_id r ∈ D)).
  { unfold block_put in Hput. destruct (is_full b); [by simplify_eq|].
    destruct (sc_add r _); simplify_eq; cbn in HD; set_solver. }
  destruct Hdom as [Hdom Hin]. unfold lb_bytes. rewrite <-wrap_add_l, Hsz with D, wrap_add_l by done.
  f_equal. unfold lb_bytes.
  rewrite (sum_Z_ext (λ sid, log_bytes (block_log sid b'))
    (λ sid, log_bytes (block_log sid b) +
      (if sid =? stream_id r then if added then occupied_size r else 0 else 0))).
  - rewrite sum_Z_plus. f_equal. destruct added.
    + rewrite sum_Z_at; [done|apply NoDup_elements|apply elem_of_elements; auto].
    + rewrite (sum_Z_ext _ (λ _, 0)), sum_Z_zero; [done|]. intros x _. by destruct (x =? _).
  - intros sid _. rewrite Hlog, log_bytes_app. f_equal.
    destruct added, (sid =? stream_id r); cbn; unfold log_bytes; cbn; lia.
Qed.

Lemma merged_sized id l r : block_sized l → block_sized r → block_sized (merged_block id l r).
Proof.
  intros Hl Hr D HD.
  assert (Hd : dom (lb_map l) ⊆ D ∧ dom (lb_map r) ⊆ D).
  { split; intros sid [c Hc]%elem_of_dom; apply HD, elem_of_dom; rewrite merged_lookup, Hc;
      [by destruct (lb_map r !! sid)|by destruct (lb_map l !! sid)]. }
  destruct Hd as [Hdl Hdr]. unfold lb_bytes.
  rewrite (sum_Z_ext _ (λ sid, log_bytes (block_log sid l) + log_bytes (block_log sid r)))
    by (intros; by rewrite merged_log, log_bytes_app).
  rewrite sum_Z_plus. fold (lb_bytes D l) (lb_bytes D r).
  rewrite <-wrap_add_l, <-(Hl D Hdl), wrap_add_l, <-wrap_add_r, <-(Hr D Hdr), wrap_add_r.
  cbn. rewrite Z.add_0_l, wrap_add_l. by rewrite wrap_u64_id by auto with ints.
Qed.

Lemma same_block_sized b b' : same_block b b' → block_sized b → block_sized b'.
Proof.
  intros Hs Hb D HD. unfold lb_bytes.
  rewrite (sum_Z_ext _ (λ sid, log_bytes (block_log sid b))) by (intros; by rewrite Hs).
  destruct Hs as (m & -> & Hm). cbn in *. apply Hb.
  rewrite <-(dom_fmap_L sc_view), Hm, dom_fmap_L. done.
Qed.

Lemma released_sized c c' :
  c' = try_real_free c → lc_sized c → lc_sized c'.
Proof.
  intros -> [Hb Ht]. unfold try_real_free. destruct (negb _); [by split|].
  destruct (release_loop _ _ _ _) as [[gone n] stay] eqn:E.
  apply release_loop_spec in E as (Hbs & _ & Hn). rewrite Hbs in Hb. split; cbn.
  - by apply Forall_app in Hb as [_ ?].
  - rewrite Ht, Hbs, fmap_app, sum_Z_app. rewrite <-wrap_sub_r, Hn, wrap_sub_r.
    unfold wrap_u64. rewrite Zminus_mod_idemp_l. f_equal. lia.
Qed.

Lemma merges_sized c c' : merges c c' → lc_sized c → lc_sized c'.
Proof.
  intros Hm [Hb Ht]. split.
  - clear Ht. induction Hm as [|c c' pre l r post Hbs _ _ _ _ IH]; [done|]. apply IH. cbn.
    rewrite Hbs in Hb. apply Forall_app in Hb as [Hpre Hb]. apply Forall_cons in Hb as [Hl Hb].
    apply Forall_cons in Hb as [Hr Hpost]. apply Forall_app. split; [done|].
    constructor; [by apply merged_sized|done].
  - destruct (merges_keep _ _ Hm) as (_ & _ & -> & _ & _ & ->). done.
Qed.

Lemma map_sized (f : LogCacheBlock → LogCacheBlock) c :
  (∀ b, lb_map (f b) = lb_map b) → (∀ b, lb_size (f b) = lb_size b) →
  lc_sized c → lc_sized (c <| lc_blocks := f <$> lc_blocks c |>).
Proof.
  intros Hmap Hsize [Hb Ht]. split; cbn.
  - apply Forall_fmap. eapply Forall_impl; [exact Hb|]. intros b H D. cbn. rewrite Hmap, Hsize. intros HD.
    rewrite (H D HD). unfold lb_bytes. f_equal. apply sum_Z_ext. intros sid _.
    by rewrite (block_log_ext sid (f b) b (Hmap b)).
  - rewrite Ht. f_equal. rewrite <-list_fmap_compose. apply sum_Z_ext. intros b _. by rewrite <-Hsize.
Qed.

Lemma archive_sized c b c' : lc_ok c → archive_current_block c = Some (b, c') → lc_sized c → lc_sized c'.
Proof.
  intros Hok Ha [Hb Ht]. destruct (archive_spec c Hok) as (pre & a & block & Hbs & _ & Hbl & He).
  rewrite He in Ha. injection Ha as _ <-. rewrite Hbs in *. apply Forall_app in Hb as [Hpre Ha].
  rewrite Forall_singleton in Ha. split; cbn.
  - apply Forall_app. split; [done|]. constructor; [|constructor; [apply block_new_sized|done]].
    intros D HD. unfold lb_bytes.
    rewrite (sum_Z_ext _ (λ sid, log_bytes (block_log sid a))).
    + rewrite Hbl in *. by apply Ha.
    + intros sid _. by rewrite (block_log_ext sid block a) by by rewrite Hbl.
  - rewrite Ht, !fmap_app, !sum_Z_app. f_equal. cbn. rewrite Hbl. cbn. lia.
Qed.

Lemma lc_step_sized c c' : lc_step false c c' → lc_ok c → lc_sized c → lc_sized c'.
Proof.
  intros [c0 r added c0' Hput Hp|c0 sid x en m rs c0' Hm Hg|c0 b c0' Ha|c0 sid ob c0' Ha|c0 id Hs|c0 o
         |c0 sid ?|c0 id l] Hok Hsz; [| | | | | |done|].
  - destruct (lc_put_spec r c0 Hok Hput) as
      (c1 & pre & a & ad & a' & n & Hrel & Hb & ? & Hbp & ? & ? & ? & He & Hk & Hn & Hc1 & _).
    rewrite He in Hp. injection Hp as -> <-. apply (released_sized _ _ Hc1) in Hsz as [Hsb Hst].
    pose proof (released_ok _ _ Hrel Hok) as Hok1. pose proof (ok_blocks _ Hok1) as Hblk.
    rewrite Hb in Hsb, Hst, Hblk. apply Forall_app in Hsb as [Hpre Ha]. apply Forall_app in Hblk as [_ Hka].
    rewrite Forall_singleton in Ha, Hka. destruct Hput as [Hlt Hend].
    assert (Hend1 : ends_at (block_log (stream_id r) a) (base_offset r)).
    { destruct (released_log _ _ (stream_id r) Hrel) as [gone Hg].
      destruct (ok_contig _ Hok (stream_id r)) as (s & e & Hc). rewrite Hg in *.
      unfold cached_log in Hc, Hend. rewrite Hb, blocks_log_app, blocks_log_cons, app_nil_r, app_assoc in Hc, Hend.
      by eapply ends_at_suffix. }
    split; cbn.
    + apply Forall_app. split; [done|]. constructor; [|done]. by eapply block_put_sized.
    + destruct (block_put_ok _ _ _ _ Hka Hbp Hlt Hend1) as (_ & _ & _ & _ & Hsize).
      rewrite Hn, Hst, !fmap_app, !sum_Z_app. cbn. rewrite !Z.add_0_r.
      symmetry. rewrite <-wrap_add_r, Hsize, wrap_add_r. destruct added; rewrite ?wrap_add_l; f_equal; lia.
  - destruct (lc_get_spec sid x en m c0 Hok Hm) as (bs & He & Hs & _). rewrite He in Hg.
    injection Hg as _ <-. destruct Hsz as [Hb Ht]. split; cbn.
    + clear -Hs Hb. induction Hs; [done|]. apply Forall_cons in Hb as [? ?].
      constructor; [by eapply same_block_sized|auto].
    + rewrite Ht. f_equal. clear -Hs. induction Hs as [|b b' bs bs' (m & -> & _) _ IH]; [done|]. cbn. by rewrite IH.
  - by eapply archive_sized.
  - unfold archive_current_block_if_contains in Ha. destruct (last (lc_blocks c0)); [|done]. cbn in Ha.
    destruct (if sid =? _ then _ else _); [|by injection Ha as _ <-].
    destruct (archive_current_block c0) as [[b c1]|] eqn:E; [|done]. cbn in Ha. injection Ha as _ <-.
    by eapply archive_sized.
  - unfold mark_free. apply (merges_sized _ _ (merge_loop_merges _ _ _)).
    apply (released_sized _ _ eq_refl). apply map_sized; try done; intros b; unfold set_free; by case_decide.
  - destruct Hsz. by split.
  - apply map_sized; try done; intros b; by case_decide.
Qed.

Lemma lc_reach_sized capacity block_max streams c :
  lc_reach false capacity block_max streams c → lc_sized c.
Proof.
  intros [listener H]. remember (lc_with_listener capacity block_max streams listener) as c0 eqn:E.
  assert (Hok : lc_ok c0) by (subst; apply lc_new_ok).
  assert (Hsz : lc_sized c0).
  { subst. split; cbn; [|done]. repeat constructor. apply block_new_sized. }
  clear E. induction H as [|c0 c1 c2 Hs _ IH]; [done|].
  apply IH; [by eapply lc_step_ok|by eapply lc_step_sized].
Qed.

Lemma sum_wrap_ext {A} (f g : A → Z) l :
  (∀ x, x ∈ l → wrap_u64 (f x) = wrap_u64 (g x)) →
  wrap_u64 (sum_Z (f <$> l)) = wrap_u64 (sum_Z (g <$> l)).
Proof.
  induction l as [|x l IH]; intros H; [done|]. cbn.
  rewrite <-wrap_add_r, IH, wrap_add_r by set_solver.
  by rewrite <-wrap_add_l, H, wrap_add_l by set_solver.
Qed.

(** As long as no stream is cleared, the size counter that admits
    appends and triggers release is, modulo 2^64, the total occupied size of
    the records that can still be read, whatever was sealed, merged or
    released. *)
Theorem size_is_resident_bytes capacity block_max streams c D :
  lc_reach false capacity block_max streams c →
  (∀ b, b ∈ lc_blocks c → dom (lb_map b) ⊆ D) →
  lc_size c = wrap_u64 (resident_bytes D c).
Proof.
  intros [Hb ->]%lc_reach_sized HD. rewrite resident_bytes_blocks. apply sum_wrap_ext.
  intros b Hin. rewrite Forall_forall in Hb. by apply Hb, HD.
Qed.

(** ** Examples *)
Definition demo_rec (sid base : Z) (n : nat) : StreamRecordBatch :=
  new_batch sid 1 base 2 (repeat x00 n).

Definition demo_lc0 : LogCache := lc_new 200 1000 10.
Definition after_put (r : StreamRecordBatch) (c : LogCache) : LogCache :=
  from_option snd c (lc_put r c).
Definition demo_lc1 : LogCache := after_put (demo_rec 7 10 50) demo_lc0.
Definition demo_lc2 : LogCache := after_put (demo_rec 7 12 30) demo_lc1.
Definition demo_lc3 : LogCache := after_put (demo_rec 8 5 90) demo_lc2.
Definition demo_lc4 : LogCache := from_option snd demo_lc3 (archive_current_block demo_lc3).
Definition demo_lc5 : LogCache := after_put (demo_rec 7 14 20) demo_lc4.

Lemma put_ok_empty c r :
  cached_log c (stream_id r) = [] → base_offset r < last_offset r → put_ok c r.
Proof. intros E Hlt. split; [done|]. intros s e. by rewrite E. Qed.

Lemma put_ok_at c r s e :
  contig s (cached_log c (stream_id r)) e → base_offset r = e → e < last_offset r → put_ok c r.
Proof.
  intros Hc <- Hlt. split; [done|]. intros s' e' Hne Hc'.
  destruct (cached_log c (stream_id r)); [done|]. destruct Hc as (_ & _ & Hc), Hc' as (_ & _ & Hc').
  by eapply contig_fun.
Qed.

Lemma demo_lc2_steps clr : rtc (lc_step clr) demo_lc0 demo_lc2.
Proof.
  assert (S1 : lc_step clr demo_lc0 demo_lc1).
  { eapply (st_put _ _ (demo_rec 7 10 50) true); [apply put_ok_empty; [done|vm_compute; done]|].
    vm_compute. done. }
  assert (S2 : lc_step clr demo_lc1 demo_lc2).
  { eapply (st_put _ _ (demo_rec 7 12 30) true); [|vm_compute; done].
    eapply (put_ok_at _ _ 10 12); vm_compute; done. }
  exact (rtc_l _ _ _ _ S1 (rtc_once _ _ S2)).
Qed.

Lemma demo_lc_steps clr : rtc (lc_step clr) demo_lc0 demo_lc5.
Proof.
  assert (S3 : lc_step clr demo_lc2 demo_lc3).
  { eapply (st_put _ _ (demo_rec 8 5 90) true); [|vm_compute; done].
    apply put_ok_empty; vm_compute; done. }
  assert (S4 : lc_step clr demo_lc3 demo_lc4).
  { eapply st_archive. vm_compute. done. }
  assert (S5 : lc_step clr demo_lc4 demo_lc5).
  { eapply (st_put _ _ (demo_rec 7 14 20) true); [|vm_compute; done].
    eapply (put_ok_at _ _ 10 14); vm_compute; done. }
  etransitivity; [apply demo_lc2_steps|].
  exact (rtc_l _ _ _ _ S3 (rtc_l _ _ _ _ S4 (rtc_once _ _ S5))).
Qed.

Lemma log_cache_read_exact_witness :
  ∃ c', lc_get 7 12 16 1000 demo_lc5 = Some ([demo_rec 7 12 30; demo_rec 7 14 20], c').
Proof.
  destruct (log_cache_read_exact true 200 1000 10 demo_lc5 7 12 16 1000) as (c' & He & _).
  - exists false. apply demo_lc_steps.
  - lia.
  - exists c'. rewrite He. vm_compute. done.
Defined.

Lemma size_is_resident_bytes_witness :
  lc_size demo_lc5 = wrap_u64 (resident_bytes {[7; 8]} demo_lc5) ∧ lc_size demo_lc5 = 382.
Proof.
  split; [|done]. apply (size_is_resident_bytes 200 1000 10).
  - exists false. apply demo_lc_steps.
  - intros b Hin%list_elem_of_In.
    assert (Hall : forallb (λ b, bool_decide (dom (lb_map b) ⊆ ({[7; 8]} : gset Z))) (lc_blocks demo_lc5) = true)
      by by vm_compute.
    rewrite forallb_forall in Hall. exact (bool_decide_eq_true_1 _ (Hall b Hin)).
Defined.

(** Clearing a stream takes its bytes off the cache's counter but not
    off the blocks', and releasing the block takes them off again: a cache
    can reach a state that holds no record while its counter stands just
    below 2^64, above any capacity, for good. *)
Theorem cleared_bytes_are_subtracted_twice :
  ∃ c, lc_reach true 200 1000 10 c ∧ (∀ sid, cached_log c sid = []) ∧
    lc_size c = two64 - 176 ∧ lc_capacity c = 200.
Proof.
  set (c1 := after_put (demo_rec 8 5 190) demo_lc2). set (c2 := clear_stream_records 7 c1).
  set (c3 := from_option snd c2 (archive_current_block c2)).
  assert (Hput : put_ok demo_lc2 (demo_rec 8 5 190)) by (apply put_ok_empty; vm_compute; done).
  assert (S1 : lc_step true demo_lc2 c1) by (eapply (st_put _ _ _ true); [exact Hput|by vm_compute]).
  assert (S2 : lc_step true c1 c2) by by constructor.
  assert (S3 : lc_step true c2 c3) by (eapply st_archive; by vm_compute).
  assert (S4 : lc_step true c3 (mark_free 0 c3)).
  { constructor. intros a. vm_compute. intros [= <-]. done. }
  exists (mark_free 0 c3). split; [|split].
  - exists false. etransitivity; [apply demo_lc2_steps|].
    exact (rtc_l _ _ _ _ S1 (rtc_l _ _ _ _ S2 (rtc_l _ _ _ _ S3 (rtc_once _ _ S4)))).
  - intros sid. unfold cached_log. replace (lc_blocks (mark_free 0 c3)) with [block_new 1 1000 10] by by vm_compute.
    by rewrite blocks_log_cons, block_log_new.
  - split; by vm_compute.
Qed.
