(* ===== verification/Upload.v ===== *)
(** * The WAL upload task

    [s3stream-core/src/storage/upload.rs]: a sealed block of the log cache
    becomes objects and one commit request. Streams are split into objects
    of their own when they are large or alone; the rest share a stream-set
    object. The rate limiter only delays and is not modelled. The writes of
    one upload run concurrently on different objects; here they run in the
    order of their object ids. *)

From Stdlib Require Import ZArith Lia.
From Stdlib Require Import Strings.Byte.
From stdpp Require Import base numbers list gmap sorting strings.
From S2P Require Import Prelude StreamTypes RecordCodec ObjectIndex ObjectStore ObjectIO.
From S2P Require Import WalFormat WalWriter LogCache MetaState MetaEffects.

Open Scope Z_scope.
Open Scope rust_scope.

#[local] Arguments base_offset : simpl never.
#[local] Arguments last_offset : simpl never.
#[local] Arguments batch_size : simpl never.
#[local] Arguments occupied_size : simpl never.
#[local] Arguments stream_id : simpl never.

(** The [StreamError]s of the storage pipeline; [EngineMeta] carries one the
    metadata managers returned, [EnginePanic] is an index out of range. *)
Inductive EngineError :=
| EngineWal (e : WalError)
| EngineObject (e : ObjectError)
| EngineMeta (e : StreamError)
| EngineUnexpected (reason : string)
| EngineFastReadFailFast
| EnginePanic.

(** The fields of [S3StorageConfig] the upload reads. *)
Record UploadConfig := {
  uc_stream_split_size : Z;
  uc_object_block_size : Z;
  uc_object_part_size : Z;
}.

Record UploadWalTask := {
  ut_stream_set_object_map : gmap Z (list StreamRecordBatch);
  ut_stream_object_map : gmap Z (list StreamRecordBatch);
  ut_object_block_size : Z;
  ut_object_part_size : Z;
  ut_prepared_object_id : option Z;
  ut_commit_request : option CommitStreamSetObjectRequest;
}.
#[export] Instance UploadWalTask_eta : RecordEta UploadWalTask := λ t,
  Build_UploadWalTask (ut_stream_set_object_map t) (ut_stream_object_map t)
    (ut_object_block_size t) (ut_object_part_size t) (ut_prepared_object_id t)
    (ut_commit_request t).

Definition stream_size (rs : list StreamRecordBatch) : Z := sum_Z (batch_size <$> rs).

Definition is_split (config : UploadConfig) (rs : list StreamRecordBatch) : bool :=
  uc_stream_split_size config <=? stream_size rs.

Definition plan (config : UploadConfig) (records : gmap Z (list StreamRecordBatch)) : UploadWalTask :=
  let '(set_map, obj_map) :=
    if (size records =? 1)%nat then (∅, records)
    else (filter (λ p, is_split config p.2 = false) records,
          filter (λ p, is_split config p.2 = true) records) in
  {| ut_stream_set_object_map := set_map; ut_stream_object_map := obj_map;
     ut_object_block_size := uc_object_block_size config;
     ut_object_part_size := uc_object_part_size config;
     ut_prepared_object_id := None; ut_commit_request := None |}.

Definition object_count (t : UploadWalTask) : nat :=
  size (ut_stream_object_map t) + (if decide (ut_stream_set_object_map t = ∅) then 0 else 1).

Definition PREPARE_TTL_MS : Z := 60 * 60 * 1000.

(** ** The metadata managers as the engine sees them *)
Class EngineMetadata (Mg : Type) := {
  mg_prepare_object : Mg → Z → Z → Mg * result Z StreamError;
  mg_commit_stream_set_object : Mg → CommitStreamSetObjectRequest → Mg * result unit StreamError;
  mg_get_opening_streams : Mg → Mg * result (list StreamMetadata) StreamError;
  mg_close_stream : Mg → Z → Z → Mg * result unit StreamError;
}.

Definition prepare {Mg} `{EngineMetadata Mg} (m : Mg) (t : UploadWalTask) :
    Mg * UploadWalTask * result unit EngineError :=
  let '(m, r) := mg_prepare_object m (Z.of_nat (object_count t)) PREPARE_TTL_MS in
  match r with
  | Err e => (m, t, Err (EngineMeta e))
  | Ok id => (m, t <| ut_prepared_object_id := Some id |>, Ok tt)
  end.

Section Upload.
Context {S W : Type} `{ObjectStorage S W} (writer_bucket_id : W → Z).

(** [records[0].base_offset()] and [records.last().unwrap().last_offset()] *)
Definition record_bounds (rs : list StreamRecordBatch) : option (Z * Z) :=
  first ← head rs; final ← last rs; Some (base_offset first, last_offset final).

Definition write_stream_object (s : S) (object_id sid : Z) (records : list StreamRecordBatch)
    (block_size part_size : Z) : S * result StreamObject EngineError :=
  let '(s, r) := ow_open s object_id block_size part_size default_write_options in
  match r with
  | Err e => (s, Err (EngineObject e))
  | Ok w =>
      let '(s, w, r) := ow_write s w sid records in
      match r with
      | Err e => (s, Err (EngineObject e))
      | Ok _ =>
          match record_bounds records with
          | None => (s, Err EnginePanic)
          | Some (start_offset, end_offset) =>
              let '(s, w, r) := ow_close s w in
              match r with
              | Err e => (s, Err (EngineObject e))
              | Ok _ => (s, Ok {| so_object_id := object_id; so_object_size := ow_object_size w;
                  so_stream_id := sid; so_start_offset := start_offset; so_end_offset := end_offset;
                  so_attributes := attributes_new (writer_bucket_id (ow_writer w)) false false |})
              end
          end
      end
  end.

(** The split objects, ids in ascending stream order from [object_id]. *)
Fixpoint write_stream_objects (s : S) (object_id block_size part_size : Z)
    (streams : list (Z * list StreamRecordBatch)) : S * result (list StreamObject) EngineError :=
  match streams with
  | [] => (s, Ok [])
  | (sid, records) :: streams =>
      let '(s, r) := write_stream_object s object_id sid records block_size part_size in
      match r with
      | Err e => (s, Err e)
      | Ok so =>
          let '(s, r) := write_stream_objects s (wrap_u64 (object_id + 1)) block_size part_size streams in
          (s, let? rest := r in Ok (so :: rest))
      end
  end.

(** The loop over the streams of the stream-set object. *)
Fixpoint write_set_streams (s : S) (w : ObjectWriter W) (streams : list (Z * list StreamRecordBatch)) :
    S * ObjectWriter W * result (list ObjectStreamRange) EngineError :=
  match streams with
  | [] => (s, w, Ok [])
  | (sid, records) :: streams =>
      match record_bounds records with
      | None => (s, w, Err EnginePanic)
      | Some (start_offset, end_offset) =>
          let range := {| osr_stream_id := sid; osr_epoch := u64_max; osr_start_offset := start_offset;
            osr_end_offset := end_offset; osr_size := stream_size records |} in
          let '(s, w, r) := ow_write s w sid records in
          match r with
          | Err e => (s, w, Err (EngineObject e))
          | Ok _ =>
              let '(s, w, r) := write_set_streams s w streams in
              (s, w, let? ranges := r in Ok (range :: ranges))
          end
      end
  end.

(** [sso_future] for a stream-set object that exists: size, attributes,
    ranges. *)
Definition write_stream_set_object (s : S) (object_id block_size part_size : Z)
    (streams : list (Z * list StreamRecordBatch)) :
    S * result (Z * Z * list ObjectStreamRange) EngineError :=
  let '(s, r) := ow_open s object_id block_size part_size default_write_options in
  match r with
  | Err e => (s, Err (EngineObject e))
  | Ok w =>
      let '(s, w, r) := write_set_streams s w streams in
      match r with
      | Err e => (s, Err e)
      | Ok ranges =>
          let '(s, w, r) := ow_close s w in
          match r with
          | Err e => (s, Err (EngineObject e))
          | Ok _ => (s, Ok (ow_object_size w,
              attributes_new (writer_bucket_id (ow_writer w)) false false, ranges))
          end
      end
  end.

Definition upload (s : S) (t : UploadWalTask) : S * UploadWalTask * result unit EngineError :=
  match ut_prepared_object_id t with
  | None => (s, t, Err EnginePanic)
  | Some object_id =>
      let has_set := negb (bool_decide (ut_stream_set_object_map t = ∅)) in
      let set_object_id := if has_set then object_id else NOOP_OBJECT_ID in
      let first_split := if has_set then wrap_u64 (object_id + 1) else object_id in
      let '(s, r) := write_stream_objects s first_split (ut_object_block_size t)
        (ut_object_part_size t) (ord_list (ut_stream_object_map t)) in
      match r with
      | Err e => (s, t, Err e)
      | Ok stream_objects =>
          if set_object_id =? NOOP_OBJECT_ID then
            (s, t <| ut_commit_request := Some {|
               cr_object_id := NOOP_OBJECT_ID; cr_object_size := 0; cr_attributes := 0; cr_stream_ranges := [];
               cr_stream_objects := stream_objects; cr_compacted_object_ids := [] |} |>, Ok tt)
          else
            let '(s, r) := write_stream_set_object s set_object_id (ut_object_block_size t)
              (ut_object_part_size t) (ord_list (ut_stream_set_object_map t)) in
            match r with
            | Err e => (s, t, Err e)
            | Ok (object_size, attributes, ranges) =>
                (s, t <| ut_commit_request := Some {|
                   cr_object_id := set_object_id; cr_object_size := object_size;
                   cr_attributes := attributes; cr_stream_ranges := ranges;
                   cr_stream_objects := stream_objects; cr_compacted_object_ids := [] |} |>, Ok tt)
            end
      end
  end.
End Upload.

Definition commit {Mg} `{EngineMetadata Mg} (m : Mg) (t : UploadWalTask) :
    Mg * result unit EngineError :=
  match ut_commit_request t with
  | None => (m, Err EnginePanic)
  | Some request =>
      let '(m, r) := mg_commit_stream_set_object m request in
      (m, map_err EngineMeta r)
  end.

(** ** What an upload leaves behind *)

(** One object of an upload: the writes it holds and its blocks. *)
Record UploadedObject := {
  uo_id : Z;
  uo_size : Z;
  uo_writes : list (Z * list StreamRecordBatch);
  uo_blocks : list DataBlock;
}.

(** The stream and the offsets a write covers. *)
Definition span_of (p : Z * list StreamRecordBatch) : Z * Z * Z :=
  match record_bounds p.2 with
  | Some (a, b) => (p.1, a, b)
  | None => (p.1, 0, 0)
  end.

Definition describe (o : UploadedObject) : Z * Z * list (Z * Z * Z) :=
  (uo_id o, uo_size o, span_of <$> uo_writes o).

(** The objects a commit request names. *)
Definition set_object (req : CommitStreamSetObjectRequest) : list (Z * Z * list (Z * Z * Z)) :=
  if cr_object_id req =? NOOP_OBJECT_ID then []
  else [(cr_object_id req, cr_object_size req,
         (λ r, (osr_stream_id r, osr_start_offset r, osr_end_offset r)) <$> cr_stream_ranges req)].
Definition split_object (so : StreamObject) : Z * Z * list (Z * Z * Z) :=
  (so_object_id so, so_object_size so, [(so_stream_id so, so_start_offset so, so_end_offset so)]).
Definition request_objects (req : CommitStreamSetObjectRequest) : list (Z * Z * list (Z * Z * Z)) :=
  set_object req ++ (split_object <$> cr_stream_objects req).

Section Frames.
Context {S W : Type} `{ObjectStorageContract S W}.
Implicit Types (s : S) (w : ObjectWriter W).

Lemma upload_parts_frame fuel s w s' w' :
  upload_parts fuel s w = (s', w', Ok tt) → ∀ k, object s' k = object s k.
Proof.
  revert s w. induction fuel as [|fuel IH]; intros s w Hu k; cbn [upload_parts] in Hu; [congruence|].
  destruct (part_prefix _ _ _) as [size taken]. destruct (size <? _); [congruence|].
  destruct (mw_write s (ow_writer w) _) as [[s1 wr] [[]|e]] eqn:Hmw; [|congruence].
  apply part_queued in Hmw as (_ & _ & Hk). rewrite (IH _ _ Hu k). apply Hk.
Qed.

Lemma ow_write_frame s w sid rs s' w' :
  ow_write s w sid rs = (s', w', Ok tt) → ∀ k, object s' k = object s k.
Proof.
  intros Hw k. unfold ow_write in Hw. destruct (check w sid rs); [|congruence].
  destruct (group_by_block _ _) as [w1 groups]. destruct (_ <=? _); [|congruence].
  by eapply upload_parts_frame.
Qed.

Lemma write_all_frame s w writes s' w' :
  write_all s w writes = (s', w', Ok tt) → ∀ k, object s' k = object s k.
Proof.
  revert s w. induction writes as [|[sid rs] writes IH]; intros s w Hw k; cbn [write_all] in Hw; [congruence|].
  destruct (ow_write s w sid rs) as [[s1 w1] [[]|e]] eqn:E; [|congruence].
  rewrite (IH _ _ Hw k). by eapply ow_write_frame.
Qed.

(** Writing an object touches no other key. *)
Lemma write_object_frame s id bt pt options writes s' w size k :
  write_object s id bt pt options writes = (s', Ok (w, size)) → k ≠ gen_object_key id →
  object s' k = object s k.
Proof.
  unfold write_object, ow_open. destruct (os_writer s options _) as [s1 [wr|e]] eqn:Ho; [|cbn; congruence].
  cbn [rbind]. match goal with |- context [write_all s1 ?x writes] => set (w0 := x) end.
  destruct (write_all s1 w0 writes) as [[s2 w2] [[]|e]] eqn:Hall; [|congruence].
  destruct (ow_close s2 w2) as [[s3 w3] [size'|e]] eqn:Hc; [|cbn; congruence].
  cbn [rbind]. intros Heq Hk. assert (s' = s3) as -> by congruence. clear Heq.
  apply writer_opened in Ho as (Hkey & Hwr & Hf).
  assert (Hh0 : writer_holds w0 (gen_object_key id) []) by (split_and!; cbn; [constructor|done|done]).
  destruct (write_all_holds _ _ _ _ _ _ _ Hh0 Hall) as (groups & Hh & _).
  destruct (ow_close_ok _ _ _ _ _ _ _ Hh Hc) as (_ & _ & _ & Hfr).
  rewrite Hfr by done. rewrite (write_all_frame _ _ _ _ _ Hall). apply Hf.
Qed.

Lemma stored_frame s s' id size writes bs :
  stored s id size writes bs → object s' (gen_object_key id) = object s (gen_object_key id) →
  stored s' id size writes bs.
Proof. intros (groups & ? & ? & ? & ? & ?) E. exists groups. rewrite E. auto. Qed.

Lemma ow_close_size s w s' w' size : ow_close s w = (s', w', Ok size) → ow_object_size w' = size.
Proof.
  unfold ow_close. destruct (close_tail w) as [[tail pos] isz].
  destruct (mw_write s (ow_writer w) tail) as [[s1 wr] [[]|e]]; [|congruence].
  destruct (mw_finish s1 wr) as [[s2 wr'] [b|e]]; [|congruence]. intros E. injection E as _ <- <-. done.
Qed.

Context (writer_bucket_id : W → Z).

Lemma write_stream_object_inv s id sid rs bt pt s' so :
  write_stream_object writer_bucket_id s id sid rs bt pt = (s', Ok so) →
  ∃ w, write_object s id bt pt default_write_options [(sid, rs)] = (s', Ok (w, so_object_size so)) ∧
    rs ≠ [] ∧ split_object so = (id, so_object_size so, [span_of (sid, rs)]).
Proof.
  unfold write_stream_object, write_object. destruct (ow_open _ _ _ _ _) as [s1 [w1|e]]; [|congruence].
  cbn [write_all]. destruct (ow_write s1 w1 sid rs) as [[s2 w2] [[]|e]]; [|congruence].
  destruct (record_bounds rs) as [[a b]|] eqn:Eb; [|congruence].
  destruct (ow_close s2 w2) as [[s3 w3] [size|e]] eqn:Ec; [|congruence]. intros Heq.
  injection Heq as <- <-. exists w3. cbn. rewrite (ow_close_size _ _ _ _ _ Ec).
  split_and!; [done| |].
  - intros ->. done.
  - unfold split_object, span_of. cbn. by rewrite Eb.
Qed.

Lemma write_set_streams_inv s w streams s' w' ranges :
  write_set_streams s w streams = (s', w', Ok ranges) →
  write_all s w streams = (s', w', Ok tt) ∧ Forall (λ p, p.2 ≠ []) streams ∧
  (λ r, (osr_stream_id r, osr_start_offset r, osr_end_offset r)) <$> ranges = span_of <$> streams.
Proof.
  revert s w ranges. induction streams as [|[sid rs] streams IH]; intros s w ranges; cbn [write_set_streams].
  { intros E. injection E as <- <- <-. done. }
  destruct (record_bounds rs) as [[a b]|] eqn:Eb; [|congruence]. cbn [write_all].
  destruct (ow_write s w sid rs) as [[s1 w1] [[]|e]]; [|congruence].
  destruct (write_set_streams s1 w1 streams) as [[s2 w2] [rest|e]] eqn:E; [|cbn; congruence]. cbn.
  intros Heq. injection Heq as <- <- <-. apply IH in E as (Hall & Hne & Hr).
  split_and!; [done|constructor; [|done]; intros E; cbn in E; subst; done|].
  cbn. f_equal; [|done]. unfold span_of. cbn. by rewrite Eb.
Qed.

Lemma write_stream_set_object_inv s id bt pt streams s' size attrs ranges :
  write_stream_set_object writer_bucket_id s id bt pt streams = (s', Ok (size, attrs, ranges)) →
  ∃ w, write_object s id bt pt default_write_options streams = (s', Ok (w, size)) ∧
    Forall (λ p, p.2 ≠ []) streams ∧
    (λ r, (osr_stream_id r, osr_start_offset r, osr_end_offset r)) <$> ranges = span_of <$> streams.
Proof.
  unfold write_stream_set_object, write_object. destruct (ow_open _ _ _ _ _) as [s1 [w1|e]]; [|congruence].
  destruct (write_set_streams s1 w1 streams) as [[s2 w2] [rest|e]] eqn:E; [|congruence].
  apply write_set_streams_inv in E as (-> & Hne & Hr).
  destruct (ow_close s2 w2) as [[s3 w3] [sz|e]] eqn:Ec; [|congruence]. intros Heq.
  injection Heq as <- <- _ <-. exists w3. rewrite (ow_close_size _ _ _ _ _ Ec). done.
Qed.

Lemma key_ne id1 id2 : is_u64 id1 → is_u64 id2 → id1 ≠ id2 → gen_object_key id1 ≠ gen_object_key id2.
Proof. intros H1 H2 Hne Hk. apply Hne. by destruct (object_key_inj _ _ _ _ H1 H2 Hk). Qed.

(** Objects written under the ids from [id] on. *)
Definition objects_from (s s' : S) (id : Z) (objs : list UploadedObject) : Prop :=
  uo_id <$> objs = seqZ id (Z.of_nat (length objs)) ∧
  Forall (λ o, stored s' (uo_id o) (uo_size o) (uo_writes o) (uo_blocks o) ∧
    Forall (λ p, p.2 ≠ []) (uo_writes o)) objs ∧
  ∀ k, (∀ i, id <= i < id + Z.of_nat (length objs) → k ≠ gen_object_key i) → object s' k = object s k.

Lemma write_stream_objects_inv s id bt pt streams s' sos :
  write_stream_objects writer_bucket_id s id bt pt streams = (s', Ok sos) →
  0 <= id → id + Z.of_nat (length streams) < two64 →
  ∃ objs, objects_from s s' id objs ∧ (split_object <$> sos) = describe <$> objs ∧
    uo_writes <$> objs = (λ p, [p]) <$> streams.
Proof.
  revert s id sos. induction streams as [|[sid rs] streams IH]; intros s id sos; cbn [write_stream_objects].
  { intros E _ _. injection E as <- <-. exists []. repeat split; constructor. }
  destruct (write_stream_object _ s id sid rs bt pt) as [s1 [so|e]] eqn:E1; [|congruence].
  destruct (write_stream_objects _ s1 _ bt pt streams) as [s2 [rest|e]] eqn:E2; [|cbn; congruence].
  cbn. intros Heq Hid Hmax. injection Heq as <- <-.
  rewrite wrap_u64_id in E2 by int_lia.
  destruct (IH _ _ _ E2) as (objs & (Hids & Hst & Hfr) & Hdesc & Hwr); [lia|lia|].
  assert (Hlen : length objs = length streams).
  { apply (f_equal length) in Hwr. by rewrite !length_fmap in Hwr. }
  destruct (write_stream_object_inv _ _ _ _ _ _ _ _ E1) as (w & Hw & Hne & Hso).
  exists ({| uo_id := id; uo_size := so_object_size so; uo_writes := [(sid, rs)];
             uo_blocks := ow_completed_blocks w |} :: objs).
  split_and!; cbn.
  - split_and!; cbn.
    + rewrite Hids. symmetry. rewrite seqZ_cons by lia. f_equal. f_equal; lia.
    + constructor; [|done]. cbn. split; [|by constructor].
      apply (stored_frame s1); [by eapply write_object_ok|]. apply Hfr. intros i Hi.
      apply key_ne; int_lia.
    + intros k Hk. rewrite Hfr by (intros; apply Hk; lia).
      eapply write_object_frame; [exact Hw|]. apply Hk. lia.
  - f_equal; [|done]. by rewrite Hso.
  - by rewrite Hwr.
Qed.
End Frames.

Lemma ord_list_perm {V} (m : gmap Z V) : ord_list m ≡ₚ map_to_list m.
Proof. unfold ord_list. apply merge_sort_Permutation. Qed.

(** Every stream of the block is planned into exactly one object kind. *)
Lemma plan_partition config records :
  map_to_list (ut_stream_set_object_map (plan config records)) ++
  map_to_list (ut_stream_object_map (plan config records)) ≡ₚ map_to_list records.
Proof.
  unfold plan. destruct (size records =? 1)%nat; cbn [ut_stream_set_object_map ut_stream_object_map].
  { by rewrite map_to_list_empty. }
  apply NoDup_Permutation.
  - apply NoDup_app. split_and!; [apply NoDup_map_to_list| |apply NoDup_map_to_list].
    intros [sid rs] H1 H2. rewrite elem_of_map_to_list in H1, H2.
    apply map_lookup_filter_Some in H1 as [_ H1], H2 as [_ H2]. cbn in *. congruence.
  - apply NoDup_map_to_list.
  - intros [sid rs]. rewrite elem_of_app, !elem_of_map_to_list, !map_lookup_filter_Some. cbn.
    destruct (is_split config rs); naive_solver.
Qed.

Lemma commit_ranges_request req : commit_ranges req = mjoin (snd <$> request_objects req).
Proof.
  unfold commit_ranges, request_objects, set_object.
  assert (Hs : ∀ sos, mjoin (snd <$> (split_object <$> sos)) =
    (λ so, (so_stream_id so, so_start_offset so, so_end_offset so)) <$> sos).
  { induction sos as [|so sos IH]; [done|]. cbn. by f_equal. }
  rewrite fmap_app, join_app, Hs. f_equal.
  destruct (_ =? _); [done|]. cbn. by rewrite app_nil_r.
Qed.

Section UploadProofs.
Context {S W : Type} `{ObjectStorageContract S W} (writer_bucket_id : W → Z).

Lemma upload_inv config records id (s s' : S) t' :
  let t := plan config records <| ut_prepared_object_id := Some id |> in
  upload writer_bucket_id s t = (s', t', Ok tt) →
  0 <= id → id + Z.of_nat (object_count t) < u64_max →
  ∃ req objs, ut_commit_request t' = Some req ∧ cr_compacted_object_ids req = [] ∧
    objects_from s s' id objs ∧ length objs = object_count t ∧
    request_objects req = describe <$> objs ∧
    mjoin (uo_writes <$> objs) ≡ₚ map_to_list records.
Proof.
  intros t Hup Hid Hmax. unfold upload in Hup.
  set (setm := ut_stream_set_object_map (plan config records)).
  set (objm := ut_stream_object_map (plan config records)).
  pose proof (plan_partition config records) as Hpart. fold setm objm in Hpart.
  change (ut_prepared_object_id t) with (Some id) in Hup.
  change (ut_stream_set_object_map t) with setm in Hup. change (ut_stream_object_map t) with objm in Hup.
  cbv beta iota zeta in Hup.
  assert (Hn : object_count t = (size objm + (if decide (setm = ∅) then 0 else 1))%nat) by done.
  rewrite Hn in *. rewrite <-(ord_list_perm setm), <-(ord_list_perm objm) in Hpart.
  destruct (write_stream_objects _ _ _ _ _ _) as [s1 [sos|e]] eqn:E1 in Hup; [|congruence].
  assert (Hjoin : ∀ l : list (Z * list StreamRecordBatch), mjoin ((λ p, [p]) <$> l) = l).
  { induction l as [|p l IH]; [done|]. cbn. by f_equal. }
  destruct (decide (setm = ∅)) as [Hempty|Hset].
  - rewrite bool_decide_eq_true_2 in E1, Hup by done. cbn [negb] in E1, Hup.
    rewrite Z.eqb_refl in Hup. injection Hup as <- <-.
    destruct (write_stream_objects_inv _ _ _ _ _ _ _ _ E1) as (objs & Hobjs & Hd & Hw);
      [done|rewrite length_ord_list; int_lia|].
    eexists _, objs. split_and!; [done|done|done| | |].
    + apply (f_equal length) in Hw. rewrite !length_fmap, length_ord_list in Hw. lia.
    + unfold request_objects, set_object. cbn. by rewrite Hd.
    + rewrite Hw, Hjoin, <-Hpart, Hempty. done.
  - rewrite bool_decide_eq_false_2 in E1, Hup by done. cbn [negb] in E1, Hup.
    assert (Hnoop : id =? NOOP_OBJECT_ID = false) by (apply Z.eqb_neq; unfold NOOP_OBJECT_ID; lia).
    rewrite Hnoop in Hup. rewrite wrap_u64_id in E1 by (unfold u64_max in *; int_lia).
    destruct (write_stream_set_object _ _ _ _ _ _) as [s2 [[[osize attrs] ranges]|e]] eqn:E2 in Hup;
      [|congruence]. injection Hup as <- <-.
    destruct (write_stream_objects_inv _ _ _ _ _ _ _ _ E1) as (objs & (Hids & Hst & Hfr) & Hd & Hw);
      [lia|rewrite length_ord_list; unfold u64_max in *; int_lia|].
    destruct (write_stream_set_object_inv _ _ _ _ _ _ _ _ _ _ E2) as (w & Hwo & Hne & Hr).
    assert (Hlen : length objs = size objm).
    { apply (f_equal length) in Hw. by rewrite !length_fmap, length_ord_list in Hw. }
    eexists _, ({| uo_id := id; uo_size := osize; uo_writes := ord_list setm;
      uo_blocks := ow_completed_blocks w |} :: objs).
    split_and!; [done|done| | | |].
    + split_and!; cbn [fmap list_fmap uo_id length].
      * rewrite Hids. symmetry. rewrite seqZ_cons by lia. f_equal. f_equal; lia.
      * constructor; [split; [by eapply write_object_ok|done]|].
        rewrite Forall_forall in *. intros o Ho. destruct (Hst o Ho) as [Hso Hnw]. split; [|done].
        apply (stored_frame s1); [done|]. eapply write_object_frame; [exact Hwo|].
        assert (Hin : uo_id o ∈ uo_id <$> objs) by by apply list_elem_of_fmap_2.
        rewrite Hids in Hin. apply elem_of_seqZ in Hin. apply key_ne; unfold u64_max in *; int_lia.
      * intros k Hk. rewrite (write_object_frame _ _ _ _ _ _ _ _ _ k Hwo) by (apply Hk; lia).
        apply Hfr. intros i Hi. apply Hk. lia.
    + cbn. lia.
    + unfold request_objects, set_object. cbn. rewrite Hnoop. cbn. unfold describe at 1. cbn.
      by rewrite Hr, Hd.
    + cbn. change (ord_list setm ++ mjoin (uo_writes <$> objs) ≡ₚ map_to_list records).
      by rewrite Hw, Hjoin, Hpart.
Qed.
End UploadProofs.

(** ** What the engine relies on of the metadata managers

    [registered] is the size and the ranges of a committed object,
    [next_object_id] is above every id handed out, [stream_closed] holds of
    a stream whose last epoch has been closed. *)
Class EngineMetadataContract (Mg : Type) `{EngineMetadata Mg} := {
  mg_ok : Mg → Prop;
  stream_end : Mg → Z → option Z;
  registered : Mg → Z → option (Z * list (Z * Z * Z));
  next_object_id : Mg → Z;
  stream_closed : Mg → Z → Prop;
  registered_leased m id :
    mg_ok m → is_Some (registered m id) → id < next_object_id m;
  next_object_id_nonneg m : mg_ok m → 0 <= next_object_id m;
  prepare_leases m n ttl m' id :
    mg_ok m → 0 < n < two32 → next_object_id m + n < two64 →
    mg_prepare_object m n ttl = (m', Ok id) →
    mg_ok m' ∧ id = next_object_id m ∧ next_object_id m' = id + n ∧
    (∀ s, stream_end m' s = stream_end m s) ∧ (∀ i, registered m' i = registered m i);
  commit_registers m req m' :
    mg_ok m → cr_compacted_object_ids req = [] → request_objects req ≠ [] →
    Forall (λ o, o.1.1 < next_object_id m ∧ registered m o.1.1 = None) (request_objects req) →
    NoDup ((λ o, o.1.1) <$> request_objects req) →
    mg_commit_stream_set_object m req = (m', Ok tt) →
    mg_ok m' ∧ next_object_id m' = next_object_id m ∧
    (∀ s e, stream_end m s = Some e →
       ∃ b, chain s e (commit_ranges req) = Some b ∧ stream_end m' s = Some b) ∧
    (∀ i size ranges, (i, size, ranges) ∈ request_objects req → registered m' i = Some (size, ranges)) ∧
    (∀ i, i ∉ (λ o, o.1.1) <$> request_objects req → registered m' i = registered m i);
  opening_listed m m' l :
    mg_ok m → mg_get_opening_streams m = (m', Ok l) →
    mg_ok m' ∧ next_object_id m' = next_object_id m ∧ NoDup (sm_stream_id <$> l) ∧
    (∀ md, md ∈ l → stream_end m' (sm_stream_id md) = Some (sm_end_offset md)) ∧
    (∀ i, registered m' i = registered m i);
  close_keeps m s e m' r :
    mg_ok m → mg_close_stream m s e = (m', r) →
    mg_ok m' ∧ (∀ s, stream_end m' s = stream_end m s) ∧ (∀ i, registered m' i = registered m i) ∧
    (r = Ok tt → stream_closed m' s) ∧ (∀ s, stream_closed m s → stream_closed m' s);
}.
