(* ===== verification/EngineMeta.v ===== *)
(** * The metadata plane behind the storage engine

    The managers of [pico-metadata/src/manager.rs] over the in-process sink
    are what [s3stream-core] calls [ObjectManager] and [StreamManager]; they
    meet the contract the upload and recovery code relies on. *)

From Stdlib Require Import ZArith Lia.
From Stdlib Require Import Strings.Byte.
From stdpp Require Import base numbers list gmap sorting strings.
From S2P Require Import Prelude StreamTypes MetaState MetaApply MetaInv MetaHistory MetaEffects.
From S2P Require Import MetaPolicy MetaQuery MetaService Upload.

Open Scope Z_scope.
Open Scope rust_scope.

Definition range_triple (r : StreamOffsetRange) : Z * Z * Z :=
  (sor_stream_id r, sor_start_offset r, sor_end_offset r).

Definition object_entry (o : S3ObjectMetadata) : Z * list (Z * Z * Z) :=
  (om_object_size o, range_triple <$> om_offset_ranges o).

(** The committed object under an id. *)
Definition state_registered (st : MetadataState) (id : Z) : option (Z * list (Z * Z * Z)) :=
  match ms_stream_set_objects st !! id with
  | Some row => Some (object_entry (ssr_object row))
  | None =>
      key ← ms_stream_object_ids st !! id;
      row ← ms_stream_objects st !! key;
      Some (object_entry (sjr_object row))
  end.

Definition state_end (st : MetadataState) (s : Z) : option Z := sr_end_offset <$> ms_streams st !! s.

Definition state_closed (st : MetadataState) (s : Z) : Prop := sr_state <$> ms_streams st !! s = Some Closed.

Record engine_ok (st : MetadataState) : Prop := {
  eo_keys : ∀ id key, ms_stream_object_ids st !! id = Some key →
    key.2 = id ∧ is_Some (ms_stream_objects st !! key);
  eo_leased_set : ∀ id, is_Some (ms_stream_set_objects st !! id) → id < ms_next_object_id st;
  eo_leased : ∀ id, is_Some (ms_stream_object_ids st !! id) → id < ms_next_object_id st;
  eo_next : is_u64 (ms_next_object_id st);
  eo_rows : ∀ s row, ms_streams st !! s = Some row → sr_stream_id row = s;
}.


Lemma Inv_engine_ok st :
  Inv st → (∀ id, is_Some (state_registered st id) → id < ms_next_object_id st) → engine_ok st.
Proof.
  intros HI Hl. destruct (inv_so _ HI) as [_ Hids]. split.
  - intros id key Hk. by apply Hids.
  - intros id [row Hr]. apply Hl. unfold state_registered. rewrite Hr. eauto.
  - intros id [key Hk]. apply Hl. unfold state_registered.
    destruct (ms_stream_set_objects st !! id); [eauto|]. rewrite Hk. cbn.
    destruct (Hids _ _ Hk) as [_ [row Hrow]]. rewrite Hrow. eauto.
  - apply (inv_prepared _ HI).
  - intros s row Hr. destruct (inv_streams _ HI) as [_ Hs]. destruct (Hs _ _ Hr) as [Ht _]. apply Ht.
Qed.

Lemma registered_next st id : engine_ok st → is_Some (state_registered st id) → id < ms_next_object_id st.
Proof.
  intros Hok. unfold state_registered. destruct (ms_stream_set_objects st !! id) eqn:E.
  - intros _. apply (eo_leased_set _ Hok). eauto.
  - destruct (ms_stream_object_ids st !! id) eqn:E'; [|by intros [? ?]]. intros _.
    apply (eo_leased _ Hok). eauto.
Qed.

(** ** Failures that are not [Redundant] *)
Definition never_redundant {A} (m : M A) : Prop :=
  ∀ st st' e, m st = (st', Err e) → is_redundant e = false.

Create HintDb noredundant.

Lemma nr_ret {A} (a : A) : never_redundant (retM a).
Proof. by intros st st' e H. Qed.
Lemma nr_get {A} (f : MetadataState → A) : never_redundant (getM f).
Proof. by intros st st' e H. Qed.
Lemma nr_upd f : never_redundant (updM f).
Proof. by intros st st' e H. Qed.
Lemma nr_try {A} (f : MetadataState → result A MetadataError) :
  (∀ st e, f st = Err e → is_redundant e = false) → never_redundant (tryM f).
Proof. intros Hf st st' e H. injection H as _ H. by eapply Hf. Qed.
Lemma nr_ensure b e : is_redundant e = false → never_redundant (ensureM b e).
Proof. intros He st st' e' H. unfold ensureM in H. destruct b; [done|]. by injection H as _ <-. Qed.
Lemma nr_bind {A B} (m : M A) (k : A → M B) :
  never_redundant m → (∀ a, never_redundant (k a)) → never_redundant (bindM m k).
Proof.
  intros Hm Hk st st' e H. unfold bindM in H. destruct (m st) as [st1 [a|e1]] eqn:E; [by eapply Hk|].
  injection H as _ <-. by eapply Hm.
Qed.
Lemma nr_for {A} (l : list A) body : (∀ x, never_redundant (body x)) → never_redundant (forM l body).
Proof. intros Hb. induction l as [|x l IH]; [apply nr_ret|]. by apply nr_bind. Qed.
#[export] Hint Resolve nr_ret nr_get nr_upd : noredundant.

Ltac noredundant :=
  repeat first
    [ progress auto with noredundant
    | match goal with
      | |- never_redundant (bindM _ _) => apply nr_bind; [|intros ?]
      | |- never_redundant (forM _ _) => apply nr_for; intros ?
      | |- never_redundant (ensureM _ _) => apply nr_ensure; done
      | |- never_redundant (match ?x with _ => _ end) => destruct x
      end ].

Lemma nr_check_node n e : never_redundant (check_node n e).
Proof.
  apply nr_try. intros st err. unfold node_epoch_check. destruct (ms_nodes st !! n); [|by intros [= <-]].
  destruct (_ =? _); [done|by intros [= <-]].
Qed.
Lemma nr_require_stream s : never_redundant (tryM (λ st, require_stream st s)).
Proof. apply nr_try. intros st err. unfold require_stream. destruct (ms_streams st !! s); by intros [= <-]. Qed.
Lemma nr_check_free id key : never_redundant (tryM (λ st, check_object_id_free st id key)).
Proof.
  apply nr_try. intros st err. unfold check_object_id_free. destruct (bool_decide _); [by intros [= <-]|].
  destruct (ms_stream_object_ids st !! id); [|done]. destruct (bool_decide _); [by intros [= <-]|done].
Qed.
#[export] Hint Resolve nr_check_node nr_require_stream nr_check_free : noredundant.

Lemma nr_commit_prepared id : never_redundant (commit_prepared id).
Proof. unfold commit_prepared. noredundant. Qed.
Lemma nr_advance s a b c : never_redundant (advance_end_offset s a b c).
Proof. unfold advance_end_offset, put_stream. noredundant. Qed.
#[export] Hint Resolve nr_commit_prepared nr_advance : noredundant.

(** Nothing compacted: a commit reports [Redundant] only from its check. *)
Lemma commit_redundant_inv n e req now st st' err :
  cr_compacted_object_ids req = [] →
  commit_stream_set_object n e req now st = (st', Err err) → is_redundant err = true →
  redundant_commit_check st req = Err err.
Proof.
  intros Hc H Hr. unfold commit_stream_set_object in H. rewrite Hc in H. cbn [bool_decide_eq_true_2] in H.
  unfold bindM at 1 in H. destruct (check_node n e st) as [st1 [[]|e1]] eqn:E1.
  2:{ injection H as _ <-. apply nr_check_node in E1. congruence. }
  apply check_node_ok in E1 as [-> _]. unfold bindM at 1, tryM at 1 in H.
  destruct (redundant_commit_check st req) as [[]|e1]; [|by injection H as _ <-]. exfalso.
  rewrite bool_decide_eq_true_2 in H by done. cbn [negb] in H.
  assert (Hnr : is_redundant err = false); [|congruence].
  revert H. apply (λ x : never_redundant _, x st st' err).
  unfold commit_set_part, commit_stream_object, insert_stream_object. noredundant.
Qed.

(** ** What a commit registers *)

(** The state gained the object [o] and nothing else about objects. *)
Definition gains (o : Z * Z * list (Z * Z * Z)) (st st' : MetadataState) : Prop :=
  (∀ i, state_registered st' i = if decide (i = o.1.1) then Some (o.1.2, o.2) else state_registered st i) ∧
  ms_next_object_id st' = ms_next_object_id st.

(** The fields [state_registered] and [engine_ok] look at, rows apart. *)
Notation object_part := (λ st, (ms_stream_set_objects st, ms_stream_object_ids st,
  ms_stream_objects st, ms_next_object_id st)).

Definition rows_ok (st : MetadataState) : Prop :=
  ∀ s row, ms_streams st !! s = Some row → sr_stream_id row = s.

Lemma rows_ok_advance s a b c st st' u :
  advance_end_offset s a b c st = (st', Ok u) → rows_ok st → rows_ok st'.
Proof.
  intros H Hrows. unfold advance_end_offset in H. minv H; try done.
  unfold require_stream in *. destruct (ms_streams st !! s) eqn:E; simplify_eq.
  intros s' row'. ms_simpl. intros [[<- <-]|[_ ?]]%lookup_insert_Some; [|by apply Hrows].
  cbn. by apply Hrows.
Qed.

Lemma rows_ok_for {A} (body : A → M unit) l st st' u :
  (∀ x st st' u, body x st = (st', Ok u) → rows_ok st → rows_ok st') →
  forM l body st = (st', Ok u) → rows_ok st → rows_ok st'.
Proof.
  intros Hb. revert st. induction l as [|x l IH]; intros st H Hr; cbn [forM] in H; [by minv H|].
  apply bindM_Ok_inv in H as (? & st1 & H1 & H). eauto.
Qed.

Lemma engine_ok_same st st' :
  object_part st' = object_part st → rows_ok st' → engine_ok st → engine_ok st'.
Proof.
  intros E Hr [H1 H2 H3 H4 _]. injection E as E1 E2 E3 E4.
  split; rewrite ?E1, ?E2, ?E3, ?E4; [done..|exact Hr].
Qed.

Lemma state_registered_same st st' :
  object_part st' = object_part st → ∀ i, state_registered st' i = state_registered st i.
Proof. intros E i. injection E as E1 E2 E3 E4. unfold state_registered. by rewrite E1, E2, E3. Qed.

Lemma commit_set_part_gains n req data now st st' u :
  engine_ok st → cr_object_id req < ms_next_object_id st →
  commit_set_part n req false data now st = (st', Ok u) →
  engine_ok st' ∧ gains (cr_object_id req, cr_object_size req,
    (λ r, (osr_stream_id r, osr_start_offset r, osr_end_offset r)) <$> cr_stream_ranges req) st st'.
Proof.
  intros Hok Hlt H. unfold commit_set_part in H. do 1 mstep H.
  apply bindM_Ok_inv in H as (? & st1 & H1 & H). apply bindM_Ok_inv in H as (? & st2 & H2 & H).
  apply bindM_Ok_inv in H as (? & st3 & H3 & H).
  assert (E1 : object_part st1 = object_part st) by (apply (keeps_use object_part) in H1; [done|frame]).
  assert (R1 : ms_streams st1 = ms_streams st) by (apply (keeps_use ms_streams) in H1; [done|frame]).
  assert (E2 : object_part st2 = object_part st1) by (apply (keeps_use object_part) in H2; [done|frame]).
  assert (R2 : rows_ok st2).
  { eapply rows_ok_for; [|exact H2|].
    - intros ? sa sb v Hb Hr. exact (rows_ok_advance _ _ _ _ _ _ _ Hb Hr).
    - unfold rows_ok. rewrite R1. apply (eo_rows _ Hok). }
  assert (E3 : object_part st3 = object_part st2) by (apply (keeps_use object_part) in H3; [done|frame]).
  assert (R3 : ms_streams st3 = ms_streams st2) by (apply (keeps_use ms_streams) in H3; [done|frame]).
  pose proof (eq_trans E3 (eq_trans E2 E1)) as E. cbv beta in E. injection E as S1 S2 S3 S4. minv H. destruct Hok as [K1 K2 K3 K4 K5].
  split; [split|split]; ms_simpl; rewrite ?S1, ?S2, ?S3, ?S4.
  - done.
  - intros id [row [[<- _]|[_ ?]]%lookup_insert_Some]; [done|]. apply K2. eauto.
  - done.
  - done.
  - rewrite R3. apply R2.
  - intros i. unfold state_registered. ms_simpl. rewrite ?S1, ?S2, ?S3. cbn [fst snd].
    destruct (decide (i = cr_object_id req)) as [->|Hne].
    + rewrite lookup_insert_eq. unfold object_entry. cbn. by rewrite <-list_fmap_compose.
    + by rewrite lookup_insert_ne by done.
  - done.
Qed.

Lemma commit_stream_object_gains data now so st st' u :
  engine_ok st → so_object_id so < ms_next_object_id st →
  commit_stream_object false data now so st = (st', Ok u) →
  engine_ok st' ∧ gains (split_object so) st st'.
Proof.
  intros Hok Hlt H. unfold commit_stream_object in H. do 1 mstep H.
  apply check_object_id_free_inv in Hm as [Hset Hfree].
  apply bindM_Ok_inv in H as (? & st1 & H1 & H). apply bindM_Ok_inv in H as (? & st2 & H2 & H).
  assert (E1 : object_part st1 = object_part st) by (apply (keeps_use object_part) in H1; [done|frame]).
  assert (R1 : ms_streams st1 = ms_streams st) by (apply (keeps_use ms_streams) in H1; [done|frame]).
  assert (E2 : object_part st2 = object_part st1) by (apply (keeps_use object_part) in H2; [done|frame]).
  assert (R2 : rows_ok st2).
  { eapply rows_ok_advance; [exact H2|]. unfold rows_ok. rewrite R1. apply (eo_rows _ Hok). }
  pose proof (eq_trans E2 E1) as E. cbv beta in E. injection E as S1 S2 S3 S4. unfold insert_stream_object in H. minv H.
  destruct Hok as [K1 K2 K3 K4 K5].
  set (key := (so_stream_id so, so_start_offset so, so_object_id so)) in *.
  split; [split|split]; ms_simpl; rewrite ?S1, ?S2, ?S3, ?S4.
  - intros id k [[<- <-]|[Hne Hk]]%lookup_insert_Some; [split; [done|rewrite lookup_insert_eq; eauto]|].
    destruct (K1 _ _ Hk) as [Hk1 Hk2]. split; [done|]. rewrite lookup_insert_ne; [done|].
    intros <-. by apply Hne.
  - done.
  - intros id [k [[<- _]|[_ ?]]%lookup_insert_Some]; [done|]. apply K3. eauto.
  - done.
  - apply R2.
  - intros i. unfold state_registered. ms_simpl. rewrite ?S1, ?S2, ?S3. unfold split_object. cbn [fst snd].
    destruct (decide (i = so_object_id so)) as [->|Hne].
    + rewrite Hset, lookup_insert_eq. cbn. by rewrite lookup_insert_eq.
    + rewrite lookup_insert_ne by done. destruct (ms_stream_set_objects st !! i); [done|].
      destruct (ms_stream_object_ids st !! i) as [k|] eqn:Ek; [|done]. cbn.
      destruct (K1 _ _ Ek) as [Hk1 _]. rewrite lookup_insert_ne; [done|]. intros <-. by apply Hne.
  - done.
Qed.

(** One object after the other, under different ids. *)
Inductive gains_all : list (Z * Z * list (Z * Z * Z)) → MetadataState → MetadataState → Prop :=
| gains_none st : gains_all [] st st
| gains_more o os st st1 st' : gains o st st1 → gains_all os st1 st' → gains_all (o :: os) st st'.

Lemma gains_all_app os1 os2 st st1 st' :
  gains_all os1 st st1 → gains_all os2 st1 st' → gains_all (os1 ++ os2) st st'.
Proof. induction 1; [done|]. intros. econstructor; eauto. Qed.

Lemma gains_all_spec os st st' :
  gains_all os st st' → NoDup ((λ o, o.1.1) <$> os) →
  ms_next_object_id st' = ms_next_object_id st ∧
  (∀ i size ranges, (i, size, ranges) ∈ os → state_registered st' i = Some (size, ranges)) ∧
  (∀ i, i ∉ (λ o, o.1.1) <$> os → state_registered st' i = state_registered st i).
Proof.
  induction 1 as [|o os st st1 st' [Hg Hn] _ IH]; intros Hnd; [split_and!; try done; set_solver|].
  cbn in Hnd. apply NoDup_cons in Hnd as [Hni Hnd]. destruct (IH Hnd) as (Hn' & Hin & Hout). split_and!.
  - congruence.
  - intros i size ranges [Heq|Hi]%elem_of_cons; [|by apply Hin]. subst o. cbn in *.
    rewrite Hout by done. by rewrite Hg, decide_True.
  - intros i Hi. cbn in Hi. rewrite Hout by set_solver. rewrite Hg, decide_False by set_solver. done.
Qed.

Lemma commit_loop_gains data now l st st' u :
  engine_ok st → Forall (λ so, so_object_id so < ms_next_object_id st) l →
  forM l (commit_stream_object false data now) st = (st', Ok u) →
  engine_ok st' ∧ gains_all (split_object <$> l) st st'.
Proof.
  revert st. induction l as [|so l IH]; intros st Hok Hlt H; cbn [forM] in H.
  { minv H. split; [done|constructor]. }
  apply bindM_Ok_inv in H as (? & st1 & H1 & H). apply Forall_cons in Hlt as [Hso Hlt].
  destruct (commit_stream_object_gains _ _ _ _ _ _ Hok Hso H1) as [Hok1 Hg].
  destruct (IH st1 Hok1) as [Hok' Hgs]; [|done|].
  - destruct Hg as [_ ->]. done.
  - split; [done|]. by econstructor.
Qed.

Lemma commit_gains n e req now st st' r :
  engine_ok st → cr_compacted_object_ids req = [] →
  Forall (λ o, o.1.1 < ms_next_object_id st) (request_objects req) →
  apply st (CommitStreamSetObject n e req now) = (st', Ok r) →
  engine_ok st' ∧ gains_all (request_objects req) st st' ∧ appended (commit_ranges req) st st'.
Proof.
  intros Hok Hnc Hlt Ha%apply_Ok_inv. cbn [apply_inner] in Ha.
  apply commit_inv in Ha as (_ & st1 & st2 & compact & data & [_ _ Hcomp Hdrop Hset Hl]).
  rewrite Hnc, bool_decide_eq_true_2 in Hcomp by done. cbn in Hcomp. subst compact.
  destruct Hdrop as [-> ->]. unfold request_objects in *. apply Forall_app in Hlt as [Hlt1 Hlt2].
  rewrite Forall_fmap in Hlt2.
  assert (Hmid : engine_ok st2 ∧ gains_all (set_object req) st st2 ∧ ms_next_object_id st2 = ms_next_object_id st ∧
    appended (if cr_object_id req =? NOOP_OBJECT_ID then []
      else (λ r, (osr_stream_id r, osr_start_offset r, osr_end_offset r)) <$> cr_stream_ranges req) st st2).
  { unfold set_object in *. destruct (cr_object_id req =? NOOP_OBJECT_ID).
    - subst st2. split_and!; [done|constructor|done|by apply appended_nil].
    - rewrite Forall_singleton in Hlt1. destruct (commit_set_part_gains _ _ _ _ _ _ _ Hok Hlt1 Hset) as [? Hg].
      split_and!; [done|econstructor; [done|constructor]|apply Hg|by eapply commit_set_part_appends]. }
  destruct Hmid as (Hok2 & Hg2 & Hn2 & Ha2).
  destruct (commit_loop_gains _ _ _ _ _ _ Hok2 ltac:(by rewrite Hn2) Hl) as [Hok' Hg'].
  split_and!; [done|by eapply gains_all_app|]. eapply appended_trans; [exact Ha2|].
  eapply appended_loop; [|exact Hl]. intros. by eapply commit_stream_object_appends.
Qed.

(** ** The managers over the in-process sink *)
Section LocalEngine.
Context (h : MetadataNodeHandle) (now_ms : Z).

Definition local_engine : EngineMetadata LocalSink := {|
  mg_prepare_object s n ttl := obj_prepare_object s h now_ms n ttl;
  mg_commit_stream_set_object s req := obj_commit_stream_set_object s h now_ms req;
  mg_get_opening_streams s := (s, Ok (sm_get_opening_streams s h));
  mg_close_stream s sid epoch := sm_close_stream s h sid epoch;
|}.

Definition sink_engine_ok (s : LocalSink) : Prop := engine_ok (ls_state s) ∧ sink_state s = ls_state s.

Lemma local_propose_Ok s c s' p :
  local_propose s c = (s', Ok p) →
  apply (ls_state s) c = (ls_state s', Ok (pr_result p)) ∧ sink_state s' = ls_state s'.
Proof.
  unfold local_propose. destruct (apply (ls_state s) c) as [st [r|e]]; [|done].
  intros [= <- <-]. done.
Qed.

Lemma local_propose_Err s c s' e :
  local_propose s c = (s', Err e) →
  apply (ls_state s) c = (ls_state s', Err e) ∧ ls_state s' = ls_state s ∧ sink_state s' = sink_state s.
Proof.
  unfold local_propose. destruct (apply (ls_state s) c) as [st [r|e']] eqn:E; [done|].
  intros [= <- <-]. split_and!; [done| |done]. cbn. unfold apply in E.
  destruct (apply_inner c (ls_state s)) as [? [?|?]]; by simplify_eq.
Qed.

Lemma local_prepare s n ttl s' id :
  sink_engine_ok s → 0 < n < two32 → ms_next_object_id (ls_state s) + n < two64 →
  obj_prepare_object s h now_ms n ttl = (s', Ok id) →
  sink_engine_ok s' ∧ id = ms_next_object_id (ls_state s) ∧
  ms_next_object_id (ls_state s') = id + n ∧
  (∀ x, state_end (ls_state s') x = state_end (ls_state s) x) ∧
  (∀ i, state_registered (ls_state s') i = state_registered (ls_state s) i).
Proof.
  intros [Hok Hview] Hn Hmax. unfold obj_prepare_object, then_result, handle_propose.
  change (propose s) with (local_propose s).
  destruct (local_propose s _) as [s1 [p|e]] eqn:E; cbn; [|done]. intros Heq.
  apply local_propose_Ok in E as [Ha Hv]. apply apply_Ok_inv in Ha. cbn [apply_inner] in Ha.
  rewrite wrap_u32_id in Ha by int_lia. unfold prepare_object in Ha.
  apply bindM_Ok_inv in Ha as (? & st0 & Hc & Ha). apply check_node_ok in Hc as [-> _].
  do 3 mstep Ha. apply bindM_Ok_inv in Ha as (? & st1 & Hf & Ha).
  assert (E1 : object_part st1 = object_part (set_next_object_id (wrap_u64 (ms_next_object_id (ls_state s) + n)) (ls_state s)))
    by (apply (keeps_use object_part) in Hf; [done|frame]).
  assert (R1 : ms_streams st1 = ms_streams (ls_state s)) by (apply (keeps_use ms_streams) in Hf; [done|frame]).
  unfold retM in Ha. injection Ha as -> Hr. pose proof (eo_next _ Hok). rewrite wrap_u64_id in E1 by int_lia. cbv beta in E1. ms_simpl in E1.
  injection E1 as S1 S2 S3 S4. injection Heq as <- Hid.
  rewrite <-Hr in Hid. cbn in Hid. assert (id = ms_next_object_id (ls_state s)) as -> by congruence.
  destruct Hok as [K1 K2 K3 K4 K5].
  split_and!; [split; [split; rewrite ?S1, ?S2, ?S3, ?S4|done]|done|done| |].
  - done.
  - intros i [row Hrow]. specialize (K2 i ltac:(eauto)). lia.
  - intros i [row Hrow]. specialize (K3 i ltac:(eauto)). lia.
  - int_lia.
  - intros sid row. rewrite R1. apply K5.
  - intros sid. unfold state_end. by rewrite R1.
  - intros i. unfold state_registered. by rewrite S1, S2, S3.
Qed.

Lemma local_commit s req s' :
  sink_engine_ok s → cr_compacted_object_ids req = [] → request_objects req ≠ [] →
  Forall (λ o, o.1.1 < ms_next_object_id (ls_state s) ∧ state_registered (ls_state s) o.1.1 = None)
    (request_objects req) →
  obj_commit_stream_set_object s h now_ms req = (s', Ok tt) →
  apply (ls_state s) (CommitStreamSetObject (nh_node_id h) (nh_node_epoch h) req now_ms) =
    (ls_state s', Ok RUnit) ∧ sink_state s' = ls_state s'.
Proof.
  intros [Hok Hview] Hnc Hne Hfresh. unfold obj_commit_stream_set_object.
  change (propose s) with (local_propose s).
  destruct (local_propose s _) as [s1 [p|e]] eqn:E; intros Heq.
  - injection Heq as <-. apply local_propose_Ok in E as [Ha Hv]. split; [|done].
    rewrite Ha. f_equal. f_equal. apply apply_Ok_inv in Ha. by apply commit_inv in Ha as [-> _].
  - exfalso. apply local_propose_Err in E as (Ha & _ & _).
    assert (Hred : is_redundant e = true).
    { cbn in Heq. destruct (is_redundant e); [done|]. by injection Heq. }
    unfold apply in Ha. cbn [apply_inner] in Ha.
    destruct (commit_stream_set_object _ _ _ _ _) as [st [r|e']] eqn:Ec; [done|]. injection Ha as _ ->.
    apply commit_redundant_inv in Ec; [|done|done]. clear Heq. unfold redundant_commit_check in Ec.
    unfold request_objects, set_object in Hfresh, Hne.
    destruct (cr_object_id req =? NOOP_OBJECT_ID); cbn [negb] in Ec.
    + destruct (cr_stream_objects req) as [|so sos]; [done|].
      destruct (forallb _ _) eqn:Ef; [|done]. cbn [forallb] in Ef. apply andb_true_iff in Ef as [Ef _].
      cbn in Hfresh. apply Forall_cons in Hfresh as [[_ Hn] _]. unfold state_registered, split_object in Hn. cbn in Hn.
      unfold stream_object_committed in Ef.
      destruct (ms_stream_set_objects _ !! _); [done|].
      destruct (ms_stream_object_ids _ !! _) as [key|] eqn:Ek; [|done]. cbn in Hn.
      destruct (eo_keys _ Hok _ _ Ek) as [_ [row Hrow]]. by rewrite Hrow in Hn.
    + destruct (bool_decide _) eqn:Eb; [|done]. apply bool_decide_eq_true in Eb as [row Hrow].
      apply Forall_cons in Hfresh as [[_ Hn] _]. unfold state_registered in Hn. cbn in Hn.
      by rewrite Hrow in Hn.
Qed.

Lemma local_opening s :
  sink_engine_ok s →
  NoDup (sm_stream_id <$> sm_get_opening_streams s h) ∧
  ∀ md, md ∈ sm_get_opening_streams s h →
    state_end (ls_state s) (sm_stream_id md) = Some (sm_end_offset md).
Proof.
  intros [Hok Hview]. unfold sm_get_opening_streams, get_opening_streams. rewrite Hview.
  set (keys := ord_range_set _ _ _).
  assert (Hkeys : ∀ k, k ∈ keys → k.1 = nh_node_id h).
  { intros [n x] Hk. unfold keys in Hk. apply elem_of_ord_range_set in Hk as [[H1 H2] _].
    unfold key_le in *. cbn in *. unfold pair_le in *. cbn in *. lia. }
  assert (Hnd : NoDup keys) by (unfold keys, ord_range_set; apply NoDup_filter, NoDup_ord_elems).
  assert (Hget : ∀ x md, get_stream (ls_state s) x = Some md →
    sm_stream_id md = x ∧ state_end (ls_state s) x = Some (sm_end_offset md)).
  { intros x md. unfold get_stream, state_end. destruct (ms_streams _ !! x) as [row|] eqn:E; [|done].
    cbn. intros [= <-]. split; [apply (eo_rows _ Hok _ _ E)|done]. }
  split.
  - clearbody keys. induction keys as [|k keys IH]; [constructor|]. apply NoDup_cons in Hnd as [Hni Hnd].
    cbn. assert (Hrest : NoDup (sm_stream_id <$> omap (λ k : Z * Z, get_stream (ls_state s) k.2) keys)).
    { apply IH; [|done]. intros; apply Hkeys; by right. }
    destruct (get_stream (ls_state s) k.2) as [md|] eqn:E; [|done]. cbn. apply NoDup_cons. split; [|done].
    intros Hin. apply list_elem_of_fmap in Hin as (md' & Heq & Hin).
    apply list_elem_of_omap in Hin as (k' & Hk' & Hmd'). apply Hni.
    destruct (Hget _ _ E) as [E1 _], (Hget _ _ Hmd') as [E2 _].
    assert (k' = k) as <-; [|done]. pose proof (Hkeys k ltac:(left)). pose proof (Hkeys k' ltac:(by right)).
    destruct k, k'. cbn in *. congruence.
  - intros md Hin. apply list_elem_of_omap in Hin as (k & _ & Hmd).
    destruct (Hget _ _ Hmd) as [-> Hend]. done.
Qed.

Lemma local_close s sid epoch s' r :
  sink_engine_ok s → sm_close_stream s h sid epoch = (s', r) →
  sink_engine_ok s' ∧ (∀ x, state_end (ls_state s') x = state_end (ls_state s) x) ∧
  (∀ i, state_registered (ls_state s') i = state_registered (ls_state s) i) ∧
  (r = Ok tt → state_closed (ls_state s') sid) ∧ (∀ x, state_closed (ls_state s) x → state_closed (ls_state s') x).
Proof.
  intros [Hok Hview]. unfold sm_close_stream, then_result, handle_propose.
  change (propose s) with (local_propose s).
  destruct (local_propose s _) as [s1 [p|e]] eqn:E; cbn; intros Heq; injection Heq as <- Hres.
  2:{ apply local_propose_Err in E as (_ & Hs & Hv). unfold sink_engine_ok. rewrite Hv, Hs. split_and!; try done. by rewrite <-Hres. }
  apply local_propose_Ok in E as [Ha Hv]. apply apply_Ok_inv in Ha. cbn [apply_inner] in Ha.
  assert (E1 : object_part (ls_state s1) = object_part (ls_state s))
    by (apply (keeps_use object_part) in Ha; [done|unfold close_stream, put_stream; frame]).
  assert (Hrows : ∀ x, (∃ row, ms_streams (ls_state s) !! x = Some row ∧
      (ms_streams (ls_state s1) !! x = Some row ∨ ms_streams (ls_state s1) !! x = Some (closed_row row))) ∨
      ms_streams (ls_state s1) !! x = ms_streams (ls_state s) !! x).
  { remember (ls_state s1) as st1 eqn:Est. unfold close_stream in Ha.
    apply bindM_Ok_inv in Ha as (? & st0 & Hc & Ha). apply check_node_ok in Hc as [-> _]. clear Est E1.
    minv Ha; try (by right). unfold require_stream in Hm. intros y. ms_simpl.
    destruct (ms_streams (ls_state s) !! sid) as [row|] eqn:Er; simplify_eq.
    destruct (decide (y = sid)) as [->|Hne]; [left|right; by rewrite lookup_insert_ne].
    exists a. split; [done|]. right. by rewrite lookup_insert_eq. }
  assert (Hclosed : state_closed (ls_state s1) sid).
  { remember (ls_state s1) as st1 eqn:Est. clear Est E1 Hrows. unfold state_closed, close_stream in *.
    apply bindM_Ok_inv in Ha as (? & st0 & Hc & Ha). apply check_node_ok in Hc as [-> _].
    minv Ha; ms_simpl; [|by rewrite lookup_insert_eq]. unfold require_stream in Hm.
    destruct (ms_streams (ls_state s) !! sid) as [row|] eqn:Er; simplify_eq. cbn.
    match goal with H : _ && _ = true |- _ => apply andb_true_iff in H as [->%bool_decide_eq_true _] end. done. }
  split_and!; [split; [|done]| |by apply state_registered_same|done|].
  - eapply engine_ok_same; [exact E1| |done]. intros x row Hx. pose proof (eo_rows _ Hok x) as Hold.
    destruct (Hrows x) as [(row' & Hr & [Hr'|Hr'])|Heq]; [| |by apply Hold; rewrite <-Heq];
      rewrite Hr' in Hx; injection Hx as <-; exact (Hold row' Hr).
  - intros x. unfold state_end.
    destruct (Hrows x) as [(row & Hr & [Hr'|Hr'])|Heq]; [by rewrite Hr, Hr'..|by rewrite Heq].
  - intros x. unfold state_closed.
    destruct (Hrows x) as [(row & Hr & [Hr'|Hr'])|Heq]; [by rewrite Hr, Hr'|by rewrite Hr'|by rewrite Heq].
Qed.

Definition local_engine_contract : @EngineMetadataContract LocalSink local_engine.
Proof.
  refine {| mg_ok := sink_engine_ok; stream_end s := state_end (ls_state s);
    registered s := state_registered (ls_state s); next_object_id s := ms_next_object_id (ls_state s);
    stream_closed s := state_closed (ls_state s) |}.
  - intros m id [Hok _]. by apply registered_next.
  - intros m [Hok _]. apply (eo_next _ Hok).
  - intros m n ttl m' id Hok Hn Hmax Hp. exact (local_prepare m n ttl m' id Hok Hn Hmax Hp).
  - intros m req m' Hok Hnc Hne Hfresh Hnd Hc. pose proof (local_commit _ _ _ Hok Hnc Hne Hfresh Hc) as [Ha Hv].
    assert (Hlt : Forall (λ o, o.1.1 < ms_next_object_id (ls_state m)) (request_objects req)).
    { eapply Forall_impl; [exact Hfresh|]. by intros o [? _]. }
    destruct (commit_gains _ _ _ _ _ _ _ (proj1 Hok) Hnc Hlt Ha) as (Hok' & Hg & Happ).
    destruct (gains_all_spec _ _ _ Hg Hnd) as (Hn & Hin & Hout). split_and!; [by split|done| |done|done].
    intros x e. unfold state_end. destruct (ms_streams (ls_state m) !! x) as [row|] eqn:E; [|done].
    cbn. intros [= <-]. destruct (Happ x row E) as (b & Hb & ->). eauto.
  - intros m m' l Hok Heq. injection Heq as <- <-. destruct (local_opening m Hok). done.
  - intros m s e m' r Hok Hc. exact (local_close m s e m' r Hok Hc).
Defined.
End LocalEngine.
