(* ===== verification/Recovery.v ===== *)
(** * Recovery of the WAL into objects

    [s3stream-core/src/storage/recovery.rs] and [S3Storage::recover] of
    storage/s3_storage.rs: the records a WAL still holds are filtered
    against the committed end offsets of the opening streams, grouped into
    bounded blocks, and every block is uploaded and committed; then the WAL
    is reset and the streams are closed. The item a look-ahead pulled
    ([next]) is the head of the remaining items here. *)

From Stdlib Require Import ZArith Lia.
From Stdlib Require Import Strings.Byte.
From stdpp Require Import base numbers list gmap sorting strings.
From S2P Require Import Prelude StreamTypes RecordCodec ObjectIndex ObjectStore ObjectIO.
From S2P Require Import WalFormat WalWriter WalRecover LogCache MetaState MetaApply MetaInv MetaEffects.
From S2P Require Import MetaService Upload EngineMeta.

Open Scope Z_scope.
Open Scope rust_scope.

#[local] Arguments base_offset : simpl never.
#[local] Arguments last_offset : simpl never.
#[local] Arguments batch_size : simpl never.
#[local] Arguments occupied_size : simpl never.
#[local] Arguments stream_id : simpl never.
#[local] Arguments count : simpl never.

(** [Some] when the block was full and the record not added. *)
Definition process_record (result : RecoverResult) (ends : gmap Z Z) (b : LogCacheBlock) :
    option RecoverResult * gmap Z Z * LogCacheBlock :=
  let record := rr_record result in
  match ends !! stream_id record with
  | None => (None, ends, b)
  | Some expected =>
      if base_offset record <? expected then (None, ends, b)
      else if expected <? base_offset record then (None, ends, b)
      else
        match block_put record b with
        | (false, b) => (Some result, ends, b)
        | (true, b) => (None, <[stream_id record := last_offset record]> ends, b)
        end
  end.

(** The inner loop: fills the block until it is full, refuses a record or
    the items end. *)
Fixpoint fill_block (b : LogCacheBlock) (ends : gmap Z Z) (block_last : option RecordOffset)
    (items : list (result RecoverResult WalError)) :
    result (LogCacheBlock * gmap Z Z * option RecordOffset * option RecoverResult *
            list (result RecoverResult WalError)) WalError :=
  match items with
  | [] => Ok (b, ends, block_last, None, [])
  | item :: rest =>
      if is_full b then Ok (b, ends, block_last, None, items)
      else
        match item with
        | Err e => Err e
        | Ok result =>
            match process_record result ends b with
            | (None, ends, b) => fill_block b ends (Some (rr_record_offset result)) rest
            | (Some not_added, ends, b) => Ok (b, ends, block_last, Some not_added, rest)
            end
        end
  end.

Section Recover.
Context {St : Type} (decoder : option (StreamRecordBatch → result StreamRecordBatch EngineError))
  (block_handler : St → LogCacheBlock → St * result unit EngineError).

(** The link records of one stream, decoded in place. *)
Fixpoint decode_links (records : list StreamRecordBatch) (b : LogCacheBlock) :
    result LogCacheBlock EngineError :=
  match records with
  | [] => Ok b
  | record :: rest =>
      if 0 <=? count record then decode_links rest b
      else
        match decoder with
        | None => Err (EngineUnexpected
            "recovered a link record but no link record decoder is configured")
        | Some decode =>
            let? decoded := decode record in
            decode_links rest (replace_record (stream_id record) (base_offset record) decoded b)
        end
  end.

Definition decode_link_records (b : LogCacheBlock) : result LogCacheBlock EngineError :=
  decode_links (mjoin (ord_list (block_records b)).*2) b.

(** A fresh block, with the carried record if there is one. *)
Definition start_block (max_cache_size : Z) (pending : option RecoverResult) (ends : gmap Z Z) :
    LogCacheBlock * gmap Z Z * option RecordOffset :=
  let b := block_new 0 max_cache_size DEFAULT_MAX_BLOCK_STREAM_COUNT in
  match pending with
  | Some carried =>
      ((block_put (rr_record carried) b).2,
       <[stream_id (rr_record carried) := last_offset (rr_record carried)]> ends,
       Some (rr_record_offset carried))
  | None => (b, ends, None)
  end.

Definition RecoverLoop : Type :=
  option RecoverResult → list (result RecoverResult WalError) → gmap Z Z → St →
  option (St * gmap Z Z * result unit EngineError).

(** One round of the outer loop, then [continue]. *)
Definition recover_round (continue : RecoverLoop) (max_cache_size : Z) : RecoverLoop :=
  λ pending items ends st,
  let '(b, ends, block_last) := start_block max_cache_size pending ends in
  match fill_block b ends block_last items with
  | Err e => Some (st, ends, Err (EngineWal e))
  | Ok (b, ends, block_last, pending, items) =>
      let b := match block_last with
               | Some o => block_set_last_record_offset o b
               | None => b
               end in
      match decode_link_records b with
      | Err e => Some (st, ends, Err e)
      | Ok b =>
          match block_handler st b with
          | (st, Err e) => Some (st, ends, Err e)
          | (st, Ok _) => continue pending items ends st
          end
      end
  end.

(** Every round takes the carried record or an item. *)
Fixpoint recover_loop (fuel : nat) (max_cache_size : Z) : RecoverLoop :=
  λ pending items ends st,
  match fuel with
  | O => None
  | Datatypes.S fuel =>
      match pending, items with
      | None, [] => Some (st, ends, Ok tt)
      | None, Err e :: _ => Some (st, ends, Err (EngineWal e))
      | _, _ => recover_round (recover_loop fuel max_cache_size) max_cache_size pending items ends st
      end
  end.

Definition loop_fuel (items : list (result RecoverResult WalError)) : nat := (length items + 2)%nat.

Definition recover_records (max_cache_size : Z) (items : list (result RecoverResult WalError))
    (ends : gmap Z Z) (st : St) : option (St * gmap Z Z * result unit EngineError) :=
  recover_loop (loop_fuel items) max_cache_size None items ends st.
End Recover.

(** ** [S3Storage::recover] *)
Section StorageRecover.
Context {S W Mg : Type} `{ObjectStorage S W} `{EngineMetadata Mg} (writer_bucket_id : W → Z).

Definition RECOVER_BLOCK_SIZE : Z := 536870912.

(** The block handler: plan, prepare, upload, commit. *)
Definition upload_recovered (config : UploadConfig) (st : S * Mg) (b : LogCacheBlock) :
    (S * Mg) * result unit EngineError :=
  let '(s, m) := st in
  if lb_size b =? 0 then ((s, m), Ok tt)
  else
    let t := plan config (block_records b) in
    let '(m, t, r) := prepare m t in
    match r with
    | Err e => ((s, m), Err e)
    | Ok _ =>
        let '(s, t, r) := upload writer_bucket_id s t in
        match r with
        | Err e => ((s, m), Err e)
        | Ok _ => let '(m, r) := commit m t in ((s, m), r)
        end
    end.

Fixpoint close_streams (m : Mg) (streams : list StreamMetadata) : Mg * result unit EngineError :=
  match streams with
  | [] => (m, Ok tt)
  | stream :: rest =>
      let '(m, r) := mg_close_stream m (sm_stream_id stream) (sm_epoch stream) in
      match r with
      | Err e => (m, Err (EngineMeta e))
      | Ok _ => close_streams m rest
      end
  end.

(** [items] is what [wal.recover()] streams, [reset] the outcome of
    [wal.reset()]. *)
Definition recover (config : UploadConfig) (items : list (result RecoverResult WalError))
    (reset : result unit WalError) (s : S) (m : Mg) : option (S * Mg * result unit EngineError) :=
  let '(m, r) := mg_get_opening_streams m in
  match r with
  | Err e => Some (s, m, Err (EngineMeta e))
  | Ok streams =>
      let ends := list_to_map ((λ md, (sm_stream_id md, sm_end_offset md)) <$> reverse streams) in
      match recover_records None (upload_recovered config) RECOVER_BLOCK_SIZE items ends (s, m) with
      | None => None
      | Some ((s, m), _, Err e) => Some (s, m, Err e)
      | Some ((s, m), _, Ok _) =>
          let '(m, r) := close_streams m streams in
          Some (s, m, let? _ := r in map_err EngineWal reset)
      end
  end.
End StorageRecover.

(** ** The records recovery keeps *)

(** The continuous tail of a stream from offset [e]: records that start
    where the previous one ended; others are dropped. *)
Fixpoint accept (e : Z) (rs : list StreamRecordBatch) : list StreamRecordBatch :=
  match rs with
  | [] => []
  | r :: rest => if base_offset r =? e then r :: accept (last_offset r) rest else accept e rest
  end.

Definition of_stream (sid : Z) (rs : list StreamRecordBatch) : list StreamRecordBatch :=
  filter (λ r, stream_id r = sid) rs.

(** What recovery keeps of a stream, by the committed end offsets. *)
Definition recovered_tail (ends : gmap Z Z) (sid : Z) (rs : list StreamRecordBatch) :
    list StreamRecordBatch :=
  match ends !! sid with
  | None => []
  | Some e => accept e (of_stream sid rs)
  end.

Definition advance1 (ends : gmap Z Z) (r : StreamRecordBatch) : gmap Z Z :=
  match ends !! stream_id r with
  | Some e => if base_offset r =? e then <[stream_id r := last_offset r]> ends else ends
  | None => ends
  end.

Definition advance (ends : gmap Z Z) (rs : list StreamRecordBatch) : gmap Z Z := foldl advance1 ends rs.

(** A plain data record whose offsets do not leave the offset space. *)
Definition record_ok (r : StreamRecordBatch) : Prop :=
  well_formed r ∧ 0 < count r ∧ last_offset r = base_offset r + count r.

Lemma advance1_tail ends r sid rs :
  recovered_tail ends sid (r :: rs) =
  recovered_tail ends sid [r] ++ recovered_tail (advance1 ends r) sid rs.
Proof.
  unfold recovered_tail, advance1, of_stream. rewrite filter_cons.
  destruct (decide (stream_id r = sid)) as [<-|Hne].
  - destruct (ends !! stream_id r) as [e|] eqn:E; [|by rewrite E]. rewrite filter_cons, decide_True by done.
    cbn [accept filter]. destruct (base_offset r =? e); [by rewrite lookup_insert_eq|].
    rewrite E. done.
  - rewrite filter_cons, decide_False by done.
    assert (Hsame : match ends !! stream_id r with
      | Some e => if base_offset r =? e then <[stream_id r := last_offset r]> ends else ends
      | None => ends end !! sid = ends !! sid).
    { destruct (ends !! stream_id r); [|done]. destruct (_ =? _); [|done]. by rewrite lookup_insert_ne. }
    rewrite Hsame. by destruct (ends !! sid).
Qed.

Lemma advance_tail ends sid a b :
  recovered_tail ends sid (a ++ b) =
  recovered_tail ends sid a ++ recovered_tail (advance ends a) sid b.
Proof.
  revert ends. induction a as [|r a IH]; intros ends.
  { cbn. by unfold recovered_tail at 2; destruct (ends !! sid). }
  cbn [app advance foldl]. rewrite (advance1_tail ends r sid (a ++ b)), (advance1_tail ends r sid a), IH.
  by rewrite app_assoc.
Qed.

Lemma record_ok_lt r : record_ok r → base_offset r < last_offset r.
Proof. intros (_ & ? & ->). lia. Qed.

(** The tail is contiguous, and the end offset moves to its end. *)
Lemma advance_contig ends rs sid e :
  Forall record_ok rs → ends !! sid = Some e →
  ∃ e', advance ends rs !! sid = Some e' ∧ contig e (recovered_tail ends sid rs) e'.
Proof.
  intros Hok. revert ends e. induction Hok as [|r rs Hr Hrs IH]; intros ends e He.
  { exists e. split; [done|]. unfold recovered_tail. by rewrite He. }
  rewrite advance1_tail. cbn [advance foldl].
  assert (Hstep : ∃ e1, advance1 ends r !! sid = Some e1 ∧ contig e (recovered_tail ends sid [r]) e1).
  { unfold advance1, recovered_tail, of_stream. rewrite He, filter_cons.
    destruct (decide (stream_id r = sid)) as [<-|Hne].
    - rewrite He. cbn. destruct (Z.eqb_spec (base_offset r) e) as [<-|]; [|by exists e].
      exists (last_offset r). rewrite lookup_insert_eq. split; [done|]. cbn.
      by apply record_ok_lt in Hr.
    - exists e. split; [|done]. destruct (ends !! stream_id r); [|done].
      destruct (_ =? _); [|done]. by rewrite lookup_insert_ne. }
  destruct Hstep as (e1 & H1 & Hc1). destruct (IH _ _ H1) as (e' & H' & Hc').
  exists e'. split; [done|]. apply contig_app. eauto.
Qed.

Lemma advance_None ends rs sid : ends !! sid = None → advance ends rs !! sid = None.
Proof.
  revert ends. induction rs as [|r rs IH]; intros ends Hn; [done|]. cbn. apply IH. unfold advance1.
  destruct (ends !! stream_id r) eqn:E; [|done]. destruct (_ =? _); [|done].
  rewrite lookup_insert_ne; [done|]. intros <-. congruence.
Qed.

(** ** Recovered blocks *)

(** The total weight of the records of the streams [D]. *)
Definition lb_weight (f : StreamRecordBatch → Z) (D : gset Z) (b : LogCacheBlock) : Z :=
  sum_Z ((λ sid, sum_Z (f <$> block_log sid b)) <$> elements D).

Definition MAX_RECORD_COST : Z := 79 + two31.

Record rblock (max_size : Z) (b : LogCacheBlock) : Prop := {
  rb_ok : lb_ok b;
  rb_max : lb_max_size b = max_size ∧ lb_max_stream_count b = DEFAULT_MAX_BLOCK_STREAM_COUNT;
  rb_records : ∀ sid r, r ∈ block_log sid b → stream_id r = sid ∧ record_ok r;
  rb_nonempty : ∀ sid c, lb_map b !! sid = Some c → sc_records c ≠ [];
  rb_size : ∀ D, dom (lb_map b) ⊆ D → lb_weight occupied_size D b = lb_size b;
  rb_cost : ∀ D, dom (lb_map b) ⊆ D → lb_weight record_cost D b <= 2 * lb_size b ∧
    lb_weight record_cost D b <= 2 * max_size + MAX_RECORD_COST;
  rb_bound : 0 <= lb_size b <= max_size + MAX_RECORD_COST;
  rb_streams : (size (lb_map b) <= DEFAULT_MAX_BLOCK_STREAM_COUNT)%nat;
}.

Lemma record_cost_bound r : well_formed r →
  occupied_size r = batch_size r + 48 ∧ 0 <= batch_size r < two31 ∧ record_cost r = 79 + batch_size r.
Proof.
  intros (sid & ep & base & cnt & body & Hok & ->).
  pose proof (field_payload_length _ _ _ _ _ [] Hok) as F. rewrite app_nil_r in F.
  destruct Hok as (_ & _ & _ & _ & Hlen).
  assert (Hb : batch_size (new_batch sid ep base cnt body) = Z.of_nat (length body)).
  { unfold batch_size. rewrite F. apply wrap_u64_id. int_lia. }
  unfold occupied_size, record_cost, OBJECT_OVERHEAD. rewrite Hb, length_new_batch.
  change HEADER_SIZE with 33%nat. rewrite wrap_u64_id by int_lia. split_and!; lia.
Qed.

Lemma block_new_rblock max_size :
  0 < max_size → rblock max_size (block_new 0 max_size DEFAULT_MAX_BLOCK_STREAM_COUNT).
Proof.
  intros Hmax.
  assert (Hw : ∀ f D, lb_weight f D (block_new 0 max_size DEFAULT_MAX_BLOCK_STREAM_COUNT) = 0).
  { intros f D. unfold lb_weight. rewrite (sum_Z_ext _ (λ _, 0)), sum_Z_zero; [done|].
    intros sid _. by rewrite block_log_new. }
  assert (0 <= MAX_RECORD_COST) by done.
  split.
  - apply block_new_ok.
  - done.
  - intros sid r. rewrite block_log_new. by intros ?%not_elem_of_nil.
  - intros sid c. cbn. by rewrite lookup_empty.
  - intros D _. by rewrite Hw.
  - intros D _. rewrite Hw. cbn. lia.
  - cbn. lia.
  - cbn. rewrite map_size_empty. lia.
Qed.

Lemma lb_weight_put f D b b' r :
  (∀ sid, block_log sid b' = block_log sid b ++ (if sid =? stream_id r then [r] else [])) →
  stream_id r ∈ D → lb_weight f D b' = lb_weight f D b + f r.
Proof.
  intros Hlog Hin. unfold lb_weight.
  rewrite (sum_Z_ext (λ sid, sum_Z (f <$> block_log sid b'))
    (λ sid, sum_Z (f <$> block_log sid b) + (if sid =? stream_id r then f r else 0))).
  - rewrite sum_Z_plus, sum_Z_at; [done|apply NoDup_elements|by apply elem_of_elements].
  - intros sid _. rewrite Hlog, fmap_app, sum_Z_app. f_equal.
    destruct (sid =? stream_id r); cbn; lia.
Qed.

Lemma count_i32 r : is_i32 (count r).
Proof. apply wrap_i32_is_i32. Qed.

(** The span of one record always fits. *)
Lemma sc_add_fresh r : record_ok r → ∃ c, sc_add r sc_new = Some c.
Proof.
  intros (_ & Hc & Hl). unfold sc_add. cbn [sc_start_offset sc_new default from_option]. rewrite Hl.
  replace (base_offset r + count r - base_offset r) with (count r) by lia.
  pose proof (count_i32 r). rewrite wrap_u64_id by int_lia.
  destruct (Z.ltb_spec (two31 - 1) (count r)); [int_lia|eauto].
Qed.

(** Putting a record that continues its stream: the block grows by it, or it
    was full or its span would overflow. *)
Lemma rblock_put max_size b r added b' :
  rblock max_size b → max_size < 2 ^ 62 → record_ok r →
  ends_at (block_log (stream_id r) b) (base_offset r) →
  block_put r b = (added, b') →
  if added then rblock max_size b' ∧ lb_free b' = lb_free b ∧
    ∀ sid, block_log sid b' = block_log sid b ++ (if sid =? stream_id r then [r] else [])
  else is_full b = false → rblock max_size b' ∧ lb_map b ≠ ∅ ∧ ∀ sid, block_log sid b' = block_log sid b.
Proof.
  intros Hrb Hmax Hr Hend Hput.
  destruct (block_put_ok _ _ _ _ (rb_ok _ _ Hrb) Hput (record_ok_lt _ Hr) Hend) as (Hok' & Hid & Hfree & Hlog & Hsize).
  destruct (record_cost_bound r) as (Hocc & Hbs & Hcost); [apply Hr|].
  pose proof Hput as Hput'. unfold block_put in Hput'.
  destruct (is_full b) eqn:Efull; [by injection Hput' as <- _|].
  unfold is_full in Efull. apply orb_false_iff in Efull as [Efull Hcnt].
  apply orb_false_iff in Efull as [_ Hlt]. apply Z.leb_gt in Hlt. apply Nat.leb_gt in Hcnt.
  destruct Hrb as [_ [Hm1 Hm2] Hrec Hne Hsz Hct Hbd Hst]. rewrite Hm1 in Hlt. rewrite Hm2 in Hcnt.
  set (cache := default sc_new (lb_map b !! stream_id r)) in *.
  destruct (sc_add r cache) as [cache'|] eqn:Ea; injection Hput' as <- <-; cbn [andb] in Hlog.
  - assert (Hl : lb_size b + occupied_size r < two64) by (rewrite Hocc; unfold MAX_RECORD_COST in *; int_lia).
    assert (Hsz' : wrap_u64 (lb_size b + occupied_size r) = lb_size b + occupied_size r)
      by (apply wrap_u64_id; int_lia).
    split_and!; [|done|done]. split; cbn [lb_map lb_size field_set lb_max_size lb_max_stream_count].
    + done.
    + done.
    + intros sid r0. rewrite Hlog. intros [Hin|Hin]%elem_of_app; [by apply Hrec|].
      destruct (Z.eqb_spec sid (stream_id r)) as [->|]; [|by apply not_elem_of_nil in Hin].
      apply list_elem_of_singleton in Hin as ->. done.
    + intros sid c [[<- <-]|[_ ?]]%lookup_insert_Some; [|by eapply Hne].
      unfold sc_add in Ea. destruct (_ <? _) in Ea; [done|]. injection Ea as <-. cbn.
      by destruct (sc_records cache).
    + intros D HD. rewrite dom_insert_L in HD. rewrite (lb_weight_put _ _ b _ r Hlog) by set_solver.
      rewrite Hsz by set_solver. by rewrite Hsz'.
    + intros D HD. rewrite dom_insert_L in HD. rewrite (lb_weight_put _ _ b _ r Hlog) by set_solver.
      destruct (Hct D) as [H1 H2]; [set_solver|]. rewrite Hsz', Hcost, Hocc. unfold MAX_RECORD_COST. lia.
    + rewrite Hsz', Hocc. unfold MAX_RECORD_COST. lia.
    + rewrite map_size_insert. clear -Hcnt. destruct (lb_map b !! stream_id r); unfold id; lia.
  - intros _. assert (Hlog' : ∀ sid, block_log sid (b <| lb_map := <[stream_id r := cache]> (lb_map b) |> <| lb_overflow := true |>) = block_log sid b).
    { intros sid. rewrite Hlog. by rewrite app_nil_r. }
    assert (Hsome : ∃ c, lb_map b !! stream_id r = Some c).
    { unfold cache in Ea. destruct (lb_map b !! stream_id r) as [c|]; [eauto|].
      destruct (sc_add_fresh r Hr) as [c Hc]. cbn in Ea. congruence. }
    destruct Hsome as [c Hc]. unfold cache in *. rewrite Hc in *. cbn [default from_option id] in *.
    assert (Hmap : <[stream_id r := c]> (lb_map b) = lb_map b) by by apply insert_id.
    rewrite Hmap in *. split_and!; [|intros E; by rewrite E, lookup_empty in Hc|done].
    split; cbn [lb_map lb_size field_set lb_max_size lb_max_stream_count]; try done.
Qed.

(** ** Filling blocks *)
Notation recs rrs := (rr_record <$> rrs).

(** The block's records of a stream end at the offset recovery expects. *)
Definition tracks (b : LogCacheBlock) (ends : gmap Z Z) : Prop :=
  ∀ sid e, ends !! sid = Some e → ends_at (block_log sid b) e.

Lemma recovered_tail_1 ends r sid :
  recovered_tail ends sid [r] =
  if bool_decide (stream_id r = sid) && bool_decide (ends !! sid = Some (base_offset r)) then [r] else [].
Proof.
  unfold recovered_tail, of_stream. rewrite filter_cons. case_bool_decide as Hs; subst.
  - rewrite decide_True by done. destruct (ends !! stream_id r) as [e|] eqn:E; [|done].
    cbn [accept filter andb]. destruct (Z.eqb_spec (base_offset r) e) as [->|]; case_bool_decide; naive_solver.
  - rewrite decide_False by done. by destruct (ends !! sid).
Qed.

(** One record: dropped, added, or refused by the block. *)
Lemma process_spec max_size b ends rr :
  rblock max_size b → max_size < 2 ^ 62 → tracks b ends → record_ok (rr_record rr) → is_full b = false →
  (∃ b', process_record rr ends b = (None, advance1 ends (rr_record rr), b') ∧ rblock max_size b' ∧
     tracks b' (advance1 ends (rr_record rr)) ∧
     ∀ sid, block_log sid b' = block_log sid b ++ recovered_tail ends sid [rr_record rr]) ∨
  (∃ b', process_record rr ends b = (Some rr, ends, b') ∧ rblock max_size b' ∧
     ends !! stream_id (rr_record rr) = Some (base_offset (rr_record rr)) ∧ lb_map b ≠ ∅ ∧
     ∀ sid, block_log sid b' = block_log sid b).
Proof.
  intros Hrb Hmax Htr Hr Hfull. unfold process_record, advance1. set (r := rr_record rr) in *.
  destruct (ends !! stream_id r) as [e|] eqn:E.
  2:{ left. exists b. split_and!; [done|done|done|]. intros sid. rewrite recovered_tail_1.
      do 2 (case_bool_decide; [|by rewrite app_nil_r]). subst. congruence. }
  destruct (Z.eqb_spec (base_offset r) e) as [He|Hne].
  - subst e. rewrite Z.ltb_irrefl. destruct (block_put r b) as [added b'] eqn:Ep.
    pose proof (rblock_put max_size b r added b' Hrb Hmax Hr (Htr _ _ E) Ep) as Hput.
    destruct added.
    + left. destruct Hput as (Hrb' & _ & Hlog). exists b'. split_and!; [done|done| |].
      * intros sid e [[<- <-]|[Hn Hs]]%lookup_insert_Some.
        -- rewrite Hlog, Z.eqb_refl. intros s e' _ Hc. apply contig_app in Hc as (m & _ & Hc).
           cbn in Hc. by destruct Hc as (_ & _ & ->).
        -- rewrite Hlog. destruct (Z.eqb_spec sid (stream_id r)); [congruence|]. rewrite app_nil_r. by apply Htr.
      * intros sid. rewrite Hlog, recovered_tail_1. f_equal.
        destruct (Z.eqb_spec sid (stream_id r)) as [->|]; case_bool_decide; try congruence; cbn [andb]; [|done].
        by rewrite bool_decide_eq_true_2.
    + right. destruct (Hput Hfull) as (Hrb' & Hne & Hlog). by exists b'.
  - left. assert (Hdrop : ∀ sid, block_log sid b = block_log sid b ++ recovered_tail ends sid [r]).
    { intros sid. rewrite recovered_tail_1. do 2 (case_bool_decide; [|by rewrite app_nil_r]). subst. congruence. }
    exists b. split_and!; [|done|done|done].
    destruct (Z.ltb_spec (base_offset r) e); [done|]. destruct (Z.ltb_spec e (base_offset r)); [done|lia].
Qed.

Lemma fill_spec max_size rrs : max_size < 2 ^ 62 → Forall record_ok (recs rrs) →
  ∀ b ends block_last, rblock max_size b → tracks b ends →
  ∃ b' block_last' pending used rest,
    fill_block b ends block_last (Ok <$> rrs) =
      Ok (b', advance ends (recs used), block_last', pending, Ok <$> rest) ∧
    rblock max_size b' ∧
    (∀ sid, block_log sid b' = block_log sid b ++ recovered_tail ends sid (recs used)) ∧
    match pending with
    | None => rrs = used ++ rest
    | Some p => rrs = used ++ p :: rest ∧
        advance ends (recs used) !! stream_id (rr_record p) = Some (base_offset (rr_record p))
    end ∧
    (rrs ≠ [] → is_full b = false → lb_map b = ∅ → used ≠ []).
Proof.
  intros Hmax. induction rrs as [|rr rrs IH]; intros Hok b ends block_last Hrb Htr.
  { exists b, block_last, None, [], []. split_and!; [done|done| |done|done]. intros sid.
    unfold recovered_tail. destruct (ends !! sid); by rewrite app_nil_r. }
  cbn [fmap list_fmap fill_block]. apply Forall_cons in Hok as [Hr Hok].
  destruct (is_full b) eqn:Hfull.
  { exists b, block_last, None, [], (rr :: rrs). split_and!; [done|done| |done|done]. intros sid.
    unfold recovered_tail. destruct (ends !! sid); by rewrite app_nil_r. }
  destruct (process_spec max_size b ends rr Hrb Hmax Htr Hr Hfull) as
    [(b' & -> & Hrb' & Htr' & Hlog)|(b' & -> & Hrb' & He & Hne & Hlog)].
  - destruct (IH Hok b' _ (Some (rr_record_offset rr)) Hrb' Htr') as
      (b2 & bl & pending & used & rest & -> & Hrb2 & Hlog2 & Hsplit & _).
    exists b2, bl, pending, (rr :: used), rest. split_and!; [done|done| | |done].
    + intros sid. rewrite Hlog2, Hlog. cbn [fmap list_fmap].
      rewrite (advance1_tail ends (rr_record rr) sid (recs used)). by rewrite app_assoc.
    + destruct pending as [p|]; [|by rewrite Hsplit]. destruct Hsplit as [-> Hp]. split; [done|exact Hp].
  - exists b', block_last, (Some rr), [], rrs. split_and!; [done|done| |done|done|done].
    intros sid. rewrite Hlog. unfold recovered_tail. destruct (ends !! sid); by rewrite app_nil_r.
Qed.

(** The handler ran over these blocks, each time successfully. *)
Inductive handled {St} (h : St → LogCacheBlock → St * result unit EngineError) :
    St → list LogCacheBlock → St → Prop :=
| handled_nil st : handled h st [] st
| handled_cons st b st1 bs st' : h st b = (st1, Ok tt) → handled h st1 bs st' → handled h st (b :: bs) st'.

Lemma decode_links_none decoder records b :
  Forall (λ r, 0 <= count r) records → decode_links decoder records b = Ok b.
Proof.
  induction 1 as [|r records Hr _ IH]; [done|]. cbn. by destruct (Z.leb_spec 0 (count r)); [|lia].
Qed.

Lemma block_records_elem b r :
  r ∈ mjoin (ord_list (block_records b)).*2 → ∃ sid, r ∈ block_log sid b.
Proof.
  intros (rs & Hr & Hin)%list_elem_of_join. apply list_elem_of_fmap in Hin as ([sid rs'] & -> & Hin).
  apply elem_of_ord_list in Hin. unfold block_records in Hin. rewrite lookup_fmap in Hin.
  exists sid. unfold block_log. by destruct (lb_map b !! sid); simplify_option_eq.
Qed.

Lemma rblock_set_last max_size (block_last : option RecordOffset) b :
  rblock max_size b →
  let b' := match block_last with Some o => block_set_last_record_offset o b | None => b end in
  rblock max_size b' ∧ ∀ sid, block_log sid b' = block_log sid b.
Proof. intros []. by destruct block_last. Qed.

Lemma rblock_decode decoder max_size b : rblock max_size b → decode_link_records decoder b = Ok b.
Proof.
  intros Hrb. apply decode_links_none, Forall_forall. intros r (sid & Hin)%block_records_elem.
  destruct (rb_records _ _ Hrb _ _ Hin) as [_ (_ & ? & _)]. lia.
Qed.

Definition recover_pending (ends : gmap Z Z) (pending : option RecoverResult) : Prop :=
  match pending with
  | None => True
  | Some p => record_ok (rr_record p) ∧ ends !! stream_id (rr_record p) = Some (base_offset (rr_record p))
  end.

Definition with_pending (pending : option RecoverResult) (rrs : list RecoverResult) : list RecoverResult :=
  match pending with Some p => p :: rrs | None => rrs end.

Lemma block_new_not_full max_size :
  0 < max_size → is_full (block_new 0 max_size DEFAULT_MAX_BLOCK_STREAM_COUNT) = false.
Proof.
  intros. unfold is_full. cbn [lb_overflow lb_max_size lb_size lb_max_stream_count lb_map block_new].
  rewrite map_size_empty. destruct (Z.leb_spec max_size 0); [lia|done].
Qed.

(** A fresh block takes the carried record. *)
Lemma carried_spec max_size ends p :
  0 < max_size < 2 ^ 62 → record_ok (rr_record p) →
  ends !! stream_id (rr_record p) = Some (base_offset (rr_record p)) →
  let b := (block_put (rr_record p) (block_new 0 max_size DEFAULT_MAX_BLOCK_STREAM_COUNT)).2 in
  let ends1 := <[stream_id (rr_record p) := last_offset (rr_record p)]> ends in
  rblock max_size b ∧ ends1 = advance1 ends (rr_record p) ∧ tracks b ends1 ∧
  ∀ sid, block_log sid b = recovered_tail ends sid [rr_record p].
Proof.
  intros Hmax Hpr Hpe. set (b0 := block_new 0 max_size DEFAULT_MAX_BLOCK_STREAM_COUNT).
  assert (Hb0 : rblock max_size b0) by (apply block_new_rblock; lia).
  assert (Htr0 : tracks b0 ends) by (intros sid e _; unfold b0; rewrite block_log_new; by intros ???).
  assert (Ha1 : advance1 ends (rr_record p) = <[stream_id (rr_record p) := last_offset (rr_record p)]> ends)
    by (unfold advance1; by rewrite Hpe, Z.eqb_refl).
  pose proof (block_new_not_full max_size ltac:(lia)) as Hfull. fold b0 in Hfull.
  assert (Hadd : (block_put (rr_record p) b0).1 = true).
  { unfold block_put. rewrite Hfull. unfold b0. cbn [lb_map block_new]. rewrite lookup_empty. cbn [default from_option].
    destruct (sc_add_fresh _ Hpr) as [c ->]. done. }
  destruct (process_spec max_size b0 ends p Hb0 ltac:(lia) Htr0 Hpr Hfull) as
    [(b' & Hb' & H1 & H2 & H3)|(b' & Hb' & _)];
    unfold process_record in Hb'; rewrite Hpe, Z.ltb_irrefl in Hb';
    destruct (block_put (rr_record p) b0) as [added b]; cbn in Hadd; subst added; [|done].
  injection Hb' as _ ->. cbn [snd]. rewrite <-Ha1. split_and!; [done|done|done|].
  intros sid. rewrite H3. unfold b0. by rewrite block_log_new.
Qed.

Lemma recovered_tail_nil ends sid : recovered_tail ends sid [] = [].
Proof. unfold recovered_tail. by destruct (ends !! sid). Qed.

(** The block a round starts with. *)
Lemma round_start max_size ends pending :
  0 < max_size < 2 ^ 62 → recover_pending ends pending →
  ∃ b block_last,
    start_block max_size pending ends = (b, advance ends (recs (with_pending pending [])), block_last) ∧
    rblock max_size b ∧ tracks b (advance ends (recs (with_pending pending []))) ∧
    (pending = None → is_full b = false ∧ lb_map b = ∅) ∧
    ∀ sid, block_log sid b = recovered_tail ends sid (recs (with_pending pending [])).
Proof.
  intros Hmax Hp. destruct pending as [p|].
  - destruct Hp as [Hpr Hpe]. destruct (carried_spec max_size ends p Hmax Hpr Hpe) as (H1 & H2 & H3 & H4).
    eexists _, _. unfold start_block. rewrite H2 in H3 |- *. split_and!; [reflexivity|done|done|done|done].
  - eexists _, _. split; [done|]. split_and!.
    + apply block_new_rblock; lia.
    + intros sid e _. rewrite block_log_new. by intros ???.
    + intros _. split; [apply block_new_not_full; lia|done].
    + intros sid. by rewrite block_log_new, recovered_tail_nil.
Qed.

(** Grouping never loses a record: when the handler accepts every block, the
    blocks hold, stream by stream, exactly the recovered tails. *)
Lemma recover_loop_spec {St} decoder (h : St → LogCacheBlock → St * result unit EngineError) max_size fuel :
  0 < max_size < 2 ^ 62 → ∀ pending rrs ends st,
  Forall record_ok (recs rrs) → recover_pending ends pending →
  (length (with_pending pending rrs) < fuel)%nat →
  ∃ bs st' r ends', recover_loop decoder h fuel max_size pending (Ok <$> rrs) ends st = Some (st', ends', r) ∧
    Forall (rblock max_size) bs ∧ (length bs <= length (with_pending pending rrs))%nat ∧
    (r = Ok tt → handled h st bs st' ∧ ends' = advance ends (recs (with_pending pending rrs)) ∧
      ∀ sid, blocks_log sid bs = recovered_tail ends sid (recs (with_pending pending rrs))).
Proof.
  intros Hmax. induction fuel as [|fuel IH]; intros pending rrs ends st Hok Hp Hf; [lia|].
  cbn [recover_loop].
  destruct (decide (with_pending pending rrs = [])) as [Hnil|Hcons].
  { destruct pending, rrs; try done. exists [], st, (Ok tt), ends. split_and!; [done|done|done|].
    intros _. split_and!; [constructor|done|]. intros sid. by rewrite recovered_tail_nil. }
  destruct (round_start max_size ends pending Hmax Hp) as (b & bl & Hs & Hrb & Htr & Hnf & Hlog).
  destruct (fill_spec max_size rrs ltac:(lia) Hok b _ bl Hrb Htr) as
    (b' & bl' & pend' & used & rest & Hfill & Hrb' & Hlog' & Hsplit & Hprog).
  destruct (rblock_set_last max_size bl' b' Hrb') as [Hrb2 Hlog2].
  set (b2 := match bl' with Some o => block_set_last_record_offset o b' | None => b' end) in *.
  match goal with |- ∃ bs st' r ends', ?lhs = _ ∧ _ =>
    replace lhs with (recover_round decoder h (recover_loop decoder h fuel max_size) max_size pending
      (Ok <$> rrs) ends st) by (destruct pending; [done|]; by destruct rrs) end.
  unfold recover_round. rewrite Hs, Hfill. cbv iota beta zeta. fold b2.
  rewrite (rblock_decode decoder max_size b2 Hrb2). destruct (h st b2) as [st1 [[]|e]] eqn:Eh.
  2:{ eexists [], _, _, _. split_and!; [done|done|cbn; lia|done]. }
  set (ends1 := advance (advance ends (recs (with_pending pending []))) (recs used)) in *.
  assert (Hrest : Forall record_ok (recs rest) ∧ recover_pending ends1 pend' ∧
    with_pending pending rrs = (with_pending pending [] ++ used) ++ with_pending pend' rest ∧
    (length (with_pending pend' rest) < length (with_pending pending rrs))%nat).
  { assert (Hw : with_pending pending rrs = with_pending pending [] ++ rrs) by by destruct pending.
    assert (Hmove : (0 < length (with_pending pending [] ++ used))%nat).
    { destruct pending as [p|]; [cbn; lia|]. destruct (Hnf eq_refl) as [Hf1 Hf2].
      destruct used; [|cbn; lia]. by destruct (Hprog Hcons Hf1 Hf2). }
    rewrite Hw. destruct pend' as [p'|].
    - destruct Hsplit as [-> Hpe]. rewrite fmap_app in Hok. apply Forall_app in Hok as [_ Hok].
      apply Forall_cons in Hok as [Hp' Hok]. rewrite app_assoc, (length_app (_ ++ _)).
      cbn [with_pending]. split_and!; [done|done|done|lia].
    - subst rrs. rewrite fmap_app in Hok. apply Forall_app in Hok as [_ Hok].
      rewrite app_assoc, (length_app (_ ++ _)). cbn [with_pending]. split_and!; [done|done|done|lia]. }
  destruct Hrest as (Hok' & Hp' & Hsp & Hlen).
  destruct (IH pend' rest ends1 st1 Hok' Hp' ltac:(lia)) as (bs & st' & r & ends' & Hl & Hbs & Hn & Hr).
  exists (b2 :: bs), st', r, ends'. split_and!; [done|by constructor|cbn; lia|]. intros HrOk.
  destruct (Hr HrOk) as (Hh & He & Hlg). rewrite Hsp, fmap_app. split_and!; [by econstructor| |].
  - rewrite He. unfold ends1, advance. by rewrite !fmap_app, !foldl_app.
  - intros sid. rewrite blocks_log_cons, Hlog2, Hlog', Hlog, Hlg, fmap_app.
    rewrite (advance_tail _ _ (_ ++ _)), (advance_tail _ _ (recs (with_pending pending []))).
    unfold ends1, advance. by rewrite foldl_app.
Qed.

(** ** One recovered block *)
Lemma chain_spans s e l b :
  NoDup l.*1 → chain s e (span_of <$> l) = Some b →
  (∀ rs a c, (s, rs) ∈ l → record_bounds rs = Some (a, c) → a = e ∧ c = b) ∧
  (s ∉ l.*1 → b = e).
Proof.
  revert e. induction l as [|[s' rs'] l IH]; intros e Hnd Hc; cbn [fmap list_fmap] in *.
  { cbn in Hc. split; [by intros ??? ?%not_elem_of_nil|]. intros _. congruence. }
  apply NoDup_cons in Hnd as [Hni Hnd]. cbn [fst] in Hni.
  assert (Hs : span_of (s', rs') = (s', (span_of (s', rs')).1.2, (span_of (s', rs')).2)).
  { unfold span_of. cbn. by destruct (record_bounds rs') as [[? ?]|]. }
  rewrite Hs in Hc. cbn [chain] in Hc. destruct (Z.eqb_spec s' s) as [->|Hne].
  - destruct (Z.eqb_spec (span_of (s, rs')).1.2 e) as [He|]; [|done].
    apply IH in Hc as [_ Hb]; [|done]. specialize (Hb Hni). split; [|by intros []%not_elem_of_cons].
    intros rs a c [[= ->]|Hin]%elem_of_cons Hbd.
    + unfold span_of in He, Hb. cbn in He, Hb. rewrite Hbd in He, Hb. cbn in He, Hb. done.
    + destruct Hni. apply list_elem_of_fmap. by exists (s, rs).
  - apply IH in Hc as [Hin Hout]; [|done]. split.
    + intros rs a c [[= <- _]|?]%elem_of_cons; [done|]. by apply Hin.
    + intros [_ ?]%not_elem_of_cons. auto.
Qed.

Lemma contig_record_bounds s rs e : rs ≠ [] → contig s rs e → record_bounds rs = Some (s, e).
Proof.
  intros Hne Hc. unfold record_bounds. destruct rs as [|r rs]; [done|]. cbn [head].
  destruct (last (r :: rs)) as [l|] eqn:El; [|by apply last_None in El]. cbn.
  rewrite (contig_last _ _ _ _ Hc El). by destruct Hc as [-> _].
Qed.

Lemma plan_count config records :
  records ≠ ∅ → (0 < object_count (plan config records) <= size records)%nat.
Proof.
  intros Hne. pose proof (plan_partition config records) as Hp. apply Permutation_length in Hp.
  rewrite length_app, !length_map_to_list in Hp.
  assert (Hsz : (0 < size records)%nat) by (destruct (size records) eqn:E; [by apply map_size_empty_inv in E|lia]).
  unfold object_count. set (sm := ut_stream_set_object_map _) in *. set (om := ut_stream_object_map _) in *.
  assert (Hsm : sm ≠ ∅ → (0 < size sm)%nat).
  { intros H. destruct (size sm) eqn:E; [by apply map_size_empty_inv in E|lia]. }
  destruct (decide (sm = ∅)) as [E|E].
  - rewrite E, map_size_empty in Hp. lia.
  - specialize (Hsm E). lia.
Qed.

Lemma block_records_lookup b sid rs :
  block_records b !! sid = Some rs → ∃ c, lb_map b !! sid = Some c ∧ rs = sc_records c ∧ rs = block_log sid b.
Proof.
  unfold block_records, block_log. rewrite lookup_fmap.
  destruct (lb_map b !! sid) as [c|]; [|done]. cbn. intros [= <-]. eauto.
Qed.

(** The records' cost is spread over the writes. *)
Lemma records_cost_sum rs : records_cost rs = sum_Z (record_cost <$> rs).
Proof. induction rs as [|r rs IH]; [done|]. cbn. by rewrite <-IH. Qed.

Lemma tagged_cost l : records_cost (tagged l).*2 = sum_Z ((λ p, sum_Z (record_cost <$> p.2)) <$> l).
Proof.
  induction l as [|[sid rs] l IH]; [done|].
  change (tagged ((sid, rs) :: l)) with ((pair sid <$> rs) ++ tagged l).
  assert (Hsnd : (pair sid <$> rs).*2 = rs) by (clear; induction rs; cbn; congruence).
  rewrite fmap_app, records_cost_app, IH, Hsnd, records_cost_sum. done.
Qed.

Lemma sum_Z_perm l l' : l ≡ₚ l' → sum_Z l = sum_Z l'.
Proof. induction 1; cbn; lia. Qed.

Lemma sum_Z_nonneg l : Forall (λ z, 0 <= z) l → 0 <= sum_Z l.
Proof. induction 1; cbn; lia. Qed.

Lemma record_cost_nonneg r : 0 <= record_cost r.
Proof. unfold record_cost. lia. Qed.

Lemma block_cost b :
  sum_Z ((λ p, sum_Z (record_cost <$> p.2)) <$> map_to_list (block_records b)) =
  lb_weight record_cost (dom (lb_map b)) b.
Proof.
  unfold lb_weight. assert (Hperm : elements (dom (lb_map b)) ≡ₚ (map_to_list (block_records b)).*1).
  { apply NoDup_Permutation; [apply NoDup_elements|apply NoDup_fst_map_to_list|]. intros sid.
    rewrite elem_of_elements, elem_of_dom, list_elem_of_fmap. unfold block_records. split.
    - intros [c Hc]. exists (sid, sc_records c). split; [done|]. apply elem_of_map_to_list. by rewrite lookup_fmap, Hc.
    - intros ([z rs] & -> & Hin). apply elem_of_map_to_list in Hin. rewrite lookup_fmap in Hin.
      cbn. destruct (lb_map b !! z); [eauto|done]. }
  rewrite (sum_Z_perm _ _ (fmap_Permutation _ _ _ Hperm)), <-list_fmap_compose. apply sum_Z_ext.
  intros [sid rs] Hin. apply elem_of_map_to_list, block_records_lookup in Hin as (c & _ & _ & ->). done.
Qed.

Lemma object_writes_bounded objs l (o : UploadedObject) :
  mjoin (uo_writes <$> objs) ≡ₚ l → o ∈ objs →
  sum_Z ((λ p, sum_Z (record_cost <$> p.2)) <$> uo_writes o) <=
  sum_Z ((λ p, sum_Z (record_cost <$> p.2)) <$> l).
Proof.
  intros Hp Ho. rewrite <-(sum_Z_perm _ _ (fmap_Permutation (λ p, sum_Z (record_cost <$> p.2)) _ _ Hp)).
  apply list_elem_of_split in Ho as (o1 & o2 & ->). rewrite fmap_app, join_app, fmap_app, sum_Z_app.
  change (mjoin (uo_writes <$> o :: o2)) with (uo_writes o ++ mjoin (uo_writes <$> o2)).
  rewrite fmap_app, sum_Z_app.
  assert (Hnn : ∀ x : list (Z * list StreamRecordBatch), 0 <= sum_Z ((λ p, sum_Z (record_cost <$> p.2)) <$> x)).
  { intros x. apply sum_Z_nonneg, Forall_fmap, Forall_true. intros p. cbn. apply sum_Z_nonneg, Forall_fmap, Forall_true.
    apply record_cost_nonneg. }
  pose proof (Hnn (mjoin (uo_writes <$> o1))). pose proof (Hnn (mjoin (uo_writes <$> o2))). lia.
Qed.

Lemma well_formed_stream_id r : well_formed r → is_u64 (stream_id r).
Proof.
  intros (sid & ep & base & cnt & body & Hok & ->). pose proof (field_stream_id _ _ _ _ _ [] Hok) as F.
  rewrite app_nil_r in F. unfold stream_id. rewrite F. apply Hok.
Qed.

Lemma describe_spans objs :
  mjoin (snd <$> (describe <$> objs)) = span_of <$> mjoin (uo_writes <$> objs).
Proof.
  induction objs as [|o objs IH]; [done|].
  change ((span_of <$> uo_writes o) ++ mjoin (snd <$> (describe <$> objs)) =
    span_of <$> (uo_writes o ++ mjoin (uo_writes <$> objs))). by rewrite IH, fmap_app.
Qed.

Section RecoverProofs.
Context {S W Mg : Type} `{HS : ObjectStorageContract S W} `{HM : EngineMetadataContract Mg}.
Context (writer_bucket_id : W → Z) (config : UploadConfig).
Implicit Types (s : S) (m : Mg).

(** A record held by a registered object whose bytes are in the storage. *)
Definition held s m (sid : Z) (r : StreamRecordBatch) : Prop :=
  ∃ id size writes bs rs, 0 <= id < next_object_id m ∧
    registered m id = Some (size, span_of <$> writes) ∧ stored s id size writes bs ∧
    writes_ok writes ∧ object_cost writes < two32 ∧
    (sid, rs) ∈ writes ∧ r ∈ rs ∧ ∃ a e, contig a rs e.

(** Later uploads keep registrations and the objects under earlier ids. *)
Definition extends (s : S) (m : Mg) (s' : S) (m' : Mg) : Prop :=
  next_object_id m <= next_object_id m' ∧
  (∀ i, is_Some (registered m i) → registered m' i = registered m i) ∧
  (∀ i, 0 <= i < next_object_id m → object s' (gen_object_key i) = object s (gen_object_key i)).

Lemma held_extends s m s' m' sid r : extends s m s' m' → held s m sid r → held s' m' sid r.
Proof.
  intros (Hn & Hreg & Hobj) (id & size & writes & bs & rs & Hid & Hr & Hst & Hrest).
  exists id, size, writes, bs, rs. split_and!; try apply Hrest; [lia|lia| |].
  - by rewrite Hreg.
  - apply (stored_frame s); [done|]. by apply Hobj.
Qed.

Lemma extends_refl s m : extends s m s m.
Proof. split_and!; [lia|done|done]. Qed.

Lemma extends_trans s1 m1 s2 m2 s3 m3 :
  extends s1 m1 s2 m2 → extends s2 m2 s3 m3 → extends s1 m1 s3 m3.
Proof.
  intros (N1 & R1 & O1) (N2 & R2 & O2). split_and!; [lia| |].
  - intros i Hi. rewrite R2; [by apply R1|]. by rewrite R1.
  - intros i Hi. rewrite O2 by lia. by apply O1.
Qed.

(** What a successful upload of a recovered block achieves. *)
Definition block_committed (b : LogCacheBlock) s m s' m' : Prop :=
  mg_ok m' ∧ next_object_id m' <= next_object_id m + Z.of_nat DEFAULT_MAX_BLOCK_STREAM_COUNT ∧
  extends s m s' m' ∧
  (∀ sid e, stream_end m sid = Some e →
     ∃ e', stream_end m' sid = Some e' ∧ contig e (block_log sid b) e') ∧
  (∀ sid r, r ∈ block_log sid b → held s' m' sid r).

Lemma rblock_empty b :
  rblock RECOVER_BLOCK_SIZE b → lb_size b = 0 → ∀ sid, block_log sid b = [].
Proof.
  intros Hrb Hz sid. unfold block_log. destruct (lb_map b !! sid) as [c|] eqn:E; [|done]. cbn. exfalso.
  pose proof (rb_nonempty _ _ Hrb _ _ E) as Hne.
  destruct (sc_records c) as [|r rs] eqn:Er; [done|].
  destruct (rb_cost _ _ Hrb (dom (lb_map b)) ltac:(done)) as [Hc _]. rewrite Hz in Hc.
  rewrite <-block_cost in Hc.
  assert (Hin : (sid, r :: rs) ∈ map_to_list (block_records b)).
  { apply elem_of_map_to_list. unfold block_records. by rewrite lookup_fmap, E, <-Er. }
  apply list_elem_of_split in Hin as (l1 & l2 & Hl). rewrite Hl, fmap_app, sum_Z_app in Hc. cbn in Hc.
  assert (Hnn : ∀ x : list (Z * list StreamRecordBatch), 0 <= sum_Z ((λ p, sum_Z (record_cost <$> p.2)) <$> x)).
  { intros x. apply sum_Z_nonneg, Forall_fmap, Forall_true. intros p. cbn. apply sum_Z_nonneg, Forall_fmap, Forall_true.
    apply record_cost_nonneg. }
  pose proof (Hnn l1). pose proof (Hnn l2).
  pose proof (sum_Z_nonneg (record_cost <$> rs) ltac:(apply Forall_fmap, Forall_true; apply record_cost_nonneg)).
  unfold record_cost at 2 in Hc. lia.
Qed.

Lemma block_writes_ok b objs o :
  rblock RECOVER_BLOCK_SIZE b → mjoin (uo_writes <$> objs) ≡ₚ map_to_list (block_records b) → o ∈ objs →
  writes_ok (uo_writes o) ∧ object_cost (uo_writes o) < two32 ∧
  ∀ sid rs, (sid, rs) ∈ uo_writes o → rs = block_log sid b.
Proof.
  intros Hrb Hp Ho.
  assert (Hin : ∀ p, p ∈ uo_writes o → block_records b !! p.1 = Some p.2).
  { intros [sid rs] Hin. apply elem_of_map_to_list. rewrite <-Hp. apply list_elem_of_join.
    exists (uo_writes o). split; [done|]. by apply list_elem_of_fmap_2. }
  split_and!.
  - apply Forall_forall. intros [sid rs] Hw. destruct (block_records_lookup b sid rs (Hin _ Hw)) as (c & Hc & Hrs & Hlog).
    assert (Hall : ∀ r, r ∈ rs → stream_id r = sid ∧ record_ok r).
    { intros r Hr. rewrite Hlog in Hr. by apply (rb_records _ _ Hrb). }
    pose proof (rb_nonempty _ _ Hrb _ _ Hc) as Hne. rewrite <-Hrs in Hne. cbn. split.
    + destruct rs as [|r rs]; [done|]. destruct (Hall r ltac:(left)) as [<- [Hwf _]].
      by apply well_formed_stream_id.
    + apply Forall_forall. intros r Hr. destruct (Hall r Hr) as [_ [Hwf _]]. done.
  - unfold object_cost. rewrite tagged_cost.
    pose proof (object_writes_bounded objs _ o Hp Ho) as Hle. rewrite block_cost in Hle.
    destruct (rb_cost _ _ Hrb (dom (lb_map b)) ltac:(done)) as [_ Hc].
    unfold RECOVER_BLOCK_SIZE, MAX_RECORD_COST, two31, two32 in *. change (Z.of_nat FOOTER_SIZE) with 48. lia.
  - intros sid rs Hw. destruct (block_records_lookup b sid rs (Hin _ Hw)) as (c & _ & _ & ->). done.
Qed.

Lemma objs_ids_bounded s s' id objs o :
  objects_from s s' id objs → o ∈ objs → id <= uo_id o < id + Z.of_nat (length objs).
Proof.
  intros (Hids & _ & _) Ho. apply elem_of_seqZ. rewrite <-Hids. by apply list_elem_of_fmap_2.
Qed.

Lemma upload_recovered_ok b s m s' m' :
  rblock RECOVER_BLOCK_SIZE b → mg_ok m →
  next_object_id m + Z.of_nat DEFAULT_MAX_BLOCK_STREAM_COUNT < u64_max →
  upload_recovered writer_bucket_id config (s, m) b = ((s', m'), Ok tt) → block_committed b s m s' m'.
Proof.
  intros Hrb Hm Hroom Hup. unfold upload_recovered in Hup.
  destruct (Z.eqb_spec (lb_size b) 0) as [Hz|Hnz].
  { injection Hup as <- <-. pose proof (rblock_empty b Hrb Hz) as Hempty. split_and!; [done|lia|apply extends_refl| |].
    - intros sid e He. exists e. by rewrite Hempty.
    - intros sid r. rewrite Hempty. by intros ?%not_elem_of_nil. }
  assert (Hne : block_records b ≠ ∅).
  { intros E. apply Hnz. rewrite <-(rb_size _ _ Hrb (dom (lb_map b))) by done. unfold block_records in E.
    apply fmap_empty_inv in E. unfold lb_weight. rewrite E, dom_empty_L, elements_empty. done. }
  pose proof (plan_count config _ Hne) as Hcount.
  assert (Hsize : (size (block_records b) <= DEFAULT_MAX_BLOCK_STREAM_COUNT)%nat).
  { unfold block_records. rewrite map_size_fmap. apply (rb_streams _ _ Hrb). }
  set (t := plan config (block_records b)) in *. unfold prepare in Hup.
  destruct (mg_prepare_object m _ _) as [m1 [id|e]] eqn:Ep; [|done].
  assert (Hlim : Z.of_nat DEFAULT_MAX_BLOCK_STREAM_COUNT = 10000) by done.
  apply prepare_leases in Ep as (Hm1 & -> & Hnext & Hend1 & Hreg1); [|done|int_lia|unfold u64_max in *; int_lia].
  pose proof (next_object_id_nonneg m Hm) as Hid0. set (id := next_object_id m) in *.
  destruct (upload _ s _) as [[s1 t1] [[]|e]] eqn:Eu; [|done].
  destruct (upload_inv writer_bucket_id config (block_records b) id s s1 t1 Eu Hid0) as
    (req & objs & Hreq & Hnc & Hobjs & Hlen & Hdesc & Hperm).
  { change (object_count _) with (object_count t). lia. }
  change (object_count _) with (object_count t) in Hlen.
  unfold commit in Hup. rewrite Hreq in Hup.
  destruct (mg_commit_stream_set_object m1 req) as [m2 [[]|e]] eqn:Ec; [|done]. injection Hup as <- <-.
  assert (Hids : (λ o : Z * Z * list (Z * Z * Z), o.1.1) <$> request_objects req = uo_id <$> objs)
    by (rewrite Hdesc, <-list_fmap_compose; done).
  apply commit_registers in Ec as (Hm2 & Hnext2 & Hends & Hregin & Hregout); [|done|done| | |].
  2:{ rewrite Hdesc. destruct objs; [cbn in Hlen; lia|done]. }
  2:{ rewrite Hdesc. apply Forall_fmap, Forall_forall. intros o Ho. cbn.
      pose proof (objs_ids_bounded _ _ _ _ _ Hobjs Ho). split; [lia|]. rewrite Hreg1.
      destruct (registered m (uo_id o)) eqn:Er; [|done]. exfalso.
      assert (uo_id o < next_object_id m) by (apply registered_leased; eauto). lia. }
  2:{ rewrite Hids. destruct Hobjs as [-> _]. apply NoDup_seqZ. }
  split_and!; [done|lia| | |].
  - split_and!; [lia| |].
    + intros i Hi. rewrite Hregout; [by rewrite Hreg1|]. rewrite Hids. destruct Hobjs as [-> _].
      rewrite elem_of_seqZ. apply registered_leased in Hi; [|done]. lia.
    + intros i Hi. destruct Hobjs as (_ & _ & Hfr). apply Hfr. intros j Hj. apply key_ne; unfold u64_max in *; int_lia.
  - intros sid e He. rewrite <-Hend1 in He. destruct (Hends _ _ He) as (e' & Hch & He').
    exists e'. split; [done|]. rewrite commit_ranges_request, Hdesc, describe_spans in Hch.
    apply chain_spans in Hch as [Hin Hout]; [|rewrite Hperm; apply NoDup_fst_map_to_list].
    unfold block_log. destruct (lb_map b !! sid) as [c|] eqn:E; cbn.
    + pose proof (rb_nonempty _ _ Hrb _ _ E) as Hnec.
      destruct (sc_ok_inv c (rb_ok _ _ Hrb _ _ E)) as [[? _]|(a & z & _ & _ & _ & Hc & _)]; [done|].
      destruct (Hin (sc_records c) a z) as [-> ->]; [|by apply contig_record_bounds|done].
      rewrite Hperm. apply elem_of_map_to_list. unfold block_records. by rewrite lookup_fmap, E.
    + rewrite Hout; [done|]. rewrite Hperm. intros Hx. apply list_elem_of_fmap in Hx as ([? rs] & -> & Hx).
      apply elem_of_map_to_list, block_records_lookup in Hx as (c & Hc & _). cbn in E. congruence.
  - intros sid r Hr. unfold block_log in Hr. destruct (lb_map b !! sid) as [c|] eqn:E; [|by apply not_elem_of_nil in Hr].
    cbn in Hr. assert (Hw : (sid, sc_records c) ∈ mjoin (uo_writes <$> objs)).
    { rewrite Hperm. apply elem_of_map_to_list. unfold block_records. by rewrite lookup_fmap, E. }
    apply list_elem_of_join in Hw as (ws & Hw & Hws). apply list_elem_of_fmap in Hws as (o & -> & Ho).
    destruct (block_writes_ok b objs o Hrb Hperm Ho) as (Hwok & Hcost & _).
    pose proof (objs_ids_bounded _ _ _ _ _ Hobjs Ho). destruct Hobjs as (_ & Hst & _).
    rewrite Forall_forall in Hst. destruct (Hst o Ho) as [Hsto _].
    exists (uo_id o), (uo_size o), (uo_writes o), (uo_blocks o), (sc_records c).
    split_and!; try done; [lia|lia| |].
    + apply Hregin. rewrite Hdesc. apply list_elem_of_fmap. exists o. split; [|done]. done.
    + destruct (sc_ok_inv c (rb_ok _ _ Hrb _ _ E)) as [[E' _]|(a & z & _ & _ & _ & Hc & _)]; [|eauto].
      rewrite E' in Hr. by apply not_elem_of_nil in Hr.
Qed.

(** Uploading the recovered blocks one after the other. *)
Lemma handled_ok s m bs s' m' :
  handled (upload_recovered writer_bucket_id config) (s, m) bs (s', m') →
  Forall (rblock RECOVER_BLOCK_SIZE) bs → mg_ok m →
  next_object_id m + Z.of_nat (length bs) * Z.of_nat DEFAULT_MAX_BLOCK_STREAM_COUNT < u64_max →
  mg_ok m' ∧ extends s m s' m' ∧
  (∀ sid e, stream_end m sid = Some e →
     ∃ e', stream_end m' sid = Some e' ∧ contig e (blocks_log sid bs) e') ∧
  (∀ sid r, r ∈ blocks_log sid bs → held s' m' sid r).
Proof.
  intros Hhd. remember (s, m) as st eqn:E. remember (s', m') as st' eqn:E'. revert s m E.
  induction Hhd as [st|st b [s1 m1] bs st' Hh _ IH]; intros s m -> Hbs Hm Hroom.
  { injection E' as <- <-. split_and!; [done|apply extends_refl| |].
    - intros sid e He. by exists e.
    - intros sid r. by intros ?%not_elem_of_nil. }
  apply Forall_cons in Hbs as [Hb Hbs]. cbn [length] in Hroom.
  assert (Hlim : Z.of_nat DEFAULT_MAX_BLOCK_STREAM_COUNT = 10000) by done.
  destruct (upload_recovered_ok b s m s1 m1 Hb Hm ltac:(lia) Hh) as (Hm1 & Hn1 & Hx1 & He1 & Hh1).
  destruct (IH E' s1 m1 eq_refl Hbs Hm1 ltac:(lia)) as (Hm' & Hx' & He' & Hh').
  split_and!; [done|by eapply extends_trans| |].
  - intros sid e He. destruct (He1 _ _ He) as (e1 & Hs1 & Hc1). destruct (He' _ _ Hs1) as (e2 & Hs2 & Hc2).
    exists e2. split; [done|]. rewrite blocks_log_cons. apply contig_app. eauto.
  - intros sid r. rewrite blocks_log_cons. intros [Hr|Hr]%elem_of_app; [|by apply Hh'].
    eapply held_extends; [exact Hx'|]. by apply Hh1.
Qed.

Lemma close_streams_keeps m streams m' r :
  mg_ok m → close_streams m streams = (m', r) →
  mg_ok m' ∧ (∀ x, stream_end m' x = stream_end m x) ∧ (∀ i, registered m' i = registered m i) ∧
  (r = Ok tt → ∀ md, md ∈ streams → stream_closed m' (sm_stream_id md)) ∧
  (∀ x, stream_closed m x → stream_closed m' x).
Proof.
  revert m. induction streams as [|st streams IH]; intros m Hm; cbn [close_streams].
  { intros Heq. injection Heq as <- _. split_and!; try done. by intros _ md ?%not_elem_of_nil. }
  destruct (mg_close_stream m _ _) as [m1 r1] eqn:E. apply close_keeps in E as (Hm1 & He1 & Hr1 & Hc1 & Hk1); [|done].
  destruct r1 as [[]|]; [|intros Heq; injection Heq as <- <-; done]. intros (Hm' & He' & Hr' & Hc' & Hk')%IH; [|done].
  split_and!; [done|intros; by rewrite ?He', ?Hr'..| |auto].
  intros Hr md [->|Hin]%elem_of_cons; [by apply Hk', Hc1|by apply Hc'].
Qed.

(** A record that can be read back from a registered object: its range
    covers the record, and a reader decodes it from the object's blocks. *)
Definition committed_record s m (sid : Z) (r : StreamRecordBatch) : Prop :=
  ∃ id size ranges writes bs rs, registered m id = Some (size, ranges) ∧
    (∃ a b, (sid, a, b) ∈ ranges ∧ a <= base_offset r ∧ last_offset r <= b) ∧
    (sid, rs) ∈ writes ∧ r ∈ rs ∧
    ∀ md, om_object_id md = id → om_object_size md = size → object_reads s md writes bs.

Lemma held_committed s m m' sid r :
  available s → (∀ i, registered m' i = registered m i) → held s m sid r → committed_record s m' sid r.
Proof.
  intros Hav Hreg (id & size & writes & bs & rs & _ & Hr & Hst & Hok & Hcost & Hw & Hin & a & e & Hc).
  exists id, size, (span_of <$> writes), writes, bs, rs. rewrite Hreg. split_and!; [done| |done|done|].
  - exists a, e. pose proof Hin as [i Hi]%list_elem_of_lookup.
    pose proof (contig_bounds _ _ _ _ _ Hc Hi). split; [|lia]. apply list_elem_of_fmap. exists (sid, rs).
    split; [|done]. unfold span_of. cbn. erewrite contig_record_bounds; [done| |done]. intros ->. by apply not_elem_of_nil in Hin.
  - intros md Hid Hsz. by eapply stored_reads.
Qed.
End RecoverProofs.

Lemma opening_ends streams md :
  NoDup (sm_stream_id <$> streams) → md ∈ streams →
  (list_to_map ((λ md, (sm_stream_id md, sm_end_offset md)) <$> reverse streams) : gmap Z Z) !!
    sm_stream_id md = Some (sm_end_offset md).
Proof.
  intros Hnd Hin. apply elem_of_list_to_map_1.
  - rewrite <-list_fmap_compose. change (NoDup (sm_stream_id <$> reverse streams)).
    rewrite reverse_Permutation. done.
  - apply list_elem_of_fmap. exists md. split; [done|]. by apply elem_of_reverse.
Qed.

(** C3: Recovery on start loses nothing. Whatever records the WAL streams, in
    whatever order and split into however many bounded blocks, recovery
    returns; and when it reports success, every opening stream has been
    extended, in the metadata, by exactly the continuous tail of its WAL
    records from its committed end offset, every record of that tail reads
    back from a registered object whose range covers it, and the stream is
    closed. *)
Theorem recovery_commits_the_tail {S W Mg : Type} `{ObjectStorageContract S W}
    `{EngineMetadataContract Mg} (writer_bucket_id : W → Z) config rrs reset (s : S) (m : Mg) :
  mg_ok m → Forall record_ok (recs rrs) →
  next_object_id m + Z.of_nat (length rrs) * 10000 < u64_max →
  ∃ s' m' r, recover writer_bucket_id config (Ok <$> rrs) reset s m = Some (s', m', r) ∧
    (r = Ok tt → available s' →
     ∃ m0 streams, mg_get_opening_streams m = (m0, Ok streams) ∧
       ∀ md, md ∈ streams →
         let tail := accept (sm_end_offset md) (of_stream (sm_stream_id md) (recs rrs)) in
         stream_closed m' (sm_stream_id md) ∧
         ∃ e, contig (sm_end_offset md) tail e ∧ stream_end m' (sm_stream_id md) = Some e ∧
           Forall (committed_record s' m' (sm_stream_id md)) tail).
Proof.
  intros Hm Hok Hroom. unfold recover.
  destruct (mg_get_opening_streams m) as [m0 [streams|e]] eqn:Eo; [|eexists _, _, _; split; [reflexivity|done]].
  apply opening_listed in Eo as (Hm0 & Hn0 & Hnd & Hends & _); [|done].
  set (ends := list_to_map _).
  destruct (recover_loop_spec None (upload_recovered writer_bucket_id config) RECOVER_BLOCK_SIZE
    (loop_fuel (Ok <$> rrs)) ltac:(done) None rrs ends (s, m0) Hok I) as (bs & [s1 m1] & r & ends' & Hl & Hbs & Hlen & Hr).
  { unfold loop_fuel. rewrite length_fmap. cbn. lia. }
  unfold recover_records. rewrite Hl. destruct r as [[]|e]; [|eexists _, _, _; split; [reflexivity|done]].
  destruct (Hr eq_refl) as (Hh & _ & Hlog). clear Hr. cbn [with_pending] in *.
  destruct (close_streams m1 streams) as [m2 r2] eqn:Ec.
  assert (Hlim : Z.of_nat DEFAULT_MAX_BLOCK_STREAM_COUNT = 10000) by done.
  destruct (handled_ok _ _ _ _ _ _ _ Hh Hbs Hm0 ltac:(lia)) as (Hm1 & _ & He1 & Hh1).
  destruct (close_streams_keeps _ _ _ _ Hm1 Ec) as (_ & He2 & Hr2 & Hc2 & _).
  eexists _, _, _. split; [done|]. intros Hdone Hav. exists m0, streams. split; [done|]. intros md Hmd.
  set (tail := accept _ _). split; [apply Hc2; [|done]; by destruct r2 as [[]|]|].
  assert (Htail : blocks_log (sm_stream_id md) bs = tail).
  { rewrite Hlog. unfold recovered_tail, ends. by rewrite (opening_ends streams md Hnd Hmd). }
  destruct (He1 _ _ (Hends md Hmd)) as (e & Hs1 & Hc). exists e. rewrite <-Htail.
  split_and!; [done|by rewrite He2|]. apply Forall_forall. intros r Hr. eapply held_committed; [done|done|].
  by apply Hh1.
Qed.

(** ** Example: one node restarts with records in its WAL *)
Definition demo_handle : MetadataNodeHandle := {| nh_node_id := 1; nh_node_epoch := 5 |}.
Definition demo_sink : LocalSink := local_with_state MetaHistory.demo_state 8.
Definition demo_rr (sid base : Z) (off : Z) : RecoverResult := {|
  rr_record := demo_rec sid base 3;
  rr_record_offset := {| rof_epoch := 1; rof_offset := off; rof_size := 60 |} |}.

(** Already committed, two new ones, one after a gap, a closed stream. *)
Definition demo_wal : list RecoverResult :=
  [demo_rr 0 8 0; demo_rr 0 10 60; demo_rr 0 12 120; demo_rr 0 20 180; demo_rr 9 0 240].
Definition demo_upload_config : UploadConfig := {|
  uc_stream_split_size := 1000; uc_object_block_size := 100; uc_object_part_size := 1000 |}.
Definition demo_bucket (_ : MemoryMultipartWriter) : Z := 0.

Definition demo_recover :
    option (MemoryObjectStorage * LocalSink * result unit EngineError) :=
  @recover _ _ _ _ (local_engine demo_handle 9) demo_bucket demo_upload_config (Ok <$> demo_wal) (Ok tt)
    (mem_new 0 0) demo_sink.

Lemma demo_sink_ok : sink_engine_ok demo_sink.
Proof.
  split; [|done]. apply Inv_engine_ok; [exact MetaHistory.demo_Inv|].
  assert (Hall : map_Forall (λ id _, id < ms_next_object_id MetaHistory.demo_state)
      (ms_stream_set_objects MetaHistory.demo_state) ∧
    ms_stream_object_ids MetaHistory.demo_state = ∅).
  { split; [|by vm_compute]. apply (bool_decide_unpack _). by vm_compute. }
  destruct Hall as [Hset Hids]. intros id. unfold state_registered. cbn [ls_state demo_sink local_with_state].
  destruct (ms_stream_set_objects _ !! id) as [row|] eqn:E; [intros _; exact (Hset _ _ E)|].
  rewrite Hids, lookup_empty. by intros [? ?].
Qed.

Lemma demo_wal_ok : Forall record_ok (recs demo_wal).
Proof.
  assert (Hwf : ∀ sid base, is_u64 sid → is_u64 base → well_formed (demo_rec sid base 3)).
  { intros sid base Hs Hb. eexists _, _, _, _, _. split; [|reflexivity]. unfold parts_ok. cbn. int_lia. }
  unfold demo_wal, demo_rr. cbn [fmap list_fmap rr_record].
  repeat (apply Forall_cons; split; [split; [apply Hwf; int_lia|split; vm_compute; reflexivity]|]).
  apply Forall_nil_2.
Qed.

Lemma recovery_commits_the_tail_witness :
  ∃ s' m', demo_recover = Some (s', m', Ok tt) ∧
    state_closed (ls_state m') 0 ∧ state_end (ls_state m') 0 = Some 14 ∧
    Forall (@committed_record _ _ _ _ _ (local_engine_contract demo_handle 9) s' m' 0)
      [demo_rec 0 10 3; demo_rec 0 12 3].
Proof.
  destruct (@recovery_commits_the_tail _ _ _ _ _ (local_engine demo_handle 9)
    (local_engine_contract demo_handle 9) demo_bucket demo_upload_config demo_wal (Ok tt)
    (mem_new 0 0) demo_sink demo_sink_ok demo_wal_ok ltac:(by vm_compute)) as (s' & m' & r & Hrec & Hok).
  exists s', m'. fold demo_recover in Hrec.
  assert (Hr : match demo_recover with Some (_, _, Ok _) => true | _ => false end = true) by by vm_compute.
  rewrite Hrec in Hr. destruct r as [[]|e]; [|done]. split; [done|].
  destruct (Hok eq_refl I) as (m0 & streams & Hs & Hall). injection Hs as _ Hs.
  set (md := {| sm_stream_id := 0; sm_epoch := 1; sm_start_offset := 0; sm_end_offset := 10;
                sm_state := Opened; sm_node_id := 1 |}).
  assert (Hmd : md ∈ streams) by (rewrite <-Hs; apply list_elem_of_singleton; by vm_compute).
  destruct (Hall md Hmd) as (Hcl & e & Hc & He & Hcom). split; [exact Hcl|].
  assert (Htail : accept (sm_end_offset md) (of_stream (sm_stream_id md) (recs demo_wal)) =
    [demo_rec 0 10 3; demo_rec 0 12 3]) by by vm_compute.
  rewrite Htail in Hc, Hcom. split; [|exact Hcom]. change (state_end (ls_state m') 0 = Some e) in He. rewrite He.
  f_equal. destruct Hc as (_ & _ & _ & _ & <-). by vm_compute.
Defined.
