(* ===== verification/Storage.v ===== *)
(** * The storage pipeline

    [s3stream-core/src/storage/s3_storage.rs]: appends reach the WAL or wait
    in the backoff queue; the WAL's confirm hook fills the log cache; sealed
    blocks pass the prepare worker, a concurrent upload and the commit worker;
    a committed block trims the WAL and is marked free. [act] gives one
    definition to every point at which a task of the program can run: the
    argument carries what the WAL, the object store and the metadata answer,
    so that a run is a list of actions and every interleaving at the [await]
    points and between the two halves of [upload_delta_wal] is one of them.
    Timers fire at any moment; the rate limiter and the 100 ms batching only
    delay and are not modelled. *)

From Stdlib Require Import ZArith Lia.
From Stdlib Require Import Strings.Byte.
From stdpp Require Import base numbers list gmap sorting strings.
From S2P Require Import Prelude StreamTypes RecordCodec.
From S2P Require Import WalFormat WalWriter LogCache MetaState Upload Recovery.

Open Scope Z_scope.
Open Scope rust_scope.

#[local] Arguments base_offset : simpl never.
#[local] Arguments last_offset : simpl never.
#[local] Arguments batch_size : simpl never.
#[local] Arguments occupied_size : simpl never.
#[local] Arguments stream_id : simpl never.

(** ** Configuration *)
Record S3StorageConfig := {
  cf_wal_cache_size : Z;
  cf_wal_upload_threshold : Z;
  cf_wal_upload_interval_ms : Z;
  cf_stream_split_size : Z;
  cf_max_stream_num_per_stream_set_object : nat;
  cf_object_block_size : Z;
  cf_object_part_size : Z;
  cf_snapshot_read_enable : bool;
}.

Definition upload_config (c : S3StorageConfig) : UploadConfig := {|
  uc_stream_split_size := cf_stream_split_size c;
  uc_object_block_size := cf_object_block_size c;
  uc_object_part_size := cf_object_part_size c |}.

(** ** Completions *)
Definition Completion := option (result unit string).

Definition complete (r : result unit string) (c : Completion) : Completion :=
  match c with
  | None => Some r
  | Some _ => c
  end.

(** [StreamError::Unexpected(reason).to_string()] *)
Definition unexpected_text (reason : string) : string := ("unexpected: " +:+ reason)%string.

(** Awaiting completions one after the other up to the first error; [None]
    while the next one is open. *)
Fixpoint wait_all (cfs : list Completion) : option (result unit string) :=
  match cfs with
  | [] => Some (Ok tt)
  | None :: _ => None
  | Some (Err reason) :: _ => Some (Err reason)
  | Some (Ok _) :: rest => wait_all rest
  end.

(** ** State *)
Record WalWriteRequest := { wr_record : StreamRecordBatch; wr_ack : nat }.

Record TaskContext := {
  tc_cache : LogCacheBlock;
  tc_task : UploadWalTask;
  tc_cf : Completion;
  tc_trim_cf : Completion;
  tc_upload_done : Completion;
  tc_force : bool;
}.
#[export] Instance TaskContext_eta : RecordEta TaskContext := λ t,
  Build_TaskContext (tc_cache t) (tc_task t) (tc_cf t) (tc_trim_cf t) (tc_upload_done t) (tc_force t).

Record LazyCommitState := { lz_commit_cf : Completion; lz_trim_cf : Completion }.
#[export] Instance LazyCommitState_eta : RecordEta LazyCommitState := λ l,
  Build_LazyCommitState (lz_commit_cf l) (lz_trim_cf l).

(** Who called [upload_delta_wal] or sealed a block, and goes on once the
    block is submitted. *)
Inductive Caller :=
| CConfirm (added : bool)
| CNobody
| CForceAll
| CForceUpload (caller : nat) (sid : Z).

(** A task between the cache lock and [submit_block_upload]. *)
Record Sealing := { sl_block : option LogCacheBlock; sl_force : bool; sl_caller : Caller }.

(** The spawned tasks that wait for a timer or for completions. *)
Inductive Spawned :=
| SpForce
| SpForceWait (task : option nat)
| SpLazy (lazy : nat) (linger_ms : Z)
| SpCommitWait (lazies inflight : list nat)
| SpTrimWait (lazies inflight : list nat)
| SpClose (caller : nat) (waits : list nat)
| SpDelay.

(** Tasks and lazy commits are shared by reference: they live in the two
    stores [si_tasks] and [si_lazies] and are named by their position. The
    last four fields are the WAL's side: records it holds that are not
    confirmed, the acknowledgements sent, the trims in progress and done. *)
Record StorageInner := {
  si_config : S3StorageConfig;
  si_delay_trim_ms : Z;
  si_log_cache : LogCache;
  si_snapshot_log_cache : LogCache;
  si_backoff : list WalWriteRequest;
  si_tasks : list TaskContext;
  si_inflight_tasks : list nat;
  si_lazies : list LazyCommitState;
  si_lazy_upload_queue : list nat;
  si_prepare_queue : list nat;
  si_commit_queue : list nat;
  si_poisoned : option string;
  si_force_upload_scheduled : bool;
  si_need_force_upload : bool;
  si_delay_trim_queue : list (RecordOffset * nat);
  si_shutdown : bool;
  si_sealing : list Sealing;
  si_spawned : list Spawned;
  si_force_results : list (nat * result unit string);
  si_wal : list WalWriteRequest;
  si_acks : list (nat * result unit EngineError);
  si_trimming : list (RecordOffset * nat);
  si_trimmed : list RecordOffset;
}.
#[export] Instance StorageInner_eta : RecordEta StorageInner := λ s,
  Build_StorageInner (si_config s) (si_delay_trim_ms s) (si_log_cache s) (si_snapshot_log_cache s)
    (si_backoff s) (si_tasks s) (si_inflight_tasks s) (si_lazies s) (si_lazy_upload_queue s)
    (si_prepare_queue s) (si_commit_queue s) (si_poisoned s) (si_force_upload_scheduled s)
    (si_need_force_upload s) (si_delay_trim_queue s) (si_shutdown s) (si_sealing s) (si_spawned s)
    (si_force_results s) (si_wal s) (si_acks s) (si_trimming s) (si_trimmed s).

(** ** Construction *)
Definition delta_wal_cache_size (c : S3StorageConfig) : Z :=
  if cf_snapshot_read_enable c then Z.max (cf_wal_cache_size c / 3) (10 * 1024 * 1024)
  else cf_wal_cache_size c.

Definition snapshot_read_cache_size (c : S3StorageConfig) : Z :=
  if cf_snapshot_read_enable c then Z.max (cf_wal_cache_size c / 3 * 2) (10 * 1024 * 1024) else 0.

(** [None]: the product overflows, where a debug build panics. *)
Definition clamped_threshold (c : S3StorageConfig) : option Z :=
  guard (delta_wal_cache_size c * 2 <= u64_max);;
  Some (Z.min (delta_wal_cache_size c * 2 / 5) (cf_wal_upload_threshold c)).

Definition storage_new (c : S3StorageConfig) : option StorageInner :=
  threshold ← clamped_threshold c;
  Some {|
    si_config := {|
      cf_wal_cache_size := cf_wal_cache_size c; cf_wal_upload_threshold := threshold;
      cf_wal_upload_interval_ms := cf_wal_upload_interval_ms c;
      cf_stream_split_size := cf_stream_split_size c;
      cf_max_stream_num_per_stream_set_object := cf_max_stream_num_per_stream_set_object c;
      cf_object_block_size := cf_object_block_size c;
      cf_object_part_size := cf_object_part_size c;
      cf_snapshot_read_enable := cf_snapshot_read_enable c |};
    si_delay_trim_ms := if cf_snapshot_read_enable c then 30000 else 0;
    si_log_cache := lc_new (delta_wal_cache_size c) (Z.max threshold 1)
                      (cf_max_stream_num_per_stream_set_object c);
    si_snapshot_log_cache := lc_new (snapshot_read_cache_size c)
                      (Z.max (snapshot_read_cache_size c / 6) 1) DEFAULT_MAX_BLOCK_STREAM_COUNT;
    si_backoff := []; si_tasks := []; si_inflight_tasks := []; si_lazies := [];
    si_lazy_upload_queue := []; si_prepare_queue := []; si_commit_queue := [];
    si_poisoned := None; si_force_upload_scheduled := false; si_need_force_upload := false;
    si_delay_trim_queue := []; si_shutdown := false; si_sealing := []; si_spawned := [];
    si_force_results := []; si_wal := []; si_acks := []; si_trimming := []; si_trimmed := [] |}.

(** ** Small steps shared by the handlers *)
Definition update_task (f : TaskContext → TaskContext) (k : nat) (s : StorageInner) : StorageInner :=
  s <| si_tasks := alter f k (si_tasks s) |>.

Definition complete_cf (r : result unit string) (k : nat) (s : StorageInner) : StorageInner :=
  update_task (λ t, t <| tc_cf := complete r (tc_cf t) |>) k s.
Definition complete_trim_cf (r : result unit string) (k : nat) (s : StorageInner) : StorageInner :=
  update_task (λ t, t <| tc_trim_cf := complete r (tc_trim_cf t) |>) k s.

Definition spawn (p : Spawned) (s : StorageInner) : StorageInner :=
  s <| si_spawned := si_spawned s ++ [p] |>.

Definition send_ack (ack : nat) (r : result unit EngineError) (s : StorageInner) : StorageInner :=
  s <| si_acks := si_acks s ++ [(ack, r)] |>.

Definition push_backoff (q : WalWriteRequest) (s : StorageInner) : StorageInner :=
  s <| si_backoff := si_backoff s ++ [q] |>.

Definition remove_inflight (k : nat) (s : StorageInner) : StorageInner :=
  s <| si_inflight_tasks := filter (λ j, j ≠ k) (si_inflight_tasks s) |>.

Definition task_cf (s : StorageInner) (k : nat) : Completion := t ← si_tasks s !! k; tc_cf t.
Definition task_trim_cf (s : StorageInner) (k : nat) : Completion := t ← si_tasks s !! k; tc_trim_cf t.

(** ** Forced uploads *)
Definition force_upload_all (s : StorageInner) : StorageInner := spawn SpForce s.

Definition has_inflight_force (s : StorageInner) : bool :=
  existsb (λ k, from_option tc_force false (si_tasks s !! k)) (si_inflight_tasks s).

Definition maybe_force_upload (s : StorageInner) : StorageInner :=
  if has_inflight_force s then s <| si_need_force_upload := true |>
  else if negb (si_force_upload_scheduled s) then
    force_upload_all (s <| si_force_upload_scheduled := true |>)
  else s <| si_need_force_upload := true |>.

(** ** Appends *)
Definition try_acquire_permit (s : StorageInner) : bool :=
  lc_size (si_log_cache s) <? lc_capacity (si_log_cache s).

(** What [wal.submit] answers. *)
Definition SubmitOutcome := result unit WalError.

(** The WAL accepted the record: [spawn_durable_ack] waits for it. *)
Definition spawn_durable_ack (q : WalWriteRequest) (s : StorageInner) : StorageInner :=
  s <| si_wal := si_wal s ++ [q] |>.

Definition fail_request (ack : nat) (e : WalError) (s : StorageInner) : StorageInner :=
  send_ack ack (Err (EngineWal e)) s.

Definition is_over_capacity (o : SubmitOutcome) : bool :=
  match o with
  | Err (OverCapacity _ _) => true
  | _ => false
  end.

(** Both callers match the outcome the same way once over-capacity is
    handled. *)
Definition place_request (q : WalWriteRequest) (outcome : SubmitOutcome) (s : StorageInner) :
    StorageInner :=
  match outcome with
  | Ok _ => spawn_durable_ack q s
  | Err e => fail_request (wr_ack q) e s
  end.

Definition append0 (q : WalWriteRequest) (outcome : SubmitOutcome) (s : StorageInner) :
    bool * StorageInner :=
  match si_backoff s with
  | _ :: _ => (true, push_backoff q s)
  | [] =>
      if negb (try_acquire_permit s) then (true, push_backoff q s)
      else if is_over_capacity outcome then (true, push_backoff q (maybe_force_upload s))
      else (false, place_request q outcome s)
  end.

(** The outcomes are the WAL's answers to the submits of the loop, in order;
    a run that asks for more of them is not this one. *)
Fixpoint try_drain_backoff_records (outcomes : list SubmitOutcome) (s : StorageInner) :
    option StorageInner :=
  match si_backoff s with
  | [] => Some s
  | q :: rest =>
      if negb (try_acquire_permit s) then Some s
      else
        match outcomes with
        | [] => None
        | outcome :: outcomes =>
            if is_over_capacity outcome then Some (maybe_force_upload s)
            else try_drain_backoff_records outcomes
                   (place_request q outcome (s <| si_backoff := rest |>))
        end
  end.

(** ** Sealing and submitting blocks *)

(** [upload_delta_wal] up to the release of the cache lock. *)
Definition upload_delta_wal (sid : Z) (force : bool) (caller : Caller) (s : StorageInner) :
    option StorageInner :=
  out ← archive_current_block_if_contains sid (si_log_cache s);
  Some (s <| si_log_cache := out.2 |>
          <| si_sealing := si_sealing s ++
               [{| sl_block := out.1; sl_force := force; sl_caller := caller |}] |>).

Definition submit_block_upload (block : LogCacheBlock) (force : bool) (s : StorageInner) :
    nat * StorageInner :=
  let k := length (si_tasks s) in
  let context := {|
    tc_cache := block; tc_task := plan (upload_config (si_config s)) (block_records block);
    tc_cf := None; tc_trim_cf := None; tc_upload_done := None; tc_force := force |} in
  let s := s <| si_tasks := si_tasks s ++ [context] |>
             <| si_inflight_tasks := si_inflight_tasks s ++ [k] |> in
  let s := if force then
             foldr (update_task (λ t, t <| tc_force := true |>)) s (si_inflight_tasks s)
           else s in
  (k, s <| si_prepare_queue := si_prepare_queue s ++ [k] |>).

Definition notify_lazy_upload (s : StorageInner) : StorageInner :=
  match si_lazy_upload_queue s with
  | [] => s
  | lazies => spawn (SpCommitWait lazies (si_inflight_tasks s)) (s <| si_lazy_upload_queue := [] |>)
  end.

(** What the caller does once its block is submitted; [cf] names the task of
    the block, [None] when there was nothing to seal. *)
Definition resume (caller : Caller) (cf : option nat) (s : StorageInner) : option StorageInner :=
  match caller with
  | CConfirm added =>
      if added then Some s else upload_delta_wal MATCH_ALL_STREAMS false CNobody s
  | CNobody => Some s
  | CForceAll => Some (spawn (SpForceWait cf) s)
  | CForceUpload caller sid =>
      Some (spawn (SpClose caller (filter (λ k,
        from_option (λ t, contains_stream (tc_cache t) sid) false (si_tasks s !! k) = true)
        (si_inflight_tasks s))) s)
  end.

(** The second half of [upload_delta_wal], and of the confirm hook, which
    notifies only when it sealed a block. *)
Definition submit_sealed (e : Sealing) (s : StorageInner) : option StorageInner :=
  let '(cf, s) := match sl_block e with
                  | Some block => let '(k, s) := submit_block_upload block (sl_force e) s in (Some k, s)
                  | None => (None, s)
                  end in
  let quiet := match sl_caller e, sl_block e with CConfirm _, None => true | _, _ => false end in
  resume (sl_caller e) cf (if quiet then s else notify_lazy_upload s).

(** The confirm hook up to the release of the cache lock. *)
Definition handle_append_confirm (record : StreamRecordBatch) (offset : RecordOffset)
    (s : StorageInner) : option StorageInner :=
  put1 ← lc_put record (si_log_cache s);
  let '(added, cache) := (put1 : bool * LogCache) in
  out ← (if added then Some (None, added, cache)
         else
           arch ← archive_current_block_if_contains MATCH_ALL_STREAMS cache;
           put2 ← lc_put record arch.2;
           Some (arch.1, put2.1, put2.2));
  let '(archived, added, cache) := (out : option LogCacheBlock * bool * LogCache) in
  Some (s <| si_log_cache := lc_set_last_record_offset offset cache |>
          <| si_sealing := si_sealing s ++
               [{| sl_block := archived; sl_force := false; sl_caller := CConfirm added |}] |>).

(** ** Lazy commits *)
Definition lazy_upload (linger_ms : Z) (s : StorageInner) : StorageInner :=
  let z := length (si_lazies s) in
  spawn (SpLazy z linger_ms)
    (s <| si_lazies := si_lazies s ++ [{| lz_commit_cf := None; lz_trim_cf := None |}] |>
       <| si_lazy_upload_queue := si_lazy_upload_queue s ++ [z] |>).

Definition complete_lazies (f : LazyCommitState → LazyCommitState) (lazies : list nat)
    (s : StorageInner) : StorageInner :=
  s <| si_lazies := foldr (alter f) (si_lazies s) lazies |>.

(** ** Trims *)
Definition delay_trim (offset : RecordOffset) (k : nat) (s : StorageInner) : StorageInner :=
  if si_delay_trim_ms s =? 0 then s <| si_trimming := si_trimming s ++ [(offset, k)] |>
  else spawn SpDelay (s <| si_delay_trim_queue := si_delay_trim_queue s ++ [(offset, k)] |>).

(** ** Spawned tasks that go on; [None] while they wait *)
Definition run_spawned (p : Spawned) (s : StorageInner) : option StorageInner :=
  match p with
  | SpForce => upload_delta_wal MATCH_ALL_STREAMS true CForceAll s
  | SpForceWait task =>
      _ ← from_option (task_cf s) (Some (Ok tt)) task;
      let s := s <| si_force_upload_scheduled := false |> in
      Some (if si_need_force_upload s then force_upload_all (s <| si_need_force_upload := false |>) else s)
  | SpLazy z linger_ms =>
      if bool_decide (z ∈ si_lazy_upload_queue s) then
        if linger_ms =? 0 then Some (force_upload_all s)
        else upload_delta_wal MATCH_ALL_STREAMS false CNobody s
      else Some s
  | SpCommitWait lazies inflight =>
      r ← wait_all (task_cf s <$> inflight);
      let r := match r with Ok _ => Ok tt | Err reason => Err (unexpected_text reason) end in
      Some (spawn (SpTrimWait lazies inflight)
              (complete_lazies (λ l, l <| lz_commit_cf := complete r (lz_commit_cf l) |>) lazies s))
  | SpTrimWait lazies inflight =>
      r ← wait_all (task_trim_cf s <$> inflight);
      let r := match r with Ok _ => Ok tt | Err reason => Err (unexpected_text reason) end in
      Some (complete_lazies (λ l, l <| lz_trim_cf := complete r (lz_trim_cf l) |>) lazies s)
  | SpClose caller waits =>
      r ← wait_all (task_cf s <$> waits);
      Some (s <| si_force_results := si_force_results s ++ [(caller, r)] |>)
  | SpDelay =>
      match si_delay_trim_queue s with
      | [] => Some s
      | entry :: rest =>
          Some (s <| si_delay_trim_queue := rest |> <| si_trimming := si_trimming s ++ [entry] |>)
      end
  end.

(** ** The workers *)

(** One round of the prepare worker, once [task.prepare] answered. *)
Definition prepare_worker (answer : result Z string) (s : StorageInner) : option StorageInner :=
  match si_prepare_queue s with
  | [] => None
  | k :: rest =>
      let s := s <| si_prepare_queue := rest |> in
      match answer with
      | Err reason =>
          Some (remove_inflight k (complete_trim_cf (Err "prepare failed"%string) k
                  (complete_cf (Err reason) k s)))
      | Ok id =>
          Some (update_task (λ t, t <| tc_task := tc_task t <| ut_prepared_object_id := Some id |> |>) k s
                  <| si_commit_queue := si_commit_queue s ++ [k] |>)
      end
  end.

(** The spawned upload of a prepared task ends. *)
Definition upload_done (k : nat) (answer : result CommitStreamSetObjectRequest string)
    (s : StorageInner) : option StorageInner :=
  t ← si_tasks s !! k;
  _ ← ut_prepared_object_id (tc_task t);
  match tc_upload_done t with
  | Some _ => None
  | None =>
      Some (update_task (λ t, match answer with
              | Ok request => t <| tc_task := tc_task t <| ut_commit_request := Some request |> |>
                                <| tc_upload_done := Some (Ok tt) |>
              | Err reason => t <| tc_upload_done := Some (Err reason) |>
              end) k s)
  end.

Definition fail_task (reason : string) (k : nat) (s : StorageInner) : StorageInner :=
  remove_inflight k (complete_trim_cf (Err reason) k (complete_cf (Err reason) k s)).

(** The [Ok] arm of the commit worker. *)
Definition committed (t : TaskContext) (k : nat) (s : StorageInner) : StorageInner :=
  let s := match lb_last_record_offset (tc_cache t) with
           | Some offset => delay_trim offset k s
           | None => complete_trim_cf (Ok tt) k s
           end in
  let s := s <| si_log_cache := mark_free (lb_id (tc_cache t)) (si_log_cache s) |> in
  remove_inflight k (complete_cf (Ok tt) k s).

(** One round of the commit worker; [answer] is what [task.commit] returns
    when the upload succeeded. [None] while the upload runs. *)
Definition commit_worker (answer : result unit string) (s : StorageInner) : option StorageInner :=
  match si_commit_queue s with
  | [] => None
  | k :: rest =>
      let s := s <| si_commit_queue := rest |> in
      match si_poisoned s with
      | Some reason => Some (fail_task reason k s)
      | None =>
          t ← si_tasks s !! k;
          done ← tc_upload_done t;
          match (match done with Ok _ => answer | Err reason => Err (unexpected_text reason) end) with
          | Ok _ => Some (committed t k s)
          | Err reason => Some (fail_task reason k s <| si_poisoned := Some reason |>)
          end
      end
  end.

(** [wal.trim] answered for the [i]th trim in progress. *)
Definition trim_done (i : nat) (answer : result unit string) (s : StorageInner) :
    option StorageInner :=
  entry ← si_trimming s !! i;
  let '(offset, k) := (entry : RecordOffset * nat) in
  let s := s <| si_trimming := delete i (si_trimming s) |> in
  let s := match answer with
           | Ok _ => s <| si_trimmed := si_trimmed s ++ [offset] |>
           | Err _ => s
           end in
  Some (complete_trim_cf answer k s).

(** ** Shutdown: parked appends fail, delayed trims run at once *)
Definition shutdown (s : StorageInner) : StorageInner :=
  let s := s <| si_shutdown := true |> <| si_backoff := [] |>
             <| si_acks := si_acks s ++
                  ((λ q, (wr_ack q, Err (EngineUnexpected "S3Storage is shutdown"))) <$> si_backoff s) |> in
  s <| si_trimming := si_trimming s ++ si_delay_trim_queue s |> <| si_delay_trim_queue := [] |>.

(** ** Reads *)
Inductive CacheAccessType := DeltaWalCacheHit | BlockCacheHit | BlockCacheMiss.

Record ReadDataBlock := { rb_data : list StreamRecordBatch; rb_cache_access : CacheAccessType }.

Record FetchContext := { fc_fast_read : bool; fc_snapshot_read : bool }.

Fixpoint continuous_from (expected : Z) (rs : list StreamRecordBatch) : bool :=
  match rs with
  | [] => true
  | r :: rest => (base_offset r =? expected) && continuous_from (last_offset r) rest
  end.

Definition continuous_check (rs : list StreamRecordBatch) : bool :=
  match rs with
  | [] => true
  | r :: rest => continuous_from (last_offset r) rest
  end.

(** The cached records that still fit the byte budget. *)
Fixpoint push_cached (remaining : Z) (rs : list StreamRecordBatch) : list StreamRecordBatch :=
  match rs with
  | [] => []
  | r :: rest =>
      if remaining =? 0 then []
      else r :: push_cached (remaining - Z.min remaining (batch_size r)) rest
  end.

(** The block cache is asked for the part before the cached tail. [None] is
    a panic of the log cache. *)
Definition read0 (block_cache_read : Z → Z → Z → Z → result ReadDataBlock EngineError)
    (context : FetchContext) (sid start_offset end_offset max_bytes : Z) (s : StorageInner) :
    option (result ReadDataBlock EngineError * StorageInner) :=
  let first_cache := if fc_snapshot_read context then si_snapshot_log_cache s else si_log_cache s in
  out ← lc_get sid start_offset end_offset max_bytes first_cache;
  let '(cached, first_cache) := (out : list StreamRecordBatch * LogCache) in
  let s := if fc_snapshot_read context then s <| si_snapshot_log_cache := first_cache |>
           else s <| si_log_cache := first_cache |> in
  let hit := match cached with
             | r :: _ => base_offset r <=? start_offset
             | [] => false
             end in
  Some (
    if hit then Ok {| rb_data := cached; rb_cache_access := DeltaWalCacheHit |}
    else if fc_fast_read context then Err EngineFastReadFailFast
    else
      let cache_end_offset := from_option base_offset end_offset (head cached) in
      match block_cache_read sid start_offset cache_end_offset max_bytes with
      | Err e => Err e
      | Ok block =>
          let used := sum_Z (batch_size <$> rb_data block) in
          let records := rb_data block ++ push_cached (max_bytes - Z.min max_bytes used) cached in
          if continuous_check records then
            Ok {| rb_data := records; rb_cache_access := rb_cache_access block |}
          else Err (EngineUnexpected "continuous check failed")
      end, s).

(** ** Runs

    The WAL sorts the records of a bulk by stream and offset before it confirms
    them, so the confirmed record is any of those it was given. *)
Inductive Action :=
| AAppend (q : WalWriteRequest) (outcome : SubmitOutcome)
| ADrain (outcomes : list SubmitOutcome)
| AConfirm (i : nat) (offset : RecordOffset)
| AWalFail (i : nat) (e : WalError)
| ASubmit (i : nat)
| ALazy (linger_ms : Z)
| AForceUpload (caller : nat) (sid : Z)
| ARun (i : nat)
| APrepare (answer : result Z string)
| AUpload (k : nat) (answer : result CommitStreamSetObjectRequest string)
| ACommit (answer : result unit string)
| ATrim (i : nat) (answer : result unit string)
| ARead (sid start_offset end_offset max_bytes : Z)
| AShutdown.

(** The storage together with what happened: the appends called, the records
    the WAL accepted, the records it confirmed, and the committed tasks. *)
Record World := {
  w_st : StorageInner;
  w_calls : list WalWriteRequest;
  w_submitted : list WalWriteRequest;
  w_confirmed : list (StreamRecordBatch * RecordOffset);
  w_committed : list nat;
}.
#[export] Instance World_eta : RecordEta World := λ w,
  Build_World (w_st w) (w_calls w) (w_submitted w) (w_confirmed w) (w_committed w).

Definition world_new (c : S3StorageConfig) : option World :=
  s ← storage_new c;
  Some {| w_st := s; w_calls := []; w_submitted := []; w_confirmed := []; w_committed := [] |}.

(** The records a step gave to the WAL. *)
Definition newly_submitted (s s' : StorageInner) : list WalWriteRequest :=
  drop (length (si_wal s)) (si_wal s').

(** The task at the head of the commit queue, when the step committed it. *)
Definition newly_committed (s s' : StorageInner) : list nat :=
  match si_commit_queue s with
  | k :: _ => match task_cf s' k with Some (Ok _) => [k] | _ => [] end
  | [] => []
  end.

Definition is_confirming (e : Sealing) : bool :=
  match sl_caller e with
  | CConfirm _ => true
  | _ => false
  end.

(** The confirm hook runs in the WAL's completion loop: one call at a time. *)
Definition confirm_busy (s : StorageInner) : bool := existsb is_confirming (si_sealing s).

Definition with_st (w : World) (o : option StorageInner) : option World :=
  s ← o; Some (w <| w_st := s |>).

Definition act (a : Action) (w : World) : option World :=
  let s := w_st w in
  match a with
  | AAppend q outcome =>
      let s' := (append0 q outcome s).2 in
      Some (w <| w_st := s' |> <| w_calls := w_calls w ++ [q] |>
              <| w_submitted := w_submitted w ++ newly_submitted s s' |>)
  | ADrain outcomes =>
      if si_shutdown s then None
      else
        s' ← try_drain_backoff_records outcomes s;
        Some (w <| w_st := s' |> <| w_submitted := w_submitted w ++ newly_submitted s s' |>)
  | AConfirm i offset =>
      if confirm_busy s then None
      else
        q ← si_wal s !! i;
        s' ← handle_append_confirm (wr_record q) offset (s <| si_wal := delete i (si_wal s) |>);
        Some (w <| w_st := send_ack (wr_ack q) (Ok tt) s' |>
                <| w_confirmed := w_confirmed w ++ [(wr_record q, offset)] |>)
  | AWalFail i e =>
      q ← si_wal s !! i;
      Some (w <| w_st := send_ack (wr_ack q) (Err (EngineWal e)) (s <| si_wal := delete i (si_wal s) |>) |>)
  | ASubmit i =>
      e ← si_sealing s !! i;
      with_st w (submit_sealed e (s <| si_sealing := delete i (si_sealing s) |>))
  | ALazy linger_ms => Some (w <| w_st := lazy_upload linger_ms s |>)
  | AForceUpload caller sid => with_st w (upload_delta_wal sid true (CForceUpload caller sid) s)
  | ARun i =>
      p ← si_spawned s !! i;
      with_st w (run_spawned p (s <| si_spawned := delete i (si_spawned s) |>))
  | APrepare answer => with_st w (prepare_worker answer s)
  | AUpload k answer => with_st w (upload_done k answer s)
  | ACommit answer =>
      s' ← commit_worker answer s;
      Some (w <| w_st := s' |> <| w_committed := w_committed w ++ newly_committed s s' |>)
  | ATrim i answer => with_st w (trim_done i answer s)
  | ARead sid start_offset end_offset max_bytes =>
      out ← lc_get sid start_offset end_offset max_bytes (si_log_cache s);
      Some (w <| w_st := s <| si_log_cache := out.2 |> |>)
  | AShutdown => Some (w <| w_st := shutdown s |>)
  end.

Fixpoint run (l : list Action) (w : World) : option World :=
  match l with
  | [] => Some w
  | a :: l => w ← act a w; run l w
  end.

(** ** Runs in which the pipeline breaks its promise *)
Definition demo_config : S3StorageConfig := {|
  cf_wal_cache_size := 1000; cf_wal_upload_threshold := 400; cf_wal_upload_interval_ms := 0;
  cf_stream_split_size := 100; cf_max_stream_num_per_stream_set_object := 10;
  cf_object_block_size := 100; cf_object_part_size := 100; cf_snapshot_read_enable := false |}.
Definition demo_offset (o : Z) : RecordOffset := {| rof_epoch := 1; rof_offset := o; rof_size := 10 |}.
Definition demo_request (sid base : Z) (ack : nat) : WalWriteRequest :=
  {| wr_record := demo_rec sid base 10; wr_ack := ack |}.
Definition demo_commit_request : CommitStreamSetObjectRequest := {|
  cr_object_id := 0; cr_object_size := 0; cr_attributes := 0; cr_stream_ranges := [];
  cr_stream_objects := []; cr_compacted_object_ids := [] |}.

(** An append that the WAL accepts and confirms. *)
Definition demo_append (sid base : Z) (ack : nat) (o : Z) : list Action :=
  [AAppend (demo_request sid base ack) (Ok tt); AConfirm 0 (demo_offset o); ASubmit 0].

(** The upload of task [k] from prepare to commit, without errors. *)
Definition demo_upload (k : nat) : list Action :=
  [APrepare (Ok 0); AUpload k (Ok demo_commit_request); ACommit (Ok tt)].

(** A record the WAL has confirmed, and trimmed, that no committed task holds. *)
Definition lost (w : World) (r : StreamRecordBatch) (o : RecordOffset) : Prop :=
  (r, o) ∈ w_confirmed w ∧
  (∃ o', o' ∈ si_trimmed (w_st w) ∧ rof_offset o <= rof_offset o') ∧
  ∀ k t, k ∈ w_committed w → si_tasks (w_st w) !! k = Some t → block_log (stream_id r) (tc_cache t) = [].

Definition failed_prepare_run : list Action :=
  demo_append 7 0 0 100 ++ [AForceUpload 0 7; ASubmit 0; APrepare (Err "timeout"%string)] ++
  demo_append 8 0 1 200 ++ [AForceUpload 1 8; ASubmit 0] ++ demo_upload 1 ++ [ATrim 0 (Ok tt)].

Definition reordered_run : list Action :=
  demo_append 7 0 0 100 ++
  [AAppend (demo_request 8 0 1) (Ok tt); AConfirm 0 (demo_offset 200);
   AForceUpload 0 8; ASubmit 1] ++ demo_upload 0 ++ [ATrim 0 (Ok tt)].

(** A failed prepare loses acknowledged data. When the prepare call of
    one block fails, the prepare worker drops that block and goes on; the
    commit of the next block then trims the WAL up to its own last record,
    past the records of the dropped block. They are confirmed and
    acknowledged, no committed task holds them, and the WAL no longer has
    them: a restart does not recover them. *)
Theorem failed_prepare_loses_records :
  ∃ w0 w, world_new demo_config = Some w0 ∧ run failed_prepare_run w0 = Some w ∧
    (0%nat, Ok tt) ∈ si_acks (w_st w) ∧ lost w (demo_rec 7 0 10) (demo_offset 100).
Proof.
  eexists _, _. split; [vm_compute; reflexivity|]. split; [vm_compute; reflexivity|].
  split; [vm_compute; apply list_elem_of_here|]. split; [vm_compute; apply list_elem_of_here|]. split.
  - exists (demo_offset 200). split; [vm_compute; apply list_elem_of_here|]. done.
  - intros k t Hk Ht. vm_compute in Hk. apply list_elem_of_singleton in Hk as ->.
    vm_compute in Ht. injection Ht as <-. vm_compute. reflexivity.
Qed.

(** Blocks of one record. *)
Definition demo_config1 : S3StorageConfig := {|
  cf_wal_cache_size := 1000; cf_wal_upload_threshold := 1; cf_wal_upload_interval_ms := 0;
  cf_stream_split_size := 100; cf_max_stream_num_per_stream_set_object := 10;
  cf_object_block_size := 100; cf_object_part_size := 100; cf_snapshot_read_enable := false |}.

(** Facts about the end of a concrete run. *)
Ltac run_ends :=
  eexists _, _; split; [vm_compute; reflexivity|]; split; [vm_compute; reflexivity|].

(** Sealing and submitting a block are not atomic, and the order of two
    blocks can be swapped between the two. The confirm hook seals a full
    block under the cache lock and submits it after releasing the lock; a
    forced upload that seals the next block in between can submit first. That
    block commits first and trims the WAL past the records of the other one,
    which are confirmed and not committed. *)
Theorem swapped_blocks_trim_unsaved_records :
  ∃ w0 w, world_new demo_config1 = Some w0 ∧ run reordered_run w0 = Some w ∧
    lost w (demo_rec 7 0 10) (demo_offset 100).
Proof.
  run_ends. split; [vm_compute; apply list_elem_of_here|]. split.
  - exists (demo_offset 200). split; [vm_compute; apply list_elem_of_here|]. done.
  - intros k t Hk Ht. vm_compute in Hk. apply list_elem_of_singleton in Hk as ->.
    vm_compute in Ht. injection Ht as <-. vm_compute. reflexivity.
Qed.

(** The second [force_upload] of a stream whose first one failed. *)
Definition retried_force_run : list Action :=
  demo_append 7 0 0 100 ++
  [AForceUpload 0 7; ASubmit 0; APrepare (Ok 0); AUpload 0 (Ok demo_commit_request);
   ACommit (Err "timeout"%string); ARun 0] ++
  [AForceUpload 1 7; ASubmit 0; ARun 0].

(** A forced upload can report success for data that was never
    committed. The first [force_upload] of the stream fails with the commit;
    the failed task leaves the inflight list, so the second call finds
    nothing to wait for and returns [Ok] although the stream's acknowledged
    record is in no committed task. Closing a stream relies on this answer:
    [close0] then closes the stream, and recovery skips the records of closed
    streams. *)
Theorem retried_force_upload_lies :
  ∃ w0 w, world_new demo_config = Some w0 ∧ run retried_force_run w0 = Some w ∧
    si_force_results (w_st w) = [(0%nat, Err "timeout"%string); (1%nat, Ok tt)] ∧
    (demo_rec 7 0 10, demo_offset 100) ∈ w_confirmed w ∧ w_committed w = [].
Proof.
  run_ends. split; [vm_compute; reflexivity|]. split; [vm_compute; apply list_elem_of_here|].
  vm_compute. reflexivity.
Qed.
