(* ===== verification/StorageInv.v ===== *)
(** * Safety of the storage pipeline

    Invariants of the runs of [Storage]: where every confirmed record is
    kept, in which order blocks commit, and what the WAL has been trimmed
    to. *)

From Stdlib Require Import ZArith Lia.
From Stdlib Require Import Strings.Byte.
From stdpp Require Import base numbers list gmap sorting strings.
From S2P Require Import Prelude StreamTypes RecordCodec.
From S2P Require Import WalFormat WalWriter LogCache MetaState Upload Recovery Storage.

Open Scope Z_scope.
Open Scope rust_scope.

#[local] Arguments base_offset : simpl never.
#[local] Arguments last_offset : simpl never.
#[local] Arguments batch_size : simpl never.
#[local] Arguments occupied_size : simpl never.
#[local] Arguments stream_id : simpl never.

(** ** The cache as the pipeline sees it: the sealed blocks that are not
    free, and the active block *)
Definition pview (c : LogCache) (P : list LogCacheBlock) (a : LogCacheBlock) : Prop :=
  pending_blocks c = P ++ [a] ∧ last (lc_blocks c) = Some a.

(** The active block never wraps its size, and is empty or can be sealed. *)
Record active_ok (c : LogCache) (a : LogCacheBlock) : Prop := {
  ao_limits : lb_max_size a = lc_block_max_size c ∧ lb_max_stream_count a = lc_max_stream_count c;
  ao_config : 0 < lc_block_max_size c < 2 ^ 62 ∧ (0 < lc_max_stream_count c)%nat;
  ao_size : 0 <= lb_size a < 2 ^ 63;
  ao_empty : lb_size a = 0 → lb_map a = ∅ ∧ lb_overflow a = false;
  ao_nolast : lb_last_record_offset a = None;
}.

Lemma pview_exists c : lc_ok c → ∃ P a, pview c P a ∧ lb_free a = false.
Proof.
  intros Hok. destruct (ok_active _ Hok) as (pre & a & Hb & Ha).
  exists (filter (λ b, lb_free b = false) pre), a. unfold pview, pending_blocks. rewrite Hb, filter_app.
  rewrite filter_cons, decide_True by done. split_and!; [done|by rewrite last_snoc|done].
Qed.

Lemma pview_pre c P a pre :
  lc_blocks c = pre ++ [a] → pview c P a → P = filter (λ b, lb_free b = false) pre ∧ lb_free a = false.
Proof.
  intros Hb [HP _]. unfold pending_blocks in HP. rewrite Hb, filter_app, filter_cons in HP.
  destruct (decide (lb_free a = false)) as [Ha|Ha].
  - apply app_inj_tail in HP as [<- _]. done.
  - rewrite app_nil_r in HP.
    assert (Hin : a ∈ filter (λ b, lb_free b = false) pre) by (rewrite HP; set_solver).
    by apply list_elem_of_filter in Hin as [? _].
Qed.

Lemma pview_intro c pre a :
  lc_blocks c = pre ++ [a] → lb_free a = false → pview c (filter (λ b, lb_free b = false) pre) a.
Proof.
  intros Hb Ha. unfold pview, pending_blocks. rewrite Hb, filter_app, last_snoc.
  rewrite filter_cons, decide_True by done. done.
Qed.

Lemma pview_blocks c P a : lc_ok c → pview c P a → ∃ pre, lc_blocks c = pre ++ [a].
Proof.
  intros Hok [_ Hl]. destruct (ok_active _ Hok) as (pre & a' & Hb & _). exists pre.
  rewrite Hb, last_snoc in Hl. injection Hl as ->. done.
Qed.

Lemma pview_ids c P a : lc_ok c → pview c P a → NoDup (lb_id <$> P ++ [a]).
Proof.
  intros Hok [HP _]. rewrite <-HP. unfold pending_blocks.
  eapply sublist_NoDup; [apply (ok_ids _ Hok)|]. apply fmap_sublist, sublist_filter.
Qed.

(** ** Cache operations on that view *)
Definition same_limits (c c' : LogCache) : Prop :=
  lc_block_max_size c' = lc_block_max_size c ∧ lc_max_stream_count c' = lc_max_stream_count c ∧
  lc_last_record_offset c' = lc_last_record_offset c.

(** Putting into the active block keeps it sealable: a refused record finds
    it non-empty. *)
Lemma block_put_active c a r added a' :
  active_ok c a → record_ok r → block_put r a = (added, a') →
  active_ok c a' ∧ (added = false → 0 < lb_size a').
Proof.
  intros [[Hm Hn] [Hcm Hcn] Hsz He Hl] Hr Hput.
  destruct (record_cost_bound r) as (Hocc & Hbs & _); [apply Hr|].
  unfold block_put in Hput. destruct (is_full a) eqn:Ef.
  { injection Hput as <- <-. split; [by split|]. intros _.
    destruct (decide (lb_size a = 0)) as [H0|]; [|lia]. destruct (He H0) as [Hmap Hov].
    unfold is_full in Ef. rewrite Hov, H0, Hmap, map_size_empty, Hm, Hn in Ef. cbn [orb] in Ef.
    destruct (Z.leb_spec (lc_block_max_size c) 0); [lia|]. destruct (lc_max_stream_count c); [lia|done]. }
  unfold is_full in Ef. apply orb_false_iff in Ef as [Ef _]. apply orb_false_iff in Ef as [_ Hlt%Z.leb_gt].
  destruct (sc_add r _) as [cache|] eqn:Ea; injection Hput as <- <-.
  - assert (Hw : wrap_u64 (lb_size a + occupied_size r) = lb_size a + occupied_size r)
      by (apply wrap_u64_id; int_lia).
    split; [|done]. split; cbn; [done|done|rewrite Hw; int_lia|rewrite Hw; lia|done].
  - assert (Hpos : lb_size a ≠ 0).
    { intros H0. destruct (He H0) as [Hmap _]. rewrite Hmap, lookup_empty in Ea. cbn in Ea.
      destruct (sc_add_fresh r Hr) as [? ?]. congruence. }
    split; [split; cbn; try done; lia|cbn; lia].
Qed.

Lemma put_view r c P a :
  lc_ok c → pview c P a → active_ok c a → record_ok r → put_ok c r →
  ∃ added c' a', lc_put r c = Some (added, c') ∧ lc_ok c' ∧ pview c' P a' ∧ active_ok c' a' ∧
    lb_id a' = lb_id a ∧ same_limits c c' ∧
    (∀ sid, block_log sid a' = block_log sid a ++ (if added && (sid =? stream_id r) then [r] else [])) ∧
    (added = false → 0 < lb_size a' ∧ put_ok c' r) ∧ (lb_size a = 0 → added = true).
Proof.
  intros Hok Hv Ha Hr Hput.
  destruct (lc_put_spec r c Hok Hput) as (c1 & pre & a0 & added & a' & n & Hrel & Hb & Hf & Hbp & Hlb &
    Hid & Hf' & Hlc & Hok' & _ & _ & Hlog).
  destruct (released_parts _ _ Hrel) as (gone & Hg & Hgone & _).
  assert (Hc1 : lc_block_max_size c1 = lc_block_max_size c ∧ lc_max_stream_count c1 = lc_max_stream_count c ∧
    lc_last_record_offset c1 = lc_last_record_offset c) by (by destruct Hrel as (? & ? & ? & ? & -> & _)).
  rewrite Hb, app_assoc in Hg.
  assert (a0 = a) as -> by (destruct Hv as [_ Hl]; rewrite Hg, last_snoc in Hl; by injection Hl).
  destruct (pview_pre _ _ _ _ Hg Hv) as [HP _].
  destruct (block_put_active _ _ _ _ _ Ha Hr Hbp) as [Ha' Hrej].
  eexists added, _, a'. split; [exact Hlc|]. split; [done|].
  assert (HP' : P = filter (λ b, lb_free b = false) pre).
  { rewrite HP, filter_app, filter_none; [done|]. intros b Hin. rewrite Forall_forall in Hgone.
    by rewrite (Hgone b Hin). }
  assert (Hne : added = false → put_ok (c1 <| lc_blocks := pre ++ [a'] |> <| lc_size := n |>) r).
  { intros ->. destruct Hput as [Hlt Hend]. split; [done|]. unfold cached_log in *. cbn.
    destruct (ok_contig _ Hok (stream_id r)) as (s & e & Hc). unfold cached_log in Hc. rewrite Hg in Hc, Hend.
    rewrite !blocks_log_app, blocks_log_cons in *. rewrite <-app_assoc in Hc, Hend.
    rewrite (Hlog (stream_id r)). cbn [andb]. rewrite app_nil_r. by eapply ends_at_suffix. }
  split; [rewrite HP'; by apply pview_intro|].
  split; [destruct Ha', Hc1 as (E1 & E2 & E3); split; cbn; rewrite ?E1, ?E2; done|].
  do 3 (split; [done|]). split; [auto|].
  intros H0. destruct added; [done|]. specialize (Hrej eq_refl).
  unfold block_put in Hbp. destruct (is_full a) eqn:Ef; [injection Hbp as <-; lia|].
  destruct (sc_add _ _) eqn:Ea; [done|]. injection Hbp as <-. cbn in Hrej. lia.
Qed.

(** A sealed block keeps the records of the active one and gets the offset
    of the last confirmed record. *)
Definition sealed_as (c : LogCache) (a block : LogCacheBlock) : Prop :=
  block = a <| lb_last_record_offset := match lc_last_record_offset c with
                                        | Some o => Some o | None => lb_last_record_offset a end |>.

Lemma archive_view c P a :
  lc_ok c → pview c P a → active_ok c a →
  ∃ block c' a', archive_current_block c = Some (block, c') ∧ sealed_as c a block ∧ lc_ok c' ∧
    pview c' (P ++ [block]) a' ∧ active_ok c' a' ∧ lb_size a' = 0 ∧ (lb_id a < lb_id a')%nat ∧
    same_limits c c' ∧ (∀ sid, block_log sid a' = []) ∧ (∀ sid, cached_log c' sid = cached_log c sid).
Proof.
  intros Hok Hv Ha. destruct (archive_spec c Hok) as (pre & a0 & block & Hb & Hf & Hbl & Harch).
  assert (a0 = a) as -> by (destruct Hv as [_ Hl]; rewrite Hb, last_snoc in Hl; by injection Hl).
  destruct (pview_pre _ _ _ _ Hb Hv) as [-> _].
  eexists block, _, (block_new (lc_next_block_id c) (lc_block_max_size c) (lc_max_stream_count c)).
  split; [exact Harch|]. split; [exact Hbl|].
  split; [by eapply archive_ok|].
  assert (Hfb : lb_free block = false) by by rewrite Hbl.
  split; [|split; [|split; [done|split; [|split; [done|split]]]]].
  - replace (filter (λ b, lb_free b = false) pre ++ [block]) with
      (filter (λ b, lb_free b = false) (pre ++ [block])).
    + apply pview_intro; [|done]. cbn. by rewrite <-app_assoc.
    + by rewrite filter_app, filter_cons, decide_True.
  - destruct Ha as [_ Hc _ _ _]. split; [done|exact Hc|cbn; lia|done|done].
  - pose proof (ok_fresh _ Hok) as Hfr. rewrite Hb in Hfr. apply Forall_app in Hfr as [_ Hfr].
    by rewrite Forall_singleton in Hfr.
  - intros sid. apply block_log_new.
  - intros sid. unfold cached_log. cbn. rewrite Hb, !blocks_log_app, !blocks_log_cons, block_log_new.
    cbn. by rewrite (block_log_ext sid block a) by (by rewrite Hbl).
Qed.

Lemma archive_if_view sid c P a :
  lc_ok c → pview c P a → active_ok c a →
  archive_current_block_if_contains sid c = Some (None, c) ∧
    (if sid =? MATCH_ALL_STREAMS then lb_size a = 0 else contains_stream a sid = false) ∨
  ∃ block c' a', archive_current_block_if_contains sid c = Some (Some block, c') ∧
    sealed_as c a block ∧ lc_ok c' ∧ pview c' (P ++ [block]) a' ∧ active_ok c' a' ∧ lb_size a' = 0 ∧
    (lb_id a < lb_id a')%nat ∧ same_limits c c' ∧ (∀ sid, block_log sid a' = []) ∧
    (∀ sid, cached_log c' sid = cached_log c sid).
Proof.
  intros Hok Hv Ha. destruct (archive_view c P a Hok Hv Ha) as (block & c' & a' & Harch & H).
  unfold archive_current_block_if_contains. rewrite (proj2 Hv), Harch. cbn [mbind option_bind].
  destruct (if sid =? MATCH_ALL_STREAMS then _ else _) eqn:E.
  - right. exists block, c', a'. split; [done|exact H].
  - left. split; [done|]. destruct (sid =? _); [|done]. destruct Ha as [_ _ ? _ _].
    destruct (Z.ltb_spec 0 (lb_size a)); [done|lia].
Qed.

Lemma pending_set_free id (bs : list LogCacheBlock) :
  filter (λ b, lb_free b = false) (set_free id <$> bs) =
  filter (λ b, lb_id b ≠ id) (filter (λ b, lb_free b = false) bs).
Proof.
  induction bs as [|b bs IH]; [done|]. cbn [fmap list_fmap].
  rewrite (filter_cons _ (set_free id b)), IH, (filter_cons _ b).
  unfold set_free. destruct (decide (lb_id b = id)) as [Hi|Hi]; cbn [lb_free field_set];
    destruct (decide (lb_free b = false)); rewrite ?filter_cons; repeat case_decide; naive_solver.
Qed.

Lemma mark_free_view id c P a :
  lc_ok c → pview c P a → active_ok c a → lb_id a ≠ id →
  lc_ok (mark_free id c) ∧ pview (mark_free id c) (filter (λ b, lb_id b ≠ id) P) a ∧
  active_ok (mark_free id c) a ∧ same_limits c (mark_free id c).
Proof.
  intros Hok Hv Ha Hne. destruct (pview_blocks _ _ _ Hok Hv) as [pre Hb].
  assert (Hs : sealed c id) by (intros x Hx; rewrite (proj2 Hv) in Hx; injection Hx as <-; done).
  pose proof (set_free_ok id c Hs Hok) as Hok1. set (c1 := c <| lc_blocks := _ |>) in *.
  pose proof (try_real_free_released c1) as Hrel. set (c2 := try_real_free c1) in *.
  pose proof (merge_loop_merges (S (length (lc_blocks c2))) 0 c2) as Hm.
  change (merge_loop _ 0 c2) with (mark_free id c) in Hm.
  pose proof (released_ok _ _ Hrel Hok1) as Hok2. pose proof (merges_ok _ _ Hm Hok2) as Hok3.
  split; [done|]. destruct (merges_keep _ _ Hm) as (Hp & _ & _ & _ & Hlast & _).
  rewrite (released_pending _ _ Hrel) in Hp.
  assert (Hpend : pending_blocks c1 = filter (λ b, lb_id b ≠ id) (P ++ [a])).
  { unfold pending_blocks, c1. cbn. rewrite pending_set_free. by rewrite <-(proj1 Hv). }
  rewrite filter_app, (filter_cons _ a), decide_True in Hpend by done.
  assert (Hv' : pview (mark_free id c) (filter (λ b, lb_id b ≠ id) P) a).
  { destruct (pview_exists _ Hok3) as (P' & a' & [HP' Hl'] & _). rewrite Hp, Hpend in HP'.
    apply app_inj_tail in HP' as [<- <-]. split; [by rewrite Hp, Hpend|done]. }
  assert (Hlim : same_limits c (mark_free id c)).
  { assert (H2 : same_limits c c2) by (by destruct Hrel as (? & ? & ? & ? & -> & _)).
    destruct H2 as (E1 & E2 & E3). unfold same_limits. rewrite <-E1, <-E2, <-E3. clear -Hm.
    induction Hm as [|? ? ? ? ? ? ? ? ? ? ? IH]; [done|exact IH]. }
  split; [done|]. split; [|done]. destruct Ha, Hlim as (E1 & E2 & _). split; rewrite ?E1, ?E2; done.
Qed.

Lemma same_blocks_filter bs bs' :
  Forall2 same_block bs bs' →
  Forall2 same_block (filter (λ b, lb_free b = false) bs) (filter (λ b, lb_free b = false) bs').
Proof.
  induction 1 as [|b b' bs bs' Hb _ IH]; [constructor|]. rewrite !filter_cons.
  assert (lb_free b' = lb_free b) as -> by (by destruct Hb as (? & -> & _)).
  case_decide; [by constructor|done].
Qed.

Lemma same_block_log b b' sid : same_block b b' → block_log sid b' = block_log sid b.
Proof.
  intros H. pose proof (blocks_log_proper sid [b] [b']) as Hl. rewrite !blocks_log_cons in Hl. cbn in Hl.
  rewrite !app_nil_r in Hl. symmetry. apply Hl. by repeat constructor.
Qed.

Lemma same_block_active c a a' : same_block a a' → active_ok c a → active_ok c a'.
Proof.
  intros (m & -> & Hm) [H1 H2 H3 H4 H5]. split; cbn; [done|done|done| |done].
  intros H0. destruct (H4 H0) as [Hmap ?]. split; [|done]. rewrite Hmap, fmap_empty in Hm.
  symmetry in Hm. by apply fmap_empty_inv in Hm.
Qed.

Lemma get_view sid x en m c P a rs c' :
  lc_ok c → pview c P a → active_ok c a → 0 <= m → lc_get sid x en m c = Some (rs, c') →
  ∃ P' a', lc_ok c' ∧ pview c' P' a' ∧ Forall2 same_block P P' ∧ same_block a a' ∧ active_ok c' a' ∧
    same_limits c c'.
Proof.
  intros Hok Hv Ha Hm Hg. destruct (lc_get_spec sid x en m c Hok Hm) as (bs & He & Hs & Hb).
  rewrite He in Hg. injection Hg as _ <-. pose proof (same_blocks_ok c bs Hok Hs Hb) as Hok'.
  destruct (pview_blocks _ _ _ Hok Hv) as [pre Hpre]. destruct (pview_pre _ _ _ _ Hpre Hv) as [-> Hf].
  rewrite Hpre in Hs. apply Forall2_app_inv_l in Hs as (pre' & aa & Hp & Haa & ->).
  apply Forall2_cons_inv_l in Haa as (a' & ? & Ha' & ->%Forall2_nil_inv_l & ->).
  exists (filter (λ b, lb_free b = false) pre'), a'. split; [done|].
  split; [apply pview_intro; [done|by destruct Ha' as (? & -> & _)]|].
  split; [by apply same_blocks_filter|]. split; [done|].
  pose proof (same_block_active _ _ _ Ha' Ha) as [? ? ? ? ?]. split; [by split|done].
Qed.

(** ** Where the confirmed records are

    [sl] lists the sealed blocks in the order they were sealed: the blocks of
    the upload tasks and those not yet submitted. [chunks] are the confirmed
    records of each, [cur] those of the active block. *)
Definition holds (b : LogCacheBlock) (ch : list (StreamRecordBatch * RecordOffset)) : Prop :=
  ∀ sid, block_log sid b = of_stream sid ch.*1.

Definition committed_ids (caches : list LogCacheBlock) (comm : list nat) : list nat :=
  omap (λ k, lb_id <$> caches !! k) comm.

Definition ascending (conf : list (StreamRecordBatch * RecordOffset)) : Prop :=
  StronglySorted Z.lt (rof_offset <$> conf.*2).

Record cinv (safe : bool) (c : LogCache) (caches seals : list LogCacheBlock)
    (conf : list (StreamRecordBatch * RecordOffset)) (comm : list nat)
    (sl P : list LogCacheBlock) (a : LogCacheBlock)
    (chunks : list (list (StreamRecordBatch * RecordOffset)))
    (cur : list (StreamRecordBatch * RecordOffset)) : Prop := {
  ci_ok : lc_ok c;
  ci_view : pview c P a;
  ci_active : active_ok c a;
  ci_perm : sl ≡ₚ caches ++ seals;
  ci_order : safe = true → sl = caches ++ seals;
  ci_conf : conf = mjoin chunks ++ cur;
  ci_holds : Forall2 holds sl chunks;
  ci_cur : holds a cur;
  ci_last : ∀ i b, sl !! i = Some b →
    lb_last_record_offset b = snd <$> last (mjoin (take (S i) chunks));
  ci_clast : lc_last_record_offset c = snd <$> last conf;
  ci_ids : NoDup (lb_id <$> sl);
  ci_lt : Forall (λ b, (lb_id b < lb_id a)%nat) sl;
  ci_live : ∀ b, b ∈ sl → lb_id b ∉ committed_ids caches comm → ∃ b', b' ∈ P ∧ same_block b b';
  ci_ascending : ascending conf;
}.

Definition cached_inv (safe : bool) (c : LogCache) (caches seals : list LogCacheBlock)
    (conf : list (StreamRecordBatch * RecordOffset)) (comm : list nat) : Prop :=
  ∃ sl P a chunks cur, cinv safe c caches seals conf comm sl P a chunks cur.

Section CacheSteps.
Context (safe : bool) (caches : list LogCacheBlock) (comm : list nat).

Lemma cinv_seal c c' a' block seals conf sl P a chunks cur :
  cinv safe c caches seals conf comm sl P a chunks cur →
  sealed_as c a block → lc_ok c' → pview c' (P ++ [block]) a' → active_ok c' a' →
  (lb_id a < lb_id a')%nat → same_limits c c' → (∀ sid, block_log sid a' = []) →
  cinv safe c' caches (seals ++ [block]) conf comm (sl ++ [block]) (P ++ [block]) a' (chunks ++ [cur]) [].
Proof.
  intros [Hok Hv Ha Hperm Hord Hconf Hholds Hcur Hlast Hclast Hids Hlt Hlive Hasc] Hse Hok' Hv' Ha' Hid
    (_ & _ & Hlim) Hlog'.
  assert (Hlen : length sl = length chunks) by by eapply Forall2_length.
  assert (Hbid : lb_id block = lb_id a) by by rewrite Hse.
  assert (Hall : conf = mjoin (chunks ++ [cur])).
  { rewrite join_app. cbn. by rewrite app_nil_r. }
  split; try done.
  - by rewrite Hperm, app_assoc.
  - intros Hs. by rewrite (Hord Hs), app_assoc.
  - by rewrite app_nil_r.
  - apply Forall2_app; [done|]. repeat constructor. intros sid.
    rewrite <-(Hcur sid). apply block_log_ext. by rewrite Hse.
  - intros i b Hi. apply lookup_snoc_Some in Hi as [[Hi Hb]|[-> <-]].
    + rewrite take_app_le by lia. by apply Hlast.
    + rewrite take_ge by (rewrite length_app; cbn; lia). rewrite <-Hall, Hse. cbn.
      rewrite Hclast. destruct (last conf); [done|]. apply (ao_nolast _ _ Ha).
  - by rewrite Hlim.
  - rewrite fmap_app. apply NoDup_app. split; [done|]. split; [|apply NoDup_singleton].
    intros x (b & -> & Hb)%list_elem_of_fmap Hx%list_elem_of_singleton. rewrite Forall_forall in Hlt.
    specialize (Hlt b Hb). lia.
  - apply Forall_app. split; [|rewrite Forall_singleton; lia]. eapply Forall_impl; [exact Hlt|]. cbn. lia.
  - intros b [Hb|Hb%list_elem_of_singleton]%elem_of_app Hn.
    + destruct (Hlive b Hb Hn) as (b' & ? & ?). exists b'. split; [|done]. set_solver.
    + subst b. exists block. split; [set_solver|done].
Qed.

Lemma cinv_refused c c' a' seals conf sl P a chunks cur :
  cinv safe c caches seals conf comm sl P a chunks cur →
  lc_ok c' → pview c' P a' → active_ok c' a' → lb_id a' = lb_id a → same_limits c c' →
  (∀ sid, block_log sid a' = block_log sid a) →
  cinv safe c' caches seals conf comm sl P a' chunks cur.
Proof.
  intros [Hok Hv Ha Hperm Hord Hconf Hholds Hcur Hlast Hclast Hids Hlt Hlive Hasc] Hok' Hv' Ha' Hid
    (_ & _ & Hlim) Hlog'.
  split; try done.
  - intros sid. by rewrite Hlog'.
  - by rewrite Hlim.
  - by rewrite Hid.
Qed.

Lemma ascending_snoc conf r o :
  ascending conf → (∀ x, x ∈ conf → rof_offset x.2 < rof_offset o) → ascending (conf ++ [(r, o)]).
Proof.
  unfold ascending. induction conf as [|x conf IH]; intros Hs Ho; cbn; [repeat constructor|].
  apply StronglySorted_inv in Hs as [Hs Hx]. constructor; [apply IH; [done|set_solver]|].
  rewrite !fmap_app. apply Forall_app. split; [done|]. repeat constructor. apply Ho. set_solver.
Qed.

Lemma cinv_added c c' a' seals conf sl P a chunks cur r o :
  cinv safe c caches seals conf comm sl P a chunks cur →
  lc_ok c' → pview c' P a' → active_ok c' a' → lb_id a' = lb_id a →
  (∀ sid, block_log sid a' = block_log sid a ++ (if sid =? stream_id r then [r] else [])) →
  (∀ x, x ∈ conf → rof_offset x.2 < rof_offset o) →
  cinv safe (lc_set_last_record_offset o c') caches seals (conf ++ [(r, o)]) comm sl P a' chunks (cur ++ [(r, o)]).
Proof.
  intros [Hok Hv Ha Hperm Hord Hconf Hholds Hcur Hlast Hclast Hids Hlt Hlive Hasc] Hok' Hv' Ha' Hid
    Hlog' Hoff.
  split; try done.
  - destruct Hok'. by split.
  - destruct Ha'. by split.
  - by rewrite Hconf, app_assoc.
  - intros sid. rewrite Hlog', (Hcur sid), fmap_app. unfold of_stream. rewrite filter_app. f_equal.
    cbn [fmap list_fmap fst]. rewrite filter_cons.
    destruct (Z.eqb_spec sid (stream_id r)); case_decide; done.
  - cbn. by rewrite last_snoc.
  - by rewrite Hid.
  - by apply ascending_snoc.
Qed.

Lemma cached_seal sid c ob c' seals conf :
  cached_inv safe c caches seals conf comm →
  archive_current_block_if_contains sid c = Some (ob, c') →
  cached_inv safe c' caches (seals ++ option_list ob) conf comm.
Proof.
  intros (sl & P & a & chunks & cur & H) Harch. pose proof H as [Hok Hv Ha _ _ _ _ _ _ _ _ _ _ _].
  destruct (archive_if_view sid c P a Hok Hv Ha) as [[E _]|(block & c1 & a' & E & Hse & Hok' & Hv' & Ha' & _ & Hid & Hlim & Hlog & _)];
    rewrite E in Harch; injection Harch as <- <-; cbn [option_list].
  - rewrite app_nil_r. by exists sl, P, a, chunks, cur.
  - eexists _, _, _, _, _. by eapply cinv_seal.
Qed.
End CacheSteps.

(** The confirm hook stores every record: when the active block refuses it,
    the fresh one accepts. *)
Lemma cached_confirm safe caches comm seals conf r o s :
  cached_inv safe (si_log_cache s) caches seals conf comm →
  record_ok r → put_ok (si_log_cache s) r → (∀ x, x ∈ conf → rof_offset x.2 < rof_offset o) →
  ∃ archived c', handle_append_confirm r o s =
      Some (s <| si_log_cache := c' |> <| si_sealing := si_sealing s ++
              [{| sl_block := archived; sl_force := false; sl_caller := CConfirm true |}] |>) ∧
    cached_inv safe c' caches (seals ++ option_list archived) (conf ++ [(r, o)]) comm.
Proof.
  intros (sl & P & a & chunks & cur & H) Hr Hput Hoff. pose proof H as [Hok Hv Ha _ _ _ _ _ _ _ _ _ _ _].
  unfold handle_append_confirm.
  destruct (put_view r _ P a Hok Hv Ha Hr Hput)
    as (added & c1 & a1 & E1 & Hok1 & Hv1 & Ha1 & Hid1 & Hlim1 & Hlog1 & Hrej1 & _).
  rewrite E1. cbn [mbind option_bind]. destruct added; cbn [andb] in Hlog1; cbn [mbind option_bind].
  { eexists None, _. split; [done|]. cbn [option_list]. rewrite app_nil_r.
    eexists sl, P, a1, chunks, _. by eapply cinv_added. }
  destruct (Hrej1 eq_refl) as [Hpos Hput1].
  assert (H1 : cinv safe c1 caches seals conf comm sl P a1 chunks cur).
  { eapply cinv_refused; try done. intros sid. by rewrite Hlog1, app_nil_r. }
  destruct (archive_if_view MATCH_ALL_STREAMS c1 P a1 Hok1 Hv1 Ha1)
    as [[_ E]|(block & c2 & a2 & E2 & Hse & Hok2 & Hv2 & Ha2 & H0 & Hid2 & Hlim2 & Hlog2 & Hcl)].
  { rewrite Z.eqb_refl in E. lia. }
  rewrite E2. cbn [mbind option_bind fst snd].
  assert (H2 : cinv safe c2 caches (seals ++ [block]) conf comm (sl ++ [block]) (P ++ [block]) a2
                 (chunks ++ [cur]) []) by by eapply cinv_seal.
  assert (Hput2 : put_ok c2 r) by (destruct Hput1 as [? Hend]; split; [done|]; by rewrite Hcl).
  destruct (put_view r c2 _ a2 Hok2 Hv2 Ha2 Hr Hput2)
    as (added & c3 & a3 & E3 & Hok3 & Hv3 & Ha3 & Hid3 & Hlim3 & Hlog3 & _ & Hadd).
  rewrite (Hadd H0) in *. rewrite E3. cbn [mbind option_bind fst snd andb] in *.
  eexists (Some block), _. split; [done|]. cbn [option_list].
  eexists _, _, a3, _, _. by eapply cinv_added.
Qed.

Lemma committed_ids_app caches b comm x :
  x ∈ committed_ids caches comm → x ∈ committed_ids (caches ++ [b]) comm.
Proof.
  intros (k & Hk & Hx)%list_elem_of_omap. apply list_elem_of_omap. exists k. split; [done|].
  destruct (caches !! k) eqn:E; [|done]. by rewrite (lookup_app_l_Some _ _ _ _ E).
Qed.

(** A sealed block gets its task. *)
Lemma cached_submit safe c caches seals seals' b conf comm :
  cached_inv safe c caches seals conf comm → seals ≡ₚ b :: seals' → (safe = true → seals = b :: seals') →
  cached_inv safe c (caches ++ [b]) seals' conf comm.
Proof.
  intros (sl & P & a & chunks & cur & [Hok Hv Ha Hperm Hord Hconf Hholds Hcur Hlast Hclast Hids Hlt Hlive Hasc])
    Hp Hs.
  exists sl, P, a, chunks, cur. split; try done.
  - rewrite Hperm, Hp, <-app_assoc. done.
  - intros Hsafe. rewrite (Hord Hsafe), (Hs Hsafe), <-app_assoc. done.
  - intros b' Hb' Hn. apply Hlive; [done|]. intros Hin. by apply Hn, committed_ids_app.
Qed.

(** A task commits: only its own block becomes free. *)
Lemma cached_commit safe c caches seals conf comm k b :
  cached_inv safe c caches seals conf comm → caches !! k = Some b →
  cached_inv safe (mark_free (lb_id b) c) caches seals conf (comm ++ [k]).
Proof.
  intros (sl & P & a & chunks & cur & [Hok Hv Ha Hperm Hord Hconf Hholds Hcur Hlast Hclast Hids Hlt Hlive Hasc]) Hk.
  assert (Hb : b ∈ sl) by (rewrite Hperm; apply elem_of_app; left; by eapply list_elem_of_lookup_2).
  rewrite Forall_forall in Hlt. pose proof (Hlt b Hb) as Hltb.
  destruct (mark_free_view (lb_id b) c P a Hok Hv Ha) as (Hok' & Hv' & Ha' & _ & _ & Hlim); [lia|].
  exists sl, (filter (λ b', lb_id b' ≠ lb_id b) P), a, chunks, cur. split; try done.
  - by rewrite Hlim.
  - by apply Forall_forall.
  - intros b' Hb' Hn. unfold committed_ids in Hn. rewrite omap_app in Hn. cbn in Hn. rewrite Hk in Hn. cbn in Hn.
    destruct (Hlive b' Hb') as (b'' & HP & Hsame); [intros ?; apply Hn; set_solver|].
    exists b''. split; [|done]. apply list_elem_of_filter. split; [|done].
    destruct Hsame as (m & -> & _). cbn. intros E. apply Hn. set_solver.
Qed.

Lemma cached_read safe c caches seals conf comm sid x en m rs c' :
  cached_inv safe c caches seals conf comm → 0 <= m → lc_get sid x en m c = Some (rs, c') →
  cached_inv safe c' caches seals conf comm.
Proof.
  intros (sl & P & a & chunks & cur & [Hok Hv Ha Hperm Hord Hconf Hholds Hcur Hlast Hclast Hids Hlt Hlive Hasc])
    Hm Hg.
  destruct (get_view _ _ _ _ _ _ _ _ _ Hok Hv Ha Hm Hg) as (P' & a' & Hok' & Hv' & HP & Hsa & Ha' & _ & _ & Hlim).
  exists sl, P', a', chunks, cur. split; try done.
  - intros sid'. by rewrite (same_block_log _ _ _ Hsa).
  - by rewrite Hlim.
  - destruct Hsa as (mm & -> & _). done.
  - intros b Hb Hn. destruct (Hlive b Hb Hn) as (b' & Hb' & Hs).
    apply list_elem_of_lookup in Hb' as [i Hi]. destruct (Forall2_lookup_l _ _ _ _ _ HP Hi) as (b'' & Hi' & Hs').
    exists b''. split; [by eapply list_elem_of_lookup_2|]. by etransitivity.
Qed.

Lemma cached_new safe capacity block_max n :
  0 < block_max < 2 ^ 62 → (0 < n)%nat → cached_inv safe (lc_new capacity block_max n) [] [] [] [].
Proof.
  intros Hm Hn. exists [], [], (block_new 0 block_max n), [], []. split; try done.
  - apply lc_new_ok.
  - constructor.
  - intros b Hb. by apply not_elem_of_nil in Hb.
  - constructor.
Qed.

(** ** The queues and the trims *)
Record qinv (safe : bool) (cfs : list Completion) (cq pq : list nat) (poisoned : option string)
    (comm : list nat) : Prop := {
  qi_known : ∀ k, k ∈ comm → (k < length cfs)%nat;
  qi_nodup : NoDup (comm ++ cq ++ pq);
  qi_open : ∀ k, k ∈ cq ++ pq → cfs !! k = Some None;
  qi_safe : safe = true →
    ∃ mid, comm ++ mid ++ cq ++ pq = seq 0 (length cfs) ∧ (poisoned = None → mid = []);
}.

(** A trim goes to the last record of a committed task's block. *)
Definition trim_source (caches : list LogCacheBlock) (comm : list nat) (o : RecordOffset) (k : nat) : Prop :=
  k ∈ comm ∧ caches !! k ≫= lb_last_record_offset = Some o.

Definition tinv (caches : list LogCacheBlock) (comm : list nat) (todo : list (RecordOffset * nat))
    (done : list RecordOffset) : Prop :=
  (∀ x, x ∈ todo → trim_source caches comm x.1 x.2) ∧
  (∀ o, o ∈ done → ∃ k, trim_source caches comm o k).

(** What the invariant reads of the state. *)
Definition view (s : StorageInner) : LogCache * list LogCacheBlock * list LogCacheBlock * list Completion *
    (list nat * list nat * option string) * (list (RecordOffset * nat) * list RecordOffset) :=
  (si_log_cache s, tc_cache <$> si_tasks s, omap sl_block (si_sealing s), tc_cf <$> si_tasks s,
   (si_commit_queue s, si_prepare_queue s, si_poisoned s),
   (si_trimming s ++ si_delay_trim_queue s, si_trimmed s)).

Definition winv (safe : bool) (s : StorageInner) (conf : list (StreamRecordBatch * RecordOffset))
    (comm : list nat) : Prop :=
  let '(c, caches, seals, cfs, (cq, pq, poisoned), (todo, done)) := view s in
  cached_inv safe c caches seals conf comm ∧ qinv safe cfs cq pq poisoned comm ∧ tinv caches comm todo done.

Lemma winv_view safe s s' conf comm : view s' = view s → winv safe s conf comm → winv safe s' conf comm.
Proof. unfold winv. by intros ->. Qed.

Lemma update_view f k s :
  (∀ t, tc_cache (f t) = tc_cache t) → (∀ t, tc_cf (f t) = tc_cf t) → view (update_task f k s) = view s.
Proof.
  intros H1 H2. unfold view, update_task. cbn.
  replace (tc_cache <$> alter f k (si_tasks s)) with (tc_cache <$> si_tasks s).
  - replace (tc_cf <$> alter f k (si_tasks s)) with (tc_cf <$> si_tasks s); [done|].
    apply list_eq. intros i. rewrite !list_lookup_fmap. destruct (decide (i = k)) as [->|].
    + rewrite list_lookup_alter_eq. destruct (si_tasks s !! k); cbn; [by rewrite H2|done].
    + by rewrite list_lookup_alter_ne.
  - apply list_eq. intros i. rewrite !list_lookup_fmap. destruct (decide (i = k)) as [->|].
    + rewrite list_lookup_alter_eq. destruct (si_tasks s !! k); cbn; [by rewrite H1|done].
    + by rewrite list_lookup_alter_ne.
Qed.

Lemma force_view ks s : view (foldr (update_task (λ t, t <| tc_force := true |>)) s ks) = view s.
Proof. induction ks as [|k ks IH]; [done|]. cbn [foldr]. by rewrite update_view. Qed.

Lemma complete_trim_view r k s : view (complete_trim_cf r k s) = view s.
Proof. by apply update_view. Qed.

Lemma maybe_force_view s : view (maybe_force_upload s) = view s.
Proof. unfold maybe_force_upload. by destruct (has_inflight_force s), (si_force_upload_scheduled s). Qed.

Lemma place_view q o s : view (place_request q o s) = view s.
Proof. by destruct o. Qed.

Lemma append0_view q o s : view (append0 q o s).2 = view s.
Proof.
  unfold append0. destruct (si_backoff s); [|done]. destruct (negb _); [done|].
  destruct (is_over_capacity o); [exact (maybe_force_view s)|apply place_view].
Qed.

Lemma drain_view os s s' : try_drain_backoff_records os s = Some s' → view s' = view s.
Proof.
  revert s. induction os as [|o os IH]; intros s; cbn; destruct (si_backoff s); try (intros [= <-]; done);
    (destruct (negb _); [by intros [= <-]|]); [done|].
  destruct (is_over_capacity o); [intros [= <-]; apply maybe_force_view|].
  intros H%IH. by rewrite H, place_view.
Qed.

Lemma notify_view s : view (notify_lazy_upload s) = view s.
Proof. unfold notify_lazy_upload. by destruct (si_lazy_upload_queue s). Qed.

Section Steps.
Context (safe : bool) (conf : list (StreamRecordBatch * RecordOffset)) (comm : list nat).

Lemma winv_seal sid force caller s s' :
  winv safe s conf comm → upload_delta_wal sid force caller s = Some s' → winv safe s' conf comm.
Proof.
  intros (Hc & Hq & Ht) Hup. unfold upload_delta_wal in Hup.
  destruct (archive_current_block_if_contains sid (si_log_cache s)) as [[ob c']|] eqn:E; [|done].
  cbn [mbind option_bind fst snd] in Hup. injection Hup as <-. unfold winv. cbn -[omap].
  split; [|done]. rewrite omap_app. cbn [omap list_omap sl_block]. change (match ob with Some y => [y] | None => [] end) with (option_list ob).
  by eapply cached_seal.
Qed.

Lemma qinv_push cfs cq pq poisoned :
  qinv safe cfs cq pq poisoned comm → qinv safe (cfs ++ [None]) cq (pq ++ [length cfs]) poisoned comm.
Proof.
  intros [Hk Hn Ho Hs].
  assert (Hq : cq ++ pq ++ [length cfs] = (cq ++ pq) ++ [length cfs]) by by rewrite app_assoc.
  split; rewrite ?Hq.
  - intros k ?%Hk. rewrite length_app. cbn. lia.
  - rewrite app_assoc. apply NoDup_app. split; [done|]. split; [|apply NoDup_singleton].
    intros x Hx ->%list_elem_of_singleton.
    apply elem_of_app in Hx as [Hx%Hk|Hx%Ho%lookup_lt_Some]; by eapply Nat.lt_irrefl.
  - intros k Hk'. apply elem_of_app in Hk' as [Hk'|Hk'%list_elem_of_singleton]; [|subst k].
    + apply lookup_app_l_Some. by apply Ho.
    + by rewrite lookup_app_r, Nat.sub_diag.
  - intros Hsafe. destruct (Hs Hsafe) as (mid & Hm & Hp). exists mid. split; [|done].
    rewrite length_app, seq_app. cbn. by rewrite <-Hm, !app_assoc.
Qed.

Lemma tinv_push caches b todo done : tinv caches comm todo done → tinv (caches ++ [b]) comm todo done.
Proof.
  assert (Hpush : ∀ o k, trim_source caches comm o k → trim_source (caches ++ [b]) comm o k).
  { intros o k [Hk Ho]. split; [done|]. destruct (caches !! k) eqn:E; [|done].
    by rewrite (lookup_app_l_Some _ _ _ _ E). }
  intros [H1 H2]. split; [naive_solver|]. intros o Ho. destruct (H2 o Ho) as [k ?]. eauto.
Qed.

(** The block of the [i]th sealing task is submitted; in a safe run no
    earlier one holds a block. *)
Definition oldest_first (i : nat) (l : list Sealing) : Prop := omap sl_block (take i l) = [].

Lemma sealing_delete i l e :
  l !! i = Some e →
  omap sl_block l ≡ₚ option_list (sl_block e) ++ omap sl_block (delete i l) ∧
  (oldest_first i l → omap sl_block l = option_list (sl_block e) ++ omap sl_block (delete i l)).
Proof.
  intros Hi. unfold oldest_first.
  assert (E : omap sl_block l = omap sl_block (take i l) ++ option_list (sl_block e) ++ omap sl_block (drop (S i) l)).
  { rewrite <-(take_drop_middle _ _ _ Hi) at 1. rewrite omap_app. cbn. by destruct (sl_block e). }
  rewrite E, delete_take_drop, omap_app. split.
  - rewrite !app_assoc. apply Permutation_app_tail, Permutation_app_comm.
  - intros ->. done.
Qed.

Lemma submit_view block force s :
  view (submit_block_upload block force s).2 =
  (si_log_cache s, (tc_cache <$> si_tasks s) ++ [block], omap sl_block (si_sealing s),
   (tc_cf <$> si_tasks s) ++ [None],
   (si_commit_queue s, si_prepare_queue s ++ [length (si_tasks s)], si_poisoned s),
   (si_trimming s ++ si_delay_trim_queue s, si_trimmed s)).
Proof.
  unfold submit_block_upload. set (s1 := _ <| si_inflight_tasks := _ |>). cbn [snd].
  transitivity (view (s1 <| si_prepare_queue := si_prepare_queue s ++ [length (si_tasks s)] |>)).
  - destruct force; [|done].
    pose proof (force_view (si_inflight_tasks s1) s1) as H. unfold view in *.
    injection H as E1 E2 E3 E4 E5 E6 E7 E8 E9. cbn. by rewrite E1, E2, E3, E4, E5, E6, E7, E8, E9.
  - unfold view. cbn. by rewrite !fmap_app.
Qed.

Lemma resume_inv caller cf s s' :
  winv safe s conf comm → resume caller cf s = Some s' → winv safe s' conf comm.
Proof.
  intros Hw. destruct caller as [[]| | |]; cbn; try (intros [= <-]; exact Hw). by apply winv_seal.
Qed.

Lemma winv_submit i e s s' :
  winv safe s conf comm → si_sealing s !! i = Some e → (safe = true → oldest_first i (si_sealing s)) →
  submit_sealed e (s <| si_sealing := delete i (si_sealing s) |>) = Some s' → winv safe s' conf comm.
Proof.
  intros Hw Hi Hold. destruct (sealing_delete i _ e Hi) as [Hperm Hord]. unfold submit_sealed.
  set (s1 := s <| si_sealing := _ |>).
  assert (H1 : ∀ cf s2, (match sl_block e with
       | Some block => let '(k, s) := submit_block_upload block (sl_force e) s1 in (Some k, s)
       | None => (None, s1) end) = (cf, s2) → winv safe s2 conf comm).
  { intros cf s2 E. destruct (sl_block e) as [block|] eqn:Eb.
    - destruct (submit_block_upload block (sl_force e) s1) as [k s3] eqn:Es. injection E as <- <-.
      pose proof (submit_view block (sl_force e) s1) as Hv. rewrite Es in Hv. cbn [snd] in Hv.
      destruct Hw as (Hc & Hq & Ht). unfold winv. rewrite Hv. cbn [s1 si_log_cache si_tasks si_sealing field_set].
      split; [|split].
      + eapply cached_submit; [exact Hc|exact Hperm|]. intros Hs. by apply Hord, Hold.
      + rewrite <-(length_fmap tc_cf (si_tasks s)). by apply qinv_push.
      + by apply tinv_push.
    - injection E as <- <-. destruct Hw as (Hc & Hq & Ht). split; [|done]. cbn -[omap].
      destruct Hc as (sl & P & a & ch & cur & H).
      exists sl, P, a, ch, cur. destruct H as [? ? ? Hp Ho]. split; try done.
      + rewrite Hp, Hperm. done.
      + intros Hs. rewrite (Ho Hs), (Hord (Hold Hs)). done. }
  destruct (match sl_block e with Some _ => _ | None => _ end) as [cf s2] eqn:E.
  specialize (H1 _ _ eq_refl). intros H%resume_inv; [done|].
  destruct (match sl_caller e with CConfirm _ => _ | _ => _ end); [done|].
  eapply winv_view; [apply notify_view|done].
Qed.
End Steps.

Lemma complete_cf_view r k s :
  view (complete_cf r k s) =
  (si_log_cache s, tc_cache <$> si_tasks s, omap sl_block (si_sealing s),
   alter (complete r) k (tc_cf <$> si_tasks s),
   (si_commit_queue s, si_prepare_queue s, si_poisoned s),
   (si_trimming s ++ si_delay_trim_queue s, si_trimmed s)).
Proof.
  unfold view, complete_cf, update_task. cbn.
  replace (tc_cache <$> alter _ k (si_tasks s)) with (tc_cache <$> si_tasks s).
  - do 3 f_equal. apply list_fmap_alter. by apply Forall_true.
  - apply list_eq. intros i. rewrite !list_lookup_fmap. destruct (decide (i = k)) as [->|].
    + rewrite list_lookup_alter_eq. by destruct (si_tasks s !! k).
    + by rewrite list_lookup_alter_ne.
Qed.

Lemma task_cf_complete r k s :
  task_cf s k = None → is_Some (si_tasks s !! k) → task_cf (complete_cf r k s) k = Some r.
Proof.
  intros Hn [t Ht]. unfold task_cf, complete_cf, update_task in *. cbn. rewrite list_lookup_alter_eq, Ht in *.
  cbn in *. by rewrite Hn.
Qed.

(** The task at the head of a queue leaves it with its completion set. *)
Lemma qinv_close safe cfs q1 k q2 q1' q2' poisoned comm comm' r :
  qinv safe cfs q1 q2 poisoned comm → q1 ++ q2 ≡ₚ k :: q1' ++ q2' → comm' ⊆ k :: comm → NoDup comm' →
  NoDup (comm' ++ q1' ++ q2') ∧ (∀ j, j ∈ comm' → (j < length (alter (complete r) k cfs))%nat) ∧
  (∀ j, j ∈ q1' ++ q2' → alter (complete r) k cfs !! j = Some None).
Proof.
  intros [Hk Hn Ho _] Hp Hsub Hnd. rewrite Hp in Hn. apply NoDup_app in Hn as (Hc & Hdis & Hq).
  apply NoDup_cons in Hq as [Hkq Hq]. split_and!.
  - apply NoDup_app. split_and!; [done| |done]. intros x [->|Hx]%Hsub%elem_of_cons; [done|].
    intros Hx'. apply (Hdis x Hx). set_solver.
  - intros j [->|Hj]%Hsub%elem_of_cons; rewrite length_alter; [|by apply Hk].
    eapply lookup_lt_Some, Ho. rewrite Hp. set_solver.
  - intros j Hj. rewrite list_lookup_alter_ne by set_solver. apply Ho. rewrite Hp. set_solver.
Qed.

Lemma view_commit_queue s s' q :
  view s' = view s → view (s' <| si_commit_queue := q |>) = view (s <| si_commit_queue := q |>).
Proof. unfold view. cbn. congruence. Qed.

Lemma view_poisoned s s' p :
  view s' = view s → view (s' <| si_poisoned := p |>) = view (s <| si_poisoned := p |>).
Proof. unfold view. cbn. congruence. Qed.

Section Workers.
Context (safe : bool) (conf : list (StreamRecordBatch * RecordOffset)) (comm : list nat).

Lemma winv_prepare answer s s' :
  winv safe s conf comm → (safe = true → is_ok answer = true) → prepare_worker answer s = Some s' →
  winv safe s' conf comm.
Proof.
  intros (Hc & Hq & Ht) Hsafe. unfold prepare_worker. destruct (si_prepare_queue s) as [|k rest] eqn:Ep; [done|].
  destruct answer as [id|reason]; intros [= <-].
  - eapply winv_view; [apply view_commit_queue, update_view; done|]. split; [exact Hc|]. split; [|exact Ht]. cbn.
    destruct Hq as [Hk Hn Ho Hs]. split; rewrite <-?app_assoc; try done. 
  - unfold winv. set (s1 := s <| si_prepare_queue := rest |>).
    assert (Hv : view (remove_inflight k (complete_trim_cf (Err "prepare failed"%string) k
      (complete_cf (Err reason) k s1))) = view (complete_cf (Err reason) k s1)) by exact (complete_trim_view _ _ _).
    rewrite Hv, complete_cf_view. cbn. split; [done|]. split; [|done].
    destruct (qinv_close _ _ _ k _ (si_commit_queue s) rest _ _ comm (Err reason) Hq) as (? & ? & ?).
    { by rewrite Permutation_middle. }
    { set_solver. }
    { destruct Hq as [_ Hn _ _]. by apply NoDup_app in Hn as (? & _). }
    split; try done. intros Hs. by specialize (Hsafe Hs).
Qed.

Lemma fail_view r k s : view (fail_task r k s) = view (complete_cf (Err r) k s).
Proof. exact (complete_trim_view _ _ _). Qed.

Lemma winv_fail r k rest s p :
  winv safe s conf comm → si_commit_queue s = k :: rest → is_Some p →
  winv safe (fail_task r k (s <| si_commit_queue := rest |>) <| si_poisoned := p |>) conf comm ∧
  task_cf (fail_task r k (s <| si_commit_queue := rest |>)) k = Some (Err r).
Proof.
  intros (Hc & Hq & Ht) Eq [reason ->]. set (s1 := s <| si_commit_queue := rest |>).
  assert (Hv : view (fail_task r k s1 <| si_poisoned := Some reason |>) =
               view (complete_cf (Err r) k s1 <| si_poisoned := Some reason |>)).
  { apply view_poisoned, fail_view. }
  assert (Hopen : (tc_cf <$> si_tasks s) !! k = Some None).
  { apply (qi_open _ _ _ _ _ _ Hq). rewrite Eq. set_solver. }
  split.
  - unfold winv. rewrite Hv. unfold view. cbn.
    pose proof (complete_cf_view (Err r) k s1) as E. unfold view in E. cbn in E.
    injection E as E1 E2. rewrite E1, E2. split; [done|]. split; [|done].
    destruct (qinv_close _ _ _ k _ rest (si_prepare_queue s) _ _ comm (Err r) Hq) as (? & ? & ?).
    { by rewrite Eq. }
    { set_solver. }
    { destruct Hq as [_ Hn _ _]. by apply NoDup_app in Hn as (? & _). }
    split; try done. intros Hs. destruct (qi_safe _ _ _ _ _ _ Hq Hs) as (mid & Hm & _).
    exists (mid ++ [k]). split; [|done]. rewrite length_alter, <-Hm, Eq, <-!app_assoc. done.
  - rewrite list_lookup_fmap in Hopen. destruct (si_tasks s !! k) as [t|] eqn:Et; [|done].
    change (task_cf (complete_trim_cf (Err r) k (complete_cf (Err r) k s1)) k = Some (Err r)).
    unfold task_cf, complete_trim_cf, complete_cf, update_task. cbn. rewrite !list_lookup_alter_eq, Et. cbn.
    injection Hopen as ->. done.
Qed.

(** The trim a commit starts. *)
Definition start_trim (t : TaskContext) (k : nat) (s : StorageInner) : StorageInner :=
  match lb_last_record_offset (tc_cache t) with
  | Some offset => delay_trim offset k s
  | None => complete_trim_cf (Ok tt) k s
  end.

Lemma start_trim_view t k s :
  ∃ todo, view (start_trim t k s) =
    (si_log_cache s, tc_cache <$> si_tasks s, omap sl_block (si_sealing s), tc_cf <$> si_tasks s,
     (si_commit_queue s, si_prepare_queue s, si_poisoned s), (todo, si_trimmed s)) ∧
    ∀ x, x ∈ todo → x ∈ si_trimming s ++ si_delay_trim_queue s ∨
      (x.2 = k ∧ lb_last_record_offset (tc_cache t) = Some x.1).
Proof.
  unfold start_trim. destruct (lb_last_record_offset (tc_cache t)) as [o|].
  - unfold delay_trim. destruct (si_delay_trim_ms s =? 0); eexists; (split; [unfold view; cbn; reflexivity|]);
      intros x; rewrite !elem_of_app, list_elem_of_singleton; naive_solver.
  - eexists. split; [apply complete_trim_view|]. by left.
Qed.

Lemma winv_committed t k rest s :
  winv safe s conf comm → si_commit_queue s = k :: rest → si_poisoned s = None → si_tasks s !! k = Some t →
  winv safe (committed t k (s <| si_commit_queue := rest |>)) conf (comm ++ [k]) ∧
  task_cf (committed t k (s <| si_commit_queue := rest |>)) k = Some (Ok tt).
Proof.
  intros (Hc & Hq & Ht) Eq Hpo Htk. set (s1 := s <| si_commit_queue := rest |>).
  unfold committed. change (match lb_last_record_offset _ with Some _ => _ | None => _ end) with (start_trim t k s1).
  destruct (start_trim_view t k s1) as (todo & Hv & Htodo). set (s2 := start_trim t k s1) in *.
  set (s3 := s2 <| si_log_cache := _ |>).
  assert (Hopen : (tc_cf <$> si_tasks s) !! k = Some None).
  { apply (qi_open _ _ _ _ _ _ Hq). rewrite Eq. set_solver. }
  unfold view in Hv. injection Hv as V1 V2 V3 V4 V5 V6 V7 V8 V9. split.
  - unfold winv.
    change (view (remove_inflight k (complete_cf (Ok tt) k s3))) with (view (complete_cf (Ok tt) k s3)).
    rewrite complete_cf_view. cbn -[omap]. rewrite V1, V2, V3, V4, V5, V6, V7, V8, V9. cbn -[omap].
    assert (Hcache : (tc_cache <$> si_tasks s) !! k = Some (tc_cache t)) by by rewrite list_lookup_fmap, Htk.
    split; [by apply cached_commit|]. split.
    + pose proof Hq as [_ Hnd _ _]. rewrite Eq in Hnd.
      assert (Hk : k ∉ comm). { intros Hk. apply NoDup_app in Hnd as (_ & Hd & _). apply (Hd k Hk). set_solver. }
      destruct (qinv_close _ _ _ k _ rest (si_prepare_queue s) _ _ (comm ++ [k]) (Ok tt) Hq) as (? & ? & ?).
      { by rewrite Eq. }
      { set_solver. }
      { apply NoDup_app in Hnd as (? & _). apply NoDup_app. split_and!; [done|set_solver|apply NoDup_singleton]. }
      split; try done. intros Hs. destruct (qi_safe _ _ _ _ _ _ Hq Hs) as (mid & Hm & Hp).
      exists []. split; [|done]. rewrite Hpo in Hp. rewrite (Hp eq_refl), Eq in Hm. rewrite length_alter, <-Hm.
      by rewrite <-app_assoc.
    + destruct Ht as [Ht1 Ht2].
      assert (Hmon : ∀ o j, trim_source (tc_cache <$> si_tasks s) comm o j →
                            trim_source (tc_cache <$> si_tasks s) (comm ++ [k]) o j).
      { intros o j [? ?]. split; [set_solver|done]. }
      split; [|intros o (j & ?)%Ht2; eauto].
      intros x [Hx|[<- Hx]]%Htodo; [by apply Hmon, Ht1|]. split; [set_solver|]. by rewrite Hcache.
  - change (task_cf (complete_cf (Ok tt) k s3) k = Some (Ok tt)).
    assert (Hcf : (tc_cf <$> si_tasks s2) !! k = Some None) by by rewrite V4.
    rewrite list_lookup_fmap in Hcf. destruct (si_tasks s2 !! k) as [t2|] eqn:E2; [|done].
    injection Hcf as Hcf. apply task_cf_complete; [|by eexists].
    unfold task_cf. cbn. by rewrite E2.
Qed.

Lemma winv_commit answer s s' :
  winv safe s conf comm → commit_worker answer s = Some s' →
  winv safe s' conf (comm ++ newly_committed s s').
Proof.
  intros Hw. unfold commit_worker, newly_committed. destruct (si_commit_queue s) as [|k rest] eqn:Eq; [done|].
  set (s1 := s <| si_commit_queue := rest |>).
  change (si_poisoned s1) with (si_poisoned s). destruct (si_poisoned s) as [reason|] eqn:Ep.
  { intros [= <-]. destruct (winv_fail reason k rest s (si_poisoned s) Hw Eq) as [H1 H2]; [by rewrite Ep|].
    fold s1 in H1, H2. rewrite H2, app_nil_r. eapply winv_view; [|exact H1].
    change (si_poisoned s) with (si_poisoned (fail_task reason k s1)). by destruct (fail_task reason k s1). }
  destruct (si_tasks s1 !! k) as [t|] eqn:Et; [|done]. cbn [mbind option_bind].
  destruct (tc_upload_done t) as [up|]; [|done]. cbn [mbind option_bind].
  destruct (match up with Ok _ => _ | Err _ => _ end) as [[]|reason]; intros [= <-].
  - destruct (winv_committed t k rest s Hw Eq Ep Et) as [H1 H2]. fold s1 in H1, H2. by rewrite H2.
  - destruct (winv_fail reason k rest s (Some reason) Hw Eq) as [H1 H2]; [done|]. fold s1 in H1, H2.
    change (task_cf (fail_task reason k s1 <| si_poisoned := Some reason |>) k) with
      (task_cf (fail_task reason k s1) k). rewrite H2, app_nil_r. exact H1.
Qed.
End Workers.

(** ** Runs *)

(** What the surroundings of the pipeline owe it: the WAL confirms records
    at growing offsets, the records are well formed and continue what is
    cached of their stream. In a safe run, moreover, prepare calls succeed
    and blocks are submitted in the order they were sealed. *)
Definition allowed (safe : bool) (a : Action) (w : World) : Prop :=
  match a with
  | AConfirm i o => ∀ q, si_wal (w_st w) !! i = Some q →
      record_ok (wr_record q) ∧ put_ok (si_log_cache (w_st w)) (wr_record q) ∧
      ∀ x, x ∈ w_confirmed w → rof_offset x.2 < rof_offset o
  | ASubmit i => safe = true → oldest_first i (si_sealing (w_st w))
  | APrepare answer => safe = true → is_ok answer = true
  | ARead _ _ _ max_bytes => 0 <= max_bytes
  | _ => True
  end.

Definition step (safe : bool) (w w' : World) : Prop := ∃ a, allowed safe a w ∧ act a w = Some w'.

Definition config_ok (c : S3StorageConfig) : Prop :=
  0 <= cf_wal_cache_size c < 2 ^ 62 ∧ 0 <= cf_wal_upload_threshold c ∧
  (0 < cf_max_stream_num_per_stream_set_object c)%nat.

Definition reach (safe : bool) (c : S3StorageConfig) (w : World) : Prop :=
  config_ok c ∧ ∃ w0, world_new c = Some w0 ∧ rtc (step safe) w0 w.

Definition world_inv (safe : bool) (w : World) : Prop := winv safe (w_st w) (w_confirmed w) (w_committed w).

Lemma winv_trim safe conf comm i answer s s' :
  winv safe s conf comm → trim_done i answer s = Some s' → winv safe s' conf comm.
Proof.
  intros (Hc & Hq & [Ht1 Ht2]). unfold trim_done. destruct (si_trimming s !! i) as [[o k]|] eqn:E; [|done].
  cbn [mbind option_bind]. intros [= <-]. eapply winv_view; [apply complete_trim_view|].
  assert (Hsub : ∀ x, x ∈ delete i (si_trimming s) ++ si_delay_trim_queue s →
                      x ∈ si_trimming s ++ si_delay_trim_queue s).
  { intros x. rewrite !elem_of_app. intros [Hx|]; [|by right]. left. revert Hx. apply sublist_subseteq, sublist_delete. }
  destruct answer as [[]|e]; (split; [exact Hc|split; [exact Hq|split; [intros x ?%Hsub; by apply Ht1|]]]); [|exact Ht2].
  intros o' [?%Ht2|Ho%list_elem_of_singleton]%elem_of_app; [done|]. subst o'. exists k. apply (Ht1 (o, k)).
  apply elem_of_app. left. by eapply list_elem_of_lookup_2.
Qed.

Lemma winv_todo safe conf comm s s' :
  winv safe s conf comm →
  (si_log_cache s', tc_cache <$> si_tasks s', omap sl_block (si_sealing s'), tc_cf <$> si_tasks s',
   (si_commit_queue s', si_prepare_queue s', si_poisoned s'), si_trimmed s') =
  (si_log_cache s, tc_cache <$> si_tasks s, omap sl_block (si_sealing s), tc_cf <$> si_tasks s,
   (si_commit_queue s, si_prepare_queue s, si_poisoned s), si_trimmed s) →
  (∀ x, x ∈ si_trimming s' ++ si_delay_trim_queue s' → x ∈ si_trimming s ++ si_delay_trim_queue s) →
  winv safe s' conf comm.
Proof.
  intros (Hc & Hq & [Ht1 Ht2]) [= E1 E2 E3 E4 E5 E6 E7 E8] Hsub. unfold winv, view.
  rewrite E1, E2, E3, E4, E5, E6, E7, E8. split; [done|]. split; [done|]. split; [auto|done].
Qed.

Lemma winv_run safe conf comm p s s' :
  winv safe s conf comm → run_spawned p s = Some s' → winv safe s' conf comm.
Proof.
  intros Hw. destruct p as [|task|z linger|lz infl|lz infl|caller waits|]; cbn [run_spawned].
  - by apply winv_seal.
  - destruct (from_option _ _ task); [|done]. cbn. intros [= <-]. eapply winv_view; [|exact Hw].
    by destruct (si_need_force_upload s).
  - destruct (bool_decide _); [|by intros [= <-]]. destruct (linger =? 0); [intros [= <-]; exact Hw|].
    by apply winv_seal.
  - destruct (wait_all _); [|done]. cbn. intros [= <-]. exact Hw.
  - destruct (wait_all _); [|done]. cbn. intros [= <-]. exact Hw.
  - destruct (wait_all _); [|done]. cbn. intros [= <-]. exact Hw.
  - destruct (si_delay_trim_queue s) as [|entry rest] eqn:E; intros [= <-]; [done|].
    eapply winv_todo; [exact Hw|done|]. cbn. rewrite E. set_solver.
Qed.

Lemma winv_upload safe conf comm k answer s s' :
  winv safe s conf comm → upload_done k answer s = Some s' → winv safe s' conf comm.
Proof.
  intros Hw. unfold upload_done. destruct (si_tasks s !! k) as [t|]; [|done]. cbn [mbind option_bind].
  destruct (ut_prepared_object_id _); [|done]. cbn [mbind option_bind].
  destruct (tc_upload_done t); [done|]. intros [= <-].
  eapply winv_view; [apply update_view; by destruct answer|exact Hw].
Qed.

Lemma with_st_inv w o w' : with_st w o = Some w' → ∃ s', o = Some s' ∧ w' = w <| w_st := s' |>.
Proof. unfold with_st. destruct o as [s'|]; [|done]. intros [= <-]. by exists s'. Qed.

Lemma step_inv safe w w' : step safe w w' → world_inv safe w → world_inv safe w'.
Proof.
  intros (a & Hal & Hact) Hw. unfold world_inv in *. destruct a; cbn [act] in Hact; cbn [allowed] in Hal.
  - injection Hact as <-. eapply winv_view; [apply append0_view|exact Hw].
  - destruct (si_shutdown _); [done|]. destruct (try_drain_backoff_records outcomes (w_st w)) as [s'|] eqn:E; [|done].
    injection Hact as <-. eapply winv_view; [eapply drain_view, E|exact Hw].
  - destruct (confirm_busy _); [done|]. destruct (si_wal (w_st w) !! i) as [q|] eqn:E; [|done].
    destruct (Hal q eq_refl) as (Hr & Hput & Hoff). destruct Hw as (Hc & Hq & Ht). cbn [mbind option_bind] in Hact.
    destruct (cached_confirm safe (tc_cache <$> si_tasks (w_st w)) (w_committed w)
      (omap sl_block (si_sealing (w_st w))) (w_confirmed w) (wr_record q) offset (w_st w <| si_wal := delete i (si_wal (w_st w)) |>))
      as (archived & c' & Eh & Hc'); [exact Hc|exact Hr|exact Hput|exact Hoff|].
    rewrite Eh in Hact. cbn [mbind option_bind] in Hact. injection Hact as <-.
    split; [|split; [exact Hq|exact Ht]]. cbn -[omap]. rewrite omap_app. cbn. by destruct archived.
  - destruct (si_wal (w_st w) !! i); [|done]. injection Hact as <-. exact Hw.
  - destruct (si_sealing (w_st w) !! i) as [e|] eqn:E; [|done]. cbn [mbind option_bind] in Hact.
    apply with_st_inv in Hact as (s' & Hs & ->). by eapply winv_submit.
  - injection Hact as <-. exact Hw.
  - apply with_st_inv in Hact as (s' & Hs & ->). by eapply winv_seal.
  - destruct (si_spawned (w_st w) !! i) as [p|] eqn:E; [|done]. cbn [mbind option_bind] in Hact.
    apply with_st_inv in Hact as (s' & Hs & ->). eapply winv_run; [|exact Hs]. exact Hw.
  - apply with_st_inv in Hact as (s' & Hs & ->). by eapply winv_prepare.
  - apply with_st_inv in Hact as (s' & Hs & ->). by eapply winv_upload.
  - destruct (commit_worker answer (w_st w)) as [s'|] eqn:E; [|done]. injection Hact as <-. by eapply winv_commit.
  - apply with_st_inv in Hact as (s' & Hs & ->). by eapply winv_trim.
  - destruct (lc_get sid start_offset end_offset max_bytes _) as [[rs c']|] eqn:E; [|done].
    injection Hact as <-. destruct Hw as (Hc & Hq & Ht). split; [|split; [exact Hq|exact Ht]].
    by eapply cached_read.
  - injection Hact as <-. eapply winv_todo; [exact Hw|done|]. cbn. intros x. by rewrite app_nil_r.
Qed.

Lemma world_new_inv safe c w : config_ok c → world_new c = Some w → world_inv safe w.
Proof.
  intros (Hsize & Hthr & Hn). unfold world_new, storage_new, clamped_threshold.
  case_guard; [|done]. cbn [mbind option_bind]. intros [= <-].
  unfold world_inv, winv. cbn -[lc_new Z.max]. split; [apply cached_new; [|done]|split; split; try done].
  - unfold delta_wal_cache_size. set (n := if cf_snapshot_read_enable c then _ else _).
    assert (Hn' : 0 <= n < 2 ^ 62) by (unfold n; destruct (cf_snapshot_read_enable c); [Z.div_mod_to_equations|]; lia).
    clearbody n. Z.div_mod_to_equations. lia.
  - by intros ? ?%not_elem_of_nil.
  - constructor.
  - by intros ? ?%not_elem_of_nil.
  - by exists [].
  - by intros ? ?%not_elem_of_nil.
  - by intros ? ?%not_elem_of_nil.
Qed.

Lemma storage_reach_inv safe c w : reach safe c w → world_inv safe w.
Proof.
  intros (Hc & w0 & Hw0 & Hr). pose proof (world_new_inv safe c w0 Hc Hw0) as Hi. clear Hw0.
  induction Hr as [|w0 w1 w2 Hs _ IH]; [done|]. by eapply IH, step_inv.
Qed.

(** ** The theorems *)
Lemma holds_elem b ch x : holds b ch → x ∈ ch → x.1 ∈ block_log (stream_id x.1) b.
Proof.
  intros Hh Hx. rewrite (Hh (stream_id x.1)). apply list_elem_of_filter. split; [done|].
  by apply list_elem_of_fmap_2.
Qed.

Lemma block_elem_cached c b r :
  b ∈ lc_blocks c → r ∈ block_log (stream_id r) b → r ∈ cached_log c (stream_id r).
Proof.
  intros Hb Hr. unfold cached_log, blocks_log. apply list_elem_of_join. exists (block_log (stream_id r) b).
  split; [done|]. by apply list_elem_of_fmap_2.
Qed.

(** The record is part of the block of a committed task. *)
Definition is_committed (w : World) (r : StreamRecordBatch) : Prop :=
  ∃ k t, k ∈ w_committed w ∧ si_tasks (w_st w) !! k = Some t ∧ r ∈ block_log (stream_id r) (tc_cache t).

(** C14: No confirmed record drops out of reach. In every state of every run,
    with any interleaving of appends, seals, submits, uploads, commits,
    trims and failures, each record the WAL confirmed is in the log cache,
    where reads find it, or in the block of a task whose commit succeeded. *)
Theorem confirmed_records_stay_readable c w r o :
  reach false c w → (r, o) ∈ w_confirmed w →
  r ∈ cached_log (si_log_cache (w_st w)) (stream_id r) ∨ is_committed w r.
Proof.
  intros ((sl & P & a & chunks & cur & H) & _ & _)%storage_reach_inv Hin.
  destruct H as [Hok Hv Ha Hperm _ Hconf Hholds Hcur _ _ Hids _ Hlive _].
  assert (Hpend : ∀ b, b ∈ P ++ [a] → b ∈ lc_blocks (si_log_cache (w_st w))).
  { intros b Hb. rewrite <-(proj1 Hv) in Hb. by apply list_elem_of_filter in Hb as [_ ?]. }
  rewrite Hconf in Hin. apply elem_of_app in Hin as [Hin|Hin].
  - apply list_elem_of_join in Hin as (ch & Hx & Hch). apply list_elem_of_lookup in Hch as [i Hi].
    destruct (Forall2_lookup_r _ _ _ _ _ Hholds Hi) as (b & Hb & Hh).
    pose proof (holds_elem _ _ _ Hh Hx) as Hr. cbn in Hr.
    destruct (decide (lb_id b ∈ committed_ids (tc_cache <$> si_tasks (w_st w)) (w_committed w))) as [Hc|Hc].
    + right. apply list_elem_of_omap in Hc as (k & Hk & Hid).
      rewrite list_lookup_fmap in Hid. destruct (si_tasks (w_st w) !! k) as [t|] eqn:Et; [|done].
      cbn in Hid. injection Hid as Hid. exists k, t. split_and!; [done|done|].
      assert (tc_cache t = b) as ->; [|done].
      assert (Hin : tc_cache t ∈ sl).
      { rewrite Hperm. apply elem_of_app. left. apply list_elem_of_fmap_2. by eapply list_elem_of_lookup_2. }
      apply list_elem_of_lookup in Hin as [j Hj].
      assert (i = j) as <-; [|congruence].
      eapply (NoDup_lookup (lb_id <$> sl)); [done|..]; rewrite list_lookup_fmap; [by rewrite Hb|by rewrite Hj, <-Hid].
    + left. destruct (Hlive b) as (b' & Hb' & Hs); [by eapply list_elem_of_lookup_2|done|].
      eapply (block_elem_cached _ b'); [apply Hpend; set_solver|]. by rewrite (same_block_log _ _ _ Hs).
  - left. eapply (block_elem_cached _ a); [apply Hpend; set_solver|]. apply (holds_elem _ _ _ Hcur Hin).
Qed.

Lemma ascending_prefix A B x y :
  ascending (A ++ B) → last A = Some y → x ∈ A ++ B → rof_offset x.2 <= rof_offset y.2 → x ∈ A.
Proof.
  unfold ascending. intros Hs Hl [Hx|Hx]%elem_of_app Hle; [done|]. exfalso.
  rewrite !fmap_app in Hs.
  assert (rof_offset y.2 < rof_offset x.2); [|lia].
  eapply StronglySorted_app_1_elem_of; [exact Hs|..]; do 2 apply list_elem_of_fmap_2; [|done].
  by apply last_Some_elem_of.
Qed.

Lemma seq_prefix a b n k j : a ++ b = seq 0 n → k ∈ a → (j <= k)%nat → j ∈ a.
Proof.
  intros Hab Hk Hj. apply list_elem_of_lookup in Hk as [i Hi].
  assert (i = k) as ->.
  { pose proof (lookup_app_l_Some _ b _ _ Hi) as H. rewrite Hab in H. apply lookup_seq in H as [-> _]. lia. }
  apply list_elem_of_lookup. exists j. pose proof (lookup_lt_Some _ _ _ Hi).
  rewrite <-(lookup_app_l _ b) by lia. rewrite Hab. apply lookup_seq.
  apply (f_equal length) in Hab. rewrite length_app, length_seq in Hab. lia.
Qed.

(** C4: The WAL is never trimmed past data that is not in the object store.
    In a run where prepare calls succeed and sealed blocks are submitted in
    order, whatever uploads and commits fail and in whatever order uploads,
    trims and timers finish, every confirmed record at or below an offset the
    WAL was trimmed to belongs to a task whose commit succeeded. *)
Theorem trimmed_records_are_committed c w r ro o :
  reach true c w → o ∈ si_trimmed (w_st w) → (r, ro) ∈ w_confirmed w → rof_offset ro <= rof_offset o →
  is_committed w r.
Proof.
  intros ((sl & P & a & chunks & cur & H) & Hq & [_ Ht])%storage_reach_inv Ho Hr Hle.
  destruct H as [_ _ _ _ Hord Hconf Hholds _ Hlast _ _ _ _ Hasc]. specialize (Hord eq_refl).
  destruct (Ht o Ho) as (k & Hk & Hko). destruct (_ !! k) as [b|] eqn:Eb; [|done]. cbn in Hko.
  assert (Hsl : sl !! k = Some b) by (rewrite Hord; by apply lookup_app_l_Some).
  rewrite (Hlast k b Hsl) in Hko. destruct (last (mjoin (take (S k) chunks))) as [y|] eqn:El; [|done].
  injection Hko as Hy. rewrite <-(take_drop (S k) chunks), join_app, <-app_assoc in Hconf. rewrite Hconf in *.
  assert (Hin : (r, ro) ∈ mjoin (take (S k) chunks)) by (eapply ascending_prefix; [done..|cbn; by rewrite Hy]).
  apply list_elem_of_join in Hin as (ch & Hx & Hch). apply list_elem_of_lookup in Hch as [j Hj].
  apply lookup_take_Some in Hj as [Hj Hjk]. destruct (Forall2_lookup_r _ _ _ _ _ Hholds Hj) as (bj & Hbj & Hh).
  destruct (qi_safe _ _ _ _ _ _ Hq eq_refl) as (mid & Hm & _).
  pose proof (seq_prefix _ _ _ _ j Hm Hk ltac:(lia)) as Hjc.
  pose proof (qi_known _ _ _ _ _ _ Hq j Hjc) as Hlen. rewrite length_fmap in Hlen.
  destruct (lookup_lt_is_Some_2 (si_tasks (w_st w)) j Hlen) as [t Htj].
  exists j, t. split_and!; [done|done|].
  rewrite Hord, lookup_app_l, list_lookup_fmap, Htj in Hbj by (by rewrite length_fmap). injection Hbj as <-.
  apply (holds_elem _ _ _ Hh Hx).
Qed.

(** ** Append order *)
Definition bview (s : StorageInner) : list WalWriteRequest * list (nat * result unit EngineError) :=
  (si_backoff s, si_acks s).

(** Every accepted or waiting append, in call order; a missing one got an
    error. *)
Definition ordered (s : StorageInner) (calls submitted : list WalWriteRequest) : Prop :=
  submitted ++ si_backoff s `sublist_of` calls ∧
  ∀ q, q ∈ calls → q ∈ submitted ∨ q ∈ si_backoff s ∨ ∃ e, (wr_ack q, Err e) ∈ si_acks s.

Lemma ordered_frame s s' calls submitted :
  bview s' = bview s → ordered s calls submitted → ordered s' calls submitted.
Proof. unfold ordered, bview. by intros [= -> ->]. Qed.

Lemma force_bview ks s : bview (foldr (update_task (λ t, t <| tc_force := true |>)) s ks) = bview s.
Proof. induction ks as [|k ks IH]; [done|]. exact IH. Qed.

Lemma maybe_force_fields s :
  bview (maybe_force_upload s) = bview s ∧ si_wal (maybe_force_upload s) = si_wal s.
Proof. unfold maybe_force_upload. by destruct (has_inflight_force s), (si_force_upload_scheduled s). Qed.

Lemma upload_delta_wal_bview sid force caller s s' :
  upload_delta_wal sid force caller s = Some s' → bview s' = bview s.
Proof. unfold upload_delta_wal. destruct (archive_current_block_if_contains _ _); [|done]. by intros [= <-]. Qed.

Lemma submit_sealed_bview e s s' : submit_sealed e s = Some s' → bview s' = bview s.
Proof.
  assert (Hn : ∀ s, bview (notify_lazy_upload s) = bview s)
    by (intros s0; unfold notify_lazy_upload; by destruct (si_lazy_upload_queue s0)).
  assert (Hr : ∀ caller cf s0, resume caller cf s0 = Some s' → bview s' = bview s0).
  { intros [[]| | |] cf s0; cbn; try (by intros [= <-]). apply upload_delta_wal_bview. }
  unfold submit_sealed. destruct (sl_block e) as [b|].
  - destruct (submit_block_upload b (sl_force e) s) as [k s1] eqn:E.
    assert (bview s1 = bview s) as <-.
    { unfold submit_block_upload in E. injection E as _ <-. destruct (sl_force e); [|done].
      exact (force_bview _ _). }
    intros H%Hr. rewrite H. destruct (sl_caller e); apply Hn.
  - intros H%Hr. rewrite H. by destruct (sl_caller e); rewrite ?Hn.
Qed.

Lemma run_spawned_bview p s s' : run_spawned p s = Some s' → bview s' = bview s.
Proof.
  destruct p; cbn; try (destruct (wait_all _); [|done]; by intros [= <-]).
  - apply upload_delta_wal_bview.
  - destruct (from_option _ _ _); [|done]. intros [= <-]. by destruct (si_need_force_upload s).
  - destruct (bool_decide _); [|by intros [= <-]]. destruct (_ =? 0); [by intros [= <-]|apply upload_delta_wal_bview].
  - destruct (si_delay_trim_queue s); by intros [= <-].
Qed.

Lemma place_ordered q o s rest calls submitted :
  si_backoff s = rest → submitted ++ q :: rest `sublist_of` calls →
  (∀ x, x ∈ calls → x ∈ submitted ∨ x ∈ q :: rest ∨ ∃ e, (wr_ack x, Err e) ∈ si_acks s) →
  ∃ sub, si_wal (place_request q o s) = si_wal s ++ sub ∧ si_backoff (place_request q o s) = rest ∧
    ordered (place_request q o s) calls (submitted ++ sub).
Proof.
  intros Hb Hsub Hall. destruct o as [[]|e]; cbn.
  - exists [q]. split_and!; [done..|]. split; cbn; rewrite Hb.
    + by rewrite <-app_assoc.
    + intros x Hx. destruct (Hall x Hx) as [?|[?|?]]; set_solver.
  - exists []. rewrite !app_nil_r. split_and!; [done..|]. split; cbn; rewrite Hb.
    + etransitivity; [|exact Hsub]. apply sublist_app; [done|]. by constructor.
    + intros x Hx. destruct (Hall x Hx) as [?|[[->|?]%elem_of_cons|[e' ?]]]; [by left| |by auto|].
      * right. right. eexists. apply elem_of_app. right. by apply list_elem_of_singleton.
      * right. right. exists e'. set_solver.
Qed.

Lemma drain_ordered os s s' calls submitted :
  try_drain_backoff_records os s = Some s' → ordered s calls submitted →
  ∃ sub, si_wal s' = si_wal s ++ sub ∧ ordered s' calls (submitted ++ sub).
Proof.
  assert (Hsame : ∀ s1 submitted, ordered s1 calls submitted → ∃ sub, si_wal s1 = si_wal s1 ++ sub ∧
    ordered s1 calls (submitted ++ sub)) by (intros s1 sb H; exists []; by rewrite !app_nil_r).
  revert s submitted. induction os as [|o os IH]; intros s submitted; cbn;
    destruct (si_backoff s) as [|q rest] eqn:Eb; try (intros [= <-]; apply Hsame);
    (destruct (negb _); [intros [= <-]; apply Hsame|]); [done|].
  destruct (is_over_capacity o).
  - intros [= <-] Ho. destruct (maybe_force_fields s) as [Hb Hw]. rewrite Hw. exists [].
    rewrite !app_nil_r. split; [done|]. by eapply ordered_frame.
  - intros Hd [Hsub Hall]. rewrite Eb in Hsub, Hall.
    destruct (place_ordered q o (s <| si_backoff := rest |>) rest calls submitted)
      as (sub & Hw & _ & Ho'); [done|exact Hsub|exact Hall|].
    destruct (IH _ _ Hd Ho') as (sub' & Hw' & Ho''). exists (sub ++ sub'). rewrite Hw', Hw, !app_assoc. done.
Qed.

Lemma ordered_grow s s' calls submitted :
  si_backoff s' = si_backoff s → si_acks s ⊆ si_acks s' → ordered s calls submitted → ordered s' calls submitted.
Proof.
  unfold ordered. intros -> Hacks [Hs Hall]. split; [done|]. intros q Hq.
  destruct (Hall q Hq) as [?|[?|[e ?]]]; [by left|by auto|]. right. right. exists e. by apply Hacks.
Qed.

Lemma newly_submitted_eq s s' sub : si_wal s' = si_wal s ++ sub → newly_submitted s s' = sub.
Proof. unfold newly_submitted. intros ->. apply drop_app_length. Qed.

Lemma append0_ordered q o s calls submitted :
  ordered s calls submitted →
  ∃ sub, si_wal (append0 q o s).2 = si_wal s ++ sub ∧
    ordered (append0 q o s).2 (calls ++ [q]) (submitted ++ sub).
Proof.
  intros [Hs Hall].
  assert (Hpush : ∀ s1, si_backoff s1 = si_backoff s → si_acks s1 = si_acks s →
      ordered (push_backoff q s1) (calls ++ [q]) (submitted ++ [])).
  { intros s1 Hb Ha. unfold ordered. cbn. rewrite Hb, Ha, app_nil_r, app_assoc. split.
    - by apply sublist_app.
    - intros x [Hx|Hx%list_elem_of_singleton]%elem_of_app; [|set_solver].
      destruct (Hall x Hx) as [?|[?|?]]; set_solver. }
  unfold append0. destruct (si_backoff s) as [|b bs] eqn:Eb.
  - destruct (negb _); [exists []; rewrite app_nil_r at 1; split; [done|by apply Hpush]|].
    destruct (is_over_capacity o).
    + destruct (maybe_force_fields s) as [Hb Hw]. unfold bview in Hb. injection Hb as Hb Ha.
      exists []. rewrite app_nil_r at 1. split; [done|]. apply Hpush; congruence.
    + rewrite app_nil_r in Hs. destruct (place_ordered q o s [] (calls ++ [q]) submitted) as (sub & Hw & _ & Ho).
      * done.
      * by apply sublist_app.
      * intros x [Hx|Hx%list_elem_of_singleton]%elem_of_app; [|set_solver].
        destruct (Hall x Hx) as [?|[?|?]]; set_solver.
      * by exists sub.
  - exists []. rewrite app_nil_r at 1. split; [done|by apply Hpush].
Qed.

Lemma act_ordered a w w' :
  act a w = Some w' → ordered (w_st w) (w_calls w) (w_submitted w) →
  ordered (w_st w') (w_calls w') (w_submitted w').
Proof.
  intros Hact Ho. destruct a; cbn [act] in Hact.
  - injection Hact as <-. cbn. destruct (append0_ordered q outcome _ _ _ Ho) as (sub & Hw & Ho').
    by rewrite (newly_submitted_eq _ _ _ Hw).
  - destruct (si_shutdown _); [done|]. destruct (try_drain_backoff_records _ _) as [s'|] eqn:E; [|done].
    injection Hact as <-. cbn. destruct (drain_ordered _ _ _ _ _ E Ho) as (sub & Hw & Ho').
    by rewrite (newly_submitted_eq _ _ _ Hw).
  - destruct (confirm_busy _); [done|]. destruct (si_wal (w_st w) !! i) as [q|]; [|done]. cbn [mbind option_bind] in Hact.
    destruct (handle_append_confirm _ _ _) as [s'|] eqn:E; [|done]. injection Hact as <-. cbn.
    assert (Hb : bview s' = bview (w_st w)).
    { unfold handle_append_confirm in E. destruct (lc_put _ _) as [[added c]|]; [|done]. cbn in E.
      destruct (if added then _ else _) as [[[? ?] ?]|]; [|done]. cbn in E. by injection E as <-. }
    injection Hb as Hb Ha. eapply ordered_grow; [exact Hb|cbn; rewrite Ha; set_solver|exact Ho].
  - destruct (si_wal (w_st w) !! i); [|done]. injection Hact as <-. cbn.
    eapply (ordered_grow (w_st w)); [done|cbn; set_solver|exact Ho].
  - destruct (si_sealing (w_st w) !! i); [|done]. apply with_st_inv in Hact as (s' & Hs & ->).
    eapply ordered_frame; [exact (submit_sealed_bview _ _ _ Hs)|exact Ho].
  - injection Hact as <-. exact Ho.
  - apply with_st_inv in Hact as (s' & Hs & ->). eapply ordered_frame; [exact (upload_delta_wal_bview _ _ _ _ _ Hs)|exact Ho].
  - destruct (si_spawned (w_st w) !! i); [|done]. apply with_st_inv in Hact as (s' & Hs & ->).
    eapply ordered_frame; [exact (run_spawned_bview _ _ _ Hs)|exact Ho].
  - apply with_st_inv in Hact as (s' & Hs & ->). unfold prepare_worker in Hs.
    destruct (si_prepare_queue _); [done|]. destruct answer; injection Hs as <-; exact Ho.
  - apply with_st_inv in Hact as (s' & Hs & ->). unfold upload_done in Hs.
    destruct (si_tasks (w_st w) !! k) as [t|]; [|done]. cbn in Hs. destruct (ut_prepared_object_id _); [|done].
    cbn in Hs. destruct (tc_upload_done t); [done|]. injection Hs as <-. exact Ho.
  - destruct (commit_worker answer (w_st w)) as [s'|] eqn:E; [|done]. injection Hact as <-. cbn.
    eapply ordered_frame; [|exact Ho]. unfold commit_worker in E.
    destruct (si_commit_queue _); [done|]. cbn [si_poisoned field_set] in E.
    destruct (si_poisoned _); [by injection E as <-|]. destruct (_ !! _) as [t|]; [|done]. cbn [mbind option_bind] in E.
    destruct (tc_upload_done t) as [up|]; [|done]. cbn [mbind option_bind] in E.
    destruct (match up with Ok _ => _ | Err _ => _ end); injection E as <-; [|done].
    unfold committed, delay_trim. destruct (lb_last_record_offset _); [|done]. by destruct (_ =? 0).
  - apply with_st_inv in Hact as (s' & Hs & ->). unfold trim_done in Hs.
    destruct (si_trimming (w_st w) !! i) as [[o k]|]; [|done]. cbn in Hs. injection Hs as <-. by destruct answer.
  - destruct (lc_get _ _ _ _ _); [|done]. injection Hact as <-. exact Ho.
  - injection Hact as <-. destruct Ho as [Hs Hall]. split; cbn.
    + rewrite app_nil_r. etransitivity; [|exact Hs]. by apply sublist_inserts_r.
    + intros q Hq. destruct (Hall q Hq) as [?|[Hb|[e ?]]]; [by left| |right; right; exists e; set_solver].
      right. right. eexists. apply elem_of_app. right. apply list_elem_of_fmap. by exists q.
Qed.

(** Submit order is persistence order. In every run, the records the WAL
    accepted followed by those still parked in the backoff queue are appends
    in the order of their calls, through full caches, WAL backpressure and
    the drain loop; and an append in neither has been answered with an
    error, so none is dropped silently. *)
Theorem append_order_is_kept c w0 l w :
  world_new c = Some w0 → run l w0 = Some w →
  w_submitted w ++ si_backoff (w_st w) `sublist_of` w_calls w ∧
  ∀ q, q ∈ w_calls w → q ∈ w_submitted w ∨ q ∈ si_backoff (w_st w) ∨
    ∃ e, (wr_ack q, Err e) ∈ si_acks (w_st w).
Proof.
  intros Hnew. assert (H0 : ordered (w_st w0) (w_calls w0) (w_submitted w0)).
  { unfold world_new, storage_new in Hnew. destruct (clamped_threshold c); [|done]. injection Hnew as <-.
    split; [done|]. by intros q ?%not_elem_of_nil. }
  clear Hnew. revert w0 H0. induction l as [|a l IH]; intros w0 H0; cbn.
  - by intros [= <-].
  - destruct (act a w0) as [w1|] eqn:E; [|done]. cbn. intros Hr. by eapply IH, Hr; eapply act_ordered.
Qed.














(** ** A run: one append is confirmed, uploaded, committed and trimmed, a
    second one is confirmed *)
Definition demo_run : list Action :=
  demo_append 7 0 0 100 ++ [AForceUpload 0 7; ASubmit 0] ++ demo_upload 0 ++ [ATrim 0 (Ok tt)] ++
  demo_append 8 5 1 200.

Definition demo_world (n : nat) : option World :=
  w ← world_new demo_config; run (take n demo_run) w.

Definition demo_w0 : option World := Eval vm_compute in demo_world 0.
Definition demo_w : option World := Eval vm_compute in demo_world 13.

Fixpoint allowed_run (safe : bool) (l : list Action) (w : World) : Prop :=
  match l with
  | [] => True
  | a :: l => allowed safe a w ∧ from_option (allowed_run safe l) False (act a w)
  end.

Lemma run_steps safe l w w' : allowed_run safe l w → run l w = Some w' → rtc (step safe) w w'.
Proof.
  revert w. induction l as [|a l IH]; intros w; cbn; [by intros _ [= <-]|].
  intros [Ha Hl]. destruct (act a w) as [w1|] eqn:E; [|done]. cbn. intros Hr.
  eapply rtc_l; [by exists a|]. by apply IH.
Qed.

Lemma demo_record_ok7 : record_ok (demo_rec 7 0 10).
Proof.
  split; [|split; vm_compute; reflexivity]. eexists _, _, _, _, _. split; [|reflexivity].
  unfold parts_ok. cbn. int_lia.
Qed.

Lemma demo_record_ok8 : record_ok (demo_rec 8 5 10).
Proof.
  split; [|split; vm_compute; reflexivity]. eexists _, _, _, _, _. split; [|reflexivity].
  unfold parts_ok. cbn. int_lia.
Qed.

(** One action of an [allowed_run]; its guard stays when it is not
    immediate. *)
Ltac astep :=
  split; [try exact I; try (intros _; vm_compute; reflexivity)|
    match goal with
    | |- from_option _ _ ?x =>
        let y := eval vm_compute in x in replace x with y by (vm_compute; reflexivity)
    end; cbn [from_option]].

Lemma demo_storage_reach safe : from_option (reach safe demo_config) False demo_w.
Proof.
  cbn [from_option demo_w]. split; [split; [cbn; lia|split; [cbn; lia|cbn; lia]]|].
  eexists. split; [vm_compute; reflexivity|]. apply (run_steps safe demo_run); [|vm_compute; reflexivity].
  unfold demo_run, demo_append, demo_upload. cbn [app].
  astep. astep.
  { intros q [= <-]. split; [exact demo_record_ok7|]. split.
    - apply put_ok_empty; vm_compute; reflexivity.
    - by intros x ?%not_elem_of_nil. }
  do 9 astep.
  { intros q [= <-]. split; [exact demo_record_ok8|]. split.
    - apply put_ok_empty; vm_compute; reflexivity.
    - intros x ->%list_elem_of_singleton. vm_compute. reflexivity. }
  astep. exact I.
Qed.

Lemma confirmed_records_stay_readable_witness :
  from_option (λ w,
    demo_rec 8 5 10 ∈ cached_log (si_log_cache (w_st w)) (stream_id (demo_rec 8 5 10)) ∨
    is_committed w (demo_rec 8 5 10)) False demo_w.
Proof.
  pose proof (demo_storage_reach false) as H. cbn [from_option demo_w] in *.
  apply (confirmed_records_stay_readable demo_config _ (demo_rec 8 5 10) (demo_offset 200) H).
  vm_compute. apply list_elem_of_further, list_elem_of_here.
Defined.

Lemma trimmed_records_are_committed_witness :
  from_option (λ w, is_committed w (demo_rec 7 0 10)) False demo_w.
Proof.
  pose proof (demo_storage_reach true) as H. cbn [from_option demo_w] in *.
  apply (trimmed_records_are_committed demo_config _ (demo_rec 7 0 10) (demo_offset 100) (demo_offset 100) H).
  - vm_compute. apply list_elem_of_here.
  - vm_compute. apply list_elem_of_here.
  - done.
Defined.

(** The WAL is full, then has room again: both appends wait and pass in
    order. *)
Definition demo_backoff_run : list Action :=
  [AAppend (demo_request 7 0 0) (Err (OverCapacity 10 10)); AAppend (demo_request 7 2 1) (Ok tt);
   ADrain [Ok tt; Err Shutdown]].

Lemma append_order_is_kept_witness :
  from_option (λ w, from_option (λ w',
    w_submitted w' ++ si_backoff (w_st w') `sublist_of` [demo_request 7 0 0; demo_request 7 2 1] ∧
    ∀ q, q ∈ [demo_request 7 0 0; demo_request 7 2 1] → q ∈ w_submitted w' ∨ q ∈ si_backoff (w_st w') ∨
      ∃ e, (wr_ack q, Err e) ∈ si_acks (w_st w')) False (run demo_backoff_run w)) False
    (world_new demo_config).
Proof.
  assert (H : ∃ w w', world_new demo_config = Some w ∧ run demo_backoff_run w = Some w' ∧
    w_calls w' = [demo_request 7 0 0; demo_request 7 2 1]).
  { eexists _, _. split; [vm_compute; reflexivity|]. split; vm_compute; reflexivity. }
  destruct H as (w & w' & Hw & Hr & Hc). rewrite Hw. cbn [from_option]. rewrite Hr. cbn [from_option].
  rewrite <-Hc. exact (append_order_is_kept demo_config w demo_backoff_run w' Hw Hr).
Defined.




