(* ===== verification/StreamFacade.v ===== *)
(** * The per-stream facade

    [s3stream-core/src/stream.rs]: offset reservation, the confirm offset,
    the state guards and the close, trim and destroy protocols of one open
    stream. The storage and the stream manager are the parameters of an
    action: it carries what they answer. An append runs in four parts (count
    and check, reserve and submit, the storage's answer, the bookkeeping), a
    close, trim or destroy in the parts between its [await] points; [act]
    runs one part, so a run is any interleaving. The two notifications of
    [InflightTracker] are the guard [= 0] of the part that waits. *)

From Stdlib Require Import ZArith Lia.
From Stdlib Require Import Strings.Byte.
From stdpp Require Import base numbers list gmap sorting strings.
From S2P Require Import Prelude StreamTypes RecordCodec.
From S2P Require Import WalFormat WalWriter LogCache MetaState Upload Recovery Storage.

Open Scope Z_scope.
Open Scope rust_scope.

#[local] Arguments base_offset : simpl never.
#[local] Arguments last_offset : simpl never.
#[local] Arguments count : simpl never.

Definition CLOSED_MARK : Z := 1.
Definition FENCED_MARK : Z := Z.shiftl 1 1.
Definition DESTROY_MARK : Z := Z.shiftl 1 2.
Definition SNAPSHOT_FAKE_OFFSET : Z := u64_max.

(** ** State *)
Record S3Stream := {
  ss_stream_id : Z;
  ss_epoch : Z;
  ss_start_offset : Z;
  ss_next_offset : Z;
  ss_confirm_offset : Z;
  ss_status : Z;
  ss_pending_appends : Z;
  ss_pending_fetches : Z;
  ss_close_result : option (result unit string);
  ss_snapshot_read : bool;
  ss_listener : bool;
}.
#[export] Instance S3Stream_eta : RecordEta S3Stream := λ s,
  Build_S3Stream (ss_stream_id s) (ss_epoch s) (ss_start_offset s) (ss_next_offset s)
    (ss_confirm_offset s) (ss_status s) (ss_pending_appends s) (ss_pending_fetches s)
    (ss_close_result s) (ss_snapshot_read s) (ss_listener s).

Inductive FacadeError :=
| FClosed (stream_id : Z)
| FOffsetOutOfRange (stream_id start en valid_start valid_end : Z)
| FStorage (e : EngineError)
| FUnexpected (reason : string).

Definition stream_new (stream_id epoch start_offset next_offset : Z) (snapshot_read : bool) : S3Stream := {|
  ss_stream_id := stream_id; ss_epoch := epoch; ss_start_offset := start_offset;
  ss_next_offset := next_offset; ss_confirm_offset := next_offset; ss_status := 0;
  ss_pending_appends := 0; ss_pending_fetches := 0; ss_close_result := None;
  ss_snapshot_read := snapshot_read; ss_listener := false |}.

Definition attach_metadata_listener (s : S3Stream) : S3Stream :=
  if negb (ss_snapshot_read s) then s else s <| ss_listener := true |>.

(** ** Status and offsets *)
Definition is_closed (s : S3Stream) : bool := negb (Z.land (ss_status s) CLOSED_MARK =? 0).
Definition is_operable (s : S3Stream) : bool := ss_status s =? 0.
Definition mark (mask : Z) (s : S3Stream) : S3Stream := s <| ss_status := Z.lor (ss_status s) mask |>.

Definition update_confirm_offset (new_offset : Z) (s : S3Stream) : S3Stream :=
  s <| ss_confirm_offset := Z.max (ss_confirm_offset s) new_offset |>.

Definition update_snapshot_read_confirm_offset (new_offset : Z) (s : S3Stream) : S3Stream :=
  let s := if wrap_i64 (ss_confirm_offset s) <? wrap_i64 new_offset
           then s <| ss_confirm_offset := new_offset |> else s in
  s <| ss_next_offset := ss_confirm_offset s |>.

Definition confirm_offset_set (offset : Z) (s : S3Stream) : S3Stream * result unit FacadeError :=
  if negb (ss_snapshot_read s) then
    (s, Err (FUnexpected "Only snapshot-read mode support set confirmOffset"))
  else (update_snapshot_read_confirm_offset offset s, Ok tt).

(** [StreamMetadataListener] *)
Definition on_new_stream_metadata (md : StreamMetadata) (s : S3Stream) : S3Stream :=
  update_snapshot_read_confirm_offset (sm_end_offset md) s <| ss_start_offset := sm_start_offset md |>.

(** ** Appends *)
Definition begin_append (s : S3Stream) : S3Stream :=
  s <| ss_pending_appends := wrap_u64 (ss_pending_appends s + 1) |>.
Definition drop_append (s : S3Stream) : S3Stream :=
  s <| ss_pending_appends := wrap_u64 (ss_pending_appends s - 1) |>.
Definition begin_fetch (s : S3Stream) : S3Stream :=
  s <| ss_pending_fetches := wrap_u64 (ss_pending_fetches s + 1) |>.
Definition drop_fetch (s : S3Stream) : S3Stream :=
  s <| ss_pending_fetches := wrap_u64 (ss_pending_fetches s - 1) |>.

(** The part of [admit_append] under the append lock: the reserved offset
    and the record given to [storage.submit]. *)
Definition admit_append (batch_count : Z) (body : list byte) (s : S3Stream) :
    S3Stream * Z * StreamRecordBatch :=
  let offset := ss_next_offset s in
  (s <| ss_next_offset := wrap_u64 (offset + batch_count) |>, offset,
   new_batch (ss_stream_id s) (ss_epoch s) offset (wrap_i32 batch_count) body).

Definition complete_append (offset batch_count : Z) (r : result unit EngineError) (s : S3Stream) :
    S3Stream * result Z FacadeError :=
  match r with
  | Ok _ => (update_confirm_offset (wrap_u64 (offset + batch_count)) s, Ok offset)
  | Err e => (mark FENCED_MARK s, Err (FStorage e))
  end.

(** ** Fetches *)
Record RecordBatchWithContext := {
  bc_stream_id : Z;
  bc_base_offset : Z;
  bc_last_offset : Z;
  bc_count : Z;
  bc_payload : list byte;
}.

Record FetchResult := { fr_records : list RecordBatchWithContext; fr_cache_access : CacheAccessType }.

Definition to_context (sid : Z) (r : StreamRecordBatch) : RecordBatchWithContext := {|
  bc_stream_id := sid; bc_base_offset := base_offset r; bc_last_offset := last_offset r;
  bc_count := wrap_u32 (count r); bc_payload := payload r |}.

(** [storage_read] is [storage.read]. *)
Definition fetch0 (storage_read : FetchContext → Z → Z → Z → Z → result ReadDataBlock EngineError)
    (context : FetchContext) (start_offset end_offset max_bytes_hint : Z) (s : S3Stream) :
    result FetchResult FacadeError :=
  if negb (is_operable s) then Err (FClosed (ss_stream_id s))
  else if (wrap_i64 start_offset <? wrap_i64 (ss_start_offset s)) ||
          (wrap_i64 (ss_confirm_offset s) <? wrap_i64 end_offset) then
    Err (FOffsetOutOfRange (ss_stream_id s) start_offset end_offset (ss_start_offset s) (ss_confirm_offset s))
  else if end_offset <? start_offset then
    Err (FUnexpected "fetch startOffset is greater than endOffset")
  else if start_offset =? end_offset then Ok {| fr_records := []; fr_cache_access := DeltaWalCacheHit |}
  else
    match storage_read context (ss_stream_id s) start_offset end_offset max_bytes_hint with
    | Err e => Err (FStorage e)
    | Ok block => Ok {| fr_records := to_context (ss_stream_id s) <$> rb_data block;
                        fr_cache_access := rb_cache_access block |}
    end.

Definition fetch (storage_read : FetchContext → Z → Z → Z → Z → result ReadDataBlock EngineError)
    (context : FetchContext) (start_offset end_offset max_bytes_hint : Z) (s : S3Stream) :
    result FetchResult FacadeError :=
  let context := if ss_snapshot_read s
                 then {| fc_fast_read := fc_fast_read context; fc_snapshot_read := true |} else context in
  fetch0 storage_read context start_offset end_offset max_bytes_hint s.

(** ** Runs *)
Inductive Phase :=
| PChecked
| PAdmitted (offset : Z)
| PResolved (offset : Z) (r : result unit EngineError)
| PDone (outcome : result Z FacadeError).

Record AppendCall := { ap_count : Z; ap_payload : list byte; ap_phase : Phase }.
#[export] Instance AppendCall_eta : RecordEta AppendCall := λ a,
  Build_AppendCall (ap_count a) (ap_payload a) (ap_phase a).

(** Where a close, destroy or trim is suspended; [destroying] tells whether
    [destroy] called [close]. *)
Inductive Job :=
| JWaitAppends (destroying : bool)
| JWaitFetches (destroying : bool)
| JTakeLock (destroying : bool)
| JForceUpload (destroying : bool)
| JCloseMeta (destroying : bool)
| JDelete
| JTrimLock (new_start_offset : Z)
| JTrimWait (new_start_offset : Z)
| JTrimMeta (new_start_offset : Z).

(** The stream and the calls in flight; [fw_submitted] are the appends and
    their records in the order [storage.submit] saw them, [fw_durable] tells
    how many of them the WAL has confirmed, [fw_meta_closed] whether
    [close_stream] was called; the answers of the finished jobs come last. *)
Record FWorld := {
  fw_stream : S3Stream;
  fw_appends : list AppendCall;
  fw_submitted : list (nat * StreamRecordBatch);
  fw_durable : nat;
  fw_jobs : list Job;
  fw_close_locked : bool;
  fw_trim_locked : bool;
  fw_meta_closed : bool;
  fw_answers : list (result unit string);
}.
#[export] Instance FWorld_eta : RecordEta FWorld := λ w,
  Build_FWorld (fw_stream w) (fw_appends w) (fw_submitted w) (fw_durable w) (fw_jobs w) (fw_close_locked w)
    (fw_trim_locked w) (fw_meta_closed w) (fw_answers w).

Definition fworld_new (s : S3Stream) : FWorld := {|
  fw_stream := s; fw_appends := []; fw_submitted := []; fw_durable := 0; fw_jobs := []; fw_close_locked := false;
  fw_trim_locked := false; fw_meta_closed := false; fw_answers := [] |}.

Inductive FAction :=
| FAppend (batch_count : Z) (body : list byte)
| FAdmit (i : nat)
| FDurable
| FResolve (i : nat) (r : result unit EngineError)
| FComplete (i : nat)
| FFetchBegin
| FFetchEnd
| FClose (force : bool)
| FDestroy
| FTrim (new_start_offset : Z)
| FRun (i : nat) (answer : result unit string)
| FTimeout (i : nat)
| FMetadata (md : StreamMetadata)
| FConfirmSet (offset : Z).

Definition set_phase (p : Phase) (i : nat) (w : FWorld) : FWorld :=
  w <| fw_appends := alter (λ a, a <| ap_phase := p |>) i (fw_appends w) |>.

(** [append] and [submit_append] up to the append lock. *)
Definition start_append (batch_count : Z) (body : list byte) (w : FWorld) : FWorld :=
  let s := begin_append (fw_stream w) in
  if is_operable s then
    w <| fw_stream := s |>
      <| fw_appends := fw_appends w ++
           [{| ap_count := batch_count; ap_payload := body; ap_phase := PChecked |}] |>
  else
    w <| fw_stream := drop_append s |>
      <| fw_appends := fw_appends w ++
           [{| ap_count := batch_count; ap_payload := body;
               ap_phase := PDone (Err (FClosed (ss_stream_id s))) |}] |>.

Definition spawn_job (j : Job) (w : FWorld) : FWorld := w <| fw_jobs := fw_jobs w ++ [j] |>.
Definition answer_job (r : result unit string) (w : FWorld) : FWorld :=
  w <| fw_answers := fw_answers w ++ [r] |>.

(** [close_with] returned [r] to its caller: [destroy] goes on when it is
    [Ok]. *)
Definition close_returned (destroying : bool) (r : result unit string) (w : FWorld) : FWorld :=
  match destroying, r with
  | true, Ok _ =>
      let s := mark DESTROY_MARK (fw_stream w) in
      spawn_job JDelete (w <| fw_stream := s <| ss_start_offset := ss_confirm_offset s |> |>)
  | _, _ => answer_job r w
  end.

(** [close_with] up to its first wait. *)
Definition close_with (force destroying : bool) (w : FWorld) : FWorld :=
  if ss_snapshot_read (fw_stream w) then
    close_returned destroying (Ok tt) (w <| fw_stream := fw_stream w <| ss_listener := false |> |>)
  else
    spawn_job (if force then JTakeLock destroying else JWaitAppends destroying)
      (w <| fw_stream := mark CLOSED_MARK (fw_stream w) |>).

(** The close ends: the result is kept for later calls and the lock is
    released. *)
Definition finish_close (destroying : bool) (r : result unit string) (w : FWorld) : FWorld :=
  close_returned destroying r
    (w <| fw_stream := fw_stream w <| ss_close_result := Some r |> |> <| fw_close_locked := false |>).

(** [trim] once it holds the lock. *)
Definition trim_locked (new_start_offset : Z) (w : FWorld) : FWorld :=
  if new_start_offset <? ss_start_offset (fw_stream w) then answer_job (Ok tt) w
  else
    spawn_job (JTrimWait new_start_offset)
      (w <| fw_stream := fw_stream w <| ss_start_offset := new_start_offset |> |>
         <| fw_trim_locked := true |>).

(** A suspended job goes on; [answer] is what [force_upload], [close_stream],
    [delete_stream] or [trim_stream] returned. [None] while it waits. *)
Definition run_job (j : Job) (answer : result unit string) (w : FWorld) : option FWorld :=
  match j with
  | JWaitAppends d =>
      if ss_pending_appends (fw_stream w) =? 0 then Some (spawn_job (JWaitFetches d) w) else None
  | JWaitFetches d =>
      if ss_pending_fetches (fw_stream w) =? 0 then Some (spawn_job (JTakeLock d) w) else None
  | JTakeLock d =>
      if fw_close_locked w then None
      else
        match ss_close_result (fw_stream w) with
        | Some (Ok _) => Some (close_returned d (Ok tt) w)
        | Some (Err reason) => Some (close_returned d (Err (unexpected_text reason)) w)
        | None => Some (spawn_job (JForceUpload d) (w <| fw_close_locked := true |>))
        end
  | JForceUpload d =>
      match answer with
      | Ok _ => Some (spawn_job (JCloseMeta d) w)
      | Err reason => Some (finish_close d (Err reason) w)
      end
  | JCloseMeta d => Some (finish_close d answer (w <| fw_meta_closed := true |>))
  | JDelete => Some (answer_job answer w)
  | JTrimLock n => if fw_trim_locked w then None else Some (trim_locked n w)
  | JTrimWait n =>
      if ss_pending_fetches (fw_stream w) =? 0 then Some (spawn_job (JTrimMeta n) w) else None
  | JTrimMeta n => Some (answer_job answer (w <| fw_trim_locked := false |>))
  end.

Definition act (a : FAction) (w : FWorld) : option FWorld :=
  let s := fw_stream w in
  match a with
  | FAppend n body =>
      if ss_snapshot_read s then
        Some (w <| fw_appends := fw_appends w ++ [{| ap_count := n; ap_payload := body;
          ap_phase := PDone (Err (FUnexpected "Append operation is not support for readonly stream")) |}] |>)
      else Some (start_append n body w)
  | FAdmit i =>
      c ← fw_appends w !! i;
      match ap_phase c with
      | PChecked =>
          let '(s', offset, record) := admit_append (ap_count c) (ap_payload c) s in
          Some (set_phase (PAdmitted offset) i (w <| fw_stream := s' |>)
                  <| fw_submitted := fw_submitted w ++ [(i, record)] |>)
      | _ => None
      end
  | FDurable =>
      if (fw_durable w <? length (fw_submitted w))%nat then Some (w <| fw_durable := S (fw_durable w) |>) else None
  | FResolve i r =>
      c ← fw_appends w !! i;
      match ap_phase c with
      | PAdmitted offset => Some (set_phase (PResolved offset r) i w)
      | _ => None
      end
  | FComplete i =>
      c ← fw_appends w !! i;
      match ap_phase c with
      | PResolved offset r =>
          let '(s', outcome) := complete_append offset (ap_count c) r s in
          Some (set_phase (PDone outcome) i (w <| fw_stream := drop_append s' |>))
      | _ => None
      end
  | FFetchBegin => Some (w <| fw_stream := begin_fetch s |>)
  | FFetchEnd => if ss_pending_fetches s =? 0 then None else Some (w <| fw_stream := drop_fetch s |>)
  | FClose force => Some (close_with force false w)
  | FDestroy =>
      if ss_snapshot_read s then
        Some (answer_job (Err "Destroy operation is not support for readonly stream"%string) w)
      else Some (close_with false true w)
  | FTrim n =>
      if ss_snapshot_read s then
        Some (answer_job (Err "Trim operation is not support for readonly stream"%string) w)
      else Some (spawn_job (JTrimLock n) w)
  | FRun i answer => j ← fw_jobs w !! i; run_job j answer (w <| fw_jobs := delete i (fw_jobs w) |>)
  | FTimeout i =>
      j ← fw_jobs w !! i;
      match j with
      | JWaitFetches d => Some (spawn_job (JTakeLock d) (w <| fw_jobs := delete i (fw_jobs w) |>))
      | _ => None
      end
  | FMetadata md => if ss_listener s then Some (w <| fw_stream := on_new_stream_metadata md s |>) else None
  | FConfirmSet offset => Some (w <| fw_stream := (confirm_offset_set offset s).1 |>)
  end.

Fixpoint run (l : list FAction) (w : FWorld) : option FWorld :=
  match l with
  | [] => Some w
  | a :: l => w ← act a w; run l w
  end.

(** ** Offsets *)

(** What the surroundings owe the stream: batches have between 1 and
    [2^31 - 1] records and a payload below 2 GiB, offsets stay below [2^63].
    In a [nofail] run, moreover, no append fails and the storage reports
    an append only when the WAL has confirmed it, which it does in submit
    order. *)
Definition allowed (nofail : bool) (a : FAction) (w : FWorld) : Prop :=
  match a with
  | FAdmit i => ∀ c, fw_appends w !! i = Some c →
      0 < ap_count c < two31 ∧ ss_next_offset (fw_stream w) + ap_count c < two63 ∧
      Z.of_nat (length (ap_payload c)) < two31
  | FResolve i r => nofail = true →
      r = Ok tt ∧ ∃ k rec, fw_submitted w !! k = Some (i, rec) ∧ (k < fw_durable w)%nat
  | _ => True
  end.

Definition step (nofail : bool) (w w' : FWorld) : Prop := ∃ a, allowed nofail a w ∧ act a w = Some w'.

(** The runs of a freshly opened stream. *)
Definition reach (nofail : bool) (sid ep start next : Z) (w : FWorld) : Prop :=
  is_u64 sid ∧ is_u64 ep ∧ 0 <= next < two63 ∧
  rtc (step nofail) (fworld_new (stream_new sid ep start next false)) w.

Lemma new_batch_fields sid ep o n body :
  is_u64 sid → is_u64 ep → 0 <= o → 0 < n < two31 → o + n < two63 → Z.of_nat (length body) < two31 →
  record_ok (new_batch sid ep o n body) ∧ base_offset (new_batch sid ep o n body) = o ∧
  last_offset (new_batch sid ep o n body) = o + n.
Proof.
  intros Hs He Ho Hn Hon Hb. assert (Hok : parts_ok sid ep o n body) by (unfold parts_ok; int_lia).
  pose proof (field_base_offset sid ep o n body [] Hok) as E1.
  pose proof (field_count sid ep o n body [] Hok) as E2. rewrite app_nil_r in E1, E2.
  assert (Hbase : base_offset (new_batch sid ep o n body) = o) by exact E1.
  assert (Hcount : count (new_batch sid ep o n body) = n) by exact E2.
  assert (Hlast : last_offset (new_batch sid ep o n body) = o + n).
  { unfold last_offset. rewrite Hcount, Hbase. destruct (Z.ltb_spec 0 n); [|lia].
    rewrite (wrap_i64_id o), wrap_i64_id, wrap_u64_id by int_lia. done. }
  split; [|done]. split; [by exists sid, ep, o, n, body|]. rewrite Hcount, Hbase. split; [lia|done].
Qed.

(** The append a submitted record belongs to is past its admission. *)
Definition admitted_as (c : AppendCall) (r : StreamRecordBatch) : Prop :=
  last_offset r = base_offset r + ap_count c ∧
  match ap_phase c with
  | PChecked => False
  | PAdmitted o | PResolved o _ => o = base_offset r
  | PDone _ => True
  end.

Record oinv (nofail : bool) (sid ep N0 : Z) (w : FWorld) : Prop := {
  oi_live : ss_snapshot_read (fw_stream w) = false ∧ ss_listener (fw_stream w) = false;
  oi_ids : ss_stream_id (fw_stream w) = sid ∧ ss_epoch (fw_stream w) = ep ∧ is_u64 sid ∧ is_u64 ep;
  oi_contig : contig N0 (fw_submitted w).*2 (ss_next_offset (fw_stream w));
  oi_records : Forall record_ok (fw_submitted w).*2;
  oi_bounds : 0 <= N0 ∧ ss_next_offset (fw_stream w) < two63;
  oi_submitted : ∀ i r, (i, r) ∈ fw_submitted w → ∃ c, fw_appends w !! i = Some c ∧ admitted_as c r;
  oi_phases : ∀ i c o r, fw_appends w !! i = Some c → ap_phase c = PResolved o r →
    ∃ rec, (i, rec) ∈ fw_submitted w ∧ (nofail = true → r = Ok tt ∧
      ∃ k, fw_submitted w !! k = Some (i, rec) ∧ (k < fw_durable w)%nat);
  oi_admitted : ∀ i c o, fw_appends w !! i = Some c → ap_phase c = PAdmitted o →
    ∃ rec, (i, rec) ∈ fw_submitted w;
  oi_durable : (fw_durable w <= length (fw_submitted w))%nat;
  oi_confirm : nofail = true → ss_confirm_offset (fw_stream w) = N0 ∨
    ∃ k i r, fw_submitted w !! k = Some (i, r) ∧ (k < fw_durable w)%nat ∧
      ss_confirm_offset (fw_stream w) = last_offset r;
  oi_unique : NoDup (fw_submitted w).*1;
}.

(** What the offset invariant reads. *)
Definition oview (w : FWorld) :=
  (ss_snapshot_read (fw_stream w), ss_listener (fw_stream w), ss_stream_id (fw_stream w),
   ss_epoch (fw_stream w), ss_next_offset (fw_stream w), ss_confirm_offset (fw_stream w),
   fw_appends w, fw_submitted w, fw_durable w).

Lemma oinv_view nofail sid ep N0 w w' : oview w' = oview w → oinv nofail sid ep N0 w → oinv nofail sid ep N0 w'.
Proof.
  unfold oview. intros [= E1 E2 E3 E4 E5 E6 E7 E8 E9] [].
  split; rewrite ?E1, ?E2, ?E3, ?E4, ?E5, ?E6, ?E7, ?E8, ?E9; done.
Qed.

Lemma close_returned_oview d r w : oview (close_returned d r w) = oview w.
Proof. by destruct d, r. Qed.

Lemma run_job_oview j answer w w' : run_job j answer w = Some w' → oview w' = oview w.
Proof.
  destruct j; cbn.
  - destruct (_ =? 0); [|done]. by intros [= <-].
  - destruct (_ =? 0); [|done]. by intros [= <-].
  - destruct (fw_close_locked w); [done|]. destruct (ss_close_result _) as [[]|]; intros [= <-];
      rewrite ?close_returned_oview; done.
  - destruct answer; intros [= <-]; unfold finish_close; rewrite ?close_returned_oview; done.
  - intros [= <-]. unfold finish_close. by rewrite close_returned_oview.
  - by intros [= <-].
  - destruct (fw_trim_locked w); [done|]. intros [= <-]. unfold trim_locked. by destruct (_ <? _).
  - destruct (_ =? 0); [|done]. by intros [= <-].
  - by intros [= <-].
Qed.

Lemma append_snoc_oinv nofail sid ep N0 w c s :
  (ap_phase c = PChecked ∨ ∃ out, ap_phase c = PDone out) →
  oview (w <| fw_stream := s |>) = oview w → oinv nofail sid ep N0 w →
  oinv nofail sid ep N0 (w <| fw_stream := s |> <| fw_appends := fw_appends w ++ [c] |>).
Proof.
  intros Hc [= E1 E2 E3 E4 E5 E6] [Hl Hi Hco Hr Hb Hs Hp Ha Hd Hcf Hu]. split; cbn; rewrite ?E1, ?E2, ?E3, ?E4, ?E5, ?E6; try done.
  - intros i r (c' & Hc' & Had)%Hs. exists c'. split; [by apply lookup_app_l_Some|done].
  - intros i c' o r [[_ Hi']|[-> <-]]%lookup_snoc_Some Hph; [by eapply Hp|]. destruct Hc as [Hc|[? Hc]]; congruence.
  - intros i c' o [[_ Hi']|[-> <-]]%lookup_snoc_Some Hph; [by eapply Ha|]. destruct Hc as [Hc|[? Hc]]; congruence.
Qed.

(** A phase change of one append that keeps its reservation. *)
Lemma set_phase_lookup p i w j c' :
  fw_appends (set_phase p i w) !! j = Some c' →
  ∃ c, fw_appends w !! j = Some c ∧ ap_count c' = ap_count c ∧
    ap_phase c' = if decide (j = i) then p else ap_phase c.
Proof.
  unfold set_phase. cbn. destruct (decide (j = i)) as [->|Hne].
  - rewrite list_lookup_alter_eq. destruct (fw_appends w !! i) as [c|]; [|done]. intros [= <-]. by exists c.
  - rewrite list_lookup_alter_ne by done. intros H. by exists c'.
Qed.

Lemma set_phase_submitted p i w :
  (∀ i' r, (i', r) ∈ fw_submitted w → ∃ c, fw_appends w !! i' = Some c ∧ admitted_as c r) →
  (∀ c r, fw_appends w !! i = Some c → (i, r) ∈ fw_submitted w → admitted_as c r →
     admitted_as (c <| ap_phase := p |>) r) →
  ∀ i' r, (i', r) ∈ fw_submitted w → ∃ c, fw_appends (set_phase p i w) !! i' = Some c ∧ admitted_as c r.
Proof.
  intros Hs Hp i' r Hin. destruct (Hs i' r Hin) as (c & Hc & Had). unfold set_phase. cbn.
  destruct (decide (i' = i)) as [->|Hne].
  - rewrite list_lookup_alter_eq, Hc. eexists. split; [done|]. by apply Hp.
  - rewrite list_lookup_alter_ne by done. by exists c.
Qed.

Lemma oinv_admit nofail sid ep N0 w i c :
  oinv nofail sid ep N0 w → fw_appends w !! i = Some c → ap_phase c = PChecked →
  allowed nofail (FAdmit i) w →
  oinv nofail sid ep N0
    (set_phase (PAdmitted (ss_next_offset (fw_stream w))) i
       (w <| fw_stream := (admit_append (ap_count c) (ap_payload c) (fw_stream w)).1.1 |>)
       <| fw_submitted := fw_submitted w ++ [(i, (admit_append (ap_count c) (ap_payload c) (fw_stream w)).2)] |>).
Proof.
  intros [Hl Hi Hco Hr Hb Hs Hp Ha Hd Hcf Hu] Hc Hph Hal.
  destruct (Hal c Hc) as (Hn & Hon & Hbody). unfold admit_append. cbn [fst snd].
  set (o := ss_next_offset (fw_stream w)) in *. set (n := ap_count c) in *.
  assert (Ho : 0 <= o) by (apply contig_le in Hco; lia).
  rewrite (wrap_i32_small n) by lia. rewrite (wrap_u64_id (o + n)) by int_lia.
  destruct Hi as (Hsid & Hep & Us & Ue). rewrite Hsid, Hep.
  destruct (new_batch_fields sid ep o n (ap_payload c) Us Ue Ho Hn Hon Hbody) as (Hok & Hbase & Hlast).
  set (rec := new_batch sid ep o n (ap_payload c)) in *. clearbody rec.
  assert (Hfresh : i ∉ (fw_submitted w).*1).
  { intros ([i' r'] & -> & Hin)%list_elem_of_fmap. destruct (Hs _ _ Hin) as (c' & Hc' & _ & Had).
    cbn in Hc, Hc'. assert (c' = c) as -> by congruence. by rewrite Hph in Had. }
  split; cbn [fw_stream fw_appends fw_submitted fw_durable set_phase field_set ss_snapshot_read ss_listener ss_stream_id
    ss_epoch ss_next_offset ss_confirm_offset]; try done.
  - rewrite fmap_app, <-Hlast. apply contig_snoc with o; [exact Hco|done|lia].
  - rewrite fmap_app. apply Forall_app. split; [done|]. by apply Forall_singleton.
  - lia.
  - intros i' r [Hin|Hin]%elem_of_app.
    + destruct (Hs i' r Hin) as (c' & Hc' & Had). assert (i' ≠ i).
      { intros ->. apply Hfresh. by apply (list_elem_of_fmap_2 fst _ (i, r)). }
      exists c'. split; [|done]. by rewrite list_lookup_alter_ne.
    + apply list_elem_of_singleton in Hin as [= -> ->]. rewrite list_lookup_alter_eq, Hc.
      eexists. split; [done|]. split; cbn; [lia|done].
  - intros j c' o' r Hj Hph'. destruct (decide (j = i)) as [->|Hne].
    + rewrite list_lookup_alter_eq, Hc in Hj. injection Hj as <-. done.
    + rewrite list_lookup_alter_ne in Hj by done. destruct (Hp _ _ _ _ Hj Hph') as (rc & Hin & Hnf).
      exists rc. split; [set_solver|]. intros Hn'. destruct (Hnf Hn') as (? & k & Hk & ?). split; [done|].
      exists k. split; [by apply lookup_app_l_Some|done].
  - intros j c' o' Hj Hph'. destruct (decide (j = i)) as [->|Hne]; [exists rec; set_solver|].
    rewrite list_lookup_alter_ne in Hj by done. destruct (Ha _ _ _ Hj Hph') as (rc & Hin). exists rc. set_solver.
  - rewrite length_app. lia.
  - intros Hnf. destruct (Hcf Hnf) as [?|(k & i' & r & Hk & Hkd & He)]; [by left|right].
    exists k, i', r. split; [by apply lookup_app_l_Some|done].
  - rewrite fmap_app. apply NoDup_app. split_and!; [done| |apply NoDup_singleton].
    intros x Hx ->%list_elem_of_singleton. done.
Qed.

Lemma oinv_resolve nofail sid ep N0 w i c o r :
  oinv nofail sid ep N0 w → fw_appends w !! i = Some c → ap_phase c = PAdmitted o →
  allowed nofail (FResolve i r) w → oinv nofail sid ep N0 (set_phase (PResolved o r) i w).
Proof.
  intros [Hl Hi Hco Hr Hb Hs Hp Ha Hd Hcf Hu] Hc Hph Hal. split; try done.
  - refine (set_phase_submitted (PResolved o r) i w Hs _). intros c' rec Hc' _ [Hlen Had]. split; [done|]. cbn.
    assert (c' = c) as -> by congruence. by rewrite Hph in Had.
  - intros j c' o' r' Hj Hph'. destruct (set_phase_lookup _ _ _ _ _ Hj) as (c0 & Hc0 & _ & Hph0).
    destruct (decide (j = i)) as [->|Hne]; [|rewrite Hph0 in Hph'; by eapply Hp].
    rewrite Hph0 in Hph'. injection Hph' as <- <-. destruct (Ha _ _ _ Hc Hph) as (rec & Hin).
    exists rec. split; [done|]. intros Hnf. destruct (Hal Hnf) as (-> & k & rec' & Hk & Hkd). split; [done|].
    exists k. split; [|done]. cbn. rewrite Hk.
    apply list_elem_of_lookup in Hin as [k' Hk'].
    assert (k = k') as <-.
    { eapply (NoDup_lookup (fw_submitted w).*1); [done| |]; rewrite list_lookup_fmap; [by rewrite Hk|by rewrite Hk']. }
    congruence.
  - intros j c' o' Hj Hph'. destruct (set_phase_lookup _ _ _ _ _ Hj) as (c0 & Hc0 & _ & Hph0).
    destruct (decide (j = i)); [congruence|]. rewrite Hph0 in Hph'. by eapply Ha.
Qed.

Lemma oinv_complete nofail sid ep N0 w i c o r :
  oinv nofail sid ep N0 w → fw_appends w !! i = Some c → ap_phase c = PResolved o r →
  oinv nofail sid ep N0 (set_phase (PDone (complete_append o (ap_count c) r (fw_stream w)).2) i
    (w <| fw_stream := drop_append (complete_append o (ap_count c) r (fw_stream w)).1 |>)).
Proof.
  intros [Hl Hi Hco Hr Hb Hs Hp Ha Hd Hcf Hu] Hc Hph.
  destruct (Hp _ _ _ _ Hc Hph) as (rec & Hin & Hnf). destruct (Hs _ _ Hin) as (c0 & Hc0 & Hlast & Hbase).
  assert (c0 = c) as -> by congruence. rewrite Hph in Hbase. subst o.
  set (out := complete_append _ _ _ _).
  assert (Hst : ss_snapshot_read out.1 = ss_snapshot_read (fw_stream w) ∧ ss_listener out.1 = ss_listener (fw_stream w) ∧
    ss_stream_id out.1 = ss_stream_id (fw_stream w) ∧ ss_epoch out.1 = ss_epoch (fw_stream w) ∧
    ss_next_offset out.1 = ss_next_offset (fw_stream w)) by (unfold out; by destruct r).
  destruct Hst as (E1 & E2 & E3 & E4 & E5).
  split; cbn [fw_stream fw_submitted fw_durable set_phase drop_append field_set ss_snapshot_read ss_listener ss_stream_id
    ss_epoch ss_next_offset ss_confirm_offset]; rewrite ?E1, ?E2, ?E3, ?E4, ?E5; try done.
  - refine (set_phase_submitted (PDone out.2) i w Hs _).
    intros c' rec' Hc' _ [Hlen Had]. by split.
  - intros j c' o' r' Hj Hph'. destruct (set_phase_lookup (PDone out.2) i w j c' Hj) as (c1 & Hc1 & _ & Hph0).
    destruct (decide (j = i)); [congruence|]. rewrite Hph0 in Hph'. by eapply Hp.
  - intros j c' o' Hj Hph'. destruct (set_phase_lookup (PDone out.2) i w j c' Hj) as (c1 & Hc1 & _ & Hph0).
    destruct (decide (j = i)); [congruence|]. rewrite Hph0 in Hph'. by eapply Ha.
  - intros Hn. destruct (Hnf Hn) as (-> & k & Hk & Hkd). unfold out. cbn.
    assert (Hle : 0 <= last_offset rec < two63).
    { destruct Hb as [? ?]. destruct (contig_bounds _ _ _ k rec Hco) as [? ?]; [by rewrite list_lookup_fmap, Hk|]. lia. }
    rewrite <-Hlast, (wrap_u64_id (last_offset rec)) by int_lia.
    destruct (Z.max_spec (ss_confirm_offset (fw_stream w)) (last_offset rec)) as [[_ ->]|[_ ->]]; [right|by apply Hcf].
    by exists k, i, rec.
Qed.

Lemma step_oinv nofail sid ep N0 w w' : step nofail w w' → oinv nofail sid ep N0 w → oinv nofail sid ep N0 w'.
Proof.
  intros (a & Hal & Hact) Hw. pose proof Hw as [[Hlive Hlis] _ _ _ _ _ _ _ Hd Hcf _].
  destruct a; cbn [act] in Hact.
  - rewrite Hlive in Hact. injection Hact as <-. unfold start_append.
    destruct (is_operable _); apply append_snoc_oinv; eauto.
  - destruct (fw_appends w !! i) as [c|] eqn:Hc; [|done]. cbn [mbind option_bind] in Hact.
    destruct (ap_phase c) eqn:Hph; try done. injection Hact as <-. exact (oinv_admit _ _ _ _ _ _ _ Hw Hc Hph Hal).
  - destruct (Nat.ltb_spec (fw_durable w) (length (fw_submitted w))); [|done]. injection Hact as <-.
    destruct Hw as [Hl Hi Hco Hr Hb Hs Hp Ha _ _ Hu]. split; cbn [fw_durable field_set fw_submitted fw_appends fw_stream]; try done; [|intros Hn..].
    + intros i c o r Hi' Hph. destruct (Hp _ _ _ _ Hi' Hph) as (rec & Hin & Hnf). exists rec. split; [done|].
      intros Hn. destruct (Hnf Hn) as (? & k & ? & ?). split; [done|]. exists k. split; [done|lia].
    + destruct (Hcf Hn) as [?|(k & i & r & ? & ? & ?)]; [by left|]. right. exists k, i, r. split_and!; [done|lia|done].
  - destruct (fw_appends w !! i) as [c|] eqn:Hc; [|done]. cbn [mbind option_bind] in Hact.
    destruct (ap_phase c) eqn:Hph; try done. injection Hact as <-. exact (oinv_resolve _ _ _ _ _ _ _ _ _ Hw Hc Hph Hal).
  - destruct (fw_appends w !! i) as [c|] eqn:Hc; [|done]. cbn [mbind option_bind] in Hact.
    destruct (ap_phase c) as [|?|o r|?] eqn:Hph; try done.
    destruct (complete_append o (ap_count c) r (fw_stream w)) as [s' out] eqn:E. injection Hact as <-.
    pose proof (oinv_complete _ _ _ _ _ _ _ _ _ Hw Hc Hph) as H. by rewrite E in H.
  - injection Hact as <-. by apply (oinv_view _ _ _ _ w).
  - destruct (_ =? 0); [done|]. injection Hact as <-. by apply (oinv_view _ _ _ _ w).
  - injection Hact as <-. unfold close_with. rewrite Hlive. by apply (oinv_view _ _ _ _ w).
  - rewrite Hlive in Hact. injection Hact as <-. unfold close_with. rewrite Hlive. by apply (oinv_view _ _ _ _ w).
  - rewrite Hlive in Hact. injection Hact as <-. by apply (oinv_view _ _ _ _ w).
  - destruct (fw_jobs w !! i) as [j|]; [|done]. cbn [mbind option_bind] in Hact.
    eapply oinv_view; [eapply run_job_oview, Hact|]. by apply (oinv_view _ _ _ _ w).
  - destruct (fw_jobs w !! i) as [j|]; [|done]. cbn [mbind option_bind] in Hact.
    destruct j; try done. injection Hact as <-. by apply (oinv_view _ _ _ _ w).
  - rewrite Hlis in Hact. done.
  - injection Hact as <-. unfold confirm_offset_set. rewrite Hlive. by apply (oinv_view _ _ _ _ w).
Qed.

Lemma reach_oinv nofail sid ep start next w : reach nofail sid ep start next w → oinv nofail sid ep next w.
Proof.
  intros (Hs & He & Hn & Hr). remember (fworld_new (stream_new sid ep start next false)) as w0 eqn:E.
  assert (Hi : oinv nofail sid ep next w0).
  { subst w0. split; cbn; try done; try lia; try (by intros ? ? ?%not_elem_of_nil); try constructor; done. }
  clear E. induction Hr as [|w0 w1 w2 Hst _ IH]; [done|]. by eapply IH, step_oinv.
Qed.

(** Reservations tile the stream. In every run of an open stream, with
    any interleaving of appends, answers, failures, closes and trims, the
    records reach the storage in offset order without gap or overlap: the
    first starts at the offset the stream was opened with, each one starts
    where the previous one ended, and the last ends at the next offset. Each
    is a well-formed batch of its append's records. *)
Theorem reservations_tile_the_stream nofail sid ep start next w :
  reach nofail sid ep start next w →
  contig next (fw_submitted w).*2 (ss_next_offset (fw_stream w)) ∧ Forall record_ok (fw_submitted w).*2.
Proof. by intros [_ _ Hc Hr _ _ _ _ _ _ _]%reach_oinv. Qed.

(** C25: The confirm offset covers durable records only. In a run where no
    append fails, whatever the order in which the completions are processed,
    every record below the confirm offset is among those the WAL has
    confirmed, so a fetch that passes the bounds check asks for durable data. *)
Theorem confirm_offset_is_durable sid ep start next w k i r :
  reach true sid ep start next w → fw_submitted w !! k = Some (i, r) →
  base_offset r < ss_confirm_offset (fw_stream w) → (k < fw_durable w)%nat.
Proof.
  intros [_ _ Hc _ _ _ _ _ _ Hcf _]%reach_oinv Hk Hlt.
  assert (Hr : (fw_submitted w).*2 !! k = Some r) by by rewrite list_lookup_fmap, Hk.
  destruct (Hcf eq_refl) as [E|(k' & i' & r' & Hk' & Hd & E)]; rewrite E in Hlt.
  - destruct (contig_bounds _ _ _ _ _ Hc Hr). lia.
  - assert (Hr' : (fw_submitted w).*2 !! k' = Some r') by by rewrite list_lookup_fmap, Hk'.
    destruct (decide (k <= k')%nat); [lia|].
    pose proof (contig_order _ _ _ k' k _ _ Hc Hr' Hr ltac:(lia)). lia.
Qed.

(** ** Closing *)
Definition is_done (c : AppendCall) : Prop :=
  match ap_phase c with
  | PDone _ => True
  | _ => False
  end.
#[export] Instance is_done_dec c : Decision (is_done c).
Proof. unfold is_done. destruct (ap_phase c); apply _. Defined.

Definition open_appends (w : FWorld) : nat := length (filter (λ c, ¬ is_done c) (fw_appends w)).

(** The stream refuses new appends and every append has been completed. *)
Definition drained (w : FWorld) : Prop :=
  ss_status (fw_stream w) <> 0 ∧ Forall is_done (fw_appends w).

(** A step of a run without forced closes; no counter of calls overflows. *)
Definition graceful_step (w w' : FWorld) : Prop :=
  ∃ a, a ≠ FClose true ∧ Z.of_nat (length (fw_appends w)) < two64 ∧ act a w = Some w'.

Definition job_ok (w : FWorld) (j : Job) : Prop :=
  match j with
  | JWaitAppends _ => ss_status (fw_stream w) <> 0
  | JTrimLock _ | JTrimWait _ | JTrimMeta _ => True
  | _ => drained w
  end.

Record kinv (w : FWorld) : Prop := {
  ki_live : ss_snapshot_read (fw_stream w) = false;
  ki_status : 0 <= ss_status (fw_stream w);
  ki_pending : ss_pending_appends (fw_stream w) = wrap_u64 (Z.of_nat (open_appends w));
  ki_jobs : Forall (job_ok w) (fw_jobs w);
  ki_meta : fw_meta_closed w = true → drained w;
}.

(** What the close invariant reads besides the jobs. *)
Definition kview (w : FWorld) :=
  (ss_snapshot_read (fw_stream w), ss_pending_appends (fw_stream w), fw_appends w).

(** More marks and the same appends keep what a job relies on. *)
Definition marks_grow (w w' : FWorld) : Prop :=
  kview w' = kview w ∧ 0 <= ss_status (fw_stream w') ∧
  (ss_status (fw_stream w) <> 0 → ss_status (fw_stream w') <> 0).

Lemma job_ok_grow w w' j : marks_grow w w' → job_ok w j → job_ok w' j.
Proof.
  intros ([= _ _ Ha] & _ & Hs). destruct j; cbn; unfold drained; rewrite ?Ha; naive_solver.
Qed.

Lemma kinv_grow w w' :
  marks_grow w w' → kinv w → Forall (job_ok w') (fw_jobs w') → (fw_meta_closed w' = true → drained w') → kinv w'.
Proof.
  intros ([= E1 E2 E3] & Hn & Hs) [Hl _ Hp _ _] Hj Hm. split; try done; [by rewrite E1|].
  unfold open_appends. rewrite E2, E3. exact Hp.
Qed.

Lemma mark_grows m s : 0 < m → 0 <= ss_status s → 0 < ss_status (mark m s).
Proof.
  intros Hm Hs. unfold mark. cbn. pose proof (proj2 (Z.lor_nonneg (ss_status s) m) ltac:(lia)).
  assert (Z.lor (ss_status s) m ≠ 0); [|lia]. intros E. apply Z.lor_eq_0_iff in E as [_ ?]. lia.
Qed.

Lemma drained_grow w w' : marks_grow w w' → drained w → drained w'.
Proof. intros H Hd. exact (job_ok_grow w w' JDelete H Hd). Qed.

Lemma jobs_delete w i j :
  Forall (job_ok w) (fw_jobs w) → fw_jobs w !! i = Some j →
  job_ok w j ∧ Forall (job_ok w) (delete i (fw_jobs w)).
Proof.
  intros H Hi. split; [by eapply Forall_lookup_1|]. rewrite delete_take_drop.
  apply Forall_app. split; [by apply Forall_take|by apply Forall_drop].
Qed.

Lemma kinv_frame w w' :
  marks_grow w w' → fw_jobs w' = fw_jobs w → (fw_meta_closed w' = true → fw_meta_closed w = true ∨ drained w) →
  kinv w → kinv w'.
Proof.
  intros Hg Hj Hm Hw. apply (kinv_grow w); [done|done| |].
  - rewrite Hj. eapply Forall_impl; [apply (ki_jobs _ Hw)|]. intros j. by apply job_ok_grow.
  - intros Hc. apply (drained_grow w); [done|]. destruct (Hm Hc); [by apply (ki_meta _ Hw)|done].
Qed.

Lemma kinv_spawn j w : kinv w → job_ok w j → kinv (spawn_job j w).
Proof.
  intros Hw Hj. assert (Hg : marks_grow w (spawn_job j w)) by (split; [done|split; [apply Hw|done]]).
  apply (kinv_grow w); [done|done| |exact (ki_meta _ Hw)]. apply Forall_app. split.
  - eapply Forall_impl; [apply (ki_jobs _ Hw)|]. intros j'. by apply job_ok_grow.
  - apply Forall_singleton. by apply (job_ok_grow w).
Qed.

Lemma kinv_close_returned d r w : kinv w → drained w → kinv (close_returned d r w).
Proof.
  intros Hw Hd. destruct d, r; cbn [close_returned];
    try (apply (kinv_frame w); [split; [done|split; [apply Hw|done]]|done|by left|done]).
  pose proof (mark_grows DESTROY_MARK (fw_stream w) ltac:(done) (ki_status _ Hw)) as Hm.
  set (w1 := w <| fw_stream := _ |>).
  assert (Hg : marks_grow w w1) by (split; [done|split; cbn in *; lia]).
  apply kinv_spawn; [by apply (kinv_frame w); [..|left|]|]. by apply (drained_grow w).
Qed.

Lemma kinv_finish_close d r w : kinv w → drained w → kinv (finish_close d r (w <| fw_meta_closed := true |>)).
Proof.
  intros Hw Hd. unfold finish_close. set (w1 := _ <| fw_close_locked := false |>).
  assert (Hg : marks_grow w w1) by (split; [done|split; [apply Hw|done]]).
  apply kinv_close_returned; [|by apply (drained_grow w)]. apply (kinv_frame w); [done|done|by right|done].
Qed.

Lemma kinv_finish_failed d r w : kinv w → drained w → kinv (finish_close d r w).
Proof.
  intros Hw Hd. unfold finish_close. set (w1 := _ <| fw_close_locked := false |>).
  assert (Hg : marks_grow w w1) by (split; [done|split; [apply Hw|done]]).
  apply kinv_close_returned; [|by apply (drained_grow w)]. apply (kinv_frame w); [done|done|by left|done].
Qed.

Lemma filter_nil_Forall (l : list AppendCall) : length (filter (λ c, ¬ is_done c) l) = 0%nat → Forall is_done l.
Proof.
  induction l as [|c l IH]; [constructor|]. rewrite filter_cons. case_decide as Hc; [done|].
  intros H. constructor; [|by apply IH]. destruct (decide (is_done c)); [done|done].
Qed.

Lemma kinv_run_job j answer w w' :
  kinv w → job_ok w j → Z.of_nat (length (fw_appends w)) < two64 → run_job j answer w = Some w' → kinv w'.
Proof.
  intros Hw Hj Hlen. destruct j; cbn [run_job].
  - destruct (Z.eqb_spec (ss_pending_appends (fw_stream w)) 0) as [E|]; [|done]. intros [= <-].
    apply kinv_spawn; [done|]. split; [exact Hj|]. apply filter_nil_Forall.
    rewrite (ki_pending _ Hw) in E. unfold open_appends in E.
    pose proof (length_filter (λ c, ¬ is_done c) (fw_appends w)) as Hf.
    rewrite wrap_u64_id in E by (unfold is_u64; lia). lia.
  - destruct (_ =? 0); [|done]. intros [= <-]. by apply kinv_spawn.
  - destruct (fw_close_locked w); [done|].
    destruct (ss_close_result _) as [[]|]; intros [= <-]; try by apply kinv_close_returned.
    apply kinv_spawn; [|exact Hj]. apply (kinv_frame w); [split; [done|split; [apply Hw|done]]|done|by left|done].
  - destruct answer; intros [= <-]; [by apply kinv_spawn|by apply kinv_finish_failed].
  - intros [= <-]. by apply kinv_finish_close.
  - intros [= <-]. apply (kinv_frame w); [split; [done|split; [apply Hw|done]]|done|by left|done].
  - destruct (fw_trim_locked w); [done|]. intros [= <-]. unfold trim_locked. destruct (_ <? _).
    + apply (kinv_frame w); [split; [done|split; [apply Hw|done]]|done|by left|done].
    + apply kinv_spawn; [|done]. apply (kinv_frame w); [split; [done|split; [apply Hw|done]]|done|by left|done].
  - destruct (_ =? 0); [|done]. intros [= <-]. by apply kinv_spawn.
  - intros [= <-]. apply (kinv_frame w); [split; [done|split; [apply Hw|done]]|done|by left|done].
Qed.

(** While an append is open no close has got past its wait. *)
Lemma kinv_open w w' i c :
  kinv w → fw_appends w !! i = Some c → ¬ is_done c → fw_jobs w' = fw_jobs w →
  fw_meta_closed w' = fw_meta_closed w → ss_snapshot_read (fw_stream w') = false →
  0 <= ss_status (fw_stream w') → (ss_status (fw_stream w) <> 0 → ss_status (fw_stream w') <> 0) →
  ss_pending_appends (fw_stream w') = wrap_u64 (Z.of_nat (open_appends w')) → kinv w'.
Proof.
  intros Hw Hc Hnd Hj Hm Hl H0 Hs Hp. assert (Hno : ¬ drained w).
  { intros [_ Hall]. eapply Forall_lookup_1 in Hall; [|exact Hc]. done. }
  split; try done.
  - rewrite Hj. eapply Forall_impl; [apply (ki_jobs _ Hw)|]. intros []; cbn; naive_solver.
  - intros Hc'. rewrite Hm in Hc'. by destruct (Hno (ki_meta _ Hw Hc')).
Qed.

Lemma open_appends_alter w i c p :
  fw_appends w !! i = Some c → ¬ is_done c →
  open_appends w = (open_appends (set_phase p i w) + match p with PDone _ => 1 | _ => 0 end)%nat.
Proof.
  unfold open_appends, set_phase. cbn [fw_appends field_set]. generalize (fw_appends w). intros l.
  revert i. induction l as [|c0 l IH]; intros [|i] Hi Hnd; cbn in Hi; try done.
  - injection Hi as ->. cbn [alter list_alter]. rewrite !filter_cons, decide_True by done.
    destruct p; unfold is_done; cbn [ap_phase field_set]; repeat case_decide; cbn [length]; naive_solver lia.
  - cbn [alter list_alter]. rewrite !filter_cons. specialize (IH i Hi Hnd).
    case_decide; cbn [length]; [rewrite IH; lia|exact IH].
Qed.

Lemma wrap_u64_pred n : wrap_u64 (wrap_u64 (n + 1) - 1) = wrap_u64 n.
Proof. unfold wrap_u64. rewrite Zminus_mod_idemp_l. f_equal. lia. Qed.

Lemma kinv_close d w : kinv w → kinv (close_with false d w).
Proof.
  intros Hw. pose proof (ki_live _ Hw) as Hlive. unfold close_with. rewrite Hlive.
  pose proof (mark_grows CLOSED_MARK (fw_stream w) ltac:(done) (ki_status _ Hw)) as Hm.
  set (w1 := w <| fw_stream := _ |>).
  assert (Hg : marks_grow w w1) by (split; [done|split; cbn in *; lia]).
  apply kinv_spawn; [by apply (kinv_frame w); [..|left|]|]. cbn in *. lia.
Qed.

Lemma kinv_start n body w : kinv w → kinv (start_append n body w).
Proof.
  intros Hw. unfold start_append. destruct (is_operable _) eqn:E.
  - unfold is_operable in E. cbn in E. apply Z.eqb_eq in E. pose proof Hw as [Hl _ Hp Hj Hm].
    split; cbn; try done; [lia| | |].
    + rewrite Hp, wrap_add_l. f_equal. unfold open_appends. cbn [fw_appends field_set].
      rewrite filter_app, length_app, filter_cons, decide_True, filter_nil by (intros []). cbn [length]. lia.
    + eapply Forall_impl; [exact Hj|]. intros []; cbn; unfold drained; naive_solver.
    + intros Hc. destruct (Hm Hc) as [? _]. done.
  - assert (Hd : ∀ w', fw_appends w' = fw_appends w ++ [{| ap_count := n; ap_payload := body;
        ap_phase := PDone (Err (FClosed (ss_stream_id (begin_append (fw_stream w))))) |}] →
        ss_status (fw_stream w') = ss_status (fw_stream w) → drained w → drained w').
    { intros w' Ha Hs [H1 H2]. split; [by rewrite Hs|]. rewrite Ha. apply Forall_app. split; [done|].
      by apply Forall_singleton. }
    pose proof Hw as [Hl H0 Hp Hj Hm]. split; cbn; try done.
    + rewrite Hp, wrap_add_l, wrap_u64_pred. unfold open_appends. cbn. by rewrite filter_app, app_nil_r.
    + eapply Forall_impl; [exact Hj|]. intros []; cbn; try done; by apply Hd.
    + intros Hc. by apply Hd, Hm.
Qed.

Lemma kinv_step w w' : graceful_step w w' → kinv w → kinv w'.
Proof.
  intros (a & Hna & Hlen & Hact) Hw. pose proof Hw as [Hlive H0 Hp Hj Hm].
  destruct a; cbn [act] in Hact.
  - rewrite Hlive in Hact. injection Hact as <-. by apply kinv_start.
  - destruct (fw_appends w !! i) as [c|] eqn:Hc; [|done]. cbn [mbind option_bind] in Hact.
    destruct (ap_phase c) eqn:Hph; try done. injection Hact as <-.
    assert (Hnd : ¬ is_done c) by (unfold is_done; rewrite Hph; intros []).
    eapply (kinv_open w _ i c); try done. cbn. rewrite Hp, (open_appends_alter w i c (PAdmitted (ss_next_offset (fw_stream w))) Hc Hnd), Nat.add_0_r. reflexivity.
  - destruct (_ <? _)%nat; [|done]. injection Hact as <-.
    apply (kinv_frame w); [split; [done|split; [apply Hw|done]]|done|by left|done].
  - destruct (fw_appends w !! i) as [c|] eqn:Hc; [|done]. cbn [mbind option_bind] in Hact.
    destruct (ap_phase c) eqn:Hph; try done. injection Hact as <-.
    assert (Hnd : ¬ is_done c) by (unfold is_done; rewrite Hph; intros []).
    eapply (kinv_open w _ i c); try done. cbn. rewrite Hp, (open_appends_alter w i c (PResolved offset r) Hc Hnd), Nat.add_0_r. reflexivity.
  - destruct (fw_appends w !! i) as [c|] eqn:Hc; [|done]. cbn [mbind option_bind] in Hact.
    destruct (ap_phase c) as [|?|o r|?] eqn:Hph; try done.
    assert (Hnd : ¬ is_done c) by (unfold is_done; rewrite Hph; intros []).
    destruct (complete_append o (ap_count c) r (fw_stream w)) as [s' out] eqn:E. injection Hact as <-.
    assert (Hs' : ss_snapshot_read s' = false ∧ ss_pending_appends s' = ss_pending_appends (fw_stream w) ∧
      0 <= ss_status s' ∧ (ss_status (fw_stream w) <> 0 → ss_status s' <> 0)).
    { pose proof (mark_grows FENCED_MARK (fw_stream w) ltac:(done) H0).
      destruct r; injection E as <- <-; cbn; split_and!; try done; cbn in *; lia. }
    destruct Hs' as (? & Hpe & ? & ?). eapply (kinv_open w _ i c); try done.
    cbn. rewrite Hpe, Hp, (open_appends_alter w i c (PDone out) Hc Hnd), Nat2Z.inj_add. by rewrite wrap_u64_pred.
  - injection Hact as <-. apply (kinv_frame w); [split; [done|split; [apply Hw|done]]|done|by left|done].
  - destruct (_ =? 0); [done|]. injection Hact as <-. apply (kinv_frame w); [split; [done|split; [apply Hw|done]]|done|by left|done].
  - injection Hact as <-. destruct force; [done|]. by apply kinv_close.
  - rewrite Hlive in Hact. injection Hact as <-. by apply kinv_close.
  - rewrite Hlive in Hact. injection Hact as <-. by apply kinv_spawn.
  - destruct (fw_jobs w !! i) as [j|] eqn:Ej; [|done]. cbn [mbind option_bind] in Hact.
    destruct (jobs_delete w i j Hj Ej) as [Hok Hrest].
    set (w1 := w <| fw_jobs := _ |>) in Hact.
    assert (Hg : marks_grow w w1) by (split; [done|split; [apply Hw|done]]).
    eapply (kinv_run_job j answer w1); [|by apply (job_ok_grow w)|exact Hlen|exact Hact].
    apply (kinv_grow w); [done|done| |done]. eapply Forall_impl; [exact Hrest|]. intros j'. by apply job_ok_grow.
  - destruct (fw_jobs w !! i) as [j|] eqn:Ej; [|done]. cbn [mbind option_bind] in Hact.
    destruct j; try done. injection Hact as <-. destruct (jobs_delete w i _ Hj Ej) as [Hok Hrest].
    set (w1 := w <| fw_jobs := _ |>).
    assert (Hg : marks_grow w w1) by (split; [done|split; [apply Hw|done]]).
    apply kinv_spawn; [|exact Hok]. apply (kinv_grow w); [done|done| |done].
    eapply Forall_impl; [exact Hrest|]. intros j'. by apply job_ok_grow.
  - destruct (ss_listener _); [|done]. injection Hact as <-.
    unfold on_new_stream_metadata, update_snapshot_read_confirm_offset.
    destruct (_ <? _); (apply (kinv_frame w); [split; [done|split; [apply Hw|done]]|done|by left|done]).
  - injection Hact as <-. unfold confirm_offset_set. rewrite Hlive.
    apply (kinv_frame w); [split; [done|split; [apply Hw|done]]|done|by left|done].
Qed.

(** A graceful close loses no append. In every run without forced
    closes, once [close_stream] has been called on the metadata every append
    that was ever started has finished, with its offset or an error, and the
    stream is marked so that later ones are refused: no record can reach the
    storage after the upload that precedes the close. *)
Theorem graceful_close_waits_for_appends sid ep start next w :
  rtc graceful_step (fworld_new (stream_new sid ep start next false)) w → fw_meta_closed w = true →
  Forall is_done (fw_appends w) ∧ is_operable (fw_stream w) = false.
Proof.
  intros Hr. assert (Hw : kinv w).
  { remember (fworld_new _) as w0 eqn:E. assert (Hi : kinv w0) by (subst; split; cbn; try done; constructor).
    clear E. induction Hr as [|w0 w1 w2 Hst _ IH]; [done|]. by eapply IH, kinv_step. }
  intros [Hs Hd]%(ki_meta _ Hw). split; [done|]. unfold is_operable. by apply Z.eqb_neq.
Qed.

(** ** Runs *)
Definition demo_stream : S3Stream := stream_new 7 1 0 10 false.

(** Two pipelined appends; the storage refuses the first record for its size
    and accepts the second. *)
Definition demo_hole : list FAction :=
  [FAppend 1 []; FAdmit 0; FAppend 1 []; FAdmit 1;
   FResolve 0 (Err (EngineWal (RecordTooLarge 100 50))); FResolve 1 (Ok tt); FComplete 1].

(** A failed append leaves a hole under the confirm offset. The stream is
    fenced only when the failure of an append is processed; an append that
    was pipelined behind it has its reservation already, and when it succeeds
    the confirm offset moves past both. The record of the failed append is in
    no log, yet a fetch of its offset passes the bounds check and goes to the
    storage. *)
Theorem failed_append_leaves_a_hole :
  ∃ w, run demo_hole (fworld_new demo_stream) = Some w ∧
    ss_confirm_offset (fw_stream w) = 12 ∧
    (ap_phase <$> fw_appends w !! 0%nat) =
      Some (PResolved 10 (Err (EngineWal (RecordTooLarge 100 50)))) ∧
    ∀ read context max_bytes,
      fetch0 read context 10 11 max_bytes (fw_stream w) =
      match read context 7 10 11 max_bytes with
      | Ok block => Ok {| fr_records := to_context 7 <$> rb_data block; fr_cache_access := rb_cache_access block |}
      | Err e => Err (FStorage e)
      end.
Proof.
  eexists. split; [vm_compute; reflexivity|]. split; [vm_compute; reflexivity|].
  split; [vm_compute; reflexivity|]. intros. reflexivity.
Qed.

(** A trim to an offset the metadata refuses. *)
Definition demo_trim : list FAction :=
  [FTrim 50; FRun 0 (Ok tt); FRun 0 (Ok tt); FRun 0 (Err "out of range"%string)].

(** A refused trim blocks every read. [trim] raises the local start
    offset before the metadata answers and keeps it when the answer is an
    error: after a refused trim beyond the end of the stream, every fetch of
    the stream's data fails as out of range, although the metadata still has
    all of it. *)
Theorem refused_trim_blocks_reads :
  ∃ w, run demo_trim (fworld_new demo_stream) = Some w ∧
    fw_answers w = [Err "out of range"%string] ∧
    ∀ read context start_offset end_offset max_bytes, 0 <= start_offset < 50 →
      fetch0 read context start_offset end_offset max_bytes (fw_stream w) =
      Err (FOffsetOutOfRange 7 start_offset end_offset 50 10).
Proof.
  eexists. split; [vm_compute; reflexivity|]. split; [vm_compute; reflexivity|].
  intros read context a b m Ha. unfold fetch0. cbn [fw_stream ss_start_offset ss_confirm_offset ss_stream_id].
  change (wrap_i64 50) with 50. rewrite (wrap_i64_id a) by int_lia.
  destruct (Z.ltb_spec a 50); [reflexivity|lia].
Qed.

(** ** Witnesses *)
Definition demo_appends : list FAction :=
  [FAppend 2 []; FAdmit 0; FAppend 3 []; FAdmit 1; FDurable; FDurable; FResolve 1 (Ok tt); FComplete 1].

Definition demo_appends_w : option FWorld := Eval vm_compute in run demo_appends (fworld_new demo_stream).

Lemma demo_facade_reach nofail : from_option (reach nofail 7 1 0 10) False demo_appends_w.
Proof.
  cbn [from_option demo_appends_w]. split; [int_lia|split; [int_lia|split; [int_lia|]]].
  eapply rtc_l; [exists (FAppend 2 []); split; [done|vm_compute; reflexivity]|].
  eapply rtc_l; [exists (FAdmit 0); split; [intros c [= <-]; cbn; int_lia|vm_compute; reflexivity]|].
  eapply rtc_l; [exists (FAppend 3 []); split; [done|vm_compute; reflexivity]|].
  eapply rtc_l; [exists (FAdmit 1); split; [intros c [= <-]; cbn; int_lia|vm_compute; reflexivity]|].
  eapply rtc_l; [exists FDurable; split; [done|vm_compute; reflexivity]|].
  eapply rtc_l; [exists FDurable; split; [done|vm_compute; reflexivity]|].
  eapply rtc_l; [exists (FResolve 1 (Ok tt)); split; [|vm_compute; reflexivity]|].
  { intros _. split; [done|]. exists 1%nat. eexists. split; [reflexivity|]. cbn. lia. }
  eapply rtc_l; [exists (FComplete 1); split; [done|vm_compute; reflexivity]|]. apply rtc_refl.
Qed.

Lemma reservations_tile_the_stream_witness :
  from_option (λ w, contig 10 (fw_submitted w).*2 15 ∧ Forall record_ok (fw_submitted w).*2) False demo_appends_w.
Proof.
  pose proof (demo_facade_reach false) as H. cbn [from_option demo_appends_w] in *.
  exact (reservations_tile_the_stream false 7 1 0 10 _ H).
Defined.

Lemma confirm_offset_is_durable_witness :
  from_option (λ w, (0 < fw_durable w)%nat) False demo_appends_w.
Proof.
  pose proof (demo_facade_reach true) as H. cbn [from_option demo_appends_w] in *.
  eapply (confirm_offset_is_durable 7 1 0 10 _ 0 _ _ H); vm_compute; reflexivity.
Defined.

Definition demo_close : list FAction :=
  [FAppend 2 []; FAdmit 0; FClose false; FDurable; FResolve 0 (Ok tt); FComplete 0;
   FRun 0 (Ok tt); FRun 0 (Ok tt); FRun 0 (Ok tt); FRun 0 (Ok tt); FRun 0 (Ok tt); FAppend 1 []].

Definition demo_close_w : option FWorld := Eval vm_compute in run demo_close (fworld_new demo_stream).

Fixpoint graceful_run (l : list FAction) (w : FWorld) : Prop :=
  match l with
  | [] => True
  | a :: l => a ≠ FClose true ∧ Z.of_nat (length (fw_appends w)) < two64 ∧
      from_option (graceful_run l) False (act a w)
  end.

Lemma graceful_run_steps l w w' : graceful_run l w → run l w = Some w' → rtc graceful_step w w'.
Proof.
  revert w. induction l as [|a l IH]; intros w; cbn; [by intros _ [= <-]|].
  intros (Ha & Hlen & Hl). destruct (act a w) as [w1|] eqn:E; [|done]. cbn. intros Hr.
  eapply rtc_l; [by exists a|]. by apply IH.
Qed.

Lemma demo_close_graceful : graceful_run demo_close (fworld_new demo_stream).
Proof.
  unfold demo_close.
  repeat (split; [discriminate|split; [vm_compute; reflexivity|
    match goal with
    | |- from_option _ _ ?x =>
        let y := eval vm_compute in x in replace x with y by (vm_compute; reflexivity)
    end; cbn [from_option]]]).
  exact I.
Qed.

Lemma graceful_close_waits_for_appends_witness :
  from_option (λ w, Forall is_done (fw_appends w) ∧ is_operable (fw_stream w) = false) False demo_close_w.
Proof.
  cbn [from_option demo_close_w]. apply (graceful_close_waits_for_appends 7 1 0 10); [|reflexivity].
  apply (graceful_run_steps demo_close); [exact demo_close_graceful|vm_compute; reflexivity].
Defined.
