(* ===== verification/ServerTypes.v ===== *)
(** * The server's data: errors, commands, frames and registry entries

    [pico-server/src]: the error surface (error.rs), offset tokens, commands
    and results (types.rs), the framing of atomic batches and the content-type
    helpers (framing.rs), and the registry entry that the metadata KV keeps
    for every named stream, with the producer decision table (registry.rs).
    Texts are byte strings; [format!] messages are kept unrendered. *)

From Stdlib Require Import ZArith Lia.
From Stdlib Require Import Strings.Byte.
From stdpp Require Import base numbers list gmap strings.
From S2P Require Import Prelude StreamTypes WalFormat MetaState StreamFacade.

Open Scope Z_scope.
Open Scope rust_scope.

(** ** Offset tokens *)
Record OffsetToken := of_record_offset { record_offset : Z }.

#[export] Instance OffsetToken_eq_dec : EqDecision OffsetToken.
Proof. solve_decision. Defined.

Definition TOKEN_WIDTH : nat := 20.
Definition beginning : OffsetToken := of_record_offset 0.

(** ** Errors *)
Inductive ErrorKind :=
| KNotFound | KConflict | KClosed | KBadRequest | KFenced | KSequenceGap | KMatchFailed | KDurability.

#[export] Instance ErrorKind_eq_dec : EqDecision ErrorKind.
Proof. solve_decision. Defined.

(** [s3stream::Error]: what the metadata managers or an engine stream
    answered, or another failure. *)
Inductive Error :=
| EMetadata (e : StreamError)
| EStream (e : FacadeError)
| EOther (reason : string).

Record text := {
  tx_template : string;
  tx_ints : list Z;
  tx_strings : list string;
  tx_cause : option Error;
}.
Definition txt (template : string) (ints : list Z) (strings : list string) : text := {|
  tx_template := template; tx_ints := ints; tx_strings := strings; tx_cause := None |}.
Definition caused (template : string) (cause : Error) : text := {|
  tx_template := template; tx_ints := []; tx_strings := []; tx_cause := Some cause |}.

Record ServiceError := {
  se_kind : ErrorKind;
  se_next_offset : option OffsetToken;
  se_closed : bool;
  se_producer_epoch : option Z;
  se_expected_seq : option Z;
  se_received_seq : option Z;
  se_message : text;
}.

Definition kind_debug (kind : ErrorKind) : text :=
  txt (match kind with
       | KNotFound => "NotFound" | KConflict => "Conflict" | KClosed => "Closed"
       | KBadRequest => "BadRequest" | KFenced => "Fenced" | KSequenceGap => "SequenceGap"
       | KMatchFailed => "MatchFailed" | KDurability => "Durability"
       end) [] [].

Definition error_of_kind (kind : ErrorKind) : ServiceError := {|
  se_kind := kind; se_next_offset := None; se_closed := false; se_producer_epoch := None;
  se_expected_seq := None; se_received_seq := None; se_message := kind_debug kind |}.

Definition error_at (kind : ErrorKind) (next_offset : OffsetToken) (closed : bool) : ServiceError := {|
  se_kind := kind; se_next_offset := Some next_offset; se_closed := closed; se_producer_epoch := None;
  se_expected_seq := None; se_received_seq := None; se_message := kind_debug kind |}.

Definition with_message (kind : ErrorKind) (next_offset : option OffsetToken) (closed : bool)
    (m : text) : ServiceError := {|
  se_kind := kind; se_next_offset := next_offset; se_closed := closed; se_producer_epoch := None;
  se_expected_seq := None; se_received_seq := None; se_message := m |}.

Definition fenced (current_epoch : Z) : ServiceError := {|
  se_kind := KFenced; se_next_offset := None; se_closed := false;
  se_producer_epoch := Some current_epoch; se_expected_seq := None; se_received_seq := None;
  se_message := txt "Stale producer epoch" [] [] |}.

Definition sequence_gap (expected received : Z) : ServiceError := {|
  se_kind := KSequenceGap; se_next_offset := None; se_closed := false; se_producer_epoch := None;
  se_expected_seq := Some expected; se_received_seq := Some received;
  se_message := txt "Producer sequence gap" [] [] |}.

Definition durability (cause : Error) : ServiceError :=
  with_message KDurability None false (caused "append not durable: {}" cause).

Definition from_error (e : Error) : ServiceError := with_message KBadRequest None false (caused "{}" e).

(** ** Tokens on the wire *)

(** [i64::from_str]: an optional sign, then at least one digit; [None] on
    anything else and on overflow. *)
Definition parse_i64 (s : list byte) : option Z :=
  let magnitude (bs : list byte) : option Z :=
    match bs with
    | [] => None
    | b :: _ => if bool_decide (b = x2b) then None else parse_u64 bs
    end in
  match s with
  | b :: rest =>
      if bool_decide (b = x2d) then
        m ← magnitude rest; if m <=? two63 then Some (- m) else None
      else
        m ← magnitude (if bool_decide (b = x2b) then rest else s);
        if m <? two63 then Some m else None
  | [] => None
  end.

Definition parse_token (raw : option string) : result OffsetToken ServiceError :=
  match raw with
  | None => Ok beginning
  | Some raw =>
      if bool_decide (raw = "-1"%string) then Ok beginning
      else if bool_decide (as_bytes raw = []) then
        Err (with_message KBadRequest None false (txt "empty offset" [] []))
      else
        match parse_i64 (as_bytes raw) with
        | Some offset => if offset <? 0 then Ok beginning else Ok (of_record_offset offset)
        | None => Err (with_message KBadRequest None false (txt "invalid offset token: {}" [] [raw]))
        end
  end.

(** [format!("{:020}", offset)]: 20 digits hold every [u64]. *)
Fixpoint dec_digits (width : nat) (z : Z) : list byte :=
  match width with
  | O => []
  | S width => dec_digits width (z / 10) ++ [byte_of (48 + z mod 10)]
  end.

Definition token_value (t : OffsetToken) : list byte := dec_digits TOKEN_WIDTH (record_offset t).

(** ** Commands and results *)
Record Producer := { pr_producer_id : string; pr_epoch : Z; pr_seq : Z }.

#[export] Instance Producer_eq_dec : EqDecision Producer.
Proof. solve_decision. Defined.

Definition producer_new (producer_id : string) (epoch seq : Z) : result Producer ServiceError :=
  if bool_decide (as_bytes producer_id = []) then
    Err (with_message KBadRequest None false (txt "producerId must not be empty" [] []))
  else Ok {| pr_producer_id := producer_id; pr_epoch := epoch; pr_seq := seq |}.

Record StreamRecord := { rec_offset : OffsetToken; rec_payload : list byte }.

Record CreateCommand := {
  cc_name : string;
  cc_content_type : string;
  cc_ttl_seconds : option Z;
  cc_expires_at_ms : option Z;
  cc_closed : bool;
  cc_initial_payload : list byte;
}.

Definition validate_create (c : CreateCommand) : result unit ServiceError :=
  match cc_ttl_seconds c, cc_expires_at_ms c with
  | Some _, Some _ =>
      Err (with_message KBadRequest None false (txt "ttlSeconds and expiresAt are mutually exclusive" [] []))
  | _, _ => Ok tt
  end.

Record AppendCommand := {
  ac_name : string;
  ac_payloads : list (list byte);
  ac_content_type : option string;
  ac_stream_seq : option string;
  ac_match_seq : option Z;
  ac_producer : option Producer;
  ac_close_after : bool;
  ac_atomic : bool;
}.
#[export] Instance AppendCommand_eta : RecordEta AppendCommand := λ c,
  Build_AppendCommand (ac_name c) (ac_payloads c) (ac_content_type c) (ac_stream_seq c) (ac_match_seq c)
    (ac_producer c) (ac_close_after c) (ac_atomic c).

Definition normalized (c : AppendCommand) : AppendCommand :=
  if bool_decide (ac_stream_seq c = Some EmptyString) then c <| ac_stream_seq := None |> else c.

Definition payload_len (c : AppendCommand) : nat := sum_list (length <$> ac_payloads c).

Record AppendResult := {
  ar_next_offset : OffsetToken;
  ar_applied : bool;
  ar_closed : bool;
  ar_producer_epoch : option Z;
  ar_producer_seq : option Z;
}.

#[export] Instance AppendResult_eq_dec : EqDecision AppendResult.
Proof. solve_decision. Defined.

Record ReadResult := {
  rd_records : list StreamRecord;
  rd_content_type : string;
  rd_next_offset : OffsetToken;
  rd_up_to_date : bool;
  rd_closed : bool;
}.

Definition concatenated (r : ReadResult) : list byte := mjoin (rec_payload <$> rd_records r).

Record StreamMeta := {
  me_name : string;
  me_stream_id : Z;
  me_content_type : string;
  me_ttl_seconds : option Z;
  me_expires_at_ms : option Z;
  me_start_offset : OffsetToken;
  me_next_offset : OffsetToken;
  me_submitted_offset : OffsetToken;
  me_closed : bool;
}.

Record CreateResult := { cr_created : bool; cr_meta : StreamMeta }.
Record StreamList := { sl_streams : list StreamMeta; sl_has_more : bool }.

Record Owner := {
  ow_stream_id : option Z;
  ow_local : bool;
  ow_owner_node_id : option Z;
  ow_owner_advertised_address : option string;
}.

Definition owner_local (stream_id : option Z) : Owner := {|
  ow_stream_id := stream_id; ow_local := true; ow_owner_node_id := None;
  ow_owner_advertised_address := None |}.
Definition owner_remote (stream_id owner_node_id : Z) (address : string) : Owner := {|
  ow_stream_id := Some stream_id; ow_local := false; ow_owner_node_id := Some owner_node_id;
  ow_owner_advertised_address := Some address |}.

(** ** Big-endian readers *)
Definition get_uint_be {E} (e : E) (n : nat) : Dec E Z := dmap be_val (get_slice e n).

(** ** Atomic batches: framing.rs *)
Definition FRAME_VERSION : Z := 1.

Definition encode_frames (records : list (list byte)) : list byte :=
  put_u8 FRAME_VERSION ++ put_i32 (wrap_i32 (Z.of_nat (length records))) ++
  concat ((λ record, put_i32 (wrap_i32 (Z.of_nat (length record))) ++ record) <$> records).

Definition frame_truncated : ServiceError :=
  with_message KBadRequest None false (txt "batch frame truncated" [] []).

Definition get_frame : Dec ServiceError (list byte) :=
  len <~ dmap wrap_i32 (get_uint_be frame_truncated 4) ;;
  if len <? 0 then dfail frame_truncated else get_slice frame_truncated (Z.to_nat len).

Definition decode_frames (body : list byte) (expected_count : Z) :
    result (list (list byte)) ServiceError :=
  if (length body <? 5)%nat then Err frame_truncated
  else
    let? header := (version <~ get_uint_be frame_truncated 1 ;;
                    count <~ dmap wrap_i32 (get_uint_be frame_truncated 4) ;;
                    dret (version, count)) body in
    let '(version, count, buf) := header in
    if negb (version =? FRAME_VERSION) then
      Err (with_message KBadRequest None false (txt "unknown batch frame version {}" [version] []))
    else if (count <? 0) || negb (wrap_u32 count =? expected_count) then
      Err (with_message KBadRequest None false
        (txt "batch frame count {} does not match batch count {}" [count; expected_count] []))
    else
      let? frames := get_many (Z.to_nat count) get_frame buf in
      match frames with
      | (out, []) => Ok out
      | (_, _) => Err (with_message KBadRequest None false (txt "trailing bytes after batch frames" [] []))
      end.

(** ** Content types *)

(** The bytes of the [White_Space] character a text starts with, or 0; the
    second function reads the text backwards. *)
Definition ws_front (bs : list byte) : nat :=
  match byte_val <$> take 3 bs with
  | a :: r =>
      if ((9 <=? a) && (a <=? 13)) || (a =? 32) then 1
      else
        match r with
        | b :: r =>
            if (a =? 194) && ((b =? 133) || (b =? 160)) then 2
            else
              match r with
              | [c] =>
                  if ((a =? 225) && (b =? 154) && (c =? 128)) ||
                     ((a =? 226) && (b =? 128) &&
                        (((128 <=? c) && (c <=? 138)) || (c =? 168) || (c =? 169) || (c =? 175))) ||
                     ((a =? 226) && (b =? 129) && (c =? 159)) ||
                     ((a =? 227) && (b =? 128) && (c =? 128)) then 3 else 0
              | _ => 0
              end
        | [] => 0
        end
  | [] => 0
  end.

Definition ws_back (rev : list byte) : nat :=
  if (ws_front (take 1 rev) =? 1)%nat then 1
  else if (ws_front (reverse (take 2 rev)) =? 2)%nat then 2
  else if (ws_front (reverse (take 3 rev)) =? 3)%nat then 3 else 0.

Fixpoint strip (fuel : nat) (ws : list byte → nat) (bs : list byte) : list byte :=
  match fuel with
  | O => bs
  | S fuel => match ws bs with O => bs | n => strip fuel ws (drop n bs) end
  end.

Definition trim (bs : list byte) : list byte :=
  let bs := strip (length bs) ws_front bs in reverse (strip (length bs) ws_back (reverse bs)).

Definition to_ascii_lowercase (b : byte) : byte :=
  let v := byte_val b in if (65 <=? v) && (v <=? 90) then byte_of (v + 32) else b.

Definition mime_of (content_type : option string) : list byte :=
  match content_type with
  | None => []
  | Some ct =>
      to_ascii_lowercase <$> trim (take_while (λ b, negb (bool_decide (b = x3b))) (as_bytes ct))
  end.

Definition is_json (mime : list byte) : bool :=
  bool_decide (mime = as_bytes "application/json") ||
  bool_decide (as_bytes "+json" `suffix_of` mime).

Definition mime_equals (a b : option string) : bool := bool_decide (mime_of a = mime_of b).

(** ** Registry entries: registry.rs *)
Record ProducerState := { ps_epoch : Z; ps_last_seq : Z }.
Record ClosedBy := { cb_producer_id : string; cb_epoch : Z; cb_seq : Z }.

#[export] Instance ProducerState_eq_dec : EqDecision ProducerState.
Proof. solve_decision. Defined.
#[export] Instance ClosedBy_eq_dec : EqDecision ClosedBy.
Proof. solve_decision. Defined.

Record RegistryEntry := {
  re_stream_id : Z;
  re_content_type : string;
  re_ttl_seconds : option Z;
  re_expires_at_ms : option Z;
  re_closed : bool;
  re_deadline_ms : Z;
  re_last_seq : option string;
  re_producers : gmap string ProducerState;
  re_closed_by : option ClosedBy;
}.
#[export] Instance RegistryEntry_eta : RecordEta RegistryEntry := λ e,
  Build_RegistryEntry (re_stream_id e) (re_content_type e) (re_ttl_seconds e) (re_expires_at_ms e)
    (re_closed e) (re_deadline_ms e) (re_last_seq e) (re_producers e) (re_closed_by e).

#[export] Instance RegistryEntry_eq_dec : EqDecision RegistryEntry.
Proof. solve_decision. Defined.

Definition entry_close (by_ : option ClosedBy) (e : RegistryEntry) : RegistryEntry :=
  let e := e <| re_closed := true |> in
  match by_ with Some _ => e <| re_closed_by := by_ |> | None => e end.

Definition with_last_seq (seq : string) (e : RegistryEntry) : RegistryEntry :=
  e <| re_last_seq := Some seq |>.
Definition with_deadline (deadline_ms : Z) (e : RegistryEntry) : RegistryEntry :=
  e <| re_deadline_ms := deadline_ms |>.
Definition with_producer (id : string) (epoch seq : Z) (e : RegistryEntry) : RegistryEntry :=
  e <| re_producers := <[id := {| ps_epoch := epoch; ps_last_seq := seq |}]> (re_producers e) |>.

(** *** The stored form *)
Definition put_text (s : string) : list byte :=
  put_i32 (wrap_i32 (Z.of_nat (length (as_bytes s)))) ++ as_bytes s.
Definition put_flag (b : bool) : list byte := put_u8 (if b then 1 else 0).

Definition put_producer (p : string * ProducerState) : list byte :=
  put_text p.1 ++ put_i64 (wrap_i64 (ps_epoch p.2)) ++ put_i64 (wrap_i64 (ps_last_seq p.2)).

Definition encode (e : RegistryEntry) : list byte :=
  put_u8 1 ++ put_i64 (wrap_i64 (re_stream_id e)) ++ put_text (re_content_type e) ++
  put_flag (bool_decide (is_Some (re_ttl_seconds e))) ++
  put_i64 (wrap_i64 (default 0 (re_ttl_seconds e))) ++
  put_flag (bool_decide (is_Some (re_expires_at_ms e))) ++
  put_i64 (default 0 (re_expires_at_ms e)) ++
  put_flag (re_closed e) ++ put_i64 (re_deadline_ms e) ++
  put_text (default EmptyString (re_last_seq e)) ++
  put_flag (bool_decide (is_Some (re_closed_by e))) ++
  match re_closed_by e with
  | Some c => put_text (cb_producer_id c) ++ put_i64 (wrap_i64 (cb_epoch c)) ++ put_i64 (wrap_i64 (cb_seq c))
  | None => []
  end ++
  put_i32 (wrap_i32 (Z.of_nat (size (re_producers e)))) ++
  concat (put_producer <$> ord_list (re_producers e)).

Definition corrupt (m : string) : ServiceError := with_message KBadRequest None false (txt m [] []).
Definition entry_truncated : ServiceError := corrupt "registry entry truncated".

Definition get_u8 : Dec ServiceError Z := get_uint_be entry_truncated 1.
Definition get_i32 : Dec ServiceError Z := dmap wrap_i32 (get_uint_be entry_truncated 4).
Definition get_i64 : Dec ServiceError Z := dmap wrap_i64 (get_uint_be entry_truncated 8).
Definition get_flag : Dec ServiceError bool := dmap (λ z, z =? 1) get_u8.
(** [get_i64(..)? as u64] *)
Definition get_i64_u64 : Dec ServiceError Z := dmap wrap_u64 get_i64.

Definition get_text : Dec ServiceError string :=
  len <~ get_i32 ;;
  if len <? 0 then dfail (corrupt "negative length")
  else
    bs <~ get_slice entry_truncated (Z.to_nat len) ;;
    if utf8_valid bs then dret (of_bytes bs) else dfail (corrupt "invalid UTF-8").

Definition get_producer : Dec ServiceError (string * ProducerState) :=
  id <~ get_text ;; epoch <~ get_i64_u64 ;; last_seq <~ get_i64_u64 ;;
  dret (id, {| ps_epoch := epoch; ps_last_seq := last_seq |}).

Definition get_closed_by : Dec ServiceError (option ClosedBy) :=
  flag <~ get_flag ;;
  if flag : bool then
    producer_id <~ get_text ;; epoch <~ get_i64_u64 ;; seq <~ get_i64_u64 ;;
    dret (Some {| cb_producer_id := producer_id; cb_epoch := epoch; cb_seq := seq |})
  else dret None.

Definition then_some {A} (flag : bool) (a : A) : option A := if flag then Some a else None.

Definition get_entry_bytes : Dec ServiceError RegistryEntry :=
  version <~ get_u8 ;;
  if negb (version =? 1) then
    dfail (with_message KBadRequest None false (txt "unknown registry entry version {}" [version] []))
  else
    stream_id <~ get_i64_u64 ;; content_type <~ get_text ;;
    ttl_flag <~ get_flag ;; ttl_raw <~ get_i64 ;;
    expires_flag <~ get_flag ;; expires_raw <~ get_i64 ;;
    closed <~ get_flag ;; deadline_ms <~ get_i64 ;; last_seq_raw <~ get_text ;;
    closed_by <~ get_closed_by ;;
    count <~ get_i32 ;; producers <~ get_many (Z.to_nat count) get_producer ;;
    dret {| re_stream_id := stream_id; re_content_type := content_type;
            re_ttl_seconds := then_some ttl_flag (wrap_u64 ttl_raw);
            re_expires_at_ms := then_some expires_flag expires_raw; re_closed := closed;
            re_deadline_ms := deadline_ms;
            re_last_seq := then_some (negb (bool_decide (as_bytes last_seq_raw = []))) last_seq_raw;
            re_producers := foldl (λ m p, <[p.1 := p.2]> m) ∅ producers;
            re_closed_by := closed_by |}.

Definition decode (bytes : list byte) : result RegistryEntry ServiceError :=
  let? out := get_entry_bytes bytes in Ok out.1.

(** *** The producer table *)
Inductive ProducerDecision :=
| Accepted (epoch seq : Z)
| Duplicate (last_seq : Z)
| StaleEpoch (current_epoch : Z)
| InvalidEpochSeq
| SequenceGap (expected received : Z).

(** [last_seq + 1] is only computed behind [last_seq < seq]. *)
Definition validate_producer (entry : RegistryEntry) (p : Producer) : ProducerDecision :=
  match re_producers entry !! pr_producer_id p with
  | None => if negb (pr_seq p =? 0) then InvalidEpochSeq else Accepted (pr_epoch p) (pr_seq p)
  | Some st =>
      if pr_epoch p <? ps_epoch st then StaleEpoch (ps_epoch st)
      else if ps_epoch st <? pr_epoch p then
        if negb (pr_seq p =? 0) then InvalidEpochSeq else Accepted (pr_epoch p) (pr_seq p)
      else if pr_seq p <=? ps_last_seq st then Duplicate (ps_last_seq st)
      else if pr_seq p =? ps_last_seq st + 1 then Accepted (pr_epoch p) (pr_seq p)
      else SequenceGap (ps_last_seq st + 1) (pr_seq p)
  end.

(** ** Reading back *)
Lemma decodes_uint_be {E} (e : E) n z :
  0 <= z < 256 ^ Z.of_nat n → decodes (get_uint_be e n) z (be_bytes n z).
Proof.
  intros Hz. unfold get_uint_be.
  rewrite <-(Z.mod_small z (256 ^ Z.of_nat n) Hz) at 1. rewrite <-be_val_bytes.
  apply decodes_map, decodes_slice, length_be_bytes.
Qed.

Lemma be_bytes_mod n z : be_bytes n (z mod 256 ^ Z.of_nat n) = be_bytes n z.
Proof. unfold be_bytes. by rewrite le_bytes_mod. Qed.

Lemma decodes_i32 {E} (e : E) z :
  is_i32 z → decodes (dmap wrap_i32 (get_uint_be e 4)) z (put_i32 z).
Proof.
  intros Hz. rewrite <-(wrap_i32_unsigned z Hz) at 1. unfold put_i32. rewrite <-(be_bytes_mod 4 z).
  apply decodes_map, (decodes_uint_be e 4). apply Z.mod_pos_bound. lia.
Qed.

Lemma decodes_i64 {E} (e : E) z :
  is_i64 z → decodes (dmap wrap_i64 (get_uint_be e 8)) z (put_i64 z).
Proof.
  intros Hz. rewrite <-(wrap_i64_unsigned z Hz) at 1. unfold put_i64. rewrite <-(be_bytes_mod 8 z).
  apply decodes_map, (decodes_uint_be e 8). apply Z.mod_pos_bound. lia.
Qed.

(** A length below 2 GiB is written as it is. *)
Definition fits_i32 {A} (l : list A) : Prop := Z.of_nat (length l) < two31.

Lemma wrap_i32_length {A} (l : list A) : fits_i32 l → wrap_i32 (Z.of_nat (length l)) = Z.of_nat (length l).
Proof. intros H. apply wrap_i32_id. unfold fits_i32 in H. int_lia. Qed.

Lemma decodes_length {E A} (e : E) (l : list A) :
  fits_i32 l →
  decodes (dmap wrap_i32 (get_uint_be e 4)) (Z.of_nat (length l)) (put_i32 (wrap_i32 (Z.of_nat (length l)))).
Proof. intros H. rewrite wrap_i32_length by done. apply decodes_i32. unfold fits_i32 in H. int_lia. Qed.

Lemma decodes_frame r :
  fits_i32 r → decodes get_frame r (put_i32 (wrap_i32 (Z.of_nat (length r))) ++ r).
Proof.
  intros H. unfold get_frame. eapply decodes_bind; [by apply decodes_length|]. cbn beta.
  destruct (Z.ltb_spec (Z.of_nat (length r)) 0); [lia|]. apply decodes_slice. by rewrite Nat2Z.id.
Qed.

(** Frames of one batch come back as they were written, and only under the
    batch's own count. *)
Lemma frames_roundtrip records :
  fits_i32 records → Forall fits_i32 records →
  decode_frames (encode_frames records) (Z.of_nat (length records)) = Ok records.
Proof.
  intros Hn Hr. unfold decode_frames.
  assert (Hlen : (length (encode_frames records) <? 5)%nat = false).
  { apply Nat.ltb_ge. unfold encode_frames. rewrite !length_app.
    change (length (put_u8 FRAME_VERSION)) with 1%nat. unfold put_i32. rewrite length_be_bytes. lia. }
  rewrite Hlen. unfold encode_frames.
  assert (Hh : decodes (E:=ServiceError) (version <~ get_uint_be frame_truncated 1 ;;
                count <~ dmap wrap_i32 (get_uint_be frame_truncated 4) ;; dret (version, count))
                (FRAME_VERSION, Z.of_nat (length records))
                (put_u8 FRAME_VERSION ++ put_i32 (wrap_i32 (Z.of_nat (length records))))).
  { eapply decodes_bind; [apply (decodes_uint_be _ 1 1); lia|]. cbn beta.
    eapply decodes_bind_nil; [by apply decodes_length|]. apply decodes_ret. }
  rewrite app_assoc, Hh. cbn [rbind].
  change (negb (FRAME_VERSION =? FRAME_VERSION)) with false. cbn iota.
  rewrite wrap_u32_id by (unfold fits_i32 in Hn; int_lia). rewrite Z.eqb_refl.
  destruct (Z.ltb_spec (Z.of_nat (length records)) 0); [lia|]. cbn [orb negb].
  rewrite Nat2Z.id.
  pose proof (decodes_many get_frame
    (λ r, put_i32 (wrap_i32 (Z.of_nat (length r))) ++ r) records) as Hm.
  rewrite <-(app_nil_r (concat _)), Hm; [done|]. intros a Ha. apply decodes_frame. rewrite Forall_forall in Hr. auto.
Qed.

(** The values the encoding keeps: machine integers in range, valid UTF-8
    below 2 GiB, no empty sequence text, and a timestamp where there is one. *)
Definition text_ok (s : string) : Prop := utf8_valid (as_bytes s) = true ∧ fits_i32 (as_bytes s).

Record entry_typed (e : RegistryEntry) : Prop := {
  et_stream_id : is_u64 (re_stream_id e);
  et_content_type : text_ok (re_content_type e);
  et_ttl : ∀ ttl, re_ttl_seconds e = Some ttl → is_u64 ttl;
  et_expires : ∀ at_ms, re_expires_at_ms e = Some at_ms → is_i64 at_ms;
  et_deadline : is_i64 (re_deadline_ms e);
  et_last_seq : ∀ s, re_last_seq e = Some s → text_ok s ∧ as_bytes s ≠ [];
  et_closed_by : ∀ c, re_closed_by e = Some c →
    text_ok (cb_producer_id c) ∧ is_u64 (cb_epoch c) ∧ is_u64 (cb_seq c);
  et_producers : ∀ id p, re_producers e !! id = Some p →
    text_ok id ∧ is_u64 (ps_epoch p) ∧ is_u64 (ps_last_seq p);
  et_count : Z.of_nat (size (re_producers e)) < two31;
}.

Lemma decodes_text s : text_ok s → decodes get_text s (put_text s).
Proof.
  intros [Hv Hl]. unfold get_text, put_text. eapply decodes_bind; [by apply decodes_length|]. cbn beta.
  destruct (Z.ltb_spec (Z.of_nat (length (as_bytes s))) 0); [lia|].
  eapply decodes_bind_nil; [apply decodes_slice; by rewrite Nat2Z.id|]. cbn beta.
  rewrite Hv, of_as_bytes. apply decodes_ret.
Qed.

Lemma decodes_flag b : decodes get_flag b (put_flag b).
Proof.
  replace b with ((if b then 1 else 0) =? 1) at 1 by (by destruct b).
  apply (decodes_map (λ z, z =? 1)). destruct b; [apply (decodes_uint_be _ 1 1)|apply (decodes_uint_be _ 1 0)]; lia.
Qed.

Lemma decodes_get_i64 z : is_i64 z → decodes get_i64 z (put_i64 z).
Proof. apply decodes_i64. Qed.

Lemma wrap_u64_i64 z : is_u64 z → wrap_u64 (wrap_i64 z) = z.
Proof. intros H. unfold wrap_u64. rewrite wrap_i64_mod. by apply wrap_u64_id. Qed.

Lemma decodes_i64_u64 z : is_u64 z → decodes get_i64_u64 z (put_i64 (wrap_i64 z)).
Proof.
  intros H. rewrite <-(wrap_u64_i64 z H) at 1. apply decodes_map, decodes_i64, wrap_i64_is_i64.
Qed.

Lemma decodes_producer p :
  text_ok p.1 ∧ is_u64 (ps_epoch p.2) ∧ is_u64 (ps_last_seq p.2) →
  decodes get_producer p (put_producer p).
Proof.
  intros (? & ? & ?). destruct p as [id []]. unfold get_producer, put_producer. cbn in *.
  eapply decodes_bind; [by apply decodes_text|]. eapply decodes_bind; [by apply decodes_i64_u64|].
  eapply decodes_bind_nil; [by apply decodes_i64_u64|]. apply decodes_ret.
Qed.

Lemma decodes_closed_by c :
  (∀ x, c = Some x → text_ok (cb_producer_id x) ∧ is_u64 (cb_epoch x) ∧ is_u64 (cb_seq x)) →
  decodes get_closed_by c
    (put_flag (bool_decide (is_Some c)) ++
     match c with
     | Some c => put_text (cb_producer_id c) ++ put_i64 (wrap_i64 (cb_epoch c)) ++ put_i64 (wrap_i64 (cb_seq c))
     | None => []
     end).
Proof.
  intros Hc. unfold get_closed_by. eapply decodes_bind; [apply decodes_flag|]. cbn beta.
  destruct c as [[id ep seq]|]; [|apply decodes_ret]. destruct (Hc _ eq_refl) as (? & ? & ?). cbn in *.
  eapply decodes_bind; [by apply decodes_text|]. eapply decodes_bind; [by apply decodes_i64_u64|].
  eapply decodes_bind_nil; [by apply decodes_i64_u64|]. apply decodes_ret.
Qed.

Create HintDb registry.
#[export] Hint Resolve decodes_text decodes_flag decodes_get_i64 decodes_i64_u64 decodes_closed_by : registry.

(** The producer list rebuilds the map. *)
Lemma decodes_producers (m : gmap string ProducerState) :
  Z.of_nat (size m) < two31 →
  (∀ id p, m !! id = Some p → text_ok id ∧ is_u64 (ps_epoch p) ∧ is_u64 (ps_last_seq p)) →
  decodes get_i32 (Z.of_nat (size m)) (put_i32 (wrap_i32 (Z.of_nat (size m)))) ∧
  decodes (get_many (Z.to_nat (Z.of_nat (size m))) get_producer) (ord_list m)
    (concat (put_producer <$> ord_list m)) ∧
  foldl (λ m p, <[p.1 := p.2]> m) ∅ (ord_list m) = m.
Proof.
  intros Hs Hm. rewrite <-length_ord_list in *. split; [by apply decodes_length|].
  split; [|apply foldl_insert_ord_list]. rewrite Nat2Z.id. apply decodes_many.
  intros [id p] Hp%elem_of_ord_list. apply decodes_producer, (Hm _ _ Hp).
Qed.

Lemma decode_encode e : entry_typed e → decode (encode e) = Ok e.
Proof.
  intros [H1 H2 H3 H4 H5 H6 H7 H8 H9].
  destruct (decodes_producers _ H9 H8) as (Hn & Hmany & Hmap).
  assert (Hd : decodes get_entry_bytes e (encode e)).
  { unfold get_entry_bytes, encode. eapply decodes_bind; [apply (decodes_uint_be _ 1 1); lia|].
    cbn [Z.eqb negb Pos.eqb].
    do 2 (eapply decodes_bind; [by eauto with registry|]; cbn beta).
    eapply decodes_bind; [by eauto with registry|]. eapply decodes_bind; [apply decodes_get_i64, wrap_i64_is_i64|].
    eapply decodes_bind; [by eauto with registry|].
    eapply decodes_bind; [apply decodes_get_i64; destruct (re_expires_at_ms e); cbn; [by apply H4|int_lia]|].
    do 2 (eapply decodes_bind; [by eauto with registry|]; cbn beta).
    eapply (decodes_bind _ _ (default EmptyString (re_last_seq e)));
      [apply decodes_text; destruct (re_last_seq e); cbn; [by apply H6|by split]|].
    rewrite app_assoc. eapply decodes_bind; [by eauto with registry|]. cbn beta.
    eapply decodes_bind; [exact Hn|]. eapply decodes_bind_nil; [exact Hmany|]. cbn beta.
    rewrite Hmap.
    match goal with |- decodes (dret ?x) ?y [] => replace x with y; [apply decodes_ret|] end.
    destruct e as [? ? ttl expires ? ? seq ? ?]; cbn in *. f_equal.
    - destruct ttl as [t|]; [|done]. cbn. by rewrite wrap_u64_i64 by auto.
    - by destruct expires.
    - destruct seq as [q|]; [|done]. destruct (H6 _ eq_refl) as [_ Hq]. cbn. by rewrite bool_decide_false. }
  unfold decode. rewrite <-(app_nil_r (encode e)), Hd. done.
Qed.

(** C21: A registry entry that is written to the metadata KV is read back
    unchanged: the stream id, the close marker and the state of every
    producer survive a restart of the server. *)
Theorem registry_entry_roundtrip e : entry_typed e → decode (encode e) = Ok e.
Proof. apply decode_encode. Qed.

Lemma registry_entry_roundtrip_witness :
  let e := {| re_stream_id := 7; re_content_type := "application/json"; re_ttl_seconds := Some 60;
              re_expires_at_ms := None; re_closed := true; re_deadline_ms := 12345;
              re_last_seq := Some "seq-9"%string;
              re_producers := <["p1"%string := {| ps_epoch := 2; ps_last_seq := 41 |}]> ∅;
              re_closed_by := Some {| cb_producer_id := "p1"; cb_epoch := 2; cb_seq := 41 |} |} in
  decode (encode e) = Ok e.
Proof.
  apply registry_entry_roundtrip. split; cbn; unfold text_ok, fits_i32; try int_lia.
  - split; [by vm_compute|vm_compute; done].
  - intros ? [= <-]. int_lia.
  - intros ? [=].
  - intros ? [= <-]. split; [split; vm_compute; done|by vm_compute].
  - intros ? [= <-]. cbn. split; [split; vm_compute; done|int_lia].
  - intros ? ? [[<- <-]|[_ []%lookup_empty_Some]]%lookup_insert_Some. cbn. split; [split; vm_compute; done|int_lia].
  - by vm_compute.
Defined.

(** ** Tokens keep their order *)

(** The order of [str]: byte by byte. *)
Fixpoint bytes_lt (a b : list byte) : Prop :=
  match a, b with
  | _, [] => False
  | [], _ :: _ => True
  | x :: a, y :: b => byte_val x < byte_val y ∨ x = y ∧ bytes_lt a b
  end.

Lemma bytes_lt_snoc a b x y :
  length a = length b → bytes_lt (a ++ [x]) (b ++ [y]) ↔ bytes_lt a b ∨ a = b ∧ byte_val x < byte_val y.
Proof.
  revert b. induction a as [|u a IH]; intros [|v b] Hl; try done; cbn.
  - split; [intros [|[]]; auto|intros [[]|[]]; auto].
  - rewrite IH by (cbn in Hl; lia). split.
    + intros [|[-> [|[-> ?]]]]; auto.
    + intros [[|[-> ?]]|[[= -> ->] ?]]; auto.
Qed.

Lemma length_dec_digits n z : length (dec_digits n z) = n.
Proof. revert z. induction n as [|n IH]; intros z; [done|]. cbn. rewrite length_app, IH. cbn. lia. Qed.

Lemma digit_byte z : byte_val (byte_of (48 + z mod 10)) = 48 + z mod 10.
Proof. rewrite byte_val_of. apply Z.mod_small. pose proof (Z.mod_pos_bound z 10). lia. Qed.

Lemma dec_digits_lt n a b :
  0 <= a < 10 ^ Z.of_nat n → 0 <= b < 10 ^ Z.of_nat n →
  (bytes_lt (dec_digits n a) (dec_digits n b) ↔ a < b) ∧ (dec_digits n a = dec_digits n b → a = b).
Proof.
  revert a b. induction n as [|n IH]; intros a b Ha Hb; [cbn in *; split; [split; [done|lia]|lia]|].
  rewrite Nat2Z.inj_succ, Z.pow_succ_r in Ha, Hb by lia.
  destruct (IH (a / 10) (b / 10)) as [H1 H2];
    [split; [apply Z.div_pos; lia|apply Z.div_lt_upper_bound; lia]..|].
  pose proof (Z.div_mod a 10) as Da. pose proof (Z.div_mod b 10) as Db.
  pose proof (Z.mod_pos_bound a 10). pose proof (Z.mod_pos_bound b 10).
  cbn [dec_digits]. rewrite bytes_lt_snoc by (by rewrite !length_dec_digits).
  rewrite !digit_byte, H1. split.
  - split; [intros [?|[E%H2 ?]]; lia|].
    intros Hlt. destruct (Z.lt_ge_cases (a / 10) (b / 10)); [by left|].
    assert (a / 10 = b / 10) as -> by lia. right. split; [done|lia].
  - intros [E%H2 [= E2]]%app_inj_tail. apply (f_equal byte_val) in E2. rewrite !digit_byte in E2. lia.
Qed.

Lemma parse_dec_digits n z tail acc :
  0 <= z < 10 ^ Z.of_nat n → 0 <= acc → acc * 10 ^ Z.of_nat n + z < two64 →
  parse_digits acc (dec_digits n z ++ tail) = parse_digits (acc * 10 ^ Z.of_nat n + z) tail.
Proof.
  revert z tail. induction n as [|n IH]; intros z tail Hz Hacc Hlt.
  - cbn in *. f_equal. lia.
  - rewrite Nat2Z.inj_succ, Z.pow_succ_r in * by lia.
    pose proof (Z.div_mod z 10 ltac:(lia)). pose proof (Z.mod_pos_bound z 10 ltac:(lia)).
    assert (0 <= z / 10 < 10 ^ Z.of_nat n)
      by (split; [apply Z.div_pos; lia|apply Z.div_lt_upper_bound; lia]).
    cbn [dec_digits]. rewrite <-app_assoc. cbn [app]. rewrite IH by nia.
    cbn [parse_digits]. unfold digit_val. rewrite digit_byte. cbn zeta.
    destruct (Z.leb_spec 0 (48 + z mod 10 - 48)); [|lia].
    destruct (Z.leb_spec (48 + z mod 10 - 48) 9); [|lia]. cbn [andb].
    replace ((acc * 10 ^ Z.of_nat n + z / 10) * 10 + (48 + z mod 10 - 48))
      with (acc * (10 * 10 ^ Z.of_nat n) + z) by lia.
    by destruct (Z.ltb_spec (acc * (10 * 10 ^ Z.of_nat n) + z) two64); [|lia].
Qed.

Lemma dec_digits_head n z b bs : dec_digits (S n) z = b :: bs → 48 <= byte_val b <= 57.
Proof.
  revert z b bs. induction n as [|n IH]; intros z b bs H.
  - injection H as <- _. rewrite digit_byte. pose proof (Z.mod_pos_bound z 10). lia.
  - cbn [dec_digits] in H. destruct (dec_digits n (z / 10 / 10) ++ _) as [|b' bs'] eqn:E.
    + by destruct (dec_digits n _).
    + injection H as -> _. by eapply (IH (z / 10)).
Qed.

Lemma u64_below_pow20 z : is_u64 z → 0 <= z < 10 ^ Z.of_nat TOKEN_WIDTH.
Proof. intros H. change (10 ^ Z.of_nat TOKEN_WIDTH) with 100000000000000000000. int_lia. Qed.

(** Offset tokens order like offsets: the text of one token precedes that
    of another exactly when its offset is smaller, and the token of every
    offset below [2^63] parses back to itself. *)
Theorem tokens_order_and_parse a b :
  is_u64 a → is_u64 b →
  (bytes_lt (token_value (of_record_offset a)) (token_value (of_record_offset b)) ↔ a < b) ∧
  (a < two63 →
     parse_token (Some (of_bytes (token_value (of_record_offset a)))) = Ok (of_record_offset a)).
Proof.
  intros Ha Hb. split.
  { by apply dec_digits_lt; apply u64_below_pow20. }
  intros Hlt. unfold parse_token. rewrite as_of_bytes.
  assert (Hp : parse_digits 0 (token_value (of_record_offset a)) = Some a).
  { rewrite <-(app_nil_r (token_value _)). unfold token_value. cbn [record_offset].
    rewrite parse_dec_digits; [cbn; f_equal; lia|by apply u64_below_pow20|lia|int_lia]. }
  destruct (token_value (of_record_offset a)) as [|c bs] eqn:E.
  { apply (f_equal length) in E. unfold token_value in E. by rewrite length_dec_digits in E. }
  pose proof (dec_digits_head 19 a c bs E) as Hc.
  assert (Hne : ∀ x, byte_val x < 48 → c ≠ x) by (intros x Hx ->; lia).
  rewrite bool_decide_false, bool_decide_false; [|done|].
  - unfold parse_i64.
    rewrite !(bool_decide_false (c = _)) by (apply Hne; vm_compute; reflexivity).
    unfold parse_u64. rewrite (bool_decide_false (c = _)) by (apply Hne; vm_compute; reflexivity).
    rewrite Hp. cbn [mbind option_bind]. destruct (Z.ltb_spec a two63); [|lia].
    by destruct (Z.ltb_spec a 0); [int_lia|].
  - intros E1%(f_equal as_bytes). rewrite as_of_bytes in E1. vm_compute in E1. injection E1 as E1 _.
    revert E1. apply Hne. by vm_compute.
Qed.

Lemma tokens_order_and_parse_witness :
  (bytes_lt (token_value (of_record_offset 9)) (token_value (of_record_offset 10)) ↔ 9 < 10) ∧
  (9 < two63 →
     parse_token (Some (of_bytes (token_value (of_record_offset 9)))) = Ok (of_record_offset 9)).
Proof. apply (tokens_order_and_parse 9 10); int_lia. Defined.
