(* ===== verification/Server.v ===== *)
(** * The named-stream service

    [pico-server/src]: the waiter registry (waiter.rs), the tail cache and
    every operation of [S3StreamService] (service.rs), ownership
    (ownership.rs), the transfer watcher (transfer.rs) and the request of a
    transfer (node.rs). An operation is a program over events: one event per
    [await], per critical section of a mutex and per call of another
    component, so that the text of a definition follows the text of the
    function and a suspension point is where the program stops. [exec] says
    what an event does; tasks, dropped callers, the completion of appends and
    the commands of other nodes are the actions of a world, and a run is any
    list of actions. JSON comes from the [serde_json] crate and is a
    parameter: [json body] is the parsed body, an array as the list of its
    serialized items. *)

From Stdlib Require Import ZArith Lia.
From Stdlib Require Import Strings.Byte.
From stdpp Require Import base numbers list gmap sorting strings.
From S2P Require Import Prelude StreamTypes RecordCodec MetaState MetaApply MetaQuery MetaService.
From S2P Require Import Storage StreamFacade ServerTypes.

Open Scope Z_scope.
Open Scope rust_scope.

(** ** Programs *)
Inductive prog (E : Set → Type) (A : Set) : Type :=
| Ret (a : A)
| Vis (X : Set) (e : E X) (k : X → prog E A).
#[global] Arguments Ret {E A} a.
#[global] Arguments Vis {E A X} e k.

Fixpoint bind {E} {A B : Set} (p : prog E A) (f : A → prog E B) : prog E B :=
  match p with
  | Ret a => f a
  | Vis e k => Vis e (λ x, bind (k x) f)
  end.

Definition call {E} {X : Set} (e : E X) : prog E X := Vis e Ret.

Declare Scope prog_scope.
Delimit Scope prog_scope with prog.
Notation "x '<-' p ';;;' k" := (bind p (λ x, k))
  (at level 100, p at next level, right associativity) : prog_scope.
Notation "' x '<-' p ';;;' k" := (bind p (λ x, k))
  (at level 100, x pattern, p at next level, right associativity) : prog_scope.
Notation "p ';;;' k" := (bind p (λ _, k)) (at level 100, right associativity) : prog_scope.

(** [let x = p?; k] *)
Definition bindq {E} {A B X : Set} (p : prog E (result A X)) (k : A → prog E (result B X)) :
    prog E (result B X) :=
  bind p (λ r, match r with Ok a => k a | Err e => Ret (Err e) end).
Notation "x '<-?' p ';;;' k" := (bindq p (λ x, k))
  (at level 100, p at next level, right associativity) : prog_scope.
Open Scope prog_scope.

(** ** The tail cache *)
Definition TAIL_MAX_BYTES : Z := 4 * 1024 * 1024.
Definition TAIL_MAX_RECORDS : nat := 4096.

Record TailCache := { tc_recent : list StreamRecord; tc_recent_bytes : Z }.

Definition tail_default : TailCache := {| tc_recent := []; tc_recent_bytes := 0 |}.

Definition tail_reset (t : TailCache) : TailCache := tail_default.

Fixpoint tail_push (offset : Z) (records : list (list byte)) (t : TailCache) : TailCache :=
  match records with
  | [] => t
  | bytes :: rest =>
      tail_push (wrap_u64 (offset + 1)) rest
        {| tc_recent := tc_recent t ++ [{| rec_offset := of_record_offset offset; rec_payload := bytes |}];
           tc_recent_bytes := tc_recent_bytes t + Z.of_nat (length bytes) |}
  end.

(** The loop that drops the oldest records. *)
Fixpoint tail_evict (recent : list StreamRecord) (bytes : Z) : TailCache :=
  match recent with
  | [] => {| tc_recent := []; tc_recent_bytes := bytes |}
  | dropped :: rest =>
      if (TAIL_MAX_RECORDS <? length recent)%nat ||
         ((TAIL_MAX_BYTES <? bytes) && (1 <? length recent)%nat)
      then tail_evict rest (bytes - Z.of_nat (length (rec_payload dropped)))
      else {| tc_recent := recent; tc_recent_bytes := bytes |}
  end.

Definition record_append (base_offset : Z) (records : list (list byte)) (t : TailCache) : TailCache :=
  match records with
  | [] => t
  | _ =>
      let grown (t : TailCache) :=
        let t := tail_push base_offset records t in tail_evict (tc_recent t) (tc_recent_bytes t) in
      match last (tc_recent t) with
      | Some last =>
          let expected := record_offset (rec_offset last) + 1 in
          if base_offset <? expected then t
          else if expected <? base_offset then grown tail_default
          else grown t
      | None => grown t
      end
  end.

Definition tail_records (start : Z) (t : TailCache) : option (list StreamRecord) :=
  first ← head (tc_recent t);
  last ← last (tc_recent t);
  if (start <? record_offset (rec_offset first)) || (record_offset (rec_offset last) <? start) then None
  else Some (filter (λ r, start <= record_offset (rec_offset r)) (tc_recent t)).

(** ** Waiters *)

(** A waiter is known by its token; [sv_fired] holds the tokens whose sender
    was used. *)
Record Waiter := { wt_token : Z; wt_wait_offset : Z }.

(** ** The service *)
Record Service := {
  sv_open_streams : gmap Z nat;
  sv_local_epochs : gmap Z Z;
  sv_tails : gmap string TailCache;
  sv_entry_cache : gmap string RegistryEntry;
  sv_waiters : gmap string (list Waiter);
  sv_next_token : Z;
  sv_fired : gset Z;
  sv_incoming : gset Z;
}.
#[export] Instance Service_eta : RecordEta Service := λ s,
  Build_Service (sv_open_streams s) (sv_local_epochs s) (sv_tails s) (sv_entry_cache s) (sv_waiters s)
    (sv_next_token s) (sv_fired s) (sv_incoming s).

Definition service_new : Service := {|
  sv_open_streams := ∅; sv_local_epochs := ∅; sv_tails := ∅; sv_entry_cache := ∅; sv_waiters := ∅;
  sv_next_token := 0; sv_fired := ∅; sv_incoming := ∅ |}.

Definition tokens (queue : list Waiter) : gset Z := list_to_set (wt_token <$> queue).

Definition waiter_push (name : string) (w : Waiter) (s : Service) : Service :=
  s <| sv_waiters := <[name := default [] (sv_waiters s !! name) ++ [w]]> (sv_waiters s) |>.

(** The clean-up of a wait that timed out. *)
Definition waiter_remove (name : string) (token : Z) (s : Service) : Service :=
  match sv_waiters s !! name with
  | None => s
  | Some queue =>
      let queue := filter (λ w, wt_token w ≠ token) queue in
      s <| sv_waiters := match queue with [] => delete name (sv_waiters s)
                         | _ => <[name := queue]> (sv_waiters s) end |>
  end.

Definition notify_append (name : string) (next_record_offset : Z) (s : Service) : Service :=
  match sv_waiters s !! name with
  | None => s
  | Some queue =>
      let kept := filter (λ w, ¬ wt_wait_offset w < next_record_offset) queue in
      s <| sv_waiters := match kept with [] => delete name (sv_waiters s)
                         | _ => <[name := kept]> (sv_waiters s) end |>
        <| sv_fired := tokens (filter (λ w, wt_wait_offset w < next_record_offset) queue) ∪ sv_fired s |>
  end.

Definition notify_closed (name : string) (s : Service) : Service :=
  match sv_waiters s !! name with
  | None => s
  | Some queue =>
      s <| sv_waiters := delete name (sv_waiters s) |> <| sv_fired := tokens queue ∪ sv_fired s |>
  end.

Definition waiters_clear (s : Service) : Service :=
  s <| sv_waiters := ∅ |>
    <| sv_fired := list_to_set (wt_token <$> mjoin (map_to_list (sv_waiters s)).*2) ∪ sv_fired s |>.

Definition update_tail (name : string) (f : TailCache → TailCache) (s : Service) : Service :=
  s <| sv_tails := alter f name (sv_tails s) |>.

(** ** Events *)
Inductive LockId := OpenLock | GateLock (name : string).

#[export] Instance LockId_eq_dec : EqDecision LockId.
Proof. solve_decision. Defined.
#[export] Instance LockId_countable : Countable LockId.
Proof.
  refine (inj_countable' (λ l, match l with OpenLock => None | GateLock n => Some n end)
    (λ o, match o with None => OpenLock | Some n => GateLock n end) _).
  by intros [].
Defined.

(** What the programs call. A stream is known by its handle, a submitted
    append by its number. [State] is one critical section of the service's
    mutexes, which may also load the published view; [Peek] reads the atomics of a stream. The calls of a stream that
    change it and then wait are two events. [Settled] is the loop of
    [await_transfer_settled], [Parked] the wait of a reader. *)
Inductive Ev : Set → Type :=
| Now : Ev Z
| Lock (l : LockId) : Ev unit
| Unlock (l : LockId) : Ev unit
| State (X : Set) (f : MetadataView → Service → X * Service) : Ev X
| KvGet (key : string) : Ev (result (option (list byte)) Error)
| KvPut (key : string) (value : list byte) : Ev (result (list byte) Error)
| KvPutIfAbsent (key : string) (value : list byte) : Ev (result (list byte) Error)
| KvDel (key : string) : Ev (result (option (list byte)) Error)
| KvList (pre : string) : Ev (result (list (string * list byte)) Error)
| ClientCreate : Ev (result Z Error)
| ClientOpen (stream_id epoch : Z) : Ev (result nat Error)
| Peek (h : nat) : Ev S3Stream
| SubmitAppend (h : nat) (count : Z) (body : list byte) : Ev (result nat Error)
| Durable (pending : nat) : Ev (result unit Error)
| Fetch (h : nat) (start_offset end_offset max_bytes : Z) :
    Ev (result (list RecordBatchWithContext) Error)
| TrimStart (h : nat) (new_start_offset : Z) : Ev bool
| TrimEnd (h : nat) (new_start_offset : Z) : Ev (result unit Error)
| CloseStart (h : nat) : Ev unit
| CloseEnd (h : nat) : Ev (result unit Error)
| DestroyEnd (h : nat) : Ev (result unit Error)
| Settled (stream_id : Z) : Ev (result unit ServiceError)
| Parked (token : Z) : Ev bool
| HandleClose (stream_id epoch : Z) : Ev (result unit Error)
| HandleComplete (stream_id epoch : Z) : Ev (result unit Error)
| HandleTransfer (stream_id from_node to_node : Z) : Ev (result unit Error).
#[global] Arguments State {X} f.

Definition P (A : Set) : Type := prog Ev A.
(** A program that may fail. *)
Definition R (A : Set) : Type := prog Ev (result A ServiceError).

Definition now_ms : P Z := call Now.
Definition update (f : Service → Service) : P unit := call (State (λ _ s, (tt, f s))).
Definition read_state {X : Set} (f : Service → X) : P X := call (State (λ _ s, (f s, s))).
Definition load_view : P MetadataView := call (State (λ view s, (view, s))).
Definition fail {A : Set} (e : ServiceError) : R A := Ret (Err e).
Definition ok {A : Set} (a : A) : R A := Ret (Ok a).

(** [p.await?] on a call of the engine or the metadata. *)
Definition lift {A : Set} (p : P (result A Error)) : R A := r <- p ;;; Ret (map_err from_error r).

(** *** Calls of the client and of a stream *)
Definition create_and_open_stream (epoch : Z) : P (result nat Error) :=
  created <- call ClientCreate ;;;
  match created with
  | Err e => Ret (Err e)
  | Ok stream_id => call (ClientOpen stream_id epoch)
  end.
Definition stream_trim (h : nat) (new_start_offset : Z) : P (result unit Error) :=
  stored <- call (TrimStart h new_start_offset) ;;;
  if stored : bool then call (TrimEnd h new_start_offset) else Ret (Ok tt).
Definition stream_close (h : nat) : P (result unit Error) :=
  call (CloseStart h) ;;; call (CloseEnd h).
Definition stream_destroy (h : nat) : P (result unit Error) :=
  closed <- stream_close h ;;;
  match closed with
  | Err e => Ret (Err e)
  | Ok _ => call (DestroyEnd h)
  end.

(** *** Waiting *)
Definition wait (name : string) (offset : OffsetToken) : P bool :=
  token <- call (State (λ _ s, let t := sv_next_token s + 1 in (t, s <| sv_next_token := t |>))) ;;;
  update (waiter_push name {| wt_token := token; wt_wait_offset := record_offset offset |}) ;;;
  woken <- call (Parked token) ;;;
  (if woken : bool then Ret tt else update (waiter_remove name token)) ;;;
  Ret woken.

(** ** Helpers of the service *)
Definition DEFAULT_LIST_LIMIT : nat := 1000.
Definition MAX_LIST_LIMIT : nat := 10000.

Definition normalize (name : string) : string :=
  if bool_decide (name = EmptyString) then "/"%string else name.

Definition config_matches (entry : RegistryEntry) (command : CreateCommand) : bool :=
  mime_equals (Some (re_content_type entry)) (Some (cc_content_type command)) &&
  bool_decide (re_ttl_seconds entry = cc_ttl_seconds command) &&
  bool_decide (re_expires_at_ms entry = cc_expires_at_ms command) &&
  Bool.eqb (re_closed entry) (cc_closed command).

(** [now_ms() + ttl as i64 * 1000] *)
Definition ttl_deadline (now ttl : Z) : Z := wrap_i64 (now + wrap_i64 (wrap_i64 ttl * 1000)).

Definition deadline_of (ttl_seconds expires_at_ms : option Z) : P Z :=
  match expires_at_ms with
  | Some expires => Ret expires
  | None =>
      match ttl_seconds with
      | Some ttl => now <- now_ms ;;; Ret (ttl_deadline now ttl)
      | None => Ret 0
      end
  end.

Definition touch_deadline (entry : RegistryEntry) : P RegistryEntry :=
  match re_ttl_seconds entry with
  | None => Ret entry
  | Some ttl =>
      match re_expires_at_ms entry with
      | Some _ => Ret entry
      | None =>
          now <- now_ms ;;;
          let next := ttl_deadline now ttl in
          let coarsen := Z.max (wrap_i64 (wrap_i64 ttl * 100)) 1000 in
          Ret (if (0 <? re_deadline_ms entry) && (wrap_i64 (next - re_deadline_ms entry) <? coarsen)
               then entry else with_deadline next entry)
      end
  end.

Definition is_accepted (d : ProducerDecision) : bool :=
  match d with Accepted _ _ => true | _ => false end.

(** [str] comparison on [stream_seq]. *)
Definition text_leb (a b : string) : bool := bool_decide (String.le a b).

Definition validate_payload (entry : RegistryEntry) (command : AppendCommand)
    (decision : option ProducerDecision) (next : OffsetToken) (close_only : bool) :
    result unit ServiceError :=
  let? _ :=
    (if close_only then Ok tt
     else
       let ct := default EmptyString (ac_content_type command) in
       if bool_decide (ct = EmptyString) then
         Err (with_message KBadRequest (Some next) false (txt "missing Content-Type" [] []))
       else if negb (mime_equals (Some (re_content_type entry)) (Some ct)) then
         Err (error_at KConflict next false)
       else if (payload_len command =? 0)%nat then
         Err (with_message KBadRequest (Some next) false (txt "Empty body" [] []))
       else Ok tt) in
  match ac_stream_seq command with
  | None => Ok tt
  | Some stream_seq =>
      if from_option is_accepted true decision then
        match re_last_seq entry with
        | Some last_seq =>
            if text_leb stream_seq last_seq then
              Err (with_message KConflict (Some next) false (txt "Sequence conflict" [] []))
            else Ok tt
        | None => Ok tt
        end
      else Ok tt
  end.

Definition matches_closed_by (entry : RegistryEntry) (command : AppendCommand) : bool :=
  match re_closed_by entry, ac_producer command with
  | Some closed_by, Some p =>
      bool_decide (cb_producer_id closed_by = pr_producer_id p) && (cb_epoch closed_by =? pr_epoch p) &&
      (cb_seq closed_by =? pr_seq p)
  | _, _ => false
  end.

Definition append_to_closed (entry : RegistryEntry) (command : AppendCommand) (next : OffsetToken) :
    result AppendResult ServiceError :=
  let has_producer := bool_decide (is_Some (ac_producer command)) in
  let answered (seq : option Z) := {|
    ar_next_offset := next; ar_applied := false; ar_closed := true;
    ar_producer_epoch := pr_epoch <$> ac_producer command; ar_producer_seq := seq |} in
  if ac_close_after command && (payload_len command =? 0)%nat then
    if has_producer && negb (matches_closed_by entry command) && bool_decide (is_Some (re_closed_by entry))
    then Err (error_at KClosed next true)
    else
      Ok (answered (p ← ac_producer command; Some (default (pr_seq p) (cb_seq <$> re_closed_by entry))))
  else if has_producer && matches_closed_by entry command then
    Ok (answered (cb_seq <$> re_closed_by entry))
  else Err (error_at KClosed next true).

Definition apply_append_state (entry : RegistryEntry) (command : AppendCommand)
    (decision : option ProducerDecision) : RegistryEntry :=
  let updated := match ac_stream_seq command with Some seq => with_last_seq seq entry | None => entry end in
  match decision, ac_producer command with
  | Some (Accepted _ _), Some p => with_producer (pr_producer_id p) (pr_epoch p) (pr_seq p) updated
  | _, _ => updated
  end.

Definition handle_producer_reject (entry : RegistryEntry) (next : OffsetToken)
    (decision : ProducerDecision) (command : AppendCommand) : result AppendResult ServiceError :=
  match decision with
  | Duplicate last_seq => Ok {|
      ar_next_offset := next; ar_applied := false; ar_closed := re_closed entry;
      ar_producer_epoch := pr_epoch <$> ac_producer command; ar_producer_seq := Some last_seq |}
  | StaleEpoch current_epoch => Err (fenced current_epoch)
  | InvalidEpochSeq =>
      Err (with_message KBadRequest (Some next) false (txt "New epoch must start with sequence 0" [] []))
  | ServerTypes.SequenceGap expected received => Err (sequence_gap expected received)
  | Accepted _ _ => Err (error_of_kind KBadRequest)
  end.

(** The loop of [tail_read]: the records taken and the next offset. *)
Fixpoint tail_take (cached : list StreamRecord) (en max_bytes max_records : Z)
    (records : list StreamRecord) (total next : Z) : list StreamRecord * Z :=
  match cached with
  | [] => (records, next)
  | record :: rest =>
      let offset := record_offset (rec_offset record) in
      let len := Z.of_nat (length (rec_payload record)) in
      if en <=? offset then (records, next)
      else if (max_bytes <? total + len) && (0 <? total) then (records, next)
      else
        let records := records ++ [record] in
        let total := total + len in
        let next := offset + 1 in
        if (max_bytes <=? total) || (max_records <=? Z.of_nat (length records)) then (records, next)
        else tail_take rest en max_bytes max_records records total next
  end.

Definition tail_read (entry : RegistryEntry) (cached : list StreamRecord) (en max_bytes max_records : Z) :
    ReadResult :=
  let next := from_option (λ r, record_offset (rec_offset r)) en (head cached) in
  let '(records, next) := tail_take cached en max_bytes max_records [] 0 next in
  {| rd_records := records; rd_content_type := re_content_type entry;
     rd_next_offset := of_record_offset next; rd_up_to_date := en <=? next; rd_closed := re_closed entry |}.

(** The loop over the frames of one batch; [true] when it broke ['outer]. *)
Fixpoint take_frames (frames : list (list byte)) (offset start max_bytes max_records : Z)
    (records : list StreamRecord) (total next : Z) : bool * list StreamRecord * Z * Z :=
  match frames with
  | [] => (false, records, total, next)
  | frame :: rest =>
      if offset <? start then take_frames rest (wrap_u64 (offset + 1)) start max_bytes max_records records total next
      else
        let len := Z.of_nat (length frame) in
        if (max_bytes <? total + len) && (0 <? total) then (true, records, total, next)
        else
          let total := total + len in
          let next := wrap_u64 (offset + 1) in
          let records := records ++ [{| rec_offset := of_record_offset offset; rec_payload := frame |}] in
          if (max_bytes <=? total) || (max_records <=? Z.of_nat (length records))
          then (true, records, total, next)
          else take_frames rest (wrap_u64 (offset + 1)) start max_bytes max_records records total next
  end.

(** The loop of [fetch_records]. *)
Fixpoint take_batches (batches : list RecordBatchWithContext) (start max_bytes max_records : Z)
    (records : list StreamRecord) (total next : Z) : result (list StreamRecord * Z) ServiceError :=
  match batches with
  | [] => Ok (records, next)
  | batch :: rest =>
      if 1 <? bc_count batch then
        let? frames := decode_frames (bc_payload batch) (bc_count batch) in
        let '(broken, records, total, next) :=
          take_frames frames (bc_base_offset batch) start max_bytes max_records records total next in
        if broken : bool then Ok (records, next)
        else take_batches rest start max_bytes max_records records total next
      else
        let len := Z.of_nat (length (bc_payload batch)) in
        if (max_bytes <? total + len) && (0 <? total) then Ok (records, next)
        else
          let total := total + len in
          let next := bc_last_offset batch in
          let records := records ++ [{| rec_offset := of_record_offset (bc_base_offset batch);
                                        rec_payload := bc_payload batch |}] in
          if (max_bytes <=? total) || (max_records <=? Z.of_nat (length records)) then Ok (records, next)
          else take_batches rest start max_bytes max_records records total next
  end.

Definition live_start_offset (s : S3Stream) : Z :=
  if ss_start_offset s =? u64_max then 0 else ss_start_offset s.

Definition to_meta (name : string) (entry : RegistryEntry) (start next submitted : Z) : StreamMeta := {|
  me_name := name; me_stream_id := re_stream_id entry; me_content_type := re_content_type entry;
  me_ttl_seconds := re_ttl_seconds entry; me_expires_at_ms := re_expires_at_ms entry;
  me_start_offset := of_record_offset start; me_next_offset := of_record_offset next;
  me_submitted_offset := of_record_offset submitted; me_closed := re_closed entry |}.

Definition to_meta_from_committed (name : string) (entry : RegistryEntry)
    (committed : option StreamMetadata) : StreamMeta :=
  let real (offset : Z) := if offset =? u64_max then 0 else offset in
  match committed with
  | Some m => to_meta name entry (real (sm_start_offset m)) (real (sm_end_offset m)) (real (sm_end_offset m))
  | None => to_meta name entry 0 0 0
  end.

(** Three reads of the stream's atomics. *)
Definition to_meta_from_stream (name : string) (entry : RegistryEntry) (h : nat) : P StreamMeta :=
  s1 <- call (Peek h) ;;; s2 <- call (Peek h) ;;; s3 <- call (Peek h) ;;;
  Ret (to_meta name entry (live_start_offset s1) (ss_confirm_offset s2) (ss_next_offset s3)).

Fixpoint await_durable (pendings : list nat) : P (result unit Error) :=
  match pendings with
  | [] => Ret (Ok tt)
  | p :: rest =>
      r <- call (Durable p) ;;;
      match r with Err e => Ret (Err e) | Ok _ => await_durable rest end
  end.

Section Service.
Context (json : list byte → option (list (list byte) + list byte)).
Context (node : MetadataNodeHandle).

(** ** Messages *)
Definition split_messages (content_type : string) (body : list byte) (create : bool) :
    result (list (list byte)) ServiceError :=
  if negb (is_json (mime_of (Some content_type))) then Ok [body]
  else
    match json body with
    | None => Err (with_message KBadRequest None false (txt "invalid JSON" [] []))
    | Some (inl []) =>
        if create then Ok []
        else Err (with_message KBadRequest None false (txt "empty JSON array not allowed" [] []))
    | Some (inl items) => Ok items
    | Some (inr other) => Ok [other]
    end.

Fixpoint expand_payloads (content_type : string) (payloads : list (list byte)) :
    result (list (list byte)) ServiceError :=
  match payloads with
  | [] => Ok []
  | body :: rest =>
      let? messages := split_messages content_type body false in
      let? more := expand_payloads content_type rest in
      Ok (messages ++ more)
  end.

Fixpoint submit_each (h : nat) (messages : list (list byte)) : P (result (list nat) Error) :=
  match messages with
  | [] => Ret (Ok [])
  | m :: rest =>
      r <- call (SubmitAppend h 1 m) ;;;
      match r with
      | Err e => Ret (Err e)
      | Ok p => more <- submit_each h rest ;;; Ret (let? ps := more in Ok (p :: ps))
      end
  end.

Definition submit_messages (h : nat) (messages : list (list byte)) (atomic : bool) :
    P (result (list nat) Error) :=
  match messages with
  | [] => Ret (Ok [])
  | _ =>
      if atomic && (1 <? length messages)%nat then
        r <- call (SubmitAppend h (wrap_u32 (Z.of_nat (length messages))) (encode_frames messages)) ;;;
        Ret (let? p := r in Ok [p])
      else submit_each h messages
  end.

(** ** Internals *)
Definition gate_of (name : string) : P unit :=
  update (λ s, s <| sv_tails := match sv_tails s !! name with
                               | Some _ => sv_tails s
                               | None => <[name := tail_default]> (sv_tails s)
                               end |>).

(** [let _op = gate.op.lock().await; body]: the guard lives to the end. *)
Definition with_gate {A : Set} (name : string) (body : P A) : P A :=
  gate_of name ;;; call (Lock (GateLock name)) ;;;
  a <- body ;;;
  call (Unlock (GateLock name)) ;;;
  Ret a.

(** Under the lock of [local_epochs]. *)
Definition next_epoch (stream_id : Z) : P Z :=
  call (State (λ view s,
    let next :=
      match sv_local_epochs s !! stream_id with
      | Some epoch => wrap_u64 (epoch + 1)
      | None => wrap_u64 (from_option sm_epoch 0 (get_stream (mv_state view) stream_id) + 1)
      end in
    (next, s <| sv_local_epochs := <[stream_id := next]> (sv_local_epochs s) |>))).

(** A stream that was opened: the handle is kept and its epoch noted. *)
Definition keep_open (stream_id : Z) (h : nat) : P unit :=
  update (λ s, s <| sv_open_streams := <[stream_id := h]> (sv_open_streams s) |>) ;;;
  opened <- call (Peek h) ;;;
  update (λ s, s <| sv_local_epochs := <[stream_id := ss_epoch opened]> (sv_local_epochs s) |>).

Definition forget_open (stream_id : Z) : P unit :=
  update (λ s, s <| sv_open_streams := delete stream_id (sv_open_streams s) |>).
Definition forget_epoch (stream_id : Z) : P unit :=
  update (λ s, s <| sv_local_epochs := delete stream_id (sv_local_epochs s) |>).

Definition ensure_open_locked (stream_id : Z) : R nat :=
  existing <- read_state (λ s, sv_open_streams s !! stream_id) ;;;
  match existing with
  | Some h => ok h
  | None =>
      _ <-? call (Settled stream_id) ;;;
      epoch <- next_epoch stream_id ;;;
      h <-? lift (call (ClientOpen stream_id epoch)) ;;;
      keep_open stream_id h ;;;
      ok h
  end.

Definition ensure_open (stream_id : Z) : R nat :=
  existing <- read_state (λ s, sv_open_streams s !! stream_id) ;;;
  match existing with
  | Some h => ok h
  | None =>
      call (Lock OpenLock) ;;;
      r <- ensure_open_locked stream_id ;;;
      call (Unlock OpenLock) ;;;
      Ret r
  end.

Definition put_entry (name : string) (entry : RegistryEntry) : R unit :=
  _ <-? lift (call (KvPut name (encode entry))) ;;;
  update (λ s, s <| sv_entry_cache := <[name := entry]> (sv_entry_cache s) |>) ;;;
  ok tt.

Definition destroy_stream (stream_id : Z) : P unit :=
  held <- call (State (λ _ s, (sv_open_streams s !! stream_id,
            s <| sv_open_streams := delete stream_id (sv_open_streams s) |>))) ;;;
  forget_epoch stream_id ;;;
  stream <- (match held with
             | Some h => Ret (Some h)
             | None =>
                 epoch <- next_epoch stream_id ;;;
                 r <- call (ClientOpen stream_id epoch) ;;;
                 Ret (match r with Ok h => Some h | Err _ => None end)
             end) ;;;
  match stream with
  | None => Ret tt
  | Some h => _ <- stream_destroy h ;;; forget_epoch stream_id
  end.

Definition expire (name : string) (entry : RegistryEntry) : P unit :=
  _ <- call (KvDel name) ;;;
  update (λ s, s <| sv_entry_cache := delete name (sv_entry_cache s) |>) ;;;
  destroy_stream (re_stream_id entry) ;;;
  update (update_tail name tail_reset) ;;;
  update (notify_closed name).

(** The entry from the cache, or from the KV and then cached. *)
Definition cached_entry (name : string) : R (option RegistryEntry) :=
  cached <- read_state (λ s, sv_entry_cache s !! name) ;;;
  match cached with
  | Some entry => ok (Some entry)
  | None =>
      value <-? lift (call (KvGet name)) ;;;
      match value with
      | None => ok None
      | Some value =>
          entry <-? Ret (decode value) ;;;
          update (λ s, s <| sv_entry_cache := <[name := entry]> (sv_entry_cache s) |>) ;;;
          ok (Some entry)
      end
  end.

Definition is_expired (entry : RegistryEntry) : P bool :=
  if 0 <? re_deadline_ms entry then now <- now_ms ;;; Ret (re_deadline_ms entry <? now) else Ret false.

Definition get_entry (name : string) (touch : bool) : R (option RegistryEntry) :=
  found <-? cached_entry name ;;;
  match found with
  | None => ok None
  | Some entry =>
      expired <- is_expired entry ;;;
      if expired : bool then expire name entry ;;; ok None
      else if touch then
        refreshed <- touch_deadline entry ;;;
        if bool_decide (refreshed = entry) then ok (Some entry)
        else _ <-? put_entry name refreshed ;;; ok (Some refreshed)
      else ok (Some entry)
  end.

Definition require_entry (name : string) : R RegistryEntry :=
  found <-? get_entry name false ;;;
  match found with
  | Some entry => ok entry
  | None => fail (with_message KBadRequest None false (txt "missing registry entry for {}" [] [name]))
  end.

Definition to_meta_live (name : string) (entry : RegistryEntry) : R StreamMeta :=
  h <-? ensure_open (re_stream_id entry) ;;;
  meta <- to_meta_from_stream name entry h ;;;
  ok meta.

Definition provision_stream (name : string) : R nat :=
  h <-? lift (create_and_open_stream 1) ;;;
  s <- call (Peek h) ;;;
  keep_open (ss_stream_id s) h ;;;
  ok h.

(** ** Create *)
Definition resolve_lost_race (name : string) (h : nat) (current : RegistryEntry)
    (command : CreateCommand) : R CreateResult :=
  _ <- stream_destroy h ;;;
  s <- call (Peek h) ;;;
  forget_open (ss_stream_id s) ;;;
  forget_epoch (ss_stream_id s) ;;;
  if negb (config_matches current command) then fail (error_of_kind KConflict)
  else
    meta <-? to_meta_live name current ;;;
    ok {| cr_created := false; cr_meta := meta |}.

Definition append_initial_payload (name : string) (h : nat) (command : CreateCommand) : R bool :=
  match cc_initial_payload command with
  | [] => ok false
  | body =>
      messages <-? Ret (split_messages (cc_content_type command) body true) ;;;
      match messages with
      | [] => ok false
      | _ =>
          s <- call (Peek h) ;;;
          pendings <-? (r <- submit_messages h messages false ;;; Ret (map_err durability r)) ;;;
          _ <-? (r <- await_durable pendings ;;; Ret (map_err durability r)) ;;;
          update (update_tail name (record_append (ss_next_offset s) messages)) ;;;
          s' <- call (Peek h) ;;;
          update (notify_append name (ss_next_offset s')) ;;;
          ok true
      end
  end.

(** The part of [create] for a name without an entry. *)
Definition create_new (name : string) (command : CreateCommand) : R CreateResult :=
  h <-? provision_stream name ;;;
  deadline <- deadline_of (cc_ttl_seconds command) (cc_expires_at_ms command) ;;;
  s <- call (Peek h) ;;;
  let candidate := {|
    re_stream_id := ss_stream_id s; re_content_type := cc_content_type command;
    re_ttl_seconds := cc_ttl_seconds command; re_expires_at_ms := cc_expires_at_ms command;
    re_closed := cc_closed command; re_deadline_ms := deadline; re_last_seq := None;
    re_producers := ∅; re_closed_by := None |} in
  stored <-? lift (call (KvPutIfAbsent name (encode candidate))) ;;;
  current <-? Ret (decode stored) ;;;
  update (λ s, s <| sv_entry_cache := <[name := current]> (sv_entry_cache s) |>) ;;;
  if negb (re_stream_id current =? re_stream_id candidate) then resolve_lost_race name h current command
  else
    appended <-? append_initial_payload name h command ;;;
    current <-? (if appended : bool then require_entry name else ok current) ;;;
    current <-? (if cc_closed command && negb (re_closed current) then
                   _ <-? put_entry name (entry_close None current) ;;; require_entry name
                 else ok current) ;;;
    meta <- to_meta_from_stream name current h ;;;
    ok {| cr_created := true; cr_meta := meta |}.

Definition create (command : CreateCommand) : R CreateResult :=
  match validate_create command with
  | Err e => fail e
  | Ok _ =>
      let name := normalize (cc_name command) in
      with_gate name
        (found <-? get_entry name false ;;;
         match found with
         | Some existing =>
             if negb (config_matches existing command) then fail (error_of_kind KConflict)
             else
               meta <-? to_meta_live name existing ;;;
               ok {| cr_created := false; cr_meta := meta |}
         | None => create_new name command
         end)
  end.

(** ** Head and list *)
Definition head_stream (name : string) : R (option StreamMeta) :=
  let name := normalize name in
  found <-? get_entry name false ;;;
  match found with
  | None => ok None
  | Some entry => meta <-? to_meta_live name entry ;;; ok (Some meta)
  end.

(** The entries the loop selects: at most one more than [max]. *)
Fixpoint select (entries : list (string * list byte)) (start_after : option string) (now : Z)
    (max : nat) (selected : list (string * RegistryEntry)) : list (string * RegistryEntry) :=
  match entries with
  | [] => selected
  | (key, value) :: rest =>
      let skip :=
        match start_after with
        | Some after => negb (bool_decide (after = EmptyString)) && text_leb key after
        | None => false
        end in
      if skip then select rest start_after now max selected
      else
        match decode value with
        | Err _ => select rest start_after now max selected
        | Ok entry =>
            if (0 <? re_deadline_ms entry) && (re_deadline_ms entry <? now)
            then select rest start_after now max selected
            else
              let selected := selected ++ [(key, entry)] in
              if (max <? length selected)%nat then selected
              else select rest start_after now max selected
        end
  end.

Definition list_max (limit : nat) : nat :=
  if (0 <? limit)%nat then Nat.min limit MAX_LIST_LIMIT else DEFAULT_LIST_LIMIT.

Definition list_streams (pre : string) (start_after : option string) (limit : nat) : R StreamList :=
  let max := list_max limit in
  entries <-? lift (call (KvList (normalize pre))) ;;;
  now <- now_ms ;;;
  let selected := select entries start_after now max [] in
  view <- load_view ;;;
  let committed : gmap Z StreamMetadata :=
    foldl (λ m md, <[sm_stream_id md := md]> m) ∅
      (get_streams (mv_state view) ((λ p, re_stream_id p.2) <$> take max selected)) in
  ok {| sl_streams := (λ p, to_meta_from_committed p.1 p.2 (committed !! re_stream_id p.2)) <$> take max selected;
        sl_has_more := (max <? length selected)%nat |}.

(** ** Delete and trim *)
Definition delete_named (name : string) : R bool :=
  let name := normalize name in
  with_gate name
    (found <-? get_entry name false ;;;
     match found with
     | None => ok false
     | Some entry =>
         deleted <-? lift (call (KvDel name)) ;;;
         update (λ s, s <| sv_entry_cache := delete name (sv_entry_cache s) |>) ;;;
         match deleted with
         | None => ok false
         | Some _ =>
             destroy_stream (re_stream_id entry) ;;;
             update (update_tail name tail_reset) ;;;
             update (notify_closed name) ;;;
             ok true
         end
     end).

Definition trim_named (name : string) (new_start_offset : Z) : R Z :=
  let name := normalize name in
  with_gate name
    (found <-? get_entry name false ;;;
     match found with
     | None => fail (error_of_kind KNotFound)
     | Some entry =>
         h <-? ensure_open (re_stream_id entry) ;;;
         view <- load_view ;;;
         let committed_end := from_option sm_end_offset 0 (get_stream (mv_state view) (re_stream_id entry)) in
         s <- call (Peek h) ;;;
         let lower := live_start_offset s in
         s <- call (Peek h) ;;;
         let clamped := Z.min (Z.max new_start_offset lower) (Z.min (ss_confirm_offset s) committed_end) in
         _ <-? (if lower <? clamped then lift (stream_trim h clamped) else ok tt) ;;;
         s <- call (Peek h) ;;;
         ok (live_start_offset s)
     end).

(** ** Append *)
Definition close_entry (name : string) (entry : RegistryEntry) (command : AppendCommand) : R unit :=
  let closed_by := (λ p, {| cb_producer_id := pr_producer_id p; cb_epoch := pr_epoch p; cb_seq := pr_seq p |})
                     <$> ac_producer command in
  touched <- touch_deadline (entry_close closed_by entry) ;;;
  _ <-? put_entry name touched ;;;
  update (notify_closed name) ;;;
  ok tt.

(** The stream is given up after an append that was not durable. *)
Definition abandon (name : string) (stream_id : Z) : P unit :=
  forget_open stream_id ;;; update (update_tail name tail_reset).

(** What an append does once it was submitted and has left the gate. *)
Record Submitted := {
  sb_pendings : list nat;
  sb_stream_id : Z;
  sb_base_offset : Z;
  sb_messages : list (list byte);
  sb_result : AppendResult;
}.

(** The checks of [append], in order: the messages to write, or the answer. *)
Definition check_append (entry : RegistryEntry) (command : AppendCommand) (next : OffsetToken) :
    result (list (list byte) + AppendResult) ServiceError :=
  let decision := validate_producer entry <$> ac_producer command in
  let close_only := (payload_len command =? 0)%nat && ac_close_after command in
  match (d ← decision; if is_accepted d then None else Some d) with
  | Some d => let? r := handle_producer_reject entry next d command in Ok (inr r)
  | None =>
      if re_closed entry then let? r := append_to_closed entry command next in Ok (inr r)
      else
        let? _ := (match ac_match_seq command with
                   | Some match_seq =>
                       if negb (match_seq =? record_offset next) then
                         Err (with_message KMatchFailed (Some next) false
                           (txt "match failed: expected tail {}, actual {}" [match_seq; record_offset next] []))
                       else Ok tt
                   | None => Ok tt
                   end) in
        let? _ := validate_payload entry command decision next close_only in
        if close_only then Ok (inl [])
        else let? messages := expand_payloads (re_content_type entry) (ac_payloads command) in Ok (inl messages)
  end.

(** The part of [append] under the gate: an answer, or what is left to do. *)
Definition append_locked (name : string) (command : AppendCommand) : R (AppendResult + Submitted) :=
  found <-? get_entry name false ;;;
  match found with
  | None => fail (error_of_kind KNotFound)
  | Some entry =>
      h <-? ensure_open (re_stream_id entry) ;;;
      s <- call (Peek h) ;;;
      let next := of_record_offset (ss_next_offset s) in
      checked <-? Ret (check_append entry command next) ;;;
      match checked with
      | inr answer => ok (inl answer)
      | inl messages =>
          let close_only := (payload_len command =? 0)%nat && ac_close_after command in
          let base_offset := record_offset next in
          submitted <- submit_messages h messages (ac_atomic command) ;;;
          match submitted with
          | Err e => abandon name (re_stream_id entry) ;;; fail (durability e)
          | Ok pendings =>
              next <- (match messages with
                       | [] => Ret next
                       | _ => s <- call (Peek h) ;;; Ret (of_record_offset (ss_next_offset s))
                       end) ;;;
              let updated := apply_append_state entry command (validate_producer entry <$> ac_producer command) in
              let result := {|
                ar_next_offset := next; ar_applied := negb close_only; ar_closed := ac_close_after command;
                ar_producer_epoch := pr_epoch <$> ac_producer command;
                ar_producer_seq := pr_seq <$> ac_producer command |} in
              if ac_close_after command then
                d <- await_durable pendings ;;;
                match d with
                | Err e => abandon name (re_stream_id entry) ;;; fail (durability e)
                | Ok _ =>
                    (if close_only then Ret tt
                     else update (update_tail name (record_append base_offset messages)) ;;;
                          update (notify_append name (record_offset next))) ;;;
                    _ <-? close_entry name updated command ;;;
                    ok (inl result)
                end
              else
                touched <- touch_deadline updated ;;;
                _ <-? (if bool_decide (touched = entry) then ok tt else put_entry name touched) ;;;
                ok (inr {| sb_pendings := pendings; sb_stream_id := re_stream_id entry;
                           sb_base_offset := base_offset; sb_messages := messages; sb_result := result |})
          end
      end
  end.

Definition append_unlocked (name : string) (sub : Submitted) : R AppendResult :=
  d <- await_durable (sb_pendings sub) ;;;
  match d with
  | Err e => abandon name (sb_stream_id sub) ;;; fail (durability e)
  | Ok _ =>
      update (update_tail name (record_append (sb_base_offset sub) (sb_messages sub))) ;;;
      update (notify_append name (record_offset (ar_next_offset (sb_result sub)))) ;;;
      ok (sb_result sub)
  end.

Definition append (command : AppendCommand) : R AppendResult :=
  let command := normalized command in
  let name := normalize (ac_name command) in
  locked <-? with_gate name (append_locked name command) ;;;
  match locked with
  | inl answer => ok answer
  | inr sub => append_unlocked name sub
  end.

Definition close_named (name : string) : R OffsetToken :=
  r <-? append {| ac_name := name; ac_payloads := []; ac_content_type := None; ac_stream_seq := None;
                  ac_match_seq := None; ac_producer := None; ac_close_after := true; ac_atomic := false |} ;;;
  ok (ar_next_offset r).

(** ** Read *)
Definition fetch_records (entry : RegistryEntry) (h : nat) (start en max_bytes max_records : Z) :
    R ReadResult :=
  batches <-? lift (call (Fetch h start en max_bytes)) ;;;
  out <-? Ret (take_batches batches start max_bytes max_records [] 0 start) ;;;
  ok {| rd_records := out.1; rd_content_type := re_content_type entry;
        rd_next_offset := of_record_offset out.2; rd_up_to_date := en <=? out.2;
        rd_closed := re_closed entry |}.

Definition unlimited (n : Z) : Z := if 0 <? n then n else u64_max.

Definition cached_tail (name : string) (start : Z) (s : Service) : option (list StreamRecord) :=
  t ← sv_tails s !! name; tail_records start t.

Definition read (name : string) (from : OffsetToken) (max_bytes max_records : Z) : R ReadResult :=
  let name := normalize name in
  with_gate name
    (found <-? get_entry name true ;;;
     match found with
     | None => fail (error_of_kind KNotFound)
     | Some entry =>
         h <-? ensure_open (re_stream_id entry) ;;;
         let start := record_offset from in
         s <- call (Peek h) ;;;
         let en := ss_confirm_offset s in
         if en <? start then fail (error_of_kind KBadRequest)
         else if start =? en then
           ok {| rd_records := []; rd_content_type := re_content_type entry;
                 rd_next_offset := of_record_offset en; rd_up_to_date := true;
                 rd_closed := re_closed entry |}
         else
           cached <- read_state (cached_tail name start) ;;;
           match cached with
           | Some cached => ok (tail_read entry cached en (unlimited max_bytes) (unlimited max_records))
           | None => fetch_records entry h start en (unlimited max_bytes) (unlimited max_records)
           end
     end).

Definition wait_appended (name : string) (from : OffsetToken) : R bool :=
  let name := normalize name in
  found <-? get_entry name false ;;;
  match found with
  | None => ok false
  | Some entry =>
      if re_closed entry then ok true
      else
        h <-? ensure_open (re_stream_id entry) ;;;
        s <- call (Peek h) ;;;
        if record_offset from <? ss_confirm_offset s then ok true
        else woken <- wait name from ;;; ok woken
  end.

(** ** The host's operations *)
Definition lookup_stream_id (name : string) : R (option Z) :=
  found <-? get_entry (normalize name) false ;;;
  ok (option_map re_stream_id found).

Definition open_stream_snapshot : P (list nat) := read_state (λ s, (map_to_list (sv_open_streams s)).*2).

Fixpoint close_all (streams : list nat) : P unit :=
  match streams with
  | [] => Ret tt
  | h :: rest => _ <- stream_close h ;;; close_all rest
  end.

Definition shutdown_service : P unit :=
  update waiters_clear ;;;
  streams <- open_stream_snapshot ;;;
  close_all streams ;;;
  update (λ s, s <| sv_open_streams := ∅ |>).

(** ** Ownership *)
Definition owner_decision (st : MetadataState) (node_id stream_id : Z) : Owner :=
  match ms_pending_transfers st !! stream_id with
  | Some pending =>
      if pt_to_node pending =? node_id then owner_local (Some stream_id)
      else
        match get_node_address st (pt_to_node pending) with
        | Some address => owner_remote stream_id (pt_to_node pending) address
        | None => owner_local (Some stream_id)
        end
  | None =>
      match ms_streams st !! stream_id with
      | None => owner_local (Some stream_id)
      | Some row =>
          let routable := bool_decide (sr_state row = Opened) || ((sr_epoch row =? -1) && negb (sr_node_id row =? -1)) in
          if negb routable then owner_local (Some stream_id)
          else if sr_node_id row =? node_id then owner_local (Some stream_id)
          else
            match get_node_address st (sr_node_id row) with
            | Some address =>
                if negb (bool_decide (address = EmptyString)) then owner_remote stream_id (sr_node_id row) address
                else owner_local (Some stream_id)
            | None => owner_local (Some stream_id)
            end
      end
  end.

Definition owner_of (name : string) : R Owner :=
  found <-? lookup_stream_id name ;;;
  match found with
  | None => ok (owner_local None)
  | Some stream_id => view <- load_view ;;; ok (owner_decision (mv_state view) (nh_node_id node) stream_id)
  end.

(** ** Transfers *)
Definition ok_value {A E} (r : result A E) : option A := match r with Ok a => Some a | Err _ => None end.

Definition cached_name (stream_id : Z) (s : Service) : option string :=
  (λ p, p.2.1) <$> list_find (λ p, re_stream_id p.2 = stream_id) (map_to_list (sv_entry_cache s)).
Definition stored_name (stream_id : Z) (entries : list (string * list byte)) : option string :=
  (λ p, p.2.1) <$> list_find (λ kv, re_stream_id <$> ok_value (decode kv.2) = Some stream_id) entries.

Definition name_of (stream_id : Z) : P (option string) :=
  cached <- read_state (cached_name stream_id) ;;;
  match cached with
  | Some name => Ret (Some name)
  | None =>
      r <- call (KvList "/"%string) ;;;
      Ret (match r with Err _ => None | Ok entries => stored_name stream_id entries end)
  end.

Definition release_held (name : option string) (stream_id : Z) : R (option Z) :=
  held <- call (State (λ _ s, (sv_open_streams s !! stream_id,
            s <| sv_open_streams := delete stream_id (sv_open_streams s) |>))) ;;;
  match held with
  | None => ok None
  | Some h =>
      forget_epoch stream_id ;;;
      s <- call (Peek h) ;;;
      _ <-? lift (stream_close h) ;;;
      (match name with
       | Some name => update (update_tail name tail_reset) ;;; update (notify_closed name)
       | None => Ret tt
       end) ;;;
      ok (Some (wrap_i64 (ss_epoch s)))
  end.

Definition release_for_transfer (stream_id : Z) : R (option Z) :=
  name <- name_of stream_id ;;;
  match name with
  | Some n => with_gate n (release_held name stream_id)
  | None => release_held None stream_id
  end.

(** Source side: the epoch the stream was closed at, and the completion. *)
Definition release_and_complete (view : MetadataView) (stream_id : Z) : P unit :=
  let complete (epoch : Z) : P unit := _ <- call (HandleComplete stream_id epoch) ;;; Ret tt in
  match ms_streams (mv_state view) !! stream_id with
  | None => Ret tt
  | Some row =>
      match sr_state row with
      | Closed => complete (sr_epoch row)
      | Opened =>
          if sr_node_id row =? nh_node_id node then
            released <- release_for_transfer stream_id ;;;
            match released with
            | Ok (Some epoch) => complete epoch
            | Ok None =>
                closed <- call (HandleClose stream_id (sr_epoch row)) ;;;
                match closed with Err _ => Ret tt | Ok _ => complete (sr_epoch row) end
            | Err _ => Ret tt
            end
          else Ret tt
      end
  end.

Fixpoint process_pending (view : MetadataView) (pending : list (Z * PendingTransfer)) (incoming : gset Z) :
    P (gset Z) :=
  match pending with
  | [] => Ret incoming
  | (stream_id, p) :: rest =>
      let incoming := if pt_to_node p =? nh_node_id node then {[stream_id]} ∪ incoming else incoming in
      (if pt_from_node p =? nh_node_id node then release_and_complete view stream_id else Ret tt) ;;;
      process_pending view rest incoming
  end.

Fixpoint process_completed (view : MetadataView) (completed : list Z) : P unit :=
  match completed with
  | [] => Ret tt
  | stream_id :: rest =>
      let owned :=
        match ms_streams (mv_state view) !! stream_id with
        | Some row => (sr_node_id row =? nh_node_id node) && bool_decide (sr_state row = Closed)
        | None => false
        end in
      (if owned then _ <- ensure_open stream_id ;;; Ret tt else Ret tt) ;;;
      process_completed view rest
  end.

Definition process (view : MetadataView) (incoming : gset Z) : P (gset Z) :=
  incoming <- process_pending view (ord_list (ms_pending_transfers (mv_state view))) incoming ;;;
  let completed := filter (λ id, ms_pending_transfers (mv_state view) !! id = None) (elements incoming) in
  process_completed view completed ;;;
  Ret (incoming ∖ list_to_set completed).

(** One turn of the watcher's loop; the set it keeps is [sv_incoming]. *)
Definition watch : P unit :=
  view <- load_view ;;;
  incoming <- read_state sv_incoming ;;;
  incoming <- process view incoming ;;;
  update (λ s, s <| sv_incoming := incoming |>).

(** [PicoNode::transfer_stream] *)
Definition transfer_stream (name : string) (to_node : Z) : R Z :=
  found <-? lookup_stream_id name ;;;
  match found with
  | None => fail (error_of_kind KNotFound)
  | Some stream_id =>
      view <- load_view ;;;
      match ms_streams (mv_state view) !! stream_id with
      | None => fail (error_of_kind KNotFound)
      | Some row =>
          _ <-? lift (call (HandleTransfer stream_id (sr_node_id row) to_node)) ;;;
          ok stream_id
      end
  end.

(** ** Requests *)
Inductive Request :=
| RCreate (command : CreateCommand)
| RHead (name : string)
| RList (pre : string) (start_after : option string) (limit : nat)
| RClose (name : string)
| RDelete (name : string)
| RTrim (name : string) (new_start_offset : Z)
| RAppend (command : AppendCommand)
| RRead (name : string) (from : OffsetToken) (max_bytes max_records : Z)
| RWait (name : string) (from : OffsetToken)
| ROwner (name : string)
| RTransfer (name : string) (to_node : Z)
| RWatch
| RShutdown.

Inductive Outcome :=
| OCreate (r : result CreateResult ServiceError)
| OHead (r : result (option StreamMeta) ServiceError)
| OList (r : result StreamList ServiceError)
| OClose (r : result OffsetToken ServiceError)
| ODelete (r : result bool ServiceError)
| OTrim (r : result Z ServiceError)
| OAppend (r : result AppendResult ServiceError)
| ORead (r : result ReadResult ServiceError)
| OWait (r : result bool ServiceError)
| OOwner (r : result Owner ServiceError)
| OTransfer (r : result Z ServiceError)
| ODone.

Definition handler (r : Request) : P Outcome :=
  match r with
  | RCreate command => r <- create command ;;; Ret (OCreate r)
  | RHead name => r <- head_stream name ;;; Ret (OHead r)
  | RList pre start_after limit => r <- list_streams pre start_after limit ;;; Ret (OList r)
  | RClose name => r <- close_named name ;;; Ret (OClose r)
  | RDelete name => r <- delete_named name ;;; Ret (ODelete r)
  | RTrim name n => r <- trim_named name n ;;; Ret (OTrim r)
  | RAppend command => r <- append command ;;; Ret (OAppend r)
  | RRead name from max_bytes max_records => r <- read name from max_bytes max_records ;;; Ret (ORead r)
  | RWait name from => r <- wait_appended name from ;;; Ret (OWait r)
  | ROwner name => r <- owner_of name ;;; Ret (OOwner r)
  | RTransfer name to_node => r <- transfer_stream name to_node ;;; Ret (OTransfer r)
  | RWatch => watch ;;; Ret ODone
  | RShutdown => shutdown_service ;;; Ret ODone
  end.

(** ** The world *)
Notation "'let!' x ':=' o 'in' k" := (match o with Some x => k | None => None end)
  (at level 200, x name, o at level 100, k at level 200) : prog_scope.

(** A submitted append: its stream handle, place and content, the task that
    submitted it and, once it is known, how it ended. *)
Record Pending := {
  pd_handle : nat;
  pd_offset : Z;
  pd_count : Z;
  pd_payload : list byte;
  pd_task : nat;
  pd_result : option (result unit Error);
}.
#[export] Instance Pending_eta : RecordEta Pending := λ p,
  Build_Pending (pd_handle p) (pd_offset p) (pd_count p) (pd_payload p) (pd_task p) (pd_result p).

(** A task is running, has ended, or its caller dropped it. *)
Inductive TaskState :=
| Running (p : P Outcome)
| Finished (o : Outcome)
| Dropped.

Record World := {
  wd_service : Service;
  wd_sink : LocalSink;
  wd_handles : list S3Stream;
  wd_pendings : list Pending;
  wd_locks : gmap LockId nat;
  wd_tasks : list (Request * TaskState);
}.
#[export] Instance World_eta : RecordEta World := λ w,
  Build_World (wd_service w) (wd_sink w) (wd_handles w) (wd_pendings w) (wd_locks w) (wd_tasks w).

Definition world_new (sink : LocalSink) : World := {|
  wd_service := service_new; wd_sink := sink; wd_handles := []; wd_pendings := []; wd_locks := ∅;
  wd_tasks := [] |}.

(** What the surroundings answer at an event: the clock, a failure, whether
    a failed proposal was applied nevertheless, the batches a fetch returns
    and whether a timer fired. *)
Record Oracle := {
  or_now : Z;
  or_fail : option Error;
  or_applied : bool;
  or_batches : list RecordBatchWithContext;
  or_timeout : bool;
}.

Definition calm (now : Z) : Oracle := {|
  or_now := now; or_fail := None; or_applied := false; or_batches := []; or_timeout := false |}.

(** A proposal: a failure may hide that the command was applied. *)
Definition proposal {A : Set} (o : Oracle) (w : World) (f : LocalSink → LocalSink * result A StreamError) :
    World * result A Error :=
  let '(sink, r) := f (wd_sink w) in
  match or_fail o with
  | Some e => (if or_applied o then w <| wd_sink := sink |> else w, Err e)
  | None => (w <| wd_sink := sink |>, map_err EMetadata r)
  end.

(** [open_stream0]: the handle made from what the metadata answers. *)
Definition open_handle (o : Oracle) (stream_id epoch : Z) (w : World) : World * result nat Error :=
  let '(w, r) := proposal o w (λ s, sm_open_stream s node stream_id epoch) in
  match r with
  | Err e => (w, Err e)
  | Ok md =>
      (w <| wd_handles := wd_handles w ++
              [stream_new stream_id (sm_epoch md) (sm_start_offset md) (sm_end_offset md) false] |>,
       Ok (length (wd_handles w)))
  end.

Definition set_stream (h : nat) (f : S3Stream → S3Stream) (w : World) : World :=
  w <| wd_handles := alter f h (wd_handles w) |>.

(** [await_transfer_settled]: [None] while the loop goes round. *)
Definition settled (o : Oracle) (stream_id : Z) (st : MetadataState) : option (result unit ServiceError) :=
  match ms_pending_transfers st !! stream_id with
  | None => Some (Ok tt)
  | Some pending =>
      if negb (pt_to_node pending =? nh_node_id node) then
        Some (Err (with_message KConflict None false
          (txt "stream {} is transferring to node {}" [stream_id; pt_to_node pending] [])))
      else if or_timeout o then
        Some (Err (with_message KConflict None false
          (txt "stream {} transfer did not settle in time" [stream_id] [])))
      else None
  end.

(** [submit_append]: the reservation, or the refusal of a stream that is
    closed or fenced. *)
Definition submit_append (i h : nat) (count : Z) (body : list byte) (s : S3Stream) (w : World) :
    World * result nat Error :=
  if negb (is_operable s) then (w, Err (EStream (FClosed (ss_stream_id s))))
  else
    let '(s', offset, _) := admit_append count body (begin_append s) in
    (w <| wd_handles := <[h := s']> (wd_handles w) |>
       <| wd_pendings := wd_pendings w ++
            [{| pd_handle := h; pd_offset := offset; pd_count := count; pd_payload := body;
                pd_task := i; pd_result := None |}] |>,
     Ok (length (wd_pendings w))).

(** [close_with] after its waits: [close0], or what an earlier close kept. *)
Definition close_end (o : Oracle) (h : nat) (s : S3Stream) (w : World) : World * result unit Error :=
  match ss_close_result s with
  | Some (Ok _) => (w, Ok tt)
  | Some (Err reason) => (w, Err (EOther reason))
  | None =>
      let '(w, r) := proposal o w (λ k, sm_close_stream k node (ss_stream_id s) (ss_epoch s)) in
      (set_stream h (λ s, s <| ss_close_result :=
         Some (match r with Ok _ => Ok tt | Err _ => Err "close failed"%string end) |>) w, r)
  end.

(** The effect of an event in task [i]; [None] while it has to wait. *)
Definition exec (i : nat) (o : Oracle) {X : Set} (e : Ev X) (w : World) : option (World * X) :=
  match e in Ev X return option (World * X) with
  | Now => Some (w, or_now o)
  | Lock l =>
      match wd_locks w !! l with
      | Some _ => None
      | None => Some (w <| wd_locks := <[l := i]> (wd_locks w) |>, tt)
      end
  | Unlock l => Some (w <| wd_locks := delete l (wd_locks w) |>, tt)
  | State f =>
      let '(x, s) := f (load (ls_views (wd_sink w))) (wd_service w) in
      Some (w <| wd_service := s |>, x)
  | KvGet key =>
      Some (w, match or_fail o with Some e => Err e | None => Ok (kv_get (wd_sink w) key) end)
  | KvPut key value => Some (proposal o w (λ k, kv_put k key value))
  | KvPutIfAbsent key value => Some (proposal o w (λ k, kv_put_if_absent k key value))
  | KvDel key => Some (proposal o w (λ k, kv_del k key))
  | KvList pre =>
      Some (w, match or_fail o with Some e => Err e | None => Ok (kv_list (wd_sink w) pre) end)
  | ClientCreate => Some (proposal o w (λ k, sm_create_stream k node))
  | ClientOpen stream_id epoch => Some (open_handle o stream_id epoch w)
  | Peek h => let! s := wd_handles w !! h in Some (w, s)
  | SubmitAppend h count body =>
      let! s := wd_handles w !! h in
      Some (match or_fail o with Some e => (w, Err e) | None => submit_append i h count body s w end)
  | Durable n => let! p := wd_pendings w !! n in let! r := pd_result p in Some (w, r)
  | Fetch h start_offset end_offset max_bytes =>
      Some (w, match or_fail o with Some e => Err e | None => Ok (or_batches o) end)
  | TrimStart h new_start_offset =>
      let! s := wd_handles w !! h in
      if new_start_offset <? ss_start_offset s then Some (w, false)
      else Some (set_stream h (λ s, s <| ss_start_offset := new_start_offset |>) w, true)
  | TrimEnd h new_start_offset =>
      let! s := wd_handles w !! h in
      Some (proposal o w (λ k, sm_trim_stream k node (ss_stream_id s) (ss_epoch s) new_start_offset))
  | CloseStart h => Some (set_stream h (mark CLOSED_MARK) w, tt)
  | CloseEnd h =>
      let! s := wd_handles w !! h in
      if ss_pending_appends s =? 0 then Some (close_end o h s w) else None
  | DestroyEnd h =>
      let! s := wd_handles w !! h in
      Some (proposal o (set_stream h (λ s, mark DESTROY_MARK s <| ss_start_offset := ss_confirm_offset s |>) w)
              (λ k, sm_delete_stream k node (ss_stream_id s) (ss_epoch s)))
  | Settled stream_id => let! r := settled o stream_id (sink_state (wd_sink w)) in Some (w, r)
  | Parked token =>
      if or_timeout o then Some (w, false)
      else if bool_decide (token ∈ sv_fired (wd_service w)) then Some (w, true) else None
  | HandleClose stream_id epoch =>
      Some (proposal o w (λ k, let '(k, r) := handle_close_stream k node stream_id epoch in
                               (k, map_err to_stream_error r)))
  | HandleComplete stream_id epoch =>
      Some (proposal o w (λ k, let '(k, r) := handle_complete_transfer k stream_id epoch in
                               (k, map_err to_stream_error r)))
  | HandleTransfer stream_id from_node to_node =>
      Some (proposal o w (λ k, let '(k, r) := propose_transfer k stream_id from_node to_node in
                               (k, map_err to_stream_error r)))
  end.

(** The events at which a task is suspended, and so may be dropped. *)
Definition awaits {X : Set} (e : Ev X) : bool :=
  match e with
  | Now | Unlock _ | State _ | Peek _ | SubmitAppend _ _ _ | CloseStart _ => false
  | _ => true
  end.

(** ** Actions *)
Inductive SAction :=
| ASpawn (r : Request)
| AStep (i : nat) (o : Oracle)
| ADrop (i : nat)
| AComplete (p : nat) (r : result unit Error)
| AOther (c : MetadataCommand).

Definition set_task (i : nat) (t : TaskState) (w : World) : World :=
  w <| wd_tasks := alter (λ x, (x.1, t)) i (wd_tasks w) |>.

(** A program that has returned ends its task. *)
Definition settle (p : P Outcome) : TaskState :=
  match p with Ret o => Finished o | _ => Running p end.

(** The completer of [submit_append]: the stream's bookkeeping, then the
    answer to whoever waits. *)
Definition complete (n : nat) (r : result unit Error) (w : World) : option World :=
  let! p := wd_pendings w !! n in
  let! s := wd_handles w !! pd_handle p in
  match pd_result p with
  | Some _ => None
  | None =>
      let s := match r with
               | Ok _ => update_confirm_offset (wrap_u64 (pd_offset p + pd_count p)) s
               | Err _ => mark FENCED_MARK s
               end in
      Some (w <| wd_handles := <[pd_handle p := drop_append s]> (wd_handles w) |>
              <| wd_pendings := <[n := p <| pd_result := Some r |>]> (wd_pendings w) |>)
  end.

Definition sact (a : SAction) (w : World) : option World :=
  match a with
  | ASpawn r => Some (w <| wd_tasks := wd_tasks w ++ [(r, settle (handler r))] |>)
  | AStep i o =>
      let! t := wd_tasks w !! i in
      match t.2 with
      | Running (Vis e k) => let! out := exec i o e w in Some (set_task i (settle (k out.2)) out.1)
      | _ => None
      end
  | ADrop i =>
      let! t := wd_tasks w !! i in
      match t.2 with
      | Running (Vis e _) =>
          if awaits e then
            Some (set_task i Dropped (w <| wd_locks := filter (λ l, l.2 ≠ i) (wd_locks w) |>))
          else None
      | _ => None
      end
  | AComplete p r => complete p r w
  | AOther c => Some (w <| wd_sink := (local_propose (wd_sink w) c).1 |>)
  end.

Fixpoint srun (l : list SAction) (w : World) : option World :=
  match l with
  | [] => Some w
  | a :: l => let! w := sact a w in srun l w
  end.

(** [n] steps of task [i] with the same answers, or fewer if it ends. *)
Fixpoint steps (n : nat) (i : nat) (o : Oracle) (w : World) : World :=
  match n with
  | O => w
  | S n => match sact (AStep i o) w with Some w => steps n i o w | None => w end
  end.
End Service.
