(* ===== verification/ServerFaults.v ===== *)
(** * Runs of the service that break its promises

    Concrete interleavings of [Server]: what is lost, doubled or left
    waiting when a caller goes away, an append fails, a registry entry is
    cached too early or too long, or a reader registers too late. The
    theorems of [ServerInv] exclude exactly these circumstances. *)

From Stdlib Require Import ZArith Lia.
From Stdlib Require Import Strings.Byte.
From stdpp Require Import base numbers list gmap strings.
From S2P Require Import Prelude StreamTypes MetaState MetaApply MetaQuery MetaService.
From S2P Require Import StreamFacade ServerTypes Server.

Open Scope Z_scope.
Open Scope rust_scope.
Open Scope prog_scope.

(** ** A node with one stream *)
Definition no_json : list byte → option (list (list byte) + list byte) := λ _, None.
Definition demo_node : MetadataNodeHandle := {| nh_node_id := 1; nh_node_epoch := 5 |}.
Definition demo_server : World :=
  world_new (local_propose local_new (RegisterNode 1 5 "http://a" 4)).1.

Definition demo_create : CreateCommand := {|
  cc_name := "/s"; cc_content_type := "text/plain"; cc_ttl_seconds := None; cc_expires_at_ms := None;
  cc_closed := false; cc_initial_payload := [] |}.
Definition demo_append (body : list byte) (seq : Z) : AppendCommand := {|
  ac_name := "/s"; ac_payloads := [body]; ac_content_type := Some "text/plain"%string;
  ac_stream_seq := None; ac_match_seq := None;
  ac_producer := Some {| pr_producer_id := "p"; pr_epoch := 0; pr_seq := seq |};
  ac_close_after := false; ac_atomic := false |}.

(** Task [i] goes on for [n] events. *)
Definition go (i n : nat) : list SAction := replicate n (AStep i (calm 1000)).
Definition created : list SAction := ASpawn (RCreate demo_create) :: go 0 17.
Definition demo_run (l : list SAction) : option World := srun no_json demo_node l demo_server.

Definition outcome (w : World) (i : nat) : option Outcome :=
  match wd_tasks w !! i with Some (_, Finished o) => Some o | _ => None end.
Definition accepted (o : option Outcome) : bool :=
  match o with Some (OAppend (Ok r)) => ar_applied r | _ => false end.
Definition refused (o : option Outcome) : option ErrorKind :=
  match o with Some (OAppend (Err e)) => Some (se_kind e) | _ => None end.
Definition stored (w : World) : list (Z * list byte * option (result unit Error)) :=
  (λ p, (pd_offset p, pd_payload p, pd_result p)) <$> wd_pendings w.

Lemma run_exists {A : Type} (o : option A) (Q : A → Prop) :
  match o with Some w => Q w | None => False end → ∃ w, o = Some w ∧ Q w.
Proof. destruct o; [eauto|done]. Qed.

Ltac by_run := apply run_exists; vm_compute; repeat split; try reflexivity.

(** ** Producers *)

(** The caller is gone when the registry entry is to be written: the record
    is submitted, the sequence number is not kept. *)
Definition dropped_run : list SAction :=
  created ++ [ASpawn (RAppend (demo_append [x61] 0))] ++ go 1 7 ++
  [ADrop 1; ASpawn (RAppend (demo_append [x61] 0))] ++ go 2 10 ++
  [AComplete 0 (Ok tt); AComplete 1 (Ok tt)] ++ go 2 3.

(** A producer whose first attempt was dropped between the submission and
    the registry write is accepted again with the same sequence number: one
    record, sent once and retried once, is stored twice. *)
Theorem dropped_caller_writes_twice :
  ∃ w, demo_run dropped_run = Some w ∧ accepted (outcome w 2) = true ∧
    stored w = [(0, [x61], Some (Ok tt)); (1, [x61], Some (Ok tt))].
Proof. by_run. Qed.

(** An append that is not durable, and its retry once the stream was closed
    in the metadata and can be opened again. *)
Definition failed_run : list SAction :=
  created ++ [ASpawn (RAppend (demo_append [x61] 0))] ++ go 1 10 ++
  [AComplete 0 (Err (EOther "record too large"))] ++ go 1 3.
Definition lost_run : list SAction :=
  failed_run ++ [AOther (CloseStream 1 5 0 1); ASpawn (RAppend (demo_append [x61] 0))] ++ go 2 15.

(** The sequence number is kept although the append failed: the caller is
    told so, retries as the protocol asks, and the retry is acknowledged as a
    duplicate of a record that no longer exists anywhere. *)
Theorem lost_append_is_acknowledged :
  ∃ w, demo_run lost_run = Some w ∧ refused (outcome w 1) = Some KDurability ∧
    (∃ r, outcome w 2 = Some (OAppend (Ok r)) ∧ ar_applied r = false ∧ ar_producer_seq r = Some 0) ∧
    stored w = [(0, [x61], Some (Err (EOther "record too large")))].
Proof. by_run. eexists. by split. Qed.

Definition wedged_run : list SAction :=
  failed_run ++ [ASpawn (RAppend (demo_append [x62] 1))] ++ go 2 11.

(** After a failed append the service forgets its handle without closing
    the stream: the metadata still has the stream open on this very node, so
    the next append cannot open it and is refused. *)
Theorem failed_append_wedges_the_stream :
  ∃ w, demo_run wedged_run = Some w ∧
    (∃ e, outcome w 2 = Some (OAppend (Err e)) ∧ se_kind e = KBadRequest ∧
       tx_cause (se_message e) = Some (EMetadata (SE_Unexpected (StreamNotClosed 0)))) ∧
    (∃ row, ms_streams (ls_state (wd_sink w)) !! 0 = Some row ∧ sr_state row = Opened ∧ sr_node_id row = 1).
Proof. by_run; eexists; by split. Qed.

(** ** The entry cache *)

(** The server after a restart: the stream is closed in the metadata, the
    caches are empty. *)
Definition restarted : World := Eval vm_compute in
  match demo_run (created ++ [AOther (CloseStream 1 5 0 1)]) with
  | Some w => world_new (wd_sink w)
  | None => demo_server
  end.

(** A [head] reads the stored entry, a close runs in full, the [head] caches
    what it read. *)
Definition racing_run : list SAction :=
  ASpawn (RHead "/s") :: go 0 2 ++ [ASpawn (RClose "/s")] ++ go 1 20 ++ go 0 1 ++
  [ASpawn (RAppend (demo_append [x61] 0))] ++ go 2 10 ++ [AComplete 0 (Ok tt)] ++ go 2 3.

(** [head] fills the entry cache outside the stream's gate. When a close
    is acknowledged between its read and its write of the cache, the cache
    holds the entry of before the close, and the next append is accepted. *)
Theorem racing_head_reopens_a_closed_stream :
  ∃ w, srun no_json demo_node racing_run restarted = Some w ∧
    outcome w 1 = Some (OClose (Ok (of_record_offset 0))) ∧ accepted (outcome w 2) = true ∧
    stored w = [(0, [x61], Some (Ok tt))].
Proof. by_run. Qed.

(** The stream moves to node 2, which closes it there. *)
Definition moved_entry : list byte := Eval vm_compute in
  match demo_run created with
  | Some w => from_option (λ e, encode (entry_close None e)) [] (sv_entry_cache (wd_service w) !! "/s"%string)
  | None => []
  end.
Definition moved_run : list SAction :=
  created ++ [AOther (RegisterNode 2 1 "http://b" 4); ASpawn (RTransfer "/s" 2)] ++ go 1 3 ++
  [ASpawn RWatch] ++ go 2 15 ++
  [AOther (OpenStream 2 1 0 2); AOther (PutKv "/s" moved_entry); AOther (CloseStream 2 1 0 2);
   ASpawn (RAppend (demo_append [x61] 0))] ++ go 3 19 ++ [AComplete 0 (Ok tt)] ++ go 3 3.

(** A node keeps its cached registry entry when it hands the stream to
    another node. What the other node writes to the entry is not seen: here
    the new owner closes the stream, and the old one goes on accepting
    appends and writes its stale entry over the close marker. *)
Theorem stale_entry_survives_a_transfer :
  ∃ w, demo_run moved_run = Some w ∧ accepted (outcome w 3) = true ∧
    re_closed <$> (ms_kv (ls_state (wd_sink w)) !! "/s"%string ≫= λ v, ok_value (decode v)) = Some false ∧
    re_closed <$> ok_value (decode moved_entry) = Some true.
Proof. by_run. Qed.

(** ** Readers *)

(** A reader finds no data, an append runs in full, the reader registers. *)
Definition missed_run : list SAction :=
  created ++ [ASpawn (RWait "/s" (of_record_offset 0))] ++ go 1 3 ++
  [ASpawn (RAppend (demo_append [x61] 0))] ++ go 2 10 ++ [AComplete 0 (Ok tt)] ++ go 2 3 ++ go 1 2.

(** The check of the confirm offset and the registration of a waiter are
    two steps: an append that completes between them wakes nobody, and the
    reader stays parked although the data it waits for is durable. *)
Theorem waiter_misses_the_append :
  ∃ w, demo_run missed_run = Some w ∧ accepted (outcome w 2) = true ∧
    ss_confirm_offset <$> wd_handles w !! 0%nat = Some 1 ∧
    sv_waiters (wd_service w) !! "/s"%string = Some [{| wt_token := 1; wt_wait_offset := 0 |}] ∧
    bool_decide (1 ∈ sv_fired (wd_service w)) = false.
Proof. by_run. Qed.

(** Two pipelined appends, of which the first fails; the stream is opened
    again from its committed end, and two more appends succeed. *)
Definition stale_tail_run : list SAction :=
  created ++
  [ASpawn (RAppend (demo_append [x61] 0))] ++ go 1 10 ++
  [ASpawn (RAppend (demo_append [x62] 1))] ++ go 2 10 ++
  [AComplete 0 (Err (EOther "record too large"))] ++ go 1 3 ++ [AComplete 1 (Ok tt)] ++ go 2 3 ++
  [AOther (CloseStream 1 5 0 1); ASpawn (RAppend (demo_append [x63] 2))] ++ go 3 19 ++
  [AComplete 2 (Ok tt)] ++ go 3 3 ++
  [ASpawn (RAppend (demo_append [x64] 3))] ++ go 4 10 ++ [AComplete 3 (Ok tt)] ++ go 4 3 ++
  [ASpawn (RRead "/s" (of_record_offset 1) 0 0)] ++ go 5 7.

(** The tail cache outlives the stream it was filled from: a record that
    was appended behind a failed one stays cached, the reopened stream
    assigns its offset again, and a read of that offset returns the old
    payload, not the record that is stored there. *)
Theorem tail_cache_serves_a_stale_record :
  ∃ w, demo_run stale_tail_run = Some w ∧
    (∃ r, outcome w 5 = Some (ORead (Ok r)) ∧
       rd_records r = [{| rec_offset := of_record_offset 1; rec_payload := [x62] |}]) ∧
    pd_payload <$> filter (λ p, pd_handle p = 1%nat ∧ pd_offset p = 1) (wd_pendings w) = [[x64]].
Proof. by_run. eexists. by split. Qed.

(** ** Creation *)
Definition bad_create : CreateCommand := {|
  cc_name := "/j"; cc_content_type := "application/json"; cc_ttl_seconds := None;
  cc_expires_at_ms := None; cc_closed := false; cc_initial_payload := [x7b] |}.
Definition bad_create_run : list SAction :=
  ASpawn (RCreate bad_create) :: go 0 14 ++ [ASpawn (RHead "/j")] ++ go 1 5.

(** The initial payload is parsed after the name was registered: a create
    that is refused for an invalid body leaves the stream behind. *)
Theorem refused_create_registers_the_stream :
  ∃ w, demo_run bad_create_run = Some w ∧
    (∃ e, outcome w 0 = Some (OCreate (Err e)) ∧ se_kind e = KBadRequest) ∧
    (∃ m, outcome w 1 = Some (OHead (Ok (Some m))) ∧ me_name m = "/j"%string).
Proof. by_run; eexists; by split. Qed.
