(* ===== verification/ServerInv.v ===== *)
(** * Producers of the named-stream service are deduplicated

    A small program logic for the programs of [Server]: [wp] says what holds
    after a program whose events are interleaved with those of other tasks,
    as long as these respect what the gate of a name protects. With it every
    handler keeps an invariant of one name, from which each producer sequence
    number is submitted by at most one call. *)

From Stdlib Require Import ZArith Lia.
From Stdlib Require Import Strings.Byte.
From stdpp Require Import base numbers list gmap relations strings.
From S2P Require Import Prelude StreamTypes MetaState MetaApply MetaQuery MetaPolicy MetaService.
From S2P Require Import StreamFacade ServerTypes Server ServerFaults.

Open Scope Z_scope.
Open Scope rust_scope.
Open Scope prog_scope.

(** ** What a name's gate protects *)
Section Name.
Context (node : MetadataNodeHandle) (n : string).

Definition holder (w : World) : option nat := wd_locks w !! GateLock n.
Definition kv_n (w : World) : option (list byte) := kv_get (wd_sink w) n.
Definition cache_n (w : World) : option RegistryEntry := sv_entry_cache (wd_service w) !! n.

(** The entries a task may find for the name. *)
Definition entries (w : World) (e : RegistryEntry) : Prop :=
  cache_n w = Some e ∨ ∃ v, kv_n w = Some v ∧ decode v = Ok e.

Definition producer_of (w : World) (i : nat) : option Producer :=
  match wd_tasks w !! i with
  | Some (RAppend c, _) => if bool_decide (normalize (ac_name c) = n) then ac_producer c else None
  | _ => None
  end.

Definition stream_of (w : World) (h : nat) : option Z := ss_stream_id <$> wd_handles w !! h.

(** Task [i] submitted append [q] of producer [p] to stream [s]. *)
Definition sub (w : World) (q i : nat) (s : Z) (p : Producer) : Prop :=
  ∃ pd, wd_pendings w !! q = Some pd ∧ pd_task pd = i ∧ producer_of w i = Some p ∧
    stream_of w (pd_handle pd) = Some s.

(** The entry knows the producer at this sequence number or a later one. *)
Definition covered (e : RegistryEntry) (p : Producer) : Prop :=
  ∃ st, re_producers e !! pr_producer_id p = Some st ∧
    (pr_epoch p < ps_epoch st ∨ pr_epoch p = ps_epoch st ∧ pr_seq p <= ps_last_seq st).

Definition good_results (w : World) : Prop :=
  ∀ q pd p, wd_pendings w !! q = Some pd → producer_of w (pd_task pd) = Some p →
    pd_result pd = None ∨ pd_result pd = Some (Ok tt).

(** The part of the invariant that is about the name. *)
Record name_inv (w : World) : Prop := {
  ni_typed : ∀ e, cache_n w = Some e → entry_typed e;
  ni_kv : ∀ v, kv_n w = Some v → ∃ e, v = encode e ∧ entry_typed e;
  ni_covered : ∀ e q i s p, entries w e → sub w q i s p → holder w ≠ Some i → re_stream_id e = s → covered e p;
  ni_once : ∀ q1 q2 i1 i2 s p, sub w q1 i1 s p → sub w q2 i2 s p → i1 = i2;
  ni_results : good_results w;
  ni_tasks : ∀ q pd, wd_pendings w !! q = Some pd → (pd_task pd < length (wd_tasks w))%nat;
}.

(** The part that is about the node: kept handles belong to their stream and
    the published view is the state. *)
Record node_inv (w : World) : Prop := {
  no_open : ∀ s h, sv_open_streams (wd_service w) !! s = Some h → stream_of w h = Some s;
  no_pending : ∀ q pd, wd_pendings w !! q = Some pd → is_Some (stream_of w (pd_handle pd));
  no_view : mv_state (load (ls_views (wd_sink w))) = ls_state (wd_sink w);
}.

Definition J (w : World) : Prop := name_inv w ∧ node_inv w.

(** ** Steps that leave the name alone *)
Record quiet (w w' : World) : Prop := {
  qu_holder : holder w' = holder w;
  qu_cache : cache_n w' = cache_n w ∨ cache_n w' = None;
  qu_kv : kv_n w' = kv_n w ∨ kv_n w' = None;
  qu_subs : ∀ q i s p, sub w' q i s p ↔ sub w q i s p;
  qu_tasks : wd_tasks w' = wd_tasks w;
  qu_streams : ∀ h s, stream_of w h = Some s → stream_of w' h = Some s;
  qu_results : good_results w → good_results w';
  qu_pending : ∀ q pd, wd_pendings w' !! q = Some pd → (pd_task pd < length (wd_tasks w))%nat ∨
    ∃ q' pd', wd_pendings w !! q' = Some pd' ∧ pd_task pd = pd_task pd';
}.

(** What task [i] may rely on when other tasks act. *)
Record rely (i : nat) (w w' : World) : Prop := {
  rl_out : holder w ≠ Some i → holder w' ≠ Some i;
  rl_in : holder w = Some i → holder w' = Some i ∧
    (cache_n w' = cache_n w ∨ cache_n w' = None) ∧ (kv_n w' = kv_n w ∨ kv_n w' = None) ∧
    (∀ q j s p, sub w' q j s p ↔ sub w q j s p);
  rl_own : ∀ q s p, sub w' q i s p ↔ sub w q i s p;
  rl_request : fst <$> wd_tasks w !! i = fst <$> wd_tasks w' !! i;
  rl_streams : ∀ h s, stream_of w h = Some s → stream_of w' h = Some s;
}.

Lemma quiet_rely i w w' : quiet w w' → rely i w w'.
Proof.
  intros [Hh Hc Hk Hs Ht Hst _ _]. split; rewrite ?Hh, ?Ht; auto.
Qed.

Lemma quiet_entries w w' e : quiet w w' → entries w' e → entries w e.
Proof.
  intros [_ Hc Hk _ _ _ _ _] [He|(v & Hv & He)].
  - destruct Hc as [Hc|Hc]; rewrite Hc in He; [by left|done].
  - destruct Hk as [Hk|Hk]; rewrite Hk in Hv; [right; eauto|done].
Qed.

Lemma quiet_name_inv w w' : quiet w w' → name_inv w → name_inv w'.
Proof.
  intros Hq [H1 H2 H3 H4 H5 H6]. pose proof Hq as [Hh Hc Hk Hs Ht Hst Hr Hp]. split.
  - intros e He. destruct Hc as [Hc|Hc]; rewrite Hc in He; [auto|done].
  - intros v Hv. destruct Hk as [Hk|Hk]; rewrite Hk in Hv; [auto|done].
  - intros e q i s p He%(quiet_entries _ _ _ Hq) Hsub%Hs. rewrite Hh. by eapply H3.
  - intros q1 q2 i1 i2 s p ?%Hs ?%Hs. by eapply H4.
  - auto.
  - intros q pd Hpd. rewrite Ht. destruct (Hp _ _ Hpd) as [?|(q' & pd' & ? & ->)]; eauto.
Qed.

(** ** The logic *)

(** The circumstances under which producers are deduplicated: what is
    written about the name is written and fits its format, a producer's
    appends are admitted, and the stored entry is only read under the gate. *)
Definition okev (i : nat) (o : Oracle) {X : Set} (e : Ev X) (w : World) : Prop :=
  match e with
  | KvGet k => k = n → holder w = Some i
  | KvPut k v => k = n → or_fail o = None ∧ Z.of_nat (length v) < two31
  | SubmitAppend h _ _ =>
      is_Some (producer_of w i) → or_fail o = None ∧ is_operable <$> wd_handles w !! h = Some true
  | _ => True
  end.

Fixpoint wp (i : nat) {A : Set} (p : P A) (Φ : A → World → Prop) (w : World) : Prop :=
  match p with
  | Ret a => Φ a w
  | Vis e k =>
      ∀ w1, rtc (rely i) w w1 → J w1 →
      ∀ o w2 x, okev i o e w1 → exec node i o e w1 = Some (w2, x) →
        (∀ j, j ≠ i → rely j w1 w2) ∧ J w2 ∧ wp i (k x) Φ w2
  end.

Lemma wp_mono i {A : Set} (p : P A) (Φ Ψ : A → World → Prop) w :
  (∀ a w, Φ a w → Ψ a w) → wp i p Φ w → wp i p Ψ w.
Proof.
  intros HΦ. revert w. induction p as [a|X e k IH]; intros w H; [by apply HΦ|].
  intros w1 Hr HJ o w2 x Ho He. destruct (H w1 Hr HJ o w2 x Ho He) as (? & ? & ?). auto.
Qed.

Lemma wp_bind i {A B : Set} (p : P A) (f : A → P B) Φ w :
  wp i p (λ a, wp i (f a) Φ) w → wp i (bind p f) Φ w.
Proof.
  revert w. induction p as [a|X e k IH]; intros w H; [done|].
  intros w1 Hr HJ o w2 x Ho He. destruct (H w1 Hr HJ o w2 x Ho He) as (? & ? & ?). auto.
Qed.

(** Facts that other tasks and quiet steps keep. *)
Definition stable (i : nat) (K : World → Prop) : Prop :=
  (∀ w w', rely i w w' → K w → K w') ∧ (∀ w w', quiet w w' → K w → K w').

Lemma stable_rely i K w w' : stable i K → rtc (rely i) w w' → K w → K w'.
Proof. intros [H _]. induction 1; eauto. Qed.

(** An event that is quiet in every world keeps every stable fact. *)
Lemma wp_event i {A X : Set} (e : Ev X) (k : X → P A) K Φ w :
  stable i K → K w →
  (∀ o w1 w2 x, J w1 → K w1 → okev i o e w1 → exec node i o e w1 = Some (w2, x) →
     quiet w1 w2 ∧ node_inv w2 ∧ (K w2 → wp i (k x) Φ w2)) →
  wp i (Vis e k) Φ w.
Proof.
  intros HK Hw He w1 Hr HJ o w2 x Ho Hx.
  pose proof (stable_rely _ _ _ _ HK Hr Hw) as Hw1.
  destruct (He o w1 w2 x HJ Hw1 Ho Hx) as (Hq & Hn & Hk).
  split; [intros j _; by apply quiet_rely|]. split.
  - split; [|done]. by apply (quiet_name_inv w1), HJ.
  - apply Hk. by eapply (proj2 HK).
Qed.

(** ** Quiet events *)
Lemma quiet_same w w' :
  node_inv w → holder w' = holder w → (cache_n w' = cache_n w ∨ cache_n w' = None) →
  (kv_n w' = kv_n w ∨ kv_n w' = None) → wd_pendings w' = wd_pendings w → wd_tasks w' = wd_tasks w →
  (∀ h s, stream_of w h = Some s → stream_of w' h = Some s) → quiet w w'.
Proof.
  intros Hn Hh Hc Hk Hp Ht Hs.
  assert (Hprod : ∀ i, producer_of w' i = producer_of w i) by (intros i; unfold producer_of; by rewrite Ht).
  split; try done.
  - intros q i s p. unfold sub. split; intros (pd & Hpd & Hi & Hpr & Hst); exists pd;
      rewrite ?Hp, ?Hprod in *; split_and!; auto.
    destruct (no_pending _ Hn q pd Hpd) as [s' Hs']. rewrite Hs'. rewrite (Hs _ _ Hs') in Hst. congruence.
  - intros Hr q pd p. rewrite Hp, Hprod. apply Hr.
  - intros q pd Hpd. rewrite Hp in Hpd. right. eauto.
Qed.

Lemma quiet_refl w : node_inv w → quiet w w.
Proof. intros. apply quiet_same; auto. Qed.

(** *** Commands *)
Definition view_ok (s : LocalSink) : Prop := mv_state (load (ls_views s)) = ls_state s.

(** The command does not write the name's entry. *)
Definition spares (c : MetadataCommand) : Prop :=
  match c with PutKv k _ | PutKvIfAbsent k _ => k ≠ n | _ => True end.

(** A manager call that keeps the stored entry, or deletes it. *)
Definition kv_quiet {A : Type} (f : LocalSink → LocalSink * A) : Prop :=
  ∀ s, view_ok s → view_ok (f s).1 ∧ (kv_get (f s).1 n = kv_get s n ∨ kv_get (f s).1 n = None).

Lemma local_propose_view s c : view_ok s → view_ok (local_propose s c).1.
Proof.
  intros Hs. unfold local_propose. destruct (apply (ls_state s) c) as [st [r|e]] eqn:Ha; cbn; [done|].
  unfold view_ok in *. cbn. rewrite Hs. unfold apply in Ha. destruct (apply_inner _ _) as [? []]; congruence.
Qed.

Lemma local_propose_kv s c :
  view_ok s → ms_kv (mv_state (load (ls_views (local_propose s c).1))) = kv_step (ms_kv (ls_state s)) c.
Proof.
  intros Hs. pose proof (local_propose_view s c Hs) as Hv. unfold view_ok in Hv. rewrite Hv.
  rewrite <-apply_kv. unfold local_propose. by destruct (apply (ls_state s) c) as [st []].
Qed.

Lemma kv_quiet_propose c : spares c → kv_quiet (λ s, local_propose s c).
Proof.
  intros Hc s Hs. split; [by apply local_propose_view|].
  unfold kv_get, sink_state, get_kv. cbn [sink_views local_sink]. rewrite local_propose_kv by done.
  unfold view_ok in Hs. rewrite Hs. destruct c; cbn in *; auto.
  - left. by rewrite lookup_insert_ne.
  - left. destruct (decide _); [done|]. by rewrite lookup_insert_ne.
  - destruct (decide (key = n)) as [->|]; [right; by rewrite lookup_delete_eq|left; by rewrite lookup_delete_ne].
Qed.

Lemma kv_quiet_first {A : Type} (f : LocalSink → LocalSink * A) c :
  spares c → (∀ s, (f s).1 = (local_propose s c).1) → kv_quiet f.
Proof. intros Hc Hf s Hs. rewrite Hf. by apply (kv_quiet_propose c Hc s Hs). Qed.

(** Every manager call is one proposal. *)
Ltac kv_call :=
  eapply kv_quiet_first;
  [|intros s; unfold kv_put, kv_put_if_absent, kv_del, sm_create_stream, sm_open_stream, sm_trim_stream,
      sm_close_stream, sm_delete_stream, handle_close_stream, handle_complete_transfer, propose_transfer,
      propose_unit, then_result, handle_propose; cbn [propose local_sink fst];
    match goal with |- context [local_propose s ?c] => instantiate (1 := c); by destruct (local_propose s c) end];
  done.

Lemma kv_quiet_put k v : k ≠ n → kv_quiet (λ s, kv_put s k v).
Proof. intros. kv_call. Qed.
Lemma kv_quiet_put_if_absent k v : k ≠ n → kv_quiet (λ s, kv_put_if_absent s k v).
Proof. intros. kv_call. Qed.
Lemma kv_quiet_del k : kv_quiet (λ s, kv_del s k).
Proof. kv_call. Qed.
Lemma kv_quiet_create : kv_quiet (λ s, sm_create_stream s node).
Proof. kv_call. Qed.
Lemma kv_quiet_open sid ep : kv_quiet (λ s, sm_open_stream s node sid ep).
Proof. kv_call. Qed.
Lemma kv_quiet_trim sid ep off : kv_quiet (λ s, sm_trim_stream s node sid ep off).
Proof. kv_call. Qed.
Lemma kv_quiet_close sid ep : kv_quiet (λ s, sm_close_stream s node sid ep).
Proof. kv_call. Qed.
Lemma kv_quiet_delete sid ep : kv_quiet (λ s, sm_delete_stream s node sid ep).
Proof. kv_call. Qed.
Lemma kv_quiet_hclose sid ep :
  kv_quiet (λ k, let '(k, r) := handle_close_stream k node sid ep in (k, map_err to_stream_error r)).
Proof. kv_call. Qed.
Lemma kv_quiet_hcomplete sid ep :
  kv_quiet (λ k, let '(k, r) := handle_complete_transfer k sid ep in (k, map_err to_stream_error r)).
Proof. kv_call. Qed.
Lemma kv_quiet_htransfer sid a b :
  kv_quiet (λ k, let '(k, r) := propose_transfer k sid a b in (k, map_err to_stream_error r)).
Proof. kv_call. Qed.

Create HintDb quiet.
Hint Resolve kv_quiet_put kv_quiet_put_if_absent kv_quiet_del kv_quiet_create kv_quiet_open kv_quiet_trim
  kv_quiet_close kv_quiet_delete kv_quiet_hclose kv_quiet_hcomplete kv_quiet_htransfer quiet_refl : quiet.

(** *** Worlds that differ in one component *)
Lemma quiet_sink w sink :
  node_inv w → view_ok sink → (kv_get sink n = kv_n w ∨ kv_get sink n = None) →
  quiet w (w <| wd_sink := sink |>) ∧ node_inv (w <| wd_sink := sink |>).
Proof. intros Hn Hv Hk. split; [by apply quiet_same; auto|]. destruct Hn. by split. Qed.

Lemma quiet_proposal {A : Set} o w (f : LocalSink → LocalSink * result A StreamError) :
  kv_quiet f → node_inv w →
  quiet w (proposal o w f).1 ∧ node_inv (proposal o w f).1.
Proof.
  intros Hf Hn. destruct (Hf (wd_sink w) (no_view _ Hn)) as [Hv Hk]. unfold proposal.
  destruct (f (wd_sink w)) as [sink r]. cbn in *. destruct (or_fail o); [destruct (or_applied o)|]; cbn;
    [by apply quiet_sink|by auto with quiet|by apply quiet_sink].
Qed.

Lemma quiet_handles w hs :
  node_inv w → (∀ h s, stream_of w h = Some s → ss_stream_id <$> hs !! h = Some s) →
  quiet w (w <| wd_handles := hs |>) ∧ node_inv (w <| wd_handles := hs |>).
Proof.
  intros Hn Hs. split; [by apply quiet_same; auto|]. destruct Hn as [H1 H2 H3]. split; [| |done].
  - intros s h Hh. apply Hs, H1, Hh.
  - intros q pd Hpd. destruct (H2 q pd Hpd) as [s Hst]. exists s. by apply Hs.
Qed.

Lemma quiet_set_stream w h f :
  node_inv w → (∀ s, ss_stream_id (f s) = ss_stream_id s) →
  quiet w (set_stream h f w) ∧ node_inv (set_stream h f w).
Proof.
  intros Hn Hf. apply quiet_handles; [done|]. intros h' s. unfold stream_of.
  destruct (decide (h = h')) as [<-|].
  - rewrite list_lookup_alter_eq. destruct (wd_handles w !! h); cbn; [|done]. by rewrite Hf.
  - by rewrite list_lookup_alter_ne.
Qed.

Lemma quiet_locks w l m :
  node_inv w → l ≠ GateLock n → (∀ l', l' ≠ l → m !! l' = wd_locks w !! l') →
  quiet w (w <| wd_locks := m |>) ∧ node_inv (w <| wd_locks := m |>).
Proof.
  intros Hn Hl Hm. split; [|by destruct Hn].
  apply quiet_same; auto. unfold holder. cbn. by apply Hm.
Qed.

Lemma quiet_trans w1 w2 w3 : quiet w1 w2 → quiet w2 w3 → quiet w1 w3.
Proof.
  intros [A1 A2 A3 A4 A5 A6 A7 A8] [B1 B2 B3 B4 B5 B6 B7 B8]. split; try congruence; auto.
  - destruct B2 as [->|]; auto.
  - destruct B3 as [->|]; auto.
  - intros q i s p. by rewrite B4.
  - intros q pd Hq. destruct (B8 q pd Hq) as [Hl|(q' & pd' & Hq' & ->)]; [left; congruence|by eapply A8].
Qed.

Lemma quiet_open_handle o sid ep w w2 r :
  node_inv w → open_handle node o sid ep w = (w2, r) →
  quiet w w2 ∧ node_inv w2 ∧ ∀ h, r = Ok h → stream_of w2 h = Some sid.
Proof.
  unfold open_handle. intros Hn H.
  destruct (quiet_proposal o w _ (kv_quiet_open sid ep) Hn) as [Hq Hn1].
  destruct (proposal o w _) as [w1 [md|e]]; cbn in *; [|by simplify_eq].
  injection H as <- <-. destruct (quiet_handles w1
    (wd_handles w1 ++ [stream_new sid (sm_epoch md) (sm_start_offset md) (sm_end_offset md) false]) Hn1)
    as [Hq2 Hn2].
  { intros h s Hs. unfold stream_of in Hs. destruct (wd_handles w1 !! h) eqn:E; [|done].
    by erewrite lookup_app_l_Some. }
  split; [by eapply quiet_trans|]. split; [done|]. intros h [= <-]. unfold stream_of. cbn.
  by rewrite lookup_app_r, Nat.sub_diag.
Qed.

(** *** A submission without a producer *)
Lemma quiet_submit i h c body s w w2 r :
  node_inv w → wd_handles w !! h = Some s → producer_of w i = None → (i < length (wd_tasks w))%nat →
  submit_append i h c body s w = (w2, r) → quiet w w2 ∧ node_inv w2.
Proof.
  intros Hn Hh Hp Hi. unfold submit_append. destruct (is_operable s); cbn [negb]; [|intros [= <- <-]; auto with quiet].
  intros [= <- _].
  set (s' := (admit_append c body (begin_append s)).1.1).
  destruct (quiet_handles w (<[h := s']> (wd_handles w)) Hn) as [Hq1 Hn1].
  { intros h' x Hx. unfold stream_of in Hx. destruct (decide (h = h')) as [<-|].
    - rewrite list_lookup_insert_eq by (by eapply lookup_lt_Some). rewrite Hh in Hx. by cbn in *.
    - by rewrite list_lookup_insert_ne. }
  set (w1 := w <| wd_handles := <[h := s']> (wd_handles w) |>) in *.
  assert (Hst : is_Some (stream_of w1 h)).
  { exists (ss_stream_id s). apply (qu_streams _ _ Hq1). unfold stream_of. by rewrite Hh. }
  set (pd := {| pd_handle := h; pd_offset := _; pd_count := _; pd_payload := _; pd_task := i; pd_result := None |}).
  split.
  - eapply quiet_trans; [exact Hq1|]. split; auto.
    + intros q j s0 p. unfold sub. cbn. split; intros (pd' & Hq & Hj & Hpr & Hs); exists pd'; split_and!; auto.
      * apply lookup_app_Some in Hq as [?|[_ Hq]]; [done|]. apply list_lookup_singleton_Some in Hq as [_ <-].
        cbn in Hj. subst j. unfold producer_of in *. cbn in Hpr. congruence.
      * by apply lookup_app_l_Some.
    + intros Hr q pd' p Hq Hpr. cbn in Hq. apply lookup_app_Some in Hq as [Hq|[_ Hq]].
      * by eapply Hr.
      * apply list_lookup_singleton_Some in Hq as [_ <-]. by left.
    + intros q pd' Hq. cbn in Hq. apply lookup_app_Some in Hq as [Hq|[_ Hq]]; [right; eauto|].
      apply list_lookup_singleton_Some in Hq as [_ <-]. by left.
  - destruct Hn1 as [H1 H2 H3]. split; [done| |done]. intros q pd' Hq. cbn in Hq.
    apply lookup_app_Some in Hq as [Hq|[_ Hq]]; [by eapply H2|].
    apply list_lookup_singleton_Some in Hq as [_ <-]. exact Hst.
Qed.

(** ** Quiet programs *)

(** [p] keeps every stable fact, from worlds with [F], and ends with [Q]. *)
Definition qt (i : nat) (F : World → Prop) {A : Set} (p : P A) (Q : A → World → Prop) : Prop :=
  ∀ K w, stable i K → K w → F w → wp i p (λ a w', K w' ∧ Q a w') w.

Definition anything : World → Prop := λ _, True.
Definition whatever {A : Set} : A → World → Prop := λ _ _, True.

Lemma stable_and i K F : stable i K → stable i F → stable i (λ w, K w ∧ F w).
Proof. intros [K1 K2] [F1 F2]. split; intros w w' H []; eauto. Qed.
Lemma stable_true i : stable i anything.
Proof. done. Qed.

Lemma qt_weaken i (F F' : World → Prop) {A : Set} (p : P A) Q Q' :
  qt i F p Q → (∀ w, F' w → F w) → (∀ a w, Q a w → Q' a w) → qt i F' p Q'.
Proof.
  intros H HF HQ K w HK Hw Hf. eapply wp_mono; [|by apply H; auto]. intros a w' []; auto.
Qed.

Lemma qt_ret i F {A : Set} (a : A) (Q : A → World → Prop) : (∀ w, F w → Q a w) → qt i F (Ret a) Q.
Proof. intros HQ K w HK Hw Hf. cbn. auto. Qed.

Lemma qt_bind i F {A B : Set} (p : P A) (f : A → P B) Q1 Q :
  qt i F p Q1 → (∀ a, qt i (Q1 a) (f a) Q) → qt i F (bind p f) Q.
Proof.
  intros Hp Hf K w HK Hw HF. apply wp_bind. eapply wp_mono; [|by apply Hp].
  intros a w' [Hk HQ]. by apply (Hf a).
Qed.

(** A stable precondition lasts. *)
Lemma qt_frame i F {A : Set} (p : P A) Q :
  stable i F → qt i F p Q → qt i F p (λ a w, F w ∧ Q a w).
Proof.
  intros HF Hp K w HK Hw Hf.
  eapply wp_mono; [|by apply (Hp (λ w, K w ∧ F w)); [apply stable_and|..]]. intros a w' [[] ?]. auto.
Qed.

Lemma qt_seq i F {A B : Set} (p : P A) (f : A → P B) Q :
  stable i F → qt i anything p whatever → (∀ a, qt i F (f a) Q) → qt i F (bind p f) Q.
Proof.
  intros HF Hp Hf. eapply qt_bind; [apply qt_frame; [done|by eapply qt_weaken]|].
  intros a. eapply qt_weaken; [apply Hf|by intros w []|done].
Qed.

Lemma qt_call i F {X : Set} (e : Ev X) Q :
  stable i F →
  (∀ o w1 w2 x, J w1 → F w1 → okev i o e w1 → exec node i o e w1 = Some (w2, x) →
     quiet w1 w2 ∧ node_inv w2 ∧ Q x w2) →
  qt i F (call e) Q.
Proof.
  intros HF He K w HK Hw Hf. eapply (wp_event i _ _ (λ w, K w ∧ F w)); [by apply stable_and|done|].
  intros o w1 w2 x HJ [HK1 HF1] Ho Hx. destruct (He o w1 w2 x HJ HF1 Ho Hx) as (? & ? & ?).
  split_and!; auto. intros [HK2 _]. by split.
Qed.

(** An event that only changes the world by a quiet step. *)
Lemma qt_plain i {X : Set} (e : Ev X) :
  (∀ o w1 w2 x, J w1 → okev i o e w1 → exec node i o e w1 = Some (w2, x) → quiet w1 w2 ∧ node_inv w2) →
  qt i anything (call e) whatever.
Proof.
  intros He. apply qt_call; [apply stable_true|]. intros o w1 w2 x HJ _ Ho Hx.
  destruct (He _ _ _ _ HJ Ho Hx). by split_and!.
Qed.

Ltac exec_inv H :=
  cbn in H; repeat case_match; simplify_eq/=.

Lemma same_world w : J w → quiet w w ∧ node_inv w.
Proof. intros []. auto with quiet. Qed.

Lemma surjective {A B : Type} (p : A * B) a b : p = (a, b) → p.1 = a.
Proof. by intros ->. Qed.

Lemma proposal_quiet {A : Set} o w (f : LocalSink → LocalSink * result A StreamError) w2 r :
  kv_quiet f → J w → proposal o w f = (w2, r) → quiet w w2 ∧ node_inv w2.
Proof. intros Hf [_ Hn] <-%surjective. by apply quiet_proposal. Qed.

(** The events without a place in the name's protocol. *)
Lemma qt_now i : qt i anything now_ms whatever.
Proof. apply qt_plain. intros o w1 w2 x HJ _ H. exec_inv H. by apply same_world. Qed.
Lemma qt_kvget i k : qt i anything (call (KvGet k)) whatever.
Proof. apply qt_plain. intros o w1 w2 x HJ _ H. exec_inv H; by apply same_world. Qed.
Lemma qt_kvlist i k : qt i anything (call (KvList k)) whatever.
Proof. apply qt_plain. intros o w1 w2 x HJ _ H. exec_inv H; by apply same_world. Qed.
Lemma qt_peek i h : qt i anything (call (Peek h)) whatever.
Proof. apply qt_plain. intros o w1 w2 x HJ _ H. exec_inv H; by apply same_world. Qed.
Lemma qt_durable i q : qt i anything (call (Durable q)) whatever.
Proof. apply qt_plain. intros o w1 w2 x HJ _ H. exec_inv H; by apply same_world. Qed.
Lemma qt_fetch i h a b c : qt i anything (call (Fetch h a b c)) whatever.
Proof. apply qt_plain. intros o w1 w2 x HJ _ H. exec_inv H; by apply same_world. Qed.
Lemma qt_settled i s : qt i anything (call (Settled s)) whatever.
Proof. apply qt_plain. intros o w1 w2 x HJ _ H. cbn in H. case_match; [|done]. simplify_eq. by apply same_world. Qed.
Lemma qt_parked i t : qt i anything (call (Parked t)) whatever.
Proof. apply qt_plain. intros o w1 w2 x HJ _ H. exec_inv H; by apply same_world. Qed.

Lemma qt_lock i l : l ≠ GateLock n → qt i anything (call (Lock l)) whatever.
Proof.
  intros Hl. apply qt_plain. intros o w1 w2 x [_ HJ] _ H. exec_inv H.
  apply (quiet_locks _ l); [done..|]. intros l' ?. by rewrite lookup_insert_ne.
Qed.
Lemma qt_unlock i l : l ≠ GateLock n → qt i anything (call (Unlock l)) whatever.
Proof.
  intros Hl. apply qt_plain. intros o w1 w2 x [_ HJ] _ H. exec_inv H.
  apply (quiet_locks _ l); [done..|]. intros l' ?. by rewrite lookup_delete_ne.
Qed.

Lemma qt_kvput i k v : k ≠ n → qt i anything (call (KvPut k v)) whatever.
Proof.
  intros Hk. apply qt_plain. intros o w1 w2 x HJ _ [= H].
  eapply proposal_quiet; [|done|exact H]. by apply kv_quiet_put.
Qed.
Lemma qt_kvputabsent i k v : k ≠ n → qt i anything (call (KvPutIfAbsent k v)) whatever.
Proof.
  intros Hk. apply qt_plain. intros o w1 w2 x HJ _ [= H].
  eapply proposal_quiet; [|done|exact H]. by apply kv_quiet_put_if_absent.
Qed.
Lemma qt_kvdel i k : qt i anything (call (KvDel k)) whatever.
Proof.
  apply qt_plain. intros o w1 w2 x HJ _ [= H].
  eapply proposal_quiet; [|done|exact H]. apply kv_quiet_del.
Qed.

#[local] Arguments proposal : simpl never.
#[local] Arguments open_handle : simpl never.
#[local] Arguments close_end : simpl never.
#[local] Arguments submit_append : simpl never.

Lemma qt_hclose i s ep : qt i anything (call (HandleClose s ep)) whatever.
Proof.
  apply qt_plain. intros o w1 w2 x HJ _ [= H]. eapply proposal_quiet; [|done|exact H]. apply kv_quiet_hclose.
Qed.
Lemma qt_hcomplete i s ep : qt i anything (call (HandleComplete s ep)) whatever.
Proof.
  apply qt_plain. intros o w1 w2 x HJ _ [= H]. eapply proposal_quiet; [|done|exact H]. apply kv_quiet_hcomplete.
Qed.
Lemma qt_htransfer i s a b : qt i anything (call (HandleTransfer s a b)) whatever.
Proof.
  apply qt_plain. intros o w1 w2 x HJ _ [= H]. eapply proposal_quiet; [|done|exact H]. apply kv_quiet_htransfer.
Qed.

Lemma qt_trimstart i h off : qt i anything (call (TrimStart h off)) whatever.
Proof.
  apply qt_plain. intros o w1 w2 x HJ _ H. exec_inv H; [by apply same_world|].
  by apply quiet_set_stream; [apply HJ|].
Qed.
Lemma qt_trimend i h off : qt i anything (call (TrimEnd h off)) whatever.
Proof.
  apply qt_plain. intros o w1 w2 x HJ _ H. cbn in H. case_match; [|done]. injection H as H.
  eapply proposal_quiet; [|done|exact H]. apply kv_quiet_trim.
Qed.
Lemma qt_closestart i h : qt i anything (call (CloseStart h)) whatever.
Proof.
  apply qt_plain. intros o w1 w2 x HJ _ H. exec_inv H. by apply quiet_set_stream; [apply HJ|].
Qed.

Lemma quiet_both w1 w2 w3 :
  quiet w1 w2 ∧ node_inv w2 → (node_inv w2 → quiet w2 w3 ∧ node_inv w3) → quiet w1 w3 ∧ node_inv w3.
Proof. intros [H1 H2] H. destruct (H H2). split; [by eapply quiet_trans|done]. Qed.

Lemma qt_closeend i h : qt i anything (call (CloseEnd h)) whatever.
Proof.
  apply qt_plain. intros o w1 w2 x HJ _ H. cbn in H. destruct (wd_handles w1 !! h) as [s|]; [|done].
  case_match; [|done]. injection H as H. unfold close_end in H.
  destruct (ss_close_result s) as [[]|]; [simplify_eq; by apply same_world..|].
  destruct (proposal o w1 _) as [w r] eqn:E. injection H as <- _.
  eapply quiet_both; [eapply proposal_quiet; [|done|exact E]; apply kv_quiet_close|].
  intros Hn. by apply quiet_set_stream.
Qed.
Lemma qt_destroyend i h : qt i anything (call (DestroyEnd h)) whatever.
Proof.
  apply qt_plain. intros o w1 w2 x HJ _ H. cbn in H. destruct (wd_handles w1 !! h) as [s|]; [|done].
  injection H as H. eapply quiet_both.
  { apply (quiet_set_stream w1 h (λ s, mark DESTROY_MARK s <| ss_start_offset := ss_confirm_offset s |>));
      [apply HJ|done]. }
  intros Hn. rewrite <-(surjective _ _ _ H). apply quiet_proposal; [apply kv_quiet_delete|done].
Qed.

(** A handle of the stream. *)
Definition at_h (h : nat) (s : Z) (w : World) : Prop := stream_of w h = Some s.
Lemma stable_at_h i h s : stable i (at_h h s).
Proof. split; intros w w' H; [apply (rl_streams _ _ _ H)|apply (qu_streams _ _ H)]. Qed.

Lemma qt_open i s ep :
  qt i anything (call (ClientOpen s ep)) (λ r w, ∀ h, r = Ok h → at_h h s w).
Proof.
  apply qt_call; [apply stable_true|]. intros o w1 w2 x [_ HJ] _ _ [= H].
  by apply quiet_open_handle in H.
Qed.
Lemma qt_create i : qt i anything (call ClientCreate) whatever.
Proof.
  apply qt_plain. intros o w1 w2 x [_ HJ] _ [= H].
  rewrite <-(surjective _ _ _ H). apply quiet_proposal; [apply kv_quiet_create|done].
Qed.

(** *** The service's state *)
Definition state_quiet {X : Set} (f : MetadataView → Service → X * Service) : Prop :=
  ∀ view s,
    (sv_entry_cache (f view s).2 !! n = sv_entry_cache s !! n ∨ sv_entry_cache (f view s).2 !! n = None) ∧
    (∀ sid h, sv_open_streams (f view s).2 !! sid = Some h → sv_open_streams s !! sid = Some h).

Lemma quiet_service w s :
  node_inv w →
  (sv_entry_cache s !! n = cache_n w ∨ sv_entry_cache s !! n = None) →
  (∀ sid h, sv_open_streams s !! sid = Some h → stream_of w h = Some sid) →
  quiet w (w <| wd_service := s |>) ∧ node_inv (w <| wd_service := s |>).
Proof. intros Hn Hc Ho. split; [by apply quiet_same; auto|]. destruct Hn. by split. Qed.

Lemma qt_state i {X : Set} (f : MetadataView → Service → X * Service) :
  state_quiet f → qt i anything (call (State f)) whatever.
Proof.
  intros Hf. apply qt_plain. intros o w1 w2 x [_ HJ] _ H. cbn in H.
  destruct (Hf (load (ls_views (wd_sink w1))) (wd_service w1)) as [Hc Ho].
  destruct (f _ _) as [y s]. cbn in *. simplify_eq. apply quiet_service; [done..|].
  intros sid h Hh. apply (no_open _ HJ), Ho, Hh.
Qed.

Lemma qt_read i {X : Set} (f : Service → X) : qt i anything (read_state f) whatever.
Proof. apply qt_state. intros view s. cbn. auto. Qed.
Lemma qt_view i : qt i anything load_view whatever.
Proof. apply qt_state. intros view s. cbn. auto. Qed.

Lemma qt_update i (f : Service → Service) :
  (∀ s, sv_entry_cache (f s) !! n = sv_entry_cache s !! n ∨ sv_entry_cache (f s) !! n = None) →
  (∀ s sid h, sv_open_streams (f s) !! sid = Some h → sv_open_streams s !! sid = Some h) →
  qt i anything (update f) whatever.
Proof. intros H1 H2. apply qt_state. intros view s. cbn. auto. Qed.

Lemma qt_read_open i sid :
  qt i anything (read_state (λ s, sv_open_streams s !! sid)) (λ r w, ∀ h, r = Some h → at_h h sid w).
Proof.
  apply qt_call; [apply stable_true|]. intros o w1 w2 x [_ HJ] _ _ H. cbn in H. simplify_eq.
  destruct (quiet_service w1 (wd_service w1) HJ) as [Hq Hn]; [by left|apply (no_open _ HJ)|].
  split_and!; [done..|]. intros h Hh. by apply (no_open _ HJ).
Qed.

Lemma notify_append_same name off s :
  sv_entry_cache (notify_append name off s) = sv_entry_cache s ∧
  sv_open_streams (notify_append name off s) = sv_open_streams s.
Proof. unfold notify_append. by destruct (sv_waiters s !! name). Qed.
Lemma notify_closed_same name s :
  sv_entry_cache (notify_closed name s) = sv_entry_cache s ∧
  sv_open_streams (notify_closed name s) = sv_open_streams s.
Proof. unfold notify_closed. by destruct (sv_waiters s !! name). Qed.
Lemma waiter_remove_same name t s :
  sv_entry_cache (waiter_remove name t s) = sv_entry_cache s ∧
  sv_open_streams (waiter_remove name t s) = sv_open_streams s.
Proof. unfold waiter_remove. by destruct (sv_waiters s !! name). Qed.

(** Closes the two conditions of [qt_update]. *)
Ltac state_auto :=
  intros; cbn in *;
  repeat first [rewrite (proj1 (notify_append_same _ _ _)) in * | rewrite (proj2 (notify_append_same _ _ _)) in *
        | rewrite (proj1 (notify_closed_same _ _)) in * | rewrite (proj2 (notify_closed_same _ _)) in *
        | rewrite (proj1 (waiter_remove_same _ _ _)) in * | rewrite (proj2 (waiter_remove_same _ _ _)) in *];
  try solve [auto | done
    | match goal with H : delete _ _ !! _ = Some _ |- _ => by apply lookup_delete_Some in H as [] end].

(** A step of a quiet program: the rule for its first event. *)
Ltac q_event :=
  first [ apply qt_now | apply qt_kvget | apply qt_kvlist | apply qt_peek | apply qt_durable | apply qt_fetch
        | apply qt_settled | apply qt_parked | apply qt_lock; congruence | apply qt_unlock; congruence
        | apply qt_kvput; done | apply qt_kvputabsent; done | apply qt_kvdel | apply qt_hclose
        | apply qt_hcomplete | apply qt_htransfer | apply qt_trimstart | apply qt_trimend
        | apply qt_closestart | apply qt_closeend | apply qt_destroyend
        | eapply qt_weaken; [apply qt_open|done|done] | apply qt_create
        | apply qt_read | apply qt_view | apply qt_update; state_auto; fail
        | apply qt_state; intros ??; split; state_auto; fail ].

Create HintDb qprog.
(** Breaks a quiet program into its events. *)
Ltac q_prog :=
  repeat (intros; cbn beta iota zeta;
    lazymatch goal with
    | |- qt _ _ (bind _ _) _ => apply qt_seq; [apply stable_true| |]
    | |- qt _ _ (bindq _ _) _ => unfold bindq at 1
    | |- qt _ _ (lift _) _ => unfold lift
    | |- qt _ _ (Ret _) _ => by apply qt_ret
    | |- qt _ _ (ok _) _ => by apply qt_ret
    | |- qt _ _ (fail _) _ => by apply qt_ret
    | |- qt _ _ (match ?x with _ => _ end) _ => destruct x
    | |- qt _ _ _ _ => first [solve [q_event] | solve [eauto with qprog nocore]]
    end).

(** ** The quiet operations *)
Lemma q_gate_of i name : qt i anything (gate_of name) whatever.
Proof. unfold gate_of. q_prog. Qed.
Lemma q_next_epoch i s : qt i anything (next_epoch s) whatever.
Proof. unfold next_epoch. q_prog. Qed.
Lemma q_forget_open i s : qt i anything (forget_open s) whatever.
Proof. unfold forget_open. q_prog. Qed.
Lemma q_forget_epoch i s : qt i anything (forget_epoch s) whatever.
Proof. unfold forget_epoch. q_prog. Qed.
Hint Resolve q_gate_of q_next_epoch q_forget_open q_forget_epoch : qprog.

Lemma q_keep_open i s h : qt i (at_h h s) (keep_open s h) (λ _, at_h h s).
Proof.
  unfold keep_open. apply (qt_bind i _ _ _ (λ _, at_h h s)).
  - apply qt_call; [apply stable_at_h|]. intros o w1 w2 x [_ HJ] Hh _ H. cbn in H. simplify_eq.
    destruct (quiet_service w1 (wd_service w1 <| sv_open_streams :=
      <[s := h]> (sv_open_streams (wd_service w1)) |>) HJ) as [Hq Hn]; [by left| |].
    + cbn. intros sid h' [[<- <-]|[_ Hl]]%lookup_insert_Some; [done|by apply (no_open _ HJ)].
    + split_and!; [done..|]. exact Hh.
  - intros _. eapply qt_weaken; [apply qt_frame; [apply (stable_at_h i h s)|]|done|by intros ? w []].
    eapply qt_weaken; [q_prog|done|done].
Qed.

Lemma q_ensure_open_locked i s :
  qt i anything (ensure_open_locked s) (λ r w, ∀ h, r = Ok h → at_h h s w).
Proof.
  unfold ensure_open_locked. eapply qt_bind; [apply qt_read_open|]. intros [h|].
  - apply qt_ret. intros w Hh h' [= <-]. auto.
  - eapply (qt_weaken i anything); [|done|intros ?? H; exact H].
    apply qt_seq; [apply stable_true|q_prog|]. intros [[]|e]; [|by apply qt_ret].
    apply qt_seq; [apply stable_true|q_prog|]. intros ep. unfold bindq, lift.
    eapply qt_bind; [eapply qt_bind; [apply qt_open|]|].
    + intros [h|e]; apply (qt_ret _ _ _ (λ r w, ∀ h, r = Ok h → at_h h s w)); naive_solver.
    + intros [h|e]; [|by apply qt_ret].
      apply (qt_bind i _ _ _ (λ _, at_h h s));
        [eapply qt_weaken; [apply (q_keep_open i s h)|by intros w Hw; apply Hw|done]|].
      intros _. apply qt_ret. by intros w Hh h' [= <-].
Qed.

Lemma q_ensure_open i s :
  qt i anything (ensure_open s) (λ r w, ∀ h, r = Ok h → at_h h s w).
Proof.
  unfold ensure_open. eapply qt_bind; [apply qt_read_open|]. intros [h|].
  - apply qt_ret. intros w Hh h' [= <-]. auto.
  - eapply (qt_weaken i anything); [|done|intros ?? H; exact H].
    apply qt_seq; [apply stable_true|q_prog|]. intros _.
    eapply qt_bind; [apply q_ensure_open_locked|]. intros r.
    apply qt_seq; [| |intros _; by apply qt_ret].
    + split; intros w w' Hw Hr h Hh;
        [eapply (proj1 (stable_at_h i h s))|eapply (proj2 (stable_at_h i h s))]; eauto.
    + q_prog.
Qed.
Lemma q_ensure_open0 i s : qt i anything (ensure_open s) whatever.
Proof. eapply qt_weaken; [apply q_ensure_open|done|done]. Qed.
Hint Resolve q_ensure_open0 : qprog.

Lemma q_keep_open0 i s h : qt i (at_h h s) (keep_open s h) whatever.
Proof. eapply qt_weaken; [apply q_keep_open|done|done]. Qed.

Lemma q_stream_close i h : qt i anything (stream_close h) whatever.
Proof. unfold stream_close. q_prog. Qed.
Lemma q_stream_trim i h off : qt i anything (stream_trim h off) whatever.
Proof. unfold stream_trim. q_prog. Qed.
Hint Resolve q_stream_close q_stream_trim : qprog.
Lemma q_stream_destroy i h : qt i anything (stream_destroy h) whatever.
Proof. unfold stream_destroy. q_prog. Qed.
Hint Resolve q_stream_destroy : qprog.

Lemma q_destroy_stream i s : qt i anything (destroy_stream s) whatever.
Proof. unfold destroy_stream. q_prog. Qed.
Hint Resolve q_destroy_stream : qprog.

Lemma q_drop_entry i name :
  qt i anything (update (λ s, s <| sv_entry_cache := delete name (sv_entry_cache s) |>)) whatever.
Proof.
  apply qt_update; [|done]. intros s. cbn. destruct (decide (name = n)) as [->|].
  - right. apply lookup_delete_eq.
  - left. by apply lookup_delete_ne.
Qed.
Lemma q_put_cache i name e :
  name ≠ n → qt i anything (update (λ s, s <| sv_entry_cache := <[name := e]> (sv_entry_cache s) |>)) whatever.
Proof. intros Hn. apply qt_update; [|done]. intros s. cbn. left. by apply lookup_insert_ne. Qed.
Hint Resolve q_drop_entry q_put_cache : qprog.

Lemma q_expire i name e : qt i anything (expire name e) whatever.
Proof. unfold expire. q_prog. Qed.
Lemma q_touch i e : qt i anything (touch_deadline e) whatever.
Proof. unfold touch_deadline. q_prog. Qed.
Lemma q_is_expired i e : qt i anything (is_expired e) whatever.
Proof. unfold is_expired. q_prog. Qed.
Lemma q_deadline_of i a b : qt i anything (deadline_of a b) whatever.
Proof. unfold deadline_of. q_prog. Qed.
Lemma q_to_meta i name e h : qt i anything (to_meta_from_stream name e h) whatever.
Proof. unfold to_meta_from_stream. q_prog. Qed.
Lemma q_wait i name off : qt i anything (wait name off) whatever.
Proof. unfold wait. q_prog. Qed.
Lemma q_abandon i name s : qt i anything (abandon name s) whatever.
Proof. unfold abandon. q_prog. Qed.
Lemma q_await i ps : qt i anything (await_durable ps) whatever.
Proof. induction ps as [|p ps IH]; cbn [await_durable]; [by apply qt_ret|]. q_prog. Qed.
Hint Resolve q_expire q_touch q_is_expired q_deadline_of q_to_meta q_wait q_abandon q_await : qprog.
Lemma q_to_meta_live i name e : qt i anything (to_meta_live name e) whatever.
Proof. unfold to_meta_live. q_prog. Qed.
Hint Resolve q_to_meta_live : qprog.

(** Entries of other names. *)
Lemma q_put_entry i name e : name ≠ n → qt i anything (put_entry name e) whatever.
Proof. intros Hn. unfold put_entry. q_prog. Qed.
Hint Resolve q_put_entry : qprog.
Lemma q_cached_entry i name : name ≠ n → qt i anything (cached_entry name) whatever.
Proof. intros Hn. unfold cached_entry. q_prog. Qed.
Hint Resolve q_cached_entry : qprog.
Lemma q_get_entry i name touch : name ≠ n → qt i anything (get_entry name touch) whatever.
Proof. intros Hn. unfold get_entry. q_prog. Qed.
Hint Resolve q_get_entry : qprog.
Lemma q_require_entry i name : name ≠ n → qt i anything (require_entry name) whatever.
Proof. intros Hn. unfold require_entry. q_prog. Qed.
Hint Resolve q_require_entry : qprog.

(** ** Inside the gate *)
Definition me (i : nat) (r : Request) (w : World) : Prop := fst <$> wd_tasks w !! i = Some r.
Definition inside (i : nat) (w : World) : Prop := holder w = Some i.
Definition outside (i : nat) (w : World) : Prop := holder w ≠ Some i.
Definition fresh (i : nat) (w : World) : Prop := ∀ q s p, ¬ sub w q i s p.

(** The entry covers whatever other tasks have submitted. *)
Definition knows (i : nat) (e : RegistryEntry) (w : World) : Prop :=
  ∀ q j s p, sub w q j s p → j ≠ i → re_stream_id e = s → covered e p.

(** Whatever entry is found covers what the task itself has submitted. *)
Definition settled_up (i : nat) (w : World) : Prop :=
  ∀ e q s p, entries w e → sub w q i s p → re_stream_id e = s → covered e p.

(** Submissions, tasks and streams are the same. *)
Record base (w w' : World) : Prop := {
  ba_subs : ∀ q i s p, sub w' q i s p ↔ sub w q i s p;
  ba_tasks : wd_tasks w' = wd_tasks w;
  ba_streams : ∀ h s, stream_of w h = Some s → stream_of w' h = Some s;
}.

Lemma quiet_base w w' : quiet w w' → base w w'.
Proof. by intros []. Qed.

(** Facts of a task that no change of locks and entries destroys. *)
Definition grounded (i : nat) (K : World → Prop) : Prop :=
  (∀ w w', rely i w w' → K w → K w') ∧ (∀ w w', base w w' → K w → K w').

Lemma grounded_stable i K : grounded i K → stable i K.
Proof. intros [H1 H2]. split; [done|]. intros w w' Hq%quiet_base. by apply H2. Qed.

Lemma grounded_me i r : grounded i (me i r).
Proof.
  split; unfold me; intros w w' H Hm.
  - by rewrite <-(rl_request _ _ _ H).
  - by rewrite (ba_tasks _ _ H).
Qed.
Lemma grounded_fresh i : grounded i (fresh i).
Proof.
  split; intros w w' H Hf q s p Hs; eapply Hf.
  - by apply (rl_own _ _ _ H).
  - by apply (ba_subs _ _ H).
Qed.
Lemma grounded_and i K K' : grounded i K → grounded i K' → grounded i (λ w, K w ∧ K' w).
Proof. intros [K1 K2] [F1 F2]. split; intros w w' H []; eauto. Qed.

Lemma stable_inside i : stable i (inside i).
Proof.
  split; unfold inside; intros w w' H Hi; [by apply (rl_in _ _ _ H)|by rewrite (qu_holder _ _ H)].
Qed.
Lemma stable_outside i : stable i (outside i).
Proof.
  split; unfold outside; intros w w' H Hi; [by apply (rl_out _ _ _ H)|by rewrite (qu_holder _ _ H)].
Qed.

(** Under the gate the knowledge lasts. *)
Definition knowing (i : nat) (e : RegistryEntry) (w : World) : Prop := inside i w ∧ knows i e w.
Lemma stable_knowing i e : stable i (knowing i e).
Proof.
  split; intros w w' H [Hi Hk].
  - destruct (rl_in _ _ _ H Hi) as (Hi' & _ & _ & Hs). split; [done|].
    intros q j s p Hsub%Hs. by apply (Hk q j).
  - split; [by apply (proj2 (stable_inside i) w)|]. intros q j s p Hsub%(qu_subs _ _ H). by apply (Hk q j).
Qed.

Lemma rely_entries i w w' e : rely i w w' → inside i w → entries w' e → entries w e.
Proof.
  intros H Hi. destruct (rl_in _ _ _ H Hi) as (_ & Hc & Hk & _). intros [He|(v & Hv & He)].
  - destruct Hc as [Hc|Hc]; rewrite Hc in He; [by left|done].
  - destruct Hk as [Hk|Hk]; rewrite Hk in Hv; [right; eauto|done].
Qed.

Definition settling (i : nat) (w : World) : Prop := inside i w ∧ settled_up i w.
Lemma stable_settling i : stable i (settling i).
Proof.
  split; intros w w' H [Hi Hk].
  - split; [by apply (proj1 (stable_inside i) w)|]. intros e q s p He Hs.
    apply (Hk e q); [by eapply rely_entries|by apply (rl_own _ _ _ H)].
  - split; [by apply (proj2 (stable_inside i) w)|]. intros e q s p He Hs.
    apply (Hk e q); [by eapply quiet_entries|by apply (qu_subs _ _ H)].
Qed.

Lemma fresh_settled i w : fresh i w → settled_up i w.
Proof. intros Hf e q s p _ Hs. by destruct (Hf q s p). Qed.

(** A step that changes the name's entries or its lock, seen by others. *)
Lemma rely_of_base i j w w' :
  base w w' → j ≠ i → holder w = Some i ∨ (holder w = None ∧ (holder w' = None ∨ holder w' = Some i)) →
  (holder w = Some i → holder w' = Some i ∨ holder w' = None) → rely j w w'.
Proof.
  intros [Hs Ht Hst] Hj Hh Hh'. split; auto.
  - intros _. destruct Hh as [H|[H H']]; [destruct (Hh' H) as [->| ->]|destruct H' as [->| ->]]; congruence.
  - intros H. destruct Hh as [H1|[H1 _]]; congruence.
  - by rewrite Ht.
Qed.

Lemma base_refl_tasks w w' :
  wd_pendings w' = wd_pendings w → wd_tasks w' = wd_tasks w → wd_handles w' = wd_handles w → base w w'.
Proof.
  intros H1 H2 H3. split; [|done|].
  - intros q i s p. unfold sub, producer_of, stream_of. by rewrite H1, H2, H3.
  - intros h s. unfold stream_of. by rewrite H3.
Qed.

Lemma good_results_base w w' : wd_pendings w' = wd_pendings w → wd_tasks w' = wd_tasks w →
  good_results w → good_results w'.
Proof. intros H1 H2 Hg q pd p. rewrite H1. unfold producer_of. rewrite H2. apply Hg. Qed.

Lemma wp_lock_n i {A : Set} (k : unit → P A) K Φ w :
  grounded i K → K w →
  (∀ w', K w' → inside i w' → wp i (k tt) Φ w') → wp i (Vis (Lock (GateLock n)) k) Φ w.
Proof.
  intros HK Hw Hk w1 Hr [HN HO] o w2 [] _ H. cbn in H.
  destruct (wd_locks w1 !! GateLock n) eqn:E; [done|]. simplify_eq.
  set (w2 := w1 <| wd_locks := <[GateLock n := i]> (wd_locks w1) |>).
  assert (Hb : base w1 w2) by by apply base_refl_tasks.
  assert (Hh : holder w2 = Some i) by (unfold holder; apply lookup_insert_eq).
  split; [intros j Hj; by eapply (rely_of_base i); eauto; intros; congruence|]. split.
  - split; [|by destruct HO]. destruct HN as [H1 H2 H3 H4 H5 H6]. split; try done.
    intros e q j s p He Hs _ Hid. eapply (H3 e q j s); [done|done|unfold holder; congruence|done].
  - apply Hk; [|done]. apply (proj2 HK w1); [done|]. by eapply stable_rely; [apply grounded_stable|..].
Qed.

Lemma wp_unlock_n i {A : Set} (k : unit → P A) K Φ w :
  grounded i K → K w → settling i w →
  (∀ w', K w' → outside i w' → wp i (k tt) Φ w') → wp i (Vis (Unlock (GateLock n)) k) Φ w.
Proof.
  intros HK Hw Hs Hk w1 Hr [HN HO] o w2 [] _ H. cbn in H. simplify_eq.
  destruct (stable_rely _ _ _ _ (stable_settling i) Hr Hs) as [Hi Hset].
  set (w2 := w1 <| wd_locks := delete (GateLock n) (wd_locks w1) |>).
  assert (Hb : base w1 w2) by by apply base_refl_tasks.
  assert (Hh : holder w2 = None) by (unfold holder; apply lookup_delete_eq).
  split; [intros j Hj; eapply (rely_of_base i); eauto|]. split.
  - split; [|by destruct HO]. destruct HN as [H1 H2 H3 H4 H5 H6]. split; try done.
    intros e q j s p He Hsub _ Hid. destruct (decide (j = i)) as [->|Hj].
    + by eapply (Hset e q).
    + eapply (H3 e q j s); [done|done|unfold inside in Hi; congruence|done].
  - apply Hk; [|unfold outside; congruence]. apply (proj2 HK w1); [done|].
    by eapply stable_rely; [apply grounded_stable|..].
Qed.

Lemma wp_cache_n i {A : Set} (k : unit → P A) e K M Φ w :
  grounded i K → stable i M → K w → M w → knowing i e w → entry_typed e →
  (∀ w1 w', M w1 → kv_n w' = kv_n w1 → K w' → knowing i e w' → cache_n w' = Some e → wp i (k tt) Φ w') →
  wp i (bind (update (λ s, s <| sv_entry_cache := <[n := e]> (sv_entry_cache s) |>)) k) Φ w.
Proof.
  intros HK HM Hw Hm Hkn Ht Hk w1 Hr [HN HO] o w2 [] _ H. cbn in H. simplify_eq.
  destruct (stable_rely _ _ _ _ (stable_knowing i e) Hr Hkn) as [Hi Hkw].
  match goal with |- context [J ?w] => set (w2 := w) end.
  assert (Hb : base w1 w2) by by apply base_refl_tasks.
  assert (Hc : cache_n w2 = Some e) by (unfold cache_n; cbn; apply lookup_insert_eq).
  split; [intros j Hj; eapply (rely_of_base i); eauto|]. split.
  - split; [|by destruct HO]. destruct HN as [H1 H2 H3 H4 H5 H6]. split; try done.
    + intros e' He'. rewrite Hc in He'. by simplify_eq.
    + intros e' q j s p [He|He] Hsub Hh Hid.
      * rewrite Hc in He. simplify_eq. eapply (Hkw q j); [done| |done]. intros ->. by apply Hh.
      * eapply (H3 e' q j s); [by right|done..].
  - eapply (Hk w1); [by eapply stable_rely|done| |by split|done].
    apply (proj2 HK w1); [done|]. by eapply stable_rely; [apply grounded_stable|..].
Qed.

(** Only [e] is stored for the name, if anything. *)
Definition stored_only (e : RegistryEntry) (w : World) : Prop :=
  ∀ v e', kv_n w = Some v → decode v = Ok e' → e' = e.
Definition storing (i : nat) (e : RegistryEntry) (w : World) : Prop := inside i w ∧ stored_only e w.
Lemma stable_storing i e : stable i (storing i e).
Proof.
  split; intros w w' H [Hi Hs].
  - destruct (rl_in _ _ _ H Hi) as (Hi' & _ & Hk & _). split; [done|]. intros v e' Hv.
    destruct Hk as [Hk|Hk]; rewrite Hk in Hv; [by apply Hs|done].
  - split; [by apply (proj2 (stable_inside i) w)|]. intros v e' Hv.
    destruct (qu_kv _ _ H) as [Hk|Hk]; rewrite Hk in Hv; [by apply Hs|done].
Qed.

(** What the encoding keeps apart from the number of producers. *)
Definition entry_fits (e : RegistryEntry) : Prop :=
  Z.of_nat (size (re_producers e)) < two31 → entry_typed e.

Lemma length_concat_ge {B : Type} (f : B → list byte) (l : list B) :
  (∀ x, (1 <= length (f x))%nat) → (length l <= length (concat (f <$> l)))%nat.
Proof.
  intros Hf. induction l as [|x l IH]; [done|]. cbn. rewrite length_app. specialize (Hf x). lia.
Qed.

Lemma encode_size e : (size (re_producers e) <= length (encode e))%nat.
Proof.
  rewrite <-length_ord_list. unfold encode. rewrite !length_app.
  pose proof (length_concat_ge put_producer (ord_list (re_producers e))) as H.
  assert (∀ x, (1 <= length (put_producer x))%nat) as Hp.
  { intros x. unfold put_producer, put_i64. rewrite !length_app, !length_be_bytes. lia. }
  specialize (H Hp). lia.
Qed.

Lemma kv_put_kv (k : LocalSink) v :
  view_ok k → kv_get (kv_put k n v).1 n = Some v ∧ view_ok (kv_put k n v).1 ∧ (kv_put k n v).2 = Ok v.
Proof.
  intros Hk.
  assert (E : (kv_put k n v).1 = (local_propose k (PutKv n v)).1).
  { unfold kv_put, then_result, handle_propose. cbn [propose local_sink fst]. by destruct (local_propose _ _). }
  rewrite E. split; [|split; [by apply local_propose_view|done]].
  unfold kv_get, sink_state, get_kv. cbn [sink_views local_sink]. rewrite local_propose_kv by done.
  cbn. apply lookup_insert_eq.
Qed.

Lemma wp_put_n i {A : Set} (k : result (list byte) Error → P A) e K Φ w :
  grounded i K → K w → knowing i e w → entry_fits e →
  (∀ w' v, K w' → knowing i e w' → storing i e w' → entry_typed e → wp i (k (Ok v)) Φ w') →
  wp i (Vis (KvPut n (encode e)) k) Φ w.
Proof.
  intros HK Hw Hkn Hf Hk w1 Hr [HN HO] o w2 x Ho H. destruct (Ho eq_refl) as [Ho1 Ho2]. clear Ho.
  assert (Ht : entry_typed e). { apply Hf. pose proof (encode_size e). lia. }
  destruct (stable_rely _ _ _ _ (stable_knowing i e) Hr Hkn) as [Hi Hkw].
  cbn in H. injection H as H. unfold proposal in H. rewrite Ho1 in H.
  destruct (kv_put_kv (wd_sink w1) (encode e) (no_view _ HO)) as (Hkv & Hv & Hok).
  destruct (kv_put (wd_sink w1) n (encode e)) as [sink r]. cbn in Hkv, Hv, Hok. subst r. injection H as <- <-.
  set (w2 := w1 <| wd_sink := sink |>).
  assert (Hb : base w1 w2) by by apply base_refl_tasks.
  assert (Hkn2 : kv_n w2 = Some (encode e)) by done.
  split; [intros j Hj; eapply (rely_of_base i); eauto|]. split.
  - split; [|by destruct HO]. destruct HN as [H1 H2 H3 H4 H5 H6]. split; try done.
    + intros v Hv'. rewrite Hkn2 in Hv'. simplify_eq. eauto.
    + intros e' q j s p [He|(v & Hv' & He)] Hsub Hh Hid.
      * eapply (H3 e' q j s); [by left|done..].
      * rewrite Hkn2 in Hv'. simplify_eq. rewrite decode_encode in He by done. simplify_eq.
        eapply (Hkw q j); [done| |done]. intros ->. by apply Hh.
  - apply Hk; [|by split| |done].
    + apply (proj2 HK w1); [done|]. by eapply stable_rely; [apply grounded_stable|..].
    + split; [done|]. intros v e' Hv' He. rewrite Hkn2 in Hv'. simplify_eq.
      rewrite decode_encode in He by done. by simplify_eq.
Qed.

(** [put_entry] under the gate: on success only the new entry is left. *)
Lemma wp_put_entry i {B : Set} (k : result unit ServiceError → P B) e K Φ w :
  grounded i K → K w → knowing i e w → entry_fits e →
  (∀ w', K w' → knowing i e w' → (∀ e', entries w' e' → e' = e) → wp i (k (Ok tt)) Φ w') →
  wp i (bind (put_entry n e) k) Φ w.
Proof.
  intros HK Hw Hkn Hf Hk. apply (wp_put_n i _ e K); [done..|].
  intros w1 v Hw1 Hkn1 Hst1 Ht.
  apply (wp_cache_n i (λ _, k (Ok tt)) e K (storing i e)); try done; [apply stable_storing|].
  intros w2 w3 [_ Hst] Hkv Hw3 Hkn3 Hc. apply Hk; [done..|].
  intros e' [He|(v' & Hv' & He)]; [congruence|]. rewrite Hkv in Hv'. by eapply Hst.
Qed.

#[local] Arguments wp : simpl never.

Lemma wp_ret i {A : Set} (a : A) Φ w : Φ a w → wp i (Ret a) Φ w.
Proof. done. Qed.

(** A quiet program inside a larger one. *)
Lemma wp_qt i {A B : Set} (p : P A) (f : A → P B) Q K Φ w :
  qt i anything p Q → stable i K → K w →
  (∀ a w', K w' → Q a w' → wp i (f a) Φ w') → wp i (bind p f) Φ w.
Proof.
  intros Hp HK Hw Hf. apply wp_bind. eapply wp_mono; [|by apply Hp]. intros a w' []. by apply Hf.
Qed.

(** Under the gate an entry that is found is known and fits its format. *)
Lemma found_knowing i w e :
  name_inv w → inside i w → entries w e → entry_typed e ∧ knowing i e w.
Proof.
  intros HN Hi He. split.
  - destruct He as [He|(v & Hv & He)]; [by apply (ni_typed _ HN)|].
    destruct (ni_kv _ HN v Hv) as (e' & -> & Ht). rewrite decode_encode in He by done. by simplify_eq.
  - split; [done|]. intros q j s p Hs Hj Hid. eapply (ni_covered _ HN e q j s); try done.
    unfold inside in Hi. congruence.
Qed.

Definition known (i : nat) (w : World) (found : option RegistryEntry) : Prop :=
  ∀ e, found = Some e → entry_typed e ∧ knowing i e w.

Lemma wp_read_cache i {B : Set} (k : option RegistryEntry → P B) K Φ w :
  stable i K → K w → inside i w →
  (∀ w' c, K w' → inside i w' → known i w' c → wp i (k c) Φ w') →
  wp i (bind (read_state (λ s, sv_entry_cache s !! n)) k) Φ w.
Proof.
  intros HK Hw Hi Hk. apply (wp_event i _ _ (λ w, K w ∧ inside i w)); [|done|].
  { apply stable_and; [done|apply stable_inside]. }
  intros o w1 w2 x [HN HO] [HK1 Hi1] _ H. cbn in H. simplify_eq.
  match goal with |- quiet _ ?w ∧ _ => set (w2 := w) end.
  destruct (quiet_service w1 (wd_service w1) HO) as [Hq Hn]; [by left|apply (no_open _ HO)|].
  split_and!; [done..|]. intros [HK2 Hi2]. apply Hk; [done..|]. intros e He.
  destruct (found_knowing i w1 e HN Hi1) as [Ht Hkn]; [by left|].
  split; [done|]. by apply (proj2 (stable_knowing i e) w1).
Qed.

Lemma wp_kvget_n i {B : Set} (k : result (option (list byte)) Error → P B) K Φ w :
  stable i K → K w → inside i w →
  (∀ w' r, K w' → inside i w' →
     (∀ v, r = Ok (Some v) → ∃ e, decode v = Ok e ∧ entry_typed e ∧ knowing i e w') → wp i (k r) Φ w') →
  wp i (Vis (KvGet n) k) Φ w.
Proof.
  intros HK Hw Hi Hk. apply (wp_event i _ _ (λ w, K w ∧ inside i w)); [|done|].
  { apply stable_and; [done|apply stable_inside]. }
  intros o w1 w2 x [HN HO] [HK1 Hi1] _ H. cbn in H. injection H as <- <-.
  split_and!; [by apply quiet_refl|done|]. intros _. apply Hk; [done..|].
  intros v Hv. destruct (or_fail o); [done|]. injection Hv as Hv.
  destruct (ni_kv _ HN v Hv) as (e & -> & Ht). exists e. rewrite decode_encode by done. split; [done|].
  apply (found_knowing i w1 e HN Hi1). right. exists (encode e). rewrite decode_encode by done. done.
Qed.

Lemma wp_cached_in i {B : Set} (k : result (option RegistryEntry) ServiceError → P B) K Φ w :
  grounded i K → K w → inside i w →
  (∀ w' r, K w' → inside i w' → (∀ c, r = Ok c → known i w' c) → wp i (k r) Φ w') →
  wp i (bind (cached_entry n) k) Φ w.
Proof.
  intros HK Hw Hi Hk. pose proof (grounded_stable _ _ HK) as HKs. apply wp_bind.
  apply (wp_read_cache i _ K); [done..|]. intros w1 [e|] Hw1 Hi1 Hc; [by apply Hk; [..|by intros c [= <-]]|].
  apply (wp_kvget_n i _ K); [done..|]. intros w2 [[v|]|err] Hw2 Hi2 Hv; cbn;
    [|by apply Hk; [..|by intros c [= <-]]|by apply Hk].
  destruct (Hv v eq_refl) as (e & He & Ht & Hkn). rewrite He. cbn.
  apply (wp_cache_n i (λ _, Ret (Ok (Some e))) e K (λ _, True)); try done.
  intros w3 w4 _ _ Hw4 Hkn4 Hc4. apply Hk; [done|apply Hkn4|]. by intros c [= <-] e' [= <-].
Qed.

(** *** Deadlines *)
Definition touches (e e' : RegistryEntry) : Prop := e' = e ∨ ∃ d, is_i64 d ∧ e' = with_deadline d e.

Lemma touches_knows i e e' w : touches e e' → knowing i e w → knowing i e' w.
Proof. intros [->|(d & _ & ->)] Hk; done. Qed.
Lemma touches_typed e e' : touches e e' → entry_fits e → entry_fits e'.
Proof.
  intros [->|(d & Hd & ->)] Ht; [done|]. intros Hs. destruct (Ht Hs). by split.
Qed.

Lemma q_touch_spec i e : qt i anything (touch_deadline e) (λ e' _, touches e e').
Proof.
  unfold touch_deadline. destruct (re_ttl_seconds e) as [ttl|]; [|apply qt_ret; by left].
  destruct (re_expires_at_ms e); [apply qt_ret; by left|].
  apply qt_seq; [apply stable_true|apply qt_now|]. intros now. apply qt_ret. intros _ _.
  destruct (_ && _); [by left|]. right. eexists. split; [|done]. apply wrap_i64_is_i64.
Qed.

Lemma wp_get_entry_in i touch {B : Set} (k : result (option RegistryEntry) ServiceError → P B) K Φ w :
  grounded i K → K w → inside i w →
  (∀ w' r, K w' → inside i w' → (∀ c, r = Ok c → known i w' c) → wp i (k r) Φ w') →
  wp i (bind (get_entry n touch) k) Φ w.
Proof.
  intros HK Hw Hi Hk. pose proof (grounded_stable _ _ HK) as HKs.
  assert (HKi : stable i (λ w, K w ∧ inside i w)) by (apply stable_and; [done|apply stable_inside]).
  assert (Hend : ∀ r w, K w → inside i w → (∀ c, r = Ok c → known i w c) →
    wp i (Ret r) (λ r, wp i (k r) Φ) w) by (intros; by apply wp_ret, Hk).
  unfold get_entry. apply wp_bind. unfold bindq at 1. apply (wp_cached_in i _ K); [done..|].
  intros w1 [[e|]|err] Hw1 Hi1 Hc; cbn beta iota; [|by apply Hend; [..|by intros c [= <-]]|by apply Hend].
  destruct (Hc _ eq_refl _ eq_refl) as [Ht Hkn].
  assert (HKk : stable i (λ w, K w ∧ knowing i e w)) by (apply stable_and; [done|apply stable_knowing]).
  apply (wp_qt i _ _ whatever (λ w, K w ∧ knowing i e w)); [apply q_is_expired|done..|].
  intros [] w2 [Hw2 Hkn2] _; cbn beta iota.
  { apply (wp_qt i _ _ whatever (λ w, K w ∧ inside i w)); [apply q_expire|done|by split; [|apply Hkn2]|].
    intros _ w3 [] _. by apply Hend; [..|by intros c [= <-]]. }
  destruct touch; [|by apply Hend; [done|apply Hkn2|by intros c [= <-] e' [= <-]]].
  apply (wp_qt i _ _ (λ e' _, touches e e') (λ w, K w ∧ knowing i e w)); [apply q_touch_spec|done..|].
  intros e' w3 [Hw3 Hkn3] He'. case_bool_decide as Heq.
  { by apply Hend; [done|apply Hkn3|by intros c [= <-] e'' [= <-]]. }
  assert (Ht' : entry_typed e').
  { eapply touches_typed; [done|by intros _|]. destruct He' as [->|(d & _ & ->)]; apply (et_count _ Ht). }
  unfold bindq. apply (wp_put_entry i _ e' K); [done..|by eapply touches_knows|by intros _|].
  intros w4 Hw4 Hkn4 _. apply Hend; [done|apply Hkn4|]. by intros c [= <-] e'' [= <-].
Qed.

(** ** Gates *)
Lemma wp_gate i {A B : Set} (body : P A) (k : A → P B) K K' Φ w :
  grounded i K → grounded i K' → K w →
  (∀ w1, K w1 → inside i w1 →
     wp i body (λ a w', K' w' ∧ settling i w' ∧ ∀ w'', K' w'' → outside i w'' → wp i (k a) Φ w'') w1) →
  wp i (bind (with_gate n body) k) Φ w.
Proof.
  intros HK HK' Hw Hb. apply wp_bind. unfold with_gate.
  apply (wp_qt i _ _ whatever K); [apply q_gate_of|by apply grounded_stable|done|]. intros _ w1 Hw1 _.
  apply (wp_lock_n i _ K); [done..|]. intros w2 Hw2 Hi2. apply wp_bind.
  eapply wp_mono; [|by apply Hb]. intros a w3 (Hw3 & Hs3 & Hk).
  apply (wp_unlock_n i _ K'); [done..|]. intros w4 Hw4 Ho4. apply wp_ret. by apply Hk.
Qed.

(** A task that has not submitted anything for a producer of the name. *)
Definition idle (i : nat) (r : Request) (w : World) : Prop := me i r w ∧ fresh i w.
Lemma grounded_idle i r : grounded i (idle i r).
Proof. apply grounded_and; [apply grounded_me|apply grounded_fresh]. Qed.
Lemma stable_idle i r : stable i (idle i r).
Proof. apply grounded_stable, grounded_idle. Qed.

Lemma idle_settling i r w : idle i r w → inside i w → settling i w.
Proof. intros [_ Hf] Hi. split; [done|by apply fresh_settled]. Qed.

Lemma wp_gate_quiet i r {A B : Set} (body : P A) (k : A → P B) Φ w :
  qt i anything body whatever → idle i r w →
  (∀ a w', idle i r w' → wp i (k a) Φ w') → wp i (bind (with_gate n body) k) Φ w.
Proof.
  intros Hb Hw Hk. apply (wp_gate i _ _ (idle i r) (idle i r)); [apply grounded_idle..|done|].
  intros w1 Hw1 Hi1. eapply wp_mono; [|apply (Hb (λ w, idle i r w ∧ inside i w)); [|done..]].
  - intros a w2 [[Hw2 Hi2] _]. split; [done|]. split; [by eapply idle_settling|]. intros w3 Hw3 _. by apply Hk.
  - apply stable_and; [apply stable_idle|apply stable_inside].
Qed.

Lemma wp_gate_entry i r touch {A B : Set} (f : option RegistryEntry → R A)
    (k : result A ServiceError → P B) Φ w :
  (∀ c, qt i anything (f c) whatever) → idle i r w →
  (∀ a w', idle i r w' → wp i (k a) Φ w') →
  wp i (bind (with_gate n (bindq (get_entry n touch) f)) k) Φ w.
Proof.
  intros Hf Hw Hk. apply (wp_gate i _ _ (idle i r) (idle i r)); [apply grounded_idle..|done|].
  intros w1 Hw1 Hi1. unfold bindq. apply (wp_get_entry_in i touch _ (idle i r)); [apply grounded_idle|done..|].
  intros w2 c Hw2 Hi2 _.
  assert (Hend : ∀ a w, idle i r w → inside i w →
    idle i r w ∧ settling i w ∧ (∀ w'', idle i r w'' → outside i w'' → wp i (k a) Φ w'')).
  { intros a w0 H0 H1. split; [done|]. split; [by eapply idle_settling|]. intros w3 Hw3 _. by apply Hk. }
  destruct c as [c|err]; cbn beta iota; [|by apply wp_ret, Hend].
  eapply wp_mono; [|apply (Hf c (λ w, idle i r w ∧ inside i w)); [|done..]].
  - intros a w3 [[Hw3 Hi3] _]. by apply Hend.
  - apply stable_and; [apply stable_idle|apply stable_inside].
Qed.

Lemma q_gate i name {A : Set} (body : P A) :
  name ≠ n → qt i anything body whatever → qt i anything (with_gate name body) whatever.
Proof.
  intros Hn Hb. unfold with_gate. q_prog.
Qed.

(** ** Submissions without a producer *)
Definition np (i : nat) (w : World) : Prop := producer_of w i = None ∧ (i < length (wd_tasks w))%nat.
Lemma np_request i w w' :
  fst <$> wd_tasks w !! i = fst <$> wd_tasks w' !! i → np i w → np i w'.
Proof.
  unfold np, producer_of. intros H [Hp Hl]. apply lookup_lt_is_Some in Hl as [[r t] Ht]. rewrite Ht in *.
  destruct (wd_tasks w' !! i) as [[r' t']|] eqn:E; [|done]. injection H as <-. split; [done|].
  apply lookup_lt_is_Some. by rewrite E.
Qed.
Lemma stable_np i : stable i (np i).
Proof.
  split; intros w w' H.
  - apply np_request, (rl_request _ _ _ H).
  - apply np_request. by rewrite (qu_tasks _ _ H).
Qed.

Lemma q_submit i h c body : qt i (np i) (call (SubmitAppend h c body)) whatever.
Proof.
  apply qt_call; [apply stable_np|]. intros o w1 w2 x [HN HO] [Hp Hl] _ H. cbn in H.
  destruct (wd_handles w1 !! h) as [s|] eqn:E; [|done]. injection H as H.
  destruct (or_fail o); [injection H as <- <-; by split_and!; auto with quiet|].
  by destruct (quiet_submit _ _ _ _ _ _ _ _ HO E Hp Hl H).
Qed.

(** The same for programs that submit. *)
Ltac np_prog :=
  repeat (intros; cbn beta iota zeta;
    lazymatch goal with
    | |- qt _ (np _) (bind _ _) _ => eapply qt_bind; [apply qt_frame; [apply stable_np|]|]
    | |- qt _ (np _) (bindq _ _) _ => unfold bindq at 1
    | |- qt _ (np _) (lift _) _ => unfold lift
    | |- qt _ (np _) (Ret _) _ => by apply (qt_ret _ _ _ whatever)
    | |- qt _ (np _) (ok _) _ => by apply (qt_ret _ _ _ whatever)
    | |- qt _ (np _) (fail _) _ => by apply (qt_ret _ _ _ whatever)
    | |- qt _ (np _) (match ?x with _ => _ end) _ => destruct x
    | |- qt _ (np _) _ _ =>
        first [solve [apply q_submit]
              | solve [eapply (qt_weaken _ anything _ _ whatever _);
                       [first [q_event | eauto with qprog nocore]|done|by intros ?? H; exact H]]
              | solve [eauto with nprog nocore]]
    | |- qt _ _ _ _ => eapply (qt_weaken _ (np _)); [|by intros ? []|by intros ?? H; exact H]
    end).
Create HintDb nprog.

Lemma n_submit_each i h ms : qt i (np i) (submit_each h ms) whatever.
Proof. induction ms as [|m ms IH]; cbn [submit_each]; [by apply qt_ret|]. np_prog. Qed.
Hint Resolve n_submit_each : nprog.
Lemma n_submit i h ms atomic : qt i (np i) (submit_messages h ms atomic) whatever.
Proof. unfold submit_messages. np_prog. Qed.
Hint Resolve n_submit : nprog.

(** ** The producer table *)
Lemma accepted_not_covered e p : is_accepted (validate_producer e p) = true → ¬ covered e p.
Proof.
  unfold validate_producer. intros H (st & Hst & Hle). rewrite Hst in H.
  repeat (case_match; try done); destruct Hle as [|[]];
    repeat match goal with
    | E : (_ <? _) = _ |- _ => apply Z.ltb_lt in E || apply Z.ltb_ge in E
    | E : (_ <=? _) = _ |- _ => apply Z.leb_le in E || apply Z.leb_gt in E
    end; lia.
Qed.

Definition producer_typed (p : Producer) : Prop :=
  text_ok (pr_producer_id p) ∧ is_u64 (pr_epoch p) ∧ is_u64 (pr_seq p).

(** What a caller may send: UTF-8 texts and [u64] numbers. *)
Definition command_typed (c : AppendCommand) : Prop :=
  (∀ p, ac_producer c = Some p → producer_typed p) ∧
  (∀ s, ac_stream_seq c = Some s → text_ok s ∧ as_bytes s ≠ []).

Section Applied.
Context (e : RegistryEntry) (c : AppendCommand).
Let d := validate_producer e <$> ac_producer c.
Context (Hacc : ∀ p, ac_producer c = Some p → is_accepted (validate_producer e p) = true).

Lemma applied_id : re_stream_id (apply_append_state e c d) = re_stream_id e.
Proof. unfold apply_append_state. destruct (ac_stream_seq c), d as [[]|], (ac_producer c); done. Qed.

Lemma applied_producers p :
  ac_producer c = Some p →
  re_producers (apply_append_state e c d) =
    <[pr_producer_id p := {| ps_epoch := pr_epoch p; ps_last_seq := pr_seq p |}]> (re_producers e).
Proof.
  intros Hp. specialize (Hacc p Hp). unfold apply_append_state, d. rewrite Hp. cbn.
  destruct (validate_producer e p); [|done..]. by destruct (ac_stream_seq c).
Qed.
Lemma applied_producers_none :
  ac_producer c = None → re_producers (apply_append_state e c d) = re_producers e.
Proof. intros Hp. unfold apply_append_state, d. rewrite Hp. cbn. by destruct (ac_stream_seq c). Qed.

Lemma producer_cases : (∃ p, ac_producer c = Some p) ∨ ac_producer c = None.
Proof. clear. destruct (ac_producer c); eauto. Qed.

Lemma applied_covers_own p : ac_producer c = Some p → covered (apply_append_state e c d) p.
Proof.
  intros Hp. exists {| ps_epoch := pr_epoch p; ps_last_seq := pr_seq p |}.
  rewrite (applied_producers p Hp), lookup_insert_eq. split; [done|]. cbn. right. lia.
Qed.

Lemma applied_covers x : covered e x → covered (apply_append_state e c d) x.
Proof.
  intros (st & Hst & Hle). destruct producer_cases as [[p Hp]|Hp].
  - unfold covered. rewrite (applied_producers p Hp).
    destruct (decide (pr_producer_id p = pr_producer_id x)) as [Eid|].
    + rewrite Eid, lookup_insert_eq. eexists. split; [done|]. cbn.
      assert (Hn : ¬ covered e p) by by apply accepted_not_covered, Hacc.
      assert (¬ (pr_epoch p < ps_epoch st ∨ pr_epoch p = ps_epoch st ∧ pr_seq p <= ps_last_seq st)).
      { intros H. apply Hn. exists st. by rewrite Eid. }
      lia.
    + rewrite lookup_insert_ne by done. eauto.
  - unfold covered. rewrite applied_producers_none by done. eauto.
Qed.

Lemma applied_fits : command_typed c → entry_typed e → entry_fits (apply_append_state e c d).
Proof.
  intros [Hcp Hcs] [H1 H2 H3 H4 H5 H6 H7 H8 H9] Hsize.
  assert (Hf : ∃ m seq, apply_append_state e c d = e <| re_producers := m |> <| re_last_seq := seq |> ∧
    (∀ s, seq = Some s → text_ok s ∧ as_bytes s ≠ []) ∧
    (∀ id p, m !! id = Some p → text_ok id ∧ is_u64 (ps_epoch p) ∧ is_u64 (ps_last_seq p))).
  { exists (re_producers (apply_append_state e c d)), (re_last_seq (apply_append_state e c d)). split_and!.
    - unfold apply_append_state. clear. by destruct e, (ac_stream_seq c), d as [[]|], (ac_producer c).
    - clear Hacc. intros s. unfold apply_append_state. destruct (ac_stream_seq c) as [q|] eqn:Eq.
      + destruct d as [[]|], (ac_producer c); cbn; intros [= <-]; by apply Hcs.
      + destruct d as [[]|], (ac_producer c); cbn; apply H6.
    - intros id p. destruct producer_cases as [[x Hx]|Hx].
      + rewrite (applied_producers x Hx).
        intros [[<- <-]|[_ Hl]]%lookup_insert_Some; [cbn; by apply Hcp|by apply H8].
      + rewrite applied_producers_none by done. apply H8. }
  destruct Hf as (m & seq & E & Hs & Hm). rewrite E in Hsize |- *. by split.
Qed.
End Applied.

Lemma close_fits e (c : AppendCommand) p0 :
  p0 = ((λ p, {| cb_producer_id := pr_producer_id p; cb_epoch := pr_epoch p; cb_seq := pr_seq p |})
          <$> ac_producer c) →
  command_typed c → entry_fits e → entry_fits (entry_close p0 e).
Proof.
  intros -> [Hcp _] Hf Hs. assert (Hs' : Z.of_nat (size (re_producers e)) < two31).
  { by destruct (ac_producer c). }
  destruct (Hf Hs') as [H1 H2 H3 H4 H5 H6 H7 H8 H9].
  destruct (ac_producer c) as [p|]; split; cbn in *; try done.
  intros x [= <-]. cbn. by apply Hcp.
Qed.

(** ** A producer's submission *)
Definition mine (i : nat) (qs : list nat) (w : World) : Prop :=
  ∀ q, q ∈ qs → ∃ s p, sub w q i s p.
Lemma stable_mine i qs : stable i (mine i qs).
Proof.
  split; intros w w' H Hm q (s & p & Hs)%Hm; exists s, p; [by apply (rl_own _ _ _ H)|by apply (qu_subs _ _ H)].
Qed.

Section Submit.
Context (i : nat) (r : Request) (e : RegistryEntry) (p : Producer) (h : nat).
Context (Hprod : ∀ w, me i r w → producer_of w i = Some p).
Context (Hnew : ¬ covered e p).

Definition submitting (w : World) : Prop := me i r w ∧ knowing i e w ∧ at_h h (re_stream_id e) w.
Lemma stable_submitting : stable i submitting.
Proof.
  apply stable_and; [apply grounded_stable, grounded_me|].
  apply stable_and; [apply stable_knowing|apply stable_at_h].
Qed.

(** The world after a reservation: one more pending append. *)
Record reserved (w w2 : World) : Prop := {
  rs_pending : ∃ pd, wd_pendings w2 = wd_pendings w ++ [pd] ∧ pd_task pd = i ∧ pd_handle pd = h ∧ pd_result pd = None;
  rs_tasks : wd_tasks w2 = wd_tasks w;
  rs_locks : wd_locks w2 = wd_locks w;
  rs_service : wd_service w2 = wd_service w;
  rs_sink : wd_sink w2 = wd_sink w;
  rs_stream : ∀ h', stream_of w2 h' = stream_of w h';
}.

Lemma submit_reserved c body s w w2 x :
  wd_handles w !! h = Some s → is_operable s = true → submit_append i h c body s w = (w2, x) →
  reserved w w2 ∧ x = Ok (length (wd_pendings w)).
Proof.
  intros Hh Hop H. unfold submit_append in H. rewrite Hop in H. cbn [negb] in H. injection H as <- <-.
  split; [|done]. split; try done; [by eexists|]. intros h'. unfold stream_of. cbn.
  destruct (decide (h = h')) as [<-|].
  - rewrite list_lookup_insert_eq by (by eapply lookup_lt_Some). by rewrite Hh.
  - by rewrite list_lookup_insert_ne.
Qed.

Section Reserved.
Context (w w2 : World) (Hr : reserved w w2) (Hsub : submitting w).

Lemma reserved_producer j : producer_of w2 j = producer_of w j.
Proof. unfold producer_of. by rewrite (rs_tasks _ _ Hr). Qed.
Lemma reserved_pending q pd :
  wd_pendings w2 !! q = Some pd →
  wd_pendings w !! q = Some pd ∨ pd_task pd = i ∧ pd_handle pd = h ∧ pd_result pd = None.
Proof.
  destruct (rs_pending _ _ Hr) as (pd' & -> & H). intros [Hq|[_ Hq]]%lookup_app_Some; [by left|right].
  by apply list_lookup_singleton_Some in Hq as [_ <-].
Qed.
Lemma reserved_old q j x y : sub w q j x y → sub w2 q j x y.
Proof.
  intros (pd & Hq & Hj & Hy & Hx). exists pd. rewrite reserved_producer, (rs_stream _ _ Hr). split_and!; auto.
  destruct (rs_pending _ _ Hr) as (pd' & -> & _). by apply lookup_app_l_Some.
Qed.
Lemma reserved_sub q j x y :
  sub w2 q j x y → sub w q j x y ∨ j = i ∧ y = p ∧ x = re_stream_id e.
Proof.
  destruct Hsub as (Hme & _ & Hat). intros (pd & Hq & Hj & Hy & Hx).
  rewrite reserved_producer in Hy. rewrite (rs_stream _ _ Hr) in Hx.
  apply reserved_pending in Hq as [Hq|(H1 & H2 & _)]; [left; by exists pd|right].
  rewrite <-Hj, H1, (Hprod w) in Hy by done. rewrite H2 in Hx. unfold at_h in Hat. split_and!; congruence.
Qed.
Lemma reserved_own q j x y : j ≠ i → sub w2 q j x y ↔ sub w q j x y.
Proof. intros Hj. split; [|apply reserved_old]. by intros [?|(-> & _)]%reserved_sub. Qed.

Lemma reserved_new : mine i [length (wd_pendings w)] w2.
Proof.
  destruct Hsub as (Hme & _ & Hat). intros q ->%list_elem_of_singleton. exists (re_stream_id e), p.
  destruct (rs_pending _ _ Hr) as (pd & Hp & H1 & H2 & _). exists pd.
  rewrite reserved_producer, (rs_stream _ _ Hr), Hp, H2, (Hprod w) by done. split_and!; [|done..].
  by rewrite lookup_app_r, Nat.sub_diag.
Qed.

Lemma reserved_entries e' : entries w2 e' ↔ entries w e'.
Proof. unfold entries, cache_n, kv_n. by rewrite (rs_service _ _ Hr), (rs_sink _ _ Hr). Qed.
Lemma reserved_holder : holder w2 = holder w.
Proof. unfold holder. by rewrite (rs_locks _ _ Hr). Qed.

Lemma reserved_once : name_inv w →
  ∀ q1 q2 i1 i2 x y, sub w2 q1 i1 x y → sub w2 q2 i2 x y → i1 = i2.
Proof.
  destruct Hsub as (_ & [_ Hk] & _). intros HN q1 q2 i1 i2 x y Hs1 Hs2.
  assert (Hno : ∀ q j, j ≠ i → ¬ sub w q j (re_stream_id e) p).
  { intros q j Hj Hs. destruct Hnew. by apply (Hk q j (re_stream_id e)). }
  destruct (decide (i1 = i)) as [->|N1], (decide (i2 = i)) as [->|N2]; [done|..].
  - apply reserved_own in Hs2; [|done]. apply reserved_sub in Hs1 as [Hs1|(_ & -> & ->)].
    + by eapply (ni_once _ HN).
    + by destruct (Hno q2 i2).
  - apply reserved_own in Hs1; [|done]. apply reserved_sub in Hs2 as [Hs2|(_ & -> & ->)].
    + by eapply (ni_once _ HN).
    + by destruct (Hno q1 i1).
  - by eapply (ni_once _ HN); apply reserved_own.
Qed.

Lemma reserved_J : J w → J w2.
Proof.
  intros [HN HO]. pose proof Hsub as (Hme & [Hi Hk] & Hat). split.
  - pose proof HN as [H1 H2 H3 H4 H5 H6]. split.
    + unfold cache_n. rewrite (rs_service _ _ Hr). apply H1.
    + unfold kv_n. rewrite (rs_sink _ _ Hr). apply H2.
    + intros e' q j x y He Hs Hj Hid. rewrite reserved_holder in Hj.
      assert (j ≠ i) by (intros ->; by apply Hj).
      eapply (H3 e' q j x); [by apply reserved_entries|by apply reserved_own|done..].
    + by apply reserved_once.
    + intros q pd y Hq Hy. rewrite reserved_producer in Hy.
      apply reserved_pending in Hq as [Hq|(_ & _ & ?)]; [by eapply H5|by left].
    + intros q pd Hq. rewrite (rs_tasks _ _ Hr). apply reserved_pending in Hq as [Hq|(-> & _)]; [by eapply H6|].
      apply lookup_lt_is_Some. unfold me in Hme. by destruct (wd_tasks w !! i) as [?|]; eauto.
  - destruct HO as [O1 O2 O3]. split.
    + intros x y. rewrite (rs_service _ _ Hr), (rs_stream _ _ Hr). apply O1.
    + intros q pd Hq. rewrite (rs_stream _ _ Hr). apply reserved_pending in Hq as [Hq|(_ & -> & _)]; [by eapply O2|].
      by rewrite Hat.
    + by rewrite (rs_sink _ _ Hr).
Qed.

Lemma reserved_rely j : j ≠ i → rely j w w2.
Proof.
  intros Hj. pose proof Hsub as (_ & [Hi _] & _). unfold inside in Hi. split.
  - by rewrite reserved_holder.
  - intros Hj2. exfalso. congruence.
  - intros. by apply reserved_own.
  - by rewrite (rs_tasks _ _ Hr).
  - intros h' x Hx. by rewrite (rs_stream _ _ Hr).
Qed.

Lemma reserved_submitting : submitting w2.
Proof.
  pose proof Hsub as (Hme & [Hi Hk] & Hat). split_and!; [by unfold me; rewrite (rs_tasks _ _ Hr)|split|].
  - unfold inside. by rewrite reserved_holder.
  - intros q j x y Hs Hj Hid. by apply (Hk q j x); [apply reserved_own|..].
  - unfold at_h. by rewrite (rs_stream _ _ Hr).
Qed.
End Reserved.

Lemma wp_submit c body {B : Set} (k : result nat Error → P B) qs Φ w :
  submitting w → mine i qs w →
  (∀ w' q, submitting w' → mine i (qs ++ [q]) w' → wp i (k (Ok q)) Φ w') →
  wp i (Vis (SubmitAppend h c body) k) Φ w.
Proof.
  intros Hs Hm Hk w1 Hr HJ o w2 x Ho H.
  pose proof (stable_rely _ _ _ _ stable_submitting Hr Hs) as Hs1.
  pose proof (stable_rely _ _ _ _ (stable_mine i qs) Hr Hm) as Hm1.
  destruct Ho as [Ho1 Ho2]; [by rewrite (Hprod w1 (proj1 Hs1))|].
  cbn in H. destruct (wd_handles w1 !! h) as [s|] eqn:Eh; [|done]. injection Ho2 as Hop.
  rewrite Ho1 in H. injection H as H.
  destruct (submit_reserved _ _ _ _ _ _ Eh Hop H) as [Hres ->].
  split; [intros j; by apply reserved_rely|]. split; [by eapply reserved_J|].
  apply Hk; [by eapply reserved_submitting|]. intros q [Hq|Hq]%elem_of_app.
  - destruct (Hm1 q Hq) as (x & y & Hx). exists x, y. by eapply reserved_old.
  - by apply (reserved_new w1 w2 Hres Hs1).
Qed.

Lemma wp_submit_each ms qs w :
  submitting w → mine i qs w →
  wp i (submit_each h ms) (λ res w', submitting w' ∧ ∃ ps, res = Ok ps ∧ mine i (qs ++ ps) w') w.
Proof.
  revert qs w. induction ms as [|m ms IH]; intros qs w Hs Hm; cbn [submit_each].
  { apply wp_ret. split; [done|]. exists []. by rewrite app_nil_r. }
  apply (wp_submit _ _ _ qs); [done..|]. intros w1 q Hs1 Hm1. cbn beta iota. apply wp_bind.
  eapply wp_mono; [|by apply IH]. intros res w2 (Hs2 & ps & -> & Hm2). apply wp_ret. split; [done|].
  exists (q :: ps). by rewrite <-app_assoc in Hm2.
Qed.

Lemma wp_submit_messages ms atomic w :
  submitting w →
  wp i (submit_messages h ms atomic) (λ res w', submitting w' ∧ ∃ ps, res = Ok ps ∧ mine i ps w') w.
Proof.
  intros Hs. assert (Hm : mine i [] w) by (intros q []%elem_of_nil).
  unfold submit_messages. destruct ms as [|m ms]; [apply wp_ret; eauto|].
  destruct (_ && _); [|by apply (wp_submit_each (m :: ms) [])].
  apply (wp_submit _ _ _ []); [done..|]. intros w1 q Hs1 Hm1. apply wp_ret. split; [done|]. by exists [q].
Qed.
End Submit.

(** ** An append to the name *)
Section Append.
Context (json : list byte → option (list (list byte) + list byte)).
Context (i : nat) (r : Request) (c0 : AppendCommand).
#[local] Notation c := (normalized c0).
Context (Hname : normalize (ac_name c0) = n) (Htyped : command_typed c).
Context (my_producer : ∀ w, me i r w → producer_of w i = ac_producer c).

Lemma alone_settling w : ac_producer c = None → me i r w → inside i w → settling i w.
Proof.
  intros Hp Hm Hi. split; [done|]. apply fresh_settled. intros q s p (pd & _ & _ & Hx & _).
  rewrite my_producer in Hx by done. congruence.
Qed.

(** [e'] is [e] with this append's producer recorded. *)
Definition records (e e' : RegistryEntry) : Prop :=
  re_stream_id e' = re_stream_id e ∧ (∀ x, covered e x → covered e' x) ∧
  (∀ p, ac_producer c = Some p → covered e' p).

Lemma wp_put_records {B : Set} (k : result unit ServiceError → P B) e e' Φ w :
  records e e' → entry_fits e' → me i r w → knowing i e w →
  (∀ w', me i r w' → settling i w' → wp i (k (Ok tt)) Φ w') →
  wp i (bind (put_entry n e') k) Φ w.
Proof.
  intros (Hid & Hmono & Hown) Hf Hm [Hi Hk] HΦ.
  apply (wp_put_entry i _ e' (me i r)); [apply grounded_me|done| |done|].
  { split; [done|]. intros q j s p Hs Hj Hs'. apply Hmono, (Hk q j s); congruence. }
  intros w' Hm' [Hi' _] He'. apply HΦ; [done|]. split; [done|].
  intros e2 q s p ->%He' (pd & _ & _ & Hp & _) _. rewrite my_producer in Hp by done. auto.
Qed.

Lemma check_accepts e next ms :
  check_append json e c next = Ok (inl ms) →
  ∀ p, ac_producer c = Some p → is_accepted (validate_producer e p) = true.
Proof.
  unfold check_append. intros H p Hp. rewrite Hp in H. cbn in H.
  destruct (is_accepted (validate_producer e p)) eqn:E; [done|]. cbn in H.
  by destruct (handle_producer_reject _ _ _ _).
Qed.

(** What is known once the messages were submitted. *)
Definition owing (ps : list nat) (w : World) : Prop := ac_producer c = None ∨ mine i ps w.

Lemma stable_owing ps : stable i (owing ps).
Proof.
  split; intros w w' H [?|Hm]; [by left|right|by left|right].
  - by apply (proj1 (stable_mine i ps) w).
  - by apply (proj2 (stable_mine i ps) w).
Qed.

Lemma wp_submits {B : Set} (k : result (list nat) Error → P B) h e ms atomic Φ w :
  (∀ p, ac_producer c = Some p → is_accepted (validate_producer e p) = true) →
  me i r w → knowing i e w → at_h h (re_stream_id e) w →
  (∀ res w', me i r w' → knowing i e w' →
     match res with Ok ps => owing ps w' | Err _ => ac_producer c = None end → wp i (k res) Φ w') →
  wp i (bind (submit_messages h ms atomic) k) Φ w.
Proof.
  intros Hacc Hm Hk Hat HΦ. apply wp_bind. destruct (ac_producer c) as [p|] eqn:Hp.
  - eapply wp_mono; [|apply (wp_submit_messages i r e p h); [| |done]].
    + intros res w' ((Hm' & Hk' & _) & ps & -> & Hps). apply HΦ; [done..|]. by right.
    + intros w' Hm'. by rewrite my_producer.
    + by apply accepted_not_covered, Hacc.
  - eapply wp_mono; [|apply (n_submit i h ms atomic (λ w, me i r w ∧ knowing i e w)); [|done|]].
    + intros res w' [[Hm' Hk'] _]. apply HΦ; [done..|]. destruct res; [by left|done].
    + apply stable_and; [apply grounded_stable, grounded_me|apply stable_knowing].
    + split; [by rewrite my_producer|]. apply lookup_lt_is_Some. unfold me in Hm.
      by destruct (wd_tasks w !! i); eauto.
Qed.

(** The results of a producer's appends are good. *)
Lemma wp_await ps K w :
  stable i K → K w → owing ps w →
  wp i (await_durable ps) (λ res w', K w' ∧ (res = Ok tt ∨ ac_producer c = None)) w.
Proof.
  intros HK. revert w. induction ps as [|q ps IH]; intros w Hw Ho; cbn [await_durable].
  { apply wp_ret. auto. }
  apply (wp_event i _ _ (λ w, K w ∧ owing (q :: ps) w)); [apply stable_and; [done|apply stable_owing]|done|].
  intros o w1 w2 x [HN HO] [Hw1 Ho1] _ H. cbn in H. destruct (wd_pendings w1 !! q) as [pd|] eqn:Eq; [|done].
  destruct (pd_result pd) as [res|] eqn:Er; [|done]. injection H as <- <-.
  split_and!; [by apply quiet_refl|done|]. intros _. cbn beta iota.
  assert (Hrest : owing ps w1).
  { destruct Ho1 as [?|Hm]; [by left|right]. intros q' Hq'. apply Hm. by right. }
  assert (res = Ok tt ∨ ac_producer c = None) as [->|Hp].
  { destruct Ho1 as [?|Hm]; [by right|left].
    destruct (Hm q) as (s & p & pd' & Hq & Ht & Hp & _); [by left|].
    assert (pd' = pd) as -> by congruence. rewrite <-Ht in Hp.
    destruct (ni_results _ HN q pd p Eq Hp); congruence. }
  - by apply IH.
  - destruct res as [u|err]; [by apply IH|]. apply wp_ret. auto.
Qed.

Lemma records_applied e :
  (∀ p, ac_producer c = Some p → is_accepted (validate_producer e p) = true) →
  records e (apply_append_state e c (validate_producer e <$> ac_producer c)).
Proof.
  intros Hacc. split_and!.
  - by apply applied_id.
  - intros x. by apply applied_covers.
  - intros p. by apply applied_covers_own.
Qed.
Lemma records_close e e' cb : records e e' → records e (entry_close cb e').
Proof. intros (? & ? & ?). by destruct cb; split_and!. Qed.
Lemma records_touches e e' e'' : records e e' → touches e' e'' → records e e''.
Proof. intros H [->|(d & _ & ->)]; [done|]. destruct H as (? & ? & ?). by split_and!. Qed.

Definition locked_post {A : Set} (_ : A) (w : World) : Prop := me i r w ∧ settling i w.

Lemma stable_locked {A : Set} (a : A) : stable i (locked_post a).
Proof. apply stable_and; [apply grounded_stable, grounded_me|apply stable_settling]. Qed.

(** A quiet end of the locked part. *)
Lemma wp_tail {A : Set} (p : P A) w : qt i anything p whatever → locked_post tt w → wp i p locked_post w.
Proof.
  intros Hp Hw. eapply wp_mono; [|by apply (Hp (locked_post tt)); [apply stable_locked|..]]. by intros a w' [? _].
Qed.

Lemma wp_close_entry e e' w :
  records e e' → entry_fits e' → me i r w → knowing i e w → wp i (close_entry n e' c) locked_post w.
Proof.
  intros Hr Hf Hm Hk. unfold close_entry.
  set (cb := (λ p, {| cb_producer_id := pr_producer_id p; cb_epoch := pr_epoch p; cb_seq := pr_seq p |})
               <$> ac_producer c).
  apply (wp_qt i _ _ (λ e'' _, touches (entry_close cb e') e'') (λ w, me i r w ∧ knowing i e w));
    [apply q_touch_spec| |done|].
  { apply stable_and; [apply grounded_stable, grounded_me|apply stable_knowing]. }
  intros e2 w1 [Hm1 Hk1] He2. unfold bindq at 1. apply (wp_put_records _ e e2); [|  |done..|].
  - by eapply records_touches; [apply records_close|].
  - by eapply touches_typed; [|eapply close_fits].
  - intros w2 Hm2 Hs2. cbn beta iota. apply wp_tail; [q_prog|by split].
Qed.

(** The part of [append] after the checks. *)
Lemma wp_locked_bind {A B : Set} (p : P A) (k : A → P B) w :
  wp i p locked_post w → (∀ a, qt i anything (k a) whatever) → wp i (bind p k) locked_post w.
Proof.
  intros Hp Hk. apply wp_bind. eapply wp_mono; [|done]. intros a w' Hw. by apply wp_tail.
Qed.

Lemma wp_append_close {A : Set} e ps name sid (q : P unit) (res : A) w :
  (∀ p, ac_producer c = Some p → is_accepted (validate_producer e p) = true) → entry_typed e →
  me i r w → knowing i e w → owing ps w → qt i anything q whatever →
  wp i (d <- await_durable ps ;;;
        match d with
        | Err err => abandon name sid ;;; fail (durability err)
        | Ok _ => _ <- q ;;;
                  _ <-? close_entry n (apply_append_state e c (validate_producer e <$> ac_producer c)) c ;;;
                  ok res
        end) locked_post w.
Proof.
  intros Hacc Ht Hm Hk Ho Hq. apply wp_bind.
  assert (HK : stable i (λ w, me i r w ∧ knowing i e w)).
  { apply stable_and; [apply grounded_stable, grounded_me|apply stable_knowing]. }
  eapply wp_mono; [|by apply (wp_await ps _ w HK)]. intros d w1 [[Hm1 Hk1] Hd]. destruct d as [u|err].
  - apply (wp_qt i _ _ whatever (λ w, me i r w ∧ knowing i e w)); [done..|]. intros _ w2 [Hm2 Hk2] _.
    unfold bindq at 1. apply wp_locked_bind.
    + apply (wp_close_entry e); [by apply records_applied|by apply applied_fits|done..].
    + intros [|]; q_prog.
  - destruct Hd as [|Hp]; [done|]. apply wp_tail; [q_prog|]. split; [done|]. apply alone_settling; [done..|]. apply Hk1.
Qed.

Lemma wp_append_open {A : Set} e (f : RegistryEntry → A) w :
  (∀ p, ac_producer c = Some p → is_accepted (validate_producer e p) = true) → entry_typed e →
  me i r w → knowing i e w →
  wp i (touched <- touch_deadline (apply_append_state e c (validate_producer e <$> ac_producer c)) ;;;
        _ <-? (if bool_decide (touched = e) then ok tt else put_entry n touched) ;;;
        ok (f touched)) locked_post w.
Proof.
  intros Hacc Ht Hm Hk. set (e' := apply_append_state _ _ _).
  assert (HK : stable i (λ w, me i r w ∧ knowing i e w)).
  { apply stable_and; [apply grounded_stable, grounded_me|apply stable_knowing]. }
  apply (wp_qt i _ _ (λ e'' _, touches e' e'') _ _ _ (q_touch_spec i e') HK); [done|].
  intros e2 w1 [Hm1 Hk1] He2.
  assert (Hrec : records e e2) by by eapply records_touches; [apply records_applied|].
  unfold bindq at 1. case_bool_decide as Heq.
  - apply wp_ret. split; [done|]. apply alone_settling; [|done|apply Hk1].
    destruct (producer_cases c) as [[p Hp]|]; [|done]. subst e2.
    destruct (accepted_not_covered e p); [by apply Hacc|]. by apply Hrec.
  - apply (wp_put_records _ e e2); [done| |done..|].
    + by eapply touches_typed; [|apply applied_fits].
    + intros w2 Hm2 Hs2. apply wp_ret. by split.
Qed.

Lemma wp_append_locked w : idle i r w → inside i w → wp i (append_locked json n c) locked_post w.
Proof.
  intros Hidle Hi. unfold append_locked. unfold bindq at 1.
  assert (Hend : ∀ {A : Set} (x : A) w, idle i r w → inside i w → locked_post x w).
  { intros A x w' Hw Hi'. split; [apply Hw|by eapply idle_settling]. }
  apply (wp_get_entry_in i false _ (idle i r)); [apply grounded_idle|done..|].
  intros w1 [[e|]|err] Hw1 Hi1 Hc; cbn beta iota; [|by apply wp_ret, Hend..].
  destruct (Hc _ eq_refl _ eq_refl) as [Ht Hkn].
  assert (HK : stable i (λ w, idle i r w ∧ knowing i e w)) by (apply stable_and; [apply stable_idle|apply stable_knowing]).
  unfold bindq at 1.
  apply (wp_qt i _ _ _ _ _ _ (q_ensure_open i (re_stream_id e)) HK); [done|].
  intros [h|err] w2 [Hw2 Hk2] Hat; cbn beta iota; [|by apply wp_ret, Hend; [|apply Hk2]].
  specialize (Hat h eq_refl).
  assert (HK' : stable i (λ w, (idle i r w ∧ knowing i e w) ∧ at_h h (re_stream_id e) w))
    by (apply stable_and; [done|apply stable_at_h]).
  apply (wp_qt i _ _ _ _ _ _ (qt_peek i h) HK'); [done|]. intros s w3 [[Hw3 Hk3] Hat3] _. cbn beta zeta.
  destruct (check_append json e c (of_record_offset (ss_next_offset s))) as [[ms|answer]|err] eqn:Hchk;
    cbn beta iota; [|by apply wp_ret, Hend; [|apply Hk3]..].
  pose proof (check_accepts _ _ _ Hchk) as Hacc.
  apply (wp_submits _ h e); [done|apply Hw3|done..|]. intros [ps|err] w4 Hm4 Hk4 Howe; cbn beta iota.
  2:{ apply wp_tail; [q_prog|]. split; [done|]. by apply alone_settling; [..|apply Hk4]. }
  assert (HKs : stable i (λ w, (me i r w ∧ knowing i e w) ∧ owing ps w)).
  { apply stable_and; [|apply stable_owing]. apply stable_and; [apply grounded_stable, grounded_me|apply stable_knowing]. }
  apply (wp_qt i _ _ whatever _ _ _) with (2 := HKs); [destruct ms; q_prog|done|].
  intros next w5 [[Hm5 Hk5] Ho5] _. cbn beta zeta. destruct (ac_close_after c).
  - apply (wp_append_close e ps n (re_stream_id e)); [done..|]. destruct (_ && _); q_prog.
  - apply (wp_append_open e (λ _, inr _)); done.
Qed.

Lemma q_append_unlocked name sb : qt i anything (append_unlocked name sb) whatever.
Proof. unfold append_unlocked. q_prog. Qed.

Lemma wp_append w : idle i r w → wp i (append json c0) (λ _, outside i) w.
Proof.
  intros Hw. unfold append, bindq.
  replace (normalize (ac_name c)) with n by (rewrite <-Hname; unfold normalized; by case_bool_decide).
  apply (wp_gate i _ _ (idle i r) (me i r)); [apply grounded_idle|apply grounded_me|done|].
  intros w1 Hw1 Hi1. eapply wp_mono; [|by apply wp_append_locked]. intros a w2 [Hm2 Hs2].
  split_and!; [done..|]. intros w3 Hm3 Ho3. destruct a as [[answer|sb]|err]; [by apply wp_ret| |by apply wp_ret].
  eapply wp_mono; [|by apply (q_append_unlocked n sb (outside i)); [apply stable_outside|..]].
  by intros a w4 [Ho4 _].
Qed.
End Append.

(** ** The other handlers *)
Lemma q_cached_out i : qt i (outside i) (cached_entry n) whatever.
Proof.
  unfold cached_entry. apply qt_seq; [apply stable_outside|apply qt_read|]. intros [e|]; [by apply qt_ret|].
  intros K w HK Hw Ho. eapply (wp_event i _ _ (λ w, K w ∧ outside i w)); [|done|].
  { apply stable_and; [done|apply stable_outside]. }
  intros o w1 w2 x _ [_ Ho1] Hok _. by destruct Ho1; apply Hok.
Qed.

(** Outside the gate the stored entry of the name is not read. *)
Lemma q_get_out i name : qt i (outside i) (get_entry name false) whatever.
Proof.
  destruct (decide (name = n)) as [->|].
  - unfold get_entry, bindq. eapply qt_bind; [apply q_cached_out|]. intros [[e|]|err]; q_prog.
  - by eapply qt_weaken; [apply q_get_entry|..].
Qed.

Lemma q_lookup i name : qt i (outside i) (lookup_stream_id name) whatever.
Proof. unfold lookup_stream_id, bindq. eapply qt_bind; [apply q_get_out|]. intros [|]; q_prog. Qed.
Lemma q_head i name : qt i (outside i) (head_stream name) whatever.
Proof. unfold head_stream, bindq at 1. eapply qt_bind; [apply q_get_out|]. intros [[]|]; q_prog. Qed.
Lemma q_wait_appended i name off : qt i (outside i) (wait_appended name off) whatever.
Proof. unfold wait_appended, bindq at 1. eapply qt_bind; [apply q_get_out|]. intros [[]|]; q_prog. Qed.
Lemma q_owner_of i name : qt i (outside i) (owner_of node name) whatever.
Proof. unfold owner_of, bindq. eapply qt_bind; [apply q_lookup|]. intros [[]|]; q_prog. Qed.
Lemma q_transfer i name to : qt i (outside i) (transfer_stream name to) whatever.
Proof. unfold transfer_stream, bindq at 1. eapply qt_bind; [apply q_lookup|]. intros [[]|]; q_prog. Qed.
Lemma q_list i pre after limit : qt i anything (list_streams pre after limit) whatever.
Proof. unfold list_streams. q_prog. Qed.
Lemma q_close_all i hs : qt i anything (close_all hs) whatever.
Proof. induction hs as [|h hs IH]; cbn [close_all]; [by apply qt_ret|]. q_prog. Qed.
Hint Resolve q_close_all : qprog.
Lemma q_shutdown i : qt i anything shutdown_service whatever.
Proof. unfold shutdown_service, open_stream_snapshot. q_prog. Qed.

(** *** Under the gate *)
Lemma q_delete i name : normalize name ≠ n → qt i anything (delete_named name) whatever.
Proof. intros Hn. unfold delete_named. apply q_gate; [done|]. q_prog. Qed.
Lemma q_trim i name off : normalize name ≠ n → qt i anything (trim_named name off) whatever.
Proof. intros Hn. unfold trim_named. apply q_gate; [done|]. q_prog. Qed.
Lemma q_fetch i e h a b x y : qt i anything (fetch_records e h a b x y) whatever.
Proof. unfold fetch_records. q_prog. Qed.
Hint Resolve q_fetch : qprog.
Lemma q_read i name off x y : normalize name ≠ n → qt i anything (read name off x y) whatever.
Proof. intros Hn. unfold read. apply q_gate; [done|]. q_prog. Qed.

Definition ends {A : Set} (_ : A) (_ : World) : Prop := True.

Section Gated.
Context (i : nat) (r : Request) (name : string) (w : World) (Hn : normalize name = n) (Hw : idle i r w).

Lemma wp_delete (k : result bool ServiceError → Outcome) :
  wp i (x <- delete_named name ;;; Ret (k x)) ends w.
Proof.
  unfold delete_named. rewrite Hn. apply (wp_gate_entry i r); [|done|done]. intros [e|]; q_prog.
Qed.
Lemma wp_trim off (k : result Z ServiceError → Outcome) :
  wp i (x <- trim_named name off ;;; Ret (k x)) ends w.
Proof.
  unfold trim_named. rewrite Hn. apply (wp_gate_entry i r); [|done|done]. intros [e|]; q_prog.
Qed.
Lemma wp_read off x y (k : result ReadResult ServiceError → Outcome) :
  wp i (x <- read name off x y ;;; Ret (k x)) ends w.
Proof.
  unfold read. rewrite Hn. apply (wp_gate_entry i r); [|done|done]. intros [e|]; q_prog.
Qed.
End Gated.

(** *** The transfer watcher *)
Definition idling (i : nat) (r : Request) {A : Set} (p : P A) : Prop :=
  ∀ w, idle i r w → wp i p (λ _ w', idle i r w') w.

Lemma idling_ret i r {A : Set} (a : A) : idling i r (Ret a).
Proof. intros w Hw. by apply wp_ret. Qed.
Lemma idling_bind i r {A B : Set} (p : P A) (f : A → P B) :
  idling i r p → (∀ a, idling i r (f a)) → idling i r (bind p f).
Proof. intros Hp Hf w Hw. apply wp_bind. eapply wp_mono; [|by apply Hp]. intros a w' Hw'. by apply Hf. Qed.
Lemma idling_qt i r {A : Set} (p : P A) : qt i anything p whatever → idling i r p.
Proof.
  intros Hp w Hw. eapply wp_mono; [|by apply (Hp (idle i r)); [apply stable_idle|..]]. by intros a w' [].
Qed.

Lemma q_release_held i name sid : qt i anything (release_held name sid) whatever.
Proof. unfold release_held. q_prog. Qed.
Hint Resolve q_release_held : qprog.
Lemma q_name_of i sid : qt i anything (name_of sid) whatever.
Proof. unfold name_of. q_prog. Qed.

Lemma wp_bind_ret i {A : Set} (p : P A) Φ w : wp i (bind p Ret) Φ w → wp i p Φ w.
Proof.
  revert w. induction p as [a|X e k IH]; intros w H; [done|].
  intros w1 Hr HJ o w2 x Ho He. destruct (H w1 Hr HJ o w2 x Ho He) as (? & ? & ?). auto.
Qed.

Lemma idling_gate i r name {A : Set} (body : P A) :
  qt i anything body whatever → idling i r (with_gate name body).
Proof.
  intros Hb. destruct (decide (name = n)) as [->|]; [|by apply idling_qt, q_gate].
  intros w Hw. apply wp_bind_ret. by apply (wp_gate_quiet i r).
Qed.

Lemma idling_release i r sid : idling i r (release_for_transfer sid).
Proof.
  unfold release_for_transfer. apply idling_bind; [apply idling_qt, q_name_of|].
  intros [name|]; [apply idling_gate, q_release_held|apply idling_qt, q_release_held].
Qed.
Lemma idling_complete i r view sid : idling i r (release_and_complete node view sid).
Proof.
  unfold release_and_complete. destruct (_ !! sid) as [row|]; [|apply idling_ret].
  destruct (sr_state row); [apply idling_qt; q_prog|]. destruct (_ =? _); [|apply idling_ret].
  apply idling_bind; [apply idling_release|]. intros [[]|]; apply idling_qt; q_prog.
Qed.
Lemma idling_pending i r view l inc : idling i r (process_pending node view l inc).
Proof.
  revert inc. induction l as [|[sid p] l IH]; intros inc; cbn [process_pending]; [apply idling_ret|].
  apply idling_bind; [|intros _; apply IH]. destruct (_ =? _); [apply idling_complete|apply idling_ret].
Qed.
Lemma q_completed i view l : qt i anything (process_completed node view l) whatever.
Proof. induction l as [|sid l IH]; cbn [process_completed]; [by apply qt_ret|]. q_prog. Qed.
Lemma idling_watch i r : idling i r (watch node).
Proof.
  unfold watch, process. apply idling_bind; [apply idling_qt, qt_view|]. intros view.
  apply idling_bind; [apply idling_qt, qt_read|]. intros inc. apply idling_bind.
  - apply idling_bind; [apply idling_pending|]. intros inc'.
    apply idling_bind; [apply idling_qt, q_completed|]. intros _. apply idling_ret.
  - intros inc'. apply idling_qt. q_prog.
Qed.

(** *** Other names *)
Lemma qt_peek_at i h : qt i anything (call (Peek h)) (λ s, at_h h (ss_stream_id s)).
Proof.
  apply qt_call; [apply stable_true|]. intros o w1 w2 s HJ _ _ H. cbn in H.
  destruct (wd_handles w1 !! h) as [s'|] eqn:E; [|done]. injection H as <- <-.
  destruct (same_world _ HJ). split_and!; [done..|]. unfold at_h, stream_of. by rewrite E.
Qed.
Lemma q_create_and_open i epoch : qt i anything (create_and_open_stream epoch) whatever.
Proof. unfold create_and_open_stream. q_prog. Qed.
#[local] Hint Resolve q_create_and_open : qprog.
Lemma q_provision i name : qt i anything (provision_stream name) whatever.
Proof.
  unfold provision_stream, bindq. apply qt_seq; [apply stable_true|q_prog|]. intros [h|err]; [|q_prog].
  eapply qt_bind; [apply qt_peek_at|]. intros s. eapply qt_bind; [apply q_keep_open0|]. intros u. by apply qt_ret.
Qed.
Hint Resolve q_provision : qprog.
Lemma q_lost_race i name h e command : qt i anything (resolve_lost_race name h e command) whatever.
Proof. unfold resolve_lost_race. q_prog. Qed.
Hint Resolve q_lost_race : qprog.

Section Others.
Context (json : list byte → option (list (list byte) + list byte)).

Lemma n_initial i name h command : qt i (np i) (append_initial_payload json name h command) whatever.
Proof. unfold append_initial_payload. np_prog. Qed.
Hint Resolve n_initial : nprog.
Lemma n_create_new i name command : name ≠ n → qt i (np i) (create_new json name command) whatever.
Proof. intros Hn. unfold create_new. np_prog. Qed.
Hint Resolve n_create_new : nprog.
Lemma n_create i command : normalize (cc_name command) ≠ n → qt i (np i) (create json command) whatever.
Proof. intros Hn. unfold create, with_gate. np_prog. Qed.
Lemma n_close_entry i name e command : name ≠ n → qt i (np i) (close_entry name e command) whatever.
Proof. intros Hn. unfold close_entry. np_prog. Qed.
Hint Resolve n_close_entry : nprog.
Lemma n_append_locked i name command : name ≠ n → qt i (np i) (append_locked json name command) whatever.
Proof. intros Hn. unfold append_locked. np_prog. Qed.
Hint Resolve n_append_locked : nprog.
Lemma n_append i command :
  normalize (ac_name command) ≠ n → qt i (np i) (append json command) whatever.
Proof.
  intros Hn. unfold append, with_gate.
  replace (normalize (ac_name (normalized command))) with (normalize (ac_name command))
    by (unfold normalized; by case_bool_decide).
  np_prog. by eapply qt_weaken; [apply q_append_unlocked|..].
Qed.
Lemma n_close_named i name : normalize name ≠ n → qt i (np i) (close_named json name) whatever.
Proof.
  intros Hn. unfold close_named, bindq. eapply qt_bind; [by apply n_append|]. intros [|]; by apply qt_ret.
Qed.
End Others.

(** ** Every handler *)

(** Requests within the promise: the name is not created anew, and what is
    sent to it is UTF-8 text and [u64] numbers. *)
Definition admissible (r : Request) : Prop :=
  match r with
  | RCreate c => normalize (cc_name c) ≠ n
  | RAppend c => normalize (ac_name c) = n → command_typed (normalized c)
  | _ => True
  end.

Section Runs.
Context (json : list byte → option (list (list byte) + list byte)).

Lemma wp_ends i {A B : Set} (p : P A) (f : A → B) Q F w :
  qt i F p Q → F w → wp i (x <- p ;;; Ret (f x)) ends w.
Proof.
  intros Hp Hw. apply wp_bind. eapply wp_mono; [|by apply (Hp anything); [apply stable_true|..]].
  intros a w' _. by apply wp_ret.
Qed.

Definition request_producer (r : Request) : option Producer :=
  match r with RAppend c => if bool_decide (normalize (ac_name c) = n) then ac_producer c else None | _ => None end.
Lemma me_producer i r w : me i r w → producer_of w i = request_producer r.
Proof.
  unfold me, producer_of, request_producer. destruct (wd_tasks w !! i) as [[r' t]|]; [|done]. by intros [= ->].
Qed.
Lemma me_np i r w : request_producer r = None → idle i r w → np i w.
Proof.
  intros Hr [Hm _]. split; [by rewrite (me_producer _ r)|]. apply lookup_lt_is_Some. unfold me in Hm.
  by destruct (wd_tasks w !! i); eauto.
Qed.

Lemma wp_append_named i r c {B : Set} (f : result AppendResult ServiceError → B) w :
  normalize (ac_name c) = n → command_typed (normalized c) → request_producer r = ac_producer c →
  idle i r w → wp i (x <- append json c ;;; Ret (f x)) ends w.
Proof.
  intros Hn Ht Hr Hw. apply wp_bind. eapply wp_mono; [|apply (wp_append json i r c); [done..| |done]].
  - intros a w' _. by apply wp_ret.
  - intros w' Hm. rewrite (me_producer _ r) by done. rewrite Hr. unfold normalized. by case_bool_decide.
Qed.

Lemma wp_handler_append i c w :
  admissible (RAppend c) → idle i (RAppend c) w → wp i (handler json node (RAppend c)) ends w.
Proof.
  intros Ha Hw. cbn [handler]. destruct (decide (normalize (ac_name c) = n)) as [Hn|Hn].
  - apply (wp_append_named i (RAppend c)); [done|by apply Ha| |done]. cbn. by rewrite bool_decide_eq_true_2.
  - eapply wp_ends; [by apply n_append|]. eapply me_np; [|done]. cbn. by rewrite bool_decide_eq_false_2.
Qed.
Lemma wp_handler_close i name w :
  idle i (RClose name) w → wp i (handler json node (RClose name)) ends w.
Proof.
  intros Hw. cbn [handler]. destruct (decide (normalize name = n)) as [Hn|Hn].
  - apply wp_bind. unfold close_named, bindq. apply wp_bind.
    eapply wp_mono; [|apply (wp_append json i (RClose name)); [done| | |done]].
    + intros [a|e] w' _; apply wp_ret; by apply wp_ret.
    + by split.
    + intros w' Hm. by rewrite (me_producer _ _ _ Hm).
  - eapply wp_ends; [by apply n_close_named|]. by eapply me_np; [|exact Hw].
Qed.

Lemma wp_handler i r w :
  admissible r → idle i r w → outside i w → wp i (handler json node r) ends w.
Proof.
  intros Ha Hw Ho. destruct r as [cmd|name|pre after limit|name|name|name off|cmd|name off x y|name off|name|name to| |].
  - cbn [handler]. eapply wp_ends; [by apply n_create|]. by eapply me_np; [|exact Hw].
  - by eapply wp_ends; [apply q_head|].
  - eapply (wp_ends _ _ _ _ anything); [apply q_list|done].
  - by apply wp_handler_close.
  - cbn [handler]. destruct (decide (normalize name = n)); [by eapply wp_delete; [|exact Hw]|].
    by eapply (wp_ends _ _ _ _ anything); [apply q_delete|].
  - cbn [handler]. destruct (decide (normalize name = n)); [by eapply wp_trim; [|exact Hw]|].
    by eapply (wp_ends _ _ _ _ anything); [apply q_trim|].
  - by apply wp_handler_append.
  - cbn [handler]. destruct (decide (normalize name = n)); [by eapply wp_read; [|exact Hw]|].
    by eapply (wp_ends _ _ _ _ anything); [apply q_read|].
  - by eapply wp_ends; [apply q_wait_appended|].
  - by eapply wp_ends; [apply q_owner_of|].
  - by eapply wp_ends; [apply q_transfer|].
  - cbn [handler]. apply wp_bind. eapply wp_mono; [|by eapply idling_watch, Hw]. intros a w' _. by apply wp_ret.
  - by eapply (wp_ends _ _ _ _ anything); [apply q_shutdown|].
Qed.

(** ** Runs *)

(** What an event leaves: the tasks, and the locks of others. *)
Record keeps (i : nat) (w w2 : World) : Prop := {
  kp_tasks : wd_tasks w2 = wd_tasks w;
  kp_locks : ∀ l j, wd_locks w2 !! l = Some j → wd_locks w !! l = Some j ∨ j = i;
}.

Lemma keeps_same i w w2 : wd_tasks w2 = wd_tasks w → wd_locks w2 = wd_locks w → keeps i w w2.
Proof. intros Ht Hl. split; [done|]. rewrite Hl. auto. Qed.
Lemma proposal_same {A : Set} o w (f : LocalSink → LocalSink * result A StreamError) w2 x :
  proposal o w f = (w2, x) → wd_tasks w2 = wd_tasks w ∧ wd_locks w2 = wd_locks w.
Proof. unfold proposal. intros H. repeat case_match; by simplify_eq. Qed.
Lemma open_handle_same o s ep w w2 x :
  open_handle node o s ep w = (w2, x) → wd_tasks w2 = wd_tasks w ∧ wd_locks w2 = wd_locks w.
Proof.
  unfold open_handle. destruct (proposal o w _) as [w' r] eqn:E. apply proposal_same in E as [Ht Hl].
  intros H. repeat case_match; simplify_eq; auto.
Qed.

Lemma exec_keeps i o {X : Set} (e : Ev X) w w2 x : exec node i o e w = Some (w2, x) → keeps i w w2.
Proof.
  assert (Hp : ∀ (A : Set) w (f : LocalSink → LocalSink * result A StreamError) w2 x,
    Some (proposal o w f) = Some (w2, x) → keeps i w w2).
  { intros A w' f w2' x' [= []%proposal_same]. by apply keeps_same. }
  destruct e; cbn; intros Hx; try (by repeat case_match; simplify_eq; apply keeps_same);
    try (by eapply Hp).
  - case_match; simplify_eq. split; [done|]. cbn. intros l' j [[<- <-]|[]]%lookup_insert_Some; auto.
  - simplify_eq. split; [done|]. cbn. intros l' j [_ ?]%lookup_delete_Some. auto.
  - injection Hx as []%open_handle_same. by apply keeps_same.
  - destruct (_ !! h) as [s|]; [|done]. destruct (or_fail o); [simplify_eq; by apply keeps_same|].
    injection Hx as Hx. unfold submit_append in Hx. destruct (negb _); [simplify_eq; by apply keeps_same|].
    destruct (admit_append _ _ _) as [[? ?] ?]. simplify_eq. by apply keeps_same.
  - destruct (_ !! h) as [s|]; [|done]. by eapply Hp.
  - destruct (_ !! h) as [s|]; [|done]. destruct (_ =? _); [|done]. injection Hx as Hx. unfold close_end in Hx.
    destruct (ss_close_result s) as [[]|]; [simplify_eq; by apply keeps_same..|].
    destruct (proposal o w _) as [w' r] eqn:E. apply proposal_same in E as [Ht Hl]. simplify_eq.
    by apply keeps_same.
  - destruct (_ !! h) as [s|]; [|done]. apply Hp in Hx as [? ?]. by split.
Qed.

(** What the theorem asks of the surroundings at each action. *)
Definition allowed (w : World) (a : SAction) : Prop :=
  match a with
  | ASpawn r => admissible r
  | AStep i o =>
      match wd_tasks w !! i with
      | Some (_, Running (Vis e _)) => okev i o e w
      | _ => True
      end
  | ADrop i => holder w = Some i → Forall (λ pd, pd_task pd ≠ i) (wd_pendings w)
  | AComplete q res =>
      match wd_pendings w !! q, res with
      | Some pd, Err _ => producer_of w (pd_task pd) = None
      | _, _ => True
      end
  | AOther c => spares c
  end.

Inductive reach (w0 : World) : World → Prop :=
| reach_start : reach w0 w0
| reach_act w a w' : reach w0 w → allowed w a → sact json node a w = Some w' → reach w0 w'.

(** The invariant of a run: every running task still has its proof. *)
Record run_inv (w : World) : Prop := {
  ri_J : J w;
  ri_wp : ∀ i r p, wd_tasks w !! i = Some (r, Running p) → wp i p ends w;
  ri_locks : ∀ l j, wd_locks w !! l = Some j → (j < length (wd_tasks w))%nat;
}.

Lemma wp_later i {A : Set} (p : P A) w w' : rely i w w' → wp i p ends w → wp i p ends w'.
Proof.
  intros Hr Hp. destruct p as [a|X e k]; [done|]. intros w1 Hr1. apply Hp. by eapply rtc_l.
Qed.

(** A step that keeps what the name's tasks see. *)
Record faithful (w w' : World) : Prop := {
  fa_holder : holder w' = holder w ∨ ∃ i, holder w = Some i ∧ holder w' = None ∧ fresh i w;
  fa_cache : cache_n w' = cache_n w;
  fa_kv : kv_n w' = kv_n w ∨ kv_n w' = None;
  fa_subs : ∀ q i s p, sub w' q i s p ↔ sub w q i s p;
  fa_requests : ∀ i, (i < length (wd_tasks w))%nat → fst <$> wd_tasks w' !! i = fst <$> wd_tasks w !! i;
  fa_streams : ∀ h s, stream_of w h = Some s → stream_of w' h = Some s;
}.

Lemma faithful_rely i w w' :
  faithful w w' → (i < length (wd_tasks w))%nat → (holder w = Some i → holder w' = Some i) → rely i w w'.
Proof.
  intros [Hh Hc Hk Hs Hr Hst] Hi Hin. split; [|auto|auto|by rewrite Hr|done].
  - destruct Hh as [->|(j & Hj & -> & _)]; done.
Qed.

Lemma faithful_name w w' :
  faithful w w' → good_results w' →
  (∀ q pd, wd_pendings w' !! q = Some pd → (pd_task pd < length (wd_tasks w'))%nat) →
  name_inv w → name_inv w'.
Proof.
  intros [Hh Hc Hk Hs _ _] Hg Hp [H1 H2 H3 H4 H5 H6]. split; [by rewrite Hc| | | |done..].
  - intros v Hv. destruct Hk as [Hk|Hk]; rewrite Hk in Hv; [auto|done].
  - intros e q i s p He Hsub%Hs Hi Hid.
    assert (entries w e).
    { destruct He as [He|(v & Hv & He)]; [left; congruence|].
      destruct Hk as [Hk|Hk]; rewrite Hk in Hv; [right; eauto|done]. }
    destruct Hh as [Hh|(j & Hj & _ & Hf)]; [eapply H3; [done..|congruence|done]|].
    eapply H3; [done..| |done]. rewrite Hj. intros [= ->]. by destruct (Hf q s p).
  - intros q1 q2 i1 i2 s p ?%Hs ?%Hs. by eapply H4.
Qed.

Lemma set_task_request i t w j : fst <$> wd_tasks (set_task i t w) !! j = fst <$> wd_tasks w !! j.
Proof.
  unfold set_task. cbn. destruct (decide (i = j)) as [->|].
  - rewrite list_lookup_alter_eq. by destruct (wd_tasks w !! j).
  - by rewrite list_lookup_alter_ne.
Qed.
Lemma producer_request w w' j :
  fst <$> wd_tasks w' !! j = fst <$> wd_tasks w !! j → producer_of w' j = producer_of w j.
Proof.
  unfold producer_of. destruct (wd_tasks w' !! j) as [[]|], (wd_tasks w !! j) as [[]|]; cbn; intros; by simplify_eq.
Qed.

Lemma faithful_J w w' :
  faithful w w' → good_results w' →
  (∀ q pd, wd_pendings w' !! q = Some pd → (pd_task pd < length (wd_tasks w'))%nat) →
  node_inv w' → J w → J w'.
Proof. intros Hf Hg Hp Hn [HN _]. split; [by eapply faithful_name|done]. Qed.

Lemma run_set_task i x t w :
  J w → (∀ l j, wd_locks w !! l = Some j → (j < length (wd_tasks w))%nat) → wd_tasks w !! i = Some x →
  (∀ j r p, j ≠ i → wd_tasks w !! j = Some (r, Running p) → wp j p ends w) →
  (∀ p, t = Running p → wp i p ends w) → run_inv (set_task i t w).
Proof.
  intros HJ Hl Hi Hothers Hown. pose proof HJ as [[_ _ _ _ H5 H6] [O1 O2 O3]].
  assert (Hp : ∀ j, producer_of (set_task i t w) j = producer_of w j)
    by (intros j; apply producer_request, set_task_request).
  assert (Hlen : length (wd_tasks (set_task i t w)) = length (wd_tasks w)) by apply length_alter.
  assert (Hf : faithful w (set_task i t w)).
  { split; auto; [|intros; apply set_task_request].
    intros q j s p. split; intros (pd & ? & ? & Hx & ?); exists pd; (rewrite Hp in Hx || rewrite Hp); done. }
  split.
  - apply (faithful_J w); [done| |by rewrite Hlen|by split|done]. intros q pd p. rewrite Hp. apply H5.
  - intros j r p Hj. destruct (decide (j = i)) as [->|Hne].
    + unfold set_task in Hj. cbn in Hj. rewrite list_lookup_alter_eq, Hi in Hj. injection Hj as <- ->.
      eapply wp_later; [|by apply Hown]. apply faithful_rely; [done|by eapply lookup_lt_Some|done].
    + unfold set_task in Hj. cbn in Hj. rewrite list_lookup_alter_ne in Hj by done.
      eapply wp_later; [|by eapply Hothers]. apply faithful_rely; [done|by eapply lookup_lt_Some|done].
  - intros l j Hlj. rewrite Hlen. by eapply Hl.
Qed.

Lemma run_step i o w w' : run_inv w → allowed w (AStep i o) → sact json node (AStep i o) w = Some w' → run_inv w'.
Proof.
  intros [HJ Hwp Hl] Ha H. cbn in H, Ha. destruct (wd_tasks w !! i) as [[r [p| |]]|] eqn:Hi; [|done..]. cbn in H.
  destruct p as [a|X e k]; [done|]. destruct (exec node i o e w) as [[w2 x]|] eqn:He; [|done]. injection H as <-.
  destruct (Hwp i r _ Hi w) with (o := o) (w2 := w2) (x := x) as (Hr & HJ2 & Hk); [done..|].
  destruct (exec_keeps _ _ _ _ _ _ He) as [Ht Hlk].
  apply (run_set_task i (r, Running (Vis e k))); cbn [fst snd]; rewrite ?Ht; [done| |done| |].
  - intros l j [Hj| ->]%Hlk; [by eapply Hl|by eapply lookup_lt_Some].
  - intros j r' p Hj Htj. by eapply wp_later; [apply Hr|eapply Hwp].
  - intros p Hp. destruct (k x); simplify_eq/=. done.
Qed.

Lemma run_drop i w w' : run_inv w → allowed w (ADrop i) → sact json node (ADrop i) w = Some w' → run_inv w'.
Proof.
  intros [HJ Hwp Hl] Ha H. cbn in H, Ha. destruct (wd_tasks w !! i) as [[r [p| |]]|] eqn:Hi; [|done..]. cbn in H.
  destruct p as [a|X e k]; [done|]. destruct (awaits e); [|done]. injection H as <-.
  set (w1 := w <| wd_locks := _ |>).
  assert (Hlk : ∀ l j, j ≠ i → wd_locks w !! l = Some j → wd_locks w1 !! l = Some j).
  { intros l j Hj Hlj. by apply map_lookup_filter_Some. }
  assert (Hf : faithful w w1).
  { split; auto; [|done..]. destruct (holder w) as [j|] eqn:Hh.
    - destruct (decide (j = i)) as [->|]; [right|left; by apply Hlk]. exists i. split_and!; [done| |].
      + apply map_lookup_filter_None. right. intros j Hj. unfold holder in Hh. assert (j = i) as -> by congruence. auto.
      + intros q s p (pd & Hq & Ht & _). by eapply (proj1 (Forall_lookup _ _) (Ha eq_refl) q pd).
    - left. apply map_lookup_filter_None. by left. }
  pose proof HJ as [[_ _ _ _ H5 H6] [O1 O2 O3]].
  apply (run_set_task i (r, Running (Vis e k))); [|  |done| |done].
  - by apply (faithful_J w).
  - intros l j Hj. apply map_lookup_filter_Some in Hj as [Hj _]. by eapply Hl.
  - intros j r' p Hj Htj. eapply wp_later; [|by eapply Hwp].
    apply faithful_rely; [done|by eapply lookup_lt_Some|]. by apply Hlk.
Qed.

Lemma run_spawn r w : run_inv w → admissible r → run_inv (w <| wd_tasks := wd_tasks w ++ [(r, settle (handler json node r))] |>).
Proof.
  intros [HJ Hwp Hl] Ha. set (w' := w <| wd_tasks := _ |>). pose proof HJ as [[_ _ _ _ H5 H6] [O1 O2 O3]].
  assert (Hold : ∀ j, (j < length (wd_tasks w))%nat → wd_tasks w' !! j = wd_tasks w !! j)
    by (intros j Hj; by apply lookup_app_l).
  assert (Hlen : length (wd_tasks w') = S (length (wd_tasks w))) by (cbn; rewrite length_app; cbn; lia).
  assert (Hp : ∀ j, (j < length (wd_tasks w))%nat → producer_of w' j = producer_of w j)
    by (intros j Hj; apply producer_request; by rewrite Hold).
  assert (Hf : faithful w w').
  { split; auto; [|intros j Hj; by rewrite Hold]. intros q j s p.
    split; intros (pd & Hq & <- & Hx & ?); exists pd; split_and!; try done;
      [rewrite <-Hp|rewrite Hp]; [done|by eapply H6..|done|by eapply H6]. }
  assert (HJ' : J w').
  { apply (faithful_J w); [done| | |by split|done].
    - intros q pd p Hq. rewrite Hp by (by eapply H6). by apply (H5 q).
    - intros q pd Hq. rewrite Hlen. specialize (H6 q pd Hq). lia. }
  split; [done| |].
  - intros i r' p Hi. destruct (decide (i < length (wd_tasks w))%nat) as [Hlt|Hge].
    + rewrite Hold in Hi by done. eapply wp_later; [|by eapply Hwp]. by apply faithful_rely.
    + assert (i = length (wd_tasks w)) as -> by (apply lookup_lt_Some in Hi; lia).
      cbn in Hi. rewrite lookup_app_r, Nat.sub_diag in Hi by done. injection Hi as <- Hs.
      assert (p = handler json node r) as ->.
      { destruct (handler json node r); cbn in Hs; congruence. }
      apply wp_handler; [done|split|].
      * unfold me. cbn. by rewrite lookup_app_r, Nat.sub_diag.
      * intros q s y (pd & Hq & Ht & _). specialize (H6 q pd Hq). lia.
      * intros Hh. specialize (Hl _ _ Hh). lia.
  - intros l j Hj. rewrite Hlen. specialize (Hl l j Hj). lia.
Qed.

(** A world in which the same tasks run. *)
Lemma run_faithful w w' :
  run_inv w → faithful w w' → holder w' = holder w → wd_tasks w' = wd_tasks w → wd_locks w' = wd_locks w →
  J w' → run_inv w'.
Proof.
  intros [HJ Hwp Hl] Hf Hh Ht Hlk HJ'. split; [done| |by rewrite Ht, Hlk].
  intros i r p Hi. rewrite Ht in Hi. eapply wp_later; [|by eapply Hwp].
  apply faithful_rely; [done|by eapply lookup_lt_Some|by rewrite Hh].
Qed.

Lemma complete_stream q (res : result unit Error) s w pd h :
  wd_handles w !! pd_handle pd = Some s →
  stream_of (w <| wd_handles := <[pd_handle pd := drop_append (match res with
       | Ok _ => update_confirm_offset (wrap_u64 (pd_offset pd + pd_count pd)) s
       | Err _ => mark FENCED_MARK s end)]> (wd_handles w) |> <| wd_pendings := q |>) h = stream_of w h.
Proof.
  intros Hs. unfold stream_of. cbn. destruct (decide (pd_handle pd = h)) as [<-|].
  - rewrite list_lookup_insert_eq by (by eapply lookup_lt_Some). rewrite Hs. cbn. f_equal.
    destruct res as [u|e]; [|done]. unfold update_confirm_offset. by repeat case_match.
  - by rewrite list_lookup_insert_ne.
Qed.

Lemma run_complete q res w w' :
  run_inv w → allowed w (AComplete q res) → complete q res w = Some w' → run_inv w'.
Proof.
  intros Hrun Ha H. pose proof (ri_J _ Hrun) as HJ. unfold complete in H. cbn in Ha.
  destruct (wd_pendings w !! q) as [pd|] eqn:Hq; [|done]. destruct (wd_handles w !! pd_handle pd) as [s|] eqn:Hs; [|done].
  destruct (pd_result pd); [done|]. injection H as <-.
  set (w2 := w <| wd_handles := _ |> <| wd_pendings := _ |>).
  assert (Hst : ∀ h, stream_of w2 h = stream_of w h) by (intros h; by apply complete_stream).
  assert (Hpd : ∀ q' pd', wd_pendings w2 !! q' = Some pd' → ∃ pd0, wd_pendings w !! q' = Some pd0 ∧
    pd_task pd' = pd_task pd0 ∧ pd_handle pd' = pd_handle pd0 ∧ (pd' = pd0 ∨ pd0 = pd ∧ pd_result pd' = Some res)).
  { intros q' pd' Hq'. cbn in Hq'. apply list_lookup_insert_Some in Hq' as [(<- & <- & _)|[_ Hq']]; [|by eauto 10].
    exists pd. by eauto 10. }
  assert (Hsub : ∀ q' i x y, sub w2 q' i x y ↔ sub w q' i x y).
  { intros q' i x y. split.
    - intros (pd' & (pd0 & H0 & Ht & Hh & _)%Hpd & <- & Hy & Hx). exists pd0.
      rewrite Hst, Hh in Hx. rewrite Ht in Hy |- *. done.
    - intros (pd0 & H0 & <- & Hy & Hx). destruct (decide (q' = q)) as [->|].
      + assert (pd0 = pd) as -> by congruence. exists (pd <| pd_result := Some res |>).
        rewrite Hst. split_and!; [|done..]. apply list_lookup_insert_eq. by eapply lookup_lt_Some.
      + exists pd0. rewrite Hst. split_and!; [|done..]. cbn. by rewrite list_lookup_insert_ne. }
  assert (Hf : faithful w w2) by (split; auto; intros; by rewrite Hst).
  apply (run_faithful w); [done..|]. pose proof HJ as [[_ _ _ _ H5 H6] [O1 O2 O3]].
  apply (faithful_J w); [done| | |split|done].
  - intros q' pd' p (pd0 & H0 & Ht & _ & [->|[-> Hr]])%Hpd; [by apply (H5 q')|]. rewrite Ht.
    change (producer_of w2) with (producer_of w). intros Hp. rewrite Hr. destruct res as [[]|e]; [by right|congruence].
  - intros q' pd' (pd0 & H0 & -> & _)%Hpd. by eapply H6.
  - intros x h. rewrite Hst. apply O1.
  - intros q' pd' (pd0 & H0 & _ & -> & _)%Hpd. rewrite Hst. by eapply O2.
  - apply O3.
Qed.

Lemma run_act a w w' : run_inv w → allowed w a → sact json node a w = Some w' → run_inv w'.
Proof.
  intros Hr Ha H. destruct a as [r|i o|i|q res|c].
  - injection H as <-. by apply run_spawn.
  - by eapply run_step.
  - by eapply run_drop.
  - by eapply run_complete.
  - injection H as <-. pose proof (ri_J _ Hr) as [HN HO].
    destruct (kv_quiet_propose c Ha (wd_sink w) (no_view _ HO)) as [Hv Hk].
    destruct (quiet_sink w _ HO Hv Hk) as [Hq Hn].
    apply (run_faithful w); [done|by split; auto; apply Hq|done..|]. split; [by eapply quiet_name_inv|done].
Qed.

(** A node that starts on whatever the metadata holds about the name. *)
Definition starts (sink : LocalSink) : Prop :=
  view_ok sink ∧ ∀ v, kv_get sink n = Some v → ∃ e, v = encode e ∧ entry_typed e.

Lemma run_start sink : starts sink → run_inv (world_new sink).
Proof.
  intros [Hv Hk]. assert (Hno : ∀ q i x y, ¬ sub (world_new sink) q i x y) by by intros q i x y (pd & Hq & _).
  split; [split; split|..]; try done.
  - intros e q i x y _ Hs. by destruct (Hno q i x y).
  - intros q1 q2 i1 i2 x y Hs. by destruct (Hno q1 i1 x y).
Qed.

Lemma reach_run_inv sink w : starts sink → reach (world_new sink) w → run_inv w.
Proof. intros Hs. induction 1; [by apply run_start|by eapply run_act]. Qed.
End Runs.
End Name.

(** ** The theorem *)

(** C5: The registry's producer table deduplicates. A node starts on metadata
    in which the name has no entry or a well-formed one, and serves any
    interleaving of requests, of completions, of dropped callers and of other
    nodes' commands; then every two appends submitted for one producer id,
    epoch and sequence number to one stream under one name were submitted by
    the same call. What is granted at each action ([allowed]): no create
    request of this name is sent to the node, and what is sent to it is UTF-8
    text and u64 numbers; no other node writes the name's registry entry; the
    node's own writes of the entry never fail and fit their format; the stored
    entry is only read under the gate; the submission of a producer's append
    is not refused by the engine and its durability does not fail; and a
    caller is not dropped under the gate once it has submitted. The runs of
    [ServerFaults] show what happens without the last three. *)
Theorem producer_appends_apply_once json node n sink w q1 q2 i1 i2 stream p :
  starts n sink → reach node n json (world_new sink) w →
  sub n w q1 i1 stream p → sub n w q2 i2 stream p → i1 = i2.
Proof.
  intros Hs Hr H1 H2. destruct (ri_J _ _ _ (reach_run_inv node n json sink w Hs Hr)) as [HN _].
  by eapply (ni_once _ _ HN).
Qed.

(** *** Runs that are checked as they go *)
Section Guarded.
Context (json : list byte → option (list (list byte) + list byte)) (node : MetadataNodeHandle) (n : string).

#[local] Instance okev_decision i o {X : Set} (e : Ev X) w : Decision (okev n i o e w).
Proof. destruct e; cbn; apply _. Defined.
#[local] Instance is_u64_decision z : Decision (is_u64 z).
Proof. unfold is_u64. apply _. Defined.
#[local] Instance text_ok_decision s : Decision (text_ok s).
Proof. unfold text_ok, fits_i32. apply _. Defined.
#[local] Instance command_typed_decision c : Decision (command_typed c).
Proof.
  apply and_dec.
  - destruct (ac_producer c) as [p|]; [|by left]. destruct (decide (producer_typed p)) as [H|H]; [left|right]; naive_solver.
  - destruct (ac_stream_seq c) as [s|]; [|by left].
    destruct (decide (text_ok s ∧ as_bytes s ≠ [])) as [H|H]; [left|right]; naive_solver.
Defined.
#[local] Instance admissible_decision r : Decision (admissible n r).
Proof. destruct r; cbn; apply _. Defined.
#[local] Instance spares_decision c : Decision (spares n c).
Proof. destruct c; cbn; apply _. Defined.
#[local] Instance allowed_decision w a : Decision (allowed n w a).
Proof. destruct a; cbn; repeat case_match; apply _. Defined.

Fixpoint guarded (l : list SAction) (w : World) : option World :=
  match l with
  | [] => Some w
  | a :: l =>
      if decide (allowed n w a) then match sact json node a w with Some w => guarded l w | None => None end
      else None
  end.

Lemma guarded_reach l w0 w w' : guarded l w = Some w' → reach node n json w0 w → reach node n json w0 w'.
Proof.
  revert w. induction l as [|a l IH]; intros w H Hr; cbn in H; [by simplify_eq|].
  destruct (decide (allowed n w a)); [|done]. destruct (sact json node a w) as [w1|] eqn:E; [|done].
  eapply IH; [done|]. by eapply reach_act.
Qed.
End Guarded.

(** Two callers send the same record; the second waits for the gate, is told
    that it is a duplicate, and the record is stored once. *)
Definition retried_run : list SAction :=
  [ASpawn (RAppend (demo_append [x61] 0)); ASpawn (RAppend (demo_append [x61] 0))] ++ go 0 21 ++ go 1 6 ++
  [AComplete 0 (Ok tt)] ++ go 0 3.

Definition restarted_entry : option RegistryEntry := Eval vm_compute in
  v ← kv_get (wd_sink restarted) "/s"; ok_value (decode v).

Lemma restarted_starts : starts "/s" (wd_sink restarted).
Proof.
  split; [by vm_compute|]. intros v Hv.
  assert (He : restarted_entry ≫= (λ e, Some (encode e)) = Some v) by (rewrite <-Hv; by vm_compute).
  destruct restarted_entry as [e|] eqn:Ee; [|done]. injection He as <-. exists e. split; [done|].
  by injection Ee as <-; split.
Qed.

Lemma producer_appends_apply_once_witness :
  ∃ w, reach demo_node "/s" no_json (world_new (wd_sink restarted)) w ∧
    accepted (outcome w 0) = true ∧ is_Some (outcome w 1) ∧
    sub "/s" w 0 0 0 {| pr_producer_id := "p"; pr_epoch := 0; pr_seq := 0 |} ∧
    (∀ q i, sub "/s" w q i 0 {| pr_producer_id := "p"; pr_epoch := 0; pr_seq := 0 |} → i = 0%nat).
Proof.
  destruct (guarded no_json demo_node "/s" retried_run restarted) as [w|] eqn:E; [|by vm_compute in E].
  assert (Hr : reach demo_node "/s" no_json (world_new (wd_sink restarted)) w)
    by (eapply guarded_reach; [exact E|apply reach_start]).
  assert (Hs : sub "/s" w 0 0 0 {| pr_producer_id := "p"; pr_epoch := 0; pr_seq := 0 |}).
  { vm_compute in E. injection E as <-. eexists. split_and!; reflexivity. }
  exists w. split; [done|]. split; [vm_compute in E; by injection E as <-|].
  split; [vm_compute in E; injection E as <-; by eexists|]. split; [done|].
  intros q i H. symmetry.
  by apply (producer_appends_apply_once no_json demo_node "/s" (wd_sink restarted) w 0 q 0 i 0 _
    restarted_starts Hr Hs).
Defined.
