(* ===== verification/ServerRead.v ===== *)
(** * Reads, listings and redirects of the named-stream service

    What [Server] answers without changing anything: records from the tail
    cache or from a fetch are the same stretch of the stream's log, the pages
    of a listing make up the listing, and a redirect leads to a node that
    serves the stream. *)

From Stdlib Require Import ZArith Lia.
From Stdlib Require Import Strings.Byte.
From stdpp Require Import base numbers list gmap strings sorting.
From S2P Require Import Prelude StreamTypes MetaState MetaQuery MetaService.
From S2P Require Import StreamFacade ServerTypes Server ServerFaults.

Open Scope Z_scope.
Open Scope rust_scope.
Open Scope prog_scope.

(** ** What a read answers *)
Section Log.
Context (L : Z → list byte).

Definition record_at (o : Z) : StreamRecord := {| rec_offset := of_record_offset o; rec_payload := L o |}.

(** The [n] records from [first] on, and their bytes. *)
Definition recs (first n : Z) : list StreamRecord := record_at <$> seqZ first n.

Lemma recs_nil first : recs first 0 = [].
Proof. done. Qed.


Section Limits.
Context (start mb mr : Z) (Hmb : 0 < mb) (Hmr : 0 < mr).










(** *** Batches *)






End Limits.

(** ** The tail cache *)











End Log.

(** ** Reads *)













(** ** Listings *)

(** The entry a listing shows for a stored pair. *)
Definition listed (start_after : option string) (now : Z) (kv : string * list byte) :
    option (string * RegistryEntry) :=
  let skip :=
    match start_after with
    | Some after => negb (bool_decide (after = EmptyString)) && text_leb kv.1 after
    | None => false
    end in
  if skip then None
  else
    match decode kv.2 with
    | Err _ => None
    | Ok entry => if (0 <? re_deadline_ms entry) && (re_deadline_ms entry <? now) then None else Some (kv.1, entry)
    end.

Lemma select_listed entries after now max sel :
  (length sel <= max)%nat →
  select entries after now max sel = sel ++ take (S max - length sel) (omap (listed after now) entries).
Proof.
  revert sel. induction entries as [|[k v] entries IH]; intros sel Hl; cbn [select omap list_omap].
  { by rewrite take_nil, app_nil_r. }
  unfold listed at 1. cbn [fst snd]. destruct (match after with Some _ => _ | None => _ end); [by apply IH|].
  destruct (decode v) as [e|err]; [|by apply IH]. destruct (_ && _); [by apply IH|].
  rewrite length_app. cbn [length]. destruct (Nat.ltb_spec max (length sel + 1)).
  - replace (S max - length sel)%nat with 1%nat by lia. by destruct (omap _ entries).
  - rewrite IH by (rewrite length_app; cbn; lia). rewrite <-app_assoc, length_app. cbn [length app].
    replace (S max - length sel)%nat with (S (S max - (length sel + 1)))%nat by lia. done.
Qed.

(** A caller that asks for the page after the last name it was given. *)
Fixpoint all_pages (fuel : nat) (entries : list (string * list byte)) (after : option string) (now : Z)
    (max : nat) : list (string * RegistryEntry) :=
  match fuel with
  | O => []
  | S fuel =>
      let selected := select entries after now max [] in
      let page := take max selected in
      if (max <? length selected)%nat then
        match last page with
        | Some p => page ++ all_pages fuel entries (Some p.1) now max
        | None => page
        end
      else page
  end.

Definition name_lt {V} (p q : string * V) : Prop := String.le p.1 q.1 ∧ p.1 ≠ q.1.

Lemma listed_key after now kv p : listed after now kv = Some p → p.1 = kv.1.
Proof. unfold listed. intros H. repeat case_match; by simplify_eq/=. Qed.

Lemma omap_step {A B} (f : A → option B) x l :
  omap f (x :: l) = match f x with Some y => y :: omap f l | None => omap f l end.
Proof. done. Qed.

Lemma omap_length {A B} (f : A → option B) (l : list A) : (length (omap f l) <= length l)%nat.
Proof. induction l as [|x l IH]; [done|]. rewrite omap_step. destruct (f x); cbn [length]; lia. Qed.

Lemma omap_sorted after now (entries : list (string * list byte)) :
  StronglySorted name_lt entries → StronglySorted name_lt (omap (listed after now) entries).
Proof.
  induction 1 as [|kv entries Hs IH Hall]; [constructor|]. rewrite omap_step.
  destruct (listed after now kv) as [p|] eqn:E; [|done]. constructor; [done|].
  apply Forall_forall. intros q (kv' & Hin & Hq)%list_elem_of_omap.
  rewrite Forall_forall in Hall. specialize (Hall kv' Hin). unfold name_lt in *.
  by rewrite (listed_key _ _ _ _ E), (listed_key _ _ _ _ Hq).
Qed.

(** What is listed after a name is the rest of what is listed before it. *)
Definition beyond (k : string) (p : string * RegistryEntry) : Prop := text_leb p.1 k = false.
#[local] Instance beyond_decision k p : Decision (beyond k p).
Proof. unfold beyond. apply _. Defined.

Lemma listed_after after now (entries : list (string * list byte)) k :
  k ≠ EmptyString → (∀ a, after = Some a → String.le a k) →
  omap (listed (Some k) now) entries = filter (beyond k) (omap (listed after now) entries).
Proof.
  intros Hk Ha. induction entries as [|[key v] entries IH]; [done|].
  rewrite !omap_step. unfold listed at 1 4. cbn [fst snd]. rewrite (bool_decide_eq_false_2 (k = EmptyString)) by done. cbn [negb andb].
  destruct (text_leb key k) eqn:Ek.
  - rewrite IH. destruct (match after with Some _ => _ | None => _ end); [done|].
    destruct (decode v) as [e|err]; [|done]. destruct (_ && _); [done|].
    rewrite filter_cons_False; [done|]. unfold beyond. cbn. by rewrite Ek.
  - assert (match after with
            | Some a => negb (bool_decide (a = EmptyString)) && text_leb key a
            | None => false end = false) as ->.
    { destruct after as [a|]; [|done]. apply andb_false_intro2. unfold text_leb in *.
      apply bool_decide_eq_false in Ek. apply bool_decide_eq_false_2. intros Hle. apply Ek.
      by etrans; [exact Hle|apply Ha]. }
    rewrite IH. destruct (decode v) as [e|err]; [|done]. destruct (_ && _); [done|].
    by rewrite filter_cons_True by done.
Qed.

Lemma filter_beyond (l : list (string * RegistryEntry)) i p :
  StronglySorted name_lt l → l !! i = Some p → filter (beyond p.1) l = drop (S i) l.
Proof.
  intros Hs. revert i. induction Hs as [|q l Hs IH Hall]; intros i Hi; [done|].
  rewrite Forall_forall in Hall. destruct i as [|i]; cbn in Hi; rewrite skipn_cons.
  - simplify_eq. rewrite filter_cons_False.
    + apply filter_all. intros r Hr. destruct (Hall r Hr) as [Hle Hne]. apply bool_decide_eq_false_2. intros Hle'.
      by apply Hne, (anti_symm String.le).
    + unfold beyond, text_leb. rewrite bool_decide_eq_true_2; [done|]. by destruct (total String.le p.1 p.1).
  - rewrite filter_cons_False; [by apply IH|]. unfold beyond, text_leb.
    rewrite bool_decide_eq_true_2; [done|]. apply (Hall p). by eapply list_elem_of_lookup_2.
Qed.

Lemma all_pages_rest fuel entries after now max :
  StronglySorted name_lt entries → (∀ kv, kv ∈ entries → kv.1 ≠ EmptyString) → (0 < max)%nat →
  (length (omap (listed after now) entries) < fuel)%nat →
  all_pages fuel entries after now max = omap (listed after now) entries.
Proof.
  intros Hs Hne Hmax. revert after. induction fuel as [|fuel IH]; intros after Hf; [lia|].
  cbn [all_pages]. rewrite select_listed by (cbn; lia). rewrite app_nil_l, Nat.sub_0_r, take_take, Nat.min_l by lia.
  set (l := omap (listed after now) entries) in *. rewrite length_take.
  destruct (Nat.ltb_spec max (S max `min` length l)); [|by rewrite take_ge by lia].
  destruct (lookup_lt_is_Some_2 l (max - 1)) as [p Hp]; [lia|].
  assert (Hlast : last (take max l) = Some p).
  { rewrite last_lookup, length_take, Nat.min_l, lookup_take by lia.
    replace (pred max) with (max - 1)%nat by lia. by rewrite decide_True by lia. }
  rewrite Hlast. assert (Hin : p ∈ l) by by eapply list_elem_of_lookup_2.
  apply list_elem_of_omap in Hin as (kv & Hkv & Hpk). pose proof (listed_key _ _ _ _ Hpk) as Hkey.
  assert (Hrest : omap (listed (Some p.1) now) entries = drop max l).
  { rewrite (listed_after after); [|rewrite Hkey; by apply Hne|].
    - rewrite (filter_beyond l (max - 1)) by (done || by apply omap_sorted). f_equal. lia.
    - intros a ->. unfold listed in Hpk. destruct (negb _ && _) eqn:E in Hpk; [done|]. rewrite Hkey.
      apply andb_false_elim in E as [E|E].
      + apply negb_false_iff, bool_decide_eq_true in E as ->. by destruct kv.1.
      + apply bool_decide_eq_false in E. by destruct (total String.le a kv.1). }
  rewrite IH; rewrite Hrest; [apply take_drop|]. rewrite length_drop. lia.
Qed.

Lemma ord_list_strict {V} (m : gmap string V) : StronglySorted name_lt (ord_list m).
Proof.
  pose proof (ord_list_sorted m) as Hs. pose proof (NoDup_ord_list m) as Hd.
  induction Hs as [|p l Hs IH Hall]; [constructor|]. cbn in Hd. apply NoDup_cons in Hd as [Hp Hd].
  constructor; [by apply IH|]. rewrite Forall_forall in *. intros q Hq. split; [by apply Hall|].
  intros E. apply Hp. rewrite E. by apply list_elem_of_fmap_2.
Qed.

(** C22: Asking for the page after the last name given, as often as there are
    more, lists every live stream whose name has the prefix exactly once and
    in name order, whatever the page size; it ends. *)
Theorem list_pages_are_complete st pre now limit :
  ms_kv st !! EmptyString = None →
  let entries := list_kv st pre in
  all_pages (S (length entries)) entries None now (list_max limit) = omap (listed None now) entries ∧
  (∀ name entry, (name, entry) ∈ omap (listed None now) entries ↔
     String.prefix pre name = true ∧
     ∃ v, ms_kv st !! name = Some v ∧ decode v = Ok entry ∧
       ¬ (0 < re_deadline_ms entry < now)) ∧
  StronglySorted name_lt (omap (listed None now) entries).
Proof.
  intros Hempty entries. unfold entries. rewrite list_kv_exact.
  set (l := filter _ (ord_list (ms_kv st))).
  assert (Hl : ∀ k v, (k, v) ∈ l ↔ String.prefix pre k = true ∧ ms_kv st !! k = Some v).
  { intros k v. unfold l. by rewrite list_elem_of_filter, elem_of_ord_list. }
  assert (Hs : StronglySorted name_lt l)
    by (eapply StronglySorted_sublist; [apply sublist_filter|apply ord_list_strict]).
  split_and!; [| |by apply omap_sorted].
  - apply all_pages_rest; [done| | |].
    + intros [k v] [_ Hk]%Hl E. cbn in E. congruence.
    + unfold list_max. destruct (Nat.ltb_spec 0 limit); [|vm_compute; lia].
      assert (0 < MAX_LIST_LIMIT)%nat by (vm_compute; lia). lia.
    + pose proof (omap_length (listed None now) l). lia.
  - intros name e. rewrite list_elem_of_omap. split.
    + intros ([k v] & [Hpre Hk]%Hl & He). pose proof (listed_key _ _ _ _ He) as Hkey. cbn in Hkey. subst k.
      split; [done|]. exists v. unfold listed in He. cbn in He. destruct (decode v) as [e'|]; [|done].
      destruct (_ && _) eqn:E; [done|]. simplify_eq. split_and!; [done..|]. intros [H1 H2].
      apply Z.ltb_lt in H1, H2. rewrite H1, H2 in E. done.
    + intros (Hpre & v & Hv & Hd & Hlive). exists (name, v). split; [by apply Hl|].
      unfold listed. cbn. rewrite Hd. destruct (Z.ltb_spec 0 (re_deadline_ms e)), (Z.ltb_spec (re_deadline_ms e) now); done || lia.
Qed.

Lemma list_pages_are_complete_witness :
  let st := ls_state (wd_sink restarted) in
  ms_kv st !! EmptyString = None ∧
  (λ p : string * RegistryEntry, p.1) <$> all_pages 2 (list_kv st "/") None 5 (list_max 0) = ["/s"%string] ∧
  StronglySorted name_lt (omap (listed None 5) (list_kv st "/")).
Proof.
  split; [reflexivity|]. split; [vm_compute; reflexivity|].
  apply (list_pages_are_complete (ls_state (wd_sink restarted)) "/" 5 0). reflexivity.
Defined.

(** ** Redirects *)

(** C23: A redirect leads to the owner: a node that does not serve a stream
    itself names a registered node other than itself, and that node, with the
    same metadata, serves it. Hence there are no redirect loops. *)
Theorem redirects_reach_the_owner st node_id stream_id :
  ow_local (owner_decision st node_id stream_id) = false →
  ∃ owner address,
    owner_decision st node_id stream_id = owner_remote stream_id owner address ∧
    owner ≠ node_id ∧ get_node_address st owner = Some address ∧
    owner_decision st owner stream_id = owner_local (Some stream_id).
Proof.
  unfold owner_decision. destruct (ms_pending_transfers st !! stream_id) as [p|].
  - destruct (Z.eqb_spec (pt_to_node p) node_id); [done|].
    destruct (get_node_address st (pt_to_node p)) as [address|] eqn:E; [|done].
    exists (pt_to_node p), address. by rewrite Z.eqb_refl.
  - destruct (ms_streams st !! stream_id) as [row|]; [|done]. destruct (negb (_ || _)); [done|].
    destruct (Z.eqb_spec (sr_node_id row) node_id); [done|].
    destruct (get_node_address st (sr_node_id row)) as [address|] eqn:E; [|done].
    destruct (negb _); [|done]. exists (sr_node_id row), address. by rewrite Z.eqb_refl.
Qed.

Lemma redirects_reach_the_owner_witness :
  let st := ls_state (local_propose (wd_sink restarted) (OpenStream 1 5 0 2)).1 in
  ow_local (owner_decision st 7 0) = false ∧
  ∃ owner address, owner_decision st 7 0 = owner_remote 0 owner address ∧ owner ≠ 7 ∧
    get_node_address st owner = Some address ∧ owner_decision st owner 0 = owner_local (Some 0).
Proof. split; [vm_compute; reflexivity|]. apply redirects_reach_the_owner. vm_compute. reflexivity. Defined.
