(* ===== verification/Compact.v ===== *)
(** * Compaction plans

    Translation of [s3stream-core/src/compact/plan.rs]: the data blocks of a
    node's stream set objects are sorted by stream and offset, cut into
    output objects, and the output objects into stages that fit the
    compaction cache. The theorems say that a plan moves every block of the
    objects it compacts exactly once, in order, that planning ends, and that
    no stage exceeds the cache. *)

From Stdlib Require Import ZArith Lia.
From stdpp Require Import base numbers list sorting gmap.
From S2P Require Import Prelude StreamTypes ObjectIndex.

Open Scope Z_scope.
Open Scope rust_scope.

(** ** Blocks *)
Record StreamDataBlock := { sdb_object_id : Z; sdb_index : DataBlockIndex }.
#[export] Instance StreamDataBlock_eq_dec : EqDecision StreamDataBlock.
Proof. solve_decision. Defined.

Definition stream_data_block_new (stream_id start_offset end_offset object_id block_position block_size
    record_count : Z) : StreamDataBlock := {|
  sdb_object_id := object_id;
  sdb_index := {| bi_block_id := -1; bi_stream_id := stream_id; bi_start_offset := start_offset;
                  bi_end_offset_delta := wrap_u32 (end_offset - start_offset);
                  bi_record_count := record_count; bi_start_position := block_position;
                  bi_size := block_size |} |}.

Definition sdb_stream_id (b : StreamDataBlock) : Z := bi_stream_id (sdb_index b).
Definition sdb_start_offset (b : StreamDataBlock) : Z := bi_start_offset (sdb_index b).
Definition sdb_end_offset (b : StreamDataBlock) : Z := bi_end_offset (sdb_index b).
Definition sdb_start_position (b : StreamDataBlock) : Z := bi_start_position (sdb_index b).
Definition sdb_size (b : StreamDataBlock) : Z := bi_size (sdb_index b).

Inductive CompactionType := Split | Compact.
#[export] Instance CompactionType_eq_dec : EqDecision CompactionType.
Proof. solve_decision. Defined.

Record CompactedObject := { co_type : CompactionType; co_blocks : list StreamDataBlock }.

Definition sum_sizes (l : list StreamDataBlock) : Z := foldr (λ b n, sdb_size b + n) 0 l.

Definition co_size (c : CompactedObject) : Z := sum_sizes (co_blocks c).

Record CompactionPlan := {
  cp_order : Z;
  cp_compacted_objects : list CompactedObject;
  cp_stream_data_blocks_map : gmap Z (list StreamDataBlock);
}.

(** ** The accumulator of one output object *)
Module Builder.
Record CompactedObjectBuilder := {
  compaction_type : CompactionType;
  blocks : list StreamDataBlock;
  curr_stream_index_head : Z;
  curr_stream_index_tail : Z;
}.
#[global] Instance Builder_eta : RecordEta CompactedObjectBuilder := λ b,
  Build_CompactedObjectBuilder (compaction_type b) (blocks b) (curr_stream_index_head b) (curr_stream_index_tail b).

Definition new : CompactedObjectBuilder := {|
  compaction_type := Compact; blocks := []; curr_stream_index_head := -1; curr_stream_index_tail := -1 |}.

Definition last_stream_id (b : CompactedObjectBuilder) : option Z := sdb_stream_id <$> last (blocks b).
Definition last_offset (b : CompactedObjectBuilder) : option Z := sdb_end_offset <$> last (blocks b).

Definition add_block (b : CompactedObjectBuilder) (block : StreamDataBlock) : CompactedObjectBuilder :=
  let n := Z.of_nat (length (blocks b)) in
  {| compaction_type := compaction_type b; blocks := blocks b ++ [block];
     curr_stream_index_head :=
       if bool_decide (Some (sdb_stream_id block) = last_stream_id b) then curr_stream_index_head b else n;
     curr_stream_index_tail := n + 1 |}.

(** The loop of [reset_curr_stream_position] from the [i]-th block on. *)
Fixpoint reset_loop (l : list StreamDataBlock) (i : Z) (curr : option Z) (head tail : Z) : Z * Z :=
  match l with
  | [] => (head, tail)
  | block :: l =>
      let head := if bool_decide (curr = Some (sdb_stream_id block)) then head else i in
      reset_loop l (i + 1) (Some (sdb_stream_id block)) head (i + 1)
  end.
Definition reset_curr_stream_position (b : CompactedObjectBuilder) : CompactedObjectBuilder :=
  let '(head, tail) := reset_loop (blocks b) 0 None (-1) (-1) in
  b <| curr_stream_index_head := head |> <| curr_stream_index_tail := tail |>.

(** What is left, and the builder with the drained blocks. *)
Definition split (b : CompactedObjectBuilder) (start en : Z) :
    CompactedObjectBuilder * CompactedObjectBuilder :=
  if (start <? 0) || (curr_stream_index_tail b <? en) then (b, new)
  else
    let start := Z.to_nat start in
    let en := Z.to_nat en in
    let drained := take (en - start) (drop start (blocks b)) in
    (reset_curr_stream_position (b <| blocks := take start (blocks b) ++ drop en (blocks b) |>),
     foldl add_block new drained <| compaction_type := compaction_type b |>).

Definition split_current_stream (b : CompactedObjectBuilder) :
    CompactedObjectBuilder * CompactedObjectBuilder :=
  split b (curr_stream_index_head b) (curr_stream_index_tail b).

Definition total_stream_num (b : CompactedObjectBuilder) : Z :=
  Z.of_nat (size (list_to_set (sdb_stream_id <$> blocks b) : gset Z)).

Definition curr_stream_block_size (b : CompactedObjectBuilder) : Z :=
  if (curr_stream_index_head b <? 0) || (curr_stream_index_tail b <? 0) then 0
  else
    let head := Z.to_nat (curr_stream_index_head b) in
    sum_sizes (take (Z.to_nat (curr_stream_index_tail b) - head) (drop head (blocks b))).

Definition unique_object_ids (b : CompactedObjectBuilder) : gset Z := list_to_set (sdb_object_id <$> blocks b).
Definition total_block_size (b : CompactedObjectBuilder) : Z := sum_sizes (blocks b).

Definition merge (b other : CompactedObjectBuilder) : CompactedObjectBuilder :=
  if bool_decide (compaction_type other = Split) then b
  else reset_curr_stream_position (b <| blocks := blocks b ++ blocks other |>).

Definition build (b : CompactedObjectBuilder) : CompactedObject := {|
  co_type := compaction_type b; co_blocks := blocks b |}.
End Builder.
Notation Builder := Builder.CompactedObjectBuilder.

(** ** Statistics *)
Record CompactionStats := {
  st_stream_num_in_stream_set : Z;
  st_stream_object_num : Z;
  st_object_to_compacted_object_num : gmap Z Z;
}.

Definition stats_step (s : CompactionStats) (b : Builder) : CompactionStats :=
  let map :=
    foldl (λ m id, <[id := default 0 (m !! id) + 1]> m) (st_object_to_compacted_object_num s)
      (ord_elems (Builder.unique_object_ids b)) in
  if bool_decide (Builder.compaction_type b = Split) && negb (bool_decide (Builder.blocks b = [])) then
    {| st_stream_num_in_stream_set := st_stream_num_in_stream_set s;
       st_stream_object_num := st_stream_object_num s + 1; st_object_to_compacted_object_num := map |}
  else if bool_decide (Builder.compaction_type b = Compact) then
    {| st_stream_num_in_stream_set := st_stream_num_in_stream_set s + Builder.total_stream_num b;
       st_stream_object_num := st_stream_object_num s; st_object_to_compacted_object_num := map |}
  else
    {| st_stream_num_in_stream_set := st_stream_num_in_stream_set s;
       st_stream_object_num := st_stream_object_num s; st_object_to_compacted_object_num := map |}.

Definition stats_of (builders : list Builder) : CompactionStats :=
  foldl stats_step
    {| st_stream_num_in_stream_set := 0; st_stream_object_num := 0; st_object_to_compacted_object_num := ∅ |}
    builders.

Definition total_object_stats (b : Builder) (stats : gmap Z Z) : Z :=
  foldr (λ id n, default 0 (stats !! id) + n) 0 (ord_elems (Builder.unique_object_ids b)).

(** ** Grouping *)

(** [group_stream_data_blocks] with the state of its predicate made explicit:
    the groups so far, the open group, the state. A block that fails the
    predicate while no group is open is dropped. *)
Section Group.
Context {St : Type} (test : St → StreamDataBlock → bool * St).

Fixpoint group_loop (blocks : list StreamDataBlock) (st : St) (curr : list StreamDataBlock) :
    list (list StreamDataBlock) :=
  match blocks with
  | [] => match curr with [] => [] | _ => [curr] end
  | block :: rest =>
      let '(flag, st) := test st block in
      if flag then group_loop rest st (curr ++ [block])
      else match curr with
           | [] => group_loop rest st []
           | _ => curr :: group_loop rest st [block]
           end
  end.
Definition group_stream_data_blocks (blocks : list StreamDataBlock) (st : St) : list (list StreamDataBlock) :=
  group_loop blocks st [].
End Group.

Record GroupByLimitPredicate := {
  gl_block_size_threshold : Z;
  gl_stream_id : Z;
  gl_start_offset : Z;
  gl_next_start_offset : Z;
  gl_block_size : Z;
  gl_record_cnt : Z;
}.
Definition limit_new (threshold : Z) : GroupByLimitPredicate := {|
  gl_block_size_threshold := threshold; gl_stream_id := -1; gl_start_offset := 0; gl_next_start_offset := 0;
  gl_block_size := 0; gl_record_cnt := 0 |}.

Definition limit_test (p : GroupByLimitPredicate) (b : StreamDataBlock) : bool * GroupByLimitPredicate :=
  let cut :=
    (gl_stream_id p =? -1) || negb (wrap_i64 (sdb_stream_id b) =? gl_stream_id p) ||
    negb (sdb_start_offset b =? gl_next_start_offset p) ||
    (gl_block_size_threshold p <=? gl_block_size p + sdb_size b) ||
    (two31 - 1 <? gl_record_cnt p + bi_record_count (sdb_index b)) ||
    (two31 - 1 <? sdb_end_offset b - gl_start_offset p) in
  let flag := negb (cut && negb (gl_stream_id p =? -1)) in
  let p' :=
    if cut then
      {| gl_block_size_threshold := gl_block_size_threshold p; gl_stream_id := wrap_i64 (sdb_stream_id b);
         gl_start_offset := sdb_start_offset b; gl_next_start_offset := gl_next_start_offset p;
         gl_block_size := 0; gl_record_cnt := 0 |}
    else p in
  (flag, {| gl_block_size_threshold := gl_block_size_threshold p'; gl_stream_id := gl_stream_id p';
            gl_start_offset := gl_start_offset p'; gl_next_start_offset := sdb_end_offset b;
            gl_block_size := gl_block_size p' + sdb_size b;
            gl_record_cnt := gl_record_cnt p' + bi_record_count (sdb_index b) |}).

Record GroupByOffsetPredicate := { go_curr_stream_id : Z; go_next_start_offset : Z }.
Definition offset_new : GroupByOffsetPredicate := {| go_curr_stream_id := -1; go_next_start_offset := 0 |}.
Definition offset_test (p : GroupByOffsetPredicate) (b : StreamDataBlock) : bool * GroupByOffsetPredicate :=
  let p' := {| go_curr_stream_id := wrap_i64 (sdb_stream_id b); go_next_start_offset := sdb_end_offset b |} in
  if go_curr_stream_id p =? -1 then (true, p')
  else if (go_curr_stream_id p =? wrap_i64 (sdb_stream_id b)) && (go_next_start_offset p =? sdb_start_offset b)
  then (true, {| go_curr_stream_id := go_curr_stream_id p; go_next_start_offset := sdb_end_offset b |})
  else (false, p').

(** ** The analyzer *)
Notation BlockMap := (gmap Z (list StreamDataBlock)).

Record CompactionAnalyzer := {
  an_compaction_cache_size : Z;
  an_stream_split_size : Z;
  an_max_stream_num_in_stream_set : Z;
  an_max_stream_object_num : Z;
}.

Definition start_leb (a b : StreamDataBlock) : bool := sdb_start_offset a <=? sdb_start_offset b.
Definition position_leb (a b : StreamDataBlock) : bool := sdb_start_position a <=? sdb_start_position b.

Definition push_at {A} (key : A → Z) (m : gmap Z (list A)) (x : A) : gmap Z (list A) :=
  <[key x := default [] (m !! key x) ++ [x]]> m.

Definition map_blocks (m : BlockMap) : list StreamDataBlock := concat (map_to_list m).*2.

(** The ids [g] that occur with each id [f]. *)
Definition ids_by (f g : StreamDataBlock → Z) (l : list StreamDataBlock) : gmap Z (gset Z) :=
  foldl (λ m b, <[f b := {[g b]} ∪ default ∅ (m !! f b)]> m) ∅ l.

Definition filter_blocks_to_compact (m : BlockMap) : BlockMap :=
  let stream_to_object_ids := ids_by sdb_stream_id sdb_object_id (map_blocks m) in
  let objects_to_compact : gset Z :=
    ⋃ (filter (λ ids : gset Z, (1 < size ids)%nat) (map_to_list stream_to_object_ids).*2) in
  filter (λ p, p.1 ∈ objects_to_compact) m.

Section Analyzer.
(** A [HashMap] is traversed in some order. *)
Context (values : BlockMap → list (list StreamDataBlock)) (self : CompactionAnalyzer).

Definition sort_stream_range_positions (m : BlockMap) : list StreamDataBlock :=
  let by_stream := foldl (push_at sdb_stream_id) ∅ (concat (values m)) in
  concat ((λ p, stable_sort start_leb p.2) <$> ord_list by_stream).

Definition split_object (builder : Builder) (builders : list Builder) : Builder * list Builder :=
  let '(builder, split_builder) := Builder.split_current_stream builder in
  let split_builder := split_builder <| Builder.compaction_type := Split |> in
  (Builder.new,
   (if Builder.total_block_size builder =? 0 then builders else builders ++ [builder]) ++ [split_builder]).

Definition split_and_add_block (builder : Builder) (block : StreamDataBlock) (builders : list Builder) :
    Builder * list Builder :=
  let '(builder, builders) :=
    if an_stream_split_size self <? Builder.curr_stream_block_size builder then split_object builder builders
    else (builder, builders) in
  (Builder.add_block builder block, builders).

Fixpoint compact_loop (sorted_blocks : list StreamDataBlock) (builder : Builder) (builders : list Builder) :
    option (Builder * list Builder) :=
  match sorted_blocks with
  | [] => Some (builder, builders)
  | block :: rest =>
      match last (Builder.blocks builder) with
      | None => compact_loop rest (Builder.add_block builder block) builders
      | Some previous =>
          if sdb_stream_id previous =? sdb_stream_id block then
            if sdb_end_offset previous <? sdb_start_offset block then
              let '(builder, builders) := split_object builder builders in
              compact_loop rest (Builder.add_block builder block) builders
            else if sdb_start_offset block =? sdb_end_offset previous then
              compact_loop rest (Builder.add_block builder block) builders
            else None
          else
            let '(builder, builders) := split_and_add_block builder block builders in
            compact_loop rest builder builders
      end
  end.

Definition compact_objects (sorted_blocks : list StreamDataBlock) : option (list Builder) :=
  '(builder, builders) ← compact_loop sorted_blocks Builder.new [];
  Some (if an_stream_split_size self <? Builder.curr_stream_block_size builder
        then (split_object builder builders).2 else builders ++ [builder]).

(** [sort_by_key] on the pair (number of blocks, object statistics). *)
Definition pair_leb (p q : Z * Z) : bool := (p.1 <? q.1) || ((p.1 =? q.1) && (p.2 <=? q.2)).

Definition add_objects_to_remove (compaction_type : CompactionType) (builders : list Builder)
    (stats : CompactionStats) : gset Z :=
  let candidates := filter (λ b, Builder.compaction_type b = compaction_type) builders in
  match candidates with
  | [] => ∅
  | _ =>
      match compaction_type with
      | Split =>
          let key (b : Builder) := (Z.of_nat (length (Builder.blocks b)),
                                    total_object_stats b (st_object_to_compacted_object_num stats)) in
          match stable_sort (λ a b, pair_leb (key a) (key b)) candidates with
          | [] => ∅
          | first :: _ => Builder.unique_object_ids first
          end
      | Compact =>
          let blocks := concat (Builder.blocks <$> candidates) in
          let stream_object_ids := ids_by sdb_stream_id sdb_object_id blocks in
          let object_stream_ids := ids_by sdb_object_id sdb_stream_id blocks in
          let dispersion (ids : gset Z) : Z :=
            foldr (λ id n, Z.of_nat (size (default ∅ (object_stream_ids !! id))) + n) 0 (ord_elems ids) in
          let scored := (λ p : Z * gset Z, (dispersion p.2, p.1)) <$> ord_list stream_object_ids in
          match scored with
          | [] => ∅
          | first :: rest =>
              let min := foldl (λ m p, if pair_leb m p then m else p) first rest in
              default ∅ (stream_object_ids !! min.2)
          end
      end
  end.

(** One turn of [group_object_with_limits]: the objects to leave out. *)
Definition objects_to_remove (builders : list Builder) (stats : option CompactionStats) : gset Z :=
  match stats with
  | None => ∅
  | Some stats =>
      if an_max_stream_object_num self <? st_stream_object_num stats
      then add_objects_to_remove Split builders stats
      else add_objects_to_remove Compact builders stats
  end.

(** The outer option is [None] when the fuel has run out. *)
Fixpoint group_loop_with_limits (fuel : nat) (m : BlockMap) (sorted_blocks : list StreamDataBlock)
    (builders : list Builder) (stats : option CompactionStats) (excluded : gset Z) :
    option (option (list Builder) * gset Z) :=
  match fuel with
  | O => None
  | S fuel =>
      let remove := objects_to_remove builders stats in
      if bool_decide (is_Some stats) && bool_decide (remove = ∅) then Some (None, excluded)
      else
        let excluded := remove ∪ excluded in
        let sorted_blocks := filter (λ b, sdb_object_id b ∉ remove) sorted_blocks in
        let m := filter_blocks_to_compact (filter (λ p, p.1 ∉ remove) m) in
        if bool_decide (m = ∅) then Some (None, excluded)
        else
          match compact_objects sorted_blocks with
          | None => Some (None, excluded)
          | Some builders =>
              let stats := stats_of builders in
              if (an_max_stream_num_in_stream_set self <? st_stream_num_in_stream_set stats) ||
                 (an_max_stream_object_num self <? st_stream_object_num stats)
              then group_loop_with_limits fuel m sorted_blocks builders (Some stats) excluded
              else Some (Some builders, excluded)
          end
  end.

Definition group_object_with_limits (m : BlockMap) (excluded : gset Z) :
    option (option (list Builder) * gset Z) :=
  let sorted_blocks := sort_stream_range_positions m in
  group_loop_with_limits (S (S (length sorted_blocks))) m sorted_blocks [] None excluded.

Definition add_or_merge (builder : Builder) (compacted_objects : list CompactedObject)
    (stream_set_builder : option Builder) : list CompactedObject * option Builder :=
  if bool_decide (Builder.compaction_type builder = Split)
  then (compacted_objects ++ [Builder.build builder], stream_set_builder)
  else (compacted_objects, Some (Builder.merge (default Builder.new stream_set_builder) builder)).

Definition generate_plan (order : Z) (compacted_objects : list CompactedObject)
    (stream_set_builder : option Builder) : CompactionPlan :=
  let compacted_objects :=
    compacted_objects ++ match stream_set_builder with Some b => [Builder.build b] | None => [] end in
  {| cp_order := order; cp_compacted_objects := compacted_objects;
     cp_stream_data_blocks_map :=
       stable_sort position_leb <$>
         foldl (push_at sdb_object_id) ∅ (concat (co_blocks <$> compacted_objects)) |}.

(** The index of the first block past the cache size, 0 when there is none. *)
Fixpoint cut_point (blocks : list StreamDataBlock) (j : nat) (tmp_size : Z) : nat :=
  match blocks with
  | [] => 0%nat
  | block :: rest =>
      let tmp_size := tmp_size + sdb_size block in
      if an_compaction_cache_size self <? tmp_size then j else cut_point rest (S j) tmp_size
  end.

(** [None] when the fuel has run out. *)
Fixpoint stage_loop (fuel : nat) (builders : list Builder) (compacted_objects : list CompactedObject)
    (stream_set_builder : option Builder) (total_size order : Z) : option (list CompactionPlan) :=
  match fuel with
  | O => None
  | S fuel =>
      match builders with
      | [] =>
          Some match compacted_objects, stream_set_builder with
               | [], None => []
               | _, _ => [generate_plan order compacted_objects stream_set_builder]
               end
      | builder :: rest =>
          if an_compaction_cache_size self <? total_size + Builder.total_block_size builder then
            let end_offset := cut_point (Builder.blocks builder) 0 total_size in
            let '(builder, compacted_objects, stream_set_builder) :=
              match end_offset with
              | O => (builder, compacted_objects, stream_set_builder)
              | _ =>
                  let '(builder, prefix) := Builder.split builder 0 (Z.of_nat end_offset) in
                  (builder, (add_or_merge prefix compacted_objects stream_set_builder).1,
                   (add_or_merge prefix compacted_objects stream_set_builder).2)
              end in
            (generate_plan order compacted_objects stream_set_builder ::.)
              <$> stage_loop fuel (builder :: rest) [] None 0 (wrap_u32 (order + 1))
          else
            let '(compacted_objects, stream_set_builder) :=
              add_or_merge builder compacted_objects stream_set_builder in
            stage_loop fuel rest compacted_objects stream_set_builder
              (total_size + Builder.total_block_size builder) order
      end
  end.

Definition stage_fuel (builders : list Builder) : nat :=
  S (foldr (λ b n, 2 + 2 * length (Builder.blocks b) + n)%nat 0%nat builders).

Definition generate_plan_with_cache_limit (builders : list Builder) : option (list CompactionPlan) :=
  stage_loop (stage_fuel builders) builders [] None 0 0.

(** The plans and the excluded objects; [None] when a loop has run out of fuel. *)
Definition analyze (m : BlockMap) (excluded : gset Z) : option (list CompactionPlan * gset Z) :=
  if bool_decide (m = ∅) then Some ([], excluded)
  else
    let m := filter_blocks_to_compact m in
    if bool_decide (m = ∅) then Some ([], excluded)
    else
      '(builders, excluded) ← group_object_with_limits m excluded;
      match builders with
      | Some builders => plans ← generate_plan_with_cache_limit builders; Some (plans, excluded)
      | None => Some ([], excluded)
      end.
End Analyzer.

(** ** The recorded plans of [conformance/fixtures/compaction/plans.json] *)
Definition in_order (m : BlockMap) : list (list StreamDataBlock) := (map_to_list m).*2.

Definition fixture_block (stream_id start_offset end_offset object_id position size : Z) : StreamDataBlock :=
  stream_data_block_new stream_id start_offset end_offset object_id position size 1.
Definition base_map : BlockMap := list_to_map
  [(0, [fixture_block 0 0 20 0 0 20; fixture_block 1 30 60 0 20 30; fixture_block 2 30 60 0 50 30]);
   (1, [fixture_block 0 20 25 1 0 5; fixture_block 1 60 120 1 5 60]);
   (2, [fixture_block 1 400 500 2 0 100; fixture_block 2 230 270 2 100 40]);
   (3, [fixture_block 3 0 50 3 0 50])].

(** A plan as the fixture prints it: the type of each object and the stream
    and offset range of its blocks. *)
Definition shown_object (c : CompactedObject) : CompactionType * list (Z * Z * Z) :=
  (co_type c, (λ b, (sdb_stream_id b, sdb_start_offset b, sdb_end_offset b)) <$> co_blocks c).
Definition shown (r : option (list CompactionPlan * gset Z)) :
    option (list (Z * list (CompactionType * list (Z * Z * Z))) * list Z) :=
  match r with
  | Some (plans, excluded) =>
      Some (map (λ p, (cp_order p, map shown_object (cp_compacted_objects p))) plans, ord_elems excluded)
  | None => None
  end.
Definition fixture_case (cache split_size streams objects : Z) :=
  shown (analyze in_order {| an_compaction_cache_size := cache; an_stream_split_size := split_size;
                             an_max_stream_num_in_stream_set := streams; an_max_stream_object_num := objects |}
           base_map ∅).

Example base_plan : fixture_case (2 ^ 30) 100 100 100 =
  Some ([(0, [(Split, [(1, 30, 60); (1, 60, 120)]); (Split, [(2, 30, 60)]);
              (Compact, [(0, 0, 20); (0, 20, 25); (1, 400, 500); (2, 230, 270)])])], []).
Proof. vm_compute. reflexivity. Qed.
Example staged_by_cache_plan : fixture_case 100 (2 ^ 30) 100 100 =
  Some ([(0, [(Split, [(1, 30, 60)]); (Compact, [(0, 0, 20); (0, 20, 25)])]);
         (1, [(Split, [(1, 60, 120)])]);
         (2, [(Compact, [(1, 400, 500)])]);
         (3, [(Split, [(2, 30, 60)]); (Compact, [(2, 230, 270)])])], []).
Proof. vm_compute. reflexivity. Qed.
Example split_heavy_plan : fixture_case (2 ^ 30) 30 100 100 =
  Some ([(0, [(Split, [(1, 30, 60); (1, 60, 120)]); (Split, [(1, 400, 500)]); (Split, [(2, 30, 60)]);
              (Split, [(2, 230, 270)]); (Compact, [(0, 0, 20); (0, 20, 25)])])], []).
Proof. vm_compute. reflexivity. Qed.
Example stream_object_limit_plan : fixture_case (2 ^ 30) 30 100 1 =
  Some ([(0, [(Split, [(1, 30, 60); (1, 60, 120)]);
              (Compact, [(0, 0, 20); (0, 20, 25); (2, 30, 60)])])], [2]).
Proof. vm_compute. reflexivity. Qed.

(** ** Sorting *)
Lemma concat_perm {A} (l1 l2 : list (list A)) : l1 ≡ₚ l2 → concat l1 ≡ₚ concat l2.
Proof.
  induction 1 as [| |x y l|]; simpl; [done|by f_equiv| |by etrans].
  by rewrite !(assoc (++)), (Permutation_app_comm y x).
Qed.

Lemma concat_insert {A} (m : gmap Z (list A)) k l :
  m !! k = None → concat (map_to_list (<[k := l]> m)).*2 ≡ₚ l ++ concat (map_to_list m).*2.
Proof. intros H. apply (concat_perm _ (l :: (map_to_list m).*2)). by rewrite map_to_list_insert. Qed.

Lemma push_at_perm {A} (key : A → Z) (m : gmap Z (list A)) x :
  concat (map_to_list (push_at key m x)).*2 ≡ₚ concat (map_to_list m).*2 ++ [x].
Proof.
  unfold push_at. destruct (m !! key x) as [l|] eqn:E; simpl.
  - rewrite <-(insert_delete_id m (key x) l E) at 2. rewrite <-insert_delete_eq.
    rewrite !concat_insert by apply lookup_delete_eq.
    rewrite <-!(assoc (++)). f_equiv. apply Permutation_app_comm.
  - rewrite concat_insert by done. apply Permutation_app_comm.
Qed.

Lemma group_perm {A} (key : A → Z) (l : list A) m :
  concat (map_to_list (foldl (push_at key) m l)).*2 ≡ₚ concat (map_to_list m).*2 ++ l.
Proof.
  revert m. induction l as [|x l IH]; intros m; simpl; [by rewrite app_nil_r|].
  by rewrite IH, push_at_perm, <-(assoc (++)).
Qed.

(** Every list of the grouping holds elements of its key. *)
Lemma group_key {A} (key : A → Z) (l : list A) m :
  map_Forall (λ k, Forall (λ x, key x = k)) m →
  map_Forall (λ k, Forall (λ x, key x = k)) (foldl (push_at key) m l).
Proof.
  revert m. induction l as [|x l IH]; intros m Hm; simpl; [done|]. apply IH.
  apply map_Forall_insert_2; [|done].
  apply Forall_app. split; [|by constructor].
  destruct (m !! key x) as [l'|] eqn:E; simpl; [by apply (Hm _ _ E)|done].
Qed.

Definition before (a b : StreamDataBlock) : Prop :=
  sdb_stream_id a < sdb_stream_id b ∨ (sdb_stream_id a = sdb_stream_id b ∧ sdb_start_offset a <= sdb_start_offset b).

Lemma start_leb_total a b : start_leb a b = false → start_leb b a = true.
Proof. unfold start_leb. lia. Qed.
Lemma start_leb_trans a b c : start_leb a b = true → start_leb b c = true → start_leb a c = true.
Proof. unfold start_leb. lia. Qed.
Lemma position_leb_total a b : position_leb a b = false → position_leb b a = true.
Proof. unfold position_leb. lia. Qed.
Lemma position_leb_trans a b c : position_leb a b = true → position_leb b c = true → position_leb a c = true.
Proof. unfold position_leb. lia. Qed.

Lemma concat_sort_perm {A} (leb : A → A → bool) (l : list (Z * list A)) :
  concat ((λ p, stable_sort leb p.2) <$> l) ≡ₚ concat l.*2.
Proof. induction l as [|p l IH]; simpl; [done|]. by rewrite stable_sort_perm, IH. Qed.

Lemma StronglySorted_concat {A B} (R : B → B → Prop) (key : A → Z) (f : A → list B) (l : list A) :
  StronglySorted (λ p q, key p < key q) l →
  (∀ p, p ∈ l → StronglySorted R (f p)) →
  (∀ p q x y, p ∈ l → q ∈ l → key p < key q → x ∈ f p → y ∈ f q → R x y) →
  StronglySorted R (concat (f <$> l)).
Proof.
  induction 1 as [|p l Hs IH Hall]; intros Hf Hr; simpl; [constructor|].
  rewrite Forall_forall in Hall. apply StronglySorted_app_2.
  - intros x1 x2 H1 H2. apply elem_of_concat_map in H2 as (q & Hq & H2).
    apply (Hr p q); [left|by right|by apply Hall|done|done].
  - apply Hf. left.
  - apply IH; intros; [apply Hf; by right|]. eapply (Hr p0 q); by eauto using list_elem_of_further.
Qed.

Section Sorting.
Context (values : BlockMap → list (list StreamDataBlock)).
Hypothesis values_all : ∀ m, values m ≡ₚ (map_to_list m).*2.

Lemma sort_perm m : sort_stream_range_positions values m ≡ₚ map_blocks m.
Proof using values_all.
  unfold sort_stream_range_positions. rewrite concat_sort_perm.
  etrans; [apply concat_perm, fmap_Permutation, merge_sort_Permutation|].
  rewrite group_perm, map_to_list_empty. simpl. apply concat_perm, values_all.
Qed.

Lemma sort_sorted m : StronglySorted before (sort_stream_range_positions values m).
Proof.
  unfold sort_stream_range_positions.
  set (g := foldl _ _ _).
  assert (Hg : map_Forall (λ k, Forall (λ x, sdb_stream_id x = k)) g) by apply group_key, map_Forall_empty.
  assert (Hin : ∀ p x, p ∈ ord_list g → x ∈ stable_sort start_leb p.2 → sdb_stream_id x = p.1).
  { intros [k l] x Hp Hx. apply elem_of_ord_list in Hp. rewrite stable_sort_perm in Hx.
    specialize (Hg _ _ Hp). rewrite Forall_forall in Hg. by apply Hg. }
  apply (StronglySorted_concat _ fst); [apply ord_list_ids_strict| |].
  - intros p Hp. pose proof (stable_sort_sorted start_leb start_leb_trans start_leb_total p.2) as Hs.
    pose proof (Hin p) as Hst.
    induction Hs as [|x l Hs IH Hall]; [constructor|]. constructor.
    + apply IH. intros y ? Hy. apply Hst; [done|by right].
    + rewrite Forall_forall in *. intros y Hy. right.
      rewrite (Hst x), (Hst y) by (done || constructor; done). specialize (Hall y Hy). unfold start_leb in Hall. lia.
  - intros p q x y Hp Hq Hlt Hx Hy. left. rewrite (Hin p x), (Hin q y) by done. done.
Qed.
End Sorting.

(** ** Runs *)

(** [b] continues [a]'s stream where [a] ends. *)
Definition run (a b : StreamDataBlock) : Prop :=
  sdb_stream_id a = sdb_stream_id b ∧ sdb_end_offset a = sdb_start_offset b.
(** [b] may follow [a] in a stream set object. *)
Definition next (a b : StreamDataBlock) : Prop := sdb_stream_id a < sdb_stream_id b ∨ run a b.

Lemma HdRel_head {A} (R : A → A → Prop) x l : HdRel R x l ↔ ∀ b, head l = Some b → R x b.
Proof.
  destruct l; split; intros H.
  - done.
  - constructor.
  - intros ? [= <-]. by inversion H.
  - constructor. by apply H.
Qed.

Lemma Sorted_app_iff {A} (R : A → A → Prop) l1 l2 :
  Sorted R (l1 ++ l2) ↔ Sorted R l1 ∧ Sorted R l2 ∧ ∀ a b, last l1 = Some a → head l2 = Some b → R a b.
Proof.
  induction l1 as [|x l1 IH]; simpl.
  - split; [intros H; split_and!; [constructor|done|done]|by intros (_ & ? & _)].
  - split.
    + intros [H1 H2]%Sorted_inv. apply IH in H1 as (H1 & H3 & H4). split_and!; [|done|].
      * constructor; [done|]. destruct l1; [constructor|]. by inversion H2; constructor.
      * intros a b Ha Hb. destruct l1; [simplify_eq/=|by apply H4]. rewrite HdRel_head in H2. by apply H2.
    + intros ([H1 H2]%Sorted_inv & H3 & H4). constructor.
      * apply IH. split_and!; [done..|]. intros a b Ha Hb. apply H4; [|done]. by destruct l1.
      * destruct l1; simpl; [|by inversion H2; constructor]. apply HdRel_head. intros b. by apply H4.
Qed.

Lemma Sorted_take_drop {A} (R : A → A → Prop) l n : Sorted R l → Sorted R (take n l) ∧ Sorted R (drop n l).
Proof. intros H. rewrite <-(take_drop n l) in H. by apply Sorted_app_iff in H as (? & ? & _). Qed.

Lemma Sorted_snoc {A} (R : A → A → Prop) l x :
  Sorted R l → (∀ a, last l = Some a → R a x) → Sorted R (l ++ [x]).
Proof.
  intros H Hx. apply Sorted_app_iff. split_and!; [done|repeat constructor|].
  intros a b Ha [= <-]. by apply Hx.
Qed.

(** Blocks of one stream in a sequence of a stream set object are one run. *)
Lemma next_one_stream s l :
  Sorted next l → Forall (λ b, sdb_stream_id b = s) l → Sorted run l.
Proof.
  induction 1 as [|x l Hs IH Hd]; intros Hf; [constructor|]. apply Forall_cons in Hf as [Hx Hf].
  constructor; [by apply IH|]. destruct Hd as [|y l [Hlt|Hr]]; [constructor| |by constructor].
  apply Forall_cons in Hf as [Hy _]. lia.
Qed.

(** ** Builders *)
Lemma sum_sizes_app l1 l2 : sum_sizes (l1 ++ l2) = sum_sizes l1 + sum_sizes l2.
Proof. induction l1 as [|b l1 IH]; simpl; lia. Qed.
Lemma sum_sizes_pos l : Forall (λ b, 0 < sdb_size b) l → 0 <= sum_sizes l.
Proof. induction 1; simpl; lia. Qed.
Lemma sum_sizes_zero l : Forall (λ b, 0 < sdb_size b) l → sum_sizes l = 0 → l = [].
Proof. intros [|b l' Hb Hl]; [done|]. pose proof (sum_sizes_pos _ Hl). simpl. lia. Qed.

Definition positioned (b : Builder) : Prop :=
  (Builder.blocks b = [] ∧ Builder.curr_stream_index_head b = -1 ∧ Builder.curr_stream_index_tail b = -1) ∨
  ∃ pre cur s, Builder.blocks b = pre ++ cur ∧ cur ≠ [] ∧
    Builder.curr_stream_index_head b = Z.of_nat (length pre) ∧
    Builder.curr_stream_index_tail b = Z.of_nat (length (pre ++ cur)) ∧
    Forall (λ b, sdb_stream_id b = s) cur ∧ Forall (λ b, sdb_stream_id b < s) pre.

Lemma positioned_new : positioned Builder.new.
Proof. by left. Qed.

Lemma positioned_add b x :
  positioned b → (∀ a, last (Builder.blocks b) = Some a → sdb_stream_id a <= sdb_stream_id x) →
  positioned (Builder.add_block b x).
Proof.
  intros [(Hb & Hh & Ht)|(pre & cur & s & Hb & Hc & Hh & Ht & Hs & Hp)] Hx.
  - right. exists [], [x], (sdb_stream_id x). unfold Builder.add_block, Builder.last_stream_id.
    rewrite Hb. simpl. split_and!; try done; by repeat constructor.
  - destruct (last_is_Some cur) as [_ [a Ha]]; [done|].
    assert (Hl : last (Builder.blocks b) = Some a) by (by rewrite Hb, last_app, Ha).
    assert (Has : sdb_stream_id a = s).
    { rewrite Forall_forall in Hs. apply Hs. by apply last_Some_elem_of. }
    specialize (Hx a Hl). right. unfold Builder.add_block, Builder.last_stream_id. rewrite Hl. simpl.
    rewrite length_app in Ht. case_bool_decide as E.
    + exists pre, (cur ++ [x]), s. rewrite Hb, !length_app. simpl.
      split_and!; [by rewrite (assoc (++))|by destruct cur|done|lia| |done].
      apply Forall_app. split; [done|]. constructor; [congruence|constructor].
    + exists (pre ++ cur), [x], (sdb_stream_id x). rewrite Hb, !length_app. simpl.
      split_and!; [done|done|lia|lia|by repeat constructor|].
      assert (sdb_stream_id a ≠ sdb_stream_id x) by congruence.
      apply Forall_app. split; [eapply Forall_impl; [exact Hp|]|eapply Forall_impl; [exact Hs|]];
        intros y Hy; cbv beta in Hy |- *; lia.
Qed.

(** A builder whose tail covers its blocks. *)
Definition filled (b : Builder) : Prop :=
  Builder.blocks b ≠ [] ∧ Builder.curr_stream_index_tail b = Z.of_nat (length (Builder.blocks b)).

Lemma foldl_add_blocks l b : Builder.blocks (foldl Builder.add_block b l) = Builder.blocks b ++ l.
Proof.
  revert b. induction l as [|x l IH]; intros b; simpl; [by rewrite app_nil_r|].
  rewrite IH. simpl. by rewrite <-(assoc (++)).
Qed.
Lemma foldl_add_tail l b :
  l ≠ [] → Builder.curr_stream_index_tail (foldl Builder.add_block b l) =
           Z.of_nat (length (Builder.blocks b ++ l)).
Proof.
  destruct l as [|x l] using rev_ind; [done|]. intros _.
  rewrite foldl_app. simpl. rewrite foldl_add_blocks, !length_app. simpl. lia.
Qed.

Lemma reset_tail l i curr head tail :
  (Builder.reset_loop l i curr head tail).2 = if decide (l = []) then tail else i + Z.of_nat (length l).
Proof.
  revert i curr head tail. induction l as [|x l IH]; intros; [done|]. cbn [Builder.reset_loop].
  rewrite IH. rewrite (decide_False (P := x :: l = [])) by done.
  destruct (decide (l = [])) as [->|]; simpl length; lia.
Qed.

Lemma reset_filled b :
  Builder.blocks b ≠ [] → filled (Builder.reset_curr_stream_position b).
Proof.
  intros H. unfold filled, Builder.reset_curr_stream_position.
  pose proof (reset_tail (Builder.blocks b) 0 None (-1) (-1)) as Ht.
  destruct (Builder.reset_loop _ _ _ _ _) as [h t]. rewrite decide_False in Ht by done. by cbn in *; subst.
Qed.
Lemma reset_blocks b : Builder.blocks (Builder.reset_curr_stream_position b) = Builder.blocks b.
Proof. unfold Builder.reset_curr_stream_position. by destruct (Builder.reset_loop _ _ _ _ _). Qed.
Lemma reset_type b : Builder.compaction_type (Builder.reset_curr_stream_position b) = Builder.compaction_type b.
Proof. unfold Builder.reset_curr_stream_position. by destruct (Builder.reset_loop _ _ _ _ _). Qed.

(** Cutting the blocks [l2] out of the middle. *)
Lemma split_spec b l1 l2 l3 :
  Builder.blocks b = l1 ++ l2 ++ l3 → l2 ≠ [] →
  Z.of_nat (length (l1 ++ l2)) <= Builder.curr_stream_index_tail b →
  ∃ rest out, Builder.split b (Z.of_nat (length l1)) (Z.of_nat (length (l1 ++ l2))) = (rest, out) ∧
    Builder.blocks rest = l1 ++ l3 ∧ Builder.compaction_type rest = Builder.compaction_type b ∧
    (l1 ++ l3 ≠ [] → filled rest) ∧
    Builder.blocks out = l2 ∧ Builder.compaction_type out = Builder.compaction_type b ∧ filled out.
Proof.
  intros Hb Hl2 Ht. unfold Builder.split.
  rewrite (proj2 (Z.ltb_ge (Z.of_nat (length l1)) 0)), (proj2 (Z.ltb_ge _ _) Ht) by lia. simpl orb.
  rewrite !Nat2Z.id, Hb, !length_app.
  replace (length l1 + length l2 - length l1)%nat with (length l2) by lia.
  assert (drop (length l1 + length l2) (l1 ++ l2 ++ l3) = l3) as ->.
  { by rewrite (assoc (++)), <-length_app, drop_app_length. }
  rewrite drop_app_length, !take_app_length.
  eexists _, _. split; [done|]. split_and!.
  - by rewrite reset_blocks.
  - by rewrite reset_type.
  - intros H. by apply reset_filled.
  - cbn. by rewrite foldl_add_blocks.
  - done.
  - unfold filled. cbn. by rewrite foldl_add_blocks, foldl_add_tail.
Qed.

(** ** Cutting the sorted blocks into objects *)
Definition flat (builders : list Builder) : list StreamDataBlock := concat (Builder.blocks <$> builders).
Definition set_blocks (builders : list Builder) : list StreamDataBlock :=
  concat ((λ b, match Builder.compaction_type b with Compact => Builder.blocks b | Split => [] end) <$> builders).

(** A finished builder. *)
Definition built (b : Builder) : Prop :=
  filled b ∧ (Builder.compaction_type b = Split → Sorted run (Builder.blocks b)).

Lemma flat_app l1 l2 : flat (l1 ++ l2) = flat l1 ++ flat l2.
Proof. unfold flat. by rewrite fmap_app, concat_app. Qed.
Lemma set_blocks_app l1 l2 : set_blocks (l1 ++ l2) = set_blocks l1 ++ set_blocks l2.
Proof. unfold set_blocks. by rewrite fmap_app, concat_app. Qed.

Record working (seen : list StreamDataBlock) (b : Builder) (bs : list Builder) : Prop := {
  w_flat : flat bs ++ Builder.blocks b = seen;
  w_built : Forall built bs;
  w_next : Sorted next (set_blocks bs ++ Builder.blocks b);
  w_below : ∀ x y, x ∈ set_blocks bs → y ∈ Builder.blocks b → sdb_stream_id x < sdb_stream_id y;
  w_positioned : positioned b;
  w_type : Builder.compaction_type b = Compact;
  w_open : seen ≠ [] → Builder.blocks b ≠ [];
}.
Arguments w_flat {_ _ _} _.

Lemma working_new : working [] Builder.new [].
Proof. constructor; simpl; auto using positioned_new. set_solver. Qed.

Lemma working_first bs x :
  Forall built bs → Sorted next (set_blocks bs) →
  (∀ y, y ∈ set_blocks bs → sdb_stream_id y < sdb_stream_id x) →
  working (flat bs ++ [x]) (Builder.add_block Builder.new x) bs.
Proof.
  intros Hb Hn Hx. constructor; simpl; auto.
  - apply Sorted_snoc; [done|]. intros a Ha. left. apply Hx. by apply last_Some_elem_of.
  - intros y z Hy Hz. apply list_elem_of_singleton in Hz as ->. by apply Hx.
  - by apply (positioned_add Builder.new); [apply positioned_new|].
Qed.

Lemma working_more seen b bs a x :
  working seen b bs → last (Builder.blocks b) = Some a → next a x →
  working (seen ++ [x]) (Builder.add_block b x) bs.
Proof.
  intros [Hf Hb Hn Hbl Hp Ht Ho] Ha Hx.
  assert (sdb_stream_id a <= sdb_stream_id x) by (destruct Hx as [|[]]; lia).
  constructor; simpl; auto.
  - by rewrite (assoc (++)), Hf.
  - rewrite (assoc (++)). apply Sorted_snoc; [done|]. intros c Hc. rewrite last_app, Ha in Hc. by simplify_eq.
  - intros y z Hy [Hz|Hz%list_elem_of_singleton]%elem_of_app; [by apply Hbl|]. subst z.
    specialize (Hbl y a Hy (last_Some_elem_of _ _ Ha)). lia.
  - apply positioned_add; [done|]. intros c Hc. by simplify_eq.
  - by destruct (Builder.blocks b).
Qed.

Lemma split_object_ok seen b bs :
  working seen b bs → Builder.blocks b ≠ [] → Forall (λ b, 0 < sdb_size b) seen →
  ∃ bs', split_object b bs = (Builder.new, bs') ∧ flat bs' = seen ∧ Forall built bs' ∧
    Sorted next (set_blocks bs') ∧
    ∀ y d, y ∈ set_blocks bs' → last seen = Some d → sdb_stream_id y < sdb_stream_id d.
Proof.
  intros [Hf Hb Hn Hbl Hp Ht Ho] Hne Hpos.
  destruct Hp as [[]|(pre & cur & s & Eb & Hc & Hh & Htl & Hs & Hpre)]; [done|].
  destruct (split_spec b pre cur []) as (rest & out & Hsp & Hr & Hrt & Hrf & Hob & Hot & Hof).
  { by rewrite app_nil_r. } { done. } { lia. }
  rewrite app_nil_r in Hr, Hrf.
  unfold split_object, Builder.split_current_stream. rewrite Hh, Htl, Hsp.
  set (out' := out <| Builder.compaction_type := Split |>).
  rewrite Eb in Hn. apply Sorted_app_iff in Hn as (Hn1 & Hn2 & Hn3).
  assert (Hcur : Sorted run cur).
  { apply (next_one_stream s); [|done]. by apply Sorted_app_iff in Hn2 as (? & ? & _). }
  assert (Hout : built out').
  { split; [|intros _; by rewrite <-Hob in Hcur]. destruct Hof as [H1 H2]. by split. }
  assert (Hall : Sorted next (set_blocks bs ++ pre)).
  { apply Sorted_app_iff. apply Sorted_app_iff in Hn2 as (Hn2 & _ & _). split_and!; [done..|].
    intros a c Ha Hd. apply Hn3; [done|]. by destruct pre. }
  assert (Hlow : ∀ y d, y ∈ set_blocks bs ++ pre → last seen = Some d → sdb_stream_id y < sdb_stream_id d).
  { intros y d Hy Hd. destruct (last_is_Some cur) as [_ [c Hl]]; [done|].
    rewrite <-Hf, Eb, !last_app, Hl in Hd. simplify_eq. apply last_Some_elem_of in Hl.
    rewrite Forall_forall in Hs, Hpre. apply elem_of_app in Hy as [Hy|Hy].
    - apply Hbl; [done|]. rewrite Eb. set_solver.
    - rewrite (Hs _ Hl). by apply Hpre. }
  assert (Hso : ∀ l, set_blocks (l ++ [out']) = set_blocks l).
  { intros l. rewrite set_blocks_app. unfold set_blocks at 2. simpl. by rewrite app_nil_r. }
  assert (Hfo : ∀ l, flat (l ++ [out']) = flat l ++ cur).
  { intros l. rewrite flat_app. unfold flat at 2. simpl. by rewrite app_nil_r, Hob. }
  eexists. split; [done|]. rewrite Hso, Hfo.
  assert (Hpp : Forall (λ b, 0 < sdb_size b) pre).
  { rewrite <-Hf, Eb in Hpos. by apply Forall_app in Hpos as [_ [? _]%Forall_app]. }
  destruct (Z.eqb_spec (Builder.total_block_size rest) 0) as [Hz|Hz].
  - assert (pre = []) as ->.
    { unfold Builder.total_block_size in Hz. rewrite Hr in Hz. by apply sum_sizes_zero in Hz. }
    rewrite app_nil_r in Hall, Hlow. rewrite Eb in Hf. split_and!; [done| |done..].
    apply Forall_app. split; [done|by apply Forall_singleton].
  - assert (Hpn : pre ≠ []). { intros ->. apply Hz. unfold Builder.total_block_size. by rewrite Hr. }
    assert (flat [rest] = pre) as Hfr by (cbn; by rewrite Hr, app_nil_r).
    assert (set_blocks [rest] = pre) as Hsr by (cbn; by rewrite Hrt, Ht, Hr, app_nil_r).
    rewrite flat_app, set_blocks_app, Hfr, Hsr. split_and!; [by rewrite <-Hf, Eb, (assoc (++))| |done|].
    + rewrite !Forall_app. split_and!; [done|apply Forall_singleton|by apply Forall_singleton].
      split; [by apply Hrf|]. congruence.
    + exact Hlow.
Qed.

Section Cutting.
Context (self : CompactionAnalyzer).

Lemma compact_loop_ok l : ∀ seen b bs b' bs',
  StronglySorted before (seen ++ l) → Forall (λ b, 0 < sdb_size b) (seen ++ l) →
  working seen b bs → compact_loop self l b bs = Some (b', bs') → working (seen ++ l) b' bs'.
Proof.
  induction l as [|x l IH]; intros seen b bs b' bs' Hs Hp Hw He; cbn [compact_loop] in He.
  { simplify_eq. by rewrite app_nil_r. }
  pose proof Hp as [Hps _]%Forall_app.
  replace (seen ++ x :: l) with ((seen ++ [x]) ++ l) in * by (by rewrite <-(assoc (++))).
  assert (Hbef : ∀ a, last seen = Some a → before a x).
  { intros a Ha. rewrite <-(assoc (++)) in Hs. eapply (StronglySorted_app_1_elem_of _ _ _ a x Hs); [|set_solver].
    by apply last_Some_elem_of. }
  destruct (last (Builder.blocks b)) as [a|] eqn:Ha.
  - assert (Hsa : last seen = Some a) by (by rewrite <-(w_flat Hw), last_app, Ha).
    assert (Hne : Builder.blocks b ≠ []) by (by intros E; rewrite E in Ha).
    destruct (split_object_ok _ _ _ Hw Hne Hps) as (bs2 & Eso & Hf & Hb & Hn & Hlow).
    specialize (Hbef a Hsa). assert (Hle : sdb_stream_id a <= sdb_stream_id x) by (destruct Hbef; lia).
    assert (Hcut : working (seen ++ [x]) (Builder.add_block Builder.new x) bs2).
    { rewrite <-Hf. apply working_first; [done..|]. intros y Hy. specialize (Hlow y a Hy Hsa). lia. }
    destruct (Z.eqb_spec (sdb_stream_id a) (sdb_stream_id x)) as [E|E].
    + destruct (Z.ltb_spec (sdb_end_offset a) (sdb_start_offset x)) as [E2|E2].
      * rewrite Eso in He. by apply (IH _ _ _ _ _ Hs Hp Hcut).
      * destruct (Z.eqb_spec (sdb_start_offset x) (sdb_end_offset a)) as [E3|E3]; [|done].
        apply (IH _ _ _ _ _ Hs Hp) in He; [done|]. apply (working_more _ _ _ a); [done..|]. right. by split.
    + unfold split_and_add_block in He. rewrite Eso in He. destruct (_ <? _).
      * by apply (IH _ _ _ _ _ Hs Hp Hcut).
      * apply (IH _ _ _ _ _ Hs Hp) in He; [done|]. apply (working_more _ _ _ a); [done..|]. left. lia.
  - apply last_None in Ha. assert (seen = []) as ->.
    { destruct seen; [done|]. by destruct (w_open _ _ _ Hw). }
    assert (flat bs = []) as Hfl by (pose proof (w_flat Hw) as H; by apply app_nil in H as [? _]).
    assert (bs = []) as ->.
    { destruct bs as [|b0 bs]; [done|]. pose proof (w_built _ _ _ Hw) as [[[H _] _] _]%Forall_cons.
      unfold flat in Hfl. simpl in Hfl. by apply app_nil in Hfl as [? _]. }
    assert (b = Builder.new) as ->.
    { destruct (w_positioned _ _ _ Hw) as [(E1 & E2 & E3)|(pre & cur & s & E & Hc & _)].
      - pose proof (w_type _ _ _ Hw). destruct b. cbn in *. by subst.
      - rewrite Ha in E. symmetry in E. apply app_nil in E as [_ ?]. done. }
    apply (IH _ _ _ _ _ Hs Hp) in He; [done|]. by apply (working_first [] x); [constructor|constructor|set_solver].
Qed.

(** The objects hold the sorted blocks in order. *)
Lemma compact_objects_ok l bs :
  StronglySorted before l → Forall (λ b, 0 < sdb_size b) l → l ≠ [] → compact_objects self l = Some bs →
  flat bs = l ∧ Forall built bs ∧ Sorted next (set_blocks bs).
Proof.
  intros Hs Hp Hne He. unfold compact_objects in He.
  destruct (compact_loop self l Builder.new []) as [[b bs']|] eqn:El; [|done]. cbn in He. simplify_eq.
  apply (compact_loop_ok l []) in El; [|done..|apply working_new]. simpl in El.
  pose proof (w_open _ _ _ El Hne) as Hb. destruct (_ <? _).
  - destruct (split_object_ok _ _ _ El Hb Hp) as (bs2 & -> & Hf & Hbu & Hn & _). done.
  - rewrite flat_app, set_blocks_app. unfold flat at 2, set_blocks at 2. simpl. rewrite (w_type _ _ _ El), !app_nil_r.
    split_and!; [apply (w_flat El)| |apply (w_next _ _ _ El)].
    apply Forall_app. split; [apply (w_built _ _ _ El)|]. constructor; [|constructor].
    split; [|by rewrite (w_type _ _ _ El)]. split; [done|].
    destruct (w_positioned _ _ _ El) as [[]|(pre & cur & s & -> & _ & _ & Ht & _)]; [done|done].
Qed.
End Cutting.

(** ** Leaving objects out until the limits hold *)
Lemma ids_by_elem f g l k ids id :
  ids_by f g l !! k = Some ids → id ∈ ids → ∃ b, b ∈ l ∧ f b = k ∧ g b = id.
Proof.
  revert k ids id. induction l as [|x l IH] using rev_ind; intros k ids id Hk Hid.
  { unfold ids_by in Hk. simpl in Hk. by rewrite lookup_empty in Hk. }
  unfold ids_by in Hk. rewrite foldl_app in Hk. cbn [foldl] in Hk. fold (ids_by f g l) in Hk.
  destruct (decide (f x = k)) as [<-|Hne].
  - rewrite lookup_insert_eq in Hk. simplify_eq. apply elem_of_union in Hid as [->%elem_of_singleton|Hid].
    + exists x. set_solver.
    + destruct (ids_by f g l !! f x) as [ids|] eqn:E; simpl in Hid; [|set_solver].
      destruct (IH _ _ _ E Hid) as (b & ? & ? & ?). exists b. set_solver.
  - rewrite lookup_insert_ne in Hk by done. destruct (IH _ _ _ Hk Hid) as (b & ? & ? & ?). exists b. set_solver.
Qed.

Lemma elem_of_flat b builders : b ∈ flat builders ↔ ∃ x, x ∈ builders ∧ b ∈ Builder.blocks x.
Proof. apply elem_of_concat_map. Qed.

Lemma add_objects_to_remove_in ty builders stats id :
  id ∈ add_objects_to_remove ty builders stats → ∃ b, b ∈ flat builders ∧ sdb_object_id b = id.
Proof.
  unfold add_objects_to_remove. set (cs := filter _ builders).
  assert (Hcs : ∀ x, x ∈ cs → x ∈ builders) by (intros x [_ ?]%list_elem_of_filter; done).
  clearbody cs. destruct cs as [|c cs]; [set_solver|]. destruct ty.
  - pose proof (stable_sort_perm (λ a b, pair_leb
      (Z.of_nat (length (Builder.blocks a)), total_object_stats a (st_object_to_compacted_object_num stats))
      (Z.of_nat (length (Builder.blocks b)), total_object_stats b (st_object_to_compacted_object_num stats)))
      (c :: cs)) as Hp.
    destruct (stable_sort _ _) as [|first l]; [set_solver|]. intros Hid.
    unfold Builder.unique_object_ids in Hid. apply elem_of_list_to_set, list_elem_of_fmap in Hid as (b & -> & Hb).
    exists b. split; [|done]. apply elem_of_flat. exists first. split; [|done]. apply Hcs. rewrite <-Hp. left.
  - cbn zeta. destruct (_ <$> ord_list _) as [|p l]; [set_solver|].
    destruct (ids_by _ _ _ !! _) as [ids|] eqn:E; simpl; [|set_solver]. intros Hid.
    destruct (ids_by_elem _ _ _ _ _ _ E Hid) as (b & Hb & _ & <-). exists b. split; [|done].
    change (b ∈ flat (c :: cs)) in Hb. apply elem_of_flat in Hb as (x & Hx & Hb).
    apply elem_of_flat. eauto.
Qed.

Lemma objects_to_remove_in self builders stats id :
  id ∈ objects_to_remove self builders stats → ∃ b, b ∈ flat builders ∧ sdb_object_id b = id.
Proof.
  unfold objects_to_remove. destruct stats as [stats|]; [|set_solver].
  destruct (_ <? _); apply add_objects_to_remove_in.
Qed.

Lemma elem_of_map_blocks b (m : BlockMap) : b ∈ map_blocks m ↔ ∃ id l, m !! id = Some l ∧ b ∈ l.
Proof.
  unfold map_blocks. rewrite elem_of_concat_map. split.
  - intros ([id l] & Hl & Hb). exists id, l. apply elem_of_map_to_list in Hl. done.
  - intros (id & l & Hl & Hb). exists (id, l). by rewrite elem_of_map_to_list.
Qed.

Lemma filter_blocks_some m : filter_blocks_to_compact m ≠ ∅ → map_blocks m ≠ [].
Proof.
  intros H E. apply H. unfold filter_blocks_to_compact. rewrite E. simpl. unfold ids_by. simpl.
  apply map_empty. intros k. apply map_lookup_filter_None. right. intros l _.
  rewrite map_to_list_empty. simpl. set_solver.
Qed.

Lemma filter_blocks_empty : filter_blocks_to_compact ∅ = ∅.
Proof. unfold filter_blocks_to_compact. apply map_filter_empty. Qed.

Definition keyed (m : BlockMap) : Prop := map_Forall (λ id, Forall (λ b, sdb_object_id b = id)) m.
Lemma keyed_sub m m' : m' ⊆ m → keyed m → keyed m'.
Proof. intros Hs Hk id l Hl. apply Hk. by eapply lookup_weaken. Qed.
Lemma map_blocks_sub m m' : m' ⊆ m → map_blocks m' ⊆ map_blocks m.
Proof.
  intros Hs b. rewrite !elem_of_map_blocks. intros (id & l & Hl & Hb). exists id, l.
  split; [by eapply lookup_weaken|done].
Qed.
Lemma filter_blocks_sub m : filter_blocks_to_compact m ⊆ m.
Proof. apply map_filter_subseteq. Qed.

(** Object [id] holds a block of stream [s]. *)
Definition holds (m : BlockMap) (s id : Z) : Prop :=
  ∃ b, b ∈ map_blocks m ∧ sdb_stream_id b = s ∧ sdb_object_id b = id.
(** Object [id] shares a stream with another. *)
Definition shares (m : BlockMap) (id : Z) : Prop := ∃ s id', id ≠ id' ∧ holds m s id ∧ holds m s id'.

Lemma ids_by_complete f g l b : b ∈ l → ∃ ids, ids_by f g l !! f b = Some ids ∧ g b ∈ ids.
Proof.
  induction l as [|x l IH] using rev_ind; intros Hb; [by apply elem_of_nil in Hb|].
  unfold ids_by. rewrite foldl_app. cbn [foldl]. fold (ids_by f g l).
  apply elem_of_app in Hb as [Hb|Hb%list_elem_of_singleton].
  - destruct (IH Hb) as (ids & Hl & Hid). destruct (decide (f x = f b)) as [E|E].
    + rewrite E, lookup_insert_eq, Hl. eexists. split; [done|]. simpl. set_solver.
    + rewrite lookup_insert_ne by done. eauto.
  - subst x. rewrite lookup_insert_eq. eexists. split; [done|]. set_solver.
Qed.

Lemma filter_blocks_lookup m id l :
  filter_blocks_to_compact m !! id = Some l ↔ m !! id = Some l ∧ shares m id.
Proof.
  unfold filter_blocks_to_compact. etrans; [apply map_lookup_filter_Some|]. cbn [fst].
  rewrite elem_of_union_list. apply and_iff_compat_l. split.
  - intros (ids & [Hsz Hin]%list_elem_of_filter & Hid).
    apply list_elem_of_fmap in Hin as ([s ids'] & -> & Hs%elem_of_map_to_list). simpl in *.
    destruct (ids_by_elem _ _ _ _ _ _ Hs Hid) as (b & ? & ? & ?).
    destruct (decide (ids' ∖ {[id]} = ∅)) as [E|(id' & Hid')%set_choose_L].
    + apply empty_difference_subseteq_L, subseteq_size in E. rewrite size_singleton in E. lia.
    + apply elem_of_difference in Hid' as [Hid' Hn%not_elem_of_singleton].
      destruct (ids_by_elem _ _ _ s ids' id' Hs) as (b' & ? & ? & ?); [done|].
      exists s, id'. split; [done|]. split; [by exists b|by exists b'].
  - intros (s & id' & Hne & (b & Hb & <- & <-) & (b' & Hb' & Es & <-)).
    destruct (ids_by_complete sdb_stream_id sdb_object_id _ b Hb) as (ids & Hl & Hid).
    destruct (ids_by_complete sdb_stream_id sdb_object_id _ b' Hb') as (ids' & Hl' & Hid').
    rewrite Es, Hl in Hl'. simplify_eq. exists ids'. split; [|done]. apply list_elem_of_filter. split.
    + apply Nat.lt_le_trans with (size ({[sdb_object_id b; sdb_object_id b']} : gset Z)).
      * rewrite size_union by set_solver. rewrite !size_singleton. lia.
      * apply subseteq_size. set_solver.
    + apply list_elem_of_fmap. exists (sdb_stream_id b, ids'). by rewrite elem_of_map_to_list.
Qed.

Lemma filter_blocks_holds m s id :
  keyed m → holds m s id → shares m id → holds (filter_blocks_to_compact m) s id.
Proof.
  intros Hk (b & (k & l & Hl & Hb)%elem_of_map_blocks & Hs & Hid) Hsh. exists b. split; [|done].
  pose proof (Hk _ _ Hl) as Hf. rewrite Forall_forall in Hf. pose proof (Hf b Hb) as Ek. simpl in Ek.
  apply elem_of_map_blocks. exists k, l. split; [|done]. apply filter_blocks_lookup.
  split; [done|]. by rewrite <-Ek, Hid.
Qed.

(** Filtering again changes nothing. *)
Lemma filter_blocks_idem m :
  keyed m → filter_blocks_to_compact (filter_blocks_to_compact m) = filter_blocks_to_compact m.
Proof.
  intros Hk. apply map_eq. intros id. apply option_eq. intros l. rewrite filter_blocks_lookup.
  split; [by intros [? _]|]. intros Hl. split; [done|]. apply filter_blocks_lookup in Hl as [Hl (s & id' & Hne & H1 & H2)].
  exists s, id'. split; [done|]. split; apply filter_blocks_holds; try done; [exists s, id'|exists s, id]; done.
Qed.

Definition apart (a b : StreamDataBlock) : Prop :=
  sdb_stream_id a = sdb_stream_id b → sdb_end_offset a <= sdb_start_offset b.

Lemma compact_loop_total self l : ∀ b bs,
  Sorted apart l → (∀ a, last (Builder.blocks b) = Some a → HdRel apart a l) → is_Some (compact_loop self l b bs).
Proof.
  induction l as [|x l IH]; intros b bs Hs Ha; cbn [compact_loop]; [done|].
  apply Sorted_inv in Hs as [Hs Hh].
  assert (Hadd : ∀ b' bs', is_Some (compact_loop self l (Builder.add_block b' x) bs')).
  { intros b' bs'. apply IH; [done|]. intros a. cbn. rewrite last_snoc. intros [= <-]. done. }
  destruct (last (Builder.blocks b)) as [a|] eqn:Ea; [|apply Hadd].
  specialize (Ha a eq_refl). inversion_clear Ha as [|? ? Hax]. destruct (Z.eqb_spec (sdb_stream_id a) (sdb_stream_id x)) as [E|E].
  - specialize (Hax E). destruct (_ <? _) eqn:E1; [destruct (split_object b bs); apply Hadd|].
    destruct (_ =? _) eqn:E2; [apply Hadd|]. lia.
  - unfold split_and_add_block. destruct (_ <? _); [destruct (split_object b bs)|]; apply Hadd.
Qed.

Lemma compact_objects_total self l : Sorted apart l → is_Some (compact_objects self l).
Proof.
  intros H. unfold compact_objects. destruct (compact_loop_total self l Builder.new []) as [[b bs] ->]; [done|done|].
  by eexists.
Qed.


(** Two of the blocks of one stream overlap. *)
Definition overlap (l : list StreamDataBlock) : Prop :=
  ∃ a b rest, l ≡ₚ a :: b :: rest ∧ sdb_stream_id a = sdb_stream_id b ∧
    sdb_start_offset a <= sdb_start_offset b < sdb_end_offset a.
(** Why nothing is planned: no two objects share a stream, or blocks overlap. *)
Definition stuck (l : list StreamDataBlock) : Prop :=
  (∀ b b', b ∈ l → b' ∈ l → sdb_stream_id b = sdb_stream_id b' → sdb_object_id b = sdb_object_id b') ∨ overlap l.

Lemma unsorted_overlap l : StronglySorted before l → ¬ Sorted apart l → overlap l.
Proof.
  induction 1 as [|x l Hs IH Hall]; intros Hn; [by destruct Hn|].
  destruct l as [|y l]; [destruct Hn; by repeat constructor|].
  destruct (decide (sdb_stream_id x = sdb_stream_id y ∧ sdb_start_offset y < sdb_end_offset x)) as [[E Ho]|Ha].
  - exists x, y, l. split_and!; [done..| |done]. apply Forall_cons in Hall as [[?|[_ ?]] _]; lia.
  - destruct IH as (a & b & rest & Hp & He & Ho).
    + intros Hl. apply Hn. constructor; [done|]. constructor. intros E. apply Z.nlt_ge. naive_solver.
    + exists a, b, (x :: rest). split; [|done]. rewrite Hp. solve_Permutation.
Qed.

Lemma compact_objects_overlap self l : StronglySorted before l → compact_objects self l = None → overlap l.
Proof.
  intros Hs He. apply unsorted_overlap; [done|]. intros Ha. destruct (compact_objects_total self l Ha). congruence.
Qed.

Lemma overlap_perm l l' : l ≡ₚ l' → overlap l → overlap l'.
Proof. intros Hp (a & b & rest & Hl & ?). exists a, b, rest. by rewrite <-Hp. Qed.
Lemma stuck_perm l l' : l ≡ₚ l' → stuck l → stuck l'.
Proof.
  intros Hp [Hs|Ho]; [left|right; by eapply overlap_perm]. intros b b' Hb Hb'. rewrite <-Hp in Hb, Hb'. by apply Hs.
Qed.

Lemma ids_by_nonempty f g l k ids : ids_by f g l !! k = Some ids → ids ≠ ∅.
Proof.
  induction l as [|x l IH] using rev_ind; unfold ids_by; [cbn; by rewrite lookup_empty|]. rewrite foldl_snoc. fold (ids_by f g l).
  intros [[_ <-]|[_ ?]]%lookup_insert_Some; [set_solver|by apply IH].
Qed.

(** Over a limit, there is always an object to leave out. *)
Lemma stats_split bs : 0 < st_stream_object_num (stats_of bs) →
  ∃ b, b ∈ bs ∧ Builder.compaction_type b = Split ∧ Builder.blocks b ≠ [].
Proof.
  induction bs as [|b bs IH] using rev_ind; [done|]. unfold stats_of. rewrite foldl_snoc. fold (stats_of bs).
  unfold stats_step. destruct (bool_decide _ && negb _) eqn:E.
  - intros _. apply andb_true_iff in E as [E1%bool_decide_eq_true E2%negb_true_iff%bool_decide_eq_false].
    exists b. set_solver.
  - destruct (bool_decide (_ = Compact)); intros Hn; destruct (IH Hn) as (x & ? & ?); exists x; set_solver.
Qed.
Lemma stats_compact bs : Forall built bs → 0 < st_stream_num_in_stream_set (stats_of bs) →
  ∃ b, b ∈ bs ∧ Builder.compaction_type b = Compact ∧ Builder.blocks b ≠ [].
Proof.
  induction bs as [|b bs IH] using rev_ind; [done|]. intros [Hf Hb]%Forall_app. unfold stats_of. rewrite foldl_snoc. fold (stats_of bs).
  apply Forall_singleton in Hb as [[Hne _] _].
  unfold stats_step. destruct (bool_decide _ && negb _); [|destruct (bool_decide (_ = Compact)) eqn:E].
  1, 3: intros Hn; destruct IH as (x & ? & ?); [done..|]; exists x; set_solver.
  intros _. exists b. apply bool_decide_eq_true in E. set_solver.
Qed.

Definition limits_typed (self : CompactionAnalyzer) : Prop :=
  0 <= an_max_stream_num_in_stream_set self ∧ 0 <= an_max_stream_object_num self.

Lemma candidates_removed ty bs stats b :
  b ∈ bs → Builder.compaction_type b = ty → Forall (λ b, Builder.blocks b ≠ []) bs → add_objects_to_remove ty bs stats ≠ ∅.
Proof.
  intros Hb Hty Hne. unfold add_objects_to_remove. set (cs := filter _ bs).
  assert (Hcs : Forall (λ b, Builder.blocks b ≠ []) cs) by (apply Forall_forall; intros x [_ Hx]%list_elem_of_filter; rewrite Forall_forall in Hne; by apply Hne).
  assert (Hin : b ∈ cs) by (by apply list_elem_of_filter). clearbody cs.
  destruct cs as [|c cs]; [by apply not_elem_of_nil in Hin|]. destruct ty.
  - match goal with |- context [stable_sort ?leb ?l] => pose proof (stable_sort_perm leb l) as Hp; destruct (stable_sort leb l) as [|x xs] end.
    { by apply Permutation_nil_l in Hp. }
    rewrite Forall_forall in Hcs. specialize (Hcs x ltac:(rewrite <-Hp; left)).
    unfold Builder.unique_object_ids. destruct (Builder.blocks x) as [|y ys]; [done|]. cbn. set_solver.
  - cbn zeta. match goal with |- context [ids_by sdb_stream_id sdb_object_id ?l] => set (blocks := l) end.
    set (sids := ids_by sdb_stream_id sdb_object_id blocks). set (scored := _ <$> ord_list sids).
    assert (Hblock : ∃ x, x ∈ blocks).
    { rewrite Forall_forall in Hcs. specialize (Hcs c ltac:(left)). unfold blocks. cbn.
      destruct (Builder.blocks c) as [|x xs]; [done|]. exists x. left. }
    assert (Hkeys : ∀ p, p ∈ scored → ∃ ids, sids !! p.2 = Some ids).
    { intros p ([k ids] & -> & Hk%elem_of_ord_list)%list_elem_of_fmap. by exists ids. }
    destruct scored as [|first rest] eqn:Esc.
    + destruct Hblock as [x Hx]. destruct (ids_by_complete sdb_stream_id sdb_object_id _ _ Hx) as (ids & Hl & _).
      apply elem_of_ord_list in Hl. apply fmap_nil_inv in Esc. unfold sids in Esc. rewrite Esc in Hl. by apply not_elem_of_nil in Hl.
    + set (min := foldl _ first rest).
      destruct (Hkeys min) as [ids Hids]; [|rewrite Hids; cbn; by eapply ids_by_nonempty].
      unfold min. clear. revert first. induction rest as [|p rest IH]; intros first; cbn; [left|].
      destruct (pair_leb first p); [|right; apply IH]. specialize (IH first). set_solver.
Qed.

Lemma objects_to_remove_some self bs :
  limits_typed self → Forall built bs →
  (an_max_stream_num_in_stream_set self <? st_stream_num_in_stream_set (stats_of bs)) ||
  (an_max_stream_object_num self <? st_stream_object_num (stats_of bs)) = true →
  objects_to_remove self bs (Some (stats_of bs)) ≠ ∅.
Proof.
  intros [H1 H2] Hb Hover. cbn [objects_to_remove].
  assert (Hne : Forall (λ b, Builder.blocks b ≠ []) bs) by (eapply Forall_impl; [exact Hb|]; by intros x [[? _] _]).
  destruct (Z.ltb_spec (an_max_stream_object_num self) (st_stream_object_num (stats_of bs))).
  - destruct (stats_split bs) as (b & ? & ? & _); [lia|]. by eapply candidates_removed.
  - rewrite orb_false_r in Hover. destruct (stats_compact bs Hb) as (b & ? & ? & _); [lia|]. by eapply candidates_removed.
Qed.

Definition within_limits (self : CompactionAnalyzer) (bs : list Builder) : Prop :=
  st_stream_num_in_stream_set (stats_of bs) <= an_max_stream_num_in_stream_set self ∧
  st_stream_object_num (stats_of bs) <= an_max_stream_object_num self.

(** What grouping returns: the objects left out, and builders for the blocks of the others. *)
Definition grouped (self : CompactionAnalyzer) (sorted : list StreamDataBlock) (removed : gset Z)
    (r : option (list Builder)) : Prop :=
  (∀ id, id ∈ removed → ∃ b, b ∈ sorted ∧ sdb_object_id b = id) ∧
  match r with
  | None => limits_typed self → stuck (filter (λ b, sdb_object_id b ∉ removed) sorted)
  | Some bs =>
      flat bs = filter (λ b, sdb_object_id b ∉ removed) sorted ∧ Forall built bs ∧ Sorted next (set_blocks bs) ∧
      within_limits self bs
  end.

Lemma grouped_step self sorted remove removed r :
  (∀ id, id ∈ remove → ∃ b, b ∈ sorted ∧ sdb_object_id b = id) →
  grouped self (filter (λ b, sdb_object_id b ∉ remove) sorted) removed r →
  grouped self sorted (removed ∪ remove) r.
Proof.
  intros Hre [Hin Hr]. split.
  - intros id [Hid|Hid]%elem_of_union; [|by apply Hre].
    destruct (Hin id Hid) as (b & [_ ?]%list_elem_of_filter & ?). by exists b.
  - assert (E : filter (λ b, sdb_object_id b ∉ removed) (filter (λ b, sdb_object_id b ∉ remove) sorted) =
      filter (λ b, sdb_object_id b ∉ removed ∪ remove) sorted).
    { rewrite list_filter_filter. apply list_filter_iff. intros b. set_solver. }
    rewrite E in Hr. done.
Qed.

Lemma filter_shrinks {A} (P : A → Prop) `{∀ x, Decision (P x)} l x :
  x ∈ l → ¬ P x → (length (filter P l) < length l)%nat.
Proof.
  induction l as [|y l IH]; [set_solver|]. intros [->|Hx]%elem_of_cons Hn; rewrite filter_cons; simpl.
  - rewrite decide_False by done. pose proof (length_filter P l). lia.
  - specialize (IH Hx Hn). destruct (decide (P y)); simpl; lia.
Qed.

(** Blocks that share a stream across objects are not filtered out. *)
Lemma still_shared (m : BlockMap) (sorted : list StreamDataBlock) (remove : gset Z) b b' :
  keyed m →
  (∀ b b', b ∈ sorted → b' ∈ sorted → sdb_stream_id b = sdb_stream_id b' → sdb_object_id b ≠ sdb_object_id b' →
     b ∈ map_blocks m ∧ b' ∈ map_blocks m) →
  b ∈ filter (λ b, sdb_object_id b ∉ remove) sorted → b' ∈ filter (λ b, sdb_object_id b ∉ remove) sorted →
  sdb_stream_id b = sdb_stream_id b' → sdb_object_id b ≠ sdb_object_id b' →
  b ∈ map_blocks (filter_blocks_to_compact (filter (λ p, p.1 ∉ remove) m)) ∧
  b' ∈ map_blocks (filter_blocks_to_compact (filter (λ p, p.1 ∉ remove) m)).
Proof.
  intros Hk Hsh [Hr Hb]%list_elem_of_filter [Hr' Hb']%list_elem_of_filter Es Hne.
  destruct (Hsh b b' Hb Hb' Es Hne) as [Hm Hm'].
  assert (Hin : ∀ x, x ∈ map_blocks m → sdb_object_id x ∉ remove → ∃ l, filter (λ p, p.1 ∉ remove) m !! sdb_object_id x = Some l ∧ x ∈ l).
  { intros x (k & l & Hl & Hx)%elem_of_map_blocks Hxr. pose proof (Hk _ _ Hl) as Hf. rewrite Forall_forall in Hf.
    specialize (Hf x Hx). cbn in Hf. subst k. exists l. split; [|done]. by apply map_lookup_filter_Some. }
  destruct (Hin b Hm Hr) as (l & Hl & Hbl), (Hin b' Hm' Hr') as (l' & Hl' & Hbl').
  assert (H1 : holds (filter (λ p, p.1 ∉ remove) m) (sdb_stream_id b) (sdb_object_id b)).
  { exists b. split_and!; [apply elem_of_map_blocks; eauto|done..]. }
  assert (H2 : holds (filter (λ p, p.1 ∉ remove) m) (sdb_stream_id b) (sdb_object_id b')).
  { exists b'. split_and!; [apply elem_of_map_blocks; eauto|done..]. }
  split; apply elem_of_map_blocks; [exists (sdb_object_id b), l|exists (sdb_object_id b'), l']; (split; [|done]);
    apply filter_blocks_lookup; (split; [done|]); [exists (sdb_stream_id b), (sdb_object_id b')|exists (sdb_stream_id b), (sdb_object_id b)]; done.
Qed.

Section Grouping.
Context (self : CompactionAnalyzer).

Lemma group_loop_ok fuel : ∀ m sorted bs stats ex,
  StronglySorted before sorted → Forall (λ b, 0 < sdb_size b) sorted → keyed m → map_blocks m ⊆ sorted →
  (∀ b b', b ∈ sorted → b' ∈ sorted → sdb_stream_id b = sdb_stream_id b' → sdb_object_id b ≠ sdb_object_id b' →
     b ∈ map_blocks m ∧ b' ∈ map_blocks m) →
  (is_Some stats → flat bs = sorted) →
  (∀ st, stats = Some st → st = stats_of bs ∧ Forall built bs ∧
     (an_max_stream_num_in_stream_set self <? st_stream_num_in_stream_set st) ||
     (an_max_stream_object_num self <? st_stream_object_num st) = true) →
  (length sorted + (if stats then 1 else 2) <= fuel)%nat →
  ∃ r removed, group_loop_with_limits self fuel m sorted bs stats ex = Some (r, removed ∪ ex) ∧
    grouped self sorted removed r.
Proof.
  induction fuel as [|fuel IH]; intros m sorted bs stats ex Hs Hp Hk Hm Hsh Hfl Hov Hfuel.
  { destruct stats; lia. }
  cbn [group_loop_with_limits]. set (remove := objects_to_remove self bs stats).
  assert (Hre : ∀ id, id ∈ remove → ∃ b, b ∈ sorted ∧ sdb_object_id b = id).
  { intros id Hid. unfold remove in Hid. destruct stats as [st|]; [|simpl in Hid; set_solver].
    rewrite <-Hfl by done. by apply objects_to_remove_in in Hid. }
  destruct (bool_decide (is_Some stats) && bool_decide (remove = ∅)) eqn:Estop.
  { exists None, ∅. rewrite (left_id_L ∅ (∪)). split; [done|]. split; [set_solver|]. intros Hlim. exfalso.
    apply andb_true_iff in Estop as [[st ->]%bool_decide_eq_true E%bool_decide_eq_true].
    destruct (Hov st eq_refl) as (-> & Hb & Ho). by eapply objects_to_remove_some. }
  set (sorted' := filter _ sorted). set (m' := filter_blocks_to_compact _).
  assert (Hstop : stuck sorted' → ∃ r removed, Some (None, remove ∪ ex) = Some (r, removed ∪ ex) ∧ grouped self sorted removed r).
  { intros Hst. exists None, remove. by split. }
  assert (Hs' : StronglySorted before sorted') by (by apply StronglySorted_filter).
  assert (Hsh' : ∀ b b', b ∈ sorted' → b' ∈ sorted' → sdb_stream_id b = sdb_stream_id b' → sdb_object_id b ≠ sdb_object_id b' →
    b ∈ map_blocks m' ∧ b' ∈ map_blocks m').
  { intros b b' Hb Hb'. by apply (still_shared m sorted remove). }
  destruct (bool_decide_reflect (m' = ∅)) as [Em|Em].
  { apply Hstop. left. intros b b' Hb Hb' Es. destruct (decide (sdb_object_id b = sdb_object_id b')) as [|Hne]; [done|].
    destruct (Hsh' b b' Hb Hb' Es Hne) as [Hin _]. rewrite Em in Hin. by apply not_elem_of_nil in Hin. }
  destruct (compact_objects self sorted') as [bs'|] eqn:Ec; [|apply Hstop; right; by eapply compact_objects_overlap].
  assert (Hp' : Forall (λ b, 0 < sdb_size b) sorted') by (apply Forall_forall; intros b [_ Hb]%list_elem_of_filter; rewrite Forall_forall in Hp; auto).
  assert (Hm0 : map_blocks (filter (λ p, p.1 ∉ remove) m) ⊆ sorted').
  { intros b Hb. apply list_elem_of_filter. apply elem_of_map_blocks in Hb as (id & l & Hl & Hb).
    apply map_lookup_filter_Some in Hl as [Hl Hid]. simpl in Hid. pose proof (Hk _ _ Hl) as Hkl.
    rewrite Forall_forall in Hkl. rewrite (Hkl b Hb). split; [done|]. apply Hm, elem_of_map_blocks. eauto. }
  destruct (compact_objects_ok self sorted' bs') as (Hf & Hb & Hn); [exact Hs'|exact Hp'| |exact Ec|].
  { intros E. apply filter_blocks_some in Em. apply Em, elem_of_nil_inv. intros b Hb.
    apply Hm0 in Hb. rewrite E in Hb. by apply elem_of_nil in Hb. }
  destruct (_ || _) eqn:El.
  - destruct (IH m' sorted' bs' (Some (stats_of bs')) (remove ∪ ex)) as (r & removed & Eq & Hg);
      [done|done| | |done|done| | |].
    + eapply keyed_sub; [|exact Hk]. etrans; [apply filter_blocks_sub|apply map_filter_subseteq].
    + etrans; [|exact Hm0]. apply map_blocks_sub, filter_blocks_sub.
    + intros st [= <-]. done.
    + destruct stats as [st|].
      * rewrite bool_decide_true in Estop by done. cbn in Estop. apply bool_decide_eq_false in Estop.
        apply set_choose_L in Estop as [id Hid]. destruct (Hre id Hid) as (b & Hbs & <-).
        assert (length sorted' < length sorted)%nat by (apply (filter_shrinks _ sorted b); [done|naive_solver]). lia.
      * assert (length sorted' <= length sorted)%nat by apply length_filter. cbn in Hfuel |- *. lia.
    + exists r, (removed ∪ remove). rewrite Eq. split; [by rewrite (assoc_L (∪))|]. by apply grouped_step.
  - exists (Some bs'), remove. split; [done|]. split; [done|]. split_and!; [done..|].
    unfold within_limits. lia.
Qed.
End Grouping.

(** ** Stages *)
Definition plan_blocks (p : CompactionPlan) : list StreamDataBlock := concat (co_blocks <$> cp_compacted_objects p).

(** An object that is one run of one stream. *)
Definition stream_object (c : CompactedObject) : Prop :=
  co_type c = Split ∧ co_blocks c ≠ [] ∧ Sorted run (co_blocks c).
(** An object in which every stream has one run, in the order of the streams. *)
Definition set_object (c : CompactedObject) : Prop :=
  co_type c = Compact ∧ co_blocks c ≠ [] ∧ Sorted next (co_blocks c).

(** The reads of a plan are its blocks, by object and in the order of their positions. *)
Definition reads_blocks (p : CompactionPlan) : Prop :=
  concat (map_to_list (cp_stream_data_blocks_map p)).*2 ≡ₚ plan_blocks p ∧
  map_Forall (λ id l, Forall (λ b, sdb_object_id b = id) l ∧ StronglySorted (λ a b, position_leb a b = true) l)
    (cp_stream_data_blocks_map p).

Definition plan_ok (cache : Z) (p : CompactionPlan) : Prop :=
  sum_sizes (plan_blocks p) <= cache ∧ reads_blocks p ∧
  ∃ splits sets, cp_compacted_objects p = splits ++ sets ∧ Forall stream_object splits ∧ Forall set_object sets ∧
    (length sets <= 1)%nat.

Lemma concat_sorted_map {A} (leb : A → A → bool) (m : gmap Z (list A)) :
  concat (map_to_list (stable_sort leb <$> m)).*2 ≡ₚ concat (map_to_list m).*2.
Proof.
  induction m as [|k l m Hk IH] using map_ind; [done|].
  rewrite fmap_insert, !concat_insert; [|done|by rewrite lookup_fmap, Hk].
  by rewrite IH, stable_sort_perm.
Qed.

Lemma generate_plan_reads order cobjs ssb : reads_blocks (generate_plan order cobjs ssb).
Proof.
  split; unfold generate_plan; cbn [cp_stream_data_blocks_map].
  - rewrite concat_sorted_map, group_perm, map_to_list_empty. done.
  - intros id l Hl. rewrite lookup_fmap in Hl. destruct (_ !! id) as [l'|] eqn:E; [|done].
    simpl in Hl. injection Hl as <-. split; [|apply stable_sort_sorted; eauto using position_leb_trans, position_leb_total].
    rewrite stable_sort_perm. revert E. apply (group_key sdb_object_id). apply map_Forall_empty.
Qed.

Definition ssb_blocks (ssb : option Builder) : list StreamDataBlock :=
  match ssb with Some b => Builder.blocks b | None => [] end.
Definition pending (cobjs : list CompactedObject) (ssb : option Builder) : list StreamDataBlock :=
  concat (co_blocks <$> cobjs) ++ ssb_blocks ssb.

(** The open stage, before the blocks [rest] of the stream set. *)
Record stage (cobjs : list CompactedObject) (ssb : option Builder) (rest : list StreamDataBlock) : Prop := {
  sg_splits : Forall stream_object cobjs;
  sg_set : ∀ b, ssb = Some b → Builder.compaction_type b = Compact ∧ Builder.blocks b ≠ [];
  sg_next : Sorted next (ssb_blocks ssb ++ rest);
}.

Lemma stage_empty rest : Sorted next rest → stage [] None rest.
Proof. by constructor. Qed.

Lemma stage_add b bs cobjs ssb :
  built b → stage cobjs ssb (set_blocks (b :: bs)) →
  ∃ cobjs' ssb', add_or_merge b cobjs ssb = (cobjs', ssb') ∧ stage cobjs' ssb' (set_blocks bs) ∧
    pending cobjs' ssb' ≡ₚ pending cobjs ssb ++ Builder.blocks b.
Proof.
  intros [[Hne Ht] Hr] [Hs Hset Hn]. unfold add_or_merge.
  destruct (Builder.compaction_type b) eqn:Ety; [rewrite bool_decide_true by done|rewrite bool_decide_false by done];
    eexists _, _; (split; [done|]).
  - split.
    + unfold set_blocks in Hn. simpl in Hn. rewrite Ety in Hn. constructor; [|done..].
      apply Forall_app. split; [done|]. apply Forall_singleton. by split_and!; [|done|apply Hr].
    + unfold pending. rewrite fmap_app, concat_app. simpl. rewrite app_nil_r, <-!(assoc (++)).
      f_equiv. apply Permutation_app_comm.
  - unfold set_blocks in Hn. simpl in Hn. rewrite Ety in Hn. fold (set_blocks bs) in Hn.
    set (t := default Builder.new ssb). assert (Hb : Builder.blocks (Builder.merge t b) = ssb_blocks ssb ++ Builder.blocks b).
    { unfold Builder.merge. rewrite Ety, bool_decide_false by done. rewrite reset_blocks. by destruct ssb. }
    split.
    + constructor; [done| |].
      * intros b' [= <-]. split.
        -- unfold Builder.merge. rewrite Ety, bool_decide_false by done. rewrite reset_type.
           destruct ssb as [b0|]; [by destruct (Hset b0)|done].
        -- rewrite Hb. destruct (ssb_blocks ssb); [by destruct (Builder.blocks b)|done].
      * cbn [ssb_blocks]. by rewrite Hb, <-(assoc (++)).
    + unfold pending. cbn [ssb_blocks]. by rewrite Hb, (assoc (++)).
Qed.

Definition weight (bs : list Builder) : nat := foldr (λ b n, 2 + 2 * length (Builder.blocks b) + n)%nat 0%nat bs.

Lemma generate_plan_blocks order cobjs ssb : plan_blocks (generate_plan order cobjs ssb) = pending cobjs ssb.
Proof.
  unfold plan_blocks, generate_plan, pending. cbn [cp_compacted_objects].
  rewrite fmap_app, concat_app. f_equal. destruct ssb; simpl; [by rewrite app_nil_r|done].
Qed.

Lemma stage_close cache order cobjs ssb rest :
  stage cobjs ssb rest → sum_sizes (pending cobjs ssb) <= cache → plan_ok cache (generate_plan order cobjs ssb).
Proof.
  intros [Hs Hset Hn] Hsz. split_and!.
  - by rewrite generate_plan_blocks.
  - apply generate_plan_reads.
  - eexists _, _. split; [done|]. split; [done|]. destruct ssb as [b|]; [|by split; [constructor|simpl; lia]].
    split; [|simpl; lia]. apply Forall_singleton. destruct (Hset b eq_refl) as [Ht Hne].
    split_and!; [done..|]. by apply Sorted_app_iff in Hn as (? & _).
Qed.

Lemma sum_sizes_perm l1 l2 : l1 ≡ₚ l2 → sum_sizes l1 = sum_sizes l2.
Proof. induction 1; simpl; lia. Qed.

(** Cutting a finished builder. *)
Lemma built_split b n :
  built b → (0 < n < length (Builder.blocks b))%nat →
  ∃ rest out, Builder.split b 0 (Z.of_nat n) = (rest, out) ∧ built rest ∧ built out ∧
    Builder.blocks out = take n (Builder.blocks b) ∧ Builder.blocks rest = drop n (Builder.blocks b) ∧
    ∀ bs, set_blocks (b :: bs) = set_blocks (out :: rest :: bs).
Proof.
  intros [[Hne Ht] Hr] Hn.
  assert (Hl : length (take n (Builder.blocks b)) = n) by (rewrite length_take; lia).
  destruct (split_spec b [] (take n (Builder.blocks b)) (drop n (Builder.blocks b)))
    as (rest & out & Hsp & Hrb & Hrt & Hrf & Hob & Hot & Hof).
  { simpl. by rewrite take_drop. } { intros E. rewrite E in Hl. simpl in Hl. lia. }
  { simpl. rewrite Hl, Ht. lia. }
  simpl in Hsp, Hrb, Hrf. rewrite Hl in Hsp. exists rest, out. split; [done|].
  assert (drop n (Builder.blocks b) ≠ []).
  { intros E. apply (f_equal length) in E. rewrite length_drop in E. simpl in E. lia. }
  split_and!; [| |done|done|].
  - split; [by apply Hrf|]. rewrite Hrt, Hrb. intros Hty. apply Sorted_take_drop. by apply Hr.
  - split; [done|]. rewrite Hot, Hob. intros Hty. apply Sorted_take_drop. by apply Hr.
  - intros bs. unfold set_blocks. simpl. rewrite Hrt, Hot, Hob, Hrb. destruct (Builder.compaction_type b); [done|].
    by rewrite (assoc (++)), take_drop.
Qed.

Section Staging.
Context (self : CompactionAnalyzer).
Notation cache := (an_compaction_cache_size self).

Lemma cut_point_ok l : ∀ j tmp, tmp <= cache → cache < tmp + sum_sizes l →
  ∃ n, cut_point self l j tmp = (j + n)%nat ∧ (n < length l)%nat ∧ tmp + sum_sizes (take n l) <= cache ∧
    (n = 0%nat → ∃ b, head l = Some b ∧ cache < tmp + sdb_size b).
Proof.
  induction l as [|b l IH]; intros j tmp H1 H2; cbn [cut_point]; [simpl in H2; lia|]. simpl in H2.
  destruct (Z.ltb_spec cache (tmp + sdb_size b)) as [Hc|Hc].
  - exists 0%nat. simpl. split_and!; [lia..|]. intros _. by exists b.
  - destruct (IH (S j) (tmp + sdb_size b)) as (n & Hn & Hlt & Hs & _); [lia..|]. exists (S n).
    simpl. split_and!; lia.
Qed.

Definition staged (blocks : list StreamDataBlock) (r : option (list CompactionPlan)) : Prop :=
  ∃ plans, r = Some plans ∧ concat (plan_blocks <$> plans) ≡ₚ blocks ∧ Forall (plan_ok cache) plans.

Lemma staged_cons p blocks r :
  plan_ok cache p → staged blocks r → staged (plan_blocks p ++ blocks) ((p ::.) <$> r).
Proof.
  intros Hp (plans & -> & Hb & Hf). exists (p :: plans). split; [done|]. split; [by simpl; rewrite Hb|]. by constructor.
Qed.

Lemma staged_perm blocks blocks' r : blocks ≡ₚ blocks' → staged blocks r → staged blocks' r.
Proof. intros Hp (plans & ? & ? & ?). exists plans. split_and!; [done|by rewrite <-Hp|done]. Qed.

Lemma stage_loop_ok fuel : ∀ bs cobjs ssb total order,
  Forall (λ b, 0 < sdb_size b <= cache) (flat bs) → Forall built bs → stage cobjs ssb (set_blocks bs) →
  total = sum_sizes (pending cobjs ssb) → 0 <= total <= cache →
  (weight bs + (if decide (total = 0%Z) then 0 else 1) < fuel)%nat →
  staged (pending cobjs ssb ++ flat bs) (stage_loop self fuel bs cobjs ssb total order).
Proof.
  induction fuel as [|fuel IH]; intros bs cobjs ssb total order Hsz Hb Hst Ht Htc Hfuel; [lia|].
  cbn [stage_loop]. destruct bs as [|b bs].
  { pose proof (stage_close cache order _ _ _ Hst ltac:(lia)) as Hok.
    destruct cobjs as [|c cobjs], ssb as [s|]; [|by exists []|..];
      (eexists; split; [done|]; split; [|by apply Forall_singleton]); cbn [fmap list_fmap concat flat];
      by rewrite generate_plan_blocks. }
  apply Forall_cons in Hb as [Hb Hbs]. pose proof Hsz as Hsz'. unfold flat in Hsz. simpl in Hsz. fold (flat bs) in Hsz.
  apply Forall_app in Hsz as [Hsb Hsr]. pose proof Hb as [[Hne _] _].
  assert (Hflat : ∀ x l, flat (x :: l) = Builder.blocks x ++ flat l) by done.
  unfold Builder.total_block_size.
  destruct (Z.ltb_spec cache (total + sum_sizes (Builder.blocks b))) as [Hc|Hc].
  - destruct (cut_point_ok (Builder.blocks b) 0 total) as (n & -> & Hlt & Hs & H0); [lia..|]. simpl Nat.add.
    destruct n as [|n].
    + destruct H0 as (b0 & Hh & Hc0); [done|]. assert (sdb_size b0 <= cache).
      { destruct (Builder.blocks b) as [|b1 l]; [done|]. simplify_eq/=. apply Forall_cons in Hsb as [? _]. lia. }
      pose proof (stage_close cache order _ _ _ Hst ltac:(lia)) as Hok.
      rewrite <-(generate_plan_blocks order). apply staged_cons; [done|].
      apply (IH (b :: bs) [] None 0); [done|by constructor| |done|lia|].
      * apply stage_empty. by apply sg_next, Sorted_app_iff in Hst as (_ & ? & _).
      * rewrite decide_True by done. rewrite decide_False in Hfuel by lia. lia.
    + destruct (built_split b (S n) Hb) as (rest & out & -> & Hrest & Hout & Eo & Er & Hset); [lia|].
      rewrite Hset in Hst. destruct (stage_add _ _ _ _ Hout Hst) as (cobjs' & ssb' & -> & Hst' & Hp).
      cbn [fst snd]. assert (sum_sizes (pending cobjs' ssb') <= cache).
      { rewrite (sum_sizes_perm _ _ Hp), sum_sizes_app, Eo. lia. }
      pose proof (stage_close cache order _ _ _ Hst' ltac:(lia)) as Hok.
      eapply (staged_perm (pending cobjs' ssb' ++ flat (rest :: bs))).
      { rewrite Hp, !Hflat, Eo, Er, <-!(assoc (++)), (assoc (++) (take _ _)), take_drop. done. }
      rewrite <-(generate_plan_blocks order). apply staged_cons; [done|].
      apply (IH (rest :: bs) [] None 0); [|by constructor| |done|lia|].
      * rewrite Hflat, Er. apply Forall_app. split; [by apply Forall_drop|done].
      * apply stage_empty. by apply sg_next, Sorted_app_iff in Hst' as (_ & ? & _).
      * rewrite decide_True by done. simpl in Hfuel |- *. rewrite Er, length_drop. lia.
  - destruct (stage_add _ _ _ _ Hb Hst) as (cobjs' & ssb' & -> & Hst' & Hp).
    assert (Ht' : total + sum_sizes (Builder.blocks b) = sum_sizes (pending cobjs' ssb')).
    { rewrite (sum_sizes_perm _ _ Hp), sum_sizes_app. lia. }
    assert (0 <= sum_sizes (Builder.blocks b)).
    { apply sum_sizes_pos. eapply Forall_impl; [exact Hsb|]. simpl. lia. }
    eapply (staged_perm (pending cobjs' ssb' ++ flat bs)); [by rewrite Hp, Hflat, <-(assoc (++))|].
    apply IH; [done..|lia|]. simpl in Hfuel. destruct (decide _), (decide _); lia.
Qed.

Lemma generate_plans_ok bs :
  0 <= cache → Forall (λ b, 0 < sdb_size b <= cache) (flat bs) → Forall built bs → Sorted next (set_blocks bs) →
  staged (flat bs) (generate_plan_with_cache_limit self bs).
Proof.
  intros Hc Hs Hb Hn. apply (stage_loop_ok _ bs [] None 0 0); [done|done|by apply stage_empty|done|lia|].
  rewrite decide_True by done. unfold stage_fuel, weight. lia.
Qed.
End Staging.

(** ** Planning *)
(** Blocks under the id of their object, none empty and none over the cache size. *)
Definition plannable (self : CompactionAnalyzer) (m : BlockMap) : Prop :=
  keyed m ∧ ∀ b, b ∈ map_blocks m → 0 < sdb_size b <= an_compaction_cache_size self.

(** The blocks of the objects that share a stream, the [removed] ones left out. *)
Definition blocks_to_move (m : BlockMap) (removed : gset Z) : list StreamDataBlock :=
  filter (λ b, sdb_object_id b ∉ removed) (map_blocks (filter_blocks_to_compact m)).

Section Planning.
Context (values : BlockMap → list (list StreamDataBlock)) (self : CompactionAnalyzer).
Hypothesis values_all : ∀ m, values m ≡ₚ (map_to_list m).*2.

Lemma analyze_ok m ex :
  plannable self m →
  ∃ plans removed, analyze values self m ex = Some (plans, removed ∪ ex) ∧
    ((plans = [] ∧ (limits_typed self → stuck (blocks_to_move m removed))) ∨
     concat (plan_blocks <$> plans) ≡ₚ blocks_to_move m removed) ∧
    (∀ id, id ∈ removed → ∃ b, b ∈ map_blocks m ∧ sdb_object_id b = id) ∧
    Forall (plan_ok (an_compaction_cache_size self)) plans.
Proof using values_all.
  intros [Hk Hb]. unfold analyze.
  assert (Hnone : map_blocks (filter_blocks_to_compact m) = [] → ∃ plans removed, Some ([], ex) = Some (plans, removed ∪ ex) ∧
    ((plans = [] ∧ (limits_typed self → stuck (blocks_to_move m removed))) ∨
     concat (plan_blocks <$> plans) ≡ₚ blocks_to_move m removed) ∧
    (∀ id, id ∈ removed → ∃ b, b ∈ map_blocks m ∧ sdb_object_id b = id) ∧
    Forall (plan_ok (an_compaction_cache_size self)) plans).
  { intros E. exists [], ∅. rewrite (left_id_L ∅ (∪)). split_and!; [done| |set_solver|done].
    right. unfold blocks_to_move. by rewrite E. }
  case_bool_decide as Em; [subst m; apply Hnone; by rewrite filter_blocks_empty|].
  set (m' := filter_blocks_to_compact m). case_bool_decide as Em'; [apply Hnone; by fold m'; rewrite Em'|].
  pose proof (sort_perm values values_all m') as Hperm.
  assert (Hsub : map_blocks m' ⊆ map_blocks m) by apply map_blocks_sub, filter_blocks_sub.
  unfold group_object_with_limits. set (sorted := sort_stream_range_positions values m') in *.
  destruct (group_loop_ok self (S (S (length sorted))) m' sorted [] None ex)
    as (r & removed & Eg & Hin & Hr).
  - apply sort_sorted.
  - apply Forall_forall. intros b Hbs. apply Hb, Hsub. by rewrite <-Hperm.
  - by eapply keyed_sub; [apply filter_blocks_sub|].
  - intros b Hbs. by rewrite Hperm.
  - intros b b'. by rewrite !Hperm.
  - by intros [? ?].
  - done.
  - lia.
  - rewrite Eg. cbn [mbind option_bind]. clear Hnone.
    assert (Hin' : ∀ id, id ∈ removed → ∃ b, b ∈ map_blocks m ∧ sdb_object_id b = id).
    { intros id Hid. destruct (Hin id Hid) as (b & Hbs & Hbid). exists b. split; [|done].
      apply Hsub. by rewrite <-Hperm. }
    destruct r as [bs|]; [|exists [], removed; split_and!; [done| |done|done]; left; split; [done|]; intros Hlim;
      eapply stuck_perm; [|by apply Hr]; unfold blocks_to_move; by rewrite Hperm].
    destruct Hr as (Hf & Hbu & Hn & _).
    destruct (generate_plans_ok self bs) as (plans & Ep & Hp & Hok); [| |done|done|].
    + destruct (map_blocks m) as [|b l] eqn:El; [by apply filter_blocks_some in El|].
      specialize (Hb b (list_elem_of_here _ _)). lia.
    + rewrite Hf. apply Forall_forall. intros b [_ Hbs]%list_elem_of_filter. apply Hb, Hsub. by rewrite <-Hperm.
    + rewrite Ep. exists plans, removed. split_and!; [done| |done|done].
      right. rewrite Hp. simpl. rewrite Hf. unfold blocks_to_move. by rewrite Hperm.
Qed.
End Planning.

(** ** A plan is found *)

(** No two blocks of a stream overlap, and every block has an offset. *)
Definition disjoint_blocks (m : BlockMap) : Prop :=
  NoDup (map_blocks m) ∧
  (∀ b, b ∈ map_blocks m → sdb_start_offset b < sdb_end_offset b) ∧
  ∀ a b, a ∈ map_blocks m → b ∈ map_blocks m → a ≠ b → sdb_stream_id a = sdb_stream_id b →
    sdb_end_offset a <= sdb_start_offset b ∨ sdb_end_offset b <= sdb_start_offset a.

(** Limits that no plan for [m] can exceed. *)
Definition loose_limits (self : CompactionAnalyzer) (m : BlockMap) : Prop :=
  Z.of_nat (length (map_blocks m)) <= an_max_stream_num_in_stream_set self ∧
  Z.of_nat (length (map_blocks m)) <= an_max_stream_object_num self.

Lemma sorted_apart l :
  StronglySorted before l → NoDup l → (∀ b, b ∈ l → sdb_start_offset b < sdb_end_offset b) →
  (∀ a b, a ∈ l → b ∈ l → a ≠ b → sdb_stream_id a = sdb_stream_id b →
    sdb_end_offset a <= sdb_start_offset b ∨ sdb_end_offset b <= sdb_start_offset a) →
  Sorted apart l.
Proof.
  induction 1 as [|x l Hs IH Hall]; intros Hn Hr Hd; [constructor|]. apply NoDup_cons in Hn as [Hx Hn].
  constructor; [apply IH; [done|intros; apply Hr; by right|intros; apply Hd; by eauto using list_elem_of_further]|].
  destruct l as [|y l]; [constructor|]. constructor. intros Es. apply Forall_cons in Hall as [Hb _].
  specialize (Hr y ltac:(set_solver)).
  destruct (Hd x y) as [?|?]; [set_solver|set_solver|by intros ->; apply Hx; left|done|done|].
  destruct Hb as [?|[_ ?]]; lia.
Qed.

Lemma size_of_list (l : list Z) : (size (list_to_set l : gset Z) <= length l)%nat.
Proof.
  induction l as [|x l IH]; [done|]. cbn [list_to_set length]. rewrite size_union_alt, size_singleton.
  assert (size (list_to_set l ∖ {[x]} : gset Z) <= size (list_to_set l : gset Z))%nat by (apply subseteq_size; set_solver).
  lia.
Qed.

Lemma stats_step_bound s b :
  Builder.blocks b ≠ [] →
  st_stream_num_in_stream_set (stats_step s b) <= st_stream_num_in_stream_set s + Z.of_nat (length (Builder.blocks b)) ∧
  st_stream_object_num (stats_step s b) <= st_stream_object_num s + Z.of_nat (length (Builder.blocks b)).
Proof.
  intros Hne. unfold stats_step. assert (0 < Z.of_nat (length (Builder.blocks b))) by (destruct (Builder.blocks b); simpl in *; [done|lia]).
  assert (Builder.total_stream_num b <= Z.of_nat (length (Builder.blocks b))).
  { unfold Builder.total_stream_num. rewrite <-(length_fmap sdb_stream_id (Builder.blocks b)).
    pose proof (size_of_list (sdb_stream_id <$> Builder.blocks b)). lia. }
  destruct (_ && _); [cbn; lia|]. case_bool_decide; cbn; lia.
Qed.

Lemma stats_bound bs :
  Forall built bs →
  st_stream_num_in_stream_set (stats_of bs) <= Z.of_nat (length (flat bs)) ∧
  st_stream_object_num (stats_of bs) <= Z.of_nat (length (flat bs)).
Proof.
  induction bs as [|b bs IH] using rev_ind; intros Hb; [done|].
  apply Forall_app in Hb as [Hb [[[Hne _] _] _]%Forall_cons]. specialize (IH Hb).
  unfold stats_of. rewrite foldl_app. cbn [foldl]. fold (stats_of bs).
  destruct (stats_step_bound (stats_of bs) b Hne). rewrite flat_app, length_app. unfold flat at 2 4. simpl.
  rewrite app_nil_r. lia.
Qed.

Lemma filter_map_blocks (P : Z * list StreamDataBlock → Prop) `{∀ p, Decision (P p)} (m : BlockMap) :
  ∃ k, map_blocks m ≡ₚ map_blocks (filter P m) ++ k.
Proof.
  unfold map_blocks. induction m as [|id l m Hid IH] using map_ind; [by exists []|]. destruct IH as [k IH].
  destruct (decide (P (id, l))) as [Hp|Hp].
  - exists k. rewrite map_filter_insert_True by done.
    rewrite !concat_insert; [by rewrite IH, (assoc (++))|apply map_lookup_filter_None; by left|done].
  - exists (l ++ k). rewrite map_filter_insert_False, delete_id by done. rewrite concat_insert by done.
    by rewrite IH, !(assoc (++)), (Permutation_app_comm l).
Qed.

Lemma grouping_succeeds values self m ex :
  (∀ m, values m ≡ₚ (map_to_list m).*2) → plannable self m → disjoint_blocks m → loose_limits self m →
  filter_blocks_to_compact m ≠ ∅ →
  ∃ bs, group_object_with_limits values self (filter_blocks_to_compact m) ex = Some (Some bs, ex) ∧
    flat bs ≡ₚ map_blocks (filter_blocks_to_compact m) ∧ flat bs ≠ [] ∧ Forall built bs ∧ Sorted next (set_blocks bs).
Proof.
  intros Hv [Hk Hb] (Hnd & Hr & Hd) [Hl1 Hl2] Hne. 
  assert (∃ k, map_blocks m ≡ₚ map_blocks (filter_blocks_to_compact m) ++ k) as [k Hsub] by apply filter_map_blocks.
  pose proof (filter_blocks_idem m Hk) as Hidem.
  set (m' := filter_blocks_to_compact m) in *.
  pose proof (sort_perm values Hv m') as Hperm. pose proof (sort_sorted values m') as Hs.
  unfold group_object_with_limits. set (sorted := sort_stream_range_positions values m') in *.
  assert (Hin : ∀ b, b ∈ sorted → b ∈ map_blocks m) by (intros b; rewrite Hsub, Hperm; set_solver).
  assert (Hap : Sorted apart sorted).
  { apply sorted_apart; [done| |by auto|by auto]. rewrite Hperm. rewrite Hsub in Hnd. by apply NoDup_app in Hnd as [? _]. }
  assert (Hsn : sorted ≠ []).
  { intros E. rewrite E in Hperm. apply filter_blocks_some in Hne as Hne'. rewrite <-Hidem in Hne.
    by apply filter_blocks_some in Hne; apply Permutation_nil_l in Hperm. }
  destruct (compact_objects_total self sorted Hap) as [bs Hbs].
  destruct (compact_objects_ok self sorted bs) as (Hf & Hbu & Hn); [done| |done|done|].
  { apply Forall_forall. intros b Hbb. by apply Hb, Hin. }
  destruct (stats_bound bs Hbu) as [H1 H2]. assert (length (flat bs) <= length (map_blocks m))%nat.
  { rewrite Hf, Hperm, Hsub, length_app. lia. }
  exists bs. split; [|by rewrite Hf].
  cbn [group_loop_with_limits objects_to_remove]. rewrite bool_decide_false by (by intros [? ?]). cbn [andb].
  rewrite map_filter_id by set_solver. rewrite Hidem, bool_decide_false by done.
  rewrite (filter_all _ sorted) by set_solver. rewrite Hbs, (left_id_L ∅ (∪)).
  replace (_ || _) with false by lia. done.
Qed.

(** In a stream set object the blocks are in the order of the streams and
    those of a stream are one run. *)
Lemma next_streams l : Sorted next l → StronglySorted (λ a b, sdb_stream_id a <= sdb_stream_id b) l.
Proof.
  intros H. apply Sorted_StronglySorted; [intros a b c; lia|].
  induction H as [|x l Hs IH Hd]; constructor; [done|].
  destruct Hd as [|y l [?|[? ?]]]; constructor; lia.
Qed.

Lemma next_runs l s : Sorted next l → Sorted run (filter (λ b, sdb_stream_id b = s) l).
Proof.
  intros H. pose proof (next_streams l H) as Hss. induction H as [|x l Hs IH Hd]; [constructor|].
  apply StronglySorted_inv in Hss as [Hss Hall]. specialize (IH Hss). rewrite filter_cons.
  destruct (decide _) as [Hx|]; [|done]. constructor; [done|].
  destruct Hd as [|y l Hxy]; [constructor|]. rewrite filter_cons. destruct (decide _) as [Hy|Hy].
  - constructor. destruct Hxy as [?|?]; [lia|done].
  - assert (Hxy' : sdb_stream_id x < sdb_stream_id y) by (destruct Hxy as [?|[? ?]]; [done|congruence]).
    rewrite filter_none; [constructor|]. intros z Hz. apply StronglySorted_inv in Hss as [_ Hyl].
    rewrite Forall_forall in Hyl. specialize (Hyl z Hz). simpl in Hyl. lia.
Qed.

(** ** The claims *)

(** C31: for blocks that are not empty and not larger than the cache (the
    round refuses larger ones before it plans), the analyzer ends with a
    result. Either the output objects of all stages together hold every data
    block of the shared objects that were not left out exactly once, or
    nothing is planned, and then among the objects not left out no two share
    a stream or two blocks of a stream overlap. The reads of a stage are
    exactly the blocks its outputs hold, each under its own object in the
    order of position. When no two blocks of a stream overlap and the limits
    are not reached, nothing is left out and there is a plan. *)
Theorem plans_move_every_block_once values self m ex :
  (∀ m, values m ≡ₚ (map_to_list m).*2) → plannable self m → limits_typed self →
  (∃ plans removed, analyze values self m ex = Some (plans, removed ∪ ex) ∧
     (concat (plan_blocks <$> plans) ≡ₚ blocks_to_move m removed ∨ plans = [] ∧ stuck (blocks_to_move m removed)) ∧
     Forall reads_blocks plans) ∧
  (disjoint_blocks m → loose_limits self m → filter_blocks_to_compact m ≠ ∅ →
   ∃ plans, analyze values self m ex = Some (plans, ex) ∧ plans ≠ [] ∧
     concat (plan_blocks <$> plans) ≡ₚ map_blocks (filter_blocks_to_compact m)).
Proof.
  intros Hv Hm Hlim. split.
  - destruct (analyze_ok values self Hv m ex Hm) as (plans & removed & He & Hp & _ & Hok).
    exists plans, removed. split_and!; [done|naive_solver|]. eapply Forall_impl; [exact Hok|]. by intros p (_ & ? & _).
  - intros Hd Hl Hne. destruct (grouping_succeeds values self m ex Hv Hm Hd Hl Hne) as (bs & Eg & Hf & Hn & Hb & Hs).
    assert (Hsz : Forall (λ b, 0 < sdb_size b <= an_compaction_cache_size self) (flat bs)).
    { apply Forall_forall. intros b Hbs. apply Hm. apply (map_blocks_sub _ _ (filter_blocks_sub m)). by rewrite <-Hf. }
    destruct (generate_plans_ok self bs) as (plans & Ep & Hp & _); [|done..|].
    { destruct (flat bs); [done|]. apply Forall_cons in Hsz as [? _]. lia. }
    exists plans. unfold analyze. rewrite bool_decide_false.
    2: { intros ->. apply Hne. apply map_filter_empty. }
    rewrite bool_decide_false by done. rewrite Eg. cbn [mbind option_bind]. rewrite Ep.
    split_and!; [done| |by rewrite Hp]. intros ->. apply Permutation_nil_l in Hp. by rewrite Hp in Hn.
Qed.

Definition fixture_limits : CompactionAnalyzer := {|
  an_compaction_cache_size := 100; an_stream_split_size := 2 ^ 30;
  an_max_stream_num_in_stream_set := 100; an_max_stream_object_num := 100 |}.

Lemma base_plannable : plannable fixture_limits base_map.
Proof.
  split; [by apply (bool_decide_unpack (keyed base_map)); vm_compute|].
  assert (H : Forall (λ b, 0 < sdb_size b <= 100) (map_blocks base_map)) by (apply (bool_decide_unpack _); by vm_compute).
  intros b Hb. rewrite Forall_forall in H. by apply H.
Qed.
Lemma base_disjoint : disjoint_blocks base_map.
Proof.
  split; [by apply (bool_decide_unpack (NoDup (map_blocks base_map))); vm_compute|]. split.
  - apply Forall_forall. apply (bool_decide_unpack (Forall (λ b, sdb_start_offset b < sdb_end_offset b) (map_blocks base_map))).
    by vm_compute.
  - assert (H : Forall (λ a, Forall (λ b, a = b ∨ sdb_stream_id a ≠ sdb_stream_id b ∨
      (sdb_end_offset a <= sdb_start_offset b ∨ sdb_end_offset b <= sdb_start_offset a)) (map_blocks base_map)) (map_blocks base_map)).
    { apply (bool_decide_unpack _). by vm_compute. }
    intros a b Ha Hb. rewrite Forall_forall in H. specialize (H a Ha). rewrite Forall_forall in H.
    specialize (H b Hb). simpl in H. tauto.
Qed.

Lemma plans_move_every_block_once_witness :
  (∃ plans removed, analyze in_order fixture_limits base_map ∅ = Some (plans, removed ∪ ∅) ∧ Forall reads_blocks plans) ∧
  ∃ plans, analyze in_order fixture_limits base_map ∅ = Some (plans, ∅) ∧ plans ≠ [] ∧
    concat (plan_blocks <$> plans) ≡ₚ map_blocks (filter_blocks_to_compact base_map).
Proof.
  assert (Hlim : limits_typed fixture_limits) by (split; cbn; lia).
  destruct (plans_move_every_block_once in_order fixture_limits base_map ∅ (λ _, reflexivity _) base_plannable Hlim)
    as [(plans & removed & He & _ & Hr) H]. split; [by exists plans, removed|]. apply (H base_disjoint).
  - split; vm_compute; congruence.
  - by apply (bool_decide_unpack (filter_blocks_to_compact base_map ≠ ∅)); vm_compute.
Defined.

(** C33: for blocks that are not empty and not larger than the compaction
    cache, no stage of a plan moves more bytes than the cache holds. *)
Theorem stages_fit_the_cache values self m ex :
  (∀ m, values m ≡ₚ (map_to_list m).*2) → plannable self m →
  ∃ plans ex', analyze values self m ex = Some (plans, ex') ∧
    ∀ p, p ∈ plans →
      foldr (λ c n, co_size c + n) 0 (cp_compacted_objects p) <= an_compaction_cache_size self.
Proof.
  intros Hv Hm. destruct (analyze_ok values self Hv m ex Hm) as (plans & removed & He & _ & _ & Hok).
  eexists _, _. split; [done|]. intros p Hp. rewrite Forall_forall in Hok. destruct (Hok p Hp) as [Hs _].
  enough (foldr (λ c n, co_size c + n) 0 (cp_compacted_objects p) = sum_sizes (plan_blocks p)) by lia.
  unfold plan_blocks. clear. induction (cp_compacted_objects p) as [|c l IH]; [done|].
  cbn [foldr fmap list_fmap concat]. rewrite sum_sizes_app, IH. done.
Qed.

Lemma stages_fit_the_cache_witness :
  ∃ plans ex', analyze in_order fixture_limits base_map ∅ = Some (plans, ex') ∧
    ∀ p, p ∈ plans → foldr (λ c n, co_size c + n) 0 (cp_compacted_objects p) <= 100.
Proof. exact (stages_fit_the_cache in_order fixture_limits base_map ∅ (λ m, reflexivity _) base_plannable). Defined.

(** C32: for blocks that are not empty and not larger than the compaction
    cache, every object a plan writes has the shape of its type. A stage has
    stream objects and then at most one stream set object; a stream object
    is one gapless run of offsets of one stream; in a stream set object the
    streams ascend and the blocks of each stream are one gapless run. *)
Theorem planned_objects_are_runs values self m ex :
  (∀ m, values m ≡ₚ (map_to_list m).*2) → plannable self m →
  ∃ plans ex', analyze values self m ex = Some (plans, ex') ∧
    ∀ p, p ∈ plans → ∃ splits sets, cp_compacted_objects p = splits ++ sets ∧ (length sets <= 1)%nat ∧
      (∀ c, c ∈ splits → co_type c = Split ∧ co_blocks c ≠ [] ∧ Sorted run (co_blocks c)) ∧
      (∀ c, c ∈ sets → co_type c = Compact ∧ co_blocks c ≠ [] ∧
         StronglySorted (λ a b, sdb_stream_id a <= sdb_stream_id b) (co_blocks c) ∧
         ∀ s, Sorted run (filter (λ b, sdb_stream_id b = s) (co_blocks c))).
Proof.
  intros Hv Hm. destruct (analyze_ok values self Hv m ex Hm) as (plans & removed & He & _ & _ & Hok).
  eexists _, _. split; [done|]. intros p Hp. rewrite Forall_forall in Hok.
  destruct (Hok p Hp) as (_ & _ & splits & sets & Ec & Hsp & Hse & Hl). rewrite Forall_forall in Hsp, Hse.
  exists splits, sets. split_and!; [done|done| |].
  - intros c Hc. apply (Hsp c Hc).
  - intros c Hc. destruct (Hse c Hc) as (Ht & Hne & Hn). split_and!; [done..|by apply next_streams|].
    intros s. by apply next_runs.
Qed.

Lemma planned_objects_are_runs_witness :
  ∃ plans ex', analyze in_order fixture_limits base_map ∅ = Some (plans, ex') ∧
    ∀ p, p ∈ plans → ∃ splits sets, cp_compacted_objects p = splits ++ sets ∧ (length sets <= 1)%nat ∧
      (∀ c, c ∈ splits → co_type c = Split ∧ co_blocks c ≠ [] ∧ Sorted run (co_blocks c)) ∧
      (∀ c, c ∈ sets → co_type c = Compact ∧ co_blocks c ≠ [] ∧
         StronglySorted (λ a b, sdb_stream_id a <= sdb_stream_id b) (co_blocks c) ∧
         ∀ s, Sorted run (filter (λ b, sdb_stream_id b = s) (co_blocks c))).
Proof. exact (planned_objects_are_runs in_order fixture_limits base_map ∅ (λ m, reflexivity _) base_plannable). Defined.
