(* ===== verification/CompactExec.v ===== *)
(** * Running compaction plans

    [s3stream-core/src/compact/executor.rs] and [compact/mod.rs]: reading the
    data blocks of the source objects in batches, writing them verbatim into
    new objects with a fresh index, and the rounds of the
    [CompactionManager] that plan, rewrite, check and commit. The theorems
    say that a rewritten object serves the blocks byte for byte under the
    offsets they had, and that a result that passes the check covers every
    live offset of the objects it replaces. *)

From Stdlib Require Import ZArith Lia.
From Stdlib Require Import Strings.Byte.
From stdpp Require Import base numbers list sorting gmap strings.
From S2P Require Import Prelude StreamTypes RecordCodec ObjectIndex ObjectStore ObjectIO Composite MetaState Upload Compact.

Open Scope Z_scope.
Open Scope rust_scope.

Definition S3_OBJECT_TTL_MINUTES : Z := 24 * 60.
Definition S3_OBJECT_MAX_READ_BATCH : Z := 16 * 1024 * 1024.
Definition DATA_BLOCK_GROUP_SIZE_THRESHOLD : Z := 1024 * 1024.

Record FetchedBlock := { fb_block : StreamDataBlock; fb_data : list byte }.

Definition sdb_end_position (b : StreamDataBlock) : Z := bi_end_position (sdb_index b).

(** ** Reading source objects

    The throttle only delays a read. *)
Section BlockReader.
Context {S W : Type} `{ObjectStorage S W}.

Definition parse_data_block_index (s : S) (metadata : S3ObjectMetadata) :
    result (list StreamDataBlock) EngineError :=
  let? info := map_err EngineObject (basic_object_info s (reader_new metadata)).2 in
  Ok ((λ index, {| sdb_object_id := om_object_id metadata; sdb_index := index |}) <$> index_block info).

Definition dbr_range_read (s : S) (metadata : S3ObjectMetadata) (start en : Z) :
    result (list byte) EngineError :=
  map_err EngineObject
    (range_read s {| ro_throttle := Compaction; ro_bucket_id := None |} (om_key metadata) start (Some en)).

(** [data.slice(cursor..cursor + size)] for each block; a slice past the end panics. *)
Fixpoint slice_blocks (blocks : list StreamDataBlock) (data : list byte) (cursor : nat) :
    result (list FetchedBlock) EngineError :=
  match blocks with
  | [] => Ok []
  | block :: blocks =>
      let size := Z.to_nat (sdb_size block) in
      if (length data <? cursor + size)%nat then Err EnginePanic
      else
        let? rest := slice_blocks blocks data (cursor + size) in
        Ok ({| fb_block := block; fb_data := slice data cursor size |} :: rest)
  end.

Definition read_run (s : S) (metadata : S3ObjectMetadata) (blocks : list StreamDataBlock) :
    result (list FetchedBlock) EngineError :=
  match head blocks, last blocks with
  | Some first, Some final =>
      let? data := dbr_range_read s metadata (sdb_start_position first) (sdb_end_position final) in
      slice_blocks blocks data 0
  | _, _ => Err EnginePanic
  end.

(** The chunks of a block over the batch size; a chunk is not empty, so the
    bytes left are enough fuel. *)
Fixpoint read_chunks (fuel : nat) (s : S) (metadata : S3ObjectMetadata)
    (max_read_batch_size position block_end : Z) : result (list byte) EngineError :=
  match fuel with
  | O => Ok []
  | Datatypes.S fuel =>
      if position <? block_end then
        let en := Z.min block_end (position + max_read_batch_size) in
        let? chunk := dbr_range_read s metadata position en in
        let? rest := read_chunks fuel s metadata max_read_batch_size en block_end in
        Ok (chunk ++ rest)
      else Ok []
  end.

Definition read_oversized (s : S) (metadata : S3ObjectMetadata) (max_read_batch_size : Z)
    (block : StreamDataBlock) : result FetchedBlock EngineError :=
  let position := sdb_start_position block in
  let block_end := sdb_end_position block in
  let? data := read_chunks (Z.to_nat (block_end - position)) s metadata max_read_batch_size position block_end in
  Ok {| fb_block := block; fb_data := data |}.

(** The loop of [read_continuous]: [pending] is [blocks[start..i]] and
    [current] its size. A turn that reads [pending] comes back to the same
    block with nothing pending. *)
Fixpoint continuous_loop (s : S) (metadata : S3ObjectMetadata) (max_read_batch_size : Z)
    (blocks pending : list StreamDataBlock) (current : Z) : result (list FetchedBlock) EngineError :=
  let over size := (0 <? max_read_batch_size) && (max_read_batch_size <=? size) in
  match blocks with
  | [] => match pending with [] => Ok [] | _ => read_run s metadata pending end
  | block :: blocks =>
      let alone out :=
        let? one := read_oversized s metadata max_read_batch_size block in
        let? rest := continuous_loop s metadata max_read_batch_size blocks [] 0 in
        Ok (out ++ one :: rest) in
      if over (current + sdb_size block) then
        match pending with
        | [] => alone []
        | _ =>
            let? out := read_run s metadata pending in
            if over (sdb_size block) then alone out
            else
              let? rest := continuous_loop s metadata max_read_batch_size blocks [block] (sdb_size block) in
              Ok (out ++ rest)
        end
      else continuous_loop s metadata max_read_batch_size blocks (pending ++ [block]) (current + sdb_size block)
  end.

Definition read_continuous (s : S) (metadata : S3ObjectMetadata) (blocks : list StreamDataBlock)
    (max_read_batch_size : Z) : result (list FetchedBlock) EngineError :=
  continuous_loop s metadata max_read_batch_size blocks [] 0.

(** The loop of [read_blocks]: [pending] is [blocks[start..end]]. *)
Fixpoint blocks_loop (s : S) (metadata : S3ObjectMetadata) (max_read_batch_size : Z)
    (blocks pending : list StreamDataBlock) (offset : option Z) : result (list FetchedBlock) EngineError :=
  match blocks with
  | [] =>
      match pending with
      | [] => Ok []
      | _ => read_continuous s metadata pending max_read_batch_size
      end
  | block :: blocks =>
      let offset' := Some (sdb_end_position block) in
      if match offset with Some expected => negb (sdb_start_position block =? expected) | None => false end then
        let? out := read_continuous s metadata pending max_read_batch_size in
        let? rest := blocks_loop s metadata max_read_batch_size blocks [block] offset' in
        Ok (out ++ rest)
      else blocks_loop s metadata max_read_batch_size blocks (pending ++ [block]) offset'
  end.

Definition read_blocks (s : S) (metadata : S3ObjectMetadata) (blocks : list StreamDataBlock)
    (max_read_batch_size : Z) : result (list FetchedBlock) EngineError :=
  blocks_loop s metadata max_read_batch_size blocks [] None.
End BlockReader.

(** ** Index entries and stream ranges of groups of blocks *)
Definition group_size (group : list StreamDataBlock) : Z := sum_sizes group.
Definition group_record_count (group : list StreamDataBlock) : Z :=
  foldr (λ b n, bi_record_count (sdb_index b) + n) 0 group.

Fixpoint indices_from (groups : list (list StreamDataBlock)) (position : Z) : list DataBlockIndex :=
  match groups with
  | [] => []
  | group :: groups =>
      match head group, last group with
      | Some first, Some final =>
          {| bi_block_id := -1; bi_stream_id := sdb_stream_id first; bi_start_offset := sdb_start_offset first;
             bi_end_offset_delta := wrap_u32 (sdb_end_offset final - sdb_start_offset first);
             bi_record_count := wrap_u32 (group_record_count group);
             bi_start_position := position; bi_size := wrap_u32 (group_size group) |}
          :: indices_from groups (position + group_size group)
      | _, _ => indices_from groups position
      end
  end.
Definition build_data_block_indices_from_group (groups : list (list StreamDataBlock)) : list DataBlockIndex :=
  indices_from groups 0.

Definition build_object_stream_ranges_from_group (groups : list (list StreamDataBlock)) : list ObjectStreamRange :=
  omap (λ g,
    match head g, last g with
    | Some first, Some final =>
        Some {| osr_stream_id := sdb_stream_id first; osr_epoch := u64_max;
                osr_start_offset := sdb_start_offset first; osr_end_offset := sdb_end_offset final;
                osr_size := group_size g |}
    | _, _ => None
    end) groups.

(** ** Writing a new object *)
Record DataBlockWriter (W : Type) := {
  dw_object_id : Z;
  dw_part_size_threshold : Z;
  dw_writer : W;
  dw_waiting : list byte;
  dw_completed_blocks : list StreamDataBlock;
  dw_next_data_block_position : Z;
}.
#[global] Arguments Build_DataBlockWriter {W}.
#[global] Arguments dw_object_id {W}.
#[global] Arguments dw_part_size_threshold {W}.
#[global] Arguments dw_writer {W}.
#[global] Arguments dw_waiting {W}.
#[global] Arguments dw_completed_blocks {W}.
#[global] Arguments dw_next_data_block_position {W}.

(** Fetched bytes by object and position. *)
Notation BlockData := (gmap (Z * Z) (list byte)).

Section BlockWriter.
Context {S W : Type} `{ObjectStorage S W}.

Definition dw_open (s : S) (object_id part_size_threshold : Z) : S * result (DataBlockWriter W) EngineError :=
  let '(s, r) := os_writer s {| wo_throttle := Compaction; wo_bucket_id := None |} (gen_object_key object_id) in
  (s, let? writer := map_err EngineObject r in
      Ok {| dw_object_id := object_id; dw_part_size_threshold := part_size_threshold; dw_writer := writer;
            dw_waiting := []; dw_completed_blocks := []; dw_next_data_block_position := 0 |}).

Definition dw_write (s : S) (w : DataBlockWriter W) (fetched : FetchedBlock) :
    S * DataBlockWriter W * result unit EngineError :=
  let waiting := dw_waiting w ++ fb_data fetched in
  let moved writer waiting := {|
    dw_object_id := dw_object_id w; dw_part_size_threshold := dw_part_size_threshold w; dw_writer := writer;
    dw_waiting := waiting; dw_completed_blocks := dw_completed_blocks w ++ [fb_block fetched];
    dw_next_data_block_position := dw_next_data_block_position w + sdb_size (fb_block fetched) |} in
  if dw_part_size_threshold w <=? Z.of_nat (length waiting) then
    let '(s, writer, r) := mw_write s (dw_writer w) waiting in
    (s, moved writer [], map_err EngineObject r)
  else (s, moved (dw_writer w) waiting, Ok tt).

(** The size and the bucket of the finished object. *)
Definition dw_close (s : S) (w : DataBlockWriter W) : S * result (Z * Z) EngineError :=
  let index_position := dw_next_data_block_position w in
  let groups := group_stream_data_blocks limit_test (dw_completed_blocks w)
                  (limit_new DATA_BLOCK_GROUP_SIZE_THRESHOLD) in
  let indices := build_data_block_indices_from_group groups in
  let index_size := Z.of_nat (length indices * BLOCK_INDEX_SIZE) in
  let tail := dw_waiting w ++ index_encode indices ++ put_u64 index_position ++ put_u32 index_size ++
              replicate 28 x00 ++ put_u64 FOOTER_MAGIC in
  let '(s, writer, r) := mw_write s (dw_writer w) tail in
  match r with
  | Err e => (s, Err (EngineObject e))
  | Ok _ =>
      let '(s, writer, r) := mw_finish s writer in
      (s, let? bucket_id := map_err EngineObject r in
          Ok (index_position + index_size + Z.of_nat FOOTER_SIZE, bucket_id))
  end.

(** The loop that feeds a writer; a block that was not fetched panics. *)
Fixpoint write_blocks (s : S) (w : DataBlockWriter W) (blocks : list StreamDataBlock) (data : BlockData) :
    S * DataBlockWriter W * result unit EngineError :=
  match blocks with
  | [] => (s, w, Ok tt)
  | block :: blocks =>
      match data !! (sdb_object_id block, sdb_start_position block) with
      | None => (s, w, Err EnginePanic)
      | Some bytes =>
          let '(s, w, r) := dw_write s w {| fb_block := block; fb_data := bytes |} in
          match r with
          | Err e => (s, w, Err e)
          | Ok _ => write_blocks s w blocks data
          end
      end
  end.
End BlockWriter.

(** ** The uploader *)
Record CompactionUploader (W : Type) := {
  cu_stream_set_object_id : option Z;
  cu_stream_set_writer : option (DataBlockWriter W);
  cu_bucket_id : Z;
}.
#[global] Arguments Build_CompactionUploader {W}.
#[global] Arguments cu_stream_set_object_id {W}.
#[global] Arguments cu_stream_set_writer {W}.
#[global] Arguments cu_bucket_id {W}.

Definition uploader_new {W} : CompactionUploader W := {|
  cu_stream_set_object_id := None; cu_stream_set_writer := None; cu_bucket_id := 0 |}.

Definition OBJECT_TTL_MS : Z := S3_OBJECT_TTL_MINUTES * 60 * 1000.

Section Uploader.
Context {S W Mg : Type} `{ObjectStorage S W} `{EngineMetadata Mg} (part_size : Z).

Definition write_stream_set_object (s : S) (m : Mg) (u : CompactionUploader W) (compacted : CompactedObject)
    (data : BlockData) : S * Mg * CompactionUploader W * result unit EngineError :=
  if negb (bool_decide (co_type compacted = Compact)) then (s, m, u, Err EnginePanic)
  else if bool_decide (co_blocks compacted = []) then (s, m, u, Ok tt)
  else
    let '(s, m, u, opened) :=
      match cu_stream_set_writer u with
      | Some writer => (s, m, u, Ok writer)
      | None =>
          let '(m, r) := mg_prepare_object m 1 OBJECT_TTL_MS in
          match r with
          | Err e => (s, m, u, Err (EngineMeta e))
          | Ok object_id =>
              let u := {| cu_stream_set_object_id := Some object_id; cu_stream_set_writer := None;
                          cu_bucket_id := cu_bucket_id u |} in
              let '(s, r) := dw_open s object_id part_size in (s, m, u, r)
          end
      end in
    match opened with
    | Err e => (s, m, u, Err e)
    | Ok writer =>
        let '(s, writer, r) := write_blocks s writer (co_blocks compacted) data in
        (s, m, {| cu_stream_set_object_id := cu_stream_set_object_id u; cu_stream_set_writer := Some writer;
                  cu_bucket_id := cu_bucket_id u |}, r)
    end.

(** A new object of the blocks, under a prepared id. *)
Definition write_object_of (s : S) (object_id : Z) (blocks : list StreamDataBlock) (data : BlockData) :
    S * result StreamObject EngineError :=
  let '(s, r) := dw_open s object_id part_size in
  match r with
  | Err e => (s, Err e)
  | Ok writer =>
      let '(s, writer, r) := write_blocks s writer blocks data in
      match r with
      | Err e => (s, Err e)
      | Ok _ =>
          let '(s, r) := dw_close s writer in
          match r, head blocks, last blocks with
          | Err e, _, _ => (s, Err e)
          | Ok (size, bucket_id), Some first, Some final =>
              (s, Ok {| so_object_id := object_id; so_object_size := size; so_stream_id := sdb_stream_id first;
                        so_start_offset := sdb_start_offset first; so_end_offset := sdb_end_offset final;
                        so_attributes := attributes_new bucket_id false false |})
          | _, _, _ => (s, Err EnginePanic)
          end
      end
  end.

Definition write_stream_object (s : S) (m : Mg) (compacted : CompactedObject) (data : BlockData) :
    S * Mg * result (option StreamObject) EngineError :=
  if negb (bool_decide (co_type compacted = Split)) then (s, m, Err EnginePanic)
  else if bool_decide (co_blocks compacted = []) then (s, m, Ok None)
  else
    let '(m, r) := mg_prepare_object m 1 OBJECT_TTL_MS in
    match r with
    | Err e => (s, m, Err (EngineMeta e))
    | Ok object_id =>
        let '(s, r) := write_object_of s object_id (co_blocks compacted) data in
        (s, m, let? so := r in Ok (Some so))
    end.

Definition complete (s : S) (u : CompactionUploader W) : S * CompactionUploader W * result Z EngineError :=
  match cu_stream_set_writer u with
  | None => (s, u, Ok 0)
  | Some writer =>
      let '(s, r) := dw_close s writer in
      match r with
      | Err e => (s, {| cu_stream_set_object_id := cu_stream_set_object_id u; cu_stream_set_writer := None;
                        cu_bucket_id := cu_bucket_id u |}, Err e)
      | Ok (size, bucket_id) =>
          (s, {| cu_stream_set_object_id := cu_stream_set_object_id u; cu_stream_set_writer := None;
                 cu_bucket_id := bucket_id |}, Ok size)
      end
  end.
End Uploader.

(** ** The checks of a round *)
Definition deduplicate_objects_by_id (objects : list S3ObjectMetadata) : list S3ObjectMetadata :=
  reverse (foldl (λ (st : gset Z * list S3ObjectMetadata) o,
    if bool_decide (om_object_id o ∈ st.1) then st else ({[om_object_id o]} ∪ st.1, o :: st.2)) (∅, []) objects).2.

Definition start_offsets (streams : list StreamMetadata) : gmap Z Z :=
  foldl (λ m s, <[sm_stream_id s := sm_start_offset s]> m) ∅ streams.

(** [start_offsets.get(..).is_some_and(|&start| block.end_offset() > start)] *)
Definition is_live (starts : gmap Z Z) (block : StreamDataBlock) : bool :=
  match starts !! sdb_stream_id block with
  | Some start => start <? sdb_end_offset block
  | None => false
  end.

Definition filter_invalid_stream_data_blocks (streams : list StreamMetadata) (block_map : BlockMap) : BlockMap :=
  (λ blocks, filter (λ block, is_live (start_offsets streams) block = true) blocks) <$> block_map.

(** Merging sorted ranges; [out] is newest first. *)
Definition merge_one (out : list (Z * Z)) (r : Z * Z) : list (Z * Z) :=
  match out with
  | (s, last_end) :: out' => if r.1 <=? last_end then (s, Z.max last_end r.2) :: out' else r :: out
  | [] => [r]
  end.
Definition merge_ranges (ranges : list (Z * Z)) : list (Z * Z) := reverse (foldl merge_one [] (merge_sort key_le ranges)).

Definition output_ranges (request : CommitStreamSetObjectRequest) : list (Z * (Z * Z)) :=
  ((λ r, (osr_stream_id r, (osr_start_offset r, osr_end_offset r))) <$> cr_stream_ranges request) ++
  ((λ o, (so_stream_id o, (so_start_offset o, so_end_offset o))) <$> cr_stream_objects request).

Definition is_sanity_check_failed (streams : list StreamMetadata) (block_map : BlockMap)
    (request : CommitStreamSetObjectRequest) : bool :=
  let stream_start := start_offsets streams in
  let by_stream := foldl (push_at fst) ∅ (output_ranges request) in
  let merged := (λ l : list (Z * (Z * Z)), merge_ranges l.*2) <$> by_stream in
  existsb (λ object_id,
    existsb (λ block,
      match stream_start !! sdb_stream_id block with
      | None => false
      | Some start =>
          if sdb_end_offset block <=? start then false
          else
            negb (existsb (λ r : Z * Z, (r.1 <=? sdb_start_offset block) && (sdb_end_offset block <=? r.2))
                    (default [] (merged !! sdb_stream_id block)))
      end) (default [] (block_map !! object_id))) (cr_compacted_object_ids request).

(** ** The manager *)
Record CompactionConfig := {
  cc_compaction_interval_min : Z;
  cc_compaction_cache_size : Z;
  cc_stream_split_size : Z;
  cc_force_split_period_min : Z;
  cc_max_object_num_to_compact : Z;
  cc_max_stream_num_per_stream_set_object : Z;
  cc_max_stream_object_num_per_commit : Z;
  cc_network_bandwidth : Z;
  cc_object_part_size : Z;
}.
Definition config_defaults : CompactionConfig := {|
  cc_compaction_interval_min := 20; cc_compaction_cache_size := 200 * 1024 * 1024;
  cc_stream_split_size := 8 * 1024 * 1024; cc_force_split_period_min := 120; cc_max_object_num_to_compact := 500;
  cc_max_stream_num_per_stream_set_object := 100000; cc_max_stream_object_num_per_commit := 10000;
  cc_network_bandwidth := 100 * 1024 * 1024; cc_object_part_size := 16 * 1024 * 1024 |}.

Definition analyzer_of (config : CompactionConfig) : CompactionAnalyzer := {|
  an_compaction_cache_size := cc_compaction_cache_size config;
  an_stream_split_size := cc_stream_split_size config;
  an_max_stream_num_in_stream_set := cc_max_stream_num_per_stream_set_object config;
  an_max_stream_object_num := cc_max_stream_object_num_per_commit config |}.

Definition MIN_COMPACTION_DELAY_MS : Z := 10000.
Definition interval_ms (config : CompactionConfig) : Z := cc_compaction_interval_min config * 60 * 1000.
(** The delay before the next round of [start]; an error counts as nothing remaining. *)
Definition next_delay_ms (config : CompactionConfig) (outcome : result bool EngineError) (elapsed_ms : Z) : Z :=
  match outcome with
  | Ok true => MIN_COMPACTION_DELAY_MS
  | _ => Z.max MIN_COMPACTION_DELAY_MS (saturating_sub (interval_ms config) elapsed_ms)
  end.

(** The reads of the metadata the manager makes besides [EngineMetadata]. *)
Class CompactionMetadata (Mg : Type) := {
  cm_get_server_objects : Mg → result (list S3ObjectMetadata) StreamError;
  cm_get_streams : Mg → list Z → result (list StreamMetadata) StreamError;
}.

Definition data_of (fetched : list FetchedBlock) (data : BlockData) : BlockData :=
  foldl (λ d f, <[(sdb_object_id (fb_block f), sdb_start_position (fb_block f)) := fb_data f]> d) data fetched.

Definition older_leb (a b : S3ObjectMetadata) : bool := om_data_timestamp_ms b <=? om_data_timestamp_ms a.

(** The groups that fit the cache after [read_size]; the first is always taken. *)
Definition group_span (group : list StreamDataBlock) : Z :=
  match head group, last group with
  | Some first, Some final => wrap_u64 (sdb_end_position final - sdb_start_position first)
  | _, _ => 0
  end.
Fixpoint take_batch (cache_size : Z) (groups : list (list StreamDataBlock)) (empty : bool) (read_size : Z) :
    list (list StreamDataBlock) * list (list StreamDataBlock) :=
  match groups with
  | [] => ([], [])
  | group :: rest =>
      if negb empty && (cache_size <? read_size + group_span group) then ([], groups)
      else let '(batch, others) := take_batch cache_size rest false (read_size + group_span group) in
           (group :: batch, others)
  end.

(** [None]: the round does not return. *)
Section Manager.
Context {S W Mg : Type} `{ObjectStorage S W} `{EngineMetadata Mg, !CompactionMetadata Mg}.
Context (config : CompactionConfig) (values : BlockMap → list (list StreamDataBlock)).
(** What the [k]-th load of the [running] flag in a loop answers. *)
Context (running : nat → bool).

Definition Round (A : Type) : Type := S * Mg → option (S * Mg * result A EngineError).
Definition rd_ret {A} (a : A) : Round A := λ x, Some (x, Ok a).
Definition rd_fail {A} (e : EngineError) : Round A := λ x, Some (x, Err e).
Definition rd_bind {A B} (c : Round A) (k : A → Round B) : Round B := λ x,
  match c x with
  | Some (x, Ok a) => k a x
  | Some (x, Err e) => Some (x, Err e)
  | None => None
  end.
Definition rd_pure {A} (r : result A EngineError) : Round A := λ x, Some (x, r).
Definition on_storage {A} (f : S → S * result A EngineError) : Round A := λ '(s, m),
  let '(s, r) := f s in Some ((s, m), r).
Definition reading {A} (f : S → result A EngineError) : Round A := λ '(s, m), Some ((s, m), f s).
Definition on_metadata {A} (f : Mg → Mg * result A StreamError) : Round A := λ '(s, m),
  let '(m, r) := f m in Some ((s, m), map_err EngineMeta r).
Definition asking {A} (f : Mg → result A StreamError) : Round A := λ '(s, m), Some ((s, m), map_err EngineMeta (f m)).
Definition on_both {A} (f : S → Mg → S * Mg * result A EngineError) : Round A := λ '(s, m),
  let '(s, m, r) := f s m in Some ((s, m), r).
Notation "'let*' x := c 'in' k" := (rd_bind c (λ x, k)) (at level 200, x pattern, c at level 100, k at level 200).

Fixpoint for_each {A B} (l : list A) (acc : B) (body : A → B → Round B) : Round B :=
  match l with
  | [] => rd_ret acc
  | x :: l => let* acc := body x acc in for_each l acc body
  end.

Definition max_batch : Z := Z.min S3_OBJECT_MAX_READ_BATCH (cc_network_bandwidth config).

(** An object whose index cannot be read is skipped. *)
Definition build_stream_data_block_map (objects : list S3ObjectMetadata) (s : S) : BlockMap :=
  foldl (λ m metadata,
    match parse_data_block_index s metadata with
    | Ok blocks => <[om_object_id metadata := blocks]> m
    | Err _ => m
    end) ∅ objects.

(** One batch of [group_and_split]: an object per group, ids from [object_id]. *)
Definition split_batch (metadata : S3ObjectMetadata) (batch : list (list StreamDataBlock)) :
    Round (list StreamObject) :=
  let* object_id := on_metadata (λ m, mg_prepare_object m (Z.of_nat (length batch)) OBJECT_TTL_MS) in
  let* fetched := reading (λ s, read_blocks s metadata (concat batch) max_batch) in
  let data := data_of fetched ∅ in
  let* out := for_each batch (0, []) (λ group '(i, out),
    let* so := on_storage (λ s, write_object_of (cc_object_part_size config) s (wrap_u64 (object_id + i)) group data) in
    rd_ret (i + 1, out ++ [so])) in
  rd_ret out.2.

Fixpoint split_batches (fuel : nat) (metadata : S3ObjectMetadata) (groups : list (list StreamDataBlock)) :
    Round (list StreamObject) :=
  match fuel, groups with
  | _, [] => rd_ret []
  | O, _ => λ _, None
  | Datatypes.S fuel, _ =>
      let '(batch, rest) := take_batch (cc_compaction_cache_size config) groups true 0 in
      let* out := split_batch metadata batch in
      let* more := split_batches fuel metadata rest in
      rd_ret (out ++ more)
  end.

Definition group_and_split (metadata : S3ObjectMetadata) (blocks : list StreamDataBlock) :
    Round (list StreamObject) :=
  let groups := group_stream_data_blocks offset_test blocks offset_new in
  split_batches (length groups) metadata groups.

Definition request_new (compacted_object_ids : list Z) : CommitStreamSetObjectRequest := {|
  cr_object_id := NOOP_OBJECT_ID; cr_object_size := 0; cr_attributes := 0; cr_stream_ranges := [];
  cr_stream_objects := []; cr_compacted_object_ids := compacted_object_ids |}.

Fixpoint force_split_loop (k : nat) (streams : list StreamMetadata) (objects : list S3ObjectMetadata)
    (block_map : BlockMap) : Round unit :=
  match objects with
  | [] => rd_ret tt
  | metadata :: objects =>
      if negb (running k) then rd_ret tt
      else
        let continue := force_split_loop (Datatypes.S k) streams objects block_map in
        match block_map !! om_object_id metadata with
        | None => continue
        | Some blocks =>
            let* stream_objects :=
              match blocks with [] => rd_ret [] | _ => group_and_split metadata blocks end in
            let request := {|
              cr_object_id := NOOP_OBJECT_ID; cr_object_size := 0; cr_attributes := 0; cr_stream_ranges := [];
              cr_stream_objects := stream_objects; cr_compacted_object_ids := [om_object_id metadata] |} in
            if is_sanity_check_failed streams block_map request then continue
            else
              let* _ := on_metadata (λ m, mg_commit_stream_set_object m request) in
              continue
        end
  end.
Definition force_split_objects (streams : list StreamMetadata) (objects : list S3ObjectMetadata)
    (block_map : BlockMap) : Round unit := force_split_loop 0 streams objects block_map.

(** What a round has written so far. *)
Record Written := {
  wr_uploader : CompactionUploader W;
  wr_stream_objects : list StreamObject;
  wr_stream_set_blocks : list StreamDataBlock;
}.

Definition stage_reads (metadata_by_id : gmap Z S3ObjectMetadata) (plan : CompactionPlan) : Round BlockData :=
  for_each (ord_list (cp_stream_data_blocks_map plan)) ∅ (λ '(object_id, blocks) data,
    match metadata_by_id !! object_id with
    | None => rd_fail EnginePanic
    | Some metadata =>
        let* fetched := reading (λ s, read_blocks s metadata blocks max_batch) in
        rd_ret (data_of fetched data)
    end).

Definition stage_write (data : BlockData) (compacted : CompactedObject) (w : Written) : Round Written :=
  match co_type compacted with
  | Compact => λ '(s, m),
      let '(s, m, u, r) :=
        write_stream_set_object (cc_object_part_size config) s m (wr_uploader w) compacted data in
      Some ((s, m), let? _ := r in
        Ok {| wr_uploader := u; wr_stream_objects := wr_stream_objects w;
              wr_stream_set_blocks := wr_stream_set_blocks w ++ co_blocks compacted |})
  | Split =>
      let* so := on_both (λ s m, write_stream_object (cc_object_part_size config) s m compacted data) in
      rd_ret {| wr_uploader := wr_uploader w;
                wr_stream_objects := wr_stream_objects w ++ match so with Some o => [o] | None => [] end;
                wr_stream_set_blocks := wr_stream_set_blocks w |}
  end.

(** [None] when the manager was shut down between stages. *)
Fixpoint plan_loop (k : nat) (metadata_by_id : gmap Z S3ObjectMetadata) (plans : list CompactionPlan)
    (w : Written) : Round (option Written) :=
  match plans with
  | [] => rd_ret (Some w)
  | plan :: plans =>
      if negb (running k) then rd_ret None
      else
        let* data := stage_reads metadata_by_id plan in
        let* w := for_each (cp_compacted_objects plan) w (stage_write data) in
        plan_loop (Datatypes.S k) metadata_by_id plans w
  end.

(** Running the plans: the request without the compacted ids, [None] when stopped. *)
Definition run_plans (objects : list S3ObjectMetadata) (plans : list CompactionPlan) :
    Round (option CommitStreamSetObjectRequest) :=
  match plans with
  | [] => rd_ret (Some (request_new []))
  | _ =>
      let metadata_by_id := foldl (λ m o, <[om_object_id o := o]> m) ∅ objects in
      let* done := plan_loop 0 metadata_by_id plans
        {| wr_uploader := uploader_new; wr_stream_objects := []; wr_stream_set_blocks := [] |} in
      match done with
      | None => rd_ret None
      | Some w =>
          let groups := group_stream_data_blocks offset_test (wr_stream_set_blocks w) offset_new in
          let* closed := on_storage (λ s,
            let '(s, u, r) := complete s (wr_uploader w) in (s, let? size := r in Ok (size, u))) in
          let '(size, u) := closed in
          rd_ret (Some {|
            cr_object_id := default NOOP_OBJECT_ID (cu_stream_set_object_id u); cr_object_size := size;
            cr_attributes := attributes_new (cu_bucket_id u) false false;
            cr_stream_ranges := build_object_stream_ranges_from_group groups;
            cr_stream_objects := wr_stream_objects w; cr_compacted_object_ids := [] |})
      end
  end.

Definition set_compacted (request : CommitStreamSetObjectRequest) (ids : list Z) : CommitStreamSetObjectRequest := {|
  cr_object_id := cr_object_id request; cr_object_size := cr_object_size request;
  cr_attributes := cr_attributes request; cr_stream_ranges := cr_stream_ranges request;
  cr_stream_objects := cr_stream_objects request; cr_compacted_object_ids := ids |}.

(** The objects of the plans and those without a live block, in order. *)
Definition compacted_ids (plans : list CompactionPlan) (to_compact : BlockMap) : list Z :=
  ord_elems (list_to_set (sdb_object_id <$> concat ((λ p, concat (map_to_list (cp_stream_data_blocks_map p)).*2) <$> plans)) ∪
             dom (filter (λ p : Z * list StreamDataBlock, p.2 = []) to_compact)).

Definition manager_compact_objects (streams : list StreamMetadata) (objects : list S3ObjectMetadata)
    (block_map : BlockMap) : Round bool :=
  match objects with
  | [] => rd_ret false
  | _ =>
      let sorted := stable_sort older_leb objects in
      let limit := Z.to_nat (cc_max_object_num_to_compact config) in
      let has_remaining := (limit <? length objects)%nat in
      let objects := if has_remaining then take limit sorted else sorted in
      let to_compact : BlockMap :=
        foldl (λ m o, match block_map !! om_object_id o with
                      | Some blocks => <[om_object_id o := blocks]> m
                      | None => m
                      end) ∅ objects in
      match analyze values (analyzer_of config) to_compact ∅ with
      | None => λ _, None
      | Some (plans, excluded) =>
          let objects := filter (λ o, om_object_id o ∉ excluded) objects in
          let* outcome := run_plans objects plans in
          match outcome with
          | None => rd_ret false
          | Some request =>
              let ids := compacted_ids plans to_compact in
              if bool_decide (ids = []) then rd_ret has_remaining
              else
                let request := set_compacted request ids in
                if is_sanity_check_failed streams block_map request then rd_ret has_remaining
                else
                  let* _ := on_metadata (λ m, mg_commit_stream_set_object m request) in
                  rd_ret has_remaining
          end
      end
  end.

Definition stream_ids_of (block_map : BlockMap) : list Z :=
  foldl (λ ids b, if bool_decide (sdb_stream_id b ∈ ids) then ids else ids ++ [sdb_stream_id b]) []
    (concat (values block_map)).

(** One round at time [now_ms]. *)
Definition compact_once (now_ms : Z) : Round bool :=
  let* objects := asking cm_get_server_objects in
  if bool_decide (objects = []) then rd_ret false
  else
    let objects := deduplicate_objects_by_id objects in
    let* block_map := reading (λ s, Ok (build_stream_data_block_map objects s)) in
    if existsb (λ b, cc_compaction_cache_size config <? sdb_size b) (concat (values block_map))
    then rd_fail (EngineUnexpected "block size exceeds compaction cache size")
    else
      let* streams := asking (λ m, cm_get_streams m (stream_ids_of block_map)) in
      let block_map := filter_invalid_stream_data_blocks streams block_map in
      let force_split_before := Z.max (- two63) (now_ms - cc_force_split_period_min config * 60 * 1000) in
      let old (o : S3ObjectMetadata) := om_data_timestamp_ms o <=? force_split_before in
      let* _ := match filter (λ o, old o = true) objects with
                | [] => rd_ret tt
                | to_force_split => force_split_objects streams to_force_split block_map
                end in
      manager_compact_objects streams (filter (λ o, old o = false) objects) block_map.

Definition force_split_all : Round unit :=
  let* objects := asking cm_get_server_objects in
  if bool_decide (objects = []) then rd_ret tt
  else
    let objects := deduplicate_objects_by_id objects in
    let* block_map := reading (λ s, Ok (build_stream_data_block_map objects s)) in
    let* streams := asking (λ m, cm_get_streams m (ord_elems (list_to_set (stream_ids_of block_map)))) in
    force_split_objects streams objects (filter_invalid_stream_data_blocks streams block_map).
End Manager.
#[global] Arguments Written W : clear implicits.
#[global] Arguments Build_Written {W}.
#[global] Arguments wr_uploader {W}.
#[global] Arguments wr_stream_objects {W}.
#[global] Arguments wr_stream_set_blocks {W}.

(** ** Batched reads are block reads *)
Definition in_object (data : list byte) (b : StreamDataBlock) : Prop :=
  0 <= sdb_start_position b ∧ 0 <= sdb_size b ∧ sdb_start_position b + sdb_size b <= Z.of_nat (length data).

Definition block_data (data : list byte) (b : StreamDataBlock) : list byte :=
  byte_range data (sdb_start_position b) (sdb_start_position b + sdb_size b).
Definition fetched_from (data : list byte) (b : StreamDataBlock) : FetchedBlock := {|
  fb_block := b; fb_data := block_data data b |}.

(** The blocks follow each other from position [p]. *)
Fixpoint adjacent (p : Z) (blocks : list StreamDataBlock) : Prop :=
  match blocks with
  | [] => True
  | b :: blocks => sdb_start_position b = p ∧ adjacent (p + sdb_size b) blocks
  end.

Lemma adjacent_app p l1 l2 : adjacent p (l1 ++ l2) ↔ adjacent p l1 ∧ adjacent (p + sum_sizes l1) l2.
Proof.
  revert p. induction l1 as [|b l1 IH]; intros p; simpl.
  - rewrite Z.add_0_r. tauto.
  - rewrite IH, Z.add_assoc. tauto.
Qed.

Lemma adjacent_last p l b : adjacent p l → last l = Some b → sdb_start_position b + sdb_size b = p + sum_sizes l.
Proof.
  destruct l as [|x l] using rev_ind; [done|]. rewrite last_snoc, adjacent_app, sum_sizes_app. intros [_ [Hx _]] [= ->].
  simpl. lia.
Qed.

Lemma byte_range_app data a b c :
  0 <= a <= b → b <= c → byte_range data a c = byte_range data a b ++ byte_range data b c.
Proof.
  intros H1 H2. unfold byte_range.
  replace (Z.to_nat (c - a)) with (Z.to_nat (b - a) + Z.to_nat (c - b))%nat by lia.
  rewrite slice_add. do 2 f_equal. lia.
Qed.

Lemma length_byte_range data a b :
  0 <= a <= b → b <= Z.of_nat (length data) → length (byte_range data a b) = Z.to_nat (b - a).
Proof. intros H1 H2. unfold byte_range. apply slice_length. lia. Qed.

Lemma slice_byte_range data a e cursor n :
  0 <= a → a + Z.of_nat (cursor + n) <= e →
  slice (byte_range data a e) cursor n = byte_range data (a + Z.of_nat cursor) (a + Z.of_nat (cursor + n)).
Proof.
  intros H1 H2. unfold byte_range, slice.
  rewrite skipn_firstn_comm, take_take, drop_drop. f_equal; [lia|]. f_equal. lia.
Qed.

Section ReadProofs.
Context {S W : Type} `{ObjectStorageContract S W}.
Context (s : S) (md : S3ObjectMetadata) (data : list byte).
Context (Hav : available s) (Hobj : object s (om_key md) = Some data) (Hlen : Z.of_nat (length data) < two64).

Lemma end_position_in b : in_object data b → sdb_end_position b = sdb_start_position b + sdb_size b.
Proof using Hlen. intros (? & ? & ?). unfold sdb_end_position, bi_end_position. apply wrap_u64_id. unfold sdb_start_position, sdb_size in *. int_lia. Qed.

Lemma dbr_range_read_ok a b :
  0 <= a <= b → b <= Z.of_nat (length data) → dbr_range_read s md a b = Ok (byte_range data a b).
Proof using Hav Hobj. intros. unfold dbr_range_read. by rewrite (range_read_present _ _ _ _ _ data). Qed.

Lemma slice_blocks_ok blocks a e cursor :
  0 <= a → e <= Z.of_nat (length data) → Forall (in_object data) blocks → adjacent (a + Z.of_nat cursor) blocks →
  a + Z.of_nat cursor + sum_sizes blocks <= e →
  slice_blocks blocks (byte_range data a e) cursor = Ok (fetched_from data <$> blocks).
Proof.
  intros Ha He Hin. revert cursor. induction Hin as [|b blocks Hb Hin IH]; intros cursor Hadj Hs; [done|]. destruct Hadj as [Hp Hadj].
  simpl in Hs. destruct Hb as (? & ? & ?). cbn [slice_blocks].
  assert (0 <= sum_sizes blocks).
  { clear -Hin. induction Hin as [|x l (? & ? & ?) Hin IH]; simpl; lia. }
  rewrite length_byte_range by lia. rewrite (proj2 (Nat.ltb_ge _ _)) by lia.
  rewrite IH; [|rewrite Nat2Z.inj_add, Z2Nat.id, Z.add_assoc by lia; done|lia]. cbn [rbind].
  rewrite slice_byte_range by lia. rewrite fmap_cons. do 2 f_equal. unfold fetched_from, block_data.
  rewrite Hp. do 2 f_equal. lia.
Qed.

Lemma read_run_ok p blocks :
  blocks ≠ [] → Forall (in_object data) blocks → adjacent p blocks →
  read_run s md blocks = Ok (fetched_from data <$> blocks).
Proof using Hav Hobj Hlen.
  intros Hne Hin Hadj. unfold read_run. destruct blocks as [|b l] eqn:E; [done|]. rewrite <-E in *.
  assert (head blocks = Some b) as -> by (by rewrite E). destruct (last blocks) as [z|] eqn:Ez; [|by apply last_None in Ez].
  assert (Hz : in_object data z) by (rewrite Forall_forall in Hin; by apply Hin, last_Some_elem_of).
  assert (Hb : in_object data b) by (rewrite E in Hin; by apply Forall_cons in Hin as [? _]).
  pose proof (adjacent_last _ _ _ Hadj Ez) as Hend. rewrite (end_position_in z Hz).
  assert (sdb_start_position b = p) as Hp by (rewrite E in Hadj; by destruct Hadj).
  assert (0 <= sum_sizes blocks).
  { clear -Hin. induction Hin as [|x l (? & ? & ?) Hin IH]; simpl; lia. }
  destruct Hz as (? & ? & ?), Hb as (? & ? & ?).
  rewrite dbr_range_read_ok by lia. cbn [rbind]. apply slice_blocks_ok; [lia|lia|done| |lia].
  by rewrite Z.add_0_r, Hp.
Qed.

Lemma read_chunks_ok max fuel a b :
  0 < max → 0 <= a <= b → b <= Z.of_nat (length data) → b - a <= Z.of_nat fuel →
  read_chunks fuel s md max a b = Ok (byte_range data a b).
Proof using Hav Hobj.
  intros Hm. revert a. induction fuel as [|fuel IH]; intros a Ha Hb Hf; cbn [read_chunks].
  { replace b with a by lia. unfold byte_range, slice. replace (a - a) with 0 by lia. done. }
  destruct (Z.ltb_spec a b) as [Hlt|Hge].
  - rewrite dbr_range_read_ok by lia. cbn [rbind]. rewrite IH by lia. cbn [rbind].
    by rewrite <-byte_range_app by lia.
  - replace b with a by lia. unfold byte_range, slice. by replace (a - a) with 0 by lia.
Qed.

Lemma read_oversized_ok max b :
  0 < max → in_object data b → read_oversized s md max b = Ok (fetched_from data b).
Proof using Hav Hobj Hlen.
  intros Hm Hb. unfold read_oversized. rewrite (end_position_in b Hb). destruct Hb as (? & ? & ?).
  by rewrite read_chunks_ok by lia.
Qed.

Lemma continuous_loop_ok max blocks : ∀ p pending current,
  Forall (in_object data) (pending ++ blocks) → adjacent p (pending ++ blocks) →
  continuous_loop s md max blocks pending current = Ok (fetched_from data <$> pending ++ blocks).
Proof using Hav Hobj Hlen.
  induction blocks as [|b blocks IH]; intros p pending current Hin Hadj; cbn [continuous_loop].
  { rewrite app_nil_r in *. destruct pending as [|x l]; [done|]. by apply (read_run_ok p). }
  assert (Hb : in_object data b) by (apply Forall_app in Hin as [_ Hin]; by apply Forall_cons in Hin as [? _]).
  pose proof Hin as [Hpen Hrest]%Forall_app. pose proof Hadj as [Hap Hab]%adjacent_app.
  apply Forall_cons in Hrest as [_ Hrest]. pose proof Hab as [_ Hab'].
  assert (Hr0 : ∀ c, continuous_loop s md max blocks [] c = Ok (fetched_from data <$> blocks)) by (intros; by eapply IH).
  assert (Hr1 : ∀ c, continuous_loop s md max blocks [b] c = Ok (fetched_from data <$> b :: blocks)).
  { intros c. eapply (IH _ [b]); [by constructor|exact Hab]. }
  destruct (_ && _) eqn:Eo.
  - assert (Hm : 0 < max) by lia. rewrite (read_oversized_ok max b Hm Hb), Hr0. cbn [rbind].
    destruct pending as [|x l]; [done|]. rewrite (read_run_ok p) by done. cbn [rbind]. rewrite Hr1. cbn [rbind].
    rewrite (fmap_app _ (x :: l)). by destruct ((0 <? max) && (max <=? sdb_size b)).
  - replace (pending ++ b :: blocks) with ((pending ++ [b]) ++ blocks) in * by (by rewrite <-app_assoc).
    by apply (IH p).
Qed.

Lemma blocks_loop_ok max blocks : ∀ p pending offset,
  Forall (in_object data) (pending ++ blocks) → adjacent p pending →
  (pending = [] ∧ offset = None ∨ pending ≠ [] ∧ offset = Some (p + sum_sizes pending)) →
  blocks_loop s md max blocks pending offset = Ok (fetched_from data <$> pending ++ blocks).
Proof using Hav Hobj Hlen.
  induction blocks as [|b blocks IH]; intros p pending offset Hin Hadj Hoff; cbn [blocks_loop].
  { rewrite app_nil_r in *. destruct Hoff as [[-> _]|[Hne _]]; [done|]. destruct pending as [|x l] eqn:E; [done|].
    rewrite <-E in *. by apply (continuous_loop_ok max pending p []). }
  assert (Hb : in_object data b) by (apply Forall_app in Hin as [_ Hin]; by apply Forall_cons in Hin as [? _]).
  pose proof Hin as [Hpen Hrest]%Forall_app. rewrite (end_position_in b Hb).
  assert (Hnew : blocks_loop s md max blocks [b] (Some (sdb_start_position b + sdb_size b)) =
    Ok (fetched_from data <$> b :: blocks)).
  { apply (IH (sdb_start_position b) [b]); [done|by split|]. right. simpl. by rewrite Z.add_0_r. }
  destruct Hoff as [[-> ->]|[Hne ->]]; [exact Hnew|].
  destruct (Z.eqb_spec (sdb_start_position b) (p + sum_sizes pending)) as [Hp|Hp]; cbn [negb].
  - replace (pending ++ b :: blocks) with ((pending ++ [b]) ++ blocks) in * by (by rewrite <-app_assoc).
    apply (IH p); [done|apply adjacent_app; split; [done|by split]|].
    right. split; [by destruct pending|]. rewrite sum_sizes_app. simpl. f_equal. lia.
  - unfold read_continuous. rewrite (continuous_loop_ok max pending p []) by done. cbn [rbind].
    rewrite Hnew. cbn [rbind]. by rewrite (fmap_app _ pending).
Qed.

Lemma read_blocks_ok max blocks :
  Forall (in_object data) blocks → read_blocks s md blocks max = Ok (fetched_from data <$> blocks).
Proof using Hav Hobj Hlen. intros Hin. apply (blocks_loop_ok max blocks 0 [] None); [done|done|by left]. Qed.
End ReadProofs.

(** ** Groups are runs *)
Definition small_stream (b : StreamDataBlock) : Prop := 0 <= sdb_stream_id b < two63.

Lemma wrap_i64_stream b : small_stream b → wrap_i64 (sdb_stream_id b) = sdb_stream_id b.
Proof. intros [? ?]. apply wrap_i64_id. int_lia. Qed.

Definition group_run (g : list StreamDataBlock) : Prop := g ≠ [] ∧ Sorted run g.

Lemma group_run_one b : group_run [b].
Proof. split; [done|repeat constructor]. Qed.
Lemma group_run_snoc g a b : group_run g → last g = Some a → run a b → group_run (g ++ [b]).
Proof.
  intros [Hne Hs] Ha Hr. split; [by destruct g|]. apply Sorted_snoc; [done|].
  intros c Hc. by simplify_eq.
Qed.

Definition offset_state (st : GroupByOffsetPredicate) (curr : list StreamDataBlock) : Prop :=
  ∃ a, last curr = Some a ∧ go_curr_stream_id st = sdb_stream_id a ∧ go_next_start_offset st = sdb_end_offset a.

Lemma offset_loop_ok l : ∀ st curr,
  Forall small_stream (curr ++ l) → offset_state st curr → group_run curr →
  concat (group_loop offset_test l st curr) = curr ++ l ∧ Forall group_run (group_loop offset_test l st curr).
Proof.
  induction l as [|b l IH]; intros st curr Hsm Hst Hrun; cbn [group_loop].
  { rewrite app_nil_r. destruct curr as [|x curr0] eqn:E; [by destruct Hrun|]. rewrite <-E in *. simpl.
    rewrite app_nil_r. split; [done|by apply Forall_singleton]. }
  destruct Hst as (a & Ha & Hid & Hoff). pose proof Hsm as [Hc [Hb Hl]%Forall_cons]%Forall_app.
  assert (Hsa : small_stream a) by (rewrite Forall_forall in Hc; by apply Hc, last_Some_elem_of).
  assert (Hnew : ∀ st', go_curr_stream_id st' = sdb_stream_id b → go_next_start_offset st' = sdb_end_offset b →
    concat (group_loop offset_test l st' [b]) = b :: l ∧ Forall group_run (group_loop offset_test l st' [b])).
  { intros st' H1 H2. apply (IH st' [b]); [by constructor|by exists b|apply group_run_one]. }
  assert (Hmore : ∀ st', go_curr_stream_id st' = sdb_stream_id b → go_next_start_offset st' = sdb_end_offset b →
    run a b → concat (group_loop offset_test l st' (curr ++ [b])) = curr ++ b :: l ∧
    Forall group_run (group_loop offset_test l st' (curr ++ [b]))).
  { intros st' H1 H2 Hr. replace (curr ++ b :: l) with ((curr ++ [b]) ++ l) in * by (by rewrite <-app_assoc).
    apply IH; [done|exists b; by rewrite last_snoc|by eapply group_run_snoc]. }
  destruct (offset_test st b) as [flag st'] eqn:Et. unfold offset_test in Et.
  rewrite (wrap_i64_stream b Hb), Hid, Hoff, (proj2 (Z.eqb_neq (sdb_stream_id a) (-1))) in Et by (destruct Hsa; lia).
  destruct (_ && _) eqn:E; injection Et as <- <-.
  - apply Hmore; [simpl; lia|done|]. unfold run. lia.
  - destruct curr as [|x curr0] eqn:Ec; [done|]. rewrite <-Ec in *. edestruct Hnew as [H1 H2]; cycle 2.
    { cbn [concat]. rewrite H1. split; [done|]. constructor; [done|exact H2]. }
    + done.
    + done.
Qed.

(** Grouping by offset cuts the blocks into runs and loses none. *)
Lemma group_by_offset_ok l :
  Forall small_stream l →
  concat (group_stream_data_blocks offset_test l offset_new) = l ∧
  Forall group_run (group_stream_data_blocks offset_test l offset_new).
Proof.
  intros Hs. destruct l as [|b l]; [done|]. pose proof Hs as [Hb Hl]%Forall_cons.
  unfold group_stream_data_blocks. cbn [group_loop]. unfold offset_test at 2 4. cbn. rewrite (wrap_i64_stream b Hb).
  apply (offset_loop_ok l _ [b]); [done|by exists b|apply group_run_one].
Qed.

(** What one index entry may cover: one block, or a run below the limits. *)
Definition group_fits (threshold : Z) (g : list StreamDataBlock) : Prop :=
  (length g = 1)%nat ∨
  (sum_sizes g < threshold ∧ group_record_count g <= two31 - 1 ∧
   ∀ first final, head g = Some first → last g = Some final → sdb_end_offset final - sdb_start_offset first <= two31 - 1).

Record limit_state (threshold : Z) (st : GroupByLimitPredicate) (curr : list StreamDataBlock) : Prop := {
  ls_threshold : gl_block_size_threshold st = threshold;
  ls_last : ∃ a, last curr = Some a ∧ gl_stream_id st = sdb_stream_id a ∧ gl_next_start_offset st = sdb_end_offset a;
  ls_first : ∃ f, head curr = Some f ∧ gl_start_offset st = sdb_start_offset f;
  ls_size : gl_block_size st = sum_sizes curr;
  ls_count : gl_record_cnt st = group_record_count curr;
}.

Lemma group_record_count_app l1 l2 : group_record_count (l1 ++ l2) = group_record_count l1 + group_record_count l2.
Proof. induction l1 as [|b l1 IH]; simpl; lia. Qed.

Lemma limit_loop_ok threshold l : ∀ st curr,
  Forall small_stream (curr ++ l) → limit_state threshold st curr → group_run curr → group_fits threshold curr →
  concat (group_loop limit_test l st curr) = curr ++ l ∧
  Forall (λ g, group_run g ∧ group_fits threshold g) (group_loop limit_test l st curr).
Proof.
  induction l as [|b l IH]; intros st curr Hsm Hst Hrun Hfit; cbn [group_loop].
  { rewrite app_nil_r. destruct curr as [|x curr0] eqn:E; [by destruct Hrun|]. rewrite <-E in *. simpl.
    rewrite app_nil_r. split; [done|by apply Forall_singleton]. }
  destruct Hst as [Hth (a & Ha & Hid & Hoff) (f & Hf & Hso) Hsz Hcnt].
  pose proof Hsm as [Hc [Hb Hl]%Forall_cons]%Forall_app.
  assert (Hsa : small_stream a) by (rewrite Forall_forall in Hc; by apply Hc, last_Some_elem_of).
  destruct (limit_test st b) as [flag st'] eqn:Et. unfold limit_test in Et.
  rewrite (wrap_i64_stream b Hb), Hid, Hoff, Hso, Hsz, Hcnt, Hth in Et.
  rewrite (proj2 (Z.eqb_neq (sdb_stream_id a) (-1))) in Et by (destruct Hsa; lia). cbn [orb negb] in Et.
  rewrite andb_true_r in Et. match type of Et with context [negb ?c] => destruct c eqn:E end; injection Et as <- <-.
  - destruct curr as [|x curr0] eqn:Ec; [done|]. rewrite <-Ec in *.
    match goal with |- context [group_loop limit_test l ?st' [b]] => destruct (IH st' [b]) as [H1 H2] end.
    + by constructor.
    + constructor; cbn; [done|by exists b|by exists b|lia|lia].
    + apply group_run_one.
    + by left.
    + cbn [concat]. rewrite H1. split; [done|]. constructor; [done|exact H2].
  - replace (curr ++ b :: l) with ((curr ++ [b]) ++ l) in * by (by rewrite <-app_assoc).
    apply IH; [done| | |].
    + constructor; cbn; [done|exists b; rewrite last_snoc; split_and!; [done|lia|done]|exists f; by destruct curr| |].
      * rewrite sum_sizes_app. simpl. lia.
      * rewrite group_record_count_app. simpl. lia.
    + eapply group_run_snoc; [done|done|]. unfold run. lia.
    + right. rewrite sum_sizes_app, group_record_count_app. simpl. split_and!; [lia|lia|].
      intros first final Hfi Hla. rewrite last_snoc in Hla. assert (first = f) as -> by (destruct curr; simplify_eq/=; done).
      simplify_eq. lia.
Qed.

(** Grouping for the index cuts the blocks into runs that fit an entry. *)
Lemma group_by_limit_ok threshold l :
  Forall small_stream l →
  concat (group_stream_data_blocks limit_test l (limit_new threshold)) = l ∧
  Forall (λ g, group_run g ∧ group_fits threshold g) (group_stream_data_blocks limit_test l (limit_new threshold)).
Proof.
  intros Hs. destruct l as [|b l]; [done|]. pose proof Hs as [Hb Hl]%Forall_cons.
  unfold group_stream_data_blocks. cbn [group_loop]. unfold limit_test at 2 4. cbn -[Z.add].
  apply (limit_loop_ok threshold l _ [b]); [done| |apply group_run_one|by left].
  constructor; cbn -[Z.add]; [done|exists b; by rewrite wrap_i64_stream|by exists b|lia|lia].
Qed.

(** ** An object written from blocks *)
Definition object_bytes (payload : list byte) (entries : list DataBlockIndex) : list byte :=
  payload ++ index_encode entries ++
  footer (Z.of_nat (length payload)) (Z.of_nat (length entries * BLOCK_INDEX_SIZE)).

Lemma length_object_bytes payload entries :
  length (object_bytes payload entries) = (length payload + 36 * length entries + 48)%nat.
Proof. unfold object_bytes. rewrite !length_app, length_index_encode, length_footer.
  change BLOCK_INDEX_SIZE with 36%nat. change FOOTER_SIZE with 48%nat. lia. Qed.

Section LoadBack.
Context {S W : Type} `{ObjectStorageContract S W}.
Context (s : S) (md : S3ObjectMetadata) (payload : list byte) (entries : list DataBlockIndex).
Context (Hav : available s) (Hobj : object s (om_key md) = Some (object_bytes payload entries))
  (Hsize : om_object_size md = Z.of_nat (length (object_bytes payload entries)))
  (Htyped : Forall bi_typed entries)
  (Hp : Z.of_nat (length payload) < two63) (He : 36 * Z.of_nat (length entries) < two32).

Lemma load_object_bytes r :
  or_metadata r = md →
  load_object_info s r =
  Ok {| data_block_size := Z.of_nat (length payload); index_block := renumber 0 entries |}.
Proof using Hav Hobj Hsize Htyped Hp He.
  intros Hr. set (p := Z.of_nat (length payload)) in *. set (i := Z.of_nat (length entries * BLOCK_INDEX_SIZE)).
  assert (Hi : i = 36 * Z.of_nat (length entries)) by (unfold i; change BLOCK_INDEX_SIZE with 36%nat; lia).
  assert (Hl : Z.of_nat (length (object_bytes payload entries)) = p + i + 48) by (rewrite length_object_bytes; lia).
  assert (Hn : 0 <= p ∧ 0 <= i) by lia.
  unfold load_object_info. rewrite Hr, Hsize, Hl. change (Z.of_nat FOOTER_SIZE) with 48.
  rewrite (proj2 (Z.ltb_ge (p + i + 48) 48)) by lia.
  assert (Hf : byte_range (object_bytes payload entries) (p + i) (p + i + 48) = footer p i).
  { unfold object_bytes. fold p i. rewrite <-(app_nil_r (footer _ _)), (app_assoc payload). apply byte_range_mid; [|done].
    rewrite length_app, length_index_encode. change BLOCK_INDEX_SIZE with 36%nat. lia. }
  rewrite (range_read_present _ _ _ _ _ (object_bytes payload entries)); [|done|done|lia|lia].
  replace (p + i + 48 - 48) with (p + i) by lia. rewrite Hf. cbn [rbind].
  change (length (footer p i) =? FOOTER_SIZE)%nat with true. cbn [negb].
  assert (F40 : read_u64 (footer p i) 40 = FOOTER_MAGIC).
  { eapply (read_at_8 (put_u64 p ++ put_u32 i ++ replicate 28 x00) _ []);
      [unfold footer; by rewrite app_nil_r, <-!app_assoc|done|done]. }
  assert (F0 : read_u64 (footer p i) 0 = p) by (eapply (read_at_8 []); [done|done|int_lia]).
  assert (F8 : read_u32 (footer p i) 8 = i) by (eapply (read_at_4 (put_u64 p)); [done|done|int_lia]).
  rewrite F40, F0, F8, Z.eqb_refl. cbn [negb]. rewrite !wrap_u64_id by int_lia. rewrite Z.eqb_refl. cbn [negb].
  rewrite (range_read_present _ _ _ _ _ (object_bytes payload entries)); [|done|done|lia|lia]. cbn [rbind].
  unfold object_bytes. rewrite byte_range_mid; [|done|].
  2:{ rewrite length_index_encode. change BLOCK_INDEX_SIZE with 36%nat. lia. }
  destruct (renumber_facts 0 entries) as (R1 & R2 & _ & R4).
  by rewrite (proj2 (index_parse_iff (index_encode entries) (renumber 0 entries))) by auto.
Qed.

Lemma read_payload r e :
  or_metadata r = md → 0 <= bi_start_position e → 0 <= bi_size e →
  bi_start_position e + bi_size e <= Z.of_nat (length payload) →
  read_block s r e = Ok (byte_range payload (bi_start_position e) (bi_start_position e + bi_size e)).
Proof using Hav Hobj Hp.
  intros Hr H1 H2 H3. unfold read_block, read_block_throttled, bi_end_position.
  rewrite wrap_u64_id by int_lia. rewrite Hr.
  rewrite (range_read_present _ _ _ _ _ (object_bytes payload entries)); [|done|done|lia|].
  - f_equal. unfold byte_range, slice, object_bytes. rewrite drop_app_le by lia. rewrite take_app_le; [done|].
    rewrite length_drop. lia.
  - rewrite length_object_bytes. lia.
Qed.
End LoadBack.

(** ** Entries of groups *)
Definition block_typed (b : StreamDataBlock) : Prop :=
  bi_typed (sdb_index b) ∧ small_stream b ∧ sdb_start_offset b + bi_end_offset_delta (sdb_index b) < two64.

Lemma block_end b : block_typed b →
  sdb_end_offset b = sdb_start_offset b + bi_end_offset_delta (sdb_index b) ∧
  0 <= sdb_start_offset b <= sdb_end_offset b ∧ sdb_end_offset b < two64 ∧
  sdb_end_offset b - sdb_start_offset b < two32 ∧ 0 <= sdb_size b < two32.
Proof.
  intros ((_ & H1 & H2 & _ & _ & H3) & _ & H4). unfold sdb_end_offset, bi_end_offset.
  unfold sdb_start_offset, sdb_size in *. rewrite wrap_u64_id by int_lia. int_lia.
Qed.

Lemma run_span g first final :
  Forall block_typed g → Sorted run g → head g = Some first → last g = Some final →
  sdb_stream_id first = sdb_stream_id final ∧ sdb_start_offset first <= sdb_end_offset final.
Proof.
  intros Ht Hs. revert first. induction Hs as [|x l Hs IH Hd]; intros first Hf Hl; [done|].
  apply Forall_cons in Ht as [Hx Ht]. injection Hf as ->. destruct (block_end first Hx) as (_ & ? & _).
  destruct l as [|y l]; [injection Hl as <-; lia|]. inversion_clear Hd as [|? ? [E1 E2]].
  destruct (IH Ht y) as [H1 H2]; [done|done|]. split; [congruence|]. lia.
Qed.

Lemma run_stream g first b :
  Sorted run g → head g = Some first → b ∈ g → sdb_stream_id b = sdb_stream_id first.
Proof.
  intros Hs. revert first. induction Hs as [|x l Hs IH Hd]; intros first Hf Hb; [done|]. injection Hf as ->.
  apply elem_of_cons in Hb as [->|Hb]; [done|]. destruct l as [|y l]; [by apply elem_of_nil in Hb|].
  inversion_clear Hd as [|? ? [E1 E2]]. rewrite (IH y) by done. done.
Qed.

(** [e] is the entry of the run [g], with the bytes of [g] at [position]. *)
Definition entry_of (position : Z) (e : DataBlockIndex) (g : list StreamDataBlock) : Prop :=
  bi_start_position e = position ∧ bi_size e = sum_sizes g ∧
  (∀ b, b ∈ g → sdb_stream_id b = bi_stream_id e) ∧
  ∃ first final, head g = Some first ∧ last g = Some final ∧
    bi_start_offset e = sdb_start_offset first ∧ bi_end_offset e = sdb_end_offset final.

Fixpoint entries_of (position : Z) (es : list DataBlockIndex) (groups : list (list StreamDataBlock)) : Prop :=
  match es, groups with
  | [], [] => True
  | e :: es, g :: groups => entry_of position e g ∧ entries_of (position + sum_sizes g) es groups
  | _, _ => False
  end.

Lemma sum_sizes_typed l : Forall block_typed l → 0 <= sum_sizes l.
Proof. induction 1 as [|b l Hb Hl IH]; simpl; [lia|]. destruct (block_end b Hb) as (_ & _ & _ & _ & ?). lia. Qed.

Lemma indices_of_groups groups : ∀ position,
  Forall (λ g, group_run g ∧ group_fits DATA_BLOCK_GROUP_SIZE_THRESHOLD g ∧ Forall block_typed g) groups →
  0 <= position → position + sum_sizes (concat groups) < two63 →
  entries_of position (indices_from groups position) groups ∧ Forall bi_typed (indices_from groups position).
Proof.
  induction groups as [|g groups IH]; intros position Hg Hp Hs; [done|].
  apply Forall_cons in Hg as [([Hne Hrun] & Hfit & Ht) Hg]. cbn [concat] in Hs. rewrite sum_sizes_app in Hs.
  cbn [indices_from]. destruct (head g) as [first|] eqn:Ef; [|by destruct g].
  destruct (last g) as [final|] eqn:El; [|by apply last_None in El].
  destruct (run_span g first final Ht Hrun Ef El) as [Hst Hspan]. pose proof (sum_sizes_typed g Ht) as Hpos.
  assert (Hc : Forall block_typed (concat groups)).
  { clear -Hg. induction Hg as [|g l (_ & _ & ?) Hg IH]; [done|]. cbn. by apply Forall_app. }
  pose proof (sum_sizes_typed _ Hc) as Hposc.
  destruct (IH (position + sum_sizes g)) as [IH1 IH2]; [done|lia|lia|]. unfold group_size.
  assert (Hfirst : block_typed first) by (rewrite Forall_forall in Ht; apply Ht; destruct g; simplify_eq/=; left).
  assert (Hfinal : block_typed final) by (rewrite Forall_forall in Ht; by apply Ht, last_Some_elem_of).
  destruct (block_end first Hfirst) as (_ & F1 & F2 & F3 & F4). destruct (block_end final Hfinal) as (_ & G1 & G2 & _).
  assert (Hsize : 0 <= sum_sizes g < two32 ∧ sdb_end_offset final - sdb_start_offset first < two32).
  { destruct Hfit as [H1|(H1 & _ & H2)].
    - destruct g as [|x [|]]; try done. simplify_eq/=. rewrite Z.add_0_r. lia.
    - specialize (H2 _ _ Ef El). unfold DATA_BLOCK_GROUP_SIZE_THRESHOLD in H1. int_lia. }
  split; [split; [|done]|constructor; [|done]].
  - unfold entry_of, bi_end_offset; cbn. rewrite !wrap_u32_id by int_lia. split_and!; [done|done| |].
    + intros b Hb. by apply (run_stream g).
    + exists first, final. split_and!; [done|done|done|]. rewrite wrap_u64_id by int_lia. lia.
  - destruct Hfirst as ((T1 & _) & _). unfold bi_typed; cbn. split_and!; auto with ints; int_lia.
Qed.

(** ** What a block writer holds *)
Definition bytes_of (data : BlockData) (b : StreamDataBlock) : list byte :=
  default [] (data !! (sdb_object_id b, sdb_start_position b)).

(** The bytes of blocks, one after the other. *)
Definition payload_of (bytes : StreamDataBlock → list byte) (blocks : list StreamDataBlock) : list byte :=
  concat (bytes <$> blocks).
Definition sized (bytes : StreamDataBlock → list byte) (b : StreamDataBlock) : Prop :=
  Z.of_nat (length (bytes b)) = sdb_size b.

Lemma payload_of_app bytes l1 l2 : payload_of bytes (l1 ++ l2) = payload_of bytes l1 ++ payload_of bytes l2.
Proof. unfold payload_of. by rewrite fmap_app, concat_app. Qed.
Lemma payload_of_ext bytes bytes' l : (∀ b, b ∈ l → bytes b = bytes' b) → payload_of bytes l = payload_of bytes' l.
Proof. intros Hb. unfold payload_of. f_equal. apply list_fmap_ext. intros i b Hi. by apply Hb, list_elem_of_lookup_2 with i. Qed.
Lemma length_payload bytes blocks :
  Forall (sized bytes) blocks → Z.of_nat (length (payload_of bytes blocks)) = sum_sizes blocks.
Proof.
  induction 1 as [|b l Hb Hl IH]; [done|]. unfold sized in Hb.
  change (payload_of bytes (b :: l)) with (bytes b ++ payload_of bytes l). rewrite length_app.
  change (sum_sizes (b :: l)) with (sdb_size b + sum_sizes l). lia.
Qed.

Definition block_indices (blocks : list StreamDataBlock) : list DataBlockIndex :=
  build_data_block_indices_from_group
    (group_stream_data_blocks limit_test blocks (limit_new DATA_BLOCK_GROUP_SIZE_THRESHOLD)).

Section WriteProofs.
Context {S W : Type} `{ObjectStorageContract S W}.
Implicit Types (s : S) (w : DataBlockWriter W).

Record block_writer (w : DataBlockWriter W) (key : string) (payload : list byte) (blocks : list StreamDataBlock) : Prop := {
  bw_key : writer_key (dw_writer w) = key;
  bw_payload : written (dw_writer w) ++ dw_waiting w = payload;
  bw_blocks : dw_completed_blocks w = blocks;
  bw_position : dw_next_data_block_position w = sum_sizes blocks;
}.

Lemma dw_open_ok s id part s' w :
  dw_open s id part = (s', Ok w) → block_writer w (gen_object_key id) [] [] ∧ ∀ k, object s' k = object s k.
Proof.
  unfold dw_open. destruct (os_writer s _ _) as [s1 [wr|e]] eqn:E; [|done]. intros [= <- <-].
  apply writer_opened in E as (Hk & Hw & Ho). split; [|done]. by constructor; cbn; rewrite ?Hw.
Qed.

Lemma dw_write_ok s w f s' w' key payload blocks :
  block_writer w key payload blocks → dw_write s w f = (s', w', Ok tt) →
  block_writer w' key (payload ++ fb_data f) (blocks ++ [fb_block f]) ∧ ∀ k, object s' k = object s k.
Proof.
  intros [Hk Hp Hb Hn] Hw. unfold dw_write in Hw. destruct (_ <=? _).
  - destruct (mw_write s _ _) as [[s1 wr] [[]|e]] eqn:E; [|done]. injection Hw as <- <-.
    apply part_queued in E as (K1 & K2 & K3). split; [|done]. constructor; cbn; [congruence| |by rewrite Hb|].
    + by rewrite app_nil_r, K2, app_assoc, Hp.
    + rewrite sum_sizes_app, Hn. simpl. lia.
  - injection Hw as <- <-. split; [|done]. constructor; cbn; [done|by rewrite app_assoc, Hp|by rewrite Hb|].
    rewrite sum_sizes_app, Hn. simpl. lia.
Qed.

Lemma write_blocks_ok s w blocks data s' w' key payload done :
  block_writer w key payload done → write_blocks s w blocks data = (s', w', Ok tt) →
  block_writer w' key (payload ++ payload_of (bytes_of data) blocks) (done ++ blocks) ∧ ∀ k, object s' k = object s k.
Proof.
  revert s w payload done. induction blocks as [|b blocks IH]; intros s w payload dn Hw E; cbn [write_blocks] in E.
  { injection E as <- <-. cbn. by rewrite !app_nil_r. }
  destruct (data !! _) as [bytes|] eqn:El; [|done]. destruct (dw_write s w _) as [[s1 w1] [[]|e]] eqn:E1; [|done].
  destruct (dw_write_ok _ _ _ _ _ _ _ _ Hw E1) as [H1 H2]. destruct (IH _ _ _ _ H1 E) as [H3 H4].
  split; [|intros k; by rewrite H4]. cbn [fb_data fb_block] in H3.
  replace (payload ++ payload_of (bytes_of data) (b :: blocks))
    with ((payload ++ bytes) ++ payload_of (bytes_of data) blocks).
  - by rewrite <-(app_assoc dn) in H3.
  - rewrite <-app_assoc. f_equal. unfold payload_of. cbn. unfold bytes_of at 2. by rewrite El.
Qed.

Lemma dw_close_ok s w s' size bucket key payload blocks :
  block_writer w key payload blocks → Z.of_nat (length payload) = sum_sizes blocks →
  dw_close s w = (s', Ok (size, bucket)) →
  object s' key = Some (object_bytes payload (block_indices blocks)) ∧
  size = Z.of_nat (length (object_bytes payload (block_indices blocks))) ∧
  ∀ k, k ≠ key → object s' k = object s k.
Proof.
  intros [Hk Hp Hb Hn] Hl Hc. unfold dw_close in Hc. rewrite Hb, Hn in Hc. fold (block_indices blocks) in Hc.
  destruct (mw_write s _ _) as [[s1 wr] [[]|e]] eqn:E1; [|done].
  destruct (mw_finish s1 wr) as [[s2 wr2] [b|e]] eqn:E2; [|done]. injection Hc as <- <- _.
  apply part_queued in E1 as (K1 & K2 & K3). apply finish_durable in E2 as [K4 K5]. rewrite K1, Hk in K4, K5.
  split_and!; [|rewrite length_object_bytes; change BLOCK_INDEX_SIZE with 36%nat; change FOOTER_SIZE with 48%nat; lia|].
  - rewrite K4, K2, app_assoc, Hp. unfold object_bytes, footer. by rewrite Hl.
  - intros k Hne. rewrite K5 by done. apply K3.
Qed.

(** The object [id] holds the blocks with these bytes. *)
Definition stored_blocks (s : S) (id size : Z) (bytes : StreamDataBlock → list byte) (blocks : list StreamDataBlock) : Prop :=
  object s (gen_object_key id) = Some (object_bytes (payload_of bytes blocks) (block_indices blocks)) ∧
  size = Z.of_nat (length (object_bytes (payload_of bytes blocks) (block_indices blocks))).

Lemma write_object_of_ok part s id blocks data s' so :
  Forall (sized (bytes_of data)) blocks → write_object_of part s id blocks data = (s', Ok so) →
  stored_blocks s' id (so_object_size so) (bytes_of data) blocks ∧ so_object_id so = id ∧
  (∃ first final, head blocks = Some first ∧ last blocks = Some final ∧ so_stream_id so = sdb_stream_id first ∧
     so_start_offset so = sdb_start_offset first ∧ so_end_offset so = sdb_end_offset final) ∧
  ∀ k, k ≠ gen_object_key id → object s' k = object s k.
Proof.
  intros Hf Hw. unfold write_object_of in Hw.
  destruct (dw_open s id part) as [s1 [w|e]] eqn:E1; [|done].
  destruct (write_blocks s1 w blocks data) as [[s2 w2] [[]|e]] eqn:E2; [|done].
  destruct (dw_close s2 w2) as [s3 [[size bucket]|e]] eqn:E3; [|done].
  destruct (head blocks) as [first|] eqn:Ef; [|done]. destruct (last blocks) as [final|] eqn:El; [|done].
  injection Hw as <- <-. apply dw_open_ok in E1 as [H1 O1].
  destruct (write_blocks_ok _ _ _ _ _ _ _ _ _ H1 E2) as [H2 O2]. cbn in H2.
  apply (dw_close_ok _ _ _ _ _ _ _ _ H2) in E3 as (H3 & H4 & O3); [|by apply length_payload].
  split_and!; [done|done|by exists first, final|]. intros k Hk. by rewrite O3, O2, O1.
Qed.
End WriteProofs.

(** A reader of [md] finds the blocks: the entries of its index are runs of
    them, in order, and reading an entry gives their bytes. *)
Definition serves_blocks {S W} `{ObjectStorage S W} (s : S) (md : S3ObjectMetadata) (bytes : StreamDataBlock → list byte)
    (blocks : list StreamDataBlock) : Prop :=
  ∃ r info groups, basic_object_info s (reader_new md) = (r, Ok info) ∧ concat groups = blocks ∧
    Forall2 (λ e g, group_run g ∧ (∀ b, b ∈ g → sdb_stream_id b = bi_stream_id e) ∧
      (∃ first final, head g = Some first ∧ last g = Some final ∧
         bi_start_offset e = sdb_start_offset first ∧ bi_end_offset e = sdb_end_offset final) ∧
      read_block s r e = Ok (concat (bytes <$> g))) (index_block info) groups.

Lemma entries_of_length p es gs : entries_of p es gs → length es = length gs.
Proof.
  revert p gs. induction es as [|e es IH]; intros p [|g gs]; try done. intros [_ Hes]. cbn. f_equal. by eapply IH.
Qed.

Section ServeProofs.
Context {S W : Type} `{ObjectStorageContract S W}.

Lemma entries_read (s : S) md r payload es entries bytes blocks : ∀ groups pre position i,
  available s → object s (om_key md) = Some (object_bytes payload es) → or_metadata r = md →
  Z.of_nat (length payload) < two63 → payload = payload_of bytes blocks → blocks = pre ++ concat groups →
  Forall (sized bytes) blocks → Forall group_run groups → position = sum_sizes pre → 0 <= position →
  Forall (λ b, 0 <= sdb_size b) blocks → entries_of position entries groups →
  Forall2 (λ e g, group_run g ∧ (∀ b, b ∈ g → sdb_stream_id b = bi_stream_id e) ∧
      (∃ first final, head g = Some first ∧ last g = Some final ∧
         bi_start_offset e = sdb_start_offset first ∧ bi_end_offset e = sdb_end_offset final) ∧
      read_block s r e = Ok (concat (bytes <$> g))) (renumber i entries) groups.
Proof.
  induction entries as [|e entries IH]; intros groups pre position i Hav Hobj Hr Hl Hpay Hb Hf Hg Hpos Hp0 Hn He;
    destruct groups as [|g groups]; try done.
  destruct He as [(E1 & E2 & E3 & E4) He]. apply Forall_cons in Hg as [Hg Hgs]. cbn [concat] in Hb.
  assert (Hsub : ∀ l, l ⊆ blocks → 0 <= sum_sizes l).
  { clear -Hn. intros l. induction l as [|x l IH]; intros Hl; simpl; [lia|]. rewrite Forall_forall in Hn.
    pose proof (Hn x (Hl x (list_elem_of_here _ _))). specialize (IH (λ y Hy, Hl y (list_elem_of_further _ _ _ Hy))). lia. }
  assert (Hgn : 0 <= sum_sizes g ∧ 0 <= sum_sizes (concat groups)) by (split; apply Hsub; rewrite Hb; set_solver).
  cbn [renumber]. constructor.
  - split_and!; [done|done|done|].
    assert (Hlen : Z.of_nat (length payload) = sum_sizes pre + (sum_sizes g + sum_sizes (concat groups))).
    { rewrite Hpay, length_payload, Hb, !sum_sizes_app by done. done. }
    rewrite (read_payload s md payload es); [|done|done|done|done|cbn..]; [|lia|lia|lia].
    cbn [bi_start_position bi_size with_block_id]. rewrite E1, E2. f_equal.
    rewrite Hpay, Hb, !payload_of_app. rewrite Hb in Hf. apply Forall_app in Hf as [Hf1 [Hf2 _]%Forall_app].
    rewrite <-(payload_of_app bytes g), payload_of_app. apply byte_range_mid; [by rewrite length_payload|].
    change (concat (bytes <$> g)) with (payload_of bytes g). by rewrite length_payload.
  - apply (IH groups (pre ++ g) (position + sum_sizes g)); try done; [by rewrite Hb, app_assoc|rewrite sum_sizes_app; lia|lia].
Qed.

Lemma entries_serve (s : S) md bytes blocks groups es :
  available s → object s (om_key md) = Some (object_bytes (payload_of bytes blocks) es) →
  om_object_size md = Z.of_nat (length (object_bytes (payload_of bytes blocks) es)) →
  Forall bi_typed es → entries_of 0 es groups → concat groups = blocks → Forall group_run groups →
  Forall block_typed blocks → Forall (sized bytes) blocks → sum_sizes blocks < two63 →
  36 * Z.of_nat (length blocks) < two32 → serves_blocks s md bytes blocks.
Proof.
  intros Hav Hobj Hsz Hty He Hc Hg Ht Hf Hs Hn.
  assert (Hle : (length es <= length blocks)%nat).
  { rewrite (entries_of_length _ _ _ He), <-Hc. clear -Hg. induction Hg as [|g gs [Hne _] Hg IH]; [done|]. cbn. rewrite length_app.
    destruct g; [done|]. cbn. lia. }
  assert (Hpl : Z.of_nat (length (payload_of bytes blocks)) = sum_sizes blocks) by (by apply length_payload).
  pose proof (load_object_bytes s md (payload_of bytes blocks) es Hav Hobj Hsz Hty ltac:(lia) ltac:(lia)
    (reader_new md) eq_refl) as Hload.
  unfold serves_blocks, basic_object_info. cbn [or_info reader_new]. rewrite Hload. eexists _, _, groups.
  split_and!; [reflexivity|done|]. cbn [index_block].
  eapply (entries_read s md _ (payload_of bytes blocks) es es bytes blocks groups [] 0); try done; try lia.
  eapply Forall_impl; [exact Ht|]. intros b Hb. by destruct (block_end b Hb) as (_ & _ & _ & _ & ? & _).
Qed.

Lemma stored_blocks_serve (s : S) id size bytes blocks md :
  stored_blocks s id size bytes blocks → available s → Forall block_typed blocks → Forall (sized bytes) blocks →
  sum_sizes blocks < two63 → 36 * Z.of_nat (length blocks) < two32 →
  om_object_id md = id → om_object_size md = size → serves_blocks s md (bytes) blocks.
Proof.
  intros [Hobj Hsize] Hav Ht Hf Hs Hn Hid Hsz.
  assert (Hsm : Forall small_stream blocks) by (eapply Forall_impl; [exact Ht|]; by intros b (_ & ? & _)).
  destruct (group_by_limit_ok DATA_BLOCK_GROUP_SIZE_THRESHOLD blocks Hsm) as [Hc Hg].
  unfold block_indices in *. set (groups := group_stream_data_blocks _ _ _) in *.
  assert (Hg3 : Forall (λ g, group_run g ∧ group_fits DATA_BLOCK_GROUP_SIZE_THRESHOLD g ∧ Forall block_typed g) groups).
  { rewrite Forall_forall in Hg |- *. intros g Hin. destruct (Hg g Hin) as [? ?]. split_and!; [done..|].
    apply Forall_forall. intros b Hb. rewrite Forall_forall in Ht. apply Ht. rewrite <-Hc.
    apply elem_of_concat_list. by exists g. }
  destruct (indices_of_groups groups 0 Hg3) as [He Hty]; [lia|by rewrite Hc|].
  apply (entries_serve s md bytes blocks groups (build_data_block_indices_from_group groups)); [done| |congruence|done|done|done| |done|done|done|done].
  - unfold om_key. by rewrite Hid.
  - eapply Forall_impl; [exact Hg3|]. by intros g (? & _).
Qed.
End ServeProofs.

(** ** The sanity check *)
Definition covers_offset (r : Z * Z) (o : Z) : Prop := r.1 <= o < r.2.
Definition within (r q : Z * Z) : Prop := q.1 <= r.1 ∧ r.2 <= q.2.

Lemma merge_one_sound l out r q o :
  (∀ q o, q ∈ out → covers_offset q o → ∃ x, x ∈ l ∧ covers_offset x o) →
  q ∈ merge_one out r → covers_offset q o → ∃ x, x ∈ r :: l ∧ covers_offset x o.
Proof.
  intros Hout Hq Ho. assert (Hold : ∀ q, q ∈ out → covers_offset q o → ∃ x, x ∈ r :: l ∧ covers_offset x o).
  { intros q' Hq' Ho'. destruct (Hout q' o Hq' Ho') as (x & Hx & ?). exists x. split; [by right|done]. }
  unfold merge_one in Hq. destruct out as [|[s e] out].
  - apply list_elem_of_singleton in Hq as ->. exists r. split; [left|done].
  - destruct (Z.leb_spec r.1 e) as [Hle|_].
    + apply elem_of_cons in Hq as [->|Hq]; [|by apply (Hold q); [right|]].
      destruct (decide (o < e)) as [Hlt|Hge].
      * apply (Hold (s, e)); [left|]. unfold covers_offset in *. simpl in *. lia.
      * exists r. split; [left|]. unfold covers_offset in *. simpl in *. lia.
    + apply elem_of_cons in Hq as [->|Hq]; [exists r; split; [left|done]|by apply (Hold q)].
Qed.

(** Merging adds no offset. *)
Lemma merge_ranges_sound l q o :
  q ∈ merge_ranges l → covers_offset q o → ∃ x, x ∈ l ∧ covers_offset x o.
Proof.
  unfold merge_ranges. rewrite elem_of_reverse. set (sl := merge_sort key_le l).
  assert (Hp : sl ≡ₚ l) by apply merge_sort_Permutation. setoid_rewrite <-Hp. clearbody sl. clear l Hp.
  enough (H : ∀ out seen, (∀ q o, q ∈ out → covers_offset q o → ∃ x, x ∈ seen ∧ covers_offset x o) →
    q ∈ foldl merge_one out sl → covers_offset q o → ∃ x, x ∈ seen ++ sl ∧ covers_offset x o).
  { apply (H [] []). intros ? ? Hn. by apply elem_of_nil in Hn. }
  induction sl as [|r sl IH]; intros out seen Hout Hq Ho; cbn in Hq; [rewrite app_nil_r; exact (Hout q o Hq Ho)|].
  destruct (IH (merge_one out r) (r :: seen)) as (x & Hx & ?); [|done|done|exists x; set_solver].
  intros q' o' Hq' Ho'. by eapply merge_one_sound.
Qed.

Lemma merge_one_complete out r x :
  (∀ s e out', out = (s, e) :: out' → s <= r.1) →
  (∃ q, q ∈ out ∧ within x q) ∨ x = r → ∃ q, q ∈ merge_one out r ∧ within x q.
Proof.
  intros Hs Hx. unfold merge_one. destruct out as [|[s e] out].
  - destruct Hx as [(q & Hq & _)| ->]; [by apply elem_of_nil in Hq|]. exists r. split; [left|]. split; lia.
  - specialize (Hs s e out eq_refl). destruct (Z.leb_spec r.1 e) as [Hle|_].
    + destruct Hx as [(q & Hq & Hw)| ->]; [apply elem_of_cons in Hq as [->|Hq]|].
      * exists (s, Z.max e r.2). split; [left|]. unfold within in *. simpl in *. lia.
      * exists q. split; [by right|done].
      * exists (s, Z.max e r.2). split; [left|]. unfold within. simpl. lia.
    + destruct Hx as [(q & Hq & Hw)| ->]; [exists q; split; [by right|done]|]. exists r. split; [left|]. split; lia.
Qed.

(** Merging keeps every range within one. *)
Lemma merge_ranges_complete l x : x ∈ l → ∃ q, q ∈ merge_ranges l ∧ within x q.
Proof.
  intros Hx. unfold merge_ranges. setoid_rewrite elem_of_reverse. set (sl := merge_sort key_le l).
  assert (Hp : sl ≡ₚ l) by apply merge_sort_Permutation. rewrite <-Hp in Hx.
  assert (Hs : StronglySorted (λ a b : Z * Z, a.1 <= b.1) sl).
  { eapply StronglySorted_weaken; [|apply (StronglySorted_merge_sort key_le)].
    intros [a1 a2] [b1 b2]. unfold pair_le, key_le; cbn. unfold pair_le, key_le; cbn. lia. }
  clearbody sl. clear l Hp.
  enough (H : ∀ out, (∀ s e out', out = (s, e) :: out' → Forall (λ r : Z * Z, s <= r.1) sl) →
    (∃ q, q ∈ out ∧ within x q) ∨ x ∈ sl → ∃ q, q ∈ foldl merge_one out sl ∧ within x q).
  { apply H; [done|by right]. }
  clear Hx. induction Hs as [|r sl Hs IH Hall]; intros out Hout Hx; cbn.
  { destruct Hx as [?|Hx%elem_of_nil]; done. }
  apply IH.
  - intros s e out' Hm. unfold merge_one in Hm. destruct out as [|[s0 e0] out]; [injection Hm as -> _; done|].
    specialize (Hout s0 e0 out eq_refl). apply Forall_cons in Hout as [Hr Hout].
    destruct (_ <=? _); [injection Hm as <- _ _; done|injection Hm as -> _; done].
  - rewrite elem_of_cons in Hx. destruct Hx as [Hq|[->|Hx]]; [left|left|by right];
      (apply merge_one_complete; [|tauto]); intros s e out' E; by destruct (proj1 (Forall_cons _ _ _) (Hout s e out' E)).
Qed.

Definition checked_ranges (request : CommitStreamSetObjectRequest) (s : Z) : list (Z * Z) :=
  default [] (((λ l : list (Z * (Z * Z)), merge_ranges l.*2) <$> foldl (push_at fst) ∅ (output_ranges request)) !! s).

Lemma group_lookup {A} (key : A → Z) (l : list A) k x :
  x ∈ default [] (foldl (push_at key) ∅ l !! k) ↔ x ∈ l ∧ key x = k.
Proof.
  induction l as [|y l IH] using rev_ind.
  { cbn [foldl]. rewrite lookup_empty. cbn. rewrite !elem_of_nil. tauto. }
  rewrite foldl_app. cbn [foldl]. set (g := foldl _ _ _) in *. unfold push_at.
  destruct (decide (key y = k)) as [<-|Hne].
  - rewrite lookup_insert_eq. match goal with |- context [default [] (Some ?l)] => change (default [] (Some l)) with l end.
    rewrite !elem_of_app, IH, !list_elem_of_singleton. naive_solver.
  - rewrite lookup_insert_ne by done. rewrite IH, elem_of_app, list_elem_of_singleton. naive_solver.
Qed.

Lemma checked_ranges_sound request s q o :
  q ∈ checked_ranges request s → covers_offset q o → ∃ r, (s, r) ∈ output_ranges request ∧ covers_offset r o.
Proof.
  unfold checked_ranges. rewrite lookup_fmap. intros Hq Ho.
  pose proof (group_lookup fst (output_ranges request) s) as Hg.
  destruct (foldl _ _ _ !! s) as [l|]; [|by apply elem_of_nil in Hq]. cbn in Hq, Hg.
  destruct (merge_ranges_sound _ _ _ Hq Ho) as (r & Hr & ?). apply list_elem_of_fmap in Hr as ([s' r'] & -> & Hr).
  apply Hg in Hr as [Hr <-]. by exists r'.
Qed.

Lemma checked_ranges_complete request s r :
  (s, r) ∈ output_ranges request → ∃ q, q ∈ checked_ranges request s ∧ within r q.
Proof.
  unfold checked_ranges. rewrite lookup_fmap. intros Hr.
  pose proof (proj2 (group_lookup fst (output_ranges request) s (s, r)) (conj Hr eq_refl)) as Hg.
  destruct (foldl _ _ _ !! s) as [l|]; [|by apply elem_of_nil in Hg]. cbn in Hg |- *.
  apply merge_ranges_complete. by apply (list_elem_of_fmap_2 snd) in Hg.
Qed.

Lemma sanity_check_spec streams block_map request :
  is_sanity_check_failed streams block_map request = false ↔
  ∀ id b start, id ∈ cr_compacted_object_ids request → b ∈ default [] (block_map !! id) →
    start_offsets streams !! sdb_stream_id b = Some start → start < sdb_end_offset b →
    ∃ q, q ∈ checked_ranges request (sdb_stream_id b) ∧ within (sdb_start_offset b, sdb_end_offset b) q.
Proof.
  unfold is_sanity_check_failed. rewrite <-not_true_iff_false, existsb_exists. split.
  - intros Hf id b start Hid Hb Hs Hlt.
    destruct (existsb (λ r : Z * Z, (r.1 <=? sdb_start_offset b) && (sdb_end_offset b <=? r.2))
      (checked_ranges request (sdb_stream_id b))) eqn:E.
    + apply existsb_exists in E as (q & Hq & Hw). exists q. split; [by apply list_elem_of_In|].
      unfold within. simpl. lia.
    + exfalso. apply Hf. exists id. split; [by apply list_elem_of_In|]. apply existsb_exists. exists b.
      split; [by apply list_elem_of_In|]. rewrite Hs, (proj2 (Z.leb_gt _ _)) by lia.
      change (negb (existsb (λ r : Z * Z, (r.1 <=? sdb_start_offset b) && (sdb_end_offset b <=? r.2))
        (checked_ranges request (sdb_stream_id b))) = true). by rewrite E.
  - intros H (id & Hid & Hx). apply existsb_exists in Hx as (b & Hb & Hx).
    destruct (start_offsets streams !! sdb_stream_id b) as [start|] eqn:Es; [|done].
    destruct (Z.leb_spec (sdb_end_offset b) start) as [|Hlt]; [done|].
    destruct (H id b start) as (q & Hq & Hw); [by apply list_elem_of_In|by apply list_elem_of_In|done|done|].
    apply negb_true_iff, not_true_iff_false in Hx. apply Hx, existsb_exists. exists q.
    split; [by apply list_elem_of_In|]. unfold within in Hw. simpl in Hw. lia.
Qed.
