(* ===== verification/CompactRun.v ===== *)
(** * Compaction rounds

    What the passes of [CompactionManager] ([s3stream-core/src/compact/mod.rs])
    achieve: the reads of a stage, the writes of its objects and the request
    of a run, over any object storage and metadata managers that meet their
    contracts. A run of the plans stores every block of the objects it
    compacts under its bytes and offsets, and its result passes the sanity
    check; a result that passes the check covers every live offset. *)

From Stdlib Require Import ZArith Lia.
From Stdlib Require Import Strings.Byte.
From stdpp Require Import base numbers list sorting gmap strings.
From S2P Require Import Prelude StreamTypes RecordCodec ObjectIndex ObjectStore ObjectIO Composite MetaState MetaService.
From S2P Require Import Upload EngineMeta Recovery Compact CompactExec.

Open Scope Z_scope.
Open Scope rust_scope.

(** ** A round moves every block *)
Lemma for_each_inv {S Mg A B} (P : list A → B → S * Mg → Prop) (body : A → B → @Round S Mg B) l acc x x' acc' :
  (∀ dn a rest b x x' b', l = dn ++ a :: rest → P dn b x → body a b x = Some (x', Ok b') → P (dn ++ [a]) b' x') →
  P [] acc x → for_each l acc body x = Some (x', Ok acc') → P l acc' x'.
Proof.
  intros Hstep. enough (Hgen : ∀ rest dn acc x, l = dn ++ rest → P dn acc x →
    for_each rest acc body x = Some (x', Ok acc') → P l acc' x') by (intros; by eapply (Hgen l [])).
  clear acc x. induction rest as [|a rest IH]; intros dn acc x Hl HP Hf; cbn [for_each] in Hf.
  { injection Hf as <- <-. by rewrite Hl, app_nil_r. }
  unfold rd_bind in Hf. destruct (body a acc x) as [[x1 [acc1|e]]|] eqn:E; [|done|done].
  eapply (IH (dn ++ [a])); [by rewrite Hl, <-app_assoc| |exact Hf]. by eapply Hstep.
Qed.

Section RunPlans.
Context {S W Mg : Type} `{HOS : ObjectStorage S W, HOC : !ObjectStorageContract S W}.
Context `{HEM : EngineMetadata Mg, HEC : !EngineMetadataContract Mg}.
Context (config : CompactionConfig) (running : nat → bool).
Hypothesis always_available : ∀ s : S, available s.

(** The source objects: their bytes by id, all below [n0]. *)
Context (src : Z → list byte) (n0 : Z) (s0 : S) (blocks : list StreamDataBlock).
Definition src_bytes (b : StreamDataBlock) : list byte := block_data (src (sdb_object_id b)) b.

Record sources_ok : Prop := {
  so_stored : ∀ b, b ∈ blocks → object s0 (gen_object_key (sdb_object_id b)) = Some (src (sdb_object_id b));
  so_inside : ∀ b, b ∈ blocks → in_object (src (sdb_object_id b)) b;
  so_small : ∀ b, b ∈ blocks → Z.of_nat (length (src (sdb_object_id b))) < two64;
  so_old : ∀ b, b ∈ blocks → 0 <= sdb_object_id b < n0;
  so_place : ∀ a b, a ∈ blocks → b ∈ blocks → sdb_object_id a = sdb_object_id b →
    sdb_start_position a = sdb_start_position b → a = b;
}.
Hypothesis Hsrc : sources_ok.

Lemma src_sized b : b ∈ blocks → sized src_bytes b.
Proof using Hsrc.
  intros Hb. destruct (so_inside Hsrc b Hb) as (? & ? & ?). unfold sized, src_bytes, block_data.
  rewrite length_byte_range by lia. lia.
Qed.

(** ** Reads of a stage *)
Definition holds_data (l : list StreamDataBlock) (data : BlockData) : Prop :=
  ∀ b, b ∈ l → data !! (sdb_object_id b, sdb_start_position b) = Some (src_bytes b).

Lemma data_of_holds l seen data :
  seen ⊆ blocks → l ⊆ blocks → holds_data seen data →
  holds_data (seen ++ l) (data_of ((λ b, {| fb_block := b; fb_data := src_bytes b |}) <$> l) data).
Proof using Hsrc always_available.
  revert seen data. induction l as [|x l IH]; intros seen data Hs Hl Hd; cbn [fmap list_fmap data_of foldl].
  { by rewrite app_nil_r. }
  replace (seen ++ x :: l) with ((seen ++ [x]) ++ l) by (by rewrite <-app_assoc).
  apply IH; [|set_solver|].
  - intros b [Hb|Hb%list_elem_of_singleton]%elem_of_app; [by apply Hs|]. subst. apply Hl. left.
  - intros b Hb. cbn [fb_block fb_data].
    destruct (decide ((sdb_object_id x, sdb_start_position x) = (sdb_object_id b, sdb_start_position b))) as [E|E].
    + rewrite E, lookup_insert_eq. injection E as E1 E2. f_equal. f_equal.
      apply (so_place Hsrc); [apply Hl; left| |done|done].
      apply elem_of_app in Hb as [Hb|Hb%list_elem_of_singleton]; [by apply Hs|subst; apply Hl; left].
    + rewrite lookup_insert_ne by done. apply Hd. apply elem_of_app in Hb as [?|Hb%list_elem_of_singleton]; [done|]. by subst.
Qed.

Definition sources_kept (s : S) : Prop :=
  ∀ id, 0 <= id < n0 → object s (gen_object_key id) = object s0 (gen_object_key id).

Lemma stage_reads_ok mbi plan (s : S) (m : Mg) x data :
  sources_kept s → reads_blocks plan → plan_blocks plan ⊆ blocks →
  (∀ id md, mbi !! id = Some md → om_object_id md = id) →
  stage_reads config mbi plan (s, m) = Some (x, Ok data) → x = (s, m) ∧ holds_data (plan_blocks plan) data.
Proof using Hsrc always_available.
  intros Hk [Hperm Hkey] Hsub Hmbi Hr. unfold stage_reads in Hr.
  set (reads := cp_stream_data_blocks_map plan) in *.
  assert (Hin : ∀ id l, (id, l) ∈ ord_list reads → Forall (λ b, sdb_object_id b = id) l ∧ l ⊆ blocks).
  { intros id l Hl. apply elem_of_ord_list in Hl. split; [by apply (Hkey _ _ Hl)|].
    intros b Hb. apply Hsub. rewrite <-Hperm. apply elem_of_map_blocks. eauto. }
  assert (Hres : x = (s, m) ∧ holds_data (concat (ord_list reads).*2) data ∧ concat (ord_list reads).*2 ⊆ blocks).
  { revert Hr. apply (for_each_inv (λ dn data x, x = (s, m) ∧ holds_data (concat dn.*2) data ∧ concat dn.*2 ⊆ blocks)).
    2: { split_and!; [done|intros b Hb; by apply elem_of_nil in Hb|by apply list_subseteq_nil]. }
    intros dn [id l] rest d x1 x2 d' Hl (-> & Hd & Hdn) Hb.
    assert ((id, l) ∈ ord_list reads) as Hl' by (rewrite Hl; apply elem_of_app; right; left). clear Hl. rename Hl' into Hl. destruct (mbi !! id) as [md|] eqn:Em; [|done].
    destruct (Hin id l Hl) as [Hids Hlb]. unfold rd_bind, reading in Hb.
    rewrite fmap_app, concat_app. cbn [fmap list_fmap concat snd]. rewrite app_nil_r.
    assert (Hrd : read_blocks s md l (max_batch config) = Ok ((λ b, {| fb_block := b; fb_data := src_bytes b |}) <$> l)).
    { destruct l as [|b0 l0] eqn:El; [done|]. rewrite <-El in *.
      assert (Hb0 : b0 ∈ l) by (rewrite El; left). rewrite Forall_forall in Hids.
      rewrite (read_blocks_ok s md (src id)).
      - f_equal. apply list_fmap_ext. intros i b Hi%list_elem_of_lookup_2. unfold fetched_from, src_bytes. by rewrite (Hids b Hi).
      - apply always_available.
      - unfold om_key. rewrite (Hmbi _ _ Em). rewrite <-(Hids b0 Hb0), Hk, (so_stored Hsrc) by (auto || by apply (so_old Hsrc), Hlb). done.
      - rewrite <-(Hids b0 Hb0). apply (so_small Hsrc). by apply Hlb.
      - apply Forall_forall. intros b Hbl. rewrite <-(Hids b Hbl). apply (so_inside Hsrc). by apply Hlb. }
    rewrite Hrd in Hb. injection Hb as <- <-. split_and!; [done|by apply data_of_holds|set_solver]. }
  destruct Hres as (-> & Hd & _). split; [done|]. intros b Hb. apply Hd.
  assert (concat (ord_list reads).*2 ≡ₚ plan_blocks plan) as ->; [|done].
  rewrite <-Hperm. apply concat_perm, fmap_Permutation, merge_sort_Permutation.
Qed.

(** ** Writes of a stage *)
Definition next_after (w : Written W) (splits : list CompactedObject) : Z :=
  n0 + Z.of_nat (length splits) + (if cu_stream_set_object_id (wr_uploader w) then 1 else 0).

(** [so] is the stream object of [c], written after [n0] and apart from the set object. *)
Definition written_split (s : S) (set_id : option Z) (limit : Z) (so : StreamObject) (c : CompactedObject) : Prop :=
  n0 <= so_object_id so < limit ∧ Some (so_object_id so) ≠ set_id ∧
  stored_blocks s (so_object_id so) (so_object_size so) src_bytes (co_blocks c) ∧
  ∃ first final, head (co_blocks c) = Some first ∧ last (co_blocks c) = Some final ∧
    so_stream_id so = sdb_stream_id first ∧ so_start_offset so = sdb_start_offset first ∧
    so_end_offset so = sdb_end_offset final.

Record progress (s : S) (m : Mg) (w : Written W) (splits : list CompactedObject) (set : list StreamDataBlock) : Prop := {
  pg_ok : mg_ok m;
  pg_next : next_object_id m = next_after w splits;
  pg_sources : sources_kept s;
  pg_splits : Forall2 (written_split s (cu_stream_set_object_id (wr_uploader w)) (next_object_id m))
                (wr_stream_objects w) splits;
  pg_set : wr_stream_set_blocks w = set;
  pg_writer :
    match cu_stream_set_object_id (wr_uploader w), cu_stream_set_writer (wr_uploader w) with
    | None, None => set = []
    | Some id, Some wr =>
        n0 <= id < next_object_id m ∧ set ≠ [] ∧ block_writer wr (gen_object_key id) (payload_of src_bytes set) set
    | _, _ => False
    end;
}.

(** Changing only keys at or after [limit], or of the set object, keeps what was written. *)
Lemma written_split_frame s s' set_id set_id' limit limit' so c :
  0 <= n0 → limit <= limit' → limit' < two64 → written_split s set_id limit so c →
  Some (so_object_id so) ≠ set_id' →
  (object s' (gen_object_key (so_object_id so)) = object s (gen_object_key (so_object_id so))) →
  written_split s' set_id' limit' so c.
Proof.
  intros Hn Hl Hl' (H1 & H2 & [H3 H4] & H5) Hid Ho. split; [lia|]. split; [done|]. split; [|done].
  split; [by rewrite Ho|done].
Qed.

Lemma prepare_progress s m w splits set m' id :
  0 <= n0 → progress s m w splits set → next_object_id m + 1 < two64 →
  mg_prepare_object m 1 OBJECT_TTL_MS = (m', Ok id) →
  mg_ok m' ∧ id = next_object_id m ∧ next_object_id m' = id + 1 ∧ n0 <= id < two64.
Proof.
  intros Hn Hp Hroom Hm. destruct (prepare_leases m 1 OBJECT_TTL_MS m' id) as (H1 & H2 & H3 & _); [apply Hp|int_lia|lia|done|].
  split_and!; [done|done|done| |lia]. subst id. rewrite (pg_next _ _ _ _ _ Hp). unfold next_after. destruct (cu_stream_set_object_id _); lia.
Qed.

Lemma bytes_of_src data l : holds_data l data → ∀ b, b ∈ l → bytes_of data b = src_bytes b.
Proof. intros Hd b Hb. unfold bytes_of. by rewrite (Hd b Hb). Qed.

Lemma bytes_of_sized data l : l ⊆ blocks → holds_data l data → Forall (sized (bytes_of data)) l.
Proof using Hsrc.
  intros Hl Hd. apply Forall_forall. intros b Hb. unfold sized. rewrite (bytes_of_src data l Hd b Hb).
  by apply src_sized, Hl.
Qed.

Lemma write_split_progress s m w splits set data c x so :
  0 <= n0 → progress s m w splits set → next_object_id m + 1 < two64 → stream_object c → co_blocks c ⊆ blocks →
  holds_data (co_blocks c) data →
  write_stream_object (cc_object_part_size config) s m c data = (x.1, x.2, Ok so) →
  ∃ o, so = Some o ∧
    progress x.1 x.2 {| wr_uploader := wr_uploader w; wr_stream_objects := wr_stream_objects w ++ [o];
                        wr_stream_set_blocks := wr_stream_set_blocks w |} (splits ++ [c]) set.
Proof using Hsrc.
  intros Hn Hp Hroom (Hty & Hne & _) Hsub Hd Hw. destruct x as [s' m']. cbn [fst snd] in *.
  unfold write_stream_object in Hw. rewrite bool_decide_true in Hw by done. cbn [negb] in Hw.
  rewrite bool_decide_false in Hw by done.
  destruct (mg_prepare_object m 1 OBJECT_TTL_MS) as [m1 [id|e]] eqn:Em; [|done].
  destruct (prepare_progress _ _ _ _ _ _ _ Hn Hp Hroom Em) as (M1 & M2 & M3 & M4).
  destruct (write_object_of _ s id _ data) as [s1 [o|e]] eqn:Ew; [|done]. cbn in Hw. injection Hw as <- <- <-.
  exists o. split; [done|]. apply write_object_of_ok in Ew as (W1 & W2 & W3 & W4); [|by apply bytes_of_sized].
  assert (Hkeys : ∀ i, 0 <= i < id → object s1 (gen_object_key i) = object s (gen_object_key i)).
  { intros i Hi. apply W4. apply key_ne; int_lia. }
  destruct Hp as [P1 P2 P3 P4 P5 P6].
  assert (Hset : Some id ≠ cu_stream_set_object_id (wr_uploader w)).
  { destruct (cu_stream_set_object_id (wr_uploader w)) as [i|]; [|done]. destruct (cu_stream_set_writer (wr_uploader w)); [|done].
    intros [= <-]. lia. }
  constructor; cbn; [done| | | |done|].
  - rewrite M3, M2, P2. unfold next_after. cbn. rewrite length_app. cbn. lia.
  - intros i Hi. rewrite Hkeys by lia. by apply P3.
  - apply Forall2_app; [|constructor; [|constructor]].
    + eapply Forall2_impl; [exact P4|]. intros so' c' Hsc. pose proof Hsc as (A1 & A2 & _).
      eapply (written_split_frame s s1 _ _ (next_object_id m)); [done| | |exact Hsc|done|apply Hkeys; lia]; lia.
    + split; [lia|]. rewrite W2. split; [done|]. split; [|done]. destruct W1 as [W5 W6].
      rewrite (payload_of_ext _ src_bytes) in W5, W6 by (by apply bytes_of_src). by split.
  - destruct (cu_stream_set_object_id (wr_uploader w)), (cu_stream_set_writer (wr_uploader w)); [|done..].
    destruct P6 as (P6 & ?). split; [lia|done].
Qed.

(** Feeding the open writer of the set object. *)
Lemma feed_set_progress s m w splits set id wr data l s' wr' :
  progress s m w splits set → cu_stream_set_object_id (wr_uploader w) = Some id →
  n0 <= id < next_object_id m → block_writer wr (gen_object_key id) (payload_of src_bytes set) set →
  l ≠ [] → holds_data l data → write_blocks s wr l data = (s', wr', Ok tt) →
  progress s' m {| wr_uploader := {| cu_stream_set_object_id := Some id; cu_stream_set_writer := Some wr';
                                     cu_bucket_id := cu_bucket_id (wr_uploader w) |};
                   wr_stream_objects := wr_stream_objects w; wr_stream_set_blocks := wr_stream_set_blocks w ++ l |}
    splits (set ++ l).
Proof.
  intros [P1 P2 P3 P4 P5 P6] Hid Hr Hw Hne Hd He. destruct (write_blocks_ok _ _ _ _ _ _ _ _ _ Hw He) as [Hw' Ho].
  rewrite (payload_of_ext _ src_bytes l), <-payload_of_app in Hw' by (by apply bytes_of_src).
  constructor; cbn; [done| | | |by rewrite P5|].
  - rewrite P2. unfold next_after. cbn. by rewrite Hid.
  - intros i Hi. rewrite Ho. by apply P3.
  - rewrite Hid in P4. eapply Forall2_impl; [exact P4|]. intros so c (A1 & A2 & [A3 A4] & A5).
    split; [done|]. split; [done|]. split; [|done]. split; [by rewrite Ho|done].
  - split_and!; [lia|lia|by destruct set|done].
Qed.

Lemma open_set_progress s m w splits set m' id s' wr :
  0 <= n0 → progress s m w splits set → next_object_id m + 1 < two64 → cu_stream_set_object_id (wr_uploader w) = None →
  mg_prepare_object m 1 OBJECT_TTL_MS = (m', Ok id) → dw_open s id (cc_object_part_size config) = (s', Ok wr) →
  set = [] ∧ n0 <= id < next_object_id m' ∧ block_writer wr (gen_object_key id) [] [] ∧
  mg_ok m' ∧ next_object_id m' = n0 + Z.of_nat (length splits) + 1 ∧ sources_kept s' ∧
  Forall2 (written_split s' (Some id) (next_object_id m')) (wr_stream_objects w) splits.
Proof.
  intros Hn Hp Hroom Hid Em Eo. destruct (prepare_progress _ _ _ _ _ _ _ Hn Hp Hroom Em) as (M1 & M2 & M3 & M4).
  apply dw_open_ok in Eo as [Hw Ho]. destruct Hp as [P1 P2 P3 P4 P5 P6]. rewrite Hid in P6.
  destruct (cu_stream_set_writer (wr_uploader w)); [done|]. unfold next_after in P2. rewrite Hid in P2.
  split_and!; [done|lia|lia|done|done|lia| |].
  - intros i Hi. rewrite Ho. by apply P3.
  - eapply Forall2_impl; [exact P4|]. intros so c Hsc. pose proof Hsc as (A1 & _).
    eapply (written_split_frame s s' _ _ (next_object_id m)); [done| | |exact Hsc| |by rewrite Ho]; [lia|lia|].
    intros [= E]. lia.
Qed.

Lemma write_set_progress s m w splits set data c s' m' u' :
  0 <= n0 → progress s m w splits set → next_object_id m + 1 < two64 → set_object c → holds_data (co_blocks c) data →
  write_stream_set_object (cc_object_part_size config) s m (wr_uploader w) c data = (s', m', u', Ok tt) →
  progress s' m' {| wr_uploader := u'; wr_stream_objects := wr_stream_objects w;
                    wr_stream_set_blocks := wr_stream_set_blocks w ++ co_blocks c |} splits (set ++ co_blocks c).
Proof.
  intros Hn Hp Hroom (Hty & Hne & _) Hd Hw. unfold write_stream_set_object in Hw.
  rewrite bool_decide_true in Hw by done. cbn [negb] in Hw. rewrite bool_decide_false in Hw by done.
  pose proof (pg_writer _ _ _ _ _ Hp) as Hwr.
  destruct (cu_stream_set_writer (wr_uploader w)) as [wr|] eqn:Ew.
  - destruct (write_blocks s wr (co_blocks c) data) as [[s1 wr1] [[]|e]] eqn:Eb; [|done]. injection Hw as <- <- <-.
    destruct (cu_stream_set_object_id (wr_uploader w)) as [id|] eqn:Eid; [|done]. destruct Hwr as (Hid & Hsn & Hbw).
    by eapply feed_set_progress.
  - destruct (cu_stream_set_object_id (wr_uploader w)) as [id|] eqn:Eid; [done|].
    destruct (mg_prepare_object m 1 OBJECT_TTL_MS) as [m1 [id|e]] eqn:Em; [|done].
    destruct (dw_open s id _) as [s1 [wr|e]] eqn:Eo; [|done].
    destruct (open_set_progress _ _ _ _ _ _ _ _ _ Hn Hp Hroom Eid Em Eo) as (-> & Hid & Hbw & O1 & O2 & O3 & O4).
    destruct (write_blocks s1 wr (co_blocks c) data) as [[s2 wr1] [[]|e]] eqn:Eb; [|done]. injection Hw as <- <- <-.
    destruct (write_blocks_ok _ _ _ _ _ _ _ _ _ Hbw Eb) as [Hw' Ho].
    rewrite (payload_of_ext _ src_bytes (co_blocks c)) in Hw' by (by apply bytes_of_src). cbn in Hw'.
    constructor; cbn; [done| | | |by rewrite (pg_set _ _ _ _ _ Hp)|].
    + unfold next_after. cbn. lia.
    + intros i Hi. rewrite Ho. by apply O3.
    + eapply Forall2_impl; [exact O4|]. intros so c' (A1 & A2 & [A3 A4] & A5).
      split; [done|]. split; [done|]. split; [|done]. split; [by rewrite Ho|done].
    + split_and!; [lia|lia|done|done].
Qed.

Definition splits_of (l : list CompactedObject) : list CompactedObject := filter (λ c, co_type c = Split) l.
Definition sets_of (l : list CompactedObject) : list StreamDataBlock :=
  concat (co_blocks <$> filter (λ c, co_type c = Compact) l).

Definition writable (c : CompactedObject) : Prop := stream_object c ∨ set_object c.

Lemma length_splits l : (length (splits_of l) <= length l)%nat.
Proof. apply length_filter. Qed.

Lemma stage_write_progress (total : nat) dn splits set data c w x x' w' :
  0 <= n0 → n0 + Z.of_nat total + 2 < two64 → (length (splits ++ splits_of (dn ++ [c])) <= total)%nat →
  writable c → co_blocks c ⊆ blocks → holds_data (co_blocks c) data →
  progress x.1 x.2 w (splits ++ splits_of dn) (set ++ sets_of dn) →
  stage_write config data c w x = Some (x', Ok w') →
  progress x'.1 x'.2 w' (splits ++ splits_of (dn ++ [c])) (set ++ sets_of (dn ++ [c])).
Proof using Hsrc.
  intros Hn Hroom Hlen Hc Hsub Hd Hp Hw. destruct x as [s m], x' as [s' m']. cbn [fst snd] in *.
  unfold splits_of, sets_of in *. rewrite !filter_app in *. cbn [filter list_filter] in *. unfold stage_write in Hw.
  rewrite !length_app in Hlen.
  destruct Hc as [Hc|Hc]; pose proof Hc as (Hty & _); rewrite Hty in Hw.
  - destruct (decide (co_type c = Split)); [|done]. destruct (decide (co_type c = Compact)); [congruence|].
    rewrite app_nil_r. cbn in Hlen.
    unfold rd_bind, on_both in Hw. destruct (write_stream_object _ s m c data) as [[s1 m1] [so|err]] eqn:Ew; [|done].
    injection Hw as <- <- <-. assert (Hr : next_object_id m + 1 < two64).
    { rewrite (pg_next _ _ _ _ _ Hp). unfold next_after. rewrite length_app. destruct (cu_stream_set_object_id _); lia. }
    destruct (write_split_progress _ _ _ _ _ data c (s1, m1) so Hn Hp Hr Hc Hsub Hd Ew) as (o & -> & Hp').
    rewrite <-app_assoc in Hp'. exact Hp'.
  - destruct (decide (co_type c = Split)); [congruence|]. destruct (decide (co_type c = Compact)); [|done].
    rewrite app_nil_r. rewrite fmap_app, concat_app. cbn [fmap list_fmap concat]. rewrite app_nil_r, app_assoc.
    destruct (write_stream_set_object _ s m (wr_uploader w) c data) as [[[s1 m1] u1] [[]|err]] eqn:Ew; [|done].
    injection Hw as <- <- <-. eapply write_set_progress; [done|exact Hp| |done..].
    rewrite (pg_next _ _ _ _ _ Hp). unfold next_after. rewrite length_app. cbn in Hlen. destruct (cu_stream_set_object_id _); lia.
Qed.

Lemma splits_of_app l1 l2 : splits_of (l1 ++ l2) = splits_of l1 ++ splits_of l2.
Proof. apply filter_app. Qed.
Lemma sets_of_app l1 l2 : sets_of (l1 ++ l2) = sets_of l1 ++ sets_of l2.
Proof. unfold sets_of. by rewrite filter_app, fmap_app, concat_app. Qed.

Definition runnable (p : CompactionPlan) : Prop :=
  reads_blocks p ∧ Forall writable (cp_compacted_objects p) ∧ plan_blocks p ⊆ blocks.

Definition all_objects (plans : list CompactionPlan) : list CompactedObject := concat (cp_compacted_objects <$> plans).

Lemma object_blocks_sub p c : runnable p → c ∈ cp_compacted_objects p → co_blocks c ⊆ plan_blocks p.
Proof.
  intros _ Hc b Hb. apply elem_of_concat_map. by exists c.
Qed.

Lemma plan_progress (total : nat) p w splits set x x' w' data :
  0 <= n0 → n0 + Z.of_nat total + 2 < two64 → runnable p →
  (length (splits ++ splits_of (cp_compacted_objects p)) <= total)%nat →
  holds_data (plan_blocks p) data → progress x.1 x.2 w splits set →
  for_each (cp_compacted_objects p) w (stage_write config data) x = Some (x', Ok w') →
  progress x'.1 x'.2 w' (splits ++ splits_of (cp_compacted_objects p)) (set ++ sets_of (cp_compacted_objects p)).
Proof using Hsrc.
  intros Hn Hroom Hrun Hlen Hd Hp.
  apply (for_each_inv (λ dn w x, progress x.1 x.2 w (splits ++ splits_of dn) (set ++ sets_of dn)));
    [|by cbn; rewrite !app_nil_r].
  intros dn c rest w1 x1 x2 w2 Hl Hp1 Hw1. destruct Hrun as (Hr1 & Hr2 & Hr3).
  assert (Hc : c ∈ cp_compacted_objects p) by (rewrite Hl; apply elem_of_app; right; left).
  assert (Hcb : co_blocks c ⊆ plan_blocks p) by (by apply object_blocks_sub).
  eapply (stage_write_progress total); [done|done| | | | |exact Hp1|exact Hw1].
  - rewrite Hl in Hlen. replace (dn ++ c :: rest) with ((dn ++ [c]) ++ rest) in Hlen by (by rewrite <-app_assoc).
    rewrite splits_of_app, !length_app in Hlen. rewrite length_app. lia.
  - rewrite Forall_forall in Hr2. by apply Hr2.
  - etrans; [exact Hcb|done].
  - intros b Hb. by apply Hd, Hcb.
Qed.

Lemma plan_loop_progress (total : nat) mbi plans : ∀ k w splits set x x' w',
  0 <= n0 → n0 + Z.of_nat total + 2 < two64 → Forall runnable plans →
  (∀ id md, mbi !! id = Some md → om_object_id md = id) →
  (length (splits ++ splits_of (all_objects plans)) <= total)%nat →
  progress x.1 x.2 w splits set →
  plan_loop config running k mbi plans w x = Some (x', Ok (Some w')) →
  progress x'.1 x'.2 w' (splits ++ splits_of (all_objects plans)) (set ++ sets_of (all_objects plans)).
Proof using Hsrc always_available.
  induction plans as [|p plans IH]; intros k w splits set x x' w' Hn Hroom Hrun Hmbi Hlen Hp Hl; cbn [plan_loop] in Hl.
  { injection Hl as <- <-. cbn. by rewrite !app_nil_r. }
  destruct (running k); [|done]. cbn [negb] in Hl. apply Forall_cons in Hrun as [Hr Hrun]. unfold rd_bind at 1 in Hl.
  unfold all_objects in *. cbn [fmap list_fmap concat] in *. fold (all_objects plans) in *.
  rewrite splits_of_app, sets_of_app, !app_assoc in *. destruct x as [s m].
  destruct (stage_reads config mbi p (s, m)) as [[x1 [data|e]]|] eqn:Er; [|done|done]. unfold rd_bind in Hl.
  destruct (stage_reads_ok mbi p s m x1 data) as [-> Hd]; [apply Hp|apply Hr|apply Hr|done|done|].
  destruct (for_each _ _ _ (s, m)) as [[x2 [w1|e]]|] eqn:Ew; [|done|done].
  eapply (plan_progress total) in Ew; [|done|done|done| |done|exact Hp].
  2: { rewrite length_app in Hlen. lia. }
  eapply (IH _ _ _ _ x2); [done|done|done|done| |exact Ew|exact Hl]. done.
Qed.

(** ** The request of a run *)
(** The request commits object [id] with the range [lo, hi) of stream [sid]. *)
Definition commits (req : CommitStreamSetObjectRequest) (id size sid lo hi : Z) : Prop :=
  (id = cr_object_id req ∧ size = cr_object_size req ∧
   ∃ r, r ∈ cr_stream_ranges req ∧ osr_stream_id r = sid ∧ osr_start_offset r = lo ∧ osr_end_offset r = hi) ∨
  (∃ so, so ∈ cr_stream_objects req ∧ so_object_id so = id ∧ so_object_size so = size ∧ so_stream_id so = sid ∧
     so_start_offset so = lo ∧ so_end_offset so = hi).

(** [b] is stored with its bytes in an object the request commits, and the
    committed range has its offsets. *)
Definition moved (plans : list CompactionPlan) (s : S) (req : CommitStreamSetObjectRequest) (b : StreamDataBlock) : Prop :=
  ∃ id size held lo hi, stored_blocks s id size src_bytes held ∧ held ⊆+ concat (plan_blocks <$> plans) ∧ b ∈ held ∧
    commits req id size (sdb_stream_id b) lo hi ∧ lo <= sdb_start_offset b ∧ sdb_end_offset b <= hi.

Lemma plans_blocks plans : concat (plan_blocks <$> plans) = concat (co_blocks <$> all_objects plans).
Proof.
  unfold plan_blocks, all_objects. induction plans as [|p plans IH]; [done|]. cbn. by rewrite IH, fmap_app, concat_app.
Qed.
Lemma object_submseteq plans c : c ∈ all_objects plans → co_blocks c ⊆+ concat (plan_blocks <$> plans).
Proof.
  intros (l1 & l2 & E)%list_elem_of_split. rewrite plans_blocks, E, fmap_app, concat_app. cbn.
  apply submseteq_inserts_l, submseteq_inserts_r. done.
Qed.
Lemma sets_submseteq plans : sets_of (all_objects plans) ⊆+ concat (plan_blocks <$> plans).
Proof.
  rewrite plans_blocks. unfold sets_of. induction (all_objects plans) as [|c l IH]; [done|]. rewrite filter_cons.
  destruct (decide _); cbn; [by apply submseteq_app|by apply submseteq_inserts_l].
Qed.

Lemma run_member g first final b :
  Forall block_typed g → Sorted run g → head g = Some first → last g = Some final → b ∈ g →
  sdb_start_offset first <= sdb_start_offset b ∧ sdb_end_offset b <= sdb_end_offset final.
Proof.
  intros Ht Hs Hf Hl Hb. apply list_elem_of_split in Hb as (l1 & l2 & ->).
  apply Sorted_app_iff in Hs as (Hs1 & Hs2 & Hs3). pose proof Ht as [Ht1 Ht2]%Forall_app.
  pose proof Ht2 as [Htb _]%Forall_cons. destruct (block_end b Htb) as (_ & ? & _). split.
  - destruct (last l1) as [a|] eqn:El1; [|apply last_None in El1 as ->; simplify_eq/=; lia].
    destruct (Hs3 a b eq_refl eq_refl) as [_ Hab]. destruct l1 as [|x l1]; [done|]. injection Hf as ->.
    destruct (run_span (first :: l1) first a Ht1 Hs1) as [_ ?]; [done|exact El1|]. lia.
  - rewrite last_app in Hl. destruct (last (b :: l2)) as [z|] eqn:Ez; [|by apply last_None in Ez]. injection Hl as ->.
    destruct l2 as [|y l2]; [injection Ez as ->; lia|]. apply Sorted_inv in Hs2 as [Hs2 Hd].
    inversion_clear Hd as [|? ? [_ Hby]]. apply Forall_cons in Ht2 as [_ Ht2].
    destruct (run_span (y :: l2) y final Ht2 Hs2) as [_ ?]; [done|exact Ez|]. lia.
Qed.

(** The stream ranges of a request cover the blocks of the set object. *)
Lemma set_ranges_cover set b :
  Forall block_typed set → b ∈ set →
  ∃ r, r ∈ build_object_stream_ranges_from_group (group_stream_data_blocks offset_test set offset_new) ∧
    osr_stream_id r = sdb_stream_id b ∧ osr_start_offset r <= sdb_start_offset b ∧ sdb_end_offset b <= osr_end_offset r.
Proof.
  intros Ht Hb. assert (Hsm : Forall small_stream set) by (eapply Forall_impl; [exact Ht|]; by intros x (_ & ? & _)).
  destruct (group_by_offset_ok set Hsm) as [Hc Hg]. set (groups := group_stream_data_blocks _ _ _) in *.
  assert (∃ g, g ∈ groups ∧ b ∈ g) as (g & Hgi & Hbg).
  { by apply elem_of_concat_list; rewrite Hc. }
  rewrite Forall_forall in Hg. destruct (Hg g Hgi) as [Hne Hs].
  destruct (head g) as [first|] eqn:Ef; [|by destruct g]. destruct (last g) as [final|] eqn:El; [|by apply last_None in El].
  assert (Htg : Forall block_typed g).
  { apply Forall_forall. intros x Hx. rewrite Forall_forall in Ht. apply Ht. rewrite <-Hc.
    apply elem_of_concat_list. by exists g. }
  destruct (run_member g first final b Htg Hs Ef El Hbg) as [H1 H2]. eexists. split.
  - apply list_elem_of_omap. exists g. split; [done|]. by rewrite Ef, El.
  - cbn. split_and!; [|done|done]. symmetry. by apply (run_stream g first).
Qed.

Lemma metadata_keys (objects : list S3ObjectMetadata) id md :
  foldl (λ m o, <[om_object_id o := o]> m) (∅ : gmap Z S3ObjectMetadata) objects !! id = Some md → om_object_id md = id.
Proof.
  induction objects as [|o l IH] using rev_ind; [cbn; by rewrite lookup_empty|]. rewrite foldl_app. cbn [foldl].
  rewrite lookup_insert_Some. intros [[<- <-]|[_ ?]]; [done|]. by apply IH.
Qed.

(** Closing the set object keeps the stream objects. *)
Lemma complete_progress s m w splits set s' u size :
  0 <= n0 → progress s m w splits set → next_object_id m < two64 → set ⊆ blocks →
  complete s (wr_uploader w) = (s', u, Ok size) →
  cu_stream_set_object_id u = cu_stream_set_object_id (wr_uploader w) ∧
  (∀ so c, written_split s (cu_stream_set_object_id (wr_uploader w)) (next_object_id m) so c →
     stored_blocks s' (so_object_id so) (so_object_size so) src_bytes (co_blocks c)) ∧
  (set ≠ [] → ∃ id, cu_stream_set_object_id u = Some id ∧ stored_blocks s' id size src_bytes set).
Proof using Hsrc.
  intros Hn [P1 P2 P3 P4 P5 P6] Hroom Hsub Hc. unfold complete in Hc.
  destruct (cu_stream_set_writer (wr_uploader w)) as [wr|] eqn:Ew.
  - destruct (dw_close s wr) as [s1 [[sz bucket]|e]] eqn:Ed; [|done]. injection Hc as <- <- <-.
    destruct (cu_stream_set_object_id (wr_uploader w)) as [id|]; [|done]. destruct P6 as (Hid & Hne & Hbw).
    assert (Hsz : Forall (sized src_bytes) set) by (apply Forall_forall; intros b Hb; by apply src_sized, Hsub).
    apply (dw_close_ok _ _ _ _ _ _ _ _ Hbw) in Ed as (D1 & D2 & D3); [|by apply length_payload]. split_and!; [done| |].
    + intros so c (A1 & A2 & [A3 A4] & _). split; [|done]. rewrite D3; [done|]. apply key_ne; [int_lia|int_lia|congruence].
    + intros _. by exists id.
  - injection Hc as <- <- <-. split_and!; [done|by intros so c (_ & _ & ? & _)|].
    destruct (cu_stream_set_object_id (wr_uploader w)); [done|]. by rewrite P6.
Qed.

Lemma run_plans_moves objects plans m0 x req :
  plans ≠ [] → Forall runnable plans → Forall block_typed blocks →
  0 <= n0 → mg_ok m0 → next_object_id m0 = n0 → n0 + Z.of_nat (length (all_objects plans)) + 2 < two64 →
  run_plans config running objects plans (s0, m0) = Some (x, Ok (Some req)) →
  ∀ b, b ∈ concat (plan_blocks <$> plans) → moved plans x.1 req b.
Proof using Hsrc always_available.
  intros Hne Hrun Ht Hn Hm Hnext Hroom Hr b Hb. unfold run_plans in Hr.
  destruct plans as [|p0 ps] eqn:Ep; [done|]. rewrite <-Ep in *. clear Hne. unfold rd_bind at 1 in Hr.
  destruct (plan_loop _ _ _ _ _ _ _) as [[x1 [[w|]|e]]|] eqn:El; [|done..].
  pose proof (length_splits (all_objects plans)) as Hls.
  eapply (plan_loop_progress (length (all_objects plans)) _ _ _ _ [] []) in El;
    [|done|done|done|apply metadata_keys|done|].
  2: { constructor; cbn; [done| |by intros i Hi|constructor|done|done]. unfold next_after. cbn. lia. }
  cbn [app] in El. unfold rd_bind, on_storage in Hr. destruct x1 as [s1 m1]. cbn [fst snd] in El.
  destruct (complete s1 (wr_uploader w)) as [[s2 u] [size|e]] eqn:Ec; [|done]. cbn in Hr. injection Hr as <- <-.
  assert (Hob : ∀ c z, c ∈ all_objects plans → z ∈ co_blocks c → z ∈ blocks).
  { intros c z Hc Hz. apply elem_of_concat_map in Hc as (p & Hp & Hc). rewrite Forall_forall in Hrun.
    destruct (Hrun p Hp) as (_ & _ & Hpb). by apply Hpb, (object_blocks_sub p c (Hrun p Hp)). }
  assert (Hset : sets_of (all_objects plans) ⊆ blocks).
  { intros z Hz. apply elem_of_concat_map in Hz as (c & [_ Hc]%list_elem_of_filter & Hz). by apply (Hob c). }
  assert (Hnx : next_object_id m1 < two64).
  { rewrite (pg_next _ _ _ _ _ El). unfold next_after. destruct (cu_stream_set_object_id _); lia. }
  destruct (complete_progress _ _ _ _ _ _ _ _ Hn El Hnx Hset Ec) as (Hid & Hsp & Hst).
  assert (∃ c, c ∈ all_objects plans ∧ b ∈ co_blocks c ∧ writable c) as (c & Hc & Hbc & Hwr).
  { apply elem_of_concat_map in Hb as (p & Hp & Hb). apply elem_of_concat_map in Hb as (c & Hc & Hb).
    exists c. rewrite Forall_forall in Hrun. destruct (Hrun p Hp) as (_ & Hw & _). rewrite Forall_forall in Hw.
    split_and!; [apply elem_of_concat_map; by exists p|done|by apply Hw]. }
  destruct Hwr as [(Hty & _ & Hs)|(Hty & _)].
  - assert (Hcs : c ∈ splits_of (all_objects plans)) by (by apply list_elem_of_filter).
    apply list_elem_of_lookup in Hcs as [i Hi]. destruct (Forall2_lookup_r _ _ _ _ _ (pg_splits _ _ _ _ _ El) Hi) as (so & Hso & Hws).
    pose proof Hws as (_ & _ & _ & first & final & Hf & Hl & E1 & E2 & E3).
    assert (Htc : Forall block_typed (co_blocks c)).
    { apply Forall_forall. intros z Hz. rewrite Forall_forall in Ht. by apply Ht, (Hob c). }
    destruct (run_member _ _ _ b Htc Hs Hf Hl Hbc) as [R1 R2].
    exists (so_object_id so), (so_object_size so), (co_blocks c), (sdb_start_offset first), (sdb_end_offset final).
    split_and!; [by apply Hsp|by apply object_submseteq|done| |done|done]. right. exists so.
    split_and!; [by apply list_elem_of_lookup_2 in Hso|done|done| |done|done]. rewrite E1. symmetry. by apply (run_stream (co_blocks c)).
  - assert (Hbs : b ∈ sets_of (all_objects plans)).
    { apply elem_of_concat_map. exists c. split; [|done]. by apply list_elem_of_filter. }
    assert (Hts : Forall block_typed (sets_of (all_objects plans))).
    { apply Forall_forall. intros z Hz. rewrite Forall_forall in Ht. by apply Ht, Hset. }
    destruct (Hst ltac:(by intros E; rewrite E in Hbs; apply elem_of_nil in Hbs)) as (id & Hu & Hstored).
    destruct (set_ranges_cover _ b Hts Hbs) as (r & Hr & R1 & R2 & R3).
    exists id, size, (sets_of (all_objects plans)), (osr_start_offset r), (osr_end_offset r).
    split_and!; [done|apply sets_submseteq|done| |done|done]. left. cbn. rewrite (pg_set _ _ _ _ _ El), Hu.
    split_and!; [done|done|]. by exists r.
Qed.
End RunPlans.

(** ** The claims *)

(** The reference: one ranged read per block. *)
Fixpoint read_each {S W} `{ObjectStorage S W} (s : S) (metadata : S3ObjectMetadata) (blocks : list StreamDataBlock) :
    result (list FetchedBlock) EngineError :=
  match blocks with
  | [] => Ok []
  | b :: blocks =>
      let? data := dbr_range_read s metadata (sdb_start_position b) (sdb_end_position b) in
      let? rest := read_each s metadata blocks in
      Ok ({| fb_block := b; fb_data := data |} :: rest)
  end.

(** C40: reading blocks in batches, several adjacent blocks in one request
    and a large block in several, is reading every block by itself: for any
    batch size, any order of the blocks and any gaps between them the answer
    is the blocks in order, each with the bytes at its place in the object. *)
Theorem batched_reads_are_block_reads {S W} `{ObjectStorageContract S W} (s : S) md data max blocks :
  available s → object s (om_key md) = Some data → Z.of_nat (length data) < two64 → Forall (in_object data) blocks →
  read_blocks s md blocks max = read_each s md blocks ∧
  read_blocks s md blocks max =
    Ok ((λ b, {| fb_block := b; fb_data := byte_range data (sdb_start_position b) (sdb_start_position b + sdb_size b) |}) <$> blocks).
Proof.
  intros Hav Hobj Hlen Hin. rewrite (read_blocks_ok s md data Hav Hobj Hlen max blocks Hin). split; [|done].
  induction Hin as [|b blocks Hb Hin IH]; [done|]. cbn [read_each]. rewrite <-IH.
  rewrite (end_position_in data Hlen b Hb). destruct Hb as (? & ? & ?). by rewrite (dbr_range_read_ok s md data) by (done || lia).
Qed.

Definition demo_bytes : list byte := [x01; x02; x03; x04; x05; x06; x07; x08; x09; x0a].
Definition demo_sources : MemoryObjectStorage := {|
  mo_objects := {[ gen_object_key 0 := (demo_bytes, 0); gen_object_key 1 := (demo_bytes, 0) ]};
  mo_bucket_id := 0; mo_now_ms := 0 |}.
Definition demo_source (id : Z) : S3ObjectMetadata := {|
  om_object_id := id; om_object_type := StreamSet; om_offset_ranges := []; om_object_size := 10;
  om_attributes := 0; om_committed_timestamp_ms := 0; om_data_timestamp_ms := 0 |}.
Definition demo_block (stream_id start_offset end_offset object_id position size : Z) : StreamDataBlock :=
  stream_data_block_new stream_id start_offset end_offset object_id position size 1.

Lemma batched_reads_are_block_reads_witness :
  read_blocks demo_sources (demo_source 0)
    [demo_block 1 0 5 0 0 2; demo_block 1 5 9 0 2 3; demo_block 2 0 4 0 6 4] 3 =
  Ok [{| fb_block := demo_block 1 0 5 0 0 2; fb_data := [x01; x02] |};
      {| fb_block := demo_block 1 5 9 0 2 3; fb_data := [x03; x04; x05] |};
      {| fb_block := demo_block 2 0 4 0 6 4; fb_data := [x07; x08; x09; x0a] |}].
Proof.
  refine (proj2 (batched_reads_are_block_reads demo_sources (demo_source 0) demo_bytes 3 _ _ _ _ _)).
  - done.
  - by vm_compute.
  - by vm_compute.
  - repeat constructor; vm_compute; congruence.
Defined.

(** the sanity check is sound and does not reject a complete result. A
    request passes it exactly when every live block of the compacted objects
    lies in the merged output ranges of its stream; then every offset of
    such a block is in an output range of the request. *)
Theorem passed_check_covers_live_offsets streams block_map request :
  (is_sanity_check_failed streams block_map request = false →
   ∀ id b start o, id ∈ cr_compacted_object_ids request → b ∈ default [] (block_map !! id) →
     start_offsets streams !! sdb_stream_id b = Some start → start < sdb_end_offset b →
     sdb_start_offset b <= o < sdb_end_offset b →
     ∃ r, (sdb_stream_id b, r) ∈ output_ranges request ∧ r.1 <= o < r.2) ∧
  ((∀ id b, id ∈ cr_compacted_object_ids request → b ∈ default [] (block_map !! id) →
      ∃ r, (sdb_stream_id b, r) ∈ output_ranges request ∧ r.1 <= sdb_start_offset b ∧ sdb_end_offset b <= r.2) →
   is_sanity_check_failed streams block_map request = false).
Proof.
  rewrite sanity_check_spec. split.
  - intros H id b start o Hid Hb Hs Hlt Ho. destruct (H id b start Hid Hb Hs Hlt) as (q & Hq & Hw).
    destruct (checked_ranges_sound request _ q o Hq) as (r & Hr & ?); [|by exists r].
    unfold within in Hw. unfold covers_offset. simpl in Hw. lia.
  - intros H id b start Hid Hb _ _. destruct (H id b Hid Hb) as (r & Hr & ? & ?).
    destruct (checked_ranges_complete request _ r Hr) as (q & Hq & Hw). exists q. split; [done|].
    unfold within in *. simpl. lia.
Qed.

(** What a round starts from: the blocks of its objects, which are stored,
    readable, below the ids still to come and within the widths. *)
Record round_input {S W Mg} `{ObjectStorageContract S W} `{EngineMetadataContract Mg} (config : CompactionConfig)
    (src : Z → list byte) (s : S) (m : Mg) (bm : BlockMap) : Prop := {
  ri_metadata : mg_ok m;
  ri_plannable : plannable (analyzer_of config) bm;
  ri_typed : Forall block_typed (map_blocks bm);
  ri_sources : sources_ok src (next_object_id m) s (map_blocks bm);
  ri_bytes : sum_sizes (map_blocks bm) < two63;
  ri_index : 36 * Z.of_nat (length (map_blocks bm)) < two32;
  ri_ids : next_object_id m + Z.of_nat (length (map_blocks bm)) + 2 < two64;
}.

(** Block [b] is served by an object the request commits: the committed
    range has its offsets, and a reader of the object gets its bytes. *)
Definition kept {S W} `{ObjectStorage S W} (src : Z → list byte) (s : S) (req : CommitStreamSetObjectRequest)
    (b : StreamDataBlock) : Prop :=
  ∃ id size lo hi held, commits req id size (sdb_stream_id b) lo hi ∧
    lo <= sdb_start_offset b ∧ sdb_end_offset b <= hi ∧ b ∈ held ∧
    ∀ md, om_object_id md = id → om_object_size md = size → serves_blocks s md (src_bytes src) held.

Lemma sum_sizes_submseteq l1 l2 : Forall (λ b, 0 < sdb_size b) l2 → l1 ⊆+ l2 → sum_sizes l1 <= sum_sizes l2.
Proof.
  intros Hp [k Hk]%submseteq_Permutation. rewrite (sum_sizes_perm _ _ Hk), sum_sizes_app.
  rewrite Hk in Hp. apply Forall_app in Hp as [_ Hp]. pose proof (sum_sizes_pos k Hp). lia.
Qed.

Lemma blocks_to_move_sub m removed : blocks_to_move m removed ⊆+ map_blocks m.
Proof.
  unfold blocks_to_move. etrans; [apply sublist_submseteq, sublist_filter|].
  assert (∃ k, map_blocks m ≡ₚ map_blocks (filter_blocks_to_compact m) ++ k) as [k ->] by apply filter_map_blocks.
  by apply submseteq_inserts_r.
Qed.

(** Every block of a compacted object is in the plans. *)
Lemma compacted_blocks_planned m removed plans id b :
  keyed m → concat (plan_blocks <$> plans) ≡ₚ blocks_to_move m removed → Forall reads_blocks plans →
  id ∈ compacted_ids plans m → b ∈ default [] (m !! id) → b ∈ concat (plan_blocks <$> plans).
Proof.
  intros Hk Hp Hr Hid Hb. unfold compacted_ids in Hid. apply elem_of_ord_elems, elem_of_union in Hid as [Hid|Hid].
  - apply elem_of_list_to_set, list_elem_of_fmap in Hid as (x & -> & Hx).
    apply elem_of_concat_map in Hx as (p & Hpp & Hx). rewrite Forall_forall in Hr. destruct (Hr p Hpp) as [Hperm _].
    assert (Hxp : x ∈ concat (plan_blocks <$> plans)) by (apply elem_of_concat_map; exists p; by rewrite <-Hperm).
    rewrite Hp in Hxp |- *. unfold blocks_to_move in *. apply list_elem_of_filter in Hxp as [Hre Hxm].
    apply elem_of_map_blocks in Hxm as (k & l & Hl & Hx'). apply filter_blocks_lookup in Hl as Hl'. destruct Hl' as [Hml Hsh].
    assert (sdb_object_id x = k) as Hxk by (pose proof (Hk _ _ Hml) as Hf; rewrite Forall_forall in Hf; by apply Hf).
    rewrite Hxk, Hml in Hb. simpl in Hb. assert (sdb_object_id b = k) as Hbk.
    { pose proof (Hk _ _ Hml) as Hf. rewrite Forall_forall in Hf. by apply Hf. }
    apply list_elem_of_filter. split; [by rewrite Hbk, <-Hxk|]. apply elem_of_map_blocks. eauto.
  - apply elem_of_dom in Hid as [l Hl]. apply map_lookup_filter_Some in Hl as [Hl E]. simpl in E. rewrite Hl, E in Hb.
    by apply elem_of_nil in Hb.
Qed.

Lemma planned_runnable cache plans blocks :
  Forall (plan_ok cache) plans → concat (plan_blocks <$> plans) ⊆+ blocks → Forall (runnable blocks) plans.
Proof.
  intros Hok Hsub. apply Forall_forall. intros p Hp. rewrite Forall_forall in Hok.
  destruct (Hok p Hp) as (_ & Hrd & splits & sets & Ec & Hs1 & Hs2 & _). split_and!; [done| |].
  - rewrite Ec. apply Forall_app. split; (eapply Forall_impl; [eassumption|]); intros c Hc; [by left|by right].
  - intros b Hb. eapply elem_of_submseteq; [|exact Hsub]. apply elem_of_concat_map. by exists p.
Qed.

Lemma planned_few plans blocks :
  Forall (runnable blocks) plans → concat (plan_blocks <$> plans) ⊆+ blocks →
  (length (all_objects plans) <= length blocks)%nat.
Proof.
  intros Hrun Hsub. etrans; [|apply submseteq_length; exact Hsub]. rewrite plans_blocks.
  assert (Hw : Forall writable (all_objects plans)).
  { apply Forall_forall. intros c (p & Hp & Hc)%elem_of_concat_map. rewrite Forall_forall in Hrun.
    destruct (Hrun p Hp) as (_ & Hw & _). rewrite Forall_forall in Hw. by apply Hw. }
  clear -Hw. induction Hw as [|c l Hc Hw IH]; [done|]. cbn. rewrite length_app.
  assert (co_blocks c ≠ []) by (destruct Hc as [(_ & ? & _)|(_ & ? & _)]; done). destruct (co_blocks c); [done|]. cbn. lia.
Qed.

(** C6: a compaction round keeps every record. When the plans of the blocks
    [bm] are run to the end, every block of every object the round replaces
    is in an object the request commits: a reader of that object gets the
    block's bytes unchanged under its stream and offsets, and the committed
    range has them. The sanity check accepts the request. *)
Theorem compaction_keeps_every_block {S W Mg} `{ObjectStorageContract S W} `{EngineMetadataContract Mg}
    config values running src (s : S) (m : Mg) bm objects streams plans excluded x req :
  (∀ s : S, available s) → (∀ m, values m ≡ₚ (map_to_list m).*2) → round_input config src s m bm →
  analyze values (analyzer_of config) bm ∅ = Some (plans, excluded) → plans ≠ [] →
  run_plans config running objects plans (s, m) = Some (x, Ok (Some req)) →
  (∀ id b, id ∈ compacted_ids plans bm → b ∈ default [] (bm !! id) → kept src x.1 req b) ∧
  is_sanity_check_failed streams bm (set_compacted req (compacted_ids plans bm)) = false.
Proof.
  intros Hav Hv [Im Ip It Is Ib Ii Id] Ha Hne Hr.
  destruct (analyze_ok values (analyzer_of config) Hv bm ∅ Ip) as (plans' & removed & Ha' & Hmove & _ & Hok).
  rewrite Ha in Ha'. injection Ha' as <- _. destruct Hmove as [[? _]|Hmove]; [done|].
  assert (Hsub : concat (plan_blocks <$> plans) ⊆+ map_blocks bm) by (rewrite Hmove; apply blocks_to_move_sub).
  pose proof (planned_runnable _ _ _ Hok Hsub) as Hrun. pose proof (planned_few _ _ Hrun Hsub) as Hlen.
  pose proof (next_object_id_nonneg m Im) as Hn.
  assert (Hmoved : ∀ b, b ∈ concat (plan_blocks <$> plans) → kept src x.1 req b).
  { intros b Hb. destruct (run_plans_moves config running Hav src _ s _ Is objects plans m x req Hne Hrun It Hn Im eq_refl ltac:(lia) Hr b Hb)
      as (id & size & held & lo & hi & Hst & Hh & Hbh & Hc & H1' & H2').
    assert (Hheld : held ⊆+ map_blocks bm) by (by etrans).
    exists id, size, lo, hi, held. split_and!; [done..|]. intros md Hid Hsz.
    apply (stored_blocks_serve x.1 id size (src_bytes src) held); [done|apply Hav| | | | |done|done].
    - apply Forall_forall. intros z Hz. rewrite Forall_forall in It. apply It. by eapply elem_of_submseteq.
    - apply Forall_forall. intros z Hz. apply (src_sized _ _ _ _ Is). by eapply elem_of_submseteq.
    - eapply Z.le_lt_trans; [apply sum_sizes_submseteq; [|exact Hheld]|done].
      apply Forall_forall. intros z Hz. by apply Ip.
    - pose proof (submseteq_length _ _ Hheld). lia. }
  assert (Hkept : ∀ id b, id ∈ compacted_ids plans bm → b ∈ default [] (bm !! id) → kept src x.1 req b).
  { intros id b Hid Hb. apply Hmoved. eapply compacted_blocks_planned; [apply Ip|exact Hmove| |done|done].
    eapply Forall_impl; [exact Hok|]. by intros p (_ & ? & _). }
  split; [done|]. apply sanity_check_spec. cbn. intros id b start Hid Hb _ _.
  - destruct (Hkept id b Hid Hb) as (oid & size & lo & hi & held & Hc & Hlo & Hhi & _).
    destruct (checked_ranges_complete (set_compacted req (compacted_ids plans bm)) (sdb_stream_id b) (lo, hi)) as (q & Hq & Hw).
    { destruct Hc as [(_ & _ & r & Hr' & <- & <- & <-)|(so & Hso & _ & _ & <- & <- & <-)]; apply elem_of_app; [left|right];
        apply list_elem_of_fmap; eauto. }
    exists q. split; [done|]. unfold within in *. simpl in *. lia.
Qed.

Definition demo_compaction : CompactionConfig := {|
  cc_compaction_interval_min := 20; cc_compaction_cache_size := 8; cc_stream_split_size := 5;
  cc_force_split_period_min := 120; cc_max_object_num_to_compact := 500; cc_max_stream_num_per_stream_set_object := 10;
  cc_max_stream_object_num_per_commit := 10; cc_network_bandwidth := 3; cc_object_part_size := 4 |}.
Definition demo_block_map : BlockMap := list_to_map
  [(0, [demo_block 1 0 5 0 0 2; demo_block 2 0 4 0 2 3]); (1, [demo_block 1 5 9 1 0 4; demo_block 2 7 8 1 4 1])].
Definition demo_plans : list CompactionPlan :=
  match analyze in_order (analyzer_of demo_compaction) demo_block_map ∅ with Some (plans, _) => plans | None => [] end.
Definition demo_compaction_run : option (MemoryObjectStorage * LocalSink * CommitStreamSetObjectRequest) :=
  match @run_plans _ _ _ _ (local_engine demo_handle 9) demo_compaction (λ _, true) [demo_source 0; demo_source 1] demo_plans
          (demo_sources, demo_sink) with
  | Some (x, Ok (Some req)) => Some (x, req)
  | _ => None
  end.

Lemma demo_all (P : StreamDataBlock → Prop) : Forall P (map_blocks demo_block_map) → ∀ b, b ∈ map_blocks demo_block_map → P b.
Proof. intros H. by apply Forall_forall. Qed.

Lemma demo_round_input :
  @round_input _ _ _ _ _ _ (local_engine_contract demo_handle 9) demo_compaction (λ _, demo_bytes) demo_sources demo_sink demo_block_map.
Proof.
  constructor.
  - exact demo_sink_ok.
  - split; [by apply (bool_decide_unpack (keyed demo_block_map)); vm_compute|].
    apply demo_all. apply (bool_decide_unpack _). by vm_compute.
  - repeat constructor; vm_compute; congruence.
  - constructor.
    + apply demo_all. repeat constructor.
    + apply demo_all. repeat constructor; vm_compute; congruence.
    + intros b _. by vm_compute.
    + apply demo_all. apply (bool_decide_unpack _). by vm_compute.
    + intros a b Ha Hb Ho Hp.
      assert (H : Forall (λ a, Forall (λ b, a = b ∨ sdb_object_id a ≠ sdb_object_id b ∨ sdb_start_position a ≠ sdb_start_position b)
        (map_blocks demo_block_map)) (map_blocks demo_block_map)) by (apply (bool_decide_unpack _); by vm_compute).
      rewrite Forall_forall in H. specialize (H a Ha). rewrite Forall_forall in H. specialize (H b Hb). simpl in H. tauto.
  - by vm_compute.
  - by vm_compute.
  - by vm_compute.
Qed.

Lemma compaction_keeps_every_block_witness :
  ∃ x req, demo_compaction_run = Some (x, req) ∧
    ∀ id b, id ∈ compacted_ids demo_plans demo_block_map → b ∈ default [] (demo_block_map !! id) →
      kept (λ _, demo_bytes) x.1 req b.
Proof.
  assert (Hrun : is_Some demo_compaction_run) by (apply (bool_decide_unpack _); by vm_compute).
  destruct Hrun as [[x req] Hrun]. exists x, req. split; [done|]. unfold demo_compaction_run in Hrun.
  destruct (run_plans demo_compaction (λ _, true) [demo_source 0; demo_source 1] demo_plans (demo_sources, demo_sink))
    as [[x' [[req'|]|e]]|] eqn:E; [|done..]. injection Hrun as -> ->.
  refine (proj1 (@compaction_keeps_every_block _ _ _ _ _ _ (local_engine_contract demo_handle 9) demo_compaction in_order
    (λ _, true) (λ _, demo_bytes) demo_sources demo_sink demo_block_map [demo_source 0; demo_source 1] [] demo_plans ∅ x req
    _ _ demo_round_input _ _ E)).
  - done.
  - done.
  - by vm_compute.
  - by vm_compute.
Defined.

Lemma passed_check_covers_live_offsets_witness :
  is_sanity_check_failed [] demo_block_map
    {| cr_object_id := 9; cr_object_size := 1; cr_attributes := 0;
       cr_stream_ranges := [{| osr_stream_id := 2; osr_epoch := 0; osr_start_offset := 0; osr_end_offset := 8; osr_size := 4 |}];
       cr_stream_objects := [{| so_object_id := 10; so_object_size := 1; so_stream_id := 1; so_start_offset := 0;
                                so_end_offset := 9; so_attributes := 0 |}];
       cr_compacted_object_ids := [0; 1] |} = false.
Proof.
  refine (proj2 (passed_check_covers_live_offsets [] demo_block_map _) _). cbn.
  intros id b Hid Hb. repeat (apply elem_of_cons in Hid as [->|Hid]); [..|by apply elem_of_nil in Hid];
    vm_compute in Hb; repeat (apply elem_of_cons in Hb as [->|Hb]); try (by apply elem_of_nil in Hb);
    [exists (0, 9)|exists (0, 8)|exists (0, 9)|exists (0, 8)]; (split; [set_solver|split; vm_compute; congruence]).
Defined.
