(* ===== verification/CompactStream.v ===== *)
(** * Compaction of the objects of one stream

    [s3stream-core/src/compact/stream_compactor.rs]: expired objects are
    given up, neighbouring objects are merged, by copying their live blocks
    into a new object or by linking them into a composite object, and the
    metadata replaces the sources by the result. *)

From Stdlib Require Import ZArith Lia.
From Stdlib Require Import Strings.Byte.
From Stdlib Require Import Floats.SpecFloat.
From stdpp Require Import base numbers list strings sets gmap sorting.
From S2P Require Import Prelude StreamTypes RecordCodec ObjectIndex ObjectStore ObjectIO Composite.
From S2P Require Import MetaState MetaApply MetaInv MetaQuery MetaService Upload EngineMeta.
From S2P Require Import Compact CompactExec CompactRun.

Open Scope Z_scope.
Open Scope rust_scope.

Definition EXPIRED_OBJECTS_CLEAN_UP_STEP : nat := 1000.
Definition MINOR_COMPACTION_SIZE_THRESHOLD : Z := 128 * 1024 * 1024.
Definition MINOR_V1_COMPACTION_SIZE_THRESHOLD : Z := 4 * 1024 * 1024.
Definition DEFAULT_DATA_BLOCK_GROUP_SIZE_THRESHOLD : Z := 1024 * 1024.
Definition MAX_DIRTY_BYTES : Z := 512 * 1024 * 1024.
Definition MAX_PART_COUNT : Z := 10000.
Definition MAX_PART_SIZE : Z := 5 * 1024 * 1024 * 1024.
Definition MAX_OBJECT_SIZE : Z := MAX_PART_COUNT * MAX_PART_SIZE.
Definition MAX_OBJECT_GROUP_COUNT : nat := 5000.

Inductive CompactionLevel := Cleanup | Minor | Major | CleanupV1 | MinorV1 | MajorV1.
#[export] Instance CompactionLevel_eq_dec : EqDecision CompactionLevel.
Proof. solve_decision. Defined.

Definition skip_single_object_group (level : CompactionLevel) : bool :=
  match level with Minor | Major | MinorV1 | MajorV1 => true | Cleanup | CleanupV1 => false end.

Record StreamView := {
  sv_stream_id : Z;
  sv_stream_epoch : Z;
  sv_start_offset : Z;
  sv_confirm_offset : Z;
}.

Record StreamObjectCompactor := {
  soc_max_stream_object_size : Z;
  soc_data_block_group_size_threshold : Z;
  soc_minor_v1_compaction_threshold : Z;
  soc_major_v1_skip_small_object : bool;
}.

Definition compactor_new (max_stream_object_size : Z) : StreamObjectCompactor := {|
  soc_max_stream_object_size := Z.min max_stream_object_size MAX_OBJECT_SIZE;
  soc_data_block_group_size_threshold := DEFAULT_DATA_BLOCK_GROUP_SIZE_THRESHOLD;
  soc_minor_v1_compaction_threshold := MINOR_V1_COMPACTION_SIZE_THRESHOLD;
  soc_major_v1_skip_small_object := false |}.

Definition start_offset_of (o : S3ObjectMetadata) : Z :=
  from_option sor_start_offset 0 (head (om_offset_ranges o)).
Definition end_offset_of (o : S3ObjectMetadata) : Z :=
  from_option sor_end_offset 0 (last (om_offset_ranges o)).

(** ** Grouping *)
Definition object_filter (level : CompactionLevel) (min_major_v1_size : Z) (o : S3ObjectMetadata) : bool :=
  let is_composite := attr_is_composite (om_attributes o) in
  if bool_decide (level ≠ MajorV1) && is_composite then false
  else negb (bool_decide (level = MajorV1) && negb is_composite && (om_object_size o <? min_major_v1_size)).

Definition div_ceil (a b : Z) : Z := (a + b - 1) / b.
Definition object_part_count (o : S3ObjectMetadata) : Z := div_ceil (om_object_size o) MAX_PART_SIZE.

Section Group0.
Context (max_stream_object_size : Z) (level : CompactionLevel) (min_major_v1_size : Z).

Record Grouping := {
  gr_groups : list (list S3ObjectMetadata);
  gr_group : list S3ObjectMetadata;
  gr_group_size : Z;
  gr_group_start_offset : Z;
  gr_group_next_offset : option Z;
  gr_part_count : Z;
}.

Definition group_flush (groups : list (list S3ObjectMetadata)) (group : list S3ObjectMetadata) :
    list (list S3ObjectMetadata) :=
  match group with [] => groups | _ => groups ++ [group] end.

Definition group_object (g : Grouping) (o : S3ObjectMetadata) : Grouping :=
  if negb (object_filter level min_major_v1_size o) then g
  else if MAX_PART_COUNT <=? object_part_count o then g
  else
    let start := start_offset_of o in
    let en := end_offset_of o in
    let group_start_offset :=
      match gr_group_next_offset g with None => start | Some _ => gr_group_start_offset g end in
    let group_next_offset := default start (gr_group_next_offset g) in
    if negb (group_next_offset =? start)
       || ((max_stream_object_size <? wrap_u64 (gr_group_size g + om_object_size o)) &&
           negb (bool_decide (gr_group g = [])))
       || (MAX_OBJECT_GROUP_COUNT <=? length (gr_group g))%nat
       || (MAX_PART_COUNT <? gr_part_count g + object_part_count o)
       || (two31 - 1 <? wrap_u64 (en - group_start_offset))
    then {| gr_groups := group_flush (gr_groups g) (gr_group g); gr_group := [o];
            gr_group_size := om_object_size o; gr_group_start_offset := start;
            gr_group_next_offset := Some en; gr_part_count := object_part_count o |}
    else {| gr_groups := gr_groups g; gr_group := gr_group g ++ [o];
            gr_group_size := wrap_u64 (gr_group_size g + om_object_size o);
            gr_group_start_offset := group_start_offset; gr_group_next_offset := Some en;
            gr_part_count := gr_part_count g + object_part_count o |}.

Definition group0 (objects : list S3ObjectMetadata) : list (list S3ObjectMetadata) :=
  let g := foldl group_object {| gr_groups := []; gr_group := []; gr_group_size := 0; gr_group_start_offset := 0;
    gr_group_next_offset := None; gr_part_count := 0 |} objects in
  group_flush (gr_groups g) (gr_group g).
End Group0.

(** [x as f64] rounds to the nearest double, ties to even. *)
Definition as_f64 (x : Z) : spec_float := binary_normalize 53 1024 x 0 false.
Definition dirty_bytes (start_offset first_start first_end object_size : Z) : spec_float :=
  SFmul 53 1024
    (SFdiv 53 1024 (as_f64 (saturating_sub start_offset first_start)) (as_f64 (first_end - first_start)))
    (as_f64 object_size).

Definition cleanup_v1_groups (living : list S3ObjectMetadata) (start_offset : Z) : list (list S3ObjectMetadata) :=
  match living with
  | [] => []
  | first :: _ =>
      if negb (attr_is_composite (om_attributes first)) then []
      else if end_offset_of first <=? start_offset_of first then []
      else if SFltb (as_f64 MAX_DIRTY_BYTES)
                (dirty_bytes start_offset (start_offset_of first) (end_offset_of first) (om_object_size first))
           then [[first]] else []
  end.

(** ** The physical merge *)

(** The variables the merge threads through its blocks. [mr_indexes] is what
    was encoded so far. *)
Record Merge := {
  mr_indexes : list DataBlockIndex;
  mr_next_block_position : Z;
  mr_compacted_start_offset : Z;
  mr_group_start_offset : Z;
  mr_group_start_position : Z;
  mr_group_size : Z;
  mr_group_record_count : Z;
  mr_last_index : option DataBlockIndex;
}.

Definition merge_new (compacted_start_offset : Z) : Merge := {|
  mr_indexes := []; mr_next_block_position := 0; mr_compacted_start_offset := compacted_start_offset;
  mr_group_start_offset := 0; mr_group_start_position := 0; mr_group_size := 0; mr_group_record_count := 0;
  mr_last_index := None |}.

(** The entry of the open group; without a block there is none. *)
Definition group_entry (stream_id : Z) (m : Merge) : list DataBlockIndex :=
  match mr_last_index m with
  | Some last =>
      if mr_group_size m =? 0 then []
      else [{| bi_block_id := -1; bi_stream_id := stream_id; bi_start_offset := mr_group_start_offset m;
               bi_end_offset_delta := wrap_u32 (bi_end_offset last - mr_group_start_offset m);
               bi_record_count := wrap_u32 (mr_group_record_count m);
               bi_start_position := mr_group_start_position m; bi_size := wrap_u32 (mr_group_size m) |}]
  | None => []
  end.

(** One entry of a source's index; the second component is [valid_data_start]. *)
Definition merge_block (threshold stream_id start_offset : Z) (st : Merge * Z) (b : DataBlockIndex) : Merge * Z :=
  let '(m, valid_data_start) := st in
  if bi_end_offset b <=? start_offset then
    ({| mr_indexes := mr_indexes m; mr_next_block_position := mr_next_block_position m;
        mr_compacted_start_offset := bi_end_offset b; mr_group_start_offset := mr_group_start_offset m;
        mr_group_start_position := mr_group_start_position m; mr_group_size := mr_group_size m;
        mr_group_record_count := mr_group_record_count m; mr_last_index := mr_last_index m |},
     bi_end_position b)
  else
    let fresh :=
      (mr_group_size m =? 0) || (threshold <? mr_group_size m + bi_size b)
      || (two31 - 1 <? mr_group_record_count m + bi_record_count b)
      || (two31 - 1 <? wrap_u64 (bi_end_offset b - mr_group_start_offset m)) in
    ({| mr_indexes := if fresh then mr_indexes m ++ group_entry stream_id m else mr_indexes m;
        mr_next_block_position := mr_next_block_position m + bi_size b;
        mr_compacted_start_offset := mr_compacted_start_offset m;
        mr_group_start_offset := if fresh then bi_start_offset b else mr_group_start_offset m;
        mr_group_start_position := if fresh then mr_next_block_position m else mr_group_start_position m;
        mr_group_size := (if fresh then 0 else mr_group_size m) + bi_size b;
        mr_group_record_count := (if fresh then 0 else mr_group_record_count m) + bi_record_count b;
        mr_last_index := Some b |}, valid_data_start).

(** What the compactor asks of the metadata besides [EngineMetadata]. *)
Class StreamObjectMetadata (Mg : Type) := {
  so_get_stream_objects : Mg → Z → Z → Z → Z → result (list S3ObjectMetadata) EngineError;
  so_compact_stream_object : Mg → CompactStreamObjectRequest → Mg * result unit StreamError;
}.

Section Compactor.
Context {S W Mg : Type} `{HOS : ObjectStorage S W} `{HEM : EngineMetadata Mg, HSM : !StreamObjectMetadata Mg}.
Context (self : StreamObjectCompactor).

(** One source: its live blocks enter the merge, their bytes the writer.
    [data_block_size - valid_data_start] panics when it is negative. *)
Definition merge_object (stream : StreamView) (o : S3ObjectMetadata) (s : S) (w : W) (m : Merge) (object_size : Z) :
    S * W * result (Merge * Z) EngineError :=
  match (basic_object_info s (reader_new o)).2 with
  | Err e => (s, w, Err (EngineObject e))
  | Ok info =>
      let '(m, valid_data_start) :=
        foldl (merge_block (soc_data_block_group_size_threshold self) (sv_stream_id stream) (sv_start_offset stream))
          (m, 0) (index_block info) in
      let size := data_block_size info in
      if valid_data_start <? size then
        match range_read s {| ro_throttle := Compaction; ro_bucket_id := None |} (om_key o) valid_data_start (Some size) with
        | Err e => (s, w, Err (EngineObject e))
        | Ok data =>
            let '(s, w, r) := mw_write s w data in
            (s, w, let? _ := map_err EngineObject r in Ok (m, object_size + (size - valid_data_start)))
        end
      else if size <? valid_data_start then (s, w, Err EnginePanic)
      else (s, w, Ok (m, object_size))
  end.

Fixpoint merge_objects (stream : StreamView) (group : list S3ObjectMetadata) (s : S) (w : W) (m : Merge)
    (object_size : Z) : S * W * result (Merge * Z) EngineError :=
  match group with
  | [] => (s, w, Ok (m, object_size))
  | o :: group =>
      let '(s, w, r) := merge_object stream o s w m object_size in
      match r with
      | Err e => (s, w, Err e)
      | Ok (m, object_size) => merge_objects stream group s w m object_size
      end
  end.

Definition compact_by_physical_merge (stream : StreamView) (group : list S3ObjectMetadata) (object_id : Z) (s : S) :
    S * result (option CompactStreamObjectRequest) EngineError :=
  match head group, last group with
  | Some first, Some final =>
      let '(s, r) := os_writer s {| wo_throttle := Compaction; wo_bucket_id := None |} (gen_object_key object_id) in
      match r with
      | Err e => (s, Err (EngineObject e))
      | Ok w =>
          let '(s, w, r) := merge_objects stream group s w (merge_new (start_offset_of first)) 0 in
          match r with
          | Err e => (s, Err e)
          | Ok (m, object_size) =>
              let indexes := index_encode (mr_indexes m ++ group_entry (sv_stream_id stream) m) in
              let tail := indexes ++ footer (mr_next_block_position m) (Z.of_nat (length indexes)) in
              let '(s, w, r) := mw_write s w tail in
              match r with
              | Err e => (s, Err (EngineObject e))
              | Ok _ =>
                  let '(s, w, r) := mw_finish s w in
                  (s, let? bucket_id := map_err EngineObject r in
                      Ok (Some {|
                        cq_object_id := object_id; cq_object_size := object_size + Z.of_nat (length tail);
                        cq_stream_id := sv_stream_id stream; cq_stream_epoch := sv_stream_epoch stream;
                        cq_start_offset := mr_compacted_start_offset m; cq_end_offset := end_offset_of final;
                        cq_source_object_ids := om_object_id <$> group;
                        cq_operations := (λ _, OpDelete) <$> group;
                        cq_attributes := attributes_new bucket_id false false |}))
              end
          end
      end
  | _, _ => (s, Err EnginePanic)
  end.

(** ** Linking into a composite object *)
Definition linked_metadata (linked : Composite.ObjectIndex) : S3ObjectMetadata := {|
  om_object_id := ox_object_id linked; om_object_type := StreamObj; om_offset_ranges := []; om_object_size := 0;
  om_attributes := attributes_new (ox_bucket_id linked) false false;
  om_committed_timestamp_ms := 0; om_data_timestamp_ms := 0 |}.

(** [entries[start..end]] panics out of range. *)
Definition linked_blocks (info : CompositeObjectInfo) (linked : Composite.ObjectIndex) : option (list DataBlockIndex) :=
  let a := ox_block_start_index linked in
  let b := ox_block_end_index linked in
  if (a <=? b) && (b <=? Z.of_nat (length (ci_index_block info)))
  then Some (take (Z.to_nat (b - a)) (drop (Z.to_nat a) (ci_index_block info))) else None.

(** The linked objects of a composite: those with a live block are kept, the
    others are to be deleted. *)
Fixpoint link_components (start_offset : Z) (info : CompositeObjectInfo) (linked : list Composite.ObjectIndex)
    (writer : CompositeObjectWriter) (to_delete : list ObjectPath) :
    result (CompositeObjectWriter * list ObjectPath) EngineError :=
  match linked with
  | [] => Ok (writer, to_delete)
  | l :: linked =>
      match linked_blocks info l with
      | None => Err EnginePanic
      | Some blocks =>
          if existsb (λ b, start_offset <? bi_end_offset b) blocks then
            let '(writer, r) := add_component writer (linked_metadata l) blocks in
            let? _ := map_err EngineObject r in
            link_components start_offset info linked writer to_delete
          else
            link_components start_offset info linked writer
              (to_delete ++ [{| op_bucket_id := ox_bucket_id l; op_key := om_key (linked_metadata l) |}])
      end
  end.

Definition link_object (start_offset : Z) (o : S3ObjectMetadata) (s : S) (writer : CompositeObjectWriter) :
    S * result (CompositeObjectWriter * CompactOperations) EngineError :=
  if attr_is_composite (om_attributes o) then
    match (composite_info s (composite_reader_new o)).2 with
    | Err e => (s, Err (EngineObject e))
    | Ok info =>
        match link_components start_offset info (ci_objects info) writer [] with
        | Err e => (s, Err e)
        | Ok (writer, []) => (s, Ok (writer, OpDelete))
        | Ok (writer, to_delete) =>
            let '(s, r) := os_delete s to_delete in
            (s, let? _ := map_err EngineObject r in Ok (writer, OpDelete))
        end
    end
  else
    match (basic_object_info s (reader_new o)).2 with
    | Err e => (s, Err (EngineObject e))
    | Ok info =>
        let '(writer, r) := add_component writer o (index_block info) in
        (s, let? _ := map_err EngineObject r in Ok (writer, OpKeepData))
    end.

Fixpoint link_objects (start_offset : Z) (group : list S3ObjectMetadata) (s : S) (writer : CompositeObjectWriter)
    (operations : list CompactOperations) : S * result (CompositeObjectWriter * list CompactOperations) EngineError :=
  match group with
  | [] => (s, Ok (writer, operations))
  | o :: group =>
      let '(s, r) := link_object start_offset o s writer in
      match r with
      | Err e => (s, Err e)
      | Ok (writer, op) => link_objects start_offset group s writer (operations ++ [op])
      end
  end.

Definition compact_by_composite_object (stream : StreamView) (group : list S3ObjectMetadata) (object_id : Z) (s : S) :
    S * result (option CompactStreamObjectRequest) EngineError :=
  let '(s, r) := link_objects (sv_start_offset stream) group s (composite_new object_id default_write_options) [] in
  match r with
  | Err e => (s, Err e)
  | Ok (writer, operations) =>
      match stream_range writer with
      | None =>
          (s, Ok (Some {|
            cq_object_id := NOOP_OBJECT_ID; cq_object_size := 0;
            cq_stream_id := sv_stream_id stream; cq_stream_epoch := sv_stream_epoch stream;
            cq_start_offset := NOOP_OFFSET; cq_end_offset := NOOP_OFFSET;
            cq_source_object_ids := (om_object_id <$> group) ++ [object_id];
            cq_operations := operations ++ [OpDelete]; cq_attributes := 0 |}))
      | Some (_, range_start, range_end) =>
          let '(s, r) := composite_close s writer in
          (s, let? _ := map_err EngineObject r in
              Ok (Some {|
                cq_object_id := object_id; cq_object_size := cw_retained_size writer;
                cq_stream_id := sv_stream_id stream; cq_stream_epoch := sv_stream_epoch stream;
                cq_start_offset := range_start; cq_end_offset := range_end;
                cq_source_object_ids := om_object_id <$> group; cq_operations := operations;
                cq_attributes := attributes_new (os_bucket_id s) true false |}))
      end
  end.

(** ** One pass *)
Definition max_group_size (level : CompactionLevel) : option Z :=
  match level with
  | Minor => Some MINOR_COMPACTION_SIZE_THRESHOLD
  | Major | MajorV1 => Some (soc_max_stream_object_size self)
  | MinorV1 => Some (soc_minor_v1_compaction_threshold self)
  | Cleanup | CleanupV1 => None
  end.

Definition cleanup_request (stream : StreamView) (chunk : list S3ObjectMetadata) : CompactStreamObjectRequest := {|
  cq_object_id := NOOP_OBJECT_ID; cq_object_size := 0;
  cq_stream_id := sv_stream_id stream; cq_stream_epoch := sv_stream_epoch stream;
  cq_start_offset := NOOP_OFFSET; cq_end_offset := NOOP_OFFSET;
  cq_source_object_ids := om_object_id <$> chunk; cq_operations := (λ _, OpDeepDelete) <$> chunk;
  cq_attributes := 0 |}.

(** [expired.chunks(1000)] *)
Fixpoint cleanup_chunks (fuel : nat) (stream : StreamView) (expired : list S3ObjectMetadata) (m : Mg) :
    Mg * result unit StreamError :=
  match fuel, expired with
  | O, _ | _, [] => (m, Ok tt)
  | Datatypes.S fuel, _ =>
      let '(m, r) := so_compact_stream_object m (cleanup_request stream (take EXPIRED_OBJECTS_CLEAN_UP_STEP expired)) in
      match r with
      | Err e => (m, Err e)
      | Ok _ => cleanup_chunks fuel stream (drop EXPIRED_OBJECTS_CLEAN_UP_STEP expired) m
      end
  end.
Definition cleanup_expired (stream : StreamView) (expired : list S3ObjectMetadata) (m : Mg) :
    Mg * result unit StreamError :=
  cleanup_chunks (length expired) stream expired m.

Definition groups_of (stream : StreamView) (level : CompactionLevel) (living : list S3ObjectMetadata) :
    list (list S3ObjectMetadata) :=
  match max_group_size level with
  | None => cleanup_v1_groups living (sv_start_offset stream)
  | Some size =>
      group0 size level
        (if soc_major_v1_skip_small_object self then soc_minor_v1_compaction_threshold self else 0) living
  end.

Definition compact_group (stream : StreamView) (level : CompactionLevel) (group : list S3ObjectMetadata) (s : S) (m : Mg) :
    S * Mg * result unit EngineError :=
  if (length group =? 1)%nat && skip_single_object_group level then (s, m, Ok tt)
  else
    let '(m, r) := mg_prepare_object m 1 (60 * 60 * 1000) in
    match r with
    | Err e => (s, m, Err (EngineMeta e))
    | Ok object_id =>
        let '(s, r) :=
          match level with
          | Minor | Major | MinorV1 => compact_by_physical_merge stream group object_id s
          | MajorV1 | CleanupV1 => compact_by_composite_object stream group object_id s
          | Cleanup => (s, Err EnginePanic)
          end in
        match r with
        | Err e => (s, m, Err e)
        | Ok None => (s, m, Ok tt)
        | Ok (Some request) =>
            let '(m, r) := so_compact_stream_object m request in (s, m, map_err EngineMeta r)
        end
    end.

Fixpoint compact_groups (stream : StreamView) (level : CompactionLevel) (groups : list (list S3ObjectMetadata))
    (s : S) (m : Mg) : S * Mg * result unit EngineError :=
  match groups with
  | [] => (s, m, Ok tt)
  | group :: groups =>
      let '(s, m, r) := compact_group stream level group s m in
      match r with
      | Err e => (s, m, Err e)
      | Ok _ => compact_groups stream level groups s m
      end
  end.

Definition is_expired (stream : StreamView) (o : S3ObjectMetadata) : Prop := end_offset_of o <= sv_start_offset stream.
#[global] Instance is_expired_dec stream o : Decision (is_expired stream o) := Z_le_dec _ _.

Definition compact (stream : StreamView) (level : CompactionLevel) (s : S) (m : Mg) :
    S * Mg * result unit EngineError :=
  match so_get_stream_objects m (sv_stream_id stream) 0 (sv_confirm_offset stream) u64_max with
  | Err e => (s, m, Err e)
  | Ok objects =>
      let objects := deduplicate_objects_by_id objects in
      let expired := filter (is_expired stream) objects in
      let living := filter (λ o, ¬ is_expired stream o) objects in
      let '(m, r) := cleanup_expired stream expired m in
      match r with
      | Err e => (s, m, Err (EngineMeta e))
      | Ok _ =>
          if bool_decide (level = Cleanup) then (s, m, Ok tt)
          else compact_groups stream level (groups_of stream level living) s m
      end
  end.
End Compactor.

Section LocalMetadata.
Context (h : MetadataNodeHandle) (now_ms : Z).
Definition local_stream_objects : StreamObjectMetadata LocalSink := {|
  so_get_stream_objects m id a b limit :=
    match obj_get_stream_objects m id a b limit with Some l => Ok l | None => Err EnginePanic end;
  so_compact_stream_object m req := obj_compact_stream_object m h now_ms req |}.
End LocalMetadata.

(** ** Groups *)
Definition sum_of {A} (f : A → Z) (l : list A) : Z := foldr (λ x n, f x + n) 0 l.
Lemma sum_of_app {A} (f : A → Z) l1 l2 : sum_of f (l1 ++ l2) = sum_of f l1 + sum_of f l2.
Proof. induction l1 as [|x l1 IH]; simpl; [done|]. rewrite IH. lia. Qed.
Lemma sum_of_nonneg {A} (f : A → Z) l : Forall (λ x, 0 <= f x) l → 0 <= sum_of f l.
Proof. induction 1; simpl; lia. Qed.

Definition follows (a b : S3ObjectMetadata) : Prop := end_offset_of a = start_offset_of b.

(** A group the compactor may merge: neighbours without a gap, within the
    limits on parts, objects, bytes and offsets. *)
Record mergeable (max_size : Z) (group : list S3ObjectMetadata) : Prop := {
  mb_nonempty : group ≠ [];
  mb_chain : Sorted follows group;
  mb_count : (length group <= MAX_OBJECT_GROUP_COUNT)%nat;
  mb_parts : sum_of object_part_count group <= MAX_PART_COUNT;
  mb_size : (length group = 1)%nat ∨ sum_of om_object_size group <= max_size;
  mb_span : (length group = 1)%nat ∨ ∃ first final, head group = Some first ∧ last group = Some final ∧
    end_offset_of final - start_offset_of first <= two31 - 1;
}.

Definition object_sized (o : S3ObjectMetadata) : Prop :=
  0 <= om_object_size o ∧ 0 <= start_offset_of o <= end_offset_of o ∧ end_offset_of o < two64.

Section GroupProofs.
Context (max_size : Z) (level : CompactionLevel) (min_size : Z).

(** The objects a level takes. *)
Definition accepted (o : S3ObjectMetadata) : Prop :=
  object_filter level min_size o = true ∧ object_part_count o < MAX_PART_COUNT.
#[local] Instance accepted_dec o : Decision (accepted o) := and_dec _ _.

Record grouping_ok (g : Grouping) (seen : list S3ObjectMetadata) : Prop := {
  go_groups : Forall (mergeable max_size) (gr_groups g);
  go_objects : concat (gr_groups g) ++ gr_group g = seen;
  go_size : gr_group_size g = sum_of om_object_size (gr_group g);
  go_parts : gr_part_count g = sum_of object_part_count (gr_group g);
  go_open : match last (gr_group g) with
            | None => gr_group_next_offset g = None
            | Some final => mergeable max_size (gr_group g) ∧ gr_group_next_offset g = Some (end_offset_of final) ∧
                ∃ first, head (gr_group g) = Some first ∧ gr_group_start_offset g = start_offset_of first ∧
                  start_offset_of first <= end_offset_of final
            end;
}.

Lemma part_count_bound o : 0 <= om_object_size o → 0 <= object_part_count o ∧ om_object_size o <= object_part_count o * MAX_PART_SIZE.
Proof.
  intros Ho. unfold object_part_count, div_ceil, MAX_PART_SIZE.
  pose proof (Z.div_mod (om_object_size o + 5 * 1024 * 1024 * 1024 - 1) (5 * 1024 * 1024 * 1024) ltac:(lia)).
  pose proof (Z.mod_pos_bound (om_object_size o + 5 * 1024 * 1024 * 1024 - 1) (5 * 1024 * 1024 * 1024) ltac:(lia)). lia.
Qed.

Lemma group_bytes_bound l : Forall object_sized l →
  0 <= sum_of om_object_size l ∧ sum_of om_object_size l <= sum_of object_part_count l * MAX_PART_SIZE.
Proof.
  induction 1 as [|o l [Ho _] Hl IH]; simpl; [lia|]. destruct (part_count_bound o Ho). unfold MAX_PART_SIZE in *. lia.
Qed.

Lemma mergeable_one o : accepted o → mergeable max_size [o].
Proof.
  intros [_ Hp]. constructor; [done|by repeat constructor| | |by left|by left].
  - unfold MAX_OBJECT_GROUP_COUNT. simpl. lia.
  - simpl. lia.
Qed.

Lemma flush_ok g seen : grouping_ok g seen →
  Forall (mergeable max_size) (group_flush (gr_groups g) (gr_group g)) ∧
  concat (group_flush (gr_groups g) (gr_group g)) = seen.
Proof.
  intros [H1 H2 _ _ H3]. unfold group_flush. destruct (gr_group g) as [|o l] eqn:E.
  - rewrite app_nil_r in H2. done.
  - rewrite concat_app. simpl. rewrite app_nil_r. split; [|done]. apply Forall_app. split; [done|]. constructor; [|done].
    destruct (last (o :: l)) eqn:El; [by destruct H3|]. by apply last_None in El.
Qed.

Lemma group_object_ok g seen o :
  Forall object_sized seen → object_sized o → grouping_ok g seen →
  grouping_ok (group_object max_size level min_size g o) (seen ++ (if decide (accepted o) then [o] else [])).
Proof.
  intros Hseen Ho Hg. unfold group_object. destruct (object_filter level min_size o) eqn:Ef; cbn [negb].
  2:{ rewrite decide_False by (intros [Hf _]; congruence). by rewrite app_nil_r. }
  destruct (Z.leb_spec MAX_PART_COUNT (object_part_count o)) as [Hp|Hp].
  { rewrite decide_False by (unfold accepted; intros [_ ?]; lia). by rewrite app_nil_r. }
  assert (Hacc : accepted o) by done. rewrite decide_True by done.
  match goal with |- context [if ?c then _ else _] => destruct c eqn:Ec end.
  { destruct (flush_ok g seen Hg) as [F1 F2]. constructor; cbn; [done|by rewrite F2|lia|lia|].
    split_and!; [by apply mergeable_one|done|]. exists o. split_and!; [done|done|]. destruct Ho as (_ & ? & _). lia. }
  destruct Hg as [H1 H2 H3 H4 H5]. rewrite !orb_false_iff in Ec. destruct Ec as [[[[E1 E2] E3] E4] E5].
  assert (Hcur : Forall object_sized (gr_group g)) by (rewrite <-H2 in Hseen; by apply Forall_app in Hseen as [_ ?]).
  destruct (group_bytes_bound _ Hcur) as [B1 B2]. destruct Ho as (Ho1 & Ho2 & Ho3).
  destruct (part_count_bound o Ho1) as [B3 B4].
  assert (Hbytes : sum_of om_object_size (gr_group g) + om_object_size o <= MAX_PART_COUNT * MAX_PART_SIZE).
  { apply Z.ltb_ge in E4. rewrite H4 in E4. unfold MAX_PART_SIZE, MAX_PART_COUNT in *. lia. }
  assert (Hw : wrap_u64 (gr_group_size g + om_object_size o) = sum_of om_object_size (gr_group g ++ [o])).
  { rewrite H3, sum_of_app. simpl. rewrite wrap_u64_id; [lia|]. unfold MAX_PART_COUNT, MAX_PART_SIZE in *. int_lia. }
  rewrite negb_false_iff in E1. apply Z.eqb_eq in E1.
  constructor; cbn -[sum_of]; [done|by rewrite app_assoc, H2|done|rewrite sum_of_app; simpl; lia|].
  rewrite last_snoc. destruct (last (gr_group g)) as [final|] eqn:El.
  - destruct H5 as (Hm & Hn & first & Hf & Hs & Hle). rewrite Hn in E1, E5. cbn in E1, E5.
    rewrite Hn. assert (Hspan : end_offset_of o - start_offset_of first <= two31 - 1).
    { apply Z.ltb_ge in E5. rewrite Hs in E5. rewrite wrap_u64_id in E5; [lia|].
      assert (0 <= start_offset_of first); [|int_lia]. rewrite Forall_forall in Hcur.
      destruct (Hcur first (head_Some_elem_of _ _ Hf)) as (_ & ? & _). lia. }
    assert (Hhd : head (gr_group g ++ [o]) = Some first) by (by rewrite head_app, Hf).
    split_and!; [|done|exists first; split_and!; [done|done|lia]].
    destruct Hm as [M1 M2 M3 M4 M5 M6]. constructor.
    + by intros [? [=]]%app_eq_nil.
    + apply Sorted_snoc; [done|]. intros x Hx. rewrite El in Hx. unfold follows. simplify_eq. done.
    + rewrite length_app. apply Nat.leb_gt in E3. simpl. lia.
    + apply Z.ltb_ge in E4. rewrite sum_of_app. simpl. lia.
    + right. rewrite <-Hw. apply andb_false_iff in E2 as [E2|E2]; [by apply Z.ltb_ge in E2|].
      rewrite negb_false_iff, bool_decide_eq_true in E2. rewrite E2 in El. done.
    + right. exists first, o. by rewrite last_snoc.
  - apply last_None in El. rewrite El, H5. cbn. split_and!; [by apply mergeable_one|done|].
    exists o. split_and!; [done|done|lia].
Qed.

Lemma group0_ok objects :
  Forall object_sized objects →
  Forall (mergeable max_size) (group0 max_size level min_size objects) ∧
  concat (group0 max_size level min_size objects) = filter accepted objects.
Proof.
  intros Hs. unfold group0. apply flush_ok.
  assert (Hgen : ∀ g seen, Forall object_sized seen → grouping_ok g seen →
    grouping_ok (foldl (group_object max_size level min_size) g objects) (seen ++ filter accepted objects)).
  { induction Hs as [|o l Ho Hl IH]; intros g seen Hseen Hg; [by rewrite app_nil_r|]. cbn [foldl].
    rewrite filter_cons. pose proof (group_object_ok g seen o Hseen Ho Hg) as Hg'.
    assert (Hsn : Forall object_sized (seen ++ (if decide (accepted o) then [o] else []))).
    { apply Forall_app. split; [done|]. case_decide; [by apply Forall_singleton|constructor]. }
    specialize (IH _ _ Hsn Hg').
    rewrite <-app_assoc in IH. by destruct (decide (accepted o)). }
  apply (Hgen _ []); [done|]. by constructor.
Qed.
End GroupProofs.

(** ** What a physical merge writes *)

(** The blocks of a stream without a gap from offset [o] to [o']. *)
Fixpoint gapless (sid o : Z) (l : list StreamDataBlock) (o' : Z) : Prop :=
  match l with
  | [] => o = o'
  | b :: l => sdb_stream_id b = sid ∧ sdb_start_offset b = o ∧ o < sdb_end_offset b ∧ gapless sid (sdb_end_offset b) l o'
  end.

Definition live_at (start_offset : Z) (b : StreamDataBlock) : Prop := start_offset < sdb_end_offset b.
#[global] Instance live_at_dec start_offset b : Decision (live_at start_offset b) := Z_lt_dec _ _.

Lemma gapless_app sid o l1 l2 o' :
  gapless sid o (l1 ++ l2) o' ↔ ∃ m, gapless sid o l1 m ∧ gapless sid m l2 o'.
Proof.
  revert o. induction l1 as [|b l1 IH]; intros o; simpl.
  - split; [intros Hg; by exists o|by intros (? & <- & ?)].
  - rewrite IH. naive_solver.
Qed.

Lemma gapless_le sid o l o' : gapless sid o l o' → o <= o' ∧ Forall (λ b, sdb_end_offset b <= o') l.
Proof.
  revert o. induction l as [|b l IH]; intros o; simpl; [intros ->; split; [lia|done]|].
  intros (_ & _ & ? & [? ?]%IH). split; [lia|]. constructor; [lia|done].
Qed.

(** Expired blocks come first. *)
Lemma gapless_split start_offset sid o l o' :
  gapless sid o l o' → ∃ dead, l = dead ++ filter (live_at start_offset) l ∧
    Forall (λ b, sdb_end_offset b <= start_offset) dead.
Proof.
  revert o. induction l as [|b l IH]; intros o; [by exists []|]. intros (_ & _ & _ & Hg). rewrite filter_cons.
  case_decide as Hb; unfold live_at in Hb.
  - exists []. split; [|done]. simpl. f_equal. symmetry. apply filter_all, Forall_forall. clear IH.
    assert (Ho : start_offset < sdb_end_offset b) by done. revert Ho Hg. generalize (sdb_end_offset b).
    induction l as [|c l IH]; intros z Hz; simpl; [done|]. intros (_ & E1 & E2 & Hg). constructor; [unfold live_at; lia|].
    eapply (IH (sdb_end_offset c)); [lia|done].
  - destruct (IH _ Hg) as (dead & E & Hd). exists (b :: dead). split; [simpl; by f_equal|]. constructor; [lia|done].
Qed.

Lemma entries_of_snoc p es gs e g :
  entries_of p es gs → entry_of (p + sum_sizes (concat gs)) e g → entries_of p (es ++ [e]) (gs ++ [g]).
Proof.
  revert p gs. induction es as [|e' es IH]; intros p [|g' gs]; try done; cbn [entries_of app concat].
  - intros _ He. simpl in He. rewrite Z.add_0_r in He. done.
  - intros [He' Hes]. rewrite sum_sizes_app, Z.add_assoc. intros He. split; [done|by apply IH].
Qed.

(** What the entry of a non-empty open group must say. *)
Record open_group (sid : Z) (m : Merge) (position next : Z) (open : list StreamDataBlock) : Prop := {
  og_run : group_run open;
  og_stream : ∀ b, b ∈ open → sdb_stream_id b = sid;
  og_size : mr_group_size m = sum_sizes open;
  og_bytes : 0 < sum_sizes open < two32;
  og_position : mr_group_start_position m = position;
  og_last : ∃ final, last open = Some final ∧ mr_last_index m = Some (sdb_index final) ∧ sdb_end_offset final = next;
  og_first : ∃ first, head open = Some first ∧ mr_group_start_offset m = sdb_start_offset first ∧
    0 <= sdb_start_offset first <= next ∧ next - sdb_start_offset first < two32 ∧ next < two64;
}.

Lemma group_entry_ok sid m position next open :
  open_group sid m position next open → 0 <= sid < two63 → 0 <= position < two63 →
  ∃ e, group_entry sid m = [e] ∧ entry_of position e open ∧ bi_typed e.
Proof.
  intros [Hr Hs Hz Hb Hp (final & Hl & Hi & He) (first & Hf & Ho & H1 & H2 & H3)] Hsid Hpos.
  unfold group_entry. rewrite Hi, Hz, (proj2 (Z.eqb_neq _ _)) by lia.
  change (bi_end_offset (sdb_index final)) with (sdb_end_offset final). rewrite He, Ho, Hp.
  eexists. split; [done|]. rewrite !(wrap_u32_id (next - _)), (wrap_u32_id (sum_sizes open)) by int_lia. split.
  - split_and!; [done|done|done|]. exists first, final. split_and!; [done|done|done|]. unfold bi_end_offset. cbn.
    rewrite wrap_u64_id by int_lia. lia.
  - unfold bi_typed. cbn. split_and!; auto with ints; int_lia.
Qed.

(** The merge after the live blocks [done], the next of which starts at [next]. *)
Record merge_inv (sid start_offset : Z) (m : Merge) (done : list StreamDataBlock) (next : Z) : Prop := {
  mi_position : mr_next_block_position m = sum_sizes done;
  mi_start : mr_compacted_start_offset m = from_option sdb_start_offset next (head done);
  mi_live : done ≠ [] → start_offset < next;
  mi_groups : ∃ groups open, done = concat groups ++ open ∧ Forall group_run groups ∧
    entries_of 0 (mr_indexes m) groups ∧ Forall bi_typed (mr_indexes m) ∧
    match open with
    | [] => groups = [] ∧ mr_group_size m = 0 ∧ mr_last_index m = None
    | _ => open_group sid m (sum_sizes (concat groups)) next open
    end;
}.

Lemma merge_new_inv sid start_offset next : merge_inv sid start_offset (merge_new next) [] next.
Proof. constructor; [done|done|done|]. by exists [], []. Qed.

(** The groups of a merge that is finished. *)
Lemma merge_closed sid start_offset m done next :
  merge_inv sid start_offset m done next → 0 <= sid < two63 → Forall block_typed done → sum_sizes done < two63 →
  ∃ groups, concat groups = done ∧ Forall group_run groups ∧
    entries_of 0 (mr_indexes m ++ group_entry sid m) groups ∧ Forall bi_typed (mr_indexes m ++ group_entry sid m).
Proof.
  intros [_ _ _ (groups & open & E & Hg & He & Ht & Ho)] Hsid Hty Hsz. destruct open as [|x open].
  - destruct Ho as (-> & Hz & Hl). exists []. unfold group_entry. rewrite Hl, app_nil_r. by rewrite E.
  - set (op := x :: open) in *. rewrite E in Hsz, Hty. rewrite sum_sizes_app in Hsz.
    apply Forall_app in Hty as [Hty _]. pose proof (sum_sizes_typed _ Hty).
    destruct (group_entry_ok _ _ _ _ _ Ho Hsid) as (e & -> & Hen & Hte); [destruct Ho; lia|].
    exists (groups ++ [op]). split_and!.
    + rewrite concat_app. cbn [concat]. by rewrite app_nil_r.
    + apply Forall_app. split; [done|]. apply Forall_singleton. by destruct Ho.
    + by apply entries_of_snoc.
    + apply Forall_app. split; [done|]. by apply Forall_singleton.
Qed.

Section MergeBlocks.
Context (threshold sid start_offset : Z) (Hth : threshold < two32) (Hsid : 0 <= sid < two63).

Lemma merge_dead b m v next :
  merge_inv sid start_offset m [] next → sdb_end_offset b <= start_offset →
  merge_inv sid start_offset (merge_block threshold sid start_offset (m, v) (sdb_index b)).1 [] (sdb_end_offset b) ∧
  (merge_block threshold sid start_offset (m, v) (sdb_index b)).2 = sdb_end_position b.
Proof using Type.
  intros [H1 H2 H3 (groups & open & E & Hg & He & Ht & Ho)] Hb. unfold merge_block.
  change (bi_end_offset (sdb_index b)) with (sdb_end_offset b). rewrite (proj2 (Z.leb_le _ _)) by lia. split; [|done].
  symmetry in E. apply app_eq_nil in E as [E ->]. constructor; cbn; [done|done|done|]. destruct Ho as (-> & Hz & Hl). by exists [], [].
Qed.

Lemma merge_live b m v done next :
  merge_inv sid start_offset m done next → block_typed b → 0 < sdb_size b → sdb_stream_id b = sid →
  sdb_start_offset b = next → next < sdb_end_offset b → live_at start_offset b →
  Forall block_typed done → sum_sizes done < two63 →
  merge_inv sid start_offset (merge_block threshold sid start_offset (m, v) (sdb_index b)).1 (done ++ [b]) (sdb_end_offset b) ∧
  (merge_block threshold sid start_offset (m, v) (sdb_index b)).2 = v.
Proof using Hth Hsid.
  intros Hm Hty Hsz Hs Hst Hlt Hlv Htd Hbytes. destruct (block_end b Hty) as (_ & B1 & B2 & B3 & B4).
  pose proof Hm as [H1 H2 H3 (groups & open & E & Hg & He & Ht & Ho)]. unfold merge_block.
  change (bi_end_offset (sdb_index b)) with (sdb_end_offset b). change (bi_size (sdb_index b)) with (sdb_size b).
  change (bi_start_offset (sdb_index b)) with (sdb_start_offset b).
  unfold live_at in Hlv. rewrite (proj2 (Z.leb_gt _ _)) by lia. split; [|done].
  match goal with |- context [if ?c then _ ++ _ else _] => set (fresh := c) end.
  constructor; cbn [fst mr_next_block_position mr_compacted_start_offset].
  { rewrite H1, sum_sizes_app. simpl. lia. }
  { rewrite H2, head_app. by destruct (head done). }
  { intros _. lia. }
  cbn [mr_indexes mr_group_size mr_last_index]. destruct fresh eqn:Ef; subst fresh.
  - destruct (merge_closed _ _ _ _ _ Hm Hsid Htd Hbytes) as (groups' & E' & Hg' & He' & Ht').
    exists groups', [b]. rewrite E'. split_and!; [done|done|done|done|].
    constructor; cbn.
    + apply group_run_one.
    + intros c ->%list_elem_of_singleton. done.
    + lia.
    + lia.
    + done.
    + by exists b.
    + exists b. split_and!; [done|done|lia|lia|lia|lia].
  - rewrite !orb_false_iff in Ef. destruct Ef as [[[E1 E2] _] E3]. destruct open as [|x open].
    { destruct Ho as (_ & Hz & _). rewrite Hz in E1. done. }
    set (op := x :: open) in *. destruct Ho as [O1 O2 O3 O4 O5 (final & O6 & O7 & O8) (first & O9 & O10 & O11 & O12 & O13)].
    assert (Hsp : sdb_end_offset b - sdb_start_offset first <= two31 - 1).
    { apply Z.ltb_ge in E3. rewrite O10 in E3. rewrite wrap_u64_id in E3; [lia|int_lia]. }
    exists groups, (op ++ [b]). rewrite E, <-app_assoc. split_and!; [done|done|done|done|].
    destruct (op ++ [b]) eqn:Eop; [by apply app_eq_nil in Eop as [? ?]|]. rewrite <-Eop.
    assert (Hsum : sum_sizes (op ++ [b]) = sum_sizes op + sdb_size b) by (rewrite sum_sizes_app; simpl; lia).
    constructor; cbn [mr_group_size mr_group_start_position mr_last_index mr_group_start_offset]; rewrite ?Hsum.
    + eapply group_run_snoc; [done|done|]. split; [rewrite O2; [done|by apply last_Some_elem_of]|lia].
    + intros c [Hc|Hc%list_elem_of_singleton]%elem_of_app; [by apply O2|by subst c].
    + by rewrite O3.
    + apply Z.ltb_ge in E2. rewrite O3 in E2. lia.
    + done.
    + exists b. by rewrite last_snoc.
    + exists first. rewrite head_app, O9. split_and!; [done|done|lia|lia|int_lia|lia].
Qed.

Lemma merge_dead_blocks dead : ∀ m p next next',
  merge_inv sid start_offset m [] next → Forall (λ b, sdb_end_offset b <= start_offset) dead →
  gapless sid next dead next' → adjacent p dead → 0 <= p → Forall (λ b, 0 <= sdb_size b) dead → p + sum_sizes dead < two64 →
  merge_inv sid start_offset (foldl (merge_block threshold sid start_offset) (m, p) (sdb_index <$> dead)).1 [] next' ∧
  (foldl (merge_block threshold sid start_offset) (m, p) (sdb_index <$> dead)).2 = p + sum_sizes dead.
Proof using Type.
  induction dead as [|b dead IH]; intros m p next next' Hm Hd Hg Ha Hp Hz Hs.
  { simpl in *. subst next'. split; [done|lia]. }
  apply Forall_cons in Hd as [Hb Hd]. destruct Hg as (_ & _ & _ & Hg). destruct Ha as [Ep Ha]. apply Forall_cons in Hz as [Hz0 Hz].
  cbn [fmap list_fmap foldl]. change (sum_sizes (b :: dead)) with (sdb_size b + sum_sizes dead) in *.
  destruct (merge_dead b m p next Hm Hb) as [Hm' Hv]. destruct (merge_block _ _ _ (m, p) _) as [m' v'].
  cbn [fst snd] in *. assert (Hnn : 0 <= sum_sizes dead).
  { clear -Hz. induction Hz; simpl; [lia|]. unfold sum_sizes in *. simpl in *. lia. }
  assert (Ev : v' = p + sdb_size b).
  { rewrite Hv. unfold sdb_end_position, bi_end_position. unfold sdb_start_position, sdb_size in *.
    rewrite wrap_u64_id by int_lia. lia. }
  clear Hv. subst v'. destruct (IH m' (p + sdb_size b) (sdb_end_offset b) next') as [IH1 IH2]; [done|done|done|done|lia|done|lia|].
  split; [done|lia].
Qed.

Lemma merge_live_blocks live : ∀ m v done next next',
  merge_inv sid start_offset m done next → Forall (live_at start_offset) live → gapless sid next live next' →
  Forall block_typed (done ++ live) → Forall (λ b, 0 < sdb_size b) live → sum_sizes (done ++ live) < two63 →
  merge_inv sid start_offset (foldl (merge_block threshold sid start_offset) (m, v) (sdb_index <$> live)).1 (done ++ live) next' ∧
  (foldl (merge_block threshold sid start_offset) (m, v) (sdb_index <$> live)).2 = v.
Proof using Hth Hsid.
  induction live as [|b live IH]; intros m v done next next' Hm Hl Hg Ht Hz Hs.
  { rewrite app_nil_r. simpl in *. by subst next'. }
  apply Forall_cons in Hl as [Hb Hl]. destruct Hg as (G1 & G2 & G3 & Hg). apply Forall_cons in Hz as [Hz0 Hz].
  apply Forall_app in Ht as Ht'. destruct Ht' as [Ht1 [Ht2 Ht3]%Forall_cons].
  assert (Hsum : sum_sizes (done ++ b :: live) = sum_sizes done + (sdb_size b + sum_sizes live))
    by (by rewrite sum_sizes_app).
  pose proof (sum_sizes_typed _ Ht1). pose proof (sum_sizes_typed _ Ht3).
  destruct (merge_live b m v done next Hm Ht2 Hz0 G1 G2 G3 Hb Ht1) as [Hm' Hv]; [lia|].
  cbn [fmap list_fmap foldl]. destruct (merge_block _ _ _ (m, v) _) as [m' v']. cbn [fst snd] in *. subst v'.
  replace (done ++ b :: live) with ((done ++ [b]) ++ live) in * by (by rewrite <-app_assoc).
  by apply (IH m' v (done ++ [b]) (sdb_end_offset b)).
Qed.
Lemma merge_all_blocks blocks m done next next' :
  merge_inv sid start_offset m done next → gapless sid next blocks next' → adjacent 0 blocks →
  Forall block_typed (done ++ blocks) → Forall (λ b, 0 < sdb_size b) blocks → sum_sizes (done ++ blocks) < two63 →
  let live := filter (live_at start_offset) blocks in
  let st := foldl (merge_block threshold sid start_offset) (m, 0) (sdb_index <$> blocks) in
  ∃ dead, blocks = dead ++ live ∧ merge_inv sid start_offset st.1 (done ++ live) next' ∧ st.2 = sum_sizes dead.
Proof using Hth Hsid.
  intros Hm Hg Ha Ht Hz Hs live st. destruct (gapless_split start_offset _ _ _ _ Hg) as (dead & Ed & Hdead).
  fold live in Ed. exists dead. split; [done|]. subst st. rewrite Ed in Hg, Ha, Ht, Hz, Hs |- *. rewrite fmap_app, foldl_app.
  apply gapless_app in Hg as (mid & Hg1 & Hg2). apply adjacent_app in Ha as [Ha1 Ha2].
  apply Forall_app in Ht as [Ht0 [Ht1 Ht2]%Forall_app]. apply Forall_app in Hz as [Hz1 Hz2]. rewrite !sum_sizes_app in Hs.
  pose proof (sum_sizes_typed _ Ht0) as P0. pose proof (sum_sizes_typed _ Ht1) as P1. pose proof (sum_sizes_typed _ Ht2) as P2.
  set (st1 := foldl (merge_block threshold sid start_offset) (m, 0) (sdb_index <$> dead)).
  assert (HD : merge_inv sid start_offset st1.1 done mid ∧ st1.2 = sum_sizes dead).
  { destruct dead as [|b dead]; [simpl in Hg1; by subst mid|].
    assert (done = []) as ->.
    { destruct done; [done|]. pose proof (mi_live _ _ _ _ _ Hm ltac:(done)). destruct Hg1 as (_ & ? & ? & _).
      apply Forall_cons in Hdead as [? _]. lia. }
    apply (merge_dead_blocks (b :: dead) m 0 next mid); try done; [|int_lia].
    eapply Forall_impl; [exact Hz1|]; simpl; lia. }
  destruct st1 as [m1 v1]. cbn [fst snd] in HD. destruct HD as [Hm1 ->].
  apply (merge_live_blocks live m1 (sum_sizes dead) done mid next'); [done| |done|by apply Forall_app|done|rewrite sum_sizes_app; lia].
  apply Forall_forall. intros b Hb. unfold live in Hb. by apply list_elem_of_filter in Hb as [? _].
Qed.
End MergeBlocks.

(** Adjacent blocks hold the bytes between their ends. *)
Lemma adjacent_bytes data blocks : ∀ p,
  adjacent p blocks → 0 <= p → Forall (λ b, 0 <= sdb_size b) blocks →
  byte_range data p (p + sum_sizes blocks) = payload_of (block_data data) blocks.
Proof.
  induction blocks as [|b blocks IH]; intros p Ha Hp Hz.
  { simpl. rewrite Z.add_0_r. unfold byte_range. by rewrite Z.sub_diag. }
  destruct Ha as [Eb Ha]. apply Forall_cons in Hz as [Hz0 Hz].
  assert (Hnn : 0 <= sum_sizes blocks) by (clear -Hz; induction Hz; simpl; [lia|]; unfold sum_sizes in *; simpl in *; lia).
  change (sum_sizes (b :: blocks)) with (sdb_size b + sum_sizes blocks).
  rewrite (byte_range_app _ p (p + sdb_size b)) by lia.
  change (payload_of (block_data data) (b :: blocks)) with (block_data data b ++ payload_of (block_data data) blocks).
  f_equal; [unfold block_data; by rewrite Eb|]. rewrite <-(IH (p + sdb_size b)) by (done || lia). f_equal. lia.
Qed.

Definition source_blocks (o : S3ObjectMetadata) (entries : list DataBlockIndex) : list StreamDataBlock :=
  (λ e, {| sdb_object_id := om_object_id o; sdb_index := e |}) <$> renumber 0 entries.

(** A stored object of the stream [sid]: its payload is [src] of its id,
    tiled by the blocks of its index, which are the offsets it is listed
    with. *)
Record merge_source {S W} `{ObjectStorageContract S W} (s : S) (sid : Z) (src : Z → list byte) (o : S3ObjectMetadata)
    (blocks : list StreamDataBlock) : Prop := {
  sr_stored : ∃ entries, object s (om_key o) = Some (object_bytes (src (om_object_id o)) entries) ∧
    om_object_size o = Z.of_nat (length (object_bytes (src (om_object_id o)) entries)) ∧
    Forall bi_typed entries ∧ 36 * Z.of_nat (length entries) < two32 ∧ blocks = source_blocks o entries;
  sr_small : Z.of_nat (length (src (om_object_id o))) < two63;
  sr_typed : Forall block_typed blocks;
  sr_sizes : Forall (λ b, 0 < sdb_size b) blocks;
  sr_tiled : adjacent 0 blocks ∧ sum_sizes blocks = Z.of_nat (length (src (om_object_id o)));
  sr_gapless : gapless sid (start_offset_of o) blocks (end_offset_of o);
}.

Lemma payload_of_src o src entries blocks :
  blocks ⊆ source_blocks o entries → payload_of (src_bytes src) blocks = payload_of (block_data (src (om_object_id o))) blocks.
Proof.
  intros Hb. apply payload_of_ext. intros b Hin. specialize (Hb b Hin). unfold source_blocks in Hb.
  apply list_elem_of_fmap in Hb as (e & -> & _). done.
Qed.

Section MergeObjects.
Context {S W : Type} `{HOS : ObjectStorage S W, HOC : !ObjectStorageContract S W}.
Hypothesis always_available : ∀ s : S, available s.
Context (self : StreamObjectCompactor) (stream : StreamView) (src : Z → list byte).
Hypothesis threshold_ok : soc_data_block_group_size_threshold self < two32.
Hypothesis stream_ok : 0 <= sv_stream_id stream < two63.

Notation inv := (merge_inv (sv_stream_id stream) (sv_start_offset stream)).
Notation live := (filter (live_at (sv_start_offset stream))).

Lemma merge_source_frame s s' o blocks :
  merge_source s (sv_stream_id stream) src o blocks → object s' (om_key o) = object s (om_key o) →
  merge_source s' (sv_stream_id stream) src o blocks.
Proof using Type. intros [(es & H1 & H2) H3 H4 H5 H6 H7] E. constructor; [|done..]. exists es. by rewrite E. Qed.

Lemma filter_live_sum blocks : Forall block_typed blocks → 0 <= sum_sizes (live blocks) <= sum_sizes blocks.
Proof using Type.
  induction 1 as [|b l Hb Hl IH]; [done|]. destruct (block_end b Hb) as (_ & _ & _ & _ & ?). rewrite filter_cons.
  case_decide; unfold sum_sizes in *; simpl in *; lia.
Qed.

Lemma merge_object_ok o s w m size blocks done s' w' m' size' :
  merge_source s (sv_stream_id stream) src o blocks → inv m done (start_offset_of o) →
  written w = payload_of (src_bytes src) done → size = sum_sizes done → Forall block_typed done →
  sum_sizes done + sum_sizes blocks < two63 →
  merge_object self stream o s w m size = (s', w', Ok (m', size')) →
  inv m' (done ++ live blocks) (end_offset_of o) ∧ written w' = payload_of (src_bytes src) (done ++ live blocks) ∧
  size' = sum_sizes (done ++ live blocks) ∧ writer_key w' = writer_key w ∧ ∀ k, object s' k = object s k.
Proof using always_available threshold_ok stream_ok.
  intros [(entries & Hobj & Hsz & Hty & Hne & Eb) Hsm Htb Hzb [Hadj Hsum] Hg] Hm Hw Hs Htd Htot Hr.
  assert (Hinfo : (basic_object_info s (reader_new o)).2 =
    Ok {| data_block_size := Z.of_nat (length (src (om_object_id o))); index_block := renumber 0 entries |}).
  { unfold basic_object_info. cbn [or_info reader_new].
    by rewrite (load_object_bytes s o (src (om_object_id o)) entries (always_available s) Hobj Hsz Hty Hsm Hne (reader_new o) eq_refl). }
  assert (Hidx : renumber 0 entries = sdb_index <$> blocks).
  { rewrite Eb. unfold source_blocks. rewrite <-list_fmap_compose. by rewrite list_fmap_id. }
  unfold merge_object in Hr. rewrite Hinfo in Hr. cbn [index_block data_block_size] in Hr. rewrite Hidx in Hr.
  destruct (merge_all_blocks (soc_data_block_group_size_threshold self) (sv_stream_id stream) (sv_start_offset stream)
    threshold_ok stream_ok blocks m done (start_offset_of o) (end_offset_of o)) as (dead & Ed & Hm2 & Hv2);
    [done|done|done|by apply Forall_app|done|by rewrite sum_sizes_app|].
  set (lv := live blocks) in *. destruct (foldl _ (m, 0) _) as [m2 v2]. cbn [fst snd] in Hm2, Hv2. subst v2.
  rewrite Ed in Hadj, Hsum, Htb, Hzb. apply adjacent_app in Hadj as [_ Ha2]. rewrite sum_sizes_app in Hsum.
  apply Forall_app in Htb as [Ht1 Ht2]. apply Forall_app in Hzb as [_ Hz2].
  assert (Hp2 : Forall (λ b, 0 <= sdb_size b) lv) by (eapply Forall_impl; [exact Hz2|]; simpl; lia).
  pose proof (sum_sizes_typed _ Ht1). pose proof (sum_sizes_typed _ Ht2).
  assert (Hsub : lv ⊆ source_blocks o entries) by (rewrite <-Eb; intros b Hb; unfold lv in Hb; by apply list_elem_of_filter in Hb as [_ ?]).
  destruct (Z.ltb_spec (sum_sizes dead) (Z.of_nat (length (src (om_object_id o))))) as [Hlt|Hge].
  - rewrite (range_read_present _ _ _ _ _ (object_bytes (src (om_object_id o)) entries)) in Hr; [|done|apply always_available|lia|].
    2:{ rewrite length_object_bytes. lia. }
    destruct (mw_write s w _) as [[s1 w1] [[]|e]] eqn:E1; [|done]. injection Hr as <- <- <- <-.
    apply part_queued in E1 as (K1 & K2 & K3). split_and!; [done| |rewrite sum_sizes_app; lia|done|done].
    rewrite K2, Hw, payload_of_app. f_equal. rewrite (payload_of_src o src entries lv Hsub).
    rewrite <-(adjacent_bytes _ _ (sum_sizes dead)) by (done || lia).
    replace (Z.of_nat (length (src (om_object_id o)))) with (sum_sizes dead + sum_sizes lv) by lia.
    unfold byte_range, slice, object_bytes. rewrite drop_app_le by lia. rewrite take_app_le; [done|]. rewrite length_drop. lia.
  - destruct (_ <? sum_sizes dead) eqn:El; [done|]. injection Hr as <- <- <- <-.
    assert (sum_sizes lv = 0) by lia. assert (lv = []) as E0.
    { destruct lv as [|b l]; [done|]. apply Forall_cons in Hz2 as [? _]. apply Forall_cons in Hp2 as [_ ?].
      assert (0 <= sum_sizes l) by (apply sum_sizes_typed; by apply Forall_cons in Ht2 as [_ ?]). unfold sum_sizes in *. simpl in *. lia. }
    rewrite E0 in *. rewrite app_nil_r in *. split_and!; done.
Qed.

(** The objects of a group follow each other from offset [next]. *)
Fixpoint chained (next : Z) (group : list S3ObjectMetadata) : Prop :=
  match group with
  | [] => True
  | o :: group => start_offset_of o = next ∧ chained (end_offset_of o) group
  end.

Lemma chained_of first group : Sorted follows (first :: group) → chained (start_offset_of first) (first :: group).
Proof using Type.
  revert first. induction group as [|o group IH]; intros first Hs; [done|]. apply Sorted_inv in Hs as [Hs Hh].
  inversion_clear Hh as [|? ? Hf]. split; [done|]. unfold follows in Hf. rewrite Hf. by apply IH.
Qed.

Lemma merge_objects_ok group : ∀ bls s w m size done next s' w' m' size',
  Forall2 (merge_source s (sv_stream_id stream) src) group bls → chained next group → inv m done next →
  written w = payload_of (src_bytes src) done → size = sum_sizes done → Forall block_typed (done ++ concat bls) →
  sum_sizes (done ++ concat bls) < two63 →
  merge_objects self stream group s w m size = (s', w', Ok (m', size')) →
  inv m' (done ++ live (concat bls)) (from_option end_offset_of next (last group)) ∧
  written w' = payload_of (src_bytes src) (done ++ live (concat bls)) ∧
  size' = sum_sizes (done ++ live (concat bls)) ∧ writer_key w' = writer_key w ∧ ∀ k, object s' k = object s k.
Proof using always_available threshold_ok stream_ok.
  induction group as [|o group IH]; intros bls s w m size done next s' w' m' size' Hf Hc Hm Hw Hs Ht Hb Hr;
    inversion Hf as [|? blocks ? bls' Ho Hf']; subst; cbn [merge_objects] in Hr.
  { injection Hr as <- <- <- <-. cbn [concat]. rewrite filter_nil, app_nil_r. done. }
  destruct Hc as [<- Hc]. cbn [concat] in *. rewrite !sum_sizes_app in Hb.
  apply Forall_app in Ht as [Ht0 [Ht1 Ht2]%Forall_app].
  pose proof (sum_sizes_typed _ Ht0) as P0. pose proof (sum_sizes_typed _ Ht1) as P1. pose proof (sum_sizes_typed _ Ht2) as P2.
  destruct (filter_live_sum blocks Ht1) as [P3 P4].
  destruct (merge_object self stream o s w m _) as [[s1 w1] [[m1 size1]|e]] eqn:E1; [|done].
  destruct (merge_object_ok o s w m _ blocks done s1 w1 m1 size1 Ho Hm Hw eq_refl Ht0) as (A1 & A2 & A3 & A4 & A5); [lia|done|].
  assert (Ht1' : Forall block_typed (live blocks)).
  { apply Forall_forall. intros b [_ Hbl]%list_elem_of_filter. rewrite Forall_forall in Ht1. by apply Ht1. }
  destruct (IH bls' s1 w1 m1 size1 (done ++ live blocks) (end_offset_of o) s' w' m' size') as (B1 & B2 & B3 & B4 & B5);
    [|done|done|done|done|by rewrite !Forall_app|by rewrite !sum_sizes_app; lia|done|].
  { eapply Forall2_impl; [exact Hf'|]. intros o' b' Hob. eapply merge_source_frame; [done|apply A5]. }
  rewrite filter_app. rewrite <-!app_assoc in *. split_and!; [|done|done|congruence|intros k; by rewrite B5].
  by destruct group as [|o' group]; [|rewrite last_cons_cons; destruct (last (o' :: group)) eqn:El; [|by apply last_None in El]].
Qed.

Lemma sources_sized s group bls :
  Forall2 (merge_source s (sv_stream_id stream) src) group bls → Forall (sized (src_bytes src)) (concat bls).
Proof using Type.
  induction 1 as [|o blocks g' bls' Ho Hf' IH]; [constructor|]. cbn [concat]. apply Forall_app. split; [|done].
  destruct Ho as [(es & _ & _ & _ & _ & ->) Hs Ht Hz [Ha Hsum] _]. rewrite Forall_forall. intros b Hb.
  assert (Eid : sdb_object_id b = om_object_id o) by (unfold source_blocks in Hb; by apply list_elem_of_fmap in Hb as (e & -> & _)).
  apply list_elem_of_split in Hb as (l1 & l2 & Eb). rewrite Eb in Ha, Hsum, Hz. apply adjacent_app in Ha as [_ [Ea _]].
  rewrite sum_sizes_app in Hsum. change (sum_sizes (b :: l2)) with (sdb_size b + sum_sizes l2) in Hsum.
  assert (P : ∀ l, Forall (λ b, 0 < sdb_size b) l → 0 <= sum_sizes l) by (clear; induction 1; unfold sum_sizes in *; simpl in *; lia).
  apply Forall_app in Hz as [Hz1 [Hz2 Hz3]%Forall_cons]. pose proof (P _ Hz1). pose proof (P _ Hz3).
  unfold sized, src_bytes, block_data. rewrite Eid, length_byte_range by lia. lia.
Qed.

Lemma physical_merge_ok group bls object_id s s' req :
  Forall2 (merge_source s (sv_stream_id stream) src) group bls → Sorted follows group →
  Forall block_typed (concat bls) → sum_sizes (concat bls) < two63 → 36 * Z.of_nat (length (concat bls)) < two32 →
  compact_by_physical_merge self stream group object_id s = (s', Ok req) →
  ∃ r first final, req = Some r ∧ head group = Some first ∧ last group = Some final ∧
    cq_object_id r = object_id ∧ cq_stream_id r = sv_stream_id stream ∧
    cq_source_object_ids r = om_object_id <$> group ∧
    cq_start_offset r = from_option sdb_start_offset (end_offset_of final) (head (live (concat bls))) ∧
    cq_end_offset r = end_offset_of final ∧
    (∀ k, k ≠ gen_object_key object_id → object s' k = object s k) ∧
    ∀ md, om_object_id md = object_id → om_object_size md = cq_object_size r →
      serves_blocks s' md (src_bytes src) (live (concat bls)).
Proof using always_available threshold_ok stream_ok.
  intros Hf Hchain Ht Hb Hn Hr. unfold compact_by_physical_merge in Hr.
  destruct group as [|first group]; [done|]. set (gr := first :: group) in *. cbn [head gr] in Hr.
  destruct (last gr) as [final|] eqn:El; [|by apply last_None in El].
  destruct (os_writer s _ _) as [s1 [w|e]] eqn:E1; [|done]. apply writer_opened in E1 as (K1 & K2 & K3).
  destruct (merge_objects self stream gr s1 w _ 0) as [[s2 w2] [[m size]|e]] eqn:E2; [|done].
  assert (Hf1 : Forall2 (merge_source s1 (sv_stream_id stream) src) gr bls).
  { eapply Forall2_impl; [exact Hf|]. intros o b Hob. eapply merge_source_frame; [done|apply K3]. }
  destruct (merge_objects_ok gr bls s1 w (merge_new (start_offset_of first)) 0 [] (start_offset_of first) s2 w2 m size Hf1
    (chained_of first group Hchain) (merge_new_inv _ _ _) K2 eq_refl Ht Hb E2) as (A1 & A2 & A3 & A4 & A5).
  rewrite El in A1. cbn [from_option] in A1. set (lv := live (concat bls)) in *. cbn [app] in A1, A2, A3.
  set (indexes := index_encode _) in Hr. destruct (mw_write s2 w2 _) as [[s3 w3] [[]|e]] eqn:E3; [|done].
  destruct (mw_finish s3 w3) as [[s4 w4] [bucket|e]] eqn:E4; [|done]. injection Hr as <- <-. eexists _, first, final.
  apply part_queued in E3 as (L1 & L2 & L3). apply finish_durable in E4 as [M1 M2].
  assert (Hsub : lv ⊆+ concat bls) by (apply sublist_submseteq, sublist_filter).
  assert (Htl : Forall block_typed lv).
  { apply Forall_forall. intros b Hbl. rewrite Forall_forall in Ht. by apply Ht, (elem_of_submseteq _ _ _ Hbl Hsub). }
  destruct (filter_live_sum _ Ht) as [P1 P2].
  destruct (merge_closed _ _ _ _ _ A1 stream_ok Htl) as (groups & G1 & G2 & G3 & G4); [unfold lv; lia|].
  set (entries := mr_indexes m ++ group_entry (sv_stream_id stream) m) in *.
  split_and!; [done|done|done|done|done|done|by apply (mi_start _ _ _ _ _ A1)|done| |].
  { intros k Hk. rewrite M2, L3, A5, K3; [done|]. congruence. }
  intros md Hid Hsz. assert (Hsl : Forall (sized (src_bytes src)) lv).
  { apply Forall_forall. intros b Hbl. pose proof (sources_sized _ _ _ Hf) as Hz. rewrite Forall_forall in Hz.
    by apply Hz, (elem_of_submseteq _ _ _ Hbl Hsub). }
  assert (Eobj : object s4 (om_key md) = Some (object_bytes (payload_of (src_bytes src) lv) entries)).
  { unfold om_key. rewrite Hid, <-K1, <-A4, <-L1, M1, L2, A2. unfold object_bytes, indexes.
    rewrite length_payload, (mi_position _ _ _ _ _ A1) by done. by rewrite length_index_encode, Nat.mul_comm. }
  eapply (entries_serve s4 md _ lv groups entries); [apply always_available|exact Eobj| |done|done|done|done|done|done| |].
  - rewrite Hsz. cbn. rewrite length_object_bytes, length_app, A3, <-(length_payload (src_bytes src)) by done. unfold indexes.
    rewrite length_index_encode, length_footer. change BLOCK_INDEX_SIZE with 36%nat. change FOOTER_SIZE with 48%nat. lia.
  - unfold lv. lia.
  - pose proof (submseteq_length _ _ Hsub). lia.
Qed.

(** The same for a group of [group0], whose limits bound its bytes. *)
Lemma group_merge_ok blocks max_size level min_size objects group object_id s s' req :
  (∀ o, o ∈ objects → object_sized o ∧ merge_source s (sv_stream_id stream) src o (blocks o)) →
  group ∈ group0 max_size level min_size objects →
  36 * Z.of_nat (length (concat (blocks <$> group))) < two32 →
  compact_by_physical_merge self stream group object_id s = (s', Ok req) →
  ∃ r final, req = Some r ∧ last group = Some final ∧ cq_stream_id r = sv_stream_id stream ∧ cq_object_id r = object_id ∧
    cq_source_object_ids r = om_object_id <$> group ∧
    cq_start_offset r = from_option sdb_start_offset (end_offset_of final) (head (live (concat (blocks <$> group)))) ∧
    cq_end_offset r = end_offset_of final ∧
    (∀ k, k ≠ gen_object_key object_id → object s' k = object s k) ∧
    ∀ md, om_object_id md = object_id → om_object_size md = cq_object_size r →
      serves_blocks s' md (src_bytes src) (live (concat (blocks <$> group))).
Proof using always_available threshold_ok stream_ok.
  intros Hobj Hgr Hn Hr.
  assert (Hsz : Forall object_sized objects) by (apply Forall_forall; intros o Ho; by apply Hobj).
  destruct (group0_ok max_size level min_size objects Hsz) as [Hm Hc]. rewrite Forall_forall in Hm.
  assert (Hsub : ∀ o, o ∈ group → o ∈ objects).
  { intros o Ho. assert (Hin : o ∈ concat (group0 max_size level min_size objects)) by (apply elem_of_concat_list; by exists group).
    rewrite Hc in Hin. by apply list_elem_of_filter in Hin as [_ ?]. }
  destruct (Hm group Hgr) as [_ Hchain _ Hparts _ _].
  assert (Hf : Forall2 (merge_source s (sv_stream_id stream) src) group (blocks <$> group)).
  { apply Forall2_fmap_r, Forall_Forall2_diag, Forall_forall. intros o Ho. by apply Hobj, Hsub. }
  assert (Hgs : Forall object_sized group) by (apply Forall_forall; intros o Ho; by apply Hobj, Hsub).
  assert (Hbytes : sum_sizes (concat (blocks <$> group)) <= sum_of om_object_size group ∧
    Forall block_typed (concat (blocks <$> group))).
  { clear -Hf. induction group as [|o group IH]; [done|]. apply Forall2_cons in Hf as [Ho Hf]. destruct (IH Hf) as [IH1 IH2].
    cbn [fmap list_fmap concat]. rewrite sum_sizes_app. destruct Ho as [(es & _ & Es & _) _ Ht _ [_ Esum] _].
    split; [|by apply Forall_app]. simpl. rewrite Esum, Es, length_object_bytes.
    change (concat (list_fmap _ _ blocks group)) with (concat (blocks <$> group)). lia. }
  destruct (group_bytes_bound group Hgs) as [_ Hb].
  destruct (physical_merge_ok group (blocks <$> group) object_id s s' req)
    as (r & first & final & E1 & _ & E2 & E3 & E9 & E4 & E5 & E6 & E7 & E8); [done|done|by apply Hbytes| |done|done|].
  { unfold MAX_PART_COUNT, MAX_PART_SIZE in *. int_lia. }
  by exists r, final.
Qed.
End MergeObjects.

(** ** The physical merge keeps what is live *)

(** C29: a merge of one stream loses no live record. Every group the
    compactor forms of objects whose blocks are the offsets they are listed
    with is replaced by an object that serves exactly the live blocks of the
    group, bytes and offsets unchanged, under the range the request names;
    no other object of the store changes. *)
Theorem merge_keeps_live_blocks {S W} `{ObjectStorageContract S W} self stream src
    (blocks : S3ObjectMetadata → list StreamDataBlock) max_size level min_size objects group object_id (s s' : S) req :
  (∀ s : S, available s) → soc_data_block_group_size_threshold self < two32 → 0 <= sv_stream_id stream < two63 →
  (∀ o, o ∈ objects → object_sized o ∧ merge_source s (sv_stream_id stream) src o (blocks o)) →
  group ∈ group0 max_size level min_size objects →
  36 * Z.of_nat (length (concat (blocks <$> group))) < two32 →
  compact_by_physical_merge self stream group object_id s = (s', Ok req) →
  let live := filter (live_at (sv_start_offset stream)) (concat (blocks <$> group)) in
  ∃ r final, req = Some r ∧ last group = Some final ∧ cq_object_id r = object_id ∧
    cq_source_object_ids r = om_object_id <$> group ∧
    cq_start_offset r = from_option sdb_start_offset (end_offset_of final) (head live) ∧
    cq_end_offset r = end_offset_of final ∧
    (∀ k, k ≠ gen_object_key object_id → object s' k = object s k) ∧
    ∀ md, om_object_id md = object_id → om_object_size md = cq_object_size r → serves_blocks s' md (src_bytes src) live.
Proof.
  intros Hav Hth Hsid Hobj Hgr Hn Hr live.
  destruct (group_merge_ok Hav self stream src Hth Hsid blocks max_size level min_size objects group object_id s s' req)
    as (r & final & ? & ? & _ & ? & ? & ? & ? & ? & ?); [done|done|done|done|].
  by exists r, final.
Qed.

(** ** Requests the metadata refuses *)
Lemma compact_refused (h : MetadataNodeHandle) now (m : LocalSink) req row :
  (cq_object_id req = NOOP_OBJECT_ID ∨ stream_object_committed (ls_state m) (cq_stream_id req) (cq_object_id req) = false) →
  ms_streams (ls_state m) !! cq_stream_id req = Some row →
  (sr_end_offset row < cq_end_offset req ∨ cq_start_offset req < sr_start_offset row) →
  ∃ m' e, obj_compact_stream_object m h now req = (m', Err e) ∧ ls_state m' = ls_state m ∧ sink_state m' = sink_state m.
Proof.
  intros Hid Hrow Hoff.
  assert (Ha : ∃ e, apply (ls_state m) (CompactStreamObject (nh_node_id h) (nh_node_epoch h) req now) = (ls_state m, Err e) ∧
    is_redundant e = false).
  { unfold apply. cbn [apply_inner]. unfold compact_stream_object, check_node, tryM, bindM at 1, node_epoch_check.
    destruct (ms_nodes _ !! _) as [node|]; [|by eauto]. destruct (nr_epoch node =? _); [|by eauto].
    unfold bindM at 1, getM. unfold bindM at 1, ensureM at 1.
    assert (negb (cq_object_id req =? NOOP_OBJECT_ID) && stream_object_committed (ls_state m) (cq_stream_id req) (cq_object_id req) = false)
      as -> by (destruct Hid as [->| ->]; [done|apply andb_false_r]).
    cbn [negb]. unfold retM. unfold bindM at 1, require_stream. rewrite Hrow. unfold bindM at 1, ensureM at 1.
    destruct (sr_epoch row =? _); [|unfold failM; by eauto]. unfold retM, bindM at 1, ensureM at 1.
    destruct (Z.ltb_spec (sr_end_offset row) (cq_end_offset req)); cbn [negb]; [unfold failM; by eauto|].
    unfold retM, bindM at 1, ensureM. rewrite (proj2 (Z.ltb_lt (cq_start_offset req) _)) by lia. cbn [negb]. unfold failM. by eauto. }
  destruct Ha as (e & Ha & Hr). unfold obj_compact_stream_object, propose. cbn [local_sink]. unfold local_propose. rewrite Ha.
  cbn. rewrite Hr. by eexists _, _.
Qed.

Lemma deduplicate_id objects : NoDup (om_object_id <$> objects) → deduplicate_objects_by_id objects = objects.
Proof.
  intros Hnd. unfold deduplicate_objects_by_id.
  assert (Hgen : ∀ (seen : gset Z) out, (∀ o, o ∈ objects → om_object_id o ∉ seen) →
    reverse (foldl (λ (st : gset Z * list S3ObjectMetadata) o,
      if bool_decide (om_object_id o ∈ st.1) then st else ({[om_object_id o]} ∪ st.1, o :: st.2)) (seen, out) objects).2 =
    reverse out ++ objects).
  { induction objects as [|o l IH]; intros seen out Hs; cbn [foldl fst snd]; [by rewrite app_nil_r|].
    apply NoDup_cons in Hnd as [Hno Hnd]. rewrite bool_decide_eq_false_2 by (apply Hs; left).
    rewrite IH; [by rewrite reverse_cons, <-app_assoc|done|]. intros o' Ho' [E%elem_of_singleton|E]%elem_of_union.
    - apply Hno. rewrite <-E. by apply list_elem_of_fmap_2.
    - apply (Hs o'); [by right|done]. }
  apply (Hgen ∅ []). intros o _. apply not_elem_of_empty.
Qed.

(** C36: cleaning up expired objects never succeeds. The request carries
    [NOOP_OFFSET] as its end offset, which is above the end offset of every
    stream, and the metadata refuses it; so as soon as one object of a
    stream lies below its start offset, every pass over the stream, of any
    level, ends with that error before it merges anything. *)
Theorem expired_cleanup_is_refused {S W} `{ObjectStorage S W} (h : MetadataNodeHandle) now self stream level
    (s : S) (m : LocalSink) row objects o :
  ms_streams (ls_state m) !! sv_stream_id stream = Some row → sr_end_offset row < NOOP_OFFSET →
  obj_get_stream_objects m (sv_stream_id stream) 0 (sv_confirm_offset stream) u64_max = Some objects →
  NoDup (om_object_id <$> objects) → o ∈ objects → end_offset_of o <= sv_start_offset stream →
  ∃ m' e, compact (HEM := local_engine h now) (HSM := local_stream_objects h now) self stream level s m =
      (s, m', Err (EngineMeta e)) ∧
    ls_state m' = ls_state m ∧ sink_state m' = sink_state m.
Proof.
  intros Hrow Hend Hobj Hnd Ho Hexp. unfold compact. cbn [so_get_stream_objects local_stream_objects]. rewrite Hobj.
  rewrite deduplicate_id by done. assert (Hin : o ∈ filter (is_expired stream) objects) by (by apply list_elem_of_filter).
  unfold cleanup_expired. destruct (filter (is_expired stream) objects) as [|x expired] eqn:Ef; [by apply elem_of_nil in Hin|].
  cbn [length cleanup_chunks]. cbn [so_compact_stream_object local_stream_objects].
  destruct (compact_refused h now m (cleanup_request stream (take EXPIRED_OBJECTS_CLEAN_UP_STEP (x :: expired))) row)
    as (m' & e & -> & E1 & E2); [by left|done|left; done|].
  by exists m', e.
Qed.

(** C37: a stream that was trimmed inside a data block is never merged. The
    merged object starts with the first live block, which begins below the
    start offset of the stream, and the metadata refuses a compaction that
    starts below it. *)
Theorem straddled_trim_blocks_the_merge {S W} `{ObjectStorageContract S W} (h : MetadataNodeHandle) now self stream src
    (blocks : S3ObjectMetadata → list StreamDataBlock) max_size level min_size objects group object_id (s s' : S) req b
    (m : LocalSink) row :
  (∀ s : S, available s) → soc_data_block_group_size_threshold self < two32 → 0 <= sv_stream_id stream < two63 →
  (∀ o, o ∈ objects → object_sized o ∧ merge_source s (sv_stream_id stream) src o (blocks o)) →
  group ∈ group0 max_size level min_size objects →
  36 * Z.of_nat (length (concat (blocks <$> group))) < two32 →
  compact_by_physical_merge self stream group object_id s = (s', Ok (Some req)) →
  head (filter (live_at (sv_start_offset stream)) (concat (blocks <$> group))) = Some b →
  sdb_start_offset b < sv_start_offset stream →
  ms_streams (ls_state m) !! sv_stream_id stream = Some row → sr_start_offset row = sv_start_offset stream →
  stream_object_committed (ls_state m) (sv_stream_id stream) object_id = false →
  ∃ m' e, obj_compact_stream_object m h now req = (m', Err e) ∧ ls_state m' = ls_state m ∧ sink_state m' = sink_state m.
Proof.
  intros Hav Hth Hsid Hobj Hgr Hn Hr Hb Hlt Hrow Hst Hfree.
  destruct (group_merge_ok Hav self stream src Hth Hsid blocks max_size level min_size objects group object_id s s' (Some req))
    as (r & final & [= <-] & _ & E3 & E4 & _ & E5 & _); [done|done|done|done|].
  apply (compact_refused h now m req row); [right; by rewrite E3, E4|by rewrite E3|]. right. rewrite E5, Hb. cbn. lia.
Qed.

(** ** Linking keeps what is live *)
Notation Links := (list (S3ObjectMetadata * list DataBlockIndex)).

Lemma add_all_app c c1 cs1 cs2 :
  add_all c cs1 = (c1, Ok tt) → add_all c (cs1 ++ cs2) = add_all c1 cs2.
Proof.
  revert c. induction cs1 as [|[m es] cs1 IH]; intros c; cbn [add_all app]; [by intros [= ->]|].
  destruct (add_component c m es) as [c' [[]|e]]; [apply IH|done].
Qed.

Lemma renumber_again i j es : renumber i (renumber j es) = renumber i es.
Proof. revert i j. induction es as [|e es IH]; intros i j; cbn [renumber]; [done|]. by rewrite IH. Qed.

Lemma renumber_app i es1 es2 : renumber i (es1 ++ es2) = renumber i es1 ++ renumber (i + Z.of_nat (length es1)) es2.
Proof.
  revert i. induction es1 as [|e es1 IH]; intros i; cbn [renumber app length]; [by rewrite Z.add_0_r|].
  rewrite IH. do 2 f_equal. f_equal. lia.
Qed.

Definition live_entry (start_offset : Z) (e : DataBlockIndex) : bool := start_offset <? bi_end_offset e.
Definition has_live (start_offset : Z) (c : S3ObjectMetadata * list DataBlockIndex) : Prop :=
  existsb (live_entry start_offset) c.2 = true.
#[global] Instance has_live_dec start_offset c : Decision (has_live start_offset c) := decide (_ = _).

Lemma existsb_renumber start_offset i es :
  existsb (live_entry start_offset) (renumber i es) = existsb (live_entry start_offset) es.
Proof. revert i. induction es as [|e es IH]; intros i; cbn [renumber existsb]; [done|]. by rewrite IH. Qed.

(** The same component up to the numbers of its entries. *)
Definition same_component (a b : S3ObjectMetadata * list DataBlockIndex) : Prop :=
  om_object_id a.1 = om_object_id b.1 ∧ attr_bucket_id (om_attributes a.1) = attr_bucket_id (om_attributes b.1) ∧
  ∃ j, a.2 = renumber j b.2 ∨ a.2 = b.2.

Lemma same_components_read i k as_ bs :
  Forall2 same_component as_ bs →
  owners i as_ = owners i bs ∧ renumber k (all_entries as_) = renumber k (all_entries bs) ∧
  length (all_entries as_) = length (all_entries bs).
Proof.
  intros Hf. revert i k. induction Hf as [|[ma ea] [mb eb] l1 l2 (H1 & H2 & j & H3) Hf IH]; intros i k; [done|].
  cbn [fst snd] in *. assert (E : length ea = length eb ∧ renumber k ea = renumber k eb).
  { destruct H3 as [-> | ->]; [|done]. split; [by destruct (renumber_facts j eb) as (_ & _ & ? & _)|apply renumber_again]. }
  destruct E as [E1 E2]. assert (Ea : ∀ m e (l : Links), all_entries ((m, e) :: l) = e ++ all_entries l) by done.
  destruct (IH (i + Z.of_nat (length ea)) (k + Z.of_nat (length ea))) as (IH1 & IH2 & IH3).
  rewrite !Ea. cbn [owners]. rewrite !renumber_app, !length_app, H1, H2, E2, IH1, IH2, E1, IH3. done.
Qed.

Lemma linked_metadata_same l : is_i16 (ox_bucket_id l) →
  om_object_id (linked_metadata l) = ox_object_id l ∧ attr_bucket_id (om_attributes (linked_metadata l)) = ox_bucket_id l.
Proof. intros Hb. split; [done|]. by destruct (attributes_roundtrip (ox_bucket_id l) false false Hb). Qed.

Definition dead_paths (cs : Links) : list ObjectPath :=
  (λ c, {| op_bucket_id := attr_bucket_id (om_attributes c.1); op_key := gen_object_key (om_object_id c.1) |}) <$> cs.

Lemma link_components_ok start_offset (objects : list Composite.ObjectIndex) L (cs : Links) : ∀ i w del w' del',
  (i + length (all_entries cs) = length L)%nat → drop i L = renumber (Z.of_nat i) (all_entries cs) →
  link_components start_offset {| ci_objects := objects; ci_index_block := L |} (owners (Z.of_nat i) cs) w del = Ok (w', del') →
  ∃ kept, add_all w kept = (w', Ok tt) ∧ Forall2 same_component kept (filter (has_live start_offset) cs) ∧
    del' = del ++ dead_paths (filter (λ c, ¬ has_live start_offset c) cs).
Proof.
  induction cs as [|[m es] cs IH]; intros i w del w' del' Hi Hd Hr; cbn [owners link_components] in Hr.
  { injection Hr as <- <-. exists []. by rewrite app_nil_r. }
  assert (Ea : all_entries ((m, es) :: cs) = es ++ all_entries cs) by done. rewrite Ea in Hi, Hd. rewrite length_app in Hi.
  set (own := {| ox_object_id := om_object_id m; ox_block_start_index := _; ox_block_end_index := _; ox_bucket_id := _ |}) in Hr.
  assert (Hb : linked_blocks {| ci_objects := objects; ci_index_block := L |} own = Some (renumber (Z.of_nat i) es)).
  { unfold linked_blocks. cbn [ox_block_start_index ox_block_end_index ci_index_block own].
    rewrite (proj2 (Z.leb_le _ _)), (proj2 (Z.leb_le _ _)) by lia. cbn [andb]. f_equal.
    replace (Z.to_nat (Z.of_nat i + Z.of_nat (length es) - Z.of_nat i)) with (length es) by lia. rewrite Nat2Z.id, Hd, renumber_app.
    destruct (renumber_facts (Z.of_nat i) es) as (_ & _ & Hl & _). by rewrite <-Hl, take_app_length. }
  rewrite Hb in Hr. change (λ b, start_offset <? bi_end_offset b) with (live_entry start_offset) in Hr.
  rewrite existsb_renumber in Hr.
  destruct (linked_metadata_same own (bucket_i16 _)) as [L1 L2].
  assert (Hnext : (i + length es + length (all_entries cs) = length L)%nat ∧
    drop (i + length es) L = renumber (Z.of_nat (i + length es)) (all_entries cs)).
  { split; [lia|]. rewrite <-drop_drop, Hd, renumber_app, Nat2Z.inj_add.
    destruct (renumber_facts (Z.of_nat i) es) as (_ & _ & Hl & _). by rewrite <-Hl at 1; rewrite drop_app_length. }
  destruct Hnext as [N1 N2]. replace (Z.of_nat i + Z.of_nat (length es)) with (Z.of_nat (i + length es)) in Hr by lia.
  rewrite !filter_cons. destruct (existsb (live_entry start_offset) es) eqn:Ex.
  - destruct (add_component w (linked_metadata own) (renumber (Z.of_nat i) es)) as [w1 [[]|e]] eqn:E1; [|done]. cbn [map_err rbind] in Hr.
    destruct (IH _ _ _ _ _ N1 N2 Hr) as (kept & K1 & K2 & K3). exists ((linked_metadata own, renumber (Z.of_nat i) es) :: kept).
    rewrite decide_True, (decide_False (P := ¬ _)) by (unfold has_live; cbn; rewrite ?Ex; auto).
    split_and!; [cbn [add_all]; by rewrite E1| |done]. constructor; [|done]. split_and!; [done|done|]. eexists. by left.
  - destruct (IH _ _ _ _ _ N1 N2 Hr) as (kept & K1 & K2 & K3). exists kept.
    rewrite decide_False, (decide_True (P := ¬ _)) by (unfold has_live; cbn; rewrite Ex; auto).
    split_and!; [done|done|]. rewrite K3, <-app_assoc. done.
Qed.

(** The components of an object: what a composite links, or a plain object
    itself with its index. *)
Definition linkable {S W} `{ObjectStorageContract S W} (s : S) (o : S3ObjectMetadata) (cs : Links) : Prop :=
  if attr_is_composite (om_attributes o)
  then composite_ok cs ∧ object s (om_key o) = Some (composite_bytes cs)
  else ∃ payload entries, cs = [(o, entries)] ∧ object s (om_key o) = Some (object_bytes payload entries) ∧
    om_object_size o = Z.of_nat (length (object_bytes payload entries)) ∧ Forall bi_typed entries ∧
    Z.of_nat (length payload) < two63 ∧ 36 * Z.of_nat (length entries) < two32.

Definition kept_of (start_offset : Z) (o : S3ObjectMetadata) (cs : Links) : Links :=
  if attr_is_composite (om_attributes o) then filter (has_live start_offset) cs else cs.
Definition dropped_of (start_offset : Z) (o : S3ObjectMetadata) (cs : Links) : Links :=
  if attr_is_composite (om_attributes o) then filter (λ c, ¬ has_live start_offset c) cs else [].
Definition link_keys (cs : Links) : list string := (λ c, gen_object_key (om_object_id c.1)) <$> cs.

Lemma dead_paths_keys cs : op_key <$> dead_paths cs = link_keys cs.
Proof. unfold dead_paths, link_keys. by rewrite <-list_fmap_compose. Qed.

Section Link.
Context {S W : Type} `{HOS : ObjectStorage S W, HOC : !ObjectStorageContract S W}.
Hypothesis always_available : ∀ s : S, available s.

Lemma composite_info_of s o cs : composite_ok cs → object s (om_key o) = Some (composite_bytes cs) →
  (composite_info s (composite_reader_new o)).2 = Ok {| ci_objects := owners 0 cs; ci_index_block := renumber 0 (all_entries cs) |}.
Proof using always_available.
  intros Hok Hobj. unfold composite_info. cbn [cr_info composite_reader_new cr_metadata].
  rewrite (range_read_to_end _ _ _ _ (composite_bytes cs)); [|done|apply always_available|lia].
  assert (byte_range (composite_bytes cs) 0 (Z.of_nat (length (composite_bytes cs))) = composite_bytes cs) as ->.
  { unfold byte_range, slice. rewrite Z.sub_0_r, Nat2Z.id. by apply take_ge. }
  cbn [rbind]. by rewrite parse_composite_bytes.
Qed.

Lemma link_object_ok start_offset o s w cs s' w' op :
  linkable s o cs → link_object start_offset o s w = (s', Ok (w', op)) →
  ∃ kept, add_all w kept = (w', Ok tt) ∧ Forall2 same_component kept (kept_of start_offset o cs) ∧
    ∀ k, k ∉ link_keys (dropped_of start_offset o cs) → object s' k = object s k.
Proof using always_available.
  unfold linkable, link_object, kept_of, dropped_of. destruct (attr_is_composite (om_attributes o)).
  - intros [Hok Hobj] Hr. rewrite (composite_info_of s o cs Hok Hobj) in Hr. cbn [ci_objects] in Hr.
    destruct (link_components _ _ _ _ _) as [[w1 del]|e] eqn:El; [|done].
    destruct (link_components_ok start_offset (owners 0 cs) (renumber 0 (all_entries cs)) cs 0 w [] w1 del) as (kept & K1 & K2 & K3); [|done|exact El|].
    { by destruct (renumber_facts 0 (all_entries cs)) as (_ & _ & -> & _). }
    cbn [app] in K3. exists kept. destruct del as [|p del]; [injection Hr as <- <- <-; done|].
    destruct (os_delete s (p :: del)) as [s1 [[]|e]] eqn:Ed; [|done]. injection Hr as <- <- <-.
    split_and!; [done|done|]. intros k Hk. eapply delete_only; [exact Ed|]. by rewrite K3, dead_paths_keys.
  - intros (payload & entries & -> & Hobj & Hsz & Hty & Hp & He) Hr. unfold basic_object_info in Hr. cbn [or_info reader_new] in Hr.
    rewrite (load_object_bytes s o payload entries (always_available s) Hobj Hsz Hty Hp He (reader_new o) eq_refl) in Hr.
    cbn [snd index_block] in Hr. destruct (add_component w o (renumber 0 entries)) as [w1 [[]|e]] eqn:E1; [|done].
    injection Hr as <- <- <-. exists [(o, renumber 0 entries)]. cbn [add_all]. rewrite E1. split_and!; [done| |done].
    constructor; [|constructor]. split_and!; [done|done|]. exists 0. by left.
Qed.

Lemma linkable_frame s s' o cs : object s' (om_key o) = object s (om_key o) → linkable s o cs → linkable s' o cs.
Proof using Type. intros E. unfold linkable. by rewrite E. Qed.

Lemma link_objects_ok start_offset group : ∀ css s w ops s' w' ops',
  Forall2 (linkable s) group css →
  (∀ o, o ∈ group → om_key o ∉ link_keys (concat (zip_with (dropped_of start_offset) group css))) →
  link_objects start_offset group s w ops = (s', Ok (w', ops')) →
  ∃ kept, add_all w kept = (w', Ok tt) ∧ Forall2 same_component kept (concat (zip_with (kept_of start_offset) group css)) ∧
    ∀ k, k ∉ link_keys (concat (zip_with (dropped_of start_offset) group css)) → object s' k = object s k.
Proof using always_available.
  induction group as [|o group IH]; intros css s w ops s' w' ops' Hf Hk Hr; inversion Hf as [|? cs ? css' Ho Hf']; subst;
    cbn [link_objects] in Hr; cbn [zip_with concat].
  { injection Hr as <- <- _. by exists []. }
  destruct (link_object start_offset o s w) as [s1 [[w1 op]|e]] eqn:E1; [|done].
  destruct (link_object_ok _ _ _ _ _ _ _ _ Ho E1) as (k1 & A1 & A2 & A3).
  assert (Hkeys : ∀ k cs1 cs2, k ∉ link_keys (cs1 ++ cs2) → k ∉ link_keys cs1 ∧ k ∉ link_keys cs2).
  { intros k cs1 cs2 Hn. unfold link_keys in *. rewrite fmap_app in Hn. by apply not_elem_of_app in Hn. }
  destruct (IH css' s1 w1 (ops ++ [op]) s' w' ops') as (k2 & B1 & B2 & B3); [| |done|].
  - assert (Hall : ∀ o', o' ∈ group → object s1 (om_key o') = object s (om_key o')).
    { intros o' Ho'. apply A3. apply (Hkeys _ _ (concat (zip_with (dropped_of start_offset) group css'))), Hk. by right. }
    clear -Hf' Hall. induction Hf' as [|o' cs' g' l' Ho' Hf' IH]; constructor.
    + eapply linkable_frame; [|done]. apply Hall. by left.
    + apply IH. intros x Hx. apply Hall. by right.
  - intros o' Ho'. apply (Hkeys _ (dropped_of start_offset o cs)), Hk. by right.
  - exists (k1 ++ k2). split_and!; [by rewrite (add_all_app _ _ _ _ A1)|by apply Forall2_app|].
    intros k [N1 N2]%Hkeys. by rewrite B3, A3.
Qed.
End Link.

Lemma same_component_ok as_ bs : Forall2 same_component as_ bs → composite_ok bs → composite_ok as_.
Proof.
  intros Hf [Hb Hn]. destruct (same_components_read 0 0 _ _ Hf) as (_ & _ & El). split.
  - clear Hn El. induction Hf as [|a b l1 l2 (H1 & _ & j & H2) Hf IH]; [constructor|]. apply Forall_cons in Hb as [[B1 B2] Hb].
    constructor; [|by apply IH]. split; [by rewrite H1|]. destruct H2 as [-> | ->]; [|done]. by apply renumber_facts.
  - by rewrite El, (Forall2_length _ _ _ Hf).
Qed.

Lemma kept_sublist start_offset group css : concat (zip_with (kept_of start_offset) group css) `sublist_of` concat css.
Proof.
  revert css. induction group as [|o group IH]; intros [|cs css]; cbn [zip_with concat]; [done|apply sublist_nil_l..|].
  apply sublist_app; [|apply IH]. unfold kept_of. destruct (attr_is_composite _); [apply sublist_filter|done].
Qed.

Lemma all_entries_sublist (cs1 cs2 : Links) : cs1 `sublist_of` cs2 → all_entries cs1 `sublist_of` all_entries cs2.
Proof.
  intros Hs. unfold all_entries. induction Hs as [|c l1 l2 Hs IH|c l1 l2 Hs IH]; cbn [fmap list_fmap concat]; [done| |].
  - by apply sublist_app.
  - by apply sublist_inserts_l.
Qed.

Lemma Forall_sub {A} (P : A → Prop) l1 l2 : l1 `sublist_of` l2 → Forall P l2 → Forall P l1.
Proof.
  intros Hs Hf. apply Forall_forall. intros x Hx. rewrite Forall_forall in Hf. apply Hf.
  by eapply elem_of_submseteq, sublist_submseteq.
Qed.

Lemma composite_ok_sublist (cs1 cs2 : Links) : cs1 `sublist_of` cs2 → composite_ok cs2 → composite_ok cs1.
Proof.
  intros Hs [H1 H2]. split; [by eapply Forall_sub|].
  pose proof (sublist_length _ _ Hs). pose proof (sublist_length _ _ (all_entries_sublist _ _ Hs)). lia.
Qed.

Lemma forward_renumber i es :
  Forall (λ e, bi_start_offset e < bi_end_offset e) (renumber i es) ↔ Forall (λ e, bi_start_offset e < bi_end_offset e) es.
Proof. revert i. induction es as [|e es IH]; intros i; cbn [renumber]; [done|]. by rewrite !Forall_cons, IH. Qed.

Lemma add_all_key cs c c' r : add_all c cs = (c', r) → cw_storage_key c' = cw_storage_key c.
Proof.
  revert c. induction cs as [|[m es] cs IH]; intros c; cbn [add_all]; [by intros [= -> _]|]. unfold add_component.
  destruct (advance_cursor _ _) as [cursor [[]|e]]; [|by intros [= <- _]]. intros ->%IH. done.
Qed.

Lemma contiguous_renumber sid o i es o' : contiguous_run sid o (renumber i es) o' ↔ contiguous_run sid o es o'.
Proof. revert o i. induction es as [|e es IH]; intros o i; cbn [renumber contiguous_run]; [done|]. by rewrite IH. Qed.

(** C30: linking a group keeps every live block and deletes nothing else. A
    composite compaction deletes only linked objects all of whose blocks are
    expired; the composite object it writes links every component with a
    live block to the object that owns it, as one run without a gap that is
    the range of the request. When nothing is live, nothing is written. *)
Theorem links_keep_live_blocks {S W} `{ObjectStorageContract S W} stream group css object_id (s s' : S) req :
  (∀ s : S, available s) → Forall2 (linkable s) group css → composite_ok (concat css) →
  Forall (λ e, bi_start_offset e < bi_end_offset e) (all_entries (concat css)) →
  let kept := concat (zip_with (kept_of (sv_start_offset stream)) group css) in
  let dropped := concat (zip_with (dropped_of (sv_start_offset stream)) group css) in
  (∀ o, o ∈ group → om_key o ∉ link_keys dropped) →
  compact_by_composite_object stream group object_id s = (s', Ok req) →
  (∀ c, c ∈ dropped → Forall (λ e, bi_end_offset e <= sv_start_offset stream) c.2) ∧
  (∀ k, k ≠ gen_object_key object_id → k ∉ link_keys dropped → object s' k = object s k) ∧
  ∃ r, req = Some r ∧ cq_source_object_ids r `prefix_of` (om_object_id <$> group) ++ [object_id] ∧
    (all_entries kept = [] → cq_object_id r = NOOP_OBJECT_ID) ∧
    (all_entries kept ≠ [] → cq_object_id r = object_id ∧
       (∃ sid, contiguous_run sid (cq_start_offset r) (all_entries kept) (cq_end_offset r)) ∧
       ∀ md, om_object_id md = object_id → (composite_info s' (composite_reader_new md)).2 =
         Ok {| ci_objects := owners 0 kept; ci_index_block := renumber 0 (all_entries kept) |}).
Proof.
  intros Hav Hf Hok Hlt kept dropped Hkeys Hr. split.
  { intros c Hc. unfold dropped in Hc. apply elem_of_concat_list in Hc as (l & Hl & Hc).
    apply list_elem_of_lookup in Hl as [i Hi]. rewrite lookup_zip_with_Some in Hi. destruct Hi as (o & cs & -> & _ & _).
    unfold dropped_of in Hc. destruct (attr_is_composite _); [|by apply elem_of_nil in Hc].
    apply list_elem_of_filter in Hc as [Hc _]. unfold has_live in Hc. apply Forall_forall. intros e He.
    destruct (Z.le_gt_cases (bi_end_offset e) (sv_start_offset stream)); [done|]. destruct Hc. apply existsb_exists.
    exists e. split; [by apply list_elem_of_In|]. unfold live_entry. lia. }
  unfold compact_by_composite_object in Hr.
  destruct (link_objects _ _ _ _ _) as [s1 [[w ops]|e]] eqn:E1; [|done].
  destruct (link_objects_ok Hav _ _ _ _ _ _ _ _ _ Hf Hkeys E1) as (links & A1 & A2 & A3). fold kept in A2. fold dropped in A3.
  assert (Hsub : kept `sublist_of` concat css) by apply kept_sublist.
  pose proof (composite_ok_sublist _ _ Hsub Hok) as Hokk. pose proof (same_component_ok _ _ A2 Hokk) as Hokl.
  destruct (same_components_read 0 0 _ _ A2) as (R1 & R2 & R3).
  assert (Hltl : Forall (λ e, bi_start_offset e < bi_end_offset e) (all_entries links)).
  { apply (forward_renumber 0). rewrite R2. apply forward_renumber. by eapply Forall_sub; [apply all_entries_sublist|]. }
  destruct (composite_is_contiguous object_id default_write_options links w Hltl A1) as (C1 & _ & C2).
  destruct (stream_range w) as [[[sid first] next]|].
  - destruct C2 as [Cne Crun]. unfold composite_close in Hr.
    destruct (os_write s1 _ _ _) as [s2 [b|e]] eqn:Ew; [|done]. injection Hr as <- <-.
    assert (Ekey : cw_storage_key w = gen_object_key object_id) by (by rewrite (add_all_key _ _ _ _ A1)).
    rewrite C1, Ekey in Ew. split.
    { intros k K1 K2. rewrite (write_only _ _ _ _ _ _ Ew k K1). by apply A3. }
    eexists. split_and!; [done|cbn; by apply prefix_app_r|intros E; by rewrite E in R3; destruct (all_entries links)|].
    intros _. split_and!; [done| |].
    + exists sid. cbn [cq_start_offset cq_end_offset]. apply (contiguous_renumber _ _ 0). rewrite <-R2. by apply contiguous_renumber.
    + intros md Hid. apply write_durable in Ew as [Eo _]. rewrite <-R1, <-R2. apply composite_info_of; [done|done|].
      unfold om_key. by rewrite Hid.
  - injection Hr as <- <-. split; [intros k K1 K2; by apply A3|]. eexists. split_and!; [done|done|done|].
    intros E. destruct E. rewrite C2 in R3. by destruct (all_entries kept).
Qed.

(** ** A trimmed stream *)
Definition demo_index (start_offset delta position size : Z) : DataBlockIndex := {|
  bi_block_id := -1; bi_stream_id := 0; bi_start_offset := start_offset; bi_end_offset_delta := delta;
  bi_record_count := delta; bi_start_position := position; bi_size := size |}.
Definition demo_payload (id : Z) : list byte := if id =? 0 then [x01; x02; x03; x04; x05] else [x06; x07; x08; x09].
Definition demo_entries (id : Z) : list DataBlockIndex :=
  if id =? 0 then [demo_index 0 2 0 3; demo_index 2 2 3 2] else [demo_index 4 2 0 4].
Definition demo_object (id : Z) : list byte := object_bytes (demo_payload id) (demo_entries id).
Definition demo_objects : MemoryObjectStorage := {|
  mo_objects := {[ gen_object_key 0 := (demo_object 0, 0); gen_object_key 1 := (demo_object 1, 0) ]};
  mo_bucket_id := 0; mo_now_ms := 0 |}.
Definition demo_stream_object (id start_offset end_offset : Z) : StreamObject := {|
  so_object_id := id; so_object_size := Z.of_nat (length (demo_object id)); so_stream_id := 0;
  so_start_offset := start_offset; so_end_offset := end_offset; so_attributes := 0 |}.

(** Two objects of stream 0, trimmed at an offset of the first one. *)
Definition demo_metadata (trim : Z) : LocalSink :=
  foldl (λ m c, (local_propose m c).1) local_new
    [RegisterNode 1 5 EmptyString 1; CreateStream 1 5; OpenStream 1 5 0 0; PrepareObject 1 5 2 60000 1;
     CommitStreamSetObject 1 5 {| cr_object_id := NOOP_OBJECT_ID; cr_object_size := 0; cr_attributes := 0;
       cr_stream_ranges := []; cr_stream_objects := [demo_stream_object 0 0 4; demo_stream_object 1 4 6];
       cr_compacted_object_ids := [] |} 2;
     TrimStream 1 5 0 0 trim].
Definition demo_listed : list S3ObjectMetadata :=
  default [] (obj_get_stream_objects (demo_metadata 3) 0 0 6 u64_max).
Definition demo_view (start_offset : Z) : StreamView := {|
  sv_stream_id := 0; sv_stream_epoch := 0; sv_start_offset := start_offset; sv_confirm_offset := 6 |}.
Definition demo_compactor : StreamObjectCompactor := compactor_new (2 ^ 30).
Definition demo_node : MetadataNodeHandle := {| nh_node_id := 1; nh_node_epoch := 5 |}.
Definition demo_pass (start_offset : Z) (level : CompactionLevel) : MemoryObjectStorage * LocalSink * result unit EngineError :=
  compact (HEM := local_engine demo_node 9) (HSM := local_stream_objects demo_node 9) demo_compactor
    (demo_view start_offset) level demo_objects (demo_metadata start_offset).

(** A pass whose stream starts at a block merges the two objects into one. *)
Example aligned_pass_merges :
  (demo_pass 2 Minor).2 = Ok tt ∧
  (λ o, (om_object_id o, om_offset_ranges o)) <$>
    default [] (obj_get_stream_objects (demo_pass 2 Minor).1.2 0 0 6 u64_max) =
  [(2, [{| sor_stream_id := 0; sor_start_offset := 2; sor_end_offset := 6 |}])].
Proof. by vm_compute. Qed.

(** A composite pass over the untrimmed stream links both objects. *)
Example linking_pass :
  (demo_pass 0 MajorV1).2 = Ok tt ∧
  (λ o, (om_object_id o, om_object_size o, attr_is_composite (om_attributes o))) <$>
    default [] (obj_get_stream_objects (demo_pass 0 MajorV1).1.2 0 0 6 u64_max) = [(2, 9, true)].
Proof. by vm_compute. Qed.

(** Half of a composite of 2 GiB is dirty at offset 3 of 6, not at offset 1. *)
Example dirty_composite :
  let o := {| om_object_id := 9; om_object_type := StreamObj;
    om_offset_ranges := [{| sor_stream_id := 0; sor_start_offset := 0; sor_end_offset := 6 |}];
    om_object_size := 2 ^ 31; om_attributes := attributes_new 0 true false;
    om_committed_timestamp_ms := 0; om_data_timestamp_ms := 0 |} in
  cleanup_v1_groups [o] 3 = [[o]] ∧ cleanup_v1_groups [o] 1 = [].
Proof. by vm_compute. Qed.

Definition demo_blocks (o : S3ObjectMetadata) : list StreamDataBlock := source_blocks o (demo_entries (om_object_id o)).

Lemma demo_source_ok o : o ∈ demo_listed →
  Forall bi_typed (demo_entries (om_object_id o)) ∧ Forall block_typed (demo_blocks o) ∧
  Forall (λ b, 0 < sdb_size b) (demo_blocks o).
Proof.
  intros Ho. vm_compute in Ho. repeat (apply elem_of_cons in Ho as [->|Ho]); [..|by apply elem_of_nil in Ho];
    (split_and!; repeat constructor; vm_compute; congruence).
Qed.

Lemma demo_sources_ok o : o ∈ demo_listed → object_sized o ∧ merge_source demo_objects 0 demo_payload o (demo_blocks o).
Proof.
  intros Ho. destruct (demo_source_ok o Ho) as (T1 & T2 & T3). revert T1 T2 T3.
  vm_compute in Ho. repeat (apply elem_of_cons in Ho as [->|Ho]); [..|by apply elem_of_nil in Ho]; intros T1 T2 T3;
    (split; [split_and!; by vm_compute|]); (constructor; [|by vm_compute|exact T2|exact T3|split; by vm_compute|by vm_compute]).
  - exists (demo_entries 0). split_and!; [by vm_compute|by vm_compute|exact T1|by vm_compute|done].
  - exists (demo_entries 1). split_and!; [by vm_compute|by vm_compute|exact T1|by vm_compute|done].
Qed.

Lemma merge_keeps_live_blocks_witness :
  ∃ s' r, compact_by_physical_merge demo_compactor (demo_view 3) demo_listed 2 demo_objects = (s', Ok (Some r)) ∧
    ∀ md, om_object_id md = 2 → om_object_size md = cq_object_size r →
      serves_blocks s' md (src_bytes demo_payload) (drop 1 (concat (demo_blocks <$> demo_listed))).
Proof.
  destruct (compact_by_physical_merge demo_compactor (demo_view 3) demo_listed 2 demo_objects) as [s' req] eqn:E.
  assert (Hr : ∃ r, req = Ok (Some r)).
  { change req with ((s', req).2). rewrite <-E. clear E. vm_compute. by eexists. }
  destruct Hr as [r ->]. exists s', r. split; [reflexivity|].
  destruct (merge_keeps_live_blocks demo_compactor (demo_view 3) demo_payload demo_blocks 100000 Minor 0 demo_listed demo_listed 2
    demo_objects s' (Some r)) as (r' & final & [= <-] & _ & _ & _ & _ & _ & _ & Hs).
  - intros s. exact I.
  - clear E. by vm_compute.
  - clear E. by vm_compute.
  - exact demo_sources_ok.
  - clear E. vm_compute. by left.
  - clear E. by vm_compute.
  - exact E.
  - exact Hs.
Defined.

Lemma expired_cleanup_is_refused_witness :
  ∃ m' e, demo_pass 4 MinorV1 = (demo_objects, m', Err (EngineMeta e)).
Proof.
  destruct (ms_streams (ls_state (demo_metadata 4)) !! 0) as [row|] eqn:Er; [|vm_compute in Er; discriminate Er].
  destruct (obj_get_stream_objects (demo_metadata 4) 0 0 6 u64_max) as [[|o l]|] eqn:Eo; [vm_compute in Eo; discriminate Eo| |vm_compute in Eo; discriminate Eo].
  destruct (expired_cleanup_is_refused demo_node 9 demo_compactor (demo_view 4) MinorV1 demo_objects (demo_metadata 4) row (o :: l) o)
    as (m' & e & Hc & _).
  - exact Er.
  - vm_compute in Er. injection Er as <-. by vm_compute.
  - exact Eo.
  - vm_compute in Eo. injection Eo as <- <-. apply (bool_decide_unpack _). by vm_compute.
  - by left.
  - vm_compute in Eo. injection Eo as <- <-. by vm_compute.
  - by exists m', e.
Defined.

Lemma straddled_trim_blocks_the_merge_witness :
  ∃ s' req m' e, compact_by_physical_merge demo_compactor (demo_view 3) demo_listed 2 demo_objects = (s', Ok (Some req)) ∧
    obj_compact_stream_object (demo_metadata 3) demo_node 9 req = (m', Err e) ∧ ls_state m' = ls_state (demo_metadata 3).
Proof.
  destruct (compact_by_physical_merge demo_compactor (demo_view 3) demo_listed 2 demo_objects) as [s' req] eqn:E.
  assert (Hr : ∃ r, req = Ok (Some r)).
  { change req with ((s', req).2). rewrite <-E. clear E. vm_compute. by eexists. }
  destruct Hr as [r ->]. exists s', r.
  destruct (ms_streams (ls_state (demo_metadata 3)) !! 0) as [row|] eqn:Er; [|vm_compute in Er; discriminate Er].
  destruct (straddled_trim_blocks_the_merge demo_node 9 demo_compactor (demo_view 3) demo_payload demo_blocks 100000 Minor 0
    demo_listed demo_listed 2 demo_objects s' r {| sdb_object_id := 0; sdb_index := with_block_id 1 (demo_index 2 2 3 2) |} (demo_metadata 3) row)
    as (m' & e & Hc & Hs & _).
  - intros s. exact I.
  - clear E. by vm_compute.
  - clear E. by vm_compute.
  - exact demo_sources_ok.
  - clear E. vm_compute. by left.
  - clear E. by vm_compute.
  - exact E.
  - clear E. by vm_compute.
  - clear E. by vm_compute.
  - exact Er.
  - vm_compute in Er. injection Er as <-. reflexivity.
  - clear E. by vm_compute.
  - exists m', e. split_and!; [reflexivity|exact Hc|exact Hs].
Defined.

(** A composite of objects 10 and 11, of which only 11 is live at offset 10. *)
Definition demo_linked : MemoryObjectStorage := {|
  mo_objects := {[ gen_object_key 20 := (composite_bytes demo_links, 0); gen_object_key 10 := ([x00], 0);
                   gen_object_key 11 := ([x01], 0) ]};
  mo_bucket_id := 3; mo_now_ms := 0 |}.
Definition demo_dirty : S3ObjectMetadata := {|
  om_object_id := 20; om_object_type := StreamObj;
  om_offset_ranges := [{| sor_stream_id := 7; sor_start_offset := 0; sor_end_offset := 12 |}];
  om_object_size := 132; om_attributes := attributes_new 3 true false;
  om_committed_timestamp_ms := 0; om_data_timestamp_ms := 0 |}.
Definition demo_dirty_view : StreamView := {|
  sv_stream_id := 7; sv_stream_epoch := 0; sv_start_offset := 10; sv_confirm_offset := 12 |}.

Lemma demo_links_ok : composite_ok demo_links.
Proof. split; [repeat constructor; vm_compute; congruence|by vm_compute]. Qed.

Lemma links_keep_live_blocks_witness :
  ∃ s' r, compact_by_composite_object demo_dirty_view [demo_dirty] 21 demo_linked = (s', Ok (Some r)) ∧
    cq_start_offset r = 10 ∧ cq_end_offset r = 12 ∧
    mem_object s' (gen_object_key 11) = mem_object demo_linked (gen_object_key 11) ∧
    ∀ md, om_object_id md = 21 → (composite_info s' (composite_reader_new md)).2 =
      Ok {| ci_objects := owners 0 (drop 1 demo_links); ci_index_block := renumber 0 (all_entries (drop 1 demo_links)) |}.
Proof.
  destruct (compact_by_composite_object demo_dirty_view [demo_dirty] 21 demo_linked) as [s' req] eqn:E.
  assert (Hr : ∃ r, req = Ok (Some r) ∧ cq_start_offset r = 10 ∧ cq_end_offset r = 12).
  { change req with ((s', req).2). rewrite <-E. clear E. vm_compute. by eexists. }
  destruct Hr as (r & -> & E1 & E2). exists s', r.
  destruct (links_keep_live_blocks demo_dirty_view [demo_dirty] [demo_links] 21 demo_linked s' (Some r))
    as (_ & Hframe & r' & [= <-] & _ & _ & Hk).
  - intros s. exact I.
  - clear E. constructor; [|constructor]. unfold linkable.
    replace (attr_is_composite (om_attributes demo_dirty)) with true by reflexivity. split; [exact demo_links_ok|].
    change (mem_object demo_linked (gen_object_key 20) = Some (composite_bytes demo_links)). by vm_compute.
  - clear E. exact demo_links_ok.
  - clear E. repeat constructor.
  - clear E. intros o Ho. apply list_elem_of_singleton in Ho as ->. apply (bool_decide_unpack _). by vm_compute.
  - exact E.
  - clear E. split_and!; [reflexivity|exact E1|exact E2| |].
    + apply Hframe; [vm_compute; congruence|apply (bool_decide_unpack _); by vm_compute].
    + intros md Hmd. refine (proj2 (proj2 (Hk _)) md Hmd). vm_compute. congruence.
Defined.
