(* ===== verification/SqlStore.v ===== *)
(** * The SQL tables behind the metadata log

    [pico-sql/src/store.rs] and [lease.rs]: three tables, the log of command
    batches, the snapshot row and the lease row, and the task that keeps the
    lease. A statement is a function on the tables; a database may fail a
    statement before or after its effect, which a [Fault] says. Both
    dialects run the same statements. *)

From Stdlib Require Import ZArith Lia.
From Stdlib Require Import Strings.Byte.
From stdpp Require Import base numbers list strings sets gmap sorting.
From S2P Require Import Prelude.

Open Scope Z_scope.
Open Scope rust_scope.

Definition DEFAULT_LEASE_TTL_MS : Z := 10000.

Inductive StoreError := Sql | Corrupt (what : string) (value : Z).

(** The single row of [meta_lease]. *)
Record Lease := { le_holder : string; le_epoch : Z; le_expires_at_ms : Z }.

Record MetaDb := {
  db_log : gmap Z (list byte);
  db_snapshot : option (Z * list byte);
  db_lease : Lease;
}.
#[export] Instance MetaDb_eta : RecordEta MetaDb := λ d, Build_MetaDb (db_log d) (db_snapshot d) (db_lease d).

(** The tables after [migrate]. *)
Definition migrated : MetaDb := {|
  db_log := ∅; db_snapshot := None;
  db_lease := {| le_holder := EmptyString; le_epoch := 0; le_expires_at_ms := 0 |} |}.

(** [None]: the statement is answered. [Some done]: the connection fails;
    [done] tells whether the statement took effect. *)
Definition Fault : Type := option bool.
Definition statement {A} (f : Fault) (db : MetaDb) (outcome : MetaDb * result A StoreError) : MetaDb * result A StoreError :=
  match f with
  | None => outcome
  | Some true => (outcome.1, Err Sql)
  | Some false => (db, Err Sql)
  end.

Definition to_i64 (value : Z) (what : string) : result Z StoreError :=
  if value <=? two63 - 1 then Ok value else Err (Corrupt what value).
Definition to_u64 (value : Z) (what : string) : result Z StoreError :=
  if value <? 0 then Err (Corrupt what value) else Ok value.

Section Store.
Context (f : Fault) (db : MetaDb).

(** [INSERT INTO meta_log]; a key that exists is a unique violation. *)
Definition append (idx : Z) (payload : list byte) : MetaDb * result bool StoreError :=
  match to_i64 idx "log idx" with
  | Err e => (db, Err e)
  | Ok idx =>
      statement f db
        match db_log db !! idx with
        | Some _ => (db, Ok false)
        | None => (db <| db_log := <[idx := payload]> (db_log db) |>, Ok true)
        end
  end.

(** [MAX(idx)] *)
Definition max_idx (log : gmap Z (list byte)) : Z := foldr Z.max 0 (map_to_list log).*1.

Definition last_idx : result Z StoreError :=
  (statement f db (db,
     to_u64 (Z.max (max_idx (db_log db)) (from_option fst 0 (db_snapshot db))) "last idx")).2.

(** [WHERE idx > ? ORDER BY idx ASC LIMIT ?] *)
Definition fetch_after (after : Z) (limit : nat) : result (list (Z * list byte)) StoreError :=
  match to_i64 after "after idx" with
  | Err e => Err e
  | Ok after =>
      (statement f db (db,
         Ok (take limit (filter (λ r : Z * list byte, after < r.1) (ord_list (db_log db)))))).2
  end.

Definition load_snapshot : result (option (Z * list byte)) StoreError :=
  (statement f db (db, Ok (db_snapshot db))).2.

(** [ON CONFLICT (id) DO UPDATE .. WHERE excluded.applied_idx > meta_snapshot.applied_idx] *)
Definition store_snapshot (applied_idx : Z) (payload : list byte) : MetaDb * result unit StoreError :=
  match to_i64 applied_idx "snapshot idx" with
  | Err e => (db, Err e)
  | Ok applied_idx =>
      statement f db
        (match db_snapshot db with
         | Some (old, _) =>
             if old <? applied_idx then db <| db_snapshot := Some (applied_idx, payload) |> else db
         | None => db <| db_snapshot := Some (applied_idx, payload) |>
         end, Ok tt)
  end.

Definition truncate_log (up_to : Z) : MetaDb * result unit StoreError :=
  match to_i64 up_to "truncate idx" with
  | Err e => (db, Err e)
  | Ok up_to =>
      statement f db (db <| db_log := filter (λ r : Z * list byte, up_to < r.1) (db_log db) |>, Ok tt)
  end.

Definition acquire_lease (holder : string) (prev_epoch : option Z) (now_ms ttl_ms : Z) :
    MetaDb * result (option Z) StoreError :=
  let l := db_lease db in
  match prev_epoch with
  | Some epoch =>
      match to_i64 epoch "lease epoch" with
      | Err e => (db, Err e)
      | Ok epoch_i =>
          statement f db
            (if bool_decide (le_holder l = holder) && (le_epoch l =? epoch_i) && (now_ms <=? le_expires_at_ms l) then
               (db <| db_lease := {| le_holder := le_holder l; le_epoch := le_epoch l;
                                     le_expires_at_ms := wrap_i64 (now_ms + ttl_ms) |} |>, Ok (Some epoch))
             else (db, Ok None))
      end
  | None =>
      statement f db
        (if (le_expires_at_ms l <? now_ms) || bool_decide (le_holder l = holder) then
           (db <| db_lease := {| le_holder := holder; le_epoch := le_epoch l + 1;
                                 le_expires_at_ms := wrap_i64 (now_ms + ttl_ms) |} |>,
            let? epoch := to_u64 (le_epoch l + 1) "lease epoch" in Ok (Some epoch))
         else (db, Ok None))
  end.

Definition release_lease (holder : string) (epoch : Z) : MetaDb * result unit StoreError :=
  let l := db_lease db in
  match to_i64 epoch "lease epoch" with
  | Err e => (db, Err e)
  | Ok epoch =>
      statement f db
        (if bool_decide (le_holder l = holder) && (le_epoch l =? epoch)
         then db <| db_lease := {| le_holder := le_holder l; le_epoch := le_epoch l; le_expires_at_ms := 0 |} |>
         else db, Ok tt)
  end.
End Store.

(** ** The lease keeper *)
Record LeaseConfig := { lc_ttl_ms : Z; lc_check_interval_ms : Z }.
Definition lease_config_default : LeaseConfig := {|
  lc_ttl_ms := DEFAULT_LEASE_TTL_MS; lc_check_interval_ms := DEFAULT_LEASE_TTL_MS / 4 |}.

(** [kp_held] is the owned epoch and the time of the last success,
    [kp_leader] the value of the watch channel. *)
Record Keeper := { kp_held : option (Z * Z); kp_leader : bool }.
Definition keeper_new : Keeper := {| kp_held := None; kp_leader := false |}.

(** One round of [keeper_task], from the clock to the sleep. *)
Definition keeper_round (config : LeaseConfig) (f : Fault) (holder : string) (now : Z) (db : MetaDb) (k : Keeper) :
    MetaDb * Keeper :=
  let '(db, attempt) := acquire_lease f db holder (fst <$> kp_held k) now (lc_ttl_ms config) in
  (db, match attempt with
       | Ok (Some epoch) => {| kp_held := Some (epoch, now); kp_leader := true |}
       | Ok None => {| kp_held := None; kp_leader := false |}
       | Err _ =>
           match kp_held k with
           | Some (_, last_ok) =>
               if lc_ttl_ms config <=? now - last_ok then {| kp_held := None; kp_leader := false |} else k
           | None => k
           end
       end).

(** After [stop] the loop ends: the lease is released, and only then the
    watch says that the keeper does not lead. *)
Definition keeper_release (f : Fault) (holder : string) (db : MetaDb) (k : Keeper) : MetaDb :=
  match kp_held k with Some (epoch, _) => (release_lease f db holder epoch).1 | None => db end.
Definition keeper_demote (k : Keeper) : Keeper := {| kp_held := kp_held k; kp_leader := false |}.

(** ** Keepers over one table

    Keepers of different holders share the tables. Every keeper has its own
    clock, which does not run backwards and never is more than [skew] away
    from the time of the contest. A keeper reads its clock and then runs its
    statement, which others may overtake: [now] is what it read, [t'] is the
    time when the statement runs. A keeper is told to stop, vanishes without
    releasing, or joins at any moment; [ct_leaving] are the keepers that have
    left their loop and have not yet ended. *)
Record Contest := {
  ct_db : MetaDb;
  ct_keepers : gmap string Keeper;
  ct_leaving : gmap string Keeper;
  ct_now : Z;
}.

Inductive contest_step (config : LeaseConfig) (skew : Z) : Contest → Contest → Prop :=
| contest_round f holder now db ks ls k t t' db' k' :
    ks !! holder = Some k → (∀ e last_ok, kp_held k = Some (e, last_ok) → last_ok <= now) →
    0 <= now <= t' + skew → t <= t' → now < 2 ^ 62 → keeper_round config f holder now db k = (db', k') →
    contest_step config skew {| ct_db := db; ct_keepers := ks; ct_leaving := ls; ct_now := t |}
      {| ct_db := db'; ct_keepers := <[holder := k']> ks; ct_leaving := ls; ct_now := t' |}
| contest_stop holder db ks ls k t :
    ks !! holder = Some k →
    contest_step config skew {| ct_db := db; ct_keepers := ks; ct_leaving := ls; ct_now := t |}
      {| ct_db := db; ct_keepers := delete holder ks; ct_leaving := <[holder := k]> ls; ct_now := t |}
| contest_release f holder db ks ls k t :
    ls !! holder = Some k → kp_leader k = true ∨ kp_held k = None →
    contest_step config skew {| ct_db := db; ct_keepers := ks; ct_leaving := ls; ct_now := t |}
      {| ct_db := keeper_release f holder db k; ct_keepers := ks; ct_leaving := ls; ct_now := t |}
| contest_demote holder db ks ls k t :
    ls !! holder = Some k →
    contest_step config skew {| ct_db := db; ct_keepers := ks; ct_leaving := ls; ct_now := t |}
      {| ct_db := db; ct_keepers := ks; ct_leaving := <[holder := keeper_demote k]> ls; ct_now := t |}
| contest_crash holder db ks ls t :
    contest_step config skew {| ct_db := db; ct_keepers := ks; ct_leaving := ls; ct_now := t |}
      {| ct_db := db; ct_keepers := delete holder ks; ct_leaving := delete holder ls; ct_now := t |}
| contest_join holder db ks ls t :
    ks !! holder = None → ls !! holder = None →
    contest_step config skew {| ct_db := db; ct_keepers := ks; ct_leaving := ls; ct_now := t |}
      {| ct_db := db; ct_keepers := <[holder := keeper_new]> ks; ct_leaving := ls; ct_now := t |}.

Definition contest_start : Contest := {| ct_db := migrated; ct_keepers := ∅; ct_leaving := ∅; ct_now := 0 |}.

(** A keeper in its loop whose clock, at [clock] now, is at least twice the
    skew away from the end of the time to live of its last success. *)
Definition leads (config : LeaseConfig) (skew : Z) (c : Contest) (holder : string) : Prop :=
  ∃ k e last_ok clock, ct_keepers c !! holder = Some k ∧ kp_held k = Some (e, last_ok) ∧
    ct_now c - skew <= clock ∧ clock + 2 * skew <= last_ok + lc_ttl_ms config.

(** A keeper that owns the current epoch is the holder and the lease lasts
    as long as it counts on; one whose epoch has passed was overtaken after
    that. *)
Definition contest_ok (config : LeaseConfig) (skew : Z) (c : Contest) : Prop :=
  0 <= le_epoch (db_lease (ct_db c)) ∧
  (∀ holder, is_Some (ct_leaving c !! holder) → ct_keepers c !! holder = None) ∧
  ∀ holder k e last_ok, ct_keepers c !! holder = Some k → kp_held k = Some (e, last_ok) →
    e <= le_epoch (db_lease (ct_db c)) ∧
    (e = le_epoch (db_lease (ct_db c)) → le_holder (db_lease (ct_db c)) = holder ∧
       last_ok + lc_ttl_ms config <= le_expires_at_ms (db_lease (ct_db c))) ∧
    (e < le_epoch (db_lease (ct_db c)) → last_ok + lc_ttl_ms config < ct_now c + skew).

Section LeaseProofs.
Context (config : LeaseConfig).
Hypothesis ttl_ok : 0 <= lc_ttl_ms config < 2 ^ 62.

(** What one attempt does to the lease row. *)
Lemma acquire_cases f db holder held now db' r :
  acquire_lease f db holder held now (lc_ttl_ms config) = (db', r) → 0 <= now < 2 ^ 62 → 0 <= le_epoch (db_lease db) →
  let l := db_lease db in let l' := db_lease db' in
  (db' = db ∧ (∀ e, r ≠ Ok (Some e))) ∨
  (∃ e, held = Some e ∧ le_holder l = holder ∧ le_epoch l = e ∧ l' = {| le_holder := holder; le_epoch := e; le_expires_at_ms := now + lc_ttl_ms config |} ∧
     (r = Ok (Some e) ∨ r = Err Sql)) ∨
  (held = None ∧ (le_expires_at_ms l < now ∨ le_holder l = holder) ∧
     l' = {| le_holder := holder; le_epoch := le_epoch l + 1; le_expires_at_ms := now + lc_ttl_ms config |} ∧
     (r = Ok (Some (le_epoch l + 1)) ∨ r = Err Sql)).
Proof using ttl_ok.
  intros H Hn He l l'. assert (Hw : wrap_i64 (now + lc_ttl_ms config) = now + lc_ttl_ms config).
  { apply wrap_i64_id. int_lia. }
  unfold acquire_lease in H. rewrite Hw in H. destruct held as [e|]; cbn -[two63] in H.
  - destruct (to_i64 e _) as [e'|er] eqn:Ei; [|injection H as <- <-; left; by split].
    assert (e' = e) as -> by (unfold to_i64 in Ei; destruct (_ <=? _); congruence).
    destruct (bool_decide (le_holder (db_lease db) = holder) && (le_epoch (db_lease db) =? e) &&
      (now <=? le_expires_at_ms (db_lease db))) eqn:Ec.
    + rewrite !andb_true_iff, bool_decide_eq_true in Ec. destruct Ec as [[E1 E2%Z.eqb_eq] _].
      destruct f as [[]|]; cbn in H; injection H as <- <-.
      * right; left. exists e. split_and!; [done|done|done|cbn; by rewrite E1, E2|by right].
      * left. by split.
      * right; left. exists e. split_and!; [done|done|done|cbn; by rewrite E1, E2|by left].
    + left. destruct f as [[]|]; cbn in H; injection H as <- <-; by split.
  - destruct ((le_expires_at_ms (db_lease db) <? now) || bool_decide (le_holder (db_lease db) = holder)) eqn:Ec.
    + rewrite orb_true_iff, bool_decide_eq_true, Z.ltb_lt in Ec. unfold to_u64 in H.
      rewrite (proj2 (Z.ltb_ge _ 0)) in H by lia.
      destruct f as [[]|]; cbn in H; injection H as <- <-.
      * right; right. split_and!; [done|done|done|by right].
      * left. by split.
      * right; right. split_and!; [done|done|done|by left].
    + left. destruct f as [[]|]; cbn in H; injection H as <- <-; by split.
Qed.

Lemma round_ok skew f holder now db ks ls k t t' db' k' :
  contest_ok config skew {| ct_db := db; ct_keepers := ks; ct_leaving := ls; ct_now := t |} → ks !! holder = Some k →
  (∀ e last_ok, kp_held k = Some (e, last_ok) → last_ok <= now) → 0 <= now <= t' + skew → t <= t' → now < 2 ^ 62 →
  keeper_round config f holder now db k = (db', k') →
  contest_ok config skew {| ct_db := db'; ct_keepers := <[holder := k']> ks; ct_leaving := ls; ct_now := t' |}.
Proof using ttl_ok.
  unfold contest_ok. cbn [ct_db ct_keepers ct_leaving ct_now]. intros (He & Hls & Hk) Hl Hold Hnow Ht Hmax Hr. unfold keeper_round in Hr.
  destruct (acquire_lease f db holder (fst <$> kp_held k) now (lc_ttl_ms config)) as [db1 r] eqn:Ea.
  injection Hr as <- <-.
  assert (Hls' : ∀ k' h, is_Some (ls !! h) → <[holder := k']> ks !! h = None).
  { intros k' h Hh. specialize (Hls h Hh). rewrite lookup_insert_ne; [done|]. intros <-. congruence. }
  destruct (acquire_cases _ _ _ _ _ _ _ Ea ltac:(lia) He) as [[-> Hn]|[(e & Hh & E1 & E2 & El & Er)|(Hh & Hc & El & Er)]]; clear Ea.
  - split; [done|]. split; [apply Hls'|]. intros h k0 e l0 [[<- <-]|[Hne Hk0]]%lookup_insert_Some Hheld.
    + destruct r as [[e1|]|er]; [by destruct (Hn e1)|done|]. destruct (kp_held k) as [[e1 l1]|] eqn:Ek; [|congruence].
      destruct (_ <=? _); [done|]. destruct (Hk _ _ _ _ Hl Hheld) as (? & ? & ?). split_and!; [done|done|lia].
    + destruct (Hk _ _ _ _ Hk0 Hheld) as (? & ? & ?). split_and!; [done|done|lia].
  - rewrite El. cbn. split; [lia|]. split; [apply Hls'|]. intros h k0 e0 l0 [[<- <-]|[Hne Hk0]]%lookup_insert_Some Hheld.
    + destruct Er as [-> | ->].
      * cbn in Hheld. injection Hheld as <- <-. split_and!; [lia|done|lia].
      * destruct (kp_held k) as [[e1 l1]|] eqn:Ek; [|congruence]. destruct (_ <=? _); [done|].
        rewrite Ek in Hheld. injection Hheld as -> ->. pose proof (Hold _ _ eq_refl). cbn in Hh. injection Hh as ->.
        split_and!; [lia|intros _; split; [done|lia]|lia].
    + destruct (Hk _ _ _ _ Hk0 Hheld) as (K1 & K2 & K3). split_and!; [lia| |lia]. intros ->. destruct (K2 (eq_sym E2)). congruence.
  - rewrite El. cbn. split; [lia|]. split; [apply Hls'|]. destruct (kp_held k) as [[e1 l1]|] eqn:Ek; [done|].
    intros h k0 e0 l0 [[<- <-]|[Hne Hk0]]%lookup_insert_Some Hheld.
    + destruct Er as [-> | ->]; [|congruence]. cbn in Hheld. injection Hheld as <- <-. split_and!; [lia|done|lia].
    + destruct (Hk _ _ _ _ Hk0 Hheld) as (K1 & K2 & K3). split_and!; [lia|lia|]. intros _.
      destruct (decide (e0 = le_epoch (db_lease db))) as [E|]; [|lia]. destruct (K2 E) as [Eh ?]. destruct Hc as [?|?]; [lia|congruence].
Qed.

(** A release changes the row only while it names the holder. *)
Lemma release_cases f holder db k :
  le_epoch (db_lease (keeper_release f holder db k)) = le_epoch (db_lease db) ∧
  (db_lease (keeper_release f holder db k) = db_lease db ∨
   le_holder (db_lease db) = holder ∧ le_holder (db_lease (keeper_release f holder db k)) = holder).
Proof using Type.
  unfold keeper_release. destruct (kp_held k) as [[e l]|]; [|by auto]. unfold release_lease.
  destruct (to_i64 e _); [|by auto]. destruct (bool_decide (le_holder (db_lease db) = holder) && _) eqn:Ec;
    destruct f as [[]|]; cbn; auto; rewrite andb_true_iff, bool_decide_eq_true in Ec; destruct Ec; auto.
Qed.

Lemma contest_step_ok skew c c' : contest_ok config skew c → contest_step config skew c c' → contest_ok config skew c'.
Proof using ttl_ok.
  intros Hc Hs. destruct Hs; [by eapply round_ok|..]; destruct Hc as (He & Hls & Hk); unfold contest_ok; cbn in *.
  - split; [done|]. split.
    + intros h [k0 [[<- _]|[Hne Hh]]%lookup_insert_Some]; [apply lookup_delete_eq|].
      rewrite lookup_delete_ne by done. apply Hls. eauto.
    + intros h k0 e l0 [_ Hk0]%lookup_delete_Some. by eapply Hk.
  - destruct (release_cases f holder db k) as [E Hrow]. rewrite E. split; [done|]. split; [done|].
    intros h k0 e l0 Hk0 Hheld. destruct (Hk _ _ _ _ Hk0 Hheld) as (K1 & K2 & K3). split_and!; [done| |done].
    destruct Hrow as [-> |[Hh _]]; [done|]. intros E'. destruct (K2 E') as [Hh' _].
    specialize (Hls holder ltac:(eauto)). congruence.
  - split; [done|]. split; [|done]. intros h [k0 [[<- _]|[_ Hh]]%lookup_insert_Some]; apply Hls; eauto.
  - split; [done|]. split; [intros h [k0 [_ Hh]%lookup_delete_Some]|intros h k0 e l0 [_ Hk0]%lookup_delete_Some; by eapply Hk].
    apply lookup_delete_None. right. apply Hls. eauto.
  - split; [done|]. split; [intros h Hh; rewrite lookup_insert_ne; [by apply Hls|]; intros ->; destruct Hh; congruence|].
    intros h k0 e l0 [[<- <-]|[_ Hk0]]%lookup_insert_Some; [done|]. by eapply Hk.
Qed.
End LeaseProofs.

(** C10: the lease has one leader. When no keeper's clock runs backwards or
    is more than [skew] off, then whatever the keepers do, fail or restart,
    two keepers that are still in their loops never both own the lease by
    clocks that are twice the skew short of the end of the time to live of
    their last success; the epoch fences whoever was overtaken. A keeper that
    is stopping has released the lease before it says so and is not counted. *)
Theorem lease_has_one_leader config skew c h1 h2 :
  0 <= lc_ttl_ms config < 2 ^ 62 → rtc (contest_step config skew) contest_start c →
  leads config skew c h1 → leads config skew c h2 → h1 = h2.
Proof.
  intros Httl Hr. assert (Hok : contest_ok config skew c).
  { revert Hr. apply (rtc_ind_r (λ c, contest_ok config skew c)); [|intros y z _ Hs Hy; by eapply contest_step_ok].
    split_and!; [done|by intros h [? ?]|done]. }
  destruct Hok as (_ & _ & Hk). intros (k1 & e1 & l1 & c1 & L1 & H1 & C1 & T1) (k2 & e2 & l2 & c2 & L2 & H2 & C2 & T2).
  destruct (Hk _ _ _ _ L1 H1) as (A1 & A2 & A3). destruct (Hk _ _ _ _ L2 H2) as (B1 & B2 & B3).
  destruct (decide (e1 = le_epoch (db_lease (ct_db c)))) as [E1|]; [|lia].
  destruct (decide (e2 = le_epoch (db_lease (ct_db c)))) as [E2|]; [|lia].
  destruct (A2 E1), (B2 E2). congruence.
Qed.

(** Node "a" takes the lease, loses the store past its time, and "b", whose
    clock is 200 ms ahead, takes over. *)
Definition demo_contest : Contest :=
  let '(db, a) := keeper_round lease_config_default None "a" 1000 migrated keeper_new in
  let '(db, b) := keeper_round lease_config_default None "b" 12000 db keeper_new in
  {| ct_db := db; ct_keepers := <["b" := b]> (<["a" := a]> ∅); ct_leaving := ∅; ct_now := 11800 |}.

Lemma demo_contest_reached : rtc (contest_step lease_config_default 200) contest_start demo_contest.
Proof.
  eapply rtc_l; [by apply (contest_join _ _ "a")|]. eapply rtc_l; [by apply (contest_join _ _ "b")|].
  eapply rtc_l; [eapply (contest_round _ _ None "a" 1000 _ _ _ keeper_new _ 1000)|].
  { by vm_compute. } { done. } { lia. } { lia. } { lia. } { by vm_compute. }
  eapply rtc_l; [eapply (contest_round _ _ None "b" 12000 _ _ _ keeper_new _ 11800)|].
  { by vm_compute. } { done. } { lia. } { lia. } { lia. } { by vm_compute. }
  match goal with |- rtc _ ?a ?b => replace a with b by (by vm_compute) end. apply rtc_refl.
Qed.

Lemma lease_has_one_leader_witness :
  leads lease_config_default 200 demo_contest "b" ∧ (leads lease_config_default 200 demo_contest "a" → "a" = "b").
Proof.
  assert (Hb : leads lease_config_default 200 demo_contest "b").
  { eexists _, _, _, 12000. split_and!; [by vm_compute|by vm_compute|by vm_compute|by vm_compute]. }
  split; [exact Hb|]. intros Ha.
  exact (lease_has_one_leader lease_config_default 200 demo_contest "a" "b" ltac:(by vm_compute) demo_contest_reached Ha Hb).
Defined.
