(* ===== verification/SqlSink.v ===== *)
(** * The metadata log in SQL

    [pico-sql/src/sink.rs]: every node appends batches of commands to one
    table at the next free index and applies the rows in order. The tailer
    applies rows, publishes views and delivers results; the flusher commits
    batches; a node that fell behind a truncation reinstalls the snapshot.
    The tasks of a node are actions between two shared accesses or awaits,
    the nodes of a cluster share the tables of [SqlStore]. *)

From Stdlib Require Import ZArith Lia.
From Stdlib Require Import Strings.Byte.
From stdpp Require Import base numbers list strings sets gmap sorting.
From S2P Require Import Prelude StreamTypes MetaState MetaApply MetaCodec MetaSnapshot MetaService SqlStore.

Open Scope Z_scope.
Open Scope rust_scope.

(** [poll_interval] and [queue_depth] only pace the tasks. *)
Record SqlSinkConfig := { sc_max_batch : nat; sc_fetch_limit : nat; sc_snapshot_every : Z }.
Definition sql_sink_config_default : SqlSinkConfig := {|
  sc_max_batch := 256; sc_fetch_limit := 1024; sc_snapshot_every := 1024 |}.

Notation BatchResults := (list (result MetadataResult MetadataError)).
Notation Row := (Z * list byte)%type.
(** Commands with the proposal each of them answers. *)
Notation Batch := (list (nat * MetadataCommand)).

Inductive SqlSinkError :=
| SinkStore (e : StoreError)
| SinkSnapshot
| CorruptLog (idx : Z)
| TruncatedWithoutSnapshot (idx : Z).

(** [commands.iter().map(|c| apply(&mut state, c)).collect()] *)
Fixpoint apply_batch (st : MetadataState) (commands : list MetadataCommand) : MetadataState * BatchResults :=
  match commands with
  | [] => (st, [])
  | c :: commands =>
      let '(st, r) := apply st c in
      let '(st, rs) := apply_batch st commands in
      (st, r :: rs)
  end.

(** ** Opening *)
Inductive OpenStage := OpenLoad | OpenFetch | OpenRows (rows : list Row) | OpenGap (idx : Z).
Record OpenTask := {
  op_state : MetadataState;
  op_applied : Z;
  op_snapshot_base : Z;
  op_stage : OpenStage;
}.
Definition open_start : OpenTask := {|
  op_state := new_state; op_applied := 0; op_snapshot_base := 0; op_stage := OpenLoad |}.

(** ** A running sink *)
Inductive TailStage :=
| Fetching
| Applying (rows : list Row)
| Publishing (idx : Z) (results : BatchResults) (rows : list Row)
| Delivering (idx : Z) (results : BatchResults) (rows : list Row)
| Restoring
| Installing (idx : Z) (st : MetadataState)
| Retaining (idx : Z)
| Snapshotting (payload : list byte)
| Truncating
| Halted.

Inductive FlushStage :=
| Idle
| Batched (batch : Batch)
| Loaded (next : Z) (batch : Batch)
| Appending (next : Z) (token : nat) (batch : Batch)
| Waiting (next : Z) (token : nat) (batch : Batch)
| Refreshing (batch : Batch).

(** [nd_pending] is the map of senders by index; [nd_channels] is what
    happened to a sender: [Some] results were sent, [None] it was dropped. *)
Record Node := {
  nd_state : MetadataState;
  nd_applied : Z;
  nd_last_snapshot : Z;
  nd_tail : TailStage;
  nd_views : ViewPublisher;
  nd_poisoned : bool;
  nd_pending : gmap Z nat;
  nd_channels : gmap nat (option BatchResults);
  nd_next_token : nat;
  nd_last_seen : Z;
  nd_flush : FlushStage;
}.
#[export] Instance Node_eta : RecordEta Node := λ n,
  Build_Node (nd_state n) (nd_applied n) (nd_last_snapshot n) (nd_tail n) (nd_views n) (nd_poisoned n)
    (nd_pending n) (nd_channels n) (nd_next_token n) (nd_last_seen n) (nd_flush n).

Definition node_new (st : MetadataState) (applied snapshot_base : Z) : Node := {|
  nd_state := st; nd_applied := applied; nd_last_snapshot := snapshot_base; nd_tail := Fetching;
  nd_views := with_view {| mv_applied_index := applied; mv_state := st |};
  nd_poisoned := false; nd_pending := ∅; nd_channels := ∅; nd_next_token := 0; nd_last_seen := applied;
  nd_flush := Idle |}.

(** Senders that leave the map without sending. *)
Definition drop_pending (keep : Z → bool) (n : Node) : Node :=
  let dropped := filter (λ p : Z * nat, keep p.1 = false) (nd_pending n) in
  n <| nd_pending := filter (λ p : Z * nat, keep p.1 = true) (nd_pending n) |>
    <| nd_channels := foldr (λ p chans, <[p.2 := None]> chans) (nd_channels n) (map_to_list dropped) |>.

Definition poison (n : Node) : Node := drop_pending (λ _, false) n <| nd_poisoned := true |> <| nd_tail := Halted |>.

Section Tailer.
Context (config : SqlSinkConfig) (f : Fault) (db : MetaDb).

(** [fetch_after]; an error is retried, no rows wait for a nudge. *)
Definition tail_fetch (n : Node) : Node :=
  match fetch_after f db (nd_applied n) (sc_fetch_limit config) with
  | Ok (row :: rows) => n <| nd_tail := Applying (row :: rows) |>
  | _ => n
  end.

(** The next row of the fetch, up to [last_seen.fetch_max]. *)
Definition tail_apply (idx : Z) (payload : list byte) (rows : list Row) (n : Node) : Node :=
  if nd_applied n + 1 <? idx then n <| nd_tail := Restoring |>
  else
    match decode_batch payload with
    | Err _ => poison n
    | Ok commands =>
        let '(st, results) := apply_batch (nd_state n) commands in
        n <| nd_state := st |> <| nd_applied := idx |> <| nd_last_seen := Z.max (nd_last_seen n) idx |>
          <| nd_tail := Publishing idx results rows |>
    end.

Definition tail_publish (idx : Z) (results : BatchResults) (rows : list Row) (n : Node) : Node :=
  n <| nd_views := publish (nd_views n) {| mv_applied_index := idx; mv_state := nd_state n |} |>
    <| nd_tail := Delivering idx results rows |>.

(** The waiter of the row gets its results. *)
Definition tail_deliver (idx : Z) (results : BatchResults) (rows : list Row) (n : Node) : Node :=
  let n := n <| nd_tail := Applying rows |> in
  match nd_pending n !! idx with
  | Some token =>
      n <| nd_pending := delete idx (nd_pending n) |> <| nd_channels := <[token := Some results]> (nd_channels n) |>
  | None => n
  end.

(** After the rows: a snapshot when enough of them were applied. *)
Definition tail_rows_done (n : Node) : Node :=
  if (0 <? sc_snapshot_every config) && (sc_snapshot_every config <=? nd_applied n - nd_last_snapshot n)
  then n <| nd_tail := Snapshotting (Snap.encode (nd_state n)) |>
  else n <| nd_tail := Fetching |>.

Definition tail_snapshot (payload : list byte) (n : Node) : MetaDb * Node :=
  let '(db, r) := store_snapshot f db (nd_applied n) payload in
  (db, match r with
       | Ok _ => n <| nd_last_snapshot := nd_applied n |> <| nd_tail := Truncating |>
       | Err _ => n <| nd_tail := Fetching |>
       end).

Definition tail_truncate (n : Node) : MetaDb * Node :=
  ((truncate_log f db (nd_applied n)).1, n <| nd_tail := Fetching |>).

(** [restore_from_snapshot], up to the decoded state. *)
Definition tail_restore (n : Node) : Node :=
  match load_snapshot f db with
  | Err _ => n <| nd_tail := Fetching |>
  | Ok None => poison n
  | Ok (Some (snap_idx, payload)) =>
      if snap_idx <=? nd_applied n then poison n
      else
        match Snap.decode payload with
        | Err _ => poison n
        | Ok st => n <| nd_tail := Installing snap_idx st |>
        end
  end.

Definition tail_install (snap_idx : Z) (st : MetadataState) (n : Node) : Node :=
  n <| nd_last_seen := Z.max (nd_last_seen n) snap_idx |>
    <| nd_views := publish (nd_views n) {| mv_applied_index := snap_idx; mv_state := st |} |>
    <| nd_state := st |> <| nd_applied := snap_idx |> <| nd_last_snapshot := snap_idx |>
    <| nd_tail := Retaining snap_idx |>.

Definition tail_retain (snap_idx : Z) (n : Node) : Node :=
  drop_pending (λ idx, snap_idx <? idx) n <| nd_tail := Fetching |>.
End Tailer.

(** ** The flusher *)
Definition Answer : Type := nat * result Proposed MetadataError.

(** The text of the store error is left out of the messages. *)
Definition fail_all (batch : Batch) (message : string) : list Answer :=
  (λ w : nat * MetadataCommand, (w.1, Err (Unexpected (fmt message [])))) <$> batch.

(** [waiters.into_iter().zip(results)] *)
Definition answer_batch (next : Z) (batch : Batch) (results : BatchResults) : list Answer :=
  zip_with (λ w r, (w.1, let? result := r in Ok {| pr_applied_index := next; pr_result := result |})) batch results.

Section Flusher.
Context (f : Fault) (db : MetaDb).

(** [recv] and [try_recv] up to [max_batch] commands. *)
Definition flush_take (batch : Batch) (n : Node) : Node := n <| nd_flush := Batched batch |>.

Definition flush_load (batch : Batch) (n : Node) : Node := n <| nd_flush := Loaded (nd_last_seen n + 1) batch |>.

(** Under the pending lock; an older sender of the index is dropped. *)
Definition flush_register (next : Z) (batch : Batch) (n : Node) : Node * list Answer :=
  if nd_poisoned n then (n <| nd_flush := Idle |>, fail_all batch "metadata log is poisoned (corrupt row)")
  else
    let token := nd_next_token n in
    (n <| nd_channels := match nd_pending n !! next with Some old => <[old := None]> (nd_channels n) | None => nd_channels n end |>
       <| nd_pending := <[next := token]> (nd_pending n) |> <| nd_next_token := S token |>
       <| nd_flush := Appending next token batch |>, []).

Definition flush_append (next : Z) (token : nat) (batch : Batch) (n : Node) : MetaDb * Node * list Answer :=
  let '(db, r) := append f db next (encode_batch batch.*2) in
  match r with
  | Ok true => (db, n <| nd_flush := Waiting next token batch |>, [])
  | Ok false => (db, n <| nd_pending := delete next (nd_pending n) |> <| nd_flush := Refreshing batch |>, [])
  | Err _ => (db, n <| nd_pending := delete next (nd_pending n) |> <| nd_flush := Idle |>, fail_all batch "append failed")
  end.

Definition flush_refresh (batch : Batch) (n : Node) : Node * list Answer :=
  match last_idx f db with
  | Ok last => (n <| nd_last_seen := Z.max (nd_last_seen n) last |> <| nd_flush := Batched batch |>, [])
  | Err _ => (n <| nd_flush := Idle |>, fail_all batch "refreshing log tail failed")
  end.

(** [rx.await], when there is something to receive. *)
Definition flush_receive (next : Z) (token : nat) (batch : Batch) (n : Node) : option (Node * list Answer) :=
  match nd_channels n !! token with
  | Some (Some results) => Some (n <| nd_flush := Idle |>, answer_batch next batch results)
  | Some None => Some (n <| nd_flush := Idle |>, fail_all batch "metadata log is poisoned (corrupt row)")
  | None => None
  end.
End Flusher.

(** ** Opening a sink *)
Section Open.
Context (config : SqlSinkConfig) (f : Fault) (db : MetaDb).

Definition open_load (o : OpenTask) : result OpenTask SqlSinkError :=
  match load_snapshot f db with
  | Err e => Err (SinkStore e)
  | Ok None => Ok {| op_state := new_state; op_applied := 0; op_snapshot_base := 0; op_stage := OpenFetch |}
  | Ok (Some (idx, payload)) =>
      match Snap.decode payload with
      | Err _ => Err SinkSnapshot
      | Ok st => Ok {| op_state := st; op_applied := idx; op_snapshot_base := idx; op_stage := OpenFetch |}
      end
  end.

(** [None]: the log is replayed. *)
Definition open_fetch (o : OpenTask) : result (option OpenTask) SqlSinkError :=
  match fetch_after f db (op_applied o) (sc_fetch_limit config) with
  | Err e => Err (SinkStore e)
  | Ok [] => Ok None
  | Ok rows => Ok (Some {| op_state := op_state o; op_applied := op_applied o; op_snapshot_base := op_snapshot_base o;
                           op_stage := OpenRows rows |})
  end.

Definition open_row (idx : Z) (payload : list byte) (rows : list Row) (o : OpenTask) : result OpenTask SqlSinkError :=
  let at_stage st applied stage := {|
    op_state := st; op_applied := applied; op_snapshot_base := op_snapshot_base o; op_stage := stage |} in
  if op_applied o + 1 <? idx then Ok (at_stage (op_state o) (op_applied o) (OpenGap idx))
  else
    match decode_batch payload with
    | Err _ => Err (CorruptLog idx)
    | Ok commands => Ok (at_stage (apply_batch (op_state o) commands).1 idx (OpenRows rows))
    end.

Definition open_gap (idx : Z) (o : OpenTask) : result OpenTask SqlSinkError :=
  match load_snapshot f db with
  | Err e => Err (SinkStore e)
  | Ok None => Err (TruncatedWithoutSnapshot idx)
  | Ok (Some (snap_idx, payload)) =>
      match Snap.decode payload with
      | Err _ => Err SinkSnapshot
      | Ok st => Ok {| op_state := st; op_applied := snap_idx; op_snapshot_base := snap_idx; op_stage := OpenFetch |}
      end
  end.
End Open.

(** ** Clusters *)
Inductive Member := Opening (o : OpenTask) | Running (n : Node).

(** An answer is kept with the member that gave it and the index of the view
    it could load then. *)
Record Cluster := {
  cl_db : MetaDb;
  cl_members : gmap Z Member;
  cl_answers : list (Z * Z * Answer);
}.

(** What a member does next. A store call carries its fault. *)
Inductive Action :=
| ActJoin | ActCrash
| ActOpen (f : Fault)
| ActTail (f : Fault)
| ActTake (batch : Batch)
| ActFlush (f : Fault).

(** The next action of an opening sink; one that fails to open is gone. *)
Definition open_step (config : SqlSinkConfig) (f : Fault) (db : MetaDb) (o : OpenTask) : option Member :=
  let keep r := match r with Ok o => Some (Opening o) | Err _ => None end in
  match op_stage o with
  | OpenLoad => keep (open_load f db o)
  | OpenFetch =>
      match open_fetch config f db o with
      | Ok (Some o) => Some (Opening o)
      | Ok None => Some (Running (node_new (op_state o) (op_applied o) (op_snapshot_base o)))
      | Err _ => None
      end
  | OpenRows [] =>
      Some (Opening {| op_state := op_state o; op_applied := op_applied o; op_snapshot_base := op_snapshot_base o;
                       op_stage := OpenFetch |})
  | OpenRows ((idx, payload) :: rows) => keep (open_row idx payload rows o)
  | OpenGap idx => keep (open_gap f db idx o)
  end.

Definition tail_step (config : SqlSinkConfig) (f : Fault) (db : MetaDb) (n : Node) : MetaDb * Node :=
  match nd_tail n with
  | Fetching => (db, tail_fetch config f db n)
  | Applying [] => (db, tail_rows_done config n)
  | Applying ((idx, payload) :: rows) => (db, tail_apply idx payload rows n)
  | Publishing idx results rows => (db, tail_publish idx results rows n)
  | Delivering idx results rows => (db, tail_deliver idx results rows n)
  | Restoring => (db, tail_restore f db n)
  | Installing idx st => (db, tail_install idx st n)
  | Retaining idx => (db, tail_retain idx n)
  | Snapshotting payload => tail_snapshot f db payload n
  | Truncating => tail_truncate f db n
  | Halted => (db, n)
  end.

Definition flush_step (f : Fault) (db : MetaDb) (n : Node) : option (MetaDb * Node * list Answer) :=
  match nd_flush n with
  | Idle => None
  | Batched batch => Some (db, flush_load batch n, [])
  | Loaded next batch => Some (db, (flush_register next batch n).1, (flush_register next batch n).2)
  | Appending next token batch => Some (flush_append f db next token batch n)
  | Waiting next token batch => (λ p, (db, p.1, p.2)) <$> flush_receive next token batch n
  | Refreshing batch => Some (db, (flush_refresh f db batch n).1, (flush_refresh f db batch n).2)
  end.

Definition cluster_step (config : SqlSinkConfig) (id : Z) (a : Action) (c : Cluster) : option Cluster :=
  let member m := {| cl_db := cl_db c; cl_members := <[id := m]> (cl_members c); cl_answers := cl_answers c |} in
  let gone := {| cl_db := cl_db c; cl_members := delete id (cl_members c); cl_answers := cl_answers c |} in
  match a, cl_members c !! id with
  | ActJoin, None => Some (member (Opening open_start))
  | ActCrash, Some _ => Some gone
  | ActOpen f, Some (Opening o) =>
      match open_step config f (cl_db c) o with Some m => Some (member m) | None => Some gone end
  | ActTail f, Some (Running n) =>
      let '(db, n) := tail_step config f (cl_db c) n in
      Some {| cl_db := db; cl_members := <[id := Running n]> (cl_members c); cl_answers := cl_answers c |}
  | ActTake batch, Some (Running n) =>
      match nd_flush n, batch with
      | Idle, _ :: _ => if (length batch <=? sc_max_batch config)%nat then Some (member (Running (flush_take batch n))) else None
      | _, _ => None
      end
  | ActFlush f, Some (Running n) =>
      '(db, n, answers) ← flush_step f (cl_db c) n;
      Some {| cl_db := db; cl_members := <[id := Running n]> (cl_members c);
              cl_answers := cl_answers c ++ ((λ a, (id, mv_applied_index (load (nd_views n)), a)) <$> answers) |}
  | _, _ => None
  end.

Definition cluster_start : Cluster := {| cl_db := migrated; cl_members := ∅; cl_answers := [] |}.

Fixpoint cluster_run (config : SqlSinkConfig) (steps : list (Z * Action)) (c : Cluster) : option Cluster :=
  match steps with
  | [] => Some c
  | (id, a) :: steps => c ← cluster_step config id a c; cluster_run config steps c
  end.
