(* ===== verification/SqlAgree.v ===== *)
(** * Nodes over one SQL log agree

    As long as no node appends at or below the index of the stored snapshot,
    the rows form one log: every view is the state after a prefix of it, and
    every answer is the result of applying its command there. The run at the
    end breaks the condition. *)

From Stdlib Require Import ZArith Lia.
From Stdlib Require Import Strings.Byte.
From stdpp Require Import base numbers list strings sets gmap sorting.
From S2P Require Import Prelude StreamTypes MetaState MetaApply MetaInv MetaHistory MetaCodec MetaSnapshot MetaService.
From S2P Require Import SqlStore SqlSink.

Open Scope Z_scope.
Open Scope rust_scope.

(** ** The log *)
Definition log_state (L : list Batch) (i : Z) : MetadataState :=
  foldl (λ st b, (apply_batch st b.*2).1) new_state (take (Z.to_nat i) L).
Definition row_at (L : list Batch) (idx : Z) : option Batch := if 1 <=? idx then L !! Z.to_nat (idx - 1) else None.
Definition results_at (L : list Batch) (idx : Z) : BatchResults :=
  from_option (λ b, (apply_batch (log_state L (idx - 1)) b.*2).2) [] (row_at L idx).
Notation tip L := (Z.of_nat (length L)).

Lemma row_at_bounds L idx b : row_at L idx = Some b → 1 <= idx <= tip L.
Proof. unfold row_at. destruct (Z.leb_spec 1 idx); [|done]. intros Hl%lookup_lt_Some. lia. Qed.
Lemma row_at_is_Some L idx : 1 <= idx <= tip L → is_Some (row_at L idx).
Proof. intros H. unfold row_at. rewrite (proj2 (Z.leb_le _ _)) by lia. apply lookup_lt_is_Some. lia. Qed.
Lemma row_at_app L x idx b : row_at L idx = Some b → row_at (L ++ [x]) idx = Some b.
Proof. unfold row_at. destruct (1 <=? idx); [|done]. apply lookup_app_l_Some. Qed.
Lemma row_at_end L b : row_at (L ++ [b]) (tip L + 1) = Some b.
Proof.
  unfold row_at. rewrite (proj2 (Z.leb_le _ _)) by lia. replace (Z.to_nat (tip L + 1 - 1)) with (length L) by lia.
  apply list_lookup_middle. done.
Qed.
Lemma log_state_app L x i : i <= tip L → log_state (L ++ [x]) i = log_state L i.
Proof. intros H. unfold log_state. by rewrite take_app_le by lia. Qed.
Lemma results_at_app L x idx b : row_at L idx = Some b → results_at (L ++ [x]) idx = results_at L idx.
Proof.
  intros H. unfold results_at. rewrite H, (row_at_app _ _ _ _ H). cbn. apply row_at_bounds in H.
  by rewrite log_state_app by lia.
Qed.
Lemma log_state_row L idx b : row_at L idx = Some b → log_state L idx = (apply_batch (log_state L (idx - 1)) b.*2).1.
Proof.
  intros H. pose proof (row_at_bounds _ _ _ H). unfold row_at in H. rewrite (proj2 (Z.leb_le _ _)) in H by lia.
  unfold log_state. replace (Z.to_nat idx) with (S (Z.to_nat (idx - 1))) by lia.
  rewrite (take_S_r _ _ _ H), foldl_app. done.
Qed.
Lemma results_at_row L idx b : row_at L idx = Some b → results_at L idx = (apply_batch (log_state L (idx - 1)) b.*2).2.
Proof. intros H. unfold results_at. by rewrite H. Qed.

Definition row_ok (L : list Batch) (idx : Z) (payload : list byte) : Prop :=
  ∃ b, row_at L idx = Some b ∧ payload = encode_batch b.*2.

(** Rows a task still has to apply: rows of the log above [applied], where
    only rows up to the stored snapshot's index [k] are missing. *)
Fixpoint rows_ok (L : list Batch) (k applied : Z) (rows : list Row) : Prop :=
  match rows with
  | [] => True
  | (idx, payload) :: rows =>
      applied < idx ∧ (applied + 1 < idx → idx - 1 <= k) ∧ row_ok L idx payload ∧ rows_ok L k idx rows
  end.

Lemma row_ok_app L x idx payload : row_ok L idx payload → row_ok (L ++ [x]) idx payload.
Proof. intros (b & H & E). exists b. split; [by apply row_at_app|done]. Qed.
Lemma rows_ok_app L x k applied rows : rows_ok L k applied rows → rows_ok (L ++ [x]) k applied rows.
Proof.
  revert applied. induction rows as [|[idx p] rows IH]; intros applied; [done|]. intros (H1 & H2 & H3 & H4).
  split_and!; [done..|by apply row_ok_app|by apply IH].
Qed.
Lemma rows_ok_mono L k k' applied rows : k <= k' → rows_ok L k applied rows → rows_ok L k' applied rows.
Proof.
  intros Hk. revert applied. induction rows as [|[idx p] rows IH]; intros applied; [done|]. intros (H1 & H2 & H3 & H4).
  split_and!; [done|lia|done|by apply IH].
Qed.
Lemma rows_ok_take L k applied rows limit : rows_ok L k applied rows → rows_ok L k applied (take limit rows).
Proof.
  revert applied limit. induction rows as [|[idx p] rows IH]; intros applied [|limit]; try done.
  intros (H1 & H2 & H3 & H4). split_and!; [done..|by apply IH].
Qed.

(** ** What holds of a cluster *)
Section Agree.
Context (config : SqlSinkConfig).
Hypothesis Hmax : Z.of_nat (sc_max_batch config) < two32.

Definition batch_ok (b : Batch) : Prop := Forall command_ok b.*2 ∧ (length b <= sc_max_batch config)%nat.

(** States that snapshots preserve. *)
Definition good (st : MetadataState) : Prop := Inv st ∧ snapshot_fits st.

(** The counters and the row counts have room for the commands. *)
Fixpoint batch_room (st : MetadataState) (commands : list MetadataCommand) : Prop :=
  match commands with
  | [] => snapshot_fits st
  | c :: commands => room st c ∧ batch_room (apply st c).1 commands
  end.

Record log_ok (L : list Batch) : Prop := {
  lo_batches : Forall batch_ok L;
  lo_states : ∀ i, 0 <= i <= tip L → good (log_state L i);
}.

Definition snapshot_idx (db : MetaDb) : Z := from_option fst 0 (db_snapshot db).

Record db_ok (L : list Batch) (db : MetaDb) : Prop := {
  do_rows : ∀ idx payload, db_log db !! idx = Some payload → row_ok L idx payload;
  do_snapshot : 0 <= snapshot_idx db <= tip L;
  do_kept : ∀ idx, snapshot_idx db < idx <= tip L → is_Some (db_log db !! idx);
  do_payload : ∀ k payload, db_snapshot db = Some (k, payload) → payload = Snap.encode (log_state L k);
}.

Definition open_ok (L : list Batch) (k : Z) (o : OpenTask) : Prop :=
  match op_stage o with
  | OpenLoad => True
  | OpenFetch | OpenGap _ => 0 <= op_applied o <= tip L ∧ op_state o = log_state L (op_applied o)
  | OpenRows rows =>
      0 <= op_applied o <= tip L ∧ op_state o = log_state L (op_applied o) ∧ rows_ok L k (op_applied o) rows
  end.

Definition view_idx (n : Node) : Z := mv_applied_index (load (nd_views n)).

(** [k] is the index of the stored snapshot. *)
Definition tail_ok (L : list Batch) (k : Z) (n : Node) : Prop :=
  match nd_tail n with
  | Fetching | Retaining _ => True
  | Restoring => nd_applied n < k
  | Halted => False
  | Applying rows => rows_ok L k (nd_applied n) rows
  | Publishing idx results rows =>
      idx = nd_applied n ∧ results = results_at L idx ∧ is_Some (row_at L idx) ∧ rows_ok L k (nd_applied n) rows
  | Delivering idx results rows =>
      idx = nd_applied n ∧ results = results_at L idx ∧ is_Some (row_at L idx) ∧ rows_ok L k (nd_applied n) rows ∧
      view_idx n = idx
  | Installing idx st => nd_applied n < idx <= tip L ∧ st = log_state L idx
  | Snapshotting payload => payload = Snap.encode (nd_state n)
  | Truncating => nd_applied n <= k
  end.

(** The registration of the flusher is the only one. *)
Record reg_ok (L : list Batch) (n : Node) (next : Z) (token : nat) : Prop := {
  ro_next : 1 <= next <= tip L + 1;
  ro_token : (token < nd_next_token n)%nat;
  ro_only : ∀ idx tok, nd_pending n !! idx = Some tok → idx = next ∧ tok = token;
  ro_gone : is_Some (nd_channels n !! token) → nd_pending n = ∅;
  ro_results : ∀ rs, nd_channels n !! token = Some (Some rs) →
    next <= view_idx n ∧ is_Some (row_at L next) ∧ rs = results_at L next;
}.

Definition flush_ok (L : list Batch) (n : Node) : Prop :=
  match nd_flush n with
  | Idle => nd_pending n = ∅
  | Batched b | Refreshing b => batch_ok b ∧ nd_pending n = ∅
  | Loaded next b => batch_ok b ∧ nd_pending n = ∅ ∧ 1 <= next <= tip L + 1
  | Appending next token b => batch_ok b ∧ reg_ok L n next token
  | Waiting next token b => row_at L next = Some b ∧ reg_ok L n next token
  end.

Record node_ok (L : list Batch) (k : Z) (n : Node) : Prop := {
  no_applied : 0 <= nd_applied n <= tip L;
  no_state : nd_state n = log_state L (nd_applied n);
  no_clean : nd_poisoned n = false;
  no_seen : 0 <= nd_last_seen n <= tip L;
  no_view : 0 <= view_idx n <= nd_applied n ∧ mv_state (load (nd_views n)) = log_state L (view_idx n);
  no_channels : ∀ t, is_Some (nd_channels n !! t) → (t < nd_next_token n)%nat;
  no_tail : tail_ok L k n;
  no_flush : flush_ok L n;
}.

Definition member_ok (L : list Batch) (k : Z) (m : Member) : Prop :=
  match m with Opening o => open_ok L k o | Running n => node_ok L k n end.

Definition log_pids (L : list Batch) : list nat := (concat L).*1.

(** The proposals that are neither answered nor in the log. *)
Definition inflight (m : Member) : list nat :=
  match m with
  | Running n =>
      match nd_flush n with
      | Batched b | Refreshing b | Loaded _ b | Appending _ _ b => b.*1
      | Idle | Waiting _ _ _ => []
      end
  | Opening _ => []
  end.

Record pids_ok (L : list Batch) (members : gmap Z Member) : Prop := {
  po_log : NoDup (log_pids L);
  po_member : ∀ id m, members !! id = Some m → NoDup (inflight m) ∧ ∀ p, p ∈ inflight m → p ∉ log_pids L;
  po_apart : ∀ id1 id2 m1 m2 p, members !! id1 = Some m1 → members !! id2 = Some m2 →
    p ∈ inflight m1 → p ∈ inflight m2 → id1 = id2;
}.

(** The answer of a proposal is the result of its command in the log, and
    the view its caller can load has it. *)
Definition answer_ok (L : list Batch) (a : Z * Z * Answer) : Prop :=
  ∀ p, a.2.2 = Ok p → pr_applied_index p <= a.1.2 ∧
    ∃ b j c, row_at L (pr_applied_index p) = Some b ∧ b !! j = Some (a.2.1, c) ∧
      results_at L (pr_applied_index p) !! j = Some (Ok (pr_result p)).

Record cluster_ok (L : list Batch) (c : Cluster) : Prop := {
  co_log : log_ok L;
  co_db : db_ok L (cl_db c);
  co_members : ∀ id m, cl_members c !! id = Some m → member_ok L (snapshot_idx (cl_db c)) m;
  co_pids : pids_ok L (cl_members c);
  co_answers : Forall (answer_ok L) (cl_answers c);
}.

(** ** Runs *)

(** The log with the row a step inserts. *)
Definition flush_log (f : Fault) (db : MetaDb) (L : list Batch) (n : Node) : list Batch :=
  match nd_flush n with
  | Appending next _ batch =>
      match db_log db !! next, db_log (append f db next (encode_batch batch.*2)).1 !! next with
      | None, Some _ => L ++ [batch]
      | _, _ => L
      end
  | _ => L
  end.
Definition log_after (c : Cluster) (L : list Batch) (id : Z) (a : Action) : list Batch :=
  match a, cl_members c !! id with
  | ActFlush f, Some (Running n) => flush_log f (cl_db c) L n
  | _, _ => L
  end.

(** What a step relies on: proposals are new and well formed, a row is
    appended above the stored snapshot, and the state has room for it. *)
Definition step_ok (c : Cluster) (L : list Batch) (id : Z) (a : Action) : Prop :=
  match a, cl_members c !! id with
  | ActTake batch, _ =>
      Forall command_ok batch.*2 ∧ NoDup batch.*1 ∧
      ∀ p, p ∈ batch.*1 → p ∉ log_pids L ∧ ∀ id' m, cl_members c !! id' = Some m → p ∉ inflight m
  | ActFlush _, Some (Running n) =>
      match nd_flush n with
      | Appending next _ batch =>
          snapshot_idx (cl_db c) < next ∧ batch_room (log_state L (tip L)) batch.*2
      | _ => True
      end
  | _, _ => True
  end.

Inductive sql_reach : Cluster → list Batch → Prop :=
| sql_reach_start : sql_reach cluster_start []
| sql_reach_step c L id a c' :
    sql_reach c L → step_ok c L id a → cluster_step config id a c = Some c' → sql_reach c' (log_after c L id a).

(** ** Rows and snapshots are read back *)
Lemma log_ok_row L idx b : log_ok L → row_at L idx = Some b → decode_batch (encode_batch b.*2) = Ok b.*2.
Proof.
  intros HL Hb. apply decode_batch_exact. unfold row_at in Hb. destruct (1 <=? idx); [|done].
  destruct (Forall_lookup_1 _ _ _ _ (lo_batches _ HL) Hb) as [Hw Hlen]. split_and!; [|unfold fits_u32|done].
  - eapply Forall_impl; [exact Hw|]. by intros c [? _].
  - rewrite length_fmap. lia.
Qed.
Lemma log_ok_snapshot L k : log_ok L → 0 <= k <= tip L → Snap.decode (Snap.encode (log_state L k)) = Ok (log_state L k).
Proof. intros HL Hk. destruct (lo_states _ HL k Hk). by apply snapshot_roundtrip. Qed.

Lemma apply_row L idx b : row_at L idx = Some b →
  apply_batch (log_state L (idx - 1)) b.*2 = (log_state L idx, results_at L idx).
Proof. intros H. rewrite (log_state_row _ _ _ H), (results_at_row _ _ _ H). by destruct (apply_batch _ _). Qed.

Lemma sorted_rows_ok L k applied rows :
  StronglySorted (λ p q : Row, p.1 < q.1) rows → (∀ r, r ∈ rows → applied < r.1 ∧ row_ok L r.1 r.2) →
  (∀ idx, Z.max applied k < idx <= tip L → idx ∈ rows.*1) → rows_ok L k applied rows.
Proof.
  intros Hs. revert applied. induction Hs as [|[idx p] rows Hs IH Hall]; intros applied Hr Hk; [done|].
  destruct (Hr (idx, p) ltac:(left)) as [Ha Hp]. cbn in Ha, Hp. rewrite Forall_forall in Hall.
  assert (∀ j, j ∈ rows.*1 → idx < j) as Hlt by (intros j (r & -> & Hin)%list_elem_of_fmap; by apply (Hall r)).
  destruct Hp as (b & Hb & Ep). pose proof (row_at_bounds _ _ _ Hb). split_and!; [done| |by exists b|apply IH].
  - intros Hgap. apply Z.nlt_ge. intros Hlow. specialize (Hk (idx - 1) ltac:(lia)). cbn in Hk.
    apply elem_of_cons in Hk as [?|Hin]; [lia|]. specialize (Hlt _ Hin). lia.
  - intros r Hin. split; [by apply (Hall r)|]. apply (Hr r). by right.
  - intros j Hj. specialize (Hk j ltac:(lia)). cbn in Hk. apply elem_of_cons in Hk as [?|Hin]; [lia|done].
Qed.

Lemma fetched_rows_ok f L db applied limit rows :
  db_ok L db → fetch_after f db applied limit = Ok rows → rows_ok L (snapshot_idx db) applied rows.
Proof.
  intros HD. unfold fetch_after, to_i64. destruct (_ <=? _); [|done].
  destruct f as [[]|]; [done..|]. cbn. intros [= <-]. apply rows_ok_take, sorted_rows_ok.
  - eapply StronglySorted_sublist; [apply sublist_filter|apply ord_list_ids_strict].
  - intros [idx p] [Ha Hin]%list_elem_of_filter. split; [done|]. apply (do_rows _ _ HD). by apply elem_of_ord_list.
  - intros idx Hi. destruct (do_kept _ _ HD idx ltac:(lia)) as [p Hp]. apply list_elem_of_fmap. exists (idx, p).
    split; [done|]. apply list_elem_of_filter. split; [cbn; lia|]. by apply elem_of_ord_list.
Qed.

(** The invariant survives a longer log and a later snapshot. *)
Lemma reg_ok_app L x n next token : reg_ok L n next token → reg_ok (L ++ [x]) n next token.
Proof.
  intros [H1 H2 H3 H4 H5]. split; [rewrite length_app; cbn; lia|done..|].
  intros rs Hrs. destruct (H5 rs Hrs) as (Hv & [b Hb] & ->).
  split_and!; [done|exists b; by apply row_at_app|]. by erewrite results_at_app.
Qed.
Lemma flush_ok_app L x n : flush_ok L n → flush_ok (L ++ [x]) n.
Proof.
  unfold flush_ok. destruct (nd_flush n); [done..| | | |done].
  - intros (? & ? & ?). split_and!; [done..|lia|rewrite length_app; cbn; lia].
  - intros [? ?]. split; [done|]. by apply reg_ok_app.
  - intros [? ?]. split; [by apply row_at_app|]. by apply reg_ok_app.
Qed.
Lemma tail_ok_app L x k n : tail_ok L k n → tail_ok (L ++ [x]) k n.
Proof.
  unfold tail_ok. destruct (nd_tail n); try done.
  - apply rows_ok_app.
  - intros (-> & -> & [b Hb] & Hr). split_and!; [done|by erewrite results_at_app|exists b; by apply row_at_app|by apply rows_ok_app].
  - intros (-> & -> & [b Hb] & Hr & ?).
    split_and!; [done|by erewrite results_at_app|exists b; by apply row_at_app|by apply rows_ok_app|done].
  - intros [Hi ->]. split; [rewrite length_app; cbn; lia|]. by rewrite log_state_app by lia.
Qed.
Lemma member_ok_app L x k m : member_ok L k m → member_ok (L ++ [x]) k m.
Proof.
  destruct m as [o|n]; cbn.
  - unfold open_ok. rewrite length_app. cbn. destruct (op_stage o); [done|..].
    1, 3: intros [? ->]; split; [lia|]; by rewrite log_state_app by lia.
    intros (? & -> & ?). split_and!; [lia..|by rewrite log_state_app by lia|by apply rows_ok_app].
  - intros []. destruct no_view0. split; rewrite ?length_app; cbn [length].
    all: try done; try lia; try (rewrite log_state_app by lia; done).
    + by apply tail_ok_app.
    + by apply flush_ok_app.
Qed.
Lemma member_ok_mono L k k' m : k <= k' → member_ok L k m → member_ok L k' m.
Proof.
  intros Hk. destruct m as [o|n]; cbn.
  - unfold open_ok. destruct (op_stage o); [done..| |done]. intros (? & ? & ?). split_and!; [lia..|done|by eapply rows_ok_mono].
  - intros []. split; try done. unfold tail_ok in *. destruct (nd_tail n); destruct_and?; split_and?; try done; try lia.
    all: by eapply rows_ok_mono.
Qed.

(** ** Opening *)
Lemma load_snapshot_ok f L db k payload : db_ok L db → load_snapshot f db = Ok (Some (k, payload)) →
  k = snapshot_idx db ∧ 0 <= k <= tip L ∧ payload = Snap.encode (log_state L k).
Proof.
  intros HD. unfold load_snapshot. destruct f as [[]|]; [done..|]. cbn. intros [= E].
  pose proof (do_snapshot _ _ HD) as Hs. pose proof (do_payload _ _ HD _ _ E). unfold snapshot_idx in *. rewrite E in *. done.
Qed.

Lemma opened_ok L k st applied base stage : 0 <= applied <= tip L → st = log_state L applied →
  match stage with OpenRows rows => rows_ok L k applied rows | _ => True end →
  member_ok L k (Opening {| op_state := st; op_applied := applied; op_snapshot_base := base; op_stage := stage |}).
Proof. intros [? ?] -> Hs. destruct stage; cbn; unfold open_ok; cbn; by split_and?. Qed.

Lemma node_new_ok L k st applied base : 0 <= applied <= tip L → st = log_state L applied → node_ok L k (node_new st applied base).
Proof.
  intros Ha ->. split; try done; cbn [node_new nd_applied nd_views view_idx]; unfold view_idx; cbn; [|by intros t [? ?]].
  split; [lia|done].
Qed.

Lemma snapshot_opened f L db k payload base : log_ok L → db_ok L db → load_snapshot f db = Ok (Some (k, payload)) →
  ∃ st, Snap.decode payload = Ok st ∧
    member_ok L (snapshot_idx db) (Opening {| op_state := st; op_applied := k; op_snapshot_base := base; op_stage := OpenFetch |}).
Proof.
  intros HL HD (-> & Hk & ->)%(load_snapshot_ok _ _ _ _ _ HD). exists (log_state L (snapshot_idx db)).
  split; [by apply log_ok_snapshot|]. by apply opened_ok.
Qed.

Lemma open_step_ok f L db o m : log_ok L → db_ok L db → open_ok L (snapshot_idx db) o →
  open_step config f db o = Some m → member_ok L (snapshot_idx db) m.
Proof.
  intros HL HD Ho. unfold open_step. destruct (op_stage o) as [| |[|[idx payload] rows]|idx] eqn:Es; unfold open_ok in Ho; rewrite Es in Ho.
  - unfold open_load. destruct (load_snapshot f db) as [[[k payload]|]|] eqn:El; [| |done].
    + destruct (snapshot_opened _ _ _ _ _ k HL HD El) as (st & -> & Hm). by intros [= <-].
    + intros [= <-]. apply opened_ok; [lia|done|done].
  - destruct Ho as [Ha Hst]. unfold open_fetch. destruct (fetch_after _ _ _ _) as [[|r rows]|] eqn:Ef; [| |done]; intros [= <-].
    + by apply node_new_ok.
    + apply opened_ok; [done..|]. by eapply fetched_rows_ok.
  - destruct Ho as (Ha & Hst & _). intros [= <-]. by apply opened_ok.
  - destruct Ho as (Ha & Hst & Hlt & Hgap & (b & Hb & ->) & Hr). unfold open_row.
    destruct (Z.ltb_spec (op_applied o + 1) idx) as [Hl|Hl]; [intros [= <-]; by apply opened_ok|].
    rewrite (log_ok_row _ _ _ HL Hb). intros [= <-]. pose proof (row_at_bounds _ _ _ Hb).
    apply opened_ok; [lia| |done]. rewrite Hst. replace (op_applied o) with (idx - 1) by lia. by rewrite (apply_row _ _ _ Hb).
  - unfold open_gap. destruct (load_snapshot f db) as [[[k payload]|]|] eqn:El; [|done..].
    destruct (snapshot_opened _ _ _ _ _ k HL HD El) as (st & -> & Hm). by intros [= <-].
Qed.

(** ** The tailer *)
Lemma flush_ok_frame L n n' :
  nd_pending n' = nd_pending n → nd_channels n' = nd_channels n → nd_next_token n' = nd_next_token n →
  nd_flush n' = nd_flush n → view_idx n <= view_idx n' → flush_ok L n → flush_ok L n'.
Proof.
  intros Ep Ec Et Ef Hv. unfold flush_ok. rewrite Ef, Ep.
  assert (∀ next token, reg_ok L n next token → reg_ok L n' next token) as Hreg.
  { intros next token [H1 H2 H3 H4 H5]. split; rewrite ?Ep, ?Ec, ?Et; try done.
    intros rs Hrs. destruct (H5 rs Hrs) as (? & ? & ?). split_and!; [lia|done..]. }
  destruct (nd_flush n); try done; intros [? ?]; split; auto.
Qed.

Ltac flush_frame :=
  lazymatch goal with H : flush_ok ?L ?n |- flush_ok ?L _ =>
    apply (flush_ok_frame L n); [done..| |exact H]; unfold view_idx in *; cbn; lia end.
Ltac stay Hn := destruct Hn; split; try done; try flush_frame.

Lemma tail_fetch_ok f L db n : db_ok L db → nd_tail n = Fetching → node_ok L (snapshot_idx db) n →
  node_ok L (snapshot_idx db) (tail_fetch config f db n).
Proof.
  intros HD Et Hn. unfold tail_fetch. destruct (fetch_after _ _ _ _) as [[|r rows]|] eqn:Ef; [done| |done].
  stay Hn. by eapply fetched_rows_ok.
Qed.

Lemma tail_apply_ok L k idx payload rows n : log_ok L → nd_tail n = Applying ((idx, payload) :: rows) → node_ok L k n →
  node_ok L k (tail_apply idx payload rows n).
Proof.
  intros HL Et Hn. destruct Hn. unfold tail_ok in no_tail0. rewrite Et in no_tail0.
  destruct no_tail0 as (Hlt & Hgap & (b & Hb & ->) & Hr). unfold tail_apply.
  destruct (Z.ltb_spec (nd_applied n + 1) idx) as [Hl|Hl]; [split; try done; try flush_frame; cbn; lia|].
  rewrite (log_ok_row _ _ _ HL Hb), no_state0. replace (nd_applied n) with (idx - 1) by lia.
  rewrite (apply_row _ _ _ Hb). pose proof (row_at_bounds _ _ _ Hb). destruct no_view0 as [Hv Hvs].
  split; try done; try flush_frame; cbn; try lia.
  all: (split_and!; [done..|by exists b|done]) || (split; [|done]; unfold view_idx in *; cbn; lia).
Qed.

Lemma tail_publish_ok L k idx results rows n : nd_tail n = Publishing idx results rows → node_ok L k n →
  node_ok L k (tail_publish idx results rows n).
Proof.
  intros Et Hn. destruct Hn. unfold tail_ok in no_tail0. rewrite Et in no_tail0. destruct no_tail0 as (-> & -> & Hb & Hr).
  destruct no_view0 as [Hv Hvs]. unfold tail_publish. split; try done; try flush_frame.
  - unfold view_idx. cbn. split; [lia|done].
Qed.

Lemma tail_install_ok L k idx st n : nd_tail n = Installing idx st → node_ok L k n → node_ok L k (tail_install idx st n).
Proof.
  intros Et Hn. destruct Hn. unfold tail_ok in no_tail0. rewrite Et in no_tail0. destruct no_tail0 as (Hi & ->).
  destruct no_view0 as [Hv Hvs]. unfold tail_install. split; try done; try flush_frame; cbn; try lia.
  - unfold view_idx. cbn. split; [lia|done].
Qed.

Lemma tail_restore_ok f L db n : log_ok L → db_ok L db → nd_tail n = Restoring → node_ok L (snapshot_idx db) n →
  node_ok L (snapshot_idx db) (tail_restore f db n).
Proof.
  intros HL HD Et Hn. destruct Hn. unfold tail_ok in no_tail0. rewrite Et in no_tail0. unfold tail_restore.
  destruct (load_snapshot f db) as [[[k payload]|]|] eqn:El; [| |by split; try done; flush_frame].
  - apply (load_snapshot_ok _ _ _ _ _ HD) in El as (-> & Hk & ->). rewrite (proj2 (Z.leb_gt _ _)) by done.
    rewrite log_ok_snapshot by done. split; try done; try flush_frame. cbn. split; [lia|done].
  - unfold load_snapshot in El. destruct f as [[]|]; [done..|]. cbn in El. injection El as El.
    unfold snapshot_idx in no_tail0. rewrite El in no_tail0. cbn in no_tail0. lia.
Qed.

(** At most the sender of the flusher's batch is registered. *)
Lemma flush_pending L n : flush_ok L n → nd_pending n = ∅ ∨
  ∃ next token, nd_pending n = {[next := token]} ∧ nd_channels n !! token = None ∧ reg_ok L n next token ∧
    ∀ n', nd_flush n' = nd_flush n → reg_ok L n' next token → flush_ok L n'.
Proof.
  intros Hf. destruct (decide (nd_pending n = ∅)) as [|He]; [by left|]. right.
  assert (∃ next token, reg_ok L n next token ∧ ∀ n', nd_flush n' = nd_flush n → reg_ok L n' next token → flush_ok L n')
    as (next & token & Hr & Hf').
  { unfold flush_ok in *. destruct (nd_flush n) as [| | |next token ?|next token ?|]; destruct_and?; try done.
    all: exists next, token; split; [done|]; intros n' -> ?; done. }
  exists next, token. destruct Hr as [H1 H2 H3 H4 H5]. split_and!; [|..|by split|done].
  - apply map_choose in He as (i & t & Hi). destruct (H3 _ _ Hi) as [-> ->].
    apply map_eq. intros i. destruct (decide (i = next)) as [->|]; [by rewrite lookup_singleton_eq|].
    rewrite lookup_singleton_ne by done. apply eq_None_not_Some. intros [t Ht]. by destruct (H3 _ _ Ht).
  - apply eq_None_not_Some. intros Hc. by apply He, H4.
Qed.

(** The sender sends or is dropped. *)
Lemma reg_sent L n n' next token sent : reg_ok L n next token →
  nd_next_token n' = nd_next_token n → nd_pending n' = ∅ → nd_channels n' = <[token := sent]> (nd_channels n) →
  (∀ rs, sent = Some rs → next <= view_idx n' ∧ is_Some (row_at L next) ∧ rs = results_at L next) → reg_ok L n' next token.
Proof.
  intros [H1 H2 H3 H4 H5] Et Ep Ec Hs. split; rewrite ?Et, ?Ep, ?Ec; try done.
  intros rs. rewrite lookup_insert_eq. intros [= E]. by apply Hs.
Qed.
Lemma channels_sent n n' token sent : (token < nd_next_token n)%nat → nd_next_token n' = nd_next_token n →
  nd_channels n' = <[token := sent]> (nd_channels n) →
  (∀ t, is_Some (nd_channels n !! t) → (t < nd_next_token n)%nat) → ∀ t, is_Some (nd_channels n' !! t) → (t < nd_next_token n')%nat.
Proof. intros Ht -> -> Hc t [v [[-> _]|[_ H]]%lookup_insert_Some]; [done|by apply Hc]. Qed.

Lemma tail_deliver_ok L k idx results rows n : nd_tail n = Delivering idx results rows → node_ok L k n →
  node_ok L k (tail_deliver idx results rows n).
Proof.
  intros Et Hn. destruct Hn. unfold tail_ok in no_tail0. rewrite Et in no_tail0.
  destruct no_tail0 as (Hi & -> & Hb & Hr & Hv). unfold tail_deliver. cbn.
  destruct (nd_pending n !! idx) as [t|] eqn:Ep; [|split; try done; flush_frame].
  destruct (flush_pending _ _ no_flush0) as [E|(next & token & E & Hc & Hreg & Hf)]; rewrite E in Ep; [done|].
  apply lookup_singleton_Some in Ep as [-> ->]. split; try done.
  - eapply channels_sent; [exact (ro_token _ _ _ _ Hreg)|done..].
  - apply Hf; [done|]. eapply reg_sent; [exact Hreg|done| |done|].
    + cbn. rewrite E. apply delete_singleton_eq.
    + intros rs [= <-]. split_and!; [|done..]. unfold view_idx in *. cbn. lia.
Qed.

Lemma drop_none keep n : nd_pending n = ∅ → drop_pending keep n = n.
Proof. destruct n. cbn. intros ->. unfold drop_pending. cbn. by rewrite !map_filter_empty. Qed.
Lemma drop_one keep n next token : nd_pending n = {[next := token]} →
  drop_pending keep n =
    if keep next then n else n <| nd_pending := ∅ |> <| nd_channels := <[token := None]> (nd_channels n) |>.
Proof.
  destruct n. cbn. intros ->. unfold drop_pending. cbn. rewrite !map_filter_singleton. cbn.
  destruct (keep next); repeat case_decide; try done. by rewrite map_to_list_singleton.
Qed.

Lemma tail_retain_ok L k idx n : node_ok L k n → node_ok L k (tail_retain idx n).
Proof.
  intros Hn. unfold tail_retain. destruct (flush_pending _ _ (no_flush _ _ _ Hn)) as [E|(next & token & E & Hc & Hreg & Hf)].
  { rewrite drop_none by done. stay Hn. }
  rewrite (drop_one _ _ _ _ E). destruct (idx <? next); [stay Hn|]. destruct Hn. split; try done.
  - eapply channels_sent; [exact (ro_token _ _ _ _ Hreg)|done..].
  - apply Hf; [done|]. by eapply reg_sent.
Qed.

Lemma tail_rows_done_ok L k n : node_ok L k n → node_ok L k (tail_rows_done config n).
Proof. intros Hn. unfold tail_rows_done. destruct (_ && _); stay Hn. Qed.

Lemma store_snapshot_ok f L db applied db' r : db_ok L db → 0 <= applied <= tip L →
  store_snapshot f db applied (Snap.encode (log_state L applied)) = (db', r) →
  db_ok L db' ∧ snapshot_idx db <= snapshot_idx db' ∧ (r = Ok tt → applied <= snapshot_idx db').
Proof.
  intros HD Ha. destruct HD. unfold store_snapshot, to_i64. destruct (_ <=? _); [|intros [= <- <-]; split_and!; [by split|lia|done]].
  set (new := match db_snapshot db with Some _ => _ | None => _ end).
  assert (db_ok L new ∧ snapshot_idx db <= snapshot_idx new ∧ applied <= snapshot_idx new) as (H1 & H2 & H3).
  { subst new. unfold snapshot_idx in *. destruct (db_snapshot db) as [[old p]|] eqn:Es; cbn in *;
      [destruct (Z.ltb_spec old applied); [|split_and!; [split; unfold snapshot_idx; rewrite ?Es; done|rewrite ?Es; cbn; lia..]]|].
    all: split_and!; cbn; [|lia..]; split; unfold snapshot_idx; cbn; try done; [intros j Hj; apply do_kept0; lia|congruence]. }
  destruct f as [[]|]; cbn; intros [= <- <-]; split_and!; try done; try lia; by split.
Qed.

Lemma truncate_log_ok f L db up_to : db_ok L db → up_to <= snapshot_idx db → 
  db_ok L (truncate_log f db up_to).1 ∧ snapshot_idx (truncate_log f db up_to).1 = snapshot_idx db.
Proof.
  intros HD Hu. unfold truncate_log, to_i64. destruct (_ <=? _); [|done].
  assert (db_ok L (db <| db_log := filter (λ r : Row, up_to < r.1) (db_log db) |>)).
  { destruct HD. split; try done; cbn.
    - intros idx p [H _]%map_lookup_filter_Some. by apply do_rows0.
    - intros idx Hi. destruct (do_kept0 idx Hi) as [p Hp]. exists p. apply map_lookup_filter_Some. split; [done|]. cbn.
      unfold snapshot_idx in *. cbn in *. lia. }
  by destruct f as [[]|].
Qed.

Lemma tail_step_ok f L db n db' n' : log_ok L → db_ok L db → node_ok L (snapshot_idx db) n →
  tail_step config f db n = (db', n') → db_ok L db' ∧ snapshot_idx db <= snapshot_idx db' ∧ node_ok L (snapshot_idx db') n'.
Proof.
  intros HL HD Hn. unfold tail_step. pose proof (no_tail _ _ _ Hn) as Ht. unfold tail_ok in Ht.
  destruct (nd_tail n) as [|[|[idx p] rows]|idx results rows|idx results rows| |idx st|idx|payload| |] eqn:Et; [..|done].
  1-8: intros [= <- <-]; split_and!; [done|lia|].
  - by apply tail_fetch_ok.
  - by apply tail_rows_done_ok.
  - by apply tail_apply_ok.
  - by apply tail_publish_ok.
  - by apply tail_deliver_ok.
  - by apply tail_restore_ok.
  - by apply tail_install_ok.
  - by apply tail_retain_ok.
  - unfold tail_snapshot. destruct (store_snapshot _ _ _ _) as [db1 r] eqn:Es. intros [= <- <-].
    rewrite Ht, (no_state _ _ _ Hn) in Es. apply (store_snapshot_ok _ _ _ _ _ _ HD (no_applied _ _ _ Hn)) in Es as (H1 & H2 & H3).
    split_and!; [done..|]. apply (member_ok_mono _ _ _ (Running n) H2) in Hn. cbn in Hn.
    destruct r as [[]|]; stay Hn. by apply H3.
  - intros [= <- <-]. destruct (truncate_log_ok f L db (nd_applied n) HD Ht) as [H1 ->]. split_and!; [done|lia|stay Hn].
Qed.

(** ** The flusher *)
Lemma append_cases f db next payload :
  ((append f db next payload).1 = db ∧ (append f db next payload).2 ≠ Ok true) ∨
  (db_log db !! next = None ∧ (append f db next payload).1 = db <| db_log := <[next := payload]> (db_log db) |> ∧
   (append f db next payload).2 ≠ Ok false).
Proof.
  unfold append, to_i64. destruct (_ <=? _); [|by left].
  destruct (db_log db !! next) eqn:E; destruct f as [[]|]; cbn; (by left) || (by right).
Qed.

(** A batch that took effect is the next entry of the log. *)
Lemma appended_ok L db next b : log_ok L → db_ok L db → batch_ok b → 1 <= next <= tip L + 1 →
  snapshot_idx db < next → db_log db !! next = None → batch_room (log_state L (tip L)) b.*2 →
  next = tip L + 1 ∧ log_ok (L ++ [b]) ∧ db_ok (L ++ [b]) (db <| db_log := <[next := encode_batch b.*2]> (db_log db) |>).
Proof.
  intros HL HD Hb Hnext Hk He Hroom. assert (next = tip L + 1) as ->.
  { apply Z.le_antisymm; [lia|]. apply Z.nlt_ge. intros Hlt. destruct (do_kept _ _ HD next ltac:(lia)) as [p Hp]. congruence. }
  split; [done|]. split.
  - destruct HL as [HL1 HL2]. split; [by apply Forall_app_2; [|apply Forall_singleton]|]. rewrite length_app. cbn. intros i Hi.
    destruct (decide (i <= tip L)); [rewrite log_state_app by done; apply HL2; lia|].
    replace i with (tip L + 1) by lia. rewrite (log_state_row _ _ _ (row_at_end L b)).
    replace (tip L + 1 - 1) with (tip L) by lia. rewrite log_state_app by lia.
    destruct (HL2 (tip L) ltac:(lia)) as [HI _]. destruct Hb as [Hc _]. clear -HI Hroom Hc.
    revert HI Hroom. generalize (log_state L (tip L)) as st. induction Hc as [|c cs Hc Hcs IH]; intros st HI Hr; [done|].
    destruct Hr as [Hr1 Hr2]. cbn. specialize (IH _ (apply_Inv _ _ HI Hc Hr1) Hr2).
    destruct (apply st c) as [st1 r]. cbn in IH |- *. by destruct (apply_batch st1 cs).
  - pose proof (do_snapshot _ _ HD) as Hs. split; rewrite ?length_app; cbn [length db_log db_snapshot snapshot_idx].
    + cbn. intros idx p [[<- <-]|[_ H]]%lookup_insert_Some; [exists b; split; [apply row_at_end|done]|].
      by apply row_ok_app, (do_rows _ _ HD).
    + unfold snapshot_idx in *. cbn. lia.
    + unfold snapshot_idx in *. cbn in *. intros idx Hi. destruct (decide (idx = tip L + 1)) as [->|]; [by rewrite lookup_insert_eq|].
      rewrite lookup_insert_ne by done. apply (do_kept _ _ HD). unfold snapshot_idx. lia.
    + cbn. intros k p E. unfold snapshot_idx in Hs. rewrite E in Hs. rewrite log_state_app by (cbn in Hs; lia).
      by apply (do_payload _ _ HD).
Qed.

Lemma reg_cleared L n next token : reg_ok L n next token → delete next (nd_pending n) = ∅.
Proof.
  intros [_ _ H3 _ _]. apply map_empty. intros i. apply eq_None_not_Some. intros [t [Hi Ht]%lookup_delete_Some].
  by destruct (H3 _ _ Ht).
Qed.

Definition answers_ok (L : list Batch) (n : Node) (answers : list Answer) : Prop :=
  ∀ id, Forall (answer_ok L) ((λ a, (id, view_idx n, a)) <$> answers).
Lemma fail_all_ok L n batch message : answers_ok L n (fail_all batch message).
Proof. intros id. apply Forall_fmap, Forall_fmap, Forall_true. by intros [pid c] p. Qed.
Lemma answer_batch_ok L n next batch : row_at L next = Some batch → next <= view_idx n →
  answers_ok L n (answer_batch next batch (results_at L next)).
Proof.
  intros Hb Hv id. apply Forall_fmap, Forall_lookup_2. intros j a Ha. unfold answer_batch in Ha.
  apply lookup_zip_with_Some in Ha as ([pid c] & r & -> & Hw & Hr). intros p. cbn. destruct r as [res|]; [|done]. intros [= <-].
  split; [done|]. by exists batch, j, c.
Qed.

Lemma last_idx_ok f L db last : db_ok L db → last_idx f db = Ok last → last <= tip L.
Proof.
  intros HD. unfold last_idx. destruct f as [[]|]; [done..|]. cbn. unfold to_u64. destruct (_ <? 0); [done|]. intros [= <-].
  pose proof (do_snapshot _ _ HD). apply Z.max_lub; [|unfold snapshot_idx in *; lia]. unfold max_idx.
  assert (∀ j, j ∈ (map_to_list (db_log db)).*1 → j <= tip L) as Hj.
  { intros j ([i p] & -> & Hp%elem_of_map_to_list)%list_elem_of_fmap. destruct (do_rows _ _ HD _ _ Hp) as (b & Hb & _).
    by destruct (row_at_bounds _ _ _ Hb). }
  induction (map_to_list (db_log db)).*1 as [|j l IH]; cbn; [lia|]. apply Z.max_lub; [apply Hj; left|]. apply IH. intros ??. apply Hj. by right.
Qed.

(** The outcome of an action of the flusher: the log it leaves, the tables
    and the node. *)
Definition flushed (L L' : list Batch) (db db' : MetaDb) (n n' : Node) (answers : list Answer) : Prop :=
  log_ok L' ∧ db_ok L' db' ∧ snapshot_idx db' = snapshot_idx db ∧ node_ok L' (snapshot_idx db) n' ∧ answers_ok L' n' answers ∧
  ((L' = L ∧ (inflight (Running n') = inflight (Running n) ∨ inflight (Running n') = [])) ∨
   ∃ b, L' = L ++ [b] ∧ inflight (Running n) = b.*1 ∧ inflight (Running n') = []).

Lemma node_flush_ok L k n n' :
  nd_state n' = nd_state n → nd_applied n' = nd_applied n → nd_tail n' = nd_tail n → nd_views n' = nd_views n →
  nd_poisoned n' = nd_poisoned n → 0 <= nd_last_seen n' <= tip L →
  (∀ t, is_Some (nd_channels n' !! t) → (t < nd_next_token n')%nat) →
  node_ok L k n → flush_ok L n' → node_ok L k n'.
Proof.
  intros E1 E2 E3 E4 E5 Hs Hc [] Hf. unfold view_idx, tail_ok in *.
  split; unfold view_idx, tail_ok; rewrite ?E1, ?E2, ?E3, ?E4, ?E5; unfold view_idx; rewrite ?E4; try done.
Qed.

Lemma flush_register_ok L db n next batch : log_ok L → db_ok L db → node_ok L (snapshot_idx db) n → nd_flush n = Loaded next batch →
  flushed L L db db n (flush_register next batch n).1 (flush_register next batch n).2.
Proof.
  intros HL HD Hn Ef. pose proof Hn as [_ _ Hp Hs _ Hc _ Hf]. unfold flush_ok in Hf. rewrite Ef in Hf. destruct Hf as (Hb & E & Hnext).
  unfold flush_register. rewrite Hp. cbn. rewrite E, lookup_empty. split_and!; try done; [|by intros id|left; split; [done|left; cbn; by rewrite Ef]].
  eapply node_flush_ok; try exact Hn; try done; cbn.
  - intros t Ht. specialize (Hc t Ht). lia.
  - split; [done|]. split; cbn; try done; [lia|..].
    + intros idx tok. rewrite insert_empty. intros [-> ->]%lookup_singleton_Some. done.
    + intros Ht. specialize (Hc _ Ht). lia.
    + intros rs Hrs. specialize (Hc (nd_next_token n) ltac:(by eexists)). lia.
Qed.

Lemma flush_append_ok f L db n next token batch : log_ok L → db_ok L db → node_ok L (snapshot_idx db) n →
  nd_flush n = Appending next token batch → snapshot_idx db < next → batch_room (log_state L (tip L)) batch.*2 →
  let '(db', n', answers) := flush_append f db next token batch n in flushed L (flush_log f db L n) db db' n n' answers.
Proof.
  intros HL HD Hn Ef Hk Hroom. pose proof (no_flush _ _ _ Hn) as Hf. unfold flush_ok in Hf. rewrite Ef in Hf. destruct Hf as [Hb Hreg].
  unfold flush_append, flush_log. rewrite Ef. set (payload := encode_batch _) in *.
  pose proof (append_cases f db next payload) as Hcases. destruct (append f db next payload) as [db' r]. cbn in Hcases |- *.
  pose proof (reg_cleared _ _ _ _ Hreg) as Hcl.
  destruct Hcases as [[-> Hr]|(He & -> & Hr)].
  - assert (match db_log db !! next, db_log db !! next with None, Some _ => L ++ [batch] | _, _ => L end = L) as -> by (by destruct (db_log db !! next)).
    destruct r as [[]|]; [done|..].
    all: split_and!; try done; [|by intros id|left; split; [done|left; cbn; by rewrite Ef]] ||
         (split_and!; try done; [|by apply fail_all_ok|left; split; [done|by right]]).
    all: eapply node_flush_ok; try exact Hn; try done; try apply Hn.
  - destruct (appended_ok _ _ _ _ HL HD Hb (ro_next _ _ _ _ Hreg) Hk He Hroom) as (-> & HL' & HD').
    rewrite He. cbn. rewrite lookup_insert_eq. apply (member_ok_app _ batch _ (Running n)) in Hn. cbn in Hn.
    destruct r as [[]|]; [|done|].
    all: split_and!; try done; [|by intros id|right; exists batch; split_and!; [done|cbn; by rewrite Ef|done]] ||
         (split_and!; try done; [|by apply fail_all_ok|right; exists batch; split_and!; [done|cbn; by rewrite Ef|done]]).
    all: eapply node_flush_ok; try exact Hn; try done; try apply Hn.
    cbn. split; [apply row_at_end|]. apply (reg_ok_app _ batch) in Hreg. by destruct Hreg.
Qed.

Lemma flush_step_ok f L db n db' n' answers : log_ok L → db_ok L db → node_ok L (snapshot_idx db) n →
  match nd_flush n with
  | Appending next _ batch => snapshot_idx db < next ∧ batch_room (log_state L (tip L)) batch.*2
  | _ => True
  end →
  flush_step f db n = Some (db', n', answers) → flushed L (flush_log f db L n) db db' n n' answers.
Proof.
  intros HL HD Hn Hstep. pose proof Hn as [_ _ _ Hs _ Hc _ Hf]. unfold flush_step, flush_ok in *.
  destruct (nd_flush n) as [|b|next b|next token b|next token b|b] eqn:Ef; [done|..].
  - intros [= <- <- <-]. unfold flush_log. rewrite Ef.
    split_and!; try done; [|by intros id|left; split; [done|left; cbn; by rewrite Ef]].
    eapply node_flush_ok; try exact Hn; try done. cbn. destruct Hf. split_and!; [done..|lia|lia].
  - intros [= <- <- <-]. unfold flush_log. rewrite Ef. by apply flush_register_ok.
  - intros [= E]. destruct Hstep. pose proof (flush_append_ok f L db n next token b HL HD Hn Ef) as Ha. rewrite E in Ha. by apply Ha.
  - unfold flush_log. rewrite Ef. destruct Hf as [Hb Hreg]. unfold flush_receive. destruct (nd_channels n !! token) as [sent|] eqn:Ec; [|done].
    pose proof (ro_gone _ _ _ _ Hreg ltac:(by rewrite Ec)) as He.
    assert (node_ok L (snapshot_idx db) (n <| nd_flush := Idle |>)) by (eapply node_flush_ok; try exact Hn; done).
    destruct sent as [rs|]; intros [= <- <- <-]; split_and!; try done; try (left; split; [done|by right]); [|by apply fail_all_ok].
    destruct (ro_results _ _ _ _ Hreg _ Ec) as (Hv & _ & ->). by apply answer_batch_ok.
  - unfold flush_log. rewrite Ef. unfold flush_refresh. destruct Hf as [Hb He]. destruct (last_idx f db) as [last|] eqn:El; intros [= <- <- <-].
    + apply (last_idx_ok _ _ _ _ HD) in El. split_and!; try done; [|by intros id|left; split; [done|left; cbn; by rewrite Ef]].
      eapply node_flush_ok; try exact Hn; try done. cbn. lia.
    + split_and!; try done; [|by apply fail_all_ok|left; split; [done|by right]]. eapply node_flush_ok; try exact Hn; done.
Qed.

(** ** Proposals *)
Lemma log_pids_app L b : log_pids (L ++ [b]) = log_pids L ++ b.*1.
Proof. unfold log_pids. rewrite concat_app, fmap_app. cbn. by rewrite app_nil_r. Qed.

Lemma pids_insert L ms id m' : pids_ok L ms → NoDup (inflight m') →
  (∀ p, p ∈ inflight m' → (∃ m, ms !! id = Some m ∧ p ∈ inflight m) ∨
     (p ∉ log_pids L ∧ ∀ id' m, ms !! id' = Some m → p ∉ inflight m)) →
  pids_ok L (<[id := m']> ms).
Proof.
  intros [H1 H2 H3] Hn Hp. split; [done|..].
  - intros i m [[-> <-]|[_ Hm]]%lookup_insert_Some; [|by apply (H2 i)]. split; [done|]. intros p Hin.
    destruct (Hp p Hin) as [(m & Hm & Hin')|[? _]]; [|done]. by apply (H2 _ _ Hm).
  - intros i1 i2 m1 m2 p [[-> <-]|[N1 Hm1]]%lookup_insert_Some [[-> <-]|[N2 Hm2]]%lookup_insert_Some P1 P2; try done.
    + destruct (Hp p P1) as [(m & Hm & Hin)|[_ Hf]]; [by eapply (H3 i1 i2)|]. by destruct (Hf _ _ Hm2).
    + destruct (Hp p P2) as [(m & Hm & Hin)|[_ Hf]]; [by eapply (H3 i1 i2)|]. by destruct (Hf _ _ Hm1).
    + by eapply (H3 i1 i2).
Qed.

(** The member's proposals stay, or are done. *)
Lemma pids_kept L ms id m m' : pids_ok L ms → ms !! id = Some m → inflight m' = inflight m ∨ inflight m' = [] →
  pids_ok L (<[id := m']> ms).
Proof.
  intros Hp Hm [E|E]; apply pids_insert; rewrite ?E; try done; [by apply (po_member _ _ Hp id)| |constructor|by intros p ?%not_elem_of_nil].
  intros p Hin. left. by exists m.
Qed.

Lemma pids_delete L ms id : pids_ok L ms → pids_ok L (delete id ms).
Proof.
  intros [H1 H2 H3]. split; [done|..].
  - intros i m [_ Hm]%lookup_delete_Some. by apply (H2 i).
  - intros i1 i2 m1 m2 p [_ ?]%lookup_delete_Some [_ ?]%lookup_delete_Some. by apply H3.
Qed.

Lemma pids_commit L ms id m m' b : pids_ok L ms → ms !! id = Some m → inflight m = b.*1 → inflight m' = [] →
  pids_ok (L ++ [b]) (<[id := m']> ms).
Proof.
  intros [H1 H2 H3] Hm E E'. destruct (H2 _ _ Hm) as [Hn Hd]. rewrite E in Hn, Hd. split; rewrite ?log_pids_app.
  - apply NoDup_app. split_and!; [done| |done]. intros p Hl Hin. by apply (Hd p).
  - intros i mi [[-> <-]|[Ni Hi]]%lookup_insert_Some; [rewrite E'; split; [constructor|by intros p ?%not_elem_of_nil]|].
    split; [by apply (H2 i)|]. intros p Hin [Hl|Hb]%elem_of_app; [by apply (H2 i mi Hi) in Hl|].
    apply Ni. symmetry. eapply (H3 i id); [done..|by rewrite E].
  - intros i1 i2 m1 m2 p [[-> <-]|[N1 Hm1]]%lookup_insert_Some [[-> <-]|[N2 Hm2]]%lookup_insert_Some P1 P2; try done.
    + rewrite E' in P1. by apply not_elem_of_nil in P1.
    + rewrite E' in P2. by apply not_elem_of_nil in P2.
    + by eapply (H3 i1 i2).
Qed.

(** ** Every action *)
Lemma answer_ok_app L x a : answer_ok L a → answer_ok (L ++ [x]) a.
Proof.
  intros Ha p Hp. destruct (Ha p Hp) as (Hv & b & j & cmd & Hb & Hj & Hr). split; [done|]. exists b, j, cmd.
  split_and!; [by apply row_at_app|done|by erewrite results_at_app].
Qed.

Lemma members_insert L k k' (ms : gmap Z Member) id m' : (∀ i m, ms !! i = Some m → member_ok L k m) → k <= k' → member_ok L k' m' →
  ∀ i m, <[id := m']> ms !! i = Some m → member_ok L k' m.
Proof. intros H Hk Hm i m [[-> <-]|[_ Hi]]%lookup_insert_Some; [done|]. eapply member_ok_mono; [done|by apply (H i)]. Qed.

Lemma flush_cluster_ok L L' c id n db n' answers : cluster_ok L c → cl_members c !! id = Some (Running n) →
  flushed L L' (cl_db c) db n n' answers →
  cluster_ok L' {| cl_db := db; cl_members := <[id := Running n']> (cl_members c);
    cl_answers := cl_answers c ++ ((λ a, (id, mv_applied_index (load (nd_views n')), a)) <$> answers) |}.
Proof.
  intros [C1 C2 C3 C4 C5] Hm (F1 & F2 & Ek & F4 & F5 & F6). split; cbn; try done; rewrite ?Ek.
  - destruct F6 as [[-> _]|(b & -> & _)]; (eapply members_insert; [|apply Z.le_refl|exact F4]).
    + exact C3.
    + intros i m Hi. by apply member_ok_app, (C3 i).
  - destruct F6 as [[-> ?]|(b & -> & ? & ?)]; [by eapply pids_kept|by eapply pids_commit].
  - apply Forall_app_2; [|by apply F5]. destruct F6 as [[-> _]|(b & -> & _)]; [done|].
    eapply Forall_impl; [exact C5|]. intros a. apply answer_ok_app.
Qed.

Lemma member_cluster_ok L c id m : cluster_ok L c → member_ok L (snapshot_idx (cl_db c)) m →
  pids_ok L (<[id := m]> (cl_members c)) →
  cluster_ok L {| cl_db := cl_db c; cl_members := <[id := m]> (cl_members c); cl_answers := cl_answers c |}.
Proof. intros [C1 C2 C3 C4 C5] Hm Hp. split; try done. by eapply members_insert; [exact C3|apply Z.le_refl|]. Qed.
Lemma gone_cluster_ok L c id : cluster_ok L c →
  cluster_ok L {| cl_db := cl_db c; cl_members := delete id (cl_members c); cl_answers := cl_answers c |}.
Proof.
  intros [C1 C2 C3 C4 C5]. split; try done; [|by apply pids_delete].
  cbn. intros i m [_ Hm]%lookup_delete_Some. by apply (C3 i).
Qed.

Lemma open_inflight f db o m : open_step config f db o = Some m → inflight m = [].
Proof.
  unfold open_step, open_load, open_fetch, open_row, open_gap. intros H. by repeat (case_match; simplify_eq/=).
Qed.
Lemma tail_inflight f db n : inflight (Running (tail_step config f db n).2) = inflight (Running n).
Proof.
  unfold tail_step, tail_fetch, tail_apply, tail_rows_done, tail_restore, tail_deliver, tail_snapshot.
  by repeat (case_match; simplify_eq/=).
Qed.

Lemma cluster_step_ok L c id a c' : cluster_ok L c → step_ok c L id a → cluster_step config id a c = Some c' →
  cluster_ok (log_after c L id a) c'.
Proof.
  intros HC Hs. unfold cluster_step, log_after, step_ok in *. pose proof HC as [C1 C2 C3 C4 C5].
  destruct a as [| |f|f|batch|f]; destruct (cl_members c !! id) as [[o|n]|] eqn:Em; try done.
  - intros [= <-]. apply member_cluster_ok; [done..|]. apply pids_insert; [done|constructor|by intros p ?%not_elem_of_nil].
  - intros [= <-]. by apply gone_cluster_ok.
  - intros [= <-]. by apply gone_cluster_ok.
  - destruct (open_step _ _ _ _) as [m|] eqn:Eo; intros [= <-]; [|by apply gone_cluster_ok].
    apply member_cluster_ok; [done|by eapply open_step_ok; [done..|apply (C3 _ _ Em)|]|].
    eapply pids_kept; [done..|]. right. by eapply open_inflight.
  - pose proof (tail_inflight f (cl_db c) n) as Hi. destruct (tail_step _ _ _ _) as [db n'] eqn:Et. intros [= <-].
    apply (tail_step_ok f L) in Et as (T1 & T2 & T3); [|done..|by apply (C3 _ _ Em)].
    split; try done; [by eapply members_insert|]. eapply pids_kept; [done..|by left].
  - destruct (nd_flush n) eqn:Ef; try done. destruct batch as [|w batch]; [done|]. destruct (Nat.leb_spec (length (w :: batch)) (sc_max_batch config)); [|done].
    intros [= <-]. destruct Hs as (Hw & Hnd & Hfresh). apply member_cluster_ok; [done| |].
    + pose proof (C3 _ _ Em) as Hn. cbn [member_ok] in *. pose proof Hn as [_ _ _ ? _ ? _ Hf].
      unfold flush_ok in Hf. rewrite Ef in Hf. eapply node_flush_ok; try exact Hn; done.
    + apply pids_insert; [done|exact Hnd|]. intros p Hp. right. by apply Hfresh.
  - destruct (flush_step f (cl_db c) n) as [[[db n'] answers]|] eqn:Ef; [|done]. intros [= <-].
    eapply flush_cluster_ok; [done..|]. eapply flush_step_ok; [done..|by apply (C3 _ _ Em)| |done]. exact Hs.
Qed.

Lemma cluster_start_ok : cluster_ok [] cluster_start.
Proof.
  split; try done.
  - split; [constructor|]. intros i Hi. replace i with 0 by (cbn in Hi; lia). split; [exact Inv_new_state|]. by vm_compute.
  - split; try done; cbn; unfold snapshot_idx; cbn. intros idx Hi. lia.
  - split; [constructor|done..].
Qed.

Lemma sql_reach_ok c L : sql_reach c L → cluster_ok L c.
Proof. induction 1; [exact cluster_start_ok|]. by eapply cluster_step_ok. Qed.
End Agree.

(** C7: The nodes of a cluster over one SQL log agree, under any
    interleaving of their tasks and any failed statement, as long as no node
    appends at or below the stored snapshot: the rows form one log, the view
    of every node is the state after a prefix of it, no node finds its log
    corrupt, a proposal is in the log at most once, and an acknowledged
    proposal is in it at the index it was told, with that result, under the
    view its node could load. *)
Theorem sql_replicas_agree config c L :
  Z.of_nat (sc_max_batch config) < two32 → sql_reach config c L →
  (∀ id n, cl_members c !! id = Some (Running n) →
     nd_poisoned n = false ∧ 0 <= view_idx n <= tip L ∧ mv_state (load (nd_views n)) = log_state L (view_idx n)) ∧
  (∀ id view pid p, (id, view, (pid, Ok p)) ∈ cl_answers c →
     pr_applied_index p <= view ∧
     ∃ b j command, row_at L (pr_applied_index p) = Some b ∧ b !! j = Some (pid, command) ∧
       results_at L (pr_applied_index p) !! j = Some (Ok (pr_result p))) ∧
  NoDup (log_pids L).
Proof.
  intros Hmax Hr. destruct (sql_reach_ok config Hmax c L Hr) as [_ _ C3 C4 C5]. split_and!.
  - intros id n Hn. destruct (C3 _ _ Hn). split_and!; [done|lia|lia|by destruct no_view0].
  - intros id view pid p Ha. rewrite Forall_forall in C5. by apply (C5 _ Ha).
  - apply C4.
Qed.

(** ** Checked runs *)

(** The runs below only put keys. *)
Definition put_kv_ok (c : MetadataCommand) : bool :=
  match c with
  | PutKv k v => utf8_valid (as_bytes k) && (Z.of_nat (length (as_bytes k)) <? two32) && (Z.of_nat (length v) <? two32)
  | _ => false
  end.
Lemma put_kv_ok_ok c : put_kv_ok c = true → command_ok c.
Proof. destruct c; try done. cbn. intros [[? ?%Z.ltb_lt]%andb_true_iff ?%Z.ltb_lt]%andb_true_iff. done. Qed.
#[local] Instance batch_room_decision st commands : Decision (batch_room st commands).
Proof.
  revert st. induction commands as [|c commands IH]; intros st; cbn; [unfold snapshot_fits; apply _|].
  assert (Decision (room st c)) by (unfold room; apply _). apply _.
Defined.

Definition step_okb (c : Cluster) (L : list Batch) (id : Z) (a : Action) : bool :=
  match a, cl_members c !! id with
  | ActTake batch, _ =>
      forallb put_kv_ok batch.*2 && bool_decide (NoDup batch.*1) &&
      bool_decide (Forall (λ p, p ∉ log_pids L ∧ map_Forall (λ _ m, p ∉ inflight m) (cl_members c)) batch.*1)
  | ActFlush _, Some (Running n) =>
      match nd_flush n with
      | Appending next _ batch =>
          (snapshot_idx (cl_db c) <? next) && bool_decide (batch_room (log_state L (tip L)) batch.*2)
      | _ => true
      end
  | _, _ => true
  end.

Lemma step_okb_ok c L id a : step_okb c L id a = true → step_ok c L id a.
Proof.
  unfold step_okb, step_ok. destruct a as [| | | |batch|]; try done.
  - intros [[H1 H2%bool_decide_eq_true]%andb_true_iff H3%bool_decide_eq_true]%andb_true_iff.
    split_and!; [|done|].
    { apply Forall_forall. intros cmd Hc. rewrite forallb_forall in H1. apply put_kv_ok_ok, H1. by apply list_elem_of_In. }
    intros p Hp. rewrite Forall_forall in H3. by apply H3.
  - destruct (cl_members c !! id) as [[|n]|]; try done. destruct (nd_flush n); try done.
    intros [H1%Z.ltb_lt H2%bool_decide_eq_true]%andb_true_iff. done.
Qed.

Fixpoint checked_run (config : SqlSinkConfig) (steps : list (Z * Action)) (c : Cluster) (L : list Batch) :
    option (Cluster * list Batch) :=
  match steps with
  | [] => Some (c, L)
  | (id, a) :: steps =>
      if step_okb c L id a then c' ← cluster_step config id a c; checked_run config steps c' (log_after c L id a) else None
  end.

Lemma checked_run_reach config steps c L c' L' :
  sql_reach config c L → checked_run config steps c L = Some (c', L') → sql_reach config c' L'.
Proof.
  revert c L. induction steps as [|[id a] steps IH]; intros c L Hr; cbn; [by intros [= <- <-]|].
  destruct (step_okb c L id a) eqn:Es; [|done]. destruct (cluster_step config id a c) as [c1|] eqn:Ec; [|done]. cbn.
  apply IH. eapply sql_reach_step; [done|by apply step_okb_ok|done].
Qed.

Definition tiny_config : SqlSinkConfig := {| sc_max_batch := 4; sc_fetch_limit := 10; sc_snapshot_every := 2 |}.
Definition steps_of (id : Z) (a : Action) (k : nat) : list (Z * Action) := replicate k (id, a).
Definition join_steps (id : Z) : list (Z * Action) := (id, ActJoin) :: steps_of id (ActOpen None) 2.
(** One proposal from the queue to its answer. *)
Definition propose_steps (id : Z) (batch : Batch) : list (Z * Action) :=
  (id, ActTake batch) :: steps_of id (ActFlush None) 3 ++ steps_of id (ActTail None) 5 ++ steps_of id (ActFlush None) 1.

(** Node 2 loses the race for index 1, commits row 2, snapshots, truncates
    and commits row 3; node 1 finds rows missing and reinstalls. *)
Definition agree_steps : list (Z * Action) :=
  join_steps 1 ++ join_steps 2 ++ propose_steps 1 [(0%nat, PutKv "a" [x01])] ++
  (2, ActTake [(1%nat, PutKv "a" [x02]); (2%nat, PutKv "b" [x03])]) :: steps_of 2 (ActFlush None) 7 ++
  steps_of 2 (ActTail None) 10 ++ steps_of 2 (ActFlush None) 1 ++
  propose_steps 2 [(3%nat, PutKv "c" [x04])] ++ steps_of 1 (ActTail None) 12.

Definition kv_of (c : Cluster) (id : Z) (key : string) : option (option (list byte)) :=
  match cl_members c !! id with
  | Some (Running n) => Some (ms_kv (mv_state (load (nd_views n))) !! key)
  | _ => None
  end.

Lemma sql_replicas_agree_witness :
  ∃ c L, checked_run tiny_config agree_steps cluster_start [] = Some (c, L) ∧ length L = 3%nat ∧
    (cl_answers c).*1 = [(1, 1); (2, 2); (2, 2); (2, 3)] ∧
    kv_of c 1 "a" = Some (Some [x02]) ∧ kv_of c 2 "a" = Some (Some [x02]) ∧
    (∀ id n, cl_members c !! id = Some (Running n) →
       nd_poisoned n = false ∧ 0 <= view_idx n <= tip L ∧ mv_state (load (nd_views n)) = log_state L (view_idx n)) ∧
    NoDup (log_pids L).
Proof.
  assert (∃ c L, checked_run tiny_config agree_steps cluster_start [] = Some (c, L) ∧
    (length L, (cl_answers c).*1, kv_of c 1 "a", kv_of c 2 "a") =
    (3%nat, [(1, 1); (2, 2); (2, 2); (2, 3)], Some (Some [x02]), Some (Some [x02]))) as (c & L & E & [= E1 E2 E3 E4]).
  { by do 2 eexists; split; [vm_compute; reflexivity|vm_compute]. }
  exists c, L. split; [exact E|]. apply checked_run_reach in E; [|constructor].
  destruct (sql_replicas_agree tiny_config c L ltac:(by vm_compute) E) as (H1 & _ & H3).
  split; [exact E1|]. split; [exact E2|]. split; [exact E3|]. split; [exact E4|]. split; [exact H1|exact H3].
Defined.

(** ** A stale append *)

(** Node 1 commits two rows, snapshots and truncates them; node 2 has seen
    none of it and appends at index 1. *)
Definition stale_steps : list (Z * Action) :=
  join_steps 1 ++ join_steps 2 ++
  propose_steps 1 [(0%nat, PutKv "a" [x01])] ++ propose_steps 1 [(1%nat, PutKv "b" [x02])] ++
  steps_of 1 (ActTail None) 3 ++ propose_steps 2 [(2%nat, PutKv "c" [x03])].
(** Then node 1 commits another row, node 2 catches up and node 3 opens. *)
Definition later_steps : list (Z * Action) :=
  propose_steps 1 [(3%nat, PutKv "d" [x04])] ++ steps_of 2 (ActTail None) 16 ++ join_steps 3 ++ steps_of 3 (ActOpen None) 3.

(** Nobody at or above the snapshot fetches a row below it. *)
Lemma fetch_below f db applied limit next payload :
  next <= applied → db_log db !! next = None →
  fetch_after f (db <| db_log := <[next := payload]> (db_log db) |>) applied limit = fetch_after f db applied limit.
Proof.
  intros Hn He. unfold fetch_after. destruct (to_i64 applied _) as [x|] eqn:Ex; [|done].
  assert (x = applied) as -> by (unfold to_i64 in Ex; destruct (_ <=? _); congruence).
  assert (E : filter (λ r : Row, applied < r.1) (ord_list (<[next := payload]> (db_log db))) =
    filter (λ r : Row, applied < r.1) (ord_list (db_log db))).
  { assert (AntiSymm (=) (λ p q : Row, p.1 < q.1)) by (intros p q ? ?; lia).
    eapply (StronglySorted_unique (λ p q : Row, p.1 < q.1)).
    1, 2: eapply StronglySorted_sublist; [apply sublist_filter|apply ord_list_ids_strict].
    apply NoDup_Permutation.
    1, 2: apply NoDup_filter, (NoDup_fmap_1 fst), NoDup_ord_list.
    intros [i q]. rewrite !list_elem_of_filter, !elem_of_ord_list. cbn. rewrite lookup_insert_Some. naive_solver lia. }
  destruct f as [[]|]; cbn; [done..|]. by rewrite E.
Qed.

(** A node that is where the row goes fetches it first. *)
Lemma fetch_own db next payload limit :
  0 <= next → next <= two63 - 1 → (0 < limit)%nat →
  ∃ rest, fetch_after None (db <| db_log := <[next := payload]> (db_log db) |>) (next - 1) limit = Ok ((next, payload) :: rest).
Proof.
  intros H0 Hm Hl. unfold fetch_after, to_i64. rewrite (proj2 (Z.leb_le _ _)) by lia. cbn.
  set (l := filter _ _).
  assert (Hin : (next, payload) ∈ l).
  { apply list_elem_of_filter. split; [cbn; lia|]. apply elem_of_ord_list. apply lookup_insert_eq. }
  assert (Hs : StronglySorted (λ p q : Row, p.1 < q.1) l).
  { eapply StronglySorted_sublist; [apply sublist_filter|apply ord_list_ids_strict]. }
  assert (Hge : ∀ r, r ∈ l → next <= r.1) by (intros r [? _]%list_elem_of_filter; lia).
  clearbody l. destruct Hs as [|x l Hs Hall]; [by apply not_elem_of_nil in Hin|].
  destruct limit as [|limit]; [lia|]. cbn. apply elem_of_cons in Hin as [<-|Hin]; [by eexists|].
  rewrite Forall_forall in Hall. specialize (Hall _ Hin). specialize (Hge x ltac:(left)). cbn in Hall. lia.
Qed.

Lemma run_cons config id a steps c c1 :
  cluster_step config id a c = Some c1 → cluster_run config ((id, a) :: steps) c = cluster_run config steps c1.
Proof. intros E. cbn. by rewrite E. Qed.
Lemma step_tail config id f db members answers n db' n' :
  members !! id = Some (Running n) → tail_step config f db n = (db', n') →
  cluster_step config id (ActTail f) {| cl_db := db; cl_members := members; cl_answers := answers |} =
    Some {| cl_db := db'; cl_members := <[id := Running n']> members; cl_answers := answers |}.
Proof. intros Hn E. unfold cluster_step. cbn. by rewrite Hn, E. Qed.
Lemma step_flush config id f db members answers n db' n' given :
  members !! id = Some (Running n) → flush_step f db n = Some (db', n', given) →
  cluster_step config id (ActFlush f) {| cl_db := db; cl_members := members; cl_answers := answers |} =
    Some {| cl_db := db'; cl_members := <[id := Running n']> members;
            cl_answers := answers ++ ((λ a, (id, view_idx n', a)) <$> given) |}.
Proof. intros Hn E. unfold cluster_step. cbn. by rewrite Hn, E. Qed.

(** C35: An append below the stored snapshot is acknowledged and lost. Take
    any cluster with a stored snapshot at [k] and a node that has applied the
    log up to [next - 1], with [next] not above [k], and is about to append a
    command at [next], where the log has been truncated. The statement
    succeeds; the node applies its own row and answers the proposal with
    [Ok], its view shows the effect, and the snapshot and everything that a
    node at [k] or above will ever fetch are the same as before. *)
Theorem stale_append_is_lost config c id n next token pid command k snapshot st r :
  cl_members c !! id = Some (Running n) → nd_flush n = Appending next token [(pid, command)] →
  nd_tail n = Fetching → nd_applied n = next - 1 → nd_pending n !! next = Some token →
  db_snapshot (cl_db c) = Some (k, snapshot) → 0 <= next <= k → k <= two63 - 1 → db_log (cl_db c) !! next = None →
  (0 < sc_fetch_limit config)%nat → command_ok command → apply (nd_state n) command = (st, Ok r) →
  ∃ c' n',
    cluster_run config ((id, ActFlush None) :: steps_of id (ActTail None) 4 ++ [(id, ActFlush None)]) c = Some c' ∧
    cl_answers c' = cl_answers c ++ [(id, next, (pid, Ok {| pr_applied_index := next; pr_result := r |}))] ∧
    cl_members c' !! id = Some (Running n') ∧ mv_state (load (nd_views n')) = st ∧
    db_snapshot (cl_db c') = db_snapshot (cl_db c) ∧
    ∀ f applied limit, k <= applied → fetch_after f (cl_db c') applied limit = fetch_after f (cl_db c) applied limit.
Proof.
  intros Hn Hf Ht Ha Hp Hs Hnext Hk Hrow Hlim Hc Happly.
  assert (Hdec : decode_batch (encode_batch [command]) = Ok [command]).
  { apply decode_batch_exact. split; [split; [apply Forall_singleton, Hc|done]|done]. }
  destruct (fetch_own (cl_db c) next (encode_batch [command]) (sc_fetch_limit config) ltac:(lia) ltac:(lia) Hlim) as [rest Hfetch].
  destruct c as [db members answers]. cbn [cl_db cl_members cl_answers] in *.
  set (payload := encode_batch [command]) in *. set (db' := db <| db_log := <[next := payload]> (db_log db) |>) in *.
  erewrite run_cons by (eapply step_flush; [exact Hn|]; unfold flush_step; rewrite Hf; unfold flush_append, append, to_i64;
    rewrite (proj2 (Z.leb_le _ _)) by lia; cbn [fmap list_fmap snd]; fold payload; cbn; rewrite Hrow; reflexivity).
  cbn [app steps_of replicate]. fold db'.
  erewrite run_cons by (eapply step_tail; [apply lookup_insert_eq|]; unfold tail_step; cbn; rewrite Ht;
    unfold tail_fetch; cbn; rewrite Ha, Hfetch; reflexivity).
  erewrite run_cons by (eapply step_tail; [apply lookup_insert_eq|]; unfold tail_step; cbn [nd_tail]; unfold tail_apply; cbn;
    rewrite Ha, Z.sub_add, Z.ltb_irrefl, Hdec; cbn; rewrite Happly; reflexivity).
  erewrite run_cons by (eapply step_tail; [apply lookup_insert_eq|]; reflexivity).
  erewrite run_cons by (eapply step_tail; [apply lookup_insert_eq|]; unfold tail_step; cbn; unfold tail_deliver; cbn; rewrite Hp; reflexivity).
  erewrite run_cons by (eapply step_flush; [apply lookup_insert_eq|]; unfold flush_step; cbn; unfold flush_receive; cbn;
    rewrite lookup_insert_eq; reflexivity).
  eexists _, _. split; [reflexivity|]. cbn [cl_answers cl_members cl_db]. split; [by rewrite app_nil_r|].
  split; [apply lookup_insert_eq|]. split; [done|]. split; [done|]. intros f applied limit Hap. apply fetch_below; [lia|done].
Qed.

(** The run above up to the append. *)
Definition stale_prefix : list (Z * Action) := take (length stale_steps - 7) stale_steps.
Definition stale_cluster : Cluster := default cluster_start (cluster_run tiny_config stale_prefix cluster_start).
Definition stale_node : Node :=
  match cl_members stale_cluster !! 2 with Some (Running n) => n | _ => node_new new_state 0 0 end.

Lemma stale_append_is_lost_witness :
  ∃ c', cl_answers c' = cl_answers stale_cluster ++
      [(2, 1, (2%nat, Ok {| pr_applied_index := 1; pr_result := RValue (Some [x03]) |}))] ∧
    ∀ f applied limit, 2 <= applied → fetch_after f (cl_db c') applied limit = fetch_after f (cl_db stale_cluster) applied limit.
Proof.
  destruct (stale_append_is_lost tiny_config stale_cluster 2 stale_node 1 0 2 (PutKv "c" [x03]) 2
    (default [] (snd <$> db_snapshot (cl_db stale_cluster))) (apply new_state (PutKv "c" [x03])).1 (RValue (Some [x03])))
    as (c' & n' & _ & Ha & _ & _ & _ & Hf).
  1-5, 9: by vm_compute.
  - by vm_compute.
  - lia.
  - by vm_compute.
  - vm_compute. lia.
  - split; [split; [by vm_compute|by vm_compute]|done].
  - by vm_compute.
  - exists c'. split; [exact Ha|exact Hf].
Defined.

(** The run goes on: after the next row every node, the one that acknowledged
    the command and a newly opened one included, is without it. *)
Lemma stale_run_loses_the_key :
  ∃ c c', cluster_run tiny_config stale_steps cluster_start = Some c ∧ cluster_run tiny_config later_steps c = Some c' ∧
    last (cl_answers c) = Some (2, 1, (2%nat, Ok {| pr_applied_index := 1; pr_result := RValue (Some [x03]) |})) ∧
    kv_of c 2 "c" = Some (Some [x03]) ∧ kv_of c 1 "c" = Some None ∧
    (kv_of c' 1 "c", kv_of c' 2 "c", kv_of c' 3 "c") = (Some None, Some None, Some None) ∧
    (kv_of c' 1 "d", kv_of c' 2 "d", kv_of c' 3 "d") = (Some (Some [x04]), Some (Some [x04]), Some (Some [x04])).
Proof.
  do 2 eexists. split; [vm_compute; reflexivity|]. split; [vm_compute; reflexivity|]. by vm_compute.
Qed.
